(* ===== verification/_CoqProject ===== *)
-Q . S2P
Prelude.v
Iface.v
Abi.v
Seccomp.v
Phys.v
PageTable.v
PageTree.v
PageFork.v
PageVec.v
PageLocks.v
Ctrl.v
GuestMem.v
GuestView.v
GuestSpec.v
GuestMap.v
Arena.v
Quota.v
Path.v
Vfs.v
Tmpfs.v
TmpfsPath.v
TmpfsInv.v
TmpfsSpec.v
Overlay.v
OverlaySpec.v
Mount.v
MountPath.v
MountSpec.v
Fd.v
NsChain.v
PidNs.v
Text.v
UserNs.v
UserNsSpec.v
Cgroup.v
CgroupSpec.v
Ns.v
NsSpec.v
FileLocks.v
PageCache.v
PageCacheSpec.v
MemCalls.v
MemTrack.v
MemSpec.v
MemDemo.v
Ipc.v
Mqueue.v
Futex.v
A64.v
A64Alu.v
A64Mem.v
A64Ldst.v
A64Flags.v
A64Bits.v
A64Safe.v
A64Eff.v
A64Run.v
MemIface.v
Sched.v
Softfloat.v
SoftReal.v
SoftRound.v
SoftArith.v
SoftInt.v
SoftPack.v
