(* ===== verification/Prelude.v ===== *)
(** * nixvm: a verified model

    nixvm runs Linux programs without a Linux kernel: a user-space kernel written in Rust
    answers the guest's system calls, and the guest's code runs on a hardware back end or on a
    software interpreter. Guest code is untrusted, so what the host must get right is isolation
    (an address space, a seccomp filter, a namespace, a quota), and what guests rely on is that
    the kernel's objects behave like Linux's. This development models the parts that carry
    those guarantees and proves them.

    ** Parts of the program, and the files that model them

    Memory, from the bottom up ([src/vcpu]):
    - [Phys]: [region.rs] and [phys.rs]. [Region] is the byte array, [Pool] the frame pool with
      its reference counts and free list; one definition per method.
    - [PageTable], [PageTree], [PageFork]: [pagetable.rs]. [PageTable] is the code, over the
      bytes of the pool, level by level. [PageTree] gives a tree of tables its meaning, a finite
      map from pages to leaves, and [is_space], the ownership of frames; [PageFork] adds
      copy-on-write fork and teardown.
    - [PageVec] and [PageLocks]: [pagevec.rs] and [pagelocks.rs], the per-page tables and the
      locked ranges a space keeps beside its page tables. [Ctrl]: [ctrl.rs], the supervisor pages.
    - [GuestMem]: [mem.rs], a process's address space. [GuestView] is the byte view of a space,
      [GuestSpec] what reads and writes do to it, [GuestMap] what [map], [unmap], [protect] and
      a copy-on-write fault do to it.
    - [Arena]: the [Arena] of [mod.rs], which hands out places for mappings. [PageCache]:
      [pagecache.rs], the pages of shared file mappings. [MemCalls]: the memory system calls of
      [mod.rs], [mem_syscalls.rs] and [attrs.rs], over all of these. [PageCacheSpec] and
      [MemSpec] hold their theorems, [MemTrack] the relational logic that says which pages an
      operation may newly map, [MemDemo] concrete runs.

    Files ([src/fs]): [Vfs] is the trait and its attributes ([mod.rs]). [Tmpfs] is [tmpfs.rs];
    [TmpfsPath], [TmpfsInv] and [TmpfsSpec] its paths, invariant and theorems. [Mount] is
    [mount.rs], the mount table with link resolution and propagation; [MountPath] and [MountSpec]
    its lemmas and theorems. [Overlay] is [overlay.rs], a writable layer over another file system,
    and [OverlaySpec] its theorems.

    Kernel ([src/kernel], [src/abi], [src/limits.rs]):
    - [Abi]: [src/abi], the two syscall tables and the error numbers.
    - [Seccomp]: [seccomp.rs], the filter validator and interpreter, installation and the check.
    - [Quota]: [limits.rs], one step per atomic access of a thread.
    - [Path]: [path.rs]. [Fd]: [fd.rs], descriptor tables over a store of shared open files.
    - [NsChain], [PidNs]: [pidns.rs], namespaces of process ids and their ancestors. [UserNs]:
      [userns.rs], user namespaces and their id maps, with [Text], decimal numbers and fields of
      the control files. [Ns]: [ns.rs] and the namespace calls ([unshare], [setns], the flags
      of [clone]). [UserNsSpec] and [NsSpec] hold their theorems.
    - [Cgroup]: the hierarchy of control groups ([fs/cgroupfs.rs], [cgroup.rs]), with its theorems
      in [CgroupSpec].
    - [FileLocks]: the record locks, [flock] locks and seals of [fcntl.rs].
    - [Ipc]: message queues and semaphore sets of [ipc.rs]. [Mqueue]: [mqueue.rs].
    - [Futex]: [futex.rs] and the interruption of a wait ([mod.rs]).
    - [Sched]: the run queue of [mod.rs] ([impl Shared], [charge_vruntime]).

    AArch64 interpreter ([src/vcpu/interp.rs], [interp/]): [A64] (the vcpu, words), [A64Alu]
    ([alu.rs]), [A64Mem] (the fetch cache, [branch.rs]), [A64Ldst] ([ldst.rs], the dispatcher
    [exec], the loop [vcpu_run] and the [Vcpu] methods). [A64Flags], [A64Bits], [A64Safe], [A64Eff]
    and [A64Run] hold its theorems.

    Software floating point ([src/vcpu/softfloat.rs]): [Softfloat] is the code; [SoftReal] says
    over the reals what correct rounding to a format is, [SoftRound] proves the code's one rounding
    point against it, and [SoftArith], [SoftInt] and [SoftPack] the operations.

    ** How the parts meet

    A syscall handler reads and writes guest memory through the class [Iface.GuestMem]; a
    futex names a shared word by [Futex.SharedWords]; a vcpu loads, stores and fetches through
    [A64Mem.CpuMem]. The handlers and the interpreter are proved against these classes, and
    [MemIface] gives the instances built from [GuestMem]'s page tables, so those theorems hold
    over real address spaces. [A64Run.FetchMem] adds what [fetch_exact] needs: which pages are
    unaliased, so that a store elsewhere leaves them alone. A plain byte array is an instance, and
    so is an address space for the pages of its extent if it has no shared pages; where two
    addresses map one frame, and above [2^48] ([MemIface.noncanonical_alias]), the cache can show
    old bytes. [Ipc] charges the counter of [Quota]; [Futex] translates thread ids
    with [PidNs]. A mount table works over any file system that implements the record of
    operations [Vfs.MountFs], and [Tmpfs] is its instance in the examples; an overlay
    works over any two of them; the page cache and
    the memory calls run over that mount table, the pool of [Phys], the space of [GuestMem] and
    the seals of [FileLocks]. [Ns] composes [UserNs], [PidNs] and [Mount].

    ** Conventions

    A w-bit integer is a [Z] with its wrap-around written out. [res] is a value or a [Panic] (a
    failed assertion, an index out of range, an [expect]); [ST] threads a state through it.
    Errors the source returns are values ([Errno], sums, options). Where a build with overflow
    checks and a release build differ, an operation takes a flag [checks], and its theorems hold
    for both; two groups of 32-bit counters are left to wrap as in a release build, those of the
    mount table (peer groups, hidden names, pivots) and the namespace ids of [Ns], and theorems
    that need them fresh say that they have not run out. The clock, the identity of files and the process teardown of other subsystems are
    arguments.

    Loops that are not structural carry fuel that the theorems show is enough: the copy loops
    of [GuestMem] have the length of the buffer, the page loops the number of pages, the
    descriptor search the size of the table, the chain of a namespace's ancestors the number of
    namespaces, the program of a filter its length, [replicate]'s loop 64 (its largest
    count), the square root 68 digits, the propagation of a mount (n + 2)^2 + 1 rounds over a
    table of n mounts ([propagation_terminates]), the arena's merge the number of free ranges, the
    read of a page the bytes still wanted, the chain and the subtree of a control group the number
    of groups ([subtree_spec]). [copy_up_returns] shows the depth at which a copy into the upper
    layer of an overlay returns. The walk of links is structural on the source's
    budget of 40. [A64Ldst.vcpu_run] makes the source's own [MAX_STEPS] iterations.

    ** What the theorems show

    - Isolation of memory: a write by one process is never seen by another ([write_isolated]);
      fork withdraws write permission on both sides and fails atomically ([fork_spec]); the page
      tables refine a finite map ([map_spec]), the pool's counts are exactly the references
      held, in builds with and without assertions ([pool_invariant]); map ([mmap_spec]), unmap, protect and the copy-on-write fault act on
      exactly the pages named ([GuestMap]).
    - Placement: the arena refines a set of unused addresses ([arena_refines]), and in every run
      of memory calls an [mmap] that chooses its place lands where nothing is mapped
      ([mmap_lands_free]). Reads and writes of a file agree with its mappings
      ([page_cache_coherent]); two runs show where the code falls short of that
      ([failed_map_hides_file], [fixed_map_reaches_file]).
    - Confinement: a validated filter neither crashes nor runs off its end ([validate_sound]), a
      call passes only when every filter allows it ([seccomp_check_sound]). A path resolved in a
      root stays below it, links to missing directories apart ([canonical_confined]), unless the
      root's own path holds a link ([linked_root_escapes]). Namespace
      calls give a task no authority it did not have ([namespace_calls_confined]), except joining
      a user namespace by a pidfd, which gives any task authority over it ([pidfd_setns_escapes]); an id map written without privilege
      maps only its author ([unprivileged_map_confined]).
    - Files: the tree of an in-memory file system stays well formed and its counters exact
      ([tmpfs_invariant]), a failed call changes nothing ([tmpfs_failure_atomic]), a rename moves
      exactly a subtree ([tmpfs_rename_moves]), what is written is read back
      ([tmpfs_write_read]); pivoting keeps paths ([pivot_keeps_paths]); propagation
      reaches each slave group once and ends ([propagation_terminates]).
      Copying into the upper layer of an overlay is invisible and deleting hides exactly what was
      deleted ([overlay_copy_on_write]); renaming a directory partly in the upper layer
      loses the rest of it ([overlay_rename_loses]).
    - Kernel objects: locks of different owners never conflict over a byte ([locks_exclude]) and
      [F_SETLK] changes exactly the bytes asked for ([setlk_bytes]); a semaphore batch is atomic
      ([semop_atomic]) and the tables stay within their limits ([ipc_invariant]); a message queue
      lives while something refers to it ([mq_lifetime]); a wake is never lost
      ([futex_no_lost_wake]); ids translate back and forth ([pid_translation],
      [id_translation]); the quota counts exactly what is held, under every interleaving
      ([quota_accounting]).
    - Control groups: the hierarchy stays a tree with exact counts ([cgroup_counts]) and no fork
      takes a group over its limit ([pids_max_enforced]).
    - Scheduling: from boot, with tasks coming and going, runnable tasks get shares within a bound
      ([fair_share]), and every one runs within a bound that grows with the tasks cloned
      meanwhile ([no_starvation]); an endless chain of clones starves it ([clone_chain_starves]).
    - The interpreter: the fetch cache is invisible ([fetch_exact]), exclusive accesses are
      atomic ([exclusive_atomic]), and bitfield moves mean what the architecture says ([bitfield_moves]).
    - Floating point: the operations are the exact result rounded once ([sse_arith_correct],
      [fma_rounds_once]), conversions to integers are right at every bound ([to_int_correct]).

    ** Not modelled

    The x86-64 interpreter and the vector instructions of both interpreters: of the AArch64 one
    they are an argument of its model ([exec_simd_fp], which the source gives no access to
    memory). Networking, the passthrough and image file systems, the hardware back ends and the
    command line are input and output against the host; the text file systems (proc, sys, dev, the
    text of control group files) render other state. The dispatcher as a whole, fork, exec, exit
    and wait, signals and timers, pipes, polling and terminals and the calls of System V shared
    memory other than the detach an [munmap] causes are parts of the kernel that are not covered: each ties together
    most of the others, and none is assumed by the theorems above. *)
From stdpp Require Import base gmap sets list strings numbers.
Local Open Scope Z_scope.

(** * Machine integers

    A w-bit unsigned integer of the source is a [Z] in [0, 2^w). *)

Definition U8 : Z := 2 ^ 8.
Definition U16 : Z := 2 ^ 16.
Definition U32 : Z := 2 ^ 32.
Definition U64 : Z := 2 ^ 64.

(** [wrapping_*] on an unsigned type of modulus [m]. *)
Definition wrap (m z : Z) : Z := z mod m.

(** [checked_add] on [u64]/[usize]. *)
Definition checked_add64 (a b : Z) : option Z :=
  if a + b <? U64 then Some (a + b) else None.

(** [saturating_sub]. *)
Definition sat_sub (a b : Z) : Z := Z.max 0 (a - b).

(** [as i32], [as i64] and [as i16] of an unsigned value. *)
Definition as_i32 (z : Z) : Z :=
  let w := z mod U32 in if w <? 2 ^ 31 then w else w - U32.
Definition as_i64 (z : Z) : Z :=
  let w := z mod U64 in if w <? 2 ^ 63 then w else w - U64.
Definition as_i16 (z : Z) : Z :=
  let w := z mod U16 in if w <? 2 ^ 15 then w else w - U16.

(** [div_ceil] and [next_multiple_of]. *)
Definition div_ceil (a b : Z) : Z := (a + b - 1) / b.
Definition next_multiple_of (a b : Z) : Z := div_ceil a b * b.
Definition is_multiple_of (a b : Z) : bool := a mod b =? 0.

(** [lia] with division and remainder by constants. *)
Ltac divlia := Z.to_euclidean_division_equations; lia.

(** * Panics and state

    [res A] is a computation of the source that returns or panics (a failed
    [assert!], an index out of range, an [expect] on [None]).  [ST S A] threads
    a state of type [S] through such computations. *)

Inductive res (A : Type) : Type :=
  | Ok (a : A)
  | Panic.
Arguments Ok {A} a.
Arguments Panic {A}.

Global Instance res_ret : MRet res := λ A a, Ok a.
Global Instance res_bind : MBind res := λ A B k m,
  match m with Ok a => k a | Panic => Panic end.

Definition ST (S A : Type) : Type := S → res (A * S).

Global Instance ST_ret {S} : MRet (ST S) := λ A a s, Ok (a, s).
Global Instance ST_bind {S} : MBind (ST S) := λ A B k m s,
  match m s with Ok (a, s') => k a s' | Panic => Panic end.

Definition st_panic {S A} : ST S A := λ _, Panic.
Definition st_get {S} : ST S S := λ s, Ok (s, s).
Definition st_put {S} (s : S) : ST S unit := λ _, Ok (tt, s).

(** [for x in l { f x }] in the state monad. *)
Fixpoint st_iter {S A} (f : A → ST S unit) (l : list A) : ST S unit :=
  match l with
  | [] => mret tt
  | x :: l => _ ← f x; st_iter f l
  end.

(** A loop whose body may return early with an error. *)
Fixpoint st_try {S A E} (f : A → ST S (option E)) (l : list A) : ST S (option E) :=
  match l with
  | [] => mret None
  | x :: l => r ← f x; match r with Some e => mret (Some e) | None => st_try f l end
  end.

Lemma st_iter_app {S A} (f : A → ST S unit) l1 l2 s :
  st_iter f (l1 ++ l2) s = (st_iter f l1 ≫= λ _, st_iter f l2) s.
Proof.
  revert s; induction l1 as [|x l1 IH]; intros s; [done|].
  cbn. unfold mbind, ST_bind. destruct (f x s) as [[[] s']|]; [|done].
  apply IH.
Qed.

(** * Little-endian byte strings *)

Fixpoint le_bytes (n : nat) (v : Z) : list Z :=
  match n with
  | O => []
  | S n => v mod U8 :: le_bytes n (v / U8)
  end.

Fixpoint le_val (bs : list Z) : Z :=
  match bs with
  | [] => 0
  | b :: bs => b + U8 * le_val bs
  end.

Definition is_byte (b : Z) : Prop := 0 ≤ b < U8.

Lemma length_le_bytes n v : length (le_bytes n v) = n.
Proof. revert v; induction n as [|n IH]; intros v; simpl; [done|by rewrite IH]. Qed.

Lemma le_bytes_is_byte n v : Forall is_byte (le_bytes n v).
Proof.
  revert v; induction n as [|n IH]; intros v; simpl; constructor; [|apply IH].
  apply Z.mod_pos_bound. done.
Qed.

Lemma le_val_bytes n v : le_val (le_bytes n v) = v mod U8 ^ Z.of_nat n.
Proof.
  revert v; induction n as [|n IH]; intros v; simpl.
  - by rewrite Z.mod_1_r.
  - rewrite IH, Nat2Z.inj_succ, Z.pow_succ_r by lia.
    rewrite Z.rem_mul_r; [lia|done|apply Z.pow_pos_nonneg; [done|lia]].
Qed.

Lemma le_val_bytes_id n v : 0 ≤ v < U8 ^ Z.of_nat n → le_val (le_bytes n v) = v.
Proof. intros H. rewrite le_val_bytes. by apply Z.mod_small. Qed.

Lemma le_val_bound bs : Forall is_byte bs → 0 ≤ le_val bs < U8 ^ Z.of_nat (length bs).
Proof.
  induction 1 as [|b bs Hb _ IH]; simpl; [done|].
  rewrite Nat2Z.inj_succ, Z.pow_succ_r by lia. unfold is_byte, U8 in *. lia.
Qed.

Lemma le_bytes_val bs : Forall is_byte bs → le_bytes (length bs) (le_val bs) = bs.
Proof.
  induction 1 as [|b bs Hb _ IH]; simpl; [done|]. unfold is_byte in Hb.
  rewrite (Z.mul_comm U8), Z_mod_plus_full, Z.mod_small by done.
  rewrite Z.div_add, Z.div_small, Z.add_0_l by done. by rewrite IH.
Qed.

(** * Bit operations *)

Create HintDb bits.
Create Rewrite HintDb bits.
#[export] Hint Rewrite Z.land_spec Z.lor_spec Z.lxor_spec Z.ldiff_spec
  Z.bits_0 : bits.
#[export] Hint Rewrite Z.shiftl_spec Z.shiftr_spec Z.lnot_spec using lia : bits.
#[export] Hint Rewrite andb_false_r andb_true_r orb_false_r orb_true_r
  andb_false_l andb_true_l orb_false_l orb_true_l : bits.

Lemma testbit_high v n i : 0 ≤ v < 2 ^ n → n ≤ i → Z.testbit v i = false.
Proof.
  intros Hv Hi. destruct (decide (0 ≤ n)) as [Hn|Hn].
  - destruct (decide (v = 0)) as [->|Hv0]; [apply Z.bits_0|].
    apply Z.bits_above_log2; [lia|].
    apply Z.lt_le_trans with n; [|done]. apply Z.log2_lt_pow2; lia.
  - rewrite Z.pow_neg_r in Hv by lia. lia.
Qed.

Lemma testbit_low_aligned v n i : 0 ≤ n → v mod 2 ^ n = 0 → i < n → Z.testbit v i = false.
Proof.
  intros Hn Hv Hi. destruct (decide (0 ≤ i)) as [H0|H0]; [|apply Z.testbit_neg_r; lia].
  apply Z.mod_divide in Hv as [q ->]; [|apply Z.pow_nonzero; lia].
  rewrite Z.mul_pow2_bits by done. apply Z.testbit_neg_r. lia.
Qed.

(** Two numbers with no common bit add up by [lor]. *)
Lemma lor_add_aligned a b n : 0 ≤ n → a mod 2 ^ n = 0 → 0 ≤ b < 2 ^ n → Z.lor a b = a + b.
Proof.
  intros Hn Ha Hb. symmetry. rewrite Z.add_nocarry_lxor, Z.lxor_lor; [done| |].
  all: apply Z.bits_inj'; intros i Hi; autorewrite with bits.
  all: destruct (decide (i < n)) as [H|H].
  all: try (rewrite (testbit_low_aligned a n i) by done; done).
  all: rewrite (testbit_high b n i) by lia; by autorewrite with bits.
Qed.

Lemma land_low_ones a n : 0 ≤ n → Z.land a (2 ^ n - 1) = a mod 2 ^ n.
Proof. intros Hn. rewrite <- Z.land_ones by done. f_equal. rewrite Z.ones_equiv. lia. Qed.

(** * Mapping a fallible function *)

Lemma mapM_res_Ok {A B} (f : A → res B) l vs :
  mapM f l = Ok vs ↔ Forall2 (λ x v, f x = Ok v) l vs.
Proof.
  split.
  - revert vs; induction l as [|x l IH]; intros vs; cbn; [intros [= <-]; constructor|].
    unfold mbind, res_bind. destruct (f x) as [v|] eqn:Hx; [|done].
    destruct (mapM f l) as [vs'|]; [|done]. intros [= <-]. constructor; [done|by apply IH].
  - induction 1 as [|x v l vs Hx _ IH]; cbn; [done|].
    unfold mbind, res_bind in *. by rewrite Hx, IH.
Qed.

Lemma mapM_res_total {A B} (f : A → res B) l :
  (∀ x, x ∈ l → ∃ v, f x = Ok v) → ∃ vs, mapM f l = Ok vs.
Proof.
  induction l as [|x l IH]; intros H; [by exists []|].
  destruct (H x) as [v Hv]; [set_solver|]. destruct IH as [vs Hvs]; [set_solver|].
  exists (v :: vs). apply mapM_res_Ok. constructor; [done|]. by apply mapM_res_Ok.
Qed.

(** * Lists *)

Lemma filter_iff_in {A} (P Q : A → Prop) `{∀ x, Decision (P x), ∀ x, Decision (Q x)} (l : list A) :
  (∀ x, x ∈ l → P x ↔ Q x) → filter P l = filter Q l.
Proof.
  induction l as [|x l IH]; intros Hx; [done|]. rewrite !filter_cons, IH by set_solver.
  pose proof (Hx x ltac:(set_solver)). repeat case_decide; tauto || done.
Qed.
