(* ===== verification/Iface.v ===== *)
(** Interfaces between components.

    [GuestMem] is what the kernel's syscall handlers rely on when they copy from
    and to guest memory: [src/vcpu/mem.rs] implements it ([read_vec], [write]);
    the handlers' theorems are proved against it. *)
From S2P Require Import Prelude.
From stdpp Require Import base list numbers.
Local Open Scope Z_scope.

(** [gm_read m addr len]: [GuestMemory::read_vec], [None] for its error.
    [gm_write m addr bs]: [GuestMemory::write]. *)
Class GuestMem (M : Type) := {
  gm_read : M → Z → Z → option (list Z);
  gm_write : M → Z → list Z → option M;
  gm_read_length m addr len bs :
    0 ≤ len → gm_read m addr len = Some bs → Z.of_nat (length bs) = len;
  gm_read_bytes m addr len bs :
    gm_read m addr len = Some bs → Forall is_byte bs;
}.

(** [read_u32] and [read_u64]: little-endian reads through [read]. *)
Definition gm_read_u32 `{GuestMem M} (m : M) (addr : Z) : option Z :=
  le_val <$> gm_read m addr 4.
Definition gm_read_u64 `{GuestMem M} (m : M) (addr : Z) : option Z :=
  le_val <$> gm_read m addr 8.

(** A flat memory [[base, base + length)] with every byte accessible: the
    smallest implementation of the interface. *)
Record flat_mem := { fm_base : Z; fm_bytes : list Z }.

Definition fm_read (m : flat_mem) (addr len : Z) : option (list Z) :=
  let off := addr - fm_base m in
  if (0 <=? len) && (0 <=? off) && (off + len <=? Z.of_nat (length (fm_bytes m)))
  then Some ((λ b, b mod U8) <$> take (Z.to_nat len) (drop (Z.to_nat off) (fm_bytes m)))
  else None.

Definition fm_write (m : flat_mem) (addr : Z) (bs : list Z) : option flat_mem :=
  let off := addr - fm_base m in
  if (0 <=? off) && (off + Z.of_nat (length bs) <=? Z.of_nat (length (fm_bytes m)))
  then Some {| fm_base := fm_base m;
               fm_bytes := take (Z.to_nat off) (fm_bytes m) ++ bs
                           ++ drop (Z.to_nat off + length bs) (fm_bytes m) |}
  else None.

Lemma fm_read_length m addr len bs :
  0 ≤ len → fm_read m addr len = Some bs → Z.of_nat (length bs) = len.
Proof.
  unfold fm_read. intros Hl H. case_match eqn:E; [|done]. simplify_eq.
  rewrite length_fmap, length_take, length_drop. lia.
Qed.

Lemma fm_read_bytes m addr len bs : fm_read m addr len = Some bs → Forall is_byte bs.
Proof.
  unfold fm_read. intros H. case_match; [|done]. simplify_eq.
  apply Forall_fmap, Forall_true. intros b. by apply Z.mod_pos_bound.
Qed.

#[export] Instance flat_GuestMem : GuestMem flat_mem := {|
  gm_read := fm_read; gm_write := fm_write;
  gm_read_length := fm_read_length; gm_read_bytes := fm_read_bytes |}.
