(* ===== verification/Abi.v ===== *)
(** The Linux ABI facts of [src/abi]: guest architectures, error numbers, the
    architecture-neutral syscall identity [Sysno] and the two tables that decode
    a raw guest syscall number into it. *)
From S2P Require Import Prelude.
From stdpp Require Import base gmap list strings numbers.
Local Open Scope Z_scope.

(** * Guest architectures ([abi/mod.rs]) *)

Inductive Arch := Aarch64 | X86_64.

Global Instance Arch_eq_dec : EqDecision Arch.
Proof. solve_decision. Defined.

(** [Arch::from_elf]: [e_machine] of an ELF header. *)
Definition from_elf (elf : list Z) : option Arch :=
  lo ← elf !! 18%nat;
  hi ← elf !! 19%nat;
  let e_machine := le_val [lo; hi] in
  if e_machine =? 183 then Some Aarch64
  else if e_machine =? 62 then Some X86_64
  else None.

(** * Error numbers ([abi/errno.rs]) *)

Definition EPERM : Z := 1.
Definition ENOENT : Z := 2.
Definition ESRCH : Z := 3.
Definition EINTR : Z := 4.
Definition EIO : Z := 5.
Definition ENXIO : Z := 6.
Definition E2BIG : Z := 7.
Definition ENOEXEC : Z := 8.
Definition EBADF : Z := 9.
Definition ECHILD : Z := 10.
Definition EAGAIN : Z := 11.
Definition ENOMEM : Z := 12.
Definition EACCES : Z := 13.
Definition EFAULT : Z := 14.
Definition EBUSY : Z := 16.
Definition EEXIST : Z := 17.
Definition EXDEV : Z := 18.
Definition ENODEV : Z := 19.
Definition ENOTDIR : Z := 20.
Definition EISDIR : Z := 21.
Definition EINVAL : Z := 22.
Definition ENFILE : Z := 23.
Definition EMFILE : Z := 24.
Definition ENOTTY : Z := 25.
Definition EFBIG : Z := 27.
Definition ENOSPC : Z := 28.
Definition ESPIPE : Z := 29.
Definition EROFS : Z := 30.
Definition EMLINK : Z := 31.
Definition EPIPE : Z := 32.
Definition EDOM : Z := 33.
Definition ERANGE : Z := 34.
Definition EDEADLK : Z := 35.
Definition ENAMETOOLONG : Z := 36.
Definition ENOLCK : Z := 37.
Definition ENOSYS : Z := 38.
Definition ENOTEMPTY : Z := 39.
Definition ELOOP : Z := 40.
Definition ENOMSG : Z := 42.
Definition EIDRM : Z := 43.
Definition ENODATA : Z := 61.
Definition EPROTO : Z := 71.
Definition ETIME : Z := 62.
Definition EOVERFLOW : Z := 75.
Definition EBADFD : Z := 77.
Definition ENOTSOCK : Z := 88.
Definition EMSGSIZE : Z := 90.
Definition ENOPROTOOPT : Z := 92.
Definition EOPNOTSUPP : Z := 95.
Definition EAFNOSUPPORT : Z := 97.
Definition EADDRINUSE : Z := 98.
Definition ENOBUFS : Z := 105.
Definition EADDRNOTAVAIL : Z := 99.
Definition ETIMEDOUT : Z := 110.
Definition ECONNREFUSED : Z := 111.
Definition ESTALE : Z := 116.

(** The name table the [errnos!] macro expands to. *)
Definition errno_table : list (string * Z) :=
  [("EPERM", EPERM); ("ENOENT", ENOENT); ("ESRCH", ESRCH); ("EINTR", EINTR); ("EIO", EIO); ("ENXIO", ENXIO); ("E2BIG", E2BIG); ("ENOEXEC", ENOEXEC); ("EBADF", EBADF); ("ECHILD", ECHILD); ("EAGAIN", EAGAIN); ("ENOMEM", ENOMEM); ("EACCES", EACCES); ("EFAULT", EFAULT); ("EBUSY", EBUSY); ("EEXIST", EEXIST); ("EXDEV", EXDEV); ("ENODEV", ENODEV); ("ENOTDIR", ENOTDIR); ("EISDIR", EISDIR); ("EINVAL", EINVAL); ("ENFILE", ENFILE); ("EMFILE", EMFILE); ("ENOTTY", ENOTTY); ("EFBIG", EFBIG); ("ENOSPC", ENOSPC); ("ESPIPE", ESPIPE); ("EROFS", EROFS); ("EMLINK", EMLINK); ("EPIPE", EPIPE); ("EDOM", EDOM); ("ERANGE", ERANGE); ("EDEADLK", EDEADLK); ("ENAMETOOLONG", ENAMETOOLONG); ("ENOLCK", ENOLCK); ("ENOSYS", ENOSYS); ("ENOTEMPTY", ENOTEMPTY); ("ELOOP", ELOOP); ("ENOMSG", ENOMSG); ("EIDRM", EIDRM); ("ENODATA", ENODATA); ("EPROTO", EPROTO); ("ETIME", ETIME); ("EOVERFLOW", EOVERFLOW); ("EBADFD", EBADFD); ("ENOTSOCK", ENOTSOCK); ("EMSGSIZE", EMSGSIZE); ("ENOPROTOOPT", ENOPROTOOPT); ("EOPNOTSUPP", EOPNOTSUPP); ("EAFNOSUPPORT", EAFNOSUPPORT); ("EADDRINUSE", EADDRINUSE); ("ENOBUFS", ENOBUFS); ("EADDRNOTAVAIL", EADDRNOTAVAIL); ("ETIMEDOUT", ETIMEDOUT); ("ECONNREFUSED", ECONNREFUSED); ("ESTALE", ESTALE)].

(** [Errno::from_name]. *)
Definition errno_from_name (name : string) : option Z :=
  (λ r, r.2.2) <$> list_find (λ p, p.1 = name) errno_table.

(** [Errno::as_syscall_ret]: [(-(e as i64)) as u64]. *)
Definition as_syscall_ret (e : Z) : Z := (- e) mod U64.

(** [kernel::err]: the negated errno a handler returns. *)
Definition err (e : Z) : Z := - e.

(** * Syscall identities ([abi/arch/mod.rs]) *)

Inductive Sysno : Type :=
  | Read
  | Write
  | Openat
  | Close
  | Brk
  | Mmap
  | Munmap
  | Mprotect
  | Mremap
  | Madvise
  | Mlock
  | Mlock2
  | Munlock
  | Mlockall
  | Munlockall
  | Msync
  | Mincore
  | ExitGroup
  | Exit
  | SetTidAddress
  | Ioctl
  | Readv
  | Writev
  | Setitimer
  | Getitimer
  | Alarm
  | Uname
  | Getpid
  | Getppid
  | Gettid
  | Getuid
  | Geteuid
  | Getgid
  | Getegid
  | ClockGettime
  | Gettimeofday
  | ClockGetres
  | Nanosleep
  | ClockNanosleep
  | ClockSettime
  | Settimeofday
  | Adjtimex
  | ClockAdjtime
  | Time
  | Lseek
  | Fstat
  | Newfstatat
  | Getdents64
  | Getcwd
  | Chdir
  | Fchdir
  | Getrandom
  | RtSigaction
  | RtSigprocmask
  | RtSigpending
  | RtSigsuspend
  | RtSigtimedwait
  | RtSigqueueinfo
  | RtTgsigqueueinfo
  | RtSigreturn
  | Sigaltstack
  | Kill
  | Tkill
  | Tgkill
  | Futex
  | Fcntl
  | Flock
  | Sendmsg
  | Recvmsg
  | Pipe2
  | Dup
  | Dup2
  | Dup3
  | Clone
  | Fork
  | Vfork
  | Stat
  | Lstat
  | Open
  | Creat
  | Mkdir
  | Rmdir
  | Unlink
  | Rename
  | Symlink
  | Readlink
  | Execve
  | Wait4
  | SetRobustList
  | Statfs
  | Fstatfs
  | Readlinkat
  | Symlinkat
  | Mkdirat
  | Unlinkat
  | Renameat
  | Renameat2
  | Faccessat
  | Faccessat2
  | Access
  | Fchmodat
  | Chmod
  | Fchmod
  | Fchownat
  | Fchown
  | Chown
  | Lchown
  | Mknod
  | Mknodat
  | Utimensat
  | Umask
  | Getxattr
  | Lgetxattr
  | Fgetxattr
  | Socket
  | Socketpair
  | Bind
  | Listen
  | Accept4
  | Connect
  | Getsockname
  | Getpeername
  | Sendto
  | Recvfrom
  | Setsockopt
  | Getsockopt
  | Shutdown
  | SchedYield
  | SchedGetaffinity
  | SchedSetaffinity
  | SchedGetscheduler
  | SchedSetscheduler
  | SchedGetparam
  | SchedGetPriorityMax
  | SchedGetPriorityMin
  | Getrusage
  | Sysinfo
  | Prlimit64
  | Getrlimit
  | Setrlimit
  | Times
  | Getpriority
  | Setpriority
  | Getcpu
  | Prctl
  | Personality
  | Sethostname
  | Setdomainname
  | Capget
  | Capset
  | Membarrier
  | Poll
  | Ppoll
  | Select
  | Pselect6
  | EpollCreate
  | EpollCreate1
  | EpollCtl
  | EpollWait
  | EpollPwait
  | EpollPwait2
  | Eventfd
  | Eventfd2
  | TimerfdCreate
  | TimerfdSettime
  | TimerfdGettime
  | ArchPrctl
  | Pread64
  | Pwrite64
  | Preadv
  | Pwritev
  | Ftruncate
  | Truncate
  | Fsync
  | Fdatasync
  | Sync
  | Syncfs
  | Fallocate
  | Readahead
  | Fadvise64
  | SyncFileRange
  | Sendfile
  | CopyFileRange
  | Link
  | Linkat
  | Statx
  | Setuid
  | Setgid
  | Setreuid
  | Setregid
  | Setresuid
  | Setresgid
  | Getresuid
  | Getresgid
  | Setfsuid
  | Setfsgid
  | Getgroups
  | Setgroups
  | Setpgid
  | Getpgid
  | Getpgrp
  | Setsid
  | Getsid
  | Waitid
  | Clone3
  | Execveat
  | CloseRange
  | Accept
  | Recvmmsg
  | Sendmmsg
  | Syslog
  | Mount
  | Umount2
  | Chroot
  | Ptrace
  | Rseq
  | RestartSyscall
  | GetRobustList
  | MemfdCreate
  | InotifyInit1
  | InotifyAddWatch
  | InotifyRmWatch
  | Signalfd4
  | Pause
  | Pipe
  | Getdents
  | Utime
  | Utimes
  | Futimesat
  | Signalfd
  | InotifyInit
  | Fchmodat2
  | Setxattr
  | Lsetxattr
  | Fsetxattr
  | Listxattr
  | Llistxattr
  | Flistxattr
  | Removexattr
  | Lremovexattr
  | Fremovexattr
  | Setxattrat
  | Getxattrat
  | Listxattrat
  | Removexattrat
  | IoprioSet
  | IoprioGet
  | Splice
  | Tee
  | Vmsplice
  | Preadv2
  | Pwritev2
  | Openat2
  | Cachestat
  | TimerCreate
  | TimerSettime
  | TimerGettime
  | TimerGetoverrun
  | TimerDelete
  | SchedSetparam
  | SchedRrGetInterval
  | SchedSetattr
  | SchedGetattr
  | MqOpen
  | MqUnlink
  | MqTimedsend
  | MqTimedreceive
  | MqNotify
  | MqGetsetattr
  | Msgget
  | Msgsnd
  | Msgrcv
  | Msgctl
  | Semget
  | Semop
  | Semtimedop
  | Semctl
  | Shmget
  | Shmat
  | Shmdt
  | Shmctl
  | Mbind
  | GetMempolicy
  | SetMempolicy
  | MigratePages
  | MovePages
  | SetMempolicyHomeNode
  | ProcessVmReadv
  | ProcessVmWritev
  | ProcessMadvise
  | ProcessMrelease
  | Kcmp
  | PidfdOpen
  | PidfdSendSignal
  | PidfdGetfd
  | PkeyMprotect
  | PkeyAlloc
  | PkeyFree
  | Mseal
  | RemapFilePages
  | FutexWaitv
  | FutexWake
  | FutexWait
  | FutexRequeue
  | Seccomp
  | Unshare
  | Setns
  | Ustat
  | Sysfs
  | Vhangup
  | Iopl
  | Ioperm
  | Reboot
  | IoSetup
  | IoDestroy
  | IoSubmit
  | IoCancel
  | IoGetevents
  | IoPgetevents
  | IoUringSetup
  | IoUringEnter
  | IoUringRegister
  | PerfEventOpen
  | Bpf
  | Userfaultfd
  | FanotifyInit
  | FanotifyMark
  | NameToHandleAt
  | OpenByHandleAt
  | KexecLoad
  | KexecFileLoad
  | InitModule
  | FinitModule
  | DeleteModule
  | Swapon
  | Swapoff
  | Acct
  | Quotactl
  | QuotactlFd
  | PivotRoot
  | OpenTree
  | OpenTreeAttr
  | MoveMount
  | Fsopen
  | Fsconfig
  | Fsmount
  | Fspick
  | MountSetattr
  | Statmount
  | Listmount
  | LandlockCreateRuleset
  | LandlockAddRule
  | LandlockRestrictSelf
  | AddKey
  | RequestKey
  | Keyctl
  | MemfdSecret
  | MapShadowStack
  | LsmGetSelfAttr
  | LsmSetSelfAttr
  | LsmListModules
  | FileGetattr
  | FileSetattr
  | ModifyLdt
  | SetThreadArea
  | GetThreadArea
  | Uselib
  | Sysctl
  | Uretprobe
  | NiSyscall
  | Unknown (nr : Z).

(** * The decoding tables

    Each table is the list of arms of the source's [match], in its order; a
    decode takes the first arm that matches and [Unknown] otherwise. *)

Definition x86_64_arms_1 : list (Z * Sysno) :=
  [(0, Read); (1, Write); (257, Openat); (3, Close); (12, Brk); (9, Mmap); (11, Munmap);
   (10, Mprotect); (25, Mremap); (28, Madvise); (149, Mlock); (150, Munlock);
   (151, Mlockall); (152, Munlockall); (325, Mlock2); (26, Msync); (27, Mincore);
   (231, ExitGroup); (60, Exit); (218, SetTidAddress); (16, Ioctl); (19, Readv);
   (20, Writev); (38, Setitimer); (36, Getitimer); (37, Alarm); (63, Uname); (39, Getpid);
   (110, Getppid); (186, Gettid); (102, Getuid); (107, Geteuid); (104, Getgid);
   (108, Getegid); (228, ClockGettime); (96, Gettimeofday); (229, ClockGetres);
   (230, ClockNanosleep); (35, Nanosleep); (227, ClockSettime); (164, Settimeofday);
   (159, Adjtimex); (305, ClockAdjtime); (201, Time); (8, Lseek); (5, Fstat);
   (262, Newfstatat); (217, Getdents64); (79, Getcwd); (80, Chdir); (81, Fchdir);
   (318, Getrandom); (13, RtSigaction); (14, RtSigprocmask); (15, RtSigreturn);
   (127, RtSigpending); (128, RtSigtimedwait); (129, RtSigqueueinfo);
   (297, RtTgsigqueueinfo); (130, RtSigsuspend); (131, Sigaltstack); (62, Kill);
   (200, Tkill); (234, Tgkill); (202, Futex); (72, Fcntl); (73, Flock); (22, Pipe);
   (293, Pipe2); (32, Dup); (33, Dup2); (292, Dup3); (56, Clone); (57, Fork); (58, Vfork);
   (4, Stat); (6, Lstat); (2, Open); (85, Creat); (83, Mkdir); (84, Rmdir); (87, Unlink);
   (82, Rename); (88, Symlink); (89, Readlink); (59, Execve); (61, Wait4);
   (273, SetRobustList); (137, Statfs); (138, Fstatfs); (267, Readlinkat);
   (266, Symlinkat); (258, Mkdirat); (263, Unlinkat); (264, Renameat); (316, Renameat2);
   (269, Faccessat); (439, Faccessat2); (21, Access); (90, Chmod); (268, Fchmodat);
   (91, Fchmod); (92, Chown); (94, Lchown); (260, Fchownat); (93, Fchown); (133, Mknod);
   (259, Mknodat); (280, Utimensat); (132, Utime); (235, Utimes); (261, Futimesat);
   (95, Umask); (191, Getxattr); (192, Lgetxattr); (193, Fgetxattr); (41, Socket);
   (42, Connect); (288, Accept4); (44, Sendto); (45, Recvfrom); (46, Sendmsg);
   (47, Recvmsg); (48, Shutdown); (49, Bind); (50, Listen); (51, Getsockname);
   (52, Getpeername); (53, Socketpair); (54, Setsockopt); (55, Getsockopt);
   (24, SchedYield); (204, SchedGetaffinity); (203, SchedSetaffinity);
   (145, SchedGetscheduler); (144, SchedSetscheduler); (143, SchedGetparam);
   (146, SchedGetPriorityMax); (147, SchedGetPriorityMin); (98, Getrusage); (99, Sysinfo);
   (302, Prlimit64); (97, Getrlimit); (160, Setrlimit); (100, Times); (140, Getpriority)].

Definition x86_64_arms_2 : list (Z * Sysno) :=
  [(141, Setpriority); (309, Getcpu); (157, Prctl); (135, Personality); (170, Sethostname);
   (171, Setdomainname); (125, Capget); (126, Capset); (324, Membarrier); (7, Poll);
   (271, Ppoll); (23, Select); (270, Pselect6); (213, EpollCreate); (291, EpollCreate1);
   (233, EpollCtl); (232, EpollWait); (281, EpollPwait); (284, Eventfd); (290, Eventfd2);
   (283, TimerfdCreate); (286, TimerfdSettime); (287, TimerfdGettime); (441, EpollPwait2);
   (158, ArchPrctl); (17, Pread64); (18, Pwrite64); (295, Preadv); (296, Pwritev);
   (77, Ftruncate); (76, Truncate); (74, Fsync); (75, Fdatasync); (162, Sync);
   (306, Syncfs); (285, Fallocate); (187, Readahead); (221, Fadvise64);
   (277, SyncFileRange); (40, Sendfile); (326, CopyFileRange); (86, Link); (265, Linkat);
   (332, Statx); (105, Setuid); (106, Setgid); (113, Setreuid); (114, Setregid);
   (117, Setresuid); (119, Setresgid); (118, Getresuid); (120, Getresgid); (122, Setfsuid);
   (123, Setfsgid); (115, Getgroups); (116, Setgroups); (109, Setpgid); (121, Getpgid);
   (111, Getpgrp); (112, Setsid); (124, Getsid); (247, Waitid); (435, Clone3);
   (322, Execveat); (436, CloseRange); (43, Accept); (299, Recvmmsg); (307, Sendmmsg);
   (103, Syslog); (165, Mount); (166, Umount2); (161, Chroot); (101, Ptrace); (334, Rseq);
   (219, RestartSyscall); (274, GetRobustList); (319, MemfdCreate); (294, InotifyInit1);
   (254, InotifyAddWatch); (255, InotifyRmWatch); (289, Signalfd4); (34, Pause);
   (78, Getdents); (253, InotifyInit); (282, Signalfd); (452, Fchmodat2); (188, Setxattr);
   (189, Lsetxattr); (190, Fsetxattr); (194, Listxattr); (195, Llistxattr);
   (196, Flistxattr); (197, Removexattr); (198, Lremovexattr); (199, Fremovexattr);
   (463, Setxattrat); (464, Getxattrat); (465, Listxattrat); (466, Removexattrat);
   (251, IoprioSet); (252, IoprioGet); (275, Splice); (276, Tee); (278, Vmsplice);
   (327, Preadv2); (328, Pwritev2); (437, Openat2); (451, Cachestat); (222, TimerCreate);
   (223, TimerSettime); (224, TimerGettime); (225, TimerGetoverrun); (226, TimerDelete);
   (142, SchedSetparam); (148, SchedRrGetInterval); (314, SchedSetattr);
   (315, SchedGetattr); (240, MqOpen); (241, MqUnlink); (242, MqTimedsend);
   (243, MqTimedreceive); (244, MqNotify); (245, MqGetsetattr); (68, Msgget); (69, Msgsnd);
   (70, Msgrcv); (71, Msgctl); (64, Semget); (65, Semop); (66, Semctl)].

Definition x86_64_arms_3 : list (Z * Sysno) :=
  [(220, Semtimedop); (29, Shmget); (30, Shmat); (31, Shmctl); (67, Shmdt); (237, Mbind);
   (238, SetMempolicy); (239, GetMempolicy); (256, MigratePages); (279, MovePages);
   (450, SetMempolicyHomeNode); (310, ProcessVmReadv); (311, ProcessVmWritev); (312, Kcmp);
   (424, PidfdSendSignal); (434, PidfdOpen); (438, PidfdGetfd); (440, ProcessMadvise);
   (448, ProcessMrelease); (329, PkeyMprotect); (330, PkeyAlloc); (331, PkeyFree);
   (462, Mseal); (216, RemapFilePages); (449, FutexWaitv); (454, FutexWake);
   (455, FutexWait); (456, FutexRequeue); (317, Seccomp); (272, Unshare); (308, Setns);
   (136, Ustat); (139, Sysfs); (153, Vhangup); (172, Iopl); (173, Ioperm); (169, Reboot);
   (206, IoSetup); (207, IoDestroy); (208, IoGetevents); (209, IoSubmit); (210, IoCancel);
   (333, IoPgetevents); (425, IoUringSetup); (426, IoUringEnter); (427, IoUringRegister);
   (298, PerfEventOpen); (321, Bpf); (323, Userfaultfd); (300, FanotifyInit);
   (301, FanotifyMark); (303, NameToHandleAt); (304, OpenByHandleAt); (246, KexecLoad);
   (320, KexecFileLoad); (175, InitModule); (313, FinitModule); (176, DeleteModule);
   (167, Swapon); (168, Swapoff); (163, Acct); (179, Quotactl); (443, QuotactlFd);
   (155, PivotRoot); (428, OpenTree); (467, OpenTreeAttr); (429, MoveMount); (430, Fsopen);
   (431, Fsconfig); (432, Fsmount); (433, Fspick); (442, MountSetattr); (457, Statmount);
   (458, Listmount); (444, LandlockCreateRuleset); (445, LandlockAddRule);
   (446, LandlockRestrictSelf); (248, AddKey); (249, RequestKey); (250, Keyctl);
   (447, MemfdSecret); (453, MapShadowStack); (459, LsmGetSelfAttr); (460, LsmSetSelfAttr);
   (461, LsmListModules); (468, FileGetattr); (469, FileSetattr); (154, ModifyLdt);
   (205, SetThreadArea); (211, GetThreadArea); (134, Uselib); (156, Sysctl);
   (335, Uretprobe); (174, NiSyscall); (177, NiSyscall); (178, NiSyscall);
   (180, NiSyscall); (181, NiSyscall); (182, NiSyscall); (183, NiSyscall);
   (184, NiSyscall); (185, NiSyscall); (212, NiSyscall); (214, NiSyscall);
   (215, NiSyscall); (236, NiSyscall)].

Definition aarch64_arms_1 : list (Z * Sysno) :=
  [(38, Renameat); (63, Read); (64, Write); (56, Openat); (57, Close); (163, Getrlimit);
   (164, Setrlimit); (214, Brk); (222, Mmap); (215, Munmap); (226, Mprotect);
   (216, Mremap); (233, Madvise); (228, Mlock); (229, Munlock); (230, Mlockall);
   (231, Munlockall); (284, Mlock2); (227, Msync); (232, Mincore); (94, ExitGroup);
   (93, Exit); (96, SetTidAddress); (29, Ioctl); (65, Readv); (66, Writev);
   (103, Setitimer); (102, Getitimer); (160, Uname); (172, Getpid); (173, Getppid);
   (178, Gettid); (174, Getuid); (175, Geteuid); (176, Getgid); (177, Getegid);
   (113, ClockGettime); (169, Gettimeofday); (114, ClockGetres); (115, ClockNanosleep);
   (101, Nanosleep); (112, ClockSettime); (170, Settimeofday); (171, Adjtimex);
   (266, ClockAdjtime); (62, Lseek); (80, Fstat); (79, Newfstatat); (61, Getdents64);
   (17, Getcwd); (49, Chdir); (50, Fchdir); (278, Getrandom); (134, RtSigaction);
   (135, RtSigprocmask); (136, RtSigpending); (137, RtSigtimedwait); (138, RtSigqueueinfo);
   (240, RtTgsigqueueinfo); (139, RtSigreturn); (133, RtSigsuspend); (132, Sigaltstack);
   (129, Kill); (130, Tkill); (131, Tgkill); (98, Futex); (25, Fcntl); (32, Flock);
   (59, Pipe2); (23, Dup); (24, Dup3); (220, Clone); (221, Execve); (260, Wait4);
   (99, SetRobustList); (43, Statfs); (44, Fstatfs); (78, Readlinkat); (36, Symlinkat);
   (34, Mkdirat); (35, Unlinkat); (276, Renameat2); (48, Faccessat); (439, Faccessat2);
   (53, Fchmodat); (52, Fchmod); (54, Fchownat); (55, Fchown); (33, Mknodat);
   (88, Utimensat); (166, Umask); (8, Getxattr); (9, Lgetxattr); (10, Fgetxattr);
   (198, Socket); (199, Socketpair); (200, Bind); (201, Listen); (242, Accept4);
   (203, Connect); (204, Getsockname); (205, Getpeername); (206, Sendto); (207, Recvfrom);
   (211, Sendmsg); (212, Recvmsg); (208, Setsockopt); (209, Getsockopt); (210, Shutdown);
   (124, SchedYield); (123, SchedGetaffinity); (122, SchedSetaffinity);
   (120, SchedGetscheduler); (119, SchedSetscheduler); (121, SchedGetparam);
   (125, SchedGetPriorityMax); (126, SchedGetPriorityMin); (165, Getrusage);
   (179, Sysinfo); (261, Prlimit64); (153, Times); (141, Getpriority); (140, Setpriority);
   (168, Getcpu); (167, Prctl); (92, Personality); (161, Sethostname);
   (162, Setdomainname); (90, Capget); (91, Capset); (283, Membarrier); (73, Ppoll);
   (72, Pselect6); (20, EpollCreate1); (21, EpollCtl); (22, EpollPwait);
   (441, EpollPwait2); (19, Eventfd2); (85, TimerfdCreate); (86, TimerfdSettime);
   (87, TimerfdGettime); (67, Pread64); (68, Pwrite64); (69, Preadv); (70, Pwritev);
   (46, Ftruncate)].

Definition aarch64_arms_2 : list (Z * Sysno) :=
  [(45, Truncate); (82, Fsync); (83, Fdatasync); (81, Sync); (267, Syncfs);
   (47, Fallocate); (213, Readahead); (223, Fadvise64); (84, SyncFileRange);
   (71, Sendfile); (285, CopyFileRange); (37, Linkat); (291, Statx); (146, Setuid);
   (144, Setgid); (145, Setreuid); (143, Setregid); (147, Setresuid); (149, Setresgid);
   (148, Getresuid); (150, Getresgid); (151, Setfsuid); (152, Setfsgid); (158, Getgroups);
   (159, Setgroups); (154, Setpgid); (155, Getpgid); (157, Setsid); (156, Getsid);
   (95, Waitid); (435, Clone3); (281, Execveat); (436, CloseRange); (202, Accept);
   (243, Recvmmsg); (269, Sendmmsg); (116, Syslog); (40, Mount); (39, Umount2);
   (51, Chroot); (117, Ptrace); (293, Rseq); (128, RestartSyscall); (100, GetRobustList);
   (279, MemfdCreate); (26, InotifyInit1); (27, InotifyAddWatch); (28, InotifyRmWatch);
   (74, Signalfd4); (5, Setxattr); (6, Lsetxattr); (7, Fsetxattr); (11, Listxattr);
   (12, Llistxattr); (13, Flistxattr); (14, Removexattr); (15, Lremovexattr);
   (16, Fremovexattr); (463, Setxattrat); (464, Getxattrat); (465, Listxattrat);
   (466, Removexattrat); (30, IoprioSet); (31, IoprioGet); (75, Vmsplice); (76, Splice);
   (77, Tee); (286, Preadv2); (287, Pwritev2); (437, Openat2); (451, Cachestat);
   (452, Fchmodat2); (107, TimerCreate); (108, TimerGettime); (109, TimerGetoverrun);
   (110, TimerSettime); (111, TimerDelete); (118, SchedSetparam);
   (127, SchedRrGetInterval); (274, SchedSetattr); (275, SchedGetattr); (180, MqOpen);
   (181, MqUnlink); (182, MqTimedsend); (183, MqTimedreceive); (184, MqNotify);
   (185, MqGetsetattr); (186, Msgget); (187, Msgctl); (188, Msgrcv); (189, Msgsnd);
   (190, Semget); (191, Semctl); (192, Semtimedop); (193, Semop); (194, Shmget);
   (195, Shmctl); (196, Shmat); (197, Shmdt); (235, Mbind); (236, GetMempolicy);
   (237, SetMempolicy); (238, MigratePages); (239, MovePages); (450, SetMempolicyHomeNode);
   (270, ProcessVmReadv); (271, ProcessVmWritev); (272, Kcmp); (424, PidfdSendSignal);
   (434, PidfdOpen); (438, PidfdGetfd); (440, ProcessMadvise); (448, ProcessMrelease);
   (288, PkeyMprotect); (289, PkeyAlloc); (290, PkeyFree); (462, Mseal);
   (234, RemapFilePages); (449, FutexWaitv); (454, FutexWake); (455, FutexWait);
   (456, FutexRequeue); (277, Seccomp); (97, Unshare); (268, Setns); (58, Vhangup);
   (142, Reboot); (0, IoSetup); (1, IoDestroy); (2, IoSubmit)].

Definition aarch64_arms_3 : list (Z * Sysno) :=
  [(3, IoCancel); (4, IoGetevents); (292, IoPgetevents); (425, IoUringSetup);
   (426, IoUringEnter); (427, IoUringRegister); (241, PerfEventOpen); (280, Bpf);
   (282, Userfaultfd); (262, FanotifyInit); (263, FanotifyMark); (264, NameToHandleAt);
   (265, OpenByHandleAt); (104, KexecLoad); (294, KexecFileLoad); (105, InitModule);
   (273, FinitModule); (106, DeleteModule); (224, Swapon); (225, Swapoff); (89, Acct);
   (60, Quotactl); (443, QuotactlFd); (41, PivotRoot); (428, OpenTree);
   (467, OpenTreeAttr); (429, MoveMount); (430, Fsopen); (431, Fsconfig); (432, Fsmount);
   (433, Fspick); (442, MountSetattr); (457, Statmount); (458, Listmount);
   (444, LandlockCreateRuleset); (445, LandlockAddRule); (446, LandlockRestrictSelf);
   (217, AddKey); (218, RequestKey); (219, Keyctl); (447, MemfdSecret);
   (453, MapShadowStack); (459, LsmGetSelfAttr); (460, LsmSetSelfAttr);
   (461, LsmListModules); (468, FileGetattr); (469, FileSetattr); (18, NiSyscall);
   (42, NiSyscall)].

Definition x86_64_table : list (Z * Sysno) :=
  x86_64_arms_1 ++ x86_64_arms_2 ++ x86_64_arms_3.

Definition aarch64_table : list (Z * Sysno) :=
  aarch64_arms_1 ++ aarch64_arms_2 ++ aarch64_arms_3.

(** [decode] of one table: the first arm whose number is [nr]. *)
Fixpoint decode_arms (arms : list (Z * Sysno)) (nr : Z) : Sysno :=
  match arms with
  | [] => Unknown nr
  | (k, s) :: arms => if nr =? k then s else decode_arms arms nr
  end.

Definition x86_64_decode (nr : Z) : Sysno := decode_arms x86_64_table nr.
Definition aarch64_decode (nr : Z) : Sysno := decode_arms aarch64_table nr.

(** [arch::decode]. *)
Definition decode (arch : Arch) (nr : Z) : Sysno :=
  match arch with
  | Aarch64 => aarch64_decode nr
  | X86_64 => x86_64_decode nr
  end.

(** * Decidable equality of [Sysno]

    Constant constructors are numbered by their position in [sysno_list]. *)

Definition sysno_list : list Sysno :=
  [Read; Write; Openat; Close; Brk; Mmap; Munmap; Mprotect; Mremap; Madvise; Mlock; Mlock2;
   Munlock; Mlockall; Munlockall; Msync; Mincore; ExitGroup; Exit; SetTidAddress; Ioctl;
   Readv; Writev; Setitimer; Getitimer; Alarm; Uname; Getpid; Getppid; Gettid; Getuid;
   Geteuid; Getgid; Getegid; ClockGettime; Gettimeofday; ClockGetres; Nanosleep;
   ClockNanosleep; ClockSettime; Settimeofday; Adjtimex; ClockAdjtime; Time; Lseek; Fstat;
   Newfstatat; Getdents64; Getcwd; Chdir; Fchdir; Getrandom; RtSigaction; RtSigprocmask;
   RtSigpending; RtSigsuspend; RtSigtimedwait; RtSigqueueinfo; RtTgsigqueueinfo;
   RtSigreturn; Sigaltstack; Kill; Tkill; Tgkill; Futex; Fcntl; Flock; Sendmsg; Recvmsg;
   Pipe2; Dup; Dup2; Dup3; Clone; Fork; Vfork; Stat; Lstat; Open; Creat; Mkdir; Rmdir;
   Unlink; Rename; Symlink; Readlink; Execve; Wait4; SetRobustList; Statfs; Fstatfs;
   Readlinkat; Symlinkat; Mkdirat; Unlinkat; Renameat; Renameat2; Faccessat; Faccessat2;
   Access; Fchmodat; Chmod; Fchmod; Fchownat; Fchown; Chown; Lchown; Mknod; Mknodat;
   Utimensat; Umask; Getxattr; Lgetxattr; Fgetxattr; Socket; Socketpair; Bind; Listen;
   Accept4; Connect; Getsockname; Getpeername; Sendto; Recvfrom; Setsockopt; Getsockopt;
   Shutdown; SchedYield; SchedGetaffinity; SchedSetaffinity; SchedGetscheduler;
   SchedSetscheduler; SchedGetparam; SchedGetPriorityMax; SchedGetPriorityMin; Getrusage;
   Sysinfo; Prlimit64; Getrlimit; Setrlimit; Times; Getpriority; Setpriority; Getcpu;
   Prctl; Personality; Sethostname; Setdomainname; Capget; Capset; Membarrier; Poll; Ppoll;
   Select; Pselect6; EpollCreate; EpollCreate1; EpollCtl; EpollWait; EpollPwait;
   EpollPwait2; Eventfd; Eventfd2; TimerfdCreate; TimerfdSettime; TimerfdGettime;
   ArchPrctl; Pread64; Pwrite64; Preadv; Pwritev; Ftruncate; Truncate; Fsync; Fdatasync;
   Sync; Syncfs; Fallocate; Readahead; Fadvise64; SyncFileRange; Sendfile; CopyFileRange;
   Link; Linkat; Statx; Setuid; Setgid; Setreuid; Setregid; Setresuid; Setresgid;
   Getresuid; Getresgid; Setfsuid; Setfsgid; Getgroups; Setgroups; Setpgid; Getpgid;
   Getpgrp; Setsid; Getsid; Waitid; Clone3; Execveat; CloseRange; Accept; Recvmmsg;
   Sendmmsg; Syslog; Mount; Umount2; Chroot; Ptrace; Rseq; RestartSyscall; GetRobustList;
   MemfdCreate; InotifyInit1; InotifyAddWatch; InotifyRmWatch; Signalfd4; Pause; Pipe;
   Getdents; Utime; Utimes; Futimesat; Signalfd; InotifyInit; Fchmodat2; Setxattr;
   Lsetxattr; Fsetxattr; Listxattr; Llistxattr; Flistxattr; Removexattr; Lremovexattr;
   Fremovexattr; Setxattrat; Getxattrat; Listxattrat; Removexattrat; IoprioSet; IoprioGet;
   Splice; Tee; Vmsplice; Preadv2; Pwritev2; Openat2; Cachestat; TimerCreate; TimerSettime;
   TimerGettime; TimerGetoverrun; TimerDelete; SchedSetparam; SchedRrGetInterval;
   SchedSetattr; SchedGetattr; MqOpen; MqUnlink; MqTimedsend; MqTimedreceive; MqNotify;
   MqGetsetattr; Msgget; Msgsnd; Msgrcv; Msgctl; Semget; Semop; Semtimedop; Semctl; Shmget;
   Shmat; Shmdt; Shmctl; Mbind; GetMempolicy; SetMempolicy; MigratePages; MovePages;
   SetMempolicyHomeNode; ProcessVmReadv; ProcessVmWritev; ProcessMadvise; ProcessMrelease;
   Kcmp; PidfdOpen; PidfdSendSignal; PidfdGetfd; PkeyMprotect; PkeyAlloc; PkeyFree; Mseal;
   RemapFilePages; FutexWaitv; FutexWake; FutexWait; FutexRequeue; Seccomp; Unshare; Setns;
   Ustat; Sysfs; Vhangup; Iopl; Ioperm; Reboot; IoSetup; IoDestroy; IoSubmit; IoCancel;
   IoGetevents; IoPgetevents; IoUringSetup; IoUringEnter; IoUringRegister; PerfEventOpen;
   Bpf; Userfaultfd; FanotifyInit; FanotifyMark; NameToHandleAt; OpenByHandleAt; KexecLoad;
   KexecFileLoad; InitModule; FinitModule; DeleteModule; Swapon; Swapoff; Acct; Quotactl;
   QuotactlFd; PivotRoot; OpenTree; OpenTreeAttr; MoveMount; Fsopen; Fsconfig; Fsmount;
   Fspick; MountSetattr; Statmount; Listmount; LandlockCreateRuleset; LandlockAddRule;
   LandlockRestrictSelf; AddKey; RequestKey; Keyctl; MemfdSecret; MapShadowStack;
   LsmGetSelfAttr; LsmSetSelfAttr; LsmListModules; FileGetattr; FileSetattr; ModifyLdt;
   SetThreadArea; GetThreadArea; Uselib; Sysctl; Uretprobe; NiSyscall].

Definition sysno_tag (s : Sysno) : Z :=
  match s with
  | Read => 0
  | Write => 1
  | Openat => 2
  | Close => 3
  | Brk => 4
  | Mmap => 5
  | Munmap => 6
  | Mprotect => 7
  | Mremap => 8
  | Madvise => 9
  | Mlock => 10
  | Mlock2 => 11
  | Munlock => 12
  | Mlockall => 13
  | Munlockall => 14
  | Msync => 15
  | Mincore => 16
  | ExitGroup => 17
  | Exit => 18
  | SetTidAddress => 19
  | Ioctl => 20
  | Readv => 21
  | Writev => 22
  | Setitimer => 23
  | Getitimer => 24
  | Alarm => 25
  | Uname => 26
  | Getpid => 27
  | Getppid => 28
  | Gettid => 29
  | Getuid => 30
  | Geteuid => 31
  | Getgid => 32
  | Getegid => 33
  | ClockGettime => 34
  | Gettimeofday => 35
  | ClockGetres => 36
  | Nanosleep => 37
  | ClockNanosleep => 38
  | ClockSettime => 39
  | Settimeofday => 40
  | Adjtimex => 41
  | ClockAdjtime => 42
  | Time => 43
  | Lseek => 44
  | Fstat => 45
  | Newfstatat => 46
  | Getdents64 => 47
  | Getcwd => 48
  | Chdir => 49
  | Fchdir => 50
  | Getrandom => 51
  | RtSigaction => 52
  | RtSigprocmask => 53
  | RtSigpending => 54
  | RtSigsuspend => 55
  | RtSigtimedwait => 56
  | RtSigqueueinfo => 57
  | RtTgsigqueueinfo => 58
  | RtSigreturn => 59
  | Sigaltstack => 60
  | Kill => 61
  | Tkill => 62
  | Tgkill => 63
  | Futex => 64
  | Fcntl => 65
  | Flock => 66
  | Sendmsg => 67
  | Recvmsg => 68
  | Pipe2 => 69
  | Dup => 70
  | Dup2 => 71
  | Dup3 => 72
  | Clone => 73
  | Fork => 74
  | Vfork => 75
  | Stat => 76
  | Lstat => 77
  | Open => 78
  | Creat => 79
  | Mkdir => 80
  | Rmdir => 81
  | Unlink => 82
  | Rename => 83
  | Symlink => 84
  | Readlink => 85
  | Execve => 86
  | Wait4 => 87
  | SetRobustList => 88
  | Statfs => 89
  | Fstatfs => 90
  | Readlinkat => 91
  | Symlinkat => 92
  | Mkdirat => 93
  | Unlinkat => 94
  | Renameat => 95
  | Renameat2 => 96
  | Faccessat => 97
  | Faccessat2 => 98
  | Access => 99
  | Fchmodat => 100
  | Chmod => 101
  | Fchmod => 102
  | Fchownat => 103
  | Fchown => 104
  | Chown => 105
  | Lchown => 106
  | Mknod => 107
  | Mknodat => 108
  | Utimensat => 109
  | Umask => 110
  | Getxattr => 111
  | Lgetxattr => 112
  | Fgetxattr => 113
  | Socket => 114
  | Socketpair => 115
  | Bind => 116
  | Listen => 117
  | Accept4 => 118
  | Connect => 119
  | Getsockname => 120
  | Getpeername => 121
  | Sendto => 122
  | Recvfrom => 123
  | Setsockopt => 124
  | Getsockopt => 125
  | Shutdown => 126
  | SchedYield => 127
  | SchedGetaffinity => 128
  | SchedSetaffinity => 129
  | SchedGetscheduler => 130
  | SchedSetscheduler => 131
  | SchedGetparam => 132
  | SchedGetPriorityMax => 133
  | SchedGetPriorityMin => 134
  | Getrusage => 135
  | Sysinfo => 136
  | Prlimit64 => 137
  | Getrlimit => 138
  | Setrlimit => 139
  | Times => 140
  | Getpriority => 141
  | Setpriority => 142
  | Getcpu => 143
  | Prctl => 144
  | Personality => 145
  | Sethostname => 146
  | Setdomainname => 147
  | Capget => 148
  | Capset => 149
  | Membarrier => 150
  | Poll => 151
  | Ppoll => 152
  | Select => 153
  | Pselect6 => 154
  | EpollCreate => 155
  | EpollCreate1 => 156
  | EpollCtl => 157
  | EpollWait => 158
  | EpollPwait => 159
  | EpollPwait2 => 160
  | Eventfd => 161
  | Eventfd2 => 162
  | TimerfdCreate => 163
  | TimerfdSettime => 164
  | TimerfdGettime => 165
  | ArchPrctl => 166
  | Pread64 => 167
  | Pwrite64 => 168
  | Preadv => 169
  | Pwritev => 170
  | Ftruncate => 171
  | Truncate => 172
  | Fsync => 173
  | Fdatasync => 174
  | Sync => 175
  | Syncfs => 176
  | Fallocate => 177
  | Readahead => 178
  | Fadvise64 => 179
  | SyncFileRange => 180
  | Sendfile => 181
  | CopyFileRange => 182
  | Link => 183
  | Linkat => 184
  | Statx => 185
  | Setuid => 186
  | Setgid => 187
  | Setreuid => 188
  | Setregid => 189
  | Setresuid => 190
  | Setresgid => 191
  | Getresuid => 192
  | Getresgid => 193
  | Setfsuid => 194
  | Setfsgid => 195
  | Getgroups => 196
  | Setgroups => 197
  | Setpgid => 198
  | Getpgid => 199
  | Getpgrp => 200
  | Setsid => 201
  | Getsid => 202
  | Waitid => 203
  | Clone3 => 204
  | Execveat => 205
  | CloseRange => 206
  | Accept => 207
  | Recvmmsg => 208
  | Sendmmsg => 209
  | Syslog => 210
  | Mount => 211
  | Umount2 => 212
  | Chroot => 213
  | Ptrace => 214
  | Rseq => 215
  | RestartSyscall => 216
  | GetRobustList => 217
  | MemfdCreate => 218
  | InotifyInit1 => 219
  | InotifyAddWatch => 220
  | InotifyRmWatch => 221
  | Signalfd4 => 222
  | Pause => 223
  | Pipe => 224
  | Getdents => 225
  | Utime => 226
  | Utimes => 227
  | Futimesat => 228
  | Signalfd => 229
  | InotifyInit => 230
  | Fchmodat2 => 231
  | Setxattr => 232
  | Lsetxattr => 233
  | Fsetxattr => 234
  | Listxattr => 235
  | Llistxattr => 236
  | Flistxattr => 237
  | Removexattr => 238
  | Lremovexattr => 239
  | Fremovexattr => 240
  | Setxattrat => 241
  | Getxattrat => 242
  | Listxattrat => 243
  | Removexattrat => 244
  | IoprioSet => 245
  | IoprioGet => 246
  | Splice => 247
  | Tee => 248
  | Vmsplice => 249
  | Preadv2 => 250
  | Pwritev2 => 251
  | Openat2 => 252
  | Cachestat => 253
  | TimerCreate => 254
  | TimerSettime => 255
  | TimerGettime => 256
  | TimerGetoverrun => 257
  | TimerDelete => 258
  | SchedSetparam => 259
  | SchedRrGetInterval => 260
  | SchedSetattr => 261
  | SchedGetattr => 262
  | MqOpen => 263
  | MqUnlink => 264
  | MqTimedsend => 265
  | MqTimedreceive => 266
  | MqNotify => 267
  | MqGetsetattr => 268
  | Msgget => 269
  | Msgsnd => 270
  | Msgrcv => 271
  | Msgctl => 272
  | Semget => 273
  | Semop => 274
  | Semtimedop => 275
  | Semctl => 276
  | Shmget => 277
  | Shmat => 278
  | Shmdt => 279
  | Shmctl => 280
  | Mbind => 281
  | GetMempolicy => 282
  | SetMempolicy => 283
  | MigratePages => 284
  | MovePages => 285
  | SetMempolicyHomeNode => 286
  | ProcessVmReadv => 287
  | ProcessVmWritev => 288
  | ProcessMadvise => 289
  | ProcessMrelease => 290
  | Kcmp => 291
  | PidfdOpen => 292
  | PidfdSendSignal => 293
  | PidfdGetfd => 294
  | PkeyMprotect => 295
  | PkeyAlloc => 296
  | PkeyFree => 297
  | Mseal => 298
  | RemapFilePages => 299
  | FutexWaitv => 300
  | FutexWake => 301
  | FutexWait => 302
  | FutexRequeue => 303
  | Seccomp => 304
  | Unshare => 305
  | Setns => 306
  | Ustat => 307
  | Sysfs => 308
  | Vhangup => 309
  | Iopl => 310
  | Ioperm => 311
  | Reboot => 312
  | IoSetup => 313
  | IoDestroy => 314
  | IoSubmit => 315
  | IoCancel => 316
  | IoGetevents => 317
  | IoPgetevents => 318
  | IoUringSetup => 319
  | IoUringEnter => 320
  | IoUringRegister => 321
  | PerfEventOpen => 322
  | Bpf => 323
  | Userfaultfd => 324
  | FanotifyInit => 325
  | FanotifyMark => 326
  | NameToHandleAt => 327
  | OpenByHandleAt => 328
  | KexecLoad => 329
  | KexecFileLoad => 330
  | InitModule => 331
  | FinitModule => 332
  | DeleteModule => 333
  | Swapon => 334
  | Swapoff => 335
  | Acct => 336
  | Quotactl => 337
  | QuotactlFd => 338
  | PivotRoot => 339
  | OpenTree => 340
  | OpenTreeAttr => 341
  | MoveMount => 342
  | Fsopen => 343
  | Fsconfig => 344
  | Fsmount => 345
  | Fspick => 346
  | MountSetattr => 347
  | Statmount => 348
  | Listmount => 349
  | LandlockCreateRuleset => 350
  | LandlockAddRule => 351
  | LandlockRestrictSelf => 352
  | AddKey => 353
  | RequestKey => 354
  | Keyctl => 355
  | MemfdSecret => 356
  | MapShadowStack => 357
  | LsmGetSelfAttr => 358
  | LsmSetSelfAttr => 359
  | LsmListModules => 360
  | FileGetattr => 361
  | FileSetattr => 362
  | ModifyLdt => 363
  | SetThreadArea => 364
  | GetThreadArea => 365
  | Uselib => 366
  | Sysctl => 367
  | Uretprobe => 368
  | NiSyscall => 369
  | Unknown nr => if nr <? 0 then nr else nr + 370
  end.

Lemma sysno_list_tag s :
  match s with
  | Unknown _ => True
  | _ => sysno_list !! Z.to_nat (sysno_tag s) = Some s
         ∧ 0 ≤ sysno_tag s < 370
  end.
Proof. destruct s; try (split; [vm_compute; reflexivity | vm_compute; intuition congruence]). exact I. Qed.

Lemma sysno_tag_inj s1 s2 : sysno_tag s1 = sysno_tag s2 → s1 = s2.
Proof.
  pose proof (sysno_list_tag s1) as H1. pose proof (sysno_list_tag s2) as H2.
  intros E.
  assert (∀ s, (∃ n, s = Unknown n) ∨ sysno_list !! Z.to_nat (sysno_tag s) = Some s
                 ∧ 0 ≤ sysno_tag s < 370) as C.
  { intros s. pose proof (sysno_list_tag s). destruct s; eauto. }
  destruct (C s1) as [[n1 ->]|[L1 B1]], (C s2) as [[n2 ->]|[L2 B2]]; clear H1 H2.
  - simpl in E. f_equal. destruct (Z.ltb_spec n1 0), (Z.ltb_spec n2 0); lia.
  - simpl in E. destruct (Z.ltb_spec n1 0); lia.
  - simpl in E. destruct (Z.ltb_spec n2 0); lia.
  - congruence.
Qed.

Global Instance Sysno_eq_dec : EqDecision Sysno.
Proof.
  intros s1 s2. destruct (decide (sysno_tag s1 = sysno_tag s2)) as [E|E].
  - left. by apply sysno_tag_inj.
  - right. congruence.
Defined.

(** * Correctness of the tables *)

Definition arms_of (arch : Arch) : list (Z * Sysno) :=
  match arch with Aarch64 => aarch64_table | X86_64 => x86_64_table end.

Lemma decode_arms_of arch nr : decode arch nr = decode_arms (arms_of arch) nr.
Proof. by destruct arch. Qed.

(** No arm is [Unknown], and two arms with the same number, or with the same
    identity other than [NiSyscall], are the same arm. *)
Definition arm_compat (a b : Z * Sysno) : bool :=
  let same_nr := a.1 =? b.1 in
  let same_sys := sysno_tag a.2 =? sysno_tag b.2 in
  Bool.eqb same_nr same_sys || same_sys && (sysno_tag a.2 =? sysno_tag NiSyscall).
Definition arm_known (a : Z * Sysno) : bool :=
  match a.2 with Unknown _ => false | _ => true end.
Definition arms_ok (l : list (Z * Sysno)) : bool :=
  forallb (λ a, arm_known a && forallb (arm_compat a) l) l.

Lemma arms_of_ok arch : arms_ok (arms_of arch) = true.
Proof. destruct arch; vm_compute; reflexivity. Qed.

Lemma arms_ok_spec l :
  arms_ok l = true →
  (∀ a, a ∈ l → ∀ n, a.2 ≠ Unknown n) ∧
  (∀ a b, a ∈ l → b ∈ l → a.1 = b.1 → a.2 = b.2) ∧
  (∀ a b, a ∈ l → b ∈ l → a.2 = b.2 → a.1 = b.1 ∨ a.2 = NiSyscall).
Proof.
  unfold arms_ok. rewrite forallb_forall. setoid_rewrite <- list_elem_of_In.
  setoid_rewrite andb_true_iff. setoid_rewrite forallb_forall.
  setoid_rewrite <- list_elem_of_In. intros H. split_and!.
  - intros a Ha n E. destruct (H a Ha) as [K _]. unfold arm_known in K. by rewrite E in K.
  - intros a b Ha Hb E. destruct (H a Ha) as [_ K]. specialize (K b Hb).
    unfold arm_compat in K. rewrite E, Z.eqb_refl in K.
    destruct (Z.eqb_spec (sysno_tag a.2) (sysno_tag b.2)); [by apply sysno_tag_inj|done].
  - intros a b Ha Hb E. destruct (H a Ha) as [_ K]. specialize (K b Hb).
    unfold arm_compat in K. rewrite E, Z.eqb_refl in K.
    destruct (Z.eqb_spec a.1 b.1); [by left|right].
    simpl in K. rewrite Z.eqb_eq in K. rewrite E. by apply sysno_tag_inj.
Qed.

Lemma decode_arms_cases l nr :
  decode_arms l nr = Unknown nr ∧ (∀ s, (nr, s) ∉ l) ∨ (nr, decode_arms l nr) ∈ l.
Proof.
  induction l as [|[k s] l IH]; simpl; [left; split; [done|set_solver]|].
  destruct (Z.eqb_spec nr k) as [->|Hk]; [right; set_solver|].
  destruct IH as [[H1 H2]|H]; [left|right; set_solver].
  split; [done|]. intros s'. rewrite elem_of_cons. intros [?|?]; [congruence|set_solver].
Qed.

(** Decoding a guest syscall number is injective on each architecture: two
    different numbers never reach the same handler, the [NiSyscall] stubs
    ([ENOSYS] on Linux too) apart. *)
Theorem decode_injective arch n1 n2 :
  decode arch n1 = decode arch n2 → n1 = n2 ∨ decode arch n1 = NiSyscall.
Proof.
  rewrite !decode_arms_of.
  destruct (arms_ok_spec _ (arms_of_ok arch)) as (HU & _ & Hinj). intros E.
  destruct (decode_arms_cases (arms_of arch) n1) as [[U1 _]|I1],
    (decode_arms_cases (arms_of arch) n2) as [[U2 _]|I2].
  - rewrite U1, U2 in E. left. congruence.
  - rewrite U1 in E. destruct (HU _ I2 n1). by symmetry.
  - rewrite U2 in E. by destruct (HU _ I1 n2).
  - exact (Hinj _ _ I1 I2 E).
Qed.

Lemma decode_injective_witness :
  decode X86_64 174 = decode X86_64 185 ∧ (174 = 185 ∨ decode X86_64 174 = NiSyscall).
Proof.
  split; [vm_compute; reflexivity|].
  apply (decode_injective X86_64 174 185). vm_compute; reflexivity.
Defined.

(** Every arm of a table is live (none is shadowed by an earlier one), and a
    number outside the table decodes to [Unknown] with that number. *)
Theorem decode_complete arch nr :
  (∀ s, (nr, s) ∈ arms_of arch → decode arch nr = s) ∧
  ((∀ s, (nr, s) ∉ arms_of arch) → decode arch nr = Unknown nr).
Proof.
  rewrite decode_arms_of.
  destruct (arms_ok_spec _ (arms_of_ok arch)) as (_ & Hfun & _).
  destruct (decode_arms_cases (arms_of arch) nr) as [[U H]|I].
  - split; [|done]. intros s Hs. by destruct (H s).
  - split; [|intros H; by destruct (H _ I)].
    intros s Hs. exact (Hfun (nr, _) (nr, s) I Hs eq_refl).
Qed.
