(* ===== verification/Seccomp.v ===== *)
(** seccomp ([src/kernel/seccomp.rs]): the classic-BPF validator and interpreter,
    installing a filter ([seccomp_set_mode], [sys_seccomp]) and the check made on
    every syscall ([seccomp_check]).

    A guest-supplied program is run by the host on every syscall, so what matters
    is that a program that passed [validate] can neither crash nor hang the host,
    that every program a task carries passed it, and that filters only ever
    restrict what a task may do. *)
From S2P Require Import Prelude Abi Iface.
From stdpp Require Import base numbers gmap list.
Local Open Scope Z_scope.

(** * Constants *)

Definition SECCOMP_MODE_DISABLED : Z := 0.
Definition SECCOMP_MODE_STRICT : Z := 1.
Definition SECCOMP_MODE_FILTER : Z := 2.

Definition SECCOMP_RET_KILL_PROCESS : Z := 0x80000000.
Definition SECCOMP_RET_KILL_THREAD : Z := 0x00000000.
Definition SECCOMP_RET_TRAP : Z := 0x00030000.
Definition SECCOMP_RET_ERRNO : Z := 0x00050000.
Definition SECCOMP_RET_USER_NOTIF : Z := 0x7fc00000.
Definition SECCOMP_RET_TRACE : Z := 0x7ff00000.
Definition SECCOMP_RET_LOG : Z := 0x7ffc0000.
Definition SECCOMP_RET_ALLOW : Z := 0x7fff0000.
Definition SECCOMP_RET_ACTION_FULL : Z := 0xffff0000.
Definition SECCOMP_RET_DATA : Z := 0x0000ffff.
Definition AUDIT_ARCH_X86_64 : Z := 0xc000003e.
Definition AUDIT_ARCH_AARCH64 : Z := 0xc00000b7.
Definition BPF_MAXINSNS : Z := 4096.
Definition DATA_LEN : Z := 64.

(** * Programs *)

(** [struct Insn]. *)
Record Insn := mkInsn { code : Z; jt : Z; jf : Z; k : Z }.

(** Field widths: [u16], [u8], [u8], [u32]. *)
Definition insn_wf (i : Insn) : Prop :=
  0 ≤ code i < U16 ∧ 0 ≤ jt i < U8 ∧ 0 ≤ jf i < U8 ∧ 0 ≤ k i < U32.

Definition one_of (c : Z) (l : list Z) : bool := existsb (Z.eqb c) l.

(** The arm of [validate]'s [match] on one instruction at [pc]. *)
Definition insn_ok (len pc : Z) (i : Insn) : bool :=
  let c := code i in
  if one_of c [0x00; 0x01; 0x80; 0x81; 0x04; 0x14; 0x24; 0x44; 0x54; 0x64; 0x74; 0xa4;
               0x0c; 0x1c; 0x2c; 0x3c; 0x4c; 0x5c; 0x6c; 0x7c; 0x9c; 0xac; 0x84; 0x06;
               0x16; 0x07; 0x87] then true
  else if c =? 0x20 then is_multiple_of (k i) 4 && (k i <? DATA_LEN)
  else if one_of c [0x60; 0x61; 0x02; 0x03] then k i <? 16
  else if one_of c [0x34; 0x94] then negb (k i =? 0)
  else if c =? 0x05 then
    match checked_add64 (pc + 1) (k i) with Some t => t <? len | None => false end
  else if one_of c [0x15; 0x25; 0x35; 0x45; 0x1d; 0x2d; 0x3d; 0x4d] then
    (pc + 1 + jt i <? len) && (pc + 1 + jf i <? len)
  else false.

Fixpoint insns_ok (len pc : Z) (prog : list Insn) : bool :=
  match prog with
  | [] => true
  | i :: prog => insn_ok len pc i && insns_ok len (pc + 1) prog
  end.

(** [validate]. *)
Definition validate (prog : list Insn) : bool :=
  let len := Z.of_nat (length prog) in
  if (len =? 0) || (BPF_MAXINSNS <? len) then false
  else insns_ok len 0 prog
       && match last prog with Some i => one_of (code i) [0x06; 0x16] | None => false end.

(** * The interpreter *)

Record Bpf := mkBpf { reg_a : Z; reg_x : Z; scratch : list Z; pc : Z }.

Inductive StepResult :=
  | Return (v : Z)
  | StepPanic
  | Next (s : Bpf).

(** [u32::from_le_bytes(data[k..k + 4])], which panics out of range. *)
Definition word (data : list Z) (k : Z) : option Z :=
  if k + 4 <=? Z.of_nat (length data)
  then Some (le_val (take 4 (drop (Z.to_nat k) data))) else None.

Definition set_a (s : Bpf) (v : Z) : Bpf := mkBpf v (reg_x s) (scratch s) (pc s).
Definition set_x (s : Bpf) (v : Z) : Bpf := mkBpf (reg_a s) v (scratch s) (pc s).
Definition set_pc (s : Bpf) (v : Z) : Bpf := mkBpf (reg_a s) (reg_x s) (scratch s) v.

(** Reading and writing [m: [u32; 16]] with its bounds checks. *)
Definition from_scratch (s : Bpf) (k : Z) (set : Bpf → Z → Bpf) : StepResult :=
  match scratch s !! Z.to_nat k with Some v => Next (set s v) | None => StepPanic end.
Definition to_scratch (s : Bpf) (k v : Z) : StepResult :=
  if k <? Z.of_nat (length (scratch s))
  then Next (mkBpf (reg_a s) (reg_x s) (<[Z.to_nat k := v]> (scratch s)) (pc s))
  else StepPanic.

(** The body of [run]'s loop on instruction [i], [pc] already advanced. *)
Definition step (i : Insn) (data : list Z) (s : Bpf) : StepResult :=
  let c := code i in
  let a := reg_a s in
  let src := if negb (Z.land c 0x08 =? 0) then reg_x s else k i in
  if c =? 0x00 then Next (set_a s (k i))
  else if c =? 0x01 then Next (set_x s (k i))
  else if c =? 0x20 then
    match word data (k i) with Some w => Next (set_a s w) | None => StepPanic end
  else if c =? 0x80 then Next (set_a s DATA_LEN)
  else if c =? 0x81 then Next (set_x s DATA_LEN)
  else if c =? 0x60 then from_scratch s (k i) set_a
  else if c =? 0x61 then from_scratch s (k i) set_x
  else if c =? 0x02 then to_scratch s (k i) (reg_a s)
  else if c =? 0x03 then to_scratch s (k i) (reg_x s)
  else if one_of c [0x04; 0x0c] then Next (set_a s (wrap U32 (a + src)))
  else if one_of c [0x14; 0x1c] then Next (set_a s (wrap U32 (a - src)))
  else if one_of c [0x24; 0x2c] then Next (set_a s (wrap U32 (a * src)))
  else if one_of c [0x34; 0x3c] then Next (set_a s (if src =? 0 then 0 else a / src))
  else if one_of c [0x94; 0x9c] then Next (set_a s (if src =? 0 then 0 else a mod src))
  else if one_of c [0x44; 0x4c] then Next (set_a s (Z.lor a src))
  else if one_of c [0x54; 0x5c] then Next (set_a s (Z.land a src))
  else if one_of c [0x64; 0x6c] then
    Next (set_a s (if src <? 32 then wrap U32 (Z.shiftl a src) else 0))
  else if one_of c [0x74; 0x7c] then
    Next (set_a s (if src <? 32 then Z.shiftr a src else 0))
  else if one_of c [0xa4; 0xac] then Next (set_a s (Z.lxor a src))
  else if c =? 0x84 then Next (set_a s (wrap U32 (- a)))
  else if c =? 0x05 then Next (set_pc s (pc s + k i))
  else if one_of c [0x15; 0x1d; 0x25; 0x2d; 0x35; 0x3d; 0x45; 0x4d] then
    let op := Z.land c 0xf0 in
    let hit := if op =? 0x10 then a =? src
               else if op =? 0x20 then src <? a
               else if op =? 0x30 then src <=? a
               else negb (Z.land a src =? 0) in
    Next (set_pc s (pc s + if hit then jt i else jf i))
  else if c =? 0x06 then Return (k i)
  else if c =? 0x16 then Return a
  else if c =? 0x07 then Next (set_x s a)
  else if c =? 0x87 then Next (set_a s (reg_x s))
  else Return SECCOMP_RET_KILL_THREAD.

(** The loop of [run] with a bound on its iterations; [None] when it is reached. *)
Fixpoint run_loop (fuel : nat) (prog : list Insn) (data : list Z) (s : Bpf) : option (res Z) :=
  match fuel with
  | O => None
  | S fuel =>
    match prog !! Z.to_nat (pc s) with
    | None => Some (Ok SECCOMP_RET_KILL_THREAD)
    | Some i =>
      match step i data (set_pc s (pc s + 1)) with
      | Return v => Some (Ok v)
      | StepPanic => Some Panic
      | Next s' => run_loop fuel prog data s'
      end
    end
  end.

Definition bpf_init : Bpf := mkBpf 0 0 (replicate 16 0) 0.

(** [run]: [run_loop_total] below shows that the bound is never reached. *)
Definition run (prog : list Insn) (data : list Z) : res Z :=
  match run_loop (S (length prog)) prog data bpf_init with
  | Some r => r
  | None => Panic
  end.

(** * Task state

    The part of [ProcInfo] the handlers read and write. *)

Record SeccompState := mkSeccomp { mode : Z; filters : list (list Insn) }.

Definition seccomp_default : SeccompState := mkSeccomp SECCOMP_MODE_DISABLED [].

(** [SeccompState::active]. *)
Definition active (st : SeccompState) : bool := negb (mode st =? SECCOMP_MODE_DISABLED).

(** [struct QueuedSig]. *)
Record QueuedSig := mkQueuedSig { qs_code : Z; qs_pid : Z; qs_uid : Z; qs_value : Z }.

Record Task := mkTask {
  seccomp : SeccompState;
  no_new_privs : bool;
  euid : Z;
  ns_caps : bool;
  tgid : Z;
  pending : Z;
  queued_siginfo : list (option QueuedSig);
  rt_queue : gmap Z (list QueuedSig)
}.

(** [ProcInfo::privileged]. *)
Definition privileged (t : Task) : bool := (euid t =? 0) || ns_caps t.

Definition with_seccomp (t : Task) (st : SeccompState) : Task :=
  mkTask st (no_new_privs t) (euid t) (ns_caps t) (tgid t) (pending t)
         (queued_siginfo t) (rt_queue t).
Definition with_pending (t : Task) (p : Z) : Task :=
  mkTask (seccomp t) (no_new_privs t) (euid t) (ns_caps t) (tgid t) p
         (queued_siginfo t) (rt_queue t).

Definition SIGRTMIN : Z := 32.
Definition NSIG_SLOTS : Z := 65.
Definition MAX_QUEUED : Z := 4096.

(** [ProcInfo::post_siginfo]. *)
Definition post_siginfo (t : Task) (sig : Z) (qs : QueuedSig) : Task :=
  if SIGRTMIN <=? sig then
    let queued := map_fold (λ _ q n, Z.of_nat (length q) + n) 0 (rt_queue t) in
    if queued <? MAX_QUEUED then
      mkTask (seccomp t) (no_new_privs t) (euid t) (ns_caps t) (tgid t) (pending t)
             (queued_siginfo t)
             (<[sig := default [] (rt_queue t !! sig) ++ [qs]]> (rt_queue t))
    else t
  else if sig <? NSIG_SLOTS then
    mkTask (seccomp t) (no_new_privs t) (euid t) (ns_caps t) (tgid t) (pending t)
           (<[Z.to_nat sig := Some qs]> (queued_siginfo t)) (rt_queue t)
  else t.

(** * Installing filters *)

Section install.
Context {M : Type} `{GuestMem M}.

(** One [chunks(8)] element of the raw program. *)
Definition decode_insn (c : list Z) : Insn :=
  mkInsn (le_val (take 2 c)) (le_val (take 1 (drop 2 c))) (le_val (take 1 (drop 3 c)))
         (le_val (take 4 (drop 4 c))).

Fixpoint chunks8 (n : nat) (raw : list Z) : list (list Z) :=
  match n with
  | O => []
  | S n => take 8 raw :: chunks8 n (drop 8 raw)
  end.

(** [Kernel::read_fprog]: [inl] is the error returned to the guest. *)
Definition read_fprog (mem : M) (ptr : Z) : Z + list Insn :=
  match gm_read mem ptr 2, gm_read_u64 mem (wrap U64 (ptr + 8)) with
  | Some len, Some filter =>
    let len := le_val len in
    if (len =? 0) || (BPF_MAXINSNS <? len) then inl (err EINVAL)
    else match gm_read mem filter (len * 8) with
         | None => inl (err EFAULT)
         | Some raw =>
           let prog := decode_insn <$> chunks8 (Z.to_nat len) raw in
           if validate prog then inr prog else inl (err EINVAL)
         end
  | _, _ => inl (err EFAULT)
  end.

(** [Kernel::seccomp_set_mode]. *)
Definition seccomp_set_mode (cur : Task) (m args flags : Z) (mem : M) : Z * Task :=
  let st := seccomp cur in
  if m =? 1 then
    if negb (flags =? 0) || negb (args =? 0) then (err EINVAL, cur)
    else if mode st =? SECCOMP_MODE_FILTER then (err EINVAL, cur)
    else (0, with_seccomp cur (mkSeccomp SECCOMP_MODE_STRICT (filters st)))
  else if m =? 2 then
    if mode st =? SECCOMP_MODE_STRICT then (err EINVAL, cur)
    else if negb (no_new_privs cur) && negb (privileged cur) then (err EACCES, cur)
    else match read_fprog mem args with
         | inl e => (e, cur)
         | inr prog =>
           (0, with_seccomp cur (mkSeccomp SECCOMP_MODE_FILTER (filters st ++ [prog])))
         end
  else (err EINVAL, cur).

Definition FLAG_TSYNC : Z := 1.
Definition FLAG_LOG : Z := 2.
Definition FLAG_SPEC_ALLOW : Z := 4.
Definition FLAG_NEW_LISTENER : Z := 8.
Definition FLAG_TSYNC_ESRCH : Z := 16.
Definition FLAG_WAIT_KILLABLE_RECV : Z := 32.

Definition known_flags : Z :=
  Z.lor FLAG_TSYNC (Z.lor FLAG_LOG (Z.lor FLAG_SPEC_ALLOW (Z.lor FLAG_NEW_LISTENER
    (Z.lor FLAG_TSYNC_ESRCH FLAG_WAIT_KILLABLE_RECV)))).

(** [SECCOMP_FILTER_FLAG_TSYNC]: give every thread of the group our state. *)
Definition tsync (cur : Task) (procs : list (option Task)) : list (option Task) :=
  (λ slot, match slot with
           | Some p => if tgid p =? tgid cur
                       then Some (with_seccomp p (seccomp cur)) else Some p
           | None => None
           end) <$> procs.

Record Sys := mkSys { sys_ret : Z; sys_cur : Task; sys_procs : list (option Task); sys_mem : M }.

(** [Kernel::sys_seccomp]. *)
Definition sys_seccomp (procs : list (option Task)) (cur : Task) (op flags args : Z)
    (mem : M) : Sys :=
  if op =? 0 then
    let '(r, cur') := seccomp_set_mode cur 1 args flags mem in mkSys r cur' procs mem
  else if op =? 1 then
    if negb (Z.ldiff flags known_flags =? 0) || negb (Z.land flags FLAG_NEW_LISTENER =? 0)
    then mkSys (err EINVAL) cur procs mem
    else
      let '(r, cur') := seccomp_set_mode cur 2 args 0 mem in
      if (r =? 0) && negb (Z.land flags FLAG_TSYNC =? 0)
      then mkSys r cur' (tsync cur' procs) mem
      else mkSys r cur' procs mem
  else if op =? 2 then
    if negb (flags =? 0) then mkSys (err EINVAL) cur procs mem
    else match gm_read_u32 mem args with
         | Some a =>
           if one_of a [SECCOMP_RET_KILL_PROCESS; SECCOMP_RET_KILL_THREAD; SECCOMP_RET_TRAP;
                        SECCOMP_RET_ERRNO; SECCOMP_RET_TRACE; SECCOMP_RET_LOG;
                        SECCOMP_RET_ALLOW]
           then mkSys 0 cur procs mem else mkSys (err EOPNOTSUPP) cur procs mem
         | None => mkSys (err EFAULT) cur procs mem
         end
  else if op =? 3 then
    if negb (flags =? 0) then mkSys (err EINVAL) cur procs mem
    else match gm_write mem args [80; 0; 24; 0; 64; 0] with
         | None => mkSys (err EFAULT) cur procs mem
         | Some mem' => mkSys 0 cur procs mem'
         end
  else mkSys (err EINVAL) cur procs mem.
End install.
Arguments Sys M : clear implicits.

(** * The check on every syscall *)

(** [Iterator::min_by_key]: the first element with the least key. *)
Fixpoint min_by_key {A} (key : A → Z) (l : list A) : option A :=
  match l with
  | [] => None
  | x :: l =>
    match min_by_key key l with
    | None => Some x
    | Some y => if key y <? key x then Some y else Some x
    end
  end.

(** The order in which actions win: the action part as an [i32]. *)
Definition action (r : Z) : Z := Z.land r SECCOMP_RET_ACTION_FULL.
Definition severity (r : Z) : Z := as_i32 (action r).

(** [struct seccomp_data]. *)
Definition seccomp_data (arch raw pc : Z) (args : list Z) : list Z :=
  le_bytes 4 raw ++ le_bytes 4 arch ++ le_bytes 8 pc ++ concat (le_bytes 8 <$> args).

Definition audit_arch (a : Arch) : Z :=
  match a with X86_64 => AUDIT_ARCH_X86_64 | Aarch64 => AUDIT_ARCH_AARCH64 end.

(** The verdict of the installed filters, newest first. *)
Definition verdict (st : SeccompState) (data : list Z) : res Z :=
  rs ← mapM (λ f, run f data) (reverse (filters st));
  mret (default SECCOMP_RET_ALLOW (min_by_key severity rs)).

Inductive ExitCause :=
  | Exited (code : Z)
  | Signaled (sig : Z).

Definition SIGKILL : Z := 9.
Definition SIGSYS : Z := 31.
Definition SYS_SECCOMP : Z := 1.

Section check.
(** [W] is the kernel state [exit_group_with] tears down with the task. *)
Context {W : Type} (exit_group_with : ExitCause → Task → W → Task * W).

(** [Kernel::seccomp_check]: [None] lets the syscall run. *)
Definition seccomp_check (karch : Arch) (cur : Task) (w : W) (sys : Sysno) (raw : Z)
    (args : list Z) (pc : Z) : res (option Z * (Task * W)) :=
  if mode (seccomp cur) =? SECCOMP_MODE_STRICT then
    match sys with
    | Read | Write | Exit | RtSigreturn => mret (None, (cur, w))
    | _ => mret (Some 0, exit_group_with (Signaled SIGKILL) cur w)
    end
  else
    let arch := audit_arch karch in
    v ← verdict (seccomp cur) (seccomp_data arch raw pc args);
    let value := Z.land v SECCOMP_RET_DATA in
    let act := action v in
    if one_of act [SECCOMP_RET_ALLOW; SECCOMP_RET_LOG] then mret (None, (cur, w))
    else if act =? SECCOMP_RET_ERRNO then mret (Some (- Z.min value 4095), (cur, w))
    else if act =? SECCOMP_RET_TRAP then
      let info := mkQueuedSig SYS_SECCOMP (as_i32 pc) (wrap U32 (Z.shiftr pc 32))
                    (Z.lor (wrap U32 raw) (Z.shiftl arch 32)) in
      let cur := with_pending cur (Z.lor (pending cur) (Z.shiftl 1 (SIGSYS - 1))) in
      mret (Some (err ENOSYS), (post_siginfo cur SIGSYS info, w))
    else if one_of act [SECCOMP_RET_TRACE; SECCOMP_RET_USER_NOTIF] then
      mret (Some (err ENOSYS), (cur, w))
    else mret (Some 0, exit_group_with (Signaled SIGSYS) cur w).
End check.

(** * The validator is sound for the interpreter *)

Definition data_wf (data : list Z) : Prop :=
  length data = 64%nat ∧ Forall is_byte data.

(** Registers and scratch memory hold [u32] values. *)
Definition is_u32 (z : Z) : Prop := 0 ≤ z < U32.
Definition bpf_wf (s : Bpf) : Prop :=
  is_u32 (reg_a s) ∧ is_u32 (reg_x s) ∧ Forall is_u32 (scratch s)
  ∧ length (scratch s) = 16%nat.

Lemma one_of_elem c l : one_of c l = true ↔ c ∈ l.
Proof.
  unfold one_of. rewrite existsb_exists. setoid_rewrite <- list_elem_of_In.
  setoid_rewrite Z.eqb_eq. naive_solver.
Qed.

Lemma insns_ok_lookup len pc0 prog n i :
  insns_ok len pc0 prog = true → prog !! n = Some i → insn_ok len (pc0 + Z.of_nat n) i = true.
Proof.
  revert pc0 n; induction prog as [|j prog IH]; intros pc0 n Hok Hi; [done|].
  simpl in Hok. apply andb_true_iff in Hok as [H1 H2]. destruct n as [|n]; simpl in Hi.
  - simplify_eq. by rewrite Z.add_0_r.
  - replace (pc0 + Z.of_nat (S n)) with (pc0 + 1 + Z.of_nat n) by lia. eauto.
Qed.

Lemma validate_spec prog :
  validate prog = true →
  (0 < length prog)%nat ∧ Z.of_nat (length prog) ≤ BPF_MAXINSNS ∧
  (∀ n i, prog !! n = Some i → insn_ok (Z.of_nat (length prog)) (Z.of_nat n) i = true) ∧
  ∃ i, last prog = Some i ∧ (code i = 0x06 ∨ code i = 0x16).
Proof.
  unfold validate. intros H. case_match eqn:E; [done|].
  apply orb_false_iff in E as [E1 E2]. apply andb_true_iff in H as [H1 H2].
  split_and!; [lia|lia| |].
  - intros n i Hi. exact (insns_ok_lookup _ 0 _ _ _ H1 Hi).
  - case_match; [|done]. apply one_of_elem in H2. set_solver.
Qed.

(** A non-negative number without bits from 32 up is a [u32]. *)
Lemma u32_bits r : 0 ≤ r → (∀ i, 32 ≤ i → Z.testbit r i = false) → is_u32 r.
Proof.
  unfold is_u32, U32. intros Hr Hbits. split; [done|].
  destruct (decide (r = 0)) as [->|Hn]; [lia|]. apply Z.log2_lt_pow2; [lia|].
  destruct (decide (Z.log2 r < 32)) as [|Hl]; [done|].
  pose proof (Hbits (Z.log2 r) ltac:(lia)) as K.
  rewrite Z.bit_log2 in K by lia. done.
Qed.

Lemma u32_testbit a i : is_u32 a → 32 ≤ i → Z.testbit a i = false.
Proof. apply testbit_high. Qed.

Lemma u32_land a b : is_u32 a → is_u32 b → is_u32 (Z.land a b).
Proof.
  intros Ha Hb. apply u32_bits; [apply Z.land_nonneg; destruct Ha; lia|].
  intros i Hi. by rewrite Z.land_spec, u32_testbit.
Qed.

Lemma u32_lor a b : is_u32 a → is_u32 b → is_u32 (Z.lor a b).
Proof.
  intros Ha Hb. apply u32_bits; [apply Z.lor_nonneg; destruct Ha, Hb; lia|].
  intros i Hi. by rewrite Z.lor_spec, !u32_testbit.
Qed.

Lemma u32_lxor a b : is_u32 a → is_u32 b → is_u32 (Z.lxor a b).
Proof.
  intros Ha Hb. apply u32_bits; [apply Z.lxor_nonneg; destruct Ha, Hb; lia|].
  intros i Hi. by rewrite Z.lxor_spec, !u32_testbit.
Qed.

Lemma u32_wrap z : is_u32 (wrap U32 z).
Proof. apply Z.mod_pos_bound. done. Qed.

Lemma u32_div a b : is_u32 a → is_u32 b → is_u32 (if b =? 0 then 0 else a / b).
Proof.
  unfold is_u32, U32. intros Ha Hb. destruct (Z.eqb_spec b 0); [lia|].
  split; [apply Z.div_pos; lia|]. apply Z.le_lt_trans with a; [|lia].
  apply Z.div_le_upper_bound; nia.
Qed.

Lemma u32_rem a b : is_u32 a → is_u32 b → is_u32 (if b =? 0 then 0 else a mod b).
Proof.
  unfold is_u32, U32. intros Ha Hb. destruct (Z.eqb_spec b 0); [lia|].
  pose proof (Z.mod_pos_bound a b). lia.
Qed.

Lemma u32_shl a b : is_u32 (if b <? 32 then wrap U32 (Z.shiftl a b) else 0).
Proof. case_match; [apply u32_wrap|done]. Qed.

Lemma u32_shr a b : is_u32 a → is_u32 b → is_u32 (if b <? 32 then Z.shiftr a b else 0).
Proof.
  intros Ha Hb. case_match; [|done]. destruct Hb as [Hb _].
  apply u32_bits; [apply Z.shiftr_nonneg; apply Ha|].
  intros i Hi. rewrite Z.shiftr_spec by lia. apply u32_testbit; [done|lia].
Qed.

Lemma u32_data_len : is_u32 DATA_LEN.
Proof. done. Qed.

Create HintDb u32.
#[export] Hint Resolve u32_land u32_lor u32_lxor u32_wrap u32_div u32_rem u32_shl u32_shr
  u32_data_len : u32.

(** The bounds-checked accesses succeed on what [validate] accepts. *)
Lemma word_ok data k :
  data_wf data → 0 ≤ k → k < DATA_LEN → is_multiple_of k 4 = true →
  ∃ w, word data k = Some w ∧ is_u32 w.
Proof.
  intros [Hlen Hb] H0 Hk Hm. unfold word. rewrite Hlen. unfold DATA_LEN, is_multiple_of in *.
  apply Z.eqb_eq in Hm. assert (k + 4 ≤ 64) by (Z.div_mod_to_equations; lia).
  destruct (Z.leb_spec (k + 4) (Z.of_nat 64)); [|lia]. eexists; split; [done|].
  assert (length (take 4 (drop (Z.to_nat k) data)) = 4%nat) as HL
    by (rewrite length_take, length_drop; lia).
  pose proof (le_val_bound (take 4 (drop (Z.to_nat k) data))) as B. rewrite HL in B.
  apply B. by apply Forall_take, Forall_drop.
Qed.

Lemma from_scratch_ok s k set :
  bpf_wf s → 0 ≤ k < 16 → ∃ v, from_scratch s k set = Next (set s v) ∧ is_u32 v.
Proof.
  intros (_ & _ & Hm & Hl) Hk. unfold from_scratch.
  destruct (lookup_lt_is_Some_2 (scratch s) (Z.to_nat k)) as [v Hv]; [lia|].
  rewrite Hv. eexists; split; [done|]. by eapply Forall_lookup_1.
Qed.

Lemma to_scratch_ok s k v :
  bpf_wf s → is_u32 v → 0 ≤ k < 16 →
  ∃ s', to_scratch s k v = Next s' ∧ bpf_wf s' ∧ pc s' = pc s.
Proof.
  intros (Ha & Hx & Hm & Hl) Hv Hk. unfold to_scratch. rewrite Hl.
  destruct (Z.ltb_spec k (Z.of_nat 16)); [|lia]. eexists; split; [done|].
  split; [|done]. split_and!; simpl; [done..| |by rewrite length_insert].
  by apply Forall_insert.
Qed.

(** What one instruction does: it returns a [u32], or goes on with the
    state well-formed and [pc] at or after the next instruction. *)
Definition step_post (len : Z) (i : Insn) (s : Bpf) (r : StepResult) : Prop :=
  match r with
  | Return v => is_u32 v ∧ (code i = 0x06 ∨ code i = 0x16)
  | StepPanic => False
  | Next s' => bpf_wf s' ∧ pc s ≤ pc s' ∧ (pc s' = pc s ∨ pc s' < len)
               ∧ code i ≠ 0x06 ∧ code i ≠ 0x16
  end.

Definition known_codes : list Z :=
  [0x00; 0x01; 0x80; 0x81; 0x04; 0x14; 0x24; 0x44; 0x54; 0x64; 0x74; 0xa4;
   0x0c; 0x1c; 0x2c; 0x3c; 0x4c; 0x5c; 0x6c; 0x7c; 0x9c; 0xac; 0x84; 0x06;
   0x16; 0x07; 0x87; 0x20; 0x60; 0x61; 0x02; 0x03; 0x34; 0x94; 0x05;
   0x15; 0x25; 0x35; 0x45; 0x1d; 0x2d; 0x3d; 0x4d].

Lemma insn_ok_known len pc i : insn_ok len pc i = true → code i ∈ known_codes.
Proof.
  unfold insn_ok. intros H. repeat case_match; try done.
  all: repeat match goal with
       | H : one_of _ _ = true |- _ => apply one_of_elem in H
       | H : (_ =? _) = true |- _ => apply Z.eqb_eq in H
       end; unfold known_codes; set_solver.
Qed.

Lemma bpf_wf_set_a s v : bpf_wf s → is_u32 v → bpf_wf (set_a s v) ∧ pc (set_a s v) = pc s.
Proof. unfold bpf_wf; simpl; tauto. Qed.
Lemma bpf_wf_set_x s v : bpf_wf s → is_u32 v → bpf_wf (set_x s v) ∧ pc (set_x s v) = pc s.
Proof. unfold bpf_wf; simpl; tauto. Qed.

Lemma step_post_same len i s s' :
  code i ≠ 0x06 → code i ≠ 0x16 → bpf_wf s' ∧ pc s' = pc s → step_post len i s (Next s').
Proof. intros ?? [? E]. simpl. rewrite E. split_and!; auto with lia. Qed.

Lemma step_post_jump len i s d :
  code i ≠ 0x06 → code i ≠ 0x16 → bpf_wf s → 0 ≤ d → pc s + d < len →
  step_post len i s (Next (set_pc s (pc s + d))).
Proof. intros ?? Hs ??. simpl. split_and!; [exact Hs|lia|right; lia|done..]. Qed.

(** Decide the tests on a concrete opcode in the goal or a hypothesis. *)
Ltac decide_test t :=
  let v := eval vm_compute in t in
  match v with true => change t with true | false => change t with false end.
Ltac decide_tests :=
  repeat match goal with
  | |- context [Z.eqb ?x ?y] => decide_test (Z.eqb x y)
  | |- context [one_of ?x ?l] => decide_test (one_of x l)
  end; cbv iota beta zeta; cbn [negb].

(** Close the goal of an instruction that leaves [pc] alone. *)
Ltac bpf_step :=
  first
    [ apply step_post_same; [done|done|];
      first [apply bpf_wf_set_a | apply bpf_wf_set_x]; [done|eauto with u32]
    | match goal with |- step_post _ _ _ (Return _) => split; [assumption | auto] end ].

Lemma step_ok len data i s :
  data_wf data → bpf_wf s → insn_wf i → insn_ok len (pc s - 1) i = true →
  step_post len i s (step i data s).
Proof.
  intros Hd Hs (Hc & Ht & Hf & Hk) Hok.
  pose proof (insn_ok_known _ _ _ Hok) as Hin.
  pose proof Hs as (Ha & Hx & Hm & Hl).
  destruct i as [c t f kk]; cbn [code jt jf k] in Hc, Ht, Hf, Hk, Hin.
  unfold known_codes in Hin. revert Hok. unfold insn_ok, step. cbn [code jt jf k].
  repeat (apply elem_of_cons in Hin as [->|Hin]).
  all: try (exfalso; set_solver).
  all: decide_tests; intros Hok.
  all: try bpf_step.
  all: rewrite ?andb_true_iff in Hok.
  all: try (apply step_post_jump; [done|done|done|case_match; lia..]).
  - (* ld [k] *)
    destruct Hok as [Hm4 Hlt]. destruct (word_ok data kk) as (w & -> & Hw); [done|lia..|done|].
    bpf_step.
  - destruct (from_scratch_ok s kk set_a) as (v & -> & Hv); [done|lia|]. bpf_step.
  - destruct (from_scratch_ok s kk set_x) as (v & -> & Hv); [done|lia|]. bpf_step.
  - destruct (to_scratch_ok s kk (reg_a s)) as (s' & -> & Hs'); [done|done|lia|].
    by apply step_post_same.
  - destruct (to_scratch_ok s kk (reg_x s)) as (s' & -> & Hs'); [done|done|lia|].
    by apply step_post_same.
  - unfold checked_add64 in Hok. destruct (_ <? U64); [|done].
    apply step_post_jump; [done|done|done|lia..].
Qed.

(** Executions that end on a [RET] instruction. *)
Inductive reaches_ret (prog : list Insn) (data : list Z) : Bpf → Z → Prop :=
  | ret_here s i v :
      prog !! Z.to_nat (pc s) = Some i → code i = 0x06 ∨ code i = 0x16 →
      step i data (set_pc s (pc s + 1)) = Return v → reaches_ret prog data s v
  | ret_later s i s' v :
      prog !! Z.to_nat (pc s) = Some i → step i data (set_pc s (pc s + 1)) = Next s' →
      reaches_ret prog data s' v → reaches_ret prog data s v.

Lemma step_pc_mono i data s s' : insn_wf i → step i data s = Next s' → pc s ≤ pc s'.
Proof.
  intros (_ & Ht & Hf & Hk) H. unfold step, from_scratch, to_scratch in H.
  repeat case_match; simplify_eq; simpl; lia.
Qed.

Lemma run_loop_total fuel prog data s :
  Forall insn_wf prog → 0 ≤ pc s → Z.of_nat (length prog) - pc s < Z.of_nat fuel →
  (0 < fuel)%nat → ∃ r, run_loop fuel prog data s = Some r.
Proof.
  intros Hwf. revert s; induction fuel as [|fuel IH]; intros s Hpc Hf Hf0; [lia|]. simpl.
  destruct (prog !! Z.to_nat (pc s)) as [i|] eqn:Hi; [|by eauto].
  pose proof (lookup_lt_Some _ _ _ Hi) as Hlt.
  destruct (step i data _) as [v| |s'] eqn:Hst; [by eauto..|].
  apply step_pc_mono in Hst; [|by eapply Forall_lookup_1]. simpl in Hst.
  apply IH; lia.
Qed.

Lemma last_lookup_ret prog n i :
  (∃ j, last prog = Some j ∧ (code j = 0x06 ∨ code j = 0x16)) →
  prog !! n = Some i → code i ≠ 0x06 → code i ≠ 0x16 → (S n < length prog)%nat.
Proof.
  intros (j & Hj & Hc) Hi H1 H2. pose proof (lookup_lt_Some _ _ _ Hi).
  rewrite last_lookup in Hj.
  destruct (decide (n = pred (length prog))) as [->|]; [|lia].
  rewrite Hj in Hi. simplify_eq. destruct Hc; congruence.
Qed.

Lemma run_loop_valid fuel prog data s :
  validate prog = true → Forall insn_wf prog → data_wf data → bpf_wf s →
  0 ≤ pc s < Z.of_nat (length prog) → Z.of_nat (length prog) - pc s < Z.of_nat fuel →
  ∃ v, run_loop fuel prog data s = Some (Ok v) ∧ is_u32 v ∧ reaches_ret prog data s v.
Proof.
  intros Hval Hwf Hd. destruct (validate_spec _ Hval) as (_ & _ & Hok & Hlast).
  revert s; induction fuel as [|fuel IH]; intros s Hs Hpc Hf; [lia|]. simpl.
  destruct (lookup_lt_is_Some_2 prog (Z.to_nat (pc s))) as [i Hi]; [lia|]. rewrite Hi.
  pose proof (Hok _ _ Hi) as Hoki. rewrite Z2Nat.id in Hoki by lia.
  assert (step_post (Z.of_nat (length prog)) i (set_pc s (pc s + 1))
            (step i data (set_pc s (pc s + 1)))) as P.
  { apply step_ok; [done|exact Hs|by eapply Forall_lookup_1|].
    simpl. by replace (pc s + 1 - 1) with (pc s) by lia. }
  destruct (step i data _) as [v| |s'] eqn:Hst; simpl in P; [|done|].
  - destruct P as [Hv Hc]. exists v. split_and!; [done|done|by eapply ret_here].
  - destruct P as (Hs' & Hmono & Hlt & Hn1 & Hn2).
    pose proof (last_lookup_ret prog _ i Hlast Hi Hn1 Hn2).
    destruct (IH s' Hs') as (v & -> & Hv & Hr); [lia..|].
    exists v. split_and!; [done|done|by eapply ret_later].
Qed.

Lemma bpf_init_wf : bpf_wf bpf_init.
Proof. split_and!; [done|done| |done]. by apply Forall_replicate. Qed.

Lemma run_valid prog data :
  validate prog = true → Forall insn_wf prog → data_wf data →
  ∃ v, run prog data = Ok v ∧ is_u32 v ∧ reaches_ret prog data bpf_init v.
Proof.
  intros Hval Hwf Hd. destruct (validate_spec _ Hval) as (Hlen & _).
  destruct (run_loop_valid (S (length prog)) prog data bpf_init) as (v & E & Hv & Hr);
    [done|done|done|apply bpf_init_wf|simpl; lia..|].
  exists v. unfold run. by rewrite E.
Qed.

(** C10: a program that passes [validate] runs to completion on every
    [seccomp_data]: no out-of-range access panics, the loop ends, and it ends on
    one of the program's [RET] instructions with a [u32] verdict, never by
    running off the end or on an unknown opcode. *)
Theorem validate_sound prog data :
  validate prog = true → Forall insn_wf prog → data_wf data →
  ∃ v, run prog data = Ok v ∧ is_u32 v ∧ reaches_ret prog data bpf_init v.
Proof. apply run_valid. Qed.

(** [ld [nr]; jeq #1, 0, 1; ret ERRNO|1; ret ALLOW]. *)
Definition sample_prog : list Insn :=
  [mkInsn 0x20 0 0 0; mkInsn 0x15 0 1 1; mkInsn 0x06 0 0 0x50001; mkInsn 0x06 0 0 0x7fff0000].

Lemma sample_prog_wf : Forall insn_wf sample_prog.
Proof. unfold sample_prog, insn_wf. repeat constructor; simpl; done. Qed.

Lemma seccomp_data_wf arch raw pc args :
  length args = 6%nat → data_wf (seccomp_data arch raw pc args).
Proof.
  intros Hl. unfold data_wf, seccomp_data. split.
  - rewrite !length_app, !length_le_bytes.
    destruct args as [|?[|?[|?[|?[|?[|?[|]]]]]]]; try done.
  - rewrite !Forall_app. split_and!; try apply le_bytes_is_byte.
    apply Forall_concat, Forall_fmap, Forall_true. intros x. apply le_bytes_is_byte.
Qed.

Lemma validate_sound_witness :
  ∃ v, run sample_prog (seccomp_data AUDIT_ARCH_X86_64 1 0 [0;0;0;0;0;0]) = Ok v ∧ is_u32 v
       ∧ reaches_ret sample_prog (seccomp_data AUDIT_ARCH_X86_64 1 0 [0;0;0;0;0;0]) bpf_init v.
Proof.
  apply (validate_sound sample_prog); [reflexivity|apply sample_prog_wf|].
  by apply seccomp_data_wf.
Defined.

(** [run] terminates on every program, validated or not: each iteration
    advances [pc], so the loop makes at most one more than the program's length. *)
Theorem run_terminates prog data :
  Forall insn_wf prog → ∃ r, run_loop (S (length prog)) prog data bpf_init = Some r.
Proof. intros Hwf. apply run_loop_total; simpl; [done|lia..]. Qed.

Lemma run_terminates_witness :
  ∃ r, run_loop 5 sample_prog [] bpf_init = Some r.
Proof. apply (run_terminates sample_prog []), sample_prog_wf. Defined.

(** * Every program a task carries is valid *)

Definition filter_ok (p : list Insn) : Prop := validate p = true ∧ Forall insn_wf p.

(** The invariant of a task's seccomp state: installed filters are validated,
    and there are some exactly in filter mode. *)
Definition seccomp_ok (st : SeccompState) : Prop :=
  Forall filter_ok (filters st)
  ∧ mode st ∈ [SECCOMP_MODE_DISABLED; SECCOMP_MODE_STRICT; SECCOMP_MODE_FILTER]
  ∧ (mode st = SECCOMP_MODE_FILTER ↔ filters st ≠ []).

Definition slot_ok (slot : option Task) : Prop :=
  match slot with Some t => seccomp_ok (seccomp t) | None => True end.

Lemma seccomp_default_ok : seccomp_ok seccomp_default.
Proof. unfold seccomp_ok; simpl; split_and!; [constructor|set_solver|done]. Qed.

Section install_proofs.
Context {M : Type} `{GuestMem M}.

Lemma chunks8_length n raw : length (chunks8 n raw) = n.
Proof. revert raw; induction n; intros; simpl; auto. Qed.

Lemma chunks8_full n raw c :
  (n * 8 ≤ length raw)%nat → Forall is_byte raw → c ∈ chunks8 n raw →
  length c = 8%nat ∧ Forall is_byte c.
Proof.
  revert raw; induction n as [|n IH]; intros raw Hl Hb; simpl; [set_solver|].
  intros [->|Hc]%elem_of_cons.
  - rewrite length_take. split; [lia|by apply Forall_take].
  - apply (IH (drop 8 raw)); [rewrite length_drop; lia|by apply Forall_drop|done].
Qed.

Lemma decode_insn_wf c : length c = 8%nat → Forall is_byte c → insn_wf (decode_insn c).
Proof.
  intros Hl Hb. unfold insn_wf, decode_insn. cbn [code jt jf k].
  assert (∀ n m, (n + m ≤ 8)%nat →
    0 ≤ le_val (take m (drop n c)) < U8 ^ Z.of_nat m) as K.
  { intros n m Hnm. assert (length (take m (drop n c)) = m) as E
      by (rewrite length_take, length_drop; lia).
    pose proof (le_val_bound (take m (drop n c))) as B. rewrite E in B.
    apply B. by apply Forall_take, Forall_drop. }
  pose proof (K 0%nat 2%nat ltac:(lia)) as K0. rewrite drop_0 in K0.
  exact (conj K0 (conj (K 2 1 ltac:(lia)) (conj (K 3 1 ltac:(lia)) (K 4 4 ltac:(lia)))))%nat.
Qed.

Lemma read_fprog_ok mem ptr prog : read_fprog mem ptr = inr prog → filter_ok prog.
Proof.
  unfold read_fprog. intros E.
  destruct (gm_read mem ptr 2) as [hd|]; [|done].
  destruct (gm_read_u64 mem _) as [filter|]; [|done].
  destruct (_ || _) eqn:Hn; [done|]. apply orb_false_iff in Hn as [Hn1 Hn2].
  destruct (gm_read mem filter _) as [raw|] eqn:Hraw; [|done].
  destruct (validate _) eqn:Hv; [|done]. simplify_eq. split; [done|].
  destruct (decide (0 ≤ le_val hd)) as [Hpos|Hneg].
  2: { replace (Z.to_nat (le_val hd)) with 0%nat by lia. constructor. }
  pose proof (gm_read_bytes _ _ _ _ Hraw) as Hb. apply gm_read_length in Hraw; [|lia].
  apply Forall_fmap, Forall_forall. intros c Hc.
  apply chunks8_full in Hc as [??]; [|lia|done]. by apply decode_insn_wf.
Qed.

Lemma set_mode_ok cur m args flags mem :
  seccomp_ok (seccomp cur) →
  seccomp_ok (seccomp (seccomp_set_mode cur m args flags mem).2).
Proof.
  intros (Hf & Hm & Hiff). unfold seccomp_set_mode.
  repeat case_match; simpl; try done.
  - (* strict mode is entered only without filters *)
    unfold seccomp_ok; simpl. split_and!; [done|set_solver|].
    unfold SECCOMP_MODE_FILTER, SECCOMP_MODE_STRICT in *.
    split; [done|]. intros Hne. apply Hiff in Hne. lia.
  - match goal with E : read_fprog _ _ = inr _ |- _ => apply read_fprog_ok in E end.
    unfold seccomp_ok; simpl. split_and!; [by apply Forall_app_2, Forall_singleton|set_solver|].
    split; [|done]. intros _ E. by apply app_nil in E as [_ ?].
Qed.

Lemma tsync_ok cur procs :
  seccomp_ok (seccomp cur) → Forall slot_ok procs → Forall slot_ok (tsync cur procs).
Proof.
  intros Hc Hp. unfold tsync. apply Forall_fmap. eapply Forall_impl; [exact Hp|].
  intros [t|] Ht; simpl; [|done]. by case_match.
Qed.

Lemma sys_seccomp_ok procs cur op flags args mem :
  seccomp_ok (seccomp cur) → Forall slot_ok procs →
  let r := sys_seccomp procs cur op flags args mem in
  seccomp_ok (seccomp (sys_cur r)) ∧ Forall slot_ok (sys_procs r).
Proof.
  intros Hc Hp. unfold sys_seccomp.
  pose proof (set_mode_ok cur 1 args flags mem Hc).
  pose proof (set_mode_ok cur 2 args 0 mem Hc).
  repeat case_match; simpl in *; auto using tsync_ok.
Qed.

(** The steps that change seccomp states: the [seccomp] syscall,
    [prctl(PR_SET_SECCOMP)], [clone]/[fork] (the state is copied into the
    child) and switching to another task. *)
Inductive sc_step : Task * list (option Task) → Task * list (option Task) → Prop :=
  | sc_syscall cur procs op flags args mem :
      sc_step (cur, procs) (sys_cur (sys_seccomp procs cur op flags args mem),
                            sys_procs (sys_seccomp procs cur op flags args mem))
  | sc_prctl cur procs m args mem :
      sc_step (cur, procs) ((seccomp_set_mode cur m args 0 mem).2, procs)
  | sc_clone cur procs child :
      seccomp child = seccomp cur → sc_step (cur, procs) (cur, procs ++ [Some child])
  | sc_switch cur procs i t :
      procs !! i = Some (Some t) → sc_step (cur, procs) (t, <[i := Some cur]> procs).

Lemma sc_step_ok s s' :
  sc_step s s' → seccomp_ok (seccomp s.1) → Forall slot_ok s.2 →
  seccomp_ok (seccomp s'.1) ∧ Forall slot_ok s'.2.
Proof.
  destruct 1 as [cur procs op flags args mem| | |]; simpl; intros Hc Hp.
  - by apply sys_seccomp_ok.
  - split; [by apply set_mode_ok|done].
  - split; [done|]. apply Forall_app_2; [done|]. constructor; [|constructor].
    simpl. congruence.
  - split; [|by apply Forall_insert]. by apply (Forall_lookup_1 _ _ _ _ Hp) in H0.
Qed.

Lemma sc_steps_ok s s' :
  rtc sc_step s s' → seccomp_ok (seccomp s.1) → Forall slot_ok s.2 →
  seccomp_ok (seccomp s'.1) ∧ Forall slot_ok s'.2.
Proof.
  induction 1 as [|s1 s2 s3 Hst _ IH]; [done|]. intros H1 H2.
  destruct (sc_step_ok _ _ Hst H1 H2). by apply IH.
Qed.
End install_proofs.

(** * The verdict *)

Lemma min_by_key_spec {A} (key : A → Z) l y :
  min_by_key key l = Some y → y ∈ l ∧ ∀ x, x ∈ l → key y ≤ key x.
Proof.
  revert y; induction l as [|x l IH]; intros y; simpl; [done|].
  destruct (min_by_key key l) as [z|] eqn:E.
  - destruct (IH z eq_refl) as [Hz Hmin]. destruct (Z.ltb_spec (key z) (key x)).
    + intros [= <-]. split; [set_solver|]. intros x' [->|Hx']%elem_of_cons; [lia|auto].
    + intros [= <-]. split; [set_solver|]. intros x' [->|Hx']%elem_of_cons; [lia|].
      pose proof (Hmin _ Hx'). lia.
  - intros [= <-]. destruct l as [|z l]; [set_solver by lia|].
    simpl in E. repeat case_match; done.
Qed.

Lemma min_by_key_None {A} (key : A → Z) l : min_by_key key l = None ↔ l = [].
Proof. split; [destruct l; simpl; [done|repeat case_match; done]|by intros ->]. Qed.

Lemma verdict_total st data :
  seccomp_ok st → data_wf data → ∃ v, verdict st data = Ok v.
Proof.
  intros (Hf & _) Hd. unfold verdict.
  destruct (mapM_res_total (λ f, run f data) (reverse (filters st))) as [vs Hvs].
  { intros f Hin. rewrite elem_of_reverse in Hin. apply (proj1 (Forall_forall _ _) Hf) in Hin as [Hv Hwf].
    destruct (run_valid f data Hv Hwf Hd) as (v & ? & _). by exists v. }
  rewrite Hvs. by eexists.
Qed.

(** The verdict is one of the filters' results (or [ALLOW] without filters), and
    no filter's result is more severe. *)
Lemma verdict_spec st data v :
  verdict st data = Ok v →
  (filters st = [] ∧ v = SECCOMP_RET_ALLOW ∨ ∃ f, f ∈ filters st ∧ run f data = Ok v)
  ∧ ∀ f r, f ∈ filters st → run f data = Ok r → severity v ≤ severity r.
Proof.
  unfold verdict. intros E.
  destruct (mapM (λ f, run f data) (reverse (filters st))) as [vs|] eqn:Hvs; [|done].
  apply mapM_res_Ok in Hvs. simpl in E. injection E as <-.
  assert (∀ f r, f ∈ filters st → run f data = Ok r → r ∈ vs) as Hall.
  { intros f r Hf Hr. rewrite <- elem_of_reverse in Hf.
    apply list_elem_of_lookup in Hf as [n Hn].
    destruct (Forall2_lookup_l _ _ _ _ _ Hvs Hn) as (r' & Hr' & E').
    apply list_elem_of_lookup. exists n. congruence. }
  destruct (min_by_key severity vs) as [m|] eqn:Hm; simpl.
  - apply min_by_key_spec in Hm as [Hin Hmin]. split; [right|eauto].
    apply list_elem_of_lookup in Hin as [n Hn].
    destruct (Forall2_lookup_r _ _ _ _ _ Hvs Hn) as (f & Hf & Hr).
    exists f. split; [|done]. rewrite <- elem_of_reverse. apply list_elem_of_lookup. by exists n.
  - apply min_by_key_None in Hm as ->. inversion Hvs as [E|]. split.
    + left. split; [|done]. by apply (f_equal reverse) in E; rewrite reverse_involutive in E.
    + intros f r Hf Hr. destruct (not_elem_of_nil r). eauto.
Qed.

(** [ALLOW] is the least severe action there is. *)
Lemma severity_allow_max r : severity r ≤ severity SECCOMP_RET_ALLOW.
Proof.
  change (severity SECCOMP_RET_ALLOW) with (2 ^ 31 - 2 ^ 16).
  unfold severity, as_i32, action. set (w := Z.land r SECCOMP_RET_ACTION_FULL mod U32).
  assert (w mod 2 ^ 16 = 0) as Hw.
  { unfold w. change U32 with (2 ^ 16 * 2 ^ 16). rewrite Z.rem_mul_r by done.
    replace (Z.land r SECCOMP_RET_ACTION_FULL mod 2 ^ 16) with 0.
    - rewrite Z.add_0_l, Z.mul_comm. by apply Z.mod_mul.
    - symmetry. rewrite <- land_low_ones, <- Z.land_assoc by done.
      by change (Z.land SECCOMP_RET_ACTION_FULL (2 ^ 16 - 1)) with 0; rewrite Z.land_0_r. }
  pose proof (Z.mod_pos_bound (Z.land r SECCOMP_RET_ACTION_FULL) U32) as B.
  fold w in B. destruct (Z.ltb_spec w (2 ^ 31)); unfold U32 in *;
    Z.div_mod_to_equations; lia.
Qed.

(** Installing one more filter never relaxes a task's confinement: on every
    syscall the verdict with the new filter is at least as severe as without it. *)
Theorem push_filter_restricts st p data v v' m :
  verdict st data = Ok v →
  verdict (mkSeccomp m (filters st ++ [p])) data = Ok v' →
  severity v' ≤ severity v.
Proof.
  intros Hv Hv'. apply verdict_spec in Hv as [[[_ ->]|(f & Hf & Hr)] _].
  - apply severity_allow_max.
  - apply verdict_spec in Hv' as [_ Hmin]. apply (Hmin f); [simpl; set_solver|done].
Qed.

Lemma push_filter_restricts_witness :
  let st := mkSeccomp 2 [[mkInsn 0x06 0 0 0x7fff0000]] in
  let data := seccomp_data AUDIT_ARCH_X86_64 1 0 [0;0;0;0;0;0] in
  verdict (mkSeccomp 2 (filters st ++ [sample_prog])) data = Ok 0x50001
  ∧ severity 0x50001 ≤ severity 0x7fff0000.
Proof.
  intros st data. split; [vm_compute; reflexivity|].
  apply (push_filter_restricts st sample_prog data 0x7fff0000 0x50001 2);
    vm_compute; reflexivity.
Defined.

(** * The check *)

(** The actions that stop a syscall, in [min_by_key] order. *)
Definition denying : list Z :=
  [SECCOMP_RET_KILL_PROCESS; SECCOMP_RET_KILL_THREAD; SECCOMP_RET_TRAP; SECCOMP_RET_ERRNO;
   SECCOMP_RET_USER_NOTIF; SECCOMP_RET_TRACE].

Lemma denying_severity r : action r ∈ denying → severity r < severity SECCOMP_RET_LOG.
Proof.
  unfold severity, denying. intros H. repeat (apply elem_of_cons in H as [->|H]).
  all: try done. by apply elem_of_nil in H.
Qed.

Lemma one_of_action_log v :
  one_of (action v) [SECCOMP_RET_ALLOW; SECCOMP_RET_LOG] = true →
  severity SECCOMP_RET_LOG ≤ severity v.
Proof.
  unfold severity. intros H%one_of_elem. repeat (apply elem_of_cons in H as [->|H]).
  all: try done. by apply elem_of_nil in H.
Qed.

Section check_proofs.
Context {W : Type} (exit_group_with : ExitCause → Task → W → Task * W).

Lemma seccomp_check_None karch cur w sys raw args pc s' :
  seccomp_check exit_group_with karch cur w sys raw args pc = Ok (None, s') →
  s' = (cur, w)
  ∧ (mode (seccomp cur) = SECCOMP_MODE_STRICT ∧ sys ∈ [Read; Write; Exit; RtSigreturn]
     ∨ mode (seccomp cur) ≠ SECCOMP_MODE_STRICT
       ∧ ∃ v, verdict (seccomp cur) (seccomp_data (audit_arch karch) raw pc args) = Ok v
              ∧ severity SECCOMP_RET_LOG ≤ severity v).
Proof.
  unfold seccomp_check. destruct (Z.eqb_spec (mode (seccomp cur)) SECCOMP_MODE_STRICT).
  - intros E. destruct sys; try discriminate E; injection E as <-; set_solver.
  - unfold mbind, res_bind. destruct (verdict _ _) as [v|] eqn:Hv; [|done].
    destruct (one_of (action v) _) eqn:E1; [|repeat case_match; done].
    intros [= <-]. split; [done|]. right. eauto using one_of_action_log.
Qed.

Lemma seccomp_check_total karch cur w sys raw args pc :
  seccomp_ok (seccomp cur) → length args = 6%nat →
  ∃ out, seccomp_check exit_group_with karch cur w sys raw args pc = Ok out.
Proof.
  intros Hok Hargs. unfold seccomp_check.
  case_match; [destruct sys; by eexists|].
  destruct (verdict_total (seccomp cur)
    (seccomp_data (audit_arch karch) raw pc args)) as [v ->]; [done|by apply seccomp_data_wf|].
  unfold mbind, res_bind. repeat case_match; by eexists.
Qed.
End check_proofs.

(** C11: a syscall gets past seccomp only if it is allowed to: in strict mode it is
    one of [read], [write], [_exit], [rt_sigreturn]; in filter mode no installed
    filter answered it with a kill, trap, errno, notify or trace action.  The task
    and kernel state are then untouched. *)
Theorem seccomp_check_sound {W} (exit_group_with : ExitCause → Task → W → Task * W)
    karch cur w sys raw args pc s' :
  seccomp_check exit_group_with karch cur w sys raw args pc = Ok (None, s') →
  s' = (cur, w)
  ∧ (mode (seccomp cur) = SECCOMP_MODE_STRICT → sys ∈ [Read; Write; Exit; RtSigreturn])
  ∧ (mode (seccomp cur) ≠ SECCOMP_MODE_STRICT → ∀ f r, f ∈ filters (seccomp cur) →
       run f (seccomp_data (audit_arch karch) raw pc args) = Ok r → action r ∉ denying).
Proof.
  intros H. apply seccomp_check_None in H as [-> [[Hm Hs]|(Hm & v & Hv & Hsev)]].
  - by split_and!.
  - split_and!; [done|done|]. intros _ f r Hf Hr Hden.
    apply verdict_spec in Hv as [_ Hmin]. pose proof (Hmin f r Hf Hr).
    pose proof (denying_severity r Hden). lia.
Qed.

Definition sample_task (st : SeccompState) : Task :=
  mkTask st true 1000 false 7 0 (replicate 65 None) ∅.

Lemma seccomp_check_sound_witness :
  let cur := sample_task (mkSeccomp 2 [sample_prog]) in
  seccomp_check (λ _ t w, (t, w)) X86_64 cur tt Getpid 39 [0;0;0;0;0;0] 0
    = Ok (None, (cur, tt))
  ∧ (∀ f r, f ∈ [sample_prog] →
       run f (seccomp_data AUDIT_ARCH_X86_64 39 0 [0;0;0;0;0;0]) = Ok r → action r ∉ denying).
Proof.
  intros cur. split; [vm_compute; reflexivity|].
  apply (seccomp_check_sound (λ _ t w, (t, w)) X86_64 cur tt Getpid 39 [0;0;0;0;0;0] 0
           (cur, tt)); [vm_compute; reflexivity|done].
Defined.

(** From any sequence of [seccomp] and [prctl] calls, forks and task switches
    started from unconfined tasks, every task's filters are validated programs and
    the check made on a syscall never panics. *)
Theorem seccomp_check_reachable {M W} `{GuestMem M}
    (exit_group_with : ExitCause → Task → W → Task * W) s cur procs karch w sys raw args pc :
  rtc (sc_step (M := M)) s (cur, procs) →
  seccomp s.1 = seccomp_default → (∀ t, Some t ∈ s.2 → seccomp t = seccomp_default) →
  length args = 6%nat →
  seccomp_ok (seccomp cur)
  ∧ ∃ out, seccomp_check exit_group_with karch cur w sys raw args pc = Ok out.
Proof.
  intros Hst H1 H2 Hargs.
  destruct (sc_steps_ok _ _ Hst) as [Hok _].
  - rewrite H1. apply seccomp_default_ok.
  - apply Forall_forall. intros [t|] Ht; [|done]. simpl. rewrite (H2 t Ht).
    apply seccomp_default_ok.
  - split; [done|]. by apply seccomp_check_total.
Qed.

(** Guest memory holding [sample_prog] at 16 and its [sock_fprog] at 0. *)
Definition sample_mem : flat_mem :=
  {| fm_base := 0;
     fm_bytes := [4;0;0;0;0;0;0;0; 16;0;0;0;0;0;0;0;
                  0x20;0;0;0;0;0;0;0; 0x15;0;0;1;1;0;0;0;
                  0x06;0;0;0;1;0;5;0; 0x06;0;0;0;0;0;0xff;0x7f] |}.

Lemma seccomp_check_reachable_witness :
  let t0 := sample_task seccomp_default in
  let r := sys_seccomp [Some t0] t0 1 0 0 sample_mem in
  filters (seccomp (sys_cur r)) = [sample_prog]
  ∧ seccomp_ok (seccomp (sys_cur r))
  ∧ ∃ out, seccomp_check (λ _ t w, (t, w)) X86_64 (sys_cur r) tt Write 1 [0;0;0;0;0;0] 0 = Ok out.
Proof.
  intros t0 r. split; [vm_compute; reflexivity|].
  apply (seccomp_check_reachable (M := flat_mem) (λ _ t w, (t, w)) (t0, [Some t0])
           (sys_cur r) (sys_procs r)); [|reflexivity| |reflexivity].
  - apply rtc_once. apply sc_syscall.
  - simpl. intros t Ht. set_solver.
Defined.

(** * Confinement is irrevocable for the calling task *)

Section monotone.
Context {M : Type} `{GuestMem M}.

Definition confines (st st' : SeccompState) : Prop :=
  filters st `prefix_of` filters st' ∧ (active st = true → mode st' = mode st).

Lemma confines_refl st : confines st st.
Proof. split; [done|auto]. Qed.

Lemma read_fprog_err mem ptr e : read_fprog mem ptr = inl e → e ≠ 0.
Proof. unfold read_fprog. intros E. repeat case_match; simplify_eq; done. Qed.

Lemma set_mode_confines cur m args flags mem :
  seccomp_ok (seccomp cur) →
  let r := seccomp_set_mode cur m args flags mem in
  confines (seccomp cur) (seccomp r.2) ∧ (r.1 ≠ 0 → r.2 = cur).
Proof.
  intros (_ & Hm & _). unfold seccomp_set_mode, confines, active.
  unfold SECCOMP_MODE_DISABLED, SECCOMP_MODE_STRICT, SECCOMP_MODE_FILTER in *.
  assert (mode (seccomp cur) = 0 ∨ mode (seccomp cur) = 1 ∨ mode (seccomp cur) = 2)
    as Hm' by set_solver.
  repeat case_match; simpl; repeat split; auto using prefix_app_r; intros; try done; lia.
Qed.
End monotone.

(** Seccomp confinement cannot be undone: whatever a task asks of [seccomp],
    its installed filters stay installed (new ones are appended), a mode once
    entered is never left, and a failing call changes nothing. *)
Theorem seccomp_irrevocable {M} `{GuestMem M} procs cur op flags args (mem : M) :
  seccomp_ok (seccomp cur) →
  let r := sys_seccomp procs cur op flags args mem in
  confines (seccomp cur) (seccomp (sys_cur r))
  ∧ (sys_ret r ≠ 0 → sys_cur r = cur ∧ sys_procs r = procs ∧ sys_mem r = mem).
Proof.
  intros Hok. unfold sys_seccomp.
  pose proof (set_mode_confines cur 1 args flags mem Hok) as H1.
  pose proof (set_mode_confines cur 2 args 0 mem Hok) as H2.
  destruct (seccomp_set_mode cur 1 args flags mem) as [r1 c1].
  destruct (seccomp_set_mode cur 2 args 0 mem) as [r2 c2]. simpl in H1, H2.
  repeat case_match; simpl; split; intros; try apply confines_refl; try done; try tauto.
  all: split_and!; [naive_solver| |done].
  all: match goal with H : (_ =? 0) && _ = true |- _ => apply andb_true_iff in H as [? _]; lia
       | _ => done end.
Qed.

Lemma seccomp_irrevocable_witness :
  let cur := sample_task (mkSeccomp 2 [sample_prog]) in
  let r := sys_seccomp [] cur 1 0 0 sample_mem in
  sys_ret r = 0 ∧ confines (seccomp cur) (seccomp (sys_cur r)).
Proof.
  intros cur r. split; [vm_compute; reflexivity|].
  apply (seccomp_irrevocable [] cur 1 0 0 sample_mem).
  split_and!; [|set_solver|done].
  constructor; [|constructor]. split; [reflexivity|apply sample_prog_wf].
Defined.

(** Guest memory holding the one-instruction program [ret ALLOW]. *)
Definition allow_all_mem : flat_mem :=
  {| fm_base := 0;
     fm_bytes := [1;0;0;0;0;0;0;0; 16;0;0;0;0;0;0;0; 0x06;0;0;0;0;0;0xff;0x7f] |}.

(** The same does not hold for the caller's siblings:
    [SECCOMP_FILTER_FLAG_TSYNC] replaces their whole state, so a thread that denies
    itself [write] is allowed it again once another thread of its group installs
    an allow-everything filter with TSYNC, and a strict-mode thread leaves strict
    mode.  (Linux refuses to synchronize a thread whose filters are not an
    ancestor of the caller's.) *)
Theorem tsync_unconfines_sibling :
  let cur := sample_task seccomp_default in
  let sibling := sample_task (mkSeccomp 2 [sample_prog]) in
  let strict := sample_task (mkSeccomp 1 []) in
  let r := sys_seccomp [Some sibling; Some strict] cur 1 FLAG_TSYNC 0 allow_all_mem in
  let check t := seccomp_check (λ _ t w, (t, w)) X86_64 t tt Write 1 [0;0;0;0;0;0] 0 in
  check sibling = Ok (Some (- EPERM), (sibling, tt))
  ∧ sys_ret r = 0
  ∧ (∃ sibling', sys_procs r !! 0%nat = Some (Some sibling')
       ∧ check sibling' = Ok (None, (sibling', tt)))
  ∧ (∃ strict', sys_procs r !! 1%nat = Some (Some strict')
       ∧ mode (seccomp strict') = SECCOMP_MODE_FILTER).
Proof.
  intros cur sibling strict r check. split_and!; [vm_compute; reflexivity..| |].
  - exists (sample_task (mkSeccomp 2 [[mkInsn 0x06 0 0 0x7fff0000]])).
    split; vm_compute; reflexivity.
  - exists (sample_task (mkSeccomp 2 [[mkInsn 0x06 0 0 0x7fff0000]])).
    split; vm_compute; reflexivity.
Qed.
