(* ===== verification/Phys.v ===== *)
(** Guest-physical RAM: the backing [Region] ([src/vcpu/region.rs]), the byte pool
    [PhysMem] and the reference-counting [FrameAllocator] ([src/vcpu/phys.rs]).

    The pool of frames is shared by every guest address space, so the allocator's
    bookkeeping is what keeps one process's memory apart from another's. The
    file proves its invariant, what each operation does to the reference counts
    and to the bytes, and that no operation panics on a well-formed pool. *)
From S2P Require Import Prelude.
From stdpp Require Import base numbers gmap list.
Local Open Scope Z_scope.

(** * Region: zero-filled host memory

    Bytes never written read as zero, so only written ones are recorded. *)

Definition HOST_PAGE : Z := 16384.

Record Region := mkRegion { rg_len : Z; rg_bytes : gmap Z Z }.

Definition byte_at (m : gmap Z Z) (i : Z) : Z := default 0 (m !! i).

Fixpoint put_bytes (m : gmap Z Z) (off : Z) (buf : list Z) : gmap Z Z :=
  match buf with
  | [] => m
  | b :: buf => put_bytes (<[off := b]> m) (off + 1) buf
  end.

Definition get_bytes (m : gmap Z Z) (off : Z) (n : nat) : list Z :=
  byte_at m <$> seqZ off (Z.of_nat n).

(** The bounds assertion of every access. *)
Definition region_fits (r : Region) (off len : Z) : bool :=
  match checked_add64 off len with Some e => e <=? rg_len r | None => false end.

(** [Region::new], its host allocation succeeding. *)
Definition region_new (len : Z) : Region :=
  mkRegion (Z.max (next_multiple_of len HOST_PAGE) HOST_PAGE) ∅.

(** [Region::write]. *)
Definition region_write (r : Region) (off : Z) (buf : list Z) : res Region :=
  if region_fits r off (Z.of_nat (length buf))
  then Ok (mkRegion (rg_len r) (put_bytes (rg_bytes r) off buf)) else Panic.

(** [Region::read] of [n] bytes. *)
Definition region_read (r : Region) (off : Z) (n : nat) : res (list Z) :=
  if region_fits r off (Z.of_nat n) then Ok (get_bytes (rg_bytes r) off n) else Panic.

(** [Region::write_u64_atomic]. *)
Definition region_write_u64_atomic (r : Region) (off val : Z) : res Region :=
  if is_multiple_of off 8 && region_fits r off 8
  then Ok (mkRegion (rg_len r) (put_bytes (rg_bytes r) off (le_bytes 8 val))) else Panic.

(** [Region::fill]. *)
Definition region_fill (r : Region) (off : Z) (len : nat) (val : Z) : res Region :=
  if region_fits r off (Z.of_nat len)
  then Ok (mkRegion (rg_len r) (put_bytes (rg_bytes r) off (replicate len val))) else Panic.

(** [Region::copy_from]. *)
Definition region_copy_from (r src : Region) (off : Z) (len : nat) : res Region :=
  if region_fits r off (Z.of_nat len) && region_fits src off (Z.of_nat len)
  then Ok (mkRegion (rg_len r)
             (put_bytes (rg_bytes r) off (get_bytes (rg_bytes src) off len))) else Panic.

(** * PhysMem: the pool, addressed from 0 *)

Definition PAGE_SIZE : Z := 4096.
Definition FRAME : Z := PAGE_SIZE.
Definition FRAME_SZ : nat := Z.to_nat FRAME.

Record PhysMem := mkPhys { pm_region : Region; pm_size : Z }.

(** [PhysMem::new]. *)
Definition phys_new (size : Z) : PhysMem :=
  let region := region_new (Z.max (next_multiple_of size FRAME) FRAME) in
  mkPhys region (rg_len region).

(** [PhysMem::nframes]. *)
Definition phys_nframes (p : PhysMem) : Z := pm_size p / FRAME.

(** [PhysMem::in_bounds]. *)
Definition phys_in_bounds (p : PhysMem) (pa len : Z) : bool :=
  match checked_add64 pa len with Some e => e <=? pm_size p | None => false end.

Definition with_region (p : PhysMem) (r : res Region) : res PhysMem :=
  r ← r; mret (mkPhys r (pm_size p)).

(** [PhysMem::read] and [PhysMem::write]. *)
Definition phys_read (p : PhysMem) (pa : Z) (n : nat) : res (list Z) :=
  if phys_in_bounds p pa (Z.of_nat n) then region_read (pm_region p) pa n else Panic.
Definition phys_write (p : PhysMem) (pa : Z) (bytes : list Z) : res PhysMem :=
  if phys_in_bounds p pa (Z.of_nat (length bytes))
  then with_region p (region_write (pm_region p) pa bytes) else Panic.

(** [PhysMem::read_u64]. *)
Definition phys_read_u64 (p : PhysMem) (pa : Z) : res Z :=
  b ← phys_read p pa 8; mret (le_val b).

(** [PhysMem::write_u64_atomic]. *)
Definition phys_write_u64_atomic (p : PhysMem) (pa val : Z) : res PhysMem :=
  if phys_in_bounds p pa 8
  then with_region p (region_write_u64_atomic (pm_region p) pa val) else Panic.

(** [PhysMem::zero_frame]. *)
Definition phys_zero_frame (p : PhysMem) (pa : Z) : res PhysMem :=
  if is_multiple_of pa FRAME && phys_in_bounds p pa FRAME
  then with_region p (region_fill (pm_region p) pa FRAME_SZ 0) else Panic.

(** [PhysMem::copy_frame]. *)
Definition phys_copy_frame (p : PhysMem) (dst src : Z) : res PhysMem :=
  if is_multiple_of dst FRAME && is_multiple_of src FRAME
     && (phys_in_bounds p dst FRAME && phys_in_bounds p src FRAME)
  then if dst =? src then Ok p
       else buf ← region_read (pm_region p) src FRAME_SZ;
            with_region p (region_write (pm_region p) dst buf)
  else Panic.

(** * FrameAllocator *)

Definition PINNED : Z := U32 - 1.

(** [free_list] is the source's stack with its top first. *)
Record FrameAllocator := mkFA {
  refcount : list Z;
  free_list : list Z;
  allocated : Z;
  reserve_n : Z;
  use_reserve : bool
}.

(** [FrameAllocator::new]. *)
Definition fa_new (nframes : Z) : res FrameAllocator :=
  if 1 <=? nframes
  then Ok (mkFA (PINNED :: replicate (Z.to_nat (nframes - 1)) 0) (seqZ 1 (nframes - 1)) 0 0 false)
  else Panic.

(** [FrameAllocator::frame_of]. *)
Definition frame_of (fa : FrameAllocator) (pa : Z) : option nat :=
  if negb (is_multiple_of pa FRAME) then None
  else let f := pa / FRAME in
       if (0 <=? f) && (f <? Z.of_nat (length (refcount fa))) then Some (Z.to_nat f) else None.

Definition with_refcount (fa : FrameAllocator) (rc : list Z) : FrameAllocator :=
  mkFA rc (free_list fa) (allocated fa) (reserve_n fa) (use_reserve fa).

(** [FrameAllocator::incref] ([saturating_add] on [u32]) in a build without debug assertions, which
    is what the rest of the development uses; [fa_incref_in] has them. *)
Definition fa_incref (fa : FrameAllocator) (pa : Z) : FrameAllocator :=
  match frame_of fa pa with
  | None => fa
  | Some f =>
    let rc := refcount fa !!! f in
    if rc =? PINNED then fa
    else with_refcount fa (<[f := Z.min (rc + 1) (U32 - 1)]> (refcount fa))
  end.

(** [FrameAllocator::decref] in a build without debug assertions. *)
Definition fa_decref (fa : FrameAllocator) (pa : Z) : FrameAllocator :=
  match frame_of fa pa with
  | None => fa
  | Some f =>
    let rc := refcount fa !!! f in
    if rc =? PINNED then fa
    else if rc =? 0 then fa
    else
      let fa' := with_refcount fa (<[f := rc - 1]> (refcount fa)) in
      if rc =? 1
      then mkFA (refcount fa') (Z.of_nat f :: free_list fa') (allocated fa' - 1)
                (reserve_n fa') (use_reserve fa')
      else fa'
  end.

(** Both with their debug assertions: [checks] tells whether the build has them. *)
Definition fa_incref_in (checks : bool) (fa : FrameAllocator) (pa : Z) : res FrameAllocator :=
  match frame_of fa pa with
  | None => if checks then Panic else Ok fa
  | Some f =>
    let rc := refcount fa !!! f in
    if rc =? PINNED then Ok fa
    else if checks && negb (1 <=? rc) then Panic
    else Ok (with_refcount fa (<[f := Z.min (rc + 1) (U32 - 1)]> (refcount fa)))
  end.
Definition fa_decref_in (checks : bool) (fa : FrameAllocator) (pa : Z) : res FrameAllocator :=
  match frame_of fa pa with
  | None => if checks then Panic else Ok fa
  | Some f =>
    let rc := refcount fa !!! f in
    if rc =? PINNED then Ok fa
    else if checks && negb (1 <=? rc) then Panic
    else Ok (fa_decref fa pa)
  end.

(** [FrameAllocator::free]. *)
Definition fa_free (fa : FrameAllocator) (pa : Z) : FrameAllocator := fa_decref fa pa.

(** [FrameAllocator::refcount]. *)
Definition fa_refcount (fa : FrameAllocator) (pa : Z) : Z :=
  match frame_of fa pa with Some f => refcount fa !!! f | None => 0 end.

(** [set_reserve] and [set_use_reserve]. *)
Definition fa_set_reserve (fa : FrameAllocator) (frames : Z) : FrameAllocator :=
  mkFA (refcount fa) (free_list fa) (allocated fa) frames (use_reserve fa).
Definition fa_set_use_reserve (fa : FrameAllocator) (on : bool) : FrameAllocator :=
  mkFA (refcount fa) (free_list fa) (allocated fa) (reserve_n fa) on.

(** One iteration of [reserve]'s loop. *)
Definition pin_frame (fa : FrameAllocator) (f : Z) : FrameAllocator :=
  let rc := refcount fa !!! Z.to_nat f in
  mkFA (<[Z.to_nat f := PINNED]> (refcount fa)) (free_list fa)
       (if negb (rc =? PINNED) && (1 <=? rc) then allocated fa - 1 else allocated fa)
       (reserve_n fa) (use_reserve fa).

(** [FrameAllocator::reserve]. *)
Definition fa_reserve (fa : FrameAllocator) (pa len : Z) : res FrameAllocator :=
  if len =? 0 then Ok fa
  else match checked_add64 pa len with
       | None => Panic
       | Some e =>
         let first := pa / FRAME in
         let last := div_ceil e FRAME in
         if last <=? Z.of_nat (length (refcount fa)) then
           let fa' := foldl pin_frame fa (seqZ first (last - first)) in
           Ok (mkFA (refcount fa')
                 (filter (λ f, refcount fa' !!! Z.to_nat f ≠ PINNED) (free_list fa'))
                 (allocated fa') (reserve_n fa') (use_reserve fa'))
         else Panic
       end.

(** [alloc_count] and [free_count]. *)
Definition fa_alloc_count (fa : FrameAllocator) : Z := allocated fa.
Definition fa_free_count (fa : FrameAllocator) : Z := Z.of_nat (length (free_list fa)).

(** * The shared pool

    [phys] and the frame allocator travel together: every address-space operation
    runs under the allocator's lock on this pair. *)

Record Pool := mkPool { phys : PhysMem; fa : FrameAllocator }.

(** [FrameAllocator::alloc]. *)
Definition fa_alloc : ST Pool (option Z) := λ s,
  let a := fa s in
  if negb (use_reserve a) && (Z.of_nat (length (free_list a)) <=? reserve_n a)
  then Ok (None, s)
  else match free_list a with
       | [] => Ok (None, s)
       | f :: rest =>
         match refcount a !! Z.to_nat f with
         | None => Panic
         | Some _ =>
           let a' := mkFA (<[Z.to_nat f := 1]> (refcount a)) rest (allocated a + 1)
                          (reserve_n a) (use_reserve a) in
           let pa := f * FRAME in
           p ← phys_zero_frame (phys s) pa;
           mret (Some pa, mkPool p a')
         end
       end.

(** With its debug assertion: a frame of the free list is free. *)
Definition fa_alloc_in (checks : bool) : ST Pool (option Z) := λ s,
  let a := fa s in
  if negb (use_reserve a) && (Z.of_nat (length (free_list a)) <=? reserve_n a) then fa_alloc s
  else match free_list a with
       | f :: _ => if checks && negb (bool_decide (refcount a !! Z.to_nat f = Some 0)) then Panic else fa_alloc s
       | [] => fa_alloc s
       end.

(** The pure allocator operations and the byte operations on the pool. *)
Definition on_fa (f : FrameAllocator → FrameAllocator) : ST Pool unit := λ s,
  Ok (tt, mkPool (phys s) (f (fa s))).
Definition on_phys (f : PhysMem → res PhysMem) : ST Pool unit := λ s,
  p ← f (phys s); mret (tt, mkPool p (fa s)).
Definition rd_u64 (pa : Z) : ST Pool Z := λ s, v ← phys_read_u64 (phys s) pa; mret (v, s).
Definition wr_u64 (pa val : Z) : ST Pool unit := on_phys (λ p, phys_write_u64_atomic p pa val).

(** * Bytes *)

Lemma byte_at_insert m i b j : byte_at (<[i := b]> m) j = if decide (i = j) then b else byte_at m j.
Proof. unfold byte_at. rewrite lookup_insert. by case_decide. Qed.

Lemma byte_at_put m off buf i :
  byte_at (put_bytes m off buf) i =
    if decide (off ≤ i < off + Z.of_nat (length buf))
    then buf !!! Z.to_nat (i - off) else byte_at m i.
Proof.
  revert m off; induction buf as [|b buf IH]; intros m off; simpl.
  - by rewrite decide_False by lia.
  - rewrite IH, byte_at_insert.
    destruct (decide (off = i)) as [->|Hne].
    + rewrite decide_False by lia. rewrite decide_True by lia. by rewrite Z.sub_diag.
    + repeat case_decide; try lia.
      replace (Z.to_nat (i - off)) with (S (Z.to_nat (i - (off + 1)))) by lia. done.
Qed.

Lemma length_get_bytes m off n : length (get_bytes m off n) = n.
Proof. unfold get_bytes. rewrite length_fmap, length_seqZ. lia. Qed.

Lemma lookup_get_bytes m off n i :
  (i < n)%nat → get_bytes m off n !! i = Some (byte_at m (off + Z.of_nat i)).
Proof.
  intros Hi. unfold get_bytes. rewrite list_lookup_fmap, lookup_seqZ_lt by lia. done.
Qed.

Lemma get_bytes_ext m m' off n :
  (∀ i, off ≤ i < off + Z.of_nat n → byte_at m i = byte_at m' i) →
  get_bytes m off n = get_bytes m' off n.
Proof.
  intros H. unfold get_bytes. apply list_fmap_ext. intros k x Hx.
  apply lookup_seqZ in Hx as [-> Hk]. apply H. lia.
Qed.

Lemma get_put_same m off buf : get_bytes (put_bytes m off buf) off (length buf) = buf.
Proof.
  apply list_eq. intros i. destruct (decide (i < length buf)%nat) as [Hi|Hi].
  - rewrite lookup_get_bytes, byte_at_put, decide_True by lia.
    replace (Z.to_nat (off + Z.of_nat i - off)) with i by lia.
    by rewrite list_lookup_lookup_total_lt.
  - rewrite !lookup_ge_None_2; [done|lia|rewrite length_get_bytes; lia].
Qed.

(** * Words of the pool *)

Definition byte (p : PhysMem) (i : Z) : Z := byte_at (rg_bytes (pm_region p)) i.

(** The little-endian word at [pa]. *)
Definition ld (p : PhysMem) (pa : Z) : Z := le_val (get_bytes (rg_bytes (pm_region p)) pa 8).

(** The region backs the whole pool, which is made of frames and of bytes; a pool
    stays below 2^52, the physical addresses a page-table entry can hold. *)
Record phys_wf (p : PhysMem) : Prop := {
  pw_len : rg_len (pm_region p) = pm_size p;
  pw_frames : pm_size p mod FRAME = 0;
  pw_size : 0 < pm_size p ≤ 2 ^ 52;
  pw_bytes : ∀ i, is_byte (byte p i)
}.

Definition inside (p : PhysMem) (pa len : Z) : Prop := 0 ≤ pa ∧ pa + len ≤ pm_size p.

Lemma in_bounds_true p pa len :
  phys_wf p → 0 ≤ len → inside p pa len → phys_in_bounds p pa len = true.
Proof.
  intros [_ _ Hs _] Hl [H0 H1]. unfold phys_in_bounds, checked_add64, U64.
  destruct (Z.ltb_spec (pa + len) (2 ^ 64)); lia.
Qed.

Lemma region_fits_true p pa len :
  phys_wf p → 0 ≤ len → inside p pa len → region_fits (pm_region p) pa len = true.
Proof.
  intros [Hl _ Hs _] Hlen [H0 H1]. unfold region_fits, checked_add64, U64. rewrite Hl.
  destruct (Z.ltb_spec (pa + len) (2 ^ 64)); lia.
Qed.

Lemma ld_ext p p' pa :
  (∀ i, pa ≤ i < pa + 8 → byte p' i = byte p i) → ld p' pa = ld p pa.
Proof. intros H. unfold ld. f_equal. apply get_bytes_ext. intros i Hi. apply H. lia. Qed.

Lemma ld_range p pa : phys_wf p → 0 ≤ ld p pa < U64.
Proof.
  intros Hp. unfold ld. assert (Forall is_byte (get_bytes (rg_bytes (pm_region p)) pa 8)) as H.
  { unfold get_bytes. apply Forall_fmap, Forall_true. intros i. apply Hp. }
  apply le_val_bound in H. by rewrite length_get_bytes in H.
Qed.

Lemma phys_read_ok p pa n :
  phys_wf p → inside p pa (Z.of_nat n) →
  phys_read p pa n = Ok (get_bytes (rg_bytes (pm_region p)) pa n).
Proof.
  intros Hp Hi. unfold phys_read, region_read.
  by rewrite in_bounds_true, region_fits_true by (done || lia).
Qed.

Lemma phys_read_u64_ok p pa : phys_wf p → inside p pa 8 → phys_read_u64 p pa = Ok (ld p pa).
Proof. intros Hp Hi. unfold phys_read_u64. by rewrite (phys_read_ok p pa 8). Qed.

(** [p'] is [p] with the bytes [[pa, pa + length buf)] replaced by [buf]. *)
Record stored (p p' : PhysMem) (pa : Z) (buf : list Z) : Prop := {
  st_size : pm_size p' = pm_size p;
  st_len : rg_len (pm_region p') = rg_len (pm_region p);
  st_in i : pa ≤ i < pa + Z.of_nat (length buf) → byte p' i = buf !!! Z.to_nat (i - pa);
  st_out i : ¬ (pa ≤ i < pa + Z.of_nat (length buf)) → byte p' i = byte p i
}.

Lemma put_stored p pa buf :
  stored p (mkPhys (mkRegion (rg_len (pm_region p))
              (put_bytes (rg_bytes (pm_region p)) pa buf)) (pm_size p)) pa buf.
Proof.
  split; simpl; [done|done|..]; intros i Hi; unfold byte; simpl; rewrite byte_at_put.
  - by rewrite decide_True.
  - by rewrite decide_False.
Qed.

Lemma stored_wf p p' pa buf : phys_wf p → Forall is_byte buf → stored p p' pa buf → phys_wf p'.
Proof.
  intros [H1 H2 H3 H4] Hb [S1 S2 S3 S4]. split; [congruence|congruence|by rewrite S1|].
  intros i. destruct (decide (pa ≤ i < pa + Z.of_nat (length buf))) as [Hi|Hi].
  - rewrite S3 by done. apply Forall_lookup_total_1; [done|lia].
  - rewrite S4 by done. apply H4.
Qed.

Lemma stored_ld_out p p' pa buf a :
  stored p p' pa buf → a + 8 ≤ pa ∨ pa + Z.of_nat (length buf) ≤ a → ld p' a = ld p a.
Proof. intros Hs Ha. apply ld_ext. intros i Hi. apply Hs. lia. Qed.

Lemma stored_ld_le8 p p' pa v :
  stored p p' pa (le_bytes 8 v) → 0 ≤ v < U64 → ld p' pa = v.
Proof.
  intros Hs Hv. unfold ld.
  replace (get_bytes (rg_bytes (pm_region p')) pa 8) with (le_bytes 8 v);
    [by apply le_val_bytes_id|].
  apply list_eq. intros i. destruct (decide (i < 8)%nat) as [Hi|Hi].
  - rewrite lookup_get_bytes by done. change (byte_at _ ?x) with (byte p' x).
    rewrite (st_in _ _ _ _ Hs) by (rewrite length_le_bytes; lia).
    replace (Z.to_nat (pa + Z.of_nat i - pa)) with i by lia.
    apply list_lookup_lookup_total_lt. by rewrite length_le_bytes.
  - rewrite !lookup_ge_None_2; [done|rewrite length_get_bytes; lia|rewrite length_le_bytes; lia].
Qed.

Lemma stored_ld_zero p p' pa n a :
  stored p p' pa (replicate n 0) → pa ≤ a → a + 8 ≤ pa + Z.of_nat n → ld p' a = 0.
Proof.
  intros Hs H1 H2. unfold ld, get_bytes.
  rewrite (list_fmap_ext _ (λ _, 0) (seqZ a (Z.of_nat 8))); [done|].
  intros k x Hx. apply lookup_seqZ in Hx as [-> Hk].
  change (byte_at _ ?x) with (byte p' x).
  rewrite (st_in _ _ _ _ Hs) by (rewrite length_replicate; lia).
  apply lookup_total_replicate_2. lia.
Qed.

(** * What the byte operations do *)

Lemma phys_write_ok p pa buf :
  phys_wf p → inside p pa (Z.of_nat (length buf)) →
  ∃ p', phys_write p pa buf = Ok p' ∧ stored p p' pa buf.
Proof.
  intros Hp Hi. unfold phys_write, region_write.
  rewrite in_bounds_true, region_fits_true by (done || lia).
  eexists. split; [done|apply put_stored].
Qed.

Lemma phys_write_u64_ok p pa v :
  phys_wf p → inside p pa 8 → pa mod 8 = 0 →
  ∃ p', phys_write_u64_atomic p pa v = Ok p' ∧ stored p p' pa (le_bytes 8 v).
Proof.
  intros Hp Hi H8. unfold phys_write_u64_atomic, region_write_u64_atomic, is_multiple_of.
  rewrite in_bounds_true, region_fits_true by (done || lia).
  destruct (Z.eqb_spec (pa mod 8) 0); [|done]. eexists. split; [done|apply put_stored].
Qed.

Lemma phys_zero_frame_ok p pa :
  phys_wf p → inside p pa FRAME → pa mod FRAME = 0 →
  ∃ p', phys_zero_frame p pa = Ok p' ∧ stored p p' pa (replicate FRAME_SZ 0).
Proof.
  intros Hp Hi Ha. unfold phys_zero_frame, region_fill, is_multiple_of.
  rewrite in_bounds_true by done. change (Z.of_nat FRAME_SZ) with FRAME.
  rewrite region_fits_true by done.
  destruct (Z.eqb_spec (pa mod FRAME) 0); [|done]. eexists. split; [done|apply put_stored].
Qed.

Lemma phys_copy_frame_ok p dst src :
  phys_wf p → inside p dst FRAME → inside p src FRAME →
  dst mod FRAME = 0 → src mod FRAME = 0 → dst ≠ src →
  ∃ p', phys_copy_frame p dst src = Ok p'
        ∧ stored p p' dst (get_bytes (rg_bytes (pm_region p)) src FRAME_SZ).
Proof.
  intros Hp Hd Hs Ad As Hne. unfold phys_copy_frame, region_read, region_write, is_multiple_of.
  rewrite !in_bounds_true by done. change (Z.of_nat FRAME_SZ) with FRAME.
  destruct (Z.eqb_spec (dst mod FRAME) 0), (Z.eqb_spec (src mod FRAME) 0); try done.
  destruct (Z.eqb_spec dst src); [done|]. rewrite (region_fits_true p src) by done.
  cbn [mbind res_bind]. rewrite length_get_bytes. change (Z.of_nat FRAME_SZ) with FRAME.
  rewrite region_fits_true by done. eexists. split; [done|apply put_stored].
Qed.

(** * The allocator's invariant *)

(** Frames that are live: neither free nor pinned. *)
Definition live (rc : Z) : bool := (1 <=? rc) && negb (rc =? PINNED).
Fixpoint live_count (rcs : list Z) : Z :=
  match rcs with
  | [] => 0
  | rc :: rcs => (if live rc then 1 else 0) + live_count rcs
  end.

Record fa_wf (fa : FrameAllocator) : Prop := {
  fw_null : refcount fa !! 0%nat = Some PINNED;
  fw_u32 : Forall (λ rc, 0 ≤ rc ≤ PINNED) (refcount fa);
  fw_len : Z.of_nat (length (refcount fa)) ≤ U32;
  fw_nodup : NoDup (free_list fa);
  fw_free f : f ∈ free_list fa ↔ 0 ≤ f ∧ refcount fa !! Z.to_nat f = Some 0;
  fw_count : allocated fa = live_count (refcount fa)
}.

Record pool_wf (s : Pool) : Prop := {
  pl_phys : phys_wf (phys s);
  pl_fa : fa_wf (fa s);
  pl_frames : Z.of_nat (length (refcount (fa s))) = phys_nframes (phys s)
}.

Lemma live_count_insert rcs f old new :
  rcs !! f = Some old →
  live_count (<[f := new]> rcs)
    = live_count rcs - (if live old then 1 else 0) + (if live new then 1 else 0).
Proof.
  revert f; induction rcs as [|rc rcs IH]; intros [|f] H; simpl in *; simplify_eq.
  - lia.
  - rewrite (IH _ H). lia.
Qed.

Lemma live_true rc : 1 ≤ rc → rc ≠ PINNED → live rc = true.
Proof. unfold live. lia. Qed.

Lemma live_count_bound rcs : 0 ≤ live_count rcs ≤ Z.of_nat (length rcs).
Proof. induction rcs as [|rc rcs IH]; simpl; [lia|]. destruct (live rc); lia. Qed.

Lemma frame_of_Some fa pa f :
  frame_of fa pa = Some f ↔
    pa = Z.of_nat f * FRAME ∧ (f < length (refcount fa))%nat.
Proof.
  unfold frame_of, is_multiple_of, FRAME, PAGE_SIZE.
  destruct (Z.eqb_spec (pa mod 4096) 0) as [H|H]; simpl.
  - destruct (Z.leb_spec 0 (pa / 4096)), (Z.ltb_spec (pa / 4096) (Z.of_nat (length (refcount fa))));
      simpl; split; intros; simplify_eq; Z.div_mod_to_equations; try lia.
    f_equal. lia.
  - split; [done|]. intros [-> _]. by rewrite Z.mod_mul in H.
Qed.

Lemma frame_of_lookup fa pa f :
  frame_of fa pa = Some f → refcount fa !! f = Some (fa_refcount fa pa).
Proof.
  intros H. unfold fa_refcount. rewrite H. apply frame_of_Some in H as [_ Hf].
  by apply list_lookup_lookup_total_lt.
Qed.

(** [frame_of] depends on the size of the allocator only. *)
Lemma frame_of_length fa fa' pa :
  length (refcount fa') = length (refcount fa) → frame_of fa' pa = frame_of fa pa.
Proof. unfold frame_of. by intros ->. Qed.

Lemma refcount_update fa fa' pa f v :
  frame_of fa pa = Some f → refcount fa' = <[f := v]> (refcount fa) →
  ∀ q, fa_refcount fa' q = if decide (q = pa) then v else fa_refcount fa q.
Proof.
  intros Hf E q. unfold fa_refcount.
  rewrite (frame_of_length fa fa' q) by (by rewrite E, length_insert).
  pose proof (proj1 (frame_of_Some _ _ _) Hf) as [-> Hlt].
  case_decide as Hq; [subst q; rewrite Hf, E; by apply list_lookup_total_insert_eq|].
  destruct (frame_of fa q) as [g|] eqn:Hg; [|done].
  apply frame_of_Some in Hg as [-> ?]. rewrite E. apply list_lookup_total_insert_ne. congruence.
Qed.

(** Rebuilding the invariant when one entry of [refcount] changes. *)
Lemma fa_wf_update fa fa' f old new :
  fa_wf fa → refcount fa !! f = Some old → old ≠ PINNED → 0 ≤ new ≤ PINNED →
  refcount fa' = <[f := new]> (refcount fa) →
  allocated fa' = allocated fa - (if live old then 1 else 0) + (if live new then 1 else 0) →
  NoDup (free_list fa') →
  (∀ g, g ∈ free_list fa' ↔
     (g ∈ free_list fa ∧ g ≠ Z.of_nat f) ∨ (g = Z.of_nat f ∧ new = 0)) →
  fa_wf fa'.
Proof.
  intros [W1 W2 W3 W4 W5 W6] Hf Hold Hnew Er Ea Hnd Hfree.
  assert (f ≠ 0%nat) as Hf0 by (intros ->; congruence).
  pose proof (lookup_lt_Some _ _ _ Hf) as Hlt.
  split; rewrite ?Er, ?length_insert; [|by apply Forall_insert|done|done| |].
  - by rewrite list_lookup_insert_ne.
  - intros g. rewrite Hfree, W5. destruct (decide (g = Z.of_nat f)) as [->|Hg].
    + rewrite Nat2Z.id, list_lookup_insert_eq by done. split; [|naive_solver lia].
      intros [[_ ?]|[_ ->]]; [done|split; [lia|done]].
    + destruct (decide (0 ≤ g)) as [H0|H0]; [|naive_solver lia].
      rewrite list_lookup_insert_ne by lia. naive_solver.
  - rewrite Ea, W6, (live_count_insert _ _ old) by done. lia.
Qed.

Lemma fa_wf_reserve_irrelevant fa n b :
  fa_wf fa → fa_wf (mkFA (refcount fa) (free_list fa) (allocated fa) n b).
Proof. intros [W1 W2 W3 W4 W5 W6]. by split. Qed.

Lemma fa_refcount_range fa pa : fa_wf fa → 0 ≤ fa_refcount fa pa ≤ PINNED.
Proof.
  intros Hwf. destruct (frame_of fa pa) as [f|] eqn:Hf.
  - apply frame_of_lookup in Hf. by apply (Forall_lookup_1 _ _ _ _ (fw_u32 _ Hwf)) in Hf.
  - unfold fa_refcount. by rewrite Hf.
Qed.

Lemma fa_refcount_total fa f : refcount fa !!! f = fa_refcount fa (Z.of_nat f * FRAME)
  ∨ (length (refcount fa) ≤ f)%nat.
Proof.
  destruct (decide (f < length (refcount fa))%nat) as [H|H]; [left|right; lia].
  unfold fa_refcount. by rewrite (proj2 (frame_of_Some fa _ f)).
Qed.

(** [incref]: one more owner; pinned frames are left alone. *)
Lemma fa_incref_spec fa pa :
  fa_wf fa → 1 ≤ fa_refcount fa pa → fa_refcount fa pa + 1 ≠ PINNED →
  let fa' := fa_incref fa pa in
  fa_wf fa' ∧ length (refcount fa') = length (refcount fa) ∧ free_list fa' = free_list fa
  ∧ (∀ q, fa_refcount fa' q =
       if decide (q = pa ∧ fa_refcount fa pa ≠ PINNED) then fa_refcount fa pa + 1
       else fa_refcount fa q).
Proof.
  intros Hwf H1 Hsat. unfold fa_incref.
  pose proof (fa_refcount_range fa pa Hwf) as Hr.
  destruct (frame_of fa pa) as [f|] eqn:Hf.
  2: { unfold fa_refcount in H1. rewrite Hf in H1. lia. }
  pose proof (frame_of_lookup _ _ _ Hf) as Hl.
  rewrite (list_lookup_total_correct _ _ _ Hl).
  destruct (Z.eqb_spec (fa_refcount fa pa) PINNED) as [E|E].
  - split_and!; [done..|]. intros q. by rewrite decide_False by naive_solver.
  - change (U32 - 1) with PINNED. simpl. rewrite length_insert.
    rewrite Z.min_l by lia. split_and!; [|done|done|].
    + eapply (fa_wf_update fa _ f); [done|exact Hl|done| |reflexivity| |apply Hwf|].
      * lia.
      * simpl. rewrite !live_true by lia. lia.
      * simpl. intros g. rewrite (fw_free _ Hwf). split; [|naive_solver lia].
        intros [Hg Hg0]. left. split; [done|]. intros ->. rewrite Nat2Z.id, Hl in Hg0.
        simplify_eq. lia.
    + intros q. erewrite (refcount_update fa _ pa f) by done.
      repeat case_decide; naive_solver.
Qed.

(** [decref]/[free]: one owner less; the last one returns the frame to the free
    list.  Pinned and already-free frames are left alone. *)
Lemma fa_decref_spec fa pa :
  fa_wf fa →
  let fa' := fa_decref fa pa in
  fa_wf fa' ∧ length (refcount fa') = length (refcount fa)
  ∧ (∀ q, fa_refcount fa' q =
       if decide (q = pa ∧ 1 ≤ fa_refcount fa pa ∧ fa_refcount fa pa ≠ PINNED)
       then fa_refcount fa pa - 1 else fa_refcount fa q)
  ∧ free_list fa' = (if decide (fa_refcount fa pa = 1)
                     then pa / FRAME :: free_list fa else free_list fa).
Proof.
  intros Hwf. unfold fa_decref. pose proof (fa_refcount_range fa pa Hwf) as Hr.
  destruct (frame_of fa pa) as [f|] eqn:Hf.
  2: { assert (fa_refcount fa pa = 0) as -> by (unfold fa_refcount; by rewrite Hf).
       split_and!; [done..| |done]. intros q. by rewrite decide_False by naive_solver lia. }
  pose proof (frame_of_lookup _ _ _ Hf) as Hl.
  pose proof (proj1 (frame_of_Some _ _ _) Hf) as [Hpa Hlt].
  rewrite (list_lookup_total_correct _ _ _ Hl).
  set (rc := fa_refcount fa pa) in *.
  destruct (Z.eqb_spec rc PINNED) as [E|E].
  { rewrite decide_False by (rewrite E; done). split_and!; [done..| |done].
    intros q. by rewrite decide_False by naive_solver. }
  destruct (Z.eqb_spec rc 0) as [E0|E0].
  { rewrite decide_False by lia. split_and!; [done..| |done].
    intros q. by rewrite decide_False by naive_solver lia. }
  assert (∀ g, g ∈ free_list fa → g ≠ Z.of_nat f) as Hnf.
  { intros g [_ Hg]%(fw_free _ Hwf) ->. rewrite Nat2Z.id, Hl in Hg. simplify_eq. }
  destruct (Z.eqb_spec rc 1) as [E1|E1]; simpl; rewrite length_insert; split_and!; try done.
  - eapply (fa_wf_update fa _ f); [done|exact Hl|done| |reflexivity| | |].
    + lia.
    + simpl. rewrite (live_true rc) by lia. rewrite E1. change (live (1 - 1)) with false. simpl. lia.
    + simpl. constructor; [naive_solver|apply Hwf].
    + simpl. intros g. rewrite elem_of_cons. naive_solver lia.
  - intros q. erewrite (refcount_update fa _ pa f) by done. repeat case_decide; naive_solver lia.
  - rewrite decide_True by done. rewrite Hpa, Z.div_mul by done. done.
  - eapply (fa_wf_update fa _ f); [done|exact Hl|done| |reflexivity| |apply Hwf|].
    + lia.
    + simpl. rewrite !live_true by lia. lia.
    + simpl. intros g. naive_solver lia.
  - intros q. erewrite (refcount_update fa _ pa f) by done. repeat case_decide; naive_solver lia.
  - by rewrite decide_False.
Qed.

(** * Allocation *)

Definition rc (s : Pool) (pa : Z) : Z := fa_refcount (fa s) pa.
Definition aligned (pa : Z) : Prop := pa mod FRAME = 0.

(** When an ordinary allocation is refused. *)
Definition exhausted (s : Pool) : Prop :=
  free_list (fa s) = []
  ∨ use_reserve (fa s) = false ∧ Z.of_nat (length (free_list (fa s))) ≤ reserve_n (fa s).

(** A refcounted frame lies in the pool. *)
Lemma rc_inside s pa : pool_wf s → 1 ≤ rc s pa → aligned pa ∧ inside (phys s) pa FRAME.
Proof.
  intros [Hp Hf Hn] H1. unfold rc, fa_refcount in H1.
  destruct (frame_of (fa s) pa) as [f|] eqn:E; [|lia].
  apply frame_of_Some in E as [-> Hlt]. destruct Hp as [_ Hm _ _].
  unfold phys_nframes, aligned, inside, FRAME, PAGE_SIZE in *.
  split; [by apply Z.mod_mul|]. Z.div_mod_to_equations. lia.
Qed.

Lemma rc_null s : pool_wf s → rc s 0 = PINNED.
Proof.
  intros [_ Hf _]. pose proof (fw_null _ Hf) as H0. unfold rc.
  assert (frame_of (fa s) 0 = Some 0%nat) as E.
  { apply frame_of_Some. split; [lia|]. by apply lookup_lt_Some in H0. }
  apply frame_of_lookup in E. congruence.
Qed.

(** The effect of a successful allocation. *)
Record allocated_frame (s s' : Pool) (pa : Z) : Prop := {
  al_wf : pool_wf s';
  al_aligned : aligned pa;
  al_pos : 0 < pa;
  al_inside : inside (phys s) pa FRAME;
  al_fresh : rc s pa = 0;
  al_rc q : rc s' q = if decide (q = pa) then 1 else rc s q;
  al_stored : stored (phys s) (phys s') pa (replicate FRAME_SZ 0);
  al_reserve : reserve_n (fa s') = reserve_n (fa s);
  al_use : use_reserve (fa s') = use_reserve (fa s)
}.

Lemma fa_alloc_None s : exhausted s → fa_alloc s = Ok (None, s).
Proof.
  intros H. unfold fa_alloc. destruct H as [E|[-> H]].
  - rewrite E. by case_match.
  - destruct (Z.leb_spec (Z.of_nat (length (free_list (fa s)))) (reserve_n (fa s))); [done|lia].
Qed.

Lemma fa_alloc_Some s :
  pool_wf s → ¬ exhausted s → ∃ pa s', fa_alloc s = Ok (Some pa, s') ∧ allocated_frame s s' pa.
Proof.
  intros Hwf Hex. pose proof Hwf as [Hp Hf Hn]. unfold fa_alloc.
  destruct (negb (use_reserve (fa s)) && _) eqn:E.
  { apply andb_true_iff in E as [E1 E2]. apply negb_true_iff in E1.
    destruct Hex. right. split; [done|lia]. }
  destruct (free_list (fa s)) as [|f rest] eqn:Efl; [destruct Hex; by left|].
  assert (f ∈ free_list (fa s)) as Hin by (rewrite Efl; set_solver).
  apply (fw_free _ Hf) in Hin as [H0 Hl]. rewrite Hl.
  assert (frame_of (fa s) (f * FRAME) = Some (Z.to_nat f)) as Hfr.
  { apply frame_of_Some. rewrite Z2Nat.id by done. split; [done|]. by apply lookup_lt_Some in Hl. }
  pose proof (frame_of_lookup _ _ _ Hfr) as Hrc. rewrite Hl in Hrc. injection Hrc as Hrc.
  assert (f ≠ 0) as Hf0.
  { intros ->. pose proof (fw_null _ Hf) as H1. change (Z.to_nat 0) with 0%nat in Hl. rewrite Hl in H1. done. }
  assert (f < phys_nframes (phys s)) as Hlt by (apply lookup_lt_Some in Hl; lia).
  assert (inside (phys s) (f * FRAME) FRAME) as Hins.
  { unfold inside, phys_nframes, FRAME, PAGE_SIZE in *. Z.div_mod_to_equations. lia. }
  destruct (phys_zero_frame_ok (phys s) (f * FRAME)) as (p' & -> & Hst);
    [done|done|by apply Z.mod_mul|].
  eexists _, _. split; [done|].
  assert (∀ a', refcount a' = <[Z.to_nat f := 1]> (refcount (fa s)) →
     ∀ q, fa_refcount a' q = if decide (q = f * FRAME) then 1 else fa_refcount (fa s) q) as Hupd.
  { intros a' Ea. by apply (refcount_update (fa s) a' (f * FRAME) (Z.to_nat f)). }
  split; simpl; try done.
  - split; simpl.
    + eapply stored_wf; [done| |exact Hst]. by apply Forall_replicate.
    + eapply (fa_wf_update (fa s) _ (Z.to_nat f)); [done|exact Hl|done| |reflexivity| | |].
      * done.
      * simpl. change (live 0) with false. change (live 1) with true. lia.
      * simpl. pose proof (fw_nodup _ Hf) as Hnd. rewrite Efl in Hnd. by inversion Hnd.
      * simpl. intros g. pose proof (fw_nodup _ Hf) as Hnd. rewrite Efl in Hnd |- *.
        apply NoDup_cons in Hnd as [Hni _]. rewrite elem_of_cons, Z2Nat.id by lia.
        split; [intros Hg; left; split; [by right|]; by intros ->|].
        intros [[[->|H] Hne]|[? [=]]]; [done|exact H].
    + unfold phys_nframes. rewrite (st_size _ _ _ _ Hst), length_insert. exact Hn.
  - by apply Z.mod_mul.
  - unfold FRAME, PAGE_SIZE. lia.
  - intros q. by apply Hupd.
Qed.

(** * Pinning *)

Lemma pin_frames_spec l fa0 :
  allocated fa0 = live_count (refcount fa0) →
  (∀ f, f ∈ l → 0 ≤ f < Z.of_nat (length (refcount fa0))) →
  let fa' := foldl pin_frame fa0 l in
  allocated fa' = live_count (refcount fa')
  ∧ length (refcount fa') = length (refcount fa0)
  ∧ free_list fa' = free_list fa0
  ∧ (∀ g, refcount fa' !! g =
       if decide (Z.of_nat g ∈ l) then Some PINNED else refcount fa0 !! g).
Proof.
  revert fa0; induction l as [|f l IH]; intros fa0 Ha Hl; cbn [foldl].
  { split_and!; [done..|]. intros g. by rewrite decide_False by set_solver. }
  destruct (Hl f) as [Hf0 Hf1]; [set_solver|].
  destruct (lookup_lt_is_Some_2 (refcount fa0) (Z.to_nat f)) as [old Hold]; [lia|].
  assert (length (refcount (pin_frame fa0 f)) = length (refcount fa0)) as Hlen
    by (unfold pin_frame; simpl; apply length_insert).
  destruct (IH (pin_frame fa0 f)) as (I1 & I2 & I3 & I4).
  - unfold pin_frame. simpl. rewrite (list_lookup_total_correct _ _ _ Hold).
    rewrite (live_count_insert _ _ old) by done. change (live PINNED) with false.
    unfold live. rewrite andb_comm. destruct (_ && _); simpl; lia.
  - rewrite Hlen. set_solver.
  - split_and!; [done|congruence|by rewrite I3|]. intros g. rewrite I4.
    destruct (decide (Z.of_nat g ∈ l)); [by rewrite decide_True by set_solver|].
    unfold pin_frame. simpl. destruct (decide (Z.to_nat f = g)) as [<-|Hne].
    + rewrite list_lookup_insert_eq by lia. rewrite decide_True; [done|].
      rewrite Z2Nat.id by lia. set_solver.
    + rewrite list_lookup_insert_ne by done. rewrite decide_False; [done|].
      rewrite elem_of_cons. intros [<-|?]; [|done]. by rewrite Nat2Z.id in Hne.
Qed.

Lemma div_ceil_frame_last e f : 0 ≤ e → f < div_ceil e FRAME ↔ f * FRAME < e.
Proof.
  unfold div_ceil, FRAME, PAGE_SIZE. intros He. Z.div_mod_to_equations. lia.
Qed.

(** [reserve]: the frames overlapping [[pa, pa + len)] become pinned, the others
    are untouched, and the call panics exactly when the range leaves the pool. *)
Lemma fa_reserve_spec fa0 pa len :
  fa_wf fa0 → 0 ≤ pa → 0 < len → pa + len ≤ Z.of_nat (length (refcount fa0)) * FRAME →
  ∃ fa', fa_reserve fa0 pa len = Ok fa' ∧ fa_wf fa'
    ∧ length (refcount fa') = length (refcount fa0)
    ∧ (∀ g, (g < length (refcount fa0))%nat →
         refcount fa' !! g =
           if decide (pa < (Z.of_nat g + 1) * FRAME ∧ Z.of_nat g * FRAME < pa + len)
           then Some PINNED else refcount fa0 !! g).
Proof.
  intros Hwf Hpa Hlen Hend. pose proof Hwf as [W1 W2 W3 W4 W5 W6]. unfold fa_reserve.
  destruct (Z.eqb_spec len 0); [lia|].
  unfold checked_add64. destruct (Z.ltb_spec (pa + len) U64) as [Hu|Hu].
  2: { exfalso. unfold U64, U32, FRAME, PAGE_SIZE in *. lia. }
  assert (div_ceil (pa + len) FRAME ≤ Z.of_nat (length (refcount fa0))) as Hd.
  { pose proof (proj1 (div_ceil_frame_last (pa + len) (Z.of_nat (length (refcount fa0)))
                  ltac:(lia))). lia. }
  destruct (Z.leb_spec (div_ceil (pa + len) FRAME) (Z.of_nat (length (refcount fa0)))); [|lia].
  eexists; split; [reflexivity|].
  set (l := seqZ (pa / FRAME) _).
  assert (∀ f, f ∈ l ↔ pa < (f + 1) * FRAME ∧ f * FRAME < pa + len ∧ 0 ≤ f) as Hin.
  { intros f. unfold l. rewrite elem_of_seqZ.
    pose proof (div_ceil_frame_last (pa + len) f ltac:(lia)).
    unfold FRAME, PAGE_SIZE in *. Z.div_mod_to_equations. lia. }
  destruct (pin_frames_spec l fa0) as (P1 & P2 & P3 & P4); [done| |].
  { intros f Hf. split; [naive_solver|]. apply Hin in Hf as (_ & Hf & _).
    pose proof (proj2 (div_ceil_frame_last (pa + len) f ltac:(lia)) Hf). lia. }
  set (fa1 := foldl pin_frame fa0 l) in *.
  split_and!; [|simpl; done|].
  - split; simpl.
    + rewrite P4, W1. by case_decide.
    + apply Forall_lookup. intros i x. rewrite P4. case_decide; [by intros [= <-]|].
      intros Hx. by apply (Forall_lookup_1 _ _ _ _ W2) in Hx.
    + by rewrite P2.
    + rewrite P3. by apply NoDup_filter.
    + intros f. rewrite list_elem_of_filter, P3, W5, P4.
      destruct (decide (0 ≤ f)) as [H0|H0]; [|naive_solver].
      rewrite Z2Nat.id by done.
      destruct (decide (f ∈ l)) as [Hf|Hf].
      * rewrite (list_lookup_total_correct _ _ PINNED); [naive_solver|].
        rewrite P4, Z2Nat.id, decide_True by done. done.
      * split; [naive_solver|]. intros [_ Hf0]. split; [|done].
        rewrite (list_lookup_total_correct _ _ 0); [done|].
        rewrite P4, Z2Nat.id, decide_False by done. done.
    + done.
  - intros g Hg. cbn [refcount]. rewrite P4. apply decide_ext. rewrite Hin. lia.
Qed.

(** * A fresh pool *)

Lemma next_multiple_bounds a b :
  0 ≤ a → 0 < b → a ≤ next_multiple_of a b < a + b ∧ next_multiple_of a b mod b = 0.
Proof.
  intros Ha Hb. unfold next_multiple_of, div_ceil. split; [|by apply Z.mod_mul; lia].
  Z.div_mod_to_equations. nia.
Qed.

Lemma live_count_replicate0 n : live_count (replicate n 0) = 0.
Proof. induction n; simpl; lia. Qed.

Lemma phys_new_wf size :
  0 ≤ size ≤ 2 ^ 51 → phys_wf (phys_new size) ∧ size ≤ pm_size (phys_new size) ≤ 2 ^ 52
  ∧ FRAME ≤ pm_size (phys_new size).
Proof.
  intros Hs. unfold phys_new, region_new. simpl.
  destruct (next_multiple_bounds size FRAME) as [B1 _]; [lia|done|].
  set (n1 := Z.max (next_multiple_of size FRAME) FRAME).
  assert (0 ≤ n1 < size + 2 * FRAME ∧ size ≤ n1 ∧ FRAME ≤ n1) as B2
    by (unfold n1, FRAME, PAGE_SIZE in *; lia).
  destruct (next_multiple_bounds n1 HOST_PAGE) as [B3 M3]; [lia|done|].
  set (n2 := Z.max (next_multiple_of n1 HOST_PAGE) HOST_PAGE).
  assert (n2 mod FRAME = 0) as M4.
  { unfold n2. destruct (Z.max_spec (next_multiple_of n1 HOST_PAGE) HOST_PAGE) as [[_ ->]|[_ ->]];
      [done|]. unfold HOST_PAGE, FRAME, PAGE_SIZE in *. Z.div_mod_to_equations. lia. }
  assert (n1 ≤ n2 < n1 + 2 * HOST_PAGE) as B4 by (unfold n2, HOST_PAGE in *; lia).
  unfold HOST_PAGE, FRAME, PAGE_SIZE in *. split_and!; [|lia..].
  split; simpl; [done|done|lia|]. intros i. done.
Qed.

Lemma fa_new_wf n :
  1 ≤ n ≤ U32 → ∃ a, fa_new n = Ok a ∧ fa_wf a ∧ Z.of_nat (length (refcount a)) = n.
Proof.
  intros Hn. unfold fa_new. destruct (Z.leb_spec 1 n); [|lia].
  eexists; split; [done|]. simpl. rewrite length_replicate.
  split; [|lia]. split; simpl.
  - done.
  - constructor; [done|]. by apply Forall_replicate.
  - rewrite length_replicate. lia.
  - apply NoDup_seqZ.
  - intros f. rewrite elem_of_seqZ. split.
    + intros Hf. split; [lia|]. replace (Z.to_nat f) with (S (Z.to_nat (f - 1))) by lia. simpl.
      apply lookup_replicate_2. lia.
    + intros [Hf0 Hl]. destruct (Z.to_nat f) as [|k] eqn:E; simpl in Hl; [done|].
      apply lookup_replicate_1 in Hl as [_ Hk]. lia.
  - rewrite live_count_replicate0. done.
Qed.

(** The pool [GuestMemory::new_split] builds: [PhysMem::new] and
    [FrameAllocator::new(phys.nframes())]. *)
Definition pool_new (size : Z) : res Pool :=
  let p := phys_new size in
  a ← fa_new (phys_nframes p);
  mret (mkPool p a).

Lemma pool_new_wf size :
  0 ≤ size ≤ 2 ^ 43 → ∃ s, pool_new size = Ok s ∧ pool_wf s.
Proof.
  intros Hs. destruct (phys_new_wf size) as (Hp & Hb & Hb2); [lia|]. unfold pool_new.
  destruct (fa_new_wf (phys_nframes (phys_new size))) as (a & Ea & Ha & Hl).
  { split.
    - unfold phys_nframes. apply Z.div_le_lower_bound; [done|]. lia.
    - unfold phys_nframes, phys_new, region_new in *. simpl in *.
      destruct (next_multiple_bounds size FRAME) as [B1 _]; [lia|done|].
      set (n1 := Z.max (next_multiple_of size FRAME) FRAME) in *.
      assert (0 ≤ n1 < size + 2 * FRAME) by (unfold n1, FRAME, PAGE_SIZE in *; lia).
      destruct (next_multiple_bounds n1 HOST_PAGE) as [B3 _]; [lia|done|].
      apply Z.div_le_upper_bound; [done|]. unfold U32, FRAME, PAGE_SIZE, HOST_PAGE in *. lia. }
  rewrite Ea. eexists; split; [done|]. by split.
Qed.

(** * Runs of the allocator *)

(** The operations of the pool's clients. *)
Inductive PoolOp :=
  | PAlloc
  | PIncref (pa : Z)
  | PDecref (pa : Z)
  | PReserve (pa len : Z)
  | PSetReserve (n : Z)
  | PUseReserve (on : bool)
  | PWrite (pa : Z) (buf : list Z).
Definition with_fa (s : Pool) (a : res FrameAllocator) : res Pool := a ← a; mret (mkPool (phys s) a).
Definition pool_exec (checks : bool) (o : PoolOp) (s : Pool) : res Pool :=
  match o with
  | PAlloc => '(_, s) ← fa_alloc_in checks s; mret s
  | PIncref pa => with_fa s (fa_incref_in checks (fa s) pa)
  | PDecref pa => with_fa s (fa_decref_in checks (fa s) pa)
  | PReserve pa len => with_fa s (fa_reserve (fa s) pa len)
  | PSetReserve n => with_fa s (Ok (fa_set_reserve (fa s) n))
  | PUseReserve on => with_fa s (Ok (fa_set_use_reserve (fa s) on))
  | PWrite pa buf => p ← phys_write (phys s) pa buf; mret (mkPool p (fa s))
  end.

(** Arguments of their types. *)
Definition op_typed (o : PoolOp) : Prop :=
  match o with
  | PReserve pa len => 0 ≤ pa ∧ 0 ≤ len
  | PWrite pa buf => 0 ≤ pa ∧ Forall is_byte buf
  | _ => True
  end.
(** What the operations ask of their callers: references only to frames that are not free, ranges
    inside the pool. *)
Definition op_legal (s : Pool) (o : PoolOp) : Prop :=
  match o with
  | PIncref pa | PDecref pa => 1 ≤ rc s pa
  | PReserve pa len => len = 0 ∨ pa + len ≤ pm_size (phys s)
  | PWrite pa buf => pa + Z.of_nat (length buf) ≤ pm_size (phys s)
  | _ => True
  end.
(** A step of either build. The last reference a counter can hold is not taken; and a build without
    assertions, which counts a reference to a free frame all the same ([incref_free_corrupts]),
    is not asked for one. *)
Inductive pool_step (checks : bool) (s s' : Pool) : Prop :=
  | pool_op o :
      op_typed o → pool_exec checks o s = Ok s' →
      (∀ pa, o = PIncref pa → rc s pa ≠ PINNED - 1 ∧
         (checks = false → is_Some (frame_of (fa s) pa) → rc s pa ≠ 0)) →
      pool_step checks s s'.

Lemma phys_write_Ok_inside p pa buf p' :
  0 ≤ pa → phys_write p pa buf = Ok p' → inside p pa (Z.of_nat (length buf)).
Proof.
  unfold phys_write, phys_in_bounds. intros H0 H. case_match eqn:E; [|done].
  unfold checked_add64 in E. destruct (_ <? U64); [|done]. unfold inside. lia.
Qed.

Lemma fa_reserve_Ok_bound a pa len a' :
  0 ≤ pa → 0 < len → fa_reserve a pa len = Ok a' →
  pa + len ≤ Z.of_nat (length (refcount a)) * FRAME.
Proof.
  unfold fa_reserve, checked_add64. intros Hpa Hlen H.
  destruct (Z.eqb_spec len 0); [lia|]. destruct (Z.ltb_spec (pa + len) U64); [|done].
  destruct (Z.leb_spec (div_ceil (pa + len) FRAME) (Z.of_nat (length (refcount a)))) as [Hd|];
    [|done].
  pose proof (proj2 (div_ceil_frame_last (pa + len) (Z.of_nat (length (refcount a)))
                ltac:(lia))). lia.
Qed.

Lemma pool_wf_fa s a :
  pool_wf s → fa_wf a → length (refcount a) = length (refcount (fa s)) →
  pool_wf (mkPool (phys s) a).
Proof. intros [H1 H2 H3] Ha Hl. split; simpl; [done|done|by rewrite Hl]. Qed.

Lemma pool_wf_stored s p' pa buf :
  pool_wf s → Forall is_byte buf → stored (phys s) p' pa buf → pool_wf (mkPool p' (fa s)).
Proof.
  intros [H1 H2 H3] Hb Hs. split; simpl; [by eapply stored_wf|done|].
  unfold phys_nframes. by rewrite (st_size _ _ _ _ Hs).
Qed.

Lemma fa_alloc_not_panic s : pool_wf s → fa_alloc s ≠ Panic.
Proof.
  intros Hwf. destruct (decide (exhausted s)) as [E|E]; [by rewrite (fa_alloc_None s E)|].
  by destruct (fa_alloc_Some s Hwf E) as (pa & s1 & -> & _).
Qed.
Lemma fa_alloc_in_eq checks s : pool_wf s → fa_alloc_in checks s = fa_alloc s.
Proof.
  intros [_ Hf _]. unfold fa_alloc_in. destruct (_ && _); [done|]. destruct (free_list (fa s)) as [|f l] eqn:E; [done|].
  rewrite bool_decide_true; [by rewrite andb_false_r|]. apply (fw_free _ Hf). rewrite E. by left.
Qed.
Lemma fa_refcount_some fa0 pa f : frame_of fa0 pa = Some f → fa_refcount fa0 pa = refcount fa0 !!! f.
Proof. intros E. unfold fa_refcount. by rewrite E. Qed.
(** The assertions fire exactly on references to frames that are free or not there. *)
Lemma fa_incref_in_eq checks fa0 pa :
  fa_incref_in checks fa0 pa = if checks && negb (1 <=? fa_refcount fa0 pa) then Panic else Ok (fa_incref fa0 pa).
Proof.
  unfold fa_incref_in, fa_incref, fa_refcount. destruct (frame_of fa0 pa) as [f|]; [|by destruct checks].
  destruct (Z.eqb_spec (refcount fa0 !!! f) PINNED) as [->|]; [by destruct checks|done].
Qed.
Lemma fa_decref_in_eq checks fa0 pa :
  fa_decref_in checks fa0 pa = if checks && negb (1 <=? fa_refcount fa0 pa) then Panic else Ok (fa_decref fa0 pa).
Proof.
  unfold fa_decref_in, fa_decref, fa_refcount. destruct (frame_of fa0 pa) as [f|]; [|by destruct checks].
  destruct (Z.eqb_spec (refcount fa0 !!! f) PINNED) as [->|]; [by destruct checks|done].
Qed.
Lemma incref_nowhere fa0 pa : frame_of fa0 pa = None → fa_incref fa0 pa = fa0.
Proof. intros E. unfold fa_incref. by rewrite E. Qed.
Lemma fa_reserve_panic s pa len :
  pool_wf s → 0 ≤ pa → 0 ≤ len → fa_reserve (fa s) pa len = Panic ↔ ¬ (len = 0 ∨ pa + len ≤ pm_size (phys s)).
Proof.
  intros [[_ Hm Hsz _] Hf Hn] Hp Hl.
  assert (Z.of_nat (length (refcount (fa s))) * FRAME = pm_size (phys s)) as El.
  { rewrite Hn. unfold phys_nframes. pose proof (Z.div_mod (pm_size (phys s)) FRAME ltac:(done)). lia. }
  destruct (Z.eqb_spec len 0) as [->|Hne]; [split; [done|tauto]|]. split.
  - intros E [?|Hle]; [done|]. destruct (fa_reserve_spec (fa s) pa len) as (a & Ea & _); [done|done|lia|lia|congruence].
  - intros Hno. destruct (fa_reserve (fa s) pa len) as [a|] eqn:E; [|done]. destruct Hno. right.
    pose proof (fa_reserve_Ok_bound (fa s) pa len a Hp ltac:(lia) E). lia.
Qed.
Lemma phys_write_panic p pa buf :
  phys_wf p → 0 ≤ pa → phys_write p pa buf = Panic ↔ ¬ pa + Z.of_nat (length buf) ≤ pm_size p.
Proof.
  intros Hp H0. split.
  - intros E Hle. destruct (phys_write_ok p pa buf Hp) as (p' & Ep & _); [split; lia|congruence].
  - intros Hno. destruct (phys_write p pa buf) as [p'|] eqn:E; [|done]. destruct Hno.
    by destruct (phys_write_Ok_inside _ _ _ _ H0 E).
Qed.

(** With debug assertions an operation panics exactly when its caller breaks its contract. *)
Lemma pool_exec_panics s o : pool_wf s → op_typed o → pool_exec true o s = Panic ↔ ¬ op_legal s o.
Proof.
  intros Hwf Ht. pose proof Hwf as [Hp Hf _]. destruct o; unfold pool_exec, with_fa; simpl in *.
  - rewrite (fa_alloc_in_eq true s Hwf). pose proof (fa_alloc_not_panic s Hwf). destruct (fa_alloc s) as [[r s']|]; simpl; [naive_solver|done].
  - rewrite fa_incref_in_eq. unfold rc. destruct (Z.leb_spec 1 (fa_refcount (fa s) pa)); simpl; split; try done; lia.
  - rewrite fa_decref_in_eq. unfold rc. destruct (Z.leb_spec 1 (fa_refcount (fa s) pa)); simpl; split; try done; lia.
  - rewrite <- (fa_reserve_panic s pa len Hwf) by tauto. by destruct (fa_reserve _ _ _).
  - naive_solver.
  - naive_solver.
  - rewrite <- (phys_write_panic (phys s) pa buf Hp) by tauto. by destruct (phys_write _ _ _).
Qed.

Lemma pool_step_wf checks s s' : pool_step checks s s' → pool_wf s → pool_wf s'.
Proof.
  intros [o Ht E Hc] Hwf. pose proof Hwf as [Hp Hf Hn]. destruct o; unfold pool_exec, with_fa in E; simpl in *.
  - rewrite (fa_alloc_in_eq _ _ Hwf) in E. destruct (decide (exhausted s)) as [X|X].
    + rewrite (fa_alloc_None s X) in E. by injection E as <-.
    + destruct (fa_alloc_Some s Hwf X) as (pa & s1 & Ea & A). rewrite Ea in E. injection E as <-. apply A.
  - rewrite fa_incref_in_eq in E. destruct (checks && _) eqn:Ec; [done|]. injection E as <-.
    destruct (Hc pa eq_refl) as [Hsat Hfree]. pose proof (fa_refcount_range (fa s) pa Hf) as Hr.
    destruct (decide (1 ≤ rc s pa)) as [H1|H1].
    + destruct (fa_incref_spec (fa s) pa) as (W & L & _); [done|done|unfold rc in *; lia|]. by apply pool_wf_fa.
    + destruct (frame_of (fa s) pa) as [f|] eqn:Ef; [|rewrite incref_nowhere by done; by apply pool_wf_fa].
      exfalso. unfold rc in *. destruct checks; simpl in Ec; [lia|]. assert (fa_refcount (fa s) pa = 0) by lia.
      by apply Hfree.
  - rewrite fa_decref_in_eq in E. destruct (checks && _) eqn:Ec; [done|]. injection E as <-.
    destruct (fa_decref_spec (fa s) pa) as (W & L & _); [done..|]. by apply pool_wf_fa.
  - destruct (fa_reserve (fa s) pa len) as [a|] eqn:Ea; [|done]. injection E as <-. destruct Ht as [H0 Hl].
    destruct (decide (len = 0)) as [->|Hne]; [unfold fa_reserve in Ea; simpl in Ea; injection Ea as <-; by apply pool_wf_fa|].
    pose proof (fa_reserve_Ok_bound (fa s) pa len a H0 ltac:(lia) Ea).
    destruct (fa_reserve_spec (fa s) pa len) as (a' & Ea' & W & L & _); [done|done|lia|done|].
    rewrite Ea in Ea'. injection Ea' as <-. by apply pool_wf_fa.
  - injection E as <-. apply pool_wf_fa; [done|by apply fa_wf_reserve_irrelevant|done].
  - injection E as <-. apply pool_wf_fa; [done|by apply fa_wf_reserve_irrelevant|done].
  - destruct (phys_write _ _ _) as [p|] eqn:Ew; [|done]. injection E as <-. destruct Ht as [H0 Hb].
    pose proof (phys_write_Ok_inside _ _ _ _ H0 Ew) as Hi.
    destruct (phys_write_ok (phys s) pa buf) as (p' & Ep & Hs); [done..|].
    rewrite Ew in Ep. injection Ep as <-. by eapply pool_wf_stored.
Qed.

Lemma pool_steps_wf checks s s' : rtc (pool_step checks) s s' → pool_wf s → pool_wf s'.
Proof. induction 1; eauto using pool_step_wf. Qed.

(** Counting frames. *)
Definition count_rc (v : Z) (rcs : list Z) : Z := Z.of_nat (length (filter (λ rc, rc = v) rcs)).

Lemma count_split rcs :
  Forall (λ rc, 0 ≤ rc ≤ PINNED) rcs →
  count_rc 0 rcs + live_count rcs + count_rc PINNED rcs = Z.of_nat (length rcs).
Proof.
  unfold count_rc. induction 1 as [|x rcs Hx _ IH]; [done|].
  rewrite !filter_cons. cbn [live_count]. unfold live.
  change PINNED with 4294967295 in *.
  destruct (decide (x = 0)), (decide (x = 4294967295)), (Z.leb_spec 1 x), (Z.eqb_spec x 4294967295);
    simpl; lia.
Qed.

Lemma free_list_length a : fa_wf a → Z.of_nat (length (free_list a)) = count_rc 0 (refcount a).
Proof.
  intros Hwf. unfold count_rc. f_equal.
  assert (∀ (rcs : list Z) o,
    length (filter (λ f, rcs !! Z.to_nat (f - o) = Some 0) (seqZ o (Z.of_nat (length rcs))))
    = length (filter (λ rc, rc = 0) rcs)) as K.
  { induction rcs as [|x rcs IH]; intros o; [done|].
    rewrite seqZ_cons, !filter_cons by (simpl; lia). rewrite Z.sub_diag.
    change (Z.to_nat 0) with 0%nat. cbn [lookup list_lookup].
    replace (Z.pred (Z.of_nat (length (x :: rcs)))) with (Z.of_nat (length rcs)) by (simpl; lia).
    assert (filter (λ f, (x :: rcs) !! Z.to_nat (f - o) = Some 0)
              (seqZ (Z.succ o) (Z.of_nat (length rcs)))
            = filter (λ f, rcs !! Z.to_nat (f - Z.succ o) = Some 0)
              (seqZ (Z.succ o) (Z.of_nat (length rcs)))) as E.
    { apply filter_iff_in. intros f Hf%elem_of_seqZ.
      replace (Z.to_nat (f - o)) with (S (Z.to_nat (f - Z.succ o))) by lia. done. }
    repeat case_decide; simplify_eq; simpl; by rewrite E, IH. }
  rewrite <- (K (refcount a) 0). apply Permutation_length, NoDup_Permutation.
  - apply Hwf.
  - apply NoDup_filter, NoDup_seqZ.
  - intros f. rewrite (fw_free _ Hwf), list_elem_of_filter, elem_of_seqZ, Z.sub_0_r.
    split; [|naive_solver]. intros [H0 Hl]. split; [done|].
    apply lookup_lt_Some in Hl as ?. lia.
Qed.

Lemma pool_accounting s :
  pool_wf s →
  fa_free_count (fa s) + fa_alloc_count (fa s) + count_rc PINNED (refcount (fa s))
    = phys_nframes (phys s).
Proof.
  intros [_ Hf Hn]. unfold fa_free_count, fa_alloc_count.
  rewrite free_list_length, (fw_count _ Hf) by done. rewrite <- Hn. apply count_split, Hf.
Qed.

(** C40: the frame allocator's invariant. After any sequence of operations on a fresh pool, in a
    build with debug assertions or without, that takes no frame's counter to its last value and,
    without assertions, no reference to a free frame: every frame is free, live or pinned; the
    free list, the live count and the pinned frames add up to the pool, so no frame is lost or
    handed out twice; the null frame stays pinned. In such a state an operation of a build with
    assertions panics exactly when its caller breaks its contract (a reference to a frame that is
    free or outside the pool, a range past the end of the pool), and allocating never does. *)
Theorem pool_invariant checks size s0 s :
  0 ≤ size ≤ 2 ^ 43 → pool_new size = Ok s0 → rtc (pool_step checks) s0 s →
  fa_free_count (fa s) + fa_alloc_count (fa s) + count_rc PINNED (refcount (fa s))
    = phys_nframes (phys s)
  ∧ NoDup (free_list (fa s))
  ∧ (∀ f, f ∈ free_list (fa s) ↔ 0 ≤ f ∧ refcount (fa s) !! Z.to_nat f = Some 0)
  ∧ rc s 0 = PINNED
  ∧ (∀ o, op_typed o → pool_exec true o s = Panic ↔ ¬ op_legal s o).
Proof.
  intros Hs Hnew Hsteps. destruct (pool_new_wf size Hs) as (s0' & E & Hwf0).
  rewrite Hnew in E. simplify_eq.
  pose proof (pool_steps_wf _ _ _ Hsteps Hwf0) as Hwf. pose proof Hwf as [_ Hf _].
  split_and!; [by apply pool_accounting|apply Hf|apply Hf|by apply rc_null|].
  intros o Ho. by apply pool_exec_panics.
Qed.

(** Run a step and keep the final state, for concrete pools. *)
Definition after {A S} (r : res (A * S)) (s : S) : S :=
  match r with Ok (_, s') => s' | Panic => s end.
Definition result_of {A S} (r : res (A * S)) : option A :=
  match r with Ok (a, _) => Some a | Panic => None end.
Lemma run_ok {A S} (r : res (A * S)) a s : result_of r = Some a → r = Ok (a, after r s).
Proof. destruct r as [[a' s']|]; simpl; naive_solver. Qed.
Definition small_pool : Pool :=
  match pool_new 16384 with Ok s => s | Panic => mkPool (phys_new 0) (mkFA [] [] 0 0 false) end.

Lemma small_alloc :
  fa_alloc small_pool = Ok (Some 4096, after (fa_alloc small_pool) small_pool).
Proof. apply run_ok. vm_compute. reflexivity. Qed.

Lemma small_step : pool_step true small_pool (after (fa_alloc small_pool) small_pool).
Proof.
  apply (pool_op _ _ _ PAlloc); [done| |intros pa E; discriminate E].
  unfold pool_exec. change (fa_alloc_in true small_pool) with (fa_alloc small_pool). by rewrite small_alloc.
Qed.
Lemma pool_invariant_witness :
  fa_free_count (fa (after (fa_alloc small_pool) small_pool)) = 2
  ∧ fa_free_count (fa (after (fa_alloc small_pool) small_pool))
    + fa_alloc_count (fa (after (fa_alloc small_pool) small_pool))
    + count_rc PINNED (refcount (fa (after (fa_alloc small_pool) small_pool)))
    = phys_nframes (phys (after (fa_alloc small_pool) small_pool)).
Proof.
  split; [vm_compute; reflexivity|].
  apply (pool_invariant true 16384 small_pool (after (fa_alloc small_pool) small_pool)).
  - lia.
  - vm_compute; reflexivity.
  - apply rtc_once, small_step.
Defined.

(** A reference to a free frame, which is said to be ignored in a build without assertions, is
    counted: the frame stays on the free list and is handed out although something refers to it. *)
Lemma incref_free_corrupts :
  match pool_exec false (PIncref 4096) small_pool with
  | Ok s => rc s 4096 = 1 ∧ 1 ∈ free_list (fa s) ∧ result_of (fa_alloc s) = Some (Some 4096) ∧
            rc (after (fa_alloc s) s) 4096 = 1
  | Panic => False
  end.
Proof. vm_compute. split_and!; [done|by left|done|done]. Qed.

(** [alloc] either refuses, with nothing changed, exactly when the free list is
    empty or down to the reserve, or hands out a zeroed, aligned, non-null frame of
    the pool that nobody owned, with one reference, and touches no other byte and
    no other count. *)
Theorem alloc_spec s :
  pool_wf s →
  (exhausted s ∧ fa_alloc s = Ok (None, s))
  ∨ (¬ exhausted s ∧ ∃ pa s', fa_alloc s = Ok (Some pa, s')
      ∧ pool_wf s' ∧ aligned pa ∧ 0 < pa ∧ inside (phys s) pa FRAME
      ∧ rc s pa = 0 ∧ rc s' pa = 1 ∧ (∀ q, q ≠ pa → rc s' q = rc s q)
      ∧ (∀ i, byte (phys s') i = if decide (pa ≤ i < pa + FRAME) then 0 else byte (phys s) i)).
Proof.
  intros Hwf.
  destruct (decide (free_list (fa s) = [] ∨ use_reserve (fa s) = false
      ∧ Z.of_nat (length (free_list (fa s))) ≤ reserve_n (fa s))) as [E|E].
  { left. split; [done|]. by apply fa_alloc_None. }
  right. split; [done|]. destruct (fa_alloc_Some s Hwf E) as (pa & s' & Ha & A).
  exists pa, s'. split; [done|]. split_and!; try apply A.
  - rewrite (al_rc _ _ _ A). by rewrite decide_True.
  - intros q Hq. rewrite (al_rc _ _ _ A). by rewrite decide_False.
  - intros i. destruct (al_stored _ _ _ A) as [_ _ S3 S4].
    rewrite length_replicate in S3, S4. change (Z.of_nat FRAME_SZ) with FRAME in *.
    case_decide as Hi; [|by apply S4]. rewrite S3 by done.
    apply lookup_total_replicate_2. unfold FRAME_SZ. lia.
Qed.

Lemma small_pool_wf : pool_wf small_pool.
Proof.
  destruct (pool_new_wf 16384) as (s & E & Hwf); [lia|].
  unfold small_pool. by rewrite E.
Qed.

Lemma alloc_spec_witness :
  (exhausted small_pool ∧ fa_alloc small_pool = Ok (None, small_pool))
  ∨ (¬ exhausted small_pool ∧ ∃ pa s', fa_alloc small_pool = Ok (Some pa, s')
      ∧ pool_wf s' ∧ aligned pa ∧ 0 < pa ∧ inside (phys small_pool) pa FRAME
      ∧ rc small_pool pa = 0 ∧ rc s' pa = 1 ∧ (∀ q, q ≠ pa → rc s' q = rc small_pool q)
      ∧ (∀ i, byte (phys s') i =
           if decide (pa ≤ i < pa + FRAME) then 0 else byte (phys small_pool) i)).
Proof. apply (alloc_spec small_pool), small_pool_wf. Defined.

(** Sharing a live frame and dropping the share again leaves the allocator
    exactly as it was. *)
Theorem incref_decref_roundtrip a pa :
  fa_wf a → 1 ≤ fa_refcount a pa → fa_refcount a pa + 1 ≠ PINNED →
  fa_decref (fa_incref a pa) pa = a.
Proof.
  intros Hwf H1 H2. pose proof (fa_refcount_range a pa Hwf) as Hr.
  unfold fa_incref, fa_decref.
  destruct (frame_of a pa) as [f|] eqn:Hf; [|by rewrite Hf].
  pose proof (frame_of_lookup _ _ _ Hf) as Hl. pose proof (lookup_lt_Some _ _ _ Hl).
  rewrite (list_lookup_total_correct _ _ _ Hl).
  destruct (Z.eqb_spec (fa_refcount a pa) PINNED) as [E|E].
  - rewrite Hf, (list_lookup_total_correct _ _ _ Hl). by rewrite E.
  - rewrite (frame_of_length a) by (simpl; apply length_insert). rewrite Hf. simpl.
    rewrite list_lookup_total_insert_eq by done. change (U32 - 1) with PINNED.
    rewrite Z.min_l by lia.
    destruct (Z.eqb_spec (fa_refcount a pa + 1) PINNED); [done|].
    destruct (Z.eqb_spec (fa_refcount a pa + 1) 0); [lia|].
    destruct (Z.eqb_spec (fa_refcount a pa + 1) 1); [lia|].
    unfold with_refcount. simpl. rewrite list_insert_insert_eq.
    replace (fa_refcount a pa + 1 - 1) with (fa_refcount a pa) by lia.
    rewrite list_insert_id by done. by destruct a.
Qed.

Lemma incref_decref_roundtrip_witness :
  let a := fa (after (fa_alloc small_pool) small_pool) in
  fa_refcount a 4096 = 1 ∧ fa_decref (fa_incref a 4096) 4096 = a.
Proof.
  intros a. split; [vm_compute; reflexivity|].
  apply (incref_decref_roundtrip a 4096); [|vm_compute; discriminate..].
  apply pl_fa. apply (pool_step_wf true small_pool); [apply small_step|apply small_pool_wf].
Defined.
