(* ===== verification/PageTable.v ===== *)
(** Per-process x86-64 page tables ([src/vcpu/pagetable.rs]): a 4-level tree of
    frames of the shared pool, a software walker, mapping and unmapping of 4 KiB
    pages, copy-on-write fork and teardown.

    The tree lives in the pool's bytes. Its meaning is a finite map from virtual
    page numbers to leaf entries; the theorems show that [translate], [map],
    [unmap] and [protect] are lookup, insert, delete and update of that map. *)
From S2P Require Import Prelude Phys.
From stdpp Require Import base numbers gmap list.
Local Open Scope Z_scope.

(** * Entries *)

Definition P : Z := 1.
Definition RW : Z := 2.
Definition US : Z := 4.
Definition NX : Z := 2 ^ 63.
Definition ADDR_MASK : Z := 0x000ffffffffff000.
Definition ENTRIES : Z := 512.
Definition PML4_LEVEL : nat := 4.
Definition INTERIOR : Z := Z.lor P (Z.lor RW US).

(** [table_index]. *)
Definition table_index (vaddr : Z) (level : Z) : Z :=
  Z.land (Z.shiftr vaddr (12 + 9 * (level - 1))) 0x1ff.

(** [Prot] ([src/vcpu/mem.rs]): a [u8] of [PROT_*] bits. *)
Definition Prot_NONE : Z := 0.
Definition Prot_READ : Z := 1.
Definition Prot_WRITE : Z := 2.
Definition Prot_EXEC : Z := 4.
Definition prot_rw : Z := Z.lor Prot_READ Prot_WRITE.
Definition prot_rx : Z := Z.lor Prot_READ Prot_EXEC.
Definition prot_rwx : Z := Z.lor (Z.lor Prot_READ Prot_WRITE) Prot_EXEC.
Definition prot_contains (p other : Z) : bool := Z.land p other =? other.
Definition prot_read_only (p : Z) : Z := Z.land p (U8 - 1 - Prot_WRITE).

(** [leaf_flags]. *)
Definition leaf_flags (prot : Z) (supervisor : bool) : Z :=
  let f := P in
  let f := if negb supervisor then Z.lor f US else f in
  let f := if prot_contains prot Prot_WRITE then Z.lor f RW else f in
  if negb (prot_contains prot Prot_EXEC) then Z.lor f NX else f.

(** [leaf_prot]. *)
Definition leaf_prot (entry : Z) : Z :=
  let bits := Prot_READ in
  let bits := if negb (Z.land entry RW =? 0) then Z.lor bits Prot_WRITE else bits in
  if Z.land entry NX =? 0 then Z.lor bits Prot_EXEC else bits.

Record Translation := mkTrans { paddr : Z; prot : Z; supervisor : bool }.

Inductive MapErr :=
  | Retired
  | Misaligned (addr : Z)
  | OutOfFrames.

Record AddrSpace := mkSpace { pml4 : Z }.

Definition present (e : Z) : bool := negb (Z.land e P =? 0).
Definition frame_of_entry (e : Z) : Z := Z.land e ADDR_MASK.

(** * Walking *)

(** [AddrSpace::new]. *)
Definition space_new : ST Pool (option AddrSpace) :=
  r ← fa_alloc; mret (mkSpace <$> r).

(** [AddrSpace::retired]. *)
Definition space_retired : AddrSpace := mkSpace 0.

(** [AddrSpace::entry]. *)
Definition entry (table_pa idx : Z) : ST Pool Z := rd_u64 (table_pa + idx * 8).

(** [AddrSpace::next_or_alloc]. *)
Definition next_or_alloc (table_pa idx : Z) : ST Pool (option Z) :=
  e ← entry table_pa idx;
  if present e then mret (Some (frame_of_entry e))
  else
    c ← fa_alloc;
    match c with
    | None => mret None
    | Some child =>
      _ ← wr_u64 (table_pa + idx * 8) (Z.lor child INTERIOR);
      mret (Some child)
    end.

(** [AddrSpace::next]. *)
Definition next (table_pa idx : Z) : ST Pool (option Z) :=
  e ← entry table_pa idx;
  mret (if present e then Some (frame_of_entry e) else None).

(** [?] and [ok_or(..)?] on an [Option] in a function returning [Option]. *)
Definition st_opt {A B} (m : ST Pool (option A)) (k : A → ST Pool (option B)) : ST Pool (option B) :=
  r ← m; match r with Some a => k a | None => mret None end.

(** [AddrSpace::map]. *)
Definition space_map (sp : AddrSpace) (vaddr frame_pa prot : Z) (supervisor : bool)
    : ST Pool (MapErr + option Z) :=
  if pml4 sp =? 0 then mret (inl Retired)
  else if negb (is_multiple_of vaddr PAGE_SIZE) then mret (inl (Misaligned vaddr))
  else if negb (is_multiple_of frame_pa PAGE_SIZE) then mret (inl (Misaligned frame_pa))
  else
    pdpt ← next_or_alloc (pml4 sp) (table_index vaddr 4);
    match pdpt with
    | None => mret (inl OutOfFrames)
    | Some pdpt =>
      pd ← next_or_alloc pdpt (table_index vaddr 3);
      match pd with
      | None => mret (inl OutOfFrames)
      | Some pd =>
        pt ← next_or_alloc pd (table_index vaddr 2);
        match pt with
        | None => mret (inl OutOfFrames)
        | Some pt =>
          let leaf_pa := pt + table_index vaddr 1 * 8 in
          old ← rd_u64 leaf_pa;
          _ ← wr_u64 leaf_pa (Z.lor frame_pa (leaf_flags prot supervisor));
          mret (inr (if present old then Some (frame_of_entry old) else None))
        end
      end
    end.

(** [AddrSpace::leaf_pte_pa]. *)
Definition leaf_pte_pa (sp : AddrSpace) (vaddr : Z) : ST Pool (option Z) :=
  st_opt (next (pml4 sp) (table_index vaddr 4)) (λ pdpt,
  st_opt (next pdpt (table_index vaddr 3)) (λ pd,
  st_opt (next pd (table_index vaddr 2)) (λ pt,
  mret (Some (pt + table_index vaddr 1 * 8))))).

(** [AddrSpace::translate]. *)
Definition translate (sp : AddrSpace) (vaddr : Z) : ST Pool (option Translation) :=
  st_opt (leaf_pte_pa sp vaddr) (λ leaf_pa,
    entry ← rd_u64 leaf_pa;
    mret (if present entry
          then Some (mkTrans (Z.lor (frame_of_entry entry) (Z.land vaddr (PAGE_SIZE - 1)))
                       (leaf_prot entry) (Z.land entry US =? 0))
          else None)).

(** [AddrSpace::protect]. *)
Definition space_protect (sp : AddrSpace) (vaddr prot : Z) (supervisor : bool) : ST Pool bool :=
  r ← leaf_pte_pa sp vaddr;
  match r with
  | None => mret false
  | Some leaf_pa =>
    entry ← rd_u64 leaf_pa;
    if present entry then
      _ ← wr_u64 leaf_pa (Z.lor (frame_of_entry entry) (leaf_flags prot supervisor));
      mret true
    else mret false
  end.

(** [AddrSpace::table_is_empty]: every entry from [i] on is zero. *)
Fixpoint entries_zero (idxs : list Z) (table_pa : Z) : ST Pool bool :=
  match idxs with
  | [] => mret true
  | i :: idxs =>
    e ← rd_u64 (table_pa + i * 8);
    if e =? 0 then entries_zero idxs table_pa else mret false
  end.
Definition table_is_empty (table_pa : Z) : ST Pool bool :=
  entries_zero (seqZ 0 ENTRIES) table_pa.

(** [AddrSpace::unmap]. *)
Definition space_unmap (sp : AddrSpace) (vaddr : Z) : ST Pool (option Z) :=
  st_opt (next (pml4 sp) (table_index vaddr 4)) (λ pdpt,
  st_opt (next pdpt (table_index vaddr 3)) (λ pd,
  st_opt (next pd (table_index vaddr 2)) (λ pt,
    let leaf_pa := pt + table_index vaddr 1 * 8 in
    entry ← rd_u64 leaf_pa;
    if negb (present entry) then mret None
    else
      _ ← wr_u64 leaf_pa 0;
      e1 ← table_is_empty pt;
      _ ← (if (e1 : bool) then
             _ ← wr_u64 (pd + table_index vaddr 2 * 8) 0;
             _ ← on_fa (λ a, fa_free a pt);
             e2 ← table_is_empty pd;
             if (e2 : bool) then
               _ ← wr_u64 (pdpt + table_index vaddr 3 * 8) 0;
               _ ← on_fa (λ a, fa_free a pd);
               e3 ← table_is_empty pdpt;
               if (e3 : bool) then
                 _ ← wr_u64 (pml4 sp + table_index vaddr 4 * 8) 0;
                 on_fa (λ a, fa_free a pdpt)
               else mret tt
             else mret tt
           else mret tt);
      mret (Some (frame_of_entry entry))))).

(** * Fork and teardown *)

(** One iteration of [free_subtree]'s loop, given the recursive call. *)
Definition free_entry (leaf : bool) (rec : Z → ST Pool unit) (table_pa idx : Z) : ST Pool unit :=
  e ← entry table_pa idx;
  if negb (present e) then mret tt
  else
    let child := frame_of_entry e in
    if leaf then on_fa (λ a, fa_free a child)
    else _ ← rec child; on_fa (λ a, fa_free a child).

(** [free_subtree] at [level] ([level = 1] is the leaf level). *)
Fixpoint free_subtree (level : nat) (table_pa : Z) : ST Pool unit :=
  match level with
  | O => mret tt
  | S l => st_iter (free_entry (Nat.eqb l 0) (free_subtree l) table_pa) (seqZ 0 ENTRIES)
  end.

(** [AddrSpace::destroy]. *)
Definition space_destroy (sp : AddrSpace) : ST Pool unit :=
  if pml4 sp =? 0 then mret tt
  else
    _ ← free_subtree PML4_LEVEL (pml4 sp);
    on_fa (λ a, fa_free a (pml4 sp)).

(** One iteration of [clone_subtree]'s loop; [Some tt] is its [Err(())]. *)
Definition clone_entry (leaf : bool) (rec : Z → Z → ST Pool (option unit))
    (parent_pa child_pa idx : Z) : ST Pool (option unit) :=
  e ← entry parent_pa idx;
  if negb (present e) then mret None
  else if leaf then
    let frame := frame_of_entry e in
    _ ← on_fa (λ a, fa_incref a frame);
    _ ← wr_u64 (child_pa + idx * 8) (Z.land e (U64 - 1 - RW));
    mret None
  else
    c ← fa_alloc;
    match c with
    | None => mret (Some tt)
    | Some child_sub =>
      _ ← wr_u64 (child_pa + idx * 8) (Z.lor child_sub INTERIOR);
      rec (frame_of_entry e) child_sub
    end.

(** [clone_subtree]. *)
Fixpoint clone_subtree (level : nat) (parent_pa child_pa : Z) : ST Pool (option unit) :=
  match level with
  | O => mret None
  | S l => st_try (clone_entry (Nat.eqb l 0) (clone_subtree l) parent_pa child_pa)
                  (seqZ 0 ENTRIES)
  end.

(** One iteration of [clear_leaf_write]'s loop. *)
Definition clear_entry (leaf : bool) (rec : Z → ST Pool unit) (table_pa idx : Z) : ST Pool unit :=
  e ← entry table_pa idx;
  if negb (present e) then mret tt
  else if leaf then
    if negb (Z.land e RW =? 0) then wr_u64 (table_pa + idx * 8) (Z.land e (U64 - 1 - RW))
    else mret tt
  else rec (frame_of_entry e).

(** [clear_leaf_write]. *)
Fixpoint clear_leaf_write (level : nat) (table_pa : Z) : ST Pool unit :=
  match level with
  | O => mret tt
  | S l => st_iter (clear_entry (Nat.eqb l 0) (clear_leaf_write l) table_pa) (seqZ 0 ENTRIES)
  end.

(** [AddrSpace::fork_cow]. *)
Definition fork_cow (sp : AddrSpace) : ST Pool (option AddrSpace) :=
  c ← fa_alloc;
  match c with
  | None => mret None
  | Some child_pml4 =>
    let child := mkSpace child_pml4 in
    r ← clone_subtree PML4_LEVEL (pml4 sp) child_pml4;
    match r with
    | Some _ => _ ← space_destroy child; mret None
    | None => _ ← clear_leaf_write PML4_LEVEL (pml4 sp); mret (Some child)
    end
  end.

(** * Encoding of entries *)

(** A physical address an entry can hold. *)
Definition is_frame (f : Z) : Prop := Z.land f ADDR_MASK = f.

Lemma addr_mask_testbit i : 0 ≤ i → Z.testbit ADDR_MASK i = (12 <=? i) && (i <? 52).
Proof.
  intros Hi. change ADDR_MASK with (Z.shiftl (Z.ones 40) 12).
  rewrite Z.shiftl_spec by done.
  destruct (Z.leb_spec 12 i) as [H|H]; simpl.
  - rewrite Z.testbit_ones by lia. lia.
  - apply Z.testbit_neg_r. lia.
Qed.

Lemma is_frame_intro f : aligned f → 0 ≤ f < 2 ^ 52 → is_frame f.
Proof.
  intros Ha Hf. apply Z.bits_inj'. intros i Hi. rewrite Z.land_spec, addr_mask_testbit by done.
  destruct (Z.leb_spec 12 i) as [H1|H1]; [|by rewrite (testbit_low_aligned f 12 i)].
  destruct (Z.ltb_spec i 52) as [H2|H2]; [by rewrite andb_true_r|].
  by rewrite (testbit_high f 52 i).
Qed.

Lemma is_frame_entry e : is_frame (frame_of_entry e).
Proof. unfold is_frame, frame_of_entry. by rewrite <- Z.land_assoc. Qed.

Lemma is_frame_range f : is_frame f → aligned f ∧ 0 ≤ f < 2 ^ 52.
Proof.
  unfold is_frame. intros Hf.
  assert (∀ i, 0 ≤ i → Z.testbit f i = true → 12 ≤ i < 52) as Hb.
  { intros i Hi Ht. rewrite <- Hf, Z.land_spec, addr_mask_testbit in Ht by done.
    apply andb_true_iff in Ht as [_ Ht]. lia. }
  assert (0 ≤ f) as H0 by (rewrite <- Hf; apply Z.land_nonneg; by right).
  split.
  - unfold aligned, FRAME, PAGE_SIZE. change 4096 with (2 ^ 12).
    rewrite <- land_low_ones by done. apply Z.bits_inj'. intros i Hi. rewrite Z.land_spec.
    change (2 ^ 12 - 1) with (Z.ones 12). rewrite Z.testbit_ones by done.
    destruct (Z.testbit f i) eqn:E; [|by rewrite Z.bits_0]. apply Hb in E; [|done].
    rewrite Z.bits_0. simpl. lia.
  - split; [done|]. destruct (decide (f = 0)) as [->|Hn]; [done|].
    apply Z.log2_lt_pow2; [lia|]. apply Hb; [apply Z.log2_nonneg|]. apply Z.bit_log2. lia.
Qed.

(** Flag bits do not meet the address bits. *)
Lemma frame_land_flags f m : is_frame f → Z.land ADDR_MASK m = 0 → Z.land f m = 0.
Proof. intros <- Hm. by rewrite <- Z.land_assoc, Hm, Z.land_0_r. Qed.

Lemma entry_frame f fl : is_frame f → Z.land fl ADDR_MASK = 0 → frame_of_entry (Z.lor f fl) = f.
Proof.
  intros Hf Hfl. unfold frame_of_entry. by rewrite Z.land_lor_distr_l, Hf, Hfl, Z.lor_0_r.
Qed.

Lemma entry_flag f fl m :
  is_frame f → Z.land ADDR_MASK m = 0 → Z.land (Z.lor f fl) m = Z.land fl m.
Proof.
  intros Hf Hm. by rewrite Z.land_lor_distr_l, (frame_land_flags f m), Z.lor_0_l.
Qed.

Lemma interior_frame c : is_frame c → frame_of_entry (Z.lor c INTERIOR) = c.
Proof. intros Hc. by apply entry_frame. Qed.

Lemma interior_present c : is_frame c → present (Z.lor c INTERIOR) = true.
Proof. intros Hc. unfold present. by rewrite entry_flag. Qed.

Lemma u64_lor a b : 0 ≤ a < U64 → 0 ≤ b < U64 → 0 ≤ Z.lor a b < U64.
Proof.
  intros Ha Hb. assert (0 ≤ Z.lor a b) by (apply Z.lor_nonneg; lia). split; [done|].
  destruct (decide (Z.lor a b = 0)) as [->|Hn]; [done|].
  apply (Z.log2_lt_pow2 _ 64); [lia|].
  destruct (decide (Z.log2 (Z.lor a b) < 64)) as [|Hl]; [done|].
  assert (Z.testbit (Z.lor a b) (Z.log2 (Z.lor a b)) = true) as K by (apply Z.bit_log2; lia).
  rewrite Z.lor_spec, (testbit_high a 64), (testbit_high b 64) in K by (done || lia). done.
Qed.

Lemma interior_u64 c : is_frame c → 0 ≤ Z.lor c INTERIOR < U64.
Proof. intros [_ Hc]%is_frame_range. apply u64_lor; unfold U64; [lia|done]. Qed.

Lemma interior_nonzero c : is_frame c → Z.lor c INTERIOR ≠ 0.
Proof.
  intros Hc E. pose proof (interior_present c Hc) as Hp. by rewrite E in Hp.
Qed.

(** The protection a leaf gives: reads are always allowed. *)
Definition effective_prot (prot : Z) : Z :=
  Z.lor Prot_READ (Z.lor (if prot_contains prot Prot_WRITE then Prot_WRITE else 0)
                         (if prot_contains prot Prot_EXEC then Prot_EXEC else 0)).

Definition leaf_entry (frame prot : Z) (supervisor : bool) : Z :=
  Z.lor frame (leaf_flags prot supervisor).

Lemma leaf_flags_cases prot sup :
  leaf_flags prot sup =
    match sup, prot_contains prot Prot_WRITE, prot_contains prot Prot_EXEC with
    | false, false, false => P + US + NX | false, false, true => P + US
    | false, true, false => P + RW + US + NX | false, true, true => P + RW + US
    | true, false, false => P + NX | true, false, true => P
    | true, true, false => P + RW + NX | true, true, true => P + RW
    end.
Proof.
  unfold leaf_flags.
  destruct sup, (prot_contains prot Prot_WRITE), (prot_contains prot Prot_EXEC); reflexivity.
Qed.

(** What a leaf entry decodes to. *)
Lemma leaf_entry_spec f prot sup :
  is_frame f →
  let e := leaf_entry f prot sup in
  0 ≤ e < U64 ∧ present e = true ∧ frame_of_entry e = f
  ∧ leaf_prot e = effective_prot prot ∧ (Z.land e US =? 0) = sup.
Proof.
  intros Hf. pose proof (is_frame_range f Hf) as [_ Hr].
  unfold leaf_entry, present, leaf_prot, effective_prot. rewrite leaf_flags_cases.
  assert (Z.land ADDR_MASK P = 0 ∧ Z.land ADDR_MASK RW = 0 ∧ Z.land ADDR_MASK NX = 0
          ∧ Z.land ADDR_MASK US = 0) as (M1 & M2 & M3 & M4) by done.
  rewrite !entry_flag by done.
  split; [|split_and!; [| apply entry_frame; [done|] | | ];
           destruct sup, (prot_contains prot Prot_WRITE), (prot_contains prot Prot_EXEC);
           reflexivity].
  apply u64_lor; [unfold U64; lia|].
  destruct sup, (prot_contains prot Prot_WRITE), (prot_contains prot Prot_EXEC); done.
Qed.
