(* ===== verification/PageTree.v ===== *)
(** What a page-table tree means: the refinement of [PageTable].

    A tree of table frames represents a finite map from virtual page numbers to leaf
    entries. [is_space s root t R] says that the pool [s] holds at [root] the tree
    [t], that its tables are owned by it alone, and that the reference counts of the
    pool are exactly the references the tree holds ([refs t]) plus those everybody
    else holds ([R]). Against this predicate [translate] is a lookup, [map] an
    insertion, [unmap] a deletion and [protect] an update, and none of them gains or
    loses a reference or touches a live frame that is not one of its tables. *)
From S2P Require Import Prelude Phys PageTable.
From stdpp Require Import base numbers gmap gmultiset list.
Local Open Scope Z_scope.

(** * Page numbers and slots

    A level-[l] slot number [m] names one entry of the level: slot [m mod 512] of
    the table numbered [m / 512]; it covers the pages [n] with [n / span (l-1) = m]. *)

Definition span (l : nat) : Z := 512 ^ Z.of_nat l.

(** The 36-bit virtual page number a walk looks at. *)
Definition vpn (vaddr : Z) : Z := (vaddr / PAGE_SIZE) mod 2 ^ 36.

Lemma span_S l : span (S l) = 512 * span l.
Proof. unfold span. rewrite Nat2Z.inj_succ, Z.pow_succ_r; lia. Qed.
Lemma span_pos l : 0 < span l.
Proof. unfold span. apply Z.pow_pos_nonneg; lia. Qed.
Lemma span_0 : span 0 = 1.
Proof. done. Qed.

Lemma vpn_range v : 0 ≤ vpn v < span 4.
Proof. apply Z.mod_pos_bound. done. Qed.

Lemma table_index_slot v l :
  (l < 4)%nat → table_index v (Z.of_nat (S l)) = (vpn v / span l) mod 512.
Proof.
  intros Hl. unfold table_index, vpn, span, PAGE_SIZE.
  change 0x1ff with (Z.ones 9). rewrite Z.land_ones, Z.shiftr_div_pow2 by lia.
  replace (12 + 9 * (Z.of_nat (S l) - 1)) with (12 + 9 * Z.of_nat l) by lia.
  rewrite Z.pow_add_r by lia. change 4096 with (2 ^ 12). rewrite <- Z.div_div by lia.
  rewrite Z.pow_mul_r by lia. change (2 ^ 9) with 512.
  generalize (v / 2 ^ 12). intros w.
  destruct l as [|[|[|[|]]]]; [..|lia]; simpl Z.of_nat;
    match goal with |- context [512 ^ ?k] => let x := eval compute in (512 ^ k) in
      change (512 ^ k) with x end; change (2 ^ 36) with 68719476736;
    divlia.
Qed.

Lemma table_index_range v l : 0 ≤ table_index v l < 512.
Proof.
  unfold table_index. change 0x1ff with (Z.ones 9). rewrite Z.land_ones by lia.
  by apply Z.mod_pos_bound.
Qed.

Lemma div_span_S n l : n / span (S l) = n / span l / 512.
Proof.
  rewrite span_S, Z.mul_comm, Z.div_div; [done| |lia]. pose proof (span_pos l). lia.
Qed.

(** * Multisets of references *)

Definition vals {K} `{Countable K} (m : gmap K Z) : gmultiset Z :=
  list_to_set_disj (map_to_list m).*2.

Section vals.
Context {K : Type} `{Countable K}.
Implicit Types m : gmap K Z.

Lemma vals_insert m k v : m !! k = None → vals (<[k := v]> m) = {[+ v +]} ⊎ vals m.
Proof.
  intros Hk. unfold vals.
  rewrite (list_to_set_disj_perm _ ((k, v) :: map_to_list m).*2); [done|].
  by rewrite map_to_list_insert.
Qed.

Lemma vals_delete m k v : m !! k = Some v → vals m = {[+ v +]} ⊎ vals (delete k m).
Proof.
  intros Hk. rewrite <- (vals_insert (delete k m) k v) by apply lookup_delete_eq.
  by rewrite insert_delete_id.
Qed.

Lemma vals_lookup m k v : m !! k = Some v → (1 ≤ multiplicity v (vals m))%nat.
Proof.
  intros Hk. rewrite (vals_delete m k v Hk), multiplicity_disj_union, multiplicity_singleton_eq. lia.
Qed.

Lemma vals_inj m k k' v :
  m !! k = Some v → m !! k' = Some v → multiplicity v (vals m) = 1%nat → k = k'.
Proof.
  intros Hk Hk' Hm. destruct (decide (k = k')) as [|Hne]; [done|].
  rewrite (vals_delete m k v Hk), multiplicity_disj_union, multiplicity_singleton_eq in Hm.
  assert (delete k m !! k' = Some v) as Hd by by rewrite lookup_delete_ne.
  apply vals_lookup in Hd. lia.
Qed.

Lemma elem_of_vals m v : v ∈ vals m → ∃ k, m !! k = Some v.
Proof.
  unfold vals. rewrite elem_of_list_to_set_disj, list_elem_of_fmap.
  intros ([k x] & -> & Hk%elem_of_map_to_list). by exists k.
Qed.

Lemma vals_filter_split m (P Q T : K * Z → Prop)
    `{∀ x, Decision (P x), ∀ x, Decision (Q x), ∀ x, Decision (T x)} :
  (∀ k v, m !! k = Some v → T (k, v) ↔ P (k, v) ∨ Q (k, v)) →
  (∀ k v, m !! k = Some v → P (k, v) → Q (k, v) → False) →
  vals (filter T m) = vals (filter P m) ⊎ vals (filter Q m).
Proof.
  induction m as [|k v m Hk IH] using map_ind; intros HT HD.
  - rewrite !map_filter_empty. unfold vals. rewrite map_to_list_empty. simpl. multiset_solver.
  - assert (∀ k' v', m !! k' = Some v' → <[k := v]> m !! k' = Some v') as Hin.
    { intros k' v' Hl. rewrite lookup_insert_ne; [done|]. intros ->. by rewrite Hk in Hl. }
    specialize (IH (λ k' v' Hl, HT k' v' (Hin _ _ Hl)) (λ k' v' Hl, HD k' v' (Hin _ _ Hl))).
    specialize (HT k v (lookup_insert_eq _ _ _)). specialize (HD k v (lookup_insert_eq _ _ _)).
    assert (∀ (U : K * Z → Prop) `{∀ x, Decision (U x)},
      vals (filter U (<[k := v]> m)) =
        (if decide (U (k, v)) then {[+ v +]} else ∅) ⊎ vals (filter U m)) as K1.
    { intros U ?. case_decide as HU.
      - rewrite map_filter_insert_True by done. apply vals_insert.
        apply map_lookup_filter_None. by left.
      - rewrite map_filter_insert_False, delete_id by done. multiset_solver. }
    rewrite !K1, IH. repeat case_decide; try tauto; multiset_solver.
Qed.
End vals.

(** * The tree *)

(** [tbl] maps (level, number) to a table's frame, [lv] a page number to its leaf. *)
Record tree := mkTree { tbl : gmap (nat * Z) Z; lv : gmap Z Z }.

(** The entry a level-[l] slot number holds. *)
Definition slot (t : tree) (l : nat) (m : Z) : Z :=
  match l with
  | 0%nat => 0
  | 1%nat => default 0 (lv t !! m)
  | S l => match tbl t !! (l, m) with Some c => Z.lor c INTERIOR | None => 0 end
  end.

(** The references a tree holds: one per table, one per mapped page. *)
Definition refs (t : tree) : gmultiset Z := vals (tbl t) ⊎ vals (frame_of_entry <$> lv t).

(** The counts of the pool are the references [R]; pinned frames are not counted. *)
Definition accounts (s : Pool) (R : gmultiset Z) : Prop :=
  ∀ q, rc s q = PINNED ∨ rc s q = Z.of_nat (multiplicity q R).

Record is_tree (p : PhysMem) (root : Z) (t : tree) : Prop := {
  tr_root : tbl t !! (4%nat, 0) = Some root;
  tr_dom l k pa : tbl t !! (l, k) = Some pa → (1 ≤ l ≤ 4)%nat ∧ 0 ≤ k ∧ (k + 1) * span l ≤ span 4;
  tr_parent l k pa : tbl t !! (l, k) = Some pa → (l < 4)%nat → is_Some (tbl t !! (S l, k / 512));
  tr_leaf n e : lv t !! n = Some e →
    is_Some (tbl t !! (1%nat, n / 512)) ∧ 0 ≤ e < U64 ∧ present e = true;
  tr_mem l k pa i : tbl t !! (l, k) = Some pa → 0 ≤ i < 512 →
    ld p (pa + i * 8) = slot t l (512 * k + i)
}.

Record is_space (s : Pool) (root : Z) (t : tree) (R : gmultiset Z) : Prop := {
  sp_pool : pool_wf s;
  sp_tree : is_tree (phys s) root t;
  sp_own l k pa : tbl t !! (l, k) = Some pa → rc s pa = 1;
  sp_acc : accounts s (refs t ⊎ R)
}.

(** Live frames outside [own] keep their bytes and stay live; the pinned frames stay
    the same. *)
Record keeps (own : Z → Prop) (s s' : Pool) : Prop := {
  kp_size : pm_size (phys s') = pm_size (phys s);
  kp_bytes q i : 1 ≤ rc s q → ¬ own q → q ≤ i < q + FRAME → byte (phys s') i = byte (phys s) i;
  kp_live q : 1 ≤ rc s q → ¬ own q → 1 ≤ rc s' q;
  kp_pin q : rc s' q = PINNED ↔ rc s q = PINNED
}.

Definition is_table (t : tree) (q : Z) : Prop := ∃ l k, tbl t !! (l, k) = Some q.

(** * Consequences of the invariant *)

Lemma frames_apart pa pb i j :
  aligned pa → aligned pb → 0 ≤ i < 512 → 0 ≤ j < 512 → (pa, i) ≠ (pb, j) →
  pa + i * 8 + 8 ≤ pb + j * 8 ∨ pb + j * 8 + 8 ≤ pa + i * 8.
Proof.
  unfold aligned, FRAME, PAGE_SIZE. intros Ha Hb Hi Hj Hne.
  destruct (decide (pa = pb)) as [->|Hp].
  - assert (i ≠ j) by naive_solver. lia.
  - apply Z.mod_divide in Ha as [x ->], Hb as [y ->]; lia.
Qed.

Section space.
Context (s : Pool) (root : Z) (t : tree) (R : gmultiset Z).
Hypothesis HS : is_space s root t R.
Implicit Types (l : nat) (k pa : Z).

Lemma sp_table l k pa :
  tbl t !! (l, k) = Some pa →
  0 < pa ∧ aligned pa ∧ inside (phys s) pa FRAME ∧ is_frame pa.
Proof.
  intros Hk. pose proof (sp_own _ _ _ _ HS _ _ _ Hk) as H1. pose proof (sp_pool _ _ _ _ HS) as Hp.
  destruct (rc_inside s pa Hp) as [Ha Hi]; [lia|].
  assert (pa ≠ 0) by (intros ->; rewrite rc_null in H1 by done; done).
  pose proof (pw_size _ (pl_phys _ Hp)). destruct Hi as [Hi1 Hi2].
  split_and!; [lia|done|done|]. apply is_frame_intro; [done|]. unfold FRAME, PAGE_SIZE in *. lia.
Qed.

Lemma sp_once l k pa :
  tbl t !! (l, k) = Some pa →
  multiplicity pa (vals (tbl t)) = 1%nat
  ∧ multiplicity pa (vals (frame_of_entry <$> lv t)) = 0%nat ∧ multiplicity pa R = 0%nat.
Proof.
  intros Hk. pose proof (sp_own _ _ _ _ HS _ _ _ Hk) as H1.
  destruct (sp_acc _ _ _ _ HS pa) as [H2|H2]; [by rewrite H1 in H2|].
  rewrite H1 in H2. unfold refs in H2. rewrite !multiplicity_disj_union in H2.
  apply vals_lookup in Hk. lia.
Qed.

Lemma sp_inj l k l' k' pa :
  tbl t !! (l, k) = Some pa → tbl t !! (l', k') = Some pa → (l, k) = (l', k').
Proof.
  intros H1 H2. pose proof (sp_once _ _ _ H1) as (Hm & _). by eapply vals_inj.
Qed.

Lemma sp_leaf_apart n e q : lv t !! n = Some e → is_table t q → frame_of_entry e ≠ q.
Proof.
  intros Hn (l & k & Hk) <-. apply sp_once in Hk as (_ & Hk & _).
  assert ((frame_of_entry <$> lv t) !! n = Some (frame_of_entry e)) as Hf
    by by rewrite lookup_fmap, Hn.
  apply vals_lookup in Hf. lia.
Qed.

(** Every level above a leaf or a table is there. *)
Lemma sp_above l k pa d :
  tbl t !! (l, k) = Some pa → (l + d ≤ 4)%nat → is_Some (tbl t !! ((l + d)%nat, k / span d)).
Proof.
  intros Hk. induction d as [|d IH]; intros Hd.
  - rewrite Nat.add_0_r, span_0, Z.div_1_r. by eexists.
  - destruct IH as [x Hx]; [lia|]. rewrite div_span_S, Nat.add_succ_r.
    eapply (tr_parent _ _ _ (sp_tree _ _ _ _ HS)); [exact Hx|lia].
Qed.

Lemma sp_leaf_above n e l :
  lv t !! n = Some e → (1 ≤ l ≤ 4)%nat → is_Some (tbl t !! (l, n / span l)).
Proof.
  intros Hn Hl. destruct (tr_leaf _ _ _ (sp_tree _ _ _ _ HS) _ _ Hn) as [[pa Hpa] _].
  destruct (sp_above _ _ _ (l - 1) Hpa) as [x Hx]; [lia|].
  replace l with (1 + (l - 1))%nat at 1 by lia. exists x. rewrite <- Hx. f_equal. f_equal.
  replace l with (S (l - 1)) at 1 by lia. rewrite span_S, Z.div_div; [done|lia|].
  apply span_pos.
Qed.

Lemma slot_range l m : 0 ≤ slot t l m < U64.
Proof.
  destruct l as [|[|l]]; simpl; [done| |].
  - destruct (lv t !! m) eqn:E; [|done]. by eapply (tr_leaf _ _ _ (sp_tree _ _ _ _ HS)).
  - destruct (tbl t !! (S l, m)) eqn:E; [|done].
    apply interior_u64. by apply sp_table in E as (_ & _ & _ & E).
Qed.

Lemma slot_present_interior l m :
  (1 ≤ l)%nat → present (slot t (S l) m) = bool_decide (is_Some (tbl t !! (l, m))).
Proof.
  intros Hl. destruct l as [|l]; [lia|]. simpl.
  destruct (tbl t !! (S l, m)) eqn:E; [|done].
  apply interior_present. by apply sp_table in E as (_ & _ & _ & E).
Qed.

Lemma slot_interior_frame l m c :
  tbl t !! (l, m) = Some c → frame_of_entry (slot t (S l) m) = c.
Proof.
  intros E. pose proof (tr_dom _ _ _ (sp_tree _ _ _ _ HS) _ _ _ E) as [? _].
  destruct l as [|l]; [lia|]. simpl. rewrite E.
  apply interior_frame. by apply sp_table in E as (_ & _ & _ & E).
Qed.

(** Reading a slot of a table. *)
Lemma entry_slot l k pa i :
  tbl t !! (l, k) = Some pa → 0 ≤ i < 512 → entry pa i s = Ok (slot t l (512 * k + i), s).
Proof.
  intros Hk Hi. unfold entry, rd_u64. destruct (sp_table _ _ _ Hk) as (Hp & Ha & [Hi1 Hi2] & _).
  unfold FRAME, PAGE_SIZE in *. rewrite phys_read_u64_ok.
  - by rewrite (tr_mem _ _ _ (sp_tree _ _ _ _ HS) _ _ _ _ Hk Hi).
  - apply HS.
  - split; lia.
Qed.
End space.

Lemma read_slot s root t R l m pa :
  is_space s root t R → tbl t !! (l, m / 512) = Some pa →
  entry pa (m mod 512) s = Ok (slot t l m, s).
Proof.
  intros HS Hk. rewrite (entry_slot _ _ _ _ HS _ _ _ _ Hk); [|by apply Z.mod_pos_bound].
  by rewrite <- Z.div_mod.
Qed.

Lemma next_slot s root t R l m pa :
  is_space s root t R → (1 ≤ l)%nat → tbl t !! (S l, m / 512) = Some pa →
  next pa (m mod 512) s = Ok (tbl t !! (l, m), s).
Proof.
  intros HS Hl Hk. unfold next, mbind, ST_bind. erewrite read_slot by done.
  rewrite (slot_present_interior _ _ _ _ HS) by done. case_bool_decide as Hc.
  - destruct Hc as [c Hc]. by erewrite slot_interior_frame, Hc.
  - apply eq_None_not_Some in Hc. by rewrite Hc.
Qed.

(** * Storing an entry *)

Record wrote (s s' : Pool) (pa i v : Z) : Prop := {
  wr_fa : fa s' = fa s;
  wr_wf : pool_wf s';
  wr_here : ld (phys s') (pa + i * 8) = v;
  wr_there q j : aligned q → 0 ≤ j < 512 → (q, j) ≠ (pa, i) →
    ld (phys s') (q + j * 8) = ld (phys s) (q + j * 8);
  wr_keeps : keeps (λ q, q = pa) s s'
}.

Lemma wr_slot s pa i v :
  pool_wf s → 1 ≤ rc s pa → 0 ≤ i < 512 → 0 ≤ v < U64 →
  ∃ s', wr_u64 (pa + i * 8) v s = Ok (tt, s') ∧ wrote s s' pa i v.
Proof.
  intros Hwf Hrc Hi Hv. destruct (rc_inside s pa Hwf Hrc) as [Ha [Hi1 Hi2]].
  assert (pa mod 8 = 0) as H8.
  { unfold aligned, FRAME, PAGE_SIZE in Ha. apply Z.mod_divide in Ha as [x ->]; [|lia].
    replace (x * 4096) with (x * 512 * 8) by lia. by apply Z_mod_mult. }
  unfold FRAME, PAGE_SIZE in Hi2.
  destruct (phys_write_u64_ok (phys s) (pa + i * 8) v) as (p' & Hw & Hst).
  { apply Hwf. } { split; lia. } { by rewrite Z_mod_plus_full. }
  exists (mkPool p' (fa s)). unfold wr_u64, on_phys. rewrite Hw. split; [done|].
  pose proof (pool_wf_stored s p' _ _ Hwf (le_bytes_is_byte _ _) Hst) as Hwf'.
  split; simpl; [done|done|by eapply stored_ld_le8| |].
  - intros q j Hq Hj Hne. eapply stored_ld_out; [done|].
    rewrite length_le_bytes. change (Z.of_nat 8) with 8. apply frames_apart; done.
  - split; simpl; [apply Hst| |done|done]. intros q x Hq Hne Hx. simpl in Hne. apply Hst. rewrite length_le_bytes.
    destruct (rc_inside s q Hwf Hq) as [Hqa _]. unfold aligned, FRAME, PAGE_SIZE in *.
    apply Z.mod_divide in Ha as [y ->], Hqa as [z ->]; lia.
Qed.

(** The words of a tree after a store into one of its slots. *)
Lemma wrote_mem s s' root t R l m pa v :
  is_space s root t R → tbl t !! (l, m / 512) = Some pa → wrote s s' pa (m mod 512) v →
  ∀ l' k' pa' j, tbl t !! (l', k') = Some pa' → 0 ≤ j < 512 →
  ld (phys s') (pa' + j * 8) =
    if decide (l' = l ∧ 512 * k' + j = m) then v else slot t l' (512 * k' + j).
Proof.
  intros HS Hk Hw l' k' pa' j Hk' Hj. case_decide as Hd.
  - destruct Hd as [-> <-].
    replace ((512 * k' + j) / 512) with k' in Hk by divlia.
    replace ((512 * k' + j) mod 512) with j in Hw by divlia.
    rewrite Hk in Hk'. simplify_eq. apply Hw.
  - rewrite (wr_there _ _ _ _ _ Hw).
    + by apply (tr_mem _ _ _ (sp_tree _ _ _ _ HS)).
    + by eapply sp_table in Hk' as (_ & ? & _).
    + done.
    + intros [= -> Hj']. pose proof (sp_inj _ _ _ _ HS _ _ _ _ _ Hk Hk') as [= -> <-].
      apply Hd. split; [done|]. rewrite Hj'. rewrite <- Z.div_mod; done.
Qed.

Lemma keeps_trans own own1 own2 s1 s2 s3 :
  keeps own1 s1 s2 → keeps own2 s2 s3 →
  (∀ q, 1 ≤ rc s1 q → own1 q → own q) → (∀ q, 1 ≤ rc s1 q → own2 q → own q) → keeps own s1 s3.
Proof.
  intros K1 K2 H1 H2. split.
  - rewrite (kp_size _ _ _ K2). apply K1.
  - intros q i Hq Ho Hi. rewrite (kp_bytes _ _ _ K2 q), (kp_bytes _ _ _ K1 q); [done|naive_solver..| |naive_solver|done].
    apply K1; naive_solver.
  - intros q Hq Ho. apply K2; [|naive_solver]. apply K1; naive_solver.
  - intros q. by rewrite (kp_pin _ _ _ K2), (kp_pin _ _ _ K1).
Qed.

Lemma keeps_weaken own own' s s' : keeps own s s' → (∀ q, own q → own' q) → keeps own' s s'.
Proof. intros [H1 H2 H3 H4] H. split; [done|naive_solver..]. Qed.

Lemma keeps_refl own s : keeps own s s.
Proof. by split. Qed.

Lemma keeps_ld own s s' q j :
  keeps own s s' → 1 ≤ rc s q → ¬ own q → 0 ≤ j < 512 →
  ld (phys s') (q + j * 8) = ld (phys s) (q + j * 8).
Proof.
  intros K Hq Ho Hj. apply ld_ext. intros i Hi. apply (kp_bytes _ _ _ K q); [done..|].
  unfold FRAME, PAGE_SIZE. lia.
Qed.

(** A space nobody wrote to is still that space. *)
Lemma space_transfer s s' root t R R' own :
  is_space s root t R → pool_wf s' → keeps own s s' →
  (∀ q, is_table t q → ¬ own q ∧ rc s' q = 1) →
  accounts s' (refs t ⊎ R') → is_space s' root t R'.
Proof.
  intros HS Hwf K Ht Hacc. split; [done| | |done].
  - destruct (sp_tree _ _ _ _ HS) as [T1 T2 T3 T4 T5]. split; [done..|].
    intros l k pa i Hk Hi. destruct (Ht pa) as [Ho _]; [by do 2 eexists|].
    rewrite (keeps_ld _ _ _ _ _ K); [by apply T5| |done|done].
    rewrite (sp_own _ _ _ _ HS _ _ _ Hk). done.
  - intros l k pa Hk. apply Ht. by do 2 eexists.
Qed.

(** * The three changes a tree goes through *)

(** A tree with the leaf of page [n] set or cleared. *)
Definition set_lv (t : tree) (n : Z) (oe : option Z) : tree :=
  mkTree (tbl t) (partial_alter (λ _, oe) n (lv t)).

Lemma set_leaf s s' root t R R' n oe pt :
  is_space s root t R → tbl t !! (1%nat, n / 512) = Some pt →
  (∀ e, oe = Some e → 0 ≤ e < U64 ∧ present e = true) →
  wrote s s' pt (n mod 512) (default 0 oe) →
  refs (set_lv t n oe) ⊎ R' = refs t ⊎ R →
  is_space s' root (set_lv t n oe) R'.
Proof.
  intros HS Hpt Hoe Hw Hrefs. destruct (sp_tree _ _ _ _ HS) as [T1 T2 T3 T4 T5].
  split; simpl.
  - apply Hw.
  - split; simpl; [done..| |].
    + intros n' e. destruct (decide (n' = n)) as [->|Hne].
      * rewrite lookup_partial_alter_eq. intros He. split; [by eexists|]. by apply Hoe.
      * rewrite lookup_partial_alter_ne by done. apply T4.
    + intros l k pa i Hk Hi. rewrite (wrote_mem _ _ _ _ _ _ _ _ _ HS Hpt Hw _ _ _ _ Hk Hi).
      case_decide as Hd.
      * destruct Hd as [-> ->]. simpl. by rewrite lookup_partial_alter_eq.
      * destruct l as [|[|l]]; simpl; [done| |done].
        by rewrite lookup_partial_alter_ne by naive_solver.
  - intros l k pa Hk. unfold rc. rewrite (wr_fa _ _ _ _ _ Hw). by eapply HS.
  - rewrite Hrefs. intros q. unfold rc. rewrite (wr_fa _ _ _ _ _ Hw). apply HS.
Qed.

Lemma allocated_keeps s s' c : allocated_frame s s' c → pool_wf s → keeps (λ _, False) s s'.
Proof.
  intros A Hwf. pose proof (al_stored _ _ _ A) as Hst. split.
  - apply Hst.
  - intros q i Hq _ Hi. apply Hst. rewrite length_replicate. change (Z.of_nat FRAME_SZ) with FRAME.
    assert (q ≠ c) by (intros ->; rewrite (al_fresh _ _ _ A) in Hq; lia).
    destruct (rc_inside s q Hwf Hq) as [Hqa _]. pose proof (al_aligned _ _ _ A) as Hca.
    unfold aligned, FRAME, PAGE_SIZE in *. apply Z.mod_divide in Hca as [y ->], Hqa as [z ->]; lia.
  - intros q Hq _. rewrite (al_rc _ _ _ A). case_decide; lia.
  - intros q. rewrite (al_rc _ _ _ A). case_decide as Hc; [|done]. subst.
    by rewrite (al_fresh _ _ _ A).
Qed.

Lemma accounts_alloc s s' c R :
  allocated_frame s s' c → accounts s R → accounts s' ({[+ c +]} ⊎ R).
Proof.
  intros A Hacc q. rewrite (al_rc _ _ _ A), multiplicity_disj_union. pose proof (al_fresh _ _ _ A) as Hf.
  case_decide as Hq.
  - subst. rewrite multiplicity_singleton_eq. destruct (Hacc c) as [E|E]; rewrite Hf in E; [done|].
    right. lia.
  - rewrite multiplicity_singleton_ne by done. apply Hacc.
Qed.

(** A fresh frame does not disturb a space. *)
Lemma space_alloc s s' c root t R :
  allocated_frame s s' c → is_space s root t R → is_space s' root t ({[+ c +]} ⊎ R).
Proof.
  intros A HS. pose proof (sp_pool _ _ _ _ HS) as Hwf.
  eapply (space_transfer s); [done|apply A|by eapply allocated_keeps| |].
  - intros q (l & k & Hk). split; [tauto|]. rewrite (al_rc _ _ _ A). case_decide; [done|].
    by eapply HS.
  - replace (refs t ⊎ ({[+ c +]} ⊎ R)) with ({[+ c +]} ⊎ (refs t ⊎ R)) by multiset_solver.
    eapply accounts_alloc; [done|apply HS].
Qed.

Lemma allocated_not_table s s' c root t R :
  allocated_frame s s' c → is_space s root t R → ¬ is_table t c.
Proof.
  intros A HS (l & k & Hk). apply (sp_own _ _ _ _ HS) in Hk.
  by rewrite (al_fresh _ _ _ A) in Hk.
Qed.

(** Slots below an absent table are empty. *)
Lemma slot_orphan s root t R l m j :
  is_space s root t R → (1 ≤ l < 4)%nat → tbl t !! (l, m) = None → 0 ≤ j < 512 →
  slot t l (512 * m + j) = 0.
Proof.
  intros HS Hl Hm Hj. destruct (sp_tree _ _ _ _ HS) as [T1 T2 T3 T4 T5].
  assert ((512 * m + j) / 512 = m) as E by divlia.
  destruct l as [|[|l]]; simpl; [done| |].
  - destruct (lv t !! (512 * m + j)) as [e|] eqn:He; [|done].
    apply T4 in He as [[x Hx] _]. by rewrite E, Hm in Hx.
  - destruct (tbl t !! (S l, 512 * m + j)) as [c|] eqn:Hc; [|done].
    apply T3 in Hc as [x Hx]; [|lia]. by rewrite E, Hm in Hx.
Qed.

Definition link_tbl (t : tree) (l : nat) (m c : Z) : tree := mkTree (<[(l, m) := c]> (tbl t)) (lv t).

Lemma refs_link t l m c :
  tbl t !! (l, m) = None → refs (link_tbl t l m c) = {[+ c +]} ⊎ refs t.
Proof. intros Hm. unfold refs. simpl. rewrite vals_insert by done. multiset_solver. Qed.

Lemma slot_link t l m c l' m' :
  (1 ≤ l)%nat →
  slot (link_tbl t l m c) l' m' =
    if decide (l' = S l ∧ m' = m) then Z.lor c INTERIOR else slot t l' m'.
Proof.
  intros Hl. destruct l' as [|[|l']]; [by rewrite decide_False by lia..|]. simpl.
  destruct (decide (S l' = l ∧ m' = m)) as [[<- ->]|Hne].
  - by rewrite lookup_insert_eq, decide_True.
  - rewrite lookup_insert_ne by naive_solver. by rewrite decide_False by naive_solver.
Qed.

Lemma link_table s s1 s' root t R l m pa c :
  is_space s root t R → (1 ≤ l < 4)%nat → 0 ≤ m → (m + 1) * span l ≤ span 4 →
  tbl t !! (S l, m / 512) = Some pa → tbl t !! (l, m) = None →
  allocated_frame s s1 c → wrote s1 s' pa (m mod 512) (Z.lor c INTERIOR) →
  is_space s' root (link_tbl t l m c) R ∧ keeps (is_table t) s s'
  ∧ (∀ q, 1 ≤ rc s q → rc s' q = rc s q).
Proof.
  intros HS Hl Hm0 Hms Hpa Hm A Hw. pose proof (space_alloc _ _ _ _ _ _ A HS) as HS1.
  pose proof (allocated_not_table _ _ _ _ _ _ A HS) as Hct.
  destruct (sp_tree _ _ _ _ HS) as [T1 T2 T3 T4 T5].
  split_and!; [split; simpl|..].
  - apply Hw.
  - split; simpl.
    + rewrite lookup_insert_ne by naive_solver lia. done.
    + intros l' k' pa'. rewrite lookup_insert_Some. intros [[[= <- <-] _]|[_ ?]]; [lia|by eapply T2].
    + intros l' k' pa' Hk' Hl'. apply lookup_insert_is_Some'. right.
      apply lookup_insert_Some in Hk' as [[[= <- <-] _]|[_ ?]]; [by eexists|by eapply T3].
    + intros n e Hn. destruct (T4 n e Hn) as [? ?]. split; [|done]. apply lookup_insert_is_Some'.
      by right.
    + intros l' k' pa' j Hk' Hj. rewrite slot_link by lia.
      apply lookup_insert_Some in Hk' as [[[= <- <-] <-]|[_ Hk']].
      * rewrite (wr_there _ _ _ _ _ Hw); [|apply A|done|].
        -- rewrite decide_False by lia. rewrite (slot_orphan _ _ _ _ _ _ _ HS) by done.
           eapply stored_ld_zero; [apply A|lia|]. change (Z.of_nat FRAME_SZ) with 4096. lia.
        -- intros [= -> _]. apply Hct. by do 2 eexists.
      * rewrite (wrote_mem _ _ _ _ _ _ _ _ _ HS1 Hpa Hw _ _ _ _ Hk' Hj). done.
  - intros l' k' pa'. unfold rc. rewrite (wr_fa _ _ _ _ _ Hw).
    change (fa_refcount (fa s1) pa') with (rc s1 pa'). rewrite (al_rc _ _ _ A).
    rewrite lookup_insert_Some. intros [[_ <-]|[_ Hk']]; [by rewrite decide_True|].
    case_decide; [done|]. by eapply HS.
  - rewrite refs_link by done. intros q. unfold rc. rewrite (wr_fa _ _ _ _ _ Hw).
    replace ({[+ c +]} ⊎ refs t ⊎ R) with (refs t ⊎ ({[+ c +]} ⊎ R)) by multiset_solver. apply HS1.
  - eapply keeps_trans; [eapply allocated_keeps; [done|apply HS]|apply Hw|done|].
    intros q _ ->. by do 2 eexists.
  - intros q Hq. unfold rc at 1. rewrite (wr_fa _ _ _ _ _ Hw). fold (rc s1 q).
    rewrite (al_rc _ _ _ A). rewrite decide_False; [done|]. intros ->.
    rewrite (al_fresh _ _ _ A) in Hq. lia.
Qed.

Definition unlink_tbl (t : tree) (l : nat) (m : Z) : tree := mkTree (delete (l, m) (tbl t)) (lv t).

Lemma refs_unlink t l m c :
  tbl t !! (l, m) = Some c → refs t = {[+ c +]} ⊎ refs (unlink_tbl t l m).
Proof. intros Hm. unfold refs. simpl. rewrite (vals_delete _ _ _ Hm). multiset_solver. Qed.

Lemma slot_unlink t l m l' m' :
  (1 ≤ l)%nat →
  slot (unlink_tbl t l m) l' m' = if decide (l' = S l ∧ m' = m) then 0 else slot t l' m'.
Proof.
  intros Hl. destruct l' as [|[|l']]; [by rewrite decide_False by lia..|]. simpl.
  destruct (decide (S l' = l ∧ m' = m)) as [[<- ->]|Hne].
  - by rewrite lookup_delete_eq, decide_True.
  - rewrite lookup_delete_ne by naive_solver. by rewrite decide_False by naive_solver.
Qed.

(** A table whose slots are all zero has nothing below it. *)
Definition childless (t : tree) (l : nat) (m : Z) : Prop :=
  ∀ j, 0 ≤ j < 512 → slot t l (512 * m + j) = 0.

Lemma childless_leaf s root t R m n e :
  is_space s root t R → childless t 1 m → lv t !! n = Some e → n / 512 ≠ m.
Proof.
  intros HS Hc Hn <-. specialize (Hc (n mod 512) ltac:(divlia)). simpl in Hc.
  rewrite <- Z.div_mod in Hc by done. rewrite Hn in Hc. simpl in Hc. subst.
  by apply (tr_leaf _ _ _ (sp_tree _ _ _ _ HS)) in Hn as (_ & _ & ?).
Qed.

Lemma childless_table s root t R l m k c :
  is_space s root t R → childless t (S l) m → tbl t !! (l, k) = Some c → k / 512 ≠ m.
Proof.
  intros HS Hc Hk <-. specialize (Hc (k mod 512) ltac:(divlia)).
  destruct (tr_dom _ _ _ (sp_tree _ _ _ _ HS) _ _ _ Hk) as [? _]. destruct l as [|l]; [lia|].
  simpl in Hc. rewrite <- Z.div_mod in Hc by done. rewrite Hk in Hc.
  eapply interior_nonzero in Hc; [done|]. by eapply sp_table in Hk as (_ & _ & _ & ?).
Qed.

(** The counts after dropping one of the accounted references. *)
Lemma accounts_decref s q R :
  pool_wf s → accounts s ({[+ q +]} ⊎ R) → accounts (mkPool (phys s) (fa_decref (fa s) q)) R.
Proof.
  intros Hwf Hacc x. destruct (fa_decref_spec (fa s) q (pl_fa _ Hwf)) as (_ & _ & Hrc & _).
  unfold rc. simpl. rewrite Hrc. specialize (Hacc x) as Hx. pose proof (Hacc q) as Hq.
  rewrite multiplicity_disj_union in Hx, Hq. unfold rc in *.
  rewrite multiplicity_singleton_eq in Hq.
  destruct (decide (x = q ∧ 1 ≤ fa_refcount (fa s) q ∧ fa_refcount (fa s) q ≠ PINNED)) as [Hd|Hd].
  - destruct Hd as (-> & H1 & H2). right.
    destruct Hq as [?|Hq]; [done|lia].
  - destruct (decide (x = q)) as [->|Hne].
    + left. apply dec_stable. intros Hn. apply Hd. split_and!; [done| |done].
      destruct Hq; [done|lia].
    + by rewrite multiplicity_singleton_ne in Hx.
Qed.

Lemma decref_wf s q : pool_wf s → pool_wf (mkPool (phys s) (fa_decref (fa s) q)).
Proof.
  intros Hwf. destruct (fa_decref_spec (fa s) q (pl_fa _ Hwf)) as (? & ? & _).
  by apply pool_wf_fa.
Qed.

Lemma decref_other s q x :
  pool_wf s → x ≠ q → rc (mkPool (phys s) (fa_decref (fa s) q)) x = rc s x.
Proof.
  intros Hwf Hne. destruct (fa_decref_spec (fa s) q (pl_fa _ Hwf)) as (_ & _ & Hrc & _).
  unfold rc. simpl. rewrite Hrc. by rewrite decide_False by naive_solver.
Qed.

Lemma decref_pin s q x :
  pool_wf s → rc (mkPool (phys s) (fa_decref (fa s) q)) x = PINNED ↔ rc s x = PINNED.
Proof.
  intros Hwf. destruct (fa_decref_spec (fa s) q (pl_fa _ Hwf)) as (_ & _ & Hrc & _).
  pose proof (fa_refcount_range (fa s) q (pl_fa _ Hwf)).
  unfold rc. simpl. rewrite Hrc.
  destruct (decide (x = q ∧ 1 ≤ fa_refcount (fa s) q ∧ fa_refcount (fa s) q ≠ PINNED))
    as [(-> & _ & ?)|]; [lia|done].
Qed.

Lemma unlink_table s s1 root t R l m pa c :
  is_space s root t R → (1 ≤ l < 4)%nat →
  tbl t !! (S l, m / 512) = Some pa → tbl t !! (l, m) = Some c → childless t l m →
  wrote s s1 pa (m mod 512) 0 →
  let s' := mkPool (phys s1) (fa_free (fa s1) c) in
  is_space s' root (unlink_tbl t l m) R ∧ keeps (is_table t) s s'.
Proof.
  intros HS Hl Hpa Hm Hch Hw s'. unfold s', fa_free.
  destruct (sp_tree _ _ _ _ HS) as [T1 T2 T3 T4 T5].
  assert (∀ q, rc s1 q = rc s q) as Hrc by (intros q; unfold rc; by rewrite (wr_fa _ _ _ _ _ Hw)).
  split; [split; simpl|].
  - apply decref_wf, Hw.
  - split; simpl.
    + rewrite lookup_delete_ne by naive_solver lia. done.
    + intros l' k' pa' [_ Hk']%lookup_delete_Some. by eapply T2.
    + intros l' k' pa' [Hne Hk']%lookup_delete_Some Hl'. apply lookup_delete_is_Some. split.
      * intros [= -> ->]. by eapply (childless_table _ _ _ _ l' _ _ _ HS Hch).
      * by eapply T3.
    + intros n e Hn. destruct (T4 n e Hn) as [? ?]. split; [|done].
      apply lookup_delete_is_Some. split; [|done]. intros [= -> ->].
      by eapply (childless_leaf _ _ _ _ _ _ _ HS Hch).
    + intros l' k' pa' j [Hne Hk']%lookup_delete_Some Hj. rewrite slot_unlink by lia.
      by rewrite (wrote_mem _ _ _ _ _ _ _ _ _ HS Hpa Hw _ _ _ _ Hk' Hj).
  - intros l' k' pa' [Hne Hk']%lookup_delete_Some. rewrite decref_other; [|apply Hw|].
    + rewrite Hrc. by eapply HS.
    + intros ->. apply Hne. by eapply sp_inj.
  - apply accounts_decref; [apply Hw|].
    rewrite (gmultiset_disj_union_assoc {[+ c +]}), <- (refs_unlink _ _ _ _ Hm).
    intros q. rewrite Hrc. apply HS.
  - pose proof (wr_keeps _ _ _ _ _ Hw) as K. split; simpl.
    + apply K.
    + intros q i Hq Ho Hi. apply (kp_bytes _ _ _ K q); [done| |done]. intros ->. apply Ho.
      by do 2 eexists.
    + intros q Hq Ho. rewrite decref_other; [by rewrite Hrc|apply Hw|].
      intros ->. apply Ho. by do 2 eexists.
    + intros q. rewrite decref_pin by apply Hw. by rewrite Hrc.
Qed.

(** * Growing a tree by tables *)

Record grown (root : Z) (R : gmultiset Z) (s : Pool) (t : tree) (s' : Pool) (t' : tree) : Prop := {
  gr_space : is_space s' root t' R;
  gr_lv : lv t' = lv t;
  gr_tbl : tbl t ⊆ tbl t';
  gr_keeps : keeps (is_table t) s s';
  gr_new q : is_table t' q → is_table t q ∨ rc s q = 0;
  gr_rc q : 1 ≤ rc s q → rc s' q = rc s q
}.

Lemma grown_refl root R s t : is_space s root t R → grown root R s t s t.
Proof. intros HS. split; [done..|apply keeps_refl|by left|done]. Qed.

Lemma is_table_mono t t' q : tbl t ⊆ tbl t' → is_table t q → is_table t' q.
Proof. intros Ht (l & k & Hk). exists l, k. by eapply lookup_weaken. Qed.

Lemma grown_trans root R s1 t1 s2 t2 s3 t3 :
  pool_wf s1 → grown root R s1 t1 s2 t2 → grown root R s2 t2 s3 t3 → grown root R s1 t1 s3 t3.
Proof.
  intros Hwf [G1 G2 G3 G4 G5 G6] [F1 F2 F3 F4 F5 F6].
  split; [done|congruence|by etrans| | |].
  - eapply keeps_trans; [exact G4|exact F4|done|].
    intros q Hq Ho. destruct (G5 q Ho) as [|E]; [done|lia].
  - intros q Hq. destruct (F5 q Hq) as [|E]; [by apply G5|].
    destruct (decide (1 ≤ rc s1 q)) as [Hl|Hl].
    + left. destruct (decide (q ∈ vals (tbl t1))) as [Hv|Hv].
      * apply elem_of_vals in Hv as [[l k] ?]. by exists l, k.
      * exfalso. pose proof (kp_live _ _ _ G4 q Hl) as K. cut (1 ≤ rc s2 q); [lia|].
        apply K. intros (l & k & Hk). apply Hv. apply vals_lookup in Hk.
        apply elem_of_multiplicity. lia.
    + right. pose proof (fa_refcount_range (fa s1) q (pl_fa _ Hwf)). unfold rc in *. lia.
  - intros q Hq. rewrite F6, G6; [done|done|by rewrite G6].
Qed.

Lemma next_or_alloc_spec s root t R l m pa :
  is_space s root t R → (1 ≤ l < 4)%nat → 0 ≤ m → (m + 1) * span l ≤ span 4 →
  tbl t !! (S l, m / 512) = Some pa →
  (∃ c s' t', next_or_alloc pa (m mod 512) s = Ok (Some c, s')
     ∧ grown root R s t s' t' ∧ tbl t' !! (l, m) = Some c)
  ∨ next_or_alloc pa (m mod 512) s = Ok (None, s) ∧ exhausted s.
Proof.
  intros HS Hl Hm0 Hms Hpa. unfold next_or_alloc, mbind, ST_bind.
  erewrite read_slot by done. rewrite (slot_present_interior _ _ _ _ HS) by lia.
  case_bool_decide as Hc.
  - left. destruct Hc as [c Hc]. exists c, s, t. erewrite slot_interior_frame by done.
    split_and!; [done|by apply grown_refl|done].
  - apply eq_None_not_Some in Hc. pose proof (sp_pool _ _ _ _ HS) as Hwf.
    destruct (decide (free_list (fa s) = [] ∨ use_reserve (fa s) = false
      ∧ Z.of_nat (length (free_list (fa s))) ≤ reserve_n (fa s))) as [E|E].
    { right. split; [|done]. by rewrite fa_alloc_None. }
    left. destruct (fa_alloc_Some s Hwf E) as (c & s1 & -> & A).
    pose proof (space_alloc _ _ _ _ _ _ A HS) as HS1.
    assert (is_frame c) as Hcf.
    { apply is_frame_intro; [apply A|]. pose proof (pw_size _ (pl_phys _ Hwf)).
      pose proof (al_pos _ _ _ A). destruct (al_inside _ _ _ A).
      unfold FRAME, PAGE_SIZE in *. lia. }
    destruct (wr_slot s1 pa (m mod 512) (Z.lor c INTERIOR)) as (s' & -> & Hw).
    { apply A. } { rewrite (sp_own _ _ _ _ HS1 _ _ _ Hpa). done. } { divlia. }
    { by apply interior_u64. }
    destruct (link_table _ _ _ _ _ _ _ _ _ _ HS Hl Hm0 Hms Hpa Hc A Hw) as (HS' & K & Hrc).
    exists c, s', (link_tbl t l m c). split_and!; [done| |simpl; apply lookup_insert_eq].
    split; [done|done|simpl; by apply insert_subseteq|done| |done].
    intros q (l' & k' & Hk'). simpl in Hk'. apply lookup_insert_Some in Hk' as [[_ <-]|[_ Hk']].
    + right. apply A.
    + left. by exists l', k'.
Qed.

(** The chain of slot numbers of a page. *)
Lemma page_slot_range v l : (l < 4)%nat → 0 ≤ vpn v / span l ∧ (vpn v / span l + 1) * span l ≤ span 4.
Proof.
  intros Hl. pose proof (vpn_range v) as [H0 H1]. pose proof (span_pos l) as Hp.
  split; [by apply Z.div_pos|].
  assert (∃ d, span 4 = d * span l) as [d Hd].
  { exists (512 ^ (4 - Z.of_nat l)). unfold span. rewrite <- Z.pow_add_r by lia. f_equal. lia. }
  rewrite Hd in *. apply Z.mul_le_mono_nonneg_r; [lia|].
  assert (vpn v / span l < d); [|lia]. apply Z.div_lt_upper_bound; lia.
Qed.

Lemma page_top v : vpn v / span 3 / 512 = 0.
Proof. rewrite <- div_span_S. apply Z.div_small, vpn_range. Qed.

Lemma table_indices v :
  table_index v 4 = (vpn v / span 3) mod 512 ∧ table_index v 3 = (vpn v / span 2) mod 512
  ∧ table_index v 2 = (vpn v / span 1) mod 512 ∧ table_index v 1 = vpn v mod 512.
Proof.
  split_and!; [apply (table_index_slot v 3)|apply (table_index_slot v 2)|
               apply (table_index_slot v 1)|]; try lia.
  rewrite <- (Z.div_1_r (vpn v)) at 1. apply (table_index_slot v 0). lia.
Qed.

(** * Lookup *)

(** A read-only walk finds the page's leaf table, if there is one. *)
Lemma walk_spec {A} s root t R v (f : Z → Z → Z → ST Pool (option A)) :
  is_space s root t R →
  st_opt (next root (table_index v 4)) (λ pdpt,
  st_opt (next pdpt (table_index v 3)) (λ pd,
  st_opt (next pd (table_index v 2)) (λ pt, f pdpt pd pt))) s =
  match tbl t !! (3%nat, vpn v / span 3), tbl t !! (2%nat, vpn v / span 2),
        tbl t !! (1%nat, vpn v / span 1) with
  | Some pdpt, Some pd, Some pt => f pdpt pd pt s
  | _, _, _ => Ok (None, s)
  end.
Proof.
  intros HS. destruct (table_indices v) as (-> & -> & -> & _).
  pose proof (tr_root _ _ _ (sp_tree _ _ _ _ HS)) as Hr.
  unfold st_opt, mbind, ST_bind.
  erewrite (next_slot _ _ _ _ 3) by (try rewrite page_top; done || lia).
  destruct (tbl t !! (3%nat, vpn v / span 3)) as [pdpt|] eqn:H3; [|done].
  erewrite (next_slot _ _ _ _ 2) by (try rewrite <- div_span_S; done || lia).
  destruct (tbl t !! (2%nat, vpn v / span 2)) as [pd|] eqn:H2; [|done].
  erewrite (next_slot _ _ _ _ 1) by (try rewrite <- div_span_S; done || lia).
  by destruct (tbl t !! (1%nat, vpn v / span 1)).
Qed.

Lemma sp_chain s root t R v pt :
  is_space s root t R → tbl t !! (1%nat, vpn v / span 1) = Some pt →
  is_Some (tbl t !! (2%nat, vpn v / span 2)) ∧ is_Some (tbl t !! (3%nat, vpn v / span 3)).
Proof.
  intros HS Hpt. pose proof (tr_parent _ _ _ (sp_tree _ _ _ _ HS)) as T3.
  destruct (T3 _ _ _ Hpt) as [pd Hpd]; [lia|]. rewrite <- div_span_S in Hpd.
  destruct (T3 _ _ _ Hpd) as [pdpt Hpdpt]; [lia|]. rewrite <- div_span_S in Hpdpt.
  split; by eexists.
Qed.

Lemma leaf_pte_pa_spec s root t R v :
  is_space s root t R →
  leaf_pte_pa (mkSpace root) v s
    = Ok ((λ pt, pt + vpn v mod 512 * 8) <$> tbl t !! (1%nat, vpn v / 512), s).
Proof.
  intros HS. unfold leaf_pte_pa. simpl. rewrite (walk_spec _ _ _ _ _ _ HS).
  change (vpn v / 512) with (vpn v / span 1).
  destruct (table_indices v) as (_ & _ & _ & ->).
  destruct (tbl t !! (1%nat, vpn v / span 1)) as [pt|] eqn:H1; simpl.
  - destruct (sp_chain _ _ _ _ _ _ HS H1) as [[pd ->] [pdpt ->]]. done.
  - destruct (tbl t !! (3%nat, vpn v / span 3)), (tbl t !! (2%nat, vpn v / span 2)); done.
Qed.

Lemma leaf_no_table s root t R n :
  is_space s root t R → tbl t !! (1%nat, n / 512) = None → lv t !! n = None.
Proof.
  intros HS Hn. destruct (lv t !! n) eqn:E; [|done].
  apply (tr_leaf _ _ _ (sp_tree _ _ _ _ HS)) in E as [[x Hx] _]. by rewrite Hn in Hx.
Qed.

(** The leaf slot of a page, as [present] sees it. *)
Lemma leaf_slot s root t R n :
  is_space s root t R →
  present (default 0 (lv t !! n)) = bool_decide (is_Some (lv t !! n)).
Proof.
  intros HS. destruct (lv t !! n) as [e|] eqn:E; simpl; [|done].
  by apply (tr_leaf _ _ _ (sp_tree _ _ _ _ HS)) in E as (_ & _ & ->).
Qed.

(** What [translate] makes of a leaf. *)
Definition trans_of (v e : Z) : Translation :=
  mkTrans (frame_of_entry e + v mod PAGE_SIZE) (leaf_prot e) (Z.land e US =? 0).

Lemma trans_paddr v e :
  Z.lor (frame_of_entry e) (Z.land v (PAGE_SIZE - 1)) = frame_of_entry e + v mod PAGE_SIZE.
Proof.
  change PAGE_SIZE with (2 ^ 12). rewrite land_low_ones by done.
  apply (lor_add_aligned _ _ 12); [done| |by apply Z.mod_pos_bound].
  apply (is_frame_range (frame_of_entry e)), is_frame_entry.
Qed.

Lemma translate_spec s root t R v :
  is_space s root t R →
  translate (mkSpace root) v s = Ok (trans_of v <$> lv t !! vpn v, s).
Proof.
  intros HS. unfold translate, st_opt, mbind, ST_bind.
  rewrite (leaf_pte_pa_spec _ _ _ _ _ HS).
  destruct (tbl t !! (1%nat, vpn v / 512)) as [pt|] eqn:H1; simpl.
  - pose proof (read_slot _ _ _ _ _ _ _ HS H1) as Hrd. unfold entry in Hrd. rewrite Hrd. simpl.
    rewrite (leaf_slot _ _ _ _ _ HS). destruct (lv t !! vpn v) as [e|]; simpl; [|done].
    rewrite trans_paddr. done.
  - by rewrite (leaf_no_table _ _ _ _ _ HS H1).
Qed.

(** * Updates *)

Lemma refs_set t n oe :
  refs (set_lv t n oe) ⊎ from_option (λ e, {[+ frame_of_entry e +]}) ∅ (lv t !! n)
  = refs t ⊎ from_option (λ e, {[+ frame_of_entry e +]}) ∅ oe.
Proof.
  unfold refs. simpl.
  assert (vals (frame_of_entry <$> lv t) =
    from_option (λ e, {[+ frame_of_entry e +]}) ∅ (lv t !! n)
    ⊎ vals (frame_of_entry <$> delete n (lv t))) as E1.
  { destruct (lv t !! n) as [e|] eqn:E; simpl.
    - rewrite fmap_delete. apply vals_delete. by rewrite lookup_fmap, E.
    - rewrite delete_id by done. multiset_solver. }
  assert (vals (frame_of_entry <$> partial_alter (λ _, oe) n (lv t)) =
    from_option (λ e, {[+ frame_of_entry e +]}) ∅ oe
    ⊎ vals (frame_of_entry <$> delete n (lv t))) as E2.
  { destruct oe as [e|]; simpl.
    - change (partial_alter (λ _, Some e) n (lv t)) with (<[n := e]> (lv t)).
      rewrite <- insert_delete_eq, fmap_insert. apply vals_insert.
      by rewrite lookup_fmap, lookup_delete_eq.
    - change (partial_alter (λ _, None) n (lv t)) with (delete n (lv t)). multiset_solver. }
  rewrite E1, E2. multiset_solver.
Qed.

Definition held (o : option Z) : gmultiset Z := from_option (λ f, {[+ f +]}) ∅ o.

(** Storing a leaf: what the slot held before is handed to the caller. *)
Lemma store_leaf s root t R n oe pt :
  is_space s root t (held (frame_of_entry <$> oe) ⊎ R) →
  tbl t !! (1%nat, n / 512) = Some pt →
  (∀ e, oe = Some e → 0 ≤ e < U64 ∧ present e = true) →
  ∃ s', wr_u64 (pt + n mod 512 * 8) (default 0 oe) s = Ok (tt, s')
    ∧ is_space s' root (set_lv t n oe) (held (frame_of_entry <$> lv t !! n) ⊎ R)
    ∧ keeps (is_table t) s s' ∧ fa s' = fa s.
Proof.
  intros HS Hpt Hoe.
  destruct (wr_slot s pt (n mod 512) (default 0 oe)) as (s' & Hwr & Hw).
  { apply HS. } { rewrite (sp_own _ _ _ _ HS _ _ _ Hpt). done. } { divlia. }
  { destruct oe as [e|]; simpl; [by apply Hoe|done]. }
  exists s'. split_and!; [done| | |apply Hw].
  - eapply set_leaf; [done..|]. pose proof (refs_set t n oe) as E.
    assert (∀ o, from_option (λ e, {[+ frame_of_entry e +]}) ∅ o = held (frame_of_entry <$> o)) as F
      by by intros [].
    rewrite !F in E. rewrite !gmultiset_disj_union_assoc, E. done.
  - eapply keeps_weaken; [apply Hw|]. intros q ->. by do 2 eexists.
Qed.

Lemma space_map_ok s root t R v f prot sup :
  is_space s root t ({[+ f +]} ⊎ R) → is_frame f → aligned v →
  ∃ r s' t', space_map (mkSpace root) v f prot sup s = Ok (r, s')
    ∧ keeps (is_table t) s s' ∧ (∀ q, is_table t' q → is_table t q ∨ rc s q = 0)
    ∧ (∀ q, 1 ≤ rc s q → rc s' q = rc s q)
    ∧ match r with
      | inr old => old = frame_of_entry <$> lv t !! vpn v
          ∧ lv t' = <[vpn v := leaf_entry f prot sup]> (lv t)
          ∧ is_space s' root t' (held old ⊎ R)
      | inl e => e = OutOfFrames ∧ exhausted s' ∧ lv t' = lv t
          ∧ is_space s' root t' ({[+ f +]} ⊎ R)
      end.
Proof.
  intros HS Hf Hv. set (R0 := {[+ f +]} ⊎ R) in *. unfold space_map. simpl.
  pose proof (tr_root _ _ _ (sp_tree _ _ _ _ HS)) as Hr.
  pose proof (sp_table _ _ _ _ HS _ _ _ Hr) as (Hr0 & _).
  destruct (Z.eqb_spec root 0) as [|_]; [lia|].
  destruct (is_frame_range _ Hf) as [Hfa _]. unfold is_multiple_of, aligned, FRAME in *.
  rewrite Hv, Hfa. simpl. destruct (table_indices v) as (-> & -> & -> & ->).
  assert (∀ s' t', grown root R0 s t s' t' → exhausted s' →
    keeps (is_table t) s s' ∧ (∀ q, is_table t' q → is_table t q ∨ rc s q = 0)
    ∧ (∀ q, 1 ≤ rc s q → rc s' q = rc s q)
    ∧ OutOfFrames = OutOfFrames ∧ exhausted s' ∧ lv t' = lv t ∧ is_space s' root t' R0) as Hoom.
  { intros s' t' [G1 G2 G3 G4 G5 G6] He. done. }
  pose proof (sp_pool _ _ _ _ HS) as Hwf. unfold mbind, ST_bind.
  (* level 4 *)
  destruct (next_or_alloc_spec s root t R0 3 (vpn v / span 3) root HS) as
    [(pdpt & s1 & t1 & -> & G1 & Hpdpt)|[-> He]]; [lia|by apply page_slot_range; lia..| | |].
  { by rewrite page_top. }
  2: { exists (inl OutOfFrames), s, t. split; [done|]. apply Hoom; [by apply grown_refl|done]. }
  (* level 3 *)
  pose proof (gr_space _ _ _ _ _ _ G1) as HS1.
  destruct (next_or_alloc_spec s1 root t1 R0 2 (vpn v / span 2) pdpt HS1) as
    [(pd & s2 & t2 & -> & G2 & Hpd)|[-> He]]; [lia|by apply page_slot_range; lia..| | |].
  { by rewrite <- div_span_S. }
  2: { exists (inl OutOfFrames), s1, t1. split; [done|]. by apply Hoom. }
  pose proof (grown_trans _ _ _ _ _ _ _ _ Hwf G1 G2) as G12.
  (* level 2 *)
  pose proof (gr_space _ _ _ _ _ _ G2) as HS2.
  destruct (next_or_alloc_spec s2 root t2 R0 1 (vpn v / span 1) pd HS2) as
    [(pt & s3 & t3 & -> & G3 & Hpt)|[-> He]]; [lia|by apply page_slot_range; lia..| | |].
  { by rewrite <- div_span_S. }
  2: { exists (inl OutOfFrames), s2, t2. split; [done|]. by apply Hoom. }
  pose proof (grown_trans _ _ _ _ _ _ _ _ Hwf G12 G3) as [HS3 Elv _ K3 N3 Q3].
  (* the leaf *)
  pose proof (read_slot _ _ _ _ _ _ _ HS3 Hpt) as Hrd. unfold entry in Hrd. rewrite Hrd.
  destruct (leaf_entry_spec f prot sup Hf) as (Hu & Hp & Hfr & _).
  destruct (store_leaf s3 root t3 R (vpn v) (Some (leaf_entry f prot sup)) pt)
    as (s4 & Hwr & HS4 & K4 & Hfa4); [by simpl; rewrite Hfr|done|by intros e [= <-]|].
  simpl in Hwr. unfold leaf_entry in Hwr at 1. rewrite Hwr. rewrite Elv in HS4.
  exists (inr (frame_of_entry <$> lv t !! vpn v)), s4, (set_lv t3 (vpn v) (Some (leaf_entry f prot sup))).
  split_and!.
  - simpl. rewrite (leaf_slot _ _ _ _ _ HS3), Elv. by destruct (lv t !! vpn v).
  - eapply keeps_trans; [exact K3|exact K4|done|]. intros q Hq Ho. destruct (N3 q Ho); [done|lia].
  - done.
  - intros q Hq. unfold rc at 1. rewrite Hfa4. by apply Q3.
  - done.
  - simpl. by rewrite Elv.
  - done.
Qed.

Lemma space_protect_ok s root t R v prot sup :
  is_space s root t R →
  ∃ s', space_protect (mkSpace root) v prot sup s = Ok (bool_decide (is_Some (lv t !! vpn v)), s')
    ∧ keeps (is_table t) s s' ∧ fa s' = fa s
    ∧ is_space s' root
        (mkTree (tbl t) (alter (λ e, leaf_entry (frame_of_entry e) prot sup) (vpn v) (lv t))) R.
Proof.
  intros HS. unfold space_protect, mbind, ST_bind. rewrite (leaf_pte_pa_spec _ _ _ _ _ HS).
  assert (lv t !! vpn v = None → mkTree (tbl t)
    (alter (λ e, leaf_entry (frame_of_entry e) prot sup) (vpn v) (lv t)) = t) as Hno.
  { intros E. rewrite alter_id; [by destruct t|]. intros x Hx. by rewrite E in Hx. }
  destruct (tbl t !! (1%nat, vpn v / 512)) as [pt|] eqn:H1; simpl.
  2: { pose proof (leaf_no_table _ _ _ _ _ HS H1) as E. exists s.
       rewrite Hno, E by done. split_and!; [done|apply keeps_refl|done..]. }
  pose proof (read_slot _ _ _ _ _ _ _ HS H1) as Hrd. unfold entry in Hrd. rewrite Hrd. simpl.
  rewrite (leaf_slot _ _ _ _ _ HS).
  destruct (lv t !! vpn v) as [e|] eqn:E; simpl.
  2: { exists s. rewrite Hno by done. split_and!; [done|apply keeps_refl|done..]. }
  destruct (leaf_entry_spec (frame_of_entry e) prot sup (is_frame_entry e)) as (Hu & Hp & Hfr & _).
  set (e' := leaf_entry (frame_of_entry e) prot sup) in *.
  destruct (wr_slot s pt (vpn v mod 512) e') as (s' & Hwr & Hw).
  { apply HS. } { rewrite (sp_own _ _ _ _ HS _ _ _ H1). done. } { divlia. } { done. }
  unfold e', leaf_entry in Hwr. rewrite Hwr. exists s'. split_and!; [done| |apply Hw|].
  - eapply keeps_weaken; [apply Hw|]. intros q ->. by do 2 eexists.
  - replace (mkTree _ _) with (set_lv t (vpn v) (Some e')).
    + eapply set_leaf; [exact HS|exact H1|by intros x [= <-]|exact Hw|].
      pose proof (refs_set t (vpn v) (Some e')) as K. rewrite E in K. simpl in K.
      rewrite Hfr in K. apply (inj (.⊎ {[+ frame_of_entry e +]})) in K. by rewrite K.
    + unfold set_lv. f_equal. apply map_eq. intros n. destruct (decide (n = vpn v)) as [->|Hne].
      * by rewrite lookup_partial_alter_eq, lookup_alter_eq, E.
      * by rewrite lookup_partial_alter_ne, lookup_alter_ne.
Qed.

(** The scan of [table_is_empty]. *)
Lemma table_is_empty_spec s root t R l k pa :
  is_space s root t R → tbl t !! (l, k) = Some pa →
  ∃ b, table_is_empty pa s = Ok (b, s) ∧ (b = true ↔ childless t l k).
Proof.
  intros HS Hk. unfold table_is_empty.
  assert (∀ idxs, (∀ i, i ∈ idxs → 0 ≤ i < 512) →
    ∃ b, entries_zero idxs pa s = Ok (b, s)
      ∧ (b = true ↔ ∀ i, i ∈ idxs → slot t l (512 * k + i) = 0)) as K.
  { induction idxs as [|i idxs IH]; intros Hi; simpl.
    - exists true. split; [done|]. split; [|done]. intros _ i Hi'. by apply elem_of_nil in Hi'.
    - unfold mbind, ST_bind.
      pose proof (entry_slot _ _ _ _ HS _ _ _ i Hk) as Hrd. unfold entry in Hrd.
      rewrite Hrd by (apply Hi; set_solver).
      destruct (Z.eqb_spec (slot t l (512 * k + i)) 0) as [E|E].
      + destruct IH as (b & -> & Hb); [set_solver|]. exists b. split; [done|]. rewrite Hb.
        setoid_rewrite elem_of_cons. naive_solver.
      + exists false. split; [done|]. split; [done|]. intros Hz. destruct E. apply Hz. set_solver. }
  destruct (K (seqZ 0 ENTRIES)) as (b & -> & Hb).
  { intros i Hi%elem_of_seqZ. unfold ENTRIES in Hi. lia. }
  exists b. split; [done|]. rewrite Hb. setoid_rewrite elem_of_seqZ. unfold ENTRIES. done.
Qed.

(** No table but the root (and perhaps the one at [x]) is empty. *)
Definition lean_but (t : tree) (x : option (nat * Z)) : Prop :=
  ∀ l k pa, tbl t !! (l, k) = Some pa → (l < 4)%nat → Some (l, k) ≠ x → ¬ childless t l k.
Definition lean (t : tree) : Prop := lean_but t None.

Lemma lean_but_settle t l k : lean_but t (Some (l, k)) → ¬ childless t l k → lean t.
Proof.
  intros Hl Hc l' k' pa Hk' Hl' _. destruct (decide ((l', k') = (l, k))) as [[= -> ->]|]; [done|].
  by eapply Hl; [|..|naive_solver].
Qed.

Lemma lean_clear t n : lean t → lean_but (set_lv t n None) (Some (1%nat, n / 512)).
Proof.
  intros Hl l k pa Hk Hl4 Hne Hc. eapply Hl; [exact Hk|done|done|]. intros j Hj.
  rewrite <- (Hc j Hj). destruct l as [|[|l]]; simpl; [done| |done].
  rewrite lookup_partial_alter_ne; [done|]. intros ->. apply Hne. do 2 f_equal. divlia.
Qed.

Lemma lean_unlink t l m :
  (1 ≤ l)%nat → lean_but t (Some (l, m)) → lean_but (unlink_tbl t l m) (Some (S l, m / 512)).
Proof.
  intros Hl1 Hl l' k pa Hk Hl4 Hx Hc. simpl in Hk. apply lookup_delete_Some in Hk as [Hne Hk].
  eapply Hl; [exact Hk|done|naive_solver|]. intros j Hj. rewrite <- (Hc j Hj).
  rewrite slot_unlink by done. rewrite decide_False; [done|].
  intros [-> <-]. apply Hx. do 2 f_equal. divlia.
Qed.

(** What pruning has done so far: tables only disappeared. *)
Record pruned (L : Prop) (root : Z) (R : gmultiset Z) (s : Pool) (t : tree) (s' : Pool) (t' : tree)
    (x : option (nat * Z)) : Prop := {
  pr_space : is_space s' root t' R;
  pr_lv : lv t' = lv t;
  pr_tbl : tbl t' ⊆ tbl t;
  pr_keeps : keeps (is_table t) s s';
  pr_lean : L → lean_but t' x
}.

(** Freeing an empty table and clearing the slot that pointed at it. *)
Lemma prune_step L root R s0 t0 s t l m pa c :
  pruned L root R s0 t0 s t (Some (l, m)) → (1 ≤ l < 4)%nat →
  tbl t !! (S l, m / 512) = Some pa → tbl t !! (l, m) = Some c → childless t l m →
  ∃ s1 s', wr_u64 (pa + m mod 512 * 8) 0 s = Ok (tt, s1)
    ∧ on_fa (λ a, fa_free a c) s1 = Ok (tt, s')
    ∧ pruned L root R s0 t0 s' (unlink_tbl t l m) (Some (S l, m / 512)).
Proof.
  intros [HS Elv Ht K Hln] Hl Hpa Hc Hch.
  destruct (wr_slot s pa (m mod 512) 0) as (s1 & Hwr & Hw).
  { apply HS. } { rewrite (sp_own _ _ _ _ HS _ _ _ Hpa). done. } { divlia. } { done. }
  destruct (unlink_table _ _ _ _ _ _ _ _ _ HS Hl Hpa Hc Hch Hw) as [HS' K'].
  exists s1, (mkPool (phys s1) (fa_free (fa s1) c)). split_and!; [done|done|].
  split; [done|done| | |by intros HL; apply lean_unlink; [lia|apply Hln]].
  - simpl. etrans; [apply delete_subseteq|done].
  - eapply keeps_trans; [exact K|exact K'|done|]. intros q _. by apply is_table_mono.
Qed.

Lemma pruned_done L root R s0 t0 s t l m :
  pruned L root R s0 t0 s t (Some (l, m)) → ¬ childless t l m → pruned L root R s0 t0 s t None.
Proof. intros [H1 H2 H3 H4 H5] Hc. split; [done..|]. intros HL. eapply lean_but_settle; [by apply H5|done]. Qed.

(** The walk back up of [unmap], after the leaf is cleared. *)
Definition prune (root pdpt pd pt v : Z) : ST Pool unit :=
  e1 ← table_is_empty pt;
  if (e1 : bool) then
    _ ← wr_u64 (pd + table_index v 2 * 8) 0;
    _ ← on_fa (λ a, fa_free a pt);
    e2 ← table_is_empty pd;
    if (e2 : bool) then
      _ ← wr_u64 (pdpt + table_index v 3 * 8) 0;
      _ ← on_fa (λ a, fa_free a pd);
      e3 ← table_is_empty pdpt;
      if (e3 : bool) then
        _ ← wr_u64 (root + table_index v 4 * 8) 0;
        on_fa (λ a, fa_free a pdpt)
      else mret tt
    else mret tt
  else mret tt.

Lemma prune_spec L root R s t v pdpt pd pt :
  is_space s root t R → (L → lean_but t (Some (1%nat, vpn v / span 1))) →
  tbl t !! (3%nat, vpn v / span 3) = Some pdpt → tbl t !! (2%nat, vpn v / span 2) = Some pd →
  tbl t !! (1%nat, vpn v / span 1) = Some pt →
  ∃ s' t', prune root pdpt pd pt v s = Ok (tt, s') ∧ pruned L root R s t s' t' None.
Proof.
  intros HS HL H3 H2 H1. unfold prune. destruct (table_indices v) as (-> & -> & -> & _).
  assert (pruned L root R s t s t (Some (1%nat, vpn v / span 1))) as P0
    by by split; [done..|apply keeps_refl|].
  pose proof (tr_root _ _ _ (sp_tree _ _ _ _ HS)) as H4.
  rewrite div_span_S in H2, H3. unfold mbind, ST_bind.
  destruct (table_is_empty_spec _ _ _ _ _ _ _ HS H1) as (b & -> & Hb).
  destruct b; [|exists s, t; split; [done|]; eapply pruned_done; [done|naive_solver]].
  destruct (prune_step _ _ _ _ _ _ _ _ _ _ _ P0 ltac:(lia) H2 H1 (proj1 Hb eq_refl))
    as (s1 & s2 & -> & -> & P1).
  pose proof (pr_space _ _ _ _ _ _ _ _ P1) as HS1.
  assert (tbl (unlink_tbl t 1 (vpn v / span 1)) !! (2%nat, vpn v / span 1 / 512) = Some pd)
    as H2' by (simpl; by rewrite lookup_delete_ne by naive_solver lia).
  destruct (table_is_empty_spec _ _ _ _ _ _ _ HS1 H2') as (b & -> & Hb2).
  destruct b; [|eexists s2, _; split; [done|]; eapply pruned_done; [done|naive_solver]].
  rewrite <- div_span_S in *.
  destruct (prune_step _ _ _ _ _ _ _ _ _ pdpt pd P1 ltac:(lia))
    as (s3 & s4 & -> & -> & P2); [|done|by apply Hb2|].
  { rewrite <- div_span_S. simpl. by rewrite lookup_delete_ne by naive_solver lia. }
  pose proof (pr_space _ _ _ _ _ _ _ _ P2) as HS2.
  rewrite <- div_span_S in *.
  set (t2 := unlink_tbl _ _ _) in P2, HS2.
  assert (tbl t2 !! (3%nat, vpn v / span 3) = Some pdpt)
    as H3' by (simpl; by rewrite !lookup_delete_ne by naive_solver lia).
  destruct (table_is_empty_spec _ _ _ _ _ _ _ HS2 H3') as (b & -> & Hb3).
  destruct b; [|eexists s4, _; split; [done|]; eapply pruned_done; [done|naive_solver]].
  destruct (prune_step _ _ _ _ _ _ _ _ _ root pdpt P2 ltac:(lia))
    as (s5 & s6 & -> & -> & P3); [|done|by apply Hb3|].
  { rewrite page_top. simpl. by rewrite !lookup_delete_ne by naive_solver lia. }
  eexists s6, _. split; [done|]. destruct P3 as [? ? ? ? Hln]. split; [done..|].
  intros HL1 l k pa Hk Hl4 _. eapply (Hln HL1); [done..|naive_solver lia].
Qed.

Lemma space_unmap_ok s root t R v :
  is_space s root t R →
  ∃ s' t', space_unmap (mkSpace root) v s = Ok (frame_of_entry <$> lv t !! vpn v, s')
    ∧ lv t' = delete (vpn v) (lv t) ∧ tbl t' ⊆ tbl t
    ∧ is_space s' root t' (held (frame_of_entry <$> lv t !! vpn v) ⊎ R)
    ∧ keeps (is_table t) s s' ∧ (lean t → lean t').
Proof.
  intros HS. unfold space_unmap. simpl. rewrite (walk_spec _ _ _ _ _ _ HS).
  assert (lv t !! vpn v = None → ∀ r, r = Ok (None, s) →
    ∃ s' t', r = Ok (frame_of_entry <$> lv t !! vpn v, s')
    ∧ lv t' = delete (vpn v) (lv t) ∧ tbl t' ⊆ tbl t
    ∧ is_space s' root t' (held (frame_of_entry <$> lv t !! vpn v) ⊎ R)
    ∧ keeps (is_table t) s s' ∧ (lean t → lean t')) as Hno.
  { intros E r ->. exists s, t. rewrite E, delete_id by done. simpl.
    rewrite gmultiset_disj_union_left_id. split_and!; [done..|apply keeps_refl|done]. }
  destruct (tbl t !! (1%nat, vpn v / span 1)) as [pt|] eqn:H1.
  2: { apply Hno; [by eapply leaf_no_table|]. by repeat case_match. }
  destruct (sp_chain _ _ _ _ _ _ HS H1) as [[pd H2] [pdpt H3]]. rewrite H2, H3.
  destruct (table_indices v) as (_ & _ & _ & E1). rewrite E1. unfold mbind at 1, ST_bind at 1.
  pose proof (read_slot _ _ _ _ _ _ _ HS H1) as Hrd. unfold entry in Hrd. rewrite Hrd. simpl.
  rewrite (leaf_slot _ _ _ _ _ HS). destruct (lv t !! vpn v) as [e|] eqn:E; simpl; [|by apply Hno].
  destruct (store_leaf s root t R (vpn v) None pt) as (s1 & Hwr & HS1 & K1 & _);
    [simpl; by rewrite gmultiset_disj_union_left_id|done|done|].
  simpl in Hwr. unfold mbind at 1, ST_bind at 1. rewrite Hwr. rewrite E in HS1.
  destruct (prune_spec (lean t) _ _ _ _ v pdpt pd pt HS1) as (s2 & t2 & Hp & [P1 P2 P3 P4 P5]);
    [apply lean_clear|done..|].
  exists s2, t2. split_and!; [|done|done|done| |done].
  - unfold prune in Hp. revert Hp. unfold mbind, ST_bind. 
    destruct (table_is_empty pt s1) as [[b s3]|]; [|done]. intros ->. done.
  - eapply keeps_trans; [exact K1|exact P4|done|done].
Qed.

(** * A fresh space *)

Definition empty_tree (root : Z) : tree := mkTree {[ (4%nat, 0) := root ]} ∅.

Lemma refs_empty root : refs (empty_tree root) = {[+ root +]}.
Proof.
  unfold refs, empty_tree. simpl. rewrite fmap_empty. unfold vals at 2. rewrite map_to_list_empty.
  rewrite <- insert_empty, vals_insert by done. unfold vals. rewrite map_to_list_empty.
  simpl. multiset_solver.
Qed.

Lemma empty_space s s' root R :
  pool_wf s → accounts s R → allocated_frame s s' root → is_space s' root (empty_tree root) R.
Proof.
  intros Hwf Hacc A. split; simpl.
  - apply A.
  - split; simpl.
    + apply lookup_singleton_eq.
    + intros l k pa [[= <- <-] _]%lookup_singleton_Some. split_and!; [lia..|done].
    + intros l k pa [[= <- <-] _]%lookup_singleton_Some. lia.
    + done.
    + intros l k pa i [[= <- <-] <-]%lookup_singleton_Some Hi.
      unfold slot, empty_tree. simpl tbl. rewrite lookup_singleton_ne by naive_solver.
      eapply stored_ld_zero; [apply A|lia|]. change (Z.of_nat FRAME_SZ) with 4096. lia.
  - intros l k pa [[= <- <-] <-]%lookup_singleton_Some. rewrite (al_rc _ _ _ A).
    by rewrite decide_True.
  - rewrite refs_empty. by eapply accounts_alloc.
Qed.

Lemma space_new_ok s R :
  pool_wf s → accounts s R →
  (space_new s = Ok (None, s) ∧ exhausted s)
  ∨ ∃ root s', space_new s = Ok (Some (mkSpace root), s')
      ∧ is_space s' root (empty_tree root) R ∧ keeps (λ _, False) s s'.
Proof.
  intros Hwf Hacc. unfold space_new, mbind, ST_bind.
  destruct (decide (free_list (fa s) = [] ∨ use_reserve (fa s) = false
      ∧ Z.of_nat (length (free_list (fa s))) ≤ reserve_n (fa s))) as [E|E].
  - left. by rewrite fa_alloc_None.
  - right. destruct (fa_alloc_Some s Hwf E) as (root & s' & -> & A).
    exists root, s'. split_and!; [done|by eapply empty_space|by eapply allocated_keeps].
Qed.

Lemma pool_new_accounts size s : pool_new size = Ok s → accounts s ∅.
Proof.
  unfold pool_new, fa_new, mbind, res_bind. destruct (1 <=? _); [|done]. intros [= <-] q.
  unfold rc, fa_refcount. simpl. destruct (frame_of _ q) as [f|] eqn:Hf; [|by right].
  apply frame_of_Some in Hf as [_ Hf]. simpl in Hf. rewrite length_replicate in Hf.
  destruct f as [|f]; simpl; [by left|right]. apply lookup_total_replicate_2. lia.
Qed.

(** A concrete space: 16 frames, the root at 0x1000 and one spare frame at 0x2000. *)
Definition demo_pool : Pool :=
  match pool_new 65536 with Ok s => s | Panic => small_pool end.
Definition demo0 : Pool := after (space_new demo_pool) demo_pool.
Definition demo : Pool := after (fa_alloc demo0) demo0.

Lemma demo_space : is_space demo 4096 (empty_tree 4096) ({[+ 8192 +]} ⊎ ∅).
Proof.
  destruct (pool_new_wf 65536) as (s & E & Hwf); [lia|].
  assert (demo_pool = s) as Ed by (unfold demo_pool; rewrite E; reflexivity).
  assert (result_of (space_new demo_pool) = Some (Some (mkSpace 4096))) as C1
    by (vm_compute; reflexivity).
  assert (result_of (fa_alloc demo0) = Some (Some 8192)) as C2 by (vm_compute; reflexivity).
  rewrite Ed in C1.
  destruct (space_new_ok s ∅ Hwf (pool_new_accounts _ _ E)) as [[H _]|(root & s1 & H & HS & _)];
    rewrite H in C1; cbn in C1; [discriminate C1|injection C1 as ->].
  assert (demo0 = s1) as E0 by (unfold demo0; rewrite Ed, H; reflexivity). rewrite E0 in C2.
  destruct (decide (free_list (fa s1) = [] ∨ use_reserve (fa s1) = false
      ∧ Z.of_nat (length (free_list (fa s1))) ≤ reserve_n (fa s1))) as [F|F].
  { rewrite fa_alloc_None in C2 by exact F. discriminate C2. }
  destruct (fa_alloc_Some s1 (sp_pool _ _ _ _ HS) F) as (c & s2 & Hc & A).
  rewrite Hc in C2. cbn in C2. injection C2 as ->.
  assert (demo = s2) as -> by (unfold demo; rewrite E0, Hc; reflexivity).
  by eapply space_alloc.
Qed.

(** * Properties *)

(** C29: mapping a page. Given a frame the caller holds a reference to, [map] installs
    it: afterwards every address of the page translates into the frame with the
    protection asked for (reads always allowed), every other page translates as
    before, and the frame that was there is handed back with its reference; or it
    fails with [OutOfFrames] only when the pool is exhausted, with every translation
    as before and the frame still the caller's. Either way no reference is lost or
    invented and no live frame outside the tree's own tables changes. *)
Theorem map_spec s root t R v f prot sup :
  is_space s root t ({[+ f +]} ⊎ R) → is_frame f → aligned v →
  ∃ r s' t', space_map (mkSpace root) v f prot sup s = Ok (r, s')
    ∧ keeps (is_table t) s s'
    ∧ match r with
      | inr old => old = frame_of_entry <$> lv t !! vpn v
          ∧ is_space s' root t' (held old ⊎ R)
          ∧ ∀ w, translate (mkSpace root) w s' =
              Ok (if decide (vpn w = vpn v)
                  then Some (mkTrans (f + w mod PAGE_SIZE) (effective_prot prot) sup)
                  else trans_of w <$> lv t !! vpn w, s')
      | inl e => e = OutOfFrames ∧ exhausted s'
          ∧ is_space s' root t' ({[+ f +]} ⊎ R)
          ∧ ∀ w, translate (mkSpace root) w s' = Ok (trans_of w <$> lv t !! vpn w, s')
      end.
Proof.
  intros HS Hf Hv.
  destruct (space_map_ok _ _ _ _ v f prot sup HS Hf Hv) as (r & s' & t' & E & K & _ & _ & Hr).
  exists r, s', t'. split_and!; [done|done|]. destruct r as [e|old].
  - destruct Hr as (-> & He & Elv & HS'). split_and!; [done..|]. intros w.
    by rewrite (translate_spec _ _ _ _ _ HS'), Elv.
  - destruct Hr as (-> & Elv & HS'). split_and!; [done..|]. intros w.
    rewrite (translate_spec _ _ _ _ _ HS'), Elv. do 2 f_equal.
    case_decide as Hw; [|by rewrite lookup_insert_ne by done].
    rewrite Hw, lookup_insert_eq. simpl. unfold trans_of.
    destruct (leaf_entry_spec f prot sup Hf) as (_ & _ & -> & -> & ->). done.
Qed.

Lemma map_spec_witness :
  result_of (space_map (mkSpace 4096) 0x5000 8192 prot_rw false demo) = Some (inr None)
  ∧ ∃ r s' t', space_map (mkSpace 4096) 0x5000 8192 prot_rw false demo = Ok (r, s')
    ∧ keeps (is_table (empty_tree 4096)) demo s'
    ∧ match r with
      | inr old => old = frame_of_entry <$> lv (empty_tree 4096) !! vpn 0x5000
          ∧ is_space s' 4096 t' (held old ⊎ ∅)
          ∧ ∀ w, translate (mkSpace 4096) w s' =
              Ok (if decide (vpn w = vpn 0x5000)
                  then Some (mkTrans (8192 + w mod PAGE_SIZE) (effective_prot prot_rw) false)
                  else trans_of w <$> lv (empty_tree 4096) !! vpn w, s')
      | inl e => e = OutOfFrames ∧ exhausted s'
          ∧ is_space s' 4096 t' ({[+ 8192 +]} ⊎ ∅)
          ∧ ∀ w, translate (mkSpace 4096) w s' =
              Ok (trans_of w <$> lv (empty_tree 4096) !! vpn w, s')
      end.
Proof.
  split; [vm_compute; reflexivity|].
  apply (map_spec demo 4096 (empty_tree 4096) ∅ 0x5000 8192 prot_rw false);
    [apply demo_space|vm_compute; reflexivity|vm_compute; reflexivity].
Defined.

(** Unmapping a page hands back the frame it held, with its reference, and leaves
    exactly that page untranslated; tables that become empty are given back to the
    pool, so a tree without empty tables stays without them. *)
Theorem unmap_spec s root t R v :
  is_space s root t R →
  ∃ s' t', space_unmap (mkSpace root) v s = Ok (frame_of_entry <$> lv t !! vpn v, s')
    ∧ is_space s' root t' (held (frame_of_entry <$> lv t !! vpn v) ⊎ R)
    ∧ keeps (is_table t) s s'
    ∧ (lean t → lean t')
    ∧ ∀ w, translate (mkSpace root) w s' =
        Ok (if decide (vpn w = vpn v) then None else trans_of w <$> lv t !! vpn w, s').
Proof.
  intros HS. destruct (space_unmap_ok _ _ _ _ v HS) as (s' & t' & E & Elv & _ & HS' & K & Hln).
  exists s', t'. split_and!; [done..|]. intros w.
  rewrite (translate_spec _ _ _ _ _ HS'), Elv. do 2 f_equal.
  case_decide as Hw; [by rewrite Hw, lookup_delete_eq|by rewrite lookup_delete_ne by done].
Qed.

(** The concrete space with one page mapped. *)
Definition demo_mapped : Pool :=
  after (space_map (mkSpace 4096) 0x5000 8192 prot_rw false demo) demo.
Definition demo_leaf : Z := leaf_entry 8192 prot_rw false.

Lemma demo_mapped_space :
  ∃ t, is_space demo_mapped 4096 t ∅ ∧ lv t = {[ 5 := demo_leaf ]}.
Proof.
  destruct (space_map_ok demo 4096 (empty_tree 4096) ∅ 0x5000 8192 prot_rw false)
    as (r & s' & t' & E & _ & _ & _ & Hr); [apply demo_space|done|done|].
  assert (result_of (space_map (mkSpace 4096) 0x5000 8192 prot_rw false demo) = Some (inr None))
    as C by (vm_compute; reflexivity).
  assert (demo_mapped = s') as -> by (unfold demo_mapped; rewrite E; reflexivity).
  rewrite E in C. cbn in C. injection C as ->. destruct Hr as (_ & Elv & HS).
  exists t'. split; [|exact Elv].
  assert (held None ⊎ ∅ = ∅) as <- by multiset_solver. exact HS.
Qed.

Lemma unmap_spec_witness :
  ∃ t s' t', lv t = {[ 5 := demo_leaf ]}
    ∧ space_unmap (mkSpace 4096) 0x5000 demo_mapped
        = Ok (frame_of_entry <$> lv t !! vpn 0x5000, s')
    ∧ is_space s' 4096 t' (held (frame_of_entry <$> lv t !! vpn 0x5000) ⊎ ∅).
Proof.
  destruct demo_mapped_space as (t & HS & Hlv).
  destruct (unmap_spec demo_mapped 4096 t ∅ 0x5000 HS) as (s' & t' & E & HS' & _).
  exists t, s', t'. split_and!; [exact Hlv|exact E|exact HS'].
Defined.

(** Changing a page's protection changes nothing but that page's permissions: same
    frame, same offset, and the answer says whether the page was mapped; no reference
    count moves. *)
Theorem protect_spec s root t R v prot sup :
  is_space s root t R →
  ∃ s' t', space_protect (mkSpace root) v prot sup s = Ok (bool_decide (is_Some (lv t !! vpn v)), s')
    ∧ is_space s' root t' R ∧ keeps (is_table t) s s' ∧ fa s' = fa s
    ∧ ∀ w, translate (mkSpace root) w s' =
        Ok ((λ tr, if decide (vpn w = vpn v)
                   then mkTrans (paddr tr) (effective_prot prot) sup else tr)
            <$> (trans_of w <$> lv t !! vpn w), s').
Proof.
  intros HS. destruct (space_protect_ok _ _ _ _ v prot sup HS) as (s' & E & K & Hfa & HS').
  eexists s', _. split_and!; [done..|]. intros w.
  rewrite (translate_spec _ _ _ _ _ HS'). simpl. do 2 f_equal. case_decide as Hw.
  - rewrite Hw, lookup_alter_eq. destruct (lv t !! vpn v) as [e|]; simpl; [|done]. f_equal.
    unfold trans_of. destruct (leaf_entry_spec _ prot sup (is_frame_entry e)) as (_ & _ & -> & -> & ->).
    done.
  - rewrite lookup_alter_ne by done. by destruct (lv t !! vpn w).
Qed.

Lemma protect_spec_witness :
  ∃ t s' t', lv t = {[ 5 := demo_leaf ]}
    ∧ space_protect (mkSpace 4096) 0x5000 Prot_READ false demo_mapped
        = Ok (bool_decide (is_Some (lv t !! vpn 0x5000)), s')
    ∧ is_space s' 4096 t' ∅.
Proof.
  destruct demo_mapped_space as (t & HS & Hlv).
  destruct (protect_spec demo_mapped 4096 t ∅ 0x5000 Prot_READ false HS) as (s' & t' & E & HS' & _).
  exists t, s', t'. split_and!; [exact Hlv|exact E|exact HS'].
Defined.

(** [map] refuses before touching anything: a retired space, a misaligned address
    and a misaligned frame each give their error with the pool unchanged, and a retired
    space translates nothing on a pool whose null frame is still zero. *)
Theorem map_refusals root v f prot sup s :
  space_map (mkSpace 0) v f prot sup s = Ok (inl Retired, s)
  ∧ (root ≠ 0 → ¬ aligned v →
     space_map (mkSpace root) v f prot sup s = Ok (inl (Misaligned v), s))
  ∧ (root ≠ 0 → aligned v → ¬ aligned f →
     space_map (mkSpace root) v f prot sup s = Ok (inl (Misaligned f), s))
  ∧ (pool_wf s → (∀ i, 0 ≤ i < 512 → ld (phys s) (i * 8) = 0) →
     translate space_retired v s = Ok (None, s)).
Proof.
  unfold space_map, aligned, is_multiple_of. cbn [pml4]. split_and!; [done|..].
  - intros Hr Hv. destruct (Z.eqb_spec root 0); [done|]. by destruct (Z.eqb_spec (v mod PAGE_SIZE) 0).
  - intros Hr Hv Hf. destruct (Z.eqb_spec root 0); [done|].
    destruct (Z.eqb_spec (v mod PAGE_SIZE) 0); [|done]. by destruct (Z.eqb_spec (f mod PAGE_SIZE) 0).
  - intros Hwf Hz. unfold translate, leaf_pte_pa, st_opt, next, entry, rd_u64, mbind, ST_bind, space_retired.
    cbn [pml4]. rewrite Z.add_0_l, phys_read_u64_ok; [|apply Hwf|].
    + unfold mbind, res_bind. rewrite Hz by apply table_index_range. done.
    + pose proof (table_index_range v 4). destruct (rc_inside s 0 Hwf) as [_ [_ Hi]].
      { by rewrite rc_null. } unfold FRAME, PAGE_SIZE in Hi. split; lia.
Qed.

Lemma map_refusals_witness : translate space_retired 0x5000 demo_pool = Ok (None, demo_pool).
Proof.
  apply (map_refusals 4096 0x5001 8192 prot_rw false demo_pool).
  - destruct (pool_new_wf 65536) as (s & E & Hwf); [lia|].
    unfold demo_pool. rewrite E. exact Hwf.
  - intros i Hi. unfold ld.
    assert (rg_bytes (pm_region (phys demo_pool)) = ∅) as -> by (vm_compute; reflexivity).
    reflexivity.
Defined.
