(* ===== verification/PageFork.v ===== *)
(** Teardown and copy-on-write fork of a page-table tree ([destroy], [fork_cow] and
    their recursive helpers in [src/vcpu/pagetable.rs]), against the invariant of
    [PageTree]: destroying a space gives back exactly the references it held, a fork
    gives the child the same translations with write permission withdrawn on both
    sides, and a fork that runs out of frames leaves everything as it was. *)
From S2P Require Import Prelude Phys PageTable PageTree.
From stdpp Require Import base numbers gmap gmultiset list.
Local Open Scope Z_scope.

(** * The references below a slot *)

Definition msum (f : Z → gmultiset Z) (l : list Z) : gmultiset Z :=
  foldr (λ i acc, f i ⊎ acc) ∅ l.

(** The references held by what a slot numbered [m] at level [S l] points to. *)
Fixpoint child (t : tree) (l : nat) (m : Z) : gmultiset Z :=
  match l with
  | O => held (frame_of_entry <$> lv t !! m)
  | S l' => match tbl t !! (S l', m) with
            | Some c => {[+ c +]} ⊎ msum (λ i, child t l' (512 * m + i)) (seqZ 0 512)
            | None => ∅
            end
  end.

Lemma msum_ext f g l : (∀ i, i ∈ l → f i = g i) → msum f l = msum g l.
Proof.
  induction l as [|i l IH]; intros H; simpl; [done|]. rewrite H, IH by set_solver. done.
Qed.

Lemma msum_union f g l : msum (λ i, f i ⊎ g i) l = msum f l ⊎ msum g l.
Proof. induction l as [|i l IH]; simpl; [multiset_solver|]. rewrite IH. multiset_solver. Qed.

Lemma vals_none {K} `{Countable K} (m : gmap K Z) (P : K * Z → Prop) `{∀ x, Decision (P x)} :
  (∀ k v, m !! k = Some v → ¬ P (k, v)) → vals (filter P m) = ∅.
Proof.
  intros Hn. assert (filter P m = ∅) as ->.
  { apply map_empty. intros k. apply map_lookup_filter_None. right. naive_solver. }
  unfold vals. by rewrite map_to_list_empty.
Qed.

Lemma vals_all {K} `{Countable K} (m : gmap K Z) (P : K * Z → Prop) `{∀ x, Decision (P x)} :
  (∀ k v, m !! k = Some v → P (k, v)) → vals (filter P m) = vals m.
Proof. intros Ha. f_equal. apply map_filter_id. done. Qed.

Lemma vals_iff {K} `{Countable K} (m : gmap K Z) (P Q : K * Z → Prop)
    `{∀ x, Decision (P x), ∀ x, Decision (Q x)} :
  (∀ k v, m !! k = Some v → P (k, v) ↔ Q (k, v)) → vals (filter P m) = vals (filter Q m).
Proof. intros Ha. f_equal. apply map_filter_ext. done. Qed.

Lemma vals_key {K} `{Countable K} (m : gmap K Z) k (P : K * Z → Prop) `{∀ x, Decision (P x)} :
  (∀ k' v, m !! k' = Some v → P (k', v) ↔ k' = k) → vals (filter P m) = held (m !! k).
Proof.
  intros HP. destruct (m !! k) as [v|] eqn:E; simpl.
  - rewrite (vals_delete _ k v) by (apply map_lookup_filter_Some; naive_solver).
    assert (delete k (filter P m) = ∅) as ->.
    { apply map_empty. intros k'. apply lookup_delete_None.
      destruct (decide (k = k')) as [|Hne]; [by left|right].
      apply map_lookup_filter_None. right. naive_solver. }
    unfold vals. rewrite map_to_list_empty. simpl. multiset_solver.
  - apply vals_none. intros k' v Hk' HP'. apply HP in HP'; [|done]. subst. by rewrite E in Hk'.
Qed.

(** Summing the entries with [g x = lo + i] over a range of [i]. *)
Lemma vals_range {K} `{Countable K} (m : gmap K Z) (g : K * Z → Z)
    (C : K * Z → Prop) `{∀ x, Decision (C x)} lo (n : nat) a :
  msum (λ i, vals (filter (λ x, C x ∧ g x = lo + i) m)) (seqZ a (Z.of_nat n))
  = vals (filter (λ x, C x ∧ lo + a ≤ g x < lo + a + Z.of_nat n) m).
Proof.
  revert a; induction n as [|n IH]; intros a.
  - rewrite vals_none; [done|]. intros k v _ [_ Hc]. lia.
  - rewrite seqZ_cons by lia. simpl.
    replace (Z.pred (Z.of_nat (S n))) with (Z.of_nat n) by lia. rewrite IH.
    symmetry. apply vals_filter_split.
    + intros k v _. split; [|intros [[??]|[??]]; split; [done|lia|done|lia]].
      intros [Hc ?]. destruct (decide (g (k, v) = lo + a)); [by left|right]. split; [done|lia].
    + intros k v _ [_ ?] [_ ?]. lia.
Qed.

(** The key of a table seen from level [l] up: the slot at level [S l] above it. *)
Definition up (l : nat) (x : (nat * Z) * Z) : Z := x.1.2 / span (l - x.1.1).

Lemma up_step l m x :
  (x.1.1 ≤ S l)%nat ∧ up (S l) x = m ↔
  x.1 = (S l, m) ∨ (x.1.1 ≤ l)%nat ∧ 512 * m + 0 ≤ up l x < 512 * m + 0 + Z.of_nat 512.
Proof.
  destruct x as [[l' k'] v]. unfold up. simpl. split.
  - intros [Hl' Hu]. destruct (decide (l' = S l)) as [->|].
    + left. rewrite Nat.sub_diag, span_0, Z.div_1_r in Hu. by subst.
    + right. split; [lia|]. replace (S l - l')%nat with (S (l - l')) in Hu by lia.
      rewrite div_span_S in Hu. divlia.
  - intros [[= -> ->]|[Hl' Hu]].
    + by rewrite Nat.sub_diag, span_0, Z.div_1_r.
    + split; [lia|]. replace (S l - l')%nat with (S (l - l')) by lia.
      rewrite div_span_S. divlia.
Qed.

Section below.
Context (s : Pool) (root : Z) (t : tree) (R : gmultiset Z).
Hypothesis HS : is_space s root t R.

Lemma child_refs l m :
  (l ≤ 4)%nat →
  child t l m =
    vals (filter (λ x, (x.1.1 ≤ l)%nat ∧ up l x = m) (tbl t))
    ⊎ vals (filter (λ x, x.1 / span l = m) (frame_of_entry <$> lv t)).
Proof.
  destruct (sp_tree _ _ _ _ HS) as [T1 T2 T3 T4 T5].
  revert m; induction l as [|l IH]; intros m Hl.
  - rewrite vals_none, gmultiset_disj_union_left_id.
    2: { intros [l k] v Hk [H0 _]. simpl in H0. apply T2 in Hk. lia. }
    rewrite (vals_key _ m); [by rewrite lookup_fmap|]. intros n v _. simpl.
    by rewrite span_0, Z.div_1_r.
  - cbn [child]. destruct (tbl t !! (S l, m)) as [c|] eqn:E.
    + rewrite (msum_ext _ (λ i,
        vals (filter (λ x, (x.1.1 ≤ l)%nat ∧ up l x = 512 * m + i) (tbl t))
        ⊎ vals (filter (λ x, True ∧ x.1 / span l = 512 * m + i) (frame_of_entry <$> lv t)))).
      2: { intros i _. rewrite IH by lia. f_equal. apply vals_iff. naive_solver. }
      rewrite msum_union.
      rewrite (vals_range (tbl t) (up l) (λ x, (x.1.1 ≤ l)%nat) (512 * m) 512 0).
      rewrite (vals_range (frame_of_entry <$> lv t) (λ x, x.1 / span l) (λ _, True) (512 * m) 512 0).
      rewrite gmultiset_disj_union_assoc. f_equal.
      * assert (vals (filter (λ x, x.1 = (S l, m)) (tbl t)) = {[+ c +]}) as <-.
        { rewrite (vals_key _ (S l, m)); [by rewrite E|done]. }
        symmetry. apply vals_filter_split.
        -- intros [l' k'] x Hk'. apply up_step.
        -- intros k x _ Hk [Hle _]. rewrite Hk in Hle. simpl in Hle. lia.
      * apply vals_iff. intros n x _. simpl. rewrite div_span_S.
        split; [intros [_ ?]; divlia|intros <-; split; [done|divlia]].
    + rewrite !vals_none; [multiset_solver|..].
      * intros n x Hn. simpl. intros <-. rewrite lookup_fmap in Hn.
        destruct (lv t !! n) as [e|] eqn:En; [|done].
        destruct (sp_leaf_above _ _ _ _ HS n e (S l) En) as [y Hy]; [lia|]. by rewrite E in Hy.
      * intros [l' k'] x Hk' [Hl' Hu]. unfold up in Hu. simpl in Hl', Hu.
        destruct (sp_above _ _ _ _ HS l' k' x (S l - l') Hk') as [y Hy]; [lia|].
        rewrite Hu in Hy. replace (l' + (S l - l'))%nat with (S l) in Hy by lia.
        by rewrite E in Hy.
Qed.

Lemma child_root : child t 4 0 = refs t.
Proof.
  destruct (sp_tree _ _ _ _ HS) as [T1 T2 T3 T4 T5].
  rewrite child_refs by lia. unfold refs. f_equal; apply vals_all.
  - intros [l k] v Hk. unfold up. simpl. destruct (T2 _ _ _ Hk) as (Hl & Hk0 & Hks).
    split; [lia|]. apply Z.div_small. split; [done|].
    assert (span 4 = span (4 - l) * span l) as E.
    { unfold span. rewrite <- Z.pow_add_r by lia. f_equal. lia. }
    rewrite E in Hks. pose proof (span_pos l).
    assert (k + 1 ≤ span (4 - l)); [|lia]. by apply (Z.mul_le_mono_pos_r _ _ (span l)).
  - intros n v Hn. simpl. rewrite lookup_fmap in Hn. destruct (lv t !! n) as [e|] eqn:E; [|done].
    destruct (sp_leaf_above _ _ _ _ HS n e 4 E) as [y Hy]; [lia|].
    apply T2 in Hy as (_ & Hk0 & Hk1). pose proof (span_pos 4). nia.
Qed.
End below.

(** * Teardown *)

(** Reading depends on the bytes only. *)
Lemma entry_phys s s0 pa i v :
  phys s = phys s0 → entry pa i s0 = Ok (v, s0) → entry pa i s = Ok (v, s).
Proof.
  unfold entry, rd_u64. intros ->. destruct (phys_read_u64 (phys s0) (pa + i * 8)); [|done].
  simpl. unfold mret, res_ret. naive_solver.
Qed.

Lemma accounts_eq s R R' : accounts s R → R = R' → accounts s R'.
Proof. by intros ? <-. Qed.

Lemma ms_drop (R : gmultiset Z) : ∅ ⊎ R = R.
Proof. multiset_solver. Qed.
Lemma ms_drop2 (A R : gmultiset Z) : ∅ ⊎ A ⊎ R = A ⊎ R.
Proof. multiset_solver. Qed.
Lemma ms_rot (A B C D : gmultiset Z) : A ⊎ B ⊎ C ⊎ D = B ⊎ (A ⊎ (C ⊎ D)).
Proof. multiset_solver. Qed.
Lemma ms_swap (A B C : gmultiset Z) : A ⊎ B ⊎ C = B ⊎ (A ⊎ C).
Proof. multiset_solver. Qed.

(** Dropping references: the bytes stay, the pool stays well formed. *)
Record released (s : Pool) (R : gmultiset Z) (s' : Pool) : Prop := {
  rl_phys : phys s' = phys s;
  rl_wf : pool_wf s';
  rl_pin q : rc s' q = PINNED ↔ rc s q = PINNED;
  rl_acc : accounts s' R
}.

Lemma release_one s q R :
  pool_wf s → accounts s ({[+ q +]} ⊎ R) →
  ∃ s', on_fa (λ a, fa_free a q) s = Ok (tt, s') ∧ released s R s'.
Proof.
  intros Hwf Hacc. eexists. split; [done|]. split; [done|by apply decref_wf|intros x; by apply decref_pin|by apply accounts_decref].
Qed.

Lemma released_trans s1 R1 s2 R2 s3 : released s1 R1 s2 → released s2 R2 s3 → released s1 R2 s3.
Proof. intros [E1 _ N1 _] [E2 W N2 A]. split; [congruence|done| |done].
  intros q. by rewrite N2, N1. Qed.

Section teardown.
Context (s0 : Pool) (root : Z) (t : tree) (R0 : gmultiset Z).
Hypothesis HS : is_space s0 root t R0.

Lemma free_subtree_ok l k pa s R :
  tbl t !! (S l, k) = Some pa → phys s = phys s0 → pool_wf s →
  accounts s (msum (λ i, child t l (512 * k + i)) (seqZ 0 512) ⊎ R) →
  ∃ s', free_subtree (S l) pa s = Ok (tt, s') ∧ released s R s'.
Proof.
  revert k pa s R; induction l as [l IH] using lt_wf_ind; intros k pa s R Hk Hp Hwf.
  cbn [free_subtree]. unfold ENTRIES.
  assert (∀ i, i ∈ seqZ 0 512 → 0 ≤ i < 512) as Hidx by (intros i Hi%elem_of_seqZ; lia).
  revert s R Hp Hwf Hidx. generalize (seqZ 0 512). intros idxs.
  induction idxs as [|i idxs IHi]; intros s R Hp Hwf Hidx Hacc.
  { exists s. split; [done|]. split; [done..|]. eapply accounts_eq; [exact Hacc|].
    apply ms_drop. }
  cbn [st_iter]. unfold mbind, ST_bind. cbn [msum foldr] in Hacc. fold (msum (λ i, child t l (512 * k + i)) idxs) in Hacc.
  assert (∃ s1, free_entry (Nat.eqb l 0) (free_subtree l) pa i s = Ok (tt, s1)
    ∧ released s (msum (λ i, child t l (512 * k + i)) idxs ⊎ R) s1) as (s1 & E1 & L1).
  { unfold free_entry, mbind, ST_bind.
    assert (0 ≤ i < 512) as Hi by (apply Hidx, elem_of_cons; by left).
    rewrite (entry_phys s s0 _ _ _ Hp (entry_slot _ _ _ _ HS _ _ _ i Hk Hi)).
    destruct l as [|l].
    - simpl Nat.eqb. rewrite <- gmultiset_disj_union_assoc in Hacc. cbn [child slot] in *.
      rewrite (leaf_slot _ _ _ _ _ HS). destruct (lv t !! (512 * k + i)) as [e|]; simpl in *.
      + by apply release_one.
      + exists s. split; [done|]. split; [done..|]. eapply accounts_eq; [exact Hacc|]. apply ms_drop.
    - simpl Nat.eqb. rewrite (slot_present_interior _ _ _ _ HS) by lia.
      cbn [child] in Hacc. destruct (tbl t !! (S l, 512 * k + i)) as [c|] eqn:Ec.
      + rewrite bool_decide_eq_true_2 by by eexists. erewrite slot_interior_frame by done.
        destruct (IH l ltac:(lia) (512 * k + i) c s
          ({[+ c +]} ⊎ (msum (λ i, child t (S l) (512 * k + i)) idxs ⊎ R)) Ec Hp Hwf) as (s1 & E1 & L1).
        { eapply accounts_eq; [exact Hacc|]. apply ms_rot. }
        cbn [negb Nat.eqb]. rewrite E1. destruct L1 as [P1 W1 N1 A1].
        destruct (release_one s1 c _ W1 A1) as (s2 & E2 & L2). exists s2. split; [done|].
        by eapply released_trans.
      + rewrite bool_decide_eq_false_2 by (by intros []). exists s. split; [done|]. split; [done..|].
        eapply accounts_eq; [exact Hacc|]. apply ms_drop2. }
  rewrite E1. destruct (IHi s1 R) as (s2 & E2 & L2).
  - rewrite (rl_phys _ _ _ L1). done.
  - apply L1.
  - intros j Hj. apply Hidx, elem_of_cons. by right.
  - apply L1.
  - exists s2. split; [done|]. by eapply released_trans.
Qed.
End teardown.

Lemma space_destroy_ok s root t R :
  is_space s root t R →
  ∃ s', space_destroy (mkSpace root) s = Ok (tt, s') ∧ released s R s'.
Proof.
  intros HS. pose proof (tr_root _ _ _ (sp_tree _ _ _ _ HS)) as Hr.
  pose proof (sp_table _ _ _ _ HS _ _ _ Hr) as (Hr0 & _).
  unfold space_destroy. cbn [pml4]. destruct (Z.eqb_spec root 0); [lia|]. unfold mbind, ST_bind.
  destruct (free_subtree_ok s root t R HS 3 0 root s ({[+ root +]} ⊎ R)) as (s1 & E1 & L1).
  { done. } { done. } { apply HS. }
  { eapply accounts_eq; [exact (sp_acc _ _ _ _ HS)|].
    rewrite <- (child_root _ _ _ _ HS). cbn [child]. rewrite Hr. apply ms_swap. }
  unfold PML4_LEVEL. rewrite E1. destruct (release_one s1 root R) as (s2 & E2 & L2); [apply L1..|].
  rewrite E2. exists s2. split; [done|]. by eapply released_trans.
Qed.

(** * Write-protecting *)

(** A leaf with its write permission withdrawn. *)
Definition ro (e : Z) : Z := Z.land e (U64 - 1 - RW).

Lemma ro_land e m : Z.land (ro e) m = Z.land e (Z.land (U64 - 1 - RW) m).
Proof. unfold ro. by rewrite Z.land_assoc. Qed.

Lemma ro_spec e :
  0 ≤ e < U64 →
  0 ≤ ro e < U64 ∧ frame_of_entry (ro e) = frame_of_entry e ∧ present (ro e) = present e
  ∧ leaf_prot (ro e) = prot_read_only (leaf_prot e)
  ∧ (Z.land (ro e) US =? 0) = (Z.land e US =? 0).
Proof.
  intros He. split.
  { unfold ro. split; [apply Z.land_nonneg; lia|].
    destruct (decide (Z.land e (U64 - 1 - RW) = 0)) as [->|Hn]; [done|].
    apply (Z.log2_lt_pow2 _ 64); [assert (0 ≤ Z.land e (U64 - 1 - RW)) by (apply Z.land_nonneg; lia); lia|].
    eapply Z.le_lt_trans; [apply Z.log2_land; [lia|done]|].
    eapply Z.le_lt_trans; [apply Z.le_min_r|]. done. }
  unfold frame_of_entry, present, leaf_prot. rewrite !ro_land. split_and!; [done..| |done].
  change (Z.land (U64 - 1 - RW) RW) with 0. rewrite Z.land_0_r.
  change (Z.land (U64 - 1 - RW) NX) with NX. simpl negb.
  destruct (Z.land e RW =? 0), (Z.land e NX =? 0); reflexivity.
Qed.

Lemma ro_id e : 0 ≤ e < U64 → Z.land e RW = 0 → ro e = e.
Proof.
  intros He Hrw. unfold ro. apply Z.bits_inj'. intros i Hi. rewrite Z.land_spec.
  destruct (decide (i < 64)) as [H64|H64]; [|by rewrite (testbit_high e 64) by (done || lia)].
  change (U64 - 1 - RW) with (Z.ldiff (Z.ones 64) RW).
  rewrite Z.ldiff_spec, Z.testbit_ones by done.
  assert (Z.testbit e i && Z.testbit RW i = false) as E.
  { rewrite <- Z.land_spec, Hrw. apply Z.bits_0. }
  destruct (Z.testbit e i); simpl in *; [|done]. rewrite E.
  replace (0 <=? i) with true by lia. replace (i <? 64) with true by lia. done.
Qed.

(** Withdrawing write permission from the pages of a range. *)
Definition clr (lo hi : Z) (m : gmap Z Z) : gmap Z Z :=
  map_imap (λ n e, Some (if decide (lo ≤ n < hi) then ro e else e)) m.

Lemma lookup_clr lo hi m n :
  clr lo hi m !! n = (λ e, if decide (lo ≤ n < hi) then ro e else e) <$> m !! n.
Proof. unfold clr. rewrite map_lookup_imap. by destruct (m !! n). Qed.

Lemma clr_app lo mid hi m : lo ≤ mid ≤ hi → clr mid hi (clr lo mid m) = clr lo hi m.
Proof.
  intros H. apply map_eq. intros n. rewrite !lookup_clr. destruct (m !! n) as [e|]; simpl; [|done].
  f_equal. repeat case_decide; lia || done.
Qed.

Lemma clr_id lo hi m : (∀ n e, m !! n = Some e → lo ≤ n < hi → ro e = e) → clr lo hi m = m.
Proof.
  intros H. apply map_eq. intros n. rewrite lookup_clr. destruct (m !! n) as [e|] eqn:E; simpl; [|done].
  f_equal. case_decide; [|done]. by eapply H.
Qed.

Definition clear_tree (lo hi : Z) (t : tree) : tree := mkTree (tbl t) (clr lo hi (lv t)).

Lemma page_range s root t R n e : is_space s root t R → lv t !! n = Some e → 0 ≤ n < span 4.
Proof.
  intros HS Hn. destruct (sp_leaf_above _ _ _ _ HS n e 4 Hn) as [y Hy]; [lia|].
  apply (tr_dom _ _ _ (sp_tree _ _ _ _ HS)) in Hy as (_ & Hk0 & Hk1).
  pose proof (span_pos 4). pose proof (Z.div_mod n (span 4)). pose proof (Z.mod_pos_bound n (span 4)).
  nia.
Qed.

(** Pages of a slot whose entry is not present are not mapped. *)
Lemma slot_absent s root t R l m n :
  is_space s root t R → (1 ≤ l ≤ 4)%nat → tbl t !! (l, m) = None →
  m * span l ≤ n < (m + 1) * span l → lv t !! n = None.
Proof.
  intros HS Hl Hm Hn. destruct (lv t !! n) as [e|] eqn:E; [|done].
  destruct (sp_leaf_above _ _ _ _ HS n e l E Hl) as [y Hy].
  replace (n / span l) with m in Hy; [by rewrite Hm in Hy|].
  pose proof (span_pos l). apply (Z.div_unique n (span l) m (n - m * span l)); lia.
Qed.

Section protecting.
Context (root : Z) (R : gmultiset Z).

Definition cleared (s s' : Pool) (t : tree) (lo hi : Z) : Prop :=
  is_space s' root (clear_tree lo hi t) R ∧ keeps (is_table t) s s' ∧ fa s' = fa s.

Lemma cleared_id s t lo hi :
  is_space s root t R → (∀ n e, lv t !! n = Some e → lo ≤ n < hi → ro e = e) → cleared s s t lo hi.
Proof.
  intros HS Hid. split_and!; [|apply keeps_refl|done].
  unfold clear_tree. rewrite clr_id by done. by destruct t.
Qed.

Lemma cleared_trans s1 s2 s3 t lo mid hi :
  lo ≤ mid ≤ hi → cleared s1 s2 t lo mid → cleared s2 s3 (clear_tree lo mid t) mid hi →
  cleared s1 s3 t lo hi.
Proof.
  intros Hm (H1 & K1 & F1) (H2 & K2 & F2). split_and!; [|by eapply keeps_trans|congruence].
  unfold clear_tree in *. simpl in H2. by rewrite clr_app in H2.
Qed.

Lemma clear_leaf s t n pt e :
  is_space s root t R → tbl t !! (1%nat, n / 512) = Some pt → lv t !! n = Some e →
  ∃ s', wr_u64 (pt + n mod 512 * 8) (ro e) s = Ok (tt, s') ∧ cleared s s' t n (n + 1).
Proof.
  intros HS Hpt He. destruct (tr_leaf _ _ _ (sp_tree _ _ _ _ HS) _ _ He) as (_ & Hu & Hp).
  destruct (ro_spec e Hu) as (Hu' & Hf' & Hp' & _).
  destruct (wr_slot s pt (n mod 512) (ro e)) as (s' & Hwr & Hw).
  { apply HS. } { rewrite (sp_own _ _ _ _ HS _ _ _ Hpt). done. } { divlia. } { done. }
  exists s'. split; [done|]. split_and!; [| |apply Hw].
  - replace (clear_tree n (n + 1) t) with (set_lv t n (Some (ro e))).
    + eapply set_leaf; [exact HS|exact Hpt|intros x [= <-]; by rewrite Hp'|exact Hw|].
      pose proof (refs_set t n (Some (ro e))) as K. rewrite He in K. simpl in K.
      rewrite Hf' in K. apply (inj (.⊎ {[+ frame_of_entry e +]})) in K. by rewrite K.
    + unfold set_lv, clear_tree. f_equal. apply map_eq. intros n'. rewrite lookup_clr.
      destruct (decide (n' = n)) as [->|Hne].
      * rewrite lookup_partial_alter_eq, He. simpl. by rewrite decide_True by lia.
      * rewrite lookup_partial_alter_ne by done. destruct (lv t !! n'); simpl; [|done].
        by rewrite decide_False by lia.
  - eapply keeps_weaken; [apply Hw|]. intros q ->. by do 2 eexists.
Qed.

Lemma clear_leaf_write_ok l k pa s t :
  is_space s root t R → (l < 4)%nat → tbl t !! (S l, k) = Some pa →
  ∃ s', clear_leaf_write (S l) pa s = Ok (tt, s')
    ∧ cleared s s' t (k * span (S l)) ((k + 1) * span (S l)).
Proof.
  revert k pa s t; induction l as [l IH] using lt_wf_ind; intros k pa s t HS Hl Hk.
  cbn [clear_leaf_write]. unfold ENTRIES. pose proof (span_pos l) as Hsp.
  assert (∀ (n : nat) i s t, is_space s root t R → tbl t !! (S l, k) = Some pa →
    0 ≤ i → i + Z.of_nat n = 512 →
    ∃ s', st_iter (clear_entry (Nat.eqb l 0) (clear_leaf_write l) pa) (seqZ i (Z.of_nat n)) s
        = Ok (tt, s')
      ∧ cleared s s' t ((512 * k + i) * span l) ((512 * k + 512) * span l)) as Hloop.
  { clear s t HS Hk. induction n as [|n IHn]; intros i s t HS Hk Hi0 Hin.
    { exists s. split; [done|]. apply cleared_id; [done|]. intros; nia. }
    rewrite seqZ_cons by lia. replace (Z.pred (Z.of_nat (S n))) with (Z.of_nat n) by lia.
    cbn [st_iter]. unfold mbind, ST_bind.
    assert (∃ s1, clear_entry (Nat.eqb l 0) (clear_leaf_write l) pa i s = Ok (tt, s1)
      ∧ cleared s s1 t ((512 * k + i) * span l) ((512 * k + i + 1) * span l)) as (s1 & E1 & C1).
    { unfold clear_entry, mbind, ST_bind. rewrite (entry_slot _ _ _ _ HS _ _ _ i Hk) by lia.
      destruct l as [|l].
      - cbn [slot Nat.eqb]. rewrite (leaf_slot _ _ _ _ _ HS). rewrite span_0, !Z.mul_1_r.
        destruct (lv t !! (512 * k + i)) as [e|] eqn:E; simpl.
        + destruct (tr_leaf _ _ _ (sp_tree _ _ _ _ HS) _ _ E) as (_ & Hu & _).
          destruct (Z.eqb_spec (Z.land e RW) 0) as [Hrw|Hrw]; simpl.
          * exists s. split; [done|]. apply cleared_id; [done|]. intros n' e' Hn' Hr.
            replace n' with (512 * k + i) in Hn' by lia. rewrite E in Hn'. simplify_eq.
            by apply ro_id.
          * destruct (clear_leaf s t (512 * k + i) pa e HS) as (s1 & E1 & C1); [|done|].
            { by replace ((512 * k + i) / 512) with k by divlia. }
            replace ((512 * k + i) mod 512) with i in E1 by divlia. by exists s1.
        + exists s. split; [done|]. apply cleared_id; [done|]. intros n' e' Hn' Hr.
          replace n' with (512 * k + i) in Hn' by lia. by rewrite E in Hn'.
      - rewrite (slot_present_interior _ _ _ _ HS) by lia. cbn [Nat.eqb].
        case_bool_decide as Hc; cbn [negb].
        + destruct Hc as [c Hc]. erewrite slot_interior_frame by done.
          apply (IH l); [lia|done|lia|done].
        + exists s. split; [done|]. apply cleared_id; [done|]. intros n' e' Hn' Hr.
          apply eq_None_not_Some in Hc.
          erewrite slot_absent in Hn'; [done|done| |exact Hc|exact Hr]. lia. }
    rewrite E1. destruct (IHn (Z.succ i) s1 (clear_tree ((512 * k + i) * span l)
      ((512 * k + i + 1) * span l) t)) as (s2 & E2 & C2); [apply C1|done|lia|lia|].
    exists s2. split; [done|]. replace (512 * k + Z.succ i) with (512 * k + i + 1) in C2 by lia.
    eapply cleared_trans; [|exact C1|exact C2]. nia. }
  destruct (Hloop 512%nat 0 s t HS Hk) as (s' & E & C); [lia|lia|]. exists s'. split; [done|].
  rewrite span_S. replace (k * (512 * span l)) with ((512 * k + 0) * span l) by lia.
  replace ((k + 1) * (512 * span l)) with ((512 * k + 512) * span l) by lia. done.
Qed.
End protecting.

(** * Cloning *)

Lemma accounts_incref s q X :
  pool_wf s → accounts s X → 1 ≤ rc s q → rc s q + 1 ≠ PINNED →
  let s' := mkPool (phys s) (fa_incref (fa s) q) in
  pool_wf s' ∧ accounts s' ({[+ q +]} ⊎ X) ∧ keeps (λ _, False) s s'
  ∧ ∀ x, x ≠ q → rc s' x = rc s x.
Proof.
  intros Hwf Hacc H1 H2 s'. unfold rc in H1, H2.
  destruct (fa_incref_spec (fa s) q (pl_fa _ Hwf) H1 H2) as (W & L & _ & Hrc).
  assert (∀ x, rc s' x = if decide (x = q ∧ rc s q ≠ PINNED) then rc s q + 1 else rc s x) as Hrc'
    by apply Hrc. clear Hrc.
  split_and!; [by apply pool_wf_fa| |split; [done|done| |]|].
  - intros x. rewrite Hrc', multiplicity_disj_union. destruct (decide (x = q)) as [->|Hne].
    + rewrite multiplicity_singleton_eq. destruct (Hacc q) as [E|E].
      * left. by rewrite decide_False by naive_solver.
      * destruct (decide (rc s q = PINNED)) as [Ep|Ep].
        -- left. by rewrite decide_False by naive_solver.
        -- right. rewrite decide_True by done. lia.
    + rewrite multiplicity_singleton_ne by done. rewrite decide_False by naive_solver. apply Hacc.
  - intros x Hx _. rewrite Hrc'. destruct (decide (x = q ∧ rc s q ≠ PINNED)) as [[-> _]|]; lia.
  - intros x. rewrite Hrc'. destruct (decide (x = q ∧ rc s q ≠ PINNED)) as [[-> ?]|]; done.
  - intros x Hx. rewrite Hrc'. by rewrite decide_False by naive_solver.
Qed.

Section cloning.
Context (rp rk : Z) (tp : tree) (R : gmultiset Z).
Hypothesis Hbound : ∀ q, Z.of_nat (multiplicity q (refs tp ⊎ refs tp ⊎ R)) < PINNED - 1.

(** Parent and partial child side by side in one pool. *)
Definition both (s : Pool) (tc : tree) : Prop :=
  is_space s rp tp (refs tc ⊎ R) ∧ is_space s rk tc (refs tp ⊎ R).

Lemma both_apart s tc q : both s tc → is_table tp q → ¬ is_table tc q.
Proof.
  intros [H1 H2] (l & k & Hk) (l' & k' & Hk').
  apply (sp_once _ _ _ _ H1) in Hk as (_ & _ & Hm). unfold refs in Hm.
  rewrite !multiplicity_disj_union in Hm. apply vals_lookup in Hk'. lia.
Qed.

Record progress (s : Pool) (tc : tree) (s' : Pool) (tc' : tree) : Prop := {
  pg_both : both s' tc';
  pg_keeps : keeps (is_table tc) s s';
  pg_tbl : tbl tc ⊆ tbl tc';
  pg_new q : is_table tc' q → is_table tc q ∨ rc s q = 0
}.

Lemma progress_refl s tc : both s tc → progress s tc s tc.
Proof. intros H. split; [done|apply keeps_refl|done|by left]. Qed.

Lemma progress_trans s1 t1 s2 t2 s3 t3 :
  both s1 t1 → progress s1 t1 s2 t2 → progress s2 t2 s3 t3 → progress s1 t1 s3 t3.
Proof.
  intros [_ B1] [P1 P2 P3 P4] [Q1 Q2 Q3 Q4]. split; [done| |by etrans|].
  - eapply keeps_trans; [exact P2|exact Q2|done|].
    intros q Hq Ho. destruct (P4 q Ho) as [|E]; [done|lia].
  - intros q Hq. destruct (Q4 q Hq) as [|E]; [by apply P4|].
    pose proof (fa_refcount_range (fa s1) q (pl_fa _ (sp_pool _ _ _ _ B1))) as Hr.
    fold (rc s1 q) in Hr. destruct (decide (rc s1 q = 0)) as [|Hn]; [by right|left].
    destruct (decide (q ∈ vals (tbl t1))) as [Hv|Hv].
    + apply elem_of_vals in Hv as [[l k] ?]. by exists l, k.
    + exfalso. cut (1 ≤ rc s2 q); [lia|]. apply P2; [lia|]. intros (l & k & Hk). apply Hv.
      apply vals_lookup in Hk. apply elem_of_multiplicity. lia.
Qed.

(** The child moved, the parent did not. *)
Lemma both_intro s tc s' tc' :
  both s tc → is_space s' rk tc' (refs tp ⊎ R) → keeps (is_table tc) s s' →
  (∀ q, is_table tp q → rc s' q = rc s q) → both s' tc'.
Proof.
  intros B HS' K Hrc. split; [|done]. pose proof B as [B1 B2].
  eapply (space_transfer s); [exact B1|apply HS'|exact K| |].
  - intros q Hq. split; [by eapply both_apart|]. rewrite Hrc by done.
    destruct Hq as (l & k & Hk). by eapply B1.
  - eapply accounts_eq; [apply HS'|]. multiset_solver.
Qed.

Definition upto (p : Z) : gmap Z Z := ro <$> filter (λ x, x.1 < p) (lv tp).

Lemma lookup_upto p n e :
  upto p !! n = Some e ↔ n < p ∧ ∃ e0, lv tp !! n = Some e0 ∧ e = ro e0.
Proof.
  unfold upto. rewrite lookup_fmap_Some. setoid_rewrite map_lookup_filter_Some. naive_solver.
Qed.

Lemma upto_same p p' :
  (∀ n e, lv tp !! n = Some e → n < p ↔ n < p') → upto p = upto p'.
Proof. intros H. unfold upto. f_equal. apply map_filter_ext. done. Qed.

Lemma upto_frames p q :
  (multiplicity q (vals (frame_of_entry <$> upto p))
   ≤ multiplicity q (vals (frame_of_entry <$> lv tp)))%nat.
Proof.
  assert (frame_of_entry <$> upto p
    = filter (λ x, x.1 < p) (frame_of_entry <$> lv tp)) as ->.
  { apply map_eq. intros n. apply option_eq. intros f. rewrite lookup_fmap_Some.
    setoid_rewrite lookup_upto. rewrite map_lookup_filter_Some, lookup_fmap_Some.
    assert (∀ e, frame_of_entry (ro e) = frame_of_entry e) as E
      by (intros e; unfold frame_of_entry; by rewrite ro_land).
    split.
    - intros (e & <- & Hn & e0 & He & ->). rewrite E. split; [by exists e0|done].
    - intros [(e0 & <- & He) Hn]. exists (ro e0). rewrite E. split; [done|]. split; [done|].
      by exists e0. }
  rewrite <- (vals_all (frame_of_entry <$> lv tp) (λ _, True)) by done.
  rewrite (vals_filter_split _ (λ x, x.1 < p) (λ x, ¬ x.1 < p) (λ _, True)).
  - rewrite multiplicity_disj_union. lia.
  - intros k v _. simpl. destruct (decide (k < p)); tauto.
  - tauto.
Qed.

(** The count of a shared frame is positive and cannot reach the pinned value. *)
Lemma share_count s tc n e :
  both s tc → lv tc = upto n → lv tp !! n = Some e →
  1 ≤ rc s (frame_of_entry e) ∧ rc s (frame_of_entry e) + 1 ≠ PINNED.
Proof.
  intros [B1 B2] Elv He. set (f := frame_of_entry e).
  destruct (sp_acc _ _ _ _ B1 f) as [->|E]; [done|].
  assert (1 ≤ multiplicity f (refs tp))%nat as Hf.
  { unfold refs. rewrite multiplicity_disj_union.
    assert ((frame_of_entry <$> lv tp) !! n = Some f) as Hn by by rewrite lookup_fmap, He.
    apply vals_lookup in Hn. lia. }
  assert (multiplicity f (vals (tbl tc)) = 0%nat) as Hz.
  { destruct (decide (f ∈ vals (tbl tc))) as [Hi|Hi]; [|by apply not_elem_of_multiplicity].
    apply elem_of_vals in Hi as [[l k] Hk]. apply (sp_once _ _ _ _ B2) in Hk as (_ & _ & Hm).
    rewrite multiplicity_disj_union in Hm. lia. }
  pose proof (upto_frames n f) as Hle. pose proof (Hbound f) as Hb.
  rewrite !multiplicity_disj_union in E. rewrite !multiplicity_disj_union in Hb.
  unfold refs in E at 2. rewrite multiplicity_disj_union, Hz, Elv in E.
  assert (multiplicity f (vals (frame_of_entry <$> lv tp)) ≤ multiplicity f (refs tp))%nat
    by (unfold refs; rewrite multiplicity_disj_union; lia).
  rewrite E. split; lia.
Qed.

(** Sharing one leaf. *)
Lemma share_leaf s tc n e pt :
  both s tc → lv tc = upto n → lv tp !! n = Some e → tbl tc !! (1%nat, n / 512) = Some pt →
  let s1 := mkPool (phys s) (fa_incref (fa s) (frame_of_entry e)) in
  ∃ s', wr_u64 (pt + n mod 512 * 8) (ro e) s1 = Ok (tt, s')
    ∧ progress s tc s' (set_lv tc n (Some (ro e))).
Proof.
  intros B Elv He Hpt s1. pose proof B as [B1 B2].
  destruct (tr_leaf _ _ _ (sp_tree _ _ _ _ B1) _ _ He) as (_ & Hu & Hp).
  destruct (ro_spec e Hu) as (Hu' & Hf' & Hp' & _).
  set (f := frame_of_entry e) in *.
  destruct (share_count s tc n e B Elv He) as [Hr1 Hr2]. fold f in Hr1, Hr2.
  destruct (accounts_incref s f _ (sp_pool _ _ _ _ B2) (sp_acc _ _ _ _ B2) Hr1 Hr2)
    as (W1 & A1 & K1 & Hrc). fold s1 in W1, A1, K1, Hrc.
  assert (∀ q, is_table tc q → f ≠ q) as Hfc.
  { intros q (l & k & Hk) <-. apply (sp_once _ _ _ _ B2) in Hk as (_ & _ & Hm).
    rewrite multiplicity_disj_union in Hm. unfold refs in Hm. rewrite multiplicity_disj_union in Hm.
    assert ((frame_of_entry <$> lv tp) !! n = Some f) as Hn by by rewrite lookup_fmap, He.
    apply vals_lookup in Hn. lia. }
  assert (is_space s1 rk tc ({[+ f +]} ⊎ (refs tp ⊎ R))) as HS1.
  { eapply (space_transfer s); [exact B2|exact W1|exact K1| |].
    - intros q Hq. split; [tauto|]. rewrite Hrc by (intros ->; by eapply Hfc).
      destruct Hq as (l & k & Hk). by eapply B2.
    - eapply accounts_eq; [exact A1|]. generalize (refs tp), (refs tc). intros. multiset_solver. }
  destruct (store_leaf s1 rk tc (refs tp ⊎ R) n (Some (ro e)) pt) as (s' & Hwr & HS' & K' & Hfa).
  { simpl. by rewrite Hf'. } { done. } { intros x [= <-]. by rewrite Hp'. }
  exists s'. split; [done|].
  assert (lv tc !! n = None) as Hnone.
  { rewrite Elv. apply eq_None_not_Some. intros [x Hx]. apply lookup_upto in Hx as [? _]. lia. }
  rewrite Hnone in HS'. simpl in HS'. rewrite gmultiset_disj_union_left_id in HS'.
  assert (keeps (is_table tc) s s') as K by (eapply keeps_trans; [exact K1|exact K'|done|done]).
  split; [|done|done|by left]. eapply both_intro; [done..|].
  intros q Hq. unfold rc at 1. rewrite Hfa. fold (rc s1 q). apply Hrc.
  intros ->. by eapply (sp_leaf_apart _ _ _ _ B1).
Qed.

(** The child has no table at level [l] or below from page [p] on. *)
Definition fresh (tc : tree) (l : nat) (p : Z) : Prop :=
  ∀ l' k' x, tbl tc !! (l', k') = Some x → (l' ≤ l)%nat → k' * span l' < p.

(** The outcome of cloning up to page [p]: done, or stopped with a valid partial child. *)
Definition cloned (s : Pool) (tc : tree) (l : nat) (p : Z) (r : option unit) (s' : Pool) : Prop :=
  ∃ tc', progress s tc s' tc'
    ∧ (r = None → lv tc' = upto p ∧ fresh tc' l p
        ∧ ∀ l' k', (l < l')%nat → tbl tc' !! (l', k') = tbl tc !! (l', k')).

Lemma cloned_skip s tc l p p' :
  both s tc → lv tc = upto p → fresh tc l p → p ≤ p' →
  (∀ n e, lv tp !! n = Some e → ¬ (p ≤ n < p')) → cloned s tc l p' None s.
Proof.
  intros B Elv Hf Hp Hno. exists tc. split; [by apply progress_refl|]. intros _. split_and!; [|..|done].
  - rewrite Elv. apply upto_same. intros n e Hn. apply Hno in Hn. lia.
  - intros l' k' x Hk' Hl'. specialize (Hf l' k' x Hk' Hl'). lia.
Qed.

(** Linking a fresh table into the child. *)
Lemma clone_link s s1 tc l m cpa c :
  both s tc → (1 ≤ l < 4)%nat → is_Some (tbl tp !! (l, m)) → tbl tc !! (S l, m / 512) = Some cpa →
  tbl tc !! (l, m) = None → allocated_frame s s1 c →
  ∃ s2, wr_u64 (cpa + m mod 512 * 8) (Z.lor c INTERIOR) s1 = Ok (tt, s2)
    ∧ progress s tc s2 (link_tbl tc l m c).
Proof.
  intros B Hl [x Hx] Hcpa Hnone A. pose proof B as [B1 B2].
  destruct (tr_dom _ _ _ (sp_tree _ _ _ _ B1) _ _ _ Hx) as (_ & Hm0 & Hms).
  assert (is_frame c) as Hcf.
  { apply is_frame_intro; [apply A|]. pose proof (pw_size _ (pl_phys _ (sp_pool _ _ _ _ B1))).
    pose proof (al_pos _ _ _ A). destruct (al_inside _ _ _ A). unfold FRAME, PAGE_SIZE in *. lia. }
  destruct (wr_slot s1 cpa (m mod 512) (Z.lor c INTERIOR)) as (s2 & Hwr & Hw).
  { apply A. } { rewrite (al_rc _ _ _ A). case_decide; [done|].
    rewrite (sp_own _ _ _ _ B2 _ _ _ Hcpa). done. } { divlia. } { by apply interior_u64. }
  destruct (link_table _ _ _ _ _ _ _ _ _ _ B2 Hl Hm0 Hms Hcpa Hnone A Hw) as (HS2 & K2 & _).
  exists s2. split; [done|]. split; [|done|simpl; by apply insert_subseteq|].
  - eapply both_intro; [done..|]. intros q Hq. unfold rc at 1. rewrite (wr_fa _ _ _ _ _ Hw).
    fold (rc s1 q). rewrite (al_rc _ _ _ A). rewrite decide_False; [done|].
    intros ->. by eapply (allocated_not_table _ _ _ _ _ _ A B1).
  - intros q (l' & k' & Hk'). simpl in Hk'. apply lookup_insert_Some in Hk' as [[_ <-]|[_ Hk']].
    + right. apply A.
    + left. by exists l', k'.
Qed.

Definition subtree_clones (l : nat) : Prop := ∀ k ppa cpa s tc,
  both s tc → tbl tp !! (S l, k) = Some ppa → tbl tc !! (S l, k) = Some cpa →
  lv tc = upto (k * span (S l)) → fresh tc l (k * span (S l)) →
  ∃ r s', clone_subtree (S l) ppa cpa s = Ok (r, s')
    ∧ cloned s tc l ((k + 1) * span (S l)) r s'.

(** One slot of a leaf table. *)
Lemma clone_leaf_entry k ppa cpa s tc i :
  both s tc → tbl tp !! (1%nat, k) = Some ppa → tbl tc !! (1%nat, k) = Some cpa → 0 ≤ i < 512 →
  lv tc = upto (512 * k + i) →
  ∃ s', clone_entry true (clone_subtree 0) ppa cpa i s = Ok (None, s')
    ∧ cloned s tc 0 (512 * k + i + 1) None s'.
Proof.
  intros B Hp Hc Hi Elv. pose proof B as [B1 B2]. unfold clone_entry, mbind, ST_bind.
  rewrite (entry_slot _ _ _ _ B1 _ _ _ i Hp) by lia. cbn [slot]. rewrite (leaf_slot _ _ _ _ _ B1).
  assert (∀ t p, is_tree (phys s) rk t → fresh t 0 p) as Hfr.
  { intros t p Ht l' k' x Hk' Hl'. apply (tr_dom _ _ _ Ht) in Hk'. lia. }
  destruct (lv tp !! (512 * k + i)) as [e|] eqn:E; simpl.
  - destruct (share_leaf s tc (512 * k + i) e cpa B Elv E) as (s' & Hwr & Pg).
    { by replace ((512 * k + i) / 512) with k by divlia. }
    replace ((512 * k + i) mod 512) with i in Hwr by divlia. unfold ro in Hwr. rewrite Hwr.
    exists s'. split; [done|]. eexists. split; [exact Pg|]. intros _. split_and!; [| |done].
    + simpl. rewrite Elv. apply map_eq. intros n. apply option_eq. intros x. rewrite lookup_upto.
      destruct (decide (n = 512 * k + i)) as [->|Hne].
      * rewrite lookup_partial_alter_eq. split; [intros [= <-]; split; [lia|by exists e]|].
        intros (_ & e0 & He0 & ->). rewrite E in He0. by simplify_eq.
      * rewrite lookup_partial_alter_ne, lookup_upto by done. naive_solver lia.
    + intros l' k' x Hk' Hl'. apply (tr_dom _ _ _ (sp_tree _ _ _ _ (proj2 (pg_both _ _ _ _ Pg)))) in Hk'.
      lia.
  - exists s. split; [done|]. eapply cloned_skip; [done|done|apply Hfr, B2|lia|].
    intros n e Hn Hr. replace n with (512 * k + i) in Hn by lia. by rewrite E in Hn.
Qed.

(** One slot of an interior table. *)
Lemma clone_interior_entry l k ppa cpa s tc i :
  (S l < 4)%nat → subtree_clones l →
  both s tc → tbl tp !! (S (S l), k) = Some ppa → tbl tc !! (S (S l), k) = Some cpa →
  0 ≤ i < 512 →
  lv tc = upto ((512 * k + i) * span (S l)) → fresh tc (S l) ((512 * k + i) * span (S l)) →
  ∃ r s', clone_entry false (clone_subtree (S l)) ppa cpa i s = Ok (r, s')
    ∧ cloned s tc (S l) ((512 * k + i + 1) * span (S l)) r s'.
Proof.
  intros Hl IH B Hp Hc Hi Elv Hf. pose proof B as [B1 B2]. unfold clone_entry, mbind, ST_bind.
  rewrite (entry_slot _ _ _ _ B1 _ _ _ i Hp) by lia.
  rewrite (slot_present_interior _ _ _ _ B1) by lia. pose proof (span_pos (S l)) as Hsp.
  set (m := 512 * k + i) in *.
  assert (m / 512 = k ∧ m mod 512 = i) as [Em Ei] by (unfold m; split; divlia).
  case_bool_decide as Hs; cbn [negb].
  2: { exists None, s. split; [done|]. eapply cloned_skip; [done..|nia|].
       intros n e Hn Hr. apply eq_None_not_Some in Hs.
       erewrite slot_absent in Hn; [done|exact B1| |exact Hs|exact Hr]. lia. }
  destruct Hs as [psub Hs]. erewrite slot_interior_frame by done.
  destruct (decide (free_list (fa s) = [] ∨ use_reserve (fa s) = false
      ∧ Z.of_nat (length (free_list (fa s))) ≤ reserve_n (fa s))) as [E|E].
  { rewrite fa_alloc_None by exact E. exists (Some tt), s. split; [done|].
    exists tc. split; [by apply progress_refl|done]. }
  destruct (fa_alloc_Some s (sp_pool _ _ _ _ B1) E) as (c & s1 & -> & A).
  assert (tbl tc !! (S l, m) = None) as Hnone.
  { apply eq_None_not_Some. intros [x Hx]. specialize (Hf _ _ _ Hx (le_n _)). lia. }
  destruct (clone_link s s1 tc (S l) m cpa c B) as (s2 & Hwr & Pg);
    [lia|by eexists|by rewrite Em|done|done|].
  rewrite Ei in Hwr. rewrite Hwr.
  destruct (IH m psub c s2 (link_tbl tc (S l) m c)) as (r & s3 & E3 & tc3 & Pg3 & Hdone);
    [apply Pg|done|simpl; apply lookup_insert_eq|done| |].
  { intros l' k' x Hk' Hl'. simpl in Hk'. apply lookup_insert_Some in Hk' as [[[= <- _] _]|[_ Hk']];
      [lia|]. eapply Hf; [exact Hk'|lia]. }
  exists r, s3. split; [done|]. exists tc3. split; [by eapply progress_trans|].
  intros ->. destruct (Hdone eq_refl) as (Elv3 & Hf3 & Hab). split_and!; [done| |].
  - intros l' k' x Hk' Hl'. destruct (decide (l' = S l)) as [->|]; [|eapply Hf3; [exact Hk'|lia]].
    rewrite Hab in Hk' by lia. simpl in Hk'.
    apply lookup_insert_Some in Hk' as [[[= <-] _]|[_ Hk']]; [nia|].
    specialize (Hf _ _ _ Hk' (le_n _)). nia.
  - intros l' k' Hl'. rewrite Hab by lia. simpl. rewrite lookup_insert_ne; [done|]. intros [= <- _]. lia.
Qed.

(** The loop over the slots of a table, given the loop body. *)
Lemma clone_loop l k ppa cpa :
  (∀ s tc i, both s tc → tbl tp !! (S l, k) = Some ppa → tbl tc !! (S l, k) = Some cpa →
     0 ≤ i < 512 → lv tc = upto ((512 * k + i) * span l) → fresh tc l ((512 * k + i) * span l) →
     ∃ r s', clone_entry (Nat.eqb l 0) (clone_subtree l) ppa cpa i s = Ok (r, s')
       ∧ cloned s tc l ((512 * k + i + 1) * span l) r s') →
  ∀ (n : nat) s tc i, both s tc → tbl tp !! (S l, k) = Some ppa → tbl tc !! (S l, k) = Some cpa →
    0 ≤ i → i + Z.of_nat n = 512 →
    lv tc = upto ((512 * k + i) * span l) → fresh tc l ((512 * k + i) * span l) →
    ∃ r s', st_try (clone_entry (Nat.eqb l 0) (clone_subtree l) ppa cpa) (seqZ i (Z.of_nat n)) s
        = Ok (r, s')
      ∧ cloned s tc l ((512 * k + 512) * span l) r s'.
Proof.
  intros Hbody. induction n as [|n IHn]; intros s tc i B Hp Hc Hi Hin Elv Hf.
  - exists None, s. split; [done|]. pose proof (span_pos l). eapply cloned_skip; [done..|nia|].
    intros n e _ Hr. replace i with 512 in Hr by lia. lia.
  - rewrite seqZ_cons by lia. replace (Z.pred (Z.of_nat (S n))) with (Z.of_nat n) by lia.
    cbn [st_try]. unfold mbind, ST_bind.
    destruct (Hbody s tc i B Hp Hc ltac:(lia) Elv Hf) as (r & s1 & E1 & C1). rewrite E1.
    destruct r as [u|].
    + destruct C1 as (t1 & P1 & _). exists (Some u), s1. split; [done|]. by exists t1.
    + pose proof C1 as (t1 & P1 & H1). destruct (H1 eq_refl) as (L1 & F1 & A1).
      destruct (IHn s1 t1 (Z.succ i)) as (r & s2 & E2 & C2); [apply P1|done| |lia|lia| | |].
      { rewrite A1 by lia. done. }
      { rewrite L1. f_equal. lia. }
      { replace (512 * k + Z.succ i) with (512 * k + i + 1) by lia. done. }
      exists r, s2. split; [done|]. destruct C2 as (t2 & P2 & H2). exists t2.
      split; [by eapply progress_trans|]. intros ->. destruct (H2 eq_refl) as (L2 & F2 & A2).
      split_and!; [done|done|]. intros l' k' Hl'. by rewrite A2, A1.
Qed.

Lemma clone_subtree_ok l : (l < 4)%nat → subtree_clones l.
Proof.
  induction l as [|l IH]; intros Hl k ppa cpa s tc B Hp Hc Elv Hf.
  all: cbn [clone_subtree]; unfold ENTRIES; change 512 with (Z.of_nat 512).
  - edestruct (clone_loop 0 k ppa cpa) with (n := 512%nat) (i := 0) as (r & s' & E & C);
      [|exact B|done|done|lia|lia|..].
    + intros s1 t1 i B1 Hp1 Hc1 Hi E1 _. rewrite span_0, Z.mul_1_r in *.
      destruct (clone_leaf_entry k ppa cpa s1 t1 i) as (s2 & E2 & C2); [done..|].
      by exists None, s2.
    + rewrite Elv, span_S. f_equal. lia.
    + intros l' k' x Hk' Hl'. specialize (Hf l' k' x Hk' Hl'). rewrite span_S in Hf. lia.
    + exists r, s'. split; [done|]. rewrite span_S.
      replace ((k + 1) * (512 * span 0)) with ((512 * k + 512) * span 0) by lia. done.
  - edestruct (clone_loop (S l) k ppa cpa) with (n := 512%nat) (i := 0) as (r & s' & E & C);
      [|exact B|done|done|lia|lia|..].
    + intros s1 t1 i B1 Hp1 Hc1 Hi E1 F1.
      apply clone_interior_entry; [done|apply IH; lia|done..].
    + rewrite Elv, (span_S (S l)). f_equal. lia.
    + intros l' k' x Hk' Hl'. specialize (Hf l' k' x Hk' Hl'). rewrite (span_S (S l)) in Hf. lia.
    + exists r, s'. split; [done|]. rewrite (span_S (S l)).
      replace ((k + 1) * (512 * span (S l))) with ((512 * k + 512) * span (S l)) by lia. done.
Qed.
End cloning.

(** * Fork *)

Lemma clear_all s root t R : is_space s root t R → clr 0 (span 4) (lv t) = ro <$> lv t.
Proof.
  intros HS. apply map_eq. intros n. rewrite lookup_clr, lookup_fmap.
  destruct (lv t !! n) as [e|] eqn:E; simpl; [|done].
  rewrite decide_True; [done|]. by eapply page_range.
Qed.

Lemma upto_all s root t R p : is_space s root t R → span 4 ≤ p → upto t p = ro <$> lv t.
Proof.
  intros HS Hp. unfold upto. f_equal. apply map_filter_id. intros n e Hn.
  apply (page_range _ _ _ _ _ _ HS) in Hn. simpl. lia.
Qed.

(** Counts agree when the references and the pinned frames do. *)
Lemma accounts_same s s' X :
  accounts s X → accounts s' X → (∀ q, rc s' q = PINNED ↔ rc s q = PINNED) → ∀ q, rc s' q = rc s q.
Proof.
  intros A A' Hp q. destruct (decide (rc s q = PINNED)) as [E|E].
  - rewrite E. by apply Hp.
  - destruct (A q) as [|E1]; [done|]. destruct (A' q) as [E2|E2]; [by apply Hp in E2|lia].
Qed.

Section fork.
Context (s : Pool) (root : Z) (t : tree) (R : gmultiset Z).
Hypothesis HS : is_space s root t R.
Hypothesis Hbound : ∀ q, Z.of_nat (multiplicity q (refs t ⊎ refs t ⊎ R)) < PINNED - 1.

(** A failed fork: the partial child is given back, the parent never moved. *)
Lemma fork_undo s1 c s2 tc :
  allocated_frame s s1 c → progress root c t R s1 (empty_tree c) s2 tc →
  ∃ s3, space_destroy (mkSpace c) s2 = Ok (tt, s3)
    ∧ is_space s3 root t R ∧ keeps (λ _, False) s s3.
Proof.
  intros A Pg. destruct (pg_both _ _ _ _ _ _ _ _ Pg) as [B1 B2].
  destruct (space_destroy_ok _ _ _ _ B2) as (s3 & E & L). exists s3. split; [done|].
  assert (keeps (λ q, q = c) s s2) as K2.
  { eapply keeps_trans; [eapply allocated_keeps; [done|apply HS]|apply Pg|done|].
    intros q _ (l & k & Hk). simpl in Hk. by apply lookup_singleton_Some in Hk as [_ <-]. }
  assert (rc s c = 0) as Hc by apply A.
  assert (∀ q, rc s3 q = PINNED ↔ rc s q = PINNED) as Hpin
    by (intros q; by rewrite (rl_pin _ _ _ L), (kp_pin _ _ _ K2)).
  pose proof (accounts_same _ _ _ (sp_acc _ _ _ _ HS) (rl_acc _ _ _ L) Hpin) as Hrc.
  assert (keeps (λ _, False) s s3) as K.
  { split; [rewrite (rl_phys _ _ _ L); apply K2| | |done].
    - intros q i Hq _ Hi. rewrite (rl_phys _ _ _ L). apply (kp_bytes _ _ _ K2 q); [done| |done].
      intros ->. lia.
    - intros q Hq _. by rewrite Hrc. }
  split; [|done]. eapply (space_transfer s); [exact HS|apply L|exact K| |apply L].
  intros q (l & k & Hk). split; [tauto|]. rewrite Hrc. by eapply HS.
Qed.

Lemma fork_cow_ok :
  ∃ r s', fork_cow (mkSpace root) s = Ok (r, s')
    ∧ match r with
      | None => is_space s' root t R ∧ keeps (λ _, False) s s'
      | Some c => ∃ tc, lv tc = ro <$> lv t
          ∧ is_space s' root (mkTree (tbl t) (ro <$> lv t)) (refs tc ⊎ R)
          ∧ is_space s' (pml4 c) tc (refs (mkTree (tbl t) (ro <$> lv t)) ⊎ R)
          ∧ keeps (is_table t) s s' ∧ (∀ q, is_table tc q → rc s q = 0)
      end.
Proof.
  unfold fork_cow, mbind, ST_bind. pose proof (sp_pool _ _ _ _ HS) as Hwf.
  destruct (decide (free_list (fa s) = [] ∨ use_reserve (fa s) = false
      ∧ Z.of_nat (length (free_list (fa s))) ≤ reserve_n (fa s))) as [E|E].
  { rewrite fa_alloc_None by exact E. exists None, s. split; [done|]. split; [done|apply keeps_refl]. }
  destruct (fa_alloc_Some s Hwf E) as (c & s1 & -> & A).
  assert (both root c t R s1 (empty_tree c)) as B.
  { split; [|by eapply empty_space; [|apply HS|]]. rewrite refs_empty. by eapply space_alloc. }
  destruct (clone_subtree_ok root c t R Hbound 3 ltac:(lia) 0 root c s1 (empty_tree c))
    as (r & s2 & E2 & tc & Pg & Hdone); [done|apply HS|done| | |].
  { symmetry. apply map_empty. intros n. apply eq_None_not_Some. intros [e He].
    apply lookup_upto in He as (Hn & e0 & He0 & _). apply (page_range _ _ _ _ _ _ HS) in He0. lia. }
  { intros l' k' x Hk' Hl'. simpl in Hk'. apply lookup_singleton_Some in Hk' as [[= <- _] _]. lia. }
  cbn [pml4]. unfold PML4_LEVEL. rewrite E2. destruct r as [u|].
  { destruct (fork_undo _ _ _ _ A Pg) as (s3 & -> & HS3 & K3). by exists None, s3. }
  destruct (Hdone eq_refl) as (Elv & _). rewrite (upto_all _ _ _ _ _ HS) in Elv by done.
  destruct (pg_both _ _ _ _ _ _ _ _ Pg) as [B1 B2].
  destruct (clear_leaf_write_ok root _ 3 0 root s2 t B1 ltac:(lia)) as (s3 & E3 & C1 & K3 & F3);
    [apply HS|].
  rewrite E3. exists (Some (mkSpace c)), s3. split; [done|]. exists tc.
  change (0 * span 4) with 0 in C1. change ((0 + 1) * span 4) with (span 4) in C1.
  unfold clear_tree in C1. rewrite (clear_all _ _ _ _ HS) in C1.
  assert (∀ q, is_table tc q → rc s q = 0) as Hnew.
  { intros q Hq. destruct (pg_new _ _ _ _ _ _ _ _ Pg q Hq) as [(l & k & Hk)|Hq1].
    - simpl in Hk. apply lookup_singleton_Some in Hk as [_ <-]. apply A.
    - rewrite (al_rc _ _ _ A) in Hq1. by case_decide. }
  split_and!; [done|done| | |done].
  - eapply (space_transfer s2); [exact B2|apply C1|exact K3| |].
    + intros q Hq. split; [intros Hq'; exact (both_apart _ _ _ _ _ _ _ (conj B1 B2) Hq' Hq)|].
      unfold rc. rewrite F3. destruct Hq as (l & k & Hk). by eapply B2.
    + eapply accounts_eq; [apply C1|]. cbn [pml4].
      rewrite !gmultiset_disj_union_assoc. f_equal. apply gmultiset_disj_union_comm.
  - eapply keeps_trans with (own1 := λ q, q = c); [| exact K3| |done].
    + eapply keeps_trans; [eapply allocated_keeps; [done|apply HS]|apply Pg|done|].
      intros q _ (l & k & Hk). simpl in Hk. by apply lookup_singleton_Some in Hk as [_ <-].
    + intros q Hq ->. by rewrite (al_fresh _ _ _ A) in Hq.
Qed.
End fork.

(** * Properties *)

(** A translation with write permission withdrawn. *)
Definition trans_ro (tr : Translation) : Translation :=
  mkTrans (paddr tr) (prot_read_only (prot tr)) (supervisor tr).

Lemma trans_of_ro w e : 0 ≤ e < U64 → trans_of w (ro e) = trans_ro (trans_of w e).
Proof.
  intros He. destruct (ro_spec e He) as (_ & H1 & _ & H2 & H3).
  unfold trans_of, trans_ro. simpl. by rewrite H1, H2, H3.
Qed.

Lemma translate_ro s root t R lvs w :
  is_space s root t R → lv t = ro <$> lvs → (∀ n e, lvs !! n = Some e → 0 ≤ e < U64) →
  translate (mkSpace root) w s = Ok (trans_ro <$> (trans_of w <$> lvs !! vpn w), s).
Proof.
  intros HS Elv Hu. rewrite (translate_spec _ _ _ _ _ HS), Elv, lookup_fmap.
  destruct (lvs !! vpn w) as [e|] eqn:E; simpl; [|done].
  rewrite trans_of_ro by by eapply Hu. done.
Qed.

Lemma refs_ro s root t R :
  is_space s root t R → refs (mkTree (tbl t) (ro <$> lv t)) = refs t.
Proof.
  intros HS. unfold refs. simpl. do 2 f_equal. rewrite <- map_fmap_compose. apply map_fmap_ext.
  intros n e Hn. simpl. by apply ro_spec, (tr_leaf _ _ _ (sp_tree _ _ _ _ HS) n e).
Qed.

(** C2: copy-on-write fork. A fork either fails with every count and every live byte
    of the pool as before and the parent's tree untouched, or makes a child whose
    every address translates, like the parent's, to the frame the parent had there
    with write permission withdrawn on both sides, so neither can change memory the
    other sees through its own mapping; each shared frame has gained one reference
    per page mapping it, the child's tables are frames nobody owned, and no live
    frame but the parent's tables changes. *)
Theorem fork_spec s root t R :
  is_space s root t R →
  (∀ q, Z.of_nat (multiplicity q (refs t ⊎ refs t ⊎ R)) < PINNED - 1) →
  ∃ r s', fork_cow (mkSpace root) s = Ok (r, s')
    ∧ match r with
      | None => is_space s' root t R ∧ keeps (λ _, False) s s' ∧ (∀ q, rc s' q = rc s q)
      | Some c => ∃ t' tc, is_space s' root t' (refs tc ⊎ R) ∧ is_space s' (pml4 c) tc (refs t' ⊎ R)
          ∧ refs t' = refs t ∧ (∀ q, is_table tc q → rc s q = 0) ∧ keeps (is_table t) s s'
          ∧ ∀ w, let tr := trans_ro <$> (trans_of w <$> lv t !! vpn w) in
              translate (mkSpace root) w s' = Ok (tr, s') ∧ translate c w s' = Ok (tr, s')
      end.
Proof.
  intros HS Hb. destruct (fork_cow_ok s root t R HS Hb) as (r & s' & E & Hr).
  exists r, s'. split; [done|]. destruct r as [c|].
  - destruct Hr as (tc & Elv & HS1 & HS2 & K & Hnew).
    exists (mkTree (tbl t) (ro <$> lv t)), tc.
    pose proof (tr_leaf _ _ _ (sp_tree _ _ _ _ HS)) as Hl.
    split_and!; [done|done| |done|done|].
    + by eapply refs_ro.
    + intros w tr. unfold tr. destruct c as [rc]. simpl in HS2.
      split; eapply translate_ro; try done; intros n e Hn; by apply (Hl n e).
  - destruct Hr as [HS' K]. split_and!; [done|done|].
    apply (accounts_same s s' (refs t ⊎ R)); [apply HS|apply HS'|apply K].
Qed.

Lemma demo_bound t :
  is_space demo_mapped 4096 t ∅ → lv t = {[ 5 := demo_leaf ]} →
  ∀ q, Z.of_nat (multiplicity q (refs t ⊎ refs t ⊎ ∅)) < PINNED - 1.
Proof.
  intros HS Hlv q.
  assert (multiplicity q (vals (tbl t)) ≤ 1)%nat as H1.
  { destruct (decide (q ∈ vals (tbl t))) as [Hi|Hi].
    - apply elem_of_vals in Hi as [[l k] Hk]. apply (sp_once _ _ _ _ HS) in Hk as [-> _]. done.
    - apply not_elem_of_multiplicity in Hi. lia. }
  assert (multiplicity q (vals (frame_of_entry <$> lv t)) ≤ 1)%nat as H2.
  { rewrite Hlv, map_fmap_singleton. unfold vals. rewrite map_to_list_singleton. simpl.
    rewrite gmultiset_disj_union_right_id. rewrite multiplicity_singleton. case_decide; lia. }
  unfold refs. rewrite !multiplicity_disj_union, multiplicity_empty.
  change PINNED with 4294967295. lia.
Qed.

Lemma fork_spec_witness :
  result_of (fork_cow (mkSpace 4096) demo_mapped) = Some (Some (mkSpace 24576))
  ∧ ∃ t s' t' tc, lv t = {[ 5 := demo_leaf ]}
      ∧ is_space s' 4096 t' (refs tc ⊎ ∅) ∧ is_space s' 24576 tc (refs t' ⊎ ∅).
Proof.
  assert (result_of (fork_cow (mkSpace 4096) demo_mapped) = Some (Some (mkSpace 24576))) as C
    by (vm_compute; reflexivity).
  split; [exact C|]. destruct demo_mapped_space as (t & HS & Hlv).
  destruct (fork_spec demo_mapped 4096 t ∅ HS (demo_bound t HS Hlv)) as (r & s' & E & Hr).
  rewrite E in C. cbn in C. injection C as ->. destruct Hr as (t' & tc & H1 & H2 & _).
  exists t, s', t', tc. split_and!; [exact Hlv|exact H1|exact H2].
Defined.

(** Destroying a space gives back every reference it held and no other: each of its
    tables becomes free, each frame loses one reference per page that mapped it, what
    is left is what everybody else holds, and not a byte of the pool changes. *)
Theorem destroy_spec s root t R :
  is_space s root t R →
  ∃ s', space_destroy (mkSpace root) s = Ok (tt, s')
    ∧ phys s' = phys s ∧ pool_wf s' ∧ accounts s' R
    ∧ (∀ q, is_table t q → rc s' q = 0)
    ∧ ∀ q, rc s' q = if decide (rc s q = PINNED) then PINNED
                     else rc s q - Z.of_nat (multiplicity q (refs t)).
Proof.
  intros HS. destruct (space_destroy_ok _ _ _ _ HS) as (s' & E & [L1 L2 L3 L4]).
  exists s'.
  assert (∀ q, rc s' q = if decide (rc s q = PINNED) then PINNED
                     else rc s q - Z.of_nat (multiplicity q (refs t))) as Hrc.
  { intros q. case_decide as Hq; [by apply L3|].
    destruct (sp_acc _ _ _ _ HS q) as [|E0]; [done|]. destruct (L4 q) as [E1|E1]; [by apply L3 in E1|].
    rewrite multiplicity_disj_union in E0. lia. }
  split_and!; [done..| |done].
  intros q (l & k & Hk). rewrite Hrc. pose proof (sp_own _ _ _ _ HS _ _ _ Hk) as H1.
  rewrite decide_False by (rewrite H1; done). rewrite H1. unfold refs. rewrite multiplicity_disj_union.
  apply (sp_once _ _ _ _ HS) in Hk as (-> & -> & _). done.
Qed.

Lemma destroy_spec_witness :
  ∃ s', space_destroy (mkSpace 4096) demo_mapped = Ok (tt, s') ∧ accounts s' ∅.
Proof.
  destruct demo_mapped_space as (t & HS & _).
  destruct (destroy_spec demo_mapped 4096 t ∅ HS) as (s' & E & _ & _ & A & _).
  exists s'. split; [exact E|exact A].
Defined.

(** A forked child that exits gives everything back: after a successful fork and the
    destruction of the child, every frame's reference count is what it was before the
    fork, and the parent still owns its tree. *)
Theorem fork_destroy_roundtrip s root t R c s1 :
  is_space s root t R →
  (∀ q, Z.of_nat (multiplicity q (refs t ⊎ refs t ⊎ R)) < PINNED - 1) →
  fork_cow (mkSpace root) s = Ok (Some c, s1) →
  ∃ s2 t', space_destroy c s1 = Ok (tt, s2) ∧ is_space s2 root t' R
    ∧ lv t' = ro <$> lv t ∧ ∀ q, rc s2 q = rc s q.
Proof.
  intros HS Hb E. destruct (fork_cow_ok s root t R HS Hb) as (r & s' & E' & Hr).
  rewrite E in E'. injection E' as <- <-. destruct Hr as (tc & Elv & HS1 & HS2 & K & Hnew).
  destruct c as [c]. simpl in HS2.
  destruct (space_destroy_ok _ _ _ _ HS2) as (s2 & E2 & L). pose proof L as [L1 L2 L3 L4].
  exists s2, (mkTree (tbl t) (ro <$> lv t)).
  pose proof (refs_ro _ _ _ _ HS) as Er.
  assert (∀ q, rc s2 q = rc s q) as Hrc.
  { apply (accounts_same s s2 (refs t ⊎ R)); [apply HS|by rewrite <- Er|].
    intros q. by rewrite L3, (kp_pin _ _ _ K). }
  split_and!; [done| |done|done].
  split; [done|rewrite L1; apply HS1| |done].
  intros l k q Hk. rewrite Hrc. simpl in Hk. by eapply HS.
Qed.

Lemma fork_destroy_roundtrip_witness :
  ∃ c s1 s2 t t', lv t = {[ 5 := demo_leaf ]}
    ∧ fork_cow (mkSpace 4096) demo_mapped = Ok (Some c, s1)
    ∧ space_destroy c s1 = Ok (tt, s2) ∧ is_space s2 4096 t' ∅ ∧ lv t' = ro <$> lv t
    ∧ ∀ q, rc s2 q = rc demo_mapped q.
Proof.
  destruct demo_mapped_space as (t & HS & Hlv).
  assert (result_of (fork_cow (mkSpace 4096) demo_mapped) = Some (Some (mkSpace 24576))) as C
    by (vm_compute; reflexivity).
  destruct (fork_cow (mkSpace 4096) demo_mapped) as [[r s1]|] eqn:E; [|discriminate C].
  cbn in C. injection C as ->.
  destruct (fork_destroy_roundtrip demo_mapped 4096 t ∅ (mkSpace 24576) s1 HS (demo_bound t HS Hlv) E)
    as (s2 & t' & E2 & HS2 & Elv & Hrc).
  exists (mkSpace 24576), s1, s2, t, t'.
  split_and!; [exact Hlv|reflexivity|exact E2|exact HS2|exact Elv|exact Hrc].
Defined.
