(* ===== verification/PageVec.v ===== *)
(** Per-page tables of a sparse address space ([src/vcpu/pagevec.rs]): chunks that
    exist only once written. The chunks' copy-on-write sharing between clones is
    invisible to their contents, so a clone is the same value. The theorems show
    that the chunked table is a total function from page numbers to values. *)
From S2P Require Import Prelude.
From Stdlib Require Import Sorted.
From stdpp Require Import base numbers gmap sorting list.
Local Open Scope Z_scope.

Definition CHUNK : Z := 4096.
Definition CHUNK_SZ : nat := Z.to_nat CHUNK.

Record PageVec (T : Type) := mkPV {
  chunks : list (option (list T));
  pv_len : Z;
  pv_default : T
}.
Arguments mkPV {T}.
Arguments chunks {T}.
Arguments pv_len {T}.
Arguments pv_default {T}.

Section pagevec.
Context {T : Type} `{EqDecision T}.
Implicit Types (v : PageVec T) (p q : Z) (x : T).

(** [PageVec::new]. *)
Definition pv_new (len : Z) (d : T) : PageVec T :=
  mkPV (replicate (Z.to_nat (div_ceil len CHUNK)) None) len d.

(** [Index::index]. *)
Definition pv_index v p : res T :=
  if p <? pv_len v then
    Ok match chunks v !! Z.to_nat (p / CHUNK) with
       | Some (Some chunk) => nth (Z.to_nat (p mod CHUNK)) chunk (pv_default v)
       | _ => pv_default v
       end
  else Panic.

(** [PageVec::get]. *)
Definition pv_get v p : res (option T) :=
  if p <? pv_len v then x ← pv_index v p; mret (Some x) else mret None.

(** [PageVec::clear]. *)
Definition pv_clear v : PageVec T := mkPV [] (pv_len v) (pv_default v).

(** [*IndexMut::index_mut(p) = x]. *)
Definition pv_set v p x : res (PageVec T) :=
  if p <? pv_len v then
    let cs := match chunks v with
              | [] => replicate (Z.to_nat (div_ceil (pv_len v) CHUNK)) None
              | cs => cs
              end in
    let c := Z.to_nat (p / CHUNK) in
    match cs !! c with
    | None => Panic
    | Some o =>
      let chunk := default (replicate CHUNK_SZ (pv_default v)) o in
      Ok (mkPV (<[c := Some (<[Z.to_nat (p mod CHUNK) := x]> chunk)]> cs)
               (pv_len v) (pv_default v))
    end
  else Panic.

(** The entries of one chunk, the first at page [base]. *)
Fixpoint chunk_entries (d : T) (base : Z) (chunk : list T) : list (Z * T) :=
  match chunk with
  | [] => []
  | x :: chunk =>
    (if decide (x = d) then [] else [(base, x)]) ++ chunk_entries d (base + 1) chunk
  end.
Fixpoint chunks_entries (d : T) (base : Z) (cs : list (option (list T))) : list (Z * T) :=
  match cs with
  | [] => []
  | o :: cs =>
    from_option (chunk_entries d base) [] o ++ chunks_entries d (base + CHUNK) cs
  end.

(** [PageVec::non_default]. *)
Definition pv_non_default v : list (Z * T) := chunks_entries (pv_default v) 0 (chunks v).

(** * Invariant *)

(** What page [p] holds, whether or not it is in range. *)
Definition pv_val v p : T :=
  match chunks v !! Z.to_nat (p / CHUNK) with
  | Some (Some chunk) => nth (Z.to_nat (p mod CHUNK)) chunk (pv_default v)
  | _ => pv_default v
  end.

Record pv_wf v : Prop := {
  pvw_nonneg : 0 ≤ pv_len v;
  pvw_table : chunks v = [] ∨ length (chunks v) = Z.to_nat (div_ceil (pv_len v) CHUNK);
  pvw_chunk c : Some c ∈ chunks v → length c = CHUNK_SZ;
  pvw_tail p : pv_len v ≤ p → pv_val v p = pv_default v
}.

Lemma pv_index_val v p : p < pv_len v → pv_index v p = Ok (pv_val v p).
Proof. intros Hp. unfold pv_index. destruct (Z.ltb_spec p (pv_len v)); [done|lia]. Qed.

Lemma pv_val_empty v p : chunks v = [] → pv_val v p = pv_default v.
Proof. intros E. unfold pv_val. by rewrite E. Qed.

Lemma pv_new_wf len d : 0 ≤ len → pv_wf (pv_new len d).
Proof.
  intros Hl. split; simpl; [done|right; apply length_replicate| |].
  - intros c [? _]%elem_of_replicate. done.
  - intros p _. unfold pv_val. simpl.
    destruct (replicate _ None !! _) as [[c|]|] eqn:E; try done.
    by apply lookup_replicate in E as [? _].
Qed.

Lemma pv_new_val len d p : pv_val (pv_new len d) p = d.
Proof.
  unfold pv_val. simpl. destruct (replicate _ None !! _) as [[c|]|] eqn:E; try done.
  by apply lookup_replicate in E as [? _].
Qed.

Lemma pv_clear_wf v : pv_wf v → pv_wf (pv_clear v).
Proof.
  intros [H1 H2 H3 H4]. split; simpl; [done|by left| |].
  - intros c Hc. by apply elem_of_nil in Hc.
  - done.
Qed.

Lemma chunk_coords p q :
  0 ≤ p → 0 ≤ q →
  Z.to_nat (p / CHUNK) = Z.to_nat (q / CHUNK) → Z.to_nat (p mod CHUNK) = Z.to_nat (q mod CHUNK) →
  p = q.
Proof. unfold CHUNK. intros. divlia. Qed.

(** Writing one page, as the chunked table does it. *)
Lemma pv_set_spec v p x :
  pv_wf v → 0 ≤ p < pv_len v →
  ∃ v', pv_set v p x = Ok v' ∧ pv_wf v' ∧ pv_len v' = pv_len v ∧ pv_default v' = pv_default v
    ∧ ∀ q, 0 ≤ q → pv_val v' q = if decide (q = p) then x else pv_val v q.
Proof.
  intros [H1 H2 H3 H4] Hp. unfold pv_set. destruct (Z.ltb_spec p (pv_len v)); [|lia].
  set (cs := match chunks v with [] => replicate _ None | _ => _ end).
  assert (length cs = Z.to_nat (div_ceil (pv_len v) CHUNK)) as Hcs.
  { unfold cs. destruct (chunks v) as [|o l] eqn:E; [apply length_replicate|]. by destruct H2. }
  assert (∀ c, Some c ∈ cs → length c = CHUNK_SZ) as Hlen.
  { unfold cs. destruct (chunks v) as [|o l] eqn:E; [|apply H3].
    intros c [? _]%elem_of_replicate. done. }
  assert (∀ q, pv_val v q = match cs !! Z.to_nat (q / CHUNK) with
    | Some (Some chunk) => nth (Z.to_nat (q mod CHUNK)) chunk (pv_default v)
    | _ => pv_default v end) as Hval.
  { intros q. unfold pv_val, cs. destruct (chunks v) as [|o l]; [|done]. simpl.
    destruct (replicate _ None !! _) as [[c|]|] eqn:E; try done.
    by apply lookup_replicate in E as [? _]. }
  assert (Z.to_nat (p / CHUNK) < length cs)%nat as Hc.
  { rewrite Hcs. unfold div_ceil, CHUNK. divlia. }
  destruct (lookup_lt_is_Some_2 cs _ Hc) as [o Ho]. rewrite Ho.
  eexists. split; [done|]. set (chunk := default _ o).
  assert (length chunk = CHUNK_SZ) as Hchunk.
  { unfold chunk. destruct o as [c|]; cbn [default from_option]; [|apply length_replicate].
    apply Hlen. by eapply list_elem_of_lookup_2. }
  assert (∀ i, nth i chunk (pv_default v) = match o with
     Some c => nth i c (pv_default v) | None => pv_default v end) as Hnth.
  { intros i. unfold chunk. destruct o as [c|]; cbn [default from_option]; [done|].
    rewrite nth_lookup. destruct (replicate _ _ !! i) as [y|] eqn:E; [|done].
    by apply lookup_replicate in E as [-> _]. }
  clearbody cs chunk.
  assert (∀ q, 0 ≤ q → pv_val (mkPV (<[Z.to_nat (p / CHUNK) :=
      Some (<[Z.to_nat (p mod CHUNK) := x]> chunk)]> cs) (pv_len v) (pv_default v)) q
    = if decide (q = p) then x else pv_val v q) as Hnew.
  { intros q Hq. rewrite Hval. unfold pv_val. simpl.
    destruct (decide (Z.to_nat (q / CHUNK) = Z.to_nat (p / CHUNK))) as [E|E].
    - rewrite E, list_lookup_insert_eq by done. rewrite Ho.
      destruct (decide (Z.to_nat (q mod CHUNK) = Z.to_nat (p mod CHUNK))) as [E'|E'].
      + rewrite decide_True by (apply chunk_coords; lia || done). rewrite E'.
        rewrite nth_lookup, list_lookup_insert_eq; [done|]. rewrite Hchunk.
        unfold CHUNK_SZ, CHUNK. divlia.
      + rewrite decide_False by naive_solver. rewrite nth_lookup.
        rewrite list_lookup_insert_ne by done. rewrite <- nth_lookup, Hnth. by destruct o.
    - rewrite list_lookup_insert_ne by done. by rewrite decide_False by naive_solver. }
  split_and!; [|done|done|exact Hnew]. split; simpl; [done| | |].
  - right. by rewrite length_insert.
  - intros c [i Hi]%list_elem_of_lookup.
    apply list_lookup_insert_Some in Hi as [(_ & [= <-] & _)|[_ Hi]].
    + by rewrite length_insert.
    + apply Hlen. by eapply list_elem_of_lookup_2.
  - intros q Hq. rewrite Hnew by lia. rewrite decide_False by lia. by apply H4.
Qed.

(** * Enumeration *)

Lemma elem_of_chunk_entries d base chunk q x :
  (q, x) ∈ chunk_entries d base chunk ↔
    base ≤ q < base + Z.of_nat (length chunk)
    ∧ nth (Z.to_nat (q - base)) chunk d = x ∧ x ≠ d.
Proof.
  revert base; induction chunk as [|y chunk IH]; intros base; simpl.
  - rewrite elem_of_nil. lia.
  - rewrite elem_of_app, IH. destruct (decide (q = base)) as [->|Hne].
    + rewrite Z.sub_diag. simpl. case_decide; [rewrite elem_of_nil|rewrite list_elem_of_singleton];
        naive_solver lia.
    + destruct (decide (base < q)) as [Hlt|Hlt].
      * replace (Z.to_nat (q - base)) with (S (Z.to_nat (q - (base + 1)))) by lia. simpl.
        split; [|naive_solver lia].
        intros [Hin|?]; [|naive_solver lia].
        exfalso. revert Hin. case_decide; [rewrite elem_of_nil|rewrite list_elem_of_singleton];
          naive_solver.
      * split; [|lia]. intros [Hin|?]; [|lia]. exfalso. revert Hin.
        case_decide; [rewrite elem_of_nil|rewrite list_elem_of_singleton]; naive_solver.
Qed.

Lemma elem_of_chunks_entries d base cs q x :
  (∀ c, Some c ∈ cs → length c = CHUNK_SZ) →
  (q, x) ∈ chunks_entries d base cs ↔
    base ≤ q ∧ x ≠ d ∧ match cs !! Z.to_nat ((q - base) / CHUNK) with
                       | Some (Some c) => nth (Z.to_nat ((q - base) mod CHUNK)) c d = x
                       | _ => False end.
Proof.
  revert base; induction cs as [|o cs IH]; intros base Hlen; simpl.
  - rewrite elem_of_nil. naive_solver.
  - rewrite elem_of_app, IH by (intros c Hc; apply Hlen; by apply elem_of_cons; right).
    assert (CHUNK = Z.of_nat CHUNK_SZ) as HC by done.
    destruct (decide (base ≤ q)) as [Hb|Hb].
    2: { split; [|naive_solver]. intros [Hin|?]; [|unfold CHUNK in *; naive_solver lia].
         destruct o as [c|]; simpl in Hin; [|by apply elem_of_nil in Hin].
         apply elem_of_chunk_entries in Hin. lia. }
    destruct (decide (q < base + CHUNK)) as [Hq|Hq].
    + rewrite (Z.div_small (q - base)), (Z.mod_small (q - base)) by lia. simpl.
      destruct o as [c|]; simpl; [|rewrite elem_of_nil; naive_solver lia].
      rewrite elem_of_chunk_entries, (Hlen c) by (apply elem_of_cons; by left).
      rewrite <- HC. naive_solver lia.
    + replace (Z.to_nat ((q - base) / CHUNK)) with (S (Z.to_nat ((q - (base + CHUNK)) / CHUNK)))
        by (unfold CHUNK in *; divlia).
      replace ((q - base) mod CHUNK) with ((q - (base + CHUNK)) mod CHUNK)
        by (unfold CHUNK in *; divlia).
      simpl. split.
      * intros [Hin|?]; [|naive_solver]. destruct o as [c|]; simpl in Hin; [|by apply elem_of_nil in Hin].
        apply elem_of_chunk_entries in Hin as [Hr _].
        rewrite (Hlen c) in Hr by (apply elem_of_cons; by left). lia.
      * intros (? & ? & ?). right. split_and!; [lia|done|done].
Qed.

Lemma pv_non_default_spec v q x :
  pv_wf v →
  (q, x) ∈ pv_non_default v ↔ 0 ≤ q < pv_len v ∧ pv_val v q = x ∧ x ≠ pv_default v.
Proof.
  intros [H1 H2 H3 H4]. unfold pv_non_default. rewrite elem_of_chunks_entries by done.
  rewrite !Z.sub_0_r. split.
  - intros (Hq & Hx & Hm). assert (pv_val v q = x) as Hv.
    { unfold pv_val. by destruct (chunks v !! _) as [[c|]|]. }
    split_and!; [done| |done|done]. destruct (decide (q < pv_len v)); [done|].
    rewrite H4 in Hv by lia. by subst.
  - intros (Hq & Hv & Hx). split_and!; [lia|done|]. unfold pv_val in Hv.
    destruct (chunks v !! _) as [[c|]|]; [done|by destruct Hx..].
Qed.

(** The pages are listed in increasing order. *)
Lemma chunk_entries_sorted d base chunk : StronglySorted Z.lt (chunk_entries d base chunk).*1.
Proof.
  revert base; induction chunk as [|y chunk IH]; intros base; simpl; [constructor|].
  case_decide; simpl; [apply IH|]. constructor; [apply IH|].
  apply Forall_forall. intros q ([q' x] & -> & Hq)%list_elem_of_fmap.
  apply elem_of_chunk_entries in Hq. simpl. lia.
Qed.

Lemma chunks_entries_sorted d base cs :
  (∀ c, Some c ∈ cs → length c = CHUNK_SZ) → StronglySorted Z.lt (chunks_entries d base cs).*1.
Proof.
  revert base; induction cs as [|o cs IH]; intros base Hlen; simpl; [constructor|].
  rewrite fmap_app. apply StronglySorted_app_2; [| |apply IH].
  - intros q q' ([a x] & -> & Hq)%list_elem_of_fmap ([b y] & -> & Hq')%list_elem_of_fmap. simpl.
    apply elem_of_chunks_entries in Hq' as [Hq' _];
      [|intros c Hc; apply Hlen; by apply elem_of_cons; right].
    destruct o as [c|]; simpl in Hq; [|by apply elem_of_nil in Hq].
    apply elem_of_chunk_entries in Hq as [Hq _].
    rewrite (Hlen c) in Hq by (apply elem_of_cons; by left).
    change (Z.of_nat CHUNK_SZ) with CHUNK in Hq. lia.
  - destruct o as [c|]; simpl; [apply chunk_entries_sorted|constructor].
  - intros c Hc. apply Hlen. apply elem_of_cons. by right.
Qed.

(** * Refinement *)

Inductive pv_op := PSet (p : Z) (x : T) | PClear.

Fixpoint pv_run v (ops : list pv_op) : res (PageVec T) :=
  match ops with
  | [] => Ok v
  | PSet p x :: ops => v' ← pv_set v p x; pv_run v' ops
  | PClear :: ops => pv_run (pv_clear v) ops
  end.

(** The table as a function on page numbers. *)
Fixpoint fn_run (d : T) (f : Z → T) (ops : list pv_op) : Z → T :=
  match ops with
  | [] => f
  | PSet p x :: ops => fn_run d (λ q, if decide (q = p) then x else f q) ops
  | PClear :: ops => fn_run d (λ _, d) ops
  end.

Definition op_ok (len : Z) (o : pv_op) : Prop :=
  match o with PSet p _ => 0 ≤ p < len | PClear => True end.

Lemma pv_run_spec ops v f :
  pv_wf v → Forall (op_ok (pv_len v)) ops → (∀ q, 0 ≤ q → pv_val v q = f q) →
  ∃ v', pv_run v ops = Ok v' ∧ pv_wf v' ∧ pv_len v' = pv_len v ∧ pv_default v' = pv_default v
    ∧ ∀ q, 0 ≤ q → pv_val v' q = fn_run (pv_default v) f ops q.
Proof.
  revert v f; induction ops as [|[p x|] ops IH]; intros v f Hwf Hops Hf; simpl.
  - by exists v.
  - apply Forall_cons in Hops as [Hp Hops]. simpl in Hp.
    destruct (pv_set_spec v p x Hwf Hp) as (v1 & E & W1 & L1 & D1 & V1).
    unfold mbind, res_bind. rewrite E.
    destruct (IH v1 (λ q, if decide (q = p) then x else f q)) as (v2 & E2 & W2 & L2 & D2 & V2).
    + done.
    + by rewrite L1.
    + intros q Hq. rewrite V1 by done. by rewrite Hf.
    + exists v2. rewrite L2, D2, <- D1, L1. done.
  - apply Forall_cons in Hops as [_ Hops].
    destruct (IH (pv_clear v) (λ _, pv_default v)) as (v2 & E2 & W2 & L2 & D2 & V2).
    + by apply pv_clear_wf.
    + done.
    + done.
    + by exists v2.
Qed.
End pagevec.

(** The chunked table refines a function. After any in-range writes and resets of a
    fresh table, reading a page gives what a plain function updated the same way
    gives, reading or writing past the end is the only panic, and the enumeration
    of the pages that differ from the default is exact and in increasing order. *)
Theorem pagevec_refines {T} `{EqDecision T} len (d : T) (ops : list pv_op) :
  0 ≤ len → Forall (op_ok len) ops →
  ∃ v, pv_run (pv_new len d) ops = Ok v
    ∧ (∀ p, 0 ≤ p < len → pv_index v p = Ok (fn_run d (λ _, d) ops p))
    ∧ (∀ p x, len ≤ p → pv_index v p = Panic ∧ pv_set v p x = Panic)
    ∧ (∀ p x, (p, x) ∈ pv_non_default v ↔
         0 ≤ p < len ∧ fn_run d (λ _, d) ops p = x ∧ x ≠ d)
    ∧ StronglySorted Z.lt (pv_non_default v).*1.
Proof.
  intros Hl Hops.
  destruct (pv_run_spec ops (pv_new len d) (λ _, d)) as (v & E & W & L & D & V).
  { by apply pv_new_wf. } { done. } { intros q _. apply pv_new_val. }
  simpl in L, D, V. exists v. split_and!; [done|..].
  - intros p Hp. rewrite pv_index_val by lia. rewrite V by lia. done.
  - intros p x Hp. unfold pv_index, pv_set. destruct (Z.ltb_spec p (pv_len v)); [lia|done].
  - intros p x. rewrite pv_non_default_spec by done. rewrite L, D.
    split; intros (Hp & Hv & Hx); pose proof (V p ltac:(lia)); split_and!; congruence || lia.
  - apply chunks_entries_sorted, W.
Qed.

Lemma pagevec_refines_witness :
  ∃ v, pv_run (pv_new 8 0) [PSet 3 7; PClear; PSet 5 9] = Ok v
    ∧ (∀ p x, (p, x) ∈ pv_non_default v ↔
         0 ≤ p < 8 ∧ fn_run 0 (λ _, 0) [PSet 3 7; PClear; PSet 5 9] p = x ∧ x ≠ 0).
Proof.
  destruct (pagevec_refines 8 0 [PSet 3 7; PClear; PSet 5 9]) as (v & E & _ & _ & Hn & _).
  - lia.
  - repeat (apply List.Forall_cons; [simpl; lia || exact I|]). apply List.Forall_nil.
  - exists v. split; [exact E|exact Hn].
Defined.
