(* ===== verification/PageLocks.v ===== *)
(** The pages an address space has locked ([src/vcpu/pagelocks.rs]), kept as disjoint
    page ranges. The theorems show that the ranges represent a set of pages, on which
    the operations are union, difference and counting. *)
From S2P Require Import Prelude.
From Stdlib Require Import Sorted.
From stdpp Require Import base numbers gmap sorting list.
Local Open Scope Z_scope.

(** * Ordered maps

    A [BTreeMap<usize, V>] as a finite map with its entries in key order. *)

Definition key_le {V} (x y : Z * V) : Prop := x.1 ≤ y.1.
Global Instance key_le_dec {V} (x y : Z * V) : Decision (key_le x y).
Proof. unfold key_le. apply _. Defined.
Global Instance key_le_total {V} : Total (@key_le V).
Proof. intros x y. unfold key_le. lia. Qed.
Global Instance key_le_trans {V} : Transitive (@key_le V).
Proof. intros x y z. unfold key_le. lia. Qed.

Definition bt_list {V} (m : gmap Z V) : list (Z * V) := merge_sort key_le (map_to_list m).

(** [range(lo..hi)] and the last entry of [range(..hi)]. *)
Definition bt_range {V} (m : gmap Z V) (lo hi : Z) : list (Z * V) :=
  filter (λ x, lo ≤ x.1 < hi) (bt_list m).
Definition bt_last_below {V} (m : gmap Z V) (hi : Z) : option (Z * V) :=
  last (filter (λ x, x.1 < hi) (bt_list m)).

(** [usize] subtraction, which panics (or wraps) below zero. *)
Definition usub (a b : Z) : res Z := if b <=? a then Ok (a - b) else Panic.

(** * The structure *)

Record PageLocks := mkPL { ranges : gmap Z Z; pages : Z; future : bool }.

Definition pl_default : PageLocks := mkPL ∅ 0 false.

(** [PageLocks::pages]. *)
Definition pl_pages (l : PageLocks) : Z := pages l.

(** [PageLocks::locked_within]. *)
Fixpoint add_overlaps (stop : Z) (rs : list (Z * Z)) (n : Z) : res Z :=
  match rs with
  | [] => Ok n
  | (s, e) :: rs => d ← usub (Z.min e stop) s; add_overlaps stop rs (n + d)
  end.
Definition pl_locked_within (l : PageLocks) (start stop : Z) : res Z :=
  let n := match bt_last_below (ranges l) (start + 1) with
           | Some (_, e) => sat_sub (Z.min e stop) start
           | None => 0
           end in
  if start + 1 <=? stop then add_overlaps stop (bt_range (ranges l) (start + 1) stop) n else Panic.

(** One absorbed range of [insert]. *)
Fixpoint absorb (rs : list (Z * Z)) (m : gmap Z Z) (n stop : Z) : res (gmap Z Z * Z * Z) :=
  match rs with
  | [] => Ok (m, n, stop)
  | (s, e) :: rs => d ← usub e s; n' ← usub n d; absorb rs (delete s m) n' (Z.max stop e)
  end.

(** [PageLocks::insert]. *)
Definition pl_insert (l : PageLocks) (start stop : Z) : res PageLocks :=
  if stop <=? start then Ok l
  else
    head ← match bt_last_below (ranges l) (start + 1) with
           | Some (s, e) =>
             if start <=? e then
               d ← usub e s; n ← usub (pages l) d;
               Ok (delete s (ranges l), n, s, Z.max stop e)
             else Ok (ranges l, pages l, start, stop)
           | None => Ok (ranges l, pages l, start, stop)
           end;
    let '(m, n, start, stop) := head in
    tail ← absorb (bt_range m start (stop + 1)) m n stop;
    let '(m, n, stop) := tail in
    d ← usub stop start;
    Ok (mkPL (<[start := stop]> m) (n + d) (future l)).

(** One range of [remove]'s loop. *)
Definition cut (start stop : Z) (x : Z * Z) (st : gmap Z Z * Z) : res (gmap Z Z * Z) :=
  let '(s, e) := x in
  let '(m, n) := st in
  d ← usub e s;
  n ← usub n d;
  let m := delete s m in
  let '(m, n) := if s <? start then (<[s := start]> m, n + (start - s)) else (m, n) in
  Ok (if stop <? e then (<[stop := e]> m, n + (e - stop)) else (m, n)).
Fixpoint cuts (start stop : Z) (rs : list (Z * Z)) (st : gmap Z Z * Z) : res (gmap Z Z * Z) :=
  match rs with
  | [] => Ok st
  | x :: rs => st ← cut start stop x st; cuts start stop rs st
  end.

(** [PageLocks::remove]. *)
Definition pl_remove (l : PageLocks) (start stop : Z) : res PageLocks :=
  if stop <=? start then Ok l
  else
    let hit := match bt_last_below (ranges l) start with
               | Some (s, e) => if start <? e then [(s, e)] else []
               | None => []
               end ++ bt_range (ranges l) start stop in
    st ← cuts start stop hit (ranges l, pages l);
    Ok (mkPL st.1 st.2 (future l)).

(** [PageLocks::clear]. *)
Definition pl_clear (l : PageLocks) : PageLocks := pl_default.

(** * Ordered-map lemmas *)

Lemma elem_of_bt_list {V} (m : gmap Z V) k v : (k, v) ∈ bt_list m ↔ m !! k = Some v.
Proof. unfold bt_list. rewrite merge_sort_Permutation. apply elem_of_map_to_list. Qed.

Lemma elem_of_bt_range {V} (m : gmap Z V) lo hi k v :
  (k, v) ∈ bt_range m lo hi ↔ lo ≤ k < hi ∧ m !! k = Some v.
Proof. unfold bt_range. rewrite list_elem_of_filter, elem_of_bt_list. done. Qed.

Lemma NoDup_bt_list {V} (m : gmap Z V) : NoDup (bt_list m).*1.
Proof.
  unfold bt_list. rewrite merge_sort_Permutation. apply NoDup_fst_map_to_list.
Qed.

Lemma NoDup_bt_range {V} (m : gmap Z V) lo hi : NoDup (bt_range m lo hi).*1.
Proof.
  unfold bt_range. generalize (NoDup_bt_list m). generalize (bt_list m).
  induction l as [|x l IH]; simpl; [done|]. intros [Hx Hl]%NoDup_cons. rewrite filter_cons.
  case_decide; [|by apply IH]. simpl. apply NoDup_cons. split; [|by apply IH].
  intros (y & E & Hy)%list_elem_of_fmap. apply list_elem_of_filter in Hy as [_ Hy].
  apply Hx. rewrite E. by apply list_elem_of_fmap_2.
Qed.

Lemma sorted_last_max {V} (l : list (Z * V)) x :
  StronglySorted key_le l → last l = Some x → x ∈ l ∧ ∀ y, y ∈ l → y.1 ≤ x.1.
Proof.
  intros Hs Hl. apply last_Some in Hl as [l' ->]. apply StronglySorted_app in Hs as (H & _ & _).
  split; [set_solver|]. intros y Hy. apply elem_of_app in Hy as [Hy|Hy].
  - apply H; [done|set_solver].
  - apply list_elem_of_singleton in Hy as ->. lia.
Qed.

Lemma StronglySorted_filter {A} (R : A → A → Prop) (P : A → Prop) `{∀ x, Decision (P x)} l :
  StronglySorted R l → StronglySorted R (filter P l).
Proof.
  induction 1 as [|x l Hl IH Hx]; [constructor|]. rewrite filter_cons. case_decide; [|done].
  constructor; [done|]. rewrite Forall_forall in *. intros y [_ Hy]%list_elem_of_filter.
  by apply Hx.
Qed.

Lemma bt_last_below_spec {V} (m : gmap Z V) hi :
  match bt_last_below m hi with
  | Some (k, v) => m !! k = Some v ∧ k < hi ∧ ∀ k' v', m !! k' = Some v' → k' < hi → k' ≤ k
  | None => ∀ k' v', m !! k' = Some v' → ¬ k' < hi
  end.
Proof.
  unfold bt_last_below. destruct (last _) as [[k v]|] eqn:E.
  - apply sorted_last_max in E as [Hin Hmax];
      [|apply StronglySorted_filter; apply StronglySorted_merge_sort; apply _].
    apply list_elem_of_filter in Hin as [Hk Hin]. apply elem_of_bt_list in Hin.
    split_and!; [done|done|]. intros k' v' Hk' Hlt. apply (Hmax (k', v')).
    apply list_elem_of_filter. split; [done|]. by apply elem_of_bt_list.
  - apply last_None in E. intros k' v' Hk' Hlt.
    assert ((k', v') ∈ filter (λ x, x.1 < hi) (bt_list m)) as Hin.
    { apply list_elem_of_filter. split; [done|]. by apply elem_of_bt_list. }
    rewrite E in Hin. by apply elem_of_nil in Hin.
Qed.

(** * Sums over the entries *)

Definition sumf {A} (f : A → Z) (l : list A) : Z := foldr (λ x acc, f x + acc) 0 l.
Definition msumf {V} (f : Z * V → Z) (m : gmap Z V) : Z := sumf f (map_to_list m).

Lemma sumf_app {A} (f : A → Z) l1 l2 : sumf f (l1 ++ l2) = sumf f l1 + sumf f l2.
Proof. induction l1 as [|x l1 IH]; simpl; [done|]. rewrite IH. lia. Qed.

Global Instance sumf_perm {A} (f : A → Z) : Proper ((≡ₚ) ==> (=)) (sumf f).
Proof. induction 1; simpl; lia. Qed.

Lemma sumf_ext {A} (f g : A → Z) l : (∀ x, x ∈ l → f x = g x) → sumf f l = sumf g l.
Proof.
  induction l as [|x l IH]; intros H; simpl; [done|].
  rewrite H, IH; [done|intros y Hy; apply H; by apply elem_of_cons; right|by apply elem_of_cons; left].
Qed.

Lemma sumf_zero {A} (f : A → Z) l : (∀ x, x ∈ l → f x = 0) → sumf f l = 0.
Proof.
  intros H. rewrite (sumf_ext f (λ _, 0)) by done. induction l; simpl; [done|].
  rewrite IHl; [done|]. intros x Hx. apply H. apply elem_of_cons. by right.
Qed.

Lemma sumf_filter {A} (f : A → Z) (P : A → Prop) `{∀ x, Decision (P x)} l :
  sumf f l = sumf f (filter P l) + sumf f (filter (λ x, ¬ P x) l).
Proof.
  induction l as [|x l IH]; simpl; [done|]. rewrite !filter_cons.
  destruct (decide (P x)), (decide (¬ P x)); try tauto; simpl; lia.
Qed.

Lemma msumf_insert {V} (f : Z * V → Z) m k v :
  m !! k = None → msumf f (<[k := v]> m) = f (k, v) + msumf f m.
Proof. intros Hk. unfold msumf. by rewrite map_to_list_insert. Qed.

Lemma msumf_delete {V} (f : Z * V → Z) m k v :
  m !! k = Some v → msumf f m = f (k, v) + msumf f (delete k m).
Proof.
  intros Hk. rewrite <- msumf_insert by apply lookup_delete_eq. by rewrite insert_delete_id.
Qed.

Lemma msumf_bt {V} (f : Z * V → Z) m : msumf f m = sumf f (bt_list m).
Proof. unfold msumf, bt_list. by rewrite merge_sort_Permutation. Qed.

Lemma msumf_nonneg {V} (f : Z * V → Z) m :
  (∀ k v, m !! k = Some v → 0 ≤ f (k, v)) → 0 ≤ msumf f m.
Proof.
  induction m as [|k v m Hk IH] using map_ind; intros H; [done|].
  rewrite msumf_insert by done. assert (0 ≤ f (k, v)) by (apply H, lookup_insert_eq).
  assert (0 ≤ msumf f m); [|lia]. apply IH. intros k' v' Hk'. apply H.
  rewrite lookup_insert_ne; [done|]. intros ->. by rewrite Hk in Hk'.
Qed.

(** * The set the ranges represent *)

Definition cover (m : gmap Z Z) (p : Z) : Prop := ∃ s e, m !! s = Some e ∧ s ≤ p < e.

Record apart (m : gmap Z Z) : Prop := {
  ap_range s e : m !! s = Some e → 0 ≤ s < e;
  ap_gap s e s' e' : m !! s = Some e → m !! s' = Some e' → s < s' → e < s'
}.

Definition width (x : Z * Z) : Z := x.2 - x.1.
Definition total (m : gmap Z Z) : Z := msumf width m.

Record pl_wf (l : PageLocks) : Prop := {
  plw_apart : apart (ranges l);
  plw_pages : pages l = total (ranges l)
}.

Definition span_set (s e : Z) : gset Z := list_to_set (seqZ s (e - s)).
Definition page_set (m : gmap Z Z) : gset Z :=
  list_to_set (mjoin ((λ x, seqZ x.1 (x.2 - x.1)) <$> map_to_list m)).

Lemma elem_of_span_set p s e : p ∈ span_set s e ↔ s ≤ p < e.
Proof. unfold span_set. rewrite elem_of_list_to_set, elem_of_seqZ. lia. Qed.

Lemma elem_of_page_set p m : p ∈ page_set m ↔ cover m p.
Proof.
  unfold page_set, cover. rewrite elem_of_list_to_set, list_elem_of_join. split.
  - intros (l & Hp & ([s e] & -> & Hs%elem_of_map_to_list)%list_elem_of_fmap).
    apply elem_of_seqZ in Hp. exists s, e. split; [done|]. simpl in Hp. lia.
  - intros (s & e & Hs & Hp). exists (seqZ s (e - s)). split; [apply elem_of_seqZ; lia|].
    apply list_elem_of_fmap. exists (s, e). split; [done|]. by apply elem_of_map_to_list.
Qed.

(** Counting the pages of a window, entry by entry. *)
Definition clip (lo hi : Z) (x : Z * Z) : Z := Z.max 0 (Z.min x.2 hi - Z.max x.1 lo).

Lemma size_span_set s e : size (span_set s e) = Z.to_nat (e - s).
Proof.
  unfold span_set. rewrite size_list_to_set by apply NoDup_seqZ. apply length_seqZ.
Qed.

Lemma apart_delete m s : apart m → apart (delete s m).
Proof.
  intros [A1 A2]. split.
  - intros s' e [_ H]%lookup_delete_Some. by eapply A1.
  - intros s1 e1 s2 e2 [_ H1]%lookup_delete_Some [_ H2]%lookup_delete_Some. by eapply A2.
Qed.

Lemma size_window m lo hi :
  apart m →
  Z.of_nat (size (filter (λ p, lo ≤ p < hi) (page_set m))) = msumf (clip lo hi) m.
Proof.
  induction m as [|s e m Hs IH] using map_ind; intros A.
  - assert (page_set ∅ = ∅) as -> by by unfold page_set; rewrite map_to_list_empty.
    rewrite filter_empty_L by apply _. done.
  - rewrite msumf_insert by done. destruct A as [A1 A2].
    assert (apart m) as Am.
    { rewrite <- (delete_insert_id m s e) by done. by apply apart_delete. }
    rewrite <- IH by done.
    assert (filter (λ p, lo ≤ p < hi) (page_set (<[s := e]> m))
      = span_set (Z.max s lo) (Z.min e hi) ∪ filter (λ p, lo ≤ p < hi) (page_set m)) as ->.
    { apply set_eq. intros p. rewrite elem_of_union, !elem_of_filter, !elem_of_page_set, elem_of_span_set.
      unfold cover. split.
      - intros [Hp (s' & e' & Hs' & Hp')]. apply lookup_insert_Some in Hs' as [[<- <-]|[_ Hs']].
        + left. lia.
        + right. split; [done|]. by exists s', e'.
      - intros [Hp|[Hp (s' & e' & Hs' & Hp')]].
        + split; [lia|]. exists s, e. rewrite lookup_insert_eq. split; [done|lia].
        + split; [done|]. exists s', e'. split; [|done]. rewrite lookup_insert_ne; [done|].
          intros ->. by rewrite Hs in Hs'. }
    rewrite size_union, size_span_set; [unfold clip; simpl; lia|].
    intros p Hp1 Hp2. apply elem_of_span_set in Hp1.
    apply elem_of_filter in Hp2 as [_ Hp2]. apply elem_of_page_set in Hp2 as (s' & e' & Hs' & Hp').
    assert (s ≠ s') as Hne by (intros ->; by rewrite Hs in Hs').
    assert (<[s := e]> m !! s' = Some e') as Hs'' by by rewrite lookup_insert_ne.
    assert (<[s := e]> m !! s = Some e) as Hse by apply lookup_insert_eq.
    destruct (decide (s < s')) as [Hlt|Hlt].
    + pose proof (A2 _ _ _ _ Hse Hs'' Hlt). lia.
    + pose proof (A2 s' e' s e Hs'' Hse ltac:(lia)). lia.
Qed.

Lemma total_size m : apart m → total m = Z.of_nat (size (page_set m)).
Proof.
  intros A. destruct (decide (m = ∅)) as [->|Hne].
  { assert (page_set ∅ = ∅) as -> by by unfold page_set; rewrite map_to_list_empty. done. }
  unfold total. rewrite !msumf_bt.
  set (hi := foldr (λ x acc, Z.max x.2 acc) 0 (bt_list m)).
  assert (∀ s e, m !! s = Some e → e ≤ hi) as Hhi.
  { intros s e Hs. apply elem_of_bt_list in Hs. unfold hi. revert Hs.
    induction (bt_list m) as [|x l IH]; [intros Hs; by apply elem_of_nil in Hs|].
    intros [<-|Hs]%elem_of_cons; simpl; [lia|]. specialize (IH Hs). lia. }
  assert (page_set m = filter (λ p, 0 ≤ p < hi) (page_set m)) as ->.
  { apply set_eq. intros p. rewrite elem_of_filter, elem_of_page_set. split; [|naive_solver].
    intros Hp. split; [|done]. destruct Hp as (s & e & Hs & Hp).
    pose proof (Hhi s e Hs). pose proof (ap_range _ A s e Hs). lia. }
  rewrite size_window, msumf_bt by done. apply sumf_ext. intros [s e] Hs.
  apply elem_of_bt_list in Hs. pose proof (Hhi s e Hs). pose proof (ap_range _ A s e Hs).
  unfold width, clip. simpl. lia.
Qed.

(** * The operations on the set *)

Lemma usub_ok a b : b ≤ a → usub a b = Ok (a - b).
Proof. intros H. unfold usub. destruct (Z.leb_spec b a); [done|lia]. Qed.

Lemma total_delete m s e : m !! s = Some e → total m = (e - s) + total (delete s m).
Proof. apply msumf_delete. Qed.

Lemma total_insert m s e : m !! s = None → total (<[s := e]> m) = (e - s) + total m.
Proof. apply msumf_insert. Qed.

Lemma total_nonneg m : apart m → 0 ≤ total m.
Proof.
  intros A. apply msumf_nonneg. intros s e Hs. apply (ap_range _ A) in Hs. unfold width. simpl. lia.
Qed.

Lemma absorb_spec rs m stop :
  apart m → NoDup rs.*1 → (∀ s e, (s, e) ∈ rs → m !! s = Some e) →
  ∃ m' stop', absorb rs m (total m) stop = Ok (m', total m', stop')
    ∧ apart m' ∧ (∀ k, m' !! k = if decide (k ∈ rs.*1) then None else m !! k)
    ∧ stop ≤ stop' ∧ (∀ s e, (s, e) ∈ rs → e ≤ stop')
    ∧ (stop' = stop ∨ ∃ s, (s, stop') ∈ rs).
Proof.
  revert m stop; induction rs as [|[s e] rs IH]; intros m stop A ND Hin.
  - exists m, stop. split_and!; [done|done| |lia| |by left].
    + intros k. by rewrite decide_False by apply not_elem_of_nil.
    + intros s e Hs. by apply elem_of_nil in Hs.
  - apply NoDup_cons in ND as [Hs ND].
    assert (m !! s = Some e) as Hse by (apply Hin, elem_of_cons; by left).
    pose proof (ap_range _ A s e Hse). pose proof (total_nonneg _ (apart_delete _ s A)).
    pose proof (total_delete _ _ _ Hse) as Ht.
    cbn [absorb]. unfold mbind, res_bind. rewrite !usub_ok by lia.
    replace (total m - (e - s)) with (total (delete s m)) by lia.
    destruct (IH (delete s m) (Z.max stop e)) as (m' & stop' & E & A' & Hm' & H1 & H2 & H3).
    + by apply apart_delete.
    + done.
    + intros s' e' Hs'. apply lookup_delete_Some. split.
      * intros ->. apply Hs. simpl. apply list_elem_of_fmap. by exists (s', e').
      * apply Hin, elem_of_cons. by right.
    + exists m', stop'. split_and!; [done|done| |lia| |].
      * intros k. rewrite Hm'. cbn [fmap list_fmap fst].
        destruct (decide (k ∈ rs.*1)) as [Hk|Hk].
        -- rewrite decide_True; [done|]. apply elem_of_cons. by right.
        -- destruct (decide (k = s)) as [->|Hne].
           ++ rewrite decide_True; [apply lookup_delete_eq|]. apply elem_of_cons. by left.
           ++ rewrite lookup_delete_ne by done. rewrite decide_False; [done|].
              rewrite elem_of_cons. simpl. tauto.
      * intros s' e' [[= -> ->]|Hs']%elem_of_cons; [lia|by eapply H2].
      * destruct H3 as [->|[s' Hs']].
        -- destruct (decide (e ≤ stop)); [left; lia|]. right. exists s.
           rewrite Z.max_r by lia. apply elem_of_cons. by left.
        -- right. exists s'. apply elem_of_cons. by right.
Qed.

(** Inserting a range that leaves a gap to every other. *)
Lemma apart_insert m s e :
  apart m → 0 ≤ s < e → (∀ s' e', m !! s' = Some e' → e' < s ∨ e < s') →
  apart (<[s := e]> m).
Proof.
  intros A Hs Hgap. split.
  - intros s' e' [[<- <-]|[_ H]]%lookup_insert_Some; [done|by eapply A].
  - intros s1 e1 s2 e2 H1 H2 Hlt.
    apply lookup_insert_Some in H1 as [[<- <-]|[Hn1 H1]], H2 as [[<- <-]|[Hn2 H2]].
    + lia.
    + destruct (Hgap _ _ H2); [|lia]. pose proof (ap_range _ A _ _ H2). lia.
    + destruct (Hgap _ _ H1); lia.
    + exact (ap_gap _ A _ _ _ _ H1 H2 Hlt).
Qed.

(** The head of [insert]: what it starts the absorption from. *)
Lemma insert_head_spec l start stop :
  pl_wf l → 0 ≤ start < stop →
  ∃ m s0 e0,
    match bt_last_below (ranges l) (start + 1) with
    | Some (s, e) =>
      if start <=? e then
        d ← usub e s; n ← usub (pages l) d; Ok (delete s (ranges l), n, s, Z.max stop e)
      else Ok (ranges l, pages l, start, stop)
    | None => Ok (ranges l, pages l, start, stop)
    end = Ok (m, total m, s0, e0)
    ∧ apart m ∧ 0 ≤ s0 ≤ start ∧ stop ≤ e0
    ∧ (∀ p, cover m p ∨ s0 ≤ p < e0 ↔ cover (ranges l) p ∨ start ≤ p < stop)
    ∧ (∀ s e, m !! s = Some e → s < s0 → e < s0).
Proof.
  intros [A Hp] Hss. pose proof (bt_last_below_spec (ranges l) (start + 1)) as Hb.
  assert (∀ m, m = ranges l → (∀ s e, m !! s = Some e → s < start → e < start) →
    Ok (ranges l, pages l, start, stop) = Ok (m, total m, start, stop)
    ∧ apart m ∧ 0 ≤ start ≤ start ∧ stop ≤ stop
    ∧ (∀ p, cover m p ∨ start ≤ p < stop ↔ cover (ranges l) p ∨ start ≤ p < stop)
    ∧ (∀ s e, m !! s = Some e → s < start → e < start)) as Hsame.
  { intros m -> Hg. rewrite Hp. split_and!; [done..|lia|lia|lia|done|done]. }
  destruct (bt_last_below (ranges l) (start + 1)) as [[s e]|].
  - destruct Hb as (Hs & Hlt & Hmax). pose proof (ap_range _ A s e Hs).
    destruct (Z.leb_spec start e) as [Hle|Hle].
    + pose proof (total_delete _ _ _ Hs) as Ht. pose proof (total_nonneg _ (apart_delete _ s A)).
      unfold mbind, res_bind. rewrite !usub_ok by lia.
      exists (delete s (ranges l)), s, (Z.max stop e).
      replace (pages l - (e - s)) with (total (delete s (ranges l))) by lia.
      split_and!; [done|by apply apart_delete|lia|lia|lia| |].
      * intros p. unfold cover. split.
        -- intros [(s' & e' & [_ H']%lookup_delete_Some & Hp')|Hp'].
           ++ left. by exists s', e'.
           ++ destruct (decide (p < e)); [left; exists s, e; split; [done|lia]|right; lia].
        -- intros [(s' & e' & Hs' & Hp')|Hp']; [|right; lia].
           destruct (decide (s' = s)) as [->|Hne].
           ++ rewrite Hs in Hs'. simplify_eq. right. lia.
           ++ left. exists s', e'. rewrite lookup_delete_ne by done. done.
      * intros s' e' [_ Hs']%lookup_delete_Some Hlt'. by eapply (ap_gap _ A s' e').
    + exists (ranges l), start, stop. apply Hsame; [done|]. intros s' e' Hs' Hlt'.
      pose proof (Hmax s' e' Hs' ltac:(lia)). destruct (decide (s' = s)) as [->|].
      * rewrite Hs in Hs'. simplify_eq. lia.
      * pose proof (ap_gap _ A s' e' s e Hs' Hs ltac:(lia)). lia.
  - exists (ranges l), start, stop. apply Hsame; [done|]. intros s' e' Hs' Hlt'.
    exfalso. apply (Hb s' e' Hs'). lia.
Qed.

Lemma pl_insert_ok l start stop :
  pl_wf l → 0 ≤ start →
  ∃ l', pl_insert l start stop = Ok l' ∧ pl_wf l' ∧ future l' = future l
    ∧ ∀ p, cover (ranges l') p ↔ cover (ranges l) p ∨ start ≤ p < stop.
Proof.
  intros Hwf H0. unfold pl_insert. destruct (Z.leb_spec stop start) as [Hle|Hlt].
  { exists l. split_and!; [done..|]. intros p. split; [by left|]. intros [|]; [done|lia]. }
  destruct (insert_head_spec l start stop Hwf ltac:(lia))
    as (m & s0 & e0 & Eh & A & Hs0 & He0 & Hset & Hgap).
  unfold mbind at 1, res_bind at 1. rewrite Eh. cbn beta iota zeta.
  destruct (absorb_spec (bt_range m s0 (e0 + 1)) m e0 A (NoDup_bt_range _ _ _))
    as (m' & e' & Ea & A' & Hm' & H1 & H2 & H3).
  { intros s e Hs. by apply elem_of_bt_range in Hs as [_ Hs]. }
  unfold mbind at 1, res_bind at 1. rewrite Ea. cbn beta iota zeta.
  unfold mbind, res_bind. rewrite usub_ok by lia.
  assert (∀ k v, m' !! k = Some v ↔ m !! k = Some v ∧ ¬ (s0 ≤ k < e0 + 1)) as Hlk.
  { intros k v. rewrite Hm'. destruct (decide (k ∈ (bt_range m s0 (e0 + 1)).*1)) as [Hk|Hk].
    - apply list_elem_of_fmap in Hk as ([k' v'] & -> & Hk). apply elem_of_bt_range in Hk as [? _].
      simpl. naive_solver.
    - split; [|naive_solver]. intros Hv. split; [done|]. intros Hr. apply Hk.
      apply list_elem_of_fmap. exists (k, v). split; [done|]. by apply elem_of_bt_range. }
  assert (∀ s e, m' !! s = Some e → e < s0 ∨ e' < s) as Hgap'.
  { intros s e [Hs Hr]%Hlk. destruct (decide (s < s0)) as [Hlt'|Hge]; [left; by eapply Hgap|right].
    destruct H3 as [->|[s1 Hs1]]; [lia|]. apply elem_of_bt_range in Hs1 as [Hr1 Hs1].
    apply (ap_gap _ A s1 e' s e Hs1 Hs). lia. }
  assert (m' !! s0 = None) as Hnone.
  { apply eq_None_not_Some. intros [v Hv]. apply Hlk in Hv as [_ Hv]. lia. }
  eexists. split; [done|]. split_and!; [|done|].
  - split; simpl; [apply apart_insert; [done|lia|done]|]. rewrite total_insert by done. lia.
  - intros p. simpl. rewrite <- Hset. unfold cover. split.
    + intros (s & e & [[<- <-]|[_ Hs]]%lookup_insert_Some & Hp).
      * destruct (decide (p < e0)); [right; lia|]. destruct H3 as [->|[s1 Hs1]]; [lia|].
        apply elem_of_bt_range in Hs1 as [Hr1 Hs1]. left. exists s1, e'. split; [done|lia].
      * apply Hlk in Hs as [Hs _]. left. by exists s, e.
    + intros [(s & e & Hs & Hp)|Hp].
      * destruct (decide (s0 ≤ s < e0 + 1)) as [Hr|Hr].
        -- exists s0, e'. rewrite lookup_insert_eq. split; [done|].
           assert (e ≤ e') by (apply (H2 s), elem_of_bt_range; done). lia.
        -- exists s, e. split; [|done]. rewrite lookup_insert_ne by lia. by apply Hlk.
      * exists s0, e'. rewrite lookup_insert_eq. split; [done|lia].
Qed.

(** A range next to nothing else than a part of what it replaces. *)
Lemma cover_insert m s e p :
  m !! s = None → cover (<[s := e]> m) p ↔ s ≤ p < e ∨ cover m p.
Proof.
  intros Hs. unfold cover. split.
  - intros (s' & e' & [[<- <-]|[_ H]]%lookup_insert_Some & Hp); [by left|right; by exists s', e'].
  - intros [Hp|(s' & e' & H & Hp)].
    + exists s, e. by rewrite lookup_insert_eq.
    + exists s', e'. rewrite lookup_insert_ne; [done|]. intros ->. by rewrite Hs in H.
Qed.

Lemma cover_delete m s e p :
  apart m → m !! s = Some e → cover (delete s m) p ↔ cover m p ∧ ¬ s ≤ p < e.
Proof.
  intros A Hs. unfold cover. split.
  - intros (s' & e' & [Hne H]%lookup_delete_Some & Hp). split; [by exists s', e'|].
    destruct (decide (s < s')) as [Hl|Hl].
    + pose proof (ap_gap _ A _ _ _ _ Hs H Hl). lia.
    + pose proof (ap_gap _ A _ _ _ _ H Hs ltac:(lia)). lia.
  - intros [(s' & e' & H & Hp) Hn]. exists s', e'. split; [|done].
    apply lookup_delete_Some. split; [|done]. intros ->. rewrite Hs in H. naive_solver.
Qed.

Lemma others_apart m s e s' e' :
  apart m → m !! s = Some e → delete s m !! s' = Some e' → e' < s ∨ e < s'.
Proof.
  intros A Hs [Hne H]%lookup_delete_Some. destruct (decide (s < s')) as [Hl|Hl].
  - right. exact (ap_gap _ A _ _ _ _ Hs H Hl).
  - left. exact (ap_gap _ A _ _ _ _ H Hs ltac:(lia)).
Qed.

Lemma cut_spec start stop s e m :
  apart m → m !! s = Some e → 0 ≤ start < stop → s < stop → start < e →
  ∃ m', cut start stop (s, e) (m, total m) = Ok (m', total m') ∧ apart m'
    ∧ (∀ p, cover m' p ↔ cover m p ∧ ¬ (s ≤ p < e ∧ start ≤ p < stop))
    ∧ (∀ k, k ≠ s → k ≠ stop → m' !! k = m !! k).
Proof.
  intros A Hs Hr Hs1 He1. pose proof (ap_range _ A s e Hs) as Hse.
  pose proof (total_delete _ _ _ Hs) as Ht. pose proof (total_nonneg _ (apart_delete _ s A)).
  cbn [cut]. unfold mbind, res_bind. rewrite !usub_ok by lia.
  replace (total m - (e - s)) with (total (delete s m)) by lia.
  pose proof (apart_delete _ s A) as Ad. pose proof (others_apart m s e) as Ho.
  (* the left part *)
  assert (∃ m1, (if s <? start then (<[s := start]> (delete s m), total (delete s m) + (start - s))
                 else (delete s m, total (delete s m))) = (m1, total m1)
    ∧ apart m1 ∧ (∀ p, cover m1 p ↔ cover (delete s m) p ∨ s ≤ p < start)
    ∧ (∀ k v, m1 !! k = Some v → v < s ∨ e < k ∨ (k = s ∧ v = start))
    ∧ (∀ k, k ≠ s → m1 !! k = m !! k)) as (m1 & -> & A1 & C1 & G1 & K1).
  { destruct (Z.ltb_spec s start) as [Hl|Hl].
    - exists (<[s := start]> (delete s m)). split_and!.
      + rewrite total_insert by apply lookup_delete_eq. f_equal. lia.
      + apply apart_insert; [done|lia|]. intros s' e' H'.
        destruct (Ho s' e' A Hs H'); [by left|right; lia].
      + intros p. rewrite cover_insert by apply lookup_delete_eq. tauto.
      + intros k v [[<- <-]|[_ H']]%lookup_insert_Some; [naive_solver|].
        destruct (Ho k v A Hs H'); [by left|right; by left].
      + intros k Hk. by rewrite lookup_insert_ne, lookup_delete_ne by done.
    - exists (delete s m). split_and!; [done|done| | |].
      + intros p. split; [by left|]. intros [|]; [done|lia].
      + intros k v H'. destruct (Ho k v A Hs H'); [by left|right; by left].
      + intros k Hk. by rewrite lookup_delete_ne. }
  (* the right part *)
  assert (∀ p, cover m1 p ∨ (stop ≤ p < e) ↔ cover m p ∧ ¬ (s ≤ p < e ∧ start ≤ p < stop)) as Hfin.
  { intros p. rewrite C1, (cover_delete _ _ _ _ A Hs).
    assert (s ≤ p < e → cover m p) by (intros; by exists s, e).
    destruct (decide (s ≤ p < e)); naive_solver lia. }
  cbn zeta. destruct (Z.ltb_spec stop e) as [Hl|Hl].
  - assert (m1 !! stop = None) as Hnone.
    { apply eq_None_not_Some. intros [v Hv]. pose proof (ap_range _ A1 _ _ Hv).
      apply G1 in Hv. lia. }
    exists (<[stop := e]> m1). split_and!.
    + rewrite total_insert by done. do 2 f_equal. lia.
    + apply apart_insert; [done|lia|]. intros s' e' H'. apply G1 in H'. lia.
    + intros p. rewrite cover_insert by done. rewrite <- Hfin. tauto.
    + intros k Hk1 Hk2. rewrite lookup_insert_ne by done. by apply K1.
  - exists m1. split_and!; [done|done| |intros k Hk _; by apply K1].
    intros p. rewrite <- Hfin. split; [by left|]. intros [|]; [done|lia].
Qed.

Lemma cuts_spec start stop rs m :
  0 ≤ start < stop → apart m → NoDup rs.*1 →
  (∀ s e, (s, e) ∈ rs → m !! s = Some e ∧ s < stop ∧ start < e) →
  ∃ m', cuts start stop rs (m, total m) = Ok (m', total m') ∧ apart m'
    ∧ ∀ p, cover m' p ↔ cover m p ∧ ¬ (start ≤ p < stop ∧ ∃ s e, (s, e) ∈ rs ∧ s ≤ p < e).
Proof.
  intros Hr. revert m; induction rs as [|[s e] rs IH]; intros m A ND Hin.
  - exists m. split_and!; [done|done|]. intros p. split; [|by intros []]. intros Hc. split; [done|].
    intros (_ & s & e & Hs & _). by apply elem_of_nil in Hs.
  - apply NoDup_cons in ND as [Hs ND].
    destruct (Hin s e ltac:(apply elem_of_cons; by left)) as (Hse & Hs1 & He1).
    destruct (cut_spec start stop s e m A Hse Hr Hs1 He1) as (m1 & E1 & A1 & C1 & K1).
    cbn [cuts]. unfold mbind, res_bind. rewrite E1.
    destruct (IH m1 A1 ND) as (m2 & E2 & A2 & C2).
    { intros s' e' Hs'. destruct (Hin s' e' ltac:(apply elem_of_cons; by right)) as (H1 & H2 & H3).
      split_and!; [|done|done]. rewrite K1; [done| |lia].
      intros ->. apply Hs. apply list_elem_of_fmap. by exists (s, e'). }
    exists m2. split_and!; [done|done|]. intros p. rewrite C2, C1.
    setoid_rewrite elem_of_cons. naive_solver.
Qed.

Lemma pl_remove_ok l start stop :
  pl_wf l → 0 ≤ start →
  ∃ l', pl_remove l start stop = Ok l' ∧ pl_wf l' ∧ future l' = future l
    ∧ ∀ p, cover (ranges l') p ↔ cover (ranges l) p ∧ ¬ start ≤ p < stop.
Proof.
  intros [A Hp] H0. unfold pl_remove. destruct (Z.leb_spec stop start) as [Hle|Hlt].
  { exists l. split_and!; [done..|]. intros p. split; [|by intros []]. intros ?. split; [done|lia]. }
  set (hit := _ ++ _). rewrite Hp.
  assert (∀ s e, (s, e) ∈ hit ↔ ranges l !! s = Some e ∧ s < stop ∧ start < e) as Hhit.
  { intros s e. unfold hit. rewrite elem_of_app, elem_of_bt_range.
    pose proof (bt_last_below_spec (ranges l) start) as Hb.
    destruct (bt_last_below (ranges l) start) as [[s1 e1]|].
    - destruct Hb as (Hs1 & Hl1 & Hmax). split.
      + intros [Hin|[Hr Hs]].
        * destruct (Z.ltb_spec start e1); [|by apply elem_of_nil in Hin].
          apply list_elem_of_singleton in Hin. simplify_eq. split_and!; [done|lia|lia].
        * pose proof (ap_range _ A _ _ Hs). split_and!; [done|lia|lia].
      + intros (Hs & Hs2 & He). destruct (decide (start ≤ s)); [right; split; [lia|done]|left].
        pose proof (Hmax s e Hs ltac:(lia)). destruct (decide (s = s1)) as [->|].
        * rewrite Hs1 in Hs. simplify_eq. destruct (Z.ltb_spec start e); [|lia].
          by apply list_elem_of_singleton.
        * pose proof (ap_gap _ A s e s1 e1 Hs Hs1 ltac:(lia)). lia.
    - split.
      + intros [Hin|[Hr Hs]]; [by apply elem_of_nil in Hin|].
        pose proof (ap_range _ A _ _ Hs). split_and!; [done|lia|lia].
      + intros (Hs & Hs2 & He). right. split; [|done]. pose proof (Hb s e Hs). lia. }
  destruct (cuts_spec start stop hit (ranges l)) as (m' & E & A' & C').
  { lia. } { done. }
  { unfold hit. rewrite fmap_app. apply NoDup_app. split_and!; [| |apply NoDup_bt_range].
    - destruct (bt_last_below (ranges l) start) as [[s1 e1]|]; [|constructor].
      destruct (start <? e1); [apply NoDup_singleton|constructor].
    - intros k Hk ([k' v] & -> & Hr)%list_elem_of_fmap. apply elem_of_bt_range in Hr as [Hr _].
      pose proof (bt_last_below_spec (ranges l) start) as Hb.
      destruct (bt_last_below (ranges l) start) as [[s1 e1]|]; [|by apply elem_of_nil in Hk].
      destruct (start <? e1); [|by apply elem_of_nil in Hk].
      apply list_elem_of_singleton in Hk. simpl in *. lia. }
  { intros s e Hs. by apply Hhit. }
  unfold mbind, res_bind. rewrite E. eexists. split; [done|]. split_and!; [by split|done|].
  intros p. simpl. rewrite C'. split; [|naive_solver].
  intros [Hc Hn]. split; [done|]. intros Hin. apply Hn. split; [done|].
  destruct Hc as (s & e & Hs & Hsp). exists s, e. split; [|done]. apply Hhit.
  split_and!; [done|lia|lia].
Qed.

Lemma add_overlaps_spec stop rs n :
  (∀ s e, (s, e) ∈ rs → s ≤ Z.min e stop) →
  add_overlaps stop rs n = Ok (n + sumf (λ x, Z.min x.2 stop - x.1) rs).
Proof.
  revert n; induction rs as [|[s e] rs IH]; intros n H; cbn [add_overlaps sumf foldr].
  - by rewrite Z.add_0_r.
  - unfold mbind, res_bind. rewrite usub_ok by (apply H, elem_of_cons; by left).
    rewrite IH by (intros s' e' Hs; apply H, elem_of_cons; by right). f_equal. simpl.
    unfold sumf. lia.
Qed.

(** Among the ranges starting at or before [start], only the last reaches past it. *)
Lemma head_clip l start stop :
  apart (ranges l) → start < stop →
  sumf (clip start stop) (filter (λ x, x.1 < start + 1) (bt_list (ranges l))) =
    match bt_last_below (ranges l) (start + 1) with
    | Some (_, e) => sat_sub (Z.min e stop) start
    | None => 0
    end.
Proof.
  intros A Hlt. pose proof (bt_last_below_spec (ranges l) (start + 1)) as Hb.
  unfold bt_last_below in *.
  assert (∀ x, x ∈ filter (λ x, x.1 < start + 1) (bt_list (ranges l)) →
    ranges l !! x.1 = Some x.2) as Hin.
  { intros [s e] [_ H]%list_elem_of_filter. by apply elem_of_bt_list. }
  destruct (last (filter _ _)) as [[s e]|] eqn:E.
  - destruct Hb as (Hs & Hs1 & Hmax). apply last_Some in E as [l' E]. rewrite E in *.
    rewrite sumf_app, sumf_zero.
    + simpl. unfold clip, sat_sub. simpl. lia.
    + intros [s' e'] Hx. assert (ranges l !! s' = Some e') as Hs'.
      { apply (Hin (s', e')), elem_of_app. by left. }
      assert (s' ≠ s) as Hne.
      { intros ->. assert (NoDup (filter (λ x, x.1 < start + 1) (bt_list (ranges l))).*1) as ND.
        { assert (NoDup (bt_range (ranges l) (-1) (start + 1)).*1) as N by apply NoDup_bt_range.
          unfold bt_range in N. rewrite (filter_iff_in _ (λ x, x.1 < start + 1)) in N; [done|].
          intros [s1 e1] H1. apply elem_of_bt_list, (ap_range _ A) in H1. simpl. lia. }
        rewrite E, fmap_app in ND. apply NoDup_app in ND as (_ & ND & _).
        apply (ND s); [|by apply list_elem_of_singleton].
        apply list_elem_of_fmap. by exists (s, e'). }
      assert (s' < start + 1) as Hlt'.
      { assert ((s', e') ∈ filter (λ x, x.1 < start + 1) (bt_list (ranges l))) as Hf
          by (rewrite E; apply elem_of_app; by left).
        by apply list_elem_of_filter in Hf as [? _]. }
      pose proof (Hmax s' e' Hs' Hlt'). pose proof (ap_gap _ A s' e' s e Hs' Hs ltac:(lia)).
      unfold clip. simpl. lia.
  - apply last_None in E. by rewrite E.
Qed.

Lemma pl_locked_within_ok l start stop :
  pl_wf l → 0 ≤ start < stop →
  pl_locked_within l start stop =
    Ok (Z.of_nat (size (filter (λ p, start ≤ p < stop) (page_set (ranges l))))).
Proof.
  intros [A _] Hr. unfold pl_locked_within. destruct (Z.leb_spec (start + 1) stop); [|lia].
  rewrite add_overlaps_spec.
  2: { intros s e [Hs He]%elem_of_bt_range. apply (ap_range _ A) in He. lia. }
  rewrite size_window, msumf_bt by done. f_equal.
  rewrite (sumf_filter (clip start stop) (λ x, x.1 < start + 1)), head_clip by (done || lia).
  f_equal. unfold bt_range.
  assert (∀ x, x ∈ bt_list (ranges l) → x.1 < x.2) as Hx.
  { intros [s e] Hs%elem_of_bt_list. apply (ap_range _ A) in Hs. simpl. lia. }
  revert Hx. generalize (bt_list (ranges l)). induction l0 as [|x L IH]; intros Hx; [done|].
  rewrite !filter_cons. specialize (IH (λ y Hy, Hx y (list_elem_of_further _ _ _ Hy))).
  specialize (Hx x (list_elem_of_here _ _)).
  pose proof (eq_refl (clip start stop x)) as Hc. unfold clip in Hc at 2.
  destruct (decide (start + 1 ≤ x.1 < stop)), (decide (¬ x.1 < start + 1)); cbn [sumf foldr];
    fold (sumf (clip start stop) (filter (λ x, ¬ x.1 < start + 1) L));
    fold (sumf (λ x, Z.min x.2 stop - x.1) (filter (λ x, start + 1 ≤ x.1 < stop) L));
    lia.
Qed.

(** * Refinement *)

Inductive pl_op := LInsert (start stop : Z) | LRemove (start stop : Z) | LClear.

Fixpoint pl_run (l : PageLocks) (ops : list pl_op) : res PageLocks :=
  match ops with
  | [] => Ok l
  | LInsert a b :: ops => l' ← pl_insert l a b; pl_run l' ops
  | LRemove a b :: ops => l' ← pl_remove l a b; pl_run l' ops
  | LClear :: ops => pl_run (pl_clear l) ops
  end.

Fixpoint set_run (X : gset Z) (ops : list pl_op) : gset Z :=
  match ops with
  | [] => X
  | LInsert a b :: ops => set_run (X ∪ span_set a b) ops
  | LRemove a b :: ops => set_run (X ∖ span_set a b) ops
  | LClear :: ops => set_run ∅ ops
  end.

Definition lock_op_ok (o : pl_op) : Prop :=
  match o with LInsert a _ | LRemove a _ => 0 ≤ a | LClear => True end.

Lemma pl_default_wf : pl_wf pl_default.
Proof. split; [split; intros *; simpl; by rewrite lookup_empty|done]. Qed.

Lemma pl_run_spec ops l :
  pl_wf l → Forall lock_op_ok ops →
  ∃ l', pl_run l ops = Ok l' ∧ pl_wf l'
    ∧ page_set (ranges l') = set_run (page_set (ranges l)) ops.
Proof.
  revert l; induction ops as [|o ops IH]; intros l Hwf Hops; [by exists l|].
  apply Forall_cons in Hops as [Ho Hops]. destruct o as [a b|a b|]; simpl in *.
  - destruct (pl_insert_ok l a b Hwf Ho) as (l1 & E & W & _ & C). unfold mbind, res_bind. rewrite E.
    destruct (IH l1 W Hops) as (l2 & -> & W2 & S2). exists l2. split_and!; [done..|].
    rewrite S2. f_equal.
    apply set_eq. intros p. by rewrite elem_of_union, !elem_of_page_set, elem_of_span_set, C.
  - destruct (pl_remove_ok l a b Hwf Ho) as (l1 & E & W & _ & C). unfold mbind, res_bind. rewrite E.
    destruct (IH l1 W Hops) as (l2 & -> & W2 & S2). exists l2. split_and!; [done..|].
    rewrite S2. f_equal.
    apply set_eq. intros p. by rewrite elem_of_difference, !elem_of_page_set, elem_of_span_set, C.
  - unfold pl_clear. destruct (IH pl_default pl_default_wf Hops) as (l2 & -> & W2 & S2). exists l2.
    split_and!; [done..|]. by rewrite S2.
Qed.

(** The range map refines a set of pages. After any locks and unlocks, none of which
    panics, the pages covered are exactly those of the set updated by union and
    difference, the cached count is the set's size (what [RLIMIT_MEMLOCK] charges),
    counting inside a window counts the set there, and the ranges stay disjoint and
    non-adjacent. *)
Theorem pagelocks_refine ops :
  Forall lock_op_ok ops →
  ∃ l, pl_run pl_default ops = Ok l
    ∧ page_set (ranges l) = set_run ∅ ops
    ∧ pl_pages l = Z.of_nat (size (set_run ∅ ops))
    ∧ (∀ a b, 0 ≤ a < b →
         pl_locked_within l a b = Ok (Z.of_nat (size (filter (λ p, a ≤ p < b) (set_run ∅ ops)))))
    ∧ (∀ s e s' e', ranges l !! s = Some e → ranges l !! s' = Some e' → s < s' → s < e < s').
Proof.
  intros Hops. destruct (pl_run_spec ops pl_default pl_default_wf Hops) as (l & E & W & S).
  assert (page_set (ranges pl_default) = ∅) as E0 by (unfold page_set; simpl; by rewrite map_to_list_empty).
  rewrite E0 in S. exists l. split_and!; [done|done| | |].
  - unfold pl_pages. rewrite (plw_pages _ W), total_size by apply W. by rewrite S.
  - intros a b Hab. rewrite pl_locked_within_ok by done. by rewrite S.
  - intros s e s' e' H1 H2 Hlt. destruct W as [[A1 A2] _]. pose proof (A1 _ _ H1).
    pose proof (A2 _ _ _ _ H1 H2 Hlt). lia.
Qed.

Lemma pagelocks_refine_witness :
  ∃ l, pl_run pl_default [LInsert 2 5; LInsert 5 9; LRemove 3 4] = Ok l
    ∧ pl_pages l = Z.of_nat (size (set_run ∅ [LInsert 2 5; LInsert 5 9; LRemove 3 4])).
Proof.
  destruct (pagelocks_refine [LInsert 2 5; LInsert 5 9; LRemove 3 4]) as (l & E & _ & Hp & _).
  - repeat (apply List.Forall_cons; [simpl; lia|]). apply List.Forall_nil.
  - exists l. split; [exact E|exact Hp].
Defined.
