(* ===== verification/Ctrl.v ===== *)
(** The supervisor control block shared by every address space ([src/vcpu/ctrl.rs]):
    where its frames are, what they hold, and how they are mapped. The vDSO image
    itself ([src/vcpu/vdso.rs]) is a parameter. *)
From S2P Require Import Prelude Phys PageTable.
From stdpp Require Import base numbers gmap list.
Local Open Scope Z_scope.

Definition IDENTITY_TOP : Z := Z.shiftl 64 30.
Definition CTRL_GPA : Z := IDENTITY_TOP - Z.shiftl 2 20.
Definition GDT_OFF : Z := 0x42000.
Definition TRAMP_OFF : Z := 0x43000.
Definition FAULT_TRAMP_OFF : Z := 0x44000.
Definition IDT_OFF : Z := 0x45000.
Definition TSS_OFF : Z := 0x46000.
Definition KSTACK_OFF : Z := 0x47000.
Definition VDSO_OFF : Z := 0x48000.
Definition VVAR_OFF : Z := 0x49000.
Definition FAULT_TRAMP_VA : Z := CTRL_GPA + FAULT_TRAMP_OFF.
Definition TSS_BASE : Z := CTRL_GPA + TSS_OFF.
Definition KSTACK_TOP : Z := CTRL_GPA + KSTACK_OFF + 0x1000.
Definition KSTACK_PAGE_VA : Z := CTRL_GPA + KSTACK_OFF.
Definition VDSO_VA : Z := CTRL_GPA + VDSO_OFF.
Definition VVAR_VA : Z := CTRL_GPA + VVAR_OFF.
Definition SEL_KCODE : Z := 0x08.
Definition CTRL_PHYS_BASE : Z := PAGE_SIZE.
Definition CTRL_FRAMES : Z := 7.
Definition VDSO_FIDX : Z := 5.
Definition VVAR_FIDX : Z := 6.
Definition CTRL_SIZE : Z := CTRL_FRAMES * PAGE_SIZE.

(** [PAGES]: virtual offset and protection, in physical order. *)
Definition PAGES : list (Z * Z) :=
  [(GDT_OFF, prot_rw); (TRAMP_OFF, prot_rx); (FAULT_TRAMP_OFF, prot_rx);
   (IDT_OFF, prot_rw); (TSS_OFF, prot_rw)].

(** [frame_pa]. *)
Definition frame_pa (i : Z) : Z := CTRL_PHYS_BASE + i * PAGE_SIZE.

Definition wr (pa : Z) (bytes : list Z) : ST Pool unit := on_phys (λ p, phys_write p pa bytes).

(** The segment descriptors, the TSS descriptor and the page-fault gate. *)
Definition gdt : list Z :=
  [0; 0x00AF9A000000FFFF; 0x00CF92000000FFFF; 0x00CFF2000000FFFF; 0x00AFFA000000FFFF].
Definition tss_desc_lo : Z :=
  let base := TSS_BASE in
  let limit := 0x67 in
  Z.lor (Z.lor (Z.lor (Z.lor (Z.lor (Z.land limit 0xFFFF)
    (Z.shiftl (Z.land base 0xFFFF) 16))
    (Z.shiftl (Z.land (Z.shiftr base 16) 0xFF) 32))
    (Z.shiftl 0x8B 40))
    (Z.shiftl (Z.land (Z.shiftr limit 16) 0xF) 48))
    (Z.shiftl (Z.land (Z.shiftr base 24) 0xFF) 56).
Definition tss_desc_hi : Z := Z.land (Z.shiftr TSS_BASE 32) 0xFFFFFFFF.
Definition gate_lo : Z :=
  let off := FAULT_TRAMP_VA in
  Z.lor (Z.lor (Z.lor (Z.land off 0xFFFF) (Z.shiftl SEL_KCODE 16)) (Z.shiftl 0x8E 40))
    (Z.shiftl (Z.land (Z.shiftr off 16) 0xFFFF) 48).
Definition gate_hi : Z := Z.land (Z.shiftr FAULT_TRAMP_VA 32) 0xFFFFFFFF.

(** [reserve_and_build]. *)
Definition reserve_and_build (vdso_image : list Z) : ST Pool unit :=
  _ ← (λ s, a ← fa_reserve (fa s) CTRL_PHYS_BASE CTRL_SIZE; mret (tt, mkPool (phys s) a));
  _ ← st_iter (λ '(i, d), wr (frame_pa 0 + i * 8) (le_bytes 8 d)) (zip (seqZ 0 5) gdt);
  _ ← wr (frame_pa 0 + 5 * 8) (le_bytes 8 tss_desc_lo);
  _ ← wr (frame_pa 0 + 6 * 8) (le_bytes 8 tss_desc_hi);
  _ ← wr (frame_pa 4 + 4) (le_bytes 8 KSTACK_TOP);
  _ ← wr (frame_pa 4 + 102) (le_bytes 2 0x68);
  _ ← wr (frame_pa 3 + 14 * 16) (le_bytes 8 gate_lo);
  _ ← wr (frame_pa 3 + 14 * 16 + 8) (le_bytes 8 gate_hi);
  _ ← wr (frame_pa 1) [0xF4; 0x48; 0x0F; 0x07];
  _ ← wr (frame_pa 2) [0xF4];
  wr (frame_pa VDSO_FIDX) vdso_image.

(** [write_vvar], with the offsets of [vdso::vvar]. *)
Definition write_vvar (mult shift base_tsc base_mono_ns base_wall_ns : Z) : ST Pool unit :=
  let pa := frame_pa VVAR_FIDX in
  _ ← wr (pa + 8) (le_bytes 8 mult);
  _ ← wr (pa + 16) (le_bytes 8 shift);
  _ ← wr (pa + 24) (le_bytes 8 base_tsc);
  _ ← wr (pa + 32) (le_bytes 8 base_mono_ns);
  wr (pa + 40) (le_bytes 8 base_wall_ns).

(** [map_into]: the results of the maps are ignored. *)
Definition map_into (sp : AddrSpace) : ST Pool unit :=
  _ ← st_iter (λ '(i, (voff, prot)),
        _ ← space_map sp (CTRL_GPA + voff) (frame_pa i) prot true; mret tt)
      (zip (seqZ 0 5) PAGES);
  _ ← space_map sp VDSO_VA (frame_pa VDSO_FIDX) prot_rx false;
  _ ← space_map sp VVAR_VA (frame_pa VVAR_FIDX) Prot_READ false;
  mret tt.

(** [map_kstack]. *)
Definition map_kstack (sp : AddrSpace) (frame : Z) : ST Pool (option Z) :=
  r ← space_map sp KSTACK_PAGE_VA frame prot_rw true;
  mret (match r with inr old => old | inl _ => None end).
