(* ===== verification/GuestMem.v ===== *)
(** One process's address space over the shared pool ([src/vcpu/mem.rs]): page tables
    ([PageTable]) plus the per-page bookkeeping, demand paging, copy-on-write, and the
    copies in and out of guest memory every syscall goes through.

    The pool is shared by every address space, so an operation is a computation on
    the pair of the pool and this space's own record. *)
From S2P Require Import Prelude Phys PageTable PageVec PageLocks Ctrl.
From Stdlib Require Import String.
From stdpp Require Import base numbers gmap list.
Local Open Scope Z_scope.

Inductive MemError :=
  | OutOfBounds (addr : Z)
  | Unmapped (addr : Z)
  | Protection (addr needed : Z)
  | Host (msg : string).

Global Instance MemError_eq_dec : EqDecision MemError.
Proof. solve_decision. Defined.

(** [MemError::fault_addr]. *)
Definition fault_addr (e : MemError) : Z :=
  match e with OutOfBounds a | Unmapped a | Protection a _ => a | Host _ => 0 end.

Record GuestMemory := mkGM {
  base : Z;
  msize : Z;
  space : AddrSpace;
  m_prot : PageVec Z;
  mapped : PageVec bool;
  mapped_count : Z;
  file_backed : PageVec bool;
  shared_anon : PageVec bool;
  fork_policy : gmap Z Z;
  locks : PageLocks;
  tlb_dirty : bool;
  kstack_pa : Z;
  shared : bool
}.

Definition FORK_DONT : Z := 1.
Definition FORK_WIPE : Z := 2.

(** [round_up] on [u64]. *)
Definition round_up (v align : Z) : Z := wrap U64 (div_ceil v align * align).

(** * The monad *)

Definition M (A : Type) : Type := ST (Pool * GuestMemory) A.

(** A computation on the pool alone, under the allocator's lock. *)
Definition pool {A} (m : ST Pool A) : M A := λ '(s, g),
  match m s with Ok (a, s') => Ok (a, (s', g)) | Panic => Panic end.
Definition self : M GuestMemory := λ '(s, g), Ok (g, (s, g)).
Definition upd (f : GuestMemory → GuestMemory) : M unit := λ '(s, g), Ok (tt, (s, f g)).
Definition lift {A} (r : res A) : M A := λ sg, match r with Ok a => Ok (a, sg) | Panic => Panic end.

(** [?] on a [Result]. *)
Definition bindE {A B} (m : M (MemError + A)) (k : A → M (MemError + B)) : M (MemError + B) :=
  r ← m; match r with inl e => mret (inl e) | inr a => k a end.
Notation "x ←? m ; k" := (bindE m (λ x, k))
  (at level 20, m at level 100, k at level 200, right associativity).

(** Field updates. *)
Definition with_space (sp : AddrSpace) (g : GuestMemory) : GuestMemory :=
  mkGM (base g) (msize g) sp (m_prot g) (mapped g) (mapped_count g) (file_backed g)
    (shared_anon g) (fork_policy g) (locks g) (tlb_dirty g) (kstack_pa g) (shared g).
Definition with_prot (v : PageVec Z) (g : GuestMemory) : GuestMemory :=
  mkGM (base g) (msize g) (space g) v (mapped g) (mapped_count g) (file_backed g)
    (shared_anon g) (fork_policy g) (locks g) (tlb_dirty g) (kstack_pa g) (shared g).
Definition with_mapped (v : PageVec bool) (n : Z) (g : GuestMemory) : GuestMemory :=
  mkGM (base g) (msize g) (space g) (m_prot g) v n (file_backed g)
    (shared_anon g) (fork_policy g) (locks g) (tlb_dirty g) (kstack_pa g) (shared g).
Definition with_file_backed (v : PageVec bool) (g : GuestMemory) : GuestMemory :=
  mkGM (base g) (msize g) (space g) (m_prot g) (mapped g) (mapped_count g) v
    (shared_anon g) (fork_policy g) (locks g) (tlb_dirty g) (kstack_pa g) (shared g).
Definition with_shared_anon (v : PageVec bool) (g : GuestMemory) : GuestMemory :=
  mkGM (base g) (msize g) (space g) (m_prot g) (mapped g) (mapped_count g) (file_backed g)
    v (fork_policy g) (locks g) (tlb_dirty g) (kstack_pa g) (shared g).
Definition with_fork_policy (m : gmap Z Z) (g : GuestMemory) : GuestMemory :=
  mkGM (base g) (msize g) (space g) (m_prot g) (mapped g) (mapped_count g) (file_backed g)
    (shared_anon g) m (locks g) (tlb_dirty g) (kstack_pa g) (shared g).
Definition with_locks (l : PageLocks) (g : GuestMemory) : GuestMemory :=
  mkGM (base g) (msize g) (space g) (m_prot g) (mapped g) (mapped_count g) (file_backed g)
    (shared_anon g) (fork_policy g) l (tlb_dirty g) (kstack_pa g) (shared g).
Definition with_tlb_dirty (b : bool) (g : GuestMemory) : GuestMemory :=
  mkGM (base g) (msize g) (space g) (m_prot g) (mapped g) (mapped_count g) (file_backed g)
    (shared_anon g) (fork_policy g) (locks g) b (kstack_pa g) (shared g).
Definition with_kstack (pa : Z) (g : GuestMemory) : GuestMemory :=
  mkGM (base g) (msize g) (space g) (m_prot g) (mapped g) (mapped_count g) (file_backed g)
    (shared_anon g) (fork_policy g) (locks g) (tlb_dirty g) pa (shared g).

Definition set_prot (p x : Z) : M unit :=
  g ← self; v ← lift (pv_set (m_prot g) p x); upd (with_prot v).
Definition set_file_backed (p : Z) (x : bool) : M unit :=
  g ← self; v ← lift (pv_set (file_backed g) p x); upd (with_file_backed v).
Definition set_shared_anon (p : Z) (x : bool) : M unit :=
  g ← self; v ← lift (pv_set (shared_anon g) p x); upd (with_shared_anon v).
Definition get_prot (p : Z) : M Z := g ← self; lift (pv_index (m_prot g) p).
Definition get_mapped (p : Z) : M bool := g ← self; lift (pv_index (mapped g) p).
Definition get_shared_anon (p : Z) : M bool := g ← self; lift (pv_index (shared_anon g) p).

(** [mapped_count += usize::from(!mapped[p]); mapped[p] = true], and the reverse. *)
Definition note_mapped (p : Z) : M unit :=
  g ← self; was ← get_mapped p;
  v ← lift (pv_set (mapped g) p true);
  upd (with_mapped v (mapped_count g + (if (was : bool) then 0 else 1))).
Definition note_unmapped (p : Z) : M unit :=
  g ← self; was ← get_mapped p;
  v ← lift (pv_set (mapped g) p false);
  n ← lift (usub (mapped_count g) (if (was : bool) then 1 else 0));
  upd (with_mapped v n).
Definition drop_fork_policy (p : Z) : M unit :=
  g ← self; upd (with_fork_policy (delete p (fork_policy g))).
Definition drop_locks (first stop : Z) : M unit :=
  g ← self; l ← lift (pl_remove (locks g) first stop); upd (with_locks l).

(** * Geometry *)

(** [page_base], [page_index], [offset_ok], [page_range]. *)
Definition page_base (g : GuestMemory) (p : Z) : Z := base g + p * PAGE_SIZE.
Definition page_index (g : GuestMemory) (addr : Z) : option Z :=
  if (addr <? base g) || (base g + msize g <=? addr) then None
  else Some ((addr - base g) / PAGE_SIZE).
Definition offset_ok (g : GuestMemory) (addr : Z) : MemError + unit :=
  if (addr <? base g) || (base g + msize g <=? addr) then inl (OutOfBounds addr) else inr tt.
Definition page_range (g : GuestMemory) (addr len : Z) : MemError + Z * Z :=
  if len =? 0 then
    match offset_ok g addr with
    | inl e => inl e
    | inr _ => let p := (addr - base g) / PAGE_SIZE in inr (p, p)
    end
  else
    match checked_add64 addr (len - 1) with
    | None => inl (OutOfBounds addr)
    | Some stop =>
      match offset_ok g addr, offset_ok g stop with
      | inl e, _ | _, inl e => inl e
      | inr _, inr _ => inr ((addr - base g) / PAGE_SIZE, (stop - base g) / PAGE_SIZE)
      end
    end.

(** The page span [[addr, addr + len)] rounded out, as every mapping call computes it. *)
Definition span_range (g : GuestMemory) (addr len : Z) : MemError + Z * Z :=
  let start := addr - addr mod PAGE_SIZE in
  let stop := round_up (wrap U64 (addr + len)) PAGE_SIZE in
  page_range g start (wrap U64 (stop - start)).

Definition page_of (pa : Z) : Z := Z.land pa (U64 - 1 - (PAGE_SIZE - 1)).

(** * Mapping *)

(** [leaf_prot]. *)
Definition leaf_prot_of (p frame : Z) : M Z :=
  sa ← get_shared_anon p;
  pr ← get_prot p;
  n ← pool (λ s, Ok (fa_refcount (fa s) frame, s));
  mret (if negb sa && prot_contains pr Prot_WRITE && (1 <? n) then prot_read_only pr else pr).

Definition exhausted_err : MemError := Host "frame pool exhausted".

(** One page of [map]'s loop. *)
Definition map_page (prot p : Z) : M unit :=
  g ← self;
  was ← get_mapped p;
  _ ← (if (was : bool) then
         r ← pool (space_unmap (space g) (base g + p * PAGE_SIZE));
         match r with Some frame => pool (on_fa (λ a, fa_free a frame)) | None => mret tt end
       else mret tt);
  _ ← note_mapped p;
  _ ← set_prot p prot;
  _ ← set_file_backed p false;
  _ ← set_shared_anon p false;
  drop_fork_policy p.

(** [GuestMemory::map]. *)
Definition mem_map (addr len prot : Z) : M (MemError + unit) :=
  if len =? 0 then mret (inr tt)
  else
    g ← self;
    match span_range g addr len with
    | inl e => mret (inl e)
    | inr (first, last) =>
      _ ← st_iter (map_page prot) (seqZ first (last + 1 - first));
      _ ← drop_locks first (last + 1);
      mret (inr tt)
    end.

(** [GuestMemory::set_fork_policy]. *)
Definition first_unmapped (g : GuestMemory) (ps : list Z) : res (option Z) :=
  foldr (λ p rest, b ← pv_index (mapped g) p; if (b : bool) then rest else Ok (Some p)) (Ok None) ps.
Definition set_fork_policy (addr len policy : Z) : M (MemError + unit) :=
  if len =? 0 then mret (inr tt)
  else
    g ← self;
    match span_range g addr len with
    | inl e => mret (inl e)
    | inr (first, last) =>
      let ps := seqZ first (last + 1 - first) in
      bad ← lift (first_unmapped g ps);
      match bad with
      | Some p => mret (inl (Unmapped (page_base g p)))
      | None =>
        _ ← upd (with_fork_policy
               (foldl (λ m p, if policy =? 0 then delete p m else <[p := policy]> m)
                  (fork_policy g) ps));
        mret (inr tt)
      end
    end.

(** [GuestMemory::ensure_backed]. *)
Definition ensure_backed (sp : AddrSpace) (prot va : Z) : ST Pool bool :=
  t ← translate sp va;
  match t with
  | Some _ => mret true
  | None =>
    f ← fa_alloc;
    match f with
    | None => mret false
    | Some frame =>
      r ← space_map sp va frame prot false;
      match r with
      | inr _ => mret true
      | inl _ => _ ← on_fa (λ a, fa_free a frame); mret false
      end
    end
  end.

(** [GuestMemory::map_shared_anon]. *)
Definition share_page (p : Z) : M (option MemError) :=
  g ← self;
  _ ← set_shared_anon p true;
  pr ← get_prot p;
  ok ← pool (ensure_backed (space g) pr (base g + p * PAGE_SIZE));
  mret (if (ok : bool) then None else Some exhausted_err).
Definition map_shared_anon (addr len prot : Z) : M (MemError + unit) :=
  _ ←? mem_map addr len prot;
  g ← self;
  match span_range g addr len with
  | inl e => mret (inl e)
  | inr (first, last) =>
    r ← st_try share_page (seqZ first (last + 1 - first));
    mret (match r with Some e => inl e | None => inr tt end)
  end.

(** [GuestMemory::alloc_frames] and [release_frames]. *)
Fixpoint alloc_frames_loop (n : nat) (out : list Z) : ST Pool (option (list Z)) :=
  match n with
  | O => mret (Some out)
  | S n =>
    f ← fa_alloc;
    match f with
    | Some f => alloc_frames_loop n (out ++ [f])
    | None => _ ← st_iter (λ f, on_fa (λ a, fa_free a f)) out; mret None
    end
  end.
Definition alloc_frames (n : nat) : ST Pool (option (list Z)) := alloc_frames_loop n [].
Definition release_frames (frames : list Z) : ST Pool unit :=
  st_iter (λ f, on_fa (λ a, fa_free a f)) frames.

(** [GuestMemory::shared_phys] and [shared_frames]. *)
Definition shared_phys (addr : Z) : M (option Z) :=
  g ← self;
  match page_index g addr with
  | None => mret None
  | Some p =>
    m ← get_mapped p;
    sa ← get_shared_anon p;
    if negb m || negb sa then mret None
    else t ← pool (translate (space g) addr); mret (paddr <$> t)
  end.
Fixpoint shared_frames_loop (fuel : nat) (p stop : Z) (out : list Z) : M (option (list Z)) :=
  if stop <=? p then mret (Some out)
  else match fuel with
       | O => mret (Some out)
       | S fuel =>
         r ← shared_phys p;
         match r with
         | None => mret None
         | Some pa => shared_frames_loop fuel (p + PAGE_SIZE) stop (out ++ [page_of pa])
         end
       end.
Definition shared_frames (addr len : Z) : M (option (list Z)) :=
  match checked_add64 addr len with
  | None => mret None
  | Some stop => shared_frames_loop (Z.to_nat (div_ceil len PAGE_SIZE)) addr stop []
  end.

(** One page of [map_frames]'s loop; [Some] is its error. *)
Definition map_frame (frames : list Z) (prot : Z) (x : Z * Z) : M (option MemError) :=
  let '(i, p) := x in
  g ← self;
  let va := page_base g p in
  was ← get_mapped p;
  _ ← (if (was : bool) then
         r ← pool (space_unmap (space g) va);
         match r with
         | Some old => _ ← pool (on_fa (λ a, fa_free a old)); upd (with_tlb_dirty true)
         | None => mret tt
         end
       else mret tt);
  frame ← lift (match frames !! Z.to_nat i with Some f => Ok f | None => Panic end);
  _ ← pool (on_fa (λ a, fa_incref a frame));
  r ← pool (space_map (space g) va frame prot false);
  match r with
  | inl _ => _ ← pool (on_fa (λ a, fa_free a frame)); mret (Some exhausted_err)
  | inr old =>
    _ ← match old with Some old => pool (on_fa (λ a, fa_free a old)) | None => mret tt end;
    _ ← note_mapped p;
    _ ← set_prot p prot;
    _ ← set_file_backed p false;
    _ ← set_shared_anon p true;
    mret None
  end.

(** [GuestMemory::map_frames]. *)
Definition map_frames (addr : Z) (frames : list Z) (prot : Z) : M (MemError + unit) :=
  match frames with
  | [] => mret (inr tt)
  | _ =>
    g ← self;
    match page_range g addr (Z.of_nat (length frames) * PAGE_SIZE) with
    | inl e => mret (inl e)
    | inr (first, last) =>
      r ← st_try (map_frame frames prot)
            ((λ p, (p - first, p)) <$> seqZ first (last + 1 - first));
      mret (match r with Some e => inl e | None => inr tt end)
    end
  end.

(** [GuestMemory::demand_fault]. *)
Definition demand_fault (addr : Z) : M bool :=
  g ← self;
  let page := addr - addr mod PAGE_SIZE in
  match page_index g page with
  | None => mret false
  | Some p =>
    m ← get_mapped p;
    t ← pool (translate (space g) page);
    if negb m || bool_decide (is_Some t) then mret false
    else
      pr ← get_prot p;
      if pr =? Prot_NONE then mret false
      else pool (ensure_backed (space g) pr page)
  end.

(** [GuestMemory::mark_file_backed] and [is_file_backed]. *)
Definition mark_file_backed (addr len : Z) : M unit :=
  g ← self;
  if (len =? 0) || (addr <? base g) then mret tt
  else
    let start := (addr - base g) / PAGE_SIZE in
    let stop := wrap U64 (round_up (wrap U64 (addr + len)) PAGE_SIZE - base g) / PAGE_SIZE in
    let stop := Z.min stop (pv_len (file_backed g)) in
    st_iter (λ p, set_file_backed p true) (seqZ start (stop - start)).
Definition is_file_backed (addr : Z) : M bool :=
  g ← self;
  if addr <? base g then mret false
  else r ← lift (pv_get (file_backed g) ((addr - base g) / PAGE_SIZE)); mret (default false r).

(** [GuestMemory::is_resident] and [page_prot]. *)
Definition is_resident (addr : Z) : M bool :=
  g ← self;
  let page := addr - addr mod PAGE_SIZE in
  match page_index g page with
  | None => mret false
  | Some _ => t ← pool (translate (space g) page); mret (bool_decide (is_Some t))
  end.
Definition page_prot (addr : Z) : M (option Z) :=
  g ← self;
  match page_index g addr with
  | None => mret None
  | Some p => m ← get_mapped p; if (m : bool) then pr ← get_prot p; mret (Some pr) else mret None
  end.

(** One page of [protect]'s loop. *)
Definition protect_page (prot p : Z) : M (option MemError) :=
  g ← self;
  m ← get_mapped p;
  if negb m then mret (Some (Unmapped (page_base g p)))
  else
    _ ← set_prot p prot;
    let va := page_base g p in
    t ← pool (translate (space g) va);
    match t with
    | None => mret None
    | Some t =>
      lp ← leaf_prot_of p (page_of (paddr t));
      ok ← pool (space_protect (space g) va lp false);
      _ ← (if (ok : bool) then upd (with_tlb_dirty true) else mret tt);
      mret None
    end.

(** [GuestMemory::protect]. *)
Definition mem_protect (addr len prot : Z) : M (MemError + unit) :=
  if len =? 0 then mret (inr tt)
  else
    g ← self;
    match span_range g addr len with
    | inl e => mret (inl e)
    | inr (first, last) =>
      r ← st_try (protect_page prot) (seqZ first (last + 1 - first));
      mret (match r with Some e => inl e | None => inr tt end)
    end.

(** One page of [unmap]'s loop. *)
Definition unmap_page (p : Z) : M unit :=
  g ← self;
  was ← get_mapped p;
  _ ← (if (was : bool) then
         r ← pool (space_unmap (space g) (page_base g p));
         match r with
         | Some frame => _ ← pool (on_fa (λ a, fa_free a frame)); upd (with_tlb_dirty true)
         | None => mret tt
         end
       else mret tt);
  _ ← note_unmapped p;
  _ ← set_prot p Prot_NONE;
  _ ← set_file_backed p false;
  _ ← set_shared_anon p false;
  drop_fork_policy p.

(** [GuestMemory::unmap]. *)
Definition mem_unmap (addr len : Z) : M (MemError + unit) :=
  if len =? 0 then mret (inr tt)
  else
    g ← self;
    match span_range g addr len with
    | inl e => mret (inl e)
    | inr (first, last) =>
      _ ← st_iter unmap_page (seqZ first (last + 1 - first));
      _ ← drop_locks first (last + 1);
      mret (inr tt)
    end.

(** * Access *)

(** [GuestMemory::check_paged]; the loop runs once per page of the range. *)
Fixpoint check_paged_loop (fuel : nat) (sp : AddrSpace) (addr cur stop need : Z)
    : ST Pool (MemError + unit) :=
  if stop <=? cur then mret (inr tt)
  else match fuel with
       | O => mret (inr tt)
       | S fuel =>
         t ← translate sp cur;
         match t with
         | None => mret (inl (OutOfBounds addr))
         | Some t =>
           if negb (supervisor t) && prot_contains (prot t) need
           then check_paged_loop fuel sp addr (cur + PAGE_SIZE) stop need
           else mret (inl (Protection cur need))
         end
       end.
Definition check_paged (sp : AddrSpace) (addr len need : Z) : ST Pool (MemError + unit) :=
  let cur := addr - addr mod PAGE_SIZE in
  let stop := Z.min (addr + Z.max len 1) (U64 - 1) in
  check_paged_loop (Z.to_nat (div_ceil (stop - cur) PAGE_SIZE)) sp addr cur stop need.

(** [GuestMemory::check]. *)
Definition check_page (g : GuestMemory) (need p : Z) : M (option MemError) :=
  m ← get_mapped p;
  if negb m then mret (Some (Unmapped (page_base g p)))
  else
    pr ← get_prot p;
    mret (if prot_contains pr need then None else Some (Protection (page_base g p) need)).
Definition check (addr len need : Z) : M (MemError + unit) :=
  g ← self;
  match checked_add64 addr len with
  | None => mret (inl (OutOfBounds addr))
  | Some stop =>
    if (addr <? base g) || (base g + msize g <? stop)
    then pool (check_paged (space g) addr len need)
    else
      match page_range g addr len with
      | inl e => mret (inl e)
      | inr (first, last) =>
        r ← st_try (check_page g need) (seqZ first (last + 1 - first));
        mret (match r with Some e => inl e | None => inr tt end)
      end
  end.

(** [GuestMemory::can_exec]. *)
Definition can_exec (addr : Z) : M bool :=
  r ← check addr 1 Prot_EXEC; mret (match r with inr _ => true | inl _ => false end).

(** [GuestMemory::copy_out]: one page-sized piece at a time, [len] bytes left. *)
Fixpoint copy_out_loop (fuel : nat) (sp : AddrSpace) (cur len : Z) : ST Pool (list Z) :=
  if len <=? 0 then mret []
  else match fuel with
       | O => mret []
       | S fuel =>
         let off := cur mod PAGE_SIZE in
         let n := Z.min len (PAGE_SIZE - off) in
         t ← translate sp cur;
         bs ← match t with
              | Some t => λ s, b ← phys_read (phys s) (paddr t) (Z.to_nat n); mret (b, s)
              | None => mret (replicate (Z.to_nat n) 0)
              end;
         rest ← copy_out_loop fuel sp (cur + n) (len - n);
         mret (bs ++ rest)
       end.
Definition copy_out (sp : AddrSpace) (addr len : Z) : ST Pool (list Z) :=
  copy_out_loop (Z.to_nat len) sp addr len.

(** [GuestMemory::read] of [len] bytes; [read_vec] is the same with a host
    allocation in between, whose failure is [Host]. *)
Definition mem_read (addr len : Z) : M (MemError + list Z) :=
  if len =? 0 then mret (inr [])
  else
    _ ←? check addr len Prot_READ;
    g ← self;
    bs ← pool (copy_out (space g) addr len);
    mret (inr bs).
Definition read_vec (host_ok : Z → bool) (addr len : Z) : M (MemError + list Z) :=
  if len =? 0 then mret (inr [])
  else
    _ ←? check addr len Prot_READ;
    if host_ok len then mem_read addr len else mret (inl (Host "allocation failed")).

(** [GuestMemory::make_writable]. *)
Definition make_writable (sp : AddrSpace) (prot va : Z) (shared_anon : bool)
    : ST Pool (MemError + bool) :=
  t ← translate sp va;
  match t with
  | None => mret (inr false)
  | Some t =>
    let frame := page_of (paddr t) in
    n ← (λ s, Ok (fa_refcount (fa s) frame, s));
    if negb shared_anon && (1 <? n) then
      f ← fa_alloc;
      match f with
      | None => mret (inl exhausted_err)
      | Some new =>
        _ ← on_phys (λ p, phys_copy_frame p new frame);
        r ← space_map sp va new prot false;
        match r with
        | inl _ => _ ← on_fa (λ a, fa_free a new); mret (inl exhausted_err)
        | inr old =>
          _ ← match old with Some o => on_fa (λ a, fa_decref a o) | None => mret tt end;
          mret (inr true)
        end
      end
    else
      ok ← space_protect sp va prot false; mret (inr ok)
  end.

(** One page of the loop [copy_in] and [write_init] share. *)
Definition touch_page (p : Z) : M (MemError + bool) :=
  g ← self;
  let va := base g + p * PAGE_SIZE in
  pr ← get_prot p;
  ok ← pool (ensure_backed (space g) pr va);
  if negb ok then mret (inl exhausted_err)
  else
    sa ← get_shared_anon p;
    pool (make_writable (space g) pr va sa).
Fixpoint touch_pages (ps : list Z) (changed : bool) : M (MemError + unit) :=
  match ps with
  | [] => g ← self; _ ← upd (with_tlb_dirty (tlb_dirty g || changed)); mret (inr tt)
  | p :: ps => c ←? touch_page p; touch_pages ps (changed || c)
  end.

(** The copy into the frames. *)
Fixpoint store_loop (fuel : nat) (sp : AddrSpace) (cur : Z) (buf : list Z)
    : ST Pool (MemError + unit) :=
  match buf with
  | [] => mret (inr tt)
  | _ =>
    match fuel with
    | O => mret (inr tt)
    | S fuel =>
      let page := cur - cur mod PAGE_SIZE in
      let off := cur mod PAGE_SIZE in
      let n := Nat.min (length buf) (Z.to_nat (PAGE_SIZE - off)) in
      t ← translate sp cur;
      match t with
      | None => mret (inl (Unmapped page))
      | Some t =>
        _ ← on_phys (λ p, phys_write p (paddr t) (take n buf));
        store_loop fuel sp (cur + Z.of_nat n) (drop n buf)
      end
    end
  end.

(** [GuestMemory::copy_in]. *)
Definition copy_in (addr : Z) (buf : list Z) : M (MemError + unit) :=
  g ← self;
  match page_range g addr (Z.of_nat (length buf)) with
  | inl e => mret (inl e)
  | inr (first, last) =>
    _ ←? touch_pages (seqZ first (last + 1 - first)) false;
    pool (store_loop (length buf) (space g) addr buf)
  end.

(** [GuestMemory::write] and [write_trap]. *)
Definition mem_write (addr : Z) (buf : list Z) : M (MemError + unit) :=
  match buf with
  | [] => mret (inr tt)
  | _ => _ ←? check addr (Z.of_nat (length buf)) Prot_WRITE; copy_in addr buf
  end.
Definition write_trap (addr : Z) (buf : list Z) : M (MemError + unit) := mem_write addr buf.

(** [GuestMemory::cow_fault]. *)
Definition cow_fault (addr : Z) (write : bool) : M bool :=
  if negb write then mret false
  else
    g ← self;
    match page_index g addr with
    | None => mret false
    | Some p =>
      m ← get_mapped p;
      pr ← get_prot p;
      if negb m || negb (prot_contains pr Prot_WRITE) then mret false
      else
        sa ← get_shared_anon p;
        r ← pool (make_writable (space g) pr (base g + p * PAGE_SIZE) sa);
        mret (match r with inr _ => true | inl _ => false end)
    end.

(** [GuestMemory::write_init]. *)
Definition write_init (addr : Z) (buf : list Z) : M (MemError + unit) :=
  g ← self;
  match page_range g addr (Z.of_nat (length buf)) with
  | inl e => mret (inl e)
  | inr (first, last) =>
    let ps := seqZ first (last + 1 - first) in
    bad ← lift (first_unmapped g ps);
    match bad with
    | Some p => mret (inl (Unmapped (page_base g p)))
    | None =>
      _ ←? touch_pages ps false;
      pool (store_loop (length buf) (space g) addr buf)
    end
  end.

(** * Locked pages *)

(** [mapped_bytes], [locked_bytes]. *)
Definition mapped_bytes (g : GuestMemory) : Z := mapped_count g * PAGE_SIZE.
Definition locked_bytes (g : GuestMemory) : Z := pl_pages (locks g) * PAGE_SIZE.

(** [GuestMemory::lock_span]. *)
Definition lock_span (g : GuestMemory) (addr len : Z) : option (Z * Z) :=
  let start := addr - addr mod PAGE_SIZE in
  match checked_add64 addr len with
  | None => None
  | Some e =>
    let stop := round_up e PAGE_SIZE in
    match page_range g start (wrap U64 (stop - start)) with
    | inl _ => None
    | inr (first, last) => Some (first, last + 1)
    end
  end.

(** [GuestMemory::unlocked_bytes_in]. *)
Definition unlocked_bytes_in (g : GuestMemory) (addr len : Z) : res Z :=
  if len =? 0 then Ok 0
  else match lock_span g addr len with
       | None => Ok 0
       | Some (first, stop) =>
         n ← pl_locked_within (locks g) first stop;
         d ← usub (stop - first) n;
         mret (d * PAGE_SIZE)
       end.

(** [GuestMemory::set_locked]. *)
Definition set_locked (addr len : Z) (locked : bool) : M unit :=
  g ← self;
  if len =? 0 then mret tt
  else match lock_span g addr len with
       | None => mret tt
       | Some (first, stop) =>
         l ← lift (if locked then pl_insert (locks g) first stop
                   else pl_remove (locks g) first stop);
         upd (with_locks l)
       end.

(** [GuestMemory::lock_all]: runs of consecutive mapped pages are locked together. *)
Fixpoint lock_runs (pages : list Z) (run : option (Z * Z)) (l : PageLocks) : res PageLocks :=
  match pages with
  | [] => match run with Some (s, e) => pl_insert l s e | None => Ok l end
  | p :: pages =>
    match run with
    | Some (s, e) =>
      if e =? p then lock_runs pages (Some (s, p + 1)) l
      else l ← pl_insert l s e; lock_runs pages (Some (p, p + 1)) l
    | None => lock_runs pages (Some (p, p + 1)) l
    end
  end.
Definition lock_all (current fut : bool) : M unit :=
  g ← self;
  l ← lift (if current
            then lock_runs (filter (λ x, x.2 = true) (pv_non_default (mapped g))).*1 None (locks g)
            else Ok (locks g));
  upd (with_locks (mkPL (ranges l) (pages l) fut)).

(** [GuestMemory::unlock_all] and [locks_future]. *)
Definition unlock_all : M unit := g ← self; upd (with_locks (pl_clear (locks g))).
Definition locks_future (g : GuestMemory) : bool := future (locks g).

(** [mark_shared], [take_tlb_dirty]. *)
Definition mark_shared : M unit :=
  upd (λ g, mkGM (base g) (msize g) (space g) (m_prot g) (mapped g) (mapped_count g) (file_backed g)
    (shared_anon g) (fork_policy g) (locks g) (tlb_dirty g) (kstack_pa g) true).
Definition take_tlb_dirty : M bool :=
  g ← self; _ ← upd (with_tlb_dirty false); mret (tlb_dirty g).

(** * Creation, fork, exec, exit *)

(** [install_kstack]; the [expect] is a panic. *)
Definition install_kstack (sp : AddrSpace) : ST Pool Z :=
  f ← fa_alloc;
  match f with
  | None => st_panic
  | Some frame =>
    old ← map_kstack sp frame;
    _ ← match old with Some o => on_fa (λ a, fa_free a o) | None => mret tt end;
    mret frame
  end.

(** The metadata of an empty space of [npages] pages. *)
Definition fresh_gm (base msize : Z) (sp : AddrSpace) (kstack : Z) : GuestMemory :=
  let npages := msize / PAGE_SIZE in
  mkGM base msize sp (pv_new npages Prot_NONE) (pv_new npages false) 0 (pv_new npages false)
    (pv_new npages false) ∅ pl_default false kstack false.

(** [GuestMemory::new_split]; [ceiling] is [limits::guest_memory_ceiling] and
    [vdso_image] the vDSO page. *)
Definition new_split (ceiling : Z) (vdso_image : list Z) (base vsize phys_bytes : Z)
    : res (GuestMemory * Pool) :=
  if negb (base mod PAGE_SIZE =? 0) then Panic
  else
    let msize := next_multiple_of (Z.max vsize PAGE_SIZE) HOST_PAGE in
    let phys_bytes := Z.min phys_bytes ceiling in
    let phys_pages := next_multiple_of phys_bytes HOST_PAGE / PAGE_SIZE in
    let pool_frames := phys_pages + phys_pages / 16 + CTRL_FRAMES + 128 in
    s ← pool_new (pool_frames * PAGE_SIZE);
    let s := mkPool (phys s) (fa_set_reserve (fa s) 64) in
    (_ ← reserve_and_build vdso_image;
     sp ← space_new;
     match sp with
     | None => st_panic
     | Some sp =>
       _ ← map_into sp;
       k ← install_kstack sp;
       mret (fresh_gm base msize sp k)
     end) s.

(** The republishing of shared pages in [try_fork]. *)
Definition republish (g : GuestMemory) (child : AddrSpace) (p : Z) : ST Pool unit := λ s,
  m ← pv_index (mapped g) p;
  if (m : bool) then
    pr ← pv_index (m_prot g) p;
    let va := base g + p * PAGE_SIZE in
    (_ ← space_protect (space g) va pr false;
     _ ← space_protect child va pr false; mret tt) s
  else Ok (tt, s).

(** Dropping the child's leaf of a page with a fork policy. *)
Definition drop_child_leaf (g : GuestMemory) (child : AddrSpace) (p : Z) : ST Pool unit :=
  r ← space_unmap child (base g + p * PAGE_SIZE);
  match r with Some frame => on_fa (λ a, fa_free a frame) | None => mret tt end.

(** The child's metadata, after the policies. *)
Definition apply_policy (st : PageVec bool * Z * PageVec bool * gmap Z Z) (x : Z * Z)
    : res (PageVec bool * Z * PageVec bool * gmap Z Z) :=
  let '(mp, n, sa, fp) := st in
  let '(p, policy) := x in
  sa ← pv_set sa p false;
  if policy =? FORK_DONT then
    was ← pv_index mp p;
    n ← usub n (if (was : bool) then 1 else 0);
    mp ← pv_set mp p false;
    Ok (mp, n, sa, fp)
  else Ok (mp, n, sa, <[p := policy]> fp).
Fixpoint apply_policies (st : PageVec bool * Z * PageVec bool * gmap Z Z) (l : list (Z * Z))
    : res (PageVec bool * Z * PageVec bool * gmap Z Z) :=
  match l with [] => Ok st | x :: l => st ← apply_policy st x; apply_policies st l end.

(** [GuestMemory::try_fork]: the child's record, or [None] with this space untouched. *)
Definition try_fork : M (option GuestMemory) :=
  g ← self;
  c ← pool (fork_cow (space g));
  match c with
  | None => mret None
  | Some child =>
    ks ← pool (
      _ ← on_fa (λ a, fa_set_use_reserve a true);
      _ ← map_into (space g);
      _ ← map_into child;
      parent_kstack ← install_kstack (space g);
      child_kstack ← install_kstack child;
      _ ← on_fa (λ a, fa_set_use_reserve a false);
      _ ← st_iter (republish g child) (pv_non_default (shared_anon g)).*1;
      _ ← st_iter (drop_child_leaf g child) (bt_list (fork_policy g)).*1;
      mret (parent_kstack, child_kstack));
    _ ← upd (with_kstack ks.1);
    st ← lift (apply_policies (mapped g, mapped_count g, shared_anon g, ∅) (bt_list (fork_policy g)));
    let '(mp, n, sa, fp) := st in
    mret (Some (mkGM (base g) (msize g) child (m_prot g) mp n (file_backed g) sa fp
                  pl_default false ks.2 (shared g)))
  end.

Definition clear_meta (sp : AddrSpace) (kstack : Z) (l : PageLocks) (dirty : bool)
    (g : GuestMemory) : GuestMemory :=
  mkGM (base g) (msize g) sp (pv_clear (m_prot g)) (pv_clear (mapped g)) 0 (pv_clear (file_backed g))
    (pv_clear (shared_anon g)) ∅ l dirty kstack (shared g).

(** [GuestMemory::retire]. *)
Definition retire : M unit :=
  g ← self;
  _ ← pool (space_destroy (space g));
  upd (λ g, clear_meta space_retired 0 (locks g) true g).

(** [GuestMemory::reset_space] ([exec_reset]). *)
Definition exec_reset : M unit :=
  g ← self;
  r ← pool (
    _ ← on_fa (λ a, fa_set_use_reserve a true);
    n ← space_new;
    match n with
    | None => st_panic
    | Some ns =>
      _ ← map_into ns;
      k ← install_kstack ns;
      _ ← space_destroy (space g);
      _ ← on_fa (λ a, fa_set_use_reserve a false);
      mret (ns, k)
    end);
  upd (λ g, clear_meta r.1 r.2 (pl_clear (locks g)) (tlb_dirty g) g).

(** * Fixed-width helpers *)

Definition read_u32 (addr : Z) : M (MemError + Z) :=
  b ←? mem_read addr 4; mret (inr (le_val b)).
Definition read_u64 (addr : Z) : M (MemError + Z) :=
  b ←? mem_read addr 8; mret (inr (le_val b)).
Definition write_u64 (addr val : Z) : M (MemError + unit) := mem_write addr (le_bytes 8 val).

(** [GuestMemory::read_cstr]. *)
Fixpoint read_cstr (addr : Z) (max : nat) : M (MemError + list Z) :=
  match max with
  | O => mret (inr [])
  | S max =>
    b ←? mem_read addr 1;
    match b with
    | 0 :: _ => mret (inr [])
    | b => rest ←? read_cstr (addr + 1) max; mret (inr (b ++ rest))
    end
  end.

(** How the kernel resolves a fault the vcpu reports ([Exit::MemFault] of [kernel/mod.rs]):
    on [true] the vcpu's TLB is flushed and the access retried. *)
Definition resolve_fault (addr : Z) (write : bool) : M bool :=
  b ← demand_fault addr; if (b : bool) then mret true else cow_fault addr write.
