(* ===== verification/GuestView.v ===== *)
(** What a guest sees: the byte view of an address space, and how demand paging,
    copy-on-write and the copy loops of [GuestMem] act on it.

    [view s t a] is the byte at guest address [a] in the space represented by the
    tree [t]: the byte of the mapped frame, or zero where nothing is mapped (a page
    that is reserved but never touched). *)
From S2P Require Import Prelude Phys PageTable PageTree PageFork PageVec PageLocks Ctrl GuestMem.
From stdpp Require Import base numbers gmap gmultiset list.
Local Open Scope Z_scope.

Definition view (s : Pool) (t : tree) (a : Z) : Z :=
  match lv t !! vpn a with
  | Some e => byte (phys s) (frame_of_entry e + a mod PAGE_SIZE)
  | None => 0
  end.

(** * Frames behind leaves *)

Section leaves.
Context (s : Pool) (root : Z) (t : tree) (R : gmultiset Z).
Hypothesis HS : is_space s root t R.

Lemma leaf_live n e : lv t !! n = Some e → 1 ≤ rc s (frame_of_entry e).
Proof.
  intros Hn. destruct (sp_acc _ _ _ _ HS (frame_of_entry e)) as [->|E]; [done|].
  rewrite E. unfold refs. rewrite !multiplicity_disj_union.
  assert ((frame_of_entry <$> lv t) !! n = Some (frame_of_entry e)) as Hf
    by by rewrite lookup_fmap, Hn.
  apply vals_lookup in Hf. lia.
Qed.

Lemma leaf_inside n e : lv t !! n = Some e → inside (phys s) (frame_of_entry e) FRAME.
Proof. intros Hn. apply (rc_inside s); [apply HS|by eapply leaf_live]. Qed.

(** A frame with one reference that a leaf holds is held by nobody else. *)
Lemma leaf_sole n e :
  lv t !! n = Some e → rc s (frame_of_entry e) = 1 →
  multiplicity (frame_of_entry e) (refs t) = 1%nat ∧ multiplicity (frame_of_entry e) R = 0%nat
  ∧ (∀ n' e', lv t !! n' = Some e' → frame_of_entry e' = frame_of_entry e → n' = n).
Proof.
  intros Hn H1. destruct (sp_acc _ _ _ _ HS (frame_of_entry e)) as [E|E]; [by rewrite H1 in E|].
  rewrite H1, multiplicity_disj_union in E.
  assert ((frame_of_entry <$> lv t) !! n = Some (frame_of_entry e)) as Hf
    by by rewrite lookup_fmap, Hn.
  pose proof (vals_lookup _ _ _ Hf) as Hge. unfold refs in *. rewrite multiplicity_disj_union in *.
  split_and!; [lia|lia|]. intros n' e' Hn' Hfe.
  eapply (vals_inj (frame_of_entry <$> lv t)); [|exact Hf|lia].
  by rewrite lookup_fmap, Hn', <- Hfe.
Qed.
End leaves.

(** * Changes that no view sees *)

Lemma mod_page_range a : 0 ≤ a mod PAGE_SIZE < FRAME.
Proof. by apply Z.mod_pos_bound. Qed.

(** Live frames outside the tables keep their bytes, so every view does. *)
Lemma view_keeps s s' root t R own a :
  is_space s root t R → keeps own s s' → (∀ q, own q → is_table t q ∨ rc s q = 0) →
  view s' t a = view s t a.
Proof.
  intros HS K Ho. unfold view. destruct (lv t !! vpn a) as [e|] eqn:E; [|done].
  pose proof (leaf_live _ _ _ _ HS _ _ E) as Hl. pose proof (mod_page_range a).
  eapply (kp_bytes _ _ _ K (frame_of_entry e)); [done| |lia].
  intros Hq. destruct (Ho _ Hq) as [Hq'|Hq']; [|lia].
  by eapply (sp_leaf_apart _ _ _ _ HS _ _ _ E).
Qed.

(** A tree whose leaves differ only at [n], where nothing was mapped and the new frame
    reads as zeros, gives the same view. *)
Lemma view_new_page s t t' n e :
  lv t !! n = None → lv t' = <[n := e]> (lv t) →
  (∀ i, 0 ≤ i < FRAME → byte (phys s) (frame_of_entry e + i) = 0) →
  ∀ a, view s t' a = view s t a.
Proof.
  intros Hn Elv Hz a. unfold view. rewrite Elv. destruct (decide (vpn a = n)) as [->|Hne].
  - rewrite lookup_insert_eq, Hn. apply Hz, mod_page_range.
  - by rewrite lookup_insert_ne by done.
Qed.

(** The same, where the new frame is a copy of the old one. *)
Lemma view_copy_page s t t' n e e' :
  lv t !! n = Some e → lv t' = <[n := e']> (lv t) →
  (∀ i, 0 ≤ i < FRAME →
     byte (phys s) (frame_of_entry e' + i) = byte (phys s) (frame_of_entry e + i)) →
  ∀ a, view s t' a = view s t a.
Proof.
  intros Hn Elv Hz a. unfold view. rewrite Elv. destruct (decide (vpn a = n)) as [->|Hne].
  - rewrite lookup_insert_eq, Hn. apply Hz, mod_page_range.
  - by rewrite lookup_insert_ne by done.
Qed.

(** * Giving a reference back *)

Lemma space_decref s root t R q :
  is_space s root t ({[+ q +]} ⊎ R) →
  is_space (mkPool (phys s) (fa_decref (fa s) q)) root t R.
Proof.
  intros HS. pose proof (sp_pool _ _ _ _ HS) as Hwf. split; simpl.
  - by apply decref_wf.
  - apply HS.
  - intros l k pa Hk. rewrite decref_other; [by eapply HS|done|]. intros ->.
    apply (sp_once _ _ _ _ HS) in Hk as (_ & _ & Hm).
    rewrite multiplicity_disj_union, multiplicity_singleton_eq in Hm. lia.
  - apply accounts_decref; [done|]. eapply accounts_eq; [apply HS|].
    generalize (refs t). intros. multiset_solver.
Qed.

Lemma decref_count s q x :
  pool_wf s →
  rc (mkPool (phys s) (fa_decref (fa s) q)) x
    = if decide (x = q ∧ 1 ≤ rc s q ∧ rc s q ≠ PINNED) then rc s q - 1 else rc s x.
Proof.
  intros Hwf. destruct (fa_decref_spec (fa s) q (pl_fa _ Hwf)) as (_ & _ & Hrc & _). apply Hrc.
Qed.

(** * Storing into a data frame *)

(** Bytes written into a live frame that is no table: the tree stands. *)
Lemma space_store s p' root t R q buf :
  is_space s root t R → Forall is_byte buf → stored (phys s) p' q buf →
  (∀ x i, is_table t x → x ≤ i < x + FRAME → ¬ (q ≤ i < q + Z.of_nat (length buf))) →
  is_space (mkPool p' (fa s)) root t R.
Proof.
  intros HS Hb Hst Hout. split; simpl.
  - eapply pool_wf_stored; [apply HS|done|done].
  - destruct (sp_tree _ _ _ _ HS) as [T1 T2 T3 T4 T5]. split; [done..|].
    intros l k pa i Hk Hi. rewrite <- (T5 _ _ _ _ Hk Hi). apply ld_ext. intros j Hj.
    apply Hst. apply (Hout pa); [by do 2 eexists|]. unfold FRAME, PAGE_SIZE. lia.
  - apply HS.
  - apply HS.
Qed.

Lemma frames_disjoint q x i :
  aligned q → aligned x → q ≠ x → q ≤ i < q + FRAME → ¬ (x ≤ i < x + FRAME).
Proof.
  unfold aligned, FRAME, PAGE_SIZE. intros Hq Hx Hne Hi.
  apply Z.mod_divide in Hq as [y ->], Hx as [z ->]; lia.
Qed.

(** * Invisible changes *)

(** From [s]/[t] to [s']/[t']: at most the leaves of the pages [N] were replaced, no
    view changed, no live frame but the tables changed, and no count grew. *)
Record silent (root : Z) (R : gmultiset Z) (N : Z → Prop) (s : Pool) (t : tree) (s' : Pool)
    (t' : tree) : Prop := {
  si_space : is_space s' root t' R;
  si_keeps : keeps (is_table t) s s';
  si_new q : is_table t' q → is_table t q ∨ rc s q = 0;
  si_rc q : 1 ≤ rc s q → 1 ≤ rc s' q ≤ rc s q;
  si_view a : view s' t' a = view s t a;
  si_lv n : ¬ N n → lv t' !! n = lv t !! n;
  si_some n : is_Some (lv t !! n) → is_Some (lv t' !! n)
}.

Lemma silent_refl root R N s t : is_space s root t R → silent root R N s t s t.
Proof. intros HS. split; [done|apply keeps_refl|by left|lia|done|done|done]. Qed.

Lemma rc_nonneg s q : pool_wf s → 0 ≤ rc s q ≤ PINNED.
Proof. intros Hwf. apply (fa_refcount_range (fa s)), Hwf. Qed.

Lemma silent_trans root R N s1 t1 s2 t2 s3 t3 :
  is_space s1 root t1 R → silent root R N s1 t1 s2 t2 → silent root R N s2 t2 s3 t3 →
  silent root R N s1 t1 s3 t3.
Proof.
  intros HS [A1 A2 A3 A4 A5 A6 A7] [B1 B2 B3 B4 B5 B6 B7]. split.
  - done.
  - eapply keeps_trans; [exact A2|exact B2|done|].
    intros q Hq Ho. destruct (A3 q Ho); [done|lia].
  - intros q Hq. destruct (B3 q Hq) as [|E]; [by apply A3|]. right.
    pose proof (rc_nonneg s1 q (sp_pool _ _ _ _ HS)). destruct (decide (1 ≤ rc s1 q)) as [Hl|]; [|lia].
    apply A4 in Hl. lia.
  - intros q Hq. pose proof (A4 q Hq). pose proof (B4 q ltac:(lia)). lia.
  - intros a. by rewrite B5.
  - intros n Hn. by rewrite B6, A6.
  - intros n Hn. by apply B7, A7.
Qed.

Lemma silent_weaken root R (N N' : Z → Prop) s t s' t' :
  silent root R N s t s' t' → (∀ n, N n → N' n) → silent root R N' s t s' t'.
Proof. intros [A1 A2 A3 A4 A5 A6 A7] H. split; naive_solver. Qed.

Lemma held_none (R : gmultiset Z) : held None ⊎ R = R.
Proof. unfold held. simpl. multiset_solver. Qed.

Lemma fresh_frame s s1 c : pool_wf s → allocated_frame s s1 c → is_frame c.
Proof.
  intros Hwf A. apply is_frame_intro; [apply A|]. pose proof (pw_size _ (pl_phys _ Hwf)).
  pose proof (al_pos _ _ _ A). destruct (al_inside _ _ _ A). unfold FRAME, PAGE_SIZE in *. lia.
Qed.

Lemma alloc_cases s :
  pool_wf s →
  fa_alloc s = Ok (None, s) ∨ ∃ c s1, fa_alloc s = Ok (Some c, s1) ∧ allocated_frame s s1 c.
Proof.
  intros Hwf. destruct (decide (free_list (fa s) = [] ∨ use_reserve (fa s) = false
      ∧ Z.of_nat (length (free_list (fa s))) ≤ reserve_n (fa s))) as [E|E].
  - left. by apply fa_alloc_None.
  - right. destruct (fa_alloc_Some s Hwf E) as (c & s1 & ? & ?). by exists c, s1.
Qed.

(** A fresh frame reads as zeros. *)
Lemma fresh_zero s s1 c i : allocated_frame s s1 c → 0 ≤ i < FRAME → byte (phys s1) (c + i) = 0.
Proof.
  intros A Hi. destruct (al_stored _ _ _ A) as [_ _ S3 _]. rewrite length_replicate in S3.
  rewrite S3 by (change (Z.of_nat FRAME_SZ) with FRAME; lia).
  apply lookup_total_replicate_2. unfold FRAME_SZ. lia.
Qed.

(** Taking a frame and giving it back after something silent happened. *)
Lemma silent_give_back root R N s t s1 s2 t2 c :
  is_space s root t R → allocated_frame s s1 c →
  keeps (λ q, is_table t q ∨ q = c) s1 s2 → (∀ q, is_table t2 q → is_table t q ∨ rc s1 q = 0) →
  (∀ q, 1 ≤ rc s1 q → rc s2 q = rc s1 q) → lv t2 = lv t →
  is_space s2 root t2 ({[+ c +]} ⊎ R) →
  silent root R N s t (mkPool (phys s2) (fa_decref (fa s2) c)) t2.
Proof.
  intros HS A K Hnew Hrc Elv HS2. pose proof (sp_pool _ _ _ _ HS2) as Hwf2.
  pose proof (space_decref _ _ _ _ _ HS2) as HS3. pose proof (al_fresh _ _ _ A) as Hc.
  assert (keeps (is_table t) s s2) as K2.
  { eapply keeps_trans; [eapply allocated_keeps; [exact A|apply HS]|exact K|done|].
    intros q Hq [Hq1| ->]; [done|lia]. }
  assert (∀ q, 1 ≤ rc s q → rc (mkPool (phys s2) (fa_decref (fa s2) c)) q = rc s q) as Hq.
  { intros q Hq. assert (q ≠ c) as Hne by (intros ->; lia).
    rewrite decref_other by done. rewrite Hrc; rewrite (al_rc _ _ _ A);
      by rewrite decide_False. }
  assert (keeps (is_table t) s (mkPool (phys s2) (fa_decref (fa s2) c))) as K3.
  { split; [apply K2|intros; by apply (kp_bytes _ _ _ K2 q)| |].
    - intros q H1 _. by rewrite Hq.
    - intros q. rewrite decref_pin by done. apply K2. }
  split; [done|done| | | | |by rewrite Elv].
  - intros q H1. destruct (Hnew q H1) as [|E]; [by left|right]. rewrite (al_rc _ _ _ A) in E.
    by case_decide.
  - intros q H1. rewrite Hq by done. lia.
  - intros a. unfold view at 1. rewrite Elv. apply (view_keeps s _ root t R (is_table t)); [done..|by left].
  - intros n _. by rewrite Elv.
Qed.

Lemma ensure_backed_ok s root t R prot va :
  is_space s root t R → aligned va →
  ∃ b s' t', ensure_backed (mkSpace root) prot va s = Ok (b, s')
    ∧ silent root R (λ n, n = vpn va) s t s' t'
    ∧ (b = true → is_Some (lv t' !! vpn va)).
Proof.
  intros HS Hva. unfold ensure_backed, mbind, ST_bind. rewrite (translate_spec _ _ _ _ _ HS).
  destruct (lv t !! vpn va) as [e|] eqn:E; simpl.
  { exists true, s, t. split_and!; [done|by apply silent_refl|]. intros _. by rewrite E. }
  destruct (alloc_cases s (sp_pool _ _ _ _ HS)) as [->|(c & s1 & -> & A)].
  { exists false, s, t. split_and!; [done|by apply silent_refl|done]. }
  pose proof (space_alloc _ _ _ _ _ _ A HS) as HS1.
  destruct (space_map_ok s1 root t R va c prot false HS1) as
    (r & s2 & t2 & -> & K2 & N2 & Q2 & Hr); [by eapply fresh_frame; [apply HS|]|done|].
  destruct r as [err|old].
  - destruct Hr as (-> & _ & Elv & HS2). eexists false, _, t2. split_and!; [done| |done].
    eapply silent_give_back; [done..| | | | |done]; [|done..].
    eapply keeps_weaken; [exact K2|tauto].
  - destruct Hr as (-> & Elv & HS2). rewrite E in HS2. simpl in HS2. rewrite held_none in HS2.
    destruct (leaf_entry_spec c prot false) as (_ & _ & Hfr & _);
      [by eapply fresh_frame; [apply HS|]|].
    exists true, s2, t2. split_and!; [done| |intros _; by rewrite Elv, lookup_insert_eq].
    assert (keeps (is_table t) s s2) as K.
    { eapply keeps_trans; [eapply allocated_keeps; [exact A|apply HS]|exact K2|done|done]. }
    split; [done|done| | | | |].
    + intros q Hq. destruct (N2 q Hq) as [|E1]; [by left|right]. rewrite (al_rc _ _ _ A) in E1.
      by case_decide.
    + intros q Hq. assert (q ≠ c) by (intros ->; rewrite (al_fresh _ _ _ A) in Hq; lia).
      assert (rc s1 q = rc s q) as E1 by (rewrite (al_rc _ _ _ A); by rewrite decide_False).
      rewrite Q2 by lia. lia.
    + intros a. rewrite (view_new_page s2 t t2 (vpn va) (leaf_entry c prot false) E Elv).
      * apply (view_keeps s _ root t R (is_table t)); [done..|by left].
      * intros i Hi. rewrite Hfr, <- (fresh_zero _ _ _ i A Hi).
        apply (kp_bytes _ _ _ K2 c); [|by eapply allocated_not_table|lia].
        rewrite (al_rc _ _ _ A). by rewrite decide_True.
    + intros n Hn. rewrite Elv. by rewrite lookup_insert_ne by done.
    + intros n Hn. rewrite Elv. apply lookup_insert_is_Some'. by right.
Qed.

Lemma page_of_frame f off : is_frame f → 0 ≤ off < PAGE_SIZE → page_of (f + off) = f.
Proof.
  intros Hf Hoff. destruct (is_frame_range f Hf) as [Ha Hr].
  rewrite <- (lor_add_aligned f off 12) by done. unfold page_of.
  unfold is_frame in Hf. rewrite Z.land_lor_distr_l. rewrite <- Hf at 1. rewrite <- Z.land_assoc.
  change (Z.land ADDR_MASK (U64 - 1 - (PAGE_SIZE - 1))) with ADDR_MASK. rewrite Hf.
  assert (Z.land off (U64 - 1 - (PAGE_SIZE - 1)) = 0) as ->; [|apply Z.lor_0_r].
  apply Z.bits_inj'. intros i Hi. rewrite Z.land_spec, Z.bits_0.
  destruct (decide (i < 12)) as [H|H]; [|by rewrite (testbit_high off 12) by (done || lia)].
  rewrite (testbit_low_aligned (U64 - 1 - (PAGE_SIZE - 1)) 12) by done. apply andb_false_r.
Qed.

Lemma keeps_stored s p' q buf :
  pool_wf s → aligned q → stored (phys s) p' q buf → Z.of_nat (length buf) ≤ FRAME →
  keeps (λ x, x = q) s (mkPool p' (fa s)).
Proof.
  intros Hwf Ha Hst Hl. split; simpl; [apply Hst| |done|done].
  intros x i Hx Hne Hi. apply Hst. destruct (rc_inside s x Hwf Hx) as [Hxa _].
  pose proof (frames_disjoint x q i Hxa Ha Hne Hi). lia.
Qed.

Lemma stored_copy p p' q src i :
  stored p p' q (get_bytes (rg_bytes (pm_region p)) src FRAME_SZ) → 0 ≤ i < FRAME →
  byte p' (q + i) = byte p (src + i).
Proof.
  intros [_ _ S3 _] Hi. rewrite length_get_bytes in S3.
  rewrite S3 by (change (Z.of_nat FRAME_SZ) with FRAME; lia).
  replace (q + i - q) with i by lia. apply list_lookup_total_correct.
  rewrite lookup_get_bytes by (unfold FRAME_SZ; lia). unfold byte. do 2 f_equal. lia.
Qed.

(** Privatizing a shared frame: the copy taken by [make_writable]. *)
Lemma privatize_ok s root t R prot va e c s1 :
  is_space s root t R → aligned va → lv t !! vpn va = Some e →
  1 < rc s (frame_of_entry e) → allocated_frame s s1 c →
  ∃ r s' t',
    (_ ← on_phys (λ p, phys_copy_frame p c (frame_of_entry e));
     r ← space_map (mkSpace root) va c prot false;
     match r with
     | inl _ => _ ← on_fa (λ a, fa_free a c); mret (inl exhausted_err)
     | inr old =>
       _ ← match old with Some o => on_fa (λ a, fa_decref a o) | None => mret tt end;
       mret (inr true)
     end) s1 = Ok (r, s')
    ∧ silent root R (λ n, n = vpn va) s t s' t'
    ∧ (∀ b, r = inr b → ∃ e', lv t' !! vpn va = Some e' ∧ leaf_prot e' = effective_prot prot
         ∧ rc s' (frame_of_entry e') = 1).
Proof.
  intros HS Hva He Hrc A. set (f := frame_of_entry e) in *.
  pose proof (sp_pool _ _ _ _ HS) as Hwf. pose proof (al_fresh _ _ _ A) as Hc0.
  assert (c ≠ f) as Hcf by (intros E; rewrite E in Hc0; lia).
  pose proof (space_alloc _ _ _ _ _ _ A HS) as HS1.
  destruct (leaf_inside _ _ _ _ HS _ _ He) as [Hf1 Hf2]. fold f in Hf1, Hf2.
  pose proof (is_frame_range f (is_frame_entry e)) as [Hfa _].
  destruct (allocated_keeps _ _ _ A Hwf) as [Hsz _ _ _].
  destruct (phys_copy_frame_ok (phys s1) c f) as (p' & Hcp & Hst).
  { apply HS1. } { split; [pose proof (al_pos _ _ _ A); lia|]. rewrite Hsz. apply (al_inside _ _ _ A). }
  { split; [done|]. by rewrite Hsz. } { apply A. } { done. } { done. }
  unfold mbind, ST_bind, on_phys at 1. rewrite Hcp. simpl.
  set (s2 := mkPool p' (fa s1)).
  assert (is_space s2 root t ({[+ c +]} ⊎ R)) as HS2.
  { eapply space_store; [done| |exact Hst|].
    - unfold get_bytes. apply Forall_fmap, Forall_true. intros i. apply HS1.
    - intros x i Hx Hi. rewrite length_get_bytes. change (Z.of_nat FRAME_SZ) with FRAME.
      destruct Hx as (l & k & Hk). apply (frames_disjoint x); [|apply A| |done].
      + by eapply sp_table in Hk as (_ & ? & _).
      + intros ->. eapply (allocated_not_table _ _ _ _ _ _ A HS). by do 2 eexists. }
  assert (∀ q, rc s2 q = if decide (q = c) then 1 else rc s q) as Hrc2 by apply A.
  assert (keeps (λ q, q = c) s1 s2) as K12.
  { apply keeps_stored with (buf := get_bytes (rg_bytes (pm_region (phys s1))) f FRAME_SZ);
      [apply A|apply A|done|]. by rewrite length_get_bytes. }
  destruct (space_map_ok s2 root t R va c prot false HS2) as
    (r & s3 & t3 & -> & K3 & N3 & Q3 & Hr); [by eapply fresh_frame|done|].
  assert (keeps (λ q, is_table t q ∨ q = c) s1 s3) as K13.
  { eapply keeps_trans; [exact K12|exact K3|naive_solver..]. }
  destruct r as [err|old].
  - destruct Hr as (-> & _ & Elv & HS3). eexists (inl exhausted_err), _, t3.
    split_and!; [done| |done]. eapply silent_give_back; [done|done|exact K13|exact N3|exact Q3|done|done].
  - destruct Hr as (-> & Elv & HS3). rewrite He in *. simpl in *. fold f in HS3.
    destruct (leaf_entry_spec c prot false) as (_ & _ & Hfr & Hlp & _); [by eapply fresh_frame|].
    set (s4 := mkPool (phys s3) (fa_decref (fa s3) f)).
    pose proof (sp_pool _ _ _ _ HS3) as Hwf3.
    assert (∀ q, 1 ≤ rc s q → rc s3 q = rc s q) as Hq3.
    { intros q Hq. rewrite Q3; rewrite Hrc2; rewrite decide_False by (intros ->; lia); lia. }
    assert (∀ q, rc s4 q = if decide (q = f ∧ 1 ≤ rc s3 f ∧ rc s3 f ≠ PINNED)
                           then rc s3 f - 1 else rc s3 q) as Hrc4
      by (intros q; by apply decref_count).
    assert (keeps (is_table t) s s3) as K.
    { eapply keeps_trans; [eapply allocated_keeps; done|exact K13|done|].
      intros q Hq [Hq1| ->]; [done|lia]. }
    exists (inr true), s4, t3. split_and!; [done| |].
    + split.
      * by apply space_decref.
      * split; [apply K|apply K| |].
        -- intros q Hq _. rewrite Hrc4, (Hq3 f) by lia.
           destruct (decide (q = f ∧ 1 ≤ rc s f ∧ rc s f ≠ PINNED)) as [[-> _]|]; [lia|].
           by rewrite Hq3.
        -- intros q. unfold s4. rewrite decref_pin by done. apply K.
      * intros q Hq. destruct (N3 q Hq) as [|E1]; [by left|right]. rewrite Hrc2 in E1. by case_decide.
      * intros q Hq. rewrite Hrc4, (Hq3 f), (Hq3 q) by lia.
        destruct (decide (q = f ∧ 1 ≤ rc s f ∧ rc s f ≠ PINNED)) as [[-> _]|]; lia.
      * intros a. change (view s4 t3 a) with (view s3 t3 a).
        rewrite (view_copy_page s3 t t3 (vpn va) e (leaf_entry c prot false) He Elv).
        -- apply (view_keeps s _ root t R (is_table t)); [done..|by left].
        -- intros i Hi. rewrite Hfr. fold f.
           transitivity (byte (phys s2) (c + i)).
           { apply (kp_bytes _ _ _ K3 c); [rewrite Hrc2; by rewrite decide_True|by eapply allocated_not_table|lia]. }
           simpl. rewrite (stored_copy _ _ _ _ _ Hst Hi).
           symmetry. transitivity (byte (phys s) (f + i)).
           { apply (kp_bytes _ _ _ K f); [lia| |lia]. intros Ht.
             by eapply (sp_leaf_apart _ _ _ _ HS _ _ _ He). }
           symmetry. apply (kp_bytes _ _ _ (allocated_keeps _ _ _ A Hwf) f); [lia|tauto|lia].
      * intros n Hn. rewrite Elv. by rewrite lookup_insert_ne by done.
      * intros n Hn. rewrite Elv. apply lookup_insert_is_Some'. by right.
    + intros b _. exists (leaf_entry c prot false). rewrite Elv, lookup_insert_eq. split_and!; [done|exact Hlp|].
      rewrite Hfr, Hrc4. rewrite decide_False by naive_solver. rewrite Q3; rewrite Hrc2;
        by rewrite decide_True.
Qed.

(** Changing a leaf's protection in place changes no view. *)
Lemma protect_leaf_ok s root t R va prot e :
  is_space s root t R → lv t !! vpn va = Some e →
  ∃ s' t', space_protect (mkSpace root) va prot false s = Ok (true, s')
    ∧ silent root R (λ n, n = vpn va) s t s' t' ∧ fa s' = fa s
    ∧ lv t' = <[vpn va := leaf_entry (frame_of_entry e) prot false]> (lv t).
Proof.
  intros HS He. destruct (space_protect_ok s root t R va prot false HS) as (s' & E & K & Hfa & HS').
  rewrite He in E. set (e' := leaf_entry (frame_of_entry e) prot false).
  set (t' := mkTree _ _) in HS'.
  destruct (leaf_entry_spec (frame_of_entry e) prot false (is_frame_entry e)) as (_ & _ & Hfr & _).
  assert (lv t' = <[vpn va := e']> (lv t)) as Elv.
  { apply map_eq. intros n. simpl. destruct (decide (n = vpn va)) as [->|Hne].
    - by rewrite lookup_alter_eq, He, lookup_insert_eq.
    - by rewrite lookup_alter_ne, lookup_insert_ne. }
  exists s', t'. split_and!; [exact E| |done|done].
  split; [done|done| | | | |].
  - intros q Hq. by left.
  - intros q Hq. unfold rc. rewrite Hfa. fold (rc s q). lia.
  - intros a. rewrite (view_copy_page s' t t' (vpn va) e e' He Elv).
    + apply (view_keeps s _ root t R (is_table t)); [done..|by left].
    + intros x _. unfold e'. by rewrite Hfr.
  - intros n Hn. rewrite Elv. by rewrite lookup_insert_ne by done.
  - intros n Hn. rewrite Elv. apply lookup_insert_is_Some'. by right.
Qed.

Lemma make_writable_ok s root t R prot va sa e :
  is_space s root t R → aligned va → lv t !! vpn va = Some e →
  ∃ r s' t', make_writable (mkSpace root) prot va sa s = Ok (r, s')
    ∧ silent root R (λ n, n = vpn va) s t s' t'
    ∧ (∀ b, r = inr b → ∃ e', lv t' !! vpn va = Some e' ∧ leaf_prot e' = effective_prot prot ∧
         if (sa : bool) then frame_of_entry e' = frame_of_entry e
         else rc s' (frame_of_entry e') = 1).
Proof.
  intros HS Hva He. unfold make_writable. unfold mbind at 1, ST_bind at 1.
  rewrite (translate_spec _ _ _ _ _ HS), He. cbn [fmap option_fmap option_map].
  assert (page_of (paddr (trans_of va e)) = frame_of_entry e) as Hpg.
  { unfold trans_of. cbn [paddr]. apply page_of_frame; [apply is_frame_entry|by apply Z.mod_pos_bound]. }
  rewrite Hpg. unfold mbind at 1, ST_bind at 1. fold (rc s (frame_of_entry e)).
  pose proof (leaf_live _ _ _ _ HS _ _ He) as Hl.
  destruct (negb sa && (1 <? rc s (frame_of_entry e))) eqn:E.
  - apply andb_true_iff in E as [Hsa Hrc]. apply negb_true_iff in Hsa as ->.
    unfold mbind at 1, ST_bind at 1.
    destruct (alloc_cases s (sp_pool _ _ _ _ HS)) as [->|(c & s1 & -> & A)].
    + exists (inl exhausted_err), s, t. split_and!; [done|by apply silent_refl|done].
    + apply privatize_ok with (e := e) (s := s); [done..|lia|done].
  - unfold mbind, ST_bind.
    destruct (protect_leaf_ok s root t R va prot e HS He) as (s' & t' & -> & S & Hfa & Elv).
    eexists (inr _), s', t'. split_and!; [done|done|].
    intros b _. eexists. rewrite Elv, lookup_insert_eq.
    destruct (leaf_entry_spec (frame_of_entry e) prot false (is_frame_entry e)) as (_ & _ & Hfr & Hlp & _).
    split_and!; [done|exact Hlp|]. rewrite Hfr.
    destruct sa; [done|]. unfold rc. rewrite Hfa. fold (rc s (frame_of_entry e)). simpl in E. lia.
Qed.

(** * Copying out *)

Lemma vpn_same_page a b : a / PAGE_SIZE = b / PAGE_SIZE → vpn a = vpn b.
Proof. unfold vpn. by intros ->. Qed.

Lemma copy_out_ok s root t R :
  is_space s root t R →
  ∀ fuel cur len, 0 ≤ len ≤ Z.of_nat fuel →
    copy_out_loop fuel (mkSpace root) cur len s = Ok (view s t <$> seqZ cur len, s).
Proof.
  intros HS. induction fuel as [|fuel IH]; intros cur len Hl.
  { replace len with 0 by lia. done. }
  cbn [copy_out_loop]. destruct (Z.leb_spec len 0) as [H0|H0].
  { by replace len with 0 by lia. }
  set (off := cur mod PAGE_SIZE). set (n := Z.min len (PAGE_SIZE - off)).
  assert (0 ≤ off < PAGE_SIZE) as Hoff by by apply Z.mod_pos_bound.
  unfold mbind at 1, ST_bind at 1. rewrite (translate_spec _ _ _ _ _ HS).
  assert (∀ i, 0 ≤ i < n → vpn (cur + i) = vpn cur ∧ (cur + i) mod PAGE_SIZE = off + i) as Hpage.
  { intros i Hi. unfold n, off in *. split; [apply vpn_same_page|]; unfold PAGE_SIZE in *; divlia. }
  assert ((match trans_of cur <$> lv t !! vpn cur with
     | Some tr => λ s, b ← phys_read (phys s) (paddr tr) (Z.to_nat n); mret (b, s)
     | None => mret (replicate (Z.to_nat n) 0)
     end : ST Pool (list Z)) s = Ok (view s t <$> seqZ cur n, s)) as Hrd.
  { unfold view. destruct (lv t !! vpn cur) as [e|] eqn:E; simpl.
    - destruct (leaf_inside _ _ _ _ HS _ _ E) as [Hi1 Hi2]. unfold FRAME in Hi2.
      rewrite phys_read_ok; [|apply HS|fold off; split; lia].
      unfold mbind, res_bind. do 2 f_equal. unfold get_bytes.
      apply list_eq. intros i. rewrite !list_lookup_fmap, Z2Nat.id by lia.
      destruct (decide (Z.of_nat i < n)) as [Hlt|Hge].
      + rewrite !lookup_seqZ_lt by lia. simpl.
        destruct (Hpage (Z.of_nat i) ltac:(lia)) as [-> ->]. rewrite E. fold off. do 2 f_equal. lia.
      + rewrite !lookup_seqZ_ge by lia. done.
    - unfold mret, ST_ret. do 2 f_equal. apply list_eq. intros i. rewrite list_lookup_fmap.
      destruct (decide (Z.of_nat i < n)) as [Hlt|Hge].
      + rewrite lookup_seqZ_lt by lia. simpl. rewrite lookup_replicate_2 by lia.
        destruct (Hpage (Z.of_nat i) ltac:(lia)) as [-> _]. by rewrite E.
      + rewrite lookup_seqZ_ge by lia. simpl. apply lookup_replicate_None. lia. }
  unfold mbind at 1, ST_bind at 1. rewrite Hrd.
  unfold mbind, ST_bind. rewrite IH by (unfold n; lia).
  unfold mret, ST_ret. do 2 f_equal. rewrite <- fmap_app. f_equal.
  replace len with (n + (len - n)) at 2 by lia. rewrite seqZ_app by (unfold n; lia). done.
Qed.

(** * Copying in *)

(** Canonical addresses: the walk sees all of their bits. *)
Definition canonical (a : Z) : Prop := 0 ≤ a < 2 ^ 48.

Lemma vpn_inj_page a b : canonical a → canonical b → vpn a = vpn b → a / PAGE_SIZE = b / PAGE_SIZE.
Proof.
  unfold canonical, vpn, PAGE_SIZE. intros Ha Hb. rewrite !Z.mod_small; [done|..];
    change (2 ^ 36) with 68719476736; change (2 ^ 48) with 281474976710656 in *; divlia.
Qed.

(** The page of [a] is mapped by a frame nobody else holds. *)
Definition sole (s : Pool) (t : tree) (a : Z) : Prop :=
  ∃ e, lv t !! vpn a = Some e ∧ rc s (frame_of_entry e) = 1.

(** The frames this space alone holds through its leaves. *)
Definition sole_frame (s : Pool) (t : tree) (q : Z) : Prop :=
  ∃ n e, lv t !! n = Some e ∧ frame_of_entry e = q ∧ rc s q = 1.

Lemma store_piece s root t R cur buf e :
  is_space s root t R → canonical cur → Forall is_byte buf →
  lv t !! vpn cur = Some e → rc s (frame_of_entry e) = 1 →
  cur mod PAGE_SIZE + Z.of_nat (length buf) ≤ PAGE_SIZE →
  ∃ s', on_phys (λ p, phys_write p (frame_of_entry e + cur mod PAGE_SIZE) buf) s = Ok (tt, s')
    ∧ is_space s' root t R ∧ fa s' = fa s ∧ keeps (sole_frame s t) s s'
    ∧ ∀ a, canonical a → view s' t a =
        if decide (cur ≤ a < cur + Z.of_nat (length buf)) then buf !!! Z.to_nat (a - cur)
        else view s t a.
Proof.
  intros HS Hcan Hb He H1 Hlen. set (f := frame_of_entry e) in *.
  set (off := cur mod PAGE_SIZE) in *.
  assert (0 ≤ off < PAGE_SIZE) as Hoff by by apply Z.mod_pos_bound.
  destruct (leaf_inside _ _ _ _ HS _ _ He) as [Hi1 Hi2]. fold f in Hi1, Hi2. unfold FRAME in Hi2.
  pose proof (is_frame_range f (is_frame_entry e)) as [Hfa _].
  destruct (phys_write_ok (phys s) (f + off) buf) as (p' & Hw & Hst); [apply HS|split; lia|].
  exists (mkPool p' (fa s)). unfold on_phys. rewrite Hw. split; [done|].
  assert (∀ x i, aligned x → x ≠ f → x ≤ i < x + FRAME →
    ¬ (f + off ≤ i < f + off + Z.of_nat (length buf))) as Hout.
  { intros x i Hx Hne Hi. pose proof (frames_disjoint x f i Hx Hfa Hne Hi). unfold FRAME in *. lia. }
  destruct (leaf_sole _ _ _ _ HS _ _ He H1) as (_ & _ & Hsole). fold f in Hsole.
  split_and!; [|done| |].
  - eapply space_store; [done|done|exact Hst|]. intros x i Hx Hi.
    apply (Hout x); [|intros ->; by eapply (sp_leaf_apart _ _ _ _ HS _ _ _ He)|done].
    destruct Hx as (l & k & Hk). by eapply sp_table in Hk as (_ & ? & _).
  - split; simpl; [apply Hst| |done|done]. intros q i Hq Hns Hi. apply Hst.
    apply (Hout q); [|intros ->; apply Hns; by exists (vpn cur), e|done].
    apply (rc_inside s); [apply HS|done].
  - intros a Hca. unfold view. destruct (lv t !! vpn a) as [ea|] eqn:Ea.
    2: { rewrite decide_False; [done|]. intros Hr. rewrite (vpn_same_page a cur) in Ea; [congruence|].
         unfold off, PAGE_SIZE in *. divlia. }
    simpl. pose proof (mod_page_range a) as Hma.
    destruct (decide (frame_of_entry ea = f)) as [Hfe|Hfe].
    + pose proof (vpn_inj_page a cur Hca Hcan (Hsole _ _ Ea Hfe)) as Hp. rewrite Hfe.
      assert (a mod PAGE_SIZE - off = a - cur) as Hd by (unfold off, PAGE_SIZE in *; divlia).
      case_decide as Hr.
      * rewrite (st_in _ _ _ _ Hst) by lia. f_equal. lia.
      * apply (st_out _ _ _ _ Hst). lia.
    + rewrite decide_False.
      * apply Hst. apply (Hout (frame_of_entry ea)); [|done|lia].
        apply (is_frame_range (frame_of_entry ea)), is_frame_entry.
      * intros Hr. rewrite (vpn_same_page a cur) in Ea; [|unfold off, PAGE_SIZE in *; divlia].
        rewrite He in Ea. by simplify_eq.
Qed.

Lemma store_loop_ok root t R fuel s cur buf :
  is_space s root t R → Forall is_byte buf → (length buf ≤ fuel)%nat →
  0 ≤ cur → cur + Z.of_nat (length buf) ≤ 2 ^ 48 →
  (∀ a, cur ≤ a < cur + Z.of_nat (length buf) → sole s t a) →
  ∃ s', store_loop fuel (mkSpace root) cur buf s = Ok (inr tt, s')
    ∧ is_space s' root t R ∧ fa s' = fa s ∧ keeps (sole_frame s t) s s'
    ∧ ∀ a, canonical a → view s' t a =
        if decide (cur ≤ a < cur + Z.of_nat (length buf)) then buf !!! Z.to_nat (a - cur)
        else view s t a.
Proof.
  revert s cur buf; induction fuel as [|fuel IH]; intros s cur buf HS Hb Hf H0 H48 Hsole.
  all: destruct buf as [|b0 buf0].
  1, 3: exists s; (split_and!; [done..|apply keeps_refl|]); intros a _; rewrite decide_False by (simpl; lia); done.
  { simpl in Hf. lia. }
  cbn [store_loop]. set (buf := b0 :: buf0) in *.
  set (n := Nat.min _ _). assert (0 ≤ cur mod PAGE_SIZE < PAGE_SIZE) as Hoff by by apply Z.mod_pos_bound.
  assert (1 ≤ n)%nat as Hn by (unfold n; change (length buf) with (S (length buf0)); lia).
  assert (n ≤ length buf)%nat as Hn2 by (unfold n; lia).
  destruct (Hsole cur) as (e & He & H1); [change (length buf) with (S (length buf0)); lia|].
  unfold mbind, ST_bind. rewrite (translate_spec _ _ _ _ _ HS), He.
  cbn [fmap option_fmap option_map]. unfold trans_of. cbn [paddr].
  assert (Z.of_nat (length (take n buf)) = Z.of_nat n) as Htk by (rewrite length_take; lia).
  destruct (store_piece s root t R cur (take n buf) e HS) as (s1 & E1 & HS1 & F1 & K1 & V1).
  { unfold canonical. lia. } { by apply Forall_take. } { done. } { done. }
  { rewrite Htk. unfold n. lia. }
  rewrite E1.
  assert (∀ q, rc s1 q = rc s q) as Hrc by (intros q; unfold rc; by rewrite F1).
  destruct (IH s1 (cur + Z.of_nat n) (drop n buf)) as (s2 & E2 & HS2 & F2 & K2 & V2).
  { done. } { by apply Forall_drop. } { rewrite length_drop. lia. } { lia. }
  { rewrite length_drop. lia. }
  { intros a Ha. rewrite length_drop in Ha. destruct (Hsole a) as (ea & Hea & Hra); [lia|].
    exists ea. by rewrite Hrc. }
  exists s2. split_and!; [done|done|congruence| |].
  - eapply keeps_trans; [exact K1|exact K2|done|]. intros q _ (n' & e' & ? & ? & Hq).
    exists n', e'. by rewrite <- Hrc.
  - intros a Ha. rewrite V2, V1 by done. rewrite length_drop, Htk.
    destruct (decide (cur + Z.of_nat n ≤ a < cur + Z.of_nat n + Z.of_nat (length buf - n))) as [H2|H2].
    + rewrite decide_True by lia. rewrite lookup_total_drop. f_equal. lia.
    + destruct (decide (cur ≤ a < cur + Z.of_nat n)) as [H3|H3].
      * rewrite decide_True by lia. by rewrite lookup_total_take, decide_True by lia.
      * by rewrite decide_False by lia.
Qed.
