(* ===== verification/GuestSpec.v ===== *)
(** What guest memory promises ([src/vcpu/mem.rs]): reads return the view, writes change
    exactly the bytes written, and a private write is never seen by another space. *)
From S2P Require Import Prelude Phys PageTable PageTree PageFork PageVec PageLocks Ctrl.
From S2P Require Import GuestMem GuestView.
From stdpp Require Import base numbers gmap gmultiset list.
Local Open Scope Z_scope.

(** * The invariant of one space *)

Definition npages (g : GuestMemory) : Z := msize g / PAGE_SIZE.

Definition pv_for {T} `{EqDecision T} (g : GuestMemory) (v : PageVec T) : Prop :=
  pv_wf v ∧ pv_len v = npages g.

(** How many pages are mapped. *)
Definition count_pages (f : Z → bool) (ps : list Z) : Z := foldr (λ p n, Z.b2z (f p) + n) 0 ps.
Definition pages_mapped (g : GuestMemory) : Z := count_pages (pv_val (mapped g)) (seqZ 0 (npages g)).

(** The extent lies below the control block, every per-page table covers it, and the
    count of mapped pages is kept. *)
Record gm_wf (g : GuestMemory) : Prop := {
  gw_base : 0 ≤ base g ∧ base g mod PAGE_SIZE = 0;
  gw_size : 0 < msize g ∧ msize g mod PAGE_SIZE = 0;
  gw_top : base g + msize g ≤ CTRL_GPA;
  gw_prot : pv_for g (m_prot g);
  gw_mapped : pv_for g (mapped g) ∧ pv_default (mapped g) = false;
  gw_file : pv_for g (file_backed g);
  gw_shared : pv_for g (shared_anon g);
  gw_locks : pl_wf (locks g);
  gw_count : mapped_count g = pages_mapped g
}.

Record gm_ok (s : Pool) (g : GuestMemory) (t : tree) (R : gmultiset Z) : Prop := {
  go_wf : gm_wf g;
  go_space : is_space s (pml4 (space g)) t R;
  go_clean p : 0 ≤ p < npages g → pv_val (mapped g) p = false → lv t !! vpn (page_base g p) = None
}.

Lemma ctrl_gpa_canonical : CTRL_GPA < 2 ^ 48.
Proof. done. Qed.

(** Pages and addresses of the extent. *)
Section geometry.
Context (g : GuestMemory).
Hypothesis Hwf : gm_wf g.

Lemma msize_pages : msize g = npages g * PAGE_SIZE.
Proof.
  destruct (gw_size _ Hwf) as [_ H]. unfold npages. unfold PAGE_SIZE in *. divlia.
Qed.

Lemma page_base_aligned p : aligned (page_base g p).
Proof.
  destruct (gw_base _ Hwf) as [_ H]. unfold page_base, aligned, FRAME. by rewrite Z.mod_add.
Qed.

Lemma page_base_canonical p : 0 ≤ p < npages g → canonical (page_base g p).
Proof.
  intros Hp. pose proof msize_pages. destruct (gw_base _ Hwf). pose proof (gw_top _ Hwf).
  pose proof ctrl_gpa_canonical. unfold canonical, page_base, PAGE_SIZE in *. nia.
Qed.

Lemma extent_page a :
  base g ≤ a < base g + msize g →
  canonical a ∧ 0 ≤ (a - base g) / PAGE_SIZE < npages g
  ∧ vpn a = vpn (page_base g ((a - base g) / PAGE_SIZE)).
Proof.
  intros Ha. pose proof msize_pages. destruct (gw_base _ Hwf) as [Hb Hb2]. pose proof (gw_top _ Hwf).
  pose proof ctrl_gpa_canonical. split_and!; [unfold canonical; lia| | |].
  - apply Z.div_pos; [lia|done].
  - apply Z.div_lt_upper_bound; [done|]. lia.
  - apply vpn_same_page. unfold page_base. unfold PAGE_SIZE in *. divlia.
Qed.

Lemma page_base_inj p q :
  0 ≤ p < npages g → 0 ≤ q < npages g → vpn (page_base g p) = vpn (page_base g q) → p = q.
Proof.
  intros Hp Hq E.
  apply vpn_inj_page in E; [|by apply page_base_canonical..].
  destruct (gw_base _ Hwf) as [_ Hb]. unfold page_base in E. unfold PAGE_SIZE in *. divlia.
Qed.

(** The span of pages of an in-range access. *)
Lemma page_range_in addr len :
  0 < len → base g ≤ addr → addr + len ≤ base g + msize g →
  ∃ first last, page_range g addr len = inr (first, last)
    ∧ 0 ≤ first ≤ last ∧ last < npages g
    ∧ ∀ p, first ≤ p ≤ last ↔ ∃ a, addr ≤ a < addr + len ∧ (a - base g) / PAGE_SIZE = p.
Proof.
  intros Hl H1 H2. pose proof (gw_top _ Hwf). pose proof ctrl_gpa_canonical. destruct (gw_base _ Hwf).
  unfold page_range. destruct (Z.eqb_spec len 0); [lia|]. unfold checked_add64.
  destruct (Z.ltb_spec (addr + (len - 1)) U64) as [_|Ho]; [|unfold U64 in Ho; lia].
  unfold offset_ok.
  replace ((addr <? base g) || (base g + msize g <=? addr)) with false by lia.
  replace ((addr + (len - 1) <? base g) || (base g + msize g <=? addr + (len - 1))) with false by lia.
  eexists _, _. split; [done|].
  destruct (extent_page addr) as (_ & Hp1 & _); [lia|].
  destruct (extent_page (addr + (len - 1))) as (_ & Hp2 & _); [lia|].
  split_and!; [lia| |lia|].
  - apply Z.div_le_mono; [done|lia].
  - intros p. split.
    + intros Hp. exists (Z.max addr (base g + p * PAGE_SIZE)).
      unfold PAGE_SIZE in *. split; divlia.
    + intros (a & Ha & <-). split; apply Z.div_le_mono; done || lia.
Qed.

Lemma page_range_out addr len :
  0 < len → ¬ (base g ≤ addr ∧ addr + len ≤ base g + msize g) →
  ∃ e, page_range g addr len = inl e.
Proof.
  intros Hl Hn. unfold page_range. destruct (Z.eqb_spec len 0); [lia|].
  destruct (checked_add64 addr (len - 1)) as [stop|] eqn:E; [|by eexists].
  unfold checked_add64 in E. destruct (addr + (len - 1) <? U64); [|done]. simplify_eq.
  unfold offset_ok. destruct ((addr <? base g) || (base g + msize g <=? addr)) eqn:E1; [by eexists|].
  destruct ((addr + (len - 1) <? base g) || (base g + msize g <=? addr + (len - 1))) eqn:E2;
    [by eexists|]. lia.
Qed.
End geometry.

(** * The permission check *)

Definition allowed (g : GuestMemory) (need a : Z) : Prop :=
  let p := (a - base g) / PAGE_SIZE in
  pv_val (mapped g) p = true ∧ prot_contains (pv_val (m_prot g) p) need = true.

Lemma get_index {T} `{EqDecision T} (g : GuestMemory) (v : PageVec T) p :
  pv_for g v → p < npages g → pv_index v p = Ok (pv_val v p).
Proof. intros [_ Hl] Hp. apply pv_index_val. lia. Qed.

Lemma get_mapped_ok s g p :
  gm_wf g → p < npages g → get_mapped p (s, g) = Ok (pv_val (mapped g) p, (s, g)).
Proof.
  intros Hwf Hp. unfold get_mapped, self, lift, mbind, ST_bind.
  by rewrite (get_index g (mapped g)) by (done || apply (gw_mapped _ Hwf)).
Qed.
Lemma get_prot_ok s g p :
  gm_wf g → p < npages g → get_prot p (s, g) = Ok (pv_val (m_prot g) p, (s, g)).
Proof.
  intros Hwf Hp. unfold get_prot, self, lift, mbind, ST_bind.
  by rewrite (get_index g (m_prot g)) by (done || apply (gw_prot _ Hwf)).
Qed.
Lemma get_shared_anon_ok s g p :
  gm_wf g → p < npages g → get_shared_anon p (s, g) = Ok (pv_val (shared_anon g) p, (s, g)).
Proof.
  intros Hwf Hp. unfold get_shared_anon, self, lift, mbind, ST_bind.
  by rewrite (get_index g (shared_anon g)) by (done || apply (gw_shared _ Hwf)).
Qed.

Lemma check_loop_ok s g need ps :
  gm_wf g → (∀ p, p ∈ ps → 0 ≤ p < npages g) →
  ∃ r, st_try (check_page g need) ps (s, g) = Ok (r, (s, g))
    ∧ (r = None ↔ ∀ p, p ∈ ps → pv_val (mapped g) p = true
         ∧ prot_contains (pv_val (m_prot g) p) need = true).
Proof.
  intros Hwf. induction ps as [|p ps IH]; intros Hin.
  { exists None. split; [done|]. split; [|done]. intros _ p Hp. by apply elem_of_nil in Hp. }
  destruct IH as (r & E & Hr); [intros q Hq; apply Hin, elem_of_cons; by right|].
  assert (0 ≤ p < npages g) as Hp by (apply Hin, elem_of_cons; by left).
  assert (∀ b, check_page g need p (s, g) = Ok (Some b, (s, g)) →
    ¬ (pv_val (mapped g) p = true ∧ prot_contains (pv_val (m_prot g) p) need = true) →
    ∃ r0, st_try (check_page g need) (p :: ps) (s, g) = Ok (r0, (s, g))
    ∧ (r0 = None ↔ ∀ q, q ∈ p :: ps → pv_val (mapped g) q = true
         ∧ prot_contains (pv_val (m_prot g) q) need = true)) as Hbad.
  { intros b Eb Hno. exists (Some b). cbn [st_try]. unfold mbind, ST_bind. rewrite Eb.
    split; [done|]. split; [done|]. intros H. destruct Hno. apply H, elem_of_cons. by left. }
  assert (check_page g need p (s, g) = Ok (
    if pv_val (mapped g) p then
      if prot_contains (pv_val (m_prot g) p) need then None
      else Some (Protection (page_base g p) need)
    else Some (Unmapped (page_base g p)), (s, g))) as Ec.
  { unfold check_page, mbind, ST_bind. rewrite get_mapped_ok by (done || lia).
    destruct (pv_val (mapped g) p); cbn [negb]; [|done].
    rewrite get_prot_ok by (done || lia). done. }
  destruct (pv_val (mapped g) p) eqn:E1; [|by eapply Hbad; [exact Ec|naive_solver]].
  destruct (prot_contains (pv_val (m_prot g) p) need) eqn:E2; [|by eapply Hbad; [exact Ec|naive_solver]].
  exists r. cbn [st_try]. unfold mbind, ST_bind. rewrite Ec. split; [done|]. rewrite Hr.
  setoid_rewrite elem_of_cons. naive_solver.
Qed.

Lemma check_paged_ok s root t R addr stop need fuel cur :
  is_space s root t R →
  ∃ r, check_paged_loop fuel (mkSpace root) addr cur stop need s = Ok (r, s).
Proof.
  intros HS. revert cur; induction fuel as [|fuel IH]; intros cur; simpl; case_match; try by eexists.
  unfold mbind, ST_bind. rewrite (translate_spec _ _ _ _ _ HS).
  destruct (lv t !! vpn cur); simpl; [|by eexists]. case_match; [apply IH|by eexists].
Qed.

(** The check never changes anything, and inside the extent it is exact. *)
Lemma check_ok s g t R addr len need :
  gm_ok s g t R → 0 ≤ addr → 0 < len → addr + len < U64 →
  ∃ r, check addr len need (s, g) = Ok (r, (s, g))
    ∧ (base g ≤ addr → addr + len ≤ base g + msize g →
       r = inr tt ↔ ∀ a, addr ≤ a < addr + len → allowed g need a).
Proof.
  intros [Hwf HS Hcl] H0 Hl Hu. unfold check. unfold mbind at 1, ST_bind at 1. cbn [self].
  unfold checked_add64. destruct (Z.ltb_spec (addr + len) U64); [|lia].
  destruct ((addr <? base g) || (base g + msize g <? addr + len)) eqn:E.
  - unfold check_paged, pool. destruct (space g) as [root]. simpl in HS.
    edestruct (check_paged_ok s root t R addr) as [r Er]; [done|]. rewrite Er.
    exists r. split; [done|]. intros. lia.
  - destruct (page_range_in g Hwf addr len) as (first & last & Er & Hp & Hn & Hpages); [lia..|].
    rewrite Er. unfold mbind, ST_bind.
    destruct (check_loop_ok s g need (seqZ first (last + 1 - first)) Hwf) as (r & El & Hr).
    { intros p Hpp%elem_of_seqZ. lia. }
    rewrite El. eexists. split; [done|]. intros _ _.
    assert (r = None ↔ ∀ a, addr ≤ a < addr + len → allowed g need a) as <-.
    { rewrite Hr. unfold allowed. split.
      - intros Hall a Ha. apply Hall. apply elem_of_seqZ.
        assert (first ≤ (a - base g) / PAGE_SIZE ≤ last); [|lia]. apply Hpages. by exists a.
      - intros Hall p Hpp%elem_of_seqZ.
        destruct (proj1 (Hpages p)) as (a & Ha & <-); [lia|]. by apply Hall. }
    destruct r; naive_solver.
Qed.

(** * Touching pages before a copy *)

Definition private (g : GuestMemory) (p : Z) : Prop := pv_val (shared_anon g) p = false.

Lemma make_writable_err sp prot va sa s e s' :
  make_writable sp prot va sa s = Ok (inl e, s') → e = exhausted_err.
Proof.
  unfold make_writable, mbind, ST_bind, on_phys, on_fa, mret, ST_ret. intros H.
  repeat (case_match; simplify_eq; try done).
Qed.

Lemma touch_page_err p s g e s' g' :
  touch_page p (s, g) = Ok (inl e, (s', g')) → e = exhausted_err.
Proof.
  unfold touch_page, mbind, ST_bind, pool. cbn [self]. intros H.
  destruct (get_prot p (s, g)) as [[pr [s1 g1]]|]; [|done].
  destruct (ensure_backed _ _ _ s1) as [[[] s2]|]; cbn [negb] in H; [|injection H as <-; reflexivity|done].
  destruct (get_shared_anon p (s2, g1)) as [[sa [s3 g3]]|]; [|done].
  destruct (make_writable _ _ _ _ s3) as [[r s4]|] eqn:E; [|done]. injection H as -> -> ->.
  by apply make_writable_err in E.
Qed.

Lemma touch_page_ok s g t R p :
  gm_ok s g t R → 0 ≤ p < npages g →
  ∃ r s' t', touch_page p (s, g) = Ok (r, (s', g))
    ∧ silent (pml4 (space g)) R (λ n, n = vpn (page_base g p)) s t s' t'
    ∧ (∀ b, r = inr b → is_Some (lv t' !! vpn (page_base g p))
         ∧ (private g p → sole s' t' (page_base g p))).
Proof.
  intros [Hwf HS Hcl] Hp. unfold touch_page. unfold mbind at 1, ST_bind at 1. cbn [self].
  unfold mbind at 1, ST_bind at 1. rewrite get_prot_ok by (done || lia).
  change (base g + p * PAGE_SIZE) with (page_base g p).
  pose proof (page_base_aligned g Hwf p) as Ha. destruct (space g) as [root] eqn:Esp. simpl in HS.
  destruct (ensure_backed_ok s root t R (pv_val (m_prot g) p) (page_base g p) HS Ha)
    as (ok & s1 & t1 & E1 & S1 & H1).
  unfold mbind at 1, ST_bind at 1, pool at 1. rewrite E1. destruct ok; cbn [negb].
  2: { exists (inl exhausted_err), s1, t1. split_and!; [done|done|done]. }
  destruct (H1 eq_refl) as [e He].
  unfold mbind, ST_bind. rewrite get_shared_anon_ok by (done || lia). unfold pool.
  destruct (make_writable_ok s1 root t1 R (pv_val (m_prot g) p) (page_base g p)
    (pv_val (shared_anon g) p) e) as (r & s2 & t2 & E2 & S2 & H2); [apply S1|done|done|].
  rewrite E2. exists r, s2, t2. split_and!; [done|by eapply silent_trans|].
  intros b ->. destruct (H2 b eq_refl) as (e' & He' & _ & Hf'). split; [by eexists|].
  intros Hpr. exists e'. split; [done|]. unfold private in Hpr. by rewrite Hpr in Hf'.
Qed.

Lemma with_tlb_dirty_id g : with_tlb_dirty (tlb_dirty g) g = g.
Proof. by destruct g. Qed.

Lemma gm_wf_tlb b g : gm_wf g → gm_wf (with_tlb_dirty b g).
Proof. intros [H1 H2 H3 H4 H5 H6 H7 H8 H9]. by split. Qed.

Lemma touch_pages_ok g R ps : ∀ s t changed,
  gm_ok s g t R → NoDup ps → (∀ p, p ∈ ps → 0 ≤ p < npages g ∧ pv_val (mapped g) p = true) →
  ∃ r s' t' d, touch_pages ps changed (s, g) = Ok (r, (s', with_tlb_dirty d g))
    ∧ silent (pml4 (space g)) R (λ n, ∃ p, p ∈ ps ∧ n = vpn (page_base g p)) s t s' t'
    ∧ (r = inr tt → ∀ p, p ∈ ps → is_Some (lv t' !! vpn (page_base g p))
         ∧ (private g p → sole s' t' (page_base g p)))
    ∧ (r = inr tt ∨ r = inl exhausted_err).
Proof.
  induction ps as [|p ps IH]; intros s t changed Hok ND Hin.
  - eexists (inr tt), s, t, _. split_and!; [done|apply silent_refl, Hok| |by left].
    intros _ p Hp. by apply elem_of_nil in Hp.
  - apply NoDup_cons in ND as [Hnp ND].
    destruct (Hin p) as [Hp Hmp]; [apply elem_of_cons; by left|].
    destruct (touch_page_ok s g t R p Hok Hp) as (r & s1 & t1 & E1 & S1 & H1).
    cbn [touch_pages]. unfold bindE. unfold mbind at 1, ST_bind at 1. rewrite E1.
    assert (∀ n, n = vpn (page_base g p) → ∃ q, q ∈ p :: ps ∧ n = vpn (page_base g q)) as Hw.
    { intros n ->. exists p. split; [apply elem_of_cons; by left|done]. }
    destruct r as [e|c].
    { exists (inl e), s1, t1, (tlb_dirty g). rewrite with_tlb_dirty_id.
      split_and!; [done|by eapply silent_weaken|done|].
      right. by rewrite (touch_page_err _ _ _ _ _ _ E1). }
    pose proof Hok as [Hwf HS Hcl].
    assert (gm_ok s1 g t1 R) as Hok1.
    { split; [done|apply S1|]. intros q Hq Hmq. rewrite (si_lv _ _ _ _ _ _ _ S1); [by apply Hcl|].
      intros E. apply page_base_inj in E; [|done..]. subst. by rewrite Hmp in Hmq. }
    destruct (IH s1 t1 (changed || c) Hok1 ND) as (r & s2 & t2 & d & E2 & S2 & H2 & H3).
    { intros q Hq. apply Hin, elem_of_cons. by right. }
    exists r, s2, t2, d. split_and!; [done| | |done].
    + eapply silent_trans; [exact HS|by eapply silent_weaken|]. eapply silent_weaken; [exact S2|].
      intros n (q & Hq & ->). exists q. split; [apply elem_of_cons; by right|done].
    + intros Hr q [->|Hq]%elem_of_cons; [|by apply H2].
      destruct (H1 c eq_refl) as [Hs1 Hsole]. split; [by apply (si_some _ _ _ _ _ _ _ S2)|].
      intros Hpr. destruct (Hsole Hpr) as (e & He & Hrc).
      assert (lv t2 !! vpn (page_base g p) = Some e) as He2.
      { rewrite (si_lv _ _ _ _ _ _ _ S2); [done|]. intros (q & Hq & E).
        apply page_base_inj in E; [|done|done|apply Hin, elem_of_cons; by right]. by subst. }
      exists e. split; [done|]. pose proof (si_rc _ _ _ _ _ _ _ S2 (frame_of_entry e)). lia.
Qed.

(** * Writing *)

Definition in_range (addr : Z) (buf : list Z) (a : Z) : Prop :=
  addr ≤ a < addr + Z.of_nat (length buf).

Global Instance in_range_dec addr buf a : Decision (in_range addr buf a).
Proof. unfold in_range. apply _. Defined.

(** Whatever [mem_write] does to the pool happens in its tables, in frames nobody held
    and in frames this space alone holds. *)
Record wrote_view (s : Pool) (g : GuestMemory) (t : tree) (R : gmultiset Z)
    (s' : Pool) (g' : GuestMemory) (t' : tree) : Prop := {
  wv_ok : gm_ok s' g' t' R;
  wv_meta : ∃ d, g' = with_tlb_dirty d g;
  wv_keeps : keeps (λ q, is_table t q ∨ sole_frame s' t' q) s s';
  wv_rc q : 1 ≤ rc s q → 1 ≤ rc s' q ≤ rc s q
}.

Lemma silent_wrote s g t R s' t' d (N : Z → Prop) :
  gm_ok s g t R → silent (pml4 (space g)) R N s t s' t' →
  (∀ p, 0 ≤ p < npages g → N (vpn (page_base g p)) → pv_val (mapped g) p = true) →
  wrote_view s g t R s' (with_tlb_dirty d g) t'.
Proof.
  intros [Hwf HS Hcl] S HN. split.
  - split; [by apply gm_wf_tlb|apply S|]. intros p Hp Hm. simpl in *.
    rewrite (si_lv _ _ _ _ _ _ _ S); [by apply Hcl|]. intros Hn.
    apply HN in Hn; [|done]. by rewrite Hn in Hm.
  - by exists d.
  - eapply keeps_weaken; [apply S|tauto].
  - apply S.
Qed.

(** When a write succeeds: everything it touches lies in the extent, is mapped and is
    writable; then only running out of frames can stop it. *)
Definition writable (g : GuestMemory) (addr : Z) (buf : list Z) : Prop :=
  (base g ≤ addr ∧ addr + Z.of_nat (length buf) ≤ base g + msize g)
  ∧ ∀ a, in_range addr buf a → allowed g Prot_WRITE a.
Definition write_outcome (g : GuestMemory) (addr : Z) (buf : list Z) (r : MemError + unit) : Prop :=
  r = inr tt ∧ (buf ≠ [] → writable g addr buf) ∨ r = inl exhausted_err
  ∨ (∃ e, r = inl e) ∧ ¬ writable g addr buf.

Lemma mem_write_ok s g t R addr buf :
  gm_ok s g t R → Forall is_byte buf → 0 ≤ addr → addr + Z.of_nat (length buf) < U64 →
  (∀ a, in_range addr buf a → private g ((a - base g) / PAGE_SIZE)) →
  ∃ r s' g' t', mem_write addr buf (s, g) = Ok (r, (s', g'))
    ∧ wrote_view s g t R s' g' t' ∧ write_outcome g addr buf r
    ∧ ∀ a, canonical a → view s' t' a =
        if decide (r = inr tt ∧ in_range addr buf a) then buf !!! Z.to_nat (a - addr)
        else view s t a.
Proof.
  intros Hok Hb H0 Hu Hpriv. pose proof Hok as [Hwf HS Hcl].
  assert (∀ (r : MemError + unit), (∀ a, ¬ (r = inr tt ∧ in_range addr buf a)) →
    write_outcome g addr buf r →
    ∃ r' s' g' t', Ok (r, (s, g)) = Ok (r', (s', g')) ∧ wrote_view s g t R s' g' t'
    ∧ write_outcome g addr buf r'
    ∧ ∀ a, canonical a → view s' t' a =
        if decide (r' = inr tt ∧ in_range addr buf a) then buf !!! Z.to_nat (a - addr)
        else view s t a) as Hnop.
  { intros r Hr Ho. exists r, s, g, t. split_and!; [done| |done|].
    - rewrite <- (with_tlb_dirty_id g) at 2. eapply silent_wrote; [done|by apply silent_refl|].
      by instantiate (1 := λ _, False).
    - intros a _. by rewrite decide_False. }
  destruct buf as [|b0 buf0]; [apply Hnop; [intros a [_ Ha]; unfold in_range in Ha; simpl in Ha; lia|by left]|].
  unfold mem_write. set (buf := b0 :: buf0) in *.
  assert (0 < Z.of_nat (length buf)) as Hlen by (unfold buf; simpl; lia).
  destruct (check_ok s g t R addr (Z.of_nat (length buf)) Prot_WRITE Hok H0 Hlen Hu)
    as (rk & Ec & Hc).
  unfold bindE at 1. unfold mbind at 1, ST_bind at 1. rewrite Ec.
  destruct rk as [e|[]].
  { apply Hnop; [naive_solver|]. right. right. split; [by eexists|]. intros [Hi Hall].
    assert (inl e = inr tt) as ?; [|done]. apply Hc; [apply Hi..|done]. }
  unfold copy_in. unfold mbind at 1, ST_bind at 1. cbn [self].
  destruct (decide (base g ≤ addr ∧ addr + Z.of_nat (length buf) ≤ base g + msize g)) as [Hin|Hout].
  2: { destruct (page_range_out g addr _ Hlen Hout) as [e ->]. apply Hnop; [naive_solver|].
       right. right. split; [by eexists|]. intros [Hi _]. exact (Hout Hi). }
  destruct Hin as [Hb1 Hb2]. pose proof (proj1 (Hc Hb1 Hb2) eq_refl) as Hall. clear Hc.
  destruct (page_range_in g Hwf addr _ Hlen Hb1 Hb2) as (first & last & Er & Hp & Hn & Hpages).
  rewrite Er.
  assert (∀ p, p ∈ seqZ first (last + 1 - first) → 0 ≤ p < npages g ∧ pv_val (mapped g) p = true) as Hin.
  { intros p Hpp%elem_of_seqZ. split; [lia|]. destruct (proj1 (Hpages p)) as (a & Ha & <-); [lia|].
    by apply Hall. }
  destruct (touch_pages_ok g R (seqZ first (last + 1 - first)) s t false Hok (NoDup_seqZ _ _) Hin)
    as (r & s1 & t1 & d & E1 & S1 & H1 & Hx).
  unfold bindE, mbind, ST_bind. rewrite E1.
  assert (wrote_view s g t R s1 (with_tlb_dirty d g) t1) as W1.
  { eapply silent_wrote; [done|exact S1|]. intros p Hpp (q & Hq & E).
    apply page_base_inj in E; [|done|done|by apply Hin]. subst. by apply Hin. }
  destruct r as [e|[]].
  { exists (inl e), s1, (with_tlb_dirty d g), t1. split_and!; [done|done| |].
    - right. left. by destruct Hx.
    - intros a _. rewrite decide_False by naive_solver. apply S1. }
  assert (∀ a, addr ≤ a < addr + Z.of_nat (length buf) → sole s1 t1 a) as Hsole.
  { intros a Ha. destruct (extent_page g Hwf a) as (_ & Hpa & Ev); [lia|]. unfold sole. rewrite Ev.
    apply (H1 eq_refl).
    - apply elem_of_seqZ. assert (first ≤ (a - base g) / PAGE_SIZE ≤ last); [|lia].
      apply Hpages. by exists a.
    - by apply Hpriv. }
  pose proof (gw_top _ Hwf). pose proof ctrl_gpa_canonical.
  destruct W1 as [Ok1 [d1 Ed1] K1 R1].
  destruct (space g) as [root] eqn:Esp. simpl in S1. unfold pool.
  destruct (store_loop_ok root t1 R (length buf) s1 addr buf) as (s2 & E2 & HS2 & F2 & K2 & V2);
    [apply S1|done|done|lia|lia|done|].
  rewrite E2. exists (inr tt), s2, (with_tlb_dirty d g), t1.
  assert (∀ q, rc s2 q = rc s1 q) as Hrc2 by (intros q; unfold rc; by rewrite F2).
  split_and!; [done| |left; split; [done|intros _; by split]|].
  - split.
    + split; [apply Ok1|simpl; by rewrite Esp|apply Ok1].
    + by exists d.
    + eapply keeps_trans; [apply S1|exact K2|tauto|]. intros q _ (n & e & ? & ? & Hq). right.
      exists n, e. by rewrite Hrc2.
    + intros q Hq. rewrite Hrc2. by apply S1.
  - intros a Ha. rewrite V2 by done. unfold in_range.
    destruct (decide (addr ≤ a < addr + Z.of_nat (length buf))) as [Hr|Hr].
    + by rewrite decide_True by done.
    + rewrite decide_False by naive_solver. apply S1.
Qed.

(** Another space beside this one. *)
Lemma other_space s g t root2 t2 R s' g' t' :
  gm_ok s g t (refs t2 ⊎ R) → is_space s root2 t2 (refs t ⊎ R) →
  wrote_view s g t (refs t2 ⊎ R) s' g' t' →
  is_space s' root2 t2 (refs t' ⊎ R) ∧ ∀ a, view s' t2 a = view s t2 a.
Proof.
  intros [Hwf HS _] HS2 [[Hwf' HS' _] _ K Hrc].
  assert (∀ q, (1 ≤ multiplicity q (refs t2))%nat →
    ¬ (is_table t q ∨ sole_frame s' t' q)) as Hown.
  { intros q Hq [(l & k & Hk)|(n & e & Hn & Hf & H1)].
    - apply (sp_once _ _ _ _ HS) in Hk as (_ & _ & Hm). rewrite multiplicity_disj_union in Hm. lia.
    - rewrite <- Hf in H1. apply (leaf_sole _ _ _ _ HS' _ _ Hn) in H1 as (_ & Hm & _).
      rewrite multiplicity_disj_union, Hf in Hm. lia. }
  split.
  - eapply (space_transfer s); [exact HS2|apply HS'|exact K| |].
    + intros q Hq. pose proof Hq as (l & k & Hk). split.
      * apply Hown. unfold refs. rewrite multiplicity_disj_union. apply vals_lookup in Hk. lia.
      * pose proof (sp_own _ _ _ _ HS2 _ _ _ Hk) as H1. pose proof (Hrc q ltac:(lia)). lia.
    + eapply accounts_eq; [apply HS'|]. rewrite !gmultiset_disj_union_assoc. f_equal.
      apply gmultiset_disj_union_comm.
  - intros a. unfold view. destruct (lv t2 !! vpn a) as [e|] eqn:E; [|done].
    pose proof (mod_page_range a).
    apply (kp_bytes _ _ _ K (frame_of_entry e)); [by eapply (leaf_live _ _ _ _ HS2)| |lia].
    apply Hown. unfold refs. rewrite multiplicity_disj_union.
    assert ((frame_of_entry <$> lv t2) !! vpn a = Some (frame_of_entry e)) as Hf
      by by rewrite lookup_fmap, E.
    apply vals_lookup in Hf. lia.
Qed.

(** * Properties *)

(** C1: process isolation of private memory. When one address space writes into its
    private pages, another space over the same pool - a forked parent or child, say -
    keeps its whole tree and sees exactly the bytes it saw before, whatever frames the
    two shared copy-on-write; the writer sees the new bytes where it wrote and the old
    ones elsewhere, and if the write fails it sees no change at all. The write succeeds
    only on a mapped, writable range, and on such a range it fails only for want of
    frames. *)
Theorem write_isolated s g t root2 t2 R addr buf :
  gm_ok s g t (refs t2 ⊎ R) → is_space s root2 t2 (refs t ⊎ R) →
  Forall is_byte buf → 0 ≤ addr → addr + Z.of_nat (length buf) < U64 →
  (∀ a, in_range addr buf a → private g ((a - base g) / PAGE_SIZE)) →
  ∃ r s' g' t', mem_write addr buf (s, g) = Ok (r, (s', g'))
    ∧ gm_ok s' g' t' (refs t2 ⊎ R) ∧ is_space s' root2 t2 (refs t' ⊎ R)
    ∧ (∀ a, view s' t2 a = view s t2 a)
    ∧ write_outcome g addr buf r
    ∧ ∀ a, canonical a → view s' t' a =
        if decide (r = inr tt ∧ in_range addr buf a) then buf !!! Z.to_nat (a - addr)
        else view s t a.
Proof.
  intros Hok HS2 Hb H0 Hu Hp.
  destruct (mem_write_ok s g t _ addr buf Hok Hb H0 Hu Hp) as (r & s' & g' & t' & E & W & O & V).
  destruct (other_space _ _ _ _ _ _ _ _ _ Hok HS2 W) as [HS2' V2].
  exists r, s', g', t'. split_and!; [done|apply W|done|done|done|done].
Qed.

Lemma mem_read_ok s g t R addr len :
  gm_ok s g t R → base g ≤ addr → 0 ≤ len → addr + len ≤ base g + msize g →
  ∃ r, mem_read addr len (s, g) = Ok (r, (s, g))
    ∧ (r = inr (view s t <$> seqZ addr len) ∧ (∀ a, addr ≤ a < addr + len → allowed g Prot_READ a)
       ∨ (∃ e, r = inl e) ∧ ∃ a, addr ≤ a < addr + len ∧ ¬ allowed g Prot_READ a).
Proof.
  intros Hok H1 H2 H3. pose proof Hok as [Hwf HS Hcl]. unfold mem_read.
  destruct (Z.eqb_spec len 0) as [->|Hne].
  { exists (inr []). split; [done|]. left. split; [done|]. intros; lia. }
  pose proof (gw_top _ Hwf). pose proof ctrl_gpa_canonical. destruct (gw_base _ Hwf).
  destruct (check_ok s g t R addr len Prot_READ Hok) as (r & Ec & Hc); [lia|lia|unfold U64; lia|].
  specialize (Hc H1 H3). unfold bindE. unfold mbind at 1, ST_bind at 1. rewrite Ec.
  destruct r as [e|[]].
  - exists (inl e). split; [done|]. right. split; [by eexists|].
    assert (¬ Forall (allowed g Prot_READ) (seqZ addr len)) as Hn.
    { intros Hall. rewrite Forall_forall in Hall.
      assert (inl e = inr tt) as ?; [|done]. apply Hc. intros a Ha. apply Hall.
      apply elem_of_seqZ. lia. }
    assert (∀ a, Decision (allowed g Prot_READ a)) as Hd by (intros a; unfold allowed; apply _).
    apply not_Forall_Exists in Hn; [|apply Hd].
    apply Exists_exists in Hn as (a & Ha%elem_of_seqZ & Hna). exists a. split; [lia|done].
  - unfold mbind, ST_bind. cbn [self]. unfold pool. destruct (space g) as [root] eqn:Esp.
    simpl in HS. unfold copy_out. rewrite (copy_out_ok s root t R HS) by lia.
    eexists. split; [done|]. left. split; [done|]. by apply Hc.
Qed.

(** Reading guest memory inside the extent. A read changes nothing; it returns the
    bytes of the view - zeros for pages reserved but never touched - exactly when
    every page of the range is mapped and readable, and fails otherwise. *)
Theorem read_spec s g t R addr len :
  gm_ok s g t R → base g ≤ addr → 0 ≤ len → addr + len ≤ base g + msize g →
  ∃ r, mem_read addr len (s, g) = Ok (r, (s, g))
    ∧ (r = inr (view s t <$> seqZ addr len) ∧ (∀ a, addr ≤ a < addr + len → allowed g Prot_READ a)
       ∨ (∃ e, r = inl e) ∧ ∃ a, addr ≤ a < addr + len ∧ ¬ allowed g Prot_READ a).
Proof. apply mem_read_ok. Qed.

(** What is written is read back. After a successful write into private, readable
    pages of the extent, reading the same range returns the bytes written. *)
Theorem write_read_roundtrip s g t R addr buf s' g' :
  gm_ok s g t R → Forall is_byte buf → base g ≤ addr →
  addr + Z.of_nat (length buf) ≤ base g + msize g →
  (∀ a, in_range addr buf a → private g ((a - base g) / PAGE_SIZE) ∧ allowed g Prot_READ a) →
  mem_write addr buf (s, g) = Ok (inr tt, (s', g')) →
  mem_read addr (Z.of_nat (length buf)) (s', g') = Ok (inr buf, (s', g')).
Proof.
  intros Hok Hb H1 H2 Hp E. pose proof Hok as [Hwf _ _].
  pose proof (gw_top _ Hwf). pose proof ctrl_gpa_canonical. destruct (gw_base _ Hwf).
  destruct (mem_write_ok s g t R addr buf Hok Hb) as (r & s1 & g1 & t1 & E1 & W & _ & V);
    [lia|unfold U64; lia|intros a Ha; by apply Hp|].
  rewrite E in E1. simplify_eq. destruct (wv_meta _ _ _ _ _ _ _ W) as [d ->].
  destruct (mem_read_ok s1 (with_tlb_dirty d g) t1 R addr (Z.of_nat (length buf)))
    as (r & Er & [[-> _]|[_ (a & Ha & Hna)]]); [apply W|done|lia|done| |].
  - rewrite Er. do 3 f_equal. apply list_eq. intros i. rewrite list_lookup_fmap.
    destruct (decide (i < length buf)%nat) as [Hi|Hi].
    + rewrite lookup_seqZ_lt by lia. simpl. rewrite V by (unfold canonical; lia).
      rewrite decide_True by (unfold in_range; split; [done|lia]).
      replace (Z.to_nat (addr + Z.of_nat i - addr)) with i by lia.
      symmetry. by apply list_lookup_lookup_total_lt.
    + rewrite lookup_seqZ_ge by lia. symmetry. apply lookup_ge_None_2. lia.
  - exfalso. apply Hna. apply (Hp a). unfold in_range. lia.
Qed.

(** * A concrete space *)

Definition set_page {T} `{EqDecision T} (v : PageVec T) (p : Z) (x : T) : PageVec T :=
  match pv_set v p x with Ok v' => v' | Panic => v end.

(** Sixteen pages at address 0, page 5 mapped read-write. *)
Definition demo_gm : GuestMemory :=
  mkGM 0 65536 (mkSpace 4096) (set_page (pv_new 16 Prot_NONE) 5 prot_rw)
    (set_page (pv_new 16 false) 5 true) 1 (pv_new 16 false) (pv_new 16 false) ∅ pl_default
    false 0 false.

Lemma set_page_ok {T} `{EqDecision T} n (d : T) p x :
  0 ≤ p < n → pv_wf (set_page (pv_new n d) p x) ∧ pv_len (set_page (pv_new n d) p x) = n
    ∧ pv_default (set_page (pv_new n d) p x) = d
    ∧ ∀ q, 0 ≤ q → pv_val (set_page (pv_new n d) p x) q = if decide (q = p) then x else d.
Proof.
  intros Hp. unfold set_page.
  destruct (pv_set_spec (pv_new n d) p x (pv_new_wf n d ltac:(lia)) Hp) as (v & -> & H1 & H2 & H3 & H4).
  split_and!; [done|done|done|]. intros q Hq. rewrite H4 by done. by rewrite pv_new_val.
Qed.

Lemma demo_gm_wf : gm_wf demo_gm.
Proof.
  destruct (set_page_ok 16 Prot_NONE 5 prot_rw ltac:(lia)) as (A1 & A2 & _).
  destruct (set_page_ok 16 false 5 true ltac:(lia)) as (B1 & B2 & B3 & _).
  split; try done; try (split; [by apply pv_new_wf|done]).
Qed.

Lemma demo_gm_ok s t R n0 :
  is_space s 4096 t R → lv t = {[ 5 := n0 ]} → gm_ok s demo_gm t R.
Proof.
  intros HS Hlv. split; [apply demo_gm_wf|exact HS|]. intros p Hp Hm.
  destruct (set_page_ok 16 false 5 true ltac:(lia)) as (_ & _ & _ & B).
  change (mapped demo_gm) with (set_page (pv_new 16 false) 5 true) in Hm.
  rewrite B in Hm by lia. case_decide as E; [done|].
  rewrite Hlv. apply lookup_singleton_None. unfold page_base, vpn. simpl. unfold PAGE_SIZE.
  change (npages demo_gm) with 16 in Hp. divlia.
Qed.

Definition demo_bytes : list Z := [104; 105].

Lemma demo_private a : private demo_gm a.
Proof. apply pv_new_val. Qed.

Lemma demo_readable a : 0x5000 ≤ a < 0x6000 → allowed demo_gm Prot_READ a.
Proof.
  intros Ha. unfold allowed. change (base demo_gm) with 0.
  replace ((a - 0) / PAGE_SIZE) with 5 by (unfold PAGE_SIZE; divlia). done.
Qed.

Definition demo_forked : Pool := after (fork_cow (mkSpace 4096) demo_mapped) demo_mapped.

(** A parent and its child share page 5; the parent writes to it. *)
Lemma write_isolated_witness :
  result_of (mem_write 0x5010 demo_bytes (demo_forked, demo_gm)) = Some (inr tt)
  ∧ ∃ t tc s' g' t', gm_ok demo_forked demo_gm t (refs tc ⊎ ∅)
    ∧ mem_write 0x5010 demo_bytes (demo_forked, demo_gm) = Ok (inr tt, (s', g'))
    ∧ (∀ a, view s' tc a = view demo_forked tc a)
    ∧ view s' t' 0x5010 = 104 ∧ view s' t' 0x5011 = 105.
Proof.
  assert (result_of (mem_write 0x5010 demo_bytes (demo_forked, demo_gm)) = Some (inr tt)) as C
    by (vm_compute; reflexivity).
  split; [exact C|]. destruct demo_mapped_space as (t & HS & Hlv).
  assert (result_of (fork_cow (mkSpace 4096) demo_mapped) = Some (Some (mkSpace 24576))) as Cf
    by (vm_compute; reflexivity).
  destruct (fork_cow_ok demo_mapped 4096 t ∅ HS (demo_bound t HS Hlv)) as (r & s & E & Hr).
  rewrite E in Cf. cbn in Cf. injection Cf as ->. destruct Hr as (tc & _ & H1 & H2 & _).
  assert (demo_forked = s) as Es by (unfold demo_forked; rewrite E; reflexivity).
  rewrite Es in *. set (tp := mkTree (tbl t) (ro <$> lv t)) in *.
  assert (gm_ok s demo_gm tp (refs tc ⊎ ∅)) as Hok.
  { eapply demo_gm_ok; [exact H1|]. unfold tp. simpl. rewrite Hlv. apply map_fmap_singleton. }
  destruct (write_isolated s demo_gm tp 24576 tc ∅ 0x5010 demo_bytes Hok H2)
    as (r & s' & g' & t' & E' & _ & _ & V2 & _ & V);
    [repeat constructor; done|done|done|intros a _; apply demo_private|].
  rewrite E' in C. cbn in C. injection C as ->.
  exists tp, tc, s', g', t'. split_and!; [exact Hok|exact E'|exact V2| |].
  - rewrite V; [reflexivity|split; [discriminate|reflexivity]].
  - rewrite V; [reflexivity|split; [discriminate|reflexivity]].
Defined.

Lemma read_spec_witness :
  ∃ r, mem_read 0x5010 2 (demo_mapped, demo_gm) = Ok (r, (demo_mapped, demo_gm))
    ∧ ∀ e, r ≠ inl e.
Proof.
  destruct demo_mapped_space as (t & HS & Hlv).
  destruct (read_spec demo_mapped demo_gm t ∅ 0x5010 2) as (r & E & [[-> _]|[_ (a & Ha & Hna)]]);
    [by eapply demo_gm_ok|done|done|done| |].
  - eexists. split; [exact E|]. discriminate.
  - exfalso. apply Hna, demo_readable. lia.
Defined.

Lemma write_read_roundtrip_witness :
  ∃ s' g', mem_write 0x5010 demo_bytes (demo_mapped, demo_gm) = Ok (inr tt, (s', g'))
    ∧ mem_read 0x5010 2 (s', g') = Ok (inr demo_bytes, (s', g')).
Proof.
  assert (result_of (mem_write 0x5010 demo_bytes (demo_mapped, demo_gm)) = Some (inr tt)) as C
    by (vm_compute; reflexivity).
  destruct demo_mapped_space as (t & HS & Hlv).
  destruct (mem_write 0x5010 demo_bytes (demo_mapped, demo_gm)) as [[r [s' g']]|] eqn:E;
    [|discriminate C].
  cbn in C. injection C as ->. exists s', g'. split; [reflexivity|].
  apply (write_read_roundtrip demo_mapped demo_gm t ∅ 0x5010 demo_bytes s' g');
    [by eapply demo_gm_ok|repeat constructor; done|done|done| |exact E].
  intros a Ha. split; [apply demo_private|]. apply demo_readable. unfold in_range in Ha. simpl in Ha. lia.
Defined.
