(* ===== verification/GuestMap.v ===== *)
(** Changing what a space maps ([src/vcpu/mem.rs]): [map], [unmap] and [protect] keep the
    invariant, give fresh pages that read as zero, and leave every other page and every
    other space alone. *)
From S2P Require Import Prelude Phys PageTable PageTree PageFork PageVec PageLocks Ctrl.
From S2P Require Import GuestMem GuestView GuestSpec.
From stdpp Require Import base numbers gmap gmultiset list.
Local Open Scope Z_scope.

(** * Dropping leaves *)

(** From [s]/[t] to [s']/[t']: the leaves of the pages in [N] are gone, their frames given
    back, and nothing else changed. *)
Record dropped (root : Z) (R : gmultiset Z) (N : list Z) (s : Pool) (t : tree) (s' : Pool)
    (t' : tree) : Prop := {
  dr_space : is_space s' root t' R;
  dr_keeps : keeps (λ q, is_table t q ∨ rc s' q = 0) s s';
  dr_rc q : rc s' q ≤ rc s q;
  dr_tables q : is_table t' q → is_table t q;
  dr_lv n : lv t' !! n = if decide (n ∈ N) then None else lv t !! n;
  dr_view a : view s' t' a = if decide (vpn a ∈ N) then 0 else view s t a
}.

Lemma dropped_refl root R s t : is_space s root t R → dropped root R [] s t s t.
Proof. intros HS. split; [done|apply keeps_refl|lia|done|done|done]. Qed.

Lemma dropped_trans root R N1 N2 s1 t1 s2 t2 s3 t3 :
  dropped root R N1 s1 t1 s2 t2 → dropped root R N2 s2 t2 s3 t3 →
  dropped root R (N1 ++ N2) s1 t1 s3 t3.
Proof.
  intros [A1 A2 A3 A4 A5 A6] [B1 B2 B3 B4 B5 B6].
  assert (∀ q, rc s2 q = 0 → rc s3 q = 0) as Hz.
  { intros q Hq. pose proof (B3 q). pose proof (rc_nonneg s3 q (sp_pool _ _ _ _ B1)). lia. }
  split; [done| | | | |].
  - eapply keeps_trans; [exact A2|exact B2| |]; intros q _; naive_solver.
  - intros q. etrans; [apply B3|apply A3].
  - intros q Hq. by apply A4, B4.
  - intros n. rewrite B5, A5. repeat case_decide; set_solver.
  - intros a. rewrite B6, A6. repeat case_decide; set_solver.
Qed.

Lemma vals_mono `{Countable K} (m m' : gmap K Z) q :
  m' ⊆ m → (multiplicity q (vals m') ≤ multiplicity q (vals m))%nat.
Proof.
  revert m. induction m' as [|k v m' Hk IH] using map_ind; intros m Hsub.
  - unfold vals. rewrite map_to_list_empty. simpl. rewrite multiplicity_empty. lia.
  - rewrite vals_insert by done.
    assert (m !! k = Some v) as Hm by (eapply lookup_weaken; [apply lookup_insert_eq|done]).
    rewrite (vals_delete m k v Hm), !multiplicity_disj_union.
    assert (m' ⊆ delete k m) as Hd.
    { apply map_subseteq_spec. intros k' x Hx. destruct (decide (k = k')) as [->|Hne]; [congruence|].
      rewrite lookup_delete_ne by done. eapply lookup_weaken; [|exact Hsub].
      by rewrite lookup_insert_ne. }
    specialize (IH _ Hd). lia.
Qed.

(** What [unmap] and the release of its frame leave. *)
Definition give_back (o : option Z) (s : Pool) : Pool :=
  match o with Some f => mkPool (phys s) (fa_free (fa s) f) | None => s end.

Lemma dropped_here s root t R v :
  is_space s root t R →
  ∃ s1 t', space_unmap (mkSpace root) v s = Ok (frame_of_entry <$> lv t !! vpn v, s1)
    ∧ dropped root R [vpn v] s t (give_back (frame_of_entry <$> lv t !! vpn v) s1) t'.
Proof.
  intros HS. destruct (space_unmap_ok s root t R v HS) as (s1 & t' & E & Elv & Etb & HS1 & K & _).
  exists s1, t'. split; [exact E|]. clear E.
  set (s2 := give_back _ s1). pose proof (sp_pool _ _ _ _ HS1) as Hwf1.
  assert (phys s2 = phys s1) as Hph by (unfold s2; by destruct (_ <$> _)).
  assert (is_space s2 root t' R) as HS2.
  { unfold s2. destruct (frame_of_entry <$> lv t !! vpn v) as [f|]; simpl.
    - by apply space_decref.
    - by rewrite held_none in HS1. }
  assert (∀ q, rc s2 q ≤ rc s1 q ∧ (rc s2 q = PINNED ↔ rc s1 q = PINNED)) as H21.
  { intros q. unfold s2. destruct (frame_of_entry <$> lv t !! vpn v) as [f|]; [|done].
    cbn [give_back]. unfold fa_free. rewrite decref_count by done. case_decide as Hq; [|done].
    destruct Hq as (-> & ? & ?). pose proof (rc_nonneg s1 f Hwf1). lia. }
  assert (∀ q, is_table t' q → is_table t q) as Htab.
  { intros q (l & k & Hk). exists l, k. eapply lookup_weaken; [exact Hk|exact Etb]. }
  assert (∀ q, rc s1 q ≤ rc s q) as H10.
  { intros q. destruct (sp_acc _ _ _ _ HS1 q) as [Ep|E1].
    - apply (kp_pin _ _ _ K) in Ep as ->. apply (rc_nonneg s1 q Hwf1).
    - destruct (sp_acc _ _ _ _ HS q) as [Ep|E0].
      + rewrite Ep. apply (rc_nonneg s1 q Hwf1).
      + rewrite E1, E0. apply inj_le. rewrite !multiplicity_disj_union. unfold refs.
        rewrite !multiplicity_disj_union, Elv, fmap_delete.
        pose proof (vals_mono (tbl t) (tbl t') q Etb).
        assert (multiplicity q (vals (delete (vpn v) (frame_of_entry <$> lv t)))
          + multiplicity q (held (frame_of_entry <$> lv t !! vpn v))
          = multiplicity q (vals (frame_of_entry <$> lv t)))%nat; [|lia].
        rewrite <- lookup_fmap. destruct ((frame_of_entry <$> lv t) !! vpn v) as [f|] eqn:Ef.
        * rewrite (vals_delete _ _ _ Ef), multiplicity_disj_union. cbn [held from_option]. lia.
        * rewrite delete_id by done. cbn [held from_option]. rewrite multiplicity_empty. lia. }
  assert (∀ a, vpn a ≠ vpn v → view s2 t' a = view s t a) as Hview.
  { intros a Ha. unfold view. rewrite Hph, Elv, lookup_delete_ne by done.
    apply (view_keeps s s1 root t R (is_table t) a HS K). by left. }
  split; [done| | |done| |].
  - split.
    + rewrite Hph. apply K.
    + intros q i Hq Ho Hi. rewrite Hph. apply (kp_bytes _ _ _ K q); [done|naive_solver|done].
    + intros q Hq Ho. destruct (rc_nonneg s2 q (sp_pool _ _ _ _ HS2)).
      assert (rc s2 q ≠ 0) by naive_solver. lia.
    + intros q. rewrite (proj2 (H21 q)). apply K.
  - intros q. etrans; [apply H21|apply H10].
  - intros n. rewrite Elv. case_decide as Hn; rewrite list_elem_of_singleton in Hn.
    + subst. by rewrite lookup_delete_eq.
    + by rewrite lookup_delete_ne.
  - intros a. case_decide as Hn; rewrite list_elem_of_singleton in Hn; [|by apply Hview].
    unfold view. by rewrite Elv, Hn, lookup_delete_eq.
Qed.

(** * Per-page bookkeeping *)

(** A page vector with some pages set to [x]. *)
Definition patched {T} (v v' : Z → T) (ps : list Z) (x : T) : Prop :=
  ∀ q, 0 ≤ q → v' q = if decide (q ∈ ps) then x else v q.

(** The pages [ps] now carry the given mapping state; nothing else changed. *)
Record page_update (ps : list Z) (mp : bool) (pr : Z) (g g' : GuestMemory) : Prop := {
  pu_wf : gm_wf g';
  pu_frame : base g' = base g ∧ msize g' = msize g ∧ space g' = space g ∧ locks g' = locks g;
  pu_mapped : patched (pv_val (mapped g)) (pv_val (mapped g')) ps mp;
  pu_prot : patched (pv_val (m_prot g)) (pv_val (m_prot g')) ps pr;
  pu_file : patched (pv_val (file_backed g)) (pv_val (file_backed g')) ps false;
  pu_shared : patched (pv_val (shared_anon g)) (pv_val (shared_anon g')) ps false;
  pu_policy q : 0 ≤ q → fork_policy g' !! q = if decide (q ∈ ps) then None else fork_policy g !! q
}.

Lemma patched_refl {T} (v : Z → T) x : patched v v [] x.
Proof. done. Qed.
Lemma elem_cons_split (q p : Z) ps : q ∈ p :: ps ↔ q ∈ [p] ∨ q ∈ ps.
Proof. rewrite elem_of_cons, list_elem_of_singleton. done. Qed.
Lemma patched_cons {T} (v1 v2 v3 : Z → T) p ps x :
  patched v1 v2 [p] x → patched v2 v3 ps x → patched v1 v3 (p :: ps) x.
Proof.
  intros H1 H2 q Hq. rewrite (H2 q Hq), (H1 q Hq).
  destruct (elem_cons_split q p ps). repeat case_decide; first [done|exfalso; tauto].
Qed.

Lemma page_update_refl mp pr g : gm_wf g → page_update [] mp pr g g.
Proof. intros Hwf. by split. Qed.
Lemma page_update_cons p ps mp pr g1 g2 g3 :
  page_update [p] mp pr g1 g2 → page_update ps mp pr g2 g3 → page_update (p :: ps) mp pr g1 g3.
Proof.
  intros [A1 A2 A3 A4 A5 A6 A7] [B1 B2 B3 B4 B5 B6 B7].
  split; [done| |by eapply patched_cons..|].
  - destruct A2 as (?&?&?&?), B2 as (?&?&?&?). split_and!; congruence.
  - intros q Hq. rewrite B7, A7 by done.
    destruct (elem_cons_split q p ps). repeat case_decide; first [done|exfalso; tauto].
Qed.

Lemma count_pages_ext f f' ps : (∀ p, p ∈ ps → f' p = f p) → count_pages f' ps = count_pages f ps.
Proof.
  induction ps as [|p ps IH]; intros H; [done|]. simpl.
  rewrite H by (apply elem_of_cons; by left). rewrite IH; [done|].
  intros q Hq. apply H, elem_of_cons. by right.
Qed.

Lemma count_pages_set f f' ps p :
  NoDup ps → p ∈ ps → (∀ q, q ∈ ps → q ≠ p → f' q = f q) →
  count_pages f' ps = count_pages f ps + Z.b2z (f' p) - Z.b2z (f p).
Proof.
  induction ps as [|q ps IH]; intros ND Hp H; [by apply elem_of_nil in Hp|].
  apply NoDup_cons in ND as [Hq ND]. simpl. destruct (decide (p = q)) as [->|Hne].
  - rewrite (count_pages_ext f f' ps); [lia|]. intros p Hp'. apply H; [apply elem_of_cons; by right|].
    by intros ->.
  - apply elem_of_cons in Hp as [?|Hp]; [done|].
    rewrite H by (try (apply elem_of_cons; by left); done). rewrite IH; [lia|done|done|].
    intros r Hr. apply H, elem_of_cons. by right.
Qed.

Lemma count_pages_in f ps p : p ∈ ps → f p = true → 1 ≤ count_pages f ps.
Proof.
  assert (∀ l, 0 ≤ count_pages f l) as Hn
    by (induction l as [|x l IH]; simpl; [lia|]; destruct (f x); simpl; lia).
  intros Hp Hf. induction ps as [|q ps IH]; [by apply elem_of_nil in Hp|]. simpl.
  apply elem_of_cons in Hp as [->|Hp]; [rewrite Hf; specialize (Hn ps); simpl; lia|].
  specialize (IH Hp). destruct (f q); simpl; lia.
Qed.

(** Every per-page operation ends with the same five updates. *)
Definition settle (note : Z → M unit) (prot p : Z) : M unit :=
  _ ← note p;
  _ ← set_prot p prot;
  _ ← set_file_backed p false;
  _ ← set_shared_anon p false;
  drop_fork_policy p.

Lemma settle_ok note mp prot p s g v n :
  gm_wf g → 0 ≤ p < npages g →
  note p (s, g) = Ok (tt, (s, with_mapped v n g)) →
  pv_set (mapped g) p mp = Ok v → n = mapped_count g + Z.b2z mp - Z.b2z (pv_val (mapped g) p) →
  ∃ g', settle note prot p (s, g) = Ok (tt, (s, g')) ∧ page_update [p] mp prot g g'
    ∧ tlb_dirty g' = tlb_dirty g.
Proof.
  intros Hwf Hp En Ev Hn. pose proof Hwf as [W1 W2 W3 W4 W5 W6 W7 W8 W9].
  destruct W4 as [P1 P2], W5 as [[Q1 Q2] Q3], W6 as [F1 F2], W7 as [S1 S2].
  destruct (pv_set_spec (m_prot g) p prot P1 ltac:(lia)) as (v1 & E1 & A1 & A2 & A3 & A4).
  destruct (pv_set_spec (mapped g) p mp Q1 ltac:(lia)) as (v2 & E2 & B1 & B2 & B3 & B4).
  destruct (pv_set_spec (file_backed g) p false F1 ltac:(lia)) as (v3 & E3 & C1 & C2 & C3 & C4).
  destruct (pv_set_spec (shared_anon g) p false S1 ltac:(lia)) as (v4 & E4 & D1 & D2 & D3 & D4).
  rewrite Ev in E2. injection E2 as <-.
  unfold settle. unfold mbind at 1, ST_bind at 1. rewrite En.
  unfold set_prot, set_file_backed, set_shared_anon, drop_fork_policy, upd, self, lift, mbind, ST_bind.
  cbn -[pv_set]. rewrite E1. cbn -[pv_set]. rewrite E3. cbn -[pv_set]. rewrite E4.
  eexists. split; [reflexivity|]. split; [|done].
  assert (∀ T (f f' : Z → T) x, (∀ q, 0 ≤ q → f' q = if decide (q = p) then x else f q) →
    patched f f' [p] x) as Hpat.
  { intros T f f' x H q Hq. rewrite H by done.
    destruct (list_elem_of_singleton q p). repeat case_decide; first [done|exfalso; tauto]. }
  split; cbn; [|done|by apply Hpat..|].
  - split; cbn; try done; try (split; [done|unfold npages in *; simpl; lia]).
    + split; [split; [done|unfold npages in *; simpl; lia]|congruence].
    + rewrite Hn, W9. unfold pages_mapped. cbn. unfold npages in *. cbn.
      rewrite (count_pages_set (pv_val (mapped g)) (pv_val v) _ p).
      * rewrite (B4 p) by lia. rewrite decide_True by done. lia.
      * apply NoDup_seqZ.
      * apply elem_of_seqZ. lia.
      * intros q Hq%elem_of_seqZ Hne. rewrite B4 by lia. by rewrite decide_False.
  - intros q Hq. case_decide as Hd; rewrite list_elem_of_singleton in Hd.
    + subst. apply lookup_delete_eq.
    + by apply lookup_delete_ne.
Qed.

Lemma dropped_absent root R n s t :
  is_space s root t R → lv t !! n = None → dropped root R [n] s t s t.
Proof.
  intros HS Hn. split; [done|apply keeps_refl|lia|done| |].
  - intros m. case_decide as Hm; rewrite list_elem_of_singleton in Hm; [by subst|done].
  - intros a. case_decide as Hm; rewrite list_elem_of_singleton in Hm; [|done].
    unfold view. by rewrite Hm, Hn.
Qed.

(** * One page of [map] and [unmap] *)

Lemma note_mapped_ok s g p :
  gm_wf g → 0 ≤ p < npages g →
  ∃ v, note_mapped p (s, g) = Ok (tt, (s, with_mapped v
      (mapped_count g + Z.b2z true - Z.b2z (pv_val (mapped g) p)) g))
    ∧ pv_set (mapped g) p true = Ok v.
Proof.
  intros Hwf Hp. destruct (gw_mapped _ Hwf) as [[Q1 Q2] _].
  destruct (pv_set_spec (mapped g) p true Q1 ltac:(lia)) as (v & E & _).
  exists v. split; [|done]. unfold note_mapped. unfold mbind at 1, ST_bind at 1. cbn [self].
  unfold mbind, ST_bind. rewrite get_mapped_ok by (done || lia). unfold lift. rewrite E.
  unfold upd. do 4 f_equal. by destruct (pv_val (mapped g) p); cbn [Z.b2z]; lia.
Qed.

Lemma note_unmapped_ok s g p :
  gm_wf g → 0 ≤ p < npages g →
  ∃ v, note_unmapped p (s, g) = Ok (tt, (s, with_mapped v
      (mapped_count g + Z.b2z false - Z.b2z (pv_val (mapped g) p)) g))
    ∧ pv_set (mapped g) p false = Ok v.
Proof.
  intros Hwf Hp. destruct (gw_mapped _ Hwf) as [[Q1 Q2] _].
  destruct (pv_set_spec (mapped g) p false Q1 ltac:(lia)) as (v & E & _).
  exists v. split; [|done]. unfold note_unmapped. unfold mbind at 1, ST_bind at 1. cbn [self].
  unfold mbind, ST_bind. rewrite get_mapped_ok by (done || lia). unfold lift. rewrite E.
  unfold usub, upd. rewrite (gw_count _ Hwf). unfold pages_mapped.
  destruct (pv_val (mapped g) p) eqn:Em; cbn [Z.b2z].
  - assert (1 ≤ count_pages (pv_val (mapped g)) (seqZ 0 (npages g))) as H1
      by (eapply count_pages_in; [apply elem_of_seqZ; split; [apply Hp|lia]|done]).
    destruct (Z.leb_spec 1 (count_pages (pv_val (mapped g)) (seqZ 0 (npages g)))); [|lia].
    do 4 f_equal. lia.
  - assert (0 ≤ count_pages (pv_val (mapped g)) (seqZ 0 (npages g))) as H1.
    { generalize (seqZ 0 (npages g)). intros l.
      induction l as [|x l IH]; simpl; [lia|]. destruct (pv_val (mapped g) x); simpl; lia. }
    destruct (Z.leb_spec 0 (count_pages (pv_val (mapped g)) (seqZ 0 (npages g)))); [|lia].
    do 4 f_equal. lia.
Qed.

(** The leaf of page [p] is dropped, if the page was mapped. *)
Definition drop_leaf (dirty : bool) (g : GuestMemory) (p : Z) (was : bool) : M unit :=
  if was then
    r ← pool (space_unmap (space g) (page_base g p));
    match r with
    | Some frame =>
      _ ← pool (on_fa (λ a, fa_free a frame));
      if dirty then upd (with_tlb_dirty true) else mret tt
    | None => mret tt
    end
  else mret tt.

(** When the flag that asks for a TLB flush is raised: [dirty] operations raise it if a
    leaf of [N] was present, the others never touch it. *)
Definition tlb_rule (dirty : bool) (N : list Z) (t : tree) (g g' : GuestMemory) : Prop :=
  if dirty then tlb_dirty g = true ∨ (∃ n, n ∈ N ∧ is_Some (lv t !! n)) → tlb_dirty g' = true
  else tlb_dirty g' = tlb_dirty g.

Lemma tlb_rule_trans dirty n N t1 t2 g1 g2 g3 :
  (∀ m, m ≠ n → lv t2 !! m = lv t1 !! m) →
  tlb_rule dirty [n] t1 g1 g2 → tlb_rule dirty N t2 g2 g3 → tlb_rule dirty (n :: N) t1 g1 g3.
Proof.
  unfold tlb_rule. destruct dirty; [|congruence]. intros Hlv H1 H2 [H|(m & Hm & Hs)].
  - apply H2. left. apply H1. by left.
  - destruct (decide (m = n)) as [->|Hne].
    + apply H2. left. apply H1. right. exists n. by rewrite list_elem_of_singleton.
    + apply H2. right. exists m. rewrite Hlv by done. split; [|done].
      by apply elem_of_cons in Hm as [|].
Qed.

Lemma drop_leaf_ok dirty s g t R p :
  gm_ok s g t R → 0 ≤ p < npages g →
  ∃ s' t' d, drop_leaf dirty g p (pv_val (mapped g) p) (s, g) = Ok (tt, (s', with_tlb_dirty d g))
    ∧ dropped (pml4 (space g)) R [vpn (page_base g p)] s t s' t'
    ∧ tlb_rule dirty [vpn (page_base g p)] t g (with_tlb_dirty d g).
Proof.
  intros [Hwf HS Hcl] Hp. unfold drop_leaf.
  assert (lv t !! vpn (page_base g p) = None → tlb_rule dirty [vpn (page_base g p)] t g g) as Hno.
  { intros E. unfold tlb_rule. destruct dirty; [|done]. intros [?|(n & Hn & [e He])]; [done|].
    rewrite list_elem_of_singleton in Hn. subst. congruence. }
  destruct (pv_val (mapped g) p) eqn:Em.
  2: { exists s, t, (tlb_dirty g). rewrite with_tlb_dirty_id. split_and!; [done| |].
       - apply dropped_absent; [done|by apply Hcl].
       - by apply Hno, Hcl. }
  destruct (space g) as [root] eqn:Esp. cbn [pml4] in *.
  destruct (dropped_here s root t R (page_base g p) HS) as (s1 & t' & E & D).
  unfold mbind at 1, ST_bind at 1, pool at 1. rewrite E.
  destruct (lv t !! vpn (page_base g p)) as [e|] eqn:He; cbn [give_back fmap option_fmap option_map] in *.
  - unfold mbind, ST_bind, pool, on_fa, upd. cbn.
    destruct dirty; [by exists (mkPool (phys s1) (fa_free (fa s1) (frame_of_entry e))), t', true|].
    exists (mkPool (phys s1) (fa_free (fa s1) (frame_of_entry e))), t', (tlb_dirty g).
    by rewrite with_tlb_dirty_id.
  - exists s1, t', (tlb_dirty g). rewrite with_tlb_dirty_id. split_and!; [done|done|by apply Hno].
Qed.

Lemma settled_ok s g t R s' t' g' p mp pr :
  gm_ok s g t R → 0 ≤ p < npages g →
  dropped (pml4 (space g)) R [vpn (page_base g p)] s t s' t' → page_update [p] mp pr g g' →
  gm_ok s' g' t' R.
Proof.
  intros [Hwf HS Hcl] Hp D U. destruct (pu_frame _ _ _ _ _ U) as (Eb & Em & Es & _).
  split; [apply U|rewrite Es; apply D|].
  unfold npages, page_base in *. rewrite Eb, Em. intros q Hq Hmq.
  rewrite (dr_lv _ _ _ _ _ _ _ D). case_decide as Hv; [done|].
  apply Hcl; [done|]. rewrite <- Hmq. rewrite (pu_mapped _ _ _ _ _ U q) by lia.
  case_decide as Hd; [|done]. rewrite list_elem_of_singleton in Hd. subst.
  destruct Hv. by apply list_elem_of_singleton.
Qed.

(** One page of either loop. *)
Lemma page_step_ok dirty note mp prot s g t R p :
  (∀ s g, gm_wf g → 0 ≤ p < npages g → ∃ v, note p (s, g) = Ok (tt, (s, with_mapped v
      (mapped_count g + Z.b2z mp - Z.b2z (pv_val (mapped g) p)) g))
    ∧ pv_set (mapped g) p mp = Ok v) →
  gm_ok s g t R → 0 ≤ p < npages g →
  ∃ s' g' t',
    (was ← get_mapped p; _ ← drop_leaf dirty g p was; settle note prot p) (s, g) = Ok (tt, (s', g'))
    ∧ gm_ok s' g' t' R ∧ page_update [p] mp prot g g'
    ∧ dropped (pml4 (space g)) R [vpn (page_base g p)] s t s' t'
    ∧ tlb_rule dirty [vpn (page_base g p)] t g g'.
Proof.
  intros Hnote Hok Hp. pose proof Hok as [Hwf _ _].
  unfold mbind, ST_bind. rewrite get_mapped_ok by (done || lia).
  destruct (drop_leaf_ok dirty s g t R p Hok Hp) as (s' & t' & d & E & D & T).
  rewrite E. set (g1 := with_tlb_dirty d g).
  destruct (Hnote s' g1 (gm_wf_tlb d g Hwf) Hp) as (v & En & Ev).
  destruct (settle_ok note mp prot p s' g1 v _ (gm_wf_tlb d g Hwf) Hp En Ev eq_refl)
    as (g' & Es & U & Et).
  assert (page_update [p] mp prot g g') as U' by (destruct U; by split).
  exists s', g', t'. split_and!; [exact Es| |exact U'|exact D|].
  - by eapply settled_ok.
  - unfold tlb_rule in *. by rewrite Et.
Qed.

Lemma map_page_eq prot p s g :
  map_page prot p (s, g)
  = (was ← get_mapped p; _ ← drop_leaf false g p was; settle note_mapped prot p) (s, g).
Proof.
  unfold map_page, settle, drop_leaf, page_base, mbind, ST_bind. cbn [self].
  destruct (get_mapped p (s, g)) as [[[] [s1 g1]]|]; [|done|done].
  unfold pool at 1 3. destruct (space_unmap (space g) _ s1) as [[[f|] s2]|]; [|done|done].
  unfold pool, on_fa. done.
Qed.

Lemma unmap_page_eq p s g :
  unmap_page p (s, g)
  = (was ← get_mapped p; _ ← drop_leaf true g p was; settle note_unmapped Prot_NONE p) (s, g).
Proof. done. Qed.

(** * The loops *)

Lemma page_loop_ok (body : Z → M unit) dirty mp prot R g0 ps : ∀ s g t,
  (∀ s g t p, gm_ok s g t R → 0 ≤ p < npages g →
     ∃ s' g' t', body p (s, g) = Ok (tt, (s', g')) ∧ gm_ok s' g' t' R ∧ page_update [p] mp prot g g'
     ∧ dropped (pml4 (space g)) R [vpn (page_base g p)] s t s' t'
     ∧ tlb_rule dirty [vpn (page_base g p)] t g g') →
  gm_ok s g t R → base g = base g0 → msize g = msize g0 → (∀ p, p ∈ ps → 0 ≤ p < npages g0) →
  ∃ s' g' t', st_iter body ps (s, g) = Ok (tt, (s', g')) ∧ gm_ok s' g' t' R
    ∧ page_update ps mp prot g g'
    ∧ dropped (pml4 (space g)) R ((λ p, vpn (page_base g0 p)) <$> ps) s t s' t'
    ∧ tlb_rule dirty ((λ p, vpn (page_base g0 p)) <$> ps) t g g'.
Proof.
  induction ps as [|p ps IH]; intros s g t Hbody Hok Hb Hm Hin.
  - exists s, g, t. split_and!; [done|done|apply page_update_refl, Hok|apply dropped_refl, Hok|].
    unfold tlb_rule. destruct dirty; [|done]. intros [?|(n & Hn & _)]; [done|by apply elem_of_nil in Hn].
  - assert (npages g = npages g0) as Hnp by (unfold npages; by rewrite Hm).
    assert (page_base g p = page_base g0 p) as Ep by (unfold page_base; by rewrite Hb).
    destruct (Hbody s g t p Hok) as (s1 & g1 & t1 & E1 & Hok1 & U1 & D1 & T1).
    { rewrite Hnp. apply Hin, elem_of_cons. by left. }
    destruct (pu_frame _ _ _ _ _ U1) as (Eb & Em & Es & _).
    destruct (IH s1 g1 t1 Hbody Hok1) as (s2 & g2 & t2 & E2 & Hok2 & U2 & D2 & T2); [congruence..| |].
    { intros q Hq. apply Hin, elem_of_cons. by right. }
    exists s2, g2, t2. split_and!; [|done|by eapply page_update_cons| |].
    + cbn [st_iter]. unfold mbind, ST_bind. by rewrite E1.
    + rewrite Es in D2. rewrite fmap_cons, <- Ep. apply (dropped_trans _ _ [_] _ _ _ _ _ _ _ D1 D2).
    + rewrite fmap_cons, <- Ep. eapply tlb_rule_trans; [|exact T1|exact T2].
      intros m Hmn. rewrite (dr_lv _ _ _ _ _ _ _ D1), decide_False; [done|].
      by rewrite list_elem_of_singleton.
Qed.

(** * Ranges of pages *)

(** The pages a range of addresses touches. *)
Definition page_no (g : GuestMemory) (a : Z) : Z := (a - base g) / PAGE_SIZE.
Definition touched (g : GuestMemory) (addr len a : Z) : Prop :=
  page_no g addr ≤ page_no g a ≤ page_no g (addr + len - 1).
Definition extent (g : GuestMemory) (a : Z) : Prop := base g ≤ a < base g + msize g.

Global Instance touched_dec g addr len a : Decision (touched g addr len a).
Proof. unfold touched. apply _. Defined.

Lemma wrap_id a : 0 ≤ a < U64 → wrap U64 a = a.
Proof. apply Z.mod_small. Qed.

Lemma span_range_in g addr len :
  gm_wf g → 0 < len → base g ≤ addr → addr + len ≤ base g + msize g →
  span_range g addr len = inr (page_no g addr, page_no g (addr + len - 1))
  ∧ 0 ≤ page_no g addr ≤ page_no g (addr + len - 1) ∧ page_no g (addr + len - 1) < npages g.
Proof.
  intros Hwf Hl H1 H2. pose proof (gw_top _ Hwf) as Ht. destruct (gw_base _ Hwf) as [Hb Hbm].
  pose proof (msize_pages g Hwf) as Hm.
  assert (base g + msize g < 2 ^ 48) as Htop by (eapply Z.le_lt_trans; [exact Ht|done]).
  unfold span_range, page_no. set (start := addr - addr mod PAGE_SIZE).
  assert (start mod PAGE_SIZE = 0 ∧ base g ≤ start ≤ addr ∧ addr < start + PAGE_SIZE) as (S1 & S2 & S3).
  { unfold start, PAGE_SIZE in *. divlia. }
  assert (round_up (wrap U64 (addr + len)) PAGE_SIZE = div_ceil (addr + len) PAGE_SIZE * PAGE_SIZE
    ∧ addr + len ≤ div_ceil (addr + len) PAGE_SIZE * PAGE_SIZE < addr + len + PAGE_SIZE
    ∧ div_ceil (addr + len) PAGE_SIZE * PAGE_SIZE ≤ base g + msize g) as (-> & R2 & R3).
  { rewrite (wrap_id (addr + len)) by (unfold U64; lia). unfold round_up, div_ceil.
    assert (addr + len ≤ (addr + len + PAGE_SIZE - 1) / PAGE_SIZE * PAGE_SIZE < addr + len + PAGE_SIZE
      ∧ (addr + len + PAGE_SIZE - 1) / PAGE_SIZE * PAGE_SIZE ≤ base g + msize g) as [? ?]
      by (unfold PAGE_SIZE in *; divlia).
    rewrite wrap_id by (unfold U64; lia). done. }
  set (stop := div_ceil _ _ * _) in *. rewrite wrap_id by (unfold U64; lia).
  unfold page_range. destruct (Z.eqb_spec (stop - start) 0); [lia|]. unfold checked_add64.
  destruct (Z.ltb_spec (start + (stop - start - 1)) U64) as [_|Ho]; [|unfold U64 in Ho; lia].
  unfold offset_ok.
  replace ((start <? base g) || (base g + msize g <=? start)) with false by lia.
  replace ((start + (stop - start - 1) <? base g)
    || (base g + msize g <=? start + (stop - start - 1))) with false by lia.
  assert (stop mod PAGE_SIZE = 0) as S4 by (unfold stop; by apply Z.mod_mul).
  clearbody start stop. clear Ht Htop.
  split; [do 2 f_equal; unfold PAGE_SIZE in *; divlia|].
  unfold PAGE_SIZE in *. divlia.
Qed.

Lemma page_no_vpn g a p :
  gm_wf g → extent g a → 0 ≤ p < npages g → vpn (page_base g p) = vpn a ↔ p = page_no g a.
Proof.
  intros Hwf Ha Hp. destruct (extent_page g Hwf a Ha) as (_ & Hpa & E). rewrite E. split.
  - intros H. by apply page_base_inj in H.
  - by intros ->.
Qed.

(** The pages of a loop, as addresses. *)
Lemma touched_pages g addr len a :
  gm_wf g → extent g a → 0 < len → base g ≤ addr → addr + len ≤ base g + msize g →
  vpn a ∈ (λ p, vpn (page_base g p)) <$>
    seqZ (page_no g addr) (page_no g (addr + len - 1) + 1 - page_no g addr)
  ↔ touched g addr len a.
Proof.
  intros Hwf Ha Hl H1 H2. destruct (span_range_in g addr len Hwf Hl H1 H2) as (_ & Hp & Hn).
  rewrite list_elem_of_fmap. unfold touched. split.
  - intros (p & E & Hpp%elem_of_seqZ). symmetry in E. apply page_no_vpn in E as ->; [|done..|lia]. lia.
  - intros Ht. exists (page_no g a). split; [|apply elem_of_seqZ; lia].
    symmetry. by apply page_no_vpn; [done|done|lia|].
Qed.

(** * What a remapping leaves *)

(** The other spaces of the pool are as they were. *)
Definition others_kept (s : Pool) (t : tree) (R : gmultiset Z) (s' : Pool) (t' : tree) : Prop :=
  ∀ root2 t2 R', R = refs t2 ⊎ R' → is_space s root2 t2 (refs t ⊎ R') →
    is_space s' root2 t2 (refs t' ⊎ R') ∧ ∀ a, view s' t2 a = view s t2 a.

Lemma dropped_others root R N s t s' t' :
  is_space s root t R → dropped root R N s t s' t' → others_kept s t R s' t'.
Proof.
  intros HS [HS' K Hrc Htab Hlv Hv] root2 t2 R' -> HS2.
  assert (∀ q, (1 ≤ multiplicity q (refs t2))%nat →
    ¬ (is_table t q ∨ rc s' q = 0)) as Hown.
  { intros q Hq [(l & k & Hk)|H0].
    - apply (sp_once _ _ _ _ HS) in Hk as (_ & _ & Hm). rewrite multiplicity_disj_union in Hm. lia.
    - destruct (sp_acc _ _ _ _ HS' q) as [H1|H1]; [by rewrite H0 in H1|].
      rewrite !multiplicity_disj_union in H1. lia. }
  split.
  - eapply (space_transfer s); [exact HS2|apply HS'|exact K| |].
    + intros q Hq. pose proof Hq as (l & k & Hk).
      assert (¬ (is_table t q ∨ rc s' q = 0)) as Ho.
      { apply Hown. unfold refs. rewrite multiplicity_disj_union. apply vals_lookup in Hk. lia. }
      split; [exact Ho|]. pose proof (sp_own _ _ _ _ HS2 _ _ _ Hk) as H1.
      pose proof (Hrc q). destruct (rc_nonneg s' q (sp_pool _ _ _ _ HS')).
      assert (rc s' q ≠ 0) by (intros E; apply Ho; by right). lia.
    + eapply accounts_eq; [apply HS'|]. rewrite !gmultiset_disj_union_assoc. f_equal.
      apply gmultiset_disj_union_comm.
  - intros a. unfold view. destruct (lv t2 !! vpn a) as [e|] eqn:E; [|done].
    pose proof (mod_page_range a).
    apply (kp_bytes _ _ _ K (frame_of_entry e)); [by eapply (leaf_live _ _ _ _ HS2)| |lia].
    apply Hown. unfold refs. rewrite multiplicity_disj_union.
    assert ((frame_of_entry <$> lv t2) !! vpn a = Some (frame_of_entry e)) as Hf
      by by rewrite lookup_fmap, E.
    apply vals_lookup in Hf. lia.
Qed.

(** The state after the pages touched by [[addr, addr + len)] were remapped. *)
Record remapped (dirty : bool) (addr len : Z) (mp : bool) (pr : Z) (s : Pool) (g : GuestMemory) (t : tree)
    (R : gmultiset Z) (s' : Pool) (g' : GuestMemory) (t' : tree) : Prop := {
  re_ok : gm_ok s' g' t' R;
  re_view a : extent g a → view s' t' a = if decide (touched g addr len a) then 0 else view s t a;
  re_gone a : extent g a → touched g addr len a → lv t' !! vpn a = None;
  re_allowed a need : extent g a → allowed g' need a ↔
    if decide (touched g addr len a) then mp = true ∧ prot_contains pr need = true
    else allowed g need a;
  re_private a : extent g a →
    private g' (page_no g a) ↔ touched g addr len a ∨ private g (page_no g a);
  re_locks p : cover (ranges (locks g')) p ↔
    cover (ranges (locks g)) p ∧ ¬ page_no g addr ≤ p ≤ page_no g (addr + len - 1);
  re_tlb : if dirty then
      tlb_dirty g = true ∨ (∃ a, extent g a ∧ touched g addr len a ∧ is_Some (lv t !! vpn a)) →
      tlb_dirty g' = true
    else tlb_dirty g' = tlb_dirty g;
  re_others : others_kept s t R s' t'
}.

Lemma remap_ok (body : Z → M unit) dirty mp prot s g t R addr len :
  (∀ s g t p, gm_ok s g t R → 0 ≤ p < npages g →
     ∃ s' g' t', body p (s, g) = Ok (tt, (s', g')) ∧ gm_ok s' g' t' R ∧ page_update [p] mp prot g g'
     ∧ dropped (pml4 (space g)) R [vpn (page_base g p)] s t s' t'
     ∧ tlb_rule dirty [vpn (page_base g p)] t g g') →
  gm_ok s g t R → 0 < len → base g ≤ addr → addr + len ≤ base g + msize g →
  let first := page_no g addr in
  let last := page_no g (addr + len - 1) in
  ∃ s' g' t',
    (_ ← st_iter body (seqZ first (last + 1 - first)); _ ← drop_locks first (last + 1);
     mret (inr tt : MemError + unit)) (s, g) = Ok (inr tt, (s', g'))
    ∧ remapped dirty addr len mp prot s g t R s' g' t'.
Proof.
  intros Hbody Hok Hl H1 H2 first last. pose proof Hok as [Hwf HS Hcl].
  destruct (span_range_in g addr len Hwf Hl H1 H2) as (_ & Hp & Hn).
  destruct (page_loop_ok body dirty mp prot R g (seqZ first (last + 1 - first)) s g t Hbody Hok)
    as (s' & g' & t' & E & Hok' & U & D & T); [done|done|intros p Hpp%elem_of_seqZ; lia|].
  destruct (pu_frame _ _ _ _ _ U) as (Eb & Em & _ & El).
  destruct (pl_remove_ok (locks g') first (last + 1)) as (l & Er & Wl & _ & Cl);
    [apply Hok'|lia|].
  exists s', (with_locks l g'), t'. split.
  { unfold mbind, ST_bind. rewrite E. unfold drop_locks, self, lift, upd, mbind, ST_bind.
    by rewrite Er. }
  assert (∀ a, extent g a → 0 ≤ page_no g a
    ∧ (page_no g a ∈ seqZ first (last + 1 - first) ↔ touched g addr len a)) as Hpg.
  { intros a Ha. split; [by apply (extent_page g Hwf a Ha)|]. rewrite elem_of_seqZ.
    unfold touched. lia. }
  split.
  - destruct Hok' as [[W1 W2 W3 W4 W5 W6 W7 W8 W9] HS' Hcl']. split; [by split|done|done].
  - intros a Ha. rewrite (dr_view _ _ _ _ _ _ _ D).
    destruct (touched_pages g addr len a Hwf Ha Hl H1 H2) as [T1 T2].
    repeat case_decide; first [done|exfalso; tauto].
  - intros a Ha Ht. rewrite (dr_lv _ _ _ _ _ _ _ D), decide_True; [done|].
    by apply touched_pages.
  - intros a need Ha. destruct (Hpg a Ha) as [H0 Ht]. unfold allowed. simpl.
    rewrite Eb. fold (page_no g a).
    rewrite (pu_mapped _ _ _ _ _ U), (pu_prot _ _ _ _ _ U) by done.
    repeat case_decide; first [done|exfalso; tauto].
  - intros a Ha. destruct (Hpg a Ha) as [H0 Ht]. unfold private. simpl.
    rewrite (pu_shared _ _ _ _ _ U) by done. case_decide; tauto.
  - intros p. simpl. rewrite Cl, El. split; intros [? ?]; split; try done; lia.
  - simpl. unfold tlb_rule in T. destruct dirty; [|done]. intros [Hd|(a & Ha & Hta & Hs)]; apply T.
    + by left.
    + right. exists (vpn a). split; [by apply touched_pages|done].
  - by eapply dropped_others.
Qed.

Lemma mem_map_ok s g t R addr len prot :
  gm_ok s g t R → 0 < len → base g ≤ addr → addr + len ≤ base g + msize g →
  ∃ s' g' t', mem_map addr len prot (s, g) = Ok (inr tt, (s', g'))
    ∧ remapped false addr len true prot s g t R s' g' t'.
Proof.
  intros Hok Hl H1 H2. unfold mem_map. destruct (Z.eqb_spec len 0); [lia|].
  unfold mbind at 1, ST_bind at 1. cbn [self].
  destruct (span_range_in g addr len (go_wf _ _ _ _ Hok) Hl H1 H2) as (-> & _ & _).
  apply remap_ok; try done. intros s0 g0 t0 p Hok0 Hp.
  rewrite map_page_eq. apply page_step_ok; [intros; by apply note_mapped_ok|done|done].
Qed.

Lemma mem_unmap_ok s g t R addr len :
  gm_ok s g t R → 0 < len → base g ≤ addr → addr + len ≤ base g + msize g →
  ∃ s' g' t', mem_unmap addr len (s, g) = Ok (inr tt, (s', g'))
    ∧ remapped true addr len false Prot_NONE s g t R s' g' t'.
Proof.
  intros Hok Hl H1 H2. unfold mem_unmap. destruct (Z.eqb_spec len 0); [lia|].
  unfold mbind at 1, ST_bind at 1. cbn [self].
  destruct (span_range_in g addr len (go_wf _ _ _ _ Hok) Hl H1 H2) as (-> & _ & _).
  apply remap_ok; try done. intros s0 g0 t0 p Hok0 Hp.
  rewrite unmap_page_eq. apply page_step_ok; [intros; by apply note_unmapped_ok|done|done].
Qed.

(** * Changing protection *)

Lemma span_range_out g addr len :
  gm_wf g → 0 ≤ addr → 0 < len → addr + len ≤ U64 - PAGE_SIZE →
  ¬ (base g ≤ addr ∧ addr + len ≤ base g + msize g) → ∃ e, span_range g addr len = inl e.
Proof.
  intros Hwf H0 Hl Hu Hn. unfold span_range. set (start := addr - addr mod PAGE_SIZE).
  assert (0 ≤ start ≤ addr) as S1 by (unfold start, PAGE_SIZE; divlia).
  assert (round_up (wrap U64 (addr + len)) PAGE_SIZE = div_ceil (addr + len) PAGE_SIZE * PAGE_SIZE
    ∧ addr + len ≤ div_ceil (addr + len) PAGE_SIZE * PAGE_SIZE < addr + len + PAGE_SIZE) as (-> & R2).
  { unfold PAGE_SIZE in Hu. rewrite (wrap_id (addr + len)) by lia. unfold round_up, div_ceil.
    assert (addr + len ≤ (addr + len + PAGE_SIZE - 1) / PAGE_SIZE * PAGE_SIZE < addr + len + PAGE_SIZE)
      by (unfold PAGE_SIZE in *; divlia).
    rewrite wrap_id by (unfold PAGE_SIZE in *; lia). done. }
  set (stop := div_ceil _ _ * _) in *. clearbody start stop.
  rewrite wrap_id by (unfold PAGE_SIZE in *; lia). apply page_range_out; lia.
Qed.

(** The metadata after [protect] of one page. *)
Definition reprotected (ps : list Z) (pr : Z) (g g' : GuestMemory) : Prop :=
  ∃ v d, g' = with_tlb_dirty d (with_prot v g) ∧ pv_for g v
    ∧ patched (pv_val (m_prot g)) (pv_val v) ps pr.

Lemma protect_page_ok s g t R prot p :
  gm_ok s g t R → 0 ≤ p < npages g → pv_val (mapped g) p = true →
  ∃ s' g' t', protect_page prot p (s, g) = Ok (None, (s', g'))
    ∧ gm_ok s' g' t' R ∧ reprotected [p] prot g g'
    ∧ silent (pml4 (space g)) R (λ n, n = vpn (page_base g p)) s t s' t' ∧ fa s' = fa s
    ∧ ∀ e, lv t !! vpn (page_base g p) = Some e →
        lv t' !! vpn (page_base g p) = Some (leaf_entry (frame_of_entry e)
          (if negb (pv_val (shared_anon g) p) && prot_contains prot Prot_WRITE
              && (1 <? rc s (frame_of_entry e)) then prot_read_only prot else prot) false).
Proof.
  intros [Hwf HS Hcl] Hp Hm. unfold protect_page, mbind, ST_bind. cbn [self].
  rewrite get_mapped_ok by (done || lia). rewrite Hm. cbn [negb].
  pose proof Hwf as [W1 W2 W3 [P1 P2] W5 W6 W7 W8 W9].
  destruct (pv_set_spec (m_prot g) p prot P1 ltac:(lia)) as (v & Ev & V1 & V2 & V3 & V4).
  assert (set_prot p prot (s, g) = Ok (tt, (s, with_prot v g))) as ->.
  { unfold set_prot, self, lift, upd, mbind, ST_bind. by rewrite Ev. }
  assert (pv_for g v) as Hv by (split; [done|lia]).
  assert (gm_wf (with_prot v g)) as Hwf' by by split.
  assert (patched (pv_val (m_prot g)) (pv_val v) [p] prot) as Hpat.
  { intros q Hq. rewrite V4 by done. destruct (list_elem_of_singleton q p).
    repeat case_decide; first [done|exfalso; tauto]. }
  destruct (space g) as [root] eqn:Esp. cbn [pml4] in HS |- *.
  unfold pool at 1. rewrite (translate_spec _ _ _ _ _ HS).
  destruct (lv t !! vpn (page_base g p)) as [e|] eqn:He; cbn [fmap option_fmap option_map].
  2: { exists s, (with_prot v g), t. split_and!; [done| | |by apply silent_refl|done|done].
       - split; [done|simpl; by rewrite Esp|done].
       - exists v, (tlb_dirty g). split_and!; [by destruct g|done|done]. }
  assert (page_of (paddr (trans_of (page_base g p) e)) = frame_of_entry e) as Hpg.
  { unfold trans_of. cbn [paddr]. apply page_of_frame; [apply is_frame_entry|by apply Z.mod_pos_bound]. }
  rewrite Hpg. unfold leaf_prot_of, mbind, ST_bind.
  rewrite get_shared_anon_ok, get_prot_ok by (done || exact (proj2 Hp)).
  unfold pool. cbn [m_prot shared_anon with_prot]. fold (rc s (frame_of_entry e)).
  rewrite (V4 p), decide_True by (done || lia). unfold mret, ST_ret.
  set (lp := if negb (pv_val (shared_anon g) p) && prot_contains prot Prot_WRITE
    && (1 <? rc s (frame_of_entry e)) then prot_read_only prot else prot).
  destruct (protect_leaf_ok s root t R (page_base g p) lp e HS He) as (s' & t' & -> & S & Hfa & Elv).
  unfold upd. eexists s', _, t'. split_and!; [reflexivity| | |exact S|exact Hfa|].
  - split; [by apply gm_wf_tlb|simpl; rewrite Esp; apply S|].
    intros q Hq Hmq. rewrite (si_lv _ _ _ _ _ _ _ S); [by apply Hcl|].
    intros Ev'. apply (page_base_inj g Hwf q p Hq Hp) in Ev'. subst. simpl in Hmq. by rewrite Hm in Hmq.
  - by exists v, true.
  - intros e0 [= <-]. by rewrite Elv, lookup_insert_eq.
Qed.

Lemma reprotected_cons p ps pr g1 g2 g3 :
  reprotected [p] pr g1 g2 → reprotected ps pr g2 g3 → reprotected (p :: ps) pr g1 g3.
Proof.
  intros (v1 & d1 & -> & F1 & P1) (v2 & d2 & -> & F2 & P2).
  exists v2, d2. split_and!; [done|done|by eapply patched_cons].
Qed.

Lemma protect_loop_ok prot R g0 ps : ∀ s g t,
  gm_ok s g t R → (∃ v d, g = with_tlb_dirty d (with_prot v g0)) →
  (∀ p, p ∈ ps → 0 ≤ p < npages g0 ∧ pv_val (mapped g0) p = true) →
  ∃ s' g' t', st_try (protect_page prot) ps (s, g) = Ok (None, (s', g'))
    ∧ gm_ok s' g' t' R ∧ reprotected ps prot g g'
    ∧ silent (pml4 (space g0)) R (λ _, True) s t s' t'.
Proof.
  induction ps as [|p ps IH]; intros s g t Hok Hg Hin.
  - exists s, g, t. pose proof Hok as [Hwf HS _]. split_and!; [done|done| |].
    + exists (m_prot g), (tlb_dirty g). split_and!; [by destruct g|apply Hwf|done].
    + destruct Hg as (v & d & ->). by apply silent_refl.
  - destruct (Hin p) as [Hp Hm]; [apply elem_of_cons; by left|].
    destruct Hg as (v & d & ->).
    destruct (protect_page_ok s _ t R prot p Hok Hp Hm) as (s1 & g1 & t1 & E1 & Hok1 & U1 & S1 & _).
    destruct (IH s1 g1 t1 Hok1) as (s2 & g2 & t2 & E2 & Hok2 & U2 & S2).
    { destruct U1 as (v1 & d1 & -> & _). by exists v1, d1. }
    { intros q Hq. apply Hin, elem_of_cons. by right. }
    exists s2, g2, t2. split_and!; [|done|by eapply reprotected_cons|].
    + cbn [st_try]. unfold mbind, ST_bind. by rewrite E1.
    + eapply silent_trans; [apply Hok|by eapply silent_weaken|exact S2].
Qed.

Lemma mem_protect_ok s g t R addr len prot :
  gm_ok s g t R → 0 < len → base g ≤ addr → addr + len ≤ base g + msize g →
  (∀ a, extent g a → touched g addr len a → pv_val (mapped g) (page_no g a) = true) →
  ∃ s' g' t', mem_protect addr len prot (s, g) = Ok (inr tt, (s', g'))
    ∧ gm_ok s' g' t' R ∧ silent (pml4 (space g)) R (λ _, True) s t s' t'
    ∧ ∀ a need, extent g a → allowed g' need a ↔
        if decide (touched g addr len a) then prot_contains prot need = true else allowed g need a.
Proof.
  intros Hok Hl H1 H2 Hmap. pose proof (go_wf _ _ _ _ Hok) as Hwf. unfold mem_protect.
  destruct (Z.eqb_spec len 0); [lia|]. unfold mbind at 1, ST_bind at 1. cbn [self].
  destruct (span_range_in g addr len Hwf Hl H1 H2) as (-> & Hp & Hn).
  set (first := page_no g addr) in *. set (last := page_no g (addr + len - 1)) in *.
  assert (∀ p, 0 ≤ p < npages g → extent g (page_base g p) ∧ page_no g (page_base g p) = p) as Hpb.
  { intros p Hpp. pose proof (msize_pages g Hwf). unfold extent, page_no, page_base, PAGE_SIZE in *.
    split; divlia. }
  destruct (protect_loop_ok prot R g (seqZ first (last + 1 - first)) s g t Hok)
    as (s' & g' & t' & E & Hok' & U & S).
  { exists (m_prot g), (tlb_dirty g). by destruct g. }
  { intros p Hpp%elem_of_seqZ. split; [lia|]. destruct (Hpb p) as [He En]; [lia|].
    rewrite <- En. apply Hmap; [done|]. unfold touched. rewrite En. fold first last. lia. }
  exists s', g', t'. split_and!; [|done|done|].
  { unfold mbind, ST_bind. by rewrite E. }
  intros a need Ha. destruct U as (v & d & -> & _ & Hpat). unfold allowed. simpl. fold (page_no g a).
  destruct (extent_page g Hwf a Ha) as (_ & Hpa & _). fold (page_no g a) in Hpa.
  rewrite (Hpat (page_no g a)) by lia. case_decide as Hd.
  - apply elem_of_seqZ in Hd. rewrite decide_True by (unfold touched; fold first last; lia).
    split; [by intros [_ ?]|]. intros Hc. split; [|done]. apply Hmap; [done|].
    unfold touched. fold first last. lia.
  - rewrite decide_False; [done|]. intros Ht. apply Hd, elem_of_seqZ. unfold touched in Ht.
    fold first last in Ht. lia.
Qed.

(** * Properties *)

(** C39: [map] gives fresh private memory. Inside the extent it always succeeds; every byte
    of the touched pages then reads as zero and is accessible exactly as asked, whatever
    was mapped there before; every other page keeps its bytes and its permissions, page
    locks inside the range are gone and those outside stay, and every other space of the
    pool keeps its tree and its bytes. Outside the extent it is refused and nothing
    changes. *)
Theorem mmap_spec s g t R addr len prot :
  gm_ok s g t R → 0 ≤ addr → 0 < len → addr + len ≤ U64 - PAGE_SIZE →
  if decide (base g ≤ addr ∧ addr + len ≤ base g + msize g) then
    ∃ s' g' t', mem_map addr len prot (s, g) = Ok (inr tt, (s', g'))
      ∧ remapped false addr len true prot s g t R s' g' t'
  else ∃ e, mem_map addr len prot (s, g) = Ok (inl e, (s, g)).
Proof.
  intros Hok H0 Hl Hu. case_decide as Hin; [destruct Hin; by apply mem_map_ok|].
  destruct (span_range_out g addr len (go_wf _ _ _ _ Hok) H0 Hl Hu Hin) as [e E].
  exists e. unfold mem_map. destruct (Z.eqb_spec len 0); [lia|].
  unfold mbind, ST_bind. cbn [self]. by rewrite E.
Qed.

(** Bounds on the pages of the example. *)
Ltac demo_bounds := split; vm_compute; first [discriminate|reflexivity].

Lemma demo_extent a : 0 ≤ a < 65536 → extent demo_gm a.
Proof. done. Qed.

Lemma mmap_spec_witness :
  ∃ t s' g' t', lv t = {[ 5 := demo_leaf ]}
    ∧ mem_map 0x4800 0x1000 Prot_READ (demo_mapped, demo_gm) = Ok (inr tt, (s', g'))
    ∧ view s' t' 0x5010 = 0 ∧ allowed g' Prot_READ 0x4000.
Proof.
  destruct demo_mapped_space as (t & HS & Hlv).
  pose proof (mmap_spec demo_mapped demo_gm t ∅ 0x4800 0x1000 Prot_READ (demo_gm_ok _ _ _ _ HS Hlv)
    ltac:(lia) ltac:(lia) ltac:(vm_compute; discriminate)) as H.
  rewrite decide_True in H by (split; vm_compute; discriminate). destruct H as (s' & g' & t' & E & Re).
  exists t, s', g', t'. split_and!; [exact Hlv|exact E| |].
  - pose proof (re_view _ _ _ _ _ _ _ _ _ _ _ _ Re 0x5010 (demo_extent 0x5010 ltac:(lia))) as V.
    rewrite decide_True in V by demo_bounds. exact V.
  - pose proof (re_allowed _ _ _ _ _ _ _ _ _ _ _ _ Re 0x4000 Prot_READ (demo_extent 0x4000 ltac:(lia))) as A.
    rewrite decide_True in A by demo_bounds. apply A. split; reflexivity.
Defined.

(** [unmap] takes memory away. Inside the extent it always succeeds; the touched pages
    are no longer accessible in any way, whatever backed them is given back to the pool,
    every other page and every other space is as before, and a TLB flush is asked for
    whenever a present leaf went away. Outside the extent it is refused. *)
Theorem munmap_spec s g t R addr len :
  gm_ok s g t R → 0 ≤ addr → 0 < len → addr + len ≤ U64 - PAGE_SIZE →
  if decide (base g ≤ addr ∧ addr + len ≤ base g + msize g) then
    ∃ s' g' t', mem_unmap addr len (s, g) = Ok (inr tt, (s', g'))
      ∧ remapped true addr len false Prot_NONE s g t R s' g' t'
  else ∃ e, mem_unmap addr len (s, g) = Ok (inl e, (s, g)).
Proof.
  intros Hok H0 Hl Hu. case_decide as Hin; [destruct Hin; by apply mem_unmap_ok|].
  destruct (span_range_out g addr len (go_wf _ _ _ _ Hok) H0 Hl Hu Hin) as [e E].
  exists e. unfold mem_unmap. destruct (Z.eqb_spec len 0); [lia|].
  unfold mbind, ST_bind. cbn [self]. by rewrite E.
Qed.

Lemma munmap_spec_witness :
  ∃ t s' g' t', lv t = {[ 5 := demo_leaf ]}
    ∧ mem_unmap 0x5800 1 (demo_mapped, demo_gm) = Ok (inr tt, (s', g'))
    ∧ tlb_dirty g' = true ∧ view s' t' 0x5010 = 0.
Proof.
  destruct demo_mapped_space as (t & HS & Hlv).
  pose proof (munmap_spec demo_mapped demo_gm t ∅ 0x5800 1 (demo_gm_ok _ _ _ _ HS Hlv)
    ltac:(lia) ltac:(lia) ltac:(vm_compute; discriminate)) as H.
  rewrite decide_True in H by (split; vm_compute; discriminate). destruct H as (s' & g' & t' & E & Re).
  exists t, s', g', t'. split_and!; [exact Hlv|exact E| |].
  - pose proof (re_tlb _ _ _ _ _ _ _ _ _ _ _ _ Re) as T. cbn iota in T. apply T. right. exists 0x5000.
    split; [apply demo_extent; lia|]. split; [demo_bounds|]. rewrite Hlv. exists demo_leaf. reflexivity.
  - pose proof (re_view _ _ _ _ _ _ _ _ _ _ _ _ Re 0x5010 (demo_extent 0x5010 ltac:(lia))) as V.
    rewrite decide_True in V by demo_bounds. exact V.
Defined.

(** [protect] on mapped pages succeeds, changes exactly the permissions of the touched
    pages, and changes no byte of any view. *)
Theorem mprotect_spec s g t R addr len prot :
  gm_ok s g t R → 0 < len → base g ≤ addr → addr + len ≤ base g + msize g →
  (∀ a, extent g a → touched g addr len a → pv_val (mapped g) (page_no g a) = true) →
  ∃ s' g' t', mem_protect addr len prot (s, g) = Ok (inr tt, (s', g'))
    ∧ gm_ok s' g' t' R ∧ (∀ a, view s' t' a = view s t a)
    ∧ ∀ a need, extent g a → allowed g' need a ↔
        if decide (touched g addr len a) then prot_contains prot need = true else allowed g need a.
Proof.
  intros Hok Hl H1 H2 Hmap.
  destruct (mem_protect_ok s g t R addr len prot Hok Hl H1 H2 Hmap) as (s' & g' & t' & E & O & S & A).
  exists s', g', t'. split_and!; [done|done|apply S|done].
Qed.

Lemma mprotect_spec_witness :
  ∃ t s' g' t', lv t = {[ 5 := demo_leaf ]}
    ∧ mem_protect 0x5000 1 Prot_READ (demo_mapped, demo_gm) = Ok (inr tt, (s', g'))
    ∧ (∀ a, view s' t' a = view demo_mapped t a) ∧ ¬ allowed g' Prot_WRITE 0x5004.
Proof.
  destruct demo_mapped_space as (t & HS & Hlv).
  destruct (mprotect_spec demo_mapped demo_gm t ∅ 0x5000 1 Prot_READ (demo_gm_ok _ _ _ _ HS Hlv)
    ltac:(lia) ltac:(vm_compute; discriminate) ltac:(vm_compute; discriminate)) as (s' & g' & t' & E & O & V & A).
  - intros a _ [Ht1 Ht2]. change (page_no demo_gm 0x5000) with 5 in Ht1.
    change (page_no demo_gm (0x5000 + 1 - 1)) with 5 in Ht2.
    replace (page_no demo_gm a) with 5 by lia. reflexivity.
  - exists t, s', g', t'. split_and!; [exact Hlv|exact E|exact V|].
    specialize (A 0x5004 Prot_WRITE (demo_extent 0x5004 ltac:(lia))). rewrite decide_True in A by demo_bounds.
    intros Ha. apply A in Ha. discriminate Ha.
Defined.

(** [map] over pages that are backed takes their leaves away without asking for a TLB
    flush: afterwards no touched page translates, and the flag is what it was. *)
Theorem overmap_no_flush s g t R addr len prot :
  gm_ok s g t R → 0 < len → base g ≤ addr → addr + len ≤ base g + msize g →
  ∃ s' g', mem_map addr len prot (s, g) = Ok (inr tt, (s', g'))
    ∧ tlb_dirty g' = tlb_dirty g
    ∧ ∀ a, extent g a → touched g addr len a → translate (space g') a s' = Ok (None, s').
Proof.
  intros Hok Hl H1 H2.
  destruct (mem_map_ok s g t R addr len prot Hok Hl H1 H2) as (s' & g' & t' & E & Re).
  exists s', g'. split_and!; [done|apply (re_tlb _ _ _ _ _ _ _ _ _ _ _ _ Re)|].
  intros a Ha Ht. pose proof (go_space _ _ _ _ (re_ok _ _ _ _ _ _ _ _ _ _ _ _ Re)) as HS'.
  destruct (space g') as [root]. rewrite (translate_spec _ _ _ _ _ HS').
  by rewrite (re_gone _ _ _ _ _ _ _ _ _ _ _ _ Re).
Qed.

(** Page 5 is backed by frame 8192; after the mapping it is not, that frame is free for
    another process to take, and no flush was asked for. *)
Lemma overmap_no_flush_witness :
  ∃ t s' g', lv t = {[ 5 := demo_leaf ]}
    ∧ mem_map 0x5000 0x1000 prot_rw (demo_mapped, demo_gm) = Ok (inr tt, (s', g'))
    ∧ tlb_dirty g' = false ∧ translate (space g') 0x5000 s' = Ok (None, s').
Proof.
  destruct demo_mapped_space as (t & HS & Hlv).
  destruct (overmap_no_flush demo_mapped demo_gm t ∅ 0x5000 0x1000 prot_rw (demo_gm_ok _ _ _ _ HS Hlv)
    ltac:(lia) ltac:(vm_compute; discriminate) ltac:(vm_compute; discriminate))
    as (s' & g' & E & T & N).
  exists t, s', g'. split; [exact Hlv|]. split; [exact E|]. split; [exact T|].
  apply N; [apply demo_extent; lia|]. demo_bounds.
Defined.

(** Taking every permission away from a page that is already backed leaves a present
    leaf that user mode can read: the page is recorded as PROT_NONE, yet its translation
    still grants reading, without the supervisor bit. *)
Theorem protect_none_readable s g t R p e :
  gm_ok s g t R → 0 ≤ p < npages g → pv_val (mapped g) p = true →
  lv t !! vpn (page_base g p) = Some e →
  ∃ s' g', protect_page Prot_NONE p (s, g) = Ok (None, (s', g'))
    ∧ pv_val (m_prot g') p = Prot_NONE
    ∧ translate (space g') (page_base g p) s'
      = Ok (Some (mkTrans (frame_of_entry e) Prot_READ false), s').
Proof.
  intros Hok Hp Hm He.
  destruct (protect_page_ok s g t R Prot_NONE p Hok Hp Hm) as (s' & g' & t' & E & Hok' & U & _ & _ & L).
  exists s', g'. split_and!; [done| |].
  - destruct U as (v & d & -> & _ & Hpat). simpl. rewrite (Hpat p) by lia.
    apply decide_True. by apply list_elem_of_singleton.
  - pose proof (go_space _ _ _ _ Hok') as HS'. destruct (space g') as [root].
    rewrite (translate_spec _ _ _ _ _ HS'), (L e He). cbn [fmap option_fmap option_map].
    change (prot_contains Prot_NONE Prot_WRITE) with false. rewrite andb_false_r. cbn [andb].
    unfold trans_of.
    destruct (leaf_entry_spec (frame_of_entry e) Prot_NONE false (is_frame_entry e))
      as (_ & _ & -> & -> & ->).
    rewrite (page_base_aligned g (go_wf _ _ _ _ Hok) p). by rewrite Z.add_0_r.
Qed.

Lemma protect_none_readable_witness :
  ∃ s' g', protect_page Prot_NONE 5 (demo_mapped, demo_gm) = Ok (None, (s', g'))
    ∧ pv_val (m_prot g') 5 = Prot_NONE
    ∧ translate (space g') 0x5000 s' = Ok (Some (mkTrans 8192 Prot_READ false), s').
Proof.
  destruct demo_mapped_space as (t & HS & Hlv).
  apply (protect_none_readable demo_mapped demo_gm t ∅ 5 demo_leaf (demo_gm_ok _ _ _ _ HS Hlv));
    [split; vm_compute; [discriminate|reflexivity]|reflexivity|]. rewrite Hlv. reflexivity.
Defined.

(** Resolving a copy-on-write fault. A write fault is resolved only on a page that is
    mapped writable; it changes no byte of the view and nothing of this space's record,
    and when a backed page's fault is resolved, its leaf is writable and, unless the page
    is shared memory, the frame behind it belongs to this space alone, so that the store
    that faulted can be retried. *)
Theorem cow_fault_spec s g t R addr :
  gm_ok s g t R → extent g addr →
  ∃ b s' t', cow_fault addr true (s, g) = Ok (b, (s', g))
    ∧ gm_ok s' g t' R ∧ (∀ a, view s' t' a = view s t a)
    ∧ (b = true → allowed g Prot_WRITE addr
       ∧ (is_Some (lv t !! vpn addr) → ∃ e, lv t' !! vpn addr = Some e
            ∧ prot_contains (leaf_prot e) Prot_WRITE = true
            ∧ (private g (page_no g addr) → rc s' (frame_of_entry e) = 1))).
Proof.
  intros Hok Ha. pose proof Hok as [Hwf HS Hcl].
  destruct (extent_page g Hwf addr Ha) as (_ & Hp & Ev). fold (page_no g addr) in Hp, Ev.
  assert (∃ b s' t', Ok (false, (s, g)) = Ok (b, (s', g)) ∧ gm_ok s' g t' R
    ∧ (∀ a, view s' t' a = view s t a) ∧ (b = true → False)) as Hno
    by (exists false, s, t; split_and!; done).
  unfold cow_fault. cbn [negb]. unfold mbind at 1, ST_bind at 1. cbn [self].
  unfold page_index. unfold extent in Ha.
  replace ((addr <? base g) || (base g + msize g <=? addr)) with false by lia.
  fold (page_no g addr). unfold mbind, ST_bind. rewrite get_mapped_ok, get_prot_ok by (done || lia).
  destruct (negb (pv_val (mapped g) (page_no g addr))
    || negb (prot_contains (pv_val (m_prot g) (page_no g addr)) Prot_WRITE)) eqn:E.
  { destruct Hno as (b & s' & t' & E1 & O & V & F). exists b, s', t'. split_and!; [done..|]. intros ->.
    by destruct F. }
  apply orb_false_iff in E as [Em Ew]. apply negb_false_iff in Em, Ew.
  rewrite get_shared_anon_ok by (done || lia). unfold pool. fold (page_base g (page_no g addr)).
  assert (allowed g Prot_WRITE addr) as Hall by done.
  destruct (space g) as [root] eqn:Esp. cbn [pml4] in HS.
  destruct (lv t !! vpn (page_base g (page_no g addr))) as [e|] eqn:He; rewrite Ev, He.
  - destruct (make_writable_ok s root t R (pv_val (m_prot g) (page_no g addr))
      (page_base g (page_no g addr)) (pv_val (shared_anon g) (page_no g addr)) e)
      as (r & s' & t' & E1 & S & Hr); [done|by apply page_base_aligned|done|].
    rewrite E1. eexists _, s', t'. split_and!; [reflexivity| |apply S|].
    + split; [done|rewrite Esp; apply S|]. intros q Hq Hmq.
      rewrite (si_lv _ _ _ _ _ _ _ S); [by apply Hcl|].
      intros E2. apply page_base_inj in E2; [|done..]. subst. by rewrite Em in Hmq.
    + destruct r as [err|b]; [done|]. intros _. split; [done|]. intros _.
      destruct (Hr b eq_refl) as (e' & He' & Hlp & Hf). exists e'. split_and!; [done| |].
      * rewrite Hlp. unfold effective_prot. by rewrite Ew; destruct (prot_contains _ Prot_EXEC).
      * unfold private. intros Hpr. by rewrite Hpr in Hf.
  - unfold make_writable, mbind, ST_bind. rewrite (translate_spec _ _ _ _ _ HS), He.
    cbn [fmap option_fmap option_map]. exists true, s, t. split_and!; [done|done|done|].
    intros _. split; [done|]. by intros [? [=]].
Qed.

Lemma cow_fault_spec_witness :
  ∃ t b s' t', lv t = {[ 5 := demo_leaf ]}
    ∧ cow_fault 0x5123 true (demo_mapped, demo_gm) = Ok (b, (s', demo_gm))
    ∧ (∀ a, view s' t' a = view demo_mapped t a).
Proof.
  destruct demo_mapped_space as (t & HS & Hlv).
  destruct (cow_fault_spec demo_mapped demo_gm t ∅ 0x5123 (demo_gm_ok _ _ _ _ HS Hlv)
    (demo_extent 0x5123 ltac:(lia))) as (b & s' & t' & E & _ & V & _).
  exists t, b, s', t'. split; [exact Hlv|]. split; [exact E|exact V].
Defined.

(** When no frame is left, a store to a page that is mapped writable but not backed yet
    is reported as resolved although nothing was done: the state is the one the store
    faulted in, so the retry faults again, forever. *)
Theorem starved_store_retries s g t R addr :
  gm_ok s g t R → extent g addr → allowed g Prot_WRITE addr → lv t !! vpn addr = None →
  exhausted s → resolve_fault addr true (s, g) = Ok (true, (s, g)).
Proof.
  intros [Hwf HS Hcl] Ha [Hm Hw] Hn Hx. fold (page_no g addr) in Hm, Hw.
  destruct (extent_page g Hwf addr Ha) as (_ & Hp & Ev). fold (page_no g addr) in Hp, Ev.
  pose proof (gw_base _ Hwf) as [Hb Hbm]. unfold extent in Ha.
  set (page := addr - addr mod PAGE_SIZE).
  assert (base g ≤ page < base g + msize g ∧ page_no g page = page_no g addr) as [Hpg Epg].
  { unfold page, page_no, PAGE_SIZE in *. split; divlia. }
  assert (vpn page = vpn addr) as Evp by (apply vpn_same_page; unfold page, PAGE_SIZE; divlia).
  assert (∀ a, base g ≤ a < base g + msize g → page_index g a = Some (page_no g a)) as Hpi.
  { intros a Haa. unfold page_index, page_no.
    by replace ((a <? base g) || (base g + msize g <=? a)) with false by lia. }
  destruct (space g) as [root] eqn:Esp. cbn [pml4] in HS.
  assert (∀ a, vpn a = vpn addr → translate (space g) a s = Ok (None, s)) as Htr.
  { intros a E. by rewrite Esp, (translate_spec _ _ _ _ _ HS), E, Hn. }
  assert (demand_fault addr (s, g) = Ok (false, (s, g))) as Hd.
  { unfold demand_fault, mbind, ST_bind. cbn [self]. fold page. rewrite Hpi, Epg by done.
    rewrite get_mapped_ok by (done || lia). unfold pool at 1. rewrite Htr by done. rewrite Hm.
    cbn [negb orb bool_decide]. rewrite bool_decide_eq_false_2 by (by intros [? [=]]).
    rewrite get_prot_ok by (done || lia).
    destruct (Z.eqb_spec (pv_val (m_prot g) (page_no g addr)) Prot_NONE) as [E|_]; [done|].
    unfold pool, ensure_backed, mbind, ST_bind. rewrite Htr by done. by rewrite fa_alloc_None. }
  unfold resolve_fault, mbind, ST_bind. rewrite Hd.
  unfold cow_fault, mbind, ST_bind. cbn [self negb]. rewrite Hpi by done.
  rewrite get_mapped_ok, get_prot_ok by (done || lia). rewrite Hm, Hw. cbn [negb orb].
  rewrite get_shared_anon_ok by (done || lia).
  unfold pool, make_writable, mbind, ST_bind. by rewrite Htr.
Qed.

Definition demo_starved : Pool := mkPool (phys demo) (fa_set_reserve (fa demo) 1000).

Lemma starved_store_retries_witness :
  resolve_fault 0x5008 true (demo_starved, demo_gm) = Ok (true, (demo_starved, demo_gm)).
Proof.
  apply (starved_store_retries demo_starved demo_gm (empty_tree 4096) ({[+ 8192 +]} ⊎ ∅)).
  - destruct demo_space as [Hp Ht Ho Hacc]. destruct Hp as [W1 W2 W3]. destruct W2 as [F1 F2 F3 F4 F5 F6].
    split; [exact demo_gm_wf| |intros p _ _; apply lookup_empty].
    split; [split; [exact W1|split; assumption|exact W3]|exact Ht|exact Ho|exact Hacc].
  - apply demo_extent. lia.
  - split; reflexivity.
  - apply lookup_empty.
  - right. split; [reflexivity|]. vm_compute. discriminate.
Defined.
