(* ===== verification/Arena.v ===== *)
(** The arena of an address space ([struct Arena], [src/kernel/mod.rs]): which addresses an
    [mmap] without a fixed place may be given. Allocations grow down from the top; freed ranges
    are kept in a list and handed out again. *)
From S2P Require Import Prelude.
From stdpp Require Import base numbers list relations.
Local Open Scope Z_scope.

Record Arena := mkArena { cursor : Z; floor : Z; top : Z; free : list (Z * Z) }.

Definition arena_new (top floor : Z) : Arena := mkArena top floor top [].
Definition forget (A : Arena) : Arena := mkArena (cursor A) (floor A) (top A) [].

(** First fit: the high part of the first range that is long enough. *)
Fixpoint take_fit (len : Z) (fr : list (Z * Z)) : option (Z * list (Z * Z)) :=
  match fr with
  | [] => None
  | (a, l) :: r =>
    if len <=? l then Some (a + (l - len), if l =? len then r else (a, l - len) :: r)
    else match take_fit len r with Some (b, r') => Some (b, (a, l) :: r') | None => None end
  end.
Definition alloc (A : Arena) (len : Z) : option Z * Arena :=
  match take_fit len (free A) with
  | Some (b, fr) => (Some b, mkArena (cursor A) (floor A) (top A) fr)
  | None =>
    if cursor A <? len then (None, A)
    else if cursor A - len <? floor A then (None, A)
    else (Some (cursor A - len), mkArena (cursor A - len) (floor A) (top A) (free A))
  end.

Definition is_free (A : Arena) (addr len : Z) : bool :=
  match checked_add64 addr len with
  | None => false
  | Some stop => existsb (λ r, (r.1 <=? addr) && (stop <=? r.1 + r.2)) (free A)
  end.

(** What is left of a range when [[addr, stop)] is taken out. *)
Definition cut (addr stop : Z) (r : Z * Z) : list (Z * Z) :=
  let '(a, l) := r in
  if (a + l <=? addr) || (stop <=? a) then [r]
  else (if a <? addr then [(a, addr - a)] else []) ++ (if stop <? a + l then [(stop, a + l - stop)] else []).
(** [partition_point] and [insert] on a list sorted by address. *)
Fixpoint insert_at (x : Z * Z) (fr : list (Z * Z)) : list (Z * Z) :=
  match fr with
  | [] => [x]
  | r :: fr => if r.1 <? x.1 then r :: insert_at x fr else x :: r :: fr
  end.
Definition claim (A : Arena) (addr len : Z) : Arena :=
  match checked_add64 addr len with
  | None => A
  | Some stop =>
    if len =? 0 then A
    else
      let fr := free A ≫= cut addr stop in
      if (addr <? cursor A) && (floor A <? stop) then
        mkArena (Z.max addr (floor A)) (floor A) (top A)
          (if stop <? cursor A then insert_at (stop, cursor A - stop) fr else fr)
      else mkArena (cursor A) (floor A) (top A) fr
  end.

(** [while let Some(i) = position(a == cursor)]: the cursor swallows the ranges it meets; each
    turn removes one, so their number is enough fuel. *)
Fixpoint take_at (c : Z) (fr : list (Z * Z)) : option (Z * list (Z * Z)) :=
  match fr with
  | [] => None
  | (a, l) :: r => if a =? c then Some (l, r)
                   else match take_at c r with Some (n, r') => Some (n, (a, l) :: r') | None => None end
  end.
Fixpoint absorb (fuel : nat) (c : Z) (fr : list (Z * Z)) : Z * list (Z * Z) :=
  match take_at c fr with
  | None => (c, fr)
  | Some (n, fr') => match fuel with O => (c, fr) | S fuel => absorb fuel (c + n) fr' end
  end.

(** Insertion at [partition_point], joined to the entry after it and then to the one before. *)
Definition join_next (x : Z * Z) (fr : list (Z * Z)) : list (Z * Z) :=
  match fr with
  | (na, nl) :: r => if x.1 + x.2 =? na then (x.1, x.2 + nl) :: r else x :: fr
  | [] => [x]
  end.
Definition join_prev (p : Z * Z) (fr : list (Z * Z)) : list (Z * Z) :=
  match fr with
  | (a, l) :: r => if p.1 + p.2 =? a then (p.1, p.2 + l) :: r else p :: fr
  | [] => [p]
  end.
Fixpoint insert_join (x : Z * Z) (fr : list (Z * Z)) : list (Z * Z) :=
  match fr with
  | [] => [x]
  | r :: fr' =>
    if r.1 <? x.1 then
      match fr' with
      | q :: _ => if q.1 <? x.1 then r :: insert_join x fr' else join_prev r (join_next x fr')
      | [] => join_prev r [x]
      end
    else join_next x fr
  end.

Definition free_range (A : Arena) (addr len : Z) : Arena :=
  match checked_add64 addr len with
  | None => A
  | Some stop =>
    if (len =? 0) || (addr <? cursor A) || (top A <? stop) then A
    else if existsb (λ r, (addr <? r.1 + r.2) && (r.1 <? stop)) (free A) then A
    else if addr =? cursor A then
      let '(c, fr) := absorb (length (free A)) stop (free A) in mkArena c (floor A) (top A) fr
    else mkArena (cursor A) (floor A) (top A) (insert_join (addr, len) (free A))
  end.

(** * The free addresses *)

Definition inside (x : Z) (r : Z * Z) : Prop := r.1 ≤ x < r.1 + r.2.
Definition listed (fr : list (Z * Z)) (x : Z) : Prop := ∃ r, r ∈ fr ∧ inside x r.
Definition is_unused (A : Arena) (x : Z) : Prop := floor A ≤ x < cursor A ∨ listed (free A) x.

(** Ranges in order, apart, not empty, within bounds. *)
Fixpoint ranges_ok (lo hi : Z) (fr : list (Z * Z)) : Prop :=
  match fr with
  | [] => lo ≤ hi
  | (a, l) :: r => lo ≤ a ∧ 0 < l ∧ ranges_ok (a + l) hi r
  end.
Record arena_ok (A : Arena) : Prop := mkArenaOk {
  ao_floor : 0 ≤ floor A ≤ cursor A;
  ao_top : top A < U64;
  ao_free : ranges_ok (cursor A) (top A) (free A)
}.

Lemma listed_nil x : ¬ listed [] x.
Proof. intros (r & H & _). by apply elem_of_nil in H. Qed.
Lemma listed_cons r fr x : listed (r :: fr) x ↔ inside x r ∨ listed fr x.
Proof.
  split.
  - intros (q & [->|H]%elem_of_cons & Hi); [by left|right; by exists q].
  - intros [H|(q & H & Hi)]; [exists r|exists q]; split; try done; apply elem_of_cons; auto.
Qed.
Lemma listed_app f1 f2 x : listed (f1 ++ f2) x ↔ listed f1 x ∨ listed f2 x.
Proof.
  induction f1 as [|r f1 IH]; simpl.
  - split; [by right|]. intros [H|H]; [by apply listed_nil in H|done].
  - rewrite !listed_cons, IH. tauto.
Qed.

Lemma ranges_le lo hi fr : ranges_ok lo hi fr → lo ≤ hi.
Proof. revert lo; induction fr as [|[a l] fr IH]; simpl; intros lo; [done|]. intros (? & ? & H). apply IH in H. lia. Qed.
Lemma ranges_weaken lo lo' hi fr : ranges_ok lo hi fr → lo' ≤ lo → ranges_ok lo' hi fr.
Proof. destruct fr as [|[a l] fr]; simpl; [lia|]. intros (? & ? & ?) ?. split_and!; [lia|done|done]. Qed.
Lemma ranges_inside lo hi fr x : ranges_ok lo hi fr → listed fr x → lo ≤ x < hi.
Proof.
  revert lo; induction fr as [|[a l] fr IH]; intros lo H Hx; [by apply listed_nil in Hx|].
  simpl in H. destruct H as (H1 & H2 & H3). apply ranges_le in H3 as Hle. apply listed_cons in Hx as [Hx|Hx].
  - unfold inside in Hx. simpl in Hx. lia.
  - specialize (IH _ H3 Hx). lia.
Qed.

Ltac range_tac :=
  repeat match goal with
         | H : inside _ _ |- _ => unfold inside in H; simpl in H
         | |- context [inside] => unfold inside; simpl
         | H : (_ && _) = true |- _ => apply andb_true_iff in H as [??]
         end; try lia.

(** * [alloc] *)

Lemma take_fit_spec len lo hi fr :
  0 < len → ranges_ok lo hi fr →
  match take_fit len fr with
  | Some (b, fr') =>
    ranges_ok lo hi fr' ∧ (∀ x, b ≤ x < b + len → listed fr x) ∧
    (∀ x, listed fr' x ↔ listed fr x ∧ ¬ b ≤ x < b + len)
  | None => Forall (λ r, r.2 < len) fr
  end.
Proof.
  intros Hl. revert lo. induction fr as [|[a l] fr IH]; intros lo H; simpl; [done|].
  simpl in H. destruct H as (H1 & H2 & H3). destruct (Z.leb_spec len l) as [Hf|Hf].
  - assert (∀ x, listed fr x → a + l ≤ x) as Hr by (intros x Hx; apply (ranges_inside _ _ _ _ H3) in Hx; lia).
    split_and!.
    + destruct (Z.eqb_spec l len); simpl; [eapply ranges_weaken; [exact H3|lia]|].
      split_and!; [lia|lia|]. eapply ranges_weaken; [exact H3|lia].
    + intros x Hx. apply listed_cons. left. range_tac.
    + intros x. destruct (Z.eqb_spec l len); rewrite !listed_cons; unfold inside; simpl.
      * specialize (Hr x). split; [intros Hx; split; [by right|]; specialize (Hr Hx); lia|].
        intros [[Hx|Hx] Hn]; [lia|done].
      * specialize (Hr x). split.
        { intros [Hx|Hx]; [split; [left|]; lia|]. split; [by right|]. specialize (Hr Hx). lia. }
        intros [[Hx|Hx] Hn]; [left; lia|by right].
  - specialize (IH _ H3). destruct (take_fit len fr) as [[b fr']|]; [|by constructor].
    destruct IH as (I1 & I2 & I3). split_and!.
    + simpl. done.
    + intros x Hx. apply listed_cons. right. by apply I2.
    + intros x. rewrite !listed_cons, I3. split; [|tauto].
      intros [Hx|[Hx Hn]]; [split; [by left|]|tauto]. intros Hb. apply I2 in Hb.
      apply (ranges_inside _ _ _ _ H3) in Hb. range_tac.
Qed.

Lemma arena_alloc_spec A len :
  arena_ok A → 0 < len →
  match alloc A len with
  | (Some b, A') =>
    arena_ok A' ∧ (∀ x, b ≤ x < b + len → is_unused A x) ∧
    (∀ x, is_unused A' x ↔ is_unused A x ∧ ¬ b ≤ x < b + len)
  | (None, A') => A' = A ∧ cursor A - floor A < len ∧ Forall (λ r, r.2 < len) (free A)
  end.
Proof.
  intros [H1 H2 H3] Hl. unfold alloc. pose proof (take_fit_spec len _ _ _ Hl H3) as P.
  destruct (take_fit len (free A)) as [[b fr]|].
  - destruct P as (P1 & P2 & P3). split_and!; [by split|intros x Hx; right; by apply P2|].
    intros x. unfold is_unused. simpl. rewrite P3. split; [|tauto].
    intros [Hx|[Hx Hn]]; [|tauto]. split; [by left|]. intros Hb. apply P2 in Hb.
    apply (ranges_inside _ _ _ _ H3) in Hb. lia.
  - destruct (Z.ltb_spec (cursor A) len); [split_and!; [done|lia|done]|].
    destruct (Z.ltb_spec (cursor A - len) (floor A)); [split_and!; [done|lia|done]|].
    split_and!.
    + split; simpl; [lia|done|]. eapply ranges_weaken; [exact H3|lia].
    + intros x Hx. left. lia.
    + intros x. unfold is_unused. simpl. split.
      * intros [Hx|Hx]; [split; [left|]; lia|]. split; [by right|].
        apply (ranges_inside _ _ _ _ H3) in Hx. lia.
      * intros [[Hx|Hx] Hn]; [left; lia|by right].
Qed.

(** * [claim] *)

Lemma listed_if (b : bool) r x : listed (if b then [r] else []) x ↔ b = true ∧ inside x r.
Proof.
  destruct b; [rewrite listed_cons|]; split; try (by intros [? ?]); try (by intros ?%listed_nil).
  - intros [?|?%listed_nil]; done.
  - intros [_ ?]. by left.
Qed.

Lemma cut_listed addr stop r x :
  addr < stop → listed (cut addr stop r) x ↔ inside x r ∧ ¬ addr ≤ x < stop.
Proof.
  intros Hs. destruct r as [a l]. unfold cut. destruct ((a + l <=? addr) || (stop <=? a)) eqn:E.
  - pose proof (listed_if true (a, l) x) as Hi. cbn [negb] in Hi. rewrite Hi. unfold inside. simpl. lia.
  - rewrite listed_app, !listed_if. unfold inside. simpl. lia.
Qed.

Lemma cut_ranges addr stop lo hi a l fr :
  addr < stop → lo ≤ a → 0 < l → ranges_ok (a + l) hi fr → ranges_ok lo hi (cut addr stop (a, l) ++ fr).
Proof.
  intros Hs Ha Hl H. unfold cut. destruct (_ || _) eqn:E; [simpl; done|].
  destruct (Z.ltb_spec a addr), (Z.ltb_spec stop (a + l)); simpl; try split_and!; try lia;
    try (replace (stop + (a + l - stop)) with (a + l) by lia); try done;
    eapply ranges_weaken; try exact H; lia.
Qed.

Lemma arena_cuts_spec addr stop lo hi fr :
  addr < stop → ranges_ok lo hi fr →
  ranges_ok lo hi (fr ≫= cut addr stop) ∧
  ∀ x, listed (fr ≫= cut addr stop) x ↔ listed fr x ∧ ¬ addr ≤ x < stop.
Proof.
  intros Hs. revert lo. induction fr as [|[a l] fr IH]; intros lo H.
  - split; [done|]. intros x. split; [by intros ?%listed_nil|]. by intros [?%listed_nil _].
  - simpl in H. destruct H as (H1 & H2 & H3). destruct (IH _ H3) as [I1 I2]. rewrite bind_cons. split.
    + by apply cut_ranges.
    + intros x. rewrite listed_app, cut_listed, I2, listed_cons by done. tauto.
Qed.

Lemma insert_first x lo hi fr :
  lo ≤ x.1 → 0 < x.2 → ranges_ok (x.1 + x.2) hi fr →
  ranges_ok lo hi (insert_at x fr) ∧ ∀ y, listed (insert_at x fr) y ↔ inside y x ∨ listed fr y.
Proof.
  intros H1 H2 H3. assert (insert_at x fr = x :: fr) as ->.
  { destruct fr as [|[a l] fr]; simpl; [done|]. simpl in H3. destruct (Z.ltb_spec a x.1); [lia|done]. }
  split; [destruct x; simpl in *; done|]. intros y. by rewrite listed_cons.
Qed.

Lemma claim_spec A addr len :
  arena_ok A → 0 ≤ addr → 0 ≤ len → addr + len < U64 →
  arena_ok (claim A addr len) ∧
  ∀ x, is_unused (claim A addr len) x ↔ is_unused A x ∧ ¬ addr ≤ x < addr + len.
Proof.
  intros [H1 H2 H3] Ha Hl Hu. unfold claim, checked_add64. destruct (Z.ltb_spec (addr + len) U64); [|lia].
  destruct (Z.eqb_spec len 0) as [->|Hn]; [split; [done|]; intros x; split; [intros; split; [done|lia]|tauto]|].
  destruct (arena_cuts_spec addr (addr + len) _ _ _ ltac:(lia) H3) as [C1 C2].
  destruct ((addr <? cursor A) && (floor A <? addr + len)) eqn:E.
  - destruct (Z.ltb_spec (addr + len) (cursor A)) as [Hs|Hs].
    + destruct (insert_first (addr + len, cursor A - (addr + len)) (Z.max addr (floor A)) (top A)
        (free A ≫= cut addr (addr + len))) as [I1 I2]; simpl; [lia|lia|by replace (addr + len + _) with (cursor A) by lia|].
      split; [split; simpl; [lia|done|done]|]. intros x. unfold is_unused. simpl. rewrite I2, C2.
      unfold inside. simpl. split.
      * intros [Hx|[Hx|[Hx Hn']]]; [split; [left|]; lia|split; [left|]; lia|tauto].
      * intros [[Hx|Hx] Hn']; [|tauto]. destruct (decide (x < addr)); [left; lia|right; left; lia].
    + split; [split; simpl; [lia|done|eapply ranges_weaken; [exact C1|lia]]|].
      intros x. unfold is_unused. simpl. rewrite C2. split; [intros [Hx|Hx]; [split; [left|]; lia|tauto]|].
      intros [[Hx|Hx] Hn']; [left; lia|tauto].
  - split; [by split|]. intros x. unfold is_unused. simpl. rewrite C2. split; [|tauto].
    intros [Hx|Hx]; [|tauto]. split; [by left|]. lia.
Qed.

(** * [free_range] *)

Lemma take_at_spec c lo hi fr :
  ranges_ok lo hi fr → c ≤ lo →
  match take_at c fr with
  | Some (n, fr') => 0 < n ∧ length fr = S (length fr') ∧ ranges_ok (c + n) hi fr' ∧
      ∀ x, listed fr x ↔ c ≤ x < c + n ∨ listed fr' x
  | None => True
  end.
Proof.
  intros H Hc. destruct fr as [|[a l] fr]; simpl; [done|]. simpl in H. destruct H as (H1 & H2 & H3).
  destruct (Z.eqb_spec a c) as [->|Hne].
  - split_and!; [done|done|done|]. intros x. by rewrite listed_cons.
  - destruct (take_at c fr) as [[n fr']|] eqn:E; [|done]. exfalso.
    assert (∀ lo, c < lo → ranges_ok lo hi fr → take_at c fr = None) as Hnone.
    { clear. induction fr as [|[a l] fr IH]; intros lo Hc H; simpl; [done|]. destruct H as (?&?&?).
      destruct (Z.eqb_spec a c); [lia|]. rewrite (IH (a + l)); [done|lia|done]. }
    rewrite (Hnone (a + l)) in E; [done|lia|done].
Qed.

Lemma arena_absorb_spec fuel : ∀ c hi fr,
  (length fr ≤ fuel)%nat → ranges_ok c hi fr →
  let '(c', fr') := absorb fuel c fr in
  c ≤ c' ∧ ranges_ok c' hi fr' ∧ (∀ x, listed fr x ↔ c ≤ x < c' ∨ listed fr' x) ∧ take_at c' fr' = None.
Proof.
  induction fuel as [|fuel IH]; intros c hi fr Hf H; simpl.
  - destruct fr; [|simpl in Hf; lia]. simpl. split_and!; [lia|done| |done]. intros x. split; [by right|].
    intros [?|?]; [lia|done].
  - pose proof (take_at_spec c c hi fr H ltac:(lia)) as P. destruct (take_at c fr) as [[n fr']|] eqn:E.
    + destruct P as (P1 & P2 & P3 & P4). specialize (IH (c + n) hi fr' ltac:(lia) P3).
      destruct (absorb fuel (c + n) fr') as [c' fr2]. destruct IH as (I1 & I2 & I3 & I4).
      split_and!; [lia|done| |done]. intros x. rewrite P4, I3. split.
      * intros [?|[?|?]]; [left; lia|left; lia|by right].
      * intros [?|?]; [|tauto]. destruct (decide (x < c + n)); [left; lia|right; left; lia].
    + split_and!; [lia|done| |done]. intros x. split; [by right|]. intros [?|?]; [lia|done].
Qed.

Lemma join_next_spec x lo hi fr :
  lo ≤ x.1 → 0 < x.2 → ranges_ok (x.1 + x.2) hi fr →
  ranges_ok lo hi (join_next x fr) ∧ (∀ y, listed (join_next x fr) y ↔ inside y x ∨ listed fr y) ∧
  (∃ l r, join_next x fr = (x.1, l) :: r).
Proof.
  intros H1 H2 H3. destruct x as [a l]. simpl in *. unfold join_next. destruct fr as [|[na nl] fr]; simpl in *.
  - split_and!; [lia|done|done| |by eexists _, _]. intros y. rewrite listed_cons. done.
  - destruct H3 as (G1 & G2 & G3). destruct (Z.eqb_spec (a + l) na) as [<-|Hne].
    + simpl. split_and!; [lia|lia|by replace (a + (l + nl)) with (a + l + nl) by lia| |by eexists _, _].
      intros y. rewrite !listed_cons. unfold inside. simpl. split; [intros [?|?]; [|tauto]|intros [?|[?|?]]; [left; lia|left; lia|tauto]].
      destruct (decide (y < a + l)); [left; lia|right; left; lia].
    + simpl. split_and!; try done; [|by eexists _, _]. intros y. by rewrite !listed_cons.
Qed.

Lemma join_prev_spec p lo hi a l fr :
  lo ≤ p.1 → 0 < p.2 → p.1 + p.2 ≤ a → ranges_ok a hi ((a, l) :: fr) →
  ranges_ok lo hi (join_prev p ((a, l) :: fr)) ∧
  ∀ y, listed (join_prev p ((a, l) :: fr)) y ↔ inside y p ∨ listed ((a, l) :: fr) y.
Proof.
  intros H1 H2 H3 H. destruct p as [pa pl]. simpl in *. destruct H as (_ & G2 & G3).
  destruct (Z.eqb_spec (pa + pl) a) as [<-|Hne].
  - split; [split_and!; [done|lia|by replace (pa + (pl + l)) with (pa + pl + l) by lia]|].
    intros y. rewrite !listed_cons. unfold inside. simpl. split; [intros [?|?]; [|tauto]|intros [?|[?|?]]; [left; lia|left; lia|tauto]].
    destruct (decide (y < pa + pl)); [left; lia|right; left; lia].
  - split; [simpl; split_and!; done|]. intros y. by rewrite !listed_cons.
Qed.

Lemma insert_join_spec x fr : ∀ lo hi,
  lo ≤ x.1 → 0 < x.2 → x.1 + x.2 ≤ hi → ranges_ok lo hi fr → (∀ y, listed fr y → ¬ inside y x) →
  ranges_ok lo hi (insert_join x fr) ∧ ∀ y, listed (insert_join x fr) y ↔ inside y x ∨ listed fr y.
Proof.
  destruct x as [a l]. cbn [fst snd]. induction fr as [|[b m] fr IH]; intros lo hi H1 H2 H3 H Hd.
  - simpl. split; [split_and!; try lia; by apply ranges_le in H|]. intros y. by rewrite listed_cons.
  - cbn [ranges_ok] in H. destruct H as (G1 & G2 & G3).
    assert (b + m ≤ a ∨ a + l ≤ b) as Hap.
    { destruct (decide (b + m ≤ a)); [by left|]. destruct (decide (a + l ≤ b)); [by right|]. exfalso.
      apply (Hd (Z.max a b)); [apply listed_cons; left|]; unfold inside; simpl; lia. }
    assert (∀ y, listed fr y → ¬ inside y (a, l)) as Hd' by (intros y Hy; apply Hd, listed_cons; by right).
    cbn [insert_join fst snd]. destruct (Z.ltb_spec b a) as [Hb|Hb].
    + assert (b + m ≤ a) as Hbm by lia. destruct fr as [|[c k] fr].
      * destruct (join_prev_spec (b, m) lo hi a l []) as [J1 J2]; cbn [fst snd]; [lia|lia|lia|simpl; lia|].
        split; [done|]. intros y. rewrite J2, !listed_cons. tauto.
      * cbn [fst]. destruct (Z.ltb_spec c a) as [Hc|Hc].
        { destruct (IH (b + m) hi) as [I1 I2]; try done. split; [simpl; split_and!; done|].
          intros y. rewrite listed_cons, I2, !listed_cons. tauto. }
        assert (a + l ≤ c) as Hac.
        { cbn [ranges_ok] in G3. destruct (decide (a + l ≤ c)); [done|]. exfalso.
          apply (Hd c); [apply listed_cons; right; apply listed_cons; left|]; unfold inside; simpl; lia. }
        destruct (join_next_spec (a, l) a hi ((c, k) :: fr)) as (N1 & N2 & l' & r & E); cbn [fst snd]; [lia|lia| |].
        { cbn [ranges_ok] in G3 |- *. destruct G3 as (?&?&?). split_and!; done. }
        rewrite E in *. cbn [fst] in *. destruct (join_prev_spec (b, m) lo hi a l' r) as [J1 J2]; cbn [fst snd]; [lia|lia|lia|done|].
        split; [done|]. intros y. rewrite J2, N2, !listed_cons. tauto.
    + assert (a + l ≤ b) as Hab by lia.
      destruct (join_next_spec (a, l) lo hi ((b, m) :: fr)) as (N1 & N2 & _); cbn [fst snd]; [lia|lia| |].
      { cbn [ranges_ok]. split_and!; done. }
      split; [done|]. intros y. rewrite N2. tauto.
Qed.

(** The range goes back exactly when it is inside the allocated window and no part of it is
    free already. *)
Definition takes_back (A : Arena) (addr len : Z) : Prop :=
  0 < len ∧ cursor A ≤ addr ∧ addr + len ≤ top A ∧ ∀ x, addr ≤ x < addr + len → ¬ is_unused A x.

Lemma free_range_spec A addr len :
  arena_ok A → 0 ≤ addr → 0 ≤ len →
  arena_ok (free_range A addr len) ∧
  (takes_back A addr len ∧ (∀ x, is_unused (free_range A addr len) x ↔ is_unused A x ∨ addr ≤ x < addr + len) ∨
   ¬ takes_back A addr len ∧ free_range A addr len = A).
Proof.
  intros [H1 H2 H3] Ha Hl. assert (arena_ok A) as Hok by by split. unfold free_range, checked_add64.
  destruct (Z.ltb_spec (addr + len) U64); [|split; [done|right]; split; [|done]; intros (?&?&?&?); lia].
  destruct ((len =? 0) || (addr <? cursor A) || (top A <? addr + len)) eqn:E.
  { split; [done|right]. split; [|done]. intros (?&?&?&?). lia. }
  destruct (existsb _ (free A)) eqn:Ex.
  { split; [done|right]. split; [|done]. intros (Hl0 & Hc & Ht & Hx). apply existsb_exists in Ex as ([a l] & Hin & Hb).
    apply list_elem_of_In in Hin. cbn [fst snd] in Hb.
    assert (0 < l) as Hlpos.
    { revert Hin H3. generalize (cursor A) as lo. generalize (free A). clear. induction l0 as [|[b m] r IH]; intros lo Hin H.
      - by apply elem_of_nil in Hin.
      - cbn [ranges_ok] in H. destruct H as (?&?&?). apply elem_of_cons in Hin as [[= -> ->]|Hin]; [done|by eapply IH]. }
    apply (Hx (Z.max addr a)); [lia|]. right. exists (a, l). split; [done|]. unfold inside. simpl. lia. }
  assert (∀ y, listed (free A) y → ¬ inside y (addr, len)) as Hd.
  { intros y (r & Hr & Hy) Hi. assert (existsb (λ r, (addr <? r.1 + r.2) && (r.1 <? addr + len)) (free A) = true) as Hx; [|congruence].
    apply existsb_exists. exists r. split; [by apply list_elem_of_In|]. unfold inside in *. simpl in Hi. lia. }
  assert (takes_back A addr len) as Htb.
  { split_and!; [lia|lia|lia|]. intros x Hx [Hu|Hu]; [lia|]. by apply (Hd x Hu). }
  destruct (Z.eqb_spec addr (cursor A)) as [->|Hne].
  - assert (ranges_ok (cursor A + len) (top A) (free A)) as Hr.
    { destruct (free A) as [|[a l] fr]; simpl in *; [lia|]. destruct H3 as (?&?&?). split_and!; [|done|done].
      destruct (decide (cursor A + len ≤ a)); [done|]. exfalso. apply (Hd a); [apply listed_cons; left|]; unfold inside; simpl; lia. }
    pose proof (arena_absorb_spec (length (free A)) (cursor A + len) (top A) (free A) (le_n _) Hr) as P.
    destruct (absorb _ _ _) as [c fr]. destruct P as (P1 & P2 & P3 & _). split; [split; simpl; [lia|done|done]|left].
    split; [done|]. intros x. unfold is_unused. simpl. rewrite P3. split.
    + intros [?|?]; [|tauto]. destruct (decide (x < cursor A)); [left; left; lia|].
      destruct (decide (x < cursor A + len)); [right; lia|left; right; left; lia].
    + intros [[?|[?|?]]|?]; [left; lia|left; lia|tauto|left; lia].
  - destruct (insert_join_spec (addr, len) (free A) (cursor A) (top A)) as [I1 I2]; cbn [fst snd]; try done; [lia|lia|lia|].
    split; [by split|left]. split; [done|]. intros x. unfold is_unused. simpl. rewrite I2. unfold inside. simpl. tauto.
Qed.

(** * Sequences of operations *)

Inductive Op := OAlloc (len : Z) | OClaim (addr len : Z) | OFree (addr len : Z).
(** The callers round lengths up from a positive number of bytes; claims come after the range
    was checked to lie in the address space. *)
Definition op_ok (o : Op) : Prop :=
  match o with
  | OAlloc len => 0 < len
  | OClaim addr len => 0 ≤ addr ∧ 0 ≤ len ∧ addr + len < U64
  | OFree addr len => 0 ≤ addr ∧ 0 ≤ len
  end.
Definition apply (A : Arena) (o : Op) : option Z * Arena :=
  match o with
  | OAlloc len => alloc A len
  | OClaim addr len => (None, claim A addr len)
  | OFree addr len => (None, free_range A addr len)
  end.

(** The specification: a set of unused addresses. An allocation takes a run of [len] of them,
    or fails when the arena's longest run, whose parts the list may keep apart, is too short; a
    claim takes a range whoever owned it; a free gives a range back if the window holds it and
    none of it is unused, and otherwise does nothing. *)
Definition takes (U U' : Z → Prop) (a len : Z) : Prop := ∀ x, U' x ↔ U x ∧ ¬ a ≤ x < a + len.
Definition fits (A : Arena) (len : Z) : Prop := len ≤ cursor A - floor A ∨ ∃ r, r ∈ free A ∧ len ≤ r.2.
Inductive spec (A : Arena) : Op → option Z → (Z → Prop) → Prop :=
| spec_alloc len a U' : (∀ x, a ≤ x < a + len → is_unused A x) → takes (is_unused A) U' a len →
    spec A (OAlloc len) (Some a) U'
| spec_full len U' : ¬ fits A len → (∀ x, U' x ↔ is_unused A x) → spec A (OAlloc len) None U'
| spec_claim a len U' : takes (is_unused A) U' a len → spec A (OClaim a len) None U'
| spec_free a len U' : takes_back A a len → (∀ x, U' x ↔ is_unused A x ∨ a ≤ x < a + len) →
    spec A (OFree a len) None U'
| spec_ignored a len U' : ¬ takes_back A a len → (∀ x, U' x ↔ is_unused A x) → spec A (OFree a len) None U'.

Inductive reach (top floor : Z) : Arena → Prop :=
| reach_new : reach top floor (arena_new top floor)
| reach_apply A o : reach top floor A → op_ok o → reach top floor (apply A o).2.

Lemma arena_new_ok top floor : 0 ≤ floor ≤ top → top < U64 → arena_ok (arena_new top floor).
Proof. intros. split; simpl; lia. Qed.

Lemma apply_ok A o : arena_ok A → op_ok o → arena_ok (apply A o).2.
Proof.
  intros HA Ho. destruct o as [len|a len|a len]; simpl in *.
  - pose proof (arena_alloc_spec A len HA Ho) as P. destruct (alloc A len) as [[b|] A']; [tauto|].
    by destruct P as [-> _].
  - apply claim_spec; tauto.
  - apply free_range_spec; tauto.
Qed.
Lemma reach_ok top floor A : 0 ≤ floor ≤ top → top < U64 → reach top floor A → arena_ok A.
Proof. intros ? ? H. induction H; [by apply arena_new_ok|by apply apply_ok]. Qed.

(** What an arena hands out stays inside its bounds, which no operation moves. *)
Lemma apply_bounds A o : Arena.floor (apply A o).2 = Arena.floor A ∧ Arena.top (apply A o).2 = Arena.top A.
Proof.
  destruct o as [len|a len|a len]; simpl; unfold alloc, claim, free_range.
  - destruct (take_fit _ _) as [[??]|]; [done|]. by repeat case_match.
  - by repeat case_match.
  - by repeat (case_match; simpl).
Qed.
Lemma reach_bounds top floor A : reach top floor A → Arena.floor A = floor ∧ Arena.top A = top.
Proof. induction 1 as [|A o _ [<- <-] _]; [done|apply apply_bounds]. Qed.
Lemma unused_bounds A x : arena_ok A → is_unused A x → Arena.floor A ≤ x < Arena.top A.
Proof.
  intros [H1 H2 H3] [H|H].
  - apply ranges_le in H3. lia.
  - apply (ranges_inside _ _ _ _ H3) in H. lia.
Qed.

(** C21: In every run, an arena implements a set of unused addresses between its floor and its
    top: an allocation returns only unused addresses and takes exactly those, and fails only
    when no range of the arena is long enough; a claim takes exactly its range; a free gives
    back exactly its range when it lies in the allocated window and no part of it is unused
    already, and changes nothing otherwise, so a double free cannot move the cursor. *)
Theorem arena_refines top floor A o :
  0 ≤ floor ≤ top → top < U64 → reach top floor A → op_ok o →
  spec A o (apply A o).1 (is_unused (apply A o).2) ∧ (∀ x, is_unused (apply A o).2 x → floor ≤ x < top).
Proof.
  intros Hf Ht HA Ho. pose proof (reach_ok _ _ _ Hf Ht HA) as Hok. split.
  - destruct o as [len|a len|a len]; simpl in *.
    + pose proof (arena_alloc_spec A len Hok Ho) as P. destruct (alloc A len) as [[b|] A'].
      * destruct P as (_ & P1 & P2). by constructor.
      * destruct P as (-> & P1 & P2). apply spec_full; [|done]. intros [?|(r & Hr & Hl)]; [lia|].
        rewrite Forall_forall in P2. specialize (P2 r Hr). simpl in P2. lia.
    + apply spec_claim. destruct (claim_spec A a len Hok) as [_ P]; [tauto|tauto|tauto|exact P].
    + destruct (free_range_spec A a len Hok) as [_ [[P1 P2]|[P1 P2]]]; [tauto|tauto| |].
      * by apply spec_free.
      * rewrite P2. by apply spec_ignored.
  - pose proof (reach_apply _ _ _ _ HA Ho) as HA'. destruct (reach_bounds _ _ _ HA') as [E1 E2].
    intros x Hx. apply unused_bounds in Hx; [|by apply apply_ok]. by rewrite E1, E2 in Hx.
Qed.

(** Four allocations, two frees and a claim inside the free range between them. *)
Definition demo_ops : list Op :=
  [OAlloc 4096; OAlloc 8192; OAlloc 4096; OFree 0x7D000 8192; OClaim 0x7D000 4096].
Definition demo : Arena := foldl (λ A o, (apply A o).2) (arena_new 0x80000 0x10000) demo_ops.
Lemma arena_refines_witness :
  demo = mkArena 0x7C000 0x10000 0x80000 [(0x7E000, 4096)] ∧
  alloc demo 4096 = (Some 0x7E000, mkArena 0x7C000 0x10000 0x80000 []) ∧
  free_range demo 0x7D000 8192 = demo ∧
  spec demo (OAlloc 4096) (alloc demo 4096).1 (is_unused (alloc demo 4096).2) ∧
  spec demo (OFree 0x7D000 8192) None (is_unused (free_range demo 0x7D000 8192)).
Proof.
  assert (reach 0x80000 0x10000 demo) as Hr.
  { unfold demo, demo_ops, foldl. repeat (apply reach_apply; [|simpl; unfold U64; lia]). apply reach_new. }
  split; [reflexivity|]. split; [reflexivity|]. split; [reflexivity|]. split.
  - apply (arena_refines 0x80000 0x10000 demo (OAlloc 4096)); [lia|reflexivity|exact Hr|simpl; lia].
  - apply (arena_refines 0x80000 0x10000 demo (OFree 0x7D000 8192)); [lia|reflexivity|exact Hr|simpl; lia].
Defined.
