(* ===== verification/Quota.v ===== *)
(** Host-resource ceilings ([src/limits.rs]): the VM-wide limits and the shared counter
    [Quota] that many threads charge and release without a lock.

    A thread inside [try_charge] or [release] is at one of the points between its
    atomic accesses; a step of the system is one atomic access of one thread, in any
    order, so every interleaving of the source's loops is a run of [step]. *)
From S2P Require Import Prelude.
From Stdlib Require Import String.
From stdpp Require Import base numbers list strings relations.
Local Open Scope Z_scope.

(** * The ceilings *)

(** A [Duration] of whole seconds is its number of seconds. *)
Record Limits := mkLimits {
  kernel_memory : Z;
  tasks : Z;
  open_files : Z;
  disk_bytes : Z;
  cpu_time : option Z;
  wall_time : option Z
}.

Definition MIB : Z := 1024 * 1024.
Definition clamp (v lo hi : Z) : Z := Z.min (Z.max v lo) hi.

(** [Limits::for_this_host]; [env] is [env_u64] (a variable of the environment parsed as
    a [u64]) and [host_memory] is [host_memory_bytes()]. *)
Definition for_this_host (env : string → option Z) (host_memory : Z) : Limits :=
  let km := clamp (host_memory / 4) (256 * MIB) (8192 * MIB) in
  mkLimits
    (default km (env "NIXVM_LIMIT_KERNEL_MEMORY"%string))
    (from_option (λ n, Z.min n (Z.shiftl 1 22)) 4096 (env "NIXVM_LIMIT_TASKS"%string))
    (from_option (λ n, Z.min n (U32 - 1)) (Z.shiftl 1 18) (env "NIXVM_LIMIT_OPEN_FILES"%string))
    (default (U64 - 1) (env "NIXVM_LIMIT_DISK_BYTES"%string))
    (env "NIXVM_LIMIT_CPU_SECONDS"%string)
    (env "NIXVM_LIMIT_WALL_SECONDS"%string).

(** [guest_memory_ceiling]. *)
Definition guest_memory_ceiling (env : string → option Z) (host_memory : Z) : Z :=
  default (host_memory / 4 * 3) (env "NIXVM_LIMIT_GUEST_MEMORY"%string).

(** * The counter *)

Record Quota := mkQuota { limit : Z; used : Z }.

Definition quota_new (l : Z) : Quota := mkQuota l 0.
Definition unlimited : Quota := quota_new (U64 - 1).

(** The total a charge asks for, if it fits: [used.checked_add(bytes)] filtered by
    [<= limit]. *)
Definition total_of (lim u bytes : Z) : option Z :=
  match checked_add64 u bytes with
  | Some t => if t <=? lim then Some t else None
  | None => None
  end.

(** [set_limit], [force_charge] (one [fetch_add], which wraps). *)
Definition set_limit (q : Quota) (l : Z) : Quota := mkQuota l (used q).
Definition force_charge (q : Quota) (bytes : Z) : Quota :=
  mkQuota (limit q) (wrap U64 (used q + bytes)).

(** * Threads between atomic accesses *)

Inductive Thread :=
  | Idle
  | ChargeLimit (bytes : Z)                 (* in [try_charge], about to load [used] *)
      (lim : Z)
  | ChargeLoop (bytes lim u : Z)            (* at the head of [try_charge]'s loop *)
  | ReleaseLoop (bytes u : Z).              (* at the head of [release]'s loop *)

(** What one access of a thread inside an operation does: its next point, the counter,
    and the operation's result when this access ends it. [weak] is true when a
    [compare_exchange_weak] fails although the values are equal. *)
Inductive Done := Granted (bytes : Z) | Refused (bytes : Z) | Released (bytes : Z).

Definition access (weak : bool) (q : Quota) (t : Thread) : option (Thread * Quota * option Done) :=
  match t with
  | Idle => None
  | ChargeLimit bytes lim => Some (ChargeLoop bytes lim (used q), q, None)
  | ChargeLoop bytes lim u =>
    match total_of lim u bytes with
    | None => Some (Idle, q, Some (Refused bytes))
    | Some total =>
      if negb weak && (used q =? u)
      then Some (Idle, mkQuota (limit q) total, Some (Granted bytes))
      else Some (ChargeLoop bytes lim (used q), q, None)
    end
  | ReleaseLoop bytes u =>
    if negb weak && (used q =? u)
    then Some (Idle, mkQuota (limit q) (sat_sub u bytes), Some (Released bytes))
    else Some (ReleaseLoop bytes (used q), q, None)
  end.

(** The first access of [try_charge] loads [limit], that of [release] loads [used]. *)
Definition begin_charge (q : Quota) (bytes : Z) : Thread := ChargeLimit bytes (limit q).
Definition begin_release (q : Quota) (bytes : Z) : Thread := ReleaseLoop bytes (used q).

(** * Alone *)

(** Both loops run by one thread with no other touching the counter and no spurious
    failure. *)
Fixpoint run_alone (fuel : nat) (q : Quota) (t : Thread) : option (Done * Quota) :=
  match fuel with
  | O => None
  | S fuel =>
    match access false q t with
    | None => None
    | Some (_, q', Some d) => Some (d, q')
    | Some (t', q', None) => run_alone fuel q' t'
    end
  end.
Definition try_charge (q : Quota) (bytes : Z) : option (Done * Quota) :=
  run_alone 2 q (begin_charge q bytes).
Definition release (q : Quota) (bytes : Z) : option (Done * Quota) :=
  run_alone 1 q (begin_release q bytes).

(** * The system *)

(** The shared counter and its threads. [held] is what has been charged and not given
    back, [forced] what was charged past the limit, [ceiling] the highest limit so far:
    bookkeeping of the model, none of it read by [access]. *)
Record Sys := mkSys {
  quota : Quota;
  threads : list Thread;
  held : Z;
  forced : Z;
  ceiling : Z
}.

Definition pending1 (t : Thread) : Z := match t with ReleaseLoop b _ => b | _ => 0 end.
Definition pending (ts : list Thread) : Z := foldr (λ t n, pending1 t + n) 0 ts.

Definition settle (d : option Done) (h : Z) : Z :=
  match d with
  | Some (Granted b) => h + b
  | Some (Released b) => h - b
  | _ => h
  end.

Inductive step : Sys → Sys → Prop :=
  | step_charge s i b :
      threads s !! i = Some Idle → 0 ≤ b < U64 →
      step s (mkSys (quota s) (<[i := begin_charge (quota s) b]> (threads s))
                (held s) (forced s) (ceiling s))
  | step_release s i b :
      (* a client gives back what it holds *)
      threads s !! i = Some Idle → 0 ≤ b → pending (threads s) + b ≤ held s →
      step s (mkSys (quota s) (<[i := begin_release (quota s) b]> (threads s))
                (held s) (forced s) (ceiling s))
  | step_access s i t weak t' q' d :
      threads s !! i = Some t → access weak (quota s) t = Some (t', q', d) →
      step s (mkSys q' (<[i := t']> (threads s)) (settle d (held s)) (forced s) (ceiling s))
  | step_force s b :
      0 ≤ b → used (quota s) + b < U64 →
      step s (mkSys (force_charge (quota s) b) (threads s) (held s + b) (forced s + b) (ceiling s))
  | step_limit s l :
      0 ≤ l < U64 →
      step s (mkSys (set_limit (quota s) l) (threads s) (held s) (forced s) (Z.max l (ceiling s))).

Definition start (l : Z) (n : nat) : Sys := mkSys (quota_new l) (replicate n Idle) 0 0 l.

(** * The invariant *)

Definition thread_ok (c : Z) (t : Thread) : Prop :=
  match t with
  | Idle => True
  | ChargeLimit b l => 0 ≤ b < U64 ∧ l ≤ c
  | ChargeLoop b l u => 0 ≤ b < U64 ∧ l ≤ c ∧ 0 ≤ u < U64
  | ReleaseLoop b _ => 0 ≤ b
  end.

Record inv (s : Sys) : Prop := {
  iv_used : used (quota s) = held s;
  iv_range : 0 ≤ held s < U64;
  iv_bound : held s ≤ ceiling s + forced s;
  iv_forced : 0 ≤ forced s;
  iv_limit : limit (quota s) ≤ ceiling s;
  iv_threads : Forall (thread_ok (ceiling s)) (threads s);
  iv_pending : pending (threads s) ≤ held s
}.

Lemma pending_insert ts i t t' :
  ts !! i = Some t → pending (<[i := t']> ts) = pending ts - pending1 t + pending1 t'.
Proof.
  revert i; induction ts as [|x ts IH]; intros [|i] H; try done.
  - injection H as ->. simpl. lia.
  - simpl. rewrite IH by done. lia.
Qed.

Lemma pending_ge c ts i t :
  Forall (thread_ok c) ts → ts !! i = Some t → 0 ≤ pending1 t ≤ pending ts.
Proof.
  intros H. assert (∀ l, Forall (thread_ok c) l → 0 ≤ pending l) as Hn.
  { induction 1 as [|x l Hx _ IH]; simpl; [lia|]. destruct x; simpl in *; lia. }
  revert i; induction H as [|x l Hx Hl IH]; intros [|i] Hi; try done.
  - injection Hi as ->. specialize (Hn l Hl). destruct t; simpl in *; lia.
  - specialize (IH i Hi). simpl. destruct x; simpl in *; lia.
Qed.

Lemma total_of_Some lim u b t : total_of lim u b = Some t ↔ t = u + b ∧ u + b < U64 ∧ u + b ≤ lim.
Proof.
  unfold total_of, checked_add64. destruct (Z.ltb_spec (u + b) U64); [|naive_solver lia].
  destruct (Z.leb_spec (u + b) lim); naive_solver lia.
Qed.

Lemma thread_ok_weaken c c' ts : c ≤ c' → Forall (thread_ok c) ts → Forall (thread_ok c') ts.
Proof. intros Hc H. eapply Forall_impl; [exact H|]. intros []; simpl; naive_solver lia. Qed.

Lemma access_inv s i t weak t' q' d :
  inv s → threads s !! i = Some t → access weak (quota s) t = Some (t', q', d) →
  inv (mkSys q' (<[i := t']> (threads s)) (settle d (held s)) (forced s) (ceiling s)).
Proof.
  intros [H1 H2 H3 H4 H5 H6 H7] Ht Ha.
  pose proof (pending_ge _ _ _ _ H6 Ht) as Hp. pose proof (Forall_lookup_1 _ _ _ _ H6 Ht) as Hok.
  assert (∀ t'', thread_ok (ceiling s) t'' → Forall (thread_ok (ceiling s)) (<[i := t'']> (threads s)))
    as Hins by (intros t'' Ht''; by apply Forall_insert).
  pose proof (pending_insert _ i t t' Ht) as Ep.
  destruct t as [|b l|b l u|b u]; simpl in Ha; [done| | |].
  - injection Ha as <- <- <-. simpl in *. split; simpl; try done; [|lia].
    apply Hins. simpl. lia.
  - destruct (total_of l u b) as [tot|] eqn:Et.
    + apply total_of_Some in Et as (-> & Ht1 & Ht2).
      destruct (negb weak && (used (quota s) =? u)) eqn:Ec.
      * injection Ha as <- <- <-. simpl in *. apply andb_true_iff in Ec as [_ Eu%Z.eqb_eq].
        split; simpl; try done; try lia. by apply Hins.
      * injection Ha as <- <- <-. simpl in *. split; simpl; try done; [|lia]. apply Hins. simpl. lia.
    + injection Ha as <- <- <-. simpl in *. split; simpl; try done; [|lia]. by apply Hins.
  - destruct (negb weak && (used (quota s) =? u)) eqn:Ec.
    + injection Ha as <- <- <-. simpl in *. apply andb_true_iff in Ec as [_ Eu%Z.eqb_eq].
      unfold sat_sub. split; simpl; try done; try lia. by apply Hins.
    + injection Ha as <- <- <-. simpl in *. split; simpl; try done; [|lia]. by apply Hins.
Qed.

Lemma step_inv s s' : step s s' → inv s → inv s'.
Proof.
  intros Hs Hi. destruct Hs as [s i b Ht Hb|s i b Ht Hb Hp|s i t weak t' q' d Ht Ha|s b Hb Hu|s l Hl].
  - destruct Hi as [H1 H2 H3 H4 H5 H6 H7]. split; simpl; try done.
    + apply Forall_insert; [done|]. simpl. lia.
    + rewrite (pending_insert _ i Idle) by done. simpl. lia.
  - destruct Hi as [H1 H2 H3 H4 H5 H6 H7]. split; simpl; try done.
    + by apply Forall_insert.
    + rewrite (pending_insert _ i Idle) by done. simpl. lia.
  - by eapply access_inv.
  - destruct Hi as [H1 H2 H3 H4 H5 H6 H7]. split; simpl; try done; try lia.
    unfold wrap. rewrite Z.mod_small; lia.
  - destruct Hi as [H1 H2 H3 H4 H5 H6 H7]. split; simpl; try done; try lia.
    eapply thread_ok_weaken; [|done]. lia.
Qed.

Lemma start_inv l n : 0 ≤ l < U64 → inv (start l n).
Proof.
  intros Hl. assert (pending (replicate n Idle) = 0) as E by (induction n; simpl; lia).
  split; simpl; try done; try lia. by apply Forall_replicate.
Qed.

Lemma steps_inv s s' : rtc step s s' → inv s → inv s'.
Proof. induction 1 as [|s s1 s' H _ IH]; [done|]. intros Hi. by eapply IH, step_inv. Qed.

(** * Progress *)

(** A thread that has not read the counter since it last changed. *)
Definition stale (q : Quota) (t : Thread) : Z :=
  match t with
  | Idle => 0
  | ChargeLimit _ _ => 1
  | ChargeLoop _ _ u | ReleaseLoop _ u => if used q =? u then 0 else 1
  end.
Definition staleness (s : Sys) : Z := foldr (λ t n, stale (quota s) t + n) 0 (threads s).

(** An access that ends no operation and does not fail spuriously. *)
Inductive quiet : Sys → Sys → Prop :=
  | quiet_access s i t t' q' :
      threads s !! i = Some t → access false (quota s) t = Some (t', q', None) →
      quiet s (mkSys q' (<[i := t']> (threads s)) (held s) (forced s) (ceiling s)).

Lemma quiet_stale q t t' q' :
  access false q t = Some (t', q', None) → q' = q ∧ stale q t' = 0 ∧ stale q t = 1.
Proof.
  destruct t as [|b l|b l u|b u]; simpl; [done| | |].
  - intros [= <- <-]. simpl. by rewrite Z.eqb_refl.
  - destruct (total_of l u b); [|done]. destruct (used q =? u) eqn:E; [done|].
    intros [= <- <-]. simpl. by rewrite Z.eqb_refl.
  - destruct (used q =? u) eqn:E; [done|]. intros [= <- <-]. simpl. by rewrite Z.eqb_refl.
Qed.

Lemma stale_sum_insert q ts i t t' :
  ts !! i = Some t →
  foldr (λ t n, stale q t + n) 0 (<[i := t']> ts)
  = foldr (λ t n, stale q t + n) 0 ts - stale q t + stale q t'.
Proof.
  revert i; induction ts as [|x ts IH]; intros [|i] H; try done.
  - injection H as ->. simpl. lia.
  - simpl. rewrite IH by done. lia.
Qed.

Lemma quiet_decreases s s' : quiet s s' → staleness s' = staleness s - 1.
Proof.
  destruct 1 as [s i t t' q' Ht Ha]. apply quiet_stale in Ha as (-> & H0 & H1).
  unfold staleness. simpl. rewrite (stale_sum_insert _ _ i t t' Ht). lia.
Qed.

Lemma staleness_bounds s : 0 ≤ staleness s ≤ Z.of_nat (length (threads s)).
Proof.
  unfold staleness. induction (threads s) as [|t ts IH]; simpl; [lia|].
  assert (0 ≤ stale (quota s) t ≤ 1) by (destruct t; simpl; try case_match; lia). lia.
Qed.

(** * Properties *)

(** C30: charges are neither lost nor counted twice. Whatever the interleaving of threads
    charging, releasing what they hold, forcing charges and moving the limit, the counter
    always equals what is charged and not given back, never wraps or goes below zero, and
    exceeds the highest limit in force by no more than what was forced past it. *)
Theorem quota_accounting l n s :
  0 ≤ l < U64 → rtc step (start l n) s →
  used (quota s) = held s ∧ 0 ≤ used (quota s) < U64
  ∧ used (quota s) ≤ ceiling s + forced s.
Proof.
  intros Hl Hs. destruct (steps_inv _ _ Hs (start_inv l n Hl)) as [H1 H2 H3 _ _ _ _].
  split_and!; lia.
Qed.

(** Two threads race for 60 and 50 bytes of 100: one of them reads the counter before the
    other's charge lands, and is refused. *)
Lemma quota_accounting_witness :
  ∃ s, rtc step (start 100 2) s ∧ used (quota s) = 60 ∧ threads s = [Idle; Idle].
Proof.
  assert (∃ s, rtc step (start 100 2) s ∧ s = mkSys (mkQuota 100 60) [Idle; Idle] 60 0 100) as (s & Hs & E).
  { eexists. split; [|reflexivity].
    eapply rtc_l; [apply (step_charge _ 0 60); [reflexivity|done]|].
    eapply rtc_l; [apply (step_charge _ 1 50); [reflexivity|done]|].
    eapply rtc_l; [eapply (step_access _ 0 _ false); reflexivity|].
    eapply rtc_l; [eapply (step_access _ 1 _ false); reflexivity|].
    eapply rtc_l; [eapply (step_access _ 0 _ false); reflexivity|].
    eapply rtc_l; [eapply (step_access _ 1 _ false); reflexivity|].
    eapply rtc_l; [eapply (step_access _ 1 _ false); reflexivity|]. reflexivity. }
  exists s. split; [exact Hs|].
  destruct (quota_accounting 100 2 s ltac:(done) Hs) as (H1 & _). rewrite E in *. done.
Defined.

(** The counter is lock-free. In any state, accesses that complete no operation (and do
    not fail spuriously) can follow each other at most once per thread: some charge or
    release always completes, however the threads are scheduled; and a thread inside an
    operation can always take its next access. *)
Theorem quota_lock_free s n s' :
  nsteps quiet n s s' →
  (n ≤ length (threads s))%nat
  ∧ ∀ i t weak, threads s' !! i = Some t → t ≠ Idle → is_Some (access weak (quota s') t).
Proof.
  intros Hn. split.
  - assert (staleness s' = staleness s - Z.of_nat n) as E.
    { induction Hn as [s|n s s1 s' H _ IH]; [lia|]. apply quiet_decreases in H. lia. }
    pose proof (staleness_bounds s). pose proof (staleness_bounds s'). lia.
  - intros i [|b l|b l u|b u] weak _ Ht; simpl; repeat case_match; done.
Qed.

Lemma quota_lock_free_witness :
  let s := mkSys (mkQuota 100 7) [ChargeLoop 1 100 0; Idle] 7 0 100 in
  ∃ s', nsteps quiet 1 s s' ∧ (1 ≤ length (threads s))%nat.
Proof.
  intros s. eexists. split.
  - eapply nsteps_once, (quiet_access s 0 (ChargeLoop 1 100 0)); reflexivity.
  - eapply (quota_lock_free s 1).
    eapply nsteps_once, (quiet_access s 0 (ChargeLoop 1 100 0)); reflexivity.
Defined.

(** Run without interference, [try_charge] grants exactly the charges that fit under the
    limit without overflowing and changes nothing otherwise; [release] subtracts, stopping
    at zero; a release undoes a granted charge. *)
Theorem quota_sequential q b :
  try_charge q b
  = (if decide (used q + b < U64 ∧ used q + b ≤ limit q)
     then Some (Granted b, mkQuota (limit q) (used q + b)) else Some (Refused b, q))
  ∧ release q b = Some (Released b, mkQuota (limit q) (Z.max 0 (used q - b)))
  ∧ ∀ q', try_charge q b = Some (Granted b, q') → 0 ≤ used q → release q' b = Some (Released b, q).
Proof.
  assert (release q b = Some (Released b, mkQuota (limit q) (Z.max 0 (used q - b)))) as Hr
    by (unfold release, begin_release; simpl; by rewrite Z.eqb_refl).
  assert (try_charge q b = (if decide (used q + b < U64 ∧ used q + b ≤ limit q)
     then Some (Granted b, mkQuota (limit q) (used q + b)) else Some (Refused b, q))) as Ht.
  { unfold try_charge, begin_charge. simpl. destruct (total_of (limit q) (used q) b) as [t|] eqn:E.
    - apply total_of_Some in E as (-> & H1 & H2). rewrite Z.eqb_refl. simpl.
      by rewrite decide_True by done.
    - rewrite decide_False; [done|]. intros [H1 H2].
      assert (total_of (limit q) (used q) b = Some (used q + b)) by (by apply total_of_Some).
      congruence. }
  split_and!; [done|done|]. intros q' E H0. rewrite Ht in E. case_decide; [|done].
  injection E as <-. unfold release, begin_release. simpl. rewrite Z.eqb_refl. simpl.
  unfold sat_sub. destruct q as [l u]. simpl in *. do 3 f_equal. lia.
Qed.
