(* ===== verification/Path.v ===== *)
(** Lexical normalization of guest paths ([src/kernel/path.rs]). A path is the list of its
    bytes. *)
From S2P Require Import Prelude.
From stdpp Require Import base numbers list.
Local Open Scope Z_scope.

Definition SLASH : Z := 47.
Definition DOT : Z := 46.

(** [p.split('/')]: always at least one component. *)
Fixpoint split (p : list Z) : list (list Z) :=
  match p with
  | [] => [[]]
  | c :: p =>
    if c =? SLASH then [] :: split p
    else match split p with w :: ws => (c :: w) :: ws | [] => [[c]] end
  end.

(** One component against the stack, whose top is its last element. *)
Definition push_comp (stack : list (list Z)) (comp : list Z) : list (list Z) :=
  if decide (comp = [] ∨ comp = [DOT]) then stack
  else if decide (comp = [DOT; DOT]) then removelast stack
  else stack ++ [comp].

Definition render (stack : list (list Z)) : list Z := mjoin ((λ c, SLASH :: c) <$> stack).

(** [normalize]. *)
Definition components (p : list Z) : list (list Z) := foldl push_comp [] (split p).
Definition normalize (p : list Z) : list Z :=
  match components p with [] => [SLASH] | stack => render stack end.

(** A component a clean path is made of. *)
Definition plain (c : list Z) : Prop := c ≠ [] ∧ c ≠ [DOT] ∧ c ≠ [DOT; DOT] ∧ SLASH ∉ c.

Lemma split_no_slash p : Forall (λ w, SLASH ∉ w) (split p).
Proof.
  induction p as [|c p IH]; simpl; [constructor; [apply not_elem_of_nil|done]|].
  destruct (Z.eqb_spec c SLASH) as [|Hc]; [constructor; [apply not_elem_of_nil|done]|].
  destruct (split p) as [|w ws].
  - constructor; [|done]. by apply not_elem_of_cons; split; [|apply not_elem_of_nil].
  - apply Forall_cons in IH as [H1 H2]. constructor; [|done]. apply not_elem_of_cons. by split.
Qed.

Lemma split_app p q :
  split (p ++ SLASH :: q) = split p ++ split q.
Proof.
  induction p as [|c p IH]; simpl; [done|].
  destruct (Z.eqb_spec c SLASH) as [|Hc]; [by rewrite IH|]. rewrite IH.
  destruct (split p) as [|w ws] eqn:E; [|done]. destruct p; simpl in E; [done|].
  repeat case_match; done.
Qed.

Lemma split_plain c : SLASH ∉ c → split c = [c].
Proof.
  induction c as [|x c IH]; intros H; [done|]. apply not_elem_of_cons in H as [Hx Hc]. simpl.
  destruct (Z.eqb_spec x SLASH); [done|]. by rewrite IH.
Qed.

Lemma render_snoc st c : render (st ++ [c]) = render st ++ SLASH :: c.
Proof. unfold render. rewrite fmap_app, join_app. simpl. by rewrite app_nil_r. Qed.

Lemma split_render st : Forall plain st → split (render st) = [] :: st.
Proof.
  induction st as [|c st IH] using rev_ind; intros H; [done|].
  apply Forall_app in H as [H1 H2]. inversion H2 as [|? ? Hc _]; subst.
  rewrite render_snoc, split_app, IH by done. rewrite split_plain by apply Hc. done.
Qed.

Lemma push_plain st c : plain c → push_comp st c = st ++ [c].
Proof.
  intros (H1 & H2 & H3 & _). unfold push_comp.
  rewrite decide_False by naive_solver. by rewrite decide_False.
Qed.

Lemma push_all st l : Forall plain l → foldl push_comp st l = st ++ l.
Proof.
  intros H. revert st. induction H as [|c l Hc _ IH]; intros st; simpl; [by rewrite app_nil_r|].
  rewrite push_plain by done. rewrite IH, <- app_assoc. done.
Qed.

Lemma push_keeps_plain st c : SLASH ∉ c → Forall plain st → Forall plain (push_comp st c).
Proof.
  intros Hc Hs. unfold push_comp. case_decide as E1; [done|]. case_decide as E2.
  - destruct st as [|x st _] using rev_ind; [done|]. rewrite removelast_last.
    by apply Forall_app in Hs as [? _].
  - apply Forall_app. split; [done|]. constructor; [|done]. split_and!; naive_solver.
Qed.

Lemma fold_plain cs st :
  Forall (λ w, SLASH ∉ w) cs → Forall plain st → Forall plain (foldl push_comp st cs).
Proof.
  intros H. revert st. induction H as [|c cs Hc _ IH]; intros st Hs; simpl; [done|].
  by apply IH, push_keeps_plain.
Qed.

Lemma components_plain p : Forall plain (components p).
Proof. apply fold_plain; [apply split_no_slash|done]. Qed.

Lemma normalize_render p :
  normalize p = match components p with [] => [SLASH] | st => render st end.
Proof. done. Qed.

Lemma components_render st : Forall plain st → components (render st) = st.
Proof. intros H. unfold components. rewrite split_render by done. simpl. by apply push_all. Qed.

Lemma components_normalize p : components (normalize p) = components p.
Proof.
  unfold normalize. pose proof (components_plain p) as H.
  destruct (components p) as [|c st] eqn:E; [done|]. by apply components_render.
Qed.

(** * Properties *)

(** Normalization of paths. The result is the root or a sequence of components each
    preceded by one slash, none of them empty, "." or ".."; normalizing again changes
    nothing; two paths have the same normal form exactly when they lead to the same
    components; a path continued after normalizing its front part leads to the same
    place, so ".." is resolved as it is met and never climbs above the root. *)
Theorem normalize_spec p q :
  (normalize p = [SLASH] ∧ components p = []
   ∨ normalize p = render (components p) ∧ components p ≠ [] ∧ Forall plain (components p))
  ∧ normalize (normalize p) = normalize p
  ∧ (normalize p = normalize q ↔ components p = components q)
  ∧ normalize (normalize p ++ SLASH :: q) = normalize (p ++ SLASH :: q)
  ∧ components (p ++ SLASH :: [DOT; DOT]) = removelast (components p).
Proof.
  assert (∀ a b, components (a ++ SLASH :: b) = foldl push_comp (components a) (split b)) as Happ.
  { intros a b. unfold components. by rewrite split_app, foldl_app. }
  split_and!.
  - pose proof (components_plain p) as H. unfold normalize.
    destruct (components p); [by left|by right].
  - unfold normalize at 1. rewrite components_normalize. done.
  - split; [|intros E; unfold normalize; by rewrite E].
    intros E. by rewrite <- (components_normalize p), E, components_normalize.
  - unfold normalize at 1. rewrite Happ, components_normalize, <- Happ. done.
  - by rewrite Happ.
Qed.
