(* ===== verification/Vfs.v ===== *)
(** What the virtual file system and its back ends share ([src/fs/mod.rs]): the results of file
    operations, the attributes of nodes, and the [MountFs] trait as a record of operations. A path
    is the list of its bytes. *)
From S2P Require Import Prelude Abi.
From stdpp Require Import base numbers gmap list sorting.
Local Open Scope Z_scope.

(** [io::Result]: the error is the raw OS error number. *)
Inductive io (A : Type) : Type :=
  | Good (a : A)
  | Bad (e : Z).
Arguments Good {A} a.
Arguments Bad {A} e.

Definition is_good {A} (r : io A) : bool := match r with Good _ => true | Bad _ => false end.

Inductive NodeKind := KFile | KDir | KSymlink | KCharDevice | KBlockDevice | KFifo | KSocket.
Global Instance NodeKind_eq_dec : EqDecision NodeKind.
Proof. solve_decision. Defined.

Record Attrs := mkAttrs {
  a_kind : NodeKind; a_size : Z; a_mode : Z; a_uid : Z; a_gid : Z;
  a_atime : Z; a_mtime : Z; a_inode : Z; a_nlink : Z; a_rdev : Z
}.

Inductive SetTime := Omit | Now | SetTo (sec nsec : Z).

Record DirEntry := mkDirEntry { d_name : list Z; d_kind : NodeKind; d_inode : Z }.

(** A [BTreeMap] keyed by strings is a map with an order of iteration: byte by byte, a string
    before its extensions. *)
Fixpoint str_leb (a b : list Z) : bool :=
  match a, b with
  | [], _ => true
  | _ :: _, [] => false
  | x :: a, y :: b => if x <? y then true else if y <? x then false else str_leb a b
  end.
Definition btree_keys {V} (m : gmap (list Z) V) : list (list Z) :=
  merge_sort (λ a b, Is_true (str_leb a b)) (map_to_list m).*1.

Lemma str_leb_total a b : str_leb a b = false → str_leb b a = true.
Proof.
  revert b; induction a as [|x a IH]; intros [|y b]; simpl; try done.
  destruct (Z.ltb_spec x y); [done|]. destruct (Z.ltb_spec y x); [done|]. apply IH.
Qed.

Lemma elem_of_btree_keys {V} (m : gmap (list Z) V) k : k ∈ btree_keys m ↔ is_Some (m !! k).
Proof.
  unfold btree_keys. rewrite merge_sort_Permutation, list_elem_of_fmap. split.
  - intros ([k' v] & -> & H%elem_of_map_to_list). by exists v.
  - intros [v H]. exists (k, v). split; [done|]. by apply elem_of_map_to_list.
Qed.

Lemma NoDup_btree_keys {V} (m : gmap (list Z) V) : NoDup (btree_keys m).
Proof. unfold btree_keys. rewrite merge_sort_Permutation. apply NoDup_fst_map_to_list. Qed.

(** The sum of [f] over the entries of a map ([iter().map(..).sum()]). *)
Definition msum `{Countable K} {V} (f : K → V → Z) (m : gmap K V) : Z := map_fold (λ k v n, f k v + n) 0 m.

Section Sums.
Context `{Countable K} {V : Type}.
Implicit Types (f g : K → V → Z) (m : gmap K V).

Lemma msum_empty f : msum f ∅ = 0.
Proof. apply map_fold_empty. Qed.

Lemma msum_insert f m k v : m !! k = None → msum f (<[k := v]> m) = f k v + msum f m.
Proof. intros Hk. unfold msum. rewrite map_fold_insert_L; [done|intros; lia|done]. Qed.

Lemma msum_delete f m k v : m !! k = Some v → msum f m = f k v + msum f (delete k m).
Proof. intros Hk. unfold msum. apply (map_fold_delete_L (λ k v n, f k v + n)); [intros; lia|done]. Qed.

Lemma msum_update f m k v w : m !! k = Some v → msum f (<[k := w]> m) = msum f m - f k v + f k w.
Proof.
  intros Hk. rewrite (msum_delete f m k v Hk), <- insert_delete_eq, msum_insert by apply lookup_delete_eq. lia.
Qed.

Lemma msum_map_ext f g m : (∀ k v, m !! k = Some v → f k v = g k v) → msum f m = msum g m.
Proof.
  induction m as [|k v m Hk IH] using map_ind; intros E; [done|].
  rewrite !msum_insert by done. rewrite IH, E; [done|by rewrite lookup_insert_eq|].
  intros k' v' Hk'. apply E. rewrite lookup_insert_ne; congruence.
Qed.

Lemma msum_nonneg f m : (∀ k v, m !! k = Some v → 0 ≤ f k v) → 0 ≤ msum f m.
Proof.
  induction m as [|k v m Hk IH] using map_ind; intros E; [done|].
  rewrite msum_insert by done. pose proof (E k v (lookup_insert_eq _ _ _)).
  enough (0 ≤ msum f m) by lia. apply IH. intros k' v' Hk'. apply E. rewrite lookup_insert_ne; congruence.
Qed.

Lemma msum_lookup_le f m k v : (∀ k v, m !! k = Some v → 0 ≤ f k v) → m !! k = Some v → f k v ≤ msum f m.
Proof.
  intros E Hk. rewrite (msum_delete f m k v Hk). enough (0 ≤ msum f (delete k m)) by lia.
  apply msum_nonneg. intros k' v' [_ Hk']%lookup_delete_Some. by apply E.
Qed.

Lemma msum_le f g m : (∀ k v, m !! k = Some v → f k v ≤ g k v) → msum f m ≤ msum g m.
Proof.
  intros E. enough (0 ≤ msum (λ k v, g k v - f k v) m) as Hn.
  { enough (msum (λ k v, g k v - f k v) m = msum g m - msum f m) by lia.
    clear. induction m as [|k v m Hk IH] using map_ind; [done|]. rewrite !msum_insert by done. lia. }
  apply msum_nonneg. intros k v Hk. specialize (E _ _ Hk). lia.
Qed.

Lemma msum_list f m : msum f m = foldr (λ kv n, f kv.1 kv.2 + n) 0 (map_to_list m).
Proof. unfold msum. rewrite map_fold_foldr. induction (map_to_list m) as [|[k v] l IH]; simpl; [done|]. by rewrite IH. Qed.
End Sums.

(** [str::starts_with]. *)
Definition starts_with (p s : list Z) : bool := bool_decide (p `prefix_of` s).

(** [MountFs]: the operations a back end provides, each with the state it leaves. [now] is the
    clock where the operation reads it. *)
Record MountFs (F : Type) := mkMountFs {
  fs_stat : F → list Z → option Attrs;
  fs_read_at : F → list Z → Z → Z → io (list Z);
  fs_readdir : F → list Z → io (list DirEntry);
  fs_read_only : F → bool;
  fs_write_at : Z → F → list Z → Z → list Z → io Z * F;
  fs_create : Z → F → list Z → Z → io unit * F;
  fs_mkdir : Z → F → list Z → Z → io unit * F;
  fs_mknod : Z → F → list Z → Z → io unit * F;
  fs_unlink : F → list Z → io unit * F;
  fs_rmdir : F → list Z → io unit * F;
  fs_truncate : Z → F → list Z → Z → io unit * F;
  fs_set_times : Z → F → list Z → SetTime → SetTime → io unit * F;
  fs_set_owner : F → list Z → option Z → option Z → io unit * F;
  fs_set_mode : F → list Z → Z → io unit * F;
  fs_symlink : Z → F → list Z → list Z → io unit * F;
  fs_readlink : F → list Z → io (list Z);
  fs_rename : F → list Z → list Z → io unit * F;
  fs_link : F → list Z → list Z → io unit * F;
  fs_getxattr : F → list Z → list Z → io (list Z);
  fs_setxattr : F → list Z → list Z → list Z → io unit * F;
  fs_listxattr : F → list Z → io (list (list Z));
  fs_removexattr : F → list Z → list Z → io unit * F
}.
Arguments mkMountFs {F}.
Arguments fs_stat {F}. Arguments fs_read_at {F}. Arguments fs_readdir {F}. Arguments fs_read_only {F}.
Arguments fs_write_at {F}. Arguments fs_create {F}. Arguments fs_mkdir {F}. Arguments fs_mknod {F}.
Arguments fs_unlink {F}. Arguments fs_rmdir {F}. Arguments fs_truncate {F}. Arguments fs_set_times {F}.
Arguments fs_set_owner {F}. Arguments fs_set_mode {F}. Arguments fs_symlink {F}. Arguments fs_readlink {F}.
Arguments fs_rename {F}. Arguments fs_link {F}. Arguments fs_getxattr {F}. Arguments fs_setxattr {F}.
Arguments fs_listxattr {F}. Arguments fs_removexattr {F}.

(** The trait's default methods, for a back end that only gives the three required ones. *)
Definition read_only_fs {F} (stat : F → list Z → option Attrs)
    (read_at : F → list Z → Z → Z → io (list Z)) (readdir : F → list Z → io (list DirEntry)) : MountFs F :=
  mkMountFs stat read_at readdir (λ _, true)
    (λ _ f _ _ _, (Bad EROFS, f)) (λ _ f _ _, (Bad EROFS, f)) (λ _ f _ _, (Bad EROFS, f))
    (λ _ f _ _, (Bad EROFS, f)) (λ f _, (Bad EROFS, f)) (λ f _, (Bad EROFS, f))
    (λ _ f _ _, (Bad EROFS, f)) (λ _ f _ _ _, (Good tt, f)) (λ f _ _ _, (Good tt, f))
    (λ f _ _, (Good tt, f)) (λ _ f _ _, (Bad EROFS, f)) (λ _ _, Bad EINVAL)
    (λ f _ _, (Bad EROFS, f)) (λ f _ _, (Bad EOPNOTSUPP, f)) (λ _ _ _, Bad EOPNOTSUPP)
    (λ f _ _ _, (Bad EOPNOTSUPP, f)) (λ _ _, Good []) (λ f _ _, (Bad EOPNOTSUPP, f)).
