(* ===== verification/Tmpfs.v ===== *)
(** The in-memory file system ([src/fs/tmpfs.rs]): a flat map from paths to nodes, regular files as
    inodes several names can share, and every byte held charged to a quota. The host is 64-bit and
    additions wrap, as in a release build; the byte counts themselves are exact. *)
From S2P Require Import Prelude Abi Quota Path Vfs.
From stdpp Require Import base numbers gmap list.
Local Open Scope Z_scope.

Definition S_IFDIR : Z := 0x4000.
Definition S_IFREG : Z := 0x8000.
Definition S_IFLNK : Z := 0xa000.
Definition S_IFIFO : Z := 0x1000.

Record Meta := mkMeta {
  inode : Z; uid : Z; gid : Z; atime : Z; mtime : Z; xattrs : gmap (list Z) (list Z)
}.

(** [capacity] is that of the vector [data]. Every inode's [quota] is the file system's: [new_file]
    clones it and [attach_quota] replaces both. *)
Record FileData := mkFile { fmeta : Meta; data : list Z; capacity : Z; fmode : Z; links : Z }.

Inductive Node :=
  | Dir (meta : Meta)
  | File (ino : Z)
  | Fifo (meta : Meta) (mode : Z)
  | Symlink (meta : Meta) (target : list Z).

Record TmpFs := mkTmp {
  nodes : gmap (list Z) Node; files : gmap Z FileData; next_inode : Z; tq : Quota
}.

Definition MAX_FILE_SIZE : Z := 2 ^ 63 - 1.
Definition NODE_OVERHEAD : Z := 256.

Definition len {A} (l : list A) : Z := Z.of_nat (length l).

(** * Costs *)

Definition xattr1 (name value : list Z) : Z := len name + len value + NODE_OVERHEAD.
Definition xattr_cost (m : Meta) : Z := msum xattr1 (xattrs m).
(** [FileData::cost]. *)
Definition file_cost (f : FileData) : Z := capacity f + xattr_cost (fmeta f).
Definition node_cost (rel : list Z) (n : Node) : Z :=
  NODE_OVERHEAD + len rel +
  match n with
  | File _ => 0
  | Dir m | Fifo m _ => xattr_cost m
  | Symlink m t => len t + xattr_cost m
  end.

(** The quota's operations, run by one thread. *)
Definition charge (q : Quota) (b : Z) : bool * Quota :=
  match try_charge q b with Some (Granted _, q') => (true, q') | Some (_, q') => (false, q') | None => (false, q) end.
Definition give_back (q : Quota) (b : Z) : Quota :=
  match release q b with Some (_, q') => q' | None => q end.

(** * Field updates *)

Definition with_nodes (fs : TmpFs) (ns : gmap (list Z) Node) : TmpFs := mkTmp ns (files fs) (next_inode fs) (tq fs).
Definition with_files (fs : TmpFs) (fl : gmap Z FileData) : TmpFs := mkTmp (nodes fs) fl (next_inode fs) (tq fs).
Definition with_tq (fs : TmpFs) (q : Quota) : TmpFs := mkTmp (nodes fs) (files fs) (next_inode fs) q.
Definition with_data (f : FileData) (d : list Z) : FileData := mkFile (fmeta f) d (capacity f) (fmode f) (links f).
Definition with_cap (f : FileData) (c : Z) : FileData := mkFile (fmeta f) (data f) c (fmode f) (links f).
Definition with_links (f : FileData) (n : Z) : FileData := mkFile (fmeta f) (data f) (capacity f) (fmode f) n.
Definition with_fmode (f : FileData) (m : Z) : FileData := mkFile (fmeta f) (data f) (capacity f) m (links f).
Definition with_fmeta (f : FileData) (m : Meta) : FileData := mkFile m (data f) (capacity f) (fmode f) (links f).
Definition with_times (m : Meta) (a t : Z) : Meta := mkMeta (inode m) (uid m) (gid m) a t (xattrs m).
Definition with_owner (m : Meta) (u g : Z) : Meta := mkMeta (inode m) u g (atime m) (mtime m) (xattrs m).
Definition with_xattrs (m : Meta) (x : gmap (list Z) (list Z)) : Meta :=
  mkMeta (inode m) (uid m) (gid m) (atime m) (mtime m) x.

(** * Construction *)

(** [TmpFs::new]: the root, which its own quota is not charged for. *)
Definition tmpfs_new : TmpFs :=
  mkTmp {[ [] := Dir (mkMeta 1 0 0 0 0 ∅) ]} ∅ 2 unlimited.

Definition alloc_inode (fs : TmpFs) : Z * TmpFs :=
  (next_inode fs, mkTmp (nodes fs) (files fs) (wrap U64 (next_inode fs + 1)) (tq fs)).
Definition new_meta (now : Z) (fs : TmpFs) : Meta * TmpFs :=
  let '(i, fs) := alloc_inode fs in (mkMeta i 0 0 now now ∅, fs).
Definition new_file (now : Z) (fs : TmpFs) (mode : Z) : Z * TmpFs :=
  let '(m, fs) := new_meta now fs in
  (inode m, with_files fs (<[inode m := mkFile m [] 0 mode 1]> (files fs))).

(** * Lookup *)

Definition node_meta (fl : gmap Z FileData) (n : Node) : option Meta :=
  match n with
  | Dir m | Fifo m _ | Symlink m _ => Some m
  | File ino => fmeta <$> fl !! ino
  end.
Definition meta_of (fs : TmpFs) (rel : list Z) : option Meta := nodes fs !! rel ≫= node_meta (files fs).
(** [meta_of_mut] and the assignment through it. *)
Definition set_node_meta (n : Node) (m : Meta) : Node :=
  match n with
  | Dir _ => Dir m | Fifo _ md => Fifo m md | Symlink _ t => Symlink m t | File ino => File ino
  end.
Definition set_meta (fs : TmpFs) (rel : list Z) (m : Meta) : TmpFs :=
  match nodes fs !! rel with
  | Some (File ino) =>
    match files fs !! ino with
    | Some f => with_files fs (<[ino := with_fmeta f m]> (files fs))
    | None => fs
    end
  | Some n => with_nodes fs (<[rel := set_node_meta n m]> (nodes fs))
  | None => fs
  end.
(** [file_mut]: the inode named [rel]. *)
Definition file_at (fs : TmpFs) (rel : list Z) : option (Z * FileData) :=
  match nodes fs !! rel with
  | Some (File ino) => (λ f, (ino, f)) <$> files fs !! ino
  | _ => None
  end.

(** [rel.rfind('/')]: what is before the last slash and what is after it. *)
Fixpoint rfind_slash (p : list Z) : option (list Z * list Z) :=
  match p with
  | [] => None
  | c :: p =>
    match rfind_slash p with
    | Some (a, b) => Some (c :: a, b)
    | None => if c =? SLASH then Some ([], p) else None
    end
  end.
Definition parent_of (rel : list Z) : list Z := match rfind_slash rel with Some (a, _) => a | None => [] end.
Definition base_name (rel : list Z) : list Z := match rfind_slash rel with Some (_, b) => b | None => rel end.

(** [ancestors_are_dirs]: [Some] its error. *)
Fixpoint check_dirs (ns : gmap (list Z) Node) (prefix : list Z) (cs : list (list Z)) : option Z :=
  match cs with
  | [] => None
  | c :: cs =>
    let prefix := (match prefix with [] => [] | _ => prefix ++ [SLASH] end) ++ c in
    match ns !! prefix with
    | Some (Dir _) | None => check_dirs ns prefix cs
    | Some _ => Some ENOTDIR
    end
  end.
Definition ancestors_are_dirs (fs : TmpFs) (rel : list Z) : option Z :=
  match parent_of rel with [] => None | parent => check_dirs (nodes fs) [] (Path.split parent) end.
Definition require_parent (fs : TmpFs) (rel : list Z) : option Z :=
  match ancestors_are_dirs fs rel with
  | Some e => Some e
  | None =>
    match nodes fs !! parent_of rel with
    | Some (Dir _) => None
    | Some _ => Some ENOTDIR
    | None => Some ENOENT
    end
  end.

(** * Entries *)

Definition insert_node (fs : TmpFs) (rel : list Z) (n : Node) : io unit * TmpFs :=
  let '(ok, q) := charge (tq fs) (node_cost rel n) in
  if ok then (Good tt, mkTmp (<[rel := n]> (nodes fs)) (files fs) (next_inode fs) q)
  else (Bad ENOSPC, with_tq fs q).

(** [self.files.remove(&ino)], which drops the inode and releases what it holds. *)
Definition drop_file (fs : TmpFs) (ino : Z) : TmpFs :=
  match files fs !! ino with
  | Some f => mkTmp (nodes fs) (delete ino (files fs)) (next_inode fs) (give_back (tq fs) (file_cost f))
  | None => fs
  end.

Definition remove_entry (fs : TmpFs) (rel : list Z) : TmpFs :=
  match nodes fs !! rel with
  | None => fs
  | Some n =>
    let fs := mkTmp (delete rel (nodes fs)) (files fs) (next_inode fs) (give_back (tq fs) (node_cost rel n)) in
    match n with
    | File ino =>
      match files fs !! ino with
      | Some f =>
        let l := wrap U32 (links f - 1) in
        let fs := with_files fs (<[ino := with_links f l]> (files fs)) in
        if l =? 0 then drop_file fs ino else fs
      | None => fs
      end
    | _ => fs
    end
  end.

(** A child of the directory [rel]. *)
Definition child_of (rel k : list Z) : bool :=
  bool_decide (parent_of k = rel) && negb (bool_decide (k = [])).

(** * The allocator *)

(** What growing and shrinking a vector's buffer gives: [reserve have want] is the capacity after
    [try_reserve_exact] asks for room for [want] bytes in all, if it can be had; [shrink have want]
    the capacity after [shrink_to]. A vector never holds more than [isize::MAX] bytes. *)
Class Allocator := {
  reserve : Z → Z → option Z;
  shrink : Z → Z → Z;
  reserve_ok have want c : reserve have want = Some c → want ≤ c ≤ MAX_FILE_SIZE;
  shrink_ok have want : 0 ≤ want ≤ have → want ≤ shrink have want ≤ have
}.

(** An allocator that gives what is asked. *)
Program Instance exact_alloc : Allocator := {|
  reserve _ want := if want <=? MAX_FILE_SIZE then Some want else None;
  shrink _ want := want
|}.
Next Obligation. intros have want c H. simpl in H. destruct (Z.leb_spec want MAX_FILE_SIZE); simplify_eq. lia. Qed.
Next Obligation. simpl. lia. Qed.

Section Ops.
Context `{Allocator}.

(** [grow_file]: the inode with a larger buffer, or the error, and the quota. *)
Definition grow_file (f : FileData) (q : Quota) (end_ : Z) : io FileData * Quota :=
  let cap := capacity f in
  if end_ <=? cap then (Good f, q)
  else
    let want := Z.max end_ (cap * 2) in
    let '(ok, q1) := charge q (want - cap) in
    let '(target, q2) :=
      if ok then (Some want, q1)
      else let '(ok, q1) := charge q1 (end_ - cap) in ((if ok then Some end_ else None), q1) in
    match target with
    | None => (Bad ENOSPC, q2)
    | Some target =>
      match reserve cap target with
      | None => (Bad ENOSPC, give_back q2 (target - cap))
      | Some c => (Good (with_cap f c), force_charge q2 (c - target))
      end
    end.

(** [Vec::resize(n, 0)]. *)
Definition vec_resize (n : Z) (l : list Z) : list Z := resize (Z.to_nat n) 0 l.

(** * The file system's operations *)

(** [attach_quota]: the file system charged to [new] ([None] when that is the quota it is charged
    to already), and what its former quota is left with. *)
Definition nodes_cost (ns : gmap (list Z) Node) : Z := msum node_cost ns.
Definition attach_quota (fs : TmpFs) (new : option Quota) : TmpFs * Quota :=
  let nc := nodes_cost (nodes fs) in
  let fl := (map_to_list (files fs)).*2 in
  match new with
  | Some new =>
    (with_tq fs (foldl (λ q f, force_charge q (file_cost f)) (force_charge new nc) fl),
     foldl (λ q f, give_back q (file_cost f)) (give_back (tq fs) nc) fl)
  | None =>
    let q := foldl (λ q f, force_charge (give_back q (file_cost f)) (file_cost f))
               (force_charge (give_back (tq fs) nc) nc) fl in
    (with_tq fs q, q)
  end.

Definition stat (fs : TmpFs) (rel : list Z) : option Attrs :=
  node ← nodes fs !! rel;
  r ← match node with
      | Dir _ =>
        let subdirs := len (List.filter (λ kn, child_of rel kn.1 && match kn.2 with Dir _ => true | _ => false end)
                              (map_to_list (nodes fs))) in
        Some (KDir, Z.lor S_IFDIR 0x1ed, 0, wrap U32 (2 + Z.min subdirs (U32 - 1)))
      | File ino =>
        f ← files fs !! ino;
        Some (KFile, Z.lor S_IFREG (Z.land (fmode f) 0xfff), len (data f), links f)
      | Fifo _ mode => Some (KFifo, Z.lor S_IFIFO (Z.land mode 0x1ff), 0, 1)
      | Symlink _ target => Some (KSymlink, Z.lor S_IFLNK 0x1ff, len target, 1)
      end;
  meta ← meta_of fs rel;
  let '(kind, mode, size, nlink) := r in
  Some (mkAttrs kind size mode (uid meta) (gid meta) (atime meta) (mtime meta) (inode meta) nlink 0).

(** [read_at]: the bytes that reach a buffer of [n] bytes. *)
Definition read_at (fs : TmpFs) (rel : list Z) (off n : Z) : io (list Z) :=
  match nodes fs !! rel with
  | Some (File ino) =>
    match files fs !! ino with
    | None => Bad ENOENT
    | Some f =>
      if len (data f) <=? off then Good []
      else Good (take (Z.to_nat (Z.min n (len (data f) - off))) (drop (Z.to_nat off) (data f)))
    end
  | Some _ => Bad EISDIR
  | None => Bad ENOENT
  end.

Definition node_entry (k : list Z) (n : Node) : DirEntry :=
  match n with
  | Dir m => mkDirEntry (base_name k) KDir (inode m)
  | File ino => mkDirEntry (base_name k) KFile ino
  | Fifo m _ => mkDirEntry (base_name k) KFifo (inode m)
  | Symlink m _ => mkDirEntry (base_name k) KSymlink (inode m)
  end.
Definition readdir (fs : TmpFs) (rel : list Z) : io (list DirEntry) :=
  match nodes fs !! rel with
  | Some (Dir _) =>
    Good (omap (λ k, if bool_decide (k = []) || negb (bool_decide (parent_of k = rel)) then None
                     else node_entry k <$> nodes fs !! k) (btree_keys (nodes fs)))
  | Some _ => Bad ENOTDIR
  | None => Bad ENOENT
  end.

Definition write_at (now : Z) (fs : TmpFs) (rel : list Z) (off : Z) (buf : list Z) : io Z * TmpFs :=
  match nodes fs !! rel with
  | Some (File ino) =>
    match files fs !! ino with
    | None => (Bad ENOENT, fs)
    | Some f =>
      match checked_add64 off (len buf) with
      | None => (Bad EFBIG, fs)
      | Some end_ =>
        if MAX_FILE_SIZE <? end_ then (Bad EFBIG, fs)
        else
          let '(g, q) := if len (data f) <? end_ then
                           let '(g, q) := grow_file f (tq fs) end_ in
                           (match g with Good f => Good (with_data f (vec_resize end_ (data f))) | Bad e => Bad e end, q)
                         else (Good f, tq fs) in
          match g with
          | Bad e => (Bad e, with_tq fs q)
          | Good f =>
            let d := list_inserts (Z.to_nat (end_ - len buf)) buf (data f) in
            let f := with_fmeta (with_data f d) (with_times (fmeta f) (atime (fmeta f)) now) in
            (Good (len buf), with_tq (with_files fs (<[ino := f]> (files fs))) q)
          end
      end
    end
  | Some _ => (Bad EISDIR, fs)
  | None => (Bad ENOENT, fs)
  end.

Definition create (now : Z) (fs : TmpFs) (rel : list Z) (mode : Z) : io unit * TmpFs :=
  match require_parent fs rel with
  | Some e => (Bad e, fs)
  | None =>
    if bool_decide (is_Some (nodes fs !! rel)) then (Bad EEXIST, fs)
    else
      let '(ino, fs) := new_file now fs mode in
      match insert_node fs rel (File ino) with
      | (Bad e, fs) => (Bad e, drop_file fs ino)
      | r => r
      end
  end.

Definition mkdir (now : Z) (fs : TmpFs) (rel : list Z) (mode : Z) : io unit * TmpFs :=
  match require_parent fs rel with
  | Some e => (Bad e, fs)
  | None =>
    if bool_decide (is_Some (nodes fs !! rel)) then (Bad EEXIST, fs)
    else let '(m, fs) := new_meta now fs in insert_node fs rel (Dir m)
  end.

Definition mknod (now : Z) (fs : TmpFs) (rel : list Z) (mode : Z) : io unit * TmpFs :=
  let typ := Z.land mode 0xf000 in
  if negb ((typ =? 0) || (typ =? S_IFREG) || (typ =? S_IFIFO)) then (Bad EPERM, fs)
  else
    match require_parent fs rel with
    | Some e => (Bad e, fs)
    | None =>
      if bool_decide (is_Some (nodes fs !! rel)) then (Bad EEXIST, fs)
      else if typ =? S_IFIFO then
        let '(m, fs) := new_meta now fs in insert_node fs rel (Fifo m (Z.land mode 0xfff))
      else
        let '(ino, fs) := new_file now fs (Z.land mode 0xfff) in
        match insert_node fs rel (File ino) with
        | (Bad e, fs) => (Bad e, drop_file fs ino)
        | r => r
        end
    end.

Definition unlink (fs : TmpFs) (rel : list Z) : io unit * TmpFs :=
  match ancestors_are_dirs fs rel with
  | Some e => (Bad e, fs)
  | None =>
    match nodes fs !! rel with
    | Some (Dir _) => (Bad EISDIR, fs)
    | Some _ => (Good tt, remove_entry fs rel)
    | None => (Bad ENOENT, fs)
    end
  end.

Definition rmdir (fs : TmpFs) (rel : list Z) : io unit * TmpFs :=
  match ancestors_are_dirs fs rel with
  | Some e => (Bad e, fs)
  | None =>
    match nodes fs !! rel with
    | Some (Dir _) =>
      if existsb (child_of rel) (btree_keys (nodes fs)) then (Bad ENOTEMPTY, fs)
      else (Good tt, remove_entry fs rel)
    | Some _ => (Bad ENOTDIR, fs)
    | None => (Bad ENOENT, fs)
    end
  end.

Definition truncate (now : Z) (fs : TmpFs) (rel : list Z) (n : Z) : io unit * TmpFs :=
  match nodes fs !! rel with
  | Some (File ino) =>
    match files fs !! ino with
    | None => (Bad ENOENT, fs)
    | Some f =>
      if MAX_FILE_SIZE <? n then (Bad EFBIG, fs)
      else
        let '(g, q) := if capacity f <? n then grow_file f (tq fs) n else (Good f, tq fs) in
        match g with
        | Bad e => (Bad e, with_tq fs q)
        | Good f =>
          let f := with_data f (vec_resize n (data f)) in
          let '(f, q) :=
            if n <? capacity f / 2 then
              let c := shrink (capacity f) n in
              (with_cap f c, give_back q (capacity f - c))
            else (f, q) in
          let f := with_fmeta f (with_times (fmeta f) (atime (fmeta f)) now) in
          (Good tt, with_tq (with_files fs (<[ino := f]> (files fs))) q)
        end
    end
  | Some (Dir _) => (Bad EISDIR, fs)
  | Some _ => (Bad EINVAL, fs)
  | None => (Bad ENOENT, fs)
  end.

(** [(m & !0o7777) | (mode & 0o7777)]. *)
Definition new_mode (m mode : Z) : Z := Z.lor (Z.ldiff m 0xfff) (Z.land mode 0xfff).
Definition set_mode (fs : TmpFs) (rel : list Z) (mode : Z) : io unit * TmpFs :=
  match nodes fs !! rel with
  | Some (File ino) =>
    (Good tt, match files fs !! ino with
              | Some f => with_files fs (<[ino := with_fmode f (new_mode (fmode f) mode)]> (files fs))
              | None => fs
              end)
  | Some (Fifo m md) => (Good tt, with_nodes fs (<[rel := Fifo m (new_mode md mode)]> (nodes fs)))
  | Some _ => (Good tt, fs)
  | None => (Bad ENOENT, fs)
  end.

Definition apply_time (now slot : Z) (t : SetTime) : Z :=
  match t with Omit => slot | Now => now | SetTo sec _ => sec end.
Definition set_times (now : Z) (fs : TmpFs) (rel : list Z) (a t : SetTime) : io unit * TmpFs :=
  match meta_of fs rel with
  | None => (Bad ENOENT, fs)
  | Some m => (Good tt, set_meta fs rel (with_times m (apply_time now (atime m) a) (apply_time now (mtime m) t)))
  end.

Definition set_owner (fs : TmpFs) (rel : list Z) (u g : option Z) : io unit * TmpFs :=
  match meta_of fs rel with
  | None => (Bad ENOENT, fs)
  | Some m => (Good tt, set_meta fs rel (with_owner m (default (uid m) u) (default (gid m) g)))
  end.

Definition getxattr (fs : TmpFs) (rel name : list Z) : io (list Z) :=
  match meta_of fs rel with
  | None => Bad ENOENT
  | Some m => match xattrs m !! name with Some v => Good v | None => Bad ENODATA end
  end.

Definition setxattr (fs : TmpFs) (rel name value : list Z) : io unit * TmpFs :=
  match meta_of fs rel with
  | None => (Bad ENOENT, fs)
  | Some m =>
    let '(ok, q) := charge (tq fs) (xattr1 name value) in
    if ok then
      let q := match xattrs m !! name with Some old => give_back q (xattr1 name old) | None => q end in
      (Good tt, with_tq (set_meta fs rel (with_xattrs m (<[name := value]> (xattrs m)))) q)
    else (Bad ENOSPC, with_tq fs q)
  end.

Definition listxattr (fs : TmpFs) (rel : list Z) : io (list (list Z)) :=
  match meta_of fs rel with None => Bad ENOENT | Some m => Good (btree_keys (xattrs m)) end.

Definition removexattr (fs : TmpFs) (rel name : list Z) : io unit * TmpFs :=
  match meta_of fs rel with
  | None => (Bad ENOENT, fs)
  | Some m =>
    match xattrs m !! name with
    | None => (Bad ENODATA, fs)
    | Some old =>
      (Good tt, with_tq (set_meta fs rel (with_xattrs m (delete name (xattrs m)))) (give_back (tq fs) (xattr1 name old)))
    end
  end.

Definition symlink (now : Z) (fs : TmpFs) (target rel : list Z) : io unit * TmpFs :=
  match require_parent fs rel with
  | Some e => (Bad e, fs)
  | None =>
    if bool_decide (is_Some (nodes fs !! rel)) then (Bad EEXIST, fs)
    else let '(m, fs) := new_meta now fs in insert_node fs rel (Symlink m target)
  end.

Definition readlink (fs : TmpFs) (rel : list Z) : io (list Z) :=
  match nodes fs !! rel with
  | Some (Symlink _ target) => Good target
  | Some _ => Bad EINVAL
  | None => Bad ENOENT
  end.

Definition link (fs : TmpFs) (old_rel new_rel : list Z) : io unit * TmpFs :=
  match nodes fs !! old_rel with
  | Some (File ino) =>
    match require_parent fs new_rel with
    | Some e => (Bad e, fs)
    | None =>
      if bool_decide (is_Some (nodes fs !! new_rel)) then (Bad EEXIST, fs)
      else
        match insert_node fs new_rel (File ino) with
        | (Bad e, fs) => (Bad e, fs)
        | (Good _, fs) =>
          (Good tt, match files fs !! ino with
                    | Some f => with_files fs (<[ino := with_links f (wrap U32 (links f + 1))]> (files fs))
                    | None => fs
                    end)
        end
    end
  | Some (Dir _) => (Bad EPERM, fs)
  | Some _ => (Bad EOPNOTSUPP, fs)
  | None => (Bad ENOENT, fs)
  end.

(** [rename]'s loop: one key rewritten. The node was collected from the map, so [expect] finds it. *)
Definition new_key (from to key : list Z) : list Z :=
  if bool_decide (key = from) then to else to ++ drop (length from) key.
Definition move_key (from to : list Z) (fs : TmpFs) (key : list Z) : TmpFs :=
  match nodes fs !! key with
  | None => fs
  | Some n =>
    let nk := new_key from to key in
    mkTmp (<[nk := n]> (delete key (nodes fs))) (files fs) (next_inode fs)
      (give_back (force_charge (tq fs) (len nk)) (len key))
  end.
Definition same_file (a b : option Node) : bool :=
  match a, b with Some (File a), Some (File b) => a =? b | _, _ => false end.
Definition is_dir (n : Node) : bool := match n with Dir _ => true | _ => false end.
(** What the destination's node makes of the rename: its error, if any. *)
Definition replace_check (ns : gmap (list Z) Node) (from_is_dir : bool) (to : list Z) (to_node : Node) : option Z :=
  match from_is_dir, to_node with
  | true, Dir _ => if existsb (λ k, bool_decide (parent_of k = to)) (btree_keys ns) then Some ENOTEMPTY else None
  | true, _ => Some ENOTDIR
  | false, Dir _ => Some EISDIR
  | false, _ => None
  end.
Definition moved (fs : TmpFs) (from : list Z) : list (list Z) :=
  List.filter (λ k, bool_decide (k = from) || starts_with (from ++ [SLASH]) k) (btree_keys (nodes fs)).
Definition rename (fs : TmpFs) (from to : list Z) : io unit * TmpFs :=
  if bool_decide (from = to) then
    (if bool_decide (is_Some (nodes fs !! from)) then Good tt else Bad ENOENT, fs)
  else
    match nodes fs !! from with
    | None => (Bad ENOENT, fs)
    | Some fn =>
      if same_file (Some fn) (nodes fs !! to) then (Good tt, fs)
      else if is_dir fn && (bool_decide (to = from) || starts_with (from ++ [SLASH]) to) then (Bad EINVAL, fs)
      else
        match require_parent fs to with
        | Some e => (Bad e, fs)
        | None =>
          let go fs := (Good tt, foldl (move_key from to) fs (moved fs from)) in
          match nodes fs !! to with
          | None => go fs
          | Some tn =>
            match replace_check (nodes fs) (is_dir fn) to tn with
            | Some e => (Bad e, fs)
            | None => go (remove_entry fs to)
            end
          end
        end
    end.

(** The back end as the mount table uses it. *)
Definition tmpfs : MountFs TmpFs :=
  mkMountFs stat read_at readdir (λ _, false) write_at create mkdir mknod unlink rmdir truncate
    set_times set_owner set_mode symlink readlink rename link getxattr setxattr listxattr removexattr.
End Ops.
