(* ===== verification/TmpfsPath.v ===== *)
(** Paths inside a back end: parents, subtrees, and the exchange of two subtrees, which is how a
    rename acts on names. Sums of lengths over collections of paths. *)
From S2P Require Import Prelude Abi Quota Path Vfs Tmpfs.
From stdpp Require Import base numbers gmap list sorting.
Local Open Scope Z_scope.

(** * Parents *)

Lemma rfind_slash_Some p a b : rfind_slash p = Some (a, b) ↔ p = a ++ SLASH :: b ∧ SLASH ∉ b.
Proof.
  revert a b. induction p as [|c p IH]; intros a b; simpl.
  { split; [done|]. intros [E _]. by destruct a. }
  destruct (rfind_slash p) as [[a' b']|] eqn:E.
  - destruct (proj1 (IH a' b') eq_refl) as [-> Hb]. split.
    + intros [= <- <-]. done.
    + intros [Ep Hb']. destruct a as [|x a]; simplify_eq/=.
      * set_solver.
      * assert (Some (a', b') = Some (a, b)) as [= -> ->] by (by apply IH). done.
  - assert (SLASH ∉ p) as Hp.
    { intros Hin. clear -Hin IH E. induction p as [|x p IHp] in E, Hin |- *; [set_solver|]. simpl in E.
      destruct (rfind_slash p) as [[? ?]|] eqn:Er; [done|]. destruct (Z.eqb_spec x SLASH); [done|].
      apply list_elem_of_In in Hin. simpl in Hin. destruct Hin as [->|Hin%list_elem_of_In]; [done|]. by apply IHp. }
    destruct (Z.eqb_spec c SLASH) as [->|Hc]; split.
    + intros [= <- <-]. done.
    + intros [Ep Hb]. destruct a as [|x a]; simplify_eq/=; [done|]. set_solver.
    + done.
    + intros [Ep Hb]. destruct a as [|x a]; simplify_eq/=. set_solver.
Qed.

Lemma rfind_slash_None p : rfind_slash p = None ↔ SLASH ∉ p.
Proof.
  split.
  - intros E Hin. apply list_elem_of_split in Hin as (a & b & ->).
    revert E. induction a as [|x a IH]; simpl; [by destruct (rfind_slash b) as [[? ?]|]|].
    destruct (rfind_slash (a ++ _)) as [[? ?]|]; [done|]. intros _. by apply IH.
  - intros Hn. destruct (rfind_slash p) as [[a b]|] eqn:E; [|done].
    apply rfind_slash_Some in E as [-> _]. set_solver.
Qed.

Lemma parent_of_child p c : SLASH ∉ c → parent_of (p ++ SLASH :: c) = p.
Proof. intros Hc. unfold parent_of. by rewrite (proj2 (rfind_slash_Some _ p c)). Qed.

Lemma parent_of_top c : SLASH ∉ c → parent_of c = [].
Proof. intros Hc. unfold parent_of. by rewrite (proj2 (rfind_slash_None c)). Qed.

(** A path is a top-level name or its parent, a slash and a last component. *)
Lemma parent_cases k : ((SLASH ∉ k) ∧ parent_of k = []) ∨ (∃ c, (SLASH ∉ c) ∧ k = parent_of k ++ SLASH :: c).
Proof.
  unfold parent_of. destruct (rfind_slash k) as [[a b]|] eqn:E.
  - apply rfind_slash_Some in E as [-> Hb]. right. by exists b.
  - left. split; [by apply rfind_slash_None|done].
Qed.

Lemma parent_of_below p s :
  parent_of (p ++ SLASH :: s) = p ++ (match rfind_slash s with Some (a, _) => SLASH :: a | None => [] end).
Proof.
  destruct (rfind_slash s) as [[a b]|] eqn:E.
  - apply rfind_slash_Some in E as [-> Hb]. rewrite <- (parent_of_child (p ++ SLASH :: a) b) by done.
    by rewrite <- app_assoc.
  - rewrite app_nil_r. apply parent_of_child. by apply rfind_slash_None.
Qed.

(** * Subtrees *)

(** [k] is [p] or below it: what [rename] collects. *)
Definition under (p k : list Z) : bool := bool_decide (k = p) || starts_with (p ++ [SLASH]) k.

Definition subpath (s : list Z) : Prop := s = [] ∨ ∃ s', s = SLASH :: s'.

Lemma under_spec p k : under p k = true ↔ ∃ s, k = p ++ s ∧ subpath s.
Proof.
  unfold under, starts_with, subpath. rewrite orb_true_iff, !bool_decide_eq_true. split.
  - intros [->|[s ->]]; [exists []; rewrite app_nil_r; by auto|].
    exists (SLASH :: s). rewrite <- app_assoc. split; [done|]. right. by exists s.
  - intros (s & -> & [->|[s' ->]]); [left; by rewrite app_nil_r|]. right. exists s'. by rewrite <- app_assoc.
Qed.

Lemma under_app p s : subpath s → under p (p ++ s) = true.
Proof. intros Hs. apply under_spec. by exists s. Qed.
Lemma under_refl p : under p p = true.
Proof. unfold under. by rewrite bool_decide_true. Qed.
Lemma under_nil p : p ≠ [] → under p [] = false.
Proof.
  intros Hp. destruct (under p []) eqn:E; [|done]. apply under_spec in E as (s & E & _).
  destruct p; [done|done].
Qed.

Lemma subpath_app s t : subpath s → subpath t → subpath (s ++ t).
Proof. intros [->|[s' ->]] Ht; [done|]. right. by eexists. Qed.

(** Two paths above one path: one of them is above the other. *)
Lemma app_subpath_cases p q s t : p ++ s = q ++ t → subpath s → subpath t → under p q = true ∨ under q p = true.
Proof.
  intros E Hs Ht. destruct (decide (length p ≤ length q)%nat) as [Hl|Hl].
  - left. assert (q = p ++ take (length q - length p) s) as Eq.
    { apply (f_equal (take (length q))) in E. rewrite take_app_length, take_app_ge in E by done. done. }
    rewrite Eq. apply under_app. rewrite Eq in E. rewrite <- app_assoc in E. simplify_list_eq.
    destruct Hs as [->|[s' ->]]; [left; by rewrite take_nil|].
    destruct (length q - length p)%nat as [|n]; [by left|]. right. by eexists.
  - right. assert (p = q ++ take (length p - length q) t) as Ep.
    { apply (f_equal (take (length p))) in E. rewrite take_app_length, take_app_ge in E by lia. done. }
    rewrite Ep. apply under_app.
    destruct Ht as [->|[t' ->]]; [left; by rewrite take_nil|].
    destruct (length p - length q)%nat as [|n]; [by left|]. right. by eexists.
Qed.

Lemma under_both p q k : under p k = true → under q k = true → under p q = true ∨ under q p = true.
Proof. intros (s & -> & Hs)%under_spec (t & E & Ht)%under_spec. by eapply app_subpath_cases. Qed.

Lemma under_trans p q k : under p q = true → under q k = true → under p k = true.
Proof.
  intros (s & -> & Hs)%under_spec (t & -> & Ht)%under_spec. rewrite <- app_assoc. by apply under_app, subpath_app.
Qed.

Lemma under_parent p k : p ≠ [] → under p (parent_of k) = true → under p k = true.
Proof.
  intros Hp Hu. destruct (parent_cases k) as [[_ E]|(c & Hc & E)].
  - rewrite E, under_nil in Hu by done. done.
  - rewrite E. eapply under_trans; [exact Hu|]. apply under_app. right. by eexists.
Qed.

(** What is strictly below [p] has its parent at or below [p]. *)
Lemma parent_under p k : under p k = true → k ≠ p → under p (parent_of k) = true.
Proof.
  intros (s & -> & Hs)%under_spec Hne. destruct Hs as [->|[s' ->]]; [by rewrite app_nil_r in Hne|].
  rewrite parent_of_below. apply under_app. destruct (rfind_slash s') as [[a b]|]; [right; by eexists|by left].
Qed.

(** * Exchanging two subtrees *)

Definition swap (from to k : list Z) : list Z :=
  if under from k then to ++ drop (length from) k
  else if under to k then from ++ drop (length to) k else k.

Lemma swap_from from to s : subpath s → swap from to (from ++ s) = to ++ s.
Proof. intros Hs. unfold swap. rewrite under_app by done. by rewrite drop_app_length. Qed.

Lemma swap_root from to : swap from to from = to.
Proof. pose proof (swap_from from to [] ltac:(by left)) as E. by rewrite !app_nil_r in E. Qed.

Lemma swap_new_key from to k : under from k = true → new_key from to k = swap from to k.
Proof.
  intros (s & -> & Hs)%under_spec. rewrite swap_from by done. unfold new_key. case_bool_decide as E.
  - assert (s = []) as -> by (rewrite <- (app_nil_r from) in E at 2; by simplify_list_eq). by rewrite app_nil_r.
  - by rewrite drop_app_length.
Qed.

Section Apart.
Context (from to : list Z) (Hft : under from to = false) (Htf : under to from = false).

Lemma apart k : under from k = true → under to k = false.
Proof.
  intros Hf. destruct (under to k) eqn:E; [|done]. destruct (under_both _ _ _ Hf E); congruence.
Qed.

Lemma swap_to s : subpath s → swap from to (to ++ s) = from ++ s.
Proof.
  intros Hs. unfold swap. destruct (under from (to ++ s)) eqn:E.
  { apply apart in E. by rewrite under_app in E. }
  rewrite under_app by done. by rewrite drop_app_length.
Qed.

Lemma swap_other k : under from k = false → under to k = false → swap from to k = k.
Proof. intros H1 H2. unfold swap. by rewrite H1, H2. Qed.

Lemma swap_invol k : swap from to (swap from to k) = k.
Proof.
  destruct (under from k) eqn:Ef.
  - apply under_spec in Ef as (s & -> & Hs). by rewrite swap_from, swap_to.
  - destruct (under to k) eqn:Et; [|by rewrite (swap_other k), swap_other].
    apply under_spec in Et as (s & -> & Hs). by rewrite swap_to, swap_from.
Qed.

#[export] Instance swap_inj : Inj (=) (=) (swap from to).
Proof. intros a b E. by rewrite <- (swap_invol a), E, swap_invol. Qed.

Lemma swap_under_from k : under from k = true → under to (swap from to k) = true.
Proof. intros (s & -> & Hs)%under_spec. rewrite swap_from by done. by apply under_app. Qed.

(** The exchange commutes with taking the parent, strictly below either root. *)
Lemma swap_parent k : under from k = true → k ≠ from → parent_of (swap from to k) = swap from to (parent_of k).
Proof.
  intros (s & -> & Hs)%under_spec Hne. destruct Hs as [->|[s' ->]]; [by rewrite app_nil_r in Hne|].
  rewrite swap_from by (right; by eexists). rewrite !parent_of_below, swap_from; [done|].
  destruct (rfind_slash s') as [[a b]|]; [right; by eexists|by left].
Qed.
End Apart.

(** * Sums over lists of paths *)

Definition lsum {A} (g : A → Z) (l : list A) : Z := foldr (λ k n, g k + n) 0 l.

Lemma lsum_perm {A} (g : A → Z) l l' : l ≡ₚ l' → lsum g l = lsum g l'.
Proof. induction 1; simpl; lia. Qed.

Lemma lsum_filter {A} (g : A → Z) (P : A → bool) l :
  (∀ k, k ∈ l → P k = false → g k = 0) → lsum g (List.filter P l) = lsum g l.
Proof.
  induction l as [|k l IH]; intros Hg; [done|]. simpl. rewrite <- IH by set_solver.
  destruct (P k) eqn:E; simpl; [done|]. rewrite (Hg k) by set_solver. lia.
Qed.

Lemma lsum_nonneg {A} (g : A → Z) l : (∀ k, k ∈ l → 0 ≤ g k) → 0 ≤ lsum g l.
Proof. induction l as [|k l IH]; intros Hg; [done|]. simpl. pose proof (Hg k ltac:(left)). specialize (IH ltac:(intros; apply Hg; by right)). lia. Qed.

Lemma lsum_filter_le {A} (g : A → Z) (P : A → bool) l :
  (∀ k, 0 ≤ g k) → lsum g (List.filter P l) ≤ lsum g l.
Proof.
  intros Hg. induction l as [|k l IH]; [done|]. simpl. pose proof (Hg k). destruct (P k); simpl; lia.
Qed.

Lemma msum_keys {V} (g : list Z → Z) (m : gmap (list Z) V) : msum (λ k _, g k) m = lsum g (btree_keys m).
Proof.
  rewrite msum_list. unfold btree_keys. rewrite (lsum_perm g _ _ (merge_sort_Permutation _ _)).
  induction (map_to_list m) as [|[k v] l IH]; simpl; [done|]. by rewrite IH.
Qed.

Lemma msum_kmap {V} (g : list Z → V → Z) (φ : list Z → list Z) `{!Inj (=) (=) φ} (m : gmap (list Z) V) :
  msum g (kmap φ m) = msum (λ k, g (φ k)) m.
Proof.
  induction m as [|k v m Hk IH] using map_ind; [by rewrite kmap_empty|].
  rewrite (kmap_insert φ). rewrite !msum_insert; [by rewrite IH|done|]. by rewrite (lookup_kmap φ).
Qed.
