(* ===== verification/TmpfsInv.v ===== *)
(** The invariant of the in-memory file system: the names form a tree, inodes are identities and
    count their names, and the quota holds exactly what the file system costs. Every operation
    keeps it. *)
From S2P Require Import Prelude Abi Quota Path Vfs Tmpfs TmpfsPath.
From stdpp Require Import base numbers gmap relations list sorting.
Local Open Scope Z_scope.

(** * The quota, one thread at a time *)

Lemma charge_spec q b :
  charge q b = if decide (used q + b < U64 ∧ used q + b ≤ limit q) then (true, mkQuota (limit q) (used q + b)) else (false, q).
Proof. unfold charge. destruct (quota_sequential q b) as [-> _]. by case_decide. Qed.

Lemma give_back_spec q b : give_back q b = mkQuota (limit q) (Z.max 0 (used q - b)).
Proof. unfold give_back. destruct (quota_sequential q b) as (_ & -> & _). done. Qed.

(** * Well-formed trees of names *)

Definition node_ino (n : Node) : Z :=
  match n with File i => i | Dir m | Fifo m _ | Symlink m _ => inode m end.
Definition is_reg (n : Node) : bool := match n with File _ => true | _ => false end.
(** How many names an inode has. *)
Definition name1 (ino : Z) (n : Node) : Z := match n with File i => if i =? ino then 1 else 0 | _ => 0 end.
Definition names (ns : gmap (list Z) Node) (ino : Z) : Z := msum (λ _, name1 ino) ns.

Definition file_wf (ns : gmap (list Z) Node) (ino : Z) (f : FileData) : Prop :=
  links f = names ns ino ∧ 0 < links f < U32 ∧ inode (fmeta f) = ino ∧
  len (data f) ≤ capacity f ≤ MAX_FILE_SIZE.

Record wf (ns : gmap (list Z) Node) (fl : gmap Z FileData) (nx : Z) : Prop := {
  w_root : ∃ m, ns !! [] = Some (Dir m);
  w_parent k n : ns !! k = Some n → k ≠ [] → ∃ m, ns !! parent_of k = Some (Dir m);
  w_ids k1 k2 n1 n2 : ns !! k1 = Some n1 → ns !! k2 = Some n2 → node_ino n1 = node_ino n2 →
    k1 = k2 ∨ is_reg n1 = true ∧ is_reg n2 = true;
  w_file k i : ns !! k = Some (File i) → is_Some (fl !! i);
  w_files i f : fl !! i = Some f → file_wf ns i f;
  w_next k n : ns !! k = Some n → 0 < node_ino n < nx
}.

Definition files_cost (fl : gmap Z FileData) : Z := msum (λ _, file_cost) fl.

(** [base] is what the rest of the kernel has charged; the root of a file system that was never
    attached to a quota is not charged, hence the bound. *)
Record accounts (base : Z) (ns : gmap (list Z) Node) (fl : gmap Z FileData) (q : Quota) : Prop := {
  a_used : used q = base + nodes_cost ns + files_cost fl;
  a_small : used q < U64;
  a_base : - NODE_OVERHEAD ≤ base
}.

Record tmp_inv (base : Z) (fs : TmpFs) : Prop := {
  i_wf : wf (nodes fs) (files fs) (next_inode fs);
  i_acc : accounts base (nodes fs) (files fs) (tq fs)
}.

(** * Counting *)

Lemma name1_nonneg ino n : 0 ≤ name1 ino n.
Proof. unfold name1. repeat case_match; lia. Qed.

Lemma names_insert ns k n ino : ns !! k = None → names (<[k := n]> ns) ino = name1 ino n + names ns ino.
Proof. apply (msum_insert (λ _, name1 ino)). Qed.
Lemma names_delete ns k n ino : ns !! k = Some n → names (delete k ns) ino = names ns ino - name1 ino n.
Proof. intros Hk. unfold names. rewrite (msum_delete (λ _, name1 ino) ns k n Hk). lia. Qed.
Lemma names_update ns k n n' ino :
  ns !! k = Some n → names (<[k := n']> ns) ino = names ns ino - name1 ino n + name1 ino n'.
Proof. apply (msum_update (λ _, name1 ino)). Qed.

Lemma names_pos ns ino : 0 < names ns ino → ∃ k, ns !! k = Some (File ino).
Proof.
  induction ns as [|k n ns Hk IH] using map_ind; [unfold names; rewrite msum_empty; lia|].
  rewrite names_insert by done. intros Hp. unfold name1 in Hp.
  destruct n as [m|i|m md|m t]; try (destruct IH as [k' Hk']; [lia|]; exists k'; rewrite lookup_insert_ne; [done|congruence]).
  destruct (Z.eqb_spec i ino) as [->|Hi]; [exists k; by rewrite lookup_insert_eq|].
  destruct IH as [k' Hk']; [lia|]. exists k'. rewrite lookup_insert_ne; [done|congruence].
Qed.

Lemma names_lookup ns k ino : ns !! k = Some (File ino) → 0 < names ns ino.
Proof.
  intros Hk. unfold names. pose proof (msum_lookup_le (λ _, name1 ino) ns k (File ino)) as Hle.
  simpl in Hle. rewrite Z.eqb_refl in Hle. specialize (Hle ltac:(intros; apply name1_nonneg) Hk). lia.
Qed.

Lemma names_le_size ns ino : names ns ino ≤ Z.of_nat (size ns).
Proof.
  induction ns as [|k n ns Hk IH] using map_ind; [done|]. rewrite names_insert, map_size_insert_None by done.
  unfold name1. repeat case_match; lia.
Qed.

Lemma files_next ns fl nx i f : wf ns fl nx → fl !! i = Some f → 0 < i < nx.
Proof.
  intros Hw Hf. destruct (w_files _ _ _ Hw _ _ Hf) as (El & Hl & _).
  destruct (names_pos ns i ltac:(lia)) as [k Hk]. exact (w_next _ _ _ Hw _ _ Hk).
Qed.

(** * Costs are positive *)

Lemma len_nonneg {A} (l : list A) : 0 ≤ len l.
Proof. unfold len. lia. Qed.
Lemma xattr1_nonneg k v : 0 ≤ xattr1 k v.
Proof. unfold xattr1, NODE_OVERHEAD. pose proof (len_nonneg k). pose proof (len_nonneg v). lia. Qed.
Lemma xattr_cost_nonneg m : 0 ≤ xattr_cost m.
Proof. apply msum_nonneg. intros; apply xattr1_nonneg. Qed.
Lemma node_cost_ge k n : NODE_OVERHEAD + len k ≤ node_cost k n.
Proof.
  unfold node_cost. destruct n as [m|i|m md|m t]; try pose proof (xattr_cost_nonneg m); try pose proof (len_nonneg t); lia.
Qed.
Lemma node_cost_nonneg k n : 0 ≤ node_cost k n.
Proof. pose proof (node_cost_ge k n). pose proof (len_nonneg k). unfold NODE_OVERHEAD in *. lia. Qed.
Lemma nodes_cost_nonneg ns : 0 ≤ nodes_cost ns.
Proof. apply msum_nonneg. intros; apply node_cost_nonneg. Qed.
Lemma file_cost_nonneg ns i f : file_wf ns i f → 0 ≤ file_cost f.
Proof.
  intros (_ & _ & _ & H). unfold file_cost. pose proof (xattr_cost_nonneg (fmeta f)). pose proof (len_nonneg (data f)). lia.
Qed.
Lemma files_cost_nonneg ns fl nx : wf ns fl nx → 0 ≤ files_cost fl.
Proof. intros Hw. apply msum_nonneg. intros i f Hf. eapply file_cost_nonneg, w_files; eauto. Qed.

(** * Ancestors *)

Lemma ancestors_exist ns fl nx p s n :
  wf ns fl nx → ns !! (p ++ SLASH :: s) = Some n → ∃ m, ns !! p = Some (Dir m).
Proof.
  intros Hw. remember (length s) as l eqn:El. revert s n El.
  induction l as [l IH] using (well_founded_induction lt_wf). intros s n -> Hn.
  destruct (w_parent _ _ _ Hw _ _ Hn) as [m Hm]; [by destruct p|]. rewrite parent_of_below in Hm.
  destruct (rfind_slash s) as [[a b]|] eqn:E; [|rewrite app_nil_r in Hm; by eexists].
  apply rfind_slash_Some in E as [-> _]. eapply IH; [|done|exact Hm]. rewrite length_app. simpl. lia.
Qed.

Lemma under_exists ns fl nx p k n :
  wf ns fl nx → ns !! k = Some n → under p k = true → k = p ∨ ∃ m, ns !! p = Some (Dir m).
Proof.
  intros Hw Hk (s & -> & [->|[s' ->]])%under_spec; [left; by rewrite app_nil_r|].
  right. by eapply ancestors_exist.
Qed.

Lemma require_parent_None fs rel : require_parent fs rel = None → ∃ m, nodes fs !! parent_of rel = Some (Dir m).
Proof.
  unfold require_parent. destruct (ancestors_are_dirs fs rel); [done|].
  destruct (nodes fs !! parent_of rel) as [[]|]; try done. eauto.
Qed.

(** * What changes keep the tree well formed *)

Section Wf.
Context {ns : gmap (list Z) Node} {fl : gmap Z FileData} {nx : Z} (Hw : wf ns fl nx).

Lemma wf_bump : wf ns fl (nx + 1).
Proof. destruct Hw. split; try done. intros k n Hk. specialize (w_next0 _ _ Hk). lia. Qed.

(** An inode's contents or attributes change. *)
Lemma wf_file_update i f f' :
  fl !! i = Some f → links f' = links f → inode (fmeta f') = inode (fmeta f) →
  len (data f') ≤ capacity f' ≤ MAX_FILE_SIZE → wf ns (<[i := f']> fl) nx.
Proof.
  intros Hf El Ei Hc. destruct Hw as [H1 H2 H3 H4 H5 H6]. split; try done.
  - intros k j Hk. destruct (decide (i = j)) as [->|]; [by rewrite lookup_insert_eq|].
    rewrite lookup_insert_ne by done. by eapply H4.
  - intros j g. destruct (decide (i = j)) as [<-|]; [rewrite lookup_insert_eq; intros [= <-]|rewrite lookup_insert_ne by done; apply H5].
    destruct (H5 _ _ Hf) as (A & B & C & D). split_and!; try done; congruence || lia.
Qed.

(** A node's attributes change; it stays the node it is. *)
Lemma wf_node_update k n n' :
  ns !! k = Some n → is_reg n = false → is_reg n' = false → is_dir n' = is_dir n → node_ino n' = node_ino n →
  wf (<[k := n']> ns) fl nx.
Proof.
  intros Hk Hr Hr' Hd Hi. destruct Hw as [H1 H2 H3 H4 H5 H6].
  assert (∀ j m, ns !! j = Some (Dir m) → ∃ m, <[k := n']> ns !! j = Some (Dir m)) as Hdir.
  { intros j m Hj. destruct (decide (k = j)) as [<-|]; [|rewrite lookup_insert_ne by done; by eexists].
    rewrite lookup_insert_eq. simplify_eq. destruct n' as [m'| | |]; try done. by exists m'. }
  assert (∀ j x, <[k := n']> ns !! j = Some x → ∃ y, ns !! j = Some y ∧ node_ino x = node_ino y ∧ is_reg x = is_reg y) as Hback.
  { intros j x. destruct (decide (k = j)) as [<-|]; [rewrite lookup_insert_eq; intros [= <-]; exists n; by rewrite Hr, Hr'|].
    rewrite lookup_insert_ne by done. eauto. }
  split.
  - destruct H1 as [m Hm]. by eapply Hdir.
  - intros j x Hj Hne. destruct (Hback _ _ Hj) as (y & Hy & _). destruct (H2 _ _ Hy Hne) as [m Hm]. by eapply Hdir.
  - intros k1 k2 n1 n2 E1 E2 E. destruct (Hback _ _ E1) as (y1 & Y1 & A1 & B1). destruct (Hback _ _ E2) as (y2 & Y2 & A2 & B2).
    rewrite B1, B2. eapply H3; eauto. congruence.
  - intros j i Hj. destruct (decide (k = j)) as [<-|]; [rewrite lookup_insert_eq in Hj; by simplify_eq|].
    rewrite lookup_insert_ne in Hj by done. by eapply H4.
  - intros i f Hf. destruct (H5 _ _ Hf) as (A & B & C & D). split_and!; try done; try lia.
    rewrite (names_update _ _ n) by done. destruct n as [m|i0|m md|m t], n' as [m'|i0'|m' md'|m' t']; simpl in *; try done; lia.
  - intros j x Hj. destruct (Hback _ _ Hj) as (y & Hy & E & _). rewrite E. by eapply H6.
Qed.

(** A new name for a node that is not a regular file. *)
Lemma wf_add k n :
  ns !! k = None → (∃ m, ns !! parent_of k = Some (Dir m)) → is_reg n = false → node_ino n = nx → 0 < nx →
  wf (<[k := n]> ns) fl (nx + 1).
Proof.
  intros Hk [mp Hp] Hr Hi Hnx. destruct Hw as [H1 H2 H3 H4 H5 H6].
  assert (∀ j x, ns !! j = Some x → <[k := n]> ns !! j = Some x) as Hkeep.
  { intros j x Hj. rewrite lookup_insert_ne by congruence. done. }
  split.
  - destruct H1 as [m Hm]. exists m. by apply Hkeep.
  - intros j x Hj Hne. apply lookup_insert_Some in Hj as [[<- <-]|[_ Hj]]; [exists mp; by apply Hkeep|].
    destruct (H2 _ _ Hj Hne) as [m Hm]. exists m. by apply Hkeep.
  - intros k1 k2 n1 n2 E1 E2 E.
    apply lookup_insert_Some in E1 as [[<- <-]|[N1 E1]]; apply lookup_insert_Some in E2 as [[<- <-]|[N2 E2]].
    + by left.
    + specialize (H6 _ _ E2). lia.
    + specialize (H6 _ _ E1). lia.
    + by eapply H3.
  - intros j i Hj. apply lookup_insert_Some in Hj as [[_ ->]|[_ Hj]]; [done|]. by eapply H4.
  - intros i f Hf. destruct (H5 _ _ Hf) as (A & B & C & D). split_and!; try done; try lia.
    rewrite names_insert by done. destruct n; simpl in *; try done; lia.
  - intros j x Hj. apply lookup_insert_Some in Hj as [[_ <-]|[_ Hj]]; [lia|]. specialize (H6 _ _ Hj). lia.
Qed.

(** A new name: of a new inode ([f] fresh) or of one that exists ([f] counting one more). *)
Lemma wf_add_name k i f :
  ns !! k = None → (∃ m, ns !! parent_of k = Some (Dir m)) → 0 < i < nx →
  (∀ j n, ns !! j = Some n → node_ino n = i → is_reg n = true) →
  links f = names ns i + 1 → names ns i + 1 < U32 → inode (fmeta f) = i → len (data f) ≤ capacity f ≤ MAX_FILE_SIZE →
  wf (<[k := File i]> ns) (<[i := f]> fl) nx.
Proof.
  intros Hk [mp Hp] Hi Hreg El Hl Em Hc. destruct Hw as [H1 H2 H3 H4 H5 H6].
  assert (∀ j x, ns !! j = Some x → <[k := File i]> ns !! j = Some x) as Hkeep.
  { intros j x Hj. rewrite lookup_insert_ne by congruence. done. }
  assert (0 ≤ names ns i) by (apply msum_nonneg; intros; apply name1_nonneg).
  split.
  - destruct H1 as [m Hm]. exists m. by apply Hkeep.
  - intros j x Hj Hne. apply lookup_insert_Some in Hj as [[<- <-]|[_ Hj]]; [exists mp; by apply Hkeep|].
    destruct (H2 _ _ Hj Hne) as [m Hm]. exists m. by apply Hkeep.
  - intros k1 k2 n1 n2 E1 E2 E.
    apply lookup_insert_Some in E1 as [[<- <-]|[N1 E1]]; apply lookup_insert_Some in E2 as [[<- <-]|[N2 E2]].
    + by left.
    + right. split; [done|]. by eapply Hreg.
    + right. split; [|done]. by eapply Hreg.
    + by eapply H3.
  - intros j x Hj. apply lookup_insert_Some in Hj as [[_ [= <-]]|[_ Hj]]; [rewrite lookup_insert_eq; eauto|].
    destruct (decide (i = x)) as [->|]; [rewrite lookup_insert_eq; eauto|]. rewrite lookup_insert_ne by done. by eapply H4.
  - intros x g Hx. unfold file_wf. rewrite names_insert by done. simpl.
    destruct (Z.eqb_spec i x) as [<-|Hne].
    + rewrite lookup_insert_eq in Hx. injection Hx as <-. split_and!; lia || done.
    + rewrite lookup_insert_ne in Hx by done. destruct (H5 _ _ Hx) as (A & B & C & D). split_and!; lia || done.
  - intros j x Hj. apply lookup_insert_Some in Hj as [[_ <-]|[_ Hj]]; [done|]. by eapply H6.
Qed.

(** A name goes; its directory had no other entry below the name. *)
Lemma wf_remove k n :
  ns !! k = Some n → k ≠ [] → is_reg n = false → (∀ j x, ns !! j = Some x → j ≠ [] → parent_of j ≠ k) →
  wf (delete k ns) fl nx.
Proof.
  intros Hk Hne Hr Hch. destruct Hw as [H1 H2 H3 H4 H5 H6]. split.
  - destruct H1 as [m Hm]. exists m. by rewrite lookup_delete_ne.
  - intros j x [Hj Hx]%lookup_delete_Some Hj0. destruct (H2 _ _ Hx Hj0) as [m Hm]. exists m.
    rewrite lookup_delete_ne; [done|]. intros ->. exact (Hch j x Hx Hj0 eq_refl).
  - intros k1 k2 n1 n2 [_ E1]%lookup_delete_Some [_ E2]%lookup_delete_Some. by apply H3.
  - intros j i [_ Hj]%lookup_delete_Some. by eapply H4.
  - intros i f Hf. destruct (H5 _ _ Hf) as (A & B & C & D). split_and!; try done; try lia.
    rewrite (names_delete _ _ n) by done. destruct n; simpl in *; try done; lia.
  - intros j x [_ Hj]%lookup_delete_Some. by eapply H6.
Qed.

(** A name of a regular file goes, with the inode when it was the last. *)
Lemma wf_remove_name k i f :
  ns !! k = Some (File i) → fl !! i = Some f →
  wf (delete k ns) (if links f - 1 =? 0 then delete i fl else <[i := with_links f (links f - 1)]> fl) nx.
Proof.
  intros Hk Hf. destruct Hw as [H1 H2 H3 H4 H5 H6].
  destruct (H5 _ _ Hf) as (El & Hl & Ei & Hc).
  assert (k ≠ []) as Hk0 by (intros ->; destruct H1; congruence).
  assert (∀ j, names (delete k ns) j = if i =? j then names ns j - 1 else names ns j) as En.
  { intros j. rewrite (names_delete _ _ (File i)) by done. simpl. destruct (i =? j); lia. }
  assert (∀ j, i ≠ j → (if links f - 1 =? 0 then delete i fl else <[i := with_links f (links f - 1)]> fl) !! j = fl !! j) as Hne.
  { intros j Hj. destruct (links f - 1 =? 0); [by rewrite lookup_delete_ne|by rewrite lookup_insert_ne]. }
  split.
  - destruct H1 as [m Hm]. exists m. by rewrite lookup_delete_ne.
  - intros j x [Hj Hx]%lookup_delete_Some Hj0. destruct (H2 _ _ Hx Hj0) as [m Hm]. exists m.
    rewrite lookup_delete_ne; [done|]. intros ->. congruence.
  - intros k1 k2 n1 n2 [_ E1]%lookup_delete_Some [_ E2]%lookup_delete_Some. by apply H3.
  - intros j x Hj. assert (0 < names (delete k ns) x) as Hp by (by eapply names_lookup).
    apply lookup_delete_Some in Hj as [_ Hj]. rewrite En in Hp.
    destruct (Z.eqb_spec i x) as [<-|Hx]; [|rewrite Hne by done; by eapply H4].
    rewrite (proj2 (Z.eqb_neq _ 0)) by lia. rewrite lookup_insert_eq. eauto.
  - intros x g Hx. unfold file_wf. rewrite En. destruct (Z.eqb_spec i x) as [<-|Hix].
    + destruct (Z.eqb_spec (links f - 1) 0); [by rewrite lookup_delete_eq in Hx|].
      rewrite lookup_insert_eq in Hx. injection Hx as <-. simpl. split_and!; lia || done.
    + rewrite Hne in Hx by done. exact (H5 _ _ Hx).
  - intros j x [_ Hj]%lookup_delete_Some. by eapply H6.
Qed.
End Wf.

(** * What the accounts make of each change *)

Lemma root_cost ns : (∃ m, ns !! [] = Some (Dir m)) → NODE_OVERHEAD ≤ nodes_cost ns.
Proof.
  intros [m Hm]. etrans; [|apply (msum_lookup_le node_cost ns [] (Dir m)); [|done]].
  - pose proof (node_cost_ge [] (Dir m)). pose proof (len_nonneg (A := Z) []). lia.
  - intros; apply node_cost_nonneg.
Qed.

(** Giving back never stops at zero while the root is there. *)
Lemma acc_release base ns fl q b ns' fl' :
  accounts base ns fl q → 0 ≤ b → (∃ m, ns' !! [] = Some (Dir m)) → 0 ≤ files_cost fl' →
  nodes_cost ns' + files_cost fl' = nodes_cost ns + files_cost fl - b →
  accounts base ns' fl' (give_back q b).
Proof.
  intros [H1 H2 H3] Hb Hr Hf E. apply root_cost in Hr. rewrite give_back_spec. split; simpl; lia.
Qed.

Lemma acc_charge base ns fl q b ns' fl' ok q' :
  accounts base ns fl q → charge q b = (ok, q') →
  nodes_cost ns' + files_cost fl' = nodes_cost ns + files_cost fl + b →
  if ok then accounts base ns' fl' q' ∧ q' = mkQuota (limit q) (used q + b) ∧ used q' ≤ limit q else q' = q.
Proof.
  intros [H1 H2 H3] Hc E. rewrite charge_spec in Hc. case_decide as Hd; injection Hc as <- <-; [|done].
  split_and!; [split; simpl; lia|done|simpl; lia].
Qed.

Lemma insert_node_spec base fs rel n r fs' :
  accounts base (nodes fs) (files fs) (tq fs) → nodes fs !! rel = None → insert_node fs rel n = (r, fs') →
  (r = Good tt ∧ nodes fs' = <[rel := n]> (nodes fs) ∧ files fs' = files fs ∧ next_inode fs' = next_inode fs ∧
   accounts base (nodes fs') (files fs') (tq fs')) ∨ (r = Bad ENOSPC ∧ fs' = fs).
Proof.
  intros Ha Hk. unfold insert_node. destruct (charge _ _) as [ok q] eqn:Ec.
  eapply acc_charge with (ns' := <[rel := n]> (nodes fs)) (fl' := files fs) in Ec; [|exact Ha|].
  2: { unfold nodes_cost. rewrite msum_insert by done. lia. }
  destruct ok.
  - intros [= <- <-]. left. simpl. by destruct Ec.
  - intros [= <- <-]. right. subst q. by destruct fs.
Qed.

(** A fresh inode that got no name is dropped again. *)
Lemma drop_fresh fs i : files fs !! i = None → ∀ m mode,
  drop_file (with_files fs (<[i := mkFile m [] 0 mode 1]> (files fs))) i
  = with_tq fs (give_back (tq fs) (xattr_cost m)).
Proof.
  intros Hi m mode. unfold drop_file, with_files, file_cost. simpl. rewrite lookup_insert_eq.
  unfold with_tq. by rewrite delete_insert_id.
Qed.

Lemma remove_entry_inv base fs rel n :
  tmp_inv base fs → nodes fs !! rel = Some n → rel ≠ [] →
  (∀ j x, nodes fs !! j = Some x → j ≠ [] → parent_of j ≠ rel) →
  tmp_inv base (remove_entry fs rel) ∧ nodes (remove_entry fs rel) = delete rel (nodes fs) ∧
  next_inode (remove_entry fs rel) = next_inode fs.
Proof.
  intros [Hw Ha] Hn Hne Hch. unfold remove_entry. rewrite Hn.
  pose proof (node_cost_nonneg rel n) as Hc. pose proof (files_cost_nonneg _ _ _ Hw) as Hfc.
  assert (∃ m, delete rel (nodes fs) !! [] = Some (Dir m)) as Hroot.
  { destruct (w_root _ _ _ Hw) as [m Hm]. exists m. by rewrite lookup_delete_ne. }
  assert (nodes_cost (delete rel (nodes fs)) = nodes_cost (nodes fs) - node_cost rel n) as En.
  { unfold nodes_cost. rewrite (msum_delete node_cost _ rel n Hn). lia. }
  assert (accounts base (delete rel (nodes fs)) (files fs) (give_back (tq fs) (node_cost rel n))) as Ha1
    by (eapply acc_release; eauto; lia).
  destruct (is_reg n) eqn:Hreg; [|assert (wf (delete rel (nodes fs)) (files fs) (next_inode fs)) by (by eapply wf_remove);
    destruct n; done].
  destruct n as [m|i|m md|m t]; try done. simpl.
  destruct (w_file _ _ _ Hw _ _ Hn) as [f Hf]. rewrite Hf.
  destruct (w_files _ _ _ Hw _ _ Hf) as (El & Hl & Ei & Hcap).
  pose proof (wf_remove_name Hw rel i f Hn Hf) as Hw'.
  replace (wrap U32 (links f - 1)) with (links f - 1) by (unfold wrap; rewrite Z.mod_small; lia).
  destruct (links f - 1 =? 0).
  - unfold drop_file, with_files. simpl. rewrite lookup_insert_eq. rewrite delete_insert_eq.
    split_and!; [|done|done]. split; [done|].
    pose proof (file_cost_nonneg (nodes fs) i f ltac:(done)).
    assert (files_cost (delete i (files fs)) = files_cost (files fs) - file_cost f) as Ef.
    { unfold files_cost. rewrite (msum_delete (λ _, file_cost) _ i f Hf). lia. }
    simpl. change (file_cost (with_links f (links f - 1))) with (file_cost f).
    eapply acc_release; [exact Ha1|done|done| |lia]. eapply files_cost_nonneg. exact Hw'.
  - split_and!; [|done|done]. split; [done|]. simpl.
    destruct Ha1 as [A1 A2 A3]. split; [|done..]. rewrite A1. f_equal.
    unfold files_cost. rewrite (msum_update (λ _, file_cost) _ i f _ Hf). unfold file_cost, with_links. simpl. lia.
Qed.

Lemma acc_used_nonneg base ns fl nx q : wf ns fl nx → accounts base ns fl q → 0 ≤ used q.
Proof.
  intros Hw [H1 H2 H3]. pose proof (root_cost ns (w_root _ _ _ Hw)). pose proof (files_cost_nonneg _ _ _ Hw). lia.
Qed.

Section Alloc.
Context `{Allocator}.

(** Growing a file succeeds with a larger buffer charged exactly, or changes nothing. *)
Lemma grow_file_spec f q end_ g q' :
  0 ≤ capacity f ≤ MAX_FILE_SIZE → 0 ≤ used q ≤ 2 ^ 63 → grow_file f q end_ = (g, q') →
  (g = Bad ENOSPC ∧ q' = q) ∨
  (∃ c, g = Good (with_cap f c) ∧ end_ ≤ c ∧ capacity f ≤ c ≤ MAX_FILE_SIZE ∧ q' = mkQuota (limit q) (used q + (c - capacity f))).
Proof.
  intros Hc Hu. unfold grow_file. destruct (Z.leb_spec end_ (capacity f)) as [He|He].
  { intros [= <- <-]. right. exists (capacity f). split_and!; try lia; [by destruct f|]. destruct q; simpl. f_equal; lia. }
  assert (∀ target q1, (target = end_ ∨ target = Z.max end_ (capacity f * 2)) →
    q1 = mkQuota (limit q) (used q + (target - capacity f)) →
    match reserve (capacity f) target with
      | None => (Bad ENOSPC, give_back q1 (target - capacity f))
      | Some c => (Good (with_cap f c), force_charge q1 (c - target))
    end = (g, q') →
    (g = Bad ENOSPC ∧ q' = q) ∨ (∃ c, g = Good (with_cap f c) ∧ end_ ≤ c ∧ capacity f ≤ c ≤ MAX_FILE_SIZE ∧
      q' = mkQuota (limit q) (used q + (c - capacity f)))) as Hgo.
  { intros target q1 Ht -> Hr. destruct (reserve (capacity f) target) as [c|] eqn:Er; injection Hr as <- <-.
    - apply reserve_ok in Er. right. exists c. split_and!; try lia; [done|].
      unfold force_charge, wrap. simpl. rewrite Z.mod_small; [f_equal; lia|]. unfold MAX_FILE_SIZE, U64 in *. lia.
    - left. split; [done|]. rewrite give_back_spec. destruct q as [l u]. simpl in *. f_equal. lia. }
  rewrite charge_spec. case_decide as D1; cbv beta iota zeta; [apply Hgo; [by right|done]|].
  rewrite charge_spec. case_decide as D2; cbv beta iota zeta; [apply Hgo; [by left|done]|].
  intros [= <- <-]. by left.
Qed.

(** * Updates of one inode *)

Lemma inv_file_update base fs i f f' q' :
  tmp_inv base fs → files fs !! i = Some f → links f' = links f → inode (fmeta f') = inode (fmeta f) →
  len (data f') ≤ capacity f' ≤ MAX_FILE_SIZE →
  q' = mkQuota (limit (tq fs)) (used (tq fs) - file_cost f + file_cost f') → used q' < U64 →
  tmp_inv base (with_tq (with_files fs (<[i := f']> (files fs))) q').
Proof.
  intros [Hw Ha] Hf El Ei Hc -> Hu. split; simpl; [by eapply wf_file_update|].
  destruct Ha as [A1 A2 A3]. simpl in Hu. split; [|done|done]. simpl. rewrite A1.
  unfold files_cost. rewrite (msum_update (λ _, file_cost) _ i f _ Hf). lia.
Qed.

Lemma len_resize n l : 0 ≤ n → len (vec_resize n l) = n.
Proof. intros Hn. unfold len, vec_resize. rewrite length_resize. lia. Qed.

Lemma write_at_inv base now fs rel off buf :
  tmp_inv base fs → 0 ≤ off → used (tq fs) ≤ 2 ^ 63 → tmp_inv base (write_at now fs rel off buf).2.
Proof.
  intros Hi Hoff Hu. pose proof Hi as [Hw Ha]. unfold write_at.
  destruct (nodes fs !! rel) as [[m|i|m md|m t]|]; try done.
  destruct (files fs !! i) as [f|] eqn:Hf; [|done].
  unfold checked_add64. destruct (off + len buf <? U64); [|done].
  destruct (Z.ltb_spec MAX_FILE_SIZE (off + len buf)) as [|Hend]; [done|].
  destruct (w_files _ _ _ Hw _ _ Hf) as (El & Hl & Ei & Hcap).
  pose proof (acc_used_nonneg _ _ _ _ _ Hw Ha) as Hu0. pose proof (len_nonneg buf) as Hb. pose proof (len_nonneg (data f)) as Hd.
  assert (with_tq fs (tq fs) = fs) as Eq by (by destruct fs).
  destruct (Z.ltb_spec (len (data f)) (off + len buf)) as [Hlt|Hge].
  - destruct (grow_file f (tq fs) (off + len buf)) as [g q] eqn:Eg.
    destruct (grow_file_spec f (tq fs) _ _ _ ltac:(lia) ltac:(lia) Eg) as [[-> ->]|(c & -> & Hc1 & Hc2 & ->)]; [by rewrite Eq|].
    simpl. eapply inv_file_update; try done; simpl.
    + unfold len. rewrite length_inserts. change (len (vec_resize (off + len buf) (data f)) ≤ c ≤ MAX_FILE_SIZE). rewrite len_resize; lia.
    + f_equal. unfold file_cost, with_fmeta, with_data, with_cap, with_times, xattr_cost. simpl. lia.
    + unfold MAX_FILE_SIZE, U64 in *. lia.
  - simpl. eapply inv_file_update; try done; simpl.
    + unfold len. rewrite length_inserts. done.
    + unfold file_cost, with_fmeta, with_data, with_cap, with_times, xattr_cost. simpl. destruct (tq fs); simpl. f_equal. lia.
    + by destruct Ha.
Qed.

Lemma truncate_inv base now fs rel n :
  tmp_inv base fs → 0 ≤ n → used (tq fs) ≤ 2 ^ 63 → tmp_inv base (truncate now fs rel n).2.
Proof.
  intros Hi Hn Hu. pose proof Hi as [Hw Ha]. unfold truncate.
  destruct (nodes fs !! rel) as [[m|i|m md|m t]|]; try done.
  destruct (files fs !! i) as [f|] eqn:Hf; [|done].
  destruct (Z.ltb_spec MAX_FILE_SIZE n) as [|Hend]; [done|].
  destruct (w_files _ _ _ Hw _ _ Hf) as (El & Hl & Ei & Hcap).
  pose proof (acc_used_nonneg _ _ _ _ _ Hw Ha) as Hu0. pose proof (len_nonneg (data f)) as Hd.
  assert (with_tq fs (tq fs) = fs) as Eq by (by destruct fs).
  assert (file_cost f ≤ base + nodes_cost (nodes fs) + files_cost (files fs)) as Hfc.
  { pose proof (root_cost _ (w_root _ _ _ Hw)). destruct Ha as [_ _ Hb].
    enough (file_cost f ≤ files_cost (files fs)) by lia.
    apply (msum_lookup_le (λ _, file_cost)) with (k := i); [|done]. intros j g Hg. by eapply file_cost_nonneg, w_files. }
  assert (∃ g q, (if capacity f <? n then grow_file f (tq fs) n else (Good f, tq fs)) = (g, q) ∧
    (g = Bad ENOSPC ∧ q = tq fs ∨ ∃ c, g = Good (with_cap f c) ∧ n ≤ c ∧ capacity f ≤ c ≤ MAX_FILE_SIZE ∧
     q = mkQuota (limit (tq fs)) (used (tq fs) + (c - capacity f)))) as (g & q & -> & Hg).
  { destruct (Z.ltb_spec (capacity f) n).
    - destruct (grow_file f (tq fs) n) as [g q] eqn:Eg. exists g, q. split; [done|]. eapply grow_file_spec; eauto; lia.
    - eexists _, _. split; [done|]. right. exists (capacity f). split_and!; [by destruct f|lia..|].
      destruct (tq fs); simpl; f_equal; lia. }
  destruct Hg as [[-> ->]|(c & -> & Hc1 & Hc2 & ->)]; [by rewrite Eq|]. simpl.
  pose proof (a_used _ _ _ _ Ha) as Eu. pose proof (xattr_cost_nonneg (fmeta f)) as Hx. unfold file_cost in Hfc.
  destruct (Z.ltb_spec n (c / 2)) as [Hsh|Hsh]; simpl.
  - pose proof (shrink_ok c n ltac:(divlia)) as Hs.
    eapply inv_file_update; try done; simpl; try (rewrite len_resize by lia; lia).
    + rewrite give_back_spec. simpl. unfold file_cost, with_fmeta, with_data, with_cap, with_times, xattr_cost in *. simpl in *. f_equal. lia.
    + rewrite give_back_spec. simpl. unfold MAX_FILE_SIZE, U64 in *. lia.
  - eapply inv_file_update; try done; simpl; try (rewrite len_resize by lia; lia).
    + unfold file_cost, with_fmeta, with_data, with_cap, with_times, xattr_cost. simpl. f_equal. lia.
    + unfold MAX_FILE_SIZE, U64 in *. lia.
Qed.
End Alloc.

(** * Updates of a node's attributes *)

Lemma set_meta_inv base fs rel m m' q' :
  tmp_inv base fs → meta_of fs rel = Some m → inode m' = inode m →
  q' = mkQuota (limit (tq fs)) (used (tq fs) - xattr_cost m + xattr_cost m') → used q' < U64 →
  tmp_inv base (with_tq (set_meta fs rel m') q').
Proof.
  intros Hi Hm Ei -> Hu. simpl in Hu. pose proof Hi as [Hw [A1 A2 A3]]. unfold meta_of in Hm. unfold set_meta.
  destruct (nodes fs !! rel) as [n|] eqn:Hn; [|done]. simpl in Hm.
  destruct (is_reg n) eqn:Hr.
  - destruct n as [|i| |]; try done. simpl in Hm. destruct (files fs !! i) as [f|] eqn:Hf; [|done].
    injection Hm as <-. destruct (w_files _ _ _ Hw _ _ Hf) as (El & Hl & E & Hcap).
    eapply inv_file_update; try done. unfold file_cost. simpl. f_equal. lia.
  - assert (node_meta (files fs) n = Some m → node_ino n = inode m ∧ node_cost rel (set_node_meta n m') = node_cost rel n - xattr_cost m + xattr_cost m') as Hc.
    { destruct n; try done; intros [= ->]; split; try done; unfold node_cost; simpl; lia. }
    destruct (Hc Hm) as [Eino Ecost].
    assert (tmp_inv base (with_tq (with_nodes fs (<[rel := set_node_meta n m']> (nodes fs)))
      (mkQuota (limit (tq fs)) (used (tq fs) - xattr_cost m + xattr_cost m')))) as Hgoal; [|destruct n; done].
    split; simpl.
    + eapply wf_node_update; eauto; destruct n; try done; simpl; simpl in Eino; congruence.
    + split; simpl; [|done|done]. rewrite A1. unfold nodes_cost. rewrite (msum_update node_cost _ rel n _ Hn). lia.
Qed.

Lemma set_meta_same_cost base fs rel m m' :
  tmp_inv base fs → meta_of fs rel = Some m → inode m' = inode m → xattrs m' = xattrs m → tmp_inv base (set_meta fs rel m').
Proof.
  intros Hi Hm Ei Ex. pose proof Hi as [_ [A1 A2 A3]].
  assert (tmp_inv base (with_tq (set_meta fs rel m') (tq fs))) as Hg.
  { eapply set_meta_inv; eauto. unfold xattr_cost. rewrite Ex. destruct (tq fs); simpl; f_equal; lia. }
  replace (set_meta fs rel m') with (with_tq (set_meta fs rel m') (tq fs)); [done|].
  destruct fs. unfold set_meta. simpl. repeat case_match; done.
Qed.

Lemma set_mode_inv base fs rel mode : tmp_inv base fs → tmp_inv base (set_mode fs rel mode).2.
Proof.
  intros Hi. pose proof Hi as [Hw Ha]. unfold set_mode. destruct (nodes fs !! rel) as [[m|i|m md|m t]|] eqn:Hn; try done; simpl.
  - destruct (files fs !! i) as [f|] eqn:Hf; [|done]. destruct (w_files _ _ _ Hw _ _ Hf) as (El & Hl & E & Hcap).
    enough (tmp_inv base (with_tq (with_files fs (<[i := with_fmode f (new_mode (fmode f) mode)]> (files fs))) (tq fs))) as Hg
      by (by destruct fs).
    eapply inv_file_update; try done; [|by destruct Ha]. unfold file_cost. simpl. destruct (tq fs); simpl. f_equal. lia.
  - split; simpl; [by eapply wf_node_update|]. destruct Ha as [A1 A2 A3]. split; [|done..]. rewrite A1. simpl.
    unfold nodes_cost. rewrite (msum_update node_cost _ rel _ _ Hn). unfold node_cost. lia.
Qed.

Lemma set_times_inv base now fs rel a t : tmp_inv base fs → tmp_inv base (set_times now fs rel a t).2.
Proof. intros Hi. unfold set_times. destruct (meta_of fs rel) eqn:Hm; [|done]. by eapply set_meta_same_cost. Qed.

Lemma set_owner_inv base fs rel u g : tmp_inv base fs → tmp_inv base (set_owner fs rel u g).2.
Proof. intros Hi. unfold set_owner. destruct (meta_of fs rel) eqn:Hm; [|done]. by eapply set_meta_same_cost. Qed.

Lemma xattr_insert m name value :
  xattr_cost (with_xattrs m (<[name := value]> (xattrs m)))
  = xattr_cost m + xattr1 name value - match xattrs m !! name with Some old => xattr1 name old | None => 0 end.
Proof.
  unfold xattr_cost. simpl. destruct (xattrs m !! name) as [old|] eqn:E.
  - rewrite (msum_update xattr1 _ name old) by done. lia.
  - rewrite msum_insert by done. lia.
Qed.

Lemma xattr_le base fs rel m name old :
  tmp_inv base fs → meta_of fs rel = Some m → xattrs m !! name = Some old → xattr1 name old ≤ used (tq fs).
Proof.
  intros [Hw [A1 A2 A3]] Hm Hx.
  assert (xattr1 name old ≤ xattr_cost m) as H1.
  { apply (msum_lookup_le xattr1) with (k := name); [|done]. intros; apply xattr1_nonneg. }
  unfold meta_of in Hm. destruct (nodes fs !! rel) as [n|] eqn:Hn; [|done]. simpl in Hm.
  pose proof (root_cost _ (w_root _ _ _ Hw)) as Hr. pose proof (files_cost_nonneg _ _ _ Hw) as Hf0.
  destruct (is_reg n) eqn:Hreg.
  - destruct n as [|i| |]; try done. simpl in Hm. destruct (files fs !! i) as [f|] eqn:Hf; [|done]. injection Hm as <-.
    assert (file_cost f ≤ files_cost (files fs)).
    { apply (msum_lookup_le (λ _, file_cost)) with (k := i); [|done]. intros j g Hg. by eapply file_cost_nonneg, w_files. }
    destruct (w_files _ _ _ Hw _ _ Hf) as (_ & _ & _ & Hcap). pose proof (len_nonneg (data f)). unfold file_cost in *. lia.
  - assert (NODE_OVERHEAD + xattr_cost m ≤ node_cost rel n).
    { pose proof (len_nonneg rel). destruct n as [|?| |? tg]; try done; injection Hm as ->; unfold node_cost;
        try pose proof (len_nonneg tg); lia. }
    assert (node_cost rel n ≤ nodes_cost (nodes fs)).
    { apply (msum_lookup_le node_cost) with (k := rel); [|done]. intros; apply node_cost_nonneg. }
    lia.
Qed.

Lemma setxattr_inv base fs rel name value : tmp_inv base fs → tmp_inv base (setxattr fs rel name value).2.
Proof.
  intros Hi. pose proof Hi as [Hw [A1 A2 A3]]. unfold setxattr. destruct (meta_of fs rel) as [m|] eqn:Hm; [|done].
  pose proof (xattr1_nonneg name value) as H1.
  rewrite charge_spec. case_decide as Hd; [|by destruct fs]. simpl.
  pose proof (xattr_insert m name value) as Hx.
  eapply set_meta_inv; eauto.
  - destruct (xattrs m !! name) as [old|] eqn:Eo; [|f_equal; lia].
    pose proof (xattr_le _ _ _ _ _ _ Hi Hm Eo). rewrite give_back_spec. simpl. f_equal. lia.
  - destruct (xattrs m !! name) as [old|] eqn:Eo; [|simpl; lia].
    pose proof (xattr1_nonneg name old). rewrite give_back_spec. simpl. assert (0 < U64) by done. lia.
Qed.

Lemma removexattr_inv base fs rel name : tmp_inv base fs → tmp_inv base (removexattr fs rel name).2.
Proof.
  intros Hi. pose proof Hi as [Hw [A1 A2 A3]]. unfold removexattr. destruct (meta_of fs rel) as [m|] eqn:Hm; [|done].
  destruct (xattrs m !! name) as [old|] eqn:Eo; [|done].
  pose proof (xattr_le _ _ _ _ _ _ Hi Hm Eo). pose proof (xattr1_nonneg name old). simpl.
  assert (xattr_cost (with_xattrs m (delete name (xattrs m))) = xattr_cost m - xattr1 name old) as Hx.
  { unfold xattr_cost. simpl. rewrite (msum_delete xattr1 (xattrs m) name old Eo). lia. }
  rewrite give_back_spec. eapply set_meta_inv; eauto; simpl; [|lia]. rewrite Hx. f_equal. lia.
Qed.

(** * New entries *)

Lemma next_pos ns fl nx : wf ns fl nx → 0 < nx.
Proof. intros Hw. destruct (w_root _ _ _ Hw) as [m Hm]. pose proof (w_next _ _ _ Hw _ _ Hm). lia. Qed.

Lemma wrap_next fs base : tmp_inv base fs → next_inode fs + 1 < U64 → wrap U64 (next_inode fs + 1) = next_inode fs + 1.
Proof. intros [Hw _] Hn. apply next_pos in Hw. unfold wrap. rewrite Z.mod_small; lia. Qed.

Lemma inv_bump base fs :
  tmp_inv base fs → tmp_inv base (mkTmp (nodes fs) (files fs) (next_inode fs + 1) (tq fs)).
Proof. intros [Hw Ha]. split; [by apply wf_bump|done]. Qed.

Lemma add_node_inv base now fs rel (mk : Meta → Node) :
  tmp_inv base fs → require_parent fs rel = None → nodes fs !! rel = None → next_inode fs + 1 < U64 →
  (∀ m, is_reg (mk m) = false) → (∀ m, node_ino (mk m) = inode m) →
  tmp_inv base (let '(m, fs) := new_meta now fs in insert_node fs rel (mk m)).2.
Proof.
  intros Hi Hp Hk Hn Hr Hino. apply require_parent_None in Hp. unfold new_meta, alloc_inode.
  rewrite (wrap_next _ _ Hi Hn). set (m := mkMeta _ _ _ _ _ _).
  destruct (insert_node _ rel (mk m)) as [r fs'] eqn:Ei. pose proof (inv_bump _ _ Hi) as Hi'. pose proof Hi as [Hw Ha].
  destruct (insert_node_spec base _ _ _ _ _ (i_acc _ _ Hi') Hk Ei) as [(-> & E1 & E2 & E3 & Ha')|[-> ->]]; [|done].
  simpl in *. split; [|done]. rewrite E1, E2, E3. apply wf_add; try done. by eapply next_pos.
Qed.

Lemma fresh_ino ns fl nx : wf ns fl nx → fl !! nx = None.
Proof. intros Hw. destruct (fl !! nx) as [f|] eqn:E; [|done]. pose proof (files_next _ _ _ _ _ Hw E). lia. Qed.

Lemma no_names ns fl nx : wf ns fl nx → names ns nx = 0.
Proof.
  intros Hw. assert (0 ≤ names ns nx) by (apply msum_nonneg; intros; apply name1_nonneg).
  destruct (decide (0 < names ns nx)) as [Hp|]; [|lia]. apply names_pos in Hp as [k Hk].
  pose proof (w_next _ _ _ Hw _ _ Hk). simpl in *. lia.
Qed.

Lemma add_file_inv base now fs rel mode :
  tmp_inv base fs → require_parent fs rel = None → nodes fs !! rel = None → next_inode fs + 1 < U64 →
  tmp_inv base (let '(ino, fs) := new_file now fs mode in
                match insert_node fs rel (File ino) with (Bad e, fs) => (Bad e, drop_file fs ino) | r => r end).2.
Proof.
  intros Hi Hp Hk Hn. apply require_parent_None in Hp. unfold new_file, new_meta, alloc_inode.
  rewrite (wrap_next _ _ Hi Hn). cbn [inode]. set (m := mkMeta _ _ _ _ _ _). set (fs1 := with_files _ _).
  pose proof Hi as [Hw Ha]. pose proof (fresh_ino _ _ _ Hw) as Hfr.
  assert (accounts base (nodes fs1) (files fs1) (tq fs1)) as Ha1.
  { destruct Ha as [A1 A2 A3]. split; [|done..]. subst fs1. simpl. rewrite A1. unfold files_cost.
    rewrite msum_insert by done. unfold file_cost, xattr_cost. simpl. rewrite msum_empty. lia. }
  destruct (insert_node fs1 rel _) as [r fs'] eqn:Ei.
  destruct (insert_node_spec base _ _ _ _ _ Ha1 Hk Ei) as [(-> & E1 & E2 & E3 & Ha')|[-> ->]].
  - simpl in *. split; [|done]. rewrite E1, E2, E3. subst fs1. simpl. apply wf_add_name.
    + by apply wf_bump.
    + done.
    + done.
    + apply next_pos in Hw. lia.
    + intros j n Hj E. pose proof (w_next _ _ _ Hw _ _ Hj). lia.
    + by rewrite (no_names _ _ _ Hw).
    + by rewrite (no_names _ _ _ Hw).
    + done.
    + done.
  - simpl. subst fs1. rewrite (drop_fresh (mkTmp (nodes fs) (files fs) (next_inode fs + 1) (tq fs))) by done.
    unfold xattr_cost. simpl. rewrite msum_empty. apply inv_bump in Hi. destruct Hi as [Hw1 Ha2].
    split; [done|]. simpl in *. rewrite give_back_spec. pose proof (acc_used_nonneg _ _ _ _ _ Hw Ha).
    destruct Ha as [A1 A2 A3]. split; simpl; lia.
Qed.

Lemma new_entry {A} (P : TmpFs → Prop) fs rel (body : io A * TmpFs) :
  P fs → (require_parent fs rel = None → nodes fs !! rel = None → P body.2) →
  P (match require_parent fs rel with
     | Some e => (Bad e, fs)
     | None => if bool_decide (is_Some (nodes fs !! rel)) then (Bad EEXIST, fs) else body
     end).2.
Proof.
  intros HP Hb. destruct (require_parent fs rel); [done|]. case_bool_decide as E; [done|].
  apply Hb; [done|]. by apply eq_None_not_Some.
Qed.

Lemma create_inv base now fs rel mode :
  tmp_inv base fs → next_inode fs + 1 < U64 → tmp_inv base (create now fs rel mode).2.
Proof. intros Hi Hn. unfold create. apply (new_entry (tmp_inv base)); [done|]. intros Hp Hk. by apply add_file_inv. Qed.

Lemma mkdir_inv base now fs rel mode :
  tmp_inv base fs → next_inode fs + 1 < U64 → tmp_inv base (mkdir now fs rel mode).2.
Proof. intros Hi Hn. unfold mkdir. apply (new_entry (tmp_inv base)); [done|]. intros Hp Hk. by apply (add_node_inv base now fs rel Dir). Qed.

Lemma symlink_inv base now fs target rel :
  tmp_inv base fs → next_inode fs + 1 < U64 → tmp_inv base (symlink now fs target rel).2.
Proof.
  intros Hi Hn. unfold symlink. apply (new_entry (tmp_inv base)); [done|]. intros Hp Hk. by apply (add_node_inv base now fs rel (λ m, Symlink m target)).
Qed.

Lemma mknod_inv base now fs rel mode :
  tmp_inv base fs → next_inode fs + 1 < U64 → tmp_inv base (mknod now fs rel mode).2.
Proof.
  intros Hi Hn. unfold mknod. destruct (negb _); [done|]. apply (new_entry (tmp_inv base)); [done|]. intros Hp Hk.
  destruct (_ =? S_IFIFO); [by apply (add_node_inv base now fs rel (λ m, Fifo m (Z.land mode 0xfff)))|]. by apply add_file_inv.
Qed.

Lemma link_inv base fs old_rel new_rel :
  tmp_inv base fs → Z.of_nat (size (nodes fs)) + 1 < U32 → tmp_inv base (link fs old_rel new_rel).2.
Proof.
  intros Hi Hs. pose proof Hi as [Hw Ha]. unfold link.
  destruct (nodes fs !! old_rel) as [[m|i|m md|m t]|] eqn:Ho; try done.
  apply (new_entry (tmp_inv base)); [done|]. intros Hp Hk. apply require_parent_None in Hp.
  destruct (insert_node fs new_rel (File i)) as [r fs'] eqn:Ei.
  destruct (insert_node_spec base _ _ _ _ _ Ha Hk Ei) as [(-> & E1 & E2 & E3 & Ha')|[-> ->]]; [|done].
  destruct (w_file _ _ _ Hw _ _ Ho) as [f Hf]. rewrite E2, Hf. destruct (w_files _ _ _ Hw _ _ Hf) as (El & Hl & Em & Hc).
  pose proof (names_le_size (nodes fs) i).
  replace (wrap U32 (links f + 1)) with (links f + 1) by (unfold wrap; rewrite Z.mod_small; lia).
  split; simpl; rewrite E1, ?E3.
  - apply wf_add_name; try done; [by eapply files_next| |simpl; lia|lia].
    intros j n Hj E. destruct (w_ids _ _ _ Hw _ _ _ _ Hj Ho E) as [->|[? _]]; [|done]. by simplify_eq.
  - destruct Ha' as [A1 A2 A3]. rewrite E1, E2 in A1. split; [|done..]. rewrite A1. unfold files_cost.
    rewrite (msum_update (λ _, file_cost) _ i f _ Hf). unfold file_cost, with_links. simpl. lia.
Qed.

(** * Entries that go *)

Lemma wf_leaf fs base rel n :
  tmp_inv base fs → nodes fs !! rel = Some n → is_dir n = false → ∀ j x, nodes fs !! j = Some x → j ≠ [] → parent_of j ≠ rel.
Proof. intros [Hw _] Hn Hd j x Hj Hj0 <-. destruct (w_parent _ _ _ Hw _ _ Hj Hj0) as [m Hm]. by simplify_eq. Qed.

Lemma not_dir_not_root base fs rel n : tmp_inv base fs → nodes fs !! rel = Some n → is_dir n = false → rel ≠ [].
Proof. intros [Hw _] Hn Hd ->. destruct (w_root _ _ _ Hw). by simplify_eq. Qed.

Lemma unlink_inv base fs rel : tmp_inv base fs → tmp_inv base (unlink fs rel).2.
Proof.
  intros Hi. unfold unlink. destruct (ancestors_are_dirs fs rel); [done|].
  destruct (nodes fs !! rel) as [n|] eqn:Hn; [|done]. destruct (is_dir n) eqn:Hd; [by destruct n|].
  assert (tmp_inv base (remove_entry fs rel)) as Hg.
  { eapply remove_entry_inv; eauto; [by eapply not_dir_not_root|by eapply wf_leaf]. }
  by destruct n.
Qed.

Lemma no_children fs rel :
  existsb (child_of rel) (btree_keys (nodes fs)) = false →
  ∀ j x, nodes fs !! j = Some x → j ≠ [] → parent_of j ≠ rel.
Proof.
  intros He j x Hj Hj0 E. assert (existsb (child_of rel) (btree_keys (nodes fs)) = true) as Ht; [|congruence].
  apply existsb_exists. exists j. split; [apply list_elem_of_In, elem_of_btree_keys; eauto|].
  unfold child_of. by rewrite bool_decide_true, bool_decide_false.
Qed.

Lemma rmdir_inv base fs rel : tmp_inv base fs → rel ≠ [] → tmp_inv base (rmdir fs rel).2.
Proof.
  intros Hi Hne. unfold rmdir. destruct (ancestors_are_dirs fs rel); [done|].
  destruct (nodes fs !! rel) as [[m|i|m md|m t]|] eqn:Hn; try done.
  destruct (existsb _ _) eqn:He; [done|]. eapply remove_entry_inv; eauto. by apply no_children.
Qed.

(** * Renaming *)

Section Rename.
Context (from to : list Z) (Hft : under from to = false) (Htf : under to from = false).

Lemma len_app {A} (a b : list A) : len (a ++ b) = len a + len b.
Proof. unfold len. rewrite length_app. lia. Qed.

Lemma swap_not_from k : under from k = true → under from (swap from to k) = false.
Proof.
  intros Hk. destruct (under from (swap from to k)) eqn:E; [|done].
  pose proof (swap_under_from from to k Hk). pose proof (apart from to Hft Htf _ E). congruence.
Qed.

(** The loop over the collected keys. *)
Lemma move_fold ks fs :
  NoDup ks → (∀ k, k ∈ ks → under from k = true ∧ is_Some (nodes fs !! k) ∧ nodes fs !! swap from to k = None) →
  lsum len ks ≤ used (tq fs) → used (tq fs) + lsum (λ k, len (swap from to k)) ks < U64 →
  let fs' := foldl (move_key from to) fs ks in
  (∀ j, nodes fs' !! j = if decide (j ∈ ks) then None else
                         if decide (swap from to j ∈ ks) then nodes fs !! swap from to j else nodes fs !! j) ∧
  files fs' = files fs ∧ next_inode fs' = next_inode fs ∧
  tq fs' = mkQuota (limit (tq fs)) (used (tq fs) + lsum (λ k, len (swap from to k)) ks - lsum len ks).
Proof.
  revert fs. induction ks as [|k ks IH]; intros fs Hnd Hks Hu1 Hu2.
  { simpl. split_and!; try done. destruct (tq fs); simpl. f_equal. lia. }
  apply NoDup_cons in Hnd as [Hk Hnd]. destruct (Hks k) as (Hf & [n Hn] & Hfree); [set_solver|].
  assert (move_key from to fs k = mkTmp (<[swap from to k := n]> (delete k (nodes fs))) (files fs) (next_inode fs)
    (mkQuota (limit (tq fs)) (used (tq fs) + len (swap from to k) - len k))) as Em.
  { unfold move_key. rewrite Hn, swap_new_key by done. f_equal. rewrite give_back_spec. unfold force_charge, wrap. simpl in *.
    pose proof (len_nonneg (swap from to k)). pose proof (len_nonneg k).
    assert (0 ≤ lsum (λ k, len (swap from to k)) ks) by (apply lsum_nonneg; intros; apply len_nonneg).
    assert (0 ≤ lsum len ks) by (apply lsum_nonneg; intros; apply len_nonneg).
    rewrite Z.mod_small by lia. f_equal. lia. }
  simpl. rewrite Em. set (fs1 := mkTmp _ _ _ _).
  assert (∀ j, j ∈ ks → j ≠ k ∧ under from j = true) as Hks'.
  { intros j Hj. split; [intros ->; done|]. by apply Hks; right. }
  destruct (IH fs1) as (I1 & I2 & I3 & I4); [done| | | |].
  { intros j Hj. destruct (Hks' j Hj) as [Hne Hfj]. destruct (Hks j) as (_ & [x Hx] & Hfreej); [by right|].
    split_and!; [done| |].
    - subst fs1. simpl. exists x. rewrite lookup_insert_ne, lookup_delete_ne; [done|done|].
      intros <-. pose proof (swap_not_from _ Hf). congruence.
    - subst fs1. simpl. rewrite lookup_insert_ne by (intros E%(swap_inj from to Hft Htf); congruence).
      rewrite lookup_delete_ne; [done|]. intros ->. pose proof (swap_not_from _ Hfj). congruence. }
  { subst fs1. simpl in *. pose proof (len_nonneg (swap from to k)). lia. }
  { subst fs1. simpl in *. pose proof (len_nonneg k). lia. }
  split_and!; [|by rewrite I2|by rewrite I3|rewrite I4; subst fs1; simpl; f_equal; lia].
  intros j. rewrite I1. subst fs1. simpl. clear IH I1 I2 I3 I4 Em.
  destruct (decide (j = k)) as [->|Hjk].
  - rewrite decide_False by done. rewrite (decide_True (P := k ∈ k :: ks)) by left.
    rewrite decide_False. 2: { intros Hin. destruct (Hks' _ Hin) as [_ Hc]. by rewrite swap_not_from in Hc. }
    rewrite lookup_insert_ne; [by rewrite lookup_delete_eq|]. intros E. pose proof (swap_not_from _ Hf). congruence.
  - destruct (decide (j ∈ ks)) as [Hj|Hj]; [by rewrite decide_True by (by right)|].
    rewrite (decide_False (P := j ∈ k :: ks)) by (intros [?|?]%elem_of_cons; congruence).
    destruct (decide (swap from to j = k)) as [Ej|Ej].
    + rewrite (decide_True (P := swap from to j ∈ k :: ks)) by (rewrite Ej; left).
      rewrite decide_False by (by rewrite Ej). rewrite <- Ej, swap_invol by done. by rewrite lookup_insert_eq, Ej.
    + destruct (decide (swap from to j ∈ ks)) as [Hs|Hs].
      * rewrite (decide_True (P := swap from to j ∈ k :: ks)) by (by right).
        rewrite lookup_insert_ne. 2: { intros E. destruct (Hks' _ Hs) as [_ Hc]. rewrite <- E in Hc. by rewrite swap_not_from in Hc. }
        by rewrite lookup_delete_ne by done.
      * rewrite (decide_False (P := swap from to j ∈ k :: ks)) by (intros [?|?]%elem_of_cons; congruence).
        rewrite lookup_insert_ne by (intros <-; rewrite swap_invol in Ej by done; done). by rewrite lookup_delete_ne by done.
Qed.
End Rename.

(** Room in the counter for the names a rename charges past the limit. *)
Definition rename_room (fs : TmpFs) (to : list Z) : Prop :=
  used (tq fs) + msum (λ k _, len to + len k) (nodes fs) < U64.

Lemma elem_of_moved fs from k : k ∈ moved fs from ↔ under from k = true ∧ is_Some (nodes fs !! k).
Proof. unfold moved. rewrite list_elem_of_In, filter_In, <- list_elem_of_In, elem_of_btree_keys. unfold under. tauto. Qed.

Lemma NoDup_moved fs from : NoDup (moved fs from).
Proof. unfold moved. apply NoDup_ListNoDup, List.NoDup_filter, NoDup_ListNoDup, NoDup_btree_keys. Qed.

Section Core.
Context (base : Z) (fs : TmpFs) (from to : list Z).
Context (Hi : tmp_inv base fs) (Hf0 : from ≠ []) (Ht0 : to ≠ []).
Context (Hft : under from to = false) (Htf : under to from = false).
Context (Hto : nodes fs !! to = None) (Hpar : ∃ m, nodes fs !! parent_of to = Some (Dir m)).

Lemma none_under_to k : under to k = true → nodes fs !! k = None.
Proof.
  intros Hu. destruct (nodes fs !! k) as [n|] eqn:E; [|done]. destruct Hi as [Hw _].
  destruct (under_exists _ _ _ _ _ _ Hw E Hu) as [->|[m Hm]]; congruence.
Qed.

Lemma moved_sums :
  rename_room fs to →
  lsum len (moved fs from) ≤ used (tq fs) ∧
  used (tq fs) + lsum (λ k, len (swap from to k)) (moved fs from) < U64.
Proof.
  intros Hr. destruct Hi as [Hw [A1 A2 A3]]. split.
  - transitivity (lsum len (btree_keys (nodes fs))); [apply lsum_filter_le; intros; apply len_nonneg|].
    rewrite <- msum_keys. destruct (w_root _ _ _ Hw) as [m Hm]. pose proof (files_cost_nonneg _ _ _ Hw).
    assert (msum (λ k (_ : Node), len k) (nodes fs) + NODE_OVERHEAD ≤ nodes_cost (nodes fs)); [|lia].
    unfold nodes_cost. rewrite (msum_delete node_cost _ [] (Dir m) Hm), (msum_delete _ _ [] (Dir m) Hm).
    pose proof (node_cost_ge [] (Dir m)).
    enough (msum (λ k (_ : Node), len k) (delete [] (nodes fs)) ≤ msum node_cost (delete [] (nodes fs))) by lia.
    apply msum_le. intros k n _. pose proof (node_cost_ge k n). unfold NODE_OVERHEAD in *. lia.
  - enough (lsum (λ k, len (swap from to k)) (moved fs from) ≤ msum (λ k _, len to + len k) (nodes fs)) by (unfold rename_room in Hr; lia).
    rewrite msum_keys. etrans; [|apply (lsum_filter_le _ (λ k, bool_decide (k = from) || starts_with (from ++ [SLASH]) k))].
    2: { intros k. pose proof (len_nonneg to). pose proof (len_nonneg k). lia. }
    fold (moved fs from). pose proof (elem_of_moved fs from) as Hm. induction (moved fs from) as [|k l IH]; [done|]. simpl.
    assert (under from k = true) as (s & -> & Hs)%under_spec by (apply Hm; left).
    rewrite swap_from by done. rewrite !len_app. pose proof (len_nonneg from).
    enough (lsum (λ k, len (swap from to k)) l ≤ lsum (λ k, len to + len k) l) by lia.
    clear -Hm. assert (∀ k, k ∈ l → under from k = true) as Hl by (intros; apply Hm; by right). clear Hm.
    induction l as [|k l IH]; [done|]. simpl. assert (under from k = true) as (s' & -> & Hs')%under_spec by (apply Hl; left).
    rewrite swap_from by done. rewrite !len_app. pose proof (len_nonneg from). specialize (IH ltac:(intros; apply Hl; by right)). lia.
Qed.

(** Every name below [from] becomes the same name below [to]; nothing else changes. *)
Lemma rename_nodes :
  rename_room fs to →
  let fs' := foldl (move_key from to) fs (moved fs from) in
  (∀ j, nodes fs' !! j = nodes fs !! swap from to j) ∧ files fs' = files fs ∧ next_inode fs' = next_inode fs ∧
  tq fs' = mkQuota (limit (tq fs)) (used (tq fs) + msum (λ k _, len (swap from to k) - len k) (nodes fs)).
Proof.
  intros Hr. destruct (moved_sums Hr) as [S1 S2].
  destruct (move_fold from to Hft Htf (moved fs from) fs (NoDup_moved _ _)) as (I1 & I2 & I3 & I4); [|done|done|].
  { intros k [Hu Hs]%elem_of_moved. split_and!; [done|done|]. apply none_under_to. by apply swap_under_from. }
  split_and!; [|done|done|].
  - intros j. rewrite I1. destruct (under from j) eqn:Hj.
    + rewrite (none_under_to (swap from to j)) by (by apply swap_under_from).
      case_decide as D1; [done|]. rewrite decide_False.
      2: { intros [Hc _]%elem_of_moved. by rewrite swap_not_from in Hc. }
      destruct (nodes fs !! j) eqn:E; [|done]. destruct D1. apply elem_of_moved. eauto.
    + rewrite decide_False by (intros [Hc _]%elem_of_moved; congruence). case_decide as D2; [done|].
      destruct (under to j) eqn:Hjt; [|by rewrite swap_other].
      rewrite none_under_to by done. destruct (nodes fs !! swap from to j) eqn:E; [|done]. destruct D2.
      apply elem_of_moved. split; [|eauto]. apply under_spec in Hjt as (s & -> & Hs). rewrite swap_to by done. by apply under_app.
  - rewrite I4. f_equal. rewrite (msum_keys (λ k, len (swap from to k) - len k)).
    rewrite <- (lsum_filter (λ k, len (swap from to k) - len k) (λ k, bool_decide (k = from) || starts_with (from ++ [SLASH]) k)).
    + unfold moved. clear. induction (List.filter _ _) as [|k l IH]; simpl; lia.
    + intros k [n Hn]%elem_of_btree_keys Hu. change (under from k = false) in Hu.
      rewrite swap_other; [lia|done|]. destruct (under to k) eqn:E; [|done]. rewrite none_under_to in Hn by done. done.
Qed.

Lemma rename_kmap (ns' : gmap (list Z) Node) : (∀ j, ns' !! j = nodes fs !! swap from to j) →
  kmap (M2 := gmap (list Z)) (swap from to) (nodes fs) = ns'.
Proof.
  intros E. pose proof (swap_inj from to Hft Htf). apply map_eq. intros j. rewrite E.
  rewrite <- (swap_invol from to Hft Htf j) at 1. by rewrite (lookup_kmap (swap from to)).
Qed.

Lemma rename_core : rename_room fs to → tmp_inv base (foldl (move_key from to) fs (moved fs from)).
Proof.
  intros Hr. destruct (rename_nodes Hr) as (I1 & I2 & I3 & I4). pose proof (swap_inj from to Hft Htf) as Hinj.
  set (fs' := foldl _ _ _) in *. pose proof (rename_kmap _ I1) as Ek. pose proof Hi as [Hw Ha].
  assert (∀ j n, nodes fs' !! j = Some n → nodes fs !! swap from to j = Some n) as Hback by (intros; by rewrite <- I1).
  assert (∀ k n, nodes fs !! k = Some n → nodes fs' !! swap from to k = Some n) as Hfwd by (intros; by rewrite I1, swap_invol).
  split; [rewrite I2, I3; split|].
  - destruct (w_root _ _ _ Hw) as [m Hm]. exists m. rewrite I1, swap_other; [done|by apply under_nil..].
  - intros j n Hj Hj0. apply Hback in Hj. set (k := swap from to j) in *.
    assert (j = swap from to k) as Ej by (subst k; by rewrite swap_invol). clearbody k. subst j.
    destruct (under from k) eqn:Hu.
    + destruct (decide (k = from)) as [->|Hkf].
      * destruct Hpar as [m Hm]. exists m. rewrite swap_root, I1, swap_other; [done| |].
        -- destruct (under from (parent_of to)) eqn:E; [|done]. apply under_parent in E; [|done]. congruence.
        -- destruct (under to (parent_of to)) eqn:E; [|done]. rewrite none_under_to in Hm by done. done.
      * rewrite swap_parent by done.
        destruct (w_parent _ _ _ Hw _ _ Hj) as [m Hm]; [intros ->; by rewrite under_nil in Hu|].
        exists m. by apply Hfwd.
    + assert (under to k = false) as Hut.
      { destruct (under to k) eqn:E; [|done]. rewrite none_under_to in Hj by done. done. }
      rewrite swap_other in Hj0 |- * by done. destruct (w_parent _ _ _ Hw _ _ Hj Hj0) as [m Hm]. exists m.
      rewrite I1, swap_other; [done| |].
      * destruct (under from (parent_of k)) eqn:E; [|done]. apply under_parent in E; [|done]. congruence.
      * destruct (under to (parent_of k)) eqn:E; [|done]. apply under_parent in E; [|done]. congruence.
  - intros k1 k2 n1 n2 E1%Hback E2%Hback E. destruct (w_ids _ _ _ Hw _ _ _ _ E1 E2 E) as [?%Hinj|?]; by auto.
  - intros k i Hk%Hback. by eapply w_file.
  - intros i f Hf. destruct (w_files _ _ _ Hw _ _ Hf) as (A & B & C & D). split_and!; try done; try lia.
    rewrite A, <- Ek. unfold names. by rewrite (msum_kmap (λ _, name1 i) (swap from to)).
  - intros k n Hk%Hback. by eapply w_next.
  - destruct Ha as [A1 A2 A3]. rewrite I2, I4. split; simpl; [| |done].
    + rewrite A1, <- Ek. unfold nodes_cost. rewrite (msum_kmap node_cost (swap from to)).
      enough (msum (λ k, node_cost (swap from to k)) (nodes fs) = msum node_cost (nodes fs) + msum (λ k _, len (swap from to k) - len k) (nodes fs)) by lia.
      clear. induction (nodes fs) as [|k n m Hk IH] using map_ind; [done|]. rewrite !msum_insert by done. rewrite IH. unfold node_cost. lia.
    + assert (0 ≤ lsum len (moved fs from)) by (apply lsum_nonneg; intros; apply len_nonneg).
      destruct (moved_sums Hr) as [S1 S2]. destruct (move_fold from to Hft Htf (moved fs from) fs (NoDup_moved _ _)) as (_ & _ & _ & I4'); [|done|done|].
      { intros k [Hu Hs]%elem_of_moved. split_and!; [done|done|]. apply none_under_to. by apply swap_under_from. }
      fold fs' in I4'. rewrite I4 in I4'. injection I4' as ->. lia.
Qed.
End Core.

(** Something that exists strictly below [p] leaves [p] with a child. *)
Lemma child_exists ns fl nx p k n :
  wf ns fl nx → ns !! k = Some n → under p k = true → k ≠ p → ∃ c x, ns !! c = Some x ∧ parent_of c = p.
Proof.
  intros Hw. remember (length k) as l eqn:El. revert k n El.
  induction l as [l IH] using (well_founded_induction lt_wf). intros k n -> Hn Hu Hne.
  destruct (decide (parent_of k = p)) as [E|E]; [by exists k, n|].
  assert (k ≠ []) as Hk0. { intros ->. destruct p; [done|]. rewrite under_nil in Hu; done. }
  destruct (w_parent _ _ _ Hw _ _ Hn Hk0) as [m Hm].
  eapply IH; [|done|exact Hm|by apply parent_under|done].
  destruct (parent_cases k) as [[_ Ep]|(c & Hc & Ep)]; [rewrite Ep; by destruct k; simpl; [|lia]|].
  rewrite Ep at 2. rewrite length_app. simpl. lia.
Qed.

Lemma parent_of_ne k : k ≠ [] → parent_of k ≠ k.
Proof.
  intros Hk E. destruct (parent_cases k) as [[_ Ep]|(c & Hc & Ep)]; [congruence|].
  rewrite E in Ep. apply (f_equal length) in Ep. rewrite length_app in Ep. simpl in Ep. lia.
Qed.

(** What a rename does: nothing, or the move of one subtree onto a path freed for it. *)
Record moving (base : Z) (fs : TmpFs) (from to : list Z) (fs1 : TmpFs) : Prop := {
  mv_to : to ≠ [];
  mv_ft : under from to = false;
  mv_tf : under to from = false;
  mv_inv : tmp_inv base fs1;
  mv_nodes : nodes fs1 = delete to (nodes fs);
  mv_parent : ∃ m, nodes fs1 !! parent_of to = Some (Dir m);
  mv_fs1 : fs1 = if decide (nodes fs !! to = None) then fs else remove_entry fs to
}.

Lemma rename_cases base fs from to r fs' :
  tmp_inv base fs → rename fs from to = (r, fs') →
  (fs' = fs ∧ (r = Good tt → from = to ∨ same_file (nodes fs !! from) (nodes fs !! to) = true)) ∨
  (r = Good tt ∧ is_Some (nodes fs !! from) ∧ ∃ fs1, moving base fs from to fs1 ∧ fs' = foldl (move_key from to) fs1 (moved fs1 from)).
Proof.
  intros Hi. pose proof Hi as [Hw Ha]. unfold rename. case_bool_decide as Eft.
  { intros [= <- <-]. left. auto. }
  destruct (nodes fs !! from) as [fn|] eqn:Hfn; [|intros [= <- <-]; by left].
  destruct (same_file (Some fn) (nodes fs !! to)) eqn:Es; [intros [= <- <-]; left; auto|].
  destruct (is_dir fn && _) eqn:Ed; [intros [= <- <-]; by left|].
  destruct (require_parent fs to) as [e|] eqn:Erp; [intros [= <- <-]; by left|].
  apply require_parent_None in Erp as [mp Hmp].
  assert (under from to = false) as Hft.
  { destruct (is_dir fn) eqn:Hd; [exact Ed|]. destruct (under from to) eqn:Eu; [|done].
    apply parent_under in Eu; [|congruence]. destruct (under_exists _ _ _ _ _ _ Hw Hmp Eu) as [E|[m Hm]].
    - rewrite E in Hmp. by simplify_eq.
    - by simplify_eq. }
  destruct (nodes fs !! to) as [tn|] eqn:Htn.
  - destruct (replace_check (nodes fs) (is_dir fn) to tn) eqn:Erc; [intros [= <- <-]; by left|].
    intros [= <- <-]. right. split_and!; [done|by eexists|].
    assert (is_dir fn = true → is_dir tn = true ∧ ∀ j x, nodes fs !! j = Some x → parent_of j ≠ to) as Hdir.
    { intros Hd. rewrite Hd in Erc. destruct tn; simpl in Erc; try done. split; [done|]. intros j x Hj E.
      destruct (existsb _ _) eqn:Ex; [done|]. enough (existsb (λ k, bool_decide (parent_of k = to)) (btree_keys (nodes fs)) = true) by congruence.
      apply existsb_exists. exists j. split; [apply list_elem_of_In, elem_of_btree_keys; eauto|]. by apply bool_decide_eq_true. }
    assert (is_dir fn = false → is_dir tn = false) as Hndir.
    { intros Hd. rewrite Hd in Erc. by destruct tn. }
    assert (to ≠ []) as Ht0.
    { intros ->. destruct (is_dir fn) eqn:Hd.
      - destruct (Hdir eq_refl) as [_ Hc]. eapply Hc; [exact Htn|]. done.
      - destruct (w_root _ _ _ Hw) as [m Hm]. rewrite Hm in Htn. injection Htn as <-. by specialize (Hndir eq_refl). }
    assert (∀ j x, nodes fs !! j = Some x → j ≠ [] → parent_of j ≠ to) as Hch.
    { destruct (is_dir fn) eqn:Hd; [intros j x Hj _; by eapply Hdir|]. eapply wf_leaf; eauto. }
    destruct (remove_entry_inv base fs to tn Hi Htn Ht0 Hch) as (Hi1 & En & Enx).
    exists (remove_entry fs to). split; [|done]. split; try done.
    + destruct (under to from) eqn:Eu; [|done]. destruct (child_exists _ _ _ _ _ _ Hw Hfn Eu) as (c & x & Hc & Ep); [congruence|].
      destruct (decide (c = [])) as [->|Hc0]; [|by destruct (Hch _ _ Hc Hc0)]. destruct Ht0. done.
    + exists mp. rewrite En, lookup_delete_ne; [done|]. by apply not_eq_sym, parent_of_ne.
    + by rewrite decide_False by congruence.
  - intros [= <- <-]. right. split_and!; [done|by eexists|]. exists fs. split; [|done]. split; try done.
    + intros ->. destruct (w_root _ _ _ Hw). congruence.
    + destruct (under to from) eqn:Eu; [|done]. destruct (under_exists _ _ _ _ _ _ Hw Hfn Eu) as [?|[m Hm]]; congruence.
    + by rewrite delete_id.
    + by exists mp.
    + by rewrite decide_True.
Qed.

Lemma moving_room base fs from to fs1 : tmp_inv base fs → moving base fs from to fs1 → rename_room fs to → rename_room fs1 to.
Proof.
  intros Hi Hm Hr. pose proof Hm as [M1 M2 M3 M4 M5 M6 M7]. unfold rename_room in *. rewrite M5.
  assert (used (tq fs1) ≤ used (tq fs) ∧ msum (λ k _, len to + len k) (delete to (nodes fs)) ≤ msum (λ k _, len to + len k) (nodes fs)); [|lia].
  split.
  - rewrite M7. case_decide as D; [done|]. unfold remove_entry. destruct (nodes fs !! to) as [n|] eqn:Hn; [|done].
    pose proof (acc_used_nonneg _ _ _ _ _ (i_wf _ _ Hi) (i_acc _ _ Hi)). pose proof (node_cost_nonneg to n).
    destruct (is_reg n) eqn:Hreg; [|destruct n; try done; simpl; rewrite give_back_spec; simpl; lia].
    destruct n as [|i| |]; try done. simpl. destruct (files fs !! i) as [f|] eqn:Hf; simpl; [|rewrite give_back_spec; simpl; lia].
    pose proof (file_cost_nonneg _ _ _ (w_files _ _ _ (i_wf _ _ Hi) _ _ Hf)).
    case_match; simpl; [|rewrite give_back_spec; simpl; lia]. unfold drop_file. simpl. rewrite lookup_insert_eq. simpl.
    change (file_cost (with_links f (wrap U32 (links f - 1)))) with (file_cost f). rewrite !give_back_spec. simpl. lia.
  - destruct (nodes fs !! to) as [n|] eqn:Hn; [|by rewrite delete_id].
    rewrite (msum_delete (λ k _, len to + len k) _ to n Hn). pose proof (len_nonneg to). lia.
Qed.

Lemma rename_inv base fs from to :
  tmp_inv base fs → from ≠ [] → rename_room fs to → tmp_inv base (rename fs from to).2.
Proof.
  intros Hi Hf Hr. destruct (rename fs from to) as [r fs'] eqn:E.
  destruct (rename_cases _ _ _ _ _ _ Hi E) as [[-> _]|(-> & _ & fs1 & Hm & ->)]; [done|].
  pose proof Hm as [M1 M2 M3 M4 M5 M6 M7]. apply rename_core; try done.
  - by rewrite M5, lookup_delete_eq.
  - exact (moving_room _ _ _ _ _ Hi Hm Hr).
Qed.
