(* ===== verification/TmpfsSpec.v ===== *)
(** What the in-memory file system promises: runs of its operations keep the tree and the accounts;
    a file reads back what was written through any of its names; a rename moves a subtree; an
    operation that fails changes nothing. *)
From S2P Require Import Prelude Abi Quota Path Vfs Tmpfs TmpfsPath TmpfsInv.
From stdpp Require Import base numbers gmap relations list sorting.
Local Open Scope Z_scope.

(** * Runs *)

Section Runs.
Context `{Allocator}.

Inductive Op :=
  | OWrite (now : Z) (rel : list Z) (off : Z) (buf : list Z)
  | OCreate (now : Z) (rel : list Z) (mode : Z)
  | OMkdir (now : Z) (rel : list Z) (mode : Z)
  | OMknod (now : Z) (rel : list Z) (mode : Z)
  | OUnlink (rel : list Z)
  | ORmdir (rel : list Z)
  | OTruncate (now : Z) (rel : list Z) (n : Z)
  | OSetMode (rel : list Z) (mode : Z)
  | OSetTimes (now : Z) (rel : list Z) (a t : SetTime)
  | OSetOwner (rel : list Z) (u g : option Z)
  | OSetxattr (rel name value : list Z)
  | ORemovexattr (rel name : list Z)
  | OSymlink (now : Z) (target rel : list Z)
  | OLink (old_rel new_rel : list Z)
  | ORename (from to : list Z).

(** The error, if any, and the state after it. *)
Definition outcome {A} (r : io A * TmpFs) : option Z * TmpFs :=
  (match r.1 with Good _ => None | Bad e => Some e end, r.2).
Definition exec (fs : TmpFs) (o : Op) : option Z * TmpFs :=
  match o with
  | OWrite now rel off buf => outcome (write_at now fs rel off buf)
  | OCreate now rel mode => outcome (create now fs rel mode)
  | OMkdir now rel mode => outcome (mkdir now fs rel mode)
  | OMknod now rel mode => outcome (mknod now fs rel mode)
  | OUnlink rel => outcome (unlink fs rel)
  | ORmdir rel => outcome (rmdir fs rel)
  | OTruncate now rel n => outcome (truncate now fs rel n)
  | OSetMode rel mode => outcome (set_mode fs rel mode)
  | OSetTimes now rel a t => outcome (set_times now fs rel a t)
  | OSetOwner rel u g => outcome (set_owner fs rel u g)
  | OSetxattr rel name value => outcome (setxattr fs rel name value)
  | ORemovexattr rel name => outcome (removexattr fs rel name)
  | OSymlink now target rel => outcome (symlink now fs target rel)
  | OLink o n => outcome (link fs o n)
  | ORename from to => outcome (rename fs from to)
  end.

(** Arguments of their types, and counters that have not run out: the quota's below 2^63 where a
    file grows, the inode counter below 2^64, links below 2^32. *)
Definition op_ok (fs : TmpFs) (o : Op) : Prop :=
  match o with
  | OWrite _ _ off _ => 0 ≤ off ∧ used (tq fs) ≤ 2 ^ 63
  | OTruncate _ _ n => 0 ≤ n ∧ used (tq fs) ≤ 2 ^ 63
  | OCreate _ _ _ | OMkdir _ _ _ | OMknod _ _ _ | OSymlink _ _ _ => next_inode fs + 1 < U64
  | OLink _ _ => Z.of_nat (size (nodes fs)) + 1 < U32
  | ORename from to => rename_room fs to
  | _ => True
  end.

(** The operations that take the root itself away: [rmdir] and [rename] of the empty path, which a
    mount point hands them, are not refused. *)
Definition takes_root (o : Op) (r : option Z) : bool :=
  match o, r with
  | ORmdir [], None | ORename [] _, None => true
  | _, _ => false
  end.

Lemma rmdir_root_refused fs : (outcome (rmdir fs [])).1 ≠ None → (rmdir fs []).2 = fs.
Proof. unfold rmdir, outcome. repeat case_match; simpl; try done. Qed.

Lemma exec_inv base fs o :
  tmp_inv base fs → op_ok fs o → takes_root o (exec fs o).1 = false → tmp_inv base (exec fs o).2.
Proof.
  intros Hi Ho Hr. destruct o; simpl in *.
  - apply write_at_inv; tauto.
  - by apply create_inv.
  - by apply mkdir_inv.
  - by apply mknod_inv.
  - by apply unlink_inv.
  - destruct rel as [|c rel]; [|by apply rmdir_inv]. rewrite rmdir_root_refused; [done|].
    intros E. unfold outcome in E. simpl in E. by rewrite E in Hr.
  - apply truncate_inv; tauto.
  - by apply set_mode_inv.
  - by apply set_times_inv.
  - by apply set_owner_inv.
  - by apply setxattr_inv.
  - by apply removexattr_inv.
  - by apply symlink_inv.
  - by apply link_inv.
  - destruct from as [|c from]; [|by apply rename_inv]. destruct (rename fs [] to) as [[u|e] fs'] eqn:E; simpl in *; [done|].
    by destruct (rename_cases _ _ _ _ _ _ Hi E) as [[-> _]|(? & _)].
Qed.

(** A file system, what others have charged to its quota, and whether an operation has taken its
    root away. *)
Record TmpState := mkTS { t_fs : TmpFs; t_base : Z; t_rootless : bool }.

(** The file system works, the rest of the kernel charges, releases or changes the limit, or the
    file system is attached to another quota or again to its own. *)
Inductive tstep : TmpState → TmpState → Prop :=
  | ts_op s o :
      op_ok (t_fs s) o →
      tstep s (mkTS (exec (t_fs s) o).2 (t_base s) (t_rootless s || takes_root o (exec (t_fs s) o).1))
  | ts_others s b l :
      0 ≤ b → used (tq (t_fs s)) - t_base s + b < U64 →
      tstep s (mkTS (with_tq (t_fs s) (mkQuota l (used (tq (t_fs s)) - t_base s + b))) b (t_rootless s))
  | ts_attach s q :
      0 ≤ used q → used q + nodes_cost (nodes (t_fs s)) + files_cost (files (t_fs s)) < U64 →
      tstep s (mkTS (attach_quota (t_fs s) (Some q)).1 (used q) (t_rootless s))
  | ts_again s : 0 ≤ t_base s → tstep s (mkTS (attach_quota (t_fs s) None).1 (t_base s) (t_rootless s)).

Lemma files_cost_list fl : files_cost fl = lsum file_cost (map_to_list fl).*2.
Proof. unfold files_cost. rewrite msum_list. induction (map_to_list fl) as [|[i f] l IH]; simpl; [done|]. by rewrite IH. Qed.

Lemma attach_new_inv base fs q :
  tmp_inv base fs → 0 ≤ used q → used q + nodes_cost (nodes fs) + files_cost (files fs) < U64 →
  tmp_inv (used q) (attach_quota fs (Some q)).1.
Proof.
  intros [Hw Ha] Hq Hu. split; [done|]. simpl.
  assert (∀ fl q, Forall (λ f, 0 ≤ file_cost f) fl → 0 ≤ used q → used q + lsum file_cost fl < U64 →
    foldl (λ q f, force_charge q (file_cost f)) q fl = mkQuota (limit q) (used q + lsum file_cost fl)) as Hfold.
  { clear. induction fl as [|f fl IH]; intros q Hf H0 Hq; simpl; [destruct q; simpl; f_equal; lia|]. simpl in Hq.
    apply Forall_cons in Hf as [Hf Hfl].
    assert (0 ≤ lsum file_cost fl) by (apply lsum_nonneg; intros; by eapply Forall_forall in Hfl).
    unfold force_charge at 2, wrap. rewrite Z.mod_small by lia. rewrite IH; simpl; [f_equal; lia|done|lia|lia]. }
  rewrite files_cost_list in Hu. pose proof (nodes_cost_nonneg (nodes fs)).
  assert (Forall (λ f, 0 ≤ file_cost f) (map_to_list (files fs)).*2) as Hfl.
  { apply Forall_fmap, Forall_forall. intros [i f] Hin%elem_of_map_to_list. by eapply file_cost_nonneg, w_files. }
  assert (0 ≤ lsum file_cost (map_to_list (files fs)).*2) by (apply lsum_nonneg; intros; by eapply Forall_forall in Hfl).
  assert (force_charge q (nodes_cost (nodes fs)) = mkQuota (limit q) (used q + nodes_cost (nodes fs))) as ->.
  { unfold force_charge, wrap. rewrite Z.mod_small; [done|]. lia. }
  rewrite Hfold; simpl; [|done|lia|lia].
  split; simpl; [rewrite files_cost_list; lia|lia|]. unfold NODE_OVERHEAD. lia.
Qed.

(** Releasing and charging again what is held leaves the counter as it was. *)
Lemma release_charge q c : 0 ≤ c ≤ used q → used q < U64 → force_charge (give_back q c) c = q.
Proof.
  intros Hc Hu. rewrite give_back_spec. unfold force_charge, wrap. simpl. destruct q as [l u]. simpl in *.
  rewrite Z.mod_small by lia. f_equal. lia.
Qed.

Lemma attach_again base fs : tmp_inv base fs → 0 ≤ base → (attach_quota fs None).1 = fs.
Proof.
  intros [Hw [A1 A2 A3]] Hb. unfold attach_quota. simpl.
  pose proof (nodes_cost_nonneg (nodes fs)) as Hn. pose proof (files_cost_nonneg _ _ _ Hw) as Hf.
  rewrite release_charge by lia.
  assert (∀ fl, Forall (λ f, 0 ≤ file_cost f ≤ used (tq fs)) fl →
    foldl (λ q f, force_charge (give_back q (file_cost f)) (file_cost f)) (tq fs) fl = tq fs) as Hfold.
  { induction 1 as [|f fl Hx _ IH]; simpl; [done|]. rewrite release_charge by lia. done. }
  rewrite Hfold; [by destruct fs|]. apply Forall_fmap, Forall_forall. intros [i f] Hin%elem_of_map_to_list. simpl.
  split; [by eapply file_cost_nonneg, w_files|].
  enough (file_cost f ≤ files_cost (files fs)) by lia.
  apply (msum_lookup_le (λ _, file_cost)) with (k := i); [|done]. intros j g Hg. by eapply file_cost_nonneg, w_files.
Qed.

Definition rooted_inv (s : TmpState) : Prop := t_rootless s = false → tmp_inv (t_base s) (t_fs s).
Lemma tstep_inv s s' : tstep s s' → rooted_inv s → rooted_inv s'.
Proof.
  intros Hs Hi. unfold rooted_inv in *. destruct Hs as [s o Ho|s b l Hb Hu|s q Hq Hu|s Hb]; cbn [t_fs t_base t_rootless];
    [intros [Hr1 Hr2]%orb_false_iff; specialize (Hi Hr1)|intros Hr; specialize (Hi Hr)..].
  - by apply exec_inv.
  - destruct Hi as [Hw [A1 A2 A3]]. split; [done|]. split; simpl; [lia|done|unfold NODE_OVERHEAD; lia].
  - by eapply attach_new_inv.
  - by erewrite attach_again.
Qed.

Definition tmp_start : TmpState := mkTS tmpfs_new (- NODE_OVERHEAD) false.

Lemma start_tmp_inv : tmp_inv (t_base tmp_start) (t_fs tmp_start).
Proof.
  split; simpl.
  - split.
    + eexists. by rewrite lookup_singleton_eq.
    + intros k n [<- <-]%lookup_singleton_Some. done.
    + intros k1 k2 n1 n2 [<- <-]%lookup_singleton_Some [<- <-]%lookup_singleton_Some. by left.
    + intros k i [<- ?]%lookup_singleton_Some. done.
    + done.
    + intros k n [<- <-]%lookup_singleton_Some. done.
  - split; [|done..]. vm_compute. done.
Qed.

Lemma truns_inv s s' : rtc tstep s s' → rooted_inv s → rooted_inv s'.
Proof. induction 1 as [|s s1 s' Hs _ IH]; [done|]. intros Hi. by eapply IH, tstep_inv. Qed.

(** * Reading back *)

Lemma lookup_resize_cases n l (p : nat) :
  0 ≤ n → vec_resize n l !! p = if decide (Z.of_nat p < n) then Some (default 0 (l !! p)) else None.
Proof.
  intros Hn. unfold vec_resize. case_decide as D.
  - destruct (decide (p < length l)%nat) as [Hp|Hp].
    + destruct (lookup_lt_is_Some_2 l p Hp) as [x Hx]. rewrite Hx. simpl. rewrite lookup_resize by lia. done.
    + rewrite lookup_resize_new by lia. by rewrite lookup_ge_None_2 by lia.
  - apply lookup_resize_old. lia.
Qed.

(** What a write leaves in the buffer: the bytes written, the old bytes elsewhere, zeros between. *)
Lemma write_bytes (d buf : list Z) off end_ (p : nat) :
  0 ≤ off → end_ = off + len buf →
  list_inserts (Z.to_nat (end_ - len buf)) buf (if len d <? end_ then vec_resize end_ d else d) !! p
  = (if decide (off ≤ Z.of_nat p < end_) then buf !! (p - Z.to_nat off)%nat
     else if decide (Z.of_nat p < len d) then d !! p
     else if decide (Z.of_nat p < end_) then Some 0 else None).
Proof.
  intros Hoff ->. replace (off + len buf - len buf) with off by lia. pose proof (len_nonneg buf). pose proof (len_nonneg d).
  set (d' := if _ <? _ then _ else _).
  assert (len d' = Z.max (len d) (off + len buf)) as Ed'.
  { subst d'. destruct (Z.ltb_spec (len d) (off + len buf)); [rewrite len_resize; lia|lia]. }
  assert (∀ q, d' !! q = if decide (Z.of_nat q < len d) then d !! q else if decide (Z.of_nat q < off + len buf) then Some 0 else None) as Hd'.
  { intros q. subst d'. destruct (Z.ltb_spec (len d) (off + len buf)) as [Hlt|Hge].
    - rewrite lookup_resize_cases by lia. repeat case_decide; try lia; try done.
      + destruct (lookup_lt_is_Some_2 d q) as [x ->]; [unfold len in *; lia|done].
      + by rewrite lookup_ge_None_2 by (unfold len in *; lia).
    - repeat case_decide; try lia; try done. apply lookup_ge_None_2. unfold len in *. lia. }
  case_decide as D1.
  - rewrite list_lookup_inserts; [done|unfold len in *; lia..].
  - destruct (decide (Z.of_nat p < off)) as [Hlt|Hge].
    + rewrite list_lookup_inserts_lt by lia. apply Hd'.
    + rewrite list_lookup_inserts_ge by (unfold len in *; lia). apply Hd'.
Qed.

(** A successful write, taken apart. *)
Lemma write_at_good base now fs rel off buf n fs' :
  tmp_inv base fs → 0 ≤ off → used (tq fs) ≤ 2 ^ 63 → write_at now fs rel off buf = (Good n, fs') →
  n = len buf ∧ off + len buf ≤ MAX_FILE_SIZE ∧ nodes fs' = nodes fs ∧
  ∃ i f f', nodes fs !! rel = Some (File i) ∧ files fs !! i = Some f ∧ files fs' = <[i := f']> (files fs) ∧
    links f' = links f ∧ fmode f' = fmode f ∧
    data f' = list_inserts (Z.to_nat (off + len buf - len buf)) buf
                (if len (data f) <? off + len buf then vec_resize (off + len buf) (data f) else data f).
Proof.
  intros Hi Hoff Hu. pose proof Hi as [Hw Ha]. unfold write_at.
  destruct (nodes fs !! rel) as [[m|i|m md|m t]|] eqn:Hn; try done.
  destruct (files fs !! i) as [f|] eqn:Hf; [|done].
  unfold checked_add64. destruct (off + len buf <? U64); [|done].
  destruct (Z.ltb_spec MAX_FILE_SIZE (off + len buf)) as [|Hend]; [done|].
  destruct (w_files _ _ _ Hw _ _ Hf) as (El & Hl & Ei & Hcap).
  pose proof (acc_used_nonneg _ _ _ _ _ Hw Ha) as Hu0. pose proof (len_nonneg (data f)) as Hd.
  destruct (len (data f) <? off + len buf) eqn:Hlt.
  - destruct (grow_file f (tq fs) (off + len buf)) as [g q] eqn:Eg.
    destruct (grow_file_spec f (tq fs) _ _ _ ltac:(lia) ltac:(lia) Eg) as [[-> ->]|(c & -> & Hc1 & Hc2 & ->)]; [done|].
    intros [= <- <-]. split_and!; [done|done|done|]. eexists i, f, _. split_and!; [done|done|done|done|done|]. simpl. by rewrite Hlt.
  - intros [= <- <-]. split_and!; [done|done|done|]. eexists i, f, _. split_and!; [done|done|done|done|done|]. simpl. by rewrite Hlt.
Qed.

(** C33: a file reads back what was written, through any of its names. A write that succeeds writes the
    whole buffer; reading the range back through any name of the same inode gives exactly those bytes;
    every other byte of the file is the byte it was, the gap a write past the end leaves reads as zeros
    and the size is the larger of the old one and the end of the write; names and other files are untouched. *)
Theorem tmpfs_write_read base now fs a b i off buf n fs' :
  tmp_inv base fs → 0 ≤ off → used (tq fs) ≤ 2 ^ 63 →
  nodes fs !! a = Some (File i) → nodes fs !! b = Some (File i) →
  write_at now fs a off buf = (Good n, fs') →
  n = len buf ∧ read_at fs' b off (len buf) = Good buf ∧
  (∃ f f', files fs !! i = Some f ∧ files fs' !! i = Some f' ∧
     len (data f') = Z.max (len (data f)) (off + len buf) ∧
     ∀ p : nat, data f' !! p =
       (if decide (off ≤ Z.of_nat p < off + len buf) then buf !! (p - Z.to_nat off)%nat
        else if decide (Z.of_nat p < len (data f)) then data f !! p
        else if decide (Z.of_nat p < off + len buf) then Some 0 else None)) ∧
  nodes fs' = nodes fs ∧ ∀ j, j ≠ i → files fs' !! j = files fs !! j.
Proof.
  intros Hi Hoff Hu Ha Hb Hwr. pose proof (len_nonneg buf) as Hlb.
  destruct (write_at_good _ _ _ _ _ _ _ _ Hi Hoff Hu Hwr) as (-> & Hmax & En & i' & f & f' & Ha' & Hf & Ef & El & _ & Ed).
  rewrite Ha in Ha'. injection Ha' as <-.
  assert (len (data f') = Z.max (len (data f)) (off + len buf)) as Elen.
  { rewrite Ed. unfold len at 1. rewrite length_inserts.
    destruct (Z.ltb_spec (len (data f)) (off + len buf)); [|unfold len in *; lia].
    change (len (vec_resize (off + len buf) (data f)) = Z.max (len (data f)) (off + len buf)). rewrite len_resize; lia. }
  assert (∀ p : nat, data f' !! p = (if decide (off ≤ Z.of_nat p < off + len buf) then buf !! (p - Z.to_nat off)%nat
        else if decide (Z.of_nat p < len (data f)) then data f !! p
        else if decide (Z.of_nat p < off + len buf) then Some 0 else None)) as Hbytes.
  { intros p. rewrite Ed. by apply write_bytes. }
  split_and!; [done| | |done|].
  - unfold read_at. rewrite En, Hb, Ef, lookup_insert_eq. rewrite Elen.
    destruct (Z.leb_spec (Z.max (len (data f)) (off + len buf)) off).
    + assert (len buf = 0) by lia. unfold len in *. by destruct buf.
    + f_equal. rewrite Z.min_l by lia. apply list_eq. intros p.
      destruct (decide (p < length buf)%nat) as [Hp|Hp].
      * rewrite lookup_take_lt by (unfold len in *; lia). rewrite lookup_drop, Hbytes.
        rewrite decide_True by (unfold len in *; lia). f_equal. lia.
      * rewrite lookup_take_ge by (unfold len in *; lia). by rewrite lookup_ge_None_2 by lia.
  - exists f, f'. split_and!; [done|by rewrite Ef, lookup_insert_eq|done|done].
  - intros j Hj. by rewrite Ef, lookup_insert_ne.
Qed.

(** * Failures *)

(** The same file system, but for the next inode number. *)
Definition unchanged (fs fs' : TmpFs) : Prop := nodes fs' = nodes fs ∧ files fs' = files fs ∧ tq fs' = tq fs.

Lemma unchanged_refl fs : unchanged fs fs.
Proof. done. Qed.

Lemma with_tq_same fs : unchanged fs (with_tq fs (tq fs)).
Proof. done. Qed.

Lemma charge_false q b q' : charge q b = (false, q') → q' = q.
Proof. rewrite charge_spec. case_decide; congruence. Qed.

Lemma insert_node_bad fs rel n e fs' : insert_node fs rel n = (Bad e, fs') → unchanged fs fs'.
Proof.
  unfold insert_node. destruct (charge _ _) as [[] q] eqn:E; [done|]. apply charge_false in E as ->. by intros [= _ <-].
Qed.

Lemma outcome_bad {A} (r : io A * TmpFs) e fs' : outcome r = (Some e, fs') → r = (Bad e, fs').
Proof. destruct r as [[] ?]; unfold outcome; simpl; congruence. Qed.

Lemma new_entry_bad {A} (P : io A * TmpFs → Prop) fs rel (body : io A * TmpFs) :
  (∀ e, P (Bad e, fs)) → (require_parent fs rel = None → nodes fs !! rel = None → P body) →
  P (match require_parent fs rel with
     | Some e => (Bad e, fs)
     | None => if bool_decide (is_Some (nodes fs !! rel)) then (Bad EEXIST, fs) else body
     end).
Proof.
  intros HP Hb. destruct (require_parent fs rel); [done|]. case_bool_decide as E; [done|].
  apply Hb; [done|]. by apply eq_None_not_Some.
Qed.

Definition atomic {A} (fs : TmpFs) (r : io A * TmpFs) : Prop := ∀ e fs', r = (Bad e, fs') → unchanged fs fs'.

Lemma atomic_bad {A} fs e : atomic (A := A) fs (Bad e, fs).
Proof. by intros e' fs' [= _ <-]. Qed.
Lemma atomic_good {A} fs (a : A) fs' : atomic fs (Good a, fs').
Proof. by intros e' fs''. Qed.
Hint Resolve atomic_bad atomic_good : core.

Lemma atomic_add_node now fs rel (mk : Meta → Node) :
  atomic fs (let '(m, fs) := new_meta now fs in insert_node fs rel (mk m)).
Proof. intros e fs' E. by apply insert_node_bad in E. Qed.

Lemma atomic_add_file base now fs rel mode :
  tmp_inv base fs →
  atomic fs (let '(ino, fs) := new_file now fs mode in
             match insert_node fs rel (File ino) with (Bad e, fs) => (Bad e, drop_file fs ino) | r => r end).
Proof.
  intros [Hw Ha] e fs'. unfold new_file, new_meta, alloc_inode. cbn [inode].
  destruct (insert_node _ rel _) as [[] fs2] eqn:Ei; [done|]. intros [= -> <-].
  apply insert_node_bad in Ei as (E1 & E2 & E3). simpl in *.
  unfold drop_file. rewrite E2, lookup_insert_eq. unfold unchanged. simpl.
  rewrite E1, E3, delete_insert_id by (by eapply fresh_ino). split_and!; try done.
  unfold file_cost, xattr_cost. simpl. rewrite msum_empty, give_back_spec.
  pose proof (acc_used_nonneg _ _ _ _ _ Hw Ha). destruct (tq fs); simpl in *. f_equal. lia.
Qed.

Lemma atomic_write base now fs rel off buf :
  tmp_inv base fs → used (tq fs) ≤ 2 ^ 63 → atomic fs (write_at now fs rel off buf).
Proof.
  intros [Hw Ha] Hu. unfold write_at. destruct (nodes fs !! rel) as [[m|i|m md|m t]|]; auto.
  destruct (files fs !! i) as [f|] eqn:Hf; auto. destruct (checked_add64 _ _) as [end_|]; auto. destruct (_ <? end_); auto.
  destruct (w_files _ _ _ Hw _ _ Hf) as (El & Hl & Ei & Hcap).
  pose proof (acc_used_nonneg _ _ _ _ _ Hw Ha) as Hu0. pose proof (len_nonneg (data f)) as Hd.
  destruct (_ <? end_); auto. destruct (grow_file f (tq fs) end_) as [g q] eqn:Eg.
  destruct (grow_file_spec f (tq fs) _ _ _ ltac:(lia) ltac:(lia) Eg) as [[-> ->]|(c & -> & _)]; auto.
  intros e fs' [= _ <-]. apply with_tq_same.
Qed.

Lemma atomic_truncate base now fs rel n :
  tmp_inv base fs → used (tq fs) ≤ 2 ^ 63 → atomic fs (truncate now fs rel n).
Proof.
  intros [Hw Ha] Hu. unfold truncate. destruct (nodes fs !! rel) as [[m|i|m md|m t]|]; auto.
  destruct (files fs !! i) as [f|] eqn:Hf; auto. destruct (_ <? n); auto.
  destruct (w_files _ _ _ Hw _ _ Hf) as (El & Hl & Ei & Hcap).
  pose proof (acc_used_nonneg _ _ _ _ _ Hw Ha) as Hu0. pose proof (len_nonneg (data f)) as Hd.
  destruct (capacity f <? n).
  - destruct (grow_file f (tq fs) n) as [g q] eqn:Eg.
    destruct (grow_file_spec f (tq fs) _ _ _ ltac:(lia) ltac:(lia) Eg) as [[-> ->]|(c & -> & _)].
    + intros e fs' [= _ <-]. apply with_tq_same.
    + cbv beta iota zeta. destruct (_ <? _); auto.
  - cbv beta iota zeta. destruct (_ <? _); auto.
Qed.

Lemma atomic_rename base fs from to : tmp_inv base fs → atomic fs (rename fs from to).
Proof.
  intros Hi e fs' E. destruct (rename_cases _ _ _ _ _ _ Hi E) as [[-> _]|(? & _)]; [apply unchanged_refl|done].
Qed.

(** C34: an operation that fails changes nothing. Whatever the operation and whatever the error (no space,
    a missing or wrong parent, an existing name, a non-empty directory, a directory moved into itself),
    the names, the files with their contents and attributes, and the quota are as before; not even a
    file that was made for a name that did not fit is left behind. *)
Theorem tmpfs_failure_atomic base fs o e fs' :
  tmp_inv base fs → op_ok fs o → exec fs o = (Some e, fs') →
  nodes fs' = nodes fs ∧ files fs' = files fs ∧ tq fs' = tq fs.
Proof.
  intros Hi Ho He. change (unchanged fs fs'). destruct o; simpl in He, Ho; apply outcome_bad in He; revert He; revert e fs'.
  - eapply (atomic_write base); [done|tauto].
  - apply (new_entry_bad (atomic fs)); [by auto|]. intros _ _. by eapply atomic_add_file.
  - apply (new_entry_bad (atomic fs)); [by auto|]. intros _ _. apply atomic_add_node.
  - change (atomic fs (mknod now fs rel mode)). unfold mknod. destruct (negb _); [by auto|].
    apply (new_entry_bad (atomic fs)); [by auto|]. intros _ _. destruct (_ =? S_IFIFO).
    + apply (atomic_add_node now fs rel (λ m, Fifo m (Z.land mode 0xfff))).
    + by eapply atomic_add_file.
  - change (atomic fs (unlink fs rel)). unfold unlink. repeat case_match; auto.
  - change (atomic fs (rmdir fs rel)). unfold rmdir. repeat case_match; auto.
  - eapply (atomic_truncate base); [done|tauto].
  - change (atomic fs (set_mode fs rel mode)). unfold set_mode. repeat case_match; auto.
  - change (atomic fs (set_times now fs rel a t)). unfold set_times. repeat case_match; auto.
  - change (atomic fs (set_owner fs rel u g)). unfold set_owner. repeat case_match; auto.
  - change (atomic fs (setxattr fs rel name value)). unfold setxattr. destruct (meta_of fs rel); auto.
    destruct (charge _ _) as [[] q] eqn:E; auto. apply charge_false in E as ->. intros e fs' [= _ <-]. apply with_tq_same.
  - change (atomic fs (removexattr fs rel name)). unfold removexattr. repeat case_match; auto.
  - apply (new_entry_bad (atomic fs)); [by auto|]. intros _ _. apply (atomic_add_node now fs rel (λ m, Symlink m target)).
  - change (atomic fs (link fs old_rel new_rel)). unfold link. destruct (nodes fs !! old_rel) as [[]|]; auto.
    apply (new_entry_bad (atomic fs)); [by auto|]. intros _ _. destruct (insert_node _ _ _) as [[] fs2] eqn:E; auto.
    apply insert_node_bad in E. by intros e' fs' [= _ <-].
  - by eapply atomic_rename.
Qed.

(** * Renaming *)

(** C12: a rename moves a subtree. When a rename of anything but the root itself succeeds with two different
    names of different files, and the quota's counter does not overflow, everything
    at and below the new name is what was at and below the old one, nothing is left under the old name, and
    every other path names what it named. No file's contents or attributes change: a regular file that stood
    at the new name loses that name, and goes if it was its last. *)
Theorem tmpfs_rename_moves base fs from to fs' :
  tmp_inv base fs → from ≠ [] → rename_room fs to → rename fs from to = (Good tt, fs') →
  from ≠ to → same_file (nodes fs !! from) (nodes fs !! to) = false →
  (∀ s, subpath s → nodes fs' !! (to ++ s) = nodes fs !! (from ++ s)) ∧
  (∀ s, subpath s → nodes fs' !! (from ++ s) = None) ∧
  (∀ k, under from k = false → under to k = false → nodes fs' !! k = nodes fs !! k) ∧
  (∀ i f, files fs !! i = Some f →
     files fs' !! i = if same_file (nodes fs !! to) (Some (File i))
                      then (if decide (links f = 1) then None else Some (with_links f (links f - 1)))
                      else Some f).
Proof.
  intros Hi Hf Hr E Hne Hs. pose proof Hi as [Hw _].
  destruct (rename_cases _ _ _ _ _ _ Hi E) as [[_ Hg]|(_ & [fn Hfn] & fs1 & Hm & ->)].
  { destruct (Hg eq_refl); congruence. }
  pose proof Hm as [M1 M2 M3 M4 M5 M6 M7].
  assert (nodes fs1 !! to = None) as Hto by (by rewrite M5, lookup_delete_eq).
  destruct (rename_nodes base fs1 from to M4 M2 M3 Hto (moving_room _ _ _ _ _ Hi Hm Hr)) as (I1 & I2 & _ & _).
  split_and!.
  - intros s Hs'. rewrite I1, swap_to, M5 by done. rewrite lookup_delete_ne; [done|].
    intros ->. by rewrite under_app in M2.
  - intros s Hs'. rewrite I1, swap_from by done. eapply none_under_to; [done|done|]. by apply under_app.
  - intros k Hk1 Hk2. rewrite I1, swap_other, M5 by done. rewrite lookup_delete_ne; [done|].
    intros <-. by rewrite under_refl in Hk2.
  - intros i f Hfi. rewrite I2, M7. destruct (w_files _ _ _ Hw _ _ Hfi) as (El & Hl & _).
    destruct (decide (nodes fs !! to = None)) as [D|D]; [by rewrite D|].
    unfold remove_entry. destruct (nodes fs !! to) as [n|] eqn:Hn; [|done].
    destruct (is_reg n) eqn:Hreg; [|by destruct n].
    destruct n as [|j| |]; try done. simpl. destruct (w_file _ _ _ Hw _ _ Hn) as [g Hg]. rewrite Hg.
    destruct (w_files _ _ _ Hw _ _ Hg) as (El' & Hl' & _).
    replace (wrap U32 (links g - 1)) with (links g - 1) by (unfold wrap; rewrite Z.mod_small; lia).
    destruct (Z.eqb_spec j i) as [->|Hij].
    + rewrite Hfi in Hg. injection Hg as <-. destruct (Z.eqb_spec (links f - 1) 0).
      * rewrite decide_True by lia. unfold drop_file. simpl. rewrite lookup_insert_eq. simpl. by rewrite lookup_delete_eq.
      * rewrite decide_False by lia. simpl. by rewrite lookup_insert_eq.
    + destruct (links g - 1 =? 0).
      * unfold drop_file. simpl. rewrite lookup_insert_eq. simpl. by rewrite lookup_delete_ne, lookup_insert_ne.
      * simpl. by rewrite lookup_insert_ne.
Qed.

(** * The invariant *)

(** C4: the tree of names, the link counts and the accounts. In every run of operations whose counters do not
    overflow, with other parts of the kernel charging and releasing the shared quota in between and the file
    system attached to one quota after another, as long as no [rmdir] or [rename] of the root itself has
    succeeded ([rmdir_root_removes_it]): the root is a directory and every
    other name is in a directory that exists; an inode number identifies one node, or one regular file with several names; a regular file exists exactly as
    long as it has names and [st_nlink] counts them; its buffer holds its data; and the quota holds exactly
    what everyone else charged plus the cost of what the file system holds. *)
Theorem tmpfs_invariant s :
  rtc tstep tmp_start s → t_rootless s = false →
  let fs := t_fs s in
  (∃ m, nodes fs !! [] = Some (Dir m)) ∧
  (∀ k n, nodes fs !! k = Some n → k ≠ [] → ∃ m, nodes fs !! parent_of k = Some (Dir m)) ∧
  (∀ k1 k2 n1 n2, nodes fs !! k1 = Some n1 → nodes fs !! k2 = Some n2 → node_ino n1 = node_ino n2 →
     k1 = k2 ∨ is_reg n1 = true ∧ is_reg n2 = true) ∧
  (∀ i, is_Some (files fs !! i) ↔ ∃ k, nodes fs !! k = Some (File i)) ∧
  (∀ i f, files fs !! i = Some f → links f = names (nodes fs) i ∧ len (data f) ≤ capacity f) ∧
  used (tq fs) = t_base s + nodes_cost (nodes fs) + files_cost (files fs).
Proof.
  intros Hr Hroot. destruct (truns_inv _ _ Hr (λ _, start_tmp_inv) Hroot) as [Hw [A1 A2 A3]]. simpl. split_and!.
  - apply (w_root _ _ _ Hw).
  - apply (w_parent _ _ _ Hw).
  - apply (w_ids _ _ _ Hw).
  - intros i. split.
    + intros [f Hf]. destruct (w_files _ _ _ Hw _ _ Hf) as (El & Hl & _). apply names_pos. lia.
    + intros [k Hk]. by eapply w_file.
  - intros i f Hf. destruct (w_files _ _ _ Hw _ _ Hf) as (El & _ & _ & Hc & _). done.
  - done.
Qed.
End Runs.

(** * Examples *)

Definition pa : list Z := [97].
Definition pab : list Z := [97; 47; 98].
Definition pc : list Z := [99].
Definition pd : list Z := [100].
Definition pdb : list Z := [100; 47; 98].

(** [mkdir a; create a/b; write a/b "hi"; ln a/b c; mv a d] on a file system of 10000 bytes. *)
Definition demo_attached : TmpState := mkTS (attach_quota tmpfs_new (Some (mkQuota 10000 0))).1 0 false.
Definition demo_linked : TmpFs :=
  foldl (λ fs o, (exec fs o).2) (t_fs demo_attached)
    [OMkdir 5 pa 0x1ed; OCreate 5 pab 0x1a4; OWrite 6 pab 1 [104; 105]; OLink pab pc].
Definition demo_moved : TmpFs := (exec demo_linked (ORename pa pd)).2.

Lemma eq_rtc {A} (R : relation A) x y : x = y → rtc R x y.
Proof. by intros ->. Qed.

Lemma demo_moved_run : rtc tstep tmp_start (mkTS demo_moved 0 false).
Proof.
  eapply rtc_l; [apply (ts_attach tmp_start (mkQuota 10000 0)); vm_compute; done|].
  eapply rtc_l; [apply (ts_op _ (OMkdir 5 pa 0x1ed)); vm_compute; done|].
  eapply rtc_l; [apply (ts_op _ (OCreate 5 pab 0x1a4)); vm_compute; done|].
  eapply rtc_l; [apply (ts_op _ (OWrite 6 pab 1 [104; 105])); vm_compute; done|].
  eapply rtc_l; [apply (ts_op _ (OLink pab pc)); vm_compute; done|].
  eapply rtc_l; [apply (ts_op _ (ORename pa pd)); vm_compute; done|].
  apply eq_rtc. vm_compute. reflexivity.
Qed.

Lemma demo_linked_run : rtc tstep tmp_start (mkTS demo_linked 0 false).
Proof.
  eapply rtc_l; [apply (ts_attach tmp_start (mkQuota 10000 0)); vm_compute; done|].
  eapply rtc_l; [apply (ts_op _ (OMkdir 5 pa 0x1ed)); vm_compute; done|].
  eapply rtc_l; [apply (ts_op _ (OCreate 5 pab 0x1a4)); vm_compute; done|].
  eapply rtc_l; [apply (ts_op _ (OWrite 6 pab 1 [104; 105])); vm_compute; done|].
  eapply rtc_l; [apply (ts_op _ (OLink pab pc)); vm_compute; done|].
  apply eq_rtc. vm_compute. reflexivity.
Qed.

Lemma tmpfs_invariant_witness :
  nodes demo_moved !! pdb = Some (File 3) ∧ names (nodes demo_moved) 3 = 2 ∧
  used (tq demo_moved) = 0 + nodes_cost (nodes demo_moved) + files_cost (files demo_moved).
Proof.
  split; [vm_compute; reflexivity|]. split; [vm_compute; reflexivity|].
  apply (tmpfs_invariant (mkTS demo_moved 0 false) demo_moved_run eq_refl).
Defined.

Lemma demo_inv : tmp_inv 0 demo_linked.
Proof. apply (truns_inv _ _ demo_linked_run (λ _, start_tmp_inv) eq_refl). Qed.

(** Written through one name, read through the other. *)
Lemma tmpfs_write_read_witness :
  ∃ fs', write_at 7 demo_linked pc 4 [1; 2] = (Good 2, fs') ∧ read_at fs' pab 4 2 = Good [1; 2].
Proof.
  eexists. split; [vm_compute; reflexivity|].
  eapply (tmpfs_write_read 0 7 demo_linked pc pab 3 4 [1; 2] 2);
    [apply demo_inv|done|vm_compute; done|vm_compute; reflexivity..].
Defined.

Lemma tmpfs_rename_moves_witness :
  ∃ fs', rename demo_linked pa pd = (Good tt, fs') ∧ nodes fs' !! pdb = nodes demo_linked !! pab ∧ nodes fs' !! pab = None.
Proof.
  eexists. split; [vm_compute; reflexivity|].
  edestruct (tmpfs_rename_moves 0 demo_linked pa pd) as (H1 & H2 & _);
    [apply demo_inv|done|vm_compute; done|vm_compute; reflexivity|done|vm_compute; reflexivity|].
  split; [apply (H1 [47; 98])|apply (H2 [47; 98])]; right; by eexists.
Defined.

(** No room for a second directory of a long name: the quota is as it was. *)
Definition demo_full : TmpFs := with_tq demo_linked (mkQuota 1200 (used (tq demo_linked))).
Lemma demo_full_inv : tmp_inv 0 demo_full.
Proof.
  destruct demo_inv as [Hw [A1 A2 A3]]. split; [exact Hw|]. split; [exact A1|exact A2|done].
Qed.

Lemma tmpfs_failure_atomic_witness :
  ∃ fs', exec demo_full (OCreate 9 [101] 0x1a4) = (Some ENOSPC, fs') ∧ files fs' = files demo_full ∧ tq fs' = tq demo_full.
Proof.
  eexists. split; [vm_compute; reflexivity|].
  eapply (tmpfs_failure_atomic 0 demo_full (OCreate 9 [101] 0x1a4) ENOSPC);
    [apply demo_full_inv|vm_compute; done|vm_compute; reflexivity].
Defined.

(** Removing the root of an empty file system succeeds, and leaves one that nothing can be made in. *)
Lemma rmdir_root_removes_it now rel mode :
  ∃ fs', rmdir tmpfs_new [] = (Good tt, fs') ∧ stat fs' [] = None ∧ (create now fs' rel mode).1 = Bad ENOENT.
Proof.
  eexists. split; [vm_compute; reflexivity|]. split; [reflexivity|].
  unfold create, require_parent. assert (∀ fs r, nodes fs = ∅ → ancestors_are_dirs fs r = None) as Ha.
  { intros fs r E. unfold ancestors_are_dirs. rewrite E. destruct (parent_of r); [done|].
    generalize (Path.split (z :: l)), (@nil Z). intros cs. induction cs as [|c cs IH]; intros p; simpl; [done|].
    rewrite lookup_empty. apply IH. }
  rewrite Ha by reflexivity. reflexivity.
Qed.
