(* ===== verification/Overlay.v ===== *)
(** The copy-on-write overlay file system ([src/fs/overlay.rs]): a writable upper layer over a
    lower layer that is never changed, with whiteouts for what was deleted. The layers are any two
    back ends. [now] is the clock, which stands still during a call. *)
From S2P Require Import Prelude Abi Path Vfs Tmpfs.
From stdpp Require Import base numbers gmap list sorting.
Local Open Scope Z_scope.

Definition UPPER_INODE_TAG : Z := 2 ^ 63.
Definition tag_upper (a : Attrs) : Attrs :=
  mkAttrs (a_kind a) (a_size a) (a_mode a) (a_uid a) (a_gid a) (a_atime a) (a_mtime a)
    (Z.lor (a_inode a) UPPER_INODE_TAG) (a_nlink a) (a_rdev a).
(** [join]. *)
Definition join_path (dir name : list Z) : list Z := match dir with [] => name | _ => dir ++ SLASH :: name end.

Section Overlay.
Context {U L : Type} (uops : MountFs U) (lops : MountFs L) (now : Z).

Record Overlay := mkOverlay { upper : U; lower : L; whiteouts : gset (list Z) }.
Definition overlay_new (l : L) (u : U) : Overlay := mkOverlay u l ∅.
Definition with_upper (o : Overlay) (u : U) : Overlay := mkOverlay u (lower o) (whiteouts o).
Definition white_out (o : Overlay) (rel : list Z) : Overlay := mkOverlay (upper o) (lower o) ({[rel]} ∪ whiteouts o).
Definition unwhite (o : Overlay) (rel : list Z) : Overlay := mkOverlay (upper o) (lower o) (whiteouts o ∖ {[rel]}).
(** An operation of the upper layer, its result and the overlay it leaves. *)
Definition on_upper {A} (o : Overlay) (r : io A * U) : io A * Overlay := (r.1, with_upper o r.2).

(** [is_whited]. Every round drops a slash, so the length of the path is enough. *)
Fixpoint whited_above (fuel : nat) (ws : gset (list Z)) (p : list Z) : bool :=
  match fuel, rfind_slash p with
  | S fuel, Some (p, _) => bool_decide (p ∈ ws) || whited_above fuel ws p
  | _, _ => false
  end.
Definition is_whited (o : Overlay) (rel : list Z) : bool :=
  bool_decide (rel ∈ whiteouts o) || whited_above (length rel) (whiteouts o) rel.

(** [ensure_dir_in_upper]; a parent is shorter than its child. *)
Fixpoint ensure_dir (fuel : nat) (u : U) (dir : list Z) : U :=
  match fuel with
  | O => u
  | S fuel =>
    if bool_decide (dir = []) || bool_decide (is_Some (fs_stat uops u dir)) then u
    else (fs_mkdir uops now (ensure_dir fuel u (parent_of dir)) dir 0x1ed).2
  end.
Definition ensure_dir_in_upper (o : Overlay) (dir : list Z) : Overlay :=
  with_upper o (ensure_dir (S (length dir)) (upper o) dir).

(** [read_all_lower]; every round but the last reads a byte. *)
Fixpoint read_rest {F} (ops : MountFs F) (fuel : nat) (f : F) (rel : list Z) (off size : Z) : list Z :=
  match fuel with
  | O => []
  | S fuel =>
    if size <=? off then []
    else match fs_read_at ops f rel off (size - off) with
         | Good [] | Bad _ => []
         | Good bs => bs ++ read_rest ops fuel f rel (off + Z.of_nat (length bs)) size
         end
  end.
Definition read_all {F} (ops : MountFs F) (f : F) (rel : list Z) : list Z :=
  let size := match fs_stat ops f rel with Some a => a_size a | None => 0 end in
  read_rest ops (Z.to_nat size) f rel 0 size.

(** [copy_up_xattrs]. *)
Definition copy_xattr (rel : list Z) (o : Overlay) (name : list Z) : Overlay :=
  match fs_getxattr lops (lower o) rel name with
  | Good v => with_upper o (fs_setxattr uops (upper o) rel name v).2
  | Bad _ => o
  end.
Definition copy_up_xattrs (o : Overlay) (rel : list Z) : Overlay :=
  match fs_listxattr lops (lower o) rel with Good names => foldl (copy_xattr rel) o names | Bad _ => o end.

(** [copy_up]. It descends into the lower layer's directories: [depth] bounds how deep those
    are, and [None] is a descent that goes deeper. *)
Fixpoint copy_children (copy : Overlay → list Z → option (io unit * Overlay)) (rel : list Z) (es : list DirEntry)
    (o : Overlay) : option (io unit * Overlay) :=
  match es with
  | [] => Some (Good tt, o)
  | e :: es =>
    let child := join_path rel (d_name e) in
    if is_whited o child then copy_children copy rel es o
    else match copy o child with
         | Some (Good _, o) => copy_children copy rel es o
         | r => r
         end
  end.
Definition copy_file (o : Overlay) (rel : list Z) (a : Attrs) : io unit * Overlay :=
  let data := read_all lops (lower o) rel in
  match fs_create uops now (upper o) rel (Z.land (a_mode a) 0x1ff) with
  | (Bad e, u) => (Bad e, with_upper o u)
  | (Good _, u) =>
    match fs_write_at uops now u rel 0 data with
    | (Bad e, u) => (Bad e, with_upper o u)
    | (Good _, u) => (Good tt, with_upper o u)
    end
  end.
Fixpoint copy_up (depth : nat) (o : Overlay) (rel : list Z) : option (io unit * Overlay) :=
  match depth with
  | O => None
  | S depth =>
    if bool_decide (is_Some (fs_stat uops (upper o) rel)) then Some (Good tt, o)
    else match fs_stat lops (lower o) rel with
         | None => Some (Good tt, o)
         | Some a =>
           let o := ensure_dir_in_upper o (parent_of rel) in
           let copied :=
             match a_kind a with
             | KDir =>
               let o := ensure_dir_in_upper o rel in
               match fs_readdir lops (lower o) rel with
               | Good es => copy_children (copy_up depth) rel es o
               | Bad _ => Some (Good tt, o)
               end
             | KSymlink =>
               match fs_readlink lops (lower o) rel with
               | Good t => Some (on_upper o (fs_symlink uops now (upper o) t rel))
               | Bad _ => Some (Good tt, o)
               end
             | _ => Some (copy_file o rel a)
             end in
           match copied with
           | Some (Good _, o) => Some (Good tt, copy_up_xattrs o rel)
           | r => r
           end
         end
  end.
Definition copy_up_node (depth : nat) (o : Overlay) (rel : list Z) : option (io unit * Overlay) :=
  if bool_decide (is_Some (fs_stat uops (upper o) rel)) then Some (Good tt, o)
  else match a_kind <$> fs_stat lops (lower o) rel with
       | Some KDir => Some (Good tt, copy_up_xattrs (ensure_dir_in_upper o rel) rel)
       | _ => copy_up depth o rel
       end.

(** * The operations of [MountFs] *)

(** [attach_quota] and [attach_disk_quota] pass the quota to the upper layer. *)
Definition attach_quota (attach : U → U) (o : Overlay) : Overlay := with_upper o (attach (upper o)).
Definition read_only (o : Overlay) : bool := false.
Definition stat (o : Overlay) (rel : list Z) : option Attrs :=
  if is_whited o rel then None
  else match fs_stat uops (upper o) rel with
       | Some a => Some (tag_upper a)
       | None => fs_stat lops (lower o) rel
       end.
Definition is_kind (k : NodeKind) (a : option Attrs) : bool := bool_decide (a_kind <$> a = Some k).

Definition read_at (o : Overlay) (rel : list Z) (off n : Z) : io (list Z) :=
  if is_whited o rel then Bad ENOENT
  else match fs_stat uops (upper o) rel with
       | Some _ => fs_read_at uops (upper o) rel off n
       | None => fs_read_at lops (lower o) rel off n
       end.

Definition add_entry (seen : gmap (list Z) DirEntry) (e : DirEntry) : gmap (list Z) DirEntry := <[d_name e := e]> seen.
Definition tag_entry (e : DirEntry) : DirEntry := mkDirEntry (d_name e) (d_kind e) (Z.lor (d_inode e) UPPER_INODE_TAG).
Definition readdir (o : Overlay) (rel : list Z) : io (list DirEntry) :=
  if is_whited o rel || bool_decide (stat o rel = None) then Bad ENOENT
  else
    let low := match fs_readdir lops (lower o) rel with
               | Good es => filter (λ e, is_whited o (join_path rel (d_name e)) = false) es
               | Bad _ => []
               end in
    let up := match fs_readdir uops (upper o) rel with Good es => tag_entry <$> es | Bad _ => [] end in
    let seen := foldl add_entry ∅ (low ++ up) in
    Good (omap (λ k, seen !! k) (btree_keys seen)).

(** [copy_up(rel)?] and then [f] on the upper layer. *)
Definition copied_up {A} (depth : nat) (o : Overlay) (rel : list Z) (f : U → io A * U) : option (io A * Overlay) :=
  match copy_up depth o rel with
  | Some (Good _, o) => Some (on_upper o (f (upper o)))
  | Some (Bad e, o) => Some (Bad e, o)
  | None => None
  end.
Definition write_at (depth : nat) (o : Overlay) (rel : list Z) (off : Z) (buf : list Z) : option (io Z * Overlay) :=
  copied_up depth o rel (λ u, fs_write_at uops now u rel off buf).
Definition truncate (depth : nat) (o : Overlay) (rel : list Z) (n : Z) : option (io unit * Overlay) :=
  copied_up depth o rel (λ u, fs_truncate uops now u rel n).

(** A new entry: [create], [mkdir], [mknod], [symlink]. *)
Definition new_upper (o : Overlay) (rel : list Z) (f : U → io unit * U) : io unit * Overlay :=
  if bool_decide (is_Some (stat o rel)) then (Bad EEXIST, o)
  else
    let o := ensure_dir_in_upper (unwhite o rel) (parent_of rel) in
    on_upper o (f (upper o)).
Definition create (o : Overlay) (rel : list Z) (mode : Z) : io unit * Overlay :=
  new_upper o rel (λ u, fs_create uops now u rel mode).
Definition mkdir (o : Overlay) (rel : list Z) (mode : Z) : io unit * Overlay :=
  new_upper o rel (λ u, fs_mkdir uops now u rel mode).
Definition mknod (o : Overlay) (rel : list Z) (mode : Z) : io unit * Overlay :=
  new_upper o rel (λ u, fs_mknod uops now u rel mode).
Definition symlink (o : Overlay) (target rel : list Z) : io unit * Overlay :=
  new_upper o rel (λ u, fs_symlink uops now u target rel).

Definition unlink (o : Overlay) (rel : list Z) : io unit * Overlay :=
  match a_kind <$> stat o rel with
  | None => (Bad ENOENT, o)
  | Some KDir => (Bad EISDIR, o)
  | Some _ => (Good tt, white_out (with_upper o (fs_unlink uops (upper o) rel).2) rel)
  end.
Definition rmdir (o : Overlay) (rel : list Z) : io unit * Overlay :=
  match a_kind <$> stat o rel with
  | Some KDir =>
    match readdir o rel with
    | Bad e => (Bad e, o)
    | Good [] => (Good tt, white_out (with_upper o (fs_rmdir uops (upper o) rel).2) rel)
    | Good _ => (Bad ENOTEMPTY, o)
    end
  | Some _ => (Bad ENOTDIR, o)
  | None => (Bad ENOENT, o)
  end.

(** [set_times], [set_mode], [set_owner]: refused where there is nothing, else on a copy. *)
Definition visible {A} (o : Overlay) (rel : list Z) (k : option (io A * Overlay)) : option (io A * Overlay) :=
  if bool_decide (stat o rel = None) then Some (Bad ENOENT, o) else k.
Definition set_times (depth : nat) (o : Overlay) (rel : list Z) (a t : SetTime) : option (io unit * Overlay) :=
  visible o rel (copied_up depth o rel (λ u, fs_set_times uops now u rel a t)).
Definition set_mode (depth : nat) (o : Overlay) (rel : list Z) (mode : Z) : option (io unit * Overlay) :=
  visible o rel (copied_up depth o rel (λ u, fs_set_mode uops u rel mode)).
Definition set_owner (depth : nat) (o : Overlay) (rel : list Z) (uid gid : option Z) : option (io unit * Overlay) :=
  visible o rel (copied_up depth o rel (λ u, fs_set_owner uops u rel uid gid)).

Definition getxattr (o : Overlay) (rel name : list Z) : io (list Z) :=
  if is_whited o rel then Bad ENOENT
  else match fs_stat uops (upper o) rel with
       | Some _ => fs_getxattr uops (upper o) rel name
       | None =>
         match fs_getxattr lops (lower o) rel name with
         | Bad e => Bad (if e =? EOPNOTSUPP then ENODATA else e)
         | r => r
         end
       end.
(** [copy_up_node(rel)?] and then [f] on the upper layer. *)
Definition node_copied_up (depth : nat) (o : Overlay) (rel : list Z) (f : U → io unit * U) : option (io unit * Overlay) :=
  match copy_up_node depth o rel with
  | Some (Good _, o) => Some (on_upper o (f (upper o)))
  | r => r
  end.
Definition setxattr (depth : nat) (o : Overlay) (rel name value : list Z) : option (io unit * Overlay) :=
  visible o rel (node_copied_up depth o rel (λ u, fs_setxattr uops u rel name value)).
Definition listxattr (o : Overlay) (rel : list Z) : io (list (list Z)) :=
  if is_whited o rel then Bad ENOENT
  else match fs_stat uops (upper o) rel with
       | Some _ => fs_listxattr uops (upper o) rel
       | None => Good (match fs_listxattr lops (lower o) rel with Good l => l | Bad _ => [] end)
       end.
Definition removexattr (depth : nat) (o : Overlay) (rel name : list Z) : option (io unit * Overlay) :=
  visible o rel
    (match fs_stat uops (upper o) rel, fs_getxattr lops (lower o) rel name with
     | None, Bad _ => Some (Bad ENODATA, o)
     | None, Good _ => node_copied_up depth o rel (λ u, fs_removexattr uops u rel name)
     | Some _, _ => Some (on_upper o (fs_removexattr uops (upper o) rel name))
     end).

Definition link (depth : nat) (o : Overlay) (old_rel new_rel : list Z) : option (io unit * Overlay) :=
  match a_kind <$> stat o old_rel with
  | None => Some (Bad ENOENT, o)
  | Some KDir => Some (Bad EPERM, o)
  | Some _ =>
    if bool_decide (is_Some (stat o new_rel)) then Some (Bad EEXIST, o)
    else match copy_up depth o old_rel with
         | Some (Good _, o) =>
           let o := ensure_dir_in_upper (unwhite o new_rel) (parent_of new_rel) in
           Some (on_upper o (fs_link uops (upper o) old_rel new_rel))
         | r => r
         end
  end.
Definition readlink (o : Overlay) (rel : list Z) : io (list Z) :=
  if is_whited o rel then Bad ENOENT
  else match fs_stat uops (upper o) rel with
       | Some _ => fs_readlink uops (upper o) rel
       | None => fs_readlink lops (lower o) rel
       end.

(** [rename]: the checks against what stands at [to], [Some] their error. *)
Definition replace_refused (o : Overlay) (from_is_dir : bool) (to : list Z) : option Z :=
  match from_is_dir, is_kind KDir (stat o to) with
  | true, true => match readdir o to with Bad e => Some e | Good [] => None | Good _ => Some ENOTEMPTY end
  | true, false => Some ENOTDIR
  | false, true => Some EISDIR
  | false, false => None
  end.
Definition clear_upper (o : Overlay) (to : list Z) : Overlay :=
  with_upper o (if is_kind KDir (stat o to) then fs_rmdir uops (upper o) to else fs_unlink uops (upper o) to).2.
Definition move_upper (depth : nat) (o : Overlay) (from to : list Z) : option (io unit * Overlay) :=
  match copy_up depth o from with
  | Some (Good _, o) =>
    let o := unwhite (ensure_dir_in_upper o (parent_of to)) to in
    match fs_rename uops (upper o) from to with
    | (Bad e, u) => Some (Bad e, with_upper o u)
    | (Good _, u) => Some (Good tt, white_out (with_upper o u) from)
    end
  | r => r
  end.
Definition rename (depth : nat) (o : Overlay) (from to : list Z) : option (io unit * Overlay) :=
  if bool_decide (from = to) then Some (if bool_decide (is_Some (stat o from)) then Good tt else Bad ENOENT, o)
  else match stat o from with
       | None => Some (Bad ENOENT, o)
       | Some a =>
         let from_is_dir := bool_decide (a_kind a = KDir) in
         if from_is_dir && (bool_decide (to = from) || starts_with (from ++ [SLASH]) to) then Some (Bad EINVAL, o)
         else match stat o to with
              | Some _ =>
                match replace_refused o from_is_dir to with
                | Some e => Some (Bad e, o)
                | None => move_upper depth (clear_upper o to) from to
                end
              | None => move_upper depth o from to
              end
       end.
End Overlay.
Arguments Overlay U L : clear implicits.
