(* ===== verification/OverlaySpec.v ===== *)
(** What the overlay promises: writing to a file copies it up without anything else changing, and
    deleting hides it; and where it falls short: directories that are renamed, and copies that do
    not fit. *)
From S2P Require Import Prelude Abi Quota Path Vfs Tmpfs TmpfsPath TmpfsInv TmpfsSpec Overlay.
From stdpp Require Import base numbers gmap list sorting.
Local Open Scope Z_scope.

(** * What a path names *)

Inductive Item := IDir | ILink (target : list Z) | IFile (data : list Z) | ISpecial (k : NodeKind).
Definition item_of {F} (ops : MountFs F) (f : F) (p : list Z) : option Item :=
  a ← fs_stat ops f p;
  Some (match a_kind a with
        | KDir => IDir
        | KSymlink => ILink (match fs_readlink ops f p with Good t => t | Bad _ => [] end)
        | KFile => IFile (read_all ops f p)
        | k => ISpecial k
        end).

(** The same of the in-memory file system, from its tables. *)
Definition node_item (fl : gmap Z FileData) (n : Node) : option Item :=
  match n with
  | Dir _ => Some IDir
  | File i => (λ f, IFile (data f)) <$> fl !! i
  | Fifo _ _ => Some (ISpecial KFifo)
  | Symlink _ t => Some (ILink t)
  end.
Definition item (u : TmpFs) (p : list Z) : option Item := nodes u !! p ≫= node_item (files u).

Section Spec.
Context `{Allocator}.

Lemma stat_item u p : a_kind <$> Tmpfs.stat u p =
  (λ i, match i with IDir => KDir | ILink _ => KSymlink | IFile _ => KFile | ISpecial k => k end) <$> item u p.
Proof.
  unfold Tmpfs.stat, item, meta_of. destruct (nodes u !! p) as [[m|i|m md|m t]|] eqn:E; simpl; try done.
  destruct (files u !! i) as [f|] eqn:Ef; simpl; [|done]. done.
Qed.
Lemma stat_none u p : Tmpfs.stat u p = None ↔ item u p = None.
Proof. pose proof (stat_item u p) as E. destruct (Tmpfs.stat u p), (item u p); simplify_eq/=; done. Qed.

Lemma read_all_tmpfs u p i f : nodes u !! p = Some (File i) → files u !! i = Some f → read_all tmpfs u p = data f.
Proof.
  intros Hn Hf. unfold read_all. simpl. unfold Tmpfs.stat, meta_of. rewrite Hn. simpl. rewrite Hf. simpl.
  destruct (data f) as [|x d] eqn:Ed; [done|]. rewrite <- Ed. unfold len. rewrite Nat2Z.id.
  replace (length (data f)) with (S (length d)) at 1 by (by rewrite Ed). simpl.
  destruct (Z.leb_spec (Z.of_nat (length (data f))) 0) as [Hl|Hl]; [rewrite Ed in Hl; simpl in Hl; lia|].
  unfold Tmpfs.read_at. rewrite Hn, Hf. unfold len. destruct (Z.leb_spec (Z.of_nat (length (data f))) 0); [lia|].
  rewrite Z.sub_0_r, Z.min_id, Nat2Z.id, Ed. simpl. rewrite firstn_all. f_equal.
  rewrite Z.add_0_l. destruct (length d); simpl; [by rewrite app_nil_r|].
  destruct (Z.leb_spec (Z.of_nat (S (S n))) (Z.of_nat (S (S n)))); [by rewrite app_nil_r|lia].
Qed.
Lemma item_tmpfs u p : item_of tmpfs u p = item u p.
Proof.
  pose proof (stat_item u p) as E. unfold item_of. cbn [fs_stat tmpfs]. destruct (Tmpfs.stat u p) as [a|] eqn:Es.
  - simpl in *. destruct (item u p) as [i|] eqn:Ei; [|done]. injection E as ->. unfold item in Ei.
    destruct (nodes u !! p) as [[m|j|m md|m t]|] eqn:En; simplify_eq/=; try done.
    + destruct (files u !! j) as [f|] eqn:Ef; simplify_eq/=. f_equal. f_equal. by eapply read_all_tmpfs.
    + unfold Tmpfs.readlink. by rewrite En.
  - simpl in *. by destruct (item u p).
Qed.

(** * Whiteouts *)

Lemma rfind_shorter p a b : rfind_slash p = Some (a, b) → (length a < length p)%nat.
Proof. intros [-> _]%rfind_slash_Some. rewrite length_app. simpl. lia. Qed.
Lemma whited_above_spec fuel ws : ∀ p, (length p ≤ fuel)%nat →
  whited_above fuel ws p = true ↔ ∃ w, w ∈ ws ∧ under w p = true ∧ w ≠ p.
Proof.
  induction fuel as [|fuel IH]; intros p Hl.
  - destruct p; [|simpl in Hl; lia]. simpl. split; [done|]. intros (w & _ & Hu & Hw). by rewrite under_nil in Hu.
  - simpl. destruct (rfind_slash p) as [[a b]|] eqn:E.
    + pose proof (rfind_shorter _ _ _ E) as Hs. rewrite orb_true_iff, bool_decide_eq_true, IH by lia.
      apply rfind_slash_Some in E as [-> Hb]. assert (under a (a ++ SLASH :: b) = true) as Ha by (apply under_app; right; by eexists).
      split.
      * intros [Hw|(w & Hw & Hu & Hn)].
        -- exists a. split_and!; [done|done|]. intros E. apply (f_equal length) in E. rewrite length_app in E. simpl in E. lia.
        -- exists w. split_and!; [done|by eapply under_trans|]. intros ->. rewrite length_app in Hs. simpl in Hs.
           apply under_spec in Hu as (s & E & _). apply (f_equal length) in E. rewrite !length_app in E. simpl in E. lia.
      * intros (w & Hw & Hu & Hn). apply parent_under in Hu; [|done]. rewrite parent_of_child in Hu by done.
        destruct (decide (w = a)) as [->|]; [by left|]. right. by exists w.
    + split; [done|]. intros (w & _ & Hu & Hn). apply under_spec in Hu as (s & -> & [->|[s' ->]]); [by rewrite app_nil_r in Hn|].
      apply rfind_slash_None in E. exfalso. apply E. apply elem_of_app. right. by left.
Qed.
Lemma whited_spec {U L} (o : Overlay U L) p : is_whited o p = true ↔ ∃ w, w ∈ whiteouts o ∧ under w p = true.
Proof.
  unfold is_whited. rewrite orb_true_iff, bool_decide_eq_true, whited_above_spec by done. split.
  - intros [Hp|(w & Hw & Hu & _)]; [|by exists w]. exists p. split; [done|apply under_refl].
  - intros (w & Hw & Hu). destruct (decide (w = p)) as [->|]; [by left|]. right. by exists w.
Qed.
Lemma whited_out {U L} (o : Overlay U L) rel p : is_whited (white_out o rel) p = under rel p || is_whited o p.
Proof.
  apply eq_true_iff_eq. rewrite orb_true_iff, !whited_spec. simpl. split.
  - intros (w & Hw & Hu). apply elem_of_union in Hw as [->%elem_of_singleton|Hw]; [by left|]. right. by exists w.
  - intros [Hu|(w & Hw & Hu)]; [exists rel|exists w]; (split; [set_solver|done]).
Qed.

(** * The lower layer is a tree *)

Definition lower_tree {L} (lops : MountFs L) (l : L) : Prop :=
  ∀ p a, fs_stat lops l p = Some a → p ≠ [] → a_kind <$> fs_stat lops l (parent_of p) = Some KDir.
Lemma lower_above {L} (lops : MountFs L) l (Hl : lower_tree lops l) p : p ≠ [] →
  ∀ n k, (length k ≤ n)%nat → is_Some (fs_stat lops l k) → under p k = true → p ≠ k → item_of lops l p = Some IDir.
Proof.
  intros Hp. induction n as [|n IH]; intros k Hn [a Hk] Hu Hne.
  { destruct k; [|simpl in Hn; lia]. by rewrite under_nil in Hu. }
  assert (k ≠ []) as Hk0. { intros ->. by rewrite under_nil in Hu. }
  pose proof (Hl k a Hk Hk0) as Hd. apply parent_under in Hu; [|done].
  destruct (fs_stat lops l (parent_of k)) as [b|] eqn:Eb; [|done].
  destruct (decide (p = parent_of k)) as [->|Hne'].
  { unfold item_of. rewrite Eb. simpl in *. by injection Hd as ->. }
  apply (IH (parent_of k)); [|by exists b|done|done].
  destruct (parent_cases k) as [[_ E]|(c & _ & E)]; [rewrite E; simpl; lia|].
  apply (f_equal length) in E. rewrite length_app in E. simpl in E. lia.
Qed.

(** * Directories made in the upper layer *)

(** [dir] and directories above it may be new; nothing else is. *)
Record made (base : Z) (dir : list Z) (n : Z) (u u' : TmpFs) : Prop := mkMade {
  md_inv : tmp_inv base u';
  md_next : next_inode u ≤ next_inode u' ≤ next_inode u + n;
  md_files : files u' = files u;
  md_nodes p : nodes u' !! p = nodes u !! p ∨
    nodes u !! p = None ∧ (∃ m, nodes u' !! p = Some (Dir m)) ∧ p ≠ [] ∧ under p dir = true
}.
Lemma mkdir_made base now u dir mode : tmp_inv base u → next_inode u + 1 < U64 → made base dir 1 u (Tmpfs.mkdir now u dir mode).2.
Proof.
  intros Hi Hn. pose proof (mkdir_inv base now u dir mode Hi Hn) as Hi'. revert Hi'. unfold Tmpfs.mkdir.
  assert (∀ e : Z, tmp_inv base ((Bad e : io unit), u).2 → made base dir 1 u ((Bad e : io unit), u).2) as Hsame.
  { intros e _. split; simpl; [done|lia|done|by left]. }
  destruct (require_parent u dir); [apply Hsame|]. case_bool_decide as Ed; [apply Hsame|]. clear Hsame.
  apply eq_None_not_Some in Ed. unfold new_meta, alloc_inode. rewrite (wrap_next _ _ Hi Hn). unfold insert_node.
  cbn [nodes files next_inode tq]. destruct (charge _ _) as [[] q]; simpl; intros Hi'; split; simpl; try done; try lia; [|by left].
  intros p. destruct (decide (p = dir)) as [->|Hp]; [|left; by rewrite lookup_insert_ne]. right.
  split_and!; [done|eexists; by rewrite lookup_insert_eq| |apply under_refl].
  intros ->. destruct (w_root _ _ _ (i_wf _ _ Hi)) as [m Hm]. congruence.
Qed.
Lemma ensure_made base now fuel : ∀ u dir, (length dir < fuel)%nat → tmp_inv base u → next_inode u + len dir + 1 < U64 →
  made base dir (len dir) u (ensure_dir tmpfs now fuel u dir).
Proof.
  induction fuel as [|fuel IH]; intros u dir Hf Hi Hn; [lia|]. pose proof (len_nonneg dir) as Hl. simpl.
  assert (made base dir (len dir) u u) as Hsame by (split; [done|lia|done|by left]).
  destruct (bool_decide (dir = [])) eqn:E0; [done|]. apply bool_decide_eq_false in E0.
  case_bool_decide as Es; [done|]. simpl. clear Hsame.
  assert (len (parent_of dir) + 1 ≤ len dir) as Hp.
  { destruct (parent_cases dir) as [[_ E]|(c & _ & E)]; [rewrite E; destruct dir; [done|unfold len; simpl; lia]|].
    apply (f_equal len) in E. rewrite len_app in E. unfold len in *. simpl in E. lia. }
  destruct (IH u (parent_of dir)) as [I1 N1 F1 D1]; [unfold len in Hp; lia|done|lia|].
  destruct (mkdir_made base now (ensure_dir tmpfs now fuel u (parent_of dir)) dir 0x1ed I1 ltac:(lia)) as [I2 N2 F2 D2].
  split; [done|lia|congruence|]. intros p. destruct (D2 p) as [->|(Hn2 & Hm & Hp0 & Hu)].
  - destruct (D1 p) as [->|(H1 & H2 & H3 & H4)]; [by left|]. right. split_and!; [done|done|done|].
    destruct (decide (p = [])) as [|Hne]; [done|]. by apply under_parent.
  - right. split_and!; [|done|done|done]. destruct (D1 p) as [<-|(? & ? & ?)]; [done|done].
Qed.

(** * One file changes *)

(** Names of one inode of the upper layer. *)
Definition linked (u : TmpFs) (p q : list Z) : Prop := ∃ i, nodes u !! p = Some (File i) ∧ nodes u !! q = Some (File i).
(** Only the file [rel] names has other contents. *)
Definition only_file (rel : list Z) (u u' : TmpFs) : Prop :=
  nodes u' = nodes u ∧ ∀ i, nodes u !! rel ≠ Some (File i) → data <$> files u' !! i = data <$> files u !! i.
Lemma only_file_refl rel u : only_file rel u u.
Proof. by split. Qed.
Lemma only_file_trans rel u v w : only_file rel u v → only_file rel v w → only_file rel u w.
Proof. intros [N1 F1] [N2 F2]. split; [congruence|]. intros i Hi. rewrite F2 by congruence. by apply F1. Qed.
Lemma only_file_item rel u u' p : only_file rel u u' → p ≠ rel → ¬ linked u p rel → item u' p = item u p.
Proof.
  intros [N F] Hp Hl. unfold item. rewrite N. destruct (nodes u !! p) as [[m|i|m md|m t]|] eqn:E; try done. simpl.
  assert (nodes u !! rel ≠ Some (File i)) as Hi by (intros Hi; apply Hl; by exists i).
  specialize (F i Hi). destruct (files u' !! i), (files u !! i); simplify_eq/=; try done. by rewrite F.
Qed.

Lemma grow_data f q end_ g q' : grow_file f q end_ = (Good g, q') → data g = data f.
Proof.
  unfold grow_file. destruct (_ <=? _); [by intros [= <- _]|].
  assert (∀ t q1, match reserve (capacity f) t with
      | None => (Bad ENOSPC, give_back q1 (t - capacity f))
      | Some c => (Good (with_cap f c), force_charge q1 (c - t)) end = (Good g, q') → data g = data f) as Hr.
  { intros t q1. destruct (reserve _ _); [|done]. by intros [= <- _]. }
  destruct (charge q _) as [[] q1]; [apply Hr|]. destruct (charge q1 _) as [[] q2]; [apply Hr|done].
Qed.
Lemma write_changes now u rel off buf : only_file rel u (Tmpfs.write_at now u rel off buf).2.
Proof.
  unfold Tmpfs.write_at. destruct (nodes u !! rel) as [[m|i|m md|m t]|] eqn:Hn; try apply only_file_refl.
  destruct (files u !! i) as [f|] eqn:Hf; [|apply only_file_refl]. destruct (checked_add64 _ _) as [end_|]; [|apply only_file_refl].
  destruct (_ <? _); [apply only_file_refl|].
  match goal with |- context [let '(g, q) := ?x in _] => destruct x as [[g|e] q] end; [|by split].
  split; [done|]. intros j Hj. simpl. rewrite lookup_insert_ne; [done|congruence].
Qed.
Lemma write_contents now u rel off buf n u' :
  0 ≤ off → Tmpfs.write_at now u rel off buf = (Good n, u') →
  n = len buf ∧ ∃ d d', item u rel = Some (IFile d) ∧ item u' rel = Some (IFile d') ∧
    d' = list_inserts (Z.to_nat (off + len buf - len buf)) buf (if len d <? off + len buf then vec_resize (off + len buf) d else d).
Proof.
  intros Hoff. unfold Tmpfs.write_at, item. destruct (nodes u !! rel) as [[m|i|m md|m t]|] eqn:Hn; try done.
  destruct (files u !! i) as [f|] eqn:Hf; [|done]. unfold checked_add64. destruct (_ <? U64); [|done].
  destruct (MAX_FILE_SIZE <? _); [done|]. destruct (len (data f) <? off + len buf) eqn:El.
  - destruct (grow_file f (tq u) (off + len buf)) as [[g|e] q] eqn:Eg; [|done]. intros [= <- <-]. split; [done|].
    eexists (data f), _. split_and!; [by simpl; rewrite Hf|simpl; by rewrite Hn; simpl; rewrite lookup_insert_eq|]. simpl. by rewrite El, (grow_data _ _ _ _ _ Eg).
  - intros [= <- <-]. split; [done|]. eexists (data f), _.
    split_and!; [by simpl; rewrite Hf|simpl; by rewrite Hn; simpl; rewrite lookup_insert_eq|]. simpl. by rewrite El.
Qed.

Lemma setxattr_same u rel i name value : nodes u !! rel = Some (File i) →
  only_file rel u (Tmpfs.setxattr u rel name value).2 ∧ item (Tmpfs.setxattr u rel name value).2 rel = item u rel.
Proof.
  intros Hn. unfold Tmpfs.setxattr, meta_of, item. rewrite Hn. simpl. destruct (files u !! i) as [f|] eqn:Hf; simpl.
  2: { split; [apply only_file_refl|]. rewrite Hn. simpl. by rewrite Hf. }
  destruct (charge _ _) as [[] q]; simpl.
  - unfold set_meta. rewrite Hn, Hf. simpl. split.
    + split; [done|]. intros j Hj. simpl. rewrite lookup_insert_ne; [done|congruence].
    + rewrite Hn. simpl. by rewrite lookup_insert_eq.
  - split; [by split|]. rewrite Hn. simpl. by rewrite Hf.
Qed.
Lemma xattrs_same {L} (lops : MountFs L) (o : Overlay TmpFs L) rel i : nodes (upper o) !! rel = Some (File i) →
  let o' := copy_up_xattrs tmpfs lops o rel in
  lower o' = lower o ∧ whiteouts o' = whiteouts o ∧ only_file rel (upper o) (upper o') ∧ item (upper o') rel = item (upper o) rel.
Proof.
  intros Hn. unfold copy_up_xattrs. destruct (fs_listxattr lops (lower o) rel) as [names|]; [|by repeat split].
  revert o Hn. induction names as [|name names IH]; intros o Hn; simpl; [by repeat split|].
  assert (let o1 := copy_xattr tmpfs lops rel o name in
    lower o1 = lower o ∧ whiteouts o1 = whiteouts o ∧ only_file rel (upper o) (upper o1) ∧ item (upper o1) rel = item (upper o) rel) as (A1 & A2 & A3 & A4).
  { unfold copy_xattr. destruct (fs_getxattr lops (lower o) rel name); simpl; [|by repeat split].
    destruct (setxattr_same (upper o) rel i name a Hn) as [B1 B2]. done. }
  destruct (IH (copy_xattr tmpfs lops rel o name)) as (C1 & C2 & C3 & C4); [by rewrite (proj1 A3)|].
  split_and!; [congruence|congruence|by eapply only_file_trans|congruence].
Qed.

(** * Copying a file up *)

Lemma create_effect base now u rel mode r u' : tmp_inv base u → next_inode u + 1 < U64 → Tmpfs.create now u rel mode = (r, u') →
  match r with
  | Good _ => nodes u !! rel = None ∧ ∃ i f, data f = [] ∧ (∀ p, nodes u !! p ≠ Some (File i)) ∧
      nodes u' = <[rel := File i]> (nodes u) ∧ files u' = <[i := f]> (files u)
  | Bad _ => nodes u' = nodes u ∧ files u' = files u
  end.
Proof.
  intros Hi Hn. unfold Tmpfs.create. destruct (require_parent u rel); [by intros [= <- <-]|].
  case_bool_decide as Er; [by intros [= <- <-]|]. apply eq_None_not_Some in Er. pose proof (i_wf _ _ Hi) as Hw.
  unfold new_file, new_meta, alloc_inode. rewrite (wrap_next _ _ Hi Hn). cbn [inode]. unfold insert_node.
  destruct (charge _ _) as [[] q]; intros [= <- <-]; simpl.
  - split; [done|]. eexists (next_inode u), _. split_and!; [|intros p Hp; pose proof (w_next _ _ _ Hw _ _ Hp); simpl in *; lia|done|done]. done.
  - unfold drop_file. simpl. rewrite lookup_insert_eq. simpl. split; [done|]. rewrite delete_insert_id; [done|]. by apply (fresh_ino (nodes u)).
Qed.

(** What else a copy may show: directories above the file. *)
Definition dirs_above (rel : list Z) (u u' : TmpFs) : Prop := ∀ p, p ≠ rel →
  item u' p = item u p ∨ item u p = None ∧ item u' p = Some IDir ∧ p ≠ [] ∧ under p (parent_of rel) = true.
Lemma made_above base rel n u u' : made base (parent_of rel) n u u' → dirs_above rel u u'.
Proof.
  intros [_ _ F D] p _. unfold item. rewrite F. destruct (D p) as [->|(-> & [m ->] & H1 & H2)]; [by left|]. by right.
Qed.
Lemma above_then rel u v w : dirs_above rel u v → (∀ p, p ≠ rel → item w p = item v p) → dirs_above rel u w.
Proof. intros H1 H2 p Hp. rewrite (H2 p Hp). by apply H1. Qed.

Lemma created_item u u' rel i f p : (∀ p, nodes u !! p ≠ Some (File i)) → nodes u' = <[rel := File i]> (nodes u) →
  files u' = <[i := f]> (files u) → p ≠ rel → item u' p = item u p ∧ ¬ linked u' p rel.
Proof.
  intros Hi Hn Hf Hp. unfold item, linked. rewrite Hn, Hf, lookup_insert_ne by done. split.
  - destruct (nodes u !! p) as [[m|j|m md|m t]|] eqn:E; try done. simpl. rewrite lookup_insert_ne; [done|]. intros <-. by apply (Hi p).
  - intros (j & Hj & E). rewrite lookup_insert_eq in E. injection E as <-. by apply (Hi p).
Qed.

Lemma written_whole (d : list Z) : list_inserts (Z.to_nat (0 + len d - len d)) d (if len ([] : list Z) <? 0 + len d then vec_resize (0 + len d) [] else []) = d.
Proof.
  apply list_eq. intros p. rewrite (write_bytes [] d 0 (0 + len d) p) by lia. unfold len. rewrite Z.add_0_l. simpl.
  destruct (decide (0 ≤ Z.of_nat p < Z.of_nat (length d))) as [Hp|Hp]; [by rewrite Nat.sub_0_r|].
  rewrite decide_False by lia. rewrite decide_False by lia. by rewrite lookup_ge_None_2 by lia.
Qed.

Lemma copy_file_effect {L} (lops : MountFs L) base now (o : Overlay TmpFs L) rel a r o' :
  tmp_inv base (upper o) → next_inode (upper o) + 1 < U64 → copy_file tmpfs lops now o rel a = (r, o') →
  lower o' = lower o ∧ whiteouts o' = whiteouts o ∧ (∀ p, p ≠ rel → item (upper o') p = item (upper o) p) ∧
  match r with
  | Bad _ => True
  | Good _ => item (upper o') rel = Some (IFile (read_all lops (lower o) rel)) ∧
      (∃ i, nodes (upper o') !! rel = Some (File i)) ∧ ∀ p, p ≠ rel → ¬ linked (upper o') p rel
  end.
Proof.
  intros Hi Hn. unfold copy_file. cbn [fs_create fs_write_at tmpfs].
  destruct (Tmpfs.create now (upper o) rel (Z.land (a_mode a) 0x1ff)) as [[v|e] u1] eqn:Ec;
    apply (create_effect base) in Ec; try done.
  2: { intros [= <- <-]. destruct Ec as [E1 E2]. split_and!; try done. intros p _. unfold item. simpl. by rewrite E1, E2. }
  destruct Ec as (E0 & i & f & Ed & Hfr & E1 & E2).
  assert (∀ p, p ≠ rel → item u1 p = item (upper o) p ∧ ¬ linked u1 p rel) as H1 by (intros; by eapply created_item).
  pose proof (write_changes now u1 rel 0 (read_all lops (lower o) rel)) as Hw.
  assert (∀ p u2, only_file rel u1 u2 → p ≠ rel → item u2 p = item (upper o) p) as H2.
  { intros p u2 H2 Hp. destruct (H1 p Hp) as [<- Hl]. by eapply only_file_item. }
  destruct (Tmpfs.write_at now u1 rel 0 _) as [[n|e] u2] eqn:Ew; intros [= <- <-]; simpl in *.
  2: { split_and!; try done. intros p Hp. by apply H2. }
  split_and!; try done; [intros p Hp; by apply H2| |exists i|].
  - apply write_contents in Ew as (_ & d & d' & Hd & -> & ->); [|lia]. f_equal. f_equal.
    unfold item in Hd. rewrite E1, lookup_insert_eq in Hd. simpl in Hd. rewrite E2, lookup_insert_eq in Hd. simpl in Hd.
    injection Hd as <-. rewrite Ed. apply written_whole.
  - by rewrite (proj1 Hw), E1, lookup_insert_eq.
  - intros p Hp Hl. apply (H1 p Hp). unfold linked in *. by rewrite (proj1 Hw) in Hl.
Qed.

Lemma copy_up_file {L} (lops : MountFs L) base now depth (o : Overlay TmpFs L) rel a :
  tmp_inv base (upper o) → next_inode (upper o) + len rel + 2 < U64 → item (upper o) rel = None →
  fs_stat lops (lower o) rel = Some a → a_kind a = KFile →
  ∃ r o', copy_up tmpfs lops now (S depth) o rel = Some (r, o') ∧ lower o' = lower o ∧ whiteouts o' = whiteouts o ∧
    dirs_above rel (upper o) (upper o') ∧
    match r with
    | Bad _ => True
    | Good _ => item (upper o') rel = Some (IFile (read_all lops (lower o) rel)) ∧ ∀ p, p ≠ rel → ¬ linked (upper o') p rel
    end.
Proof.
  intros Hi Hn Hu Hs Hk. simpl. rewrite bool_decide_false by (rewrite (proj2 (stat_none _ _) Hu); by intros [? [=]]).
  rewrite Hs, Hk.
  assert (len (parent_of rel) ≤ len rel) as Hl.
  { destruct (parent_cases rel) as [[_ E]|(c & _ & E)]; [rewrite E; unfold len; simpl; lia|].
    apply (f_equal len) in E. rewrite len_app in E. pose proof (len_nonneg (SLASH :: c)). lia. }
  set (o1 := ensure_dir_in_upper tmpfs now o (parent_of rel)).
  assert (made base (parent_of rel) (len (parent_of rel)) (upper o) (upper o1)) as Hm by (apply ensure_made; [lia|done|lia]).
  destruct (copy_file tmpfs lops now o1 rel a) as [r o2] eqn:Ec.
  destruct (copy_file_effect lops base now o1 rel a r o2 (md_inv _ _ _ _ _ Hm)) as (E1 & E2 & E3 & E4);
    [pose proof (md_next _ _ _ _ _ Hm); lia|done|].
  pose proof (above_then _ _ _ _ (made_above _ _ _ _ _ Hm) E3) as Ha. destruct r as [v|e]; [|by exists (Bad e), o2].
  destruct E4 as (E4 & [i Hi2] & E5). destruct (xattrs_same lops o2 rel i Hi2) as (X1 & X2 & X3 & X4).
  eexists (Good tt), _. split; [done|]. split_and!; [by rewrite X1, E1|by rewrite X2, E2| |by rewrite X4, E4|].
  - eapply above_then; [exact Ha|]. intros p Hp. by apply (only_file_item rel); [|done|apply E5].
  - intros p Hp Hlk. apply (E5 p Hp). unfold linked in *. by rewrite (proj1 X3) in Hlk.
Qed.

Lemma unlink_others base u rel p : tmp_inv base u → p ≠ rel → item (Tmpfs.unlink u rel).2 p = item u p.
Proof.
  intros Hi Hp. pose proof (i_wf _ _ (unlink_inv base u rel Hi)) as Hw. revert Hw. unfold Tmpfs.unlink.
  destruct (ancestors_are_dirs u rel); [done|]. destruct (nodes u !! rel) as [n|] eqn:Hn; [|done].
  destruct (is_dir n) eqn:Hd; [by destruct n|]. intros Hw.
  destruct (remove_entry_inv base u rel n Hi Hn) as (_ & En & _); [by eapply not_dir_not_root|by eapply wf_leaf|].
  assert (wf (nodes (remove_entry u rel)) (files (remove_entry u rel)) (next_inode (remove_entry u rel))) as Hw' by (by destruct n).
  assert (item (remove_entry u rel) p = item u p) as <-; [|by destruct n].
  unfold item. rewrite En, lookup_delete_ne by done. destruct (nodes u !! p) as [[m|j|m md|m t]|] eqn:E; try done. simpl.
  assert (is_Some (files (remove_entry u rel) !! j)) as Hj by (apply (w_file _ _ _ Hw' p); by rewrite En, lookup_delete_ne).
  revert Hj. clear. unfold remove_entry. destruct (nodes u !! rel) as [[m|i|m md|m t]|]; try done. simpl.
  destruct (files u !! i) as [f|] eqn:Hf; [|done]. destruct (decide (j = i)) as [->|Hij].
  - rewrite Hf. destruct (_ =? 0); simpl; [|by rewrite lookup_insert_eq].
    unfold drop_file. simpl. rewrite lookup_insert_eq. simpl. rewrite lookup_delete_eq. by intros [? [=]].
  - intros _. destruct (_ =? 0); simpl; [|by rewrite lookup_insert_ne].
    unfold drop_file. simpl. rewrite lookup_insert_eq. simpl. by rewrite lookup_delete_ne, lookup_insert_ne.
Qed.

(** * The merged view *)

Definition merged {L} (lops : MountFs L) (o : Overlay TmpFs L) (p : list Z) : option Item :=
  if is_whited o p then None
  else match item_of tmpfs (upper o) p with Some i => Some i | None => item_of lops (lower o) p end.

Lemma merged_same {L} (lops : MountFs L) (o o' : Overlay TmpFs L) p :
  lower o' = lower o → whiteouts o' = whiteouts o → item (upper o') p = item (upper o) p → merged lops o' p = merged lops o p.
Proof. intros E1 E2 E3. unfold merged, is_whited. by rewrite E1, E2, !item_tmpfs, E3. Qed.
Lemma merged_above {L} (lops : MountFs L) (o o' : Overlay TmpFs L) rel p :
  lower_tree lops (lower o) → is_Some (fs_stat lops (lower o) rel) → lower o' = lower o → whiteouts o' = whiteouts o →
  dirs_above rel (upper o) (upper o') → p ≠ rel → merged lops o' p = merged lops o p.
Proof.
  intros Ht Hs E1 E2 Ha Hp. destruct (Ha p Hp) as [E3|(H1 & H2 & H3 & H4)]; [by apply merged_same|].
  unfold merged, is_whited. rewrite E1, E2, !item_tmpfs, H1, H2.
  destruct (decide (rel = [])) as [->|Hr]; [by rewrite under_nil in H4|].
  rewrite (lower_above lops (lower o) Ht p H3 (length rel) rel); [done|lia|done|by apply under_parent|done].
Qed.

Lemma merged_file {L} (lops : MountFs L) (o : Overlay TmpFs L) rel d : merged lops o rel = Some (IFile d) →
  is_whited o rel = false ∧
  (item (upper o) rel = Some (IFile d) ∨
   item (upper o) rel = None ∧ ∃ a, fs_stat lops (lower o) rel = Some a ∧ a_kind a = KFile ∧ d = read_all lops (lower o) rel).
Proof.
  unfold merged. rewrite item_tmpfs. destruct (is_whited o rel); [done|]. split; [done|].
  destruct (item (upper o) rel) as [i|] eqn:Ei; [left; congruence|]. right. split; [done|]. unfold item_of in *.
  destruct (fs_stat lops (lower o) rel) as [a|]; [|done]. exists a. simpl in *. by destruct (a_kind a); simplify_eq.
Qed.
Lemma file_kind {L} (lops : MountFs L) (o : Overlay TmpFs L) rel d : merged lops o rel = Some (IFile d) →
  a_kind <$> Overlay.stat tmpfs lops o rel = Some KFile.
Proof.
  intros Hm. apply merged_file in Hm as (Hw & [Hi|(Hi & a & Ha & Hk & _)]); unfold Overlay.stat; rewrite Hw; cbn [fs_stat tmpfs].
  - pose proof (stat_item (upper o) rel) as E. rewrite Hi in E. destruct (Tmpfs.stat (upper o) rel) as [b|]; [|done]. done.
  - rewrite (proj2 (stat_none _ _) Hi), Ha. simpl. by rewrite Hk.
Qed.

(** A file's bytes after [buf] was written at [off]: old bytes elsewhere, zeros in a gap. *)
Definition rewritten (d : list Z) (off : Z) (buf d' : list Z) : Prop := ∀ p : nat,
  d' !! p = if decide (off ≤ Z.of_nat p < off + len buf) then buf !! (p - Z.to_nat off)%nat
            else if decide (Z.of_nat p < len d) then d !! p
            else if decide (Z.of_nat p < off + len buf) then Some 0 else None.

(** The write once the file is in the upper layer. *)
Lemma write_upper {L} (lops : MountFs L) now (o : Overlay TmpFs L) rel d off buf r o' :
  is_whited o rel = false → item (upper o) rel = Some (IFile d) → 0 ≤ off →
  on_upper o (Tmpfs.write_at now (upper o) rel off buf) = (r, o') →
  (∀ p, p ≠ rel → ¬ linked (upper o) p rel → merged lops o' p = merged lops o p) ∧
  match r with Bad _ => True | Good n => n = len buf ∧ ∃ d', merged lops o' rel = Some (IFile d') ∧ rewritten d off buf d' end.
Proof.
  intros Hw Hi Hoff. unfold on_upper. intros [= <- <-]. split.
  { intros p Hp Hl. apply merged_same; [done|done|]. apply (only_file_item rel); [apply write_changes|done|done]. }
  destruct (Tmpfs.write_at now (upper o) rel off buf) as [[n|e] u] eqn:Ew; [|done]. simpl.
  apply write_contents in Ew as (-> & d0 & d' & Hd & Hd' & ->); [|done]. rewrite Hi in Hd. injection Hd as <-.
  split; [done|]. eexists. split.
  - unfold merged. change (is_whited (with_upper o u) rel) with (is_whited o rel). by rewrite Hw, item_tmpfs; simpl; rewrite Hd'.
  - intros p. by apply write_bytes.
Qed.

(** C18: Copy-on-write is invisible. Over any lower layer that is a tree, writing to a visible file
    always returns; whatever the outcome, every other path, hard links of the file apart, names
    what it named; and when the write succeeds all of it is written and the file holds its old
    bytes with those written over them, whichever layer it was in. Deleting a visible file succeeds
    and hides exactly it and what is below it. *)
Theorem overlay_copy_on_write {L} (lops : MountFs L) base now depth (o : Overlay TmpFs L) rel d off buf :
  tmp_inv base (upper o) → next_inode (upper o) + len rel + 2 < U64 → lower_tree lops (lower o) →
  merged lops o rel = Some (IFile d) → 0 ≤ off →
  (∃ r o', Overlay.write_at tmpfs lops now (S depth) o rel off buf = Some (r, o') ∧ lower o' = lower o ∧
     (∀ p, p ≠ rel → ¬ linked (upper o) p rel → merged lops o' p = merged lops o p) ∧
     match r with
     | Bad _ => True
     | Good n => n = len buf ∧ ∃ d', merged lops o' rel = Some (IFile d') ∧ rewritten d off buf d'
     end) ∧
  (∃ o', Overlay.unlink tmpfs lops o rel = (Good tt, o') ∧ lower o' = lower o ∧
     ∀ p, merged lops o' p = if under rel p then None else merged lops o p).
Proof.
  intros Hi Hn Ht Hm Hoff. split.
  - destruct (merged_file _ _ _ _ Hm) as [Hw [Hu|(Hu & a & Ha & Hk & ->)]]; unfold Overlay.write_at, copied_up; cbn [fs_write_at tmpfs].
    + simpl. rewrite bool_decide_true.
      2: { apply not_eq_None_Some. intros E. apply stat_none in E. congruence. }
      destruct (on_upper o _) as [r o'] eqn:E. exists r, o'. split; [done|]. split; [by injection E as _ <-|]. by eapply write_upper.
    + destruct (copy_up_file lops base now depth o rel a Hi Hn Hu Ha Hk) as (r & o1 & -> & E1 & E2 & E3 & E4).
      assert (∀ p, p ≠ rel → merged lops o1 p = merged lops o p) as Hsame by (intros; eapply merged_above; eauto).
      destruct r as [v|e]; [|exists (Bad e), o1; split_and!; try done; by intros; apply Hsame]. destruct E4 as [E4 E5].
      destruct (on_upper o1 _) as [r o'] eqn:E. exists r, o'. split; [done|]. split; [injection E as _ <-; exact E1|].
      assert (is_whited o1 rel = false) as Hw1 by (unfold is_whited in *; by rewrite E2).
      destruct (write_upper lops now o1 rel _ off buf r o' Hw1 E4 Hoff E) as [W1 W2].
      split; [|done]. intros p Hp _. rewrite W1; [by apply Hsame|done|by apply E5].
  - pose proof (file_kind _ _ _ _ Hm) as Hk. unfold Overlay.unlink. rewrite Hk. eexists. split; [done|]. split; [done|].
    intros p. unfold merged. rewrite whited_out. destruct (under rel p) eqn:Hr; [done|]. cbn [orb].
    assert (p ≠ rel) as Hp by (intros ->; by rewrite under_refl in Hr).
    rewrite !item_tmpfs. cbn [upper lower white_out with_upper fs_unlink tmpfs]. rewrite (unlink_others base) by done. done.
Qed.
End Spec.

(** * On two in-memory layers *)

Definition layer (l : list (TmpFs → TmpFs)) : TmpFs := foldl (λ s f, f s) tmpfs_new l.
Definition n_d : list Z := [100].
Definition n_e : list Z := [101].
Definition n_f : list Z := [102].
Definition n_x : list Z := [120].
Definition n_y : list Z := [121].
(** The lower layer holds the file [f] and the directory [d] with the file [d/x]. *)
Definition demo_lower : TmpFs :=
  layer [λ s, (Tmpfs.create 1 s n_f 0x1a4).2; λ s, (Tmpfs.write_at 1 s n_f 0 [1; 2; 3]).2; λ s, (Tmpfs.mkdir 1 s n_d 0x1ed).2;
         λ s, (Tmpfs.create 1 s (join_path n_d n_x) 0x1a4).2; λ s, (Tmpfs.write_at 1 s (join_path n_d n_x) 0 [4; 5]).2].
Definition demo_overlay : Overlay TmpFs TmpFs := overlay_new demo_lower tmpfs_new.
Definition after_call {A} (r : option (io A * Overlay TmpFs TmpFs)) : Overlay TmpFs TmpFs := default demo_overlay (snd <$> r).
Definition demo_rename (o : Overlay TmpFs TmpFs) (from to : list Z) := Overlay.rename tmpfs tmpfs 1 9 o from to.
Definition seen (o : Overlay TmpFs TmpFs) (p : list Z) : option Item := merged tmpfs o p.

Lemma demo_lower_tree : lower_tree tmpfs demo_lower.
Proof.
  assert (wf (nodes demo_lower) (files demo_lower) (next_inode demo_lower)) as Hw.
  { refine (i_wf (- NODE_OVERHEAD) _ _).
    repeat first [apply write_at_inv; [|lia|vm_compute; discriminate] | apply create_inv; [|vm_compute; reflexivity]
                 | apply mkdir_inv; [|vm_compute; reflexivity]]. apply start_tmp_inv. }
  intros p a Ha Hp. pose proof (stat_item demo_lower p) as E. cbn [fs_stat tmpfs] in *. rewrite Ha in E. rewrite stat_item.
  unfold item in *. destruct (nodes demo_lower !! p) as [n|] eqn:En; [|done].
  destruct (w_parent _ _ _ Hw p n En Hp) as [m ->]. done.
Qed.
Lemma demo_upper_inv : tmp_inv (- NODE_OVERHEAD) (upper demo_overlay).
Proof. apply start_tmp_inv. Qed.

Lemma overlay_copy_on_write_witness :
  merged tmpfs demo_overlay (join_path n_d n_x) = Some (IFile [4; 5]) ∧
  ∃ r o', Overlay.write_at tmpfs tmpfs 1 9 demo_overlay (join_path n_d n_x) 1 [8; 9] = Some (r, o') ∧
    merged tmpfs o' n_f = merged tmpfs demo_overlay n_f.
Proof.
  assert (merged tmpfs demo_overlay (join_path n_d n_x) = Some (IFile [4; 5])) as Hm by (vm_compute; reflexivity).
  split; [exact Hm|].
  destruct (overlay_copy_on_write tmpfs (- NODE_OVERHEAD) 1 8 demo_overlay (join_path n_d n_x) [4; 5] 1 [8; 9] demo_upper_inv
    ltac:(vm_compute; reflexivity) demo_lower_tree Hm ltac:(lia)) as [(r & o' & E & _ & Ho & _) _].
  exists r, o'. split; [exact E|]. apply Ho; [discriminate|]. intros (i & Hi & _). discriminate Hi.
Defined.

(** Renaming a directory loses files. In the lower layer [d] holds the file [x]; a file [y] is
    created in [d], and [d] is renamed to [e]: the call succeeds, [e/y] is there, and [x] is gone
    under both names. Without [y] the rename keeps [x]; but a new directory [d] made afterwards
    shows the old [x] again. *)
Theorem overlay_rename_loses :
  let o1 := (Overlay.create tmpfs tmpfs 1 demo_overlay (join_path n_d n_y) 0x1a4).2 in
  let o2 := after_call (demo_rename o1 n_d n_e) in
  let o3 := after_call (demo_rename demo_overlay n_d n_e) in
  let o4 := (Overlay.mkdir tmpfs tmpfs 1 o3 n_d 0x1ed).2 in
  seen o1 (join_path n_d n_x) = Some (IFile [4; 5]) ∧
  fst <$> demo_rename o1 n_d n_e = Some (Good tt) ∧
  seen o2 (join_path n_e n_y) = Some (IFile []) ∧ seen o2 (join_path n_e n_x) = None ∧ seen o2 (join_path n_d n_x) = None ∧
  seen o3 (join_path n_e n_x) = Some (IFile [4; 5]) ∧ seen o3 (join_path n_d n_x) = None ∧
  seen o4 (join_path n_d n_x) = Some (IFile [4; 5]).
Proof. vm_compute. repeat split. Qed.

(** A write whose copy does not fit fails and leaves the file empty. *)
Definition tight : Overlay TmpFs TmpFs :=
  overlay_new demo_lower (mkTmp (nodes tmpfs_new) (files tmpfs_new) 2 (mkQuota 258 0)).
Lemma failed_copy_empties :
  seen tight n_f = Some (IFile [1; 2; 3]) ∧
  fst <$> Overlay.write_at tmpfs tmpfs 1 9 tight n_f 0 [9] = Some (Bad ENOSPC) ∧
  seen (after_call (Overlay.write_at tmpfs tmpfs 1 9 tight n_f 0 [9])) n_f = Some (IFile []).
Proof. vm_compute. repeat split. Qed.

(** The whiteout of [d/x] outlives [d]: a directory with a file [x] renamed to [d] loses it. *)
Lemma stale_whiteout_hides :
  let o1 := (Overlay.rmdir tmpfs tmpfs (Overlay.unlink tmpfs tmpfs demo_overlay (join_path n_d n_x)).2 n_d).2 in
  let o2 := (Overlay.create tmpfs tmpfs 1 (Overlay.mkdir tmpfs tmpfs 1 o1 n_e 0x1ed).2 (join_path n_e n_x) 0x1a4).2 in
  let o3 := after_call (demo_rename o2 n_e n_d) in
  seen o2 (join_path n_e n_x) = Some (IFile []) ∧ fst <$> demo_rename o2 n_e n_d = Some (Good tt) ∧
  seen o3 n_d = Some IDir ∧ seen o3 (join_path n_d n_x) = None.
Proof. vm_compute. repeat split. Qed.

(** * Copying ends *)

(** How many slashes a path has. *)
Definition slashes (p : list Z) : nat := count_occ Z.eq_dec p SLASH.
Lemma slashes_join dir name : dir ≠ [] → slashes (join_path dir name) = S (slashes dir + slashes name).
Proof. destruct dir as [|c dir]; [done|]. intros _. unfold slashes, join_path. rewrite count_occ_app. simpl. lia. Qed.

Section Depth.
Context {U L : Type} (uops : MountFs U) (lops : MountFs L) (now : Z) (l : L) (n : nat).
(** No path of the lower layer has [n] slashes. *)
Hypothesis Hdeep : ∀ p, is_Some (fs_stat lops l p) → (slashes p < n)%nat.

Lemma xattrs_lower (o : Overlay U L) rel : lower (copy_up_xattrs uops lops o rel) = lower o.
Proof.
  unfold copy_up_xattrs. destruct (fs_listxattr lops (lower o) rel) as [names|]; [|done].
  revert o. induction names as [|name names IH]; intros o; [done|]. simpl. rewrite IH.
  unfold copy_xattr. by destruct (fs_getxattr lops (lower o) rel name).
Qed.

(** [f] always returns, and leaves the lower layer alone. *)
Definition returns_on (f : Overlay U L → list Z → option (io unit * Overlay U L)) (rel : list Z) : Prop :=
  ∀ o, lower o = l → ∃ r o', f o rel = Some (r, o') ∧ lower o' = l.
Lemma children_return f rel es : (∀ e, returns_on f (join_path rel (d_name e))) →
  returns_on (λ o rel, copy_children f rel es o) rel.
Proof.
  intros Hf. induction es as [|e es IH]; intros o Ho; simpl; [by exists (Good tt), o|].
  destruct (is_whited o _); [by apply IH|]. destruct (Hf e o Ho) as ([[]|er] & o' & -> & Ho'); [by apply IH|]. by exists (Bad er), o'.
Qed.
(** [copy_up] returns once it may go as deep as the lower layer is. *)
Lemma copy_up_returns depth : ∀ rel, rel ≠ [] → (n ≤ slashes rel + depth)%nat → returns_on (copy_up uops lops now (S depth)) rel.
Proof.
  induction depth as [|depth IH]; intros rel Hr Hn o Ho.
  { simpl. case_bool_decide; [by exists (Good tt), o|]. rewrite Ho.
    destruct (fs_stat lops l rel) as [a|] eqn:Ea; [|by exists (Good tt), o].
    assert (slashes rel < n)%nat by (apply Hdeep; by rewrite Ea). lia. }
  remember (S depth) as k eqn:Ek. simpl. case_bool_decide; [by exists (Good tt), o|]. rewrite Ho.
  destruct (fs_stat lops l rel) as [a|] eqn:Ea; [|by exists (Good tt), o].
  assert (∀ c : option (io unit * Overlay U L), (∃ r o', c = Some (r, o') ∧ lower o' = l) →
    ∃ r o', match c with Some (Good _, o) => Some (Good tt, copy_up_xattrs uops lops o rel) | x => x end = Some (r, o') ∧ lower o' = l) as Hfin.
  { intros c ([v|e] & o' & -> & Ho'); [|by exists (Bad e), o'].
    eexists _, _. split; [done|]. by rewrite xattrs_lower. }
  apply Hfin. set (o1 := ensure_dir_in_upper uops now o (parent_of rel)). assert (lower o1 = l) as Ho1 by done.
  assert (∃ r o', Some (copy_file uops lops now o1 rel a) = Some (r, o') ∧ lower o' = l) as Hfile.
  { destruct (copy_file uops lops now o1 rel a) as [r o'] eqn:E. exists r, o'. split; [done|]. revert E. unfold copy_file.
    destruct (fs_create _ _ _ _ _) as [[v|e] u]; [|by intros [= _ <-]]. by destruct (fs_write_at _ _ _ _ _ _) as [[v'|e] u']; intros [= _ <-]. }
  destruct (a_kind a); try exact Hfile.
  - destruct (fs_readdir lops l rel) as [es|e]; [|by eexists _, _].
    apply (children_return (copy_up uops lops now k)); [|done]. intros e. subst k. apply IH; [by destruct rel|].
    rewrite slashes_join by done. lia.
  - destruct (fs_readlink lops l rel) as [t|e]; by eexists _, _.
Qed.
End Depth.
