(* ===== verification/Mount.v ===== *)
(** The mount table ([src/fs/mount.rs]): mounts of shared file systems per mount namespace, longest-prefix
    resolution, symbolic links among directories, bind mounts, propagation between peers, [pivot_root] and
    detached mounts. A file system is an index into the store of back ends, which mounts share. *)
From S2P Require Import Prelude Abi Path Vfs Quota Tmpfs.
From stdpp Require Import base numbers gmap list sorting.
Local Open Scope Z_scope.

Abbreviation str := (list Z).

(** [format!("{a}/{b}")]. *)
Definition slash (a b : str) : str := a ++ SLASH :: b.

(** * Paths *)

(** [normalize]: the same function as the kernel's. *)
Definition normalize (p : str) : str := Path.normalize p.

Definition str_strip (p s : str) : option str :=
  if bool_decide (p `prefix_of` s) then Some (drop (length p) s) else None.
Definition head_slash (s : str) : bool := match s with c :: _ => c =? SLASH | [] => false end.

Definition path_has_prefix (path mp : str) : bool :=
  if bool_decide (mp = [SLASH]) then true
  else match str_strip mp path with
       | Some rest => bool_decide (rest = []) || head_slash rest
       | None => false
       end.

Fixpoint trim_slashes (s : str) : str :=
  match s with c :: s' => if c =? SLASH then trim_slashes s' else s | [] => [] end.
Definition relative_to (path mp : str) : str :=
  trim_slashes (if bool_decide (mp = [SLASH]) then path else default path (str_strip mp path)).

Definition path_strip (fs_path subdir : str) : option str :=
  match subdir with
  | [] => Some fs_path
  | _ => if bool_decide (fs_path = subdir) then Some []
         else r ← str_strip subdir fs_path; str_strip [SLASH] r
  end.

Definition DETACHED_MARK : Z := 0.
(** [rest.find('/')], as the part before it. *)
Fixpoint to_slash (s : str) : str :=
  match s with c :: s' => if c =? SLASH then [] else c :: to_slash s' | [] => [] end.
Definition detached_root (path : str) : option str :=
  rest ← str_strip [SLASH] path;
  if starts_with [DETACHED_MARK] rest then Some (SLASH :: to_slash rest) else None.

(** A [u32] in decimal. *)
Fixpoint dec_loop (fuel : nat) (n : Z) (acc : str) : str :=
  match fuel with
  | O => acc
  | S fuel => let acc := (48 + n mod 10) :: acc in if n <? 10 then acc else dec_loop fuel (n / 10) acc
  end.
Definition decimal (n : Z) : str := dec_loop 10 n [].
Definition hidden_point (n : Z) : str := SLASH :: DETACHED_MARK :: decimal n.

(** * Mounts *)

Record Mount := mkMount {
  point : str; fs : nat; subdir : str; guest : bool; read_only : bool; locked : bool;
  pivot_side : Z; peer : Z; master : Z; unbindable : bool
}.

Definition mount_new (p : str) (f : nat) (g : bool) : Mount := mkMount p f [] g false false 0 0 0 false.
Definition with_point (m : Mount) (p : str) : Mount :=
  mkMount p (fs m) (subdir m) (guest m) (read_only m) (locked m) (pivot_side m) (peer m) (master m) (unbindable m).
(** A copy for another place: [guest: true, locked: false, ..m.clone()]. *)
Definition copy_at (m : Mount) (p sub : str) : Mount :=
  mkMount p (fs m) sub true (read_only m) false (pivot_side m) (peer m) (master m) (unbindable m).
Definition with_groups (m : Mount) (p q : Z) (u : bool) : Mount :=
  mkMount (point m) (fs m) (subdir m) (guest m) (read_only m) (locked m) (pivot_side m) p q u.
Definition with_side (m : Mount) (side : Z) : Mount :=
  mkMount (point m) (fs m) (subdir m) (guest m) (read_only m) (locked m) side (peer m) (master m) (unbindable m).
Definition with_ro (m : Mount) (ro : bool) : Mount :=
  mkMount (point m) (fs m) (subdir m) (guest m) ro (locked m) (pivot_side m) (peer m) (master m) (unbindable m).
Definition with_lock (m : Mount) (l : bool) : Mount :=
  mkMount (point m) (fs m) (subdir m) (guest m) (read_only m) l (pivot_side m) (peer m) (master m) (unbindable m).

(** [Mount::fs_path]. *)
Definition fs_path (m : Mount) (rel : str) : str :=
  match subdir m, rel with
  | [], _ => rel
  | _, [] => subdir m
  | _, _ => slash (subdir m) rel
  end.

Section Table.
Context {F : Type} (ops : MountFs F).

Record MountTable := mkTable {
  mounts : list Mount; current : Z; parked : gmap Z (list Mount); root : str;
  pivots : Z; detached : Z; groups : Z; store : list F
}.

Definition table_new : MountTable := mkTable [] 0 ∅ [] 0 0 0 [].

Definition with_mounts (t : MountTable) (ms : list Mount) : MountTable :=
  mkTable ms (current t) (parked t) (root t) (pivots t) (detached t) (groups t) (store t).
Definition with_parked (t : MountTable) (p : gmap Z (list Mount)) : MountTable :=
  mkTable (mounts t) (current t) p (root t) (pivots t) (detached t) (groups t) (store t).
Definition with_groups_count (t : MountTable) (n : Z) : MountTable :=
  mkTable (mounts t) (current t) (parked t) (root t) (pivots t) (detached t) n (store t).
Definition with_store (t : MountTable) (s : list F) : MountTable :=
  mkTable (mounts t) (current t) (parked t) (root t) (pivots t) (detached t) (groups t) s.
Definition with_detached (t : MountTable) (n : Z) : MountTable :=
  mkTable (mounts t) (current t) (parked t) (root t) (pivots t) n (groups t) (store t).

(** * Namespaces *)

Definition enter (t : MountTable) (ns : Z) (r : str) : MountTable :=
  let t :=
    if current t =? ns then t
    else
      let incoming := default [] (parked t !! ns) in
      mkTable incoming ns (<[current t := mounts t]> (delete ns (parked t))) (root t) (pivots t)
        (detached t) (groups t) (store t) in
  let r := if bool_decide (r = [SLASH]) then [] else r in
  mkTable (mounts t) (current t) (parked t) r (pivots t) (detached t) (groups t) (store t).

Definition copy_namespace (t : MountTable) (from new : Z) (lock_inherited : bool) : MountTable :=
  let copy := if from =? current t then mounts t else default [] (parked t !! from) in
  let copy :=
    if lock_inherited then
      (λ m, let m := if bool_decide (point m = [SLASH]) then m else with_lock m true in
            if peer m =? 0 then m else with_groups m 0 (peer m) (unbindable m)) <$> copy
    else copy in
  with_parked t (<[new := copy]> (parked t)).

Definition collect_namespaces (t : MountTable) (in_use : list Z) : MountTable :=
  with_parked t (filter (λ kv, kv.1 = 0 ∨ kv.1 ∈ in_use) (parked t)).

Definition namespace_count (t : MountTable) : nat := size (parked t) + 1.

(** * Resolution *)

(** The loop of [best_mount], with the best so far and its length. *)
Fixpoint best_from (ms : list Mount) (i : nat) (path : str) (best : option nat) (best_len : nat) : option nat :=
  match ms with
  | [] => best
  | m :: ms =>
    if path_has_prefix path (point m) && (best_len <=? length (point m))%nat
    then best_from ms (S i) path (Some i) (length (point m))
    else best_from ms (S i) path best best_len
  end.
Definition best_mount (t : MountTable) (path : str) : option nat := best_from (mounts t) 0 path None 0.

(** The mount that owns [path], and the path in its file system. *)
Definition locate (t : MountTable) (path : str) : option (Mount * str) :=
  i ← best_mount t path; m ← mounts t !! i; Some (m, fs_path m (relative_to path (point m))).

(** [stat_raw] and, for symbolic links, [readlink] of a canonical path. *)
Definition stat_raw (t : MountTable) (path : str) : option Attrs :=
  '(m, rel) ← locate t path; f ← store t !! fs m; fs_stat ops f rel.
Definition readlink_raw (t : MountTable) (path : str) : option str :=
  '(m, rel) ← locate t path; f ← store t !! fs m;
  match fs_readlink ops f rel with Good s => Some s | Bad _ => None end.

Definition SYMLINK_MAX : nat := 40.
(** The components of a path or of a link's target. *)
Definition comps (p : str) : list str := filter (λ c, c ≠ []) (Path.split p).
(** [done.truncate(done.rfind('/').unwrap_or(0))]. *)
Definition pop_comp (r done : str) : str :=
  if (length r <? length done)%nat then parent_of done else done.

(** How the walk of [canonical] ends: at the last component, at a component that does not exist with
    the rest still to go, or by giving up on the links. *)
Inductive Walk := Reached (done : str) | Missing (cand : str) (rest : list str) | GaveUp.

Fixpoint walk (t : MountTable) (hops : nat) : str → list str → Walk :=
  fix go (done : str) (rest : list str) : Walk :=
    match rest with
    | [] => Reached done
    | c :: rest =>
      if bool_decide (c = [DOT]) then go done rest
      else if bool_decide (c = [DOT; DOT]) then go (pop_comp (root t) done) rest
      else
        let cand := slash done c in
        match rest with
        | [] => Reached cand
        | _ =>
          match stat_raw t cand with
          | None => Missing cand rest
          | Some a =>
            if bool_decide (a_kind a = KSymlink) then
              match hops with
              | O => GaveUp
              | S hops =>
                match readlink_raw t cand with
                | None => GaveUp
                | Some target =>
                  walk t hops (if starts_with [SLASH] target then root t else done) (comps target ++ rest)
                end
              end
            else go cand rest
          end
        end
    end.

Definition is_dir_at (t : MountTable) (p : str) : bool :=
  match stat_raw t p with Some a => bool_decide (a_kind a = KDir) | None => false end.
Definition finish (path : str) (w : Walk) : str :=
  match w with
  | GaveUp => path
  | Missing cand rest => normalize (foldl slash cand rest)
  | Reached done => match done with [] => [SLASH] | _ => done end
  end.
Definition canonical (t : MountTable) (abs_path : str) : str :=
  let path := normalize abs_path in
  match parent_of path with
  | [] => path
  | parent => if is_dir_at t parent then path else finish path (walk t SYMLINK_MAX [] (comps path))
  end.

Definition resolve (t : MountTable) (abs_path : str) : option (Mount * str) := locate t (canonical t abs_path).

Definition stat (t : MountTable) (p : str) : option Attrs :=
  '(m, rel) ← resolve t p; f ← store t !! fs m; fs_stat ops f rel.
Definition read_at (t : MountTable) (p : str) (off n : Z) : io (list Z) :=
  match resolve t p with
  | Some (m, rel) => match store t !! fs m with Some f => fs_read_at ops f rel off n | None => Bad ENOENT end
  | None => Bad ENOENT
  end.
Definition readdir (t : MountTable) (p : str) : io (list DirEntry) :=
  match resolve t p with
  | Some (m, rel) => match store t !! fs m with Some f => fs_readdir ops f rel | None => Bad ENOENT end
  | None => Bad ENOENT
  end.
Definition readlink (t : MountTable) (p : str) : io str :=
  match resolve t p with
  | Some (m, rel) => match store t !! fs m with Some f => fs_readlink ops f rel | None => Bad ENOENT end
  | None => Bad ENOENT
  end.

(** [join_root] and [join_relative]. *)
Definition join_root (t : MountTable) (p : str) : str := normalize (slash (root t) (normalize p)).
Definition join_relative (t : MountTable) (dir target : str) : str :=
  match str_strip (root t) dir, root t with
  | Some inside, _ :: _ => join_root t (slash inside target)
  | _, _ => normalize (slash dir target)
  end.

(** [follow]. *)
Fixpoint follow_loop (t : MountTable) (n : nat) (p : str) : option str :=
  match n with
  | O => None
  | S n =>
    match stat t p with
    | Some a =>
      if bool_decide (a_kind a = KSymlink) then
        match readlink t p with
        | Good target =>
          follow_loop t n (if starts_with [SLASH] target then join_root t target
                           else join_relative t (parent_of p) target)
        | Bad _ => None
        end
      else Some p
    | None => Some p
    end
  end.
Definition follow (t : MountTable) (abs_path : str) : option str := follow_loop t SYMLINK_MAX (normalize abs_path).

(** * Calls that change a file *)

(** [resolve_for_write]. *)
Definition resolve_for_write (t : MountTable) (abs_path : str) : io (Mount * str) :=
  match resolve t abs_path with
  | None => Bad ENOENT
  | Some (m, rel) => if read_only m then Bad EROFS else Good (m, rel)
  end.
(** Run an operation of the file system [i] on it. *)
Definition on_fs {A} (t : MountTable) (i : nat) (op : F → io A * F) : io A * MountTable :=
  match store t !! i with
  | Some f => let '(r, f') := op f in (r, with_store t (<[i := f']> (store t)))
  | None => (Bad ENOENT, t)
  end.
Definition for_write {A} (t : MountTable) (p : str) (op : F → str → io A * F) : io A * MountTable :=
  match resolve_for_write t p with
  | Bad e => (Bad e, t)
  | Good (m, rel) => on_fs t (fs m) (λ f, op f rel)
  end.

Definition write_at (now : Z) (t : MountTable) (p : str) (off : Z) (buf : list Z) : io Z * MountTable :=
  for_write t p (λ f rel, fs_write_at ops now f rel off buf).
Definition create (now : Z) (t : MountTable) (p : str) (mode : Z) : io unit * MountTable :=
  for_write t p (λ f rel, fs_create ops now f rel mode).
Definition mkdir (now : Z) (t : MountTable) (p : str) (mode : Z) : io unit * MountTable :=
  for_write t p (λ f rel, fs_mkdir ops now f rel mode).
Definition mknod (now : Z) (t : MountTable) (p : str) (mode : Z) : io unit * MountTable :=
  for_write t p (λ f rel, fs_mknod ops now f rel mode).
Definition unlink (t : MountTable) (p : str) : io unit * MountTable := for_write t p (fs_unlink ops).
Definition rmdir (t : MountTable) (p : str) : io unit * MountTable := for_write t p (fs_rmdir ops).
Definition truncate (now : Z) (t : MountTable) (p : str) (n : Z) : io unit * MountTable :=
  for_write t p (λ f rel, fs_truncate ops now f rel n).
Definition set_times (now : Z) (t : MountTable) (p : str) (a m : SetTime) : io unit * MountTable :=
  for_write t p (λ f rel, fs_set_times ops now f rel a m).
Definition set_owner (t : MountTable) (p : str) (u g : option Z) : io unit * MountTable :=
  for_write t p (λ f rel, fs_set_owner ops f rel u g).
Definition set_mode (t : MountTable) (p : str) (mode : Z) : io unit * MountTable :=
  for_write t p (λ f rel, fs_set_mode ops f rel mode).
Definition symlink (now : Z) (t : MountTable) (target p : str) : io unit * MountTable :=
  for_write t p (λ f rel, fs_symlink ops now f target rel).
Definition setxattr (t : MountTable) (p name value : str) : io unit * MountTable :=
  for_write t p (λ f rel, fs_setxattr ops f rel name value).
Definition removexattr (t : MountTable) (p name : str) : io unit * MountTable :=
  for_write t p (λ f rel, fs_removexattr ops f rel name).

(** [rename] and [link]: both paths on one mount. *)
Definition two_paths (t : MountTable) (a b : str) (op : F → str → str → io unit * F) : io unit * MountTable :=
  let a := canonical t a in
  let b := canonical t b in
  match best_mount t a with
  | None => (Bad ENOENT, t)
  | Some i =>
    match best_mount t b with
    | None => (Bad ENOENT, t)
    | Some j =>
      if negb (i =? j)%nat then (Bad EXDEV, t)
      else match mounts t !! i with
           | None => (Bad ENOENT, t)
           | Some m =>
             if read_only m then (Bad EROFS, t)
             else on_fs t (fs m) (λ f, op f (fs_path m (relative_to a (point m))) (fs_path m (relative_to b (point m))))
           end
    end
  end.
Definition rename (t : MountTable) (from to : str) : io unit * MountTable := two_paths t from to (fs_rename ops).
Definition link (t : MountTable) (old new : str) : io unit * MountTable := two_paths t old new (fs_link ops).

(** * Propagation *)

Definition sorted_keys (m : gmap Z (list Mount)) : list Z := merge_sort Z.le (map_to_list m).*1.
(** Every mount of every namespace, the current one's first. *)
Definition all_mounts (t : MountTable) : list (Z * Mount) :=
  ((λ m, (current t, m)) <$> mounts t) ++
  (sorted_keys (parked t) ≫= λ ns, (λ m, (ns, m)) <$> default [] (parked t !! ns)).
(** [self.list_mut(ns).push(m)]. *)
Definition push_to (t : MountTable) (ns : Z) (m : Mount) : MountTable :=
  if ns =? current t then with_mounts t (mounts t ++ [m])
  else with_parked t (<[ns := default [] (parked t !! ns) ++ [m]]> (parked t)).

(** The [u32] counters of the table - peer groups here, hidden names and pivots below - wrap as in a
    release build; one with overflow checks panics there. *)
Definition fresh_group (t : MountTable) : Z * MountTable :=
  let g := wrap U32 (groups t + 1) in (g, with_groups_count t g).

(** Give every mount of the new tree a peer group. *)
Fixpoint share_tree (t : MountTable) (tree : list Mount) : list Mount * MountTable :=
  match tree with
  | [] => ([], t)
  | m :: tree =>
    let '(m, t) := if peer m =? 0 then let '(g, t) := fresh_group t in (with_groups m g (master m) (unbindable m), t)
                   else (m, t) in
    let '(tree, t) := share_tree t tree in (m :: tree, t)
  end.

(** [place]: the copies of the tree for one target. *)
Definition place (at_ top_point : str) (tree : list Mount) (ns : Z) (target : Mount) (peers masters : list Z) : list (Z * Mount) :=
  match path_strip at_ (subdir target) with
  | None => []
  | Some at_target =>
    let p := normalize (slash (point target) at_target) in
    imap (λ k m, (ns, with_side (with_groups (copy_at m (normalize (slash p (relative_to (point m) top_point))) (subdir m))
                                   (nth k peers 0) (nth k masters 0) (unbindable m)) (pivot_side target))) tree
  end.

Definition QItem : Type := Z * list Z * list Z.
(** One pass over the mounts for a peer group: the copies it makes, and the groups it queues. *)
Definition spread1 (parent : Mount) (cur : Z) (at_ top_point : str) (tree : list Mount) (group : Z) (peers masters : list Z)
    (nt : Z * Mount) : list (Z * Mount) * list QItem :=
  let '(ns, target) := nt in
  let is_source := (ns =? cur) && bool_decide (point target = point parent) in
  let same_fs := (fs target =? fs parent)%nat in
  if (peer target =? group) && negb is_source && same_fs then (place at_ top_point tree ns target peers masters, [])
  else if (master target =? group) && same_fs then
    if peer target =? 0 then (place at_ top_point tree ns target (replicate (length tree) 0) peers, [])
    else ([], [(peer target, replicate (length tree) 0, peers)])
  else ([], []).
Definition spread (parent : Mount) (cur : Z) (at_ top_point : str) (tree : list Mount) (group : Z) (peers masters : list Z)
    (all : list (Z * Mount)) : list (Z * Mount) * list QItem :=
  foldl (λ acc nt, let '(c, q) := spread1 parent cur at_ top_point tree group peers masters nt in (acc.1 ++ c, acc.2 ++ q)) ([], []) all.

(** Fresh peer groups for the queued levels that have none yet. *)
Fixpoint fill_groups (g : Z) (ps : list Z) : list Z * Z :=
  match ps with
  | [] => ([], g)
  | p :: ps =>
    let '(p, g) := if p =? 0 then (wrap U32 (g + 1), wrap U32 (g + 1)) else (p, g) in
    let '(ps, g) := fill_groups g ps in (p :: ps, g)
  end.
Fixpoint fill_queue (g : Z) (q : list QItem) : list QItem * Z :=
  match q with
  | [] => ([], g)
  | (x, ps, ms) :: q =>
    let '(ps, g) := fill_groups g ps in
    let '(q, g) := fill_queue g q in ((x, ps, ms) :: q, g)
  end.

(** The loop of [attach]; the queue's end is popped first. *)
Fixpoint attach_loop (fuel : nat) (parent : Mount) (cur : Z) (at_ top_point : str) (tree : list Mount) (all : list (Z * Mount))
    (queue : list QItem) (seen : list Z) (copies : list (Z * Mount)) (g : Z) : option (list (Z * Mount) * Z) :=
  match fuel with
  | O => None
  | S fuel =>
    match last queue with
    | None => Some (copies, g)
    | Some (group, peers, masters) =>
      let queue := removelast queue in
      if bool_decide (group ∈ seen) then attach_loop fuel parent cur at_ top_point tree all queue seen copies g
      else
        let '(c, q) := spread parent cur at_ top_point tree group peers masters all in
        let '(queue, g) := fill_queue g (queue ++ q) in
        attach_loop fuel parent cur at_ top_point tree all queue (group :: seen) (copies ++ c) g
    end
  end.
Definition loop_fuel (n : nat) : nat := S ((n + 2) * (n + 2)).

(** [attach]. *)
Definition attach (t : MountTable) (tree : list Mount) : option MountTable :=
  match tree with
  | [] => Some t
  | top :: _ =>
    let top_point := point top in
    match best_mount t top_point ≫= λ i, mounts t !! i with
    | None => Some (with_mounts t (mounts t ++ tree))
    | Some parent =>
      if peer parent =? 0 then Some (with_mounts t (mounts t ++ tree))
      else
        let '(tree, t) := share_tree t tree in
        let at_ := fs_path parent (relative_to top_point (point parent)) in
        let all := all_mounts t in
        '(copies, g) ← attach_loop (loop_fuel (length all)) parent (current t) at_ top_point tree all
                         [(peer parent, peer <$> tree, replicate (length tree) 0)] [] [] (groups t);
        let t := with_groups_count (with_mounts t (mounts t ++ tree)) g in
        Some (foldl (λ t nm, push_to t nm.1 nm.2) t copies)
    end
  end.

(** [receivers]. *)
Definition receive1 (g : Z) (all : list (Z * Mount)) : list (Z * Mount) * list Z :=
  (List.filter (λ nm, (peer nm.2 =? g) || (master nm.2 =? g)) all,
   omap (λ nm, if (master nm.2 =? g) && negb (peer nm.2 =? 0) then Some (peer nm.2) else None) all).
Fixpoint receivers_loop (fuel : nat) (all : list (Z * Mount)) (gs seen : list Z) (out : list (Z * Mount)) : option (list (Z * Mount)) :=
  match fuel with
  | O => None
  | S fuel =>
    match last gs with
    | None => Some out
    | Some g =>
      let gs := removelast gs in
      if bool_decide (g ∈ seen) then receivers_loop fuel all gs seen out
      else let '(o, q) := receive1 g all in receivers_loop fuel all (gs ++ q) (g :: seen) (out ++ o)
    end
  end.
Definition receivers (t : MountTable) (group : Z) : option (list (Z * Mount)) :=
  let all := all_mounts t in receivers_loop (loop_fuel (length all)) all [group] [] [].

(** * Mounting *)

(** A new back end joins the store. *)
Definition add_fs (t : MountTable) (f : F) : nat * MountTable := (length (store t), with_store t (store t ++ [f])).
Definition mount (t : MountTable) (p : str) (f : F) : MountTable :=
  let '(i, t) := add_fs t f in with_mounts t (mounts t ++ [mount_new (normalize p) i false]).
Definition mount_guest (t : MountTable) (p : str) (f : F) : option MountTable :=
  let '(i, t) := add_fs t f in attach t [mount_new (normalize p) i true].

Definition bind (t : MountTable) (source target : str) (recursive : bool) : io (option MountTable) :=
  let source := canonical t source in
  let target := normalize target in
  match best_mount t source ≫= λ i, mounts t !! i with
  | None => Bad ENOENT
  | Some m =>
    if unbindable m then Bad EINVAL
    else
      let top := copy_at m target (fs_path m (relative_to source (point m))) in
      let below :=
        if recursive then
          omap (λ m, if negb (bool_decide (point m = source)) && path_has_prefix (point m) source && negb (unbindable m)
                     then Some (copy_at m (normalize (slash target (relative_to (point m) source))) (subdir m)) else None) (mounts t)
        else [] in
      Good (attach t (top :: below))
  end.

(** The part of [p] below [from], put below [to]. *)
Definition repoint (from to p : str) : str := normalize (slash to (relative_to p from)).
Definition move_mount (t : MountTable) (from to : str) : io unit * MountTable :=
  let from := normalize from in
  let to := normalize to in
  if existsb (λ m, bool_decide (point m = from) && negb (locked m)) (mounts t)
  then (Good tt, with_mounts t ((λ m, if path_has_prefix (point m) from then with_point m (repoint from to (point m)) else m) <$> mounts t))
  else (Bad EINVAL, t).

(** [rposition(|m| m.point == point)]. *)
Fixpoint rposition (P : Mount → bool) (ms : list Mount) : option nat :=
  match ms with
  | [] => None
  | m :: ms => match rposition P ms with Some i => Some (S i) | None => if P m then Some O else None end
  end.
Definition at_point (p : str) (m : Mount) : bool := bool_decide (point m = p).

Definition set_read_only (t : MountTable) (p : str) (ro : bool) : io unit * MountTable :=
  match rposition (at_point (normalize p)) (mounts t) with
  | None => (Bad EINVAL, t)
  | Some i =>
    match mounts t !! i with
    | None => (Bad EINVAL, t)
    | Some m =>
      if locked m && read_only m && negb ro then (Bad EPERM, t)
      else (Good tt, with_mounts t (<[i := with_ro m ro]> (mounts t)))
    end
  end.
Definition is_mount_point (t : MountTable) (p : str) : bool := existsb (at_point (normalize p)) (mounts t).

Record PathMove := mkPathMove { pm_from : str; pm_to : str }.
Definition move_translate (pm : PathMove) (path : str) : str :=
  if path_has_prefix path (pm_from pm) then repoint (pm_from pm) (pm_to pm) path else path.

Record PivotMap := mkPivotMap { new_root : str; put_old : str }.
Definition pivot_translate (m : PivotMap) (path : str) : str :=
  if path_has_prefix path (new_root m) then normalize (SLASH :: relative_to path (new_root m))
  else normalize (slash (put_old m) path).

(** The mounts that become the new tree and those that stay with the old root, from index [i] on. *)
Fixpoint pivot_split (ms : list Mount) (i top : nat) (nr po : str) (side : Z) : list Mount * list Mount :=
  match ms with
  | [] => ([], [])
  | m :: ms =>
    let '(kept, old) := pivot_split ms (S i) top nr po side in
    if (top <=? i)%nat && path_has_prefix (point m) nr
    then (with_point m (normalize (SLASH :: relative_to (point m) nr)) :: kept, old)
    else (kept, with_side (with_point m (normalize (slash po (point m)))) side :: old)
  end.
Definition pivot_root (t : MountTable) (nr po : str) : io (PivotMap * MountTable) :=
  let nr := normalize nr in
  let po := normalize po in
  if negb (is_mount_point t nr) || negb (path_has_prefix po nr) || bool_decide (nr = [SLASH]) then Bad EINVAL
  else
    let map := mkPivotMap nr (normalize (SLASH :: relative_to po nr)) in
    let side := wrap U32 (pivots t + 1) in
    match rposition (at_point nr) (mounts t) with
    | None => Bad EINVAL
    | Some top =>
      let '(kept, old) := pivot_split (mounts t) 0 top nr (put_old map) side in
      Good (map, mkTable (kept ++ old) (current t) (parked t) (root t) side (detached t) (groups t) (store t))
    end.

(** * Unmounting *)

(** The mount above the one that goes: the longest proper prefix, the latest of several. *)
Fixpoint parent_from (ms : list Mount) (i gone_i : nat) (p : str) (best : option Mount) : option Mount :=
  match ms with
  | [] => best
  | m :: ms =>
    let better := negb (i =? gone_i)%nat && path_has_prefix p (point m) && negb (at_point p m) &&
                  match best with Some b => (length (point b) <=? length (point m))%nat | None => true end in
    parent_from ms (S i) gone_i p (if better then Some m else best)
  end.
Definition list_of (t : MountTable) (ns : Z) : list Mount :=
  if ns =? current t then mounts t else default [] (parked t !! ns).
(** [list_mut] also makes an empty list for a namespace that has none. *)
Definition set_list (t : MountTable) (ns : Z) (ms : list Mount) : MountTable :=
  if ns =? current t then with_mounts t ms else with_parked t (<[ns := ms]> (parked t)).
Definition drop_copy (parent gone : Mount) (at_ : str) (t : MountTable) (nt : Z * Mount) : MountTable :=
  let '(ns, target) := nt in
  if ((ns =? current t) && bool_decide (point target = point parent)) || negb (fs target =? fs parent)%nat then t
  else
    match path_strip at_ (subdir target) with
    | None => t
    | Some below =>
      let p := normalize (slash (point target) below) in
      let ms := list_of t ns in
      let t := set_list t ns ms in
      if existsb (λ m, negb (at_point p m) && path_has_prefix (point m) p) ms then t
      else match rposition (λ m, at_point p m && (fs m =? fs gone)%nat) ms with
           | Some k => set_list t ns (delete k ms)
           | None => t
           end
    end.
Definition propagate_unmount (t : MountTable) (i : nat) : option MountTable :=
  gone ← mounts t !! i;
  match parent_from (mounts t) 0 i (point gone) None with
  | None => Some t
  | Some parent =>
    if peer parent =? 0 then Some t
    else
      let at_ := fs_path parent (relative_to (point gone) (point parent)) in
      rs ← receivers t (peer parent);
      Some (foldl (drop_copy parent gone at_) t rs)
  end.

Inductive Propagation := Shared | Slave | Private | Unbindable.
Definition count_peers (t : MountTable) (g : Z) : nat := length (List.filter (λ nm, peer nm.2 =? g) (all_mounts t)).
Definition propagate1 (kind : Propagation) (t : MountTable) (i : nat) : MountTable :=
  match mounts t !! i with
  | None => t
  | Some m =>
    match kind with
    | Shared =>
      if peer m =? 0 then
        let '(g, t) := fresh_group t in with_mounts t (<[i := with_groups m g (master m) false]> (mounts t))
      else with_mounts t (<[i := with_groups m (peer m) (master m) false]> (mounts t))
    | Private => with_mounts t (<[i := with_groups m 0 0 false]> (mounts t))
    | Unbindable => with_mounts t (<[i := with_groups m 0 0 true]> (mounts t))
    | Slave =>
      if peer m =? 0 then with_mounts t (<[i := with_groups m 0 (master m) false]> (mounts t))
      else
        let others := (1 <? count_peers t (peer m))%nat in
        with_mounts t (<[i := with_groups m 0 (if others then peer m else master m) false]> (mounts t))
    end
  end.
Definition set_propagation (t : MountTable) (p : str) (kind : Propagation) (recursive : bool) : io unit * MountTable :=
  let p := normalize p in
  match rposition (at_point p) (mounts t) with
  | None => (Bad EINVAL, t)
  | Some top =>
    let targets := List.filter (λ i, (i =? top)%nat ||
        (recursive && match mounts t !! i with Some m => path_has_prefix (point m) p && negb (at_point p m) | None => false end))
      (seq 0 (length (mounts t))) in
    (Good tt, foldl (propagate1 kind) t targets)
  end.

Definition below_on_side (p : str) (side : Z) (m : Mount) : bool :=
  negb (at_point p m) && (pivot_side m =? side) && path_has_prefix (point m) p.
(** [unmount]: [None] in the result is a plain unmount, [Some] how paths moved for a detached one. *)
Definition unmount (t : MountTable) (p : str) (detach : bool) : option (io (option PathMove) * MountTable) :=
  let p := normalize p in
  match rposition (at_point p) (mounts t) with
  | None => Some (Bad EINVAL, t)
  | Some i =>
    m ← mounts t !! i;
    if locked m then Some (Bad EINVAL, t)
    else if negb (guest m) && (current t =? 0) then Some (Bad EBUSY, t)
    else
      t ← propagate_unmount t i;
      match rposition (at_point p) (mounts t) with
      | None => Some (Bad EINVAL, t)
      | Some i =>
        gone ← mounts t !! i;
        let side := pivot_side gone in
        if existsb (below_on_side p side) (mounts t) && negb detach then Some (Bad EBUSY, t)
        else
          let ms := delete i (mounts t) in
          if negb detach then Some (Good None, with_mounts t ms)
          else
            let hidden := hidden_point (detached t) in
            let ms := (λ m, if below_on_side p side m then with_point m (repoint p hidden (point m)) else m) <$> ms in
            Some (Good (Some (mkPathMove p hidden)),
                  with_detached (with_mounts t (ms ++ [with_point gone hidden])) (wrap U32 (detached t + 1)))
      end
  end.

(** * Mounts kept for open files *)

(** [carry_from]: for each path the mount of [from] that owns it, kept under a hidden name. *)
Definition carry1 (source : list Mount) (acc : list (option str) * gmap nat str * list Mount * Z) (path : str)
    : list (option str) * gmap nat str * list Mount * Z :=
  let '(out, carried, added, n) := acc in
  let path := normalize path in
  match best_from source 0 path None 0 with
  | None => (out ++ [None], carried, added, n)
  | Some i =>
    match source !! i with
    | None => (out ++ [None], carried, added, n)
    | Some m =>
      let '(hidden, carried, added, n) :=
        match carried !! i with
        | Some h => (h, carried, added, n)
        | None => let h := hidden_point n in (h, <[i := h]> carried, added ++ [with_point m h], wrap U32 (n + 1))
        end in
      (out ++ [Some (repoint (point m) hidden path)], carried, added, n)
    end
  end.
Definition carry_from (t : MountTable) (from : Z) (paths : list str) : list (option str) * MountTable :=
  if from =? current t then (Some <$> paths, t)
  else match parked t !! from with
       | None => (replicate (length paths) None, t)
       | Some source =>
         let '(out, _, added, n) := foldl (carry1 source) ([], ∅, [], detached t) paths in
         (out, with_detached (with_mounts t (mounts t ++ added)) n)
       end.

Definition collect_detached (t : MountTable) (in_use : list str) : MountTable :=
  let roots := omap (λ m, detached_root (point m)) (mounts t) in
  let dead := List.filter (λ r, negb (existsb (λ p, path_has_prefix p r) in_use)) roots in
  with_mounts t (List.filter (λ m, match detached_root (point m) with
                                   | Some r => negb (existsb (λ d, bool_decide (d = r)) dead)
                                   | None => true
                                   end) (mounts t)).
End Table.
