(* ===== verification/MountPath.v ===== *)
(** Normal forms of absolute paths: a path is the sequence of its components, and the mount table's
    string operations on normal forms are operations on those sequences. *)
From S2P Require Import Prelude Abi Path Vfs Quota Tmpfs TmpfsPath Mount.
From stdpp Require Import base numbers gmap list sorting.
Local Open Scope Z_scope.

(** The normal form with the components [cs], and what remains of a path below another. *)
Definition norm (cs : list (list Z)) : list Z := match cs with [] => [SLASH] | _ => render cs end.
Definition joined (cs : list (list Z)) : list Z := drop 1 (render cs).

Lemma normalize_norm p : normalize p = norm (components p).
Proof. unfold normalize, Path.normalize, norm. by destruct (components p). Qed.

Lemma render_app a b : render (a ++ b) = render a ++ render b.
Proof. unfold render. by rewrite fmap_app, join_app. Qed.
Lemma render_cons c cs : render (c :: cs) = SLASH :: c ++ render cs.
Proof. done. Qed.

Lemma join_cons c cs : joined (c :: cs) = c ++ render cs.
Proof. done. Qed.
Lemma render_join cs : cs ≠ [] → render cs = SLASH :: joined cs.
Proof. by destruct cs. Qed.

(** Components of joined strings. *)
Lemma components_slash a b : components (slash a b) = foldl push_comp (components a) (Path.split b).
Proof. unfold components, slash. by rewrite split_app, foldl_app. Qed.

Lemma components_norm cs : Forall plain cs → components (norm cs) = cs.
Proof. destruct cs as [|c cs]; [done|]. intros H. by apply components_render. Qed.

Lemma split_join cs : Forall plain cs → foldl push_comp [] (Path.split (joined cs)) = cs.
Proof.
  intros H. destruct cs as [|c cs]; [done|]. change (components (joined (c :: cs)) = c :: cs).
  rewrite <- (components_render (c :: cs)) at 2 by done. rewrite (render_join (c :: cs)) by done.
  unfold components. change (SLASH :: joined (c :: cs)) with ([] ++ SLASH :: joined (c :: cs)). by rewrite split_app.
Qed.

Lemma push_join st cs : Forall plain cs → foldl push_comp st (Path.split (joined cs)) = st ++ cs.
Proof.
  intros H. destruct cs as [|c cs]; [simpl; by rewrite app_nil_r|]. rewrite join_cons.
  assert (Path.split (c ++ render cs) = c :: cs) as ->.
  { inversion H as [|? ? Hc Hcs]; subst. clear H. induction cs as [|d cs IH] using rev_ind.
    - rewrite app_nil_r. apply split_plain, Hc.
    - apply Forall_app in Hcs as [H1 H2]. inversion H2 as [|? ? Hd _]; subst.
      rewrite render_snoc, app_assoc, split_app, IH by done. rewrite split_plain by apply Hd. done. }
  by apply push_all.
Qed.

Lemma normalize_slash a s : Forall plain a → Forall plain s → normalize (slash (norm a) (joined s)) = norm (a ++ s).
Proof. intros Ha Hs. rewrite normalize_norm, components_slash, push_join, components_norm; done. Qed.

Lemma normalize_top s : Forall plain s → normalize (SLASH :: joined s) = norm s.
Proof.
  intros Hs. destruct s as [|c s]; [done|]. rewrite <- render_join by done. rewrite normalize_norm. by rewrite components_render.
Qed.

Lemma normalize_slash_norm a b : Forall plain a → Forall plain b → normalize (slash (norm a) (norm b)) = norm (a ++ b).
Proof.
  intros Ha Hb. rewrite normalize_norm, components_slash, components_norm by done.
  destruct b as [|c b]; [simpl; by rewrite app_nil_r|]. change (norm (c :: b)) with (render (c :: b)). rewrite split_render by done.
  change ([] :: c :: b) with ([[]] ++ c :: b). rewrite foldl_app. change (foldl push_comp a [[]]) with a. by rewrite push_all.
Qed.

Lemma norm_inj a b : Forall plain a → Forall plain b → norm a = norm b → a = b.
Proof. intros Ha Hb E. by rewrite <- (components_norm a), E, components_norm. Qed.

(** * Prefixes *)

Lemma norm_root_iff cs : Forall plain cs → norm cs = [SLASH] ↔ cs = [].
Proof.
  intros H. split; [|by intros ->]. destruct cs as [|c cs]; [done|]. intros E. change (render (c :: cs) = [SLASH]) in E. rewrite render_cons in E.
  inversion H as [|? ? (Hc & _) _]; subst. destruct c; [done|done].
Qed.

Lemma render_prefix a b s :
  Forall plain a → Forall plain b → b ≠ [] → render a = render b ++ s → (s = [] ∨ head_slash s = true) → b `prefix_of` a.
Proof.
  intros Ha Hb _ E Hs.
  assert (Path.split (render a) = [] :: a) as E1 by (by apply split_render).
  destruct Hs as [->|Hs].
  - rewrite app_nil_r in E. rewrite E, split_render in E1 by done. by injection E1 as ->.
  - destruct s as [|c s]; [done|]. simpl in Hs. apply Z.eqb_eq in Hs as ->.
    rewrite E, split_app, split_render in E1 by done. simpl in E1. injection E1 as <-. by eexists.
Qed.

Lemma str_strip_Some p s r : str_strip p s = Some r ↔ s = p ++ r.
Proof.
  unfold str_strip. case_bool_decide as Hp.
  - destruct Hp as [k ->]. rewrite drop_app_length. split; [by intros [= ->]|]. intros E. by simplify_list_eq.
  - split; [done|]. intros ->. destruct Hp. by eexists.
Qed.

Lemma prefix_norm a b :
  Forall plain a → Forall plain b → path_has_prefix (norm a) (norm b) = bool_decide (b `prefix_of` a).
Proof.
  intros Ha Hb. unfold path_has_prefix. case_bool_decide as Er.
  { apply norm_root_iff in Er as ->; [|done]. symmetry. apply bool_decide_eq_true. apply prefix_nil. }
  assert (b ≠ []) as Hb0 by (intros ->; done).
  apply eq_bool_prop_intro. rewrite bool_decide_spec. split.
  - intros H. destruct (str_strip (norm b) (norm a)) as [r|] eqn:E; [|done]. apply str_strip_Some in E.
    destruct a as [|x a].
    { destruct b as [|c b]; [done|]. change ([SLASH] = render (c :: b) ++ r) in E. rewrite render_cons in E. inversion Hb as [|? ? (Hc & _) _]; subst.
      destruct c; simplify_eq/=. }
    eapply (render_prefix (x :: a) b r); try done; [by destruct b|].
    apply Is_true_true, orb_true_iff in H as [H|H]; [left; by apply bool_decide_eq_true in H|by right].
  - intros [s ->]. apply Is_true_true.
    assert (norm (b ++ s) = norm b ++ render s) as ->.
    { destruct b as [|c b]; [done|]. simpl. apply (render_app (c :: b) s). }
    rewrite (proj2 (str_strip_Some (norm b) _ (render s))) by done. by destruct s as [|c s].
Qed.

Lemma trim_join s : Forall plain s → trim_slashes (render s) = joined s.
Proof.
  intros Hs. destruct s as [|c s]; [done|]. inversion Hs as [|? ? (Hc & _ & _ & Hn) _]; subst.
  rewrite join_cons, render_cons. destruct c as [|x c]; [done|]. simpl.
  destruct (Z.eqb_spec x SLASH); [set_solver|]. done.
Qed.

Lemma relative_norm b s : Forall plain b → Forall plain s → relative_to (norm (b ++ s)) (norm b) = joined s.
Proof.
  intros Hb Hs. unfold relative_to. case_bool_decide as Er.
  - apply norm_root_iff in Er as ->; [|done]. simpl. destruct s as [|c s]; [done|]. by apply trim_join.
  - assert (b ≠ []) as Hb0 by (intros ->; done).
    assert (norm (b ++ s) = norm b ++ render s) as ->.
    { destruct b as [|c b]; [done|]. simpl. apply (render_app (c :: b) s). }
    rewrite (proj2 (str_strip_Some (norm b) _ (render s))) by done. simpl. by apply trim_join.
Qed.

(** * Lengths *)

Lemma length_render_app a b : length (render (a ++ b)) = (length (render a) + length (render b))%nat.
Proof. by rewrite render_app, length_app. Qed.

Lemma length_render_pos c cs : Forall plain (c :: cs) → (2 ≤ length (render (c :: cs)))%nat.
Proof.
  intros H. inversion H as [|? ? (Hc & _) _]; subst. rewrite render_cons. simpl. rewrite length_app. destruct c; [done|]. simpl. lia.
Qed.

Lemma length_norm_lt a s : Forall plain a → Forall plain s → s ≠ [] → (length (norm a) < length (norm (a ++ s)))%nat.
Proof.
  intros Ha Hs Hn. destruct s as [|c s]; [done|]. pose proof (length_render_pos c s Hs).
  destruct a as [|x a]; [simpl in *; lia|]. change (length (render (x :: a)) < length (render ((x :: a) ++ c :: s)))%nat.
  rewrite length_render_app. lia.
Qed.

Lemma length_norm_le a b : Forall plain b → a `prefix_of` b → (length (norm a) ≤ length (norm b))%nat.
Proof.
  intros Hb [s ->]. apply Forall_app in Hb as [Ha Hs]. destruct (decide (s = [])) as [->|Hn]; [by rewrite app_nil_r|].
  pose proof (length_norm_lt a s Ha Hs Hn). lia.
Qed.

(** Of two prefixes of one path the longer string is the longer sequence. *)
Lemma length_norm_prefix a b c :
  Forall plain c → a `prefix_of` c → b `prefix_of` c → (length (norm a) ≤ length (norm b))%nat ↔ a `prefix_of` b.
Proof.
  intros Hc Ha Hb.
  assert (Forall plain a) as Pa by (destruct Ha as [? ->]; by apply Forall_app in Hc as [? _]).
  assert (Forall plain b) as Pb by (destruct Hb as [? ->]; by apply Forall_app in Hc as [? _]).
  split; [|by apply length_norm_le].
  intros Hl. destruct (prefix_weak_total a b c Ha Hb) as [|[s ->]]; [done|].
  destruct (decide (s = [])) as [->|Hn]; [by rewrite app_nil_r|].
  apply Forall_app in Pa as [_ Ps]. pose proof (length_norm_lt b s Pb Ps Hn). lia.
Qed.
