(* ===== verification/MountSpec.v ===== *)
(** What the mount table promises: which mount owns a path, that following links stays below the
    caller's root, that propagation ends, and what [pivot_root] does to every path. *)
From S2P Require Import Prelude Abi Path Vfs Quota Tmpfs TmpfsPath TmpfsInv TmpfsSpec Mount MountPath.
From stdpp Require Import base numbers gmap list sorting.
Local Open Scope Z_scope.

(** * The mount that owns a path *)

(** The last of the longest mounts above [path]. *)
Definition owns (ms : list Mount) (path : list Z) (i : nat) : Prop :=
  ∃ m, ms !! i = Some m ∧ path_has_prefix path (point m) = true ∧
  ∀ j m', ms !! j = Some m' → path_has_prefix path (point m') = true →
    (length (point m') < length (point m))%nat ∨ length (point m') = length (point m) ∧ (j ≤ i)%nat.

Lemma best_from_spec ms0 ms path i best bl :
  length ms0 = i →
  match best with
  | Some b => ∃ m, ms0 !! b = Some m ∧ bl = length (point m) ∧ owns ms0 path b
  | None => bl = 0%nat ∧ ∀ j m, ms0 !! j = Some m → path_has_prefix path (point m) = false
  end →
  match best_from ms i path best bl with
  | Some b => owns (ms0 ++ ms) path b
  | None => ∀ j m, (ms0 ++ ms) !! j = Some m → path_has_prefix path (point m) = false
  end.
Proof.
  revert ms0 i best bl. induction ms as [|m ms IH]; intros ms0 i best bl Hi Hb; simpl.
  { rewrite app_nil_r. destruct best as [b|]; [by destruct Hb as (m & _ & _ & ?)|by destruct Hb]. }
  rewrite (cons_middle m ms0 ms), app_assoc.
  assert (∀ j m', (ms0 ++ [m]) !! j = Some m' → ms0 !! j = Some m' ∨ j = i ∧ m' = m) as Hcases.
  { intros j m' Hj. apply lookup_app_Some in Hj as [Hj|[Hl Hj]]; [by left|]. right.
    apply list_lookup_singleton_Some in Hj as [E <-]. split; [lia|done]. }
  assert ((ms0 ++ [m]) !! i = Some m) as Him.
  { rewrite lookup_app_r by lia. by replace (i - length ms0)%nat with 0%nat by lia. }
  destruct (path_has_prefix path (point m)) eqn:Hp; simpl; [destruct (Nat.leb_spec bl (length (point m))) as [Hle|Hgt]|].
  - apply IH; [rewrite length_app; simpl; lia|]. exists m. split_and!; [done|done|]. exists m. split_and!; [done|done|].
    intros j m' Hj Hm'. destruct (Hcases _ _ Hj) as [Hj'|[-> ->]]; [|right; lia].
    destruct best as [b|].
    + destruct Hb as (mb & Hmb & -> & mb' & Hmb' & _ & Hown). rewrite Hmb in Hmb'. injection Hmb' as <-.
      apply lookup_lt_Some in Hj'. apply lookup_app_Some in Hj as [Hj|[? _]]; [|lia]. destruct (Hown _ _ Hj Hm'); lia.
    + destruct Hb as [_ Hb]. rewrite (Hb _ _ Hj') in Hm'. done.
  - apply IH; [rewrite length_app; simpl; lia|]. destruct best as [b|]; [|lia].
    destruct Hb as (mb & Hmb & -> & mb' & Hmb' & Hpb & Hown). rewrite Hmb in Hmb'. injection Hmb' as <-.
    assert ((ms0 ++ [m]) !! b = Some mb) as Hb' by (by apply lookup_app_l_Some).
    exists mb. split_and!; [done|done|]. exists mb. split_and!; [done|done|].
    intros j m' Hj Hm'. destruct (Hcases _ _ Hj) as [Hj'|[-> ->]]; [by apply Hown|left; lia].
  - apply IH; [rewrite length_app; simpl; lia|]. destruct best as [b|].
    + destruct Hb as (mb & Hmb & -> & mb' & Hmb' & Hpb & Hown). rewrite Hmb in Hmb'. injection Hmb' as <-.
      assert ((ms0 ++ [m]) !! b = Some mb) as Hb' by (by apply lookup_app_l_Some).
      exists mb. split_and!; [done|done|]. exists mb. split_and!; [done|done|].
      intros j m' Hj Hm'. destruct (Hcases _ _ Hj) as [Hj'|[-> ->]]; [by apply Hown|congruence].
    + destruct Hb as [-> Hb]. split; [done|]. intros j m' Hj. destruct (Hcases _ _ Hj) as [Hj'|[-> ->]]; [by eapply Hb|done].
Qed.

Lemma best_mount_spec {F} (t : MountTable (F := F)) path :
  match best_mount t path with
  | Some i => owns (mounts t) path i
  | None => ∀ j m, mounts t !! j = Some m → path_has_prefix path (point m) = false
  end.
Proof. apply (best_from_spec [] (mounts t) path 0 None 0); [done|]. split; [done|]. intros j m Hj. by rewrite lookup_nil in Hj. Qed.

Lemma owns_unique ms path i j : owns ms path i → owns ms path j → i = j.
Proof.
  intros (m & Hm & Hp & Ho) (m' & Hm' & Hp' & Ho').
  destruct (Ho _ _ Hm' Hp'); destruct (Ho' _ _ Hm Hp); lia.
Qed.

Lemma best_mount_owns {F} (t : MountTable (F := F)) path i : best_mount t path = Some i ↔ owns (mounts t) path i.
Proof.
  pose proof (best_mount_spec t path) as H. destruct (best_mount t path) as [b|]; split.
  - by intros [= ->].
  - intros Ho. f_equal. by eapply owns_unique.
  - done.
  - intros (m & Hm & Hp & _). rewrite (H _ _ Hm) in Hp. done.
Qed.

(** * Confinement *)

Section Confined.
Context {F : Type} (ops : MountFs F) (t : MountTable (F := F)).
Context (rc : list (list Z)) (Hrc : Forall plain rc) (Hroot : root t = render rc).

(** A component of a path or of a link's target. *)
Definition comp (c : list Z) : Prop := c ≠ [] ∧ (SLASH ∉ c).

Lemma comps_comp p : Forall comp (comps p).
Proof.
  unfold comps. apply Forall_forall. intros c [Hc Hin]%list_elem_of_filter.
  split; [done|]. pose proof (split_no_slash p) as Hs. rewrite Forall_forall in Hs. by apply Hs.
Qed.

Lemma comp_plain c : comp c → c ≠ [DOT] → c ≠ [DOT; DOT] → plain c.
Proof. intros [? ?] ? ?. by split_and!. Qed.

Lemma comps_render cs : Forall plain cs → comps (render cs) = cs.
Proof.
  intros H. unfold comps. rewrite split_render by done. rewrite filter_cons_False by naive_solver.
  induction H as [|c cs (Hc & _) _ IH]; [done|]. by rewrite filter_cons_True, IH.
Qed.

Definition below_root (p : list Z) : Prop := ∃ e, Forall plain e ∧ p = render (rc ++ e).

Lemma below_slash d c : below_root d → plain c → below_root (slash d c).
Proof.
  intros (e & He & ->) Hc. exists (e ++ [c]). split; [apply Forall_app; by auto|]. by rewrite app_assoc, render_snoc.
Qed.

Lemma below_pop d : below_root d → below_root (pop_comp (root t) d).
Proof.
  intros (e & He & ->). unfold pop_comp. rewrite Hroot. destruct (Nat.ltb_spec (length (render rc)) (length (render (rc ++ e)))) as [Hl|Hl].
  - destruct e as [|c e _] using rev_ind; [rewrite app_nil_r in Hl; lia|].
    apply Forall_app in He as [He Hc]. inversion Hc as [|? ? (_ & _ & _ & Hs) _]; subst.
    exists e. split; [done|]. rewrite app_assoc, render_snoc. by rewrite parent_of_child.
  - by exists e.
Qed.

(** From a directory below the root, whatever the links say. *)
Definition walk_ok (w : Walk) : Prop :=
  match w with
  | Reached d => below_root d
  | Missing cand rest => below_root cand ∧ Forall comp rest
  | GaveUp => True
  end.
Lemma walk_below hops d rest : below_root d → Forall comp rest → walk_ok (walk ops t hops d rest).
Proof.
  revert d rest. induction hops as [|hops IH]; intros d rest; revert d;
    (induction rest as [|c rest IHr]; intros d Hd Hr; [done|]);
    apply Forall_cons in Hr as [Hc Hr]; simpl.
  all: case_bool_decide as E1; [by apply IHr|].
  all: case_bool_decide as E2; [by apply IHr; [apply below_pop|]|].
  all: assert (below_root (slash d c)) as Hcand by (by apply below_slash, comp_plain).
  all: destruct rest as [|c' rest]; [done|].
  all: destruct (stat_raw ops t (slash d c)) as [a|]; [|done].
  all: case_bool_decide; [|by apply IHr].
  { done. }
  destruct (readlink_raw ops t (slash d c)) as [target|]; [|done]. apply IH.
  - destruct (starts_with [SLASH] target); [|done]. exists []. split; [done|]. by rewrite app_nil_r.
  - apply Forall_app. split; [apply comps_comp|done].
Qed.

(** The way down to the root, whose own components are no links. *)
Context (Hdirs : ∀ p a, p `prefix_of` rc → p ≠ [] → stat_raw ops t (render p) = Some a → a_kind a ≠ KSymlink).

Lemma walk_down hops d1 d2 s :
  rc = d1 ++ d2 → Forall plain s → Forall plain (rc ++ s) →
  match walk ops t hops (render d1) (d2 ++ s) with
  | Missing cand rest => (∃ x, cand = render x ∧ x ++ rest = rc ++ s) ∨ walk_ok (Missing cand rest)
  | w => walk_ok w
  end.
Proof.
  intros E Hs Hall. revert d1 E. induction d2 as [|c d2 IH]; intros d1 E.
  { rewrite app_nil_r in E. subst d1. simpl.
    assert (walk_ok (walk ops t hops (render rc) s)) as Hw.
    { apply walk_below; [exists []; by rewrite app_nil_r|].
      eapply Forall_impl; [exact Hs|]. by intros c (? & _ & _ & ?). }
    destruct (walk ops t hops (render rc) s); try done. by right. }
  assert (plain c) as Hc. { rewrite E in Hrc. apply Forall_app in Hrc as [_ H]. by inversion H. }
  assert (slash (render d1) c = render (d1 ++ [c])) as Ec by (by rewrite render_snoc).
  assert (rc = (d1 ++ [c]) ++ d2) as E' by (by rewrite <- app_assoc).
  assert (d2 ++ s = [] → walk_ok (Reached (render (d1 ++ [c])))) as Hend.
  { intros Hn. apply app_eq_nil in Hn as [-> ->]. exists []. split; [done|]. rewrite app_nil_r in E'. by rewrite app_nil_r, E'. }
  destruct hops as [|hops]; simpl.
  all: rewrite bool_decide_false by apply Hc.
  all: rewrite bool_decide_false by apply Hc.
  all: rewrite Ec.
  all: destruct (d2 ++ s) as [|c' rest] eqn:Er; [by apply Hend|].
  all: destruct (stat_raw ops t (render (d1 ++ [c]))) as [a|] eqn:Est;
    [|left; exists (d1 ++ [c]); split; [done|]; rewrite <- Er; by rewrite E', <- !app_assoc].
  all: rewrite bool_decide_false by (eapply Hdirs; [| |exact Est]; [by rewrite E'; eexists|by destruct d1]).
  all: specialize (IH (d1 ++ [c]) E'); rewrite ?Er in IH; exact IH.
Qed.

Lemma under_norm e : under (render rc) (norm (rc ++ e)) = true.
Proof.
  destruct (rc ++ e) as [|c l] eqn:E.
  - apply app_eq_nil in E as [-> ->]. done.
  - change (norm (c :: l)) with (render (c :: l)). rewrite <- E, render_app. apply under_app.
    destruct e as [|x e]; [by left|]. right. by eexists.
Qed.

Lemma foldl_slash_components cand rest x :
  components cand = x → Forall comp rest → components (foldl slash cand rest) = foldl push_comp x rest.
Proof.
  intros <- H. revert cand. induction H as [|c rest [Hc Hs] _ IH]; intros cand; [done|]. simpl.
  by rewrite IH, components_slash, split_plain.
Qed.

(** Without [..] the rest only goes further down. *)
Lemma push_down x rest :
  Forall comp rest → [DOT; DOT] ∉ rest → ∃ e, foldl push_comp x rest = x ++ e.
Proof.
  intros H. revert x. induction H as [|c rest [Hc Hs] _ IH]; intros x Hn; [exists []; by rewrite app_nil_r|]. simpl.
  apply not_elem_of_cons in Hn as [Hne Hn]. destruct (decide (c = [DOT])) as [->|Hd].
  - destruct (IH x Hn) as [e He]. exists e. exact He.
  - assert (push_comp x c = x ++ [c]) as ->.
    { unfold push_comp. rewrite decide_False by naive_solver. by rewrite decide_False by congruence. }
    destruct (IH (x ++ [c]) Hn) as [e ->]. exists (c :: e). by rewrite <- app_assoc.
Qed.

(** C5: a task in a [chroot] stays in it. If a path is below the caller's root and no directory of the root's
    own path is a symbolic link ([linked_root_escapes] shows what one does), then following every link among
    the path's directories (absolute ones from the root, relative ones from where they are, [..] stopping at
    the root, at most forty of them) gives a path that is again below the root. The only way out is a link whose target names a directory that does not
    exist and then climbs with [..]: the rest is then taken literally, from below the root. *)
Theorem canonical_confined abs s :
  components abs = rc ++ s →
  under (root t) (canonical ops t abs) = true ∨
  ∃ cand rest, walk ops t SYMLINK_MAX [] (comps (normalize abs)) = Missing cand rest ∧
    under (root t) cand = true ∧ [DOT; DOT] ∈ rest.
Proof.
  intros E. pose proof (components_plain abs) as Hpl. rewrite E in Hpl. pose proof Hpl as [_ Hs]%Forall_app.
  assert (normalize abs = norm (rc ++ s)) as En by (by rewrite normalize_norm, E).
  unfold canonical. rewrite En, Hroot.
  destruct (parent_of (norm (rc ++ s))) as [|x l] eqn:Ep; [left; apply under_norm|].
  destruct (is_dir_at ops t (x :: l)); [left; apply under_norm|].
  assert (comps (norm (rc ++ s)) = rc ++ s) as Ec.
  { destruct (rc ++ s) as [|c l'] eqn:Er; [done|]. change (norm (c :: l')) with (render (c :: l')). by rewrite comps_render. }
  rewrite Ec. pose proof (walk_down SYMLINK_MAX [] rc s eq_refl Hs Hpl) as Hw. change (render []) with (@nil Z) in Hw.
  assert (∀ p, below_root p → p ≠ [] → under (render rc) p = true) as Hb.
  { intros p (e & He & ->) Hne. destruct (rc ++ e) as [|c l'] eqn:Er; [done|]. rewrite <- (under_norm e), Er. done. }
  destruct (walk ops t SYMLINK_MAX [] (rc ++ s)) as [d|cand rest|] eqn:Ew; simpl.
  - left. destruct d as [|y d']; [|apply Hb; [exact Hw|done]].
    destruct Hw as (e & He & Ee). destruct rc as [|c rc']; [done|]. done.
  - destruct Hw as [(x' & -> & Ex)|[(e & He & Ee) Hr]].
    + left. assert (Forall plain x' ∧ Forall plain rest) as [Hx Hr] by (rewrite <- Ex in Hpl; by apply Forall_app).
      rewrite normalize_norm, (foldl_slash_components (render x') rest x').
      * rewrite push_all by done. rewrite Ex. apply under_norm.
      * by apply components_render.
      * eapply Forall_impl; [exact Hr|]. by intros c (? & _ & _ & ?).
    + destruct (decide ([DOT; DOT] ∈ rest)) as [Hin|Hin].
      * right. exists cand, rest. split_and!; [done| |done]. rewrite Ee, render_app. apply under_app.
        destruct e as [|y e]; [by left|]. right. by eexists.
      * left. rewrite normalize_norm, (foldl_slash_components cand rest (rc ++ e)); [| |done].
        2: { rewrite Ee. apply components_render. apply Forall_app. done. }
        destruct (push_down (rc ++ e) rest Hr Hin) as [e' ->]. rewrite <- app_assoc. apply under_norm.
  - left. apply under_norm.
Qed.
End Confined.

(** * A [chroot] *)

Definition s_jail : list Z := [106; 97; 105; 108].
Definition s_etc : list Z := [101; 116; 99].
Definition s_d : list Z := [100].
Definition s_l : list Z := [108].
Definition s_x : list Z := [120].
Definition demo_ops : MountFs TmpFs := tmpfs.

Definition fs_run (t : MountTable (F := TmpFs)) (fs' : list (MountTable (F := TmpFs) → MountTable (F := TmpFs))) : MountTable :=
  foldl (λ t f, f t) t fs'.
(** [/jail/d], [/etc/x] holding "s", [/jail/l -> link], with [/jail] as the root directory. *)
Definition jail_with (link : list Z) : MountTable :=
  fs_run (mount table_new [SLASH] tmpfs_new)
    [λ t, (mkdir demo_ops 1 t (render [s_jail]) 0).2;
     λ t, (mkdir demo_ops 1 t (render [s_jail; s_d]) 0).2;
     λ t, (mkdir demo_ops 1 t (render [s_etc]) 0).2;
     λ t, (create demo_ops 1 t (render [s_etc; s_x]) 0).2;
     λ t, (write_at demo_ops 1 t (render [s_etc; s_x]) 0 [115]).2;
     λ t, (symlink demo_ops 1 t link (render [s_jail; s_l])).2;
     λ t, enter t 0 (render [s_jail])].

(** [/l -> /../../d]: the link stays in the jail. *)
Definition jail_up : MountTable := jail_with (render [[DOT; DOT]; [DOT; DOT]; s_d]).

Lemma jail_plain : Forall plain [s_jail].
Proof. constructor; [|constructor]. split_and!; try done. unfold s_jail, SLASH. set_solver. Qed.

Lemma jail_dir_kind : a_kind <$> stat_raw demo_ops jail_up (render [s_jail]) = Some KDir.
Proof. vm_compute. reflexivity. Qed.

Lemma one_dir_root {F} (ops : MountFs F) t c p a :
  a_kind <$> stat_raw ops t (render [c]) = Some KDir →
  p `prefix_of` [c] → p ≠ [] → stat_raw ops t (render p) = Some a → a_kind a ≠ KSymlink.
Proof.
  intros Hk Hp Hne. destruct p as [|c0 [|c' p]]; [done| |].
  - apply prefix_cons_inv_1 in Hp as ->. intros Ha E. rewrite Ha in Hk. simpl in Hk. congruence.
  - apply prefix_cons_inv_2 in Hp. by apply prefix_nil_not in Hp.
Qed.

Lemma jail_no_missing :
  match walk demo_ops jail_up SYMLINK_MAX [] (comps (normalize (render [s_jail; s_l; s_x]))) with Missing _ _ => false | _ => true end = true.
Proof. vm_compute. reflexivity. Qed.

Lemma canonical_confined_witness :
  under (render [s_jail]) (canonical demo_ops jail_up (render [s_jail; s_l; s_x])) = true.
Proof.
  destruct (canonical_confined demo_ops jail_up [s_jail] jail_plain ltac:(vm_compute; reflexivity)
    (λ p a, one_dir_root demo_ops jail_up s_jail p a jail_dir_kind)
    (render [s_jail; s_l; s_x]) [s_l; s_x] ltac:(vm_compute; reflexivity)) as [H|(cand & rest & H & _)].
  - exact H.
  - exfalso. generalize jail_no_missing. generalize dependent (walk demo_ops jail_up SYMLINK_MAX [] (comps (normalize (render [s_jail; s_l; s_x])))).
    intros w ->. discriminate.
Defined.

(** [/l -> no/../../etc]: [no] does not exist, and the rest of the target climbs out of the jail. A read through
    the link reaches a file outside it. *)
Definition s_no : list Z := [110; 111].
Definition jail_out : MountTable := jail_with (joined [s_no; [DOT; DOT]; [DOT; DOT]; s_etc]).
Lemma canonical_escapes :
  root jail_out = render [s_jail] ∧
  canonical demo_ops jail_out (render [s_jail; s_l; s_x]) = render [s_etc; s_x] ∧
  read_at demo_ops jail_out (render [s_jail; s_l; s_x]) 0 8 = Good [115].
Proof. split_and!; vm_compute; reflexivity. Qed.

(** A root whose own path goes through a link: [sys_chroot] follows a link only where it is the last component
    of the path. [/s -> long], [/long/r] is a directory, and the root is set to [/s/r]. The
    link [/long/r/l -> ../../etc] climbs out, since [..] stops by the length of the root's name: reading
    [/l/x] from inside reads [/etc/x]. *)
Definition s_s : list Z := [115].
Definition s_long : list Z := [108; 111; 110; 103].
Definition s_r : list Z := [114].
Definition linked_jail : MountTable :=
  fs_run (mount table_new [SLASH] tmpfs_new)
    [λ t, (mkdir demo_ops 1 t (render [s_long]) 0).2;
     λ t, (mkdir demo_ops 1 t (render [s_long; s_r]) 0).2;
     λ t, (symlink demo_ops 1 t s_long (render [s_s])).2;
     λ t, (mkdir demo_ops 1 t (render [s_etc]) 0).2;
     λ t, (create demo_ops 1 t (render [s_etc; s_x]) 0).2;
     λ t, (write_at demo_ops 1 t (render [s_etc; s_x]) 0 [115]).2;
     λ t, (symlink demo_ops 1 t (joined [[DOT; DOT]; [DOT; DOT]; s_etc]) (render [s_long; s_r; s_l])).2;
     λ t, enter t 0 (render [s_s; s_r])].
Lemma linked_root_escapes :
  root linked_jail = render [s_s; s_r] ∧ a_kind <$> stat demo_ops linked_jail (render [s_s; s_r]) = Some KDir ∧
  canonical demo_ops linked_jail (render [s_s; s_r; s_l; s_x]) = render [s_etc; s_x] ∧
  read_at demo_ops linked_jail (render [s_s; s_r; s_l; s_x]) 0 8 = Good [115].
Proof. split_and!; vm_compute; reflexivity. Qed.

(** * Propagation ends *)

Lemma spread_queue parent cur at_ tp tree group peers masters all :
  (spread parent cur at_ tp tree group peers masters all).2
  = all ≫= λ nt, (spread1 parent cur at_ tp tree group peers masters nt).2.
Proof.
  unfold spread. set (f := λ acc nt, _).
  assert (∀ acc, (foldl f acc all).2 = acc.2 ++ (all ≫= λ nt, (spread1 parent cur at_ tp tree group peers masters nt).2)) as H.
  { induction all as [|nt all IH]; intros acc; simpl; [by rewrite app_nil_r|]. rewrite IH. unfold f at 1.
    destruct (spread1 _ _ _ _ _ _ _ _ nt) as [c q]. simpl. by rewrite <- app_assoc. }
  by rewrite H.
Qed.

Lemma spread1_queue parent cur at_ tp tree group peers masters nt :
  (length (spread1 parent cur at_ tp tree group peers masters nt).2 ≤ 1)%nat ∧
  ∀ q, q ∈ (spread1 parent cur at_ tp tree group peers masters nt).2 → q.1.1 = peer nt.2.
Proof.
  unfold spread1. destruct nt as [ns m]. repeat case_match; simpl; split; try lia; try set_solver.
Qed.

Lemma fill_queue_groups g q : ((λ x : QItem, x.1.1) <$> (fill_queue g q).1) = ((λ x : QItem, x.1.1) <$> q).
Proof.
  revert g. induction q as [|[[x ps] ms] q IH]; intros g; [done|]. simpl.
  destruct (fill_groups g ps) as [ps' g1]. specialize (IH g1). destruct (fill_queue g1 q) as [q' g2]. simpl in *. f_equal. exact IH.
Qed.

(** What is left to do: the groups not yet visited, each of which can queue one entry per mount. *)
Definition groups_left (G : gset Z) (seen : list Z) : nat := size (G ∖ list_to_set seen).

Lemma groups_left_visit G seen g : g ∈ G → g ∉ seen → S (groups_left G (g :: seen)) = groups_left G seen.
Proof.
  intros Hg Hs. unfold groups_left. rewrite list_to_set_cons.
  assert (G ∖ list_to_set seen = {[g]} ∪ G ∖ ({[g]} ∪ list_to_set seen)) as ->.
  { apply set_eq. intros x. destruct (decide (x = g)); set_solver. }
  rewrite (size_union {[g]}) by set_solver. by rewrite size_singleton.
Qed.

Lemma length_bind_le {A B} (f : A → list B) l : (∀ x, (length (f x) ≤ 1)%nat) → (length (l ≫= f) ≤ length l)%nat.
Proof. intros Hf. induction l as [|x l IH]; [done|]. rewrite bind_cons, length_app. cbn [length]. specialize (Hf x). lia. Qed.

Lemma length_omap_le {A B} (f : A → option B) l : (length (omap f l) ≤ length l)%nat.
Proof. induction l as [|x l IH]; [done|]. cbn [omap list_omap length]. destruct (f x); cbn [length]; unfold omap in *; lia. Qed.

Lemma attach_loop_ends parent cur at_ tp tree all (G : gset Z) fuel queue seen copies g :
  (∀ nm, nm ∈ all → peer nm.2 ∈ G) → Forall (λ q : QItem, q.1.1 ∈ G) queue →
  (groups_left G seen * (length all + 1) + length queue < fuel)%nat →
  is_Some (attach_loop fuel parent cur at_ tp tree all queue seen copies g).
Proof.
  intros Hall. revert queue seen copies g. induction fuel as [|fuel IH]; intros queue seen copies g Hq Hm; [lia|]. simpl.
  destruct queue as [|[[group peers] masters] queue _] using rev_ind; [by eexists|].
  rewrite last_snoc, removelast_last. rewrite length_app in Hm. simpl in Hm.
  apply Forall_app in Hq as [Hq [Hg _]%Forall_cons]. simpl in Hg.
  case_bool_decide as Hs; [apply IH; [done|lia]|].
  pose proof (spread_queue parent cur at_ tp tree group peers masters all) as Eq.
  destruct (spread parent cur at_ tp tree group peers masters all) as [c q] eqn:Es. simpl in Eq.
  pose proof (fill_queue_groups g (queue ++ q)) as Ef. destruct (fill_queue g (queue ++ q)) as [queue' g']. simpl in Ef.
  apply IH.
  - assert (Forall (λ x, x ∈ G) ((λ x : QItem, x.1.1) <$> queue')) as Hf; [|by apply Forall_fmap in Hf].
    rewrite Ef, fmap_app. apply Forall_app. split; [by apply Forall_fmap|]. apply Forall_fmap, Forall_forall.
    intros x Hx. rewrite Eq in Hx. apply list_elem_of_bind in Hx as (nt & Hx & Hnt). simpl.
    rewrite (proj2 (spread1_queue parent cur at_ tp tree group peers masters nt) x Hx). by apply Hall.
  - assert (length queue' = (length queue + length q)%nat) as El.
    { rewrite <- (length_fmap (λ x : QItem, x.1.1)), Ef, length_fmap, length_app. done. }
    assert (length q ≤ length all)%nat.
    { rewrite Eq. apply length_bind_le. intros x. apply spread1_queue. }
    pose proof (groups_left_visit G seen group Hg Hs) as Hv. lia.
Qed.

Lemma receivers_loop_ends all (G : gset Z) fuel gs seen out :
  (∀ nm, nm ∈ all → peer nm.2 ∈ G) → Forall (λ g, g ∈ G) gs →
  (groups_left G seen * (length all + 1) + length gs < fuel)%nat →
  is_Some (receivers_loop fuel all gs seen out).
Proof.
  intros Hall. revert gs seen out. induction fuel as [|fuel IH]; intros gs seen out Hq Hm; [lia|]. simpl.
  destruct gs as [|g gs _] using rev_ind; [by eexists|].
  rewrite last_snoc, removelast_last. rewrite length_app in Hm. simpl in Hm.
  apply Forall_app in Hq as [Hq [Hg _]%Forall_cons].
  case_bool_decide as Hs; [apply IH; [done|lia]|]. apply IH.
  - apply Forall_app. split; [done|]. apply Forall_forall. intros x Hx. apply list_elem_of_omap in Hx as (nm & Hnm & E).
    destruct (_ && _); [|done]. injection E as <-. by apply Hall.
  - rewrite length_app. assert (length (receive1 g all).2 ≤ length all)%nat.
    { apply length_omap_le. }
    simpl in *. pose proof (groups_left_visit G seen g Hg Hs) as Hv. lia.
Qed.

Lemma size_list_to_set_le (l : list Z) : (size (list_to_set l : gset Z) ≤ length l)%nat.
Proof.
  induction l as [|x l IH]; [done|]. rewrite list_to_set_cons, size_union_alt, size_singleton. simpl. apply le_n_S.
  etrans; [apply subseteq_size, subseteq_difference_l; reflexivity|done].
Qed.

Lemma loop_fuel_enough g (all : list (Z * Mount)) :
  let G : gset Z := {[g]} ∪ list_to_set ((λ nm, peer nm.2) <$> all) in
  (∀ nm, nm ∈ all → peer nm.2 ∈ G) ∧ g ∈ G ∧
  (groups_left G [] * (length all + 1) + 1 < loop_fuel (length all))%nat.
Proof.
  simpl. split_and!.
  - intros nm Hnm. apply elem_of_union_r, elem_of_list_to_set, list_elem_of_fmap. eauto.
  - set_solver.
  - unfold groups_left. rewrite list_to_set_nil, difference_empty_L.
    assert (size ({[g]} ∪ list_to_set (C := gset Z) ((λ nm : Z * Mount, peer nm.2) <$> all)) ≤ S (length all))%nat as Hs.
    { rewrite size_union_alt, size_singleton. apply le_n_S.
      etrans; [apply subseteq_size, subseteq_difference_l; reflexivity|].
      etrans; [apply size_list_to_set_le|]. by rewrite length_fmap. }
    unfold loop_fuel. nia.
Qed.

(** ** Which groups are visited *)

(** A walk from the groups of a stack, last first, [next] giving those a group adds. *)
Inductive visit (next : Z → list Z) : list Z → list Z → list Z → Prop :=
  | visit_done seen : visit next [] seen []
  | visit_again gs g seen vis : g ∈ seen → visit next gs seen vis → visit next (gs ++ [g]) seen vis
  | visit_new gs g seen vis :
      g ∉ seen → visit next (gs ++ next g) (g :: seen) vis → visit next (gs ++ [g]) seen (g :: vis).

Lemma visit_spec next gs seen vis :
  visit next gs seen vis →
  NoDup vis ∧ (∀ g, g ∈ vis → (g ∉ seen) ∧ ∃ g0, g0 ∈ gs ∧ rtc (λ a b, b ∈ (next a : list Z)) g0 g) ∧
  (∀ g, g ∈ gs → g ∈ seen ∨ g ∈ vis) ∧ (∀ g g', g ∈ vis → g' ∈ next g → g' ∈ seen ∨ g' ∈ vis).
Proof.
  induction 1 as [seen|gs g seen vis Hs _ (N & S & A & C)|gs g seen vis Hs _ (N & S & A & C)].
  - split_and!; [apply NoDup_nil_2|set_solver..].
  - split_and!; [done| |set_solver|done]. intros x Hx. destruct (S x Hx) as (H1 & g0 & H2 & H3). set_solver.
  - split_and!.
    + apply NoDup_cons. split; [|done]. intros Hg. destruct (S g Hg) as [Hn _]. set_solver.
    + intros x [Hx|Hx]%elem_of_cons; [subst x; split; [done|]; exists g; split; [set_solver|done]|].
      destruct (S x Hx) as (H1 & g0 & [H2|H2]%elem_of_app & H3); (split; [set_solver|]); [exists g0; set_solver|].
      exists g. split; [set_solver|]. by eapply rtc_l.
    + intros x [Hx|Hx%list_elem_of_singleton]%elem_of_app; [|subst x; right; by left].
      destruct (A x) as [Hx'|Hx']; [set_solver| |right; by right]. apply elem_of_cons in Hx' as [Hx'|?]; [subst x; right; by left|by left].
    + intros x x' [Hx|Hx]%elem_of_cons Hx'; [subst x|].
      * destruct (A x') as [H1|H1]; [set_solver| |right; by right]. apply elem_of_cons in H1 as [H1|?]; [subst x'; right; by left|by left].
      * destruct (C x x' Hx Hx') as [H1|H1]; [|right; by right]. apply elem_of_cons in H1 as [H1|?]; [subst x'; right; by left|by left].
Qed.
Lemma visit_exact next g0 vis :
  visit next [g0] [] vis → NoDup vis ∧ ∀ g, g ∈ vis ↔ rtc (λ a b, b ∈ (next a : list Z)) g0 g.
Proof.
  intros (N & S & A & C)%visit_spec. split; [done|]. intros g. split.
  - intros Hg. destruct (S g Hg) as (_ & x & Hx%list_elem_of_singleton & Hr). by subst x.
  - assert (g0 ∈ vis) as H0.
    { destruct (A g0) as [Hn|Hn]; [by left|by destruct (not_elem_of_nil g0)|done]. }
    intros Hr. clear S A. revert H0. induction Hr as [|x y z Hxy _ IH]; [done|]. intros Hx. apply IH. destruct (C x y Hx Hxy) as [Hn|Hn]; [by destruct (not_elem_of_nil y)|]. exact Hn.
Qed.

Lemma receivers_loop_visits all fuel : ∀ gs seen out res,
  receivers_loop fuel all gs seen out = Some res →
  ∃ vis, visit (λ g, (receive1 g all).2) gs seen vis ∧ res = out ++ (vis ≫= λ g, (receive1 g all).1).
Proof.
  induction fuel as [|fuel IH]; intros gs seen out res E; [done|]. simpl in E.
  destruct gs as [|g gs _] using rev_ind; [exists []; injection E as <-; split; [constructor|by rewrite app_nil_r]|].
  rewrite last_snoc, removelast_last in E. case_bool_decide as Hs.
  - destruct (IH _ _ _ _ E) as (vis & Hv & ->). exists vis. split; [by apply visit_again|done].
  - destruct (IH _ _ _ _ E) as (vis & Hv & ->). exists (g :: vis). split; [by apply visit_new|].
    rewrite bind_cons. by rewrite <- app_assoc.
Qed.

Lemma fmap_bind_list {A B C} (g : B → C) (f : A → list B) l : g <$> (l ≫= f) = l ≫= λ x, g <$> f x.
Proof. induction l as [|x l IH]; [done|]. by rewrite !bind_cons, fmap_app, IH. Qed.

(** Where a copy goes: its namespace and its mount point. *)
Definition spot (nm : Z * Mount) : Z * list Z := (nm.1, point nm.2).
Lemma place_spots at_ tp tree ns target p1 m1 p2 m2 :
  spot <$> place at_ tp tree ns target p1 m1 = spot <$> place at_ tp tree ns target p2 m2.
Proof.
  unfold place. destruct (path_strip _ _) as [x|]; [|done]. rewrite !fmap_imap. apply imap_ext. done.
Qed.
Lemma spread_copies parent cur at_ tp tree group peers masters all :
  (spread parent cur at_ tp tree group peers masters all).1
  = all ≫= λ nt, (spread1 parent cur at_ tp tree group peers masters nt).1.
Proof.
  unfold spread. set (f := λ acc nt, _).
  assert (∀ acc, (foldl f acc all).1 = acc.1 ++ (all ≫= λ nt, (spread1 parent cur at_ tp tree group peers masters nt).1)) as H.
  { induction all as [|nt all IH]; intros acc; simpl; [by rewrite app_nil_r|]. rewrite IH. unfold f at 1.
    destruct (spread1 _ _ _ _ _ _ _ _ nt) as [c q]. simpl. by rewrite <- app_assoc. }
  by rewrite H.
Qed.
Lemma spread1_same parent cur at_ tp tree group p1 m1 p2 m2 nt :
  spot <$> (spread1 parent cur at_ tp tree group p1 m1 nt).1 = spot <$> (spread1 parent cur at_ tp tree group p2 m2 nt).1 ∧
  (λ q : QItem, q.1.1) <$> (spread1 parent cur at_ tp tree group p1 m1 nt).2
    = (λ q : QItem, q.1.1) <$> (spread1 parent cur at_ tp tree group p2 m2 nt).2.
Proof. unfold spread1. destruct nt as [ns m]. repeat case_match; simpl; split; try done; apply place_spots. Qed.
Lemma spread_same parent cur at_ tp tree group p1 m1 p2 m2 all :
  spot <$> (spread parent cur at_ tp tree group p1 m1 all).1 = spot <$> (spread parent cur at_ tp tree group p2 m2 all).1 ∧
  (λ q : QItem, q.1.1) <$> (spread parent cur at_ tp tree group p1 m1 all).2
    = (λ q : QItem, q.1.1) <$> (spread parent cur at_ tp tree group p2 m2 all).2.
Proof.
  rewrite !spread_copies, !spread_queue, !fmap_bind_list. split; apply list_bind_ext; try done; intros nt; simpl; apply spread1_same.
Qed.

(** What a group adds to the walk of [attach], and where its copies go. *)
Definition slaves_of (parent : Mount) (cur : Z) (all : list (Z * Mount)) (g : Z) : list Z :=
  (λ q : QItem, q.1.1) <$> (spread parent cur [] [] [] g [] [] all).2.
Definition spots_of (parent : Mount) (cur : Z) (at_ tp : list Z) (tree : list Mount) (all : list (Z * Mount)) (g : Z) : list (Z * list Z) :=
  spot <$> (spread parent cur at_ tp tree g [] [] all).1.

Lemma spread_groups parent cur at_ tp tree g peers masters all :
  (λ q : QItem, q.1.1) <$> (spread parent cur at_ tp tree g peers masters all).2 = slaves_of parent cur all g.
Proof.
  unfold slaves_of. rewrite !spread_queue, !fmap_bind_list. apply list_bind_ext; [|done]. intros [ns m]. simpl.
  unfold spread1. by repeat case_match.
Qed.

Lemma attach_loop_visits parent cur at_ tp tree all fuel : ∀ queue seen copies g res g',
  attach_loop fuel parent cur at_ tp tree all queue seen copies g = Some (res, g') →
  ∃ vis, visit (slaves_of parent cur all) ((λ q : QItem, q.1.1) <$> queue) seen vis ∧
    spot <$> res = (spot <$> copies) ++ (vis ≫= spots_of parent cur at_ tp tree all).
Proof.
  induction fuel as [|fuel IH]; intros queue seen copies g res g' E; [done|]. simpl in E.
  destruct queue as [|[[group peers] masters] queue _] using rev_ind.
  { exists []. injection E as <- <-. split; [constructor|by rewrite app_nil_r]. }
  rewrite last_snoc, removelast_last in E. rewrite fmap_app. case_bool_decide as Hs.
  - destruct (IH _ _ _ _ _ _ E) as (vis & Hv & Hr). exists vis. split; [by apply visit_again|done].
  - pose proof (spread_groups parent cur at_ tp tree group peers masters all) as Eq.
    destruct (spread_same parent cur at_ tp tree group peers masters [] [] all) as [Ec _].
    destruct (spread parent cur at_ tp tree group peers masters all) as [c q]. simpl in Eq, Ec.
    pose proof (fill_queue_groups g (queue ++ q)) as Ef. destruct (fill_queue g (queue ++ q)) as [queue' g1]. simpl in Ef.
    destruct (IH _ _ _ _ _ _ E) as (vis & Hv & Hr). exists (group :: vis). split.
    + apply visit_new; [done|]. by rewrite Ef, fmap_app, Eq in Hv.
    + rewrite bind_cons, Hr, fmap_app, Ec, <- app_assoc. done.
Qed.

(** C35: propagation ends, and visits each group once. However the peer groups of the mounts of all namespaces
    refer to each other (cycles of slaves included): unmounting looks at the mounts of exactly the groups that
    are slaves of the parent's group, at any remove, each group once; a mounted or bound tree is copied to
    exactly the mounts of such groups, each group once; and mounting on the guest's behalf, binding and
    unmounting return. *)
Theorem propagation_terminates {F} (ops : MountFs F) (t : MountTable (F := F)) p f :
  let all := all_mounts t in
  (∀ group, ∃ out vis, receivers t group = Some out ∧ NoDup vis ∧
     (∀ g, g ∈ vis ↔ rtc (λ a b, b ∈ (receive1 a all).2) group g) ∧ out = (vis ≫= λ g, (receive1 g all).1)) ∧
  (∀ parent at_ tp tree peers masters g0, ∃ copies g' vis,
     attach_loop (loop_fuel (length all)) parent (current t) at_ tp tree all [(peer parent, peers, masters)] [] [] g0
       = Some (copies, g') ∧ NoDup vis ∧
     (∀ g, g ∈ vis ↔ rtc (λ a b, b ∈ slaves_of parent (current t) all a) (peer parent) g) ∧
     spot <$> copies = (vis ≫= spots_of parent (current t) at_ tp tree all)) ∧
  is_Some (mount_guest t p f) ∧
  (∀ src dst rec, match bind ops t src dst rec with Good t' => is_Some t' | Bad _ => True end) ∧
  (∀ detach, is_Some (unmount t p detach)).
Proof.
  assert (∀ (t : MountTable (F := F)) parent at_ tp tree peers masters g0, is_Some
    (attach_loop (loop_fuel (length (all_mounts t))) parent (current t) at_ tp tree (all_mounts t) [(peer parent, peers, masters)] [] [] g0)) as Hl.
  { clear. intros t parent at_ tp tree peers masters g0. destruct (loop_fuel_enough (peer parent) (all_mounts t)) as (H1 & H2 & H3).
    eapply (attach_loop_ends _ _ _ _ _ _ _ _ _ _ _ _ H1); [by apply Forall_singleton|simpl; lia]. }
  assert (∀ (t : MountTable (F := F)) group, is_Some (receivers t group)) as Hr.
  { clear. intros t group. destruct (loop_fuel_enough group (all_mounts t)) as (H1 & H2 & H3).
    eapply (receivers_loop_ends _ _ _ _ _ _ H1); [by apply Forall_singleton|simpl; lia]. }
  assert (∀ (t : MountTable (F := F)) tree, is_Some (attach t tree)) as Ha.
  { clear -Hl. intros t tree. unfold attach. destruct tree as [|top tree]; [by eexists|].
    destruct (best_mount t (point top) ≫= _) as [parent|]; [|by eexists]. destruct (peer parent =? 0); [by eexists|].
    destruct (share_tree t (top :: tree)) as [tree' t'].
    destruct (Hl t' parent (fs_path parent (relative_to (point top) (point parent))) (point top) tree' (peer <$> tree')
      (replicate (length tree') 0) (groups t')) as [[copies g'] E]. rewrite E. simpl. by eexists. }
  split_and!.
  - intros group. destruct (Hr t group) as [out E]. exists out.
    destruct (receivers_loop_visits _ _ _ _ _ _ E) as (vis & Hv & ->). exists vis. destruct (visit_exact _ _ _ Hv) as [H1 H2]. done.
  - intros parent at_ tp tree peers masters g0. destruct (Hl t parent at_ tp tree peers masters g0) as [[copies g'] E].
    destruct (attach_loop_visits _ _ _ _ _ _ _ _ _ _ _ _ _ E) as (vis & Hv & Hc). exists copies, g', vis.
    destruct (visit_exact _ _ _ Hv) as [H1 H2]. done.
  - unfold mount_guest, add_fs. apply Ha.
  - intros src dst rec. unfold bind. destruct (best_mount t _ ≫= _) as [m|]; [|done]. destruct (unbindable m); [done|]. apply Ha.
  - intros detach. unfold unmount. destruct (rposition _ _) as [i|] eqn:Ei; [|by eexists].
    assert (∀ P ms i, rposition P ms = Some i → is_Some (ms !! i)) as Hrp.
    { clear. intros P ms. induction ms as [|m ms IH]; intros i E; [done|]. simpl in E.
      destruct (rposition P ms) as [j|]; [injection E as <-; simpl; by apply IH|]. destruct (P m); [injection E as <-; by eexists|done]. }
    destruct (Hrp _ _ _ Ei) as [m Hm]. rewrite Hm. simpl. destruct (locked m); [by eexists|]. destruct (negb _ && _); [by eexists|].
    assert (is_Some (propagate_unmount t i)) as [t' Ht'].
    { unfold propagate_unmount. rewrite Hm. simpl. destruct (parent_from _ _ _ _ _) as [parent|]; [|by eexists].
      destruct (peer parent =? 0); [by eexists|]. destruct (Hr t (peer parent)) as [rs ->]. simpl. by eexists. }
    rewrite Ht'. simpl. destruct (rposition _ (mounts t')) as [i'|] eqn:Ei'; [|by eexists].
    destruct (Hrp _ _ _ Ei') as [m' Hm']. rewrite Hm'. simpl. destruct (_ && negb detach); [by eexists|]. destruct (negb detach); by eexists.
Qed.

(** * Pivoting the root *)

Definition matches (p : list Z) (m : Mount) : bool := path_has_prefix p (point m).
Definition plen (m : Mount) : nat := length (point m).
(** [m] is the last of the longest mounts of [ms] above [p]. *)
Definition best (p : list Z) (ms : list Mount) (m : Mount) : Prop :=
  ∃ l1 l2, ms = l1 ++ m :: l2 ∧ matches p m = true ∧
  (∀ x, x ∈ l1 → matches p x = true → (plen x ≤ plen m)%nat) ∧
  (∀ x, x ∈ l2 → matches p x = true → (plen x < plen m)%nat).

Lemma owns_best ms p i m : ms !! i = Some m → owns ms p i → best p ms m.
Proof.
  intros Hm (m0 & Hm0 & Hp & Ho). rewrite Hm in Hm0. injection Hm0 as <-.
  exists (take i ms), (drop (S i) ms). split_and!; [by rewrite take_drop_middle|done| |].
  - intros x [j [Hj Hlt]%lookup_take_Some]%list_elem_of_lookup Hx. destruct (Ho _ _ Hj Hx) as [?|[? _]]; unfold plen; lia.
  - intros x [j Hj]%list_elem_of_lookup Hx. rewrite lookup_drop in Hj. destruct (Ho _ _ Hj Hx) as [?|[_ ?]]; unfold plen; lia.
Qed.

Lemma best_owns ms p m : best p ms m → ∃ i, ms !! i = Some m ∧ owns ms p i.
Proof.
  intros (l1 & l2 & -> & Hp & H1 & H2). exists (length l1). split; [by rewrite list_lookup_middle|].
  exists m. split_and!; [by rewrite list_lookup_middle|done|]. intros j x Hj Hx.
  apply lookup_app_Some in Hj as [Hj|[Hl Hj]].
  - pose proof (lookup_lt_Some _ _ _ Hj). apply list_elem_of_lookup_2 in Hj. specialize (H1 _ Hj Hx). unfold plen in *. lia.
  - destruct (j - length l1)%nat as [|k] eqn:Ek; simpl in Hj; [injection Hj as ->; lia|].
    apply list_elem_of_lookup_2 in Hj. specialize (H2 _ Hj Hx). unfold plen in *. lia.
Qed.

Lemma locate_best {F} (t : MountTable (F := F)) p m rel :
  locate t p = Some (m, rel) ↔ best p (mounts t) m ∧ rel = fs_path m (relative_to p (point m)).
Proof.
  unfold locate. split.
  - destruct (best_mount t p) as [i|] eqn:Eb; [|done]. simpl. destruct (mounts t !! i) as [m'|] eqn:Em; [|done]. simpl.
    intros [= <- <-]. split; [|done]. apply best_mount_owns in Eb. exact (owns_best _ _ _ _ Em Eb).
  - intros [Hb ->]. destruct (best_owns _ _ _ Hb) as (i & Hi & Ho). apply best_mount_owns in Ho. rewrite Ho. simpl. by rewrite Hi.
Qed.

Lemma best_filter (P : Mount → Prop) `{∀ x, Decision (P x)} p ms m : best p ms m → P m → best p (filter P ms) m.
Proof.
  intros (l1 & l2 & -> & Hp & H1 & H2) HP. exists (filter P l1), (filter P l2). rewrite filter_app, filter_cons_True by done.
  split_and!; [done|done| |]; intros x [_ Hx]%list_elem_of_filter; auto.
Qed.

(** A change of places that keeps which mounts are above and in what order. *)
Lemma best_map (f : Mount → Mount) p p' ms m :
  (∀ x, x ∈ ms → matches p' (f x) = matches p x) →
  (∀ x y, x ∈ ms → y ∈ ms → matches p x = true → matches p y = true → (plen (f x) ≤ plen (f y))%nat ↔ (plen x ≤ plen y)%nat) →
  best p ms m → best p' (f <$> ms) (f m).
Proof.
  intros Hm Hl (l1 & l2 & -> & Hp & H1 & H2). exists (f <$> l1), (f <$> l2). rewrite fmap_app.
  assert (m ∈ l1 ++ m :: l2) as Hin by set_solver.
  split_and!; [done|by rewrite Hm| |].
  - intros x (y & -> & Hy)%list_elem_of_fmap Hx. assert (y ∈ l1 ++ m :: l2) by set_solver. rewrite Hm in Hx by done.
    apply Hl; auto.
  - intros x (y & -> & Hy)%list_elem_of_fmap Hx. assert (y ∈ l1 ++ m :: l2) by set_solver. rewrite Hm in Hx by done.
    specialize (H2 _ Hy Hx). specialize (Hl m y Hin ltac:(done) Hp Hx). lia.
Qed.

Lemma best_app_r p ms ms' m : best p ms m → (∀ x, x ∈ ms' → matches p x = true → (plen x < plen m)%nat) → best p (ms ++ ms') m.
Proof.
  intros (l1 & l2 & -> & Hp & H1 & H2) Hr. exists l1, (l2 ++ ms'). rewrite <- app_assoc. split_and!; [done|done|done|].
  intros x [Hx|Hx]%elem_of_app; auto.
Qed.
Lemma best_app_l p ms ms' m : best p ms m → (∀ x, x ∈ ms' → matches p x = true → (plen x ≤ plen m)%nat) → best p (ms' ++ ms) m.
Proof.
  intros (l1 & l2 & -> & Hp & H1 & H2) Hr. exists (ms' ++ l1), l2. rewrite <- app_assoc. split_and!; [done|done| |done].
  intros x [Hx|Hx]%elem_of_app; auto.
Qed.

(** Mount points are normal forms. *)
Definition normal_point (m : Mount) : Prop := ∃ cs, Forall plain cs ∧ point m = norm cs.

Definition to_new (nr : list Z) (m : Mount) : Mount := with_point m (normalize (SLASH :: relative_to (point m) nr)).
Definition to_old (po : list Z) (side : Z) (m : Mount) : Mount := with_side (with_point m (normalize (slash po (point m)))) side.

Lemma pivot_split_filter ms i top nr po side :
  (∀ j m, ms !! j = Some m → path_has_prefix (point m) nr = true → (top ≤ i + j)%nat) →
  pivot_split ms i top nr po side
  = (to_new nr <$> filter (λ m, path_has_prefix (point m) nr = true) ms,
     to_old po side <$> filter (λ m, path_has_prefix (point m) nr ≠ true) ms).
Proof.
  revert i. induction ms as [|m ms IH]; intros i Ht; [done|]. simpl.
  rewrite (IH (S i)) by (intros j m' Hj Hp; specialize (Ht (S j) m' Hj Hp); lia).
  destruct (path_has_prefix (point m) nr) eqn:E.
  - specialize (Ht 0%nat m eq_refl E). rewrite (proj2 (Nat.leb_le top i)) by lia. simpl.
    rewrite filter_cons_True by done. by rewrite (filter_cons_False _ (A := Mount)) by (rewrite E; auto).
  - rewrite andb_false_r. rewrite filter_cons_False by congruence. by rewrite (filter_cons_True _ (A := Mount)) by congruence.
Qed.

Lemma rposition_Some P ms i : rposition P ms = Some i → ∃ m, ms !! i = Some m ∧ P m = true.
Proof.
  revert i. induction ms as [|m ms IH]; intros i E; [done|]. simpl in E. destruct (rposition P ms) as [j|].
  - injection E as <-. by apply IH.
  - destruct (P m) eqn:Ep; [|done]. injection E as <-. by exists m.
Qed.

Section Pivot.
Context (a b : list (list Z)) (Ha : Forall plain a) (Hb : Forall plain b).
Context (ms : list Mount) (side : Z) (Hn : Forall normal_point ms).
Context (Htop : ∃ m, m ∈ ms ∧ point m = norm a).
Context (Hfree : ∀ m, m ∈ ms → path_has_prefix (point m) (norm (a ++ b)) = true → point m = norm a).

Let new_ms : list Mount :=
  (to_new (norm a) <$> filter (λ m, path_has_prefix (point m) (norm a) = true) ms) ++
  (to_old (norm b) side <$> filter (λ m, path_has_prefix (point m) (norm a) ≠ true) ms).

Lemma point_cases m : m ∈ ms → ∃ cs, Forall plain cs ∧ point m = norm cs.
Proof. intros Hm. rewrite Forall_forall in Hn. by apply Hn. Qed.

Lemma kept_point m :
  m ∈ ms → path_has_prefix (point m) (norm a) = true →
  ∃ x, Forall plain x ∧ point m = norm (a ++ x) ∧ point (to_new (norm a) m) = norm x.
Proof.
  intros Hm Hp. destruct (point_cases m Hm) as (cs & Hcs & E). rewrite E, prefix_norm in Hp by done.
  apply bool_decide_eq_true in Hp as [x ->]. apply Forall_app in Hcs as [_ Hx]. exists x. split_and!; [done|done|].
  simpl. by rewrite E, relative_norm, normalize_top.
Qed.

Lemma old_point m : m ∈ ms → ∃ cs, Forall plain cs ∧ point m = norm cs ∧ point (to_old (norm b) side m) = norm (b ++ cs).
Proof.
  intros Hm. destruct (point_cases m Hm) as (cs & Hcs & E). exists cs. split_and!; [done|done|]. simpl.
  by rewrite E, normalize_slash_norm.
Qed.

(** Below the new root: the path without its prefix. *)
Lemma pivot_below s m :
  Forall plain s → ¬ b `prefix_of` s → best (norm (a ++ s)) ms m →
  best (norm s) new_ms (to_new (norm a) m) ∧
  relative_to (norm s) (point (to_new (norm a) m)) = relative_to (norm (a ++ s)) (point m).
Proof.
  intros Hs Hns Hbest. assert (Forall plain (a ++ s)) as Has by (by apply Forall_app).
  assert (m ∈ ms ∧ matches (norm (a ++ s)) m = true) as [Hm Hmm].
  { destruct Hbest as (l1 & l2 & -> & Hp & _). set_solver. }
  assert (path_has_prefix (point m) (norm a) = true) as HK.
  { destruct Htop as (mt & Hmt & Et). destruct (point_cases m Hm) as (cs & Hcs & E).
    unfold matches in Hmm. rewrite E, prefix_norm in Hmm by done. apply bool_decide_eq_true in Hmm.
    rewrite E, prefix_norm by done. apply bool_decide_eq_true.
    apply (length_norm_prefix a cs (a ++ s)); [done|by eexists|done|]. rewrite <- Et, <- E.
    assert (matches (norm (a ++ s)) mt = true) as Hmt'.
    { unfold matches. rewrite Et, prefix_norm by done. apply bool_decide_eq_true. by eexists. }
    destruct Hbest as (l1 & l2 & Eq & _ & H1 & H2). rewrite Eq in Hmt. apply elem_of_app in Hmt as [Hmt|[->|Hmt]%elem_of_cons].
    - exact (H1 _ Hmt Hmt').
    - done.
    - specialize (H2 _ Hmt Hmt'). unfold plen in *. lia. }
  destruct (kept_point m Hm HK) as (x & Hx & E1 & E2). split.
  - apply best_app_r.
    + eapply best_map; [| |by apply best_filter].
      * intros y [Hy Hyms]%list_elem_of_filter. destruct (kept_point y Hyms Hy) as (z & Hz & F1 & F2).
        unfold matches. rewrite F1, F2, !prefix_norm by (done || by apply Forall_app).
        apply bool_decide_ext. split; [intros [r ->]; exists r; by rewrite app_assoc|].
        intros [r Er]. rewrite <- app_assoc in Er. simplify_list_eq. by eexists.
      * intros y z [Hy Hyms]%list_elem_of_filter [Hz Hzms]%list_elem_of_filter My Mz.
        destruct (kept_point y Hyms Hy) as (y' & Hy' & F1 & F2). destruct (kept_point z Hzms Hz) as (z' & Hz' & G1 & G2).
        unfold matches in My, Mz. rewrite F1, prefix_norm in My by (done || by apply Forall_app).
        rewrite G1, prefix_norm in Mz by (done || by apply Forall_app). apply bool_decide_eq_true in My, Mz.
        unfold plen. rewrite F1, F2, G1, G2. rewrite (length_norm_prefix (a ++ y') (a ++ z') (a ++ s)) by done.
        assert (y' `prefix_of` s ∧ z' `prefix_of` s) as [Py Pz].
        { split; [destruct My as [r Er]|destruct Mz as [r Er]]; rewrite <- app_assoc in Er; simplify_list_eq; by eexists. }
        rewrite (length_norm_prefix y' z' s) by done. split; [intros [r ->]; exists r; by rewrite app_assoc|].
        intros [r Er]. rewrite <- app_assoc in Er. simplify_list_eq. by eexists.
    + intros y (z & -> & [_ Hz]%list_elem_of_filter)%list_elem_of_fmap My. exfalso.
      destruct (old_point z Hz) as (cs & Hcs & _ & F2). unfold matches in My. rewrite F2, prefix_norm in My by (done || by apply Forall_app).
      apply bool_decide_eq_true in My. destruct Hns. by eapply prefix_app_l.
  - unfold matches in Hmm. rewrite E1, prefix_norm in Hmm by (done || by apply Forall_app). apply bool_decide_eq_true in Hmm as [r Er].
    rewrite <- app_assoc in Er. apply app_inv_head in Er as ->. apply Forall_app in Hs as [_ Hr].
    rewrite E1, E2. rewrite relative_norm by done. rewrite (app_assoc a x r), relative_norm; [done|by apply Forall_app|done].
Qed.

(** Anywhere else: the path below the old root. *)
Lemma pivot_beside c m :
  Forall plain c → ¬ a `prefix_of` c → best (norm c) ms m →
  best (norm (b ++ c)) new_ms (to_old (norm b) side m) ∧
  relative_to (norm (b ++ c)) (point (to_old (norm b) side m)) = relative_to (norm c) (point m).
Proof.
  intros Hc Hnc Hbest. assert (Forall plain (b ++ c)) as Hbc by (by apply Forall_app).
  assert (m ∈ ms ∧ matches (norm c) m = true) as [Hm Hmm].
  { destruct Hbest as (l1 & l2 & -> & Hp & _). set_solver. }
  destruct (old_point m Hm) as (cs & Hcs & E1 & E2). pose proof Hmm as Hmc. unfold matches in Hmc.
  rewrite E1, prefix_norm in Hmc by done. apply bool_decide_eq_true in Hmc as [r Er].
  assert (path_has_prefix (point m) (norm a) ≠ true) as HK.
  { rewrite E1, prefix_norm by done. rewrite bool_decide_eq_true. intros [r' ->]. destruct Hnc. rewrite Er, <- app_assoc. by eexists. }
  split.
  - apply best_app_l.
    + eapply best_map; [| |by apply best_filter].
      * intros y [_ Hy]%list_elem_of_filter. destruct (old_point y Hy) as (z & Hz & F1 & F2).
        unfold matches. rewrite F1, F2, !prefix_norm by (done || by apply Forall_app).
        apply bool_decide_ext. split; [|intros [r' ->]; exists r'; by rewrite app_assoc].
        intros [r' Er']. rewrite <- app_assoc in Er'. simplify_list_eq. by eexists.
      * intros y z [_ Hy]%list_elem_of_filter [_ Hz]%list_elem_of_filter My Mz.
        destruct (old_point y Hy) as (y' & Hy' & F1 & F2). destruct (old_point z Hz) as (z' & Hz' & G1 & G2).
        unfold matches in My, Mz. rewrite F1, prefix_norm in My by done. rewrite G1, prefix_norm in Mz by done. apply bool_decide_eq_true in My, Mz.
        unfold plen. rewrite F1, F2, G1, G2. rewrite (length_norm_prefix y' z' c) by done.
        rewrite (length_norm_prefix (b ++ y') (b ++ z') (b ++ c)); [|done|by apply prefix_app..].
        split; [|intros [r' ->]; exists r'; by rewrite app_assoc]. intros [r' Er']. rewrite <- app_assoc in Er'. simplify_list_eq. by eexists.
    + intros y (z & -> & [HKz Hz]%list_elem_of_filter)%list_elem_of_fmap My.
      destruct (kept_point z Hz HKz) as (x & Hx & F1 & F2). unfold matches in My. rewrite F2, prefix_norm in My by done.
      apply bool_decide_eq_true in My. unfold plen. rewrite F2, E2.
      destruct (prefix_weak_total x b (b ++ c)) as [Hxb|Hbx]; [done|by eexists| |].
      * apply length_norm_le; [by apply Forall_app|]. by apply prefix_app_r.
      * specialize (Hfree z Hz). rewrite F1, prefix_norm in Hfree by (by apply Forall_app).
        rewrite bool_decide_true in Hfree by (by apply prefix_app). specialize (Hfree eq_refl).
        apply norm_inj in Hfree; [|by apply Forall_app|done]. assert (x = []) as -> by (apply (app_inv_head a); by rewrite app_nil_r).
        apply length_norm_le; [by apply Forall_app|]. apply prefix_nil.
  - rewrite E1, E2. subst c. apply Forall_app in Hc as [_ Hr]. rewrite relative_norm by done.
    rewrite (app_assoc b cs r), relative_norm; [done|by apply Forall_app|done].
Qed.
End Pivot.

(** C13: [pivot_root] moves names, not files. Where the new root is the oldest mount at or below its place, and
    nothing but the new root itself is mounted at or below the place for the old root (which may be the new root
    itself, as in [pivot_root(".", ".")]): every path that is not below that place, translated as the
    kernel translates its working directories and open files, is owned after the pivot by the same mount (with the same file system and the same protection) under the same name in it. *)
Theorem pivot_keeps_paths {F} (t t' : MountTable (F := F)) nr po map p m rel :
  Forall normal_point (mounts t) →
  (∀ i j mi mj, mounts t !! i = Some mi → point mi = normalize nr → mounts t !! j = Some mj →
     path_has_prefix (point mj) (normalize nr) = true → (i ≤ j)%nat) →
  (∀ m, m ∈ mounts t → path_has_prefix (point m) (normalize po) = true → point m = normalize nr) →
  pivot_root t nr po = Good (map, t') →
  path_has_prefix (normalize p) (normalize po) = false →
  locate t (normalize p) = Some (m, rel) →
  ∃ m', locate t' (pivot_translate map (normalize p)) = Some (m', rel) ∧ fs m' = fs m ∧ read_only m' = read_only m.
Proof.
  intros Hn Hhid Hfree Hpiv Hp Hloc. unfold pivot_root in Hpiv.
  destruct (negb (is_mount_point t (normalize nr)) || negb (path_has_prefix (normalize po) (normalize nr)) || _) eqn:Eg; [done|].
  apply orb_false_iff in Eg as [[_ Epo%negb_false_iff]%orb_false_iff _].
  destruct (rposition _ _) as [top|] eqn:Er; [|done].
  destruct (rposition_Some _ _ _ Er) as (mt & Hmt & Et%bool_decide_eq_true).
  rewrite !normalize_norm in Epo, Hp. rewrite prefix_norm in Epo by apply components_plain. apply bool_decide_eq_true in Epo as [b Eb].
  set (a := components nr) in *. pose proof (components_plain nr : Forall plain a) as Ha.
  assert (Forall plain b) as Hb. { pose proof (components_plain po) as H. rewrite Eb in H. by apply Forall_app in H as [_ ?]. }
  assert (normalize nr = norm a) as Enr by apply normalize_norm.
  assert (normalize po = norm (a ++ b)) as Epn by (by rewrite normalize_norm, Eb).
  rewrite !Enr, Epn in *. rewrite relative_norm, normalize_top in Hpiv by done. cbn [put_old] in Hpiv.
  rewrite pivot_split_filter in Hpiv by (intros j m0 Hj Hpj; eapply Hhid; eauto).
  injection Hpiv as <- <-. unfold pivot_translate. cbn [new_root put_old].
  assert (∃ m, m ∈ mounts t ∧ point m = norm a) as Htop by (exists mt; split; [by eapply list_elem_of_lookup_2|done]).
  rewrite normalize_norm in Hloc |- *. set (c := components p) in *. pose proof (components_plain p : Forall plain c) as Hc.
  rewrite Eb in Hp. rewrite prefix_norm in Hp; [|done|by apply Forall_app]. apply bool_decide_eq_false in Hp.
  apply locate_best in Hloc as [Hbest ->]. rewrite prefix_norm by done. case_bool_decide as Hac.
  - destruct Hac as [s Es]. rewrite Es in *. apply Forall_app in Hc as [_ Hs]. rewrite relative_norm, normalize_top by done.
    destruct (pivot_below a b Ha Hb (mounts t) (wrap U32 (pivots t + 1)) Hn Htop Hfree s m Hs) as [B1 B2]; [|done|].
    { intros Hbs. destruct Hp. by apply prefix_app. }
    eexists. split_and!; [apply locate_best; split; [exact B1|]|done|done]. rewrite B2. done.
  - rewrite normalize_slash_norm by done.
    destruct (pivot_beside a b Ha Hb (mounts t) (wrap U32 (pivots t + 1)) Hn Htop Hfree c m Hc Hac Hbest) as [B1 B2].
    eexists. split_and!; [apply locate_best; split; [exact B1|]|done|done]. rewrite B2. done.
Qed.

(** [/], [/new] and [/dev] mounted; the new root is [/new], the old one goes to [/new/old]. *)
Definition s_new : list Z := [110; 101; 119].
Definition s_old : list Z := [111; 108; 100].
Definition s_dev : list Z := [100; 101; 118].
Definition three_mounts : MountTable :=
  mount (mount (mount table_new [SLASH] tmpfs_new) (render [s_new]) tmpfs_new) (render [s_dev]) tmpfs_new.
Definition three_pivoted : PivotMap * MountTable (F := TmpFs) :=
  match pivot_root three_mounts (render [s_new]) (render [s_new; s_old]) with Good r => r | Bad _ => (mkPivotMap [] [], three_mounts) end.
Definition dev_mount : Mount := mount_new (render [s_dev]) 2 false.

Lemma three_normal : Forall normal_point (mounts three_mounts).
Proof.
  change (mounts three_mounts) with [mount_new [SLASH] 0 false; mount_new (render [s_new]) 1 false; dev_mount].
  assert (∀ c : list Z, plain c → normal_point (mount_new (render [c]) 1 false) ∧ normal_point (mount_new (render [c]) 2 false)) as H.
  { intros c Hc. split; exists [c]; split; try done; by apply Forall_singleton. }
  constructor; [by exists []|]. constructor; [apply H|constructor; [apply H|constructor]];
    split_and!; try done; unfold s_new, s_dev, SLASH; set_solver.
Qed.

Lemma pivot_keeps_paths_witness :
  ∃ m', locate three_pivoted.2 (render [s_old; s_dev; s_x]) = Some (m', s_x) ∧ fs m' = 2%nat.
Proof.
  edestruct (pivot_keeps_paths three_mounts three_pivoted.2 (render [s_new]) (render [s_new; s_old]) three_pivoted.1
    (render [s_dev; s_x]) dev_mount s_x) as (m' & H1 & H2 & _).
  - apply three_normal.
  - intros [|[|[|i]]] [|[|[|j]]] mi mj; vm_compute; intros; simplify_eq; lia.
  - intros m Hm. vm_compute in Hm. repeat (apply elem_of_cons in Hm as [->|Hm]; [vm_compute; discriminate|]). set_solver.
  - vm_compute. reflexivity.
  - vm_compute. reflexivity.
  - vm_compute. reflexivity.
  - exists m'. split; [exact H1|exact H2].
Defined.

(** [pivot_root(".", ".")] from [/new]: the old root covers the new one, and [/dev/x] is where it was. *)
Definition dot_pivoted : PivotMap * MountTable (F := TmpFs) :=
  match pivot_root three_mounts (render [s_new]) (render [s_new]) with Good r => r | Bad _ => (mkPivotMap [] [], three_mounts) end.
Lemma pivot_dot_dot :
  ∃ m', locate dot_pivoted.2 (render [s_dev; s_x]) = Some (m', s_x) ∧ fs m' = 2%nat ∧
    fs <$> (fst <$> locate dot_pivoted.2 (render [s_d])) = Some 0%nat.
Proof. eexists. split_and!; vm_compute; reflexivity. Qed.

(** * Two protections that can be got around *)

Definition s_ro : list Z := [114; 111].
(** [/] and a read-only [/ro], copied to namespace 1 for a less privileged user namespace. *)
Definition locked_ro : MountTable :=
  fs_run (mount (mount table_new [SLASH] tmpfs_new) (render [s_ro]) tmpfs_new)
    [λ t, (set_read_only t (render [s_ro]) true).2; λ t, copy_namespace t 0 1 true; λ t, enter t 1 [SLASH]].

(** The locked mount itself cannot be made writable, but a bind mount of it can. *)
Definition bound_ro : MountTable :=
  match bind demo_ops locked_ro (render [s_ro]) (render [s_x]) false with Good (Some t) => t | _ => locked_ro end.
Lemma bind_unlocks_read_only :
  (set_read_only locked_ro (render [s_ro]) false).1 = Bad EPERM ∧
  (create demo_ops 1 bound_ro (render [s_x; s_d]) 0).1 = Bad EROFS ∧
  (create demo_ops 1 (set_read_only bound_ro (render [s_x]) false).2 (render [s_x; s_d]) 0).1 = Good tt.
Proof. split; [vm_compute; reflexivity|]. split; vm_compute; reflexivity. Qed.

(** A shared [/] in two namespaces, [/d] mounted and so propagated, then private with a mount below it. *)
Definition busy_table : option MountTable :=
  let t := mount table_new [SLASH] tmpfs_new in
  let t := (set_propagation t [SLASH] Shared false).2 in
  let t := copy_namespace t 0 1 false in
  t ← mount_guest t (render [s_d]) tmpfs_new;
  let t := (set_propagation t (render [s_d]) Private false).2 in
  mount_guest t (render [s_d; s_x]) tmpfs_new.

(** Unmounting it fails with [EBUSY] and still takes away the other namespace's copy. *)
Lemma busy_unmount_drops_copies :
  match busy_table with
  | None => False
  | Some t =>
    point <$> list_of t 1 = [[SLASH]; render [s_d]] ∧
    match unmount t (render [s_d]) false with
    | Some (r, t') => r = Bad EBUSY ∧ point <$> list_of t' 1 = [[SLASH]]
    | None => False
    end
  end.
Proof. vm_compute. repeat split. Qed.
