(* ===== verification/Fd.v ===== *)
(** The per-process descriptor table ([src/kernel/fd.rs]).

    An open file description is shared by every descriptor dup'ed or forked from the open
    that made it, so its offset and append flag live in a store of their own and a
    descriptor holds a location of that store. *)
From S2P Require Import Prelude.
From stdpp Require Import base numbers gmap list sorting.
From S2P Require Import PageLocks.
Local Open Scope Z_scope.

Definition I32_MAX : Z := 2 ^ 31 - 1.

(** * Open file descriptions *)

Record OfdState := mkOfd { pos : Z; append_flag : bool }.
Definition Ofds : Type := gmap Z OfdState.

(** [FileOffset]: a location of the store. *)
Definition FileOffset : Type := Z.

(** [FileOffset::new], [get], [set], [add] (wrapping), [append], [set_append]. *)
Definition ofd_new (p : Z) (h : Ofds) : FileOffset * Ofds :=
  let l := fresh (dom h) in (l, <[l := mkOfd p false]> h).
Definition ofd_get (h : Ofds) (o : FileOffset) : Z := from_option pos 0 (h !! o).
Definition ofd_set (h : Ofds) (o : FileOffset) (p : Z) : Ofds :=
  alter (λ s, mkOfd p (append_flag s)) o h.
Definition ofd_add (h : Ofds) (o : FileOffset) (n : Z) : Ofds :=
  alter (λ s, mkOfd (wrap U64 (pos s + n)) (append_flag s)) o h.
Definition ofd_append (h : Ofds) (o : FileOffset) : bool := from_option append_flag false (h !! o).
Definition ofd_set_append (h : Ofds) (o : FileOffset) (on : bool) : Ofds :=
  alter (λ s, mkOfd (pos s) on) o h.
Definition ofd_same (a b : FileOffset) : bool := bool_decide (a = b).

(** * Descriptors *)

Record FdMeta := mkMeta { owner : Z * Z; sig : Z; lease : Z; notify : Z; rw_hint : Z }.
Definition meta_default : FdMeta := mkMeta (1, 0) 0 2 0 0.

Inductive NsKind :=
  | Cgroup | Ipc | Mnt | Net | Pid | PidForChildren | Time | TimeForChildren | User | Uts.

(** A path is the list of its bytes; [hold] identifies a mqueue's keep-alive. *)
Inductive Fd :=
  | Stdin
  | Stdout
  | Stderr
  | Tty
  | File (path : list Z) (offset : FileOffset) (readable writable : bool)
  | Dir (path : list Z) (dpos : Z)
  | PipeRead (i : Z)
  | PipeWrite (i : Z)
  | Socket (sock tail : Z)
  | Eventfd (i : Z)
  | Signalfd (i : Z)
  | Timerfd (i : Z)
  | Pidfd (i : Z)
  | Namespace (kind : NsKind) (id : Z)
  | Epoll (i : Z)
  | PtyMaster (i : Z)
  | PtySlave (i : Z)
  | Mqueue (q flags hold : Z).

Record FdTable := mkFdTable {
  fmap : gmap Z Fd;
  cloexec : gset Z;
  fmeta : gmap Z FdMeta
}.

(** [with_standard_streams], [Default]. *)
Definition with_standard_streams : FdTable :=
  mkFdTable (<[0 := Stdin]> (<[1 := Stdout]> (<[2 := Stderr]> ∅))) ∅ ∅.
Definition fd_default : FdTable := mkFdTable ∅ ∅ ∅.

(** [rewrite_paths]. *)
Definition rewrite_fd (rw : list Z → list Z) (f : Fd) : Fd :=
  match f with
  | File p o r w => File (rw p) o r w
  | Dir p d => Dir (rw p) d
  | _ => f
  end.
Definition rewrite_paths (t : FdTable) (rw : list Z → list Z) : FdTable :=
  mkFdTable (rewrite_fd rw <$> fmap t) (cloexec t) (fmeta t).

Definition fd_len (t : FdTable) : Z := Z.of_nat (size (fmap t)).
Definition fd_is_empty (t : FdTable) : bool := fd_len t =? 0.

(** [has_room_for]: [map.range(..limit).count()]. *)
Definition below (t : FdTable) (lim : Z) : Z :=
  Z.of_nat (size (filter (λ x, x.1 < lim) (fmap t))).
Definition has_room_for (t : FdTable) (wanted limit : Z) : bool :=
  let limit := if limit <=? I32_MAX then limit else I32_MAX in
  below t limit + wanted <=? Z.abs limit.

(** [alloc_from]: the search for a free number, on [i32]. *)
Fixpoint lowest_free (fuel : nat) (m : gmap Z Fd) (n : Z) : res Z :=
  match m !! n with
  | None => Ok n
  | Some _ =>
    match fuel with
    | O => Ok n
    | S fuel => if n + 1 <=? I32_MAX then lowest_free fuel m (n + 1) else Panic
    end
  end.
Definition alloc_from (t : FdTable) (f : Fd) (min : Z) : res (Z * FdTable) :=
  n ← lowest_free (size (fmap t)) (fmap t) (Z.max min 0);
  Ok (n, mkFdTable (<[n := f]> (fmap t)) (cloexec t) (fmeta t)).
Definition fd_alloc (t : FdTable) (f : Fd) : res (Z * FdTable) := alloc_from t f 0.

(** [insert] (for [dup2]), [close], [get], [set_cloexec], [is_cloexec]. *)
Definition fd_insert (t : FdTable) (n : Z) (f : Fd) : option Fd * FdTable :=
  (fmap t !! n, mkFdTable (<[n := f]> (fmap t)) (cloexec t ∖ {[n]}) (delete n (fmeta t))).
Definition fd_close (t : FdTable) (n : Z) : option Fd * FdTable :=
  (fmap t !! n, mkFdTable (delete n (fmap t)) (cloexec t ∖ {[n]}) (delete n (fmeta t))).
Definition fd_get (t : FdTable) (n : Z) : option Fd := fmap t !! n.
Definition set_cloexec (t : FdTable) (n : Z) (on : bool) : FdTable :=
  match fmap t !! n with
  | None => t
  | Some _ =>
    mkFdTable (fmap t) (if on then {[n]} ∪ cloexec t else cloexec t ∖ {[n]}) (fmeta t)
  end.
Definition is_cloexec (t : FdTable) (n : Z) : bool := bool_decide (n ∈ cloexec t).

(** [set_append] and [is_append] go through the description. *)
Definition fd_set_append (t : FdTable) (h : Ofds) (n : Z) (on : bool) : Ofds :=
  match fmap t !! n with Some (File _ o _ _) => ofd_set_append h o on | _ => h end.
Definition is_append (t : FdTable) (h : Ofds) (n : Z) : bool :=
  match fmap t !! n with Some (File _ o _ _) => ofd_append h o | _ => false end.

(** [meta], and [meta_mut] with the store through it. *)
Definition fd_meta (t : FdTable) (n : Z) : FdMeta := default meta_default (fmeta t !! n).
Definition meta_mut (t : FdTable) (n : Z) (f : FdMeta → FdMeta) : FdTable :=
  mkFdTable (fmap t) (cloexec t) (<[n := f (fd_meta t n)]> (fmeta t)).

(** [get_mut] with the store through it. *)
Definition get_mut (t : FdTable) (n : Z) (f : Fd → Fd) : FdTable :=
  mkFdTable (alter f n (fmap t)) (cloexec t) (fmeta t).

(** [close_cloexec]: what [execve] closes, lowest first. *)
Fixpoint close_all (ns : list Z) (m : gmap Z Fd) (mt : gmap Z FdMeta)
    : list Fd * gmap Z Fd * gmap Z FdMeta :=
  match ns with
  | [] => ([], m, mt)
  | n :: ns =>
    let '(out, m', mt') := close_all ns (delete n m) (delete n mt) in
    (match m !! n with Some f => f :: out | None => out end, m', mt')
  end.
Definition close_cloexec (t : FdTable) : list Fd * FdTable :=
  let '(out, m, mt) := close_all (merge_sort Z.le (elements (cloexec t))) (fmap t) (fmeta t) in
  (out, mkFdTable m ∅ mt).

(** [values], [drain]. *)
Definition fd_values (t : FdTable) : list Fd := (bt_list (fmap t)).*2.
Definition fd_drain (t : FdTable) : list Fd * FdTable := (fd_values t, mkFdTable ∅ ∅ ∅).

(** * The search for a free number *)

(** How many numbers from [n] on are taken. *)
Definition taken_from (m : gmap Z Fd) (n : Z) : nat := size (filter (λ x, n ≤ x.1) m).

Lemma taken_from_S m n f : m !! n = Some f → taken_from m n = S (taken_from m (n + 1)).
Proof.
  intros Hn. unfold taken_from.
  assert (filter (λ x : Z * Fd, n ≤ x.1) m
    = <[n := f]> (filter (λ x : Z * Fd, (n + 1) ≤ x.1) m)) as ->.
  { apply map_eq. intros k. destruct (decide (k = n)) as [->|Hk].
    - rewrite lookup_insert_eq, map_lookup_filter_Some. done.
    - rewrite lookup_insert_ne by done. apply option_eq. intros g.
      rewrite !map_lookup_filter_Some. simpl. split; intros [? ?]; split; done || lia. }
  apply map_size_insert_None, map_lookup_filter_None. right. intros g _ H. simpl in H. lia.
Qed.

Lemma taken_from_size m n : (taken_from m n ≤ size m)%nat.
Proof. apply map_subseteq_size, map_filter_subseteq. Qed.

Lemma lowest_free_ok fuel m : ∀ n,
  (taken_from m n ≤ fuel)%nat → n + Z.of_nat (taken_from m n) ≤ I32_MAX →
  ∃ k, lowest_free fuel m n = Ok k ∧ m !! k = None
    ∧ n ≤ k ≤ n + Z.of_nat (taken_from m n) ∧ ∀ j, n ≤ j < k → is_Some (m !! j).
Proof.
  induction fuel as [|fuel IH]; intros n Hf Hb; simpl; destruct (m !! n) as [f|] eqn:Hn.
  - rewrite (taken_from_S _ _ _ Hn) in Hf. lia.
  - exists n. split_and!; [done|done|lia|lia|intros; lia].
  - rewrite (taken_from_S _ _ _ Hn) in Hf, Hb. rewrite (taken_from_S _ _ _ Hn).
    destruct (Z.leb_spec (n + 1) I32_MAX); [|lia].
    destruct (IH (n + 1)) as (k & E & Hk & Hr & Hlow); [lia|lia|].
    exists k. split_and!; [done|done|lia|lia|]. intros j Hj.
    destruct (decide (j = n)) as [->|]; [by rewrite Hn|]. apply Hlow. lia.
  - exists n. split_and!; [done|done|lia|lia|intros; lia].
Qed.

(** If every number below [L] is taken, at least [L] are. *)
Lemma all_taken t L :
  0 ≤ L → (∀ k, 0 ≤ k < L → is_Some (fmap t !! k)) → L ≤ below t L.
Proof.
  intros HL H. unfold below. rewrite <- size_dom.
  assert (list_to_set (seqZ 0 L) ⊆ dom (filter (λ x : Z * Fd, x.1 < L) (fmap t))) as Hsub.
  { intros k Hk. apply elem_of_list_to_set, elem_of_seqZ in Hk. apply elem_of_dom.
    destruct (H k) as [f Hf]; [lia|]. exists f. apply map_lookup_filter_Some. simpl. split; [done|lia]. }
  apply subseteq_size in Hsub. rewrite size_list_to_set in Hsub by apply NoDup_seqZ.
  rewrite length_seqZ in Hsub. lia.
Qed.

(** * The invariant *)

(** Flags and attributes belong to open descriptors only, and numbers are [i32]s of open
    files: not negative. *)
Record fd_wf (t : FdTable) : Prop := {
  fw_cloexec : cloexec t ⊆ dom (fmap t);
  fw_meta : dom (fmeta t) ⊆ dom (fmap t);
  fw_keys n : is_Some (fmap t !! n) → 0 ≤ n
}.

Lemma not_open t n : fd_wf t → fmap t !! n = None → (n ∉ cloexec t) ∧ fmeta t !! n = None.
Proof.
  intros [W1 W2 _] Hn. apply not_elem_of_dom in Hn. split.
  - intros H. by apply Hn, W1.
  - apply not_elem_of_dom. intros H. by apply Hn, W2.
Qed.

Lemma alloc_from_ok t f min :
  fd_wf t → Z.max min 0 + Z.of_nat (size (fmap t)) ≤ I32_MAX →
  ∃ n, alloc_from t f min = Ok (n, mkFdTable (<[n := f]> (fmap t)) (cloexec t) (fmeta t))
    ∧ fmap t !! n = None
    ∧ Z.max min 0 ≤ n ≤ Z.max min 0 + Z.of_nat (size (fmap t))
    ∧ (∀ k, Z.max min 0 ≤ k < n → is_Some (fmap t !! k))
    ∧ fd_wf (mkFdTable (<[n := f]> (fmap t)) (cloexec t) (fmeta t)).
Proof.
  intros Hwf Hb. pose proof (taken_from_size (fmap t) (Z.max min 0)).
  destruct (lowest_free_ok (size (fmap t)) (fmap t) (Z.max min 0)) as (n & E & Hn & Hr & Hlow);
    [lia|lia|].
  exists n. unfold alloc_from, mbind, res_bind. rewrite E. split_and!; [done|done|lia|lia|done|].
  destruct Hwf as [W1 W2 W3]. split; simpl; [set_solver|set_solver|].
  intros k Hk. apply lookup_insert_is_Some in Hk as [<-|[_ Hk]]; [lia|by apply W3].
Qed.

(** * Sequences of operations *)

Inductive fd_op :=
  | OAlloc (f : Fd) (min : Z)
  | OInsert (n : Z) (f : Fd)
  | OClose (n : Z)
  | OCloexec (n : Z) (on : bool)
  | OMeta (n : Z) (g : FdMeta → FdMeta)
  | OMut (n : Z) (g : Fd → Fd)
  | ORewrite (rw : list Z → list Z)
  | OExec
  | ODrain.

(** [fcntl] looks a descriptor up before it touches its attributes, and [dup2] refuses
    negative numbers. *)
Definition fd_op_ok (t : FdTable) (o : fd_op) : Prop :=
  match o with
  | OAlloc _ min => Z.max min 0 + Z.of_nat (size (fmap t)) ≤ I32_MAX
  | OInsert n _ => 0 ≤ n
  | OMeta n _ => is_Some (fmap t !! n)
  | _ => True
  end.

Definition fd_step (t : FdTable) (o : fd_op) : res FdTable :=
  match o with
  | OAlloc f min => r ← alloc_from t f min; Ok r.2
  | OInsert n f => Ok (fd_insert t n f).2
  | OClose n => Ok (fd_close t n).2
  | OCloexec n on => Ok (set_cloexec t n on)
  | OMeta n g => Ok (meta_mut t n g)
  | OMut n g => Ok (get_mut t n g)
  | ORewrite rw => Ok (rewrite_paths t rw)
  | OExec => Ok (close_cloexec t).2
  | ODrain => Ok (fd_drain t).2
  end.

Lemma close_all_ok ns : ∀ m mt out m' mt',
  close_all ns m mt = (out, m', mt') →
  (∀ k, m' !! k = if decide (k ∈ ns) then None else m !! k)
  ∧ (∀ k, mt' !! k = if decide (k ∈ ns) then None else mt !! k)
  ∧ (NoDup ns → out = omap (m !!.) ns).
Proof.
  induction ns as [|n ns IH]; intros m mt out m' mt' E; simpl in E.
  - injection E as <- <- <-. split_and!; [done|done|done].
  - destruct (close_all ns (delete n m) (delete n mt)) as [[out1 m1] mt1] eqn:E1.
    injection E as <- <- <-. destruct (IH _ _ _ _ _ E1) as (H1 & H2 & H3). split_and!.
    + intros k. rewrite H1. destruct (decide (k = n)) as [->|Hk].
      * rewrite lookup_delete_eq. destruct (elem_of_cons ns n n). repeat case_decide; first [done|exfalso; tauto].
      * rewrite lookup_delete_ne by done. destruct (elem_of_cons ns k n).
        repeat case_decide; first [done|exfalso; tauto].
    + intros k. rewrite H2. destruct (decide (k = n)) as [->|Hk].
      * rewrite lookup_delete_eq. destruct (elem_of_cons ns n n). repeat case_decide; first [done|exfalso; tauto].
      * rewrite lookup_delete_ne by done. destruct (elem_of_cons ns k n).
        repeat case_decide; first [done|exfalso; tauto].
    + intros ND. apply NoDup_cons in ND as [Hn ND]. rewrite (H3 ND).
      assert (omap (delete n m !!.) ns = omap (m !!.) ns) as Ed.
      { apply list_omap_ext. apply Forall_Forall2_diag, Forall_forall. intros k Hk.
        rewrite lookup_delete_ne; [done|]. by intros ->. }
      rewrite Ed. simpl. by destruct (m !! n).
Qed.

Lemma close_cloexec_ok t :
  fd_wf t →
  let t' := (close_cloexec t).2 in
  fd_wf t' ∧ (∀ n, fmap t' !! n = if decide (n ∈ cloexec t) then None else fmap t !! n)
  ∧ (∀ n, is_cloexec t' n = false)
  ∧ (∀ n, fmap t' !! n = fmap t !! n → is_Some (fmap t !! n) → fd_meta t' n = fd_meta t n).
Proof.
  intros [W1 W2 W3] t'. unfold t', close_cloexec.
  set (ns := merge_sort Z.le (elements (cloexec t))).
  assert (∀ k, k ∈ ns ↔ k ∈ cloexec t) as Hns.
  { intros k. unfold ns. rewrite merge_sort_Permutation. apply elem_of_elements. }
  destruct (close_all ns (fmap t) (fmeta t)) as [[out m] mt] eqn:E.
  destruct (close_all_ok _ _ _ _ _ _ E) as (H1 & H2 & _). simpl.
  assert (∀ n, m !! n = if decide (n ∈ cloexec t) then None else fmap t !! n) as Hm.
  { intros n. rewrite H1. destruct (Hns n). repeat case_decide; first [done|exfalso; tauto]. }
  split_and!.
  - split; simpl; [set_solver| |].
    + intros k Hk. apply elem_of_dom in Hk as [x Hx]. rewrite H2 in Hx. case_decide as Hd; [done|].
      apply elem_of_dom. rewrite H1, decide_False by done. apply elem_of_dom, W2, elem_of_dom. by eexists.
    + intros k [f Hf]. rewrite H1 in Hf. case_decide; [done|]. apply W3. by eexists.
  - exact Hm.
  - intros n. unfold is_cloexec. simpl. apply bool_decide_eq_false_2. set_solver.
  - intros n En [f Hf]. unfold fd_meta. simpl. rewrite H2. case_decide as Hd; [|done].
    rewrite H1, decide_True in En by done. congruence.
Qed.

Lemma fd_step_wf t o : fd_wf t → fd_op_ok t o → ∃ t', fd_step t o = Ok t' ∧ fd_wf t'.
Proof.
  intros Hwf Hok. pose proof Hwf as [W1 W2 W3].
  destruct o as [f min|n f|n|n on|n g|n g|rw| |]; simpl in *.
  - destruct (alloc_from_ok t f min Hwf Hok) as (n & E & _ & _ & _ & Hwf'). unfold mbind, res_bind.
    rewrite E. by eexists.
  - eexists. split; [done|]. split; simpl; [set_solver|set_solver|].
    intros k Hk. apply lookup_insert_is_Some in Hk as [<-|[_ Hk]]; [done|by apply W3].
  - eexists. split; [done|]. split; simpl; [set_solver|set_solver|].
    intros k Hk. apply lookup_delete_is_Some in Hk as [_ Hk]. by apply W3.
  - eexists. split; [done|]. unfold set_cloexec. destruct (fmap t !! n) as [f|] eqn:E; [|done].
    assert (n ∈ dom (fmap t)) by (apply elem_of_dom; by eexists).
    split; simpl; [destruct on; set_solver|done|done].
  - eexists. split; [done|]. apply elem_of_dom in Hok. split; simpl; [done|set_solver|done].
  - eexists. split; [done|]. split; simpl; [by rewrite dom_alter_L|by rewrite dom_alter_L|].
    intros k Hk. apply W3. by rewrite lookup_alter_is_Some in Hk.
  - eexists. split; [done|]. split; simpl; [by rewrite dom_fmap_L|by rewrite dom_fmap_L|].
    intros k Hk. apply W3. by rewrite lookup_fmap, fmap_is_Some in Hk.
  - eexists. split; [done|]. by apply close_cloexec_ok.
  - eexists. split; [done|]. split; simpl; [set_solver|set_solver|].
    intros k Hk. rewrite lookup_empty in Hk. by destruct Hk.
Qed.

(** Runs of operations, each admissible where it is applied. *)
Inductive fd_run : FdTable → list fd_op → FdTable → Prop :=
  | fd_run_nil t : fd_run t [] t
  | fd_run_cons t o t1 ops t2 :
      fd_op_ok t o → fd_step t o = Ok t1 → fd_run t1 ops t2 → fd_run t (o :: ops) t2.

Lemma fd_run_wf t ops t' : fd_run t ops t' → fd_wf t → fd_wf t'.
Proof.
  induction 1 as [t|t o t1 ops t2 Hok E _ IH]; [done|]. intros Hwf. apply IH.
  destruct (fd_step_wf t o Hwf Hok) as (t1' & E' & Hwf'). rewrite E in E'. by injection E' as ->.
Qed.

Lemma standard_wf : fd_wf with_standard_streams.
Proof.
  split; simpl; [set_solver|set_solver|].
  intros n Hn. rewrite !lookup_insert_is_Some in Hn. rewrite lookup_empty in Hn.
  destruct Hn as [|[_ [|[_ [|[_ [? ?]]]]]]]; [lia..|done].
Qed.

(** * Properties *)

(** Descriptor allocation. In every table reachable from the standard streams by opens,
    dups, closes, flag and attribute changes and execs, opening or [F_DUPFD] gives the
    lowest free number at or above the minimum, never overflows while that many numbers
    exist, takes no other descriptor's place, and the new descriptor starts without
    close-on-exec and with default attributes - nothing of a closed one is inherited. *)
Theorem fd_alloc_lowest ops t f min :
  fd_run with_standard_streams ops t →
  Z.max min 0 + Z.of_nat (size (fmap t)) ≤ I32_MAX →
  ∃ n t', alloc_from t f min = Ok (n, t')
    ∧ (Z.max min 0 ≤ n ≤ I32_MAX ∧ fmap t !! n = None)
    ∧ (∀ k, Z.max min 0 ≤ k < n → is_Some (fmap t !! k))
    ∧ (∀ k, fd_get t' k = if decide (k = n) then Some f else fd_get t k)
    ∧ is_cloexec t' n = false ∧ fd_meta t' n = meta_default
    ∧ (∀ k, k ≠ n → is_cloexec t' k = is_cloexec t k ∧ fd_meta t' k = fd_meta t k).
Proof.
  intros Hr Hb. pose proof (fd_run_wf _ _ _ Hr standard_wf) as Hwf.
  destruct (alloc_from_ok t f min Hwf Hb) as (n & E & Hn & Hr' & Hlow & Hwf').
  destruct (not_open t n Hwf Hn) as [Hc Hm].
  exists n. eexists. split; [exact E|]. split_and!; [lia|lia|done|done| | | |done].
  - intros k. unfold fd_get. simpl. case_decide as Hk; [subst; apply lookup_insert_eq|].
    by apply lookup_insert_ne.
  - unfold is_cloexec. simpl. by apply bool_decide_eq_false_2.
  - unfold fd_meta. simpl. by rewrite Hm.
Qed.

Lemma fd_alloc_lowest_witness :
  ∃ t, fd_run with_standard_streams [OCloexec 1 true; OClose 1] t
  ∧ ∃ t', alloc_from t Tty 0 = Ok (1, t') ∧ is_cloexec t' 1 = false.
Proof.
  assert (∃ t, fd_run with_standard_streams [OCloexec 1 true; OClose 1] t
    ∧ fmap t = <[0 := Stdin]> (<[2 := Stderr]> ∅)) as (t & Hr & E).
  { eexists. split.
    - eapply fd_run_cons; [exact I|reflexivity|]. eapply fd_run_cons; [exact I|reflexivity|].
      apply fd_run_nil.
    - vm_compute. reflexivity. }
  exists t. split; [exact Hr|].
  destruct (fd_alloc_lowest _ t Tty 0 Hr) as (n & t' & Ea & [Hn Hnone] & Hlow & _ & Hc & _).
  { rewrite E. vm_compute. discriminate. }
  assert (n = 1) as ->.
  { destruct (decide (n = 1)) as [|Hne]; [assumption|]. exfalso.
    destruct (decide (n = 0)) as [->|Hn0].
    - rewrite E, lookup_insert_eq in Hnone. discriminate Hnone.
    - destruct (Hlow 1) as [f Hf]; [lia|]. rewrite E in Hf. vm_compute in Hf. discriminate Hf. }
  exists t'. split; [exact Ea|exact Hc].
Defined.

Lemma has_room_alloc t wanted lim f :
  fd_wf t → 0 ≤ lim ≤ I32_MAX → below t lim + wanted ≤ lim → 1 ≤ wanted →
  Z.of_nat (size (fmap t)) ≤ I32_MAX →
  ∃ n t', fd_alloc t f = Ok (n, t') ∧ 0 ≤ n < lim ∧ fd_wf t'
    ∧ below t' lim = below t lim + 1 ∧ size (fmap t') = S (size (fmap t)).
Proof.
  intros Hwf Hl Hr Hw Hs. destruct (alloc_from_ok t f 0 Hwf) as (n & E & Hn & Hb & Hlow & Hwf'); [lia|].
  change (Z.max 0 0) with 0 in *.
  assert (n < lim) as Hnl.
  { destruct (decide (n < lim)) as [|Hge]; [done|]. exfalso.
    assert (lim ≤ below t lim); [|lia]. apply all_taken; [lia|]. intros k Hk. apply Hlow. lia. }
  exists n. eexists. split; [exact E|]. split_and!; [lia|done|done| |].
  - unfold below. simpl. rewrite map_filter_insert_True by done.
    rewrite map_size_insert_None; [lia|]. apply map_lookup_filter_None. by left.
  - simpl. by rewrite map_size_insert_None.
Qed.

(** Opening [fs] one after the other. *)
Fixpoint alloc_each (t : FdTable) (fs : list Fd) : res (list Z * FdTable) :=
  match fs with
  | [] => Ok ([], t)
  | f :: fs => r ← fd_alloc t f; r' ← alloc_each r.2 fs; Ok (r.1 :: r'.1, r'.2)
  end.

Lemma alloc_each_ok lim fs : ∀ t,
  fd_wf t → 0 ≤ lim ≤ I32_MAX → below t lim + Z.of_nat (length fs) ≤ lim →
  Z.of_nat (size (fmap t)) + Z.of_nat (length fs) ≤ I32_MAX →
  ∃ ns t', alloc_each t fs = Ok (ns, t') ∧ length ns = length fs ∧ Forall (λ n, 0 ≤ n < lim) ns.
Proof.
  induction fs as [|f fs IH]; intros t Hwf Hl Hr Hs; simpl.
  - exists [], t. split_and!; done.
  - simpl in Hr, Hs.
    destruct (has_room_alloc t (Z.of_nat (S (length fs))) lim f Hwf Hl Hr)
      as (n & t1 & E & Hn & Hwf1 & Hb & Hsz); [lia|lia|].
    destruct (IH t1 Hwf1 Hl) as (ns & t' & E' & Hlen & Hall); [lia|lia|].
    exists (n :: ns), t'. unfold mbind, res_bind. rewrite E. simpl. rewrite E'.
    split_and!; [done|simpl; by rewrite Hlen|by constructor].
Qed.

(** The [RLIMIT_NOFILE] check is exact. Whenever [has_room_for] says that [wanted] more
    descriptors fit below the limit, that many opens in a row succeed and every number
    they return is below the limit; and when it refuses, fewer than [wanted] free numbers
    are left below it. *)
Theorem has_room_exact ops t fs lim :
  fd_run with_standard_streams ops t → 0 ≤ lim ≤ I32_MAX →
  Z.of_nat (size (fmap t)) + Z.of_nat (length fs) ≤ I32_MAX →
  if has_room_for t (Z.of_nat (length fs)) lim then
    ∃ ns t', alloc_each t fs = Ok (ns, t') ∧ length ns = length fs ∧ Forall (λ n, 0 ≤ n < lim) ns
  else lim - below t lim < Z.of_nat (length fs).
Proof.
  intros Hr Hl Hs. pose proof (fd_run_wf _ _ _ Hr standard_wf) as Hwf. unfold has_room_for.
  destruct (Z.leb_spec lim I32_MAX); [|lia]. rewrite Z.abs_eq by lia.
  destruct (Z.leb_spec (below t lim + Z.of_nat (length fs)) lim) as [H1|H1]; [|lia].
  by apply alloc_each_ok.
Qed.

Lemma has_room_exact_witness :
  has_room_for with_standard_streams 2 5 = true
  ∧ ∃ ns t', alloc_each with_standard_streams [Tty; Tty] = Ok (ns, t')
      ∧ length ns = 2%nat ∧ Forall (λ n, 0 ≤ n < 5) ns.
Proof.
  assert (has_room_for with_standard_streams 2 5 = true) as E by (vm_compute; reflexivity).
  split; [exact E|].
  pose proof (has_room_exact [] with_standard_streams [Tty; Tty] 5 (fd_run_nil _)) as H.
  change (Z.of_nat (length [Tty; Tty])) with 2 in H. rewrite E in H.
  apply H; [split; vm_compute; discriminate|vm_compute; discriminate].
Defined.
