(* ===== verification/NsChain.v ===== *)
(** Nested namespaces: a table whose entries name their parent. The tables of process-id
    namespaces ([src/kernel/pidns.rs]) and of user namespaces ([src/kernel/userns.rs]) walk the
    same way from a namespace up to the initial one; this file is that walk, over any entries
    with a parent. *)
From S2P Require Import Prelude.
From stdpp Require Import base numbers gmap relations list.
Local Open Scope Z_scope.

Section Chain.
Context {A : Type} (par : A → Z).
Implicit Types t : gmap Z A.

(** [chain]: the namespace, then its ancestors. The loop visits each entry at most once,
    so the number of entries is enough fuel ([chain_eq] below). *)
Fixpoint chain_loop (fuel : nat) (t : gmap Z A) (ns : Z) : list Z :=
  match t !! ns with
  | None => []
  | Some e => match fuel with O => [] | S fuel => ns :: chain_loop fuel t (par e) end
  end.
Definition chain (t : gmap Z A) (ns : Z) : list Z := chain_loop (size t) t ns.

(** Every parent is older than its children: ids only grow. *)
Definition ordered (t : gmap Z A) : Prop := ∀ ns e, t !! ns = Some e → 0 < ns ∧ 0 ≤ par e < ns.

Definition upto (t : gmap Z A) (ns : Z) : nat := size (filter (λ x, x.1 ≤ ns) t).

Lemma upto_parent t ns e :
  ordered t → t !! ns = Some e → (upto t (par e) < upto t ns)%nat.
Proof.
  intros Ho He. destruct (Ho _ _ He) as [_ Hp]. unfold upto. apply map_subset_size.
  apply map_subset_alt. split.
  - apply map_filter_subseteq_ext. intros k x _. simpl. lia.
  - exists ns. rewrite map_lookup_filter_None. split.
    + right. intros x _. simpl. lia.
    + exists e. apply map_lookup_filter_Some. done.
Qed.

Lemma chain_fuel t : ordered t → ∀ f1 f2 ns,
  (upto t ns ≤ f1)%nat → (upto t ns ≤ f2)%nat → chain_loop f1 t ns = chain_loop f2 t ns.
Proof.
  intros Ho f1. induction f1 as [|f1 IH]; intros f2 ns H1 H2; destruct (t !! ns) as [e|] eqn:He.
  - pose proof (upto_parent t ns e Ho He). lia.
  - destruct f2; simpl; by rewrite He.
  - pose proof (upto_parent t ns e Ho He). destruct f2 as [|f2]; [lia|]. simpl. rewrite He.
    f_equal. apply IH; lia.
  - destruct f2; simpl; by rewrite He.
Qed.

Lemma chain_eq t ns :
  ordered t →
  chain t ns = match t !! ns with None => [] | Some e => ns :: chain t (par e) end.
Proof.
  intros Ho. unfold chain. destruct (t !! ns) as [e|] eqn:He.
  - assert (∀ k, (upto t k ≤ size t)%nat) as Hs
      by (intros k; apply map_subseteq_size, map_filter_subseteq).
    pose proof (upto_parent t ns e Ho He). pose proof (Hs ns). pose proof (Hs (par e)).
    destruct (size t) as [|n] eqn:En; [lia|].
    transitivity (ns :: chain_loop n t (par e)); [simpl; by rewrite He|].
    f_equal. apply chain_fuel; [done|lia|lia].
  - by destruct (size t); simpl; rewrite He.
Qed.

(** Induction along parents. *)
Lemma ordered_ind t (P : Z → Prop) :
  ordered t → (∀ ns, t !! ns = None → P ns) →
  (∀ ns e, t !! ns = Some e → P (par e) → P ns) → ∀ ns, P ns.
Proof.
  intros Ho H0 HS ns. remember (upto t ns) as n eqn:En. revert ns En.
  induction (lt_wf n) as [n _ IH]. intros ns ->.
  destruct (t !! ns) as [e|] eqn:He; [|by apply H0]. eapply HS; [done|].
  eapply IH; [|done]. by eapply upto_parent.
Qed.

Lemma chain_in_dom t ns id : ordered t → id ∈ chain t ns → is_Some (t !! id) ∧ id ≤ ns.
Proof.
  intros Ho. revert ns id. apply (ordered_ind t (λ ns, ∀ id, id ∈ chain t ns → _)); [done| |].
  - intros ns He id H. rewrite chain_eq, He in H by done. by apply elem_of_nil in H.
  - intros ns e He IH id H. rewrite chain_eq, He in H by done. destruct (Ho _ _ He) as [_ Hp].
    apply elem_of_cons in H as [->|H]; [by rewrite He|]. destruct (IH id H). split; [done|lia].
Qed.

Lemma chain_NoDup t ns : ordered t → NoDup (chain t ns).
Proof.
  intros Ho. revert ns. apply (ordered_ind t); [done| |].
  - intros ns He. rewrite chain_eq, He by done. apply NoDup_nil_2.
  - intros ns e He IH. rewrite chain_eq, He by done. apply NoDup_cons. split; [|done].
    intros H. destruct (Ho _ _ He) as [_ Hp]. apply chain_in_dom in H; [lia|done].
Qed.

(** Chains depend on parents only: two tables that agree on the parents of the smaller one,
    which is closed under parents, have the same chains there. *)
Definition closed (t : gmap Z A) : Prop :=
  ∀ ns e, t !! ns = Some e → par e = 0 ∨ is_Some (t !! par e).
Definition known (t : gmap Z A) (ns : Z) : Prop := ns = 0 ∨ is_Some (t !! ns).

Lemma ordered_0 t : ordered t → t !! 0 = None.
Proof. intros Ho. destruct (t !! 0) as [e|] eqn:E; [|done]. apply Ho in E. lia. Qed.

Lemma chain_0 t : ordered t → chain t 0 = [].
Proof. intros Ho. by rewrite chain_eq, ordered_0. Qed.

Lemma chain_agree t t' ns :
  ordered t → ordered t' → closed t' →
  (∀ id e', t' !! id = Some e' → par <$> t !! id = Some (par e')) →
  known t' ns → chain t' ns = chain t ns.
Proof.
  intros Ho Ho' Hc Hp. revert ns.
  apply (ordered_ind t' (λ ns, known t' ns → chain t' ns = chain t ns)); [done| |].
  - intros ns He [->|[e' He']]; [by rewrite !chain_0|congruence].
  - intros ns e He IH _. rewrite !(chain_eq _ ns) by done. rewrite He.
    pose proof (Hp _ _ He) as E. destruct (t !! ns) as [e0|]; [|done]. injection E as ->.
    f_equal. apply IH. destruct (Hc _ _ He) as [->|?]; [by left|by right].
Qed.

(** Chains agree on a set of namespaces on which the tables do and which parents stay in. *)
Lemma chain_follow t t' (K : Z → Prop) :
  ordered t → ordered t' → (∀ id, K id → par <$> t' !! id = par <$> t !! id) →
  (∀ id e, K id → t !! id = Some e → K (par e)) → ∀ ns, K ns → chain t' ns = chain t ns.
Proof.
  intros Ho Ho' He Hp. apply (ordered_ind t (λ ns, K ns → chain t' ns = chain t ns)); [done| |].
  - intros ns E HK. rewrite !(chain_eq _ ns) by done. specialize (He ns HK). rewrite E in *. by destruct (t' !! ns).
  - intros ns e E IH HK. rewrite !(chain_eq _ ns) by done. pose proof (He ns HK) as E'. rewrite E in *.
    destruct (t' !! ns) as [e'|]; [|done]. injection E' as ->. f_equal. by apply IH, (Hp ns).
Qed.

(** Being inside: chains are closed under taking chains. *)
Lemma chain_trans t a b c :
  ordered t → b ∈ chain t a → c ∈ chain t b → c ∈ chain t a.
Proof.
  intros Ho. revert a. apply (ordered_ind t (λ a, b ∈ chain t a → c ∈ chain t b → c ∈ chain t a)); [done| |].
  - intros a He H. rewrite chain_eq, He in H by done. by apply elem_of_nil in H.
  - intros a e He IH H Hc. rewrite (chain_eq t a), He in * by done.
    apply elem_of_cons in H as [->|H]; [by rewrite chain_eq, He in Hc|].
    apply elem_of_cons. right. by apply IH.
Qed.

(** gmap Z Es with the same namespaces and parents. *)
Definition same_shape (t t' : gmap Z A) : Prop := ∀ id, par <$> t' !! id = par <$> t !! id.

Lemma same_shape_known t t' ns : same_shape t t' → known t ns → known t' ns.
Proof.
  intros H [->|[e He]]; [by left|right]. specialize (H ns). rewrite He in H.
  destruct (t' !! ns); [eauto|done].
Qed.

Lemma same_shape_ok t t' :
  same_shape t t' → ordered t → closed t → ordered t' ∧ closed t' ∧
  ∀ ns, known t' ns → chain t' ns = chain t ns.
Proof.
  intros H Ho Hc.
  assert (ordered t') as Ho'.
  { intros ns e He. specialize (H ns). rewrite He in H. destruct (t !! ns) as [e0|] eqn:E0; [|done].
    injection H as ->. by apply Ho. }
  assert (closed t') as Hc'.
  { intros ns e He. pose proof (H ns) as E. rewrite He in E. destruct (t !! ns) as [e0|] eqn:E0; [|done].
    injection E as ->. by apply (same_shape_known t t'), (Hc ns). }
  split; [done|split; [done|]]. intros ns Hk. apply chain_agree; try done.
  intros id e' He'. rewrite <- H. by rewrite He'.
Qed.

Lemma same_shape_chain t t' : same_shape t t' → ordered t → ordered t' ∧ ∀ ns, chain t' ns = chain t ns.
Proof.
  intros H Ho. assert (ordered t') as Ho'.
  { intros ns e He. specialize (H ns). rewrite He in H. destruct (t !! ns) as [e0|] eqn:E0; [|done].
    injection H as ->. by apply Ho. }
  split; [done|]. intros ns. by apply (chain_follow t t' (λ _, True)).
Qed.

Lemma chain_lookup t ns id : ordered t → id ∈ chain t ns → ∃ e, t !! id = Some e.
Proof. intros Ho H. apply chain_in_dom in H as [[e ?] _]; eauto. Qed.

Lemma chain_self t ns e : ordered t → t !! ns = Some e → ns ∈ chain t ns.
Proof. intros Ho He. rewrite chain_eq, He by done. apply elem_of_cons. by left. Qed.


End Chain.

Arguments upto_parent {A par}.
Arguments chain_fuel {A par}.
Arguments chain_eq {A par}.
Arguments ordered_ind {A par}.
Arguments chain_in_dom {A par}.
Arguments chain_NoDup {A par}.
Arguments ordered_0 {A par}.
Arguments chain_0 {A par}.
Arguments chain_agree {A par}.
Arguments chain_trans {A par}.
Arguments same_shape_known {A par}.
Arguments same_shape_ok {A par}.
Arguments same_shape_chain {A par}.
Arguments chain_follow {A par}.
Arguments chain_lookup {A par}.
Arguments chain_self {A par}.
