(* ===== verification/PidNs.v ===== *)
(** PID namespaces ([src/kernel/pidns.rs]): the numbers a task sees for itself and others,
    and their translation to the kernel's global ids. *)
From S2P Require Import Prelude Abi PageLocks NsChain.
From stdpp Require Import base numbers gmap relations list.
Local Open Scope Z_scope.

Definition MAX_DEPTH : Z := 32.
Definition MAX_GONE : Z := Z.shiftl 1 16.
Definition PID_MAX : Z := 2 ^ 31 - 1.

Record PidNs := mkPidNs {
  parent : Z;
  local : gmap Z Z;
  global : gmap Z Z;
  gone : gmap Z Z;
  gone_by_local : gmap Z Z;
  next_pid : Z;
  init : option Z;
  dead : bool
}.

Abbreviation Table := (gmap Z PidNs).

(** [chain] and the shape of a table, see [NsChain]. *)
Abbreviation chain := (NsChain.chain parent).
Abbreviation ordered := (NsChain.ordered parent).
Abbreviation closed := (NsChain.closed parent).
Abbreviation same_shape := (NsChain.same_shape parent).

(** [create]. *)
Definition pidns_new (parent : Z) : PidNs := mkPidNs parent ∅ ∅ ∅ ∅ 1 None false.
Definition pidns_create (t : Table) (ns parent : Z) : Z + Table :=
  if MAX_DEPTH <=? Z.of_nat (length (chain t parent)) + 1 then inl (err ENOSPC)
  else inr (<[ns := pidns_new parent]> t).

Definition accepts_tasks (t : Table) (ns : Z) : bool :=
  (ns =? 0) || match t !! ns with Some e => negb (dead e) | None => false end.

(** [collect_garbage]. *)
Definition parents (t : Table) : list Z := (λ x, parent x.2) <$> map_to_list t.
Definition collect_garbage (t : Table) (in_use : list Z) : Table :=
  filter (λ x, local x.2 ≠ ∅ ∨ x.1 ∈ in_use ∨ x.1 ∈ parents t) t.

(** [add_task]: the entry of one namespace of the chain; with [checks], the overflow checks of a
    debug build, the [i32] counter panics where a release build wraps it. *)
Definition add_entry (checks : bool) (g : Z) (here : bool) (e : PidNs) : res PidNs :=
  let l := next_pid e in
  if checks && (PID_MAX <? l + 1) then Panic
  else Ok (mkPidNs (parent e) (<[g := l]> (local e)) (<[l := g]> (global e)) (delete g (gone e))
             (match gone e !! g with
              | Some old => delete old (gone_by_local e)
              | None => gone_by_local e
              end)
             (as_i32 (l + 1))
             (if here && negb (bool_decide (is_Some (init e))) then Some g else init e) (dead e)).

(** A loop over the chain; [expect("from chain")] is a panic. *)
Fixpoint over_chain (f : Z → PidNs → res PidNs) (ids : list Z) (t : Table) : res Table :=
  match ids with
  | [] => Ok t
  | id :: ids =>
    match t !! id with
    | None => Panic
    | Some e => e' ← f id e; over_chain f ids (<[id := e']> t)
    end
  end.
Definition add_task (checks : bool) (t : Table) (g ns : Z) : res Table :=
  over_chain (λ id, add_entry checks g (id =? ns)) (chain t ns) t.

(** [remove_task]; [pop_first] drops the oldest number remembered. *)
Definition remove_entry (g : Z) (e : PidNs) : PidNs :=
  match local e !! g with
  | None => e
  | Some l =>
    let gn := <[g := l]> (gone e) in
    let gl := <[l := g]> (gone_by_local e) in
    let '(gn, gl) :=
      if MAX_GONE <? Z.of_nat (size gl) then
        match bt_list gl with
        | (l0, g0) :: _ => (delete g0 gn, delete l0 gl)
        | [] => (gn, gl)
        end
      else (gn, gl) in
    mkPidNs (parent e) (delete g (local e)) (delete l (global e)) gn gl (next_pid e) (init e) (dead e)
  end.
Definition remove_task (t : Table) (g ns : Z) : res Table :=
  over_chain (λ _ e, Ok (remove_entry g e)) (chain t ns) t.

(** The translations. *)
Definition recorded_to_local (t : Table) (g ns : Z) : Z :=
  if ns =? 0 then g
  else match t !! ns with
       | None => 0
       | Some e => match local e !! g with
                   | Some l => l
                   | None => default 0 (gone e !! g)
                   end
       end.
Definition to_local (t : Table) (g ns : Z) : Z :=
  if ns =? 0 then g else default 0 (e ← t !! ns; local e !! g).
Definition to_global (t : Table) (l ns : Z) : option Z :=
  if ns =? 0 then Some l else e ← t !! ns; global e !! l.

Definition init_of (t : Table) (ns : Z) : option Z := e ← t !! ns; init e.
Definition is_within (t : Table) (inner outer : Z) : bool :=
  (outer =? 0) || bool_decide (outer ∈ chain t inner).

(** [close] and [members]. *)
Definition set_dead (e : PidNs) : PidNs :=
  mkPidNs (parent e) (local e) (global e) (gone e) (gone_by_local e) (next_pid e) (init e) true.
Definition pidns_close (t : Table) (ns : Z) : list Z * Table :=
  match t !! ns with
  | None => ([], t)
  | Some e => ((bt_list (local e)).*1, <[ns := set_dead e]> t)
  end.
Definition members (t : Table) (ns : Z) : list Z :=
  match t !! ns with None => [] | Some e => (bt_list (local e)).*1 end.

(** [new_pid_namespace], [visible_pid], [global_pid]; [cur_ns] is the caller's namespace
    and [in_use] the namespaces every task is in or forks into. *)
Definition MAX_NAMESPACES : Z := Z.shiftl 1 16.
Definition new_pid_namespace (t : Table) (in_use : list Z) (ns parent : Z) : Table * (Z + unit) :=
  let t := if MAX_NAMESPACES / 2 <=? Z.of_nat (size t) then collect_garbage t in_use else t in
  if MAX_NAMESPACES <=? Z.of_nat (size t) then (t, inl (err ENOSPC))
  else match pidns_create t ns parent with
       | inl e => (t, inl e)
       | inr t' => (t', inr tt)
       end.
Definition visible_pid (t : Table) (cur_ns g : Z) : Z := if cur_ns =? 0 then g else to_local t g cur_ns.
Definition global_pid (t : Table) (cur_ns l : Z) : option Z :=
  if cur_ns =? 0 then Some l else to_global t l cur_ns.

(** * Chains *)

Lemma over_chain_ok f h ids : ∀ t,
  NoDup ids →
  (∀ id, id ∈ ids → ∃ e, t !! id = Some e ∧ f id e = Ok (h id e)) →
  ∃ t', over_chain f ids t = Ok t' ∧
    ∀ id, t' !! id = if decide (id ∈ ids) then h id <$> t !! id else t !! id.
Proof.
  induction ids as [|i ids IH]; intros t Hn Hf.
  - exists t. split; [done|]. intros id. case_decide as Hx; [by apply elem_of_nil in Hx|done].
  - apply NoDup_cons in Hn as [Hi Hn]. destruct (Hf i) as (e & He & Hfe); [apply elem_of_cons; by left|].
    cbn [over_chain]. rewrite He, Hfe. cbn [mbind res_bind]. destruct (IH (<[i := h i e]> t) Hn) as (t' & Ht' & Hl).
    { intros id Hid. destruct (Hf id) as (e' & He' & Hfe'); [apply elem_of_cons; by right|].
      exists e'. split; [|done]. rewrite lookup_insert_ne; [done|]. by intros ->. }
    exists t'. split; [done|]. intros id. rewrite Hl. destruct (decide (id = i)) as [->|Hne].
    + rewrite lookup_insert_eq, He. pose proof (elem_of_cons ids i i).
      repeat case_decide; first [done|exfalso; tauto].
    + rewrite lookup_insert_ne by done. pose proof (elem_of_cons ids id i).
      repeat case_decide; first [done|exfalso; tauto].
Qed.

(** * One namespace's numbers *)

Lemma as_i32_small z : 0 ≤ z < 2 ^ 31 → as_i32 z = z.
Proof.
  intros Hz. unfold as_i32. rewrite Z.mod_small by (unfold U32; lia). destruct (Z.ltb_spec z (2 ^ 31)); lia.
Qed.

Definition inverse (m m' : gmap Z Z) : Prop := ∀ a b, m !! a = Some b ↔ m' !! b = Some a.

Lemma inverse_insert m m' a b :
  inverse m m' → m !! a = None → m' !! b = None → inverse (<[a := b]> m) (<[b := a]> m').
Proof.
  intros H Ha Hb x y. rewrite !lookup_insert_Some. specialize (H x y). split.
  - intros [[-> ->]|[Hx Hy]]; [by left|]. right. split; [intros ->|by apply H].
    apply H in Hy. congruence.
  - intros [[-> ->]|[Hx Hy]]; [by left|]. right. split; [intros ->|by apply H].
    apply H in Hy. congruence.
Qed.

Lemma inverse_delete m m' a b :
  inverse m m' → m !! a = Some b → inverse (delete a m) (delete b m').
Proof.
  intros H Ha x y. rewrite !lookup_delete_Some. pose proof (H x y) as Hxy. pose proof (H a y) as Hay.
  pose proof (H x b) as Hxb. pose proof (H a b) as Hab. split.
  - intros [Hx Hy]. split; [|by apply Hxy]. intros ->. apply Hxb in Hy. apply Hab in Ha. congruence.
  - intros [Hx Hy]. split; [|by apply Hxy]. intros ->. apply Hay in Hy. congruence.
Qed.

Record entry_ok (e : PidNs) : Prop := mkEntryOk {
  ok_inv : inverse (local e) (global e);
  ok_gone : inverse (gone e) (gone_by_local e);
  ok_range : ∀ l, is_Some (global e !! l) ∨ is_Some (gone_by_local e !! l) → 1 ≤ l < next_pid e;
  ok_one : ∀ g, is_Some (local e !! g) → gone e !! g = None;
  ok_once : ∀ l, is_Some (global e !! l) → gone_by_local e !! l = None;
  ok_next : 1 ≤ next_pid e
}.

Lemma entry_ok_new p : entry_ok (pidns_new p).
Proof.
  split; simpl; try done; try lia.
  - intros l [[x H]|[x H]]; by rewrite lookup_empty in H.
Qed.

Lemma entry_ok_add checks g here e :
  entry_ok e → local e !! g = None → next_pid e < PID_MAX →
  ∃ e', add_entry checks g here e = Ok e' ∧ entry_ok e' ∧ parent e' = parent e ∧
        dead e' = dead e ∧ local e' = <[g := next_pid e]> (local e).
Proof.
  intros [Hi Hg Hr H1 H2 Hn] Hl Hm. unfold add_entry.
  assert ((PID_MAX <? next_pid e + 1) = false) as -> by lia. rewrite andb_false_r.
  assert (as_i32 (next_pid e + 1) = next_pid e + 1) as -> by (apply as_i32_small; unfold PID_MAX in *; lia).
  eexists. split; [reflexivity|]. split; [|done].
  assert (global e !! next_pid e = None) as Eg.
  { destruct (global e !! next_pid e) eqn:E; [|done].
    pose proof (Hr (next_pid e) (or_introl (mk_is_Some _ _ E))). lia. }
  assert (gone_by_local e !! next_pid e = None) as Eb.
  { destruct (gone_by_local e !! next_pid e) eqn:E; [|done].
    pose proof (Hr (next_pid e) (or_intror (mk_is_Some _ _ E))). lia. }
  assert (∀ l, is_Some ((match gone e !! g with
      | Some old => delete old (gone_by_local e) | None => gone_by_local e end) !! l) →
      is_Some (gone_by_local e !! l)) as Hsub.
  { intros l. destruct (gone e !! g) as [old|]; [|done].
    intros [x Hx]. apply lookup_delete_Some in Hx as [_ Hx]. eauto. }
  split; cbn [parent local global gone gone_by_local next_pid init dead].
  - by apply inverse_insert.
  - destruct (gone e !! g) as [old|] eqn:Eo; [by apply inverse_delete|].
    by rewrite delete_id.
  - intros l [[x Hx]|Hx].
    + apply lookup_insert_Some in Hx as [[<- _]|[_ Hx]]; [lia|].
      pose proof (Hr l (or_introl (mk_is_Some _ _ Hx))). lia.
    + pose proof (Hr l (or_intror (Hsub l Hx))). lia.
  - intros g' [x Hx]. apply lookup_insert_Some in Hx as [[<- _]|[_ Hx]].
    + apply lookup_delete_eq.
    + apply lookup_delete_None. right. eauto.
  - intros l [x Hx]. apply eq_None_not_Some. intros Hs. apply Hsub in Hs.
    apply lookup_insert_Some in Hx as [[<- _]|[_ Hx]]; [rewrite Eb in Hs; by destruct Hs|].
    rewrite (H2 l) in Hs by eauto. by destruct Hs.
  - lia.
Qed.

Lemma entry_ok_remove g e :
  entry_ok e →
  entry_ok (remove_entry g e) ∧ parent (remove_entry g e) = parent e ∧
  dead (remove_entry g e) = dead e ∧ local (remove_entry g e) = delete g (local e).
Proof.
  intros H. unfold remove_entry. destruct (local e !! g) as [l|] eqn:El.
  2: { rewrite delete_id; done. }
  destruct H as [Hi Hg Hr H1 H2 Hn].
  assert (global e !! l = Some g) as Egl by by apply Hi.
  assert (inverse (<[g := l]> (gone e)) (<[l := g]> (gone_by_local e))) as Hg'
    by (apply inverse_insert; eauto).
  match goal with |- context [let '(gn, gl) := ?X in _] => destruct X as [gn gl] eqn:EX end.
  assert (inverse gn gl ∧ gl ⊆ <[l := g]> (gone_by_local e) ∧ gn ⊆ <[g := l]> (gone e)) as (Hgg & Hl1 & Hl2).
  { destruct (MAX_GONE <? _); [|by simplify_eq].
    destruct (bt_list _) as [|[l0 g0] r] eqn:Eb; simplify_eq; [done|].
    split; [|split; apply delete_subseteq]. apply inverse_delete; [done|].
    apply Hg', elem_of_bt_list. rewrite Eb. apply elem_of_cons. by left. }
  split; [|done]. split; cbn [parent local global gone gone_by_local next_pid init dead].
  - by apply inverse_delete.
  - done.
  - intros k [[x Hx]|[x Hx]].
    + apply lookup_delete_Some in Hx as [_ Hx]. apply Hr. eauto.
    + eapply lookup_weaken in Hx; [|exact Hl1].
      apply lookup_insert_Some in Hx as [[<- _]|[_ Hx]]; apply Hr; eauto.
  - intros g' [x Hx]. apply lookup_delete_Some in Hx as [Hne Hx].
    destruct (gn !! g') as [y|] eqn:Ey; [|done]. eapply lookup_weaken in Ey; [|exact Hl2].
    rewrite lookup_insert_ne in Ey by done. rewrite (H1 g') in Ey by eauto. done.
  - intros k [x Hx]. apply lookup_delete_Some in Hx as [Hne Hx].
    destruct (gl !! k) as [y|] eqn:Ey; [|done]. eapply lookup_weaken in Ey; [|exact Hl1].
    rewrite lookup_insert_ne in Ey by done. rewrite (H2 k) in Ey by eauto. done.
  - done.
Qed.

(** * The table of a running system

    [tasks] records which namespace every live task was added to, [last_id] the last id given to a
    namespace of any kind. The steps are the calls the kernel makes, with the guards of their call
    sites: a namespace is made under an id fresh from the counter - a call may draw several, and
    other calls draw too ([p_skip]) - inside any namespace there has been, one collected since
    included; a task is added under an id no live task has, into a namespace that takes tasks
    ([accepts_tasks]), and removed from the one it was added to. Runs end before a counter runs
    out: the [u32] of the ids, and the [i32] of the numbers of a namespace ([pid_number_wraps]). *)
Record Sys := mkSys { table : Table; tasks : gmap Z Z; last_id : Z }.

Definition has_room (t : Table) (ns : Z) : Prop :=
  ∀ id e, id ∈ chain t ns → t !! id = Some e → next_pid e < PID_MAX.

Inductive pstep (checks : bool) : Sys → Sys → Prop :=
| p_create t ts n n' ns p t' :
    n < ns ≤ n' → n' < U32 → 0 ≤ p ≤ n →
    pidns_create t ns p = inr t' → pstep checks (mkSys t ts n) (mkSys t' ts n')
| p_skip t ts n n' : n ≤ n' < U32 → pstep checks (mkSys t ts n) (mkSys t ts n')
| p_add t ts n g ns t' :
    0 < g → ts !! g = None → accepts_tasks t ns = true → has_room t ns →
    add_task checks t g ns = Ok t' → pstep checks (mkSys t ts n) (mkSys t' (<[g := ns]> ts) n)
| p_remove t ts n g ns t' :
    ts !! g = Some ns → remove_task t g ns = Ok t' →
    pstep checks (mkSys t ts n) (mkSys t' (delete g ts) n)
| p_close t ts n ns :
    pstep checks (mkSys t ts n) (mkSys (pidns_close t ns).2 ts n)
| p_gc t ts n in_use :
    pstep checks (mkSys t ts n) (mkSys (collect_garbage t in_use) ts n).
Definition empty_sys : Sys := mkSys ∅ ∅ 0.

Record pid_inv (s : Sys) : Prop := mkPidInv {
  pi_ordered : ordered (table s);
  pi_below : ∀ ns, is_Some (table s !! ns) → ns ≤ last_id s;
  pi_entry : ∀ ns e, table s !! ns = Some e → entry_ok e;
  pi_tasks : ∀ g ns, tasks s !! g = Some ns → 0 < g ∧ known (table s) ns;
  pi_seen : ∀ ns e g, table s !! ns = Some e →
    is_Some (local e !! g) ↔ ∃ ns', tasks s !! g = Some ns' ∧ ns ∈ chain (table s) ns';
  pi_next : 0 ≤ last_id s
}.

Lemma accepts_known t ns : accepts_tasks t ns = true → known t ns.
Proof.
  unfold accepts_tasks, known. destruct (ns =? 0) eqn:E; [left; lia|]. destruct (t !! ns); [eauto|done].
Qed.

(** A change of the entries of one chain that adds or removes a task there. *)
Lemma add_task_ok checks t g ns :
  ordered t → (∀ id e, t !! id = Some e → entry_ok e) →
  (∀ id e, id ∈ chain t ns → t !! id = Some e → local e !! g = None ∧ next_pid e < PID_MAX) →
  ∃ t', add_task checks t g ns = Ok t' ∧ same_shape t t' ∧
    ∀ id e', t' !! id = Some e' → entry_ok e' ∧ ∃ e, t !! id = Some e ∧
      local e' = if decide (id ∈ chain t ns) then <[g := next_pid e]> (local e) else local e.
Proof.
  intros Ho He Hf.
  destruct (over_chain_ok (λ id, add_entry checks g (id =? ns))
    (λ id e, match add_entry checks g (id =? ns) e with Ok e' => e' | Panic => e end) (chain t ns) t)
    as (t' & Ht & Hl); [by apply chain_NoDup| |].
  { intros id Hid. destruct (chain_lookup t ns id Ho Hid) as [e Ee]. exists e. split; [done|].
    destruct (Hf id e Hid Ee). destruct (entry_ok_add checks g (id =? ns) e) as (e' & E & _); eauto.
    by rewrite E. }
  exists t'. split; [done|].
  assert (∀ id, t' !! id = t !! id ∨ id ∈ chain t ns ∧ ∃ e e', t !! id = Some e ∧ t' !! id = Some e' ∧
    entry_ok e' ∧ parent e' = parent e ∧ local e' = <[g := next_pid e]> (local e)) as Hcase.
  { intros id. rewrite Hl. case_decide as Hid; [right|by left]. split; [done|].
    destruct (chain_lookup t ns id Ho Hid) as [e Ee]. destruct (Hf id e Hid Ee).
    destruct (entry_ok_add checks g (id =? ns) e) as (e' & E & ? & ? & ? & ?); eauto.
    exists e, e'. by rewrite Ee; simpl; rewrite E. }
  split.
  - intros id. destruct (Hcase id) as [->|(_ & e & e' & -> & -> & _ & Hp & _)]; [done|]. simpl. by f_equal.
  - intros id e' He'. pose proof (Hl id) as Hli. destruct (Hcase id) as [E|(Hid & e & e2 & E1 & E2 & ? & ? & ?)].
    + rewrite E in He'. split; [by eapply He|]. exists e'. split; [done|].
      case_decide as Hid; [|done]. exfalso. rewrite E in Hli. rewrite He' in Hli. simpl in Hli.
      destruct (Hf id e' Hid He') as [Hn Hm].
      destruct (entry_ok_add checks g (id =? ns) e') as (e2 & E2 & _ & _ & _ & L); [by eapply He|done|done|].
      rewrite E2 in Hli. injection Hli as Hli. rewrite <- Hli in L. rewrite L in Hn.
      by rewrite lookup_insert_eq in Hn.
    + rewrite He' in E2. injection E2 as <-. split; [done|]. exists e. split; [done|].
      by case_decide.
Qed.

Lemma remove_task_ok t g ns :
  ordered t → (∀ id e, t !! id = Some e → entry_ok e) →
  ∃ t', remove_task t g ns = Ok t' ∧ same_shape t t' ∧
    ∀ id e', t' !! id = Some e' → entry_ok e' ∧ ∃ e, t !! id = Some e ∧
      local e' = if decide (id ∈ chain t ns) then delete g (local e) else local e.
Proof.
  intros Ho He.
  destruct (over_chain_ok (λ _ e, Ok (remove_entry g e)) (λ _ e, remove_entry g e) (chain t ns) t)
    as (t' & Ht & Hl); [by apply chain_NoDup| |].
  { intros id Hid. destruct (chain_lookup t ns id Ho Hid) as [e Ee]. by exists e. }
  exists t'. split; [done|]. split.
  - intros id. rewrite Hl. case_decide; [|done]. destruct (t !! id) as [e|] eqn:Ee; [|done].
    simpl. f_equal. by apply entry_ok_remove, (He id).
  - intros id e' He'. rewrite Hl in He'. case_decide.
    + destruct (t !! id) as [e|] eqn:Ee; [|done]. injection He' as <-.
      destruct (entry_ok_remove g e) as (? & _ & _ & ?); [by eapply He|]. eauto.
    + split; [by eapply He|]. eauto.
Qed.

Lemma over_chain_inv f ids : ∀ t t',
  NoDup ids → over_chain f ids t = Ok t' →
  ∀ id, id ∈ ids → ∃ e e', t !! id = Some e ∧ f id e = Ok e'.
Proof.
  induction ids as [|i ids IH]; intros t t' Hn Ht id Hid; [by apply elem_of_nil in Hid|].
  apply NoDup_cons in Hn as [Hi Hn]. cbn [over_chain] in Ht.
  destruct (t !! i) as [e|] eqn:Ee; [|done]. destruct (f i e) as [e'|] eqn:Ef; [|done].
  apply elem_of_cons in Hid as [->|Hid]; [eauto|].
  destruct (IH _ _ Hn Ht id Hid) as (e1 & e2 & E1 & E2).
  rewrite lookup_insert_ne in E1 by (by intros ->). eauto.
Qed.

Lemma pid_inv_create t ts n n' ns p t' :
  n < ns ≤ n' → 0 ≤ p ≤ n → pidns_create t ns p = inr t' →
  pid_inv (mkSys t ts n) → pid_inv (mkSys t' ts n').
Proof.
  unfold pidns_create. intros Hns Hp Ht [Ho Hb He Hts Hs H0]. simpl in *.
  destruct (MAX_DEPTH <=? _); [done|]. injection Ht as <-.
  assert (t !! ns = None) as Hn by (destruct (t !! ns) eqn:E; [|done]; pose proof (Hb ns (mk_is_Some _ _ E)); lia).
  assert (ordered (<[ns := pidns_new p]> t)) as Ho'.
  { intros id e. rewrite lookup_insert_Some. intros [[<- <-]|[_ Ee]]; [simpl; lia|by apply Ho]. }
  assert (∀ id, id ≠ ns → chain (<[ns := pidns_new p]> t) id = chain t id) as Hch.
  { apply chain_follow; [done|done| |].
    - intros id Hid. by rewrite lookup_insert_ne.
    - intros id e _ Ee. destruct (Ho _ _ Ee). pose proof (Hb id (mk_is_Some _ _ Ee)). lia. }
  assert (∀ g n', ts !! g = Some n' → n' ≠ ns) as Hts'.
  { intros g k Hg ->. destruct (Hts g ns Hg) as [_ [?|[e Ee]]]; [lia|congruence]. }
  split; simpl; [done| | | | |lia].
  - intros id [e Ee]. apply lookup_insert_Some in Ee as [[<- _]|[_ Ee]]; [lia|]. pose proof (Hb id (mk_is_Some _ _ Ee)). lia.
  - intros id e. rewrite lookup_insert_Some. intros [[<- <-]|[_ Ee]]; [apply entry_ok_new|by eapply He].
  - intros g id Hg. destruct (Hts g id Hg) as [? [?|[e Ee]]]; (split; [done|]); [by left|right].
    rewrite lookup_insert_ne; [eauto|]. apply not_eq_sym. by eapply Hts'.
  - intros id e g. rewrite lookup_insert_Some. intros [[<- <-]|[Hne Ee]]; simpl.
    + split; [intros [x Hx]; by rewrite lookup_empty in Hx|]. intros (k & Hg & Hin). exfalso.
      rewrite Hch in Hin by (by eapply Hts'). apply chain_lookup in Hin as [e Ee]; [congruence|done].
    + rewrite (Hs id e g Ee). split; intros (k & Hg & Hin); exists k;
        (split; [done|]); by rewrite Hch in * by (by eapply Hts').
Qed.

(** A step that changes the numbers of a chain's namespaces only. *)
Lemma pid_inv_numbers t t' ts ts' n :
  pid_inv (mkSys t ts n) → same_shape t t' →
  (∀ id e', t' !! id = Some e' → entry_ok e') → (∀ g k, ts' !! g = Some k → 0 < g ∧ known t k) →
  (∀ id e' g, t' !! id = Some e' → is_Some (local e' !! g) ↔ ∃ k, ts' !! g = Some k ∧ id ∈ chain t k) →
  pid_inv (mkSys t' ts' n).
Proof.
  intros [Ho Hb _ _ _ H0] Hsh He Hts Hs. destruct (same_shape_chain (par:=parent) t t') as (Ho' & Hch); [done|done|]. simpl in *.
  split; simpl; [done| |done| | |done].
  - intros id [e Ee]. apply Hb. specialize (Hsh id). rewrite Ee in Hsh. destruct (t !! id); [eauto|done].
  - intros g k Hg. destruct (Hts g k Hg). split; [done|]. by apply (same_shape_known (par:=parent) t).
  - intros id e g Ee. rewrite (Hs id e g Ee). by setoid_rewrite Hch.
Qed.
Lemma pid_inv_add checks t ts n g ns t' :
  0 < g → ts !! g = None → accepts_tasks t ns = true → has_room t ns → add_task checks t g ns = Ok t' →
  pid_inv (mkSys t ts n) → pid_inv (mkSys t' (<[g := ns]> ts) n).
Proof.
  intros Hg0 Hg Hacc Hroom Ht Hi. pose proof Hi as [Ho Hb He Hts Hs H0]. simpl in *. apply accepts_known in Hacc.
  destruct (add_task_ok checks t g ns) as (t2 & Ht2 & Hsh & Hl); [done|done| |].
  { intros id e Hid Ee. split; [|by eapply Hroom].
    apply eq_None_not_Some. rewrite (Hs id e g Ee). intros (n' & Hn' & _). congruence. }
  rewrite Ht in Ht2. injection Ht2 as <-. eapply pid_inv_numbers; [exact Hi|done| | |].
  - intros id e Ee. by eapply Hl.
  - intros g' n'. rewrite lookup_insert_Some. intros [[<- <-]|[_ Hg']]; [done|by apply Hts].
  - intros id e' g' Ee'. destruct (Hl id e' Ee') as (_ & e & Ee & ->).
    specialize (Hs id e g' Ee). destruct (decide (g' = g)) as [->|Hne].
    + split.
      * case_decide; [intros _; exists ns; by rewrite lookup_insert_eq|].
        rewrite Hs. intros (n' & Hn' & _). congruence.
      * intros (n' & Hn' & Hin). rewrite lookup_insert_eq in Hn'. injection Hn' as <-.
        rewrite decide_True by done. rewrite lookup_insert_eq. eauto.
    + rewrite (lookup_insert_ne ts) by done. rewrite <- Hs. case_decide; [by rewrite lookup_insert_ne|done].
Qed.

Lemma pid_inv_remove t ts n g ns t' :
  ts !! g = Some ns → remove_task t g ns = Ok t' →
  pid_inv (mkSys t ts n) → pid_inv (mkSys t' (delete g ts) n).
Proof.
  intros Hg Ht Hi. pose proof Hi as [Ho Hb He Hts Hs H0]. simpl in *.
  destruct (remove_task_ok t g ns) as (t2 & Ht2 & Hsh & Hl); [done|done|].
  rewrite Ht in Ht2. injection Ht2 as <-. eapply pid_inv_numbers; [exact Hi|done| | |].
  - intros id e Ee. by eapply Hl.
  - intros g' n'. rewrite lookup_delete_Some. intros [_ Hg']. by apply Hts.
  - intros id e' g' Ee'. destruct (Hl id e' Ee') as (_ & e & Ee & ->).
    specialize (Hs id e g' Ee). destruct (decide (g' = g)) as [->|Hne].
    + split; [|intros (n' & Hn' & _); by rewrite lookup_delete_eq in Hn'].
      case_decide as Hid; [intros [x Hx]; by rewrite lookup_delete_eq in Hx|].
      rewrite Hs. intros (n' & Hn' & Hin). congruence.
    + rewrite (lookup_delete_ne ts) by done. rewrite <- Hs. case_decide; [by rewrite lookup_delete_ne|done].
Qed.

Lemma pid_inv_close t ts n ns :
  pid_inv (mkSys t ts n) → pid_inv (mkSys (pidns_close t ns).2 ts n).
Proof.
  unfold pidns_close. intros Hi. destruct (t !! ns) as [en|] eqn:En; [|done].
  pose proof Hi as [Ho Hb He Hts Hs H0]. simpl in *.
  assert (∀ id e, <[ns := set_dead en]> t !! id = Some e →
    ∃ e0, t !! id = Some e0 ∧ local e = local e0 ∧ (entry_ok e0 → entry_ok e)) as Hl.
  { intros id e. rewrite lookup_insert_Some. intros [[<- <-]|[_ Ee]]; [|eauto].
    exists en. split; [done|]. split; [done|]. intros []. by split. }
  eapply pid_inv_numbers; [exact Hi| | |done|].
  - intros id. destruct (decide (id = ns)) as [->|Hne]; [by rewrite lookup_insert_eq, En|]. by rewrite lookup_insert_ne.
  - intros id e Ee. destruct (Hl id e Ee) as (e0 & E0 & _ & Hok). by eapply Hok, He.
  - intros id e g Ee. destruct (Hl id e Ee) as (e0 & E0 & -> & _). by apply Hs.
Qed.

Lemma gc_lookup t in_use ns e :
  collect_garbage t in_use !! ns = Some e ↔
  t !! ns = Some e ∧ (local e ≠ ∅ ∨ ns ∈ in_use ∨ ∃ id e', t !! id = Some e' ∧ parent e' = ns).
Proof.
  unfold collect_garbage. rewrite map_lookup_filter_Some. simpl.
  assert (ns ∈ parents t ↔ ∃ id e', t !! id = Some e' ∧ parent e' = ns) as ->; [|done].
  unfold parents. rewrite list_elem_of_fmap. split.
  - intros ([id e'] & -> & Hin). apply elem_of_map_to_list in Hin. eauto.
  - intros (id & e' & Hin & <-). exists (id, e'). split; [done|]. by apply elem_of_map_to_list.
Qed.

Lemma pid_inv_gc t ts n in_use :
  pid_inv (mkSys t ts n) → pid_inv (mkSys (collect_garbage t in_use) ts n).
Proof.
  intros [Ho Hb He Hts Hs H0]. simpl in *. set (t' := collect_garbage t in_use).
  assert (∀ id e, t' !! id = Some e → t !! id = Some e) as Hsub
    by (intros id e; unfold t'; rewrite gc_lookup; by intros [? _]).
  assert (ordered t') as Ho' by (intros id e Ee; by apply Ho, Hsub).
  assert (∀ id, t' !! id = t !! id → chain t' id = chain t id) as Hch.
  { apply chain_follow; [done|done|by intros id ->|]. intros id e _ Ee.
    destruct (t !! parent e) as [ep|] eqn:Ep.
    - apply gc_lookup. split; [done|]. right. right. eauto.
    - destruct (t' !! parent e) as [ep|] eqn:Ep'; [|done]. apply Hsub in Ep'. congruence. }
  assert (∀ g k, ts !! g = Some k → known t' k ∧ t' !! k = t !! k) as Hk.
  { intros g k Hg. destruct (Hts g k Hg) as [_ [->|[e Ee]]].
    - split; [by left|]. by rewrite !(ordered_0 (par:=parent)).
    - assert (t' !! k = Some e) as E'; [|rewrite E', Ee; split; [right; eauto|done]].
      apply gc_lookup. split; [done|]. left. intros Hem.
      assert (is_Some (local e !! g)) as [x Hx].
      { apply (Hs k e g Ee). exists k. split; [done|]. by eapply chain_self. }
      rewrite Hem in Hx. by rewrite lookup_empty in Hx. }
  split; simpl; [done| | | | |done].
  - intros id [e Ee]. apply Hb. eauto.
  - intros id e Ee. by eapply He, Hsub.
  - intros g k Hg. split; [by eapply Hts|by eapply Hk].
  - intros id e g Ee. rewrite (Hs id e g (Hsub _ _ Ee)).
    split; intros (k & Hk' & Hin); exists k; (split; [done|]); rewrite Hch in * by (by eapply Hk); done.
Qed.

Lemma pid_inv_step checks s s' : pstep checks s s' → pid_inv s → pid_inv s'.
Proof.
  destruct 1; eauto using pid_inv_create, pid_inv_add, pid_inv_remove, pid_inv_close, pid_inv_gc.
  intros [Ho Hb He Hts Hs H0]. split; simpl in *; try done; [|lia]. intros id Hid. pose proof (Hb id Hid). lia.
Qed.

Lemma pid_inv_init : pid_inv empty_sys.
Proof.
  split; simpl; try done; [..|].
  all: try (intros ns [x Hx]; by rewrite lookup_empty in Hx).
Qed.

Lemma pid_inv_reachable checks s : rtc (pstep checks) empty_sys s → pid_inv s.
Proof.
  intros H. generalize pid_inv_init. induction H; eauto using pid_inv_step.
Qed.

(** In a release build the number after the last is negative: the task after the [2^31 - 1]st of a
    namespace is [-2^31] to it. *)
Lemma pid_number_wraps g here e : next_pid e = PID_MAX →
  add_entry true g here e = Panic ∧
  ∃ e', add_entry false g here e = Ok e' ∧ local e' !! g = Some PID_MAX ∧ next_pid e' = -2 ^ 31.
Proof.
  intros E. unfold add_entry. rewrite E. split; [done|]. eexists. split; [reflexivity|]. cbn [local next_pid].
  split; [apply lookup_insert_eq|done].
Qed.

Lemma to_local_Some t g ns e l :
  t !! ns = Some e → ns ≠ 0 → (∀ l, is_Some (global e !! l) → 1 ≤ l) → inverse (local e) (global e) →
  l ≠ 0 → to_local t g ns = l ↔ local e !! g = Some l.
Proof.
  intros He Hn Hr Hi Hl. unfold to_local. assert ((ns =? 0) = false) as -> by lia. rewrite He. simpl.
  destruct (local e !! g) as [x|] eqn:Ex; simpl; split; congruence.
Qed.

(** C27: in every state the kernel's calls reach before a counter runs out, the numbers of every PID
    namespace are a two-way translation: a live task has a number in a namespace exactly when it
    lives in it or in one recorded as nested in it ([is_within]); its number there names it and
    nothing else ([to_local]/[to_global] are inverse, numbers are positive); a number remembered
    for a task that has gone names nobody else; and neither adding nor removing a task can panic
    while its namespaces have a number left. *)
Theorem pid_translation checks s ns e :
  rtc (pstep checks) empty_sys s → table s !! ns = Some e →
  (∀ g home, tasks s !! g = Some home →
     0 < to_local (table s) g ns ↔ is_within (table s) home ns = true) ∧
  (∀ g l, l ≠ 0 → to_local (table s) g ns = l ↔ to_global (table s) l ns = Some g) ∧
  (∀ g l, to_local (table s) g ns = l → l ≠ 0 → 0 < l ∧ is_Some (tasks s !! g)) ∧
  (∀ g l, recorded_to_local (table s) g ns = l → l ≠ 0 →
     to_global (table s) l ns = Some g ∨ to_global (table s) l ns = None) ∧
  (∀ g home, ∃ t', remove_task (table s) g home = Ok t') ∧
  (∀ g home, tasks s !! g = None → has_room (table s) home → ∃ t', add_task checks (table s) g home = Ok t').
Proof.
  intros Hr He. apply pid_inv_reachable in Hr as [Ho Hb Hok Hts Hs _].
  destruct (Ho ns e He) as [Hns _]. pose proof (Hok ns e He) as [Hi Hgi Hrg H1 H2 _].
  assert (∀ g l, l ≠ 0 → to_local (table s) g ns = l ↔ local e !! g = Some l) as Hloc.
  { intros g l Hl. apply to_local_Some; try done; [lia|]. intros k Hk. apply (Hrg k). by left. }
  assert (∀ l, to_global (table s) l ns = global e !! l) as Hglo.
  { intros l. unfold to_global. assert ((ns =? 0) = false) as -> by lia. by rewrite He. }
  assert (∀ g l, local e !! g = Some l → 1 ≤ l) as Hpos.
  { intros g l Hl. apply Hi in Hl. apply (Hrg l). eauto. }
  split; [|split; [|split; [|split; [|split]]]].
  - intros g home Hg. unfold is_within. assert ((ns =? 0) = false) as -> by lia. simpl.
    rewrite bool_decide_eq_true. specialize (Hs ns e g He). split.
    + intros Hp. assert (is_Some (local e !! g)) as Hx.
      { eexists. apply Hloc; [|reflexivity]. lia. }
      apply Hs in Hx as (n' & Hn' & Hin). congruence.
    + intros Hin. destruct (proj2 Hs) as [x Hx]; [eauto|]. pose proof (Hpos g x Hx).
      pose proof (proj2 (Hloc g x ltac:(lia)) Hx). lia.
  - intros g l Hl. rewrite Hloc, Hglo by done. apply Hi.
  - intros g l E Hl. apply Hloc in E; [|done]. split; [pose proof (Hpos g l E); lia|].
    apply (mk_is_Some (local e !! g)), (Hs ns e g He) in E as (n' & -> & _). eauto.
  - intros g l E Hl. unfold recorded_to_local in E. assert ((ns =? 0) = false) as Ens by lia.
    rewrite Ens, He in E. rewrite Hglo. destruct (local e !! g) as [x|] eqn:Ex.
    + subst x. left. by apply Hi.
    + destruct (gone e !! g) as [x|] eqn:Eg; simpl in E; [|done]. subst x. right.
      destruct (global e !! l) eqn:E2; [|done]. apply Hgi in Eg. rewrite (H2 l) in Eg by eauto. done.
  - intros g home. destruct (remove_task_ok (table s) g home) as (t' & ? & _); eauto.
  - intros g home Hg Hroom. destruct (add_task_ok checks (table s) g home) as (t' & ? & _); eauto.
    intros id x Hid Ex. split; [|eauto]. apply eq_None_not_Some. rewrite (Hs id x g Ex).
    intros (n' & Hn' & _). congruence.
Qed.

(** Two nested namespaces; task 100 lives in the inner one, task 101 in the outer one. *)
Definition demo_sys : Sys :=
  let t1 := from_option id ∅ (match pidns_create ∅ 1 0 with inr t => Some t | inl _ => None end) in
  let t2 := from_option id ∅ (match pidns_create t1 2 1 with inr t => Some t | inl _ => None end) in
  let t3 := match add_task true t2 100 2 with Ok t => t | Panic => ∅ end in
  let t4 := match add_task true t3 101 1 with Ok t => t | Panic => ∅ end in
  mkSys t4 {[100 := 2; 101 := 1]} 2.
(** [has_room] by evaluation. *)
Lemma room_by_chain t ns :
  forallb (λ id, match t !! id with Some e => next_pid e <? PID_MAX | None => true end) (chain t ns) = true → has_room t ns.
Proof.
  intros H id e Hid He. rewrite forallb_forall in H. specialize (H id). rewrite He in H.
  apply Z.ltb_lt, H. by apply list_elem_of_In.
Qed.

Lemma demo_reachable : rtc (pstep true) empty_sys demo_sys.
Proof.
  eapply rtc_l; [eapply (p_create true ∅ ∅ 0 1 1 0); [done|done|done|vm_compute; reflexivity]|].
  eapply rtc_l; [eapply (p_create true _ ∅ 1 2 2 1); [done|done|done|vm_compute; reflexivity]|].
  eapply rtc_l; [eapply (p_add true _ _ _ 100 2); [done|done|done|apply room_by_chain; by vm_compute|vm_compute; reflexivity]|].
  eapply rtc_l; [eapply (p_add true _ _ _ 101 1); [done|done|done|apply room_by_chain; by vm_compute|vm_compute; reflexivity]|].
  match goal with |- rtc _ ?a _ => replace a with demo_sys by (vm_compute; reflexivity) end.
  apply rtc_refl.
Qed.

Lemma pid_translation_witness :
  is_within (table demo_sys) 2 1 = true ∧ 0 < to_local (table demo_sys) 100 1 ∧
  to_global (table demo_sys) 2 1 = Some 101 ∧ is_within (table demo_sys) 1 2 = false ∧
  ~ 0 < to_local (table demo_sys) 101 2.
Proof.
  destruct (table demo_sys !! 1) as [e1|] eqn:E1; [|vm_compute in E1; discriminate E1].
  destruct (table demo_sys !! 2) as [e2|] eqn:E2; [|vm_compute in E2; discriminate E2].
  destruct (pid_translation true demo_sys 1 e1 demo_reachable E1) as (V & R & _).
  destruct (pid_translation true demo_sys 2 e2 demo_reachable E2) as (V2 & _).
  assert (is_within (table demo_sys) 2 1 = true) as W by (vm_compute; reflexivity).
  split; [exact W|]. split; [apply (V 100 2); [vm_compute; reflexivity|exact W]|].
  split; [apply R; [discriminate|vm_compute; reflexivity]|].
  assert (is_within (table demo_sys) 1 2 = false) as W2 by (vm_compute; reflexivity).
  split; [exact W2|]. intros H. apply (V2 101 1) in H; [congruence|vm_compute; reflexivity].
Defined.
