(* ===== verification/Text.v ===== *)
(** The text routines of Rust's standard library that the kernel's control files use: UTF-8,
    white space, lines and words, and decimal numbers. A string is the list of its characters
    (code points). *)
From S2P Require Import Prelude.
From Stdlib Require Import Ascii String.
From stdpp Require Import base numbers list.
Local Open Scope Z_scope.

(** A literal of ASCII characters. *)
Definition txt (s : string) : list Z := (λ a, Z.of_nat (nat_of_ascii a)) <$> list_ascii_of_string s.

Definition NL : Z := 10.
Definition CR : Z := 13.
Definition SP : Z := 32.
Definition PLUS : Z := 43.
Definition MINUS : Z := 45.

(** [String::from_utf8]: overlong forms, surrogates and values above U+10FFFF are refused. *)
Definition cont (b : Z) : bool := (0x80 <=? b) && (b <? 0xC0).
Fixpoint from_utf8 (bs : list Z) : option (list Z) :=
  match bs with
  | [] => Some []
  | b0 :: r0 =>
    if b0 <? 0x80 then (cons b0) <$> from_utf8 r0
    else match r0 with
    | [] => None
    | b1 :: r1 =>
      if (0xC2 <=? b0) && (b0 <? 0xE0) then
        if cont b1 then (cons ((b0 - 0xC0) * 64 + (b1 - 0x80))) <$> from_utf8 r1 else None
      else match r1 with
      | [] => None
      | b2 :: r2 =>
        if (0xE0 <=? b0) && (b0 <? 0xF0) then
          if cont b1 && cont b2 && ((negb (b0 =? 0xE0)) || (0xA0 <=? b1))
             && ((negb (b0 =? 0xED)) || (b1 <? 0xA0))
          then (cons (((b0 - 0xE0) * 64 + (b1 - 0x80)) * 64 + (b2 - 0x80))) <$> from_utf8 r2
          else None
        else match r2 with
        | [] => None
        | b3 :: r3 =>
          if (0xF0 <=? b0) && (b0 <? 0xF5) && cont b1 && cont b2 && cont b3
             && ((negb (b0 =? 0xF0)) || (0x90 <=? b1)) && ((negb (b0 =? 0xF4)) || (b1 <? 0x90))
          then (cons ((((b0 - 0xF0) * 64 + (b1 - 0x80)) * 64 + (b2 - 0x80)) * 64 + (b3 - 0x80)))
                 <$> from_utf8 r3
          else None
        end
      end
    end
  end.

(** [String::from_utf8_lossy]: each longest start of a character that cannot be completed, or
    byte that cannot start one, is U+FFFD. *)
Definition REPLACEMENT : Z := 0xFFFD.
Fixpoint from_utf8_lossy (bs : list Z) : list Z :=
  match bs with
  | [] => []
  | b0 :: r0 =>
    if b0 <? 0x80 then b0 :: from_utf8_lossy r0
    else match r0 with
    | [] => [REPLACEMENT]
    | b1 :: r1 =>
      if (0xC2 <=? b0) && (b0 <? 0xE0) then
        if cont b1 then ((b0 - 0xC0) * 64 + (b1 - 0x80)) :: from_utf8_lossy r1
        else REPLACEMENT :: from_utf8_lossy r0
      else if (0xE0 <=? b0) && (b0 <? 0xF0) then
        if cont b1 && ((negb (b0 =? 0xE0)) || (0xA0 <=? b1)) && ((negb (b0 =? 0xED)) || (b1 <? 0xA0)) then
          match r1 with
          | [] => [REPLACEMENT]
          | b2 :: r2 =>
            if cont b2 then (((b0 - 0xE0) * 64 + (b1 - 0x80)) * 64 + (b2 - 0x80)) :: from_utf8_lossy r2
            else REPLACEMENT :: from_utf8_lossy r1
          end
        else REPLACEMENT :: from_utf8_lossy r0
      else if (0xF0 <=? b0) && (b0 <? 0xF5) then
        if cont b1 && ((negb (b0 =? 0xF0)) || (0x90 <=? b1)) && ((negb (b0 =? 0xF4)) || (b1 <? 0x90)) then
          match r1 with
          | [] => [REPLACEMENT]
          | b2 :: r2 =>
            if cont b2 then
              match r2 with
              | [] => [REPLACEMENT]
              | b3 :: r3 =>
                if cont b3 then
                  ((((b0 - 0xF0) * 64 + (b1 - 0x80)) * 64 + (b2 - 0x80)) * 64 + (b3 - 0x80))
                    :: from_utf8_lossy r3
                else REPLACEMENT :: from_utf8_lossy r2
              end
            else REPLACEMENT :: from_utf8_lossy r1
          end
        else REPLACEMENT :: from_utf8_lossy r0
      else REPLACEMENT :: from_utf8_lossy r0
    end
  end.

(** [char::is_whitespace]: Unicode's White_Space. *)
Definition is_whitespace (c : Z) : bool :=
  ((9 <=? c) && (c <=? 13)) || (c =? 32) || (c =? 0x85) || (c =? 0xA0) || (c =? 0x1680)
  || ((0x2000 <=? c) && (c <=? 0x200A)) || (c =? 0x2028) || (c =? 0x2029) || (c =? 0x202F)
  || (c =? 0x205F) || (c =? 0x3000).

(** [lines]: pieces that end in a newline, without it and without a carriage return before
    it; what follows the last newline is a line when it is not empty. *)
Fixpoint split_inclusive (s : list Z) : list (list Z) :=
  match s with
  | [] => []
  | c :: s =>
    if c =? NL then [c] :: split_inclusive s
    else match split_inclusive s with [] => [[c]] | w :: ws => (c :: w) :: ws end
  end.
Definition strip_last (c : Z) (s : list Z) : option (list Z) :=
  match rev s with d :: r => if d =? c then Some (rev r) else None | [] => None end.
Definition strip_eol (s : list Z) : list Z :=
  match strip_last NL s with
  | None => s
  | Some s => match strip_last CR s with None => s | Some s => s end
  end.
Definition lines (s : list Z) : list (list Z) := strip_eol <$> split_inclusive s.

(** [split_whitespace]: the non-empty pieces between white space. *)
Fixpoint split_ws (s : list Z) : list (list Z) :=
  match s with
  | [] => [[]]
  | c :: s =>
    if is_whitespace c then [] :: split_ws s
    else match split_ws s with w :: ws => (c :: w) :: ws | [] => [[c]] end
  end.
Definition split_whitespace (s : list Z) : list (list Z) := filter (λ w, w ≠ []) (split_ws s).

(** [trim]. *)
Fixpoint trim_start (s : list Z) : list Z :=
  match s with [] => [] | c :: r => if is_whitespace c then trim_start r else s end.
Definition trim (s : list Z) : list Z := rev (trim_start (rev (trim_start s))).

(** [parse] on an integer type: an optional sign, then digits; a value the type does not hold
    is an error. A minus sign is a digit out of place for an unsigned type. *)
Fixpoint digits (s : list Z) (acc : Z) : option Z :=
  match s with
  | [] => Some acc
  | c :: s => if (48 <=? c) && (c <=? 57) then digits s (acc * 10 + (c - 48)) else None
  end.
Definition number (s : list Z) : option Z := match s with [] => None | _ => digits s 0 end.
Definition within (lo hi z : Z) : option Z := if (lo <=? z) && (z <? hi) then Some z else None.
Definition parse_unsigned (hi : Z) (s : list Z) : option Z :=
  match s with
  | c :: r => number (if c =? PLUS then r else s) ≫= within 0 hi
  | [] => None
  end.
Definition parse_signed (lo hi : Z) (s : list Z) : option Z :=
  match s with
  | c :: r =>
    if c =? MINUS then (Z.opp <$> number r) ≫= within lo hi
    else number (if c =? PLUS then r else s) ≫= within lo hi
  | [] => None
  end.
Definition parse_u32 : list Z → option Z := parse_unsigned U32.
Definition parse_i32 : list Z → option Z := parse_signed (- 2 ^ 31) (2 ^ 31).
Definition parse_i64 : list Z → option Z := parse_signed (- 2 ^ 63) (2 ^ 63).

(** Printing: [{}] and [{:>w}]. *)
Fixpoint show_loop (fuel : nat) (z : Z) (acc : list Z) : list Z :=
  let acc := (48 + z mod 10) :: acc in
  match fuel with
  | O => acc
  | S fuel => if z / 10 =? 0 then acc else show_loop fuel (z / 10) acc
  end.
Definition show_unsigned (z : Z) : list Z := show_loop (Z.to_nat (Z.log2 z)) z [].
Definition show (z : Z) : list Z := if z <? 0 then MINUS :: show_unsigned (- z) else show_unsigned z.
Definition pad_left (w : nat) (s : list Z) : list Z := replicate (w - length s) SP ++ s.

(** * Words and lines of text put together from pieces *)

(** A word: not empty, no white space. *)
Definition is_word (w : list Z) : Prop := w ≠ [] ∧ Forall (λ c, is_whitespace c = false) w.

Lemma split_ws_word w : ∀ s,
  Forall (λ c, is_whitespace c = false) w →
  split_ws (w ++ s) = match split_ws s with v :: vs => (w ++ v) :: vs | [] => [w] end.
Proof.
  induction w as [|c w IH]; intros s H; simpl.
  - destruct s; simpl; [done|]. repeat case_match; done.
  - apply Forall_cons in H as [-> H]. rewrite (IH s H). by destruct (split_ws s).
Qed.

Lemma words_space c s : is_whitespace c = true → split_whitespace (c :: s) = split_whitespace s.
Proof.
  intros H. unfold split_whitespace. simpl. rewrite H.
  rewrite filter_cons_False; [done|]. intros E. by apply E.
Qed.

Lemma words_spaces n s : split_whitespace (replicate n SP ++ s) = split_whitespace s.
Proof. induction n as [|n IH]; simpl; [done|]. rewrite words_space; [apply IH|reflexivity]. Qed.

Lemma words_cons w c s :
  is_word w → is_whitespace c = true → split_whitespace (w ++ c :: s) = w :: split_whitespace s.
Proof.
  intros [Hw Hf] Hc. unfold split_whitespace. rewrite split_ws_word by done. simpl. rewrite Hc.
  by rewrite app_nil_r, filter_cons_True.
Qed.

Lemma words_one w : is_word w → split_whitespace w = [w].
Proof.
  intros [Hw Hf]. unfold split_whitespace. rewrite <- (app_nil_r w) at 1.
  rewrite split_ws_word by done. simpl. rewrite app_nil_r, filter_cons_True; done.
Qed.

(** A line of text: no newline in it, no carriage return at its end. *)
Definition is_line (l : list Z) : Prop := (NL ∉ l) ∧ last l ≠ Some CR.

Lemma strip_last_app c s d :
  strip_last c (s ++ [d]) = if d =? c then Some s else None.
Proof. unfold strip_last. rewrite rev_unit. case_match; [by rewrite rev_involutive|done]. Qed.

Lemma split_inclusive_line l s :
  NL ∉ l → split_inclusive (l ++ NL :: s) = (l ++ [NL]) :: split_inclusive s.
Proof.
  induction l as [|c l IH]; intros H; simpl; [done|]. apply not_elem_of_cons in H as [Hc Hl].
  destruct (Z.eqb_spec c NL); [congruence|]. by rewrite IH.
Qed.

Lemma lines_cons l s : is_line l → lines (l ++ NL :: s) = l :: lines s.
Proof.
  intros [Hn Hc]. unfold lines. rewrite split_inclusive_line by done. simpl. f_equal.
  unfold strip_eol. rewrite strip_last_app. simpl. unfold strip_last.
  destruct (rev l) as [|d r] eqn:E; [done|]. case_match; [|done].
  apply (f_equal (@rev Z)) in E. rewrite rev_involutive in E. simpl in E. subst l.
  rewrite last_snoc in Hc. destruct (Z.eqb_spec d CR); [congruence|done].
Qed.

(** Text of several lines, each ended by a newline. *)
Lemma lines_mjoin ls : Forall is_line ls → lines (mjoin ((λ l, l ++ [NL]) <$> ls)) = ls.
Proof.
  induction 1 as [|l ls Hl _ IH]; [done|]. simpl. rewrite <- app_assoc. simpl.
  rewrite lines_cons by done. f_equal. exact IH.
Qed.

Lemma trim_word_nonempty l w : is_word w → w ∈ split_whitespace l → trim l ≠ [].
Proof.
  intros Hw Hin Ht.
  assert (∀ s, trim_start s = [] → split_whitespace s = []) as H0.
  { induction s as [|c s IH]; intros E; [done|]. simpl in E. destruct (is_whitespace c) eqn:Ec; [|done].
    rewrite words_space by done. by apply IH. }
  assert (∀ s, trim_start s = [] → Forall (λ c, is_whitespace c = true) s) as H1.
  { induction s as [|c s IH]; intros E; [done|]. simpl in E. destruct (is_whitespace c) eqn:Ec; [|done].
    constructor; [done|by apply IH]. }
  assert (∀ s, Forall (λ c, is_whitespace c = true) (trim_start s) → trim_start s = []) as H2.
  { induction s as [|c s IH]; intros E; [done|]. simpl in *. destruct (is_whitespace c) eqn:Ec; [by apply IH|].
    apply Forall_cons in E as [E _]. congruence. }
  unfold trim in Ht. assert (trim_start l = []) as E.
  { apply H2. rewrite <- (rev_involutive (trim_start l)). apply Forall_rev, H1.
    apply (f_equal (@rev Z)) in Ht. by rewrite rev_involutive in Ht. }
  rewrite (H0 l E) in Hin. by apply elem_of_nil in Hin.
Qed.

(** * Numbers *)

Definition is_digit (c : Z) : Prop := 48 ≤ c ≤ 57.

Lemma digits_app s1 s2 : ∀ acc, digits (s1 ++ s2) acc = digits s1 acc ≫= digits s2.
Proof.
  induction s1 as [|c s1 IH]; intros acc; simpl; [done|]. case_match; [apply IH|done].
Qed.

Lemma show_loop_spec : ∀ fuel z acc,
  0 ≤ z → (Z.to_nat (Z.log2 z) ≤ fuel)%nat →
  ∃ ds, show_loop fuel z acc = ds ++ acc ∧ ds ≠ [] ∧ Forall is_digit ds ∧ digits ds 0 = Some z.
Proof.
  induction fuel as [|fuel IH]; intros z acc Hz Hf; simpl.
  - assert (z < 2) as H2.
    { pose proof (Z.log2_nonneg z). destruct (decide (z < 2)); [done|].
      pose proof (Z.log2_le_mono 2 z). change (Z.log2 2) with 1 in *. lia. }
    exists [48 + z mod 10]. unfold is_digit. rewrite Z.mod_small by lia.
    split; [done|]. split; [done|]. split; [repeat constructor; lia|]. simpl.
    case_match; [f_equal; lia|lia].
  - assert (0 ≤ z mod 10 < 10) as Hm by (apply Z.mod_pos_bound; lia).
    pose proof (Z.div_mod z 10 ltac:(lia)) as Hd.
    assert (∀ a, digits [48 + z mod 10] a = Some (a * 10 + z mod 10)) as Hone.
    { intros a. simpl. case_match; [f_equal; lia|lia]. }
    destruct (Z.eqb_spec (z / 10) 0) as [E|E].
    + exists [48 + z mod 10]. split; [done|]. split; [done|]. split; [constructor; [red; lia|done]|].
      rewrite Hone. f_equal. lia.
    + destruct (IH (z / 10) ((48 + z mod 10) :: acc)) as (ds & E1 & E2 & E3 & E4).
      * apply Z.div_pos; lia.
      * assert (0 < z / 10) by (pose proof (Z.div_pos z 10); lia).
        assert (Z.log2 (z / 10) < Z.log2 z) as Hl.
        { apply Z.log2_lt_pow2; [lia|]. pose proof (Z.log2_spec z ltac:(lia)) as [_ Hu].
          rewrite Z.pow_succ_r in Hu by apply Z.log2_nonneg. lia. }
        pose proof (Z.log2_nonneg (z / 10)). lia.
      * exists (ds ++ [48 + z mod 10]). rewrite <- app_assoc. split; [done|].
        split; [by destruct ds|]. split.
        { apply Forall_app. split; [done|]. constructor; [red; lia|done]. }
        rewrite digits_app, E4. cbn [mbind option_bind]. rewrite Hone. f_equal. lia.
Qed.

Lemma show_unsigned_spec z :
  0 ≤ z → show_unsigned z ≠ [] ∧ Forall is_digit (show_unsigned z) ∧ digits (show_unsigned z) 0 = Some z.
Proof.
  intros Hz. destruct (show_loop_spec (Z.to_nat (Z.log2 z)) z [] Hz) as (ds & E & H); [done|].
  rewrite app_nil_r in E. unfold show_unsigned. by rewrite E.
Qed.

Lemma digits_word s : s ≠ [] → Forall is_digit s → is_word s.
Proof.
  intros H Hf. split; [done|]. eapply Forall_impl; [exact Hf|]. unfold is_digit, is_whitespace.
  intros c Hc. lia.
Qed.

Lemma show_word z : is_word (show z).
Proof.
  unfold show. destruct (Z.ltb_spec z 0) as [H|H].
  - destruct (show_unsigned_spec (- z)) as (H1 & H2 & _); [lia|].
    destruct (digits_word _ H1 H2) as [_ H3]. split; [done|]. by constructor.
  - destruct (show_unsigned_spec z) as (H1 & H2 & _); [lia|]. by apply digits_word.
Qed.

Lemma number_show z : 0 ≤ z → number (show_unsigned z) = Some z.
Proof.
  intros Hz. destruct (show_unsigned_spec z Hz) as (H1 & _ & H2). unfold number.
  by destruct (show_unsigned z).
Qed.

Lemma show_head z c r : 0 ≤ z → show_unsigned z = c :: r → is_digit c.
Proof.
  intros Hz E. destruct (show_unsigned_spec z Hz) as (_ & H & _). rewrite E in H.
  by apply Forall_cons in H as [? _].
Qed.

(** What is printed is read back, by any type that holds it. *)
Lemma parse_unsigned_show hi z : 0 ≤ z < hi → parse_unsigned hi (show z) = Some z.
Proof.
  intros Hz. unfold show. destruct (Z.ltb_spec z 0); [lia|].
  pose proof (number_show z ltac:(lia)) as Hn. unfold parse_unsigned.
  destruct (show_unsigned z) as [|c r] eqn:E; [done|].
  pose proof (show_head z c r ltac:(lia) E) as Hc. unfold is_digit, PLUS in *.
  destruct (Z.eqb_spec c 43); [lia|]. rewrite Hn. cbn [mbind option_bind]. unfold within.
  case_match; [done|lia].
Qed.

Lemma parse_signed_show lo hi z : lo ≤ z < hi → parse_signed lo hi (show z) = Some z.
Proof.
  intros Hz. unfold show. destruct (Z.ltb_spec z 0) as [Hn|Hp].
  - unfold parse_signed. rewrite Z.eqb_refl, number_show by lia. cbn [fmap option_fmap option_map mbind option_bind].
    unfold within. case_match; [f_equal; lia|lia].
  - pose proof (number_show z ltac:(lia)) as Hs. unfold parse_signed.
    destruct (show_unsigned z) as [|c r] eqn:E; [done|].
    pose proof (show_head z c r ltac:(lia) E) as Hc. unfold is_digit, PLUS, MINUS in *.
    destruct (Z.eqb_spec c 45); [lia|]. destruct (Z.eqb_spec c 43); [lia|]. rewrite Hs.
    cbn [mbind option_bind]. unfold within. case_match; [done|lia].
Qed.
