(* ===== verification/UserNs.v ===== *)
(** User namespaces ([src/kernel/userns.rs]): the table of namespaces and their id maps, the
    translation of ids between a namespace and the initial one, the text of the control files,
    and what can be written to them. *)
From S2P Require Import Prelude Abi NsChain Text.
From Stdlib Require Import String.
From stdpp Require Import base numbers gmap relations list.
Local Open Scope Z_scope.

Definition OVERFLOW_ID : Z := 65534.
Definition MAX_DEPTH : Z := 32.
Definition MAX_EXTENTS : Z := 340.
Definition MAX_OWNED : Z := Z.shiftl 1 17.
Definition COLLECT_ABOVE : Z := Z.shiftl 1 16.

Inductive IdKind := Uid | Gid.
Global Instance IdKind_eq_dec : EqDecision IdKind.
Proof. solve_decision. Defined.

Record Extent := mkExtent { inside : Z; outside : Z; count : Z }.
Abbreviation IdMap := (option (list Extent)).

(** [find_map] over the extents; [checked_sub] skips an extent that starts above the id. The
    sum is a [u32] addition. *)
Definition extent_at (from to : Extent → Z) (id : Z) (e : Extent) : option Z :=
  if id <? from e then None
  else if id - from e <? count e then Some (wrap U32 (to e + (id - from e))) else None.
Fixpoint find_extent (f : Extent → option Z) (es : list Extent) : option Z :=
  match es with
  | [] => None
  | e :: es => match f e with Some r => Some r | None => find_extent f es end
  end.
Definition to_outside (m : IdMap) (id : Z) : option Z := m ≫= find_extent (extent_at inside outside id).
Definition to_inside (m : IdMap) (id : Z) : option Z := m ≫= find_extent (extent_at outside inside id).

(** [IdMap::render]. *)
Definition render_extent (e : Extent) : list Z :=
  pad_left 10 (show (inside e)) ++ [SP] ++ pad_left 10 (show (outside e)) ++ [SP]
  ++ pad_left 10 (show (count e)) ++ [NL].
Definition render_map (m : IdMap) : list Z := mjoin (render_extent <$> default [] m).

Record UserNs := mkUserNs {
  parent : Z;
  uids : IdMap;
  gids : IdMap;
  setgroups_denied : bool;
  creator_uid : Z;
  creator_gid : Z
}.
Record UserNamespaces := mkUsers { table : gmap Z UserNs; owners : gmap Z Z }.
Definition users_default : UserNamespaces := mkUsers ∅ ∅.

Definition chain (u : UserNamespaces) (ns : Z) : list Z := NsChain.chain parent (table u) ns.

Definition create (u : UserNamespaces) (ns p cuid cgid : Z) : Z + UserNamespaces :=
  if MAX_DEPTH <=? Z.of_nat (length (chain u p)) + 1 then inl ENOSPC
  else
    let denied := match table u !! p with Some e => setgroups_denied e | None => false end in
    inr (mkUsers (<[ns := mkUserNs p None None denied cuid cgid]> (table u)) (owners u)).

Definition is_within (u : UserNamespaces) (inner outer : Z) : bool :=
  (outer =? 0) || (inner =? outer) || bool_decide (outer ∈ chain u inner).

Definition set_owner (u : UserNamespaces) (ns user : Z) : Z + UserNamespaces :=
  if MAX_OWNED <=? Z.of_nat (size (owners u)) then inl ENOSPC
  else inr (mkUsers (table u) (<[ns := user]> (owners u))).
Definition owner (u : UserNamespaces) (ns : Z) : Z := default 0 (owners u !! ns).

Definition created_by (u : UserNamespaces) (ns p uid : Z) : bool :=
  match table u !! ns with Some e => (parent e =? p) && (creator_uid e =? uid) | None => false end.

Definition map_of (k : IdKind) (e : UserNs) : IdMap := match k with Uid => uids e | Gid => gids e end.
Definition creator_of (k : IdKind) (e : UserNs) : Z :=
  match k with Uid => creator_uid e | Gid => creator_gid e end.
Definition id_map (u : UserNamespaces) (ns : Z) (k : IdKind) : option IdMap := map_of k <$> table u !! ns.

(** [to_global] and [seen_from_global]: one step per level of the chain. *)
Fixpoint walk (step : Z → Z → option Z) (levels : list Z) (id : Z) : option Z :=
  match levels with [] => Some id | l :: ls => id ← step id l; walk step ls id end.
Definition up (u : UserNamespaces) (k : IdKind) (id level : Z) : option Z :=
  m ← id_map u level k; to_outside m id.
Definition to_global (u : UserNamespaces) (ns : Z) (k : IdKind) (id : Z) : option Z :=
  walk (up u k) (chain u ns) id.
Definition down (u : UserNamespaces) (k : IdKind) (id level : Z) : option Z :=
  m ← id_map u level k; to_inside m id.
Definition seen_from_global (u : UserNamespaces) (ns : Z) (k : IdKind) (id : Z) : Z :=
  default OVERFLOW_ID (walk (down u k) (rev (chain u ns)) id).

Definition is_mapped (u : UserNamespaces) (ns : Z) (k : IdKind) (id : Z) : bool :=
  bool_decide (is_Some (to_global u ns k id)).

Definition render (u : UserNamespaces) (ns : Z) (k : IdKind) : option (list Z) :=
  render_map <$> id_map u ns k.

(** "deny" and "allow". *)
Definition DENY : list Z := txt "deny".
Definition ALLOW : list Z := txt "allow".
Definition denied_at (u : UserNamespaces) (ns : Z) : bool :=
  match table u !! ns with Some e => setgroups_denied e | None => false end.
Definition setgroups_state (u : UserNamespaces) (ns : Z) : list Z :=
  if denied_at u ns then DENY ++ [NL] else ALLOW ++ [NL].
Definition setgroups_refused (u : UserNamespaces) (ns : Z) : bool := existsb (denied_at u) (chain u ns).

Definition with_entry (u : UserNamespaces) (ns : Z) (e : UserNs) : UserNamespaces :=
  mkUsers (<[ns := e]> (table u)) (owners u).
Definition deny_setgroups (e : UserNs) : UserNs :=
  mkUserNs (parent e) (uids e) (gids e) true (creator_uid e) (creator_gid e).
Definition put_map (k : IdKind) (m : IdMap) (e : UserNs) : UserNs :=
  match k with
  | Uid => mkUserNs (parent e) m (gids e) (setgroups_denied e) (creator_uid e) (creator_gid e)
  | Gid => mkUserNs (parent e) (uids e) m (setgroups_denied e) (creator_uid e) (creator_gid e)
  end.

Definition write_setgroups (u : UserNamespaces) (ns : Z) (text : list Z) : Z + UserNamespaces :=
  match table u !! ns with
  | None => inl EPERM
  | Some e =>
    let t := trim text in
    if decide (t = DENY) then inr (with_entry u ns (deny_setgroups e))
    else if decide (t = ALLOW) then
      if negb (setgroups_denied e) && match gids e with None => true | Some _ => false end
      then inr u else inl EPERM
    else inl EINVAL
  end.

(** [parse_extents]. *)
Definition parse_extent (line : list Z) : option Extent :=
  match split_whitespace line with
  | [a; b; c] =>
    i ← parse_u32 a; o ← parse_u32 b; n ← parse_u32 c;
    if n =? 0 then None else if i + (n - 1) <? U32 then Some (mkExtent i o n) else None
  | _ => None
  end.
Definition sat_add32 (a b : Z) : Z := Z.min (U32 - 1) (a + b).
Definition overlaps (a n b m : Z) : bool := (a <? sat_add32 b m) && (b <? sat_add32 a n).
Definition clash (e f : Extent) : bool :=
  overlaps (inside e) (count e) (inside f) (count f)
  || overlaps (outside e) (count e) (outside f) (count f).
Fixpoint any_clash (before es : list Extent) : bool :=
  match es with
  | [] => false
  | e :: es => existsb (clash e) before || any_clash (before ++ [e]) es
  end.
Definition content_lines (text : list Z) : list (list Z) := filter (λ l, trim l ≠ []) (lines text).
Definition parse_extents (text : list Z) : Z + list Extent :=
  match mapM parse_extent (content_lines text) with
  | None => inl EINVAL
  | Some es =>
    if (Z.of_nat (length es) =? 0) || (MAX_EXTENTS <? Z.of_nat (length es)) then inl EINVAL
    else if any_clash [] es then inl EINVAL else inr es
  end.

(** [write_map]. The loop at its end finds the first extent that overflows or whose first or
    last id has no meaning in the parent. *)
Fixpoint check_extents (u : UserNamespaces) (p : Z) (k : IdKind) (es : list Extent) : option Z :=
  match es with
  | [] => None
  | e :: es =>
    let last := outside e + (count e - 1) in
    if U32 <=? last then Some EINVAL
    else if negb (is_mapped u p k (outside e)) || negb (is_mapped u p k last) then Some EPERM
    else check_extents u p k es
  end.
Definition only_own (es : list Extent) (own : Z) : bool :=
  match es with [e] => (count e =? 1) && (outside e =? own) | _ => false end.
Definition write_map (u : UserNamespaces) (ns : Z) (k : IdKind) (text : list Z)
    (privileged_in_parent : bool) : Z + UserNamespaces :=
  match parse_extents text with
  | inl e => inl e
  | inr es =>
    match table u !! ns with
    | None => inl EPERM
    | Some e =>
      match map_of k e with
      | Some _ => inl EPERM
      | None =>
        if negb privileged_in_parent
           && negb (only_own es (creator_of k e) && (bool_decide (k = Uid) || setgroups_denied e))
        then inl EPERM
        else match check_extents u (parent e) k es with
             | Some x => inl x
             | None => inr (with_entry u ns (put_map k (Some es) e))
             end
      end
    end
  end.

Definition owned_count (u : UserNamespaces) : Z := Z.of_nat (size (owners u)).
Definition collect_garbage (u : UserNamespaces) (in_use : list Z) : UserNamespaces :=
  let parents := (λ x, parent x.2) <$> map_to_list (table u) in
  mkUsers (filter (λ x, x.1 ∈ in_use ∨ x.1 ∈ parents) (table u))
          (filter (λ x, x.1 ∈ in_use) (owners u)).

(** * Time namespaces *)

Record TimeOffsets := mkOffsets { monotonic : Z; boottime : Z }.
Definition no_offsets : TimeOffsets := mkOffsets 0 0.
Record TimeNs := mkTimeNs { offsets : TimeOffsets; entered : bool }.
Definition NSEC : Z := 1000000000.

Definition MONOTONIC : list Z := txt "monotonic".
Definition BOOTTIME : list Z := txt "boottime".

(** [div_euclid] and [rem_euclid] by a positive divisor are the floor division and its
    remainder. *)
Definition render_time_offsets (o : TimeOffsets) : list Z :=
  MONOTONIC ++ [SP] ++ show (monotonic o / NSEC) ++ [SP] ++ show (monotonic o mod NSEC) ++ [NL]
  ++ BOOTTIME ++ [SP] ++ show (boottime o / NSEC) ++ [SP] ++ show (boottime o mod NSEC) ++ [NL].

Definition in_i64 (z : Z) : bool := (- 2 ^ 63 <=? z) && (z <? 2 ^ 63).
Definition set_clock (clock : list Z) (total : Z) (o : TimeOffsets) : Z + TimeOffsets :=
  if decide (clock = MONOTONIC ∨ clock = txt "1") then inr (mkOffsets total (boottime o))
  else if decide (clock = BOOTTIME ∨ clock = txt "7") then inr (mkOffsets (monotonic o) total)
  else inl EINVAL.
Definition parse_offset_line (line : list Z) (o : TimeOffsets) : Z + TimeOffsets :=
  match split_whitespace line with
  | clock :: s :: n :: rest =>
    match parse_i64 s, parse_i64 n with
    | Some secs, Some nanos =>
      if negb ((0 <=? nanos) && (nanos <? NSEC)) || match rest with [] => false | _ => true end
      then inl EINVAL
      else if negb (in_i64 (secs * NSEC)) || negb (in_i64 (secs * NSEC + nanos)) then inl ERANGE
      else set_clock clock (secs * NSEC + nanos) o
    | _, _ => inl EINVAL
    end
  | _ => inl EINVAL
  end.
Fixpoint parse_offset_lines (ls : list (list Z)) (o : TimeOffsets) : Z + TimeOffsets :=
  match ls with
  | [] => inr o
  | l :: ls => match parse_offset_line l o with inl e => inl e | inr o => parse_offset_lines ls o end
  end.
Definition parse_time_offsets (text : list Z) (o : TimeOffsets) : Z + TimeOffsets :=
  parse_offset_lines (content_lines text) o.
