(* ===== verification/UserNsSpec.v ===== *)
(** What the user-namespace table guarantees: ids translate back and forth, an unprivileged
    map gives no identity but its creator's, and the control files read back what they show. *)
From S2P Require Import Prelude Abi NsChain Text UserNs.
From Stdlib Require Import String.
From stdpp Require Import base numbers gmap relations list.
Local Open Scope Z_scope.

(** * Extents *)

(** The largest id, which the kernel's calls use for "leave unchanged". *)
Definition TOP : Z := U32 - 1.

Record ext_ok (e : Extent) : Prop := mkExtOk {
  eo_in : 0 ≤ inside e;
  eo_out : 0 ≤ outside e;
  eo_count : 1 ≤ count e;
  eo_in_end : inside e + count e ≤ U32;
  eo_out_end : outside e + count e ≤ U32
}.

Definition covers (from : Extent → Z) (id : Z) (e : Extent) : Prop := from e ≤ id < from e + count e.

(** Extents that share no id, the largest one apart. *)
Definition apart (es : list Extent) : Prop :=
  ∀ i j e f id, es !! i = Some e → es !! j = Some f → i ≠ j → id < TOP →
    (covers inside id e → ¬ covers inside id f) ∧ (covers outside id e → ¬ covers outside id f).

Record map_ok (es : list Extent) : Prop := mkMapOk { mo_ext : Forall ext_ok es; mo_apart : apart es }.

Lemma overlaps_sound a n b m id :
  overlaps a n b m = false → a ≤ id < a + n → b ≤ id < b + m → id < TOP → False.
Proof. unfold overlaps, sat_add32, TOP. intros H ???. lia. Qed.

Lemma any_clash_lookup es : ∀ before,
  any_clash before es = false →
  ∀ i j e f, (before ++ es) !! i = Some e → (before ++ es) !! j = Some f →
    (length before ≤ i)%nat → (j < i)%nat → clash e f = false.
Proof.
  induction es as [|x es IH]; intros before H i j e f Hi Hj Hl Hji.
  - apply lookup_lt_Some in Hi. rewrite length_app in Hi. simpl in Hi. lia.
  - simpl in H. apply orb_false_iff in H as [H1 H2]. destruct (decide (i = length before)) as [->|Hne].
    + rewrite list_lookup_middle in Hi by done. injection Hi as <-.
      rewrite lookup_app_l in Hj by done. destruct (clash x f) eqn:E; [|done].
      assert (existsb (clash x) before = true) as H3; [|congruence].
      apply existsb_exists. exists f. split; [|done]. by eapply list_elem_of_In, list_elem_of_lookup_2.
    + rewrite cons_middle, app_assoc in Hi, Hj.
      eapply IH; [exact H2|exact Hi|exact Hj| |done]. rewrite length_app. simpl. lia.
Qed.

Lemma clash_apart e f id :
  clash e f = false → id < TOP →
  (covers inside id e → covers inside id f → False) ∧ (covers outside id e → covers outside id f → False).
Proof.
  intros H Ht. unfold clash in H. apply orb_false_iff in H as [H1 H2].
  split; intros A B; [exact (overlaps_sound _ _ _ _ id H1 A B Ht)|exact (overlaps_sound _ _ _ _ id H2 A B Ht)].
Qed.

Lemma any_clash_apart es : any_clash [] es = false → apart es.
Proof.
  intros H i j e f id Hi Hj Hne Ht. pose proof (any_clash_lookup es [] H) as P.
  destruct (decide (j < i)%nat).
  - destruct (clash_apart e f id (P i j e f Hi Hj ltac:(simpl; lia) ltac:(lia)) Ht) as [A B]. split; eauto.
  - destruct (clash_apart f e id (P j i f e Hj Hi ltac:(simpl; lia) ltac:(lia)) Ht) as [A B]. split; eauto.
Qed.

(** * One level *)

Lemma find_extent_Some f es r : find_extent f es = Some r → ∃ i e, es !! i = Some e ∧ f e = Some r.
Proof.
  induction es as [|e es IH]; simpl; [done|]. destruct (f e) as [x|] eqn:E.
  - intros [= <-]. by exists 0%nat, e.
  - intros H. destruct (IH H) as (i & e' & Hi & He). by exists (S i), e'.
Qed.

Lemma find_extent_at f es i e r :
  es !! i = Some e → f e = Some r → (∀ j e' x, es !! j = Some e' → f e' = Some x → j = i) →
  find_extent f es = Some r.
Proof.
  revert i. induction es as [|x es IH]; intros i Hi He Hu; simpl; [done|].
  destruct i as [|i]; simpl in Hi; [by injection Hi as ->; rewrite He|].
  destruct (f x) as [y|] eqn:E; [by pose proof (Hu 0%nat x y eq_refl E)|].
  apply (IH i Hi He). intros j e' z Hj Hz. pose proof (Hu (S j) e' z Hj Hz). lia.
Qed.

Lemma extent_at_Some from to id e r :
  extent_at from to id e = Some r → covers from id e ∧ r = wrap U32 (to e + (id - from e)).
Proof. unfold extent_at, covers. repeat case_match; intros [= <-]; split; (lia || done). Qed.

Lemma extent_at_covers from to id e :
  covers from id e → extent_at from to id e = Some (wrap U32 (to e + (id - from e))).
Proof. unfold extent_at, covers. intros H. repeat case_match; (done || lia). Qed.

(** A translation by an extent is undone by the extent read the other way. *)
Lemma extent_flip from to id e o :
  (from = inside ∧ to = outside ∨ from = outside ∧ to = inside) → ext_ok e →
  extent_at from to id e = Some o → covers to o e ∧ extent_at to from o e = Some id.
Proof.
  intros Hft [H1 H2 H3 H4 H5] H. apply extent_at_Some in H as [Hc ->].
  assert (0 ≤ id < U32 ∧ 0 ≤ to e + (id - from e) < U32) as [Hi Hw]
    by (unfold covers in *; destruct Hft as [[-> ->]|[-> ->]]; lia).
  unfold wrap at 1 2. rewrite Z.mod_small by done.
  assert (covers to (to e + (id - from e)) e) as Hc' by (unfold covers in *; lia).
  split; [done|]. rewrite extent_at_covers by done. unfold wrap. f_equal.
  rewrite Z.mod_small; lia.
Qed.

Lemma level_flip from to es id o :
  (from = inside ∧ to = outside ∨ from = outside ∧ to = inside) → map_ok es → o ≠ TOP →
  find_extent (extent_at from to id) es = Some o → 
  find_extent (extent_at to from o) es = Some id ∧ 0 ≤ o < TOP.
Proof.
  intros Hft [Ho Ha] Ht H. apply find_extent_Some in H as (i & e & Hi & He).
  assert (ext_ok e) as Hok by (eapply Forall_lookup in Ho; eauto).
  destruct (extent_flip from to id e o Hft Hok He) as [Hc Hb].
  assert (0 ≤ o < TOP) as Hr.
  { destruct Hok. unfold covers, TOP in *. destruct Hft as [[-> ->]|[-> ->]]; lia. }
  split; [|done]. eapply find_extent_at; [exact Hi|exact Hb|]. intros j f x Hj Hx.
  apply extent_at_Some in Hx as [Hf _]. destruct (decide (j = i)) as [|Hne]; [done|].
  destruct (Ha i j e f o Hi Hj (not_eq_sym Hne) ltac:(lia)) as [A B].
  destruct Hft as [[-> ->]|[-> ->]]; [by destruct (B Hc)|by destruct (A Hc)].
Qed.

(** * Reachable tables

    The id of a new namespace comes from a [u32] counter the whole kernel shares, of which one call
    may draw several, so it is above every id seen before; its parent is a namespace some task is
    in. Runs end before the counter runs out. *)
Record Sys := mkSys { users : UserNamespaces; next_id : Z }.

Inductive ustep : Sys → Sys → Prop :=
| u_create u n n' id p cuid cgid u' :
    n < id ≤ n' → n' < U32 → NsChain.known (table u) p → create u id p cuid cgid = inr u' →
    ustep (mkSys u n) (mkSys u' n')
| u_skip u n n' : n ≤ n' < U32 → ustep (mkSys u n) (mkSys u n')
| u_owner u n ns user u' : set_owner u ns user = inr u' → ustep (mkSys u n) (mkSys u' n)
| u_setgroups u n ns text u' : write_setgroups u ns text = inr u' → ustep (mkSys u n) (mkSys u' n)
| u_map u n ns k text priv u' : write_map u ns k text priv = inr u' → ustep (mkSys u n) (mkSys u' n)
| u_gc u n in_use : ustep (mkSys u n) (mkSys (collect_garbage u in_use) n).

Definition start : Sys := mkSys users_default 0.

Record user_inv (s : Sys) : Prop := mkUserInv {
  ui_ordered : NsChain.ordered parent (table (users s));
  ui_closed : NsChain.closed parent (table (users s));
  ui_next : 0 ≤ next_id s ∧ ∀ ns, is_Some (table (users s) !! ns) → ns ≤ next_id s;
  ui_depth : ∀ ns, Z.of_nat (length (chain (users s) ns)) < MAX_DEPTH;
  ui_maps : ∀ ns e k es, table (users s) !! ns = Some e → map_of k e = Some es → map_ok es
}.

Lemma parse_unsigned_range hi s z : parse_unsigned hi s = Some z → 0 ≤ z < hi.
Proof.
  unfold parse_unsigned. destruct s as [|c r]; [done|]. destruct (number _); [|done].
  cbn [mbind option_bind]. unfold within. case_match; [|done]. intros [= <-]. lia.
Qed.

(** What a line of a map says. *)
Record line_ok (e : Extent) : Prop := mkLineOk {
  lo_in : 0 ≤ inside e < U32;
  lo_out : 0 ≤ outside e < U32;
  lo_count : 1 ≤ count e < U32;
  lo_end : inside e + (count e - 1) < U32
}.

Lemma parse_extent_ok l e : parse_extent l = Some e → line_ok e.
Proof.
  unfold parse_extent. destruct (split_whitespace l) as [|a [|b [|c [|]]]]; try done.
  destruct (parse_u32 a) as [i|] eqn:Ea; [|done]. destruct (parse_u32 b) as [o|] eqn:Eb; [|done].
  destruct (parse_u32 c) as [n|] eqn:Ec; [|done]. cbn [mbind option_bind].
  apply parse_unsigned_range in Ea, Eb, Ec. repeat case_match; try done. intros [= <-].
  split; simpl; lia.
Qed.

Lemma parse_extents_ok text es :
  parse_extents text = inr es →
  Forall line_ok es ∧ any_clash [] es = false ∧ 1 ≤ Z.of_nat (length es) ≤ MAX_EXTENTS.
Proof.
  unfold parse_extents. destruct (mapM _ _) as [es'|] eqn:E; [|done]. case_match eqn:E1; [done|].
  case_match; [done|]. intros [= <-]. split; [|split; [done|lia]].
  apply mapM_Some_1 in E. eapply Forall2_Forall_r; [exact E|]. apply Forall_forall.
  intros l _ e He. by eapply parse_extent_ok.
Qed.

Lemma check_extents_ok u p k es :
  check_extents u p k es = None →
  Forall (λ e, outside e + (count e - 1) < U32 ∧ is_Some (to_global u p k (outside e))) es.
Proof.
  induction es as [|e es IH]; simpl; intros H; [done|]. repeat case_match; try done.
  constructor; [|by apply IH]. split; [lia|]. unfold is_mapped in *.
  by destruct (bool_decide_reflect (is_Some (to_global u p k (outside e)))).
Qed.

Lemma write_map_inv u ns k text priv u' :
  write_map u ns k text priv = inr u' →
  ∃ e es, table u !! ns = Some e ∧ map_of k e = None ∧ parse_extents text = inr es ∧
    u' = with_entry u ns (put_map k (Some es) e) ∧ map_ok es ∧
    Forall (λ x, is_Some (to_global u (parent e) k (outside x))) es ∧
    (priv = false → (∃ x, es = [x] ∧ count x = 1 ∧ outside x = creator_of k e) ∧
                    (k = Gid → setgroups_denied e = true)).
Proof.
  unfold write_map. destruct (parse_extents text) as [|es] eqn:Ep; [done|].
  destruct (table u !! ns) as [e|]; [|done]. destruct (map_of k e) eqn:Em; [done|].
  destruct (negb priv && _) eqn:Eg; [done|]. destruct (check_extents _ _ _ _) eqn:Ec; [done|].
  intros [= <-]. apply parse_extents_ok in Ep as Hp. destruct Hp as (Hl & Hc & _).
  apply check_extents_ok in Ec. exists e, es. split; [done|]. split; [done|]. split; [done|]. split; [done|].
  split; [split; [|by apply any_clash_apart]|].
  - apply Forall_forall. intros x Hx. rewrite Forall_forall in Hl, Ec.
    destruct (Hl x Hx), (Ec x Hx) as [? _]. split; lia.
  - split; [eapply Forall_impl; [exact Ec|]; by intros x [_ ?]|].
    intros ->. simpl in Eg. apply negb_false_iff, andb_true_iff in Eg as [E1 E2]. split.
    + unfold only_own in E1. destruct es as [|x [|]]; try done. exists x. split; [done|]. lia.
    + intros ->. rewrite bool_decide_eq_false_2 in E2 by done. done.
Qed.

(** Changing an entry without its parent keeps the shape of the table. *)
Lemma with_entry_shape u ns e e' :
  table u !! ns = Some e → parent e' = parent e →
  NsChain.same_shape parent (table u) (table (with_entry u ns e')).
Proof.
  intros He Hp id. simpl. destruct (decide (id = ns)) as [->|Hne].
  - rewrite lookup_insert_eq, He. simpl. by f_equal.
  - by rewrite lookup_insert_ne.
Qed.

Lemma chain_unknown u ns : NsChain.ordered parent (table u) → table u !! ns = None → chain u ns = [].
Proof. intros Ho H. unfold chain. by rewrite (chain_eq (par:=parent)), H. Qed.

Lemma chain_cons u ns e :
  NsChain.ordered parent (table u) → table u !! ns = Some e → chain u ns = ns :: chain u (parent e).
Proof. intros Ho H. unfold chain. by rewrite (chain_eq (par:=parent)), H. Qed.

Lemma shape_chain u u' :
  NsChain.same_shape parent (table u) (table u') →
  NsChain.ordered parent (table u) → NsChain.closed parent (table u) →
  NsChain.ordered parent (table u') ∧ NsChain.closed parent (table u') ∧ ∀ ns, chain u' ns = chain u ns.
Proof.
  intros H Ho Hc. destruct (same_shape_ok _ _ H Ho Hc) as (Ho' & Hc' & Hk).
  split; [done|split; [done|]]. intros ns. destruct (table u' !! ns) as [e|] eqn:E.
  - apply Hk. right. eauto.
  - rewrite !chain_unknown; try done. pose proof (H ns) as X. rewrite E in X. by destruct (table u !! ns).
Qed.

Lemma inv_entry u n ns e e' :
  user_inv (mkSys u n) → table u !! ns = Some e → parent e' = parent e →
  (∀ k es, map_of k e' = Some es → map_ok es) → user_inv (mkSys (with_entry u ns e') n).
Proof.
  intros [Ho Hc [Hn0 Hn] Hd Hm] He Hp Hk. cbn [users next_id] in *.
  destruct (shape_chain u (with_entry u ns e')) as (Ho' & Hc' & Hch); try done; [by eapply with_entry_shape|].
  split; cbn [users next_id]; try done.
  - split; [done|]. intros id [x Hx]. simpl in Hx. apply lookup_insert_Some in Hx as [[<- _]|[_ Hx]]; apply Hn; eauto.
  - intros id. by rewrite Hch.
  - intros id x k es Hx Hes. simpl in Hx. apply lookup_insert_Some in Hx as [[<- <-]|[_ Hx]]; eauto.
Qed.

Lemma create_user_inv u n n' id p cuid cgid u' :
  user_inv (mkSys u n) → n < id ≤ n' → NsChain.known (table u) p → create u id p cuid cgid = inr u' →
  user_inv (mkSys u' n').
Proof.
  intros [Ho Hc [Hn0 Hn] Hd Hm] Hid Hp H. cbn [users next_id] in *. unfold create in H. case_match; [done|].
  injection H as <-. set (e := mkUserNs p None None _ cuid cgid).
  assert (table u !! id = None) as Hfresh.
  { destruct (table u !! id) eqn:E; [|done]. pose proof (Hn id ltac:(by rewrite E)). lia. }
  assert (0 ≤ p ≤ n) as Hpn.
  { destruct Hp as [->|Hp]; [done|]. split; [|by apply Hn]. destruct Hp as [x Hx]. destruct (Ho _ _ Hx). lia. }
  assert (NsChain.ordered parent (<[id := e]> (table u))) as Ho'.
  { intros ns x Hx. apply lookup_insert_Some in Hx as [[<- <-]|[_ Hx]]; [simpl; lia|by apply Ho]. }
  assert (∀ ns, ns ≠ id → chain (mkUsers (<[id := e]> (table u)) (owners u)) ns = chain u ns) as Hch.
  { intros ns Hne. destruct (table u !! ns) as [x|] eqn:Ex.
    - unfold chain. cbn [table]. symmetry. apply chain_agree; try done; [|by right; rewrite Ex].
      intros id' y Hy. rewrite lookup_insert_ne; [by rewrite Hy|]. intros <-. congruence.
    - rewrite !chain_unknown; try done. cbn [table]. by rewrite lookup_insert_ne. }
  split; cbn [users next_id table]; try done.
  - intros ns x Hx. apply lookup_insert_Some in Hx as [[<- <-]|[Hne Hx]].
    + destruct Hp as [?|[y Hy]]; [by left|right]. exists y. rewrite lookup_insert_ne; [done|]. simpl. lia.
    + destruct (Hc _ _ Hx) as [?|[y Hy]]; [by left|right]. exists y. rewrite lookup_insert_ne; [done|].
      intros E. rewrite E in Hfresh. congruence.
  - split; [lia|]. intros ns [x Hx]. apply lookup_insert_Some in Hx as [[<- _]|[_ Hx]]; [lia|].
    pose proof (Hn ns ltac:(eauto)). lia.
  - intros ns. destruct (decide (ns = id)) as [->|Hne]; [|by rewrite Hch].
    rewrite (chain_cons _ _ e); [|done|apply lookup_insert_eq]. simpl. rewrite Hch by lia. lia.
  - intros ns x k es Hx Hes. apply lookup_insert_Some in Hx as [[<- <-]|[_ Hx]]; [by destruct k|eauto].
Qed.

Lemma gc_table u in_use ns e :
  table (collect_garbage u in_use) !! ns = Some e ↔
  table u !! ns = Some e ∧ (ns ∈ in_use ∨ ∃ c x, table u !! c = Some x ∧ parent x = ns).
Proof.
  unfold collect_garbage. cbn [table]. rewrite map_lookup_filter_Some. simpl.
  rewrite list_elem_of_fmap. split; intros [H1 H2]; (split; [done|]); destruct H2 as [H2|H2]; try (by left); right.
  - destruct H2 as ([c x] & -> & H2). apply elem_of_map_to_list in H2. eauto.
  - destruct H2 as (c & x & H2 & <-). exists (c, x). split; [done|]. by apply elem_of_map_to_list.
Qed.

Lemma gc_inv u n in_use : user_inv (mkSys u n) → user_inv (mkSys (collect_garbage u in_use) n).
Proof.
  intros [Ho Hc [Hn0 Hn] Hd Hm]. cbn [users next_id] in *. set (u' := collect_garbage u in_use).
  assert (∀ ns e, table u' !! ns = Some e → table u !! ns = Some e) as Hsub
    by (intros ns e H; by apply gc_table in H as [? _]).
  assert (NsChain.ordered parent (table u')) as Ho' by (intros ns e H; eauto).
  assert (NsChain.closed parent (table u')) as Hc'.
  { intros ns e H. apply Hsub in H. destruct (Hc _ _ H) as [?|[x Hx]]; [by left|right].
    exists x. apply gc_table. split; [done|]. right. by exists ns, e. }
  split; cbn [users next_id]; try done.
  - split; [done|]. intros ns [x Hx]. apply Hn. eauto.
  - intros ns. destruct (table u' !! ns) as [e|] eqn:E; [|by rewrite chain_unknown].
    replace (chain u' ns) with (chain u ns); [done|]. symmetry. apply chain_agree; try done; [|by right; rewrite E].
    intros id x Hx. by rewrite (Hsub _ _ Hx).
  - intros ns e k es H. apply Hsub in H. eauto.
Qed.

Lemma put_map_spec k k' m e :
  parent (put_map k m e) = parent e ∧ setgroups_denied (put_map k m e) = setgroups_denied e ∧
  creator_of k' (put_map k m e) = creator_of k' e ∧
  map_of k' (put_map k m e) = if decide (k' = k) then m else map_of k' e.
Proof. destruct k, k'; done. Qed.

Lemma write_setgroups_inv u ns text u' :
  write_setgroups u ns text = inr u' →
  u' = u ∨ ∃ e, table u !! ns = Some e ∧ u' = with_entry u ns (deny_setgroups e).
Proof.
  unfold write_setgroups. destruct (table u !! ns) as [e|] eqn:E; [|done].
  repeat case_match; intros [= <-]; eauto.
Qed.

Lemma ustep_inv s s' : ustep s s' → user_inv s → user_inv s'.
Proof.
  intros H Hi. destruct H as [u n n' id p cuid cgid u' Hid Hu Hp Hc|u n n' Hu|u n ns user u' H|u n ns text u' H|u n ns k text priv u' H|u n in_use].
  - by eapply create_user_inv.
  - destruct Hi as [Ho Hc [Hn0 Hn] Hd Hm]. split; try done. simpl in *. split; [lia|]. intros ns Hs.
    pose proof (Hn ns Hs). lia.
  - unfold set_owner in H. case_match; [done|]. injection H as <-. by destruct Hi.
  - apply write_setgroups_inv in H as [->|(e & He & ->)]; [done|].
    eapply inv_entry; [done|done|done|]. intros k es Hk. eapply (ui_maps _ Hi ns e k); [done|]. by destruct k.
  - apply write_map_inv in H as (e & es & He & _ & _ & -> & Hes & _).
    destruct (put_map_spec k k (Some es) e) as (Hp & _).
    eapply inv_entry; [done|done|done|]. intros k' es' Hk.
    destruct (put_map_spec k k' (Some es) e) as (_ & _ & _ & Hq). rewrite Hq in Hk.
    case_decide; [by injection Hk as <-|]. by eapply (ui_maps _ Hi ns e k').
  - by apply gc_inv.
Qed.

Lemma start_user_inv : user_inv start.
Proof.
  assert (∀ ns, table users_default !! ns = None) as H0 by (intros; apply lookup_empty).
  assert (NsChain.ordered parent (table users_default)) as Ho by (intros ns e H; by rewrite H0 in H).
  split; cbn [users next_id start].
  - done.
  - intros ns e H. by rewrite H0 in H.
  - split; [done|]. intros ns [x H]. by rewrite H0 in H.
  - intros ns. by rewrite chain_unknown.
  - intros ns e k es H. by rewrite H0 in H.
Qed.

Lemma reachable_inv s : rtc ustep start s → user_inv s.
Proof.
  intros H. assert (∀ a b, rtc ustep a b → user_inv a → user_inv b) as P; [|by apply (P start), start_user_inv].
  induction 1; intros Hi; [done|]. eauto using ustep_inv.
Qed.

(** * Translation *)

(** The ids a translation passes through. *)
Fixpoint trail (step : Z → Z → option Z) (levels : list Z) (id : Z) : list Z :=
  match levels with
  | [] => []
  | l :: ls => match step id l with None => [] | Some x => x :: trail step ls x end
  end.

Lemma walk_app step l1 l2 id : walk step (l1 ++ l2) id = walk step l1 id ≫= walk step l2.
Proof. revert id; induction l1 as [|l l1 IH]; intros id; simpl; [done|]. destruct (step id l); [apply IH|done]. Qed.

(** Steps that undo each other make walks that undo each other. *)
Lemma walk_back f g levels : ∀ id r,
  (∀ id l x, f id l = Some x → x ≠ TOP → g x l = Some id) →
  walk f levels id = Some r → TOP ∉ trail f levels id → walk g (rev levels) r = Some id.
Proof.
  induction levels as [|l ls IH]; intros id r Hfg H Ht; simpl in *; [congruence|].
  destruct (f id l) as [x|] eqn:E; [|done]. cbn [mbind option_bind] in H.
  apply not_elem_of_cons in Ht as [Hx Ht]. rewrite walk_app, (IH x r) by done. cbn [mbind option_bind walk].
  by rewrite (Hfg id l x).
Qed.

Lemma up_down s k id l x :
  user_inv s → up (users s) k id l = Some x → x ≠ TOP → down (users s) k x l = Some id.
Proof.
  intros Hi. unfold up, down, id_map. destruct (table (users s) !! l) as [e|] eqn:E; [|done].
  cbn [fmap option_fmap option_map mbind option_bind]. destruct (map_of k e) as [es|] eqn:Em; [|done].
  cbn [to_outside to_inside mbind option_bind]. intros H Hx.
  by destruct (level_flip inside outside es id x (or_introl (conj eq_refl eq_refl)) (ui_maps _ Hi _ _ _ _ E Em) Hx H).
Qed.

Lemma down_up s k id l x :
  user_inv s → down (users s) k id l = Some x → x ≠ TOP → up (users s) k x l = Some id.
Proof.
  intros Hi. unfold up, down, id_map. destruct (table (users s) !! l) as [e|] eqn:E; [|done].
  cbn [fmap option_fmap option_map mbind option_bind]. destruct (map_of k e) as [es|] eqn:Em; [|done].
  cbn [to_outside to_inside mbind option_bind]. intros H Hx.
  by destruct (level_flip outside inside es id x (or_intror (conj eq_refl eq_refl)) (ui_maps _ Hi _ _ _ _ E Em) Hx H).
Qed.

(** C28: In every table of user namespaces reached before ids run out, nesting is at most 31 deep, and ids
    translate back and forth between a namespace and the initial one: an id mapped to a global
    one is what that global one is seen as, and what a global id is seen as, when it is not the
    overflow id, maps to it. The largest id, which overlap checks of maps do not cover, must
    not be met on the way. *)
Theorem id_translation s ns k :
  rtc ustep start s →
  let u := users s in
  (∀ id g, to_global u ns k id = Some g → TOP ∉ trail (up u k) (chain u ns) id →
     seen_from_global u ns k g = id) ∧
  (∀ id g, seen_from_global u ns k g = id → id ≠ OVERFLOW_ID →
     TOP ∉ trail (down u k) (rev (chain u ns)) g → to_global u ns k id = Some g) ∧
  Z.of_nat (length (chain u ns)) < MAX_DEPTH.
Proof.
  intros Hr u. apply reachable_inv in Hr as Hi. split; [|split; [|apply (ui_depth _ Hi)]].
  - intros id g H Ht. unfold seen_from_global, to_global in *.
    rewrite (walk_back (up u k) (down u k) _ id g); [done| |done|done]. intros; by eapply up_down.
  - intros id g H Ho Ht. unfold seen_from_global, to_global in *.
    destruct (walk (down u k) (rev (chain u ns)) g) as [x|] eqn:E; simpl in H; [subst x|congruence].
    rewrite <- (rev_involutive (chain u ns)). eapply (walk_back (down u k)); [|exact E|exact Ht].
    intros; by eapply down_up.
Qed.

(** * Confinement *)

(** How an entry may change: parent and creator never, a map only from none, denial only on. *)
Record evolves (e e' : UserNs) : Prop := mkEvolves {
  ev_parent : parent e' = parent e;
  ev_creator : ∀ k, creator_of k e' = creator_of k e;
  ev_map : ∀ k es, map_of k e = Some es → map_of k e' = Some es;
  ev_deny : setgroups_denied e = true → setgroups_denied e' = true
}.

Lemma evolves_refl e : evolves e e.
Proof. done. Qed.
Lemma evolves_trans a b c : evolves a b → evolves b c → evolves a c.
Proof.
  intros [P1 C1 M1 D1] [P2 C2 M2 D2]. split; eauto; congruence.
Qed.

Lemma entry_evolves u u' ns ns0 e0 e0' e' :
  u' = with_entry u ns0 e0' → table u !! ns0 = Some e0 → evolves e0 e0' → table u' !! ns = Some e' →
  ∃ e, table u !! ns = Some e ∧ evolves e e'.
Proof.
  intros -> H0 He H. simpl in H. apply lookup_insert_Some in H as [[<- <-]|[_ H]]; eauto using evolves_refl.
Qed.

Lemma ustep_evolves s s' ns e' :
  user_inv s → ustep s s' → ns ≤ next_id s → table (users s') !! ns = Some e' →
  (∃ e, table (users s) !! ns = Some e ∧ evolves e e') ∧ next_id s ≤ next_id s'.
Proof.
  intros Hi H Hn He.
  destruct H as [u n n' id p cuid cgid u' Hid Hu Hp Hc|u n n' Hu|u n i user u' H|u n i text u' H|u n i k text priv u' H|u n in_use];
    cbn [users next_id] in *.
  - split; [|lia]. unfold create in Hc. case_match; [done|]. injection Hc as <-. cbn [table] in He.
    apply lookup_insert_Some in He as [[<- _]|[_ He]]; [lia|]. eauto using evolves_refl.
  - split; [|lia]. eauto using evolves_refl.
  - split; [|lia]. unfold set_owner in H. case_match; [done|]. injection H as <-. eauto using evolves_refl.
  - split; [|lia]. apply write_setgroups_inv in H as [->|(e & Ei & Eu)]; [eauto using evolves_refl|].
    eapply entry_evolves; [exact Eu|exact Ei| |exact He]. split; try done; by intros [].
  - split; [|lia]. apply write_map_inv in H as (e & es & Ei & Em & _ & Eu & _).
    eapply entry_evolves; [exact Eu|exact Ei| |exact He].
    split; [by destruct k|by intros []; destruct k| |by destruct k].
    intros k' es' Hk. destruct (put_map_spec k k' (Some es) e) as (_ & _ & _ & ->).
    case_decide; [subst; congruence|done].
  - split; [|lia]. apply gc_table in He as [He _]. eauto using evolves_refl.
Qed.

Lemma run_evolves s s' ns e' :
  rtc ustep s s' → user_inv s → ns ≤ next_id s → table (users s') !! ns = Some e' →
  ∃ e, table (users s) !! ns = Some e ∧ evolves e e'.
Proof.
  intros H. revert e'. induction H as [s|s t s' Hst Hts IH]; intros e' Hi Hn He; [eauto using evolves_refl|].
  assert (next_id s ≤ next_id t) as Hm by (destruct Hst; simpl; lia).
  destruct (IH e') as (e1 & E1 & V1); [by eapply ustep_inv|lia|done|].
  destruct (ustep_evolves s t ns e1) as [(e2 & E2 & V2) _]; try done. eauto using evolves_trans.
Qed.

(** A namespace with one extent of one id. *)
Lemma single_up u k ns e x id g :
  table u !! ns = Some e → map_of k e = Some [x] → ext_ok x → count x = 1 →
  up u k id ns = Some g → g = outside x.
Proof.
  intros E Em [] Hc. unfold up, id_map. rewrite E. cbn [fmap option_fmap option_map mbind option_bind].
  rewrite Em. cbn [to_outside mbind option_bind find_extent]. destruct (extent_at _ _ _ _) eqn:Ex; [|done].
  intros [= <-]. apply extent_at_Some in Ex as [Hv ->]. unfold covers in Hv. unfold wrap.
  replace (outside x + (id - inside x)) with (outside x) by lia. apply Z.mod_small. lia.
Qed.

Lemma refused_below s ns d :
  user_inv s → denied_at (users s) ns = true → ns ∈ chain (users s) d → setgroups_refused (users s) d = true.
Proof.
  intros Hi Hd H. unfold setgroups_refused. apply existsb_exists. exists ns. split; [|done].
  by apply list_elem_of_In.
Qed.

(** C16: A map written without privilege in the parent gives its namespace, for as long as that
    exists and whatever is done afterwards (ids not having run out), no identity but its creator's: every id translates
    to what the creator's id means. A group map so written also leaves [setgroups] refused for
    good, in the namespace and in every one nested in it. *)
Theorem unprivileged_map_confined u n ns k text u' s e :
  rtc ustep start (mkSys u n) → write_map u ns k text false = inr u' →
  rtc ustep (mkSys u' n) s → table (users s) !! ns = Some e →
  (∃ e0, table u !! ns = Some e0 ∧ parent e = parent e0 ∧ creator_of k e = creator_of k e0) ∧
  (∀ id g, to_global (users s) ns k id = Some g →
     to_global (users s) (parent e) k (creator_of k e) = Some g) ∧
  (k = Gid → ∀ d, ns ∈ chain (users s) d → setgroups_refused (users s) d = true).
Proof.
  intros Hr Hw Hs He. apply reachable_inv in Hr as Hi.
  assert (user_inv (mkSys u' n)) as Hi' by (eapply ustep_inv; [by eapply u_map|done]).
  assert (user_inv s) as His by (clear -Hs Hi'; induction Hs; eauto using ustep_inv).
  apply write_map_inv in Hw as (e0 & es & E0 & _ & _ & -> & Hok & _ & Hpriv).
  destruct (Hpriv eq_refl) as [(x & -> & Hc & Ho) Hden].
  destruct (put_map_spec k k (Some [x]) e0) as (P1 & P2 & P3 & P4). rewrite decide_True in P4 by done.
  destruct (run_evolves _ s ns e Hs Hi') as (e1 & E1 & [V1 V2 V3 V4]); [|done|].
  { apply (ui_next _ Hi). eauto. }
  cbn [users with_entry table] in E1. rewrite lookup_insert_eq in E1. injection E1 as <-.
  assert (creator_of k e = creator_of k e0) as Hcr by (by rewrite V2, P3).
  split; [exists e0; by rewrite V1, P1|]. split.
  - intros id g H. unfold to_global in *. rewrite (chain_cons _ _ e) in H; [|apply (ui_ordered _ His)|done].
    cbn [walk] in H. destruct (up _ _ _ _) as [y|] eqn:Ey; [|done]. cbn [mbind option_bind] in H.
    destruct Hok as [Hok _]. apply Forall_cons in Hok as [Hx _].
    assert (y = outside x) as -> by (eapply single_up; eauto). by rewrite Hcr, <- Ho.
  - intros -> d Hd. eapply refused_below; [done| |exact Hd]. unfold denied_at. rewrite He. apply V4.
    rewrite P2. by apply Hden.
Qed.

(** * Text *)

Lemma words_padded n w s :
  is_word w → split_whitespace (pad_left n w ++ SP :: s) = w :: split_whitespace s.
Proof. intros Hw. unfold pad_left. rewrite <- app_assoc, words_spaces. by apply words_cons. Qed.
Lemma words_padded_end n w : is_word w → split_whitespace (pad_left n w) = [w].
Proof. intros Hw. unfold pad_left. rewrite words_spaces. by apply words_one. Qed.

Definition extent_line (e : Extent) : list Z :=
  pad_left 10 (show (inside e)) ++ SP :: pad_left 10 (show (outside e)) ++ SP ::
  pad_left 10 (show (count e)).

Lemma render_extent_line e : render_extent e = extent_line e ++ [NL].
Proof.
  unfold render_extent, extent_line. rewrite <- app_assoc. simpl. do 2 f_equal. by rewrite <- app_assoc.
Qed.

Lemma parse_extent_line e : line_ok e → parse_extent (extent_line e) = Some e.
Proof.
  intros [H1 H2 H3 H4]. unfold parse_extent, extent_line.
  rewrite !words_padded, words_padded_end by apply show_word. unfold parse_u32.
  rewrite !parse_unsigned_show by lia. cbn [mbind option_bind].
  repeat case_match; try lia. by destruct e.
Qed.

(** Numbers, spaces and the like: characters of a line that is not broken. *)
Definition inline (c : Z) : Prop := c ≠ NL ∧ c ≠ CR.

Lemma inline_line l : Forall inline l → is_line l.
Proof.
  intros H. split.
  - intros Hn. rewrite Forall_forall in H. by destruct (H _ Hn).
  - intros Hl. apply last_Some in Hl as [l' ->]. apply Forall_app in H as [_ H].
    apply Forall_cons in H as [[_ H] _]. done.
Qed.

Lemma inline_word w : is_word w → Forall inline w.
Proof. intros [_ H]. eapply Forall_impl; [exact H|]. intros c Hc. split; intros ->; done. Qed.

Lemma inline_pad n w : is_word w → Forall inline (pad_left n w).
Proof.
  intros H. apply Forall_app. split; [|by apply inline_word]. apply Forall_replicate. by split.
Qed.

Lemma content_lines_mjoin ls :
  Forall (λ l, is_line l ∧ split_whitespace l ≠ []) ls → content_lines (mjoin ((λ l, l ++ [NL]) <$> ls)) = ls.
Proof.
  intros H. unfold content_lines. rewrite lines_mjoin.
  2: { eapply Forall_impl; [exact H|]. by intros l [? _]. }
  induction H as [|l ls [_ Hl] _ IH]; [done|]. rewrite filter_cons_True; [by f_equal|].
  destruct (split_whitespace l) as [|w ws] eqn:E; [done|]. assert (w ∈ split_whitespace l) as Hw
    by (rewrite E; apply elem_of_cons; by left).
  eapply trim_word_nonempty; [|exact Hw]. unfold split_whitespace in Hw. apply list_elem_of_filter in Hw as [Hne Hw].
  split; [done|]. clear -Hw. revert w Hw. induction l as [|c l IH]; intros w Hw; simpl in Hw.
  - apply list_elem_of_singleton in Hw as ->. done.
  - destruct (is_whitespace c) eqn:Ec.
    + apply elem_of_cons in Hw as [->|Hw]; [done|by apply IH].
    + destruct (split_ws l) as [|v vs] eqn:Es.
      * apply list_elem_of_singleton in Hw as ->. by constructor.
      * apply elem_of_cons in Hw as [->|Hw]; [|apply IH; apply elem_of_cons; by right].
        constructor; [done|]. apply IH, elem_of_cons. by left.
Qed.

Lemma render_map_lines es : render_map (Some es) = mjoin ((λ l, l ++ [NL]) <$> (extent_line <$> es)).
Proof. unfold render_map. simpl. f_equal. rewrite <- list_fmap_compose. apply list_fmap_ext. intros. apply render_extent_line. Qed.

Lemma extent_line_content e : is_line (extent_line e) ∧ split_whitespace (extent_line e) ≠ [].
Proof.
  split; [|unfold extent_line; by rewrite words_padded by apply show_word].
  assert (inline SP) by by split.
  apply inline_line. unfold extent_line.
  repeat first [done|apply inline_pad, show_word|apply Forall_app; split|apply Forall_cons; split].
Qed.

Lemma parse_render_map es :
  Forall line_ok es → any_clash [] es = false → 1 ≤ Z.of_nat (length es) ≤ MAX_EXTENTS →
  parse_extents (render_map (Some es)) = inr es.
Proof.
  intros Hl Hc Hn. unfold parse_extents. rewrite render_map_lines, content_lines_mjoin.
  2: { apply Forall_fmap, Forall_true. intros e. apply extent_line_content. }
  assert (mapM parse_extent (extent_line <$> es) = Some es) as ->.
  { apply mapM_Some_2. clear -Hl. induction Hl; simpl; constructor; [by apply parse_extent_line|done]. }
  rewrite Hc. case_match; [lia|done].
Qed.

(** Offsets a write can set: whole seconds and the rest each fit. *)
Definition settable (z : Z) : Prop := - 2 ^ 63 ≤ z / NSEC * NSEC ∧ - 2 ^ 63 ≤ z < 2 ^ 63.

Lemma settable_sum secs nanos :
  0 ≤ nanos < NSEC → in_i64 (secs * NSEC) = true → in_i64 (secs * NSEC + nanos) = true →
  settable (secs * NSEC + nanos).
Proof.
  intros Hn H1 H2. unfold settable. rewrite Z.div_add_l by done. rewrite (Z.div_small nanos) by done.
  unfold in_i64 in *. rewrite Z.add_0_r. lia.
Qed.

Lemma parse_offset_settable l o o' :
  settable (monotonic o) → settable (boottime o) → parse_offset_line l o = inr o' →
  settable (monotonic o') ∧ settable (boottime o').
Proof.
  intros H1 H2. unfold parse_offset_line. destruct (split_whitespace l) as [|clock [|a [|b rest]]]; try done.
  destruct (parse_i64 a) as [secs|]; [|done]. destruct (parse_i64 b) as [nanos|]; [|done].
  destruct (_ || _) eqn:E1; [done|]. destruct (negb _ || negb _) eqn:E2; [done|].
  apply orb_false_iff in E1 as [E1 _]. apply orb_false_iff in E2 as [E2 E3].
  apply negb_false_iff in E2, E3.
  assert (settable (secs * NSEC + nanos)) as Hs by (apply settable_sum; [lia|done|done]).
  unfold set_clock. repeat case_decide; intros [= <-]; done.
Qed.

Lemma parse_offsets_settable ls : ∀ o o',
  settable (monotonic o) → settable (boottime o) → parse_offset_lines ls o = inr o' →
  settable (monotonic o') ∧ settable (boottime o').
Proof.
  induction ls as [|l ls IH]; intros o o' H1 H2 H; simpl in H; [by injection H as <-|].
  destruct (parse_offset_line l o) as [|o1] eqn:E; [done|].
  destruct (parse_offset_settable l o o1 H1 H2 E). by eapply IH.
Qed.

Definition offset_line (clock : list Z) (z : Z) : list Z :=
  clock ++ SP :: show (z / NSEC) ++ SP :: show (z mod NSEC).

Lemma parse_offset_shown clock z o :
  is_word clock → settable z → parse_offset_line (offset_line clock z) o = set_clock clock z o.
Proof.
  intros Hc [H1 H2]. unfold parse_offset_line, offset_line.
  rewrite words_cons by done. rewrite words_cons by (try apply show_word; done).
  rewrite words_one by apply show_word.
  pose proof (Z.mod_pos_bound z NSEC ltac:(done)) as Hm. pose proof (Z.div_mod z NSEC ltac:(done)) as Hd.
  unfold parse_i64. unfold NSEC in *. rewrite !parse_signed_show by lia.
  assert (z / 1000000000 * 1000000000 + z mod 1000000000 = z) as -> by lia.
  unfold in_i64. do 2 (case_match; [exfalso; lia|]). done.
Qed.

Lemma offset_line_content clock z :
  is_word clock → is_line (offset_line clock z) ∧ split_whitespace (offset_line clock z) ≠ [].
Proof.
  intros Hc. split; [|unfold offset_line; by rewrite words_cons].
  assert (inline SP) by by split. apply inline_line. unfold offset_line.
  repeat first [done|apply inline_word; done|apply inline_word, show_word|apply Forall_app; split|apply Forall_cons; split].
Qed.

Lemma render_offset_lines o :
  render_time_offsets o =
  mjoin ((λ l, l ++ [NL]) <$> [offset_line MONOTONIC (monotonic o); offset_line BOOTTIME (boottime o)]).
Proof.
  unfold render_time_offsets, offset_line. cbn [fmap list_fmap mjoin list_join].
  repeat (rewrite <- !app_assoc; simpl). done.
Qed.

Lemma clock_words : is_word MONOTONIC ∧ is_word BOOTTIME.
Proof. split; (split; [done|repeat constructor]). Qed.

Lemma parse_render_offsets o o1 :
  settable (monotonic o) → settable (boottime o) → parse_time_offsets (render_time_offsets o) o1 = inr o.
Proof.
  intros H1 H2. destruct clock_words as [Hm Hb]. unfold parse_time_offsets.
  rewrite render_offset_lines, content_lines_mjoin.
  2: { repeat constructor; by apply offset_line_content. }
  cbn [parse_offset_lines]. rewrite parse_offset_shown by done. unfold set_clock at 1.
  rewrite decide_True by (by left). rewrite parse_offset_shown by done. unfold set_clock.
  rewrite decide_False, decide_True; [by destruct o|by left|]. by intros [?|?].
Qed.

(** The control files read back what they show: the map that a write was parsed into is
    printed as text that parses to the same map, and the clock offsets of a time namespace that
    starts at zero are, after any number of writes, printed as text that sets the same offsets. *)
Theorem control_text_roundtrip :
  (∀ text es, parse_extents text = inr es → parse_extents (render_map (Some es)) = inr es) ∧
  (∀ texts o o1,
     foldl (λ r text, match r with inl e => inl e | inr o => parse_time_offsets text o end)
       (inr no_offsets) texts = inr o →
     parse_time_offsets (render_time_offsets o) o1 = inr o).
Proof.
  split.
  - intros text es H. apply parse_extents_ok in H as (Hl & Hc & Hn). by apply parse_render_map.
  - intros texts o o1.
    assert (∀ r : Z + TimeOffsets, (∀ o, r = inr o → settable (monotonic o) ∧ settable (boottime o)) → 
      foldl (λ r text, match r with inl e => inl e | inr o => parse_time_offsets text o end) r texts = inr o →
      settable (monotonic o) ∧ settable (boottime o)) as P.
    { induction texts as [|t texts IH]; intros r Hr H; simpl in H; [by apply Hr|].
      eapply IH; [|exact H]. intros o2 E. destruct r as [|o3]; [done|].
      destruct (Hr o3 eq_refl). by eapply parse_offsets_settable. }
    intros H. destruct (P (inr no_offsets)) as [H1 H2]; [|done|by apply parse_render_offsets].
    intros o2 [= <-]. split; by vm_compute.
Qed.

(** * Worked examples *)

Definition result_of (r : Z + UserNamespaces) : UserNamespaces := match r with inr u => u | inl _ => users_default end.
Definition succeeds (r : Z + UserNamespaces) : bool := match r with inr _ => true | inl _ => false end.
Lemma result_eq r : succeeds r = true → r = inr (result_of r).
Proof. by destruct r. Qed.

(** A container of 65536 ids below the initial namespace, in it a namespace made by user 5. *)
Definition demo1 : UserNamespaces := result_of (create users_default 1 0 0 0).
Definition demo2 : UserNamespaces := result_of (write_map demo1 1 Gid (txt "0 100000 65536") true).
Definition demo3 : UserNamespaces := result_of (create demo2 2 1 5 5).
Definition demo4 : UserNamespaces := result_of (write_setgroups demo3 2 (txt " deny")).
Definition demo5 : UserNamespaces := result_of (write_map demo4 2 Gid (txt "0 5 1") false).

Lemma demo4_reachable : rtc ustep start (mkSys demo4 2).
Proof.
  eapply rtc_l; [eapply (u_create users_default 0 1 1 0 0 0 demo1); [done|done|by left|apply result_eq; by vm_compute]|].
  eapply rtc_l; [eapply (u_map demo1 1 1 Gid _ true demo2); apply result_eq; by vm_compute|].
  eapply rtc_l; [eapply (u_create demo2 1 2 2 1 5 5 demo3); [done|done|right; eexists; by vm_compute|apply result_eq; by vm_compute]|].
  eapply rtc_l; [eapply (u_setgroups demo3 2 2 _ demo4); apply result_eq; by vm_compute|].
  apply rtc_refl.
Qed.
Lemma demo5_written : write_map demo4 2 Gid (txt "0 5 1") false = inr demo5.
Proof. apply result_eq. by vm_compute. Qed.
Lemma demo5_reachable : rtc ustep start (mkSys demo5 2).
Proof. eapply rtc_r; [exact demo4_reachable|]. eapply u_map. exact demo5_written. Qed.

Lemma id_translation_witness :
  to_global demo5 2 Gid 0 = Some 100005 ∧ seen_from_global demo5 2 Gid 100005 = 0.
Proof.
  split; [by vm_compute|].
  apply (id_translation (mkSys demo5 2) 2 Gid demo5_reachable); [by vm_compute|].
  apply (bool_decide_unpack _). by vm_compute.
Defined.

Lemma unprivileged_map_confined_witness :
  ∃ e, table demo5 !! 2 = Some e ∧ creator_of Gid e = 5 ∧
    to_global demo5 2 Gid 0 = Some 100005 ∧ to_global demo5 (parent e) Gid 5 = Some 100005 ∧
    setgroups_refused demo5 2 = true.
Proof.
  eexists. split; [by vm_compute|]. split; [done|]. split; [by vm_compute|].
  pose proof (unprivileged_map_confined demo4 2 2 Gid _ demo5 (mkSys demo5 2)
    (mkUserNs 1 None (Some [mkExtent 0 5 1]) true 5 5) demo4_reachable demo5_written (rtc_refl _ _)
    ltac:(by vm_compute)) as (_ & H1 & H2).
  split; [apply (H1 0); by vm_compute|]. apply H2; [done|]. apply (bool_decide_unpack _). by vm_compute.
Defined.

Lemma control_text_roundtrip_witness :
  parse_extents (txt "0 1000 1") = inr [mkExtent 0 1000 1] ∧
  parse_extents (render_map (Some [mkExtent 0 1000 1])) = inr [mkExtent 0 1000 1].
Proof.
  split; [by vm_compute|].
  destruct control_text_roundtrip as [H _]. apply (H (txt "0 1000 1")). by vm_compute.
Defined.

(** The check of what a map names in the parent looks at the first and the last id of an
    extent only: here ids 10 to 19 mean nothing there. *)
Definition holes1 : UserNamespaces :=
  result_of (write_map (result_of (create users_default 1 0 0 0)) 1 Uid (txt "0 0 10
20 20 10") true).
Definition holes2 : UserNamespaces :=
  result_of (write_map (result_of (create holes1 2 1 0 0)) 2 Uid (txt "0 5 20") true).
Lemma map_with_holes :
  succeeds (write_map (result_of (create holes1 2 1 0 0)) 2 Uid (txt "0 5 20") true) = true ∧
  is_mapped holes2 1 Uid 12 = false ∧ up holes2 Uid 7 2 = Some 12 ∧ to_global holes2 2 Uid 7 = None.
Proof. by vm_compute. Qed.

(** The overlap check misses the largest id: two ids of a namespace are one outside. *)
Lemma largest_id_shared :
  parse_extents (txt "0 4294967295 1
1 4294967295 1") = inr [mkExtent 0 TOP 1; mkExtent 1 TOP 1].
Proof. by vm_compute. Qed.
