(* ===== verification/Cgroup.v ===== *)
(** Control groups: the hierarchy ([CgroupTree] of [src/fs/cgroupfs.rs]) with its counts of tasks,
    limits and freezing, the writes to its files, and the moves of tasks between groups
    ([src/kernel/cgroup.rs]). Strings are lists of characters. *)
From S2P Require Import Prelude Abi Path Vfs Text.
From Stdlib Require Import String.
From stdpp Require Import base numbers gmap list sorting.
Local Open Scope Z_scope.

Definition ROOT : Z := 0.
Definition CONTROLLERS : list (list Z) := [txt "pids"].
Definition CORE_FILES : list (list Z * bool) :=
  [(txt "cgroup.controllers", false); (txt "cgroup.events", false); (txt "cgroup.freeze", true); (txt "cgroup.kill", true);
   (txt "cgroup.max.depth", true); (txt "cgroup.max.descendants", true); (txt "cgroup.procs", true); (txt "cgroup.stat", false);
   (txt "cgroup.subtree_control", true); (txt "cgroup.threads", true); (txt "cgroup.type", true); (txt "cpu.stat", false)].
Definition NOT_AT_ROOT : list (list Z) := [txt "cgroup.events"; txt "cgroup.freeze"; txt "cgroup.kill"; txt "cgroup.type"].
Definition PIDS_FILES : list (list Z * bool) := [(txt "pids.current", false); (txt "pids.events", false); (txt "pids.max", true)].
Definition KERNEL_FILES : list (list Z) := [txt "cgroup.procs"; txt "cgroup.threads"; txt "cgroup.kill"; txt "cgroup.freeze"].

(** [Node]. *)
Record CNode := mkCNode {
  c_name : list Z; c_parent : option Z; children : gmap (list Z) Z; pids_below : bool; pids_max : option Z; pids_events : Z;
  max_depth : option Z; max_descendants : option Z; freeze : bool; tasks : Z; live : Z; node_cpu : Z;
  c_uid : Z; c_gid : Z; c_mtime : Z
}.
Definition node_new (now : Z) (name : list Z) (parent : option Z) (uid gid : Z) : CNode :=
  mkCNode name parent ∅ false None 0 None None false 0 0 0 uid gid now.
Definition set_counts (x : CNode) (t l : Z) : CNode :=
  mkCNode (c_name x) (c_parent x) (children x) (pids_below x) (pids_max x) (pids_events x) (max_depth x) (max_descendants x)
    (freeze x) t l (node_cpu x) (c_uid x) (c_gid x) (c_mtime x).
Definition set_cpu (x : CNode) (v : Z) : CNode :=
  mkCNode (c_name x) (c_parent x) (children x) (pids_below x) (pids_max x) (pids_events x) (max_depth x) (max_descendants x)
    (freeze x) (tasks x) (live x) v (c_uid x) (c_gid x) (c_mtime x).
Definition set_children (x : CNode) (m : gmap (list Z) Z) (now : Z) : CNode :=
  mkCNode (c_name x) (c_parent x) m (pids_below x) (pids_max x) (pids_events x) (max_depth x) (max_descendants x)
    (freeze x) (tasks x) (live x) (node_cpu x) (c_uid x) (c_gid x) now.
Definition set_below (x : CNode) (b : bool) : CNode :=
  mkCNode (c_name x) (c_parent x) (children x) b (pids_max x) (pids_events x) (max_depth x) (max_descendants x)
    (freeze x) (tasks x) (live x) (node_cpu x) (c_uid x) (c_gid x) (c_mtime x).
Definition set_pids_max (x : CNode) (v : option Z) : CNode :=
  mkCNode (c_name x) (c_parent x) (children x) (pids_below x) v (pids_events x) (max_depth x) (max_descendants x)
    (freeze x) (tasks x) (live x) (node_cpu x) (c_uid x) (c_gid x) (c_mtime x).
Definition set_events (x : CNode) (v : Z) : CNode :=
  mkCNode (c_name x) (c_parent x) (children x) (pids_below x) (pids_max x) v (max_depth x) (max_descendants x)
    (freeze x) (tasks x) (live x) (node_cpu x) (c_uid x) (c_gid x) (c_mtime x).
Definition set_max_depth (x : CNode) (v : option Z) : CNode :=
  mkCNode (c_name x) (c_parent x) (children x) (pids_below x) (pids_max x) (pids_events x) v (max_descendants x)
    (freeze x) (tasks x) (live x) (node_cpu x) (c_uid x) (c_gid x) (c_mtime x).
Definition set_max_descendants (x : CNode) (v : option Z) : CNode :=
  mkCNode (c_name x) (c_parent x) (children x) (pids_below x) (pids_max x) (pids_events x) (max_depth x) v
    (freeze x) (tasks x) (live x) (node_cpu x) (c_uid x) (c_gid x) (c_mtime x).
Definition set_node_freeze (x : CNode) (b : bool) : CNode :=
  mkCNode (c_name x) (c_parent x) (children x) (pids_below x) (pids_max x) (pids_events x) (max_depth x) (max_descendants x)
    b (tasks x) (live x) (node_cpu x) (c_uid x) (c_gid x) (c_mtime x).
Definition set_node_owner (x : CNode) (u g : Z) : CNode :=
  mkCNode (c_name x) (c_parent x) (children x) (pids_below x) (pids_max x) (pids_events x) (max_depth x) (max_descendants x)
    (freeze x) (tasks x) (live x) (node_cpu x) u g (c_mtime x).

Record Member := mkMember { m_node : Z; m_live : bool }.
(** [CgroupTree]; the [view] a reader was last shown is not part of the model. *)
Record CgroupTree := mkTree { nodes : gmap Z CNode; next_id : Z; members : gmap Z Member; ns_roots : gmap Z Z }.
Definition with_nodes (t : CgroupTree) (ns : gmap Z CNode) : CgroupTree := mkTree ns (next_id t) (members t) (ns_roots t).
Definition with_members (t : CgroupTree) (ms : gmap Z Member) : CgroupTree := mkTree (nodes t) (next_id t) ms (ns_roots t).
Definition update (t : CgroupTree) (n : Z) (f : CNode → CNode) : CgroupTree := with_nodes t (alter f n (nodes t)).
Definition tree_default (now : Z) : CgroupTree := mkTree {[ ROOT := node_new now [] None 0 0 ]} 1 ∅ ∅.

Definition node_of (t : CgroupTree) (tid : Z) : Z := match members t !! tid with Some m => m_node m | None => ROOT end.
Definition exists_ (t : CgroupTree) (node : Z) : bool := bool_decide (is_Some (nodes t !! node)).

(** [chain]. Parents are older than their children, so no cgroup comes twice and their number
    is enough. *)
Definition parent_in (ns : gmap Z CNode) (n : Z) : option Z := ns !! n ≫= c_parent.
Fixpoint chain_up (fuel : nat) (ns : gmap Z CNode) (n : Z) : list Z :=
  n :: match fuel, parent_in ns n with S fuel, Some p => chain_up fuel ns p | _, _ => [] end.
Definition chain_in (ns : gmap Z CNode) (n : Z) : list Z := chain_up (size ns) ns n.
Definition chain (t : CgroupTree) (n : Z) : list Z := chain_in (nodes t) n.
Definition is_within (t : CgroupTree) (inner outer : Z) : bool := bool_decide (outer ∈ chain t inner).
Definition common_ancestor (t : CgroupTree) (a b : Z) : Z :=
  default ROOT (snd <$> list_find (λ n, n ∈ chain t b) (chain t a)).
Definition frozen (t : CgroupTree) (node : Z) : bool :=
  existsb (λ n, match nodes t !! n with Some x => freeze x | None => false end) (chain t node).
Definition owner (t : CgroupTree) (node : Z) : Z * Z := match nodes t !! node with Some n => (c_uid n, c_gid n) | None => (0, 0) end.

Definition values {V} (m : gmap (list Z) V) : list V := omap (λ k, m !! k) (btree_keys m).
Definition has_populated_child (t : CgroupTree) (node : Z) : bool :=
  match nodes t !! node with
  | Some n => existsb (λ c, match nodes t !! c with Some c => 0 <? live c | None => false end) (values (children n))
  | None => false
  end.
Definition has_own_tasks (t : CgroupTree) (node : Z) : bool :=
  existsb (λ m, (m_node m =? node) && m_live m) (map_to_list (members t)).*2.
(** [check_attach]: [Some] its error. *)
Definition check_attach (t : CgroupTree) (node : Z) : option Z :=
  match nodes t !! node with
  | None => Some ENOENT
  | Some n => if negb (node =? ROOT) && pids_below n && has_populated_child t node then Some EBUSY else None
  end.

(** [can_fork]: its error, if any, and the tree with the refusal counted. *)
Fixpoint limits_allow (ns : list Z) (t : CgroupTree) : option Z * CgroupTree :=
  match ns with
  | [] => (None, t)
  | n :: ns =>
    match nodes t !! n with
    | None => (Some ENOENT, t)
    | Some x =>
      if match pids_max x with Some mx => mx <? tasks x + 1 | None => false end
      then (Some EAGAIN, update t n (λ x, set_events x (pids_events x + 1)))
      else limits_allow ns t
    end
  end.
Definition can_fork (t : CgroupTree) (node : Z) (explicit : bool) : option Z * CgroupTree :=
  match (if explicit then check_attach t node else None) with
  | Some e => (Some e, t)
  | None => limits_allow (chain t node) t
  end.

(** [charge]: [u64::saturating_add_signed] on each cgroup of a chain. *)
Definition sat_add_signed (a d : Z) : Z := Z.max 0 (Z.min (U64 - 1) (a + d)).
Definition charge (t : CgroupTree) (ns : list Z) (dt dl : Z) : CgroupTree :=
  foldl (λ t n, update t n (λ x, set_counts x (sat_add_signed (tasks x) dt) (sat_add_signed (live x) dl))) t ns.
Definition attach_new (t : CgroupTree) (tid node : Z) : bool * CgroupTree :=
  let t := charge t (chain t node) 1 1 in
  let t := if node =? ROOT then t else with_members t (<[tid := mkMember node true]> (members t)) in
  (frozen t node, t).
Definition fork (t : CgroupTree) (parent tid : Z) (into : option Z) : (Z + bool) * CgroupTree :=
  let node := default (node_of t parent) into in
  match can_fork t node (bool_decide (is_Some into)) with
  | (Some e, t) => (inl e, t)
  | (None, t) => let '(f, t) := attach_new t tid node in (inr f, t)
  end.

Definition add_cpu (t : CgroupTree) (ns : list Z) (cpu : Z) : CgroupTree :=
  foldl (λ t n, update t n (λ x, set_cpu x (Z.min (U64 - 1) (node_cpu x + cpu)))) t ns.
Definition exit (t : CgroupTree) (tid cpu : Z) : CgroupTree :=
  match members t !! tid with
  | Some (mkMember _ false) => t
  | m =>
    let t' := match m with Some m => with_members t (<[tid := mkMember (m_node m) false]> (members t)) | None => t end in
    let node := match m with Some m => m_node m | None => ROOT end in
    let ns := chain t' node in add_cpu (charge t' ns 0 (-1)) ns cpu
  end.
Definition release (t : CgroupTree) (tid cpu : Z) : CgroupTree :=
  let t := match members t !! tid with Some (mkMember _ true) => exit t tid cpu | _ => t end in
  let node := node_of t tid in
  let t := with_members t (delete tid (members t)) in
  charge t (chain t node) (-1) 0.

(** [migrate]: one task, and all of them. *)
Definition migrate1 (node : Z) (t : CgroupTree) (x : Z * bool) : CgroupTree :=
  let '(tid, alive) := x in
  let from := node_of t tid in
  if from =? node then t
  else
    let lv := alive && match members t !! tid with Some m => m_live m | None => true end in
    let t := charge t (chain t from) (-1) (- Z.b2z lv) in
    let t := charge t (chain t node) 1 (Z.b2z lv) in
    with_members t (if node =? ROOT then delete tid (members t) else <[tid := mkMember node lv]> (members t)).
Definition migrate (t : CgroupTree) (tids : list (Z * bool)) (node : Z) : bool * CgroupTree :=
  let t := foldl (migrate1 node) t tids in (frozen t node, t).

(** [subtree]: the list grows at its end while it is read from its start; every cgroup has one
    parent, so each comes once. *)
Fixpoint subtree_loop (fuel : nat) (ns : gmap Z CNode) (queue : list Z) : list Z :=
  match queue, fuel with
  | [], _ | _, O => []
  | n :: queue, S fuel => n :: subtree_loop fuel ns (queue ++ match ns !! n with Some x => values (children x) | None => [] end)
  end.
Definition subtree (t : CgroupTree) (node : Z) : list Z := subtree_loop (S (size (nodes t))) (nodes t) [node].
Definition set_freeze (t : CgroupTree) (node : Z) (on : bool) : bool * CgroupTree :=
  match nodes t !! node with
  | Some n => if bool_decide (freeze n = on) then (false, t) else (true, update t node (λ x, set_node_freeze x on))
  | None => (false, t)
  end.
Definition dead_cpu_ns (t : CgroupTree) (node : Z) : Z := match nodes t !! node with Some n => node_cpu n | None => 0 end.
(** A [BTreeMap] is iterated in the order of its keys. *)
Definition live_members (t : CgroupTree) : list Z :=
  merge_sort Z.le (filter (λ x, m_live x.2 = true) (map_to_list (members t))).*1.
Definition ns_root (t : CgroupTree) (ns : Z) : Z :=
  match ns_roots t !! ns with Some n => if exists_ t n then n else ROOT | None => ROOT end.
Definition set_ns_root (t : CgroupTree) (ns node : Z) : CgroupTree :=
  mkTree (nodes t) (next_id t) (members t) (<[ns := node]> (ns_roots t)).

(** [path_from]; a step leads to an older cgroup. *)
Fixpoint path_down (fuel : nat) (ns : gmap Z CNode) (up : list Z) (at_ : Z) (down : list (list Z)) : Z * list (list Z) :=
  if bool_decide (at_ ∈ up) then (at_, down)
  else match fuel, ns !! at_ with
       | S fuel, Some n => path_down fuel ns up (default ROOT (c_parent n)) (c_name n :: down)
       | _, _ => (at_, down)
       end.
Fixpoint take_while (stop : Z) (l : list Z) : list Z :=
  match l with [] => [] | n :: l => if n =? stop then [] else n :: take_while stop l end.
Fixpoint join_slash (parts : list (list Z)) : list Z :=
  match parts with [] => [] | [p] => p | p :: ps => p ++ SLASH :: join_slash ps end.
Definition path_from (t : CgroupTree) (root node : Z) : list Z :=
  let up := chain t root in
  let '(common, down) := path_down (S (size (nodes t))) (nodes t) up node [] in
  SLASH :: join_slash (((λ _, txt "..") <$> take_while common up) ++ down).

(** [files], [controllers]. *)
Definition hands_down (t : CgroupTree) (p : option Z) : bool :=
  match p with Some p => match nodes t !! p with Some x => pids_below x | None => false end | None => false end.
Definition file_leb (a b : list Z * bool) : Prop := str_leb a.1 b.1 = true.
Global Instance file_leb_dec : RelDecision file_leb.
Proof. intros a b. apply bool_eq_dec. Defined.
Definition files (t : CgroupTree) (node : Z) : list (list Z * bool) :=
  merge_sort file_leb
    (filter (λ f, negb (node =? ROOT) || negb (bool_decide (f.1 ∈ NOT_AT_ROOT)) = true) CORE_FILES
     ++ (if hands_down t (parent_in (nodes t) node) then PIDS_FILES else [])).
Definition has_file (t : CgroupTree) (node : Z) (name : list Z) : bool := bool_decide (name ∈ (files t node).*1).
Definition controllers (t : CgroupTree) (node : Z) : list (list Z) :=
  match parent_in (nodes t) node with
  | None => CONTROLLERS
  | Some p => if hands_down t (Some p) then [txt "pids"] else []
  end.
Definition depth (t : CgroupTree) (node : Z) : Z := Z.of_nat (length (chain t node)) - 1.
Definition descendants (t : CgroupTree) (node : Z) : Z := Z.of_nat (length (subtree t node)) - 1.

(** [lookup]. *)
Fixpoint lookup_parts (t : CgroupTree) (node : Z) (parts : list (list Z)) : option (Z * option (list Z)) :=
  match parts with
  | [] => Some (node, None)
  | part :: parts =>
    n ← nodes t !! node;
    match children n !! part with
    | Some child => lookup_parts t child parts
    | None => if bool_decide (parts = []) && has_file t node part then Some (node, Some part) else None
    end
  end.
Definition lookup_path (t : CgroupTree) (root : Z) (rel : list Z) : option (Z * option (list Z)) :=
  lookup_parts t root (filter (λ p, p ≠ []) (Path.split rel)).

(** [mkdir]: indexing a cgroup that is gone, and a number past 2^32 with overflow checks, panic. *)
Definition over_limit (t : CgroupTree) (new_depth n : Z) : res bool :=
  match nodes t !! n with
  | None => Panic
  | Some x =>
    Ok (match max_depth x with Some d => d <? new_depth - depth t n | None => false end
        || match max_descendants x with Some d => d <? descendants t n + 1 | None => false end)
  end.
Fixpoint any_over (t : CgroupTree) (new_depth : Z) (ns : list Z) : res bool :=
  match ns with
  | [] => Ok false
  | n :: ns => o ← over_limit t new_depth n; if (o : bool) then Ok true else any_over t new_depth ns
  end.
Definition bad_name (name : list Z) : bool :=
  bool_decide (NL ∈ name) || bool_decide (name = txt ".") || bool_decide (name = txt "..").
Definition mkdir (checks : bool) (now : Z) (t : CgroupTree) (parent : Z) (name : list Z) (uid gid : Z) : res ((Z + Z) * CgroupTree) :=
  match nodes t !! parent with
  | None => Ok (inl ENOENT, t)
  | Some p =>
    if bool_decide (is_Some (children p !! name)) || has_file t parent name then Ok (inl EEXIST, t)
    else if bad_name name then Ok (inl EINVAL, t)
    else
      over ← any_over t (depth t parent + 1) (chain t parent);
      if (over : bool) then Ok (inl EAGAIN, t)
      else
        let id := next_id t in
        if checks && (U32 <=? id + 1) then Panic
        else
          let ns := <[id := node_new now name (Some parent) uid gid]> (nodes t) in
          Ok (inr id, mkTree (alter (λ p, set_children p (<[name := id]> (children p)) now) parent ns) (wrap U32 (id + 1))
                (members t) (ns_roots t))
  end.

(** [rmdir]: its error, if any. *)
Definition rmdir (now : Z) (t : CgroupTree) (node : Z) : option Z * CgroupTree :=
  match nodes t !! node with
  | None => (Some ENOENT, t)
  | Some n =>
    match c_parent n with
    | None => (Some EBUSY, t)
    | Some parent =>
      if negb (bool_decide (children n = ∅)) || (0 <? live n) then (Some EBUSY, t)
      else
        let ms := (λ m, if m_node m =? node then mkMember parent (m_live m) else m) <$> members t in
        let ns := alter (λ p, set_children p (delete (c_name n) (children p)) now) parent (delete node (nodes t)) in
        (None, mkTree ns (next_id t) ms (filter (λ x, x.2 ≠ node) (ns_roots t)))
    end
  end.

(** [write_subtree_control]. [split_at(1)] panics when the first character takes several bytes. *)
Fixpoint control_words (available : list (list Z)) (ws : list (list Z)) (enable : option bool) : res (Z + option bool) :=
  match ws with
  | [] => Ok (inr enable)
  | w :: ws =>
    match w with
    | [] => Panic
    | c :: name =>
      if 0x80 <=? c then Panic
      else if negb ((c =? PLUS) || (c =? MINUS)) then Ok (inl EINVAL)
      else
        let on := c =? PLUS in
        if negb (bool_decide (name ∈ CONTROLLERS)) then Ok (inl EINVAL)
        else if on && negb (bool_decide (name ∈ available)) then Ok (inl ENOENT)
        else control_words available ws (Some on)
    end
  end.
Definition write_subtree_control (t : CgroupTree) (node : Z) (text : list Z) : res (option Z * CgroupTree) :=
  r ← control_words (controllers t node) (split_whitespace text) None;
  match r with
  | inl e => Ok (Some e, t)
  | inr None => Ok (None, t)
  | inr (Some on) =>
    match nodes t !! node with
    | None => Panic
    | Some n =>
      if bool_decide (on = pids_below n) then Ok (None, t)
      else if (if on then negb (node =? ROOT) && has_own_tasks t node && has_populated_child t node
               else existsb (λ c, match nodes t !! c with Some c => pids_below c | None => false end) (values (children n)))
      then Ok (Some EBUSY, t)
      else Ok (None, update t node (λ x, set_below x on))
    end
  end.
(** [write_file]. *)
Definition limit_of (t : list Z) : Z + option Z :=
  if bool_decide (t = txt "max") then inr None
  else match parse_unsigned U64 t with Some v => inr (Some v) | None => inl EINVAL end.
Definition set_limit (t : CgroupTree) (node : Z) (text : list Z) (f : CNode → option Z → CNode) : option Z * CgroupTree :=
  match limit_of text with
  | inl e => (Some e, t)
  | inr v => match nodes t !! node with Some _ => (None, update t node (λ x, f x v)) | None => (Some ENOENT, t) end
  end.
Definition write_file (t : CgroupTree) (node : Z) (file text : list Z) : res (option Z * CgroupTree) :=
  let text := trim text in
  if bool_decide (file = txt "cgroup.subtree_control") then write_subtree_control t node text
  else if bool_decide (file = txt "cgroup.max.depth") then Ok (set_limit t node text set_max_depth)
  else if bool_decide (file = txt "cgroup.max.descendants") then Ok (set_limit t node text set_max_descendants)
  else if bool_decide (file = txt "pids.max") then Ok (set_limit t node text set_pids_max)
  else Ok (Some (if bool_decide (file = txt "cgroup.type") then
                   if bool_decide (text = txt "threaded") then EOPNOTSUPP else EINVAL
                 else if bool_decide (file ∈ KERNEL_FILES) then EOPNOTSUPP else EACCES), t).

(** * [CgroupFs], a mount of the hierarchy from [root] down *)

Definition fs_write_at (t : CgroupTree) (root : Z) (rel buf : list Z) : res (io Z * CgroupTree) :=
  match lookup_path t root rel with
  | None => Ok (Bad ENOENT, t)
  | Some (_, None) => Ok (Bad EISDIR, t)
  | Some (node, Some file) =>
    match from_utf8 buf with
    | None => Ok (Bad EINVAL, t)
    | Some text =>
      r ← write_file t node file text;
      Ok (match r with (Some e, t) => (Bad e, t) | (None, t) => (Good (Z.of_nat (length buf)), t) end)
    end
  end.
(** [trim_matches('/')] and [rsplit_once('/')]. *)
Fixpoint strip_slashes (s : list Z) : list Z := match s with c :: r => if c =? SLASH then strip_slashes r else s | [] => [] end.
Fixpoint rsplit_slash (s : list Z) : option (list Z * list Z) :=
  match s with
  | [] => None
  | c :: s =>
    match rsplit_slash s with
    | Some (a, b) => Some (c :: a, b)
    | None => if c =? SLASH then Some ([], s) else None
    end
  end.
Definition split_last (rel : list Z) : list Z * list Z :=
  let rel := rev (strip_slashes (rev (strip_slashes rel))) in default ([], rel) (rsplit_slash rel).
Definition fs_mkdir (checks : bool) (now : Z) (t : CgroupTree) (root : Z) (rel : list Z) : res (io unit * CgroupTree) :=
  let '(dir, name) := split_last rel in
  match lookup_path t root dir with
  | None => Ok (Bad ENOENT, t)
  | Some (_, Some _) => Ok (Bad ENOTDIR, t)
  | Some (parent, None) =>
    r ← mkdir checks now t parent name 0 0;
    Ok (match r with (inl e, t) => (Bad e, t) | (inr _, t) => (Good tt, t) end)
  end.
Definition fs_rmdir (now : Z) (t : CgroupTree) (root : Z) (rel : list Z) : io unit * CgroupTree :=
  match lookup_path t root rel with
  | None => (Bad ENOENT, t)
  | Some (_, Some _) => (Bad ENOTDIR, t)
  | Some (node, None) =>
    if node =? root then (Bad EBUSY, t)
    else match rmdir now t node with (Some e, t) => (Bad e, t) | (None, t) => (Good tt, t) end
  end.
Definition fs_set_owner (t : CgroupTree) (root : Z) (rel : list Z) (uid gid : option Z) : res (io unit * CgroupTree) :=
  match lookup_path t root rel with
  | None => Ok (Bad ENOENT, t)
  | Some (node, file) =>
    let hands_over := match file with
                      | None => true
                      | Some f => bool_decide (f ∈ [txt "cgroup.procs"; txt "cgroup.threads"; txt "cgroup.subtree_control"])
                      end in
    if hands_over then
      match nodes t !! node with
      | None => Panic
      | Some _ => Ok (Good tt, update t node (λ x, set_node_owner x (default (c_uid x) uid) (default (c_gid x) gid)))
      end
    else Ok (Good tt, t)
  end.

(** * The kernel's side *)

(** [TaskState]. *)
Record TaskState := mkTaskState { t_pid : Z; t_tgid : Z; t_zombie : bool; t_cpu : Z }.
Definition find_task (ts : list TaskState) (pid : Z) : option TaskState := snd <$> list_find (λ t, t_pid t = pid) ts.
Definition sync_exit (ts : list TaskState) (t : CgroupTree) (tid : Z) : CgroupTree :=
  match find_task ts tid with
  | Some x => if t_zombie x then exit t tid (t_cpu x) else t
  | None => exit t tid 0
  end.
Definition sync_exits (t : CgroupTree) (ts : list TaskState) : CgroupTree := foldl (sync_exit ts) t (live_members t).

(** [cgroup_move] once the target's id is known: the result, whether the process is now frozen
    when it moved, and the tree. [privileged] and [euid] are the writer's. *)
Definition cgroup_move (t : CgroupTree) (ts : list TaskState) (ns : Z) (privileged : bool) (euid : Z)
    (node target : Z) (thread : bool) : (Z + option bool) * CgroupTree :=
  match list_find (λ x, t_pid x = target ∧ t_zombie x = false) ts with
  | None => (inl ESRCH, t)
  | Some (_, task) =>
    let t := sync_exits t ts in
    let from := node_of t target in
    let root := ns_root t ns in
    if negb (is_within t node root) || negb (is_within t from root) then (inl ENOENT, t)
    else if thread then ((if from =? node then inr None else inl EOPNOTSUPP), t)
    else match check_attach t node with
         | Some e => (inl e, t)
         | None =>
           if negb privileged && negb ((owner t (common_ancestor t from node)).1 =? euid) then (inl EACCES, t)
           else
             let moving := (λ x, (t_pid x, negb (t_zombie x))) <$> filter (λ x, t_tgid x = t_tgid task) ts in
             let '(f, t) := migrate t moving node in (inr (Some f), t)
         end
  end.
(** [cgroup_freeze]: the new state of the tasks of [below], where anything changed. *)
Definition cgroup_freeze (t : CgroupTree) (node : Z) (text : list Z) (pids : list Z) : (Z + list (Z * bool)) * CgroupTree :=
  if negb (bool_decide (text ∈ [txt "0"; txt "1"])) then (inl EINVAL, t)
  else
    let '(changed, t) := set_freeze t node (bool_decide (text = txt "1")) in
    if negb changed then (inr [], t)
    else
      let below := subtree t node in
      (inr ((λ p, (p, frozen t (node_of t p))) <$> filter (λ p, node_of t p ∈ below) pids), t).
(** [cgroup_kill]: the tasks that get [SIGKILL]. *)
Definition cgroup_kill (t : CgroupTree) (node : Z) (text : list Z) (pids : list Z) : Z + list Z :=
  if bool_decide (text = txt "1") then inr (filter (λ p, node_of t p ∈ subtree t node) pids) else inl EINVAL.
