(* ===== verification/CgroupSpec.v ===== *)
(** What the hierarchy of control groups promises: its counts are exact in every run, and no fork
    takes a group over its [pids.max]. *)
From S2P Require Import Prelude Abi Path Vfs Text Cgroup.
From Stdlib Require Import String.
From stdpp Require Import base numbers gmap list sorting relations.
Local Open Scope Z_scope.

(** * Chains *)

Definition ordered (ns : gmap Z CNode) : Prop := ∀ n p, parent_in ns n = Some p → p < n ∧ is_Some (ns !! p).
Definition upto (ns : gmap Z CNode) (n : Z) : nat := size (filter (λ x, x.1 ≤ n) ns).
Lemma parent_present ns n p : parent_in ns n = Some p → is_Some (ns !! n).
Proof. unfold parent_in. destruct (ns !! n); [done|discriminate]. Qed.
Lemma cg_upto_parent ns n p : ordered ns → parent_in ns n = Some p → (upto ns p < upto ns n)%nat.
Proof.
  intros Ho Hp. destruct (Ho _ _ Hp) as [Hlt _]. destruct (parent_present _ _ _ Hp) as [x Hx].
  unfold upto. apply map_subset_size, map_subset_alt. split.
  - apply map_filter_subseteq_ext. intros k y _. simpl. lia.
  - exists n. rewrite map_lookup_filter_None. split; [right; intros y _; simpl; lia|].
    exists x. apply map_lookup_filter_Some. done.
Qed.
Lemma upto_size ns n : (upto ns n ≤ size ns)%nat.
Proof. apply map_subseteq_size, map_filter_subseteq. Qed.
Lemma cg_chain_fuel ns (Ho : ordered ns) : ∀ f1 f2 n, (upto ns n ≤ f1)%nat → (upto ns n ≤ f2)%nat → chain_up f1 ns n = chain_up f2 ns n.
Proof.
  induction f1 as [|f1 IH]; intros f2 n H1 H2; destruct (parent_in ns n) as [p|] eqn:Ep.
  - pose proof (cg_upto_parent _ _ _ Ho Ep). lia.
  - destruct f2; simpl; by rewrite ?Ep.
  - pose proof (cg_upto_parent _ _ _ Ho Ep). destruct f2 as [|f2]; [lia|]. simpl. rewrite Ep. f_equal. apply IH; lia.
  - destruct f2; simpl; by rewrite ?Ep.
Qed.
Lemma cg_chain_eq ns n : ordered ns → chain_in ns n = n :: match parent_in ns n with Some p => chain_in ns p | None => [] end.
Proof.
  intros Ho. unfold chain_in. destruct (parent_in ns n) as [p|] eqn:Ep.
  - pose proof (cg_upto_parent _ _ _ Ho Ep). pose proof (upto_size ns n). pose proof (upto_size ns p).
    destruct (size ns) as [|k] eqn:Es; [lia|].
    transitivity (n :: chain_up k ns p); [simpl; by rewrite Ep|]. f_equal. apply cg_chain_fuel; [done|lia|lia].
  - destruct (size ns); simpl; by rewrite ?Ep.
Qed.
Lemma cg_ordered_ind ns (P : Z → Prop) : ordered ns → (∀ n, (∀ p, parent_in ns n = Some p → P p) → P n) → ∀ n, P n.
Proof.
  intros Ho HS n. remember (upto ns n) as m eqn:Em. revert n Em. induction (lt_wf m) as [m _ IH]. intros n ->.
  apply HS. intros p Hp. eapply IH; [|done]. by eapply cg_upto_parent.
Qed.
Lemma cg_chain_self ns n : n ∈ chain_in ns n.
Proof. unfold chain_in. destruct (size ns); simpl; by left. Qed.
Lemma chain_le ns n : ordered ns → ∀ k, k ∈ chain_in ns n → k ≤ n.
Proof.
  intros Ho. revert n. apply (cg_ordered_ind ns (λ n, ∀ k, _ → k ≤ n) Ho). intros n IH k Hk. rewrite cg_chain_eq in Hk by done.
  apply elem_of_cons in Hk as [->|Hk]; [lia|]. destruct (parent_in ns n) as [p|] eqn:Ep; [|by apply elem_of_nil in Hk].
  pose proof (IH p eq_refl k Hk). destruct (Ho _ _ Ep). lia.
Qed.
Lemma cg_chain_NoDup ns n : ordered ns → NoDup (chain_in ns n).
Proof.
  intros Ho. revert n. apply (cg_ordered_ind ns _ Ho). intros n IH. rewrite cg_chain_eq by done. apply NoDup_cons.
  destruct (parent_in ns n) as [p|] eqn:Ep; [|split; [apply not_elem_of_nil|apply NoDup_nil_2]].
  split; [|by apply IH]. intros Hk. apply chain_le in Hk; [|done]. destruct (Ho _ _ Ep). lia.
Qed.
Lemma chain_present ns n : ordered ns → is_Some (ns !! n) → ∀ k, k ∈ chain_in ns n → is_Some (ns !! k).
Proof.
  intros Ho. revert n. apply (cg_ordered_ind ns (λ n, is_Some (ns !! n) → ∀ k, _ → is_Some (ns !! k)) Ho). intros n IH Hn k Hk.
  rewrite cg_chain_eq in Hk by done. apply elem_of_cons in Hk as [->|Hk]; [done|].
  destruct (parent_in ns n) as [p|] eqn:Ep; [|by apply elem_of_nil in Hk]. eapply IH; [done|by eapply Ho|done].
Qed.
(** Tables with the same parents on a set closed under them have the same chains there. *)
Lemma cg_chain_agree ns ns' (S : Z → Prop) : ordered ns → ordered ns' →
  (∀ k, S k → parent_in ns' k = parent_in ns k) → (∀ k p, S k → parent_in ns k = Some p → S p) →
  ∀ k, S k → chain_in ns' k = chain_in ns k.
Proof.
  intros Ho Ho' Hp HS. apply (cg_ordered_ind ns (λ k, S k → chain_in ns' k = chain_in ns k) Ho). intros k IH Hk.
  rewrite !cg_chain_eq by done. rewrite (Hp k Hk). destruct (parent_in ns k) as [p|] eqn:Ep; [|done].
  f_equal. apply IH; [done|by eapply HS].
Qed.

(** * Structure and counts *)

(** What moving tasks never touches. *)
Definition skel (x : CNode) : option Z * list Z * gmap (list Z) Z := (c_parent x, c_name x, children x).
Definition same_skel (ns ns' : gmap Z CNode) : Prop := ∀ n, skel <$> ns' !! n = skel <$> ns !! n.
Lemma same_skel_at ns ns' n x' : same_skel ns ns' → ns' !! n = Some x' → ∃ x, ns !! n = Some x ∧ skel x' = skel x.
Proof. intros H E. specialize (H n). rewrite E in H. destruct (ns !! n) as [x|]; [|done]. exists x. split; [done|]. by apply (inj Some). Qed.
Lemma same_skel_parent ns ns' n : same_skel ns ns' → parent_in ns' n = parent_in ns n.
Proof. intros H. specialize (H n). unfold parent_in. destruct (ns !! n), (ns' !! n); try done. apply (inj Some) in H. exact (f_equal (λ s, s.1.1) H). Qed.
Lemma same_skel_present ns ns' n : same_skel ns ns' → is_Some (ns' !! n) ↔ is_Some (ns !! n).
Proof. intros H. specialize (H n). destruct (ns !! n), (ns' !! n); try done; split; try done; by intros [? [=]]. Qed.
Lemma same_skel_trans a b c : same_skel a b → same_skel b c → same_skel a c.
Proof. intros H1 H2 n. by rewrite H2, H1. Qed.
Lemma same_skel_alter ns n f : (∀ x, skel (f x) = skel x) → same_skel ns (alter f n ns).
Proof.
  intros Hf k. destruct (decide (k = n)) as [->|Hk]; [rewrite lookup_alter_eq|by rewrite lookup_alter_ne].
  destruct (ns !! n); simpl; [by rewrite Hf|done].
Qed.

(** A tree with the root at the top, each cgroup listed under its name by its parent. *)
Record shape (ns : gmap Z CNode) (nx : Z) : Prop := mkShape {
  sh_root : ∃ x, ns !! ROOT = Some x ∧ c_parent x = None;
  sh_parent n x : ns !! n = Some x → n ≠ ROOT →
    ∃ p y, c_parent x = Some p ∧ p < n ∧ ns !! p = Some y ∧ children y !! c_name x = Some n;
  sh_child p y name c : ns !! p = Some y → children y !! name = Some c →
    ∃ x, ns !! c = Some x ∧ c_parent x = Some p ∧ c_name x = name;
  sh_range n : is_Some (ns !! n) → 0 ≤ n < nx
}.
Lemma shape_ordered ns nx : shape ns nx → ordered ns.
Proof.
  intros [(r & Hr & Er) Hp _ _] n p E. unfold parent_in in E. destruct (ns !! n) as [x|] eqn:Hx; [|done]. simpl in E.
  destruct (decide (n = ROOT)) as [->|Hn]; [congruence|]. destruct (Hp n x Hx Hn) as (p' & y & E' & Hlt & Hy & _).
  rewrite E in E'. injection E' as <-. split; [done|by exists y].
Qed.
Lemma shape_skel ns ns' nx : same_skel ns ns' → shape ns nx → shape ns' nx.
Proof.
  intros H [(r & Hr & Er) Hp Hq Hg]. split.
  - pose proof (H ROOT) as E. rewrite Hr in E. destruct (ns' !! ROOT) as [r'|]; [|done]. exists r'. split; [done|]. apply (inj Some), (f_equal (λ s, s.1.1)) in E. simpl in E. congruence.
  - intros n x' Hx' Hn. destruct (same_skel_at _ _ _ _ H Hx') as (x & Hx & E). destruct (Hp n x Hx Hn) as (p & y & Ep & Hlt & Hy & Hc).
    pose proof (H p) as Ey. rewrite Hy in Ey. destruct (ns' !! p) as [y'|] eqn:Hy'; [|done].
    apply (inj Some), (f_equal snd) in Ey. pose proof (f_equal (λ s, s.1.1) E) as E1. pose proof (f_equal (λ s, s.1.2) E) as E2.
    simpl in *. exists p, y'. rewrite E1, E2, Ey. done.
  - intros p y' name c Hy' Hc. destruct (same_skel_at _ _ _ _ H Hy') as (y & Hy & Ey). pose proof (f_equal snd Ey) as E3. simpl in E3. rewrite E3 in Hc.
    destruct (Hq p y name c Hy Hc) as (x & Hx & E1 & E2). pose proof (H c) as Ex. rewrite Hx in Ex. destruct (ns' !! c) as [x'|] eqn:Hx'; [|done].
    apply (inj Some) in Ex. exists x'. split; [done|]. pose proof (f_equal (λ s, s.1.1) Ex). pose proof (f_equal (λ s, s.1.2) Ex). simpl in *. split; congruence.
  - intros n Hn. apply Hg. by apply (same_skel_present ns ns').
Qed.
Lemma chain_skel ns ns' nx k : same_skel ns ns' → shape ns nx → chain_in ns' k = chain_in ns k.
Proof.
  intros H Hs. apply (cg_chain_agree ns ns' (λ _, True)); try done; [by eapply shape_ordered|eapply shape_ordered; by eapply shape_skel|].
  intros j _. by apply same_skel_parent.
Qed.

Definition inside (ns : gmap Z CNode) (k n : Z) : Z := if bool_decide (n ∈ chain_in ns k) then 1 else 0.
Definition one (m : Member) : Z := 1.
Definition alive (m : Member) : Z := Z.b2z (m_live m).
(** How many members of cgroup [n] and below there are, each weighed by [w]. *)
Definition total (w : Member → Z) (ns : gmap Z CNode) (ms : gmap Z Member) (n : Z) : Z :=
  msum (λ _ m, w m * inside ns (m_node m) n) ms.
Definition is_tid (tid : Z) : Prop := - 2 ^ 31 ≤ tid < 2 ^ 31.

Record tree_ok (t : CgroupTree) : Prop := mkTreeOk {
  to_shape : shape (nodes t) (next_id t);
  to_tids tid : is_Some (members t !! tid) → is_tid tid;
  to_homes tid m : members t !! tid = Some m → is_Some (nodes t !! m_node m);
  to_counts n x : nodes t !! n = Some x → n ≠ ROOT →
    tasks x = total one (nodes t) (members t) n ∧ live x = total alive (nodes t) (members t) n
}.

Lemma bounded_size {V} (m : gmap Z V) lo n : 0 ≤ n → (∀ k, is_Some (m !! k) → lo ≤ k < lo + n) → Z.of_nat (size m) ≤ n.
Proof.
  intros Hn Hk. rewrite <- size_dom. assert (dom m ⊆ (list_to_set (seqZ lo n) : gset Z)) as Hs.
  { intros k Hd. apply elem_of_dom in Hd. apply elem_of_list_to_set, elem_of_seqZ. by apply Hk. }
  apply subseteq_size in Hs. rewrite size_list_to_set in Hs by apply NoDup_seqZ. rewrite length_seqZ in Hs. lia.
Qed.
Lemma total_bounds w ns ms n : (∀ m, 0 ≤ w m ≤ 1) → (∀ tid, is_Some (ms !! tid) → is_tid tid) → 0 ≤ total w ns ms n ≤ 2 ^ 32.
Proof.
  intros Hw Ht. unfold total. split.
  - apply msum_nonneg. intros k m _. pose proof (Hw m). unfold inside. case_bool_decide; lia.
  - trans (Z.of_nat (size ms)); [|apply (bounded_size ms (- 2 ^ 31)); [lia|intros k Hk; specialize (Ht k Hk); unfold is_tid in Ht; lia]].
    clear Ht. induction ms as [|k m ms Hk IH] using map_ind; [by rewrite msum_empty|].
    rewrite msum_insert, map_size_insert_None by done. pose proof (Hw m). unfold inside at 1. case_bool_decide; lia.
Qed.
Lemma one_weight m : 0 ≤ one m ≤ 1.
Proof. unfold one. lia. Qed.
Lemma alive_weight m : 0 ≤ alive m ≤ 1.
Proof. unfold alive. destruct (m_live m); simpl; lia. Qed.
Lemma total_skel w ns ns' nx ms n : same_skel ns ns' → shape ns nx → total w ns' ms n = total w ns ms n.
Proof. intros H Hs. apply msum_map_ext. intros k m _. unfold inside. by rewrite (chain_skel ns ns' nx). Qed.

Lemma total_none w ns ms n : (∀ k m, ms !! k = Some m → n ∉ chain_in ns (m_node m)) → total w ns ms n = 0.
Proof.
  intros Hn. unfold total. rewrite (msum_map_ext _ (λ _ _, 0)).
  - clear. induction ms as [|k m ms Hk IH] using map_ind; [apply msum_empty|]. by rewrite msum_insert, IH.
  - intros k m Hkm. unfold inside. rewrite bool_decide_false; [lia|]. by apply (Hn k).
Qed.

Lemma sat_exact a d : 0 ≤ a + d < U64 → sat_add_signed a d = a + d.
Proof. unfold sat_add_signed. lia. Qed.

Lemma charge_frame t l dt dl : members (charge t l dt dl) = members t ∧ next_id (charge t l dt dl) = next_id t ∧
  same_skel (nodes t) (nodes (charge t l dt dl)).
Proof.
  revert t. induction l as [|n l IH]; intros t; [by repeat split|].
  destruct (IH (update t n (λ x, set_counts x (sat_add_signed (tasks x) dt) (sat_add_signed (live x) dl)))) as (E1 & E2 & E3).
  split_and!; [exact E1|exact E2|]. eapply same_skel_trans; [|exact E3]. by apply same_skel_alter.
Qed.
Lemma charge_at t l dt dl n : NoDup l → nodes (charge t l dt dl) !! n =
  (λ x, if bool_decide (n ∈ l) then set_counts x (sat_add_signed (tasks x) dt) (sat_add_signed (live x) dl) else x) <$> nodes t !! n.
Proof.
  revert t. induction l as [|k l IH]; intros t Hd.
  - change (charge t [] dt dl) with t. rewrite bool_decide_false by apply not_elem_of_nil. by destruct (nodes t !! n).
  - apply NoDup_cons in Hd as [Hk Hd].
    change (charge t (k :: l) dt dl) with
      (charge (update t k (λ x, set_counts x (sat_add_signed (tasks x) dt) (sat_add_signed (live x) dl))) l dt dl).
    rewrite IH by done. cbn [nodes update with_nodes].
    destruct (decide (n = k)) as [->|Hn].
    + rewrite lookup_alter_eq, bool_decide_false by done. rewrite bool_decide_true by (by left). by destruct (nodes t !! k).
    + rewrite lookup_alter_ne by done. rewrite (bool_decide_ext (n ∈ k :: l) (n ∈ l)); [done|].
      rewrite elem_of_cons. split; [intros [?|?]; done|by right].
Qed.
(** A charge along a chain adds to exactly the cgroups [k] is inside of. *)
Lemma charge_counts t k dt dl n x x' : shape (nodes t) (next_id t) →
  nodes t !! n = Some x → nodes (charge t (chain t k) dt dl) !! n = Some x' →
  0 ≤ tasks x < U64 → 0 ≤ live x < U64 →
  0 ≤ tasks x + dt * inside (nodes t) k n < U64 → 0 ≤ live x + dl * inside (nodes t) k n < U64 →
  tasks x' = tasks x + dt * inside (nodes t) k n ∧ live x' = live x + dl * inside (nodes t) k n.
Proof.
  intros Hs Hx Hx' T1 L1. rewrite charge_at in Hx' by (by eapply cg_chain_NoDup, shape_ordered). rewrite Hx in Hx'. injection Hx' as <-.
  unfold inside, chain. case_bool_decide; simpl; [|lia]. intros T2 L2. rewrite !sat_exact by lia. lia.
Qed.
Lemma chain_root ns nx : shape ns nx → chain_in ns ROOT = [ROOT].
Proof.
  intros Hs. rewrite cg_chain_eq by (by eapply shape_ordered). destruct (sh_root _ _ Hs) as (r & Hr & Er).
  unfold parent_in. rewrite Hr. simpl. by rewrite Er.
Qed.
Lemma inside_root ns nx n : shape ns nx → n ≠ ROOT → inside ns ROOT n = 0.
Proof. intros Hs Hn. unfold inside. rewrite (chain_root ns nx) by done. rewrite bool_decide_false; [done|]. by rewrite list_elem_of_singleton. Qed.
Lemma inside_range ns k n : 0 ≤ inside ns k n ≤ 1.
Proof. unfold inside. case_bool_decide; lia. Qed.

Lemma counts_range t n x : tree_ok t → nodes t !! n = Some x → n ≠ ROOT → 0 ≤ tasks x ≤ 2 ^ 32 ∧ 0 ≤ live x ≤ 2 ^ 32.
Proof.
  intros Ht Hx Hn. destruct (to_counts t Ht n x Hx Hn) as [-> ->].
  split; apply total_bounds; auto using one_weight, alive_weight; apply Ht.
Qed.

(** The members change, the counts follow, the structure stays. *)
Lemma ok_recount t t' : tree_ok t → same_skel (nodes t) (nodes t') → next_id t' = next_id t →
  (∀ tid, is_Some (members t' !! tid) → is_tid tid) → (∀ tid m, members t' !! tid = Some m → is_Some (nodes t !! m_node m)) →
  (∀ n x x', nodes t !! n = Some x → nodes t' !! n = Some x' → n ≠ ROOT →
     tasks x' = total one (nodes t) (members t') n ∧ live x' = total alive (nodes t) (members t') n) →
  tree_ok t'.
Proof.
  intros [Hs _ _ _] Hk En Ht Hh Hc. split.
  - rewrite En. by eapply shape_skel.
  - done.
  - intros tid m Hm. apply (same_skel_present _ _ _ Hk). by eapply Hh.
  - intros n x' Hx' Hn. destruct (same_skel_at _ _ _ _ Hk Hx') as (x & Hx & _). rewrite !(total_skel _ _ _ _ _ _ Hk Hs). by eapply Hc.
Qed.
(** An update of other fields. *)
Lemma ok_update t n f : tree_ok t → (∀ x, skel (f x) = skel x ∧ tasks (f x) = tasks x ∧ live (f x) = live x) → tree_ok (update t n f).
Proof.
  intros Ht Hf. apply (ok_recount t); try done; try apply Ht.
  - apply same_skel_alter. apply Hf.
  - intros k x x' Hx Hx' Hk. cbn [nodes members update with_nodes] in *. destruct (to_counts t Ht k x Hx Hk) as [<- <-]. revert Hx'.
    destruct (decide (k = n)) as [->|Hkn]; [rewrite lookup_alter_eq|rewrite lookup_alter_ne by done]; rewrite Hx; intros [= <-]; [apply Hf|done].
Qed.

Lemma cg_total_insert w ns ms tid m n : ms !! tid = None → total w ns (<[tid := m]> ms) n = w m * inside ns (m_node m) n + total w ns ms n.
Proof. intros Hm. unfold total. by rewrite msum_insert. Qed.
Lemma total_update w ns ms tid m m' n : ms !! tid = Some m →
  total w ns (<[tid := m']> ms) n = total w ns ms n - w m * inside ns (m_node m) n + w m' * inside ns (m_node m') n.
Proof. intros Hm. unfold total. by rewrite (msum_update _ _ _ m). Qed.
Lemma cg_total_delete w ns ms tid m n : ms !! tid = Some m → total w ns (delete tid ms) n = total w ns ms n - w m * inside ns (m_node m) n.
Proof. intros Hm. unfold total. rewrite (msum_delete _ ms tid m Hm). lia. Qed.

(** [charge] along the chain of [k] with the members that make it right. *)
Lemma ok_charge t k dt dl ms' :
  tree_ok t → -1 ≤ dt ≤ 1 → -1 ≤ dl ≤ 1 →
  (∀ tid, is_Some (ms' !! tid) → is_tid tid) → (∀ tid m, ms' !! tid = Some m → is_Some (nodes t !! m_node m)) →
  (∀ n, n ≠ ROOT → total one (nodes t) ms' n = total one (nodes t) (members t) n + dt * inside (nodes t) k n ∧
     total alive (nodes t) ms' n = total alive (nodes t) (members t) n + dl * inside (nodes t) k n) →
  tree_ok (with_members (charge t (chain t k) dt dl) ms').
Proof.
  intros Ht Hdt Hdl Hti Hh Htot. destruct (charge_frame t (chain t k) dt dl) as (E1 & E2 & E3).
  apply (ok_recount t); simpl; try done. intros n x x' Hx Hx' Hn. destruct (Htot n Hn) as [-> ->].
  destruct (to_counts t Ht n x Hx Hn) as [A1 A2]. rewrite <- A1, <- A2.
  destruct (counts_range t n x Ht Hx Hn) as [R1 R2]. pose proof (inside_range (nodes t) k n) as R3.
  destruct (Htot n Hn) as [B1 B2].
  pose proof (total_bounds one (nodes t) ms' n one_weight Hti) as R4. pose proof (total_bounds alive (nodes t) ms' n alive_weight Hti) as R5.
  eapply charge_counts; [apply Ht|done|done|unfold U64; lia..].
Qed.

(** * The operations *)

Lemma charge_members t ms l dt dl : charge (with_members t ms) l dt dl = with_members (charge t l dt dl) ms.
Proof. revert t. induction l as [|n l IH]; intros t; [done|]. exact (IH (update t n _)). Qed.
Lemma with_members_id t ms : members t = ms → with_members t ms = t.
Proof. intros <-. by destruct t. Qed.
Lemma member_tids t tid m : tree_ok t → is_tid tid → ∀ k, is_Some (<[tid := m]> (members t) !! k) → is_tid k.
Proof.
  intros Ht Htid k. destruct (decide (k = tid)) as [->|Hk]; [done|]. rewrite lookup_insert_ne by done. apply Ht.
Qed.
Lemma member_homes t tid m : tree_ok t → is_Some (nodes t !! m_node m) → ∀ k m', <[tid := m]> (members t) !! k = Some m' → is_Some (nodes t !! m_node m').
Proof.
  intros Ht Hm k m'. destruct (decide (k = tid)) as [->|Hk]; [rewrite lookup_insert_eq; by intros [= <-]|].
  rewrite lookup_insert_ne by done. apply Ht.
Qed.
Lemma root_charge t dt dl : tree_ok t → -1 ≤ dt ≤ 1 → -1 ≤ dl ≤ 1 → tree_ok (charge t (chain t ROOT) dt dl).
Proof.
  intros Ht H1 H2. destruct (charge_frame t (chain t ROOT) dt dl) as (E & _). rewrite <- (with_members_id _ _ E).
  apply ok_charge; try done; try apply Ht. intros n Hn. rewrite (inside_root _ _ n (to_shape t Ht) Hn). lia.
Qed.

Lemma attach_ok t tid node : tree_ok t → is_tid tid → members t !! tid = None → is_Some (nodes t !! node) → tree_ok (attach_new t tid node).2.
Proof.
  intros Ht Htid Hm Hn. unfold attach_new. destruct (charge_frame t (chain t node) 1 1) as (E & _).
  destruct (Z.eqb_spec node ROOT) as [->|Hr]; cbn [snd]; [by apply root_charge|]. rewrite E.
  apply ok_charge; try done; [by apply member_tids|by apply member_homes|].
  intros n _. rewrite !cg_total_insert by done. unfold one, alive. simpl. lia.
Qed.

Lemma cpu_ok t l cpu : tree_ok t → tree_ok (add_cpu t l cpu) ∧ members (add_cpu t l cpu) = members t.
Proof. revert t. induction l as [|n l IH]; intros t Ht; [done|]. apply (IH (update t n _)). by apply ok_update. Qed.
Lemma exit_ok t tid cpu : tree_ok t → tree_ok (exit t tid cpu).
Proof.
  intros Ht. unfold exit. destruct (members t !! tid) as [[k []]|] eqn:Em; [|done|].
  - cbn [m_node]. apply cpu_ok. change (chain (with_members t _) k) with (chain t k). rewrite charge_members.
    pose proof (to_homes t Ht _ _ Em) as Hk. assert (is_tid tid) as Htid by (apply Ht; by rewrite Em).
    apply ok_charge; try done; [by apply member_tids|by apply member_homes|].
    intros n _. rewrite !(total_update _ _ _ _ _ _ _ Em). unfold one, alive. simpl. lia.
  - apply cpu_ok. by apply root_charge.
Qed.
Lemma exit_members t tid cpu : tree_ok t →
  members (exit t tid cpu) = match members t !! tid with Some m => <[tid := mkMember (m_node m) false]> (members t) | None => members t end.
Proof.
  intros Ht. unfold exit. assert (∀ t l cpu, members (add_cpu t l cpu) = members t) as Hc.
  { clear. intros t l cpu. revert t. induction l as [|n l IH]; intros t; [done|]. exact (IH (update t n _)). }
  destruct (members t !! tid) as [[k []]|] eqn:Em; cbn [m_node].
  - rewrite Hc, charge_members. done.
  - by rewrite insert_id.
  - rewrite Hc. apply charge_frame.
Qed.

Lemma delete_tids t tid : tree_ok t → ∀ k, is_Some (delete tid (members t) !! k) → is_tid k.
Proof. intros Ht k [m [_ Hk]%lookup_delete_Some]. apply Ht. by exists m. Qed.
Lemma delete_homes t tid : tree_ok t → ∀ k m, delete tid (members t) !! k = Some m → is_Some (nodes t !! m_node m).
Proof. intros Ht k m [_ Hk]%lookup_delete_Some. by eapply Ht. Qed.
(** A task that is no longer a member: its charge along the chain is taken back. *)
Lemma leave_ok t tid dl : tree_ok t → (∀ m, members t !! tid = Some m → dl = - alive m) → -1 ≤ dl ≤ 1 →
  tree_ok (with_members (charge t (chain t (node_of t tid)) (-1) dl) (delete tid (members t))).
Proof.
  intros Ht Hd Hr. unfold node_of. destruct (members t !! tid) as [m|] eqn:Em.
  - apply ok_charge; try done; [by apply delete_tids|by apply delete_homes|].
    intros n _. rewrite !(cg_total_delete _ _ _ _ _ _ Em). rewrite (Hd m eq_refl). unfold one. lia.
  - rewrite delete_id by done. apply ok_charge; try done; try apply Ht.
    intros n Hn. rewrite (inside_root _ _ n (to_shape t Ht) Hn). lia.
Qed.
Lemma release_ok t tid cpu : tree_ok t → tree_ok (release t tid cpu).
Proof.
  intros Ht. unfold release. set (t1 := match members t !! tid with Some (mkMember _ true) => _ | _ => _ end).
  assert (tree_ok t1 ∧ ∀ m, members t1 !! tid = Some m → m_live m = false) as [H1 H2].
  { subst t1. destruct (members t !! tid) as [[k []]|] eqn:Em.
    - split; [by apply exit_ok|]. intros m. rewrite exit_members, Em by done. rewrite lookup_insert_eq. by intros [= <-].
    - split; [done|]. intros m. rewrite Em. by intros [= <-].
    - split; [done|]. intros m. by rewrite Em. }
  rewrite charge_members. refine (leave_ok t1 tid 0 H1 _ _); [|lia]. intros m Hm. unfold alive. by rewrite (H2 m Hm).
Qed.

(** One task of a migration; [al] may be false only of a task known to be dead. *)
Lemma migrate1_ok t tid al node : tree_ok t → is_tid tid → is_Some (nodes t !! node) →
  (al = false → ∀ m, members t !! tid = Some m → m_live m = false) → tree_ok (migrate1 node t (tid, al)).
Proof.
  intros Ht Htid Hn Ha. unfold migrate1. destruct (Z.eqb_spec (node_of t tid) node) as [|Hne]; [done|].
  set (lv := al && _).
  assert (∀ m, members t !! tid = Some m → - Z.b2z lv = - alive m) as Hlv.
  { intros m Hm. subst lv. rewrite Hm. unfold alive. destruct al; [done|]. by rewrite (Ha eq_refl m Hm). }
  assert (0 ≤ Z.b2z lv ≤ 1) as Hb by (destruct lv; simpl; lia).
  pose proof (leave_ok t tid (- Z.b2z lv) Ht Hlv ltac:(lia)) as H1.
  set (t1 := charge t (chain t (node_of t tid)) (-1) (- Z.b2z lv)) in *. set (t1' := with_members t1 (delete tid (members t))) in *.
  destruct (charge_frame t (chain t (node_of t tid)) (-1) (- Z.b2z lv)) as (E1 & _ & E3). fold t1 in E1, E3.
  assert (is_Some (nodes t1 !! node)) as Hn1 by (by apply (same_skel_present _ _ _ E3)).
  destruct (charge_frame t1 (chain t1 node) 1 (Z.b2z lv)) as (E4 & _). rewrite E4, E1.
  assert (members t1' !! tid = None) as Hd by apply lookup_delete_eq.
  match goal with |- tree_ok (with_members (charge t1 ?c ?a ?b) ?ms) =>
    change c with (chain t1' node); replace (with_members (charge t1 (chain t1' node) a b) ms)
      with (with_members (charge t1' (chain t1' node) a b) ms) by (subst t1'; by rewrite charge_members) end.
  destruct (Z.eqb_spec node ROOT) as [->|Hr].
  - change (delete tid (members t)) with (members t1'). apply ok_charge; try done; try apply H1; [lia|].
    intros n Hn'. rewrite (inside_root _ _ n (to_shape t1' H1) Hn'). lia.
  - replace (<[tid := mkMember node lv]> (members t)) with (<[tid := mkMember node lv]> (members t1'))
      by (subst t1'; simpl; apply insert_delete_eq).
    apply ok_charge; try done; [lia|by apply member_tids|by apply member_homes|].
    intros n _. rewrite !cg_total_insert by done. unfold one, alive. simpl. lia.
Qed.

Lemma migrate1_others node t x k : k ≠ x.1 → members (migrate1 node t x) !! k = members t !! k.
Proof.
  destruct x as [tid al]. intros Hk. unfold migrate1. destruct (_ =? _); [done|]. cbn [members with_members].
  rewrite !(proj1 (charge_frame _ _ _ _)). destruct (_ =? ROOT); [by rewrite lookup_delete_ne|by rewrite lookup_insert_ne].
Qed.
Lemma migrate1_skel node t x : same_skel (nodes t) (nodes (migrate1 node t x)).
Proof.
  destruct x as [tid al]. unfold migrate1. destruct (_ =? _); [done|]. cbn [nodes with_members].
  eapply same_skel_trans; apply charge_frame.
Qed.
Lemma migrate1_home node t x : node_of (migrate1 node t x) x.1 = node.
Proof.
  destruct x as [tid al]. unfold migrate1. destruct (Z.eqb_spec (node_of t tid) node) as [E|_]; [done|].
  unfold node_of. cbn [members with_members fst]. rewrite !(proj1 (charge_frame _ _ _ _)).
  destruct (Z.eqb_spec node ROOT) as [->|]; [by rewrite lookup_delete_eq|by rewrite lookup_insert_eq].
Qed.
(** A task may be listed more than once: all but its first entry find it moved. *)
Lemma migrate_ok t tids node : tree_ok t → is_Some (nodes t !! node) → (∀ x, x ∈ tids → is_tid x.1) →
  (∀ pre tid post, tids = pre ++ (tid, false) :: post → tid ∉ pre.*1 →
     node_of t tid = node ∨ ∀ m, members t !! tid = Some m → m_live m = false) → tree_ok (migrate t tids node).2.
Proof.
  unfold migrate. cbn [snd]. revert t. induction tids as [|[tid al] tids IH]; intros t Ht Hn Hr Ha; [done|].
  cbn [foldl]. apply IH.
  - destruct (decide (node_of t tid = node)) as [E|Hne].
    { unfold migrate1. by rewrite (proj2 (Z.eqb_eq _ _) E). }
    apply migrate1_ok; [done|apply (Hr (tid, al)); by left|done|]. intros ->.
    by destruct (Ha [] tid tids eq_refl ltac:(apply not_elem_of_nil)).
  - by apply (same_skel_present _ _ _ (migrate1_skel node t (tid, al))).
  - intros x Hx. apply Hr. by right.
  - intros pre k post -> Hk. destruct (decide (k = tid)) as [->|Hne]; [left; apply (migrate1_home node t (tid, al))|].
    unfold node_of. rewrite migrate1_others by done. apply (Ha ((tid, al) :: pre) k post); [done|].
    simpl. by rewrite not_elem_of_cons.
Qed.

(** After [sync_exits] a member that counts as live is a task that has not exited. *)
Definition synced (ts : list TaskState) (t : CgroupTree) (k : Z) : Prop :=
  ∀ m, members t !! k = Some m → m_live m = true → ∃ x, find_task ts k = Some x ∧ t_zombie x = false.
Lemma exit_dead t tid cpu k m : tree_ok t → members (exit t tid cpu) !! k = Some m → m_live m = true → k ≠ tid ∧ members t !! k = Some m.
Proof.
  intros Ht. rewrite exit_members by done. destruct (members t !! tid) as [m0|] eqn:E.
  - destruct (decide (k = tid)) as [->|Hk]; [rewrite lookup_insert_eq; by intros [= <-]|]. by rewrite lookup_insert_ne.
  - intros Hk. split; [congruence|done].
Qed.
Lemma sync_exit_spec ts t tid : tree_ok t → tree_ok (sync_exit ts t tid) ∧ synced ts (sync_exit ts t tid) tid ∧
  ∀ k m, members (sync_exit ts t tid) !! k = Some m → m_live m = true → members t !! k = Some m.
Proof.
  intros Ht. unfold sync_exit. destruct (find_task ts tid) as [x|] eqn:Ef; [destruct (t_zombie x) eqn:Ez|].
  - split; [by apply exit_ok|]. split; [intros m Hm Hl|intros k m Hm Hl]; by destruct (exit_dead t tid (t_cpu x) _ _ Ht Hm Hl).
  - split_and!; [done| |done]. intros m _ _. by exists x.
  - split; [by apply exit_ok|]. split; [intros m Hm Hl|intros k m Hm Hl]; by destruct (exit_dead t tid 0 _ _ Ht Hm Hl).
Qed.
Lemma sync_fold ts l : ∀ t, tree_ok t → tree_ok (foldl (sync_exit ts) t l) ∧
  (∀ k m, members (foldl (sync_exit ts) t l) !! k = Some m → m_live m = true → members t !! k = Some m) ∧
  (∀ k, k ∈ l → synced ts (foldl (sync_exit ts) t l) k).
Proof.
  induction l as [|tid l IH]; intros t Ht; cbn [foldl].
  { split_and!; [done|done|]. intros k Hk. by apply elem_of_nil in Hk. }
  destruct (sync_exit_spec ts t tid Ht) as (H1 & H2 & H3). destruct (IH _ H1) as (I1 & I2 & I3). split_and!; [done|by eauto|].
  intros k [->|Hk]%elem_of_cons; [|by apply I3]. intros m Hm Hl. by eapply H2, Hl; apply I2.
Qed.
Lemma sync_exits_spec ts t : tree_ok t → tree_ok (sync_exits t ts) ∧ ∀ k, synced ts (sync_exits t ts) k.
Proof.
  intros Ht. unfold sync_exits. destruct (sync_fold ts (live_members t) t Ht) as (H1 & H2 & H3). split; [done|].
  intros k m Hm Hl. apply (H3 k) with (m := m); [|done|done]. unfold live_members. rewrite merge_sort_Permutation.
  apply list_elem_of_fmap. exists (k, m). split; [done|]. apply list_elem_of_filter. split; [done|].
  apply elem_of_map_to_list. by apply H2.
Qed.
Lemma find_task_cons x ts p : find_task (x :: ts) p = if decide (t_pid x = p) then Some x else find_task ts p.
Proof. unfold find_task. simpl. case_decide; [done|]. by destruct (list_find _ ts) as [[]|]. Qed.
Lemma find_task_filter (P : TaskState → Prop) `{∀ x, Decision (P x)} ts p :
  (∀ x, x ∈ ts → t_pid x = p → P x) → find_task (filter P ts) p = find_task ts p.
Proof.
  induction ts as [|x ts IH]; intros Hp; [done|]. rewrite find_task_cons, filter_cons.
  assert (find_task (filter P ts) p = find_task ts p) as E by (apply IH; intros y Hy; apply Hp; by right).
  destruct (decide (P x)); [by rewrite find_task_cons, E|]. rewrite decide_False; [done|]. intros Hx.
  apply n. by apply Hp; [left|].
Qed.
Lemma find_task_first pre x post : t_pid x ∉ t_pid <$> pre → find_task (pre ++ x :: post) (t_pid x) = Some x.
Proof.
  induction pre as [|y pre IH]; intros Hn; cbn [app]; rewrite find_task_cons; [by rewrite decide_True|].
  rewrite fmap_cons, not_elem_of_cons in Hn. destruct Hn as [Hn1 Hn2]. rewrite decide_False by done. by apply IH.
Qed.

(** The tasks a writer sees: thread ids, and one process for each. Under SMP the writer itself is
    listed twice, by the stand-in of its slot and by its own state. *)
Definition task_list (ts : list TaskState) : Prop :=
  (∀ x, x ∈ ts → is_tid (t_pid x)) ∧ ∀ x y, x ∈ ts → y ∈ ts → t_pid x = t_pid y → t_tgid x = t_tgid y.

Lemma move_ok t ts ns pv euid node target th : tree_ok t → task_list ts →
  tree_ok (cgroup_move t ts ns pv euid node target th).2.
Proof.
  intros Ht [Hr Htg]. unfold cgroup_move. destruct (list_find _ ts) as [[i task]|]; [|done].
  destruct (sync_exits_spec ts t Ht) as [Hs Hy]. set (t1 := sync_exits t ts) in *.
  destruct (_ || _); [done|]. destruct th; [done|]. unfold check_attach. destruct (nodes t1 !! node) as [x|] eqn:En; [|done].
  destruct (_ && _ && _); [done|]. destruct (_ && _); [done|]. set (moving := _ <$> _).
  destruct (migrate t1 moving node) as [f t2] eqn:Em. cbn [snd]. change t2 with (f, t2).2. rewrite <- Em.
  apply migrate_ok; [done|by rewrite En| |].
  - intros y Hy'. subst moving. apply list_elem_of_fmap in Hy' as (z & -> & [_ Hz]%list_elem_of_filter). by apply Hr.
  - intros pre tid post E Hn. right. intros m Hm. destruct (m_live m) eqn:El; [|done]. exfalso.
    destruct (Hy _ m Hm El) as (z' & Hf & Ez'). subst moving.
    apply fmap_app_inv in E as (pre0 & rest & -> & E & Ef). destruct rest as [|z post0]; [done|].
    injection E as Epid Ezb Epost. subst tid. assert (z ∈ filter (λ x, t_tgid x = t_tgid task) ts) as [Hzt Hz]%list_elem_of_filter
      by (rewrite Ef; apply elem_of_app; right; by left).
    rewrite <- (find_task_filter (λ x, t_tgid x = t_tgid task)) in Hf.
    + rewrite Ef, find_task_first in Hf; [injection Hf as <-; by rewrite Ez' in Ezb|].
      intros Hin. apply Hn. by rewrite <- list_fmap_compose.
    + intros y Hyt Hyp. rewrite <- Hzt. by apply Htg.
Qed.

(** ** Making and removing groups *)

Lemma mkdir_shape now ns nx parent y name uid gid :
  shape ns nx → ns !! parent = Some y → children y !! name = None →
  shape (alter (λ p, set_children p (<[name := nx]> (children p)) now) parent (<[nx := node_new now name (Some parent) uid gid]> ns)) (nx + 1).
Proof.
  intros [(r & Hr & Er) Hp Hq Hg] Hy Hf. set (f := λ p, _). set (ns1 := <[nx := _]> ns).
  pose proof (Hg parent ltac:(by rewrite Hy)) as Hpr. pose proof (Hg ROOT ltac:(by rewrite Hr)) as Hrr.
  assert (∀ k, k ≠ nx → k ≠ parent → alter f parent ns1 !! k = ns !! k) as Hother.
  { intros k Hk Hk'. subst ns1. by rewrite lookup_alter_ne, lookup_insert_ne by done. }
  assert (alter f parent ns1 !! parent = Some (f y)) as Hpar.
  { subst ns1. rewrite lookup_alter_eq, lookup_insert_ne by lia. by rewrite Hy. }
  split.
  - destruct (decide (ROOT = parent)) as [<-|Hn]; [exists (f y); split; [done|]; simpl; congruence|].
    exists r. rewrite Hother by lia. done.
  - intros n x Hx Hn. destruct (decide (n = nx)) as [->|Hnx].
    { subst ns1. rewrite lookup_alter_ne, lookup_insert_eq in Hx by lia. injection Hx as <-.
      exists parent, (f y). split_and!; [done|lia|done|]. simpl. apply lookup_insert_eq. }
    assert (∃ x0, ns !! n = Some x0 ∧ c_parent x = c_parent x0 ∧ c_name x = c_name x0) as (x0 & Hx0 & E1 & E2).
    { destruct (decide (n = parent)) as [->|Hnp]; [|exists x; by rewrite <- Hother by done].
      rewrite Hpar in Hx. injection Hx as <-. by exists y. }
    destruct (Hp n x0 Hx0 Hn) as (p & z & Ep & Hlt & Hz & Hc). rewrite E1, E2. exists p.
    destruct (decide (p = parent)) as [->|Hpp].
    + exists (f y). split_and!; [done|done|done|]. simpl. rewrite Hy in Hz. injection Hz as <-. rewrite lookup_insert_ne; congruence.
    + exists z. rewrite Hother; [done| |done]. pose proof (Hg p ltac:(by rewrite Hz)). lia.
  - intros q z nm c Hz Hc. assert (∀ c x, ns !! c = Some x → ∃ x', alter f parent ns1 !! c = Some x' ∧ c_parent x' = c_parent x ∧ c_name x' = c_name x) as Hkeep.
    { intros k x Hx. pose proof (Hg k ltac:(by rewrite Hx)). destruct (decide (k = parent)) as [->|Hk]; [exists (f y); rewrite Hy in Hx; by injection Hx as <-|].
      exists x. by rewrite Hother by lia. }
    assert (∀ z0, ns !! q = Some z0 → children z0 !! nm = Some c → ∃ x, alter f parent ns1 !! c = Some x ∧ c_parent x = Some q ∧ c_name x = nm) as Hold.
    { intros z0 Hz0 Hc0. destruct (Hq q z0 nm c Hz0 Hc0) as (x & Hx & E1 & E2). destruct (Hkeep c x Hx) as (x' & Hx' & E3 & E4).
      exists x'. split; [done|]. split; congruence. }
    destruct (decide (q = nx)) as [->|Hqn].
    { subst ns1. rewrite lookup_alter_ne, lookup_insert_eq in Hz by lia. injection Hz as <-. cbn [children node_new] in Hc. by rewrite lookup_empty in Hc. }
    destruct (decide (q = parent)) as [->|Hqp]; [|rewrite Hother in Hz by done; by eapply Hold].
    rewrite Hpar in Hz. injection Hz as <-. simpl in Hc. destruct (decide (nm = name)) as [->|Hnm].
    + rewrite lookup_insert_eq in Hc. injection Hc as <-. subst ns1. eexists. rewrite lookup_alter_ne, lookup_insert_eq by lia. done.
    + rewrite lookup_insert_ne in Hc by done. by eapply Hold.
  - intros n Hn. destruct (decide (n = nx)) as [->|Hnx]; [lia|].
    assert (is_Some (ns !! n)) as Hin; [|specialize (Hg n Hin); lia].
    destruct (decide (n = parent)) as [->|Hnp]; [by rewrite Hy|]. by rewrite <- Hother.
Qed.
Lemma mkdir_ok checks now t parent name uid gid r t' :
  tree_ok t → next_id t + 1 < U32 → mkdir checks now t parent name uid gid = Ok (r, t') → tree_ok t'.
Proof.
  intros Ht Hn. unfold mkdir. destruct (nodes t !! parent) as [y|] eqn:Hy; [|by intros [= _ <-]].
  case_bool_decide as Hc; [by intros [= _ <-]|]. cbn [orb]. destruct (has_file t parent name); [by intros [= _ <-]|].
  destruct (bad_name name); [by intros [= _ <-]|]. destruct (any_over _ _ _) as [[]|]; [by intros [= _ <-]| |done]. cbn [mbind res_bind].
  destruct (checks && _); [done|]. intros [= _ <-]. pose proof (to_shape t Ht) as Hs. pose proof (shape_ordered _ _ Hs) as Ho.
  apply eq_None_not_Some in Hc. destruct (sh_root _ _ Hs) as (rt & Hrt & _). pose proof (sh_range _ _ Hs ROOT ltac:(by rewrite Hrt)) as Hrr.
  pose proof (sh_range _ _ Hs parent ltac:(by rewrite Hy)) as Hpr.
  pose proof (mkdir_shape now _ _ parent y name uid gid Hs Hy Hc) as Hs'. set (ns' := alter _ parent _) in *.
  assert (∀ k, k ≠ next_id t → parent_in ns' k = parent_in (nodes t) k ∧ (is_Some (nodes t !! k) → is_Some (ns' !! k))) as Hk.
  { intros k Hk. unfold parent_in. subst ns'. destruct (decide (k = parent)) as [->|Hkp].
    - rewrite lookup_alter_eq, lookup_insert_ne by lia. by rewrite Hy.
    - by rewrite lookup_alter_ne, lookup_insert_ne by lia. }
  assert (∀ k, k ≠ next_id t → chain_in ns' k = chain_in (nodes t) k) as Hch.
  { apply cg_chain_agree; [done|by eapply shape_ordered|intros; by apply Hk|]. intros k p _ Hp. destruct (Ho _ _ Hp) as [_ Hin].
    apply (sh_range _ _ Hs) in Hin. lia. }
  assert (∀ tid m, members t !! tid = Some m → m_node m < next_id t) as Hm.
  { intros tid m Hm. apply (to_homes t Ht) in Hm. apply (sh_range _ _ Hs) in Hm. lia. }
  split; cbn [nodes members next_id].
  - unfold wrap. rewrite Z.mod_small by lia. done.
  - apply Ht.
  - intros tid m Hmem. apply Hk; [specialize (Hm _ _ Hmem); lia|by eapply to_homes].
  - intros n x Hx Hn0. destruct (decide (n = next_id t)) as [->|Hne].
    + assert (x = node_new now name (Some parent) uid gid) as ->.
      { subst ns'. rewrite lookup_alter_ne, lookup_insert_eq in Hx by lia. by injection Hx as <-. }
      cbn [tasks live node_new]. assert (∀ w, total w ns' (members t) (next_id t) = 0) as Hz; [|by rewrite !Hz].
      intros w. apply total_none. intros k m Hkm Hin. pose proof (Hm _ _ Hkm). rewrite Hch in Hin by lia. apply chain_le in Hin; [lia|done].
    + assert (∀ w, total w ns' (members t) n = total w (nodes t) (members t) n) as Hsame.
      { intros w. apply msum_map_ext. intros k m Hkm. unfold inside. pose proof (Hm _ _ Hkm). by rewrite Hch by lia. }
      rewrite !Hsame. revert Hx. subst ns'. destruct (decide (n = parent)) as [->|Hnp].
      * rewrite lookup_alter_eq, lookup_insert_ne by lia. rewrite Hy. intros [= <-]. by apply (to_counts t Ht parent y).
      * rewrite lookup_alter_ne, lookup_insert_ne by lia. intros Hx. by apply to_counts.
Qed.

Lemma msum_fmap {A B} (f : Z → B → Z) (g : A → B) (m : gmap Z A) : msum f (g <$> m) = msum (λ k a, f k (g a)) m.
Proof.
  induction m as [|k a m Hk IH] using map_ind; [by rewrite fmap_empty, !msum_empty|].
  rewrite fmap_insert, !msum_insert; [by rewrite IH|done|]. by rewrite lookup_fmap, Hk.
Qed.
Lemma rmdir_shape now ns nx node x p :
  shape ns nx → ns !! node = Some x → c_parent x = Some p → children x = ∅ →
  shape (alter (λ y, set_children y (delete (c_name x) (children y)) now) p (delete node ns)) nx.
Proof.
  intros [(r & Hr & Er) Hp Hq Hg] Hx Epx Hc. set (f := λ y, _).
  assert (node ≠ ROOT) as Hroot by congruence.
  destruct (Hp node x Hx Hroot) as (p' & y & E & Hlt & Hy & Hcy). rewrite Epx in E. injection E as <-.
  assert (∀ k, k ≠ node → k ≠ p → alter f p (delete node ns) !! k = ns !! k) as Hother.
  { intros k Hk Hk'. by rewrite lookup_alter_ne, lookup_delete_ne by done. }
  assert (alter f p (delete node ns) !! p = Some (f y)) as Hpar by (rewrite lookup_alter_eq, lookup_delete_ne by lia; by rewrite Hy).
  assert (alter f p (delete node ns) !! node = None) as Hgone by (rewrite lookup_alter_ne by lia; apply lookup_delete_eq).
  split.
  - destruct (decide (ROOT = p)) as [<-|Hn]; [exists (f y); split; [done|]; simpl; congruence|]. exists r. by rewrite Hother.
  - intros n z Hz Hn. destruct (decide (n = node)) as [->|Hnn]; [congruence|].
    assert (∃ z0, ns !! n = Some z0 ∧ c_parent z = c_parent z0 ∧ c_name z = c_name z0) as (z0 & Hz0 & E1 & E2).
    { destruct (decide (n = p)) as [->|Hnp]; [|exists z; by rewrite <- Hother by done]. rewrite Hpar in Hz. injection Hz as <-. by exists y. }
    destruct (Hp n z0 Hz0 Hn) as (q & w & Eq & Hlq & Hw & Hcw). rewrite E1, E2. exists q.
    assert (q ≠ node) as Hqn by (intros ->; rewrite Hx in Hw; injection Hw as <-; by rewrite Hc in Hcw).
    destruct (decide (q = p)) as [->|Hqp]; [|exists w; by rewrite Hother].
    exists (f y). split_and!; [done|done|done|]. simpl. rewrite Hy in Hw. injection Hw as <-.
    rewrite lookup_delete_ne; [done|]. congruence.
  - intros q z nm c Hz Hcz. assert (∃ z0, ns !! q = Some z0 ∧ children z0 !! nm = Some c ∧ (q = p → nm ≠ c_name x)) as (z0 & Hz0 & Hcz0 & Hne).
    { destruct (decide (q = p)) as [->|Hqp].
      - rewrite Hpar in Hz. injection Hz as <-. simpl in Hcz. apply lookup_delete_Some in Hcz as [Hd Hcz]. by exists y.
      - destruct (decide (q = node)) as [->|Hqn]; [congruence|]. rewrite Hother in Hz by done. by exists z. }
    destruct (Hq q z0 nm c Hz0 Hcz0) as (w & Hw & E1 & E2).
    assert (c ≠ node) as Hcn. { intros ->. rewrite Hx in Hw. injection Hw as <-. rewrite Epx in E1. injection E1 as <-. by apply Hne. }
    destruct (decide (c = p)) as [->|Hcp]; [|exists w; by rewrite Hother].
    exists (f y). rewrite Hy in Hw. injection Hw as <-. done.
  - intros n Hn. apply Hg. destruct (decide (n = node)) as [->|Hnn]; [by rewrite Hx|].
    destruct (decide (n = p)) as [->|Hnp]; [by rewrite Hy|]. by rewrite <- Hother.
Qed.
Lemma rmdir_ok now t node r t' : tree_ok t → rmdir now t node = (r, t') → tree_ok t'.
Proof.
  intros Ht. unfold rmdir. destruct (nodes t !! node) as [x|] eqn:Hx; [|by intros [= _ <-]].
  destruct (c_parent x) as [p|] eqn:Ep; [|by intros [= _ <-]]. destruct (bool_decide (children x = ∅)) eqn:Hc; [|by intros [= _ <-]].
  apply bool_decide_eq_true in Hc. cbn [negb orb]. destruct (0 <? live x); [by intros [= _ <-]|]. intros [= _ <-].
  pose proof (to_shape t Ht) as Hs. pose proof (shape_ordered _ _ Hs) as Ho.
  assert (parent_in (nodes t) node = Some p) as Hpn by (unfold parent_in; by rewrite Hx). destruct (Ho _ _ Hpn) as [Hlt [y Hy]].
  pose proof (rmdir_shape now _ _ node x p Hs Hx Ep Hc) as Hs'. set (ns' := alter _ p _) in *.
  assert (∀ k, k ≠ node → parent_in ns' k = parent_in (nodes t) k ∧ (is_Some (nodes t !! k) → is_Some (ns' !! k))) as Hk.
  { intros k Hk. unfold parent_in. subst ns'. destruct (decide (k = p)) as [->|Hkp].
    - rewrite lookup_alter_eq, lookup_delete_ne by lia. by rewrite Hy.
    - by rewrite lookup_alter_ne, lookup_delete_ne by done. }
  assert (∀ k, k ≠ node → chain_in ns' k = chain_in (nodes t) k) as Hch.
  { apply cg_chain_agree; [done|by eapply shape_ordered|intros; by apply Hk|]. intros k q _ Hq ->. unfold parent_in in Hq.
    destruct (nodes t !! k) as [z|] eqn:Hz; [|done]. simpl in Hq. destruct (decide (k = ROOT)) as [->|Hkr].
    { destruct (sh_root _ _ Hs) as (rt & Hrt & Ert). congruence. }
    destruct (sh_parent _ _ Hs k z Hz Hkr) as (q' & w & Eq & _ & Hw & Hcw). rewrite Hq in Eq. injection Eq as <-.
    rewrite Hx in Hw. injection Hw as <-. by rewrite Hc in Hcw. }
  set (g := λ m, if m_node m =? node then mkMember p (m_live m) else m).
  split; cbn [nodes members next_id].
  - done.
  - intros tid Hin. apply Ht. rewrite lookup_fmap in Hin. by apply fmap_is_Some in Hin.
  - intros tid m Hm. rewrite lookup_fmap in Hm. destruct (members t !! tid) as [m0|] eqn:Em; [|done]. injection Hm as <-.
    unfold g. destruct (Z.eqb_spec (m_node m0) node) as [|Hne]; cbn [m_node]; [apply Hk; [lia|by exists y]|].
    apply Hk; [done|]. by eapply to_homes.
  - intros n z Hz Hn. assert (n ≠ node) as Hnn.
    { intros ->. subst ns'. rewrite lookup_alter_ne, lookup_delete_eq in Hz by lia. done. }
    assert (∀ w, (∀ m, w (g m) = w m) → total w ns' (g <$> members t) n = total w (nodes t) (members t) n) as Hsame.
    { intros w Hw. unfold total. rewrite msum_fmap. apply msum_map_ext. intros k m Hm. rewrite Hw. f_equal. unfold inside, g.
      destruct (Z.eqb_spec (m_node m) node) as [->|Hne]; cbn [m_node]; [|by rewrite Hch]. rewrite Hch by lia.
      rewrite (cg_chain_eq _ node Ho), Hpn. apply (f_equal (λ b : bool, if b then 1 else 0)), bool_decide_ext.
      rewrite elem_of_cons. split; [by right|by intros [|]]. }
    rewrite !Hsame; [|intros m; unfold alive, g; by destruct (_ =? _)|done].
    revert Hz. subst ns'. destruct (decide (n = p)) as [->|Hnp].
    + rewrite lookup_alter_eq, lookup_delete_ne by lia. rewrite Hy. intros [= <-]. by apply (to_counts t Ht p y).
    + rewrite lookup_alter_ne, lookup_delete_ne by done. intros Hz. by apply to_counts.
Qed.

(** ** Forks, writes and the rest *)

Lemma limits_spec ns t e t' : limits_allow ns t = (e, t') →
  match e with
  | None => t' = t ∧ ∀ n, n ∈ ns → ∃ x, nodes t !! n = Some x ∧ ∀ mx, pids_max x = Some mx → tasks x + 1 ≤ mx
  | Some e => (∃ n, t' = update t n (λ x, set_events x (pids_events x + 1)) ∧ e = EAGAIN ∧ n ∈ ns ∧
      ∃ x mx, nodes t !! n = Some x ∧ pids_max x = Some mx ∧ mx ≤ tasks x) ∨ t' = t ∧ e = ENOENT
  end.
Proof.
  induction ns as [|n ns IH]; simpl; [intros [= <- <-]; split; [done|]; intros n Hn; by apply elem_of_nil in Hn|].
  destruct (nodes t !! n) as [x|] eqn:Hx; [|intros [= <- <-]; by right].
  destruct (match pids_max x with Some mx => mx <? tasks x + 1 | None => false end) eqn:El.
  - intros [= <- <-]. left. exists n. split_and!; [done|done|by left|]. destruct (pids_max x) as [mx|] eqn:Em; [|done].
    exists x, mx. split_and!; [done|done|]. apply Z.ltb_lt in El. lia.
  - intros E. specialize (IH E). destruct e as [e|].
    + destruct IH as [(k & H1 & H2 & H3 & H4)|IH]; [|by right]. left. exists k. split_and!; try done. by right.
    + destruct IH as [-> IH]. split; [done|]. intros k [->|Hk]%elem_of_cons; [|by apply IH]. exists x. split; [done|].
      intros mx Em. rewrite Em in El. apply Z.ltb_ge in El. lia.
Qed.
Lemma events_ok t n : tree_ok t → tree_ok (update t n (λ x, set_events x (pids_events x + 1))).
Proof. intros Ht. by apply ok_update. Qed.
Lemma fork_ok t parent tid into : tree_ok t → is_tid tid → members t !! tid = None → tree_ok (fork t parent tid into).2.
Proof.
  intros Ht Htid Hm. unfold fork, can_fork. set (node := default _ into).
  destruct (if bool_decide (is_Some into) then check_attach t node else None) as [e|]; [done|].
  destruct (limits_allow (chain t node) t) as [[e|] t1] eqn:E; apply limits_spec in E.
  - destruct E as [(n & -> & _)|[-> _]]; [by apply events_ok|done].
  - destruct E as [-> E]. destruct (E node (cg_chain_self _ _)) as (x & Hx & _).
    pose proof (attach_ok t tid node Ht Htid Hm ltac:(by rewrite Hx)) as Ha. by destruct (attach_new t tid node).
Qed.

Lemma limit_ok t node text f r t' : (∀ x v, skel (f x v) = skel x ∧ tasks (f x v) = tasks x ∧ live (f x v) = live x) →
  tree_ok t → set_limit t node text f = (r, t') → tree_ok t'.
Proof.
  intros Hf Ht. unfold set_limit. destruct (limit_of text) as [e|v]; [by intros [= _ <-]|].
  destruct (nodes t !! node); intros [= _ <-]; [|done]. by apply ok_update.
Qed.
Lemma write_ok t node file text r t' : tree_ok t → write_file t node file text = Ok (r, t') → tree_ok t'.
Proof.
  intros Ht. unfold write_file. repeat case_bool_decide; try (intros [= E]; by eapply limit_ok in E); try (by intros [= _ <-]).
  unfold write_subtree_control. destruct (control_words _ _ _) as [[e|[on|]]|]; cbn [mbind res_bind]; try (by intros [= _ <-]).
  destruct (nodes t !! node) as [n|]; [|done]. case_bool_decide; [by intros [= _ <-]|].
  match goal with |- context [if ?b then Ok (Some EBUSY, t) else _] => destruct b end; intros [= _ <-]; [done|]. by apply ok_update.
Qed.
Lemma owner_ok t root rel uid gid r t' : tree_ok t → fs_set_owner t root rel uid gid = Ok (r, t') → tree_ok t'.
Proof.
  intros Ht. unfold fs_set_owner. destruct (lookup_path t root rel) as [[node file]|]; [|by intros [= _ <-]].
  match goal with |- context [if ?b then _ else Ok (Good tt, t)] => destruct b end; [|by intros [= _ <-]].
  destruct (nodes t !! node); [|done]. intros [= _ <-]. by apply ok_update.
Qed.
Lemma freeze_ok t node on : tree_ok t → tree_ok (set_freeze t node on).2.
Proof.
  intros Ht. unfold set_freeze. destruct (nodes t !! node); [|done]. case_bool_decide; [done|]. by apply ok_update.
Qed.
Lemma ns_root_ok t ns node : tree_ok t → tree_ok (set_ns_root t ns node).
Proof. by intros [H1 H2 H3 H4]. Qed.

(** * Runs *)

(** What happens to the hierarchy: tasks are forked under fresh ids, exit and are reaped, are moved
    by a writer who sees each task at least once; groups are made, removed, written and given away. *)
Inductive cstep (t : CgroupTree) : CgroupTree → Prop :=
| cs_fork parent tid into : is_tid tid → members t !! tid = None → cstep t (fork t parent tid into).2
| cs_exit tid cpu : cstep t (exit t tid cpu)
| cs_release tid cpu : cstep t (release t tid cpu)
| cs_move ts ns pv euid node target th : task_list ts →
    cstep t (cgroup_move t ts ns pv euid node target th).2
| cs_sync ts : cstep t (sync_exits t ts)
| cs_mkdir checks now parent name uid gid r t' : next_id t + 1 < U32 → mkdir checks now t parent name uid gid = Ok (r, t') → cstep t t'
| cs_rmdir now node r t' : rmdir now t node = (r, t') → cstep t t'
| cs_write node file text r t' : write_file t node file text = Ok (r, t') → cstep t t'
| cs_owner root rel uid gid r t' : fs_set_owner t root rel uid gid = Ok (r, t') → cstep t t'
| cs_freeze node on : cstep t (set_freeze t node on).2
| cs_ns_root ns node : cstep t (set_ns_root t ns node).

Lemma cg_step_ok t t' : cstep t t' → tree_ok t → tree_ok t'.
Proof.
  intros [] Ht; [by apply fork_ok|by apply exit_ok|by apply release_ok|by apply move_ok|by apply sync_exits_spec|by eapply mkdir_ok|
    by eapply rmdir_ok|by eapply write_ok|by eapply owner_ok|by apply freeze_ok|by apply ns_root_ok].
Qed.
Lemma default_ok now : tree_ok (tree_default now).
Proof.
  assert (∀ n x, nodes (tree_default now) !! n = Some x → n = ROOT ∧ x = node_new now [] None 0 0) as H.
  { intros n x Hx. cbn [nodes tree_default] in Hx. apply lookup_singleton_Some in Hx as [<- <-]. done. }
  split; [split| | |].
  - eexists. split; [apply lookup_singleton_eq|done].
  - intros n x Hx Hn. by destruct (H n x Hx).
  - intros p y name c Hy. destruct (H p y Hy) as [_ ->]. cbn [children node_new]. by rewrite lookup_empty.
  - intros n [x Hx]. destruct (H n x Hx) as [-> _]. done.
  - intros tid [m Hm]. cbn [members tree_default] in Hm. by rewrite lookup_empty in Hm.
  - intros tid m Hm. cbn [members tree_default] in Hm. by rewrite lookup_empty in Hm.
  - intros n x Hx Hn. by destruct (H n x Hx).
Qed.
Lemma crun_ok now t : rtc cstep (tree_default now) t → tree_ok t.
Proof.
  intros Hr. assert (∀ a b, rtc cstep a b → tree_ok a → tree_ok b) as Hi by (induction 1; eauto using cg_step_ok).
  by eapply Hi, default_ok.
Qed.

(** The members of cgroup [n] and below, and those of them that have not exited. *)
Definition members_in (t : CgroupTree) (n : Z) : gmap Z Member := filter (λ x, n ∈ chain t (m_node x.2)) (members t).
Definition live_in (t : CgroupTree) (n : Z) : gmap Z Member := filter (λ x, m_live x.2 = true) (members_in t n).
Lemma total_filter w ns ms n (P : Member → Prop) `{∀ m, Decision (P m)} :
  (∀ m, w m * inside ns (m_node m) n = if decide (P m) then 1 else 0) →
  total w ns ms n = Z.of_nat (size (filter (λ x, P x.2) ms)).
Proof.
  intros Hw. unfold total. induction ms as [|k m ms Hk IH] using map_ind; [by rewrite msum_empty, map_filter_empty, map_size_empty|].
  rewrite msum_insert, IH, Hw by done. destruct (decide (P m)) as [Hp|Hp].
  - rewrite map_filter_insert_True, map_size_insert_None; [lia|by apply map_lookup_filter_None_2; left|done].
  - rewrite map_filter_insert_False by done. rewrite delete_id by done. lia.
Qed.
Lemma exact_counts t n x : tree_ok t → nodes t !! n = Some x → n ≠ ROOT →
  tasks x = Z.of_nat (size (members_in t n)) ∧ live x = Z.of_nat (size (live_in t n)).
Proof.
  intros Ht Hx Hn. destruct (to_counts t Ht n x Hx Hn) as [-> ->]. split.
  - rewrite (total_filter one _ _ n (λ m, n ∈ chain t (m_node m))).
    + done.
    + intros m. unfold one, inside, chain. case_bool_decide; case_decide; done.
  - rewrite (total_filter alive _ _ n (λ m, m_live m = true ∧ n ∈ chain t (m_node m))).
    + unfold live_in, members_in. by rewrite map_filter_filter.
    + intros m. unfold alive, inside, chain. destruct (m_live m); case_bool_decide; case_decide; naive_solver.
Qed.

(** C19: The hierarchy of control groups stays a tree and its counts are exact. After any run of
    forks, exits, reaping, moves and changes of the hierarchy in which the 32-bit ids of groups have
    not run out ([group_ids_wrap]): every group but the root is listed
    under its name by a parent that exists; every task is in a group that exists; [pids.current] of
    a group is the number of tasks in it and below, zombies included, and the group is populated
    exactly when one of them has not exited. *)
Theorem cgroup_counts now t :
  rtc cstep (tree_default now) t →
  (∀ n x, nodes t !! n = Some x → n ≠ ROOT →
     (∃ p y, c_parent x = Some p ∧ nodes t !! p = Some y ∧ children y !! c_name x = Some n) ∧
     tasks x = Z.of_nat (size (members_in t n)) ∧ live x = Z.of_nat (size (live_in t n))) ∧
  (∀ tid m, members t !! tid = Some m → is_Some (nodes t !! m_node m)) ∧
  (∀ n, is_Some (nodes t !! n) → is_within t n ROOT = true).
Proof.
  intros Hr. pose proof (crun_ok _ _ Hr) as Ht. pose proof (to_shape t Ht) as Hs. pose proof (shape_ordered _ _ Hs) as Ho. split_and!.
  - intros n x Hx Hn. split; [|by apply exact_counts]. destruct (sh_parent _ _ Hs n x Hx Hn) as (p & y & H1 & _ & H2 & H3). by exists p, y.
  - apply Ht.
  - intros n Hn. apply bool_decide_eq_true. unfold chain. revert n Hn.
    apply (cg_ordered_ind _ (λ n, is_Some (nodes t !! n) → ROOT ∈ chain_in (nodes t) n) Ho). intros n IH [x Hx].
    destruct (decide (n = ROOT)) as [->|Hn]; [apply cg_chain_self|]. destruct (sh_parent _ _ Hs n x Hx Hn) as (p & y & H1 & _ & H2 & _).
    assert (parent_in (nodes t) n = Some p) as Ep by (unfold parent_in; by rewrite Hx). rewrite cg_chain_eq, Ep by done. right.
    apply IH; [done|by exists y].
Qed.

(** C20: No fork takes a group over its [pids.max]. In every reachable hierarchy a fork that is
    accepted leaves each group the new task is in, at any height, with at most as many tasks as its
    limit; a fork refused with [EAGAIN] is refused because some group above already has its limit
    of tasks, and no refused fork changes who is where. *)
Theorem pids_max_enforced now t parent tid into r t' :
  rtc cstep (tree_default now) t → is_tid tid → members t !! tid = None → fork t parent tid into = (r, t') →
  match r with
  | inr _ => ∀ n x mx, n ∈ chain t' (default (node_of t parent) into) → n ≠ ROOT → nodes t' !! n = Some x → pids_max x = Some mx →
      Z.of_nat (size (members_in t' n)) ≤ mx
  | inl e => members t' = members t ∧ (e = EAGAIN → ∃ n x mx, n ∈ chain t (default (node_of t parent) into) ∧
      nodes t !! n = Some x ∧ pids_max x = Some mx ∧ (n ≠ ROOT → mx ≤ Z.of_nat (size (members_in t n))))
  end.
Proof.
  intros Hr Htid Hm E. pose proof (crun_ok _ _ Hr) as Ht. pose proof (fork_ok t parent tid into Ht Htid Hm) as Ht'. rewrite E in Ht'. simpl in Ht'.
  pose proof (to_shape t Ht) as Hs. unfold fork, can_fork in E. set (node := default _ into) in *.
  destruct (if bool_decide (is_Some into) then check_attach t node else None) as [e|] eqn:Ea.
  { injection E as <- <-. split; [done|]. intros ->. destruct (bool_decide (is_Some into)); [|done].
    unfold check_attach in Ea. by repeat (case_match; try done). }
  destruct (limits_allow (chain t node) t) as [[e|] t1] eqn:El; apply limits_spec in El.
  - injection E as <- <-. destruct El as [(n & -> & -> & Hn & x & mx & Hx & Emx & Hle)|[-> ->]]; [|done].
    split; [done|]. intros _. exists n, x, mx. split_and!; [done|done|done|]. intros Hr0. by destruct (exact_counts t n x Ht Hx Hr0) as [<- _].
  - destruct El as [-> El]. destruct (attach_new t tid node) as [f t2] eqn:Et. injection E as <- <-.
    intros n x' mx Hn Hn0 Hx' Emx. destruct (exact_counts t2 n x' Ht' Hx' Hn0) as [<- _].
    destruct (charge_frame t (chain t node) 1 1) as (_ & _ & Hk).
    assert (nodes t2 = nodes (charge t (chain t node) 1 1)) as En.
    { unfold attach_new in Et. injection Et as _ <-. by destruct (node =? ROOT). }
    unfold chain in Hn. rewrite En, (chain_skel _ _ _ _ Hk Hs) in Hn. rewrite En, charge_at in Hx' by (by eapply cg_chain_NoDup, shape_ordered).
    destruct (El n Hn) as (x & Hx & Hmx). rewrite Hx in Hx'. cbn in Hx'. rewrite bool_decide_true in Hx' by done. injection Hx' as <-.
    cbn in Emx |- *. specialize (Hmx mx Emx). destruct (counts_range t n x Ht Hx Hn0) as [R1 R2]. rewrite sat_exact by (unfold U64; lia). done.
Qed.

(** * A hierarchy with a limit *)

Definition n_web : list Z := txt "web".
Definition with_web : CgroupTree :=
  match mkdir true 7 (tree_default 7) ROOT n_web 0 0 with Ok (_, t) => t | Panic => tree_default 7 end.
Definition limited : CgroupTree :=
  match write_file with_web 1 (txt "pids.max") (txt "1") with Ok (_, t) => t | Panic => with_web end.
Definition one_task : CgroupTree := (fork limited 5 10 (Some 1)).2.
Lemma mkdir_step t t' r : mkdir true 7 t ROOT n_web 0 0 = Ok (r, t') → next_id t + 1 < U32 → cstep t t'.
Proof. intros E Hn. by eapply cs_mkdir. Qed.
Lemma limited_run : rtc cstep (tree_default 7) limited.
Proof.
  eapply rtc_l; [apply (mkdir_step _ with_web (inr 1)); [vm_compute; reflexivity|done]|].
  eapply rtc_once, (cs_write _ 1 (txt "pids.max") (txt "1") None). vm_compute. reflexivity.
Qed.
Lemma one_task_run : rtc cstep (tree_default 7) one_task.
Proof. eapply rtc_r; [apply limited_run|]. apply cs_fork; [unfold is_tid; lia|vm_compute; reflexivity]. Qed.
Lemma cgroup_counts_witness : ∃ x, nodes one_task !! 1 = Some x ∧ tasks x = 1 ∧ tasks x = Z.of_nat (size (members_in one_task 1)).
Proof.
  assert (tasks <$> nodes one_task !! 1 = Some 1) as E by (vm_compute; reflexivity).
  destruct (nodes one_task !! 1) as [x|] eqn:Hx; [|discriminate E]. exists x. injection E as E. split; [reflexivity|]. split; [exact E|].
  destruct (cgroup_counts 7 one_task one_task_run) as [H _]. apply (H 1 x Hx). discriminate.
Defined.
(** The first task fits, the second is refused. *)
Lemma pids_max_enforced_witness :
  (fork one_task 10 11 None).1 = inl EAGAIN ∧ members (fork one_task 10 11 None).2 = members one_task.
Proof.
  assert ((fork one_task 10 11 None).1 = inl EAGAIN) as E by (vm_compute; reflexivity). split; [exact E|].
  destruct (fork one_task 10 11 None) as [r t'] eqn:Ef. simpl in E. subst r.
  apply (pids_max_enforced 7 one_task 10 11 None (inl EAGAIN) t' one_task_run); [unfold is_tid; lia|vm_compute; reflexivity|exact Ef].
Defined.

(** A word of [cgroup.subtree_control] that starts with a character of several bytes panics. *)
Lemma control_write_panics : fs_write_at with_web ROOT (txt "web/cgroup.subtree_control") [0xc3; 0xa9] = Panic.
Proof. vm_compute. reflexivity. Qed.
(** The 2^32nd group made is given the root's number. *)
Lemma group_ids_wrap now t parent name r t' :
  next_id t = U32 - 1 → mkdir false now t parent name 0 0 = Ok (inr r, t') → next_id t' = ROOT.
Proof.
  intros Hn. unfold mkdir. destruct (nodes t !! parent); [|done]. destruct (_ || _); [done|]. destruct (bad_name name); [done|].
  destruct (any_over _ _ _) as [[]|]; [done| |done]. cbn. intros [= _ <-]. simpl. by rewrite Hn.
Qed.

(** * Subtrees *)

Lemma elem_of_values {V} (m : gmap (list Z) V) v : v ∈ values m ↔ ∃ k, m !! k = Some v.
Proof.
  unfold values. rewrite list_elem_of_omap. split; [intros (k & _ & E); by exists k|]. intros [k E]. exists k. split; [|done].
  apply elem_of_btree_keys. by exists v.
Qed.
Lemma NoDup_values (m : gmap (list Z) Z) : (∀ a b v, m !! a = Some v → m !! b = Some v → a = b) → NoDup (values m).
Proof.
  intros Hinj. unfold values. pose proof (NoDup_btree_keys m) as Hd. induction Hd as [|k ks Hk Hd IH]; [apply NoDup_nil_2|].
  simpl. destruct (m !! k) as [v|] eqn:E; [|done]. apply NoDup_cons. split; [|done].
  intros (k' & Hk' & E')%list_elem_of_omap. apply Hk. by rewrite (Hinj k k' v).
Qed.
Section Subtree.
Context (ns : gmap Z CNode) (nx top : Z) (Hs : shape ns nx).
Let Ho : ordered ns := shape_ordered ns nx Hs.
Definition kids (n : Z) : list Z := match ns !! n with Some x => values (children x) | None => [] end.
Lemma kids_spec n c : c ∈ kids n ↔ parent_in ns c = Some n.
Proof.
  unfold kids, parent_in. split.
  - destruct (ns !! n) as [y|] eqn:Hy; [|intros H; by apply elem_of_nil in H]. intros [k Hk]%elem_of_values.
    destruct (sh_child _ _ Hs n y k c Hy Hk) as (x & Hx & Ex & _). by rewrite Hx.
  - destruct (ns !! c) as [x|] eqn:Hx; [|done]. simpl. intros Ep. destruct (decide (c = ROOT)) as [->|Hr].
    { destruct (sh_root _ _ Hs) as (r & Hr & Er). congruence. }
    destruct (sh_parent _ _ Hs c x Hx Hr) as (p & y & E & _ & Hy & Hc). rewrite Ep in E. injection E as <-. rewrite Hy.
    apply elem_of_values. by exists (c_name x).
Qed.
Lemma kids_NoDup n : NoDup (kids n).
Proof.
  unfold kids. destruct (ns !! n) as [y|] eqn:Hy; [|apply NoDup_nil_2]. apply NoDup_values. intros a b v Ha Hb.
  destruct (sh_child _ _ Hs n y a v Hy Ha) as (x & Hx & _ & <-). destruct (sh_child _ _ Hs n y b v Hy Hb) as (x' & Hx' & _ & <-). congruence.
Qed.

(** What has been read ([seen]) and what has still to be: no group twice, all of them below [top],
    everyone's parent read before, everyone's children on the list. *)
Record walk (seen queue : list Z) : Prop := mkWalk {
  wk_once : NoDup (seen ++ queue);
  wk_below n : n ∈ seen ++ queue → is_Some (ns !! n) ∧ top ∈ chain_in ns n;
  wk_parent n : n ∈ seen ++ queue → n = top ∨ ∃ p, parent_in ns n = Some p ∧ p ∈ seen;
  wk_kids n c : n ∈ seen → parent_in ns c = Some n → c ∈ seen ++ queue
}.
Lemma walk_step seen n queue : walk seen (n :: queue) → walk (seen ++ [n]) (queue ++ kids n).
Proof.
  intros [W1 W2 W3 W4].
  assert (∀ k, k ∈ (seen ++ [n]) ++ queue ++ kids n ↔ k ∈ seen ++ n :: queue ∨ parent_in ns k = Some n) as Hin.
  { intros k. rewrite !elem_of_app, !elem_of_cons, elem_of_nil, kids_spec. tauto. }
  assert (n ∈ seen ++ n :: queue) as Hn by (apply elem_of_app; right; by left). destruct (W2 n Hn) as [Hnp Htop].
  assert (n ∉ seen) as Hns. { intros H. apply NoDup_app in W1 as (_ & W1 & _). apply (W1 n H). by left. }
  split.
  - rewrite app_assoc. rewrite <- (app_assoc seen). apply NoDup_app. split_and!; [exact W1| |apply kids_NoDup].
    intros k Hk Hkid. apply kids_spec in Hkid. destruct (W3 k Hk) as [->|(p & Ep & Hp)]; [|congruence].
    apply chain_le in Htop; [|exact Ho]. destruct (Ho _ _ Hkid). lia.
  - intros k [Hk|Hk]%Hin; [by apply W2|]. split; [by eapply parent_present|]. rewrite cg_chain_eq, Hk by exact Ho. by right.
  - intros k [Hk|Hk]%Hin.
    + destruct (W3 k Hk) as [->|(p & Ep & Hp)]; [by left|]. right. exists p. split; [done|]. apply elem_of_app. by left.
    + right. exists n. split; [done|]. apply elem_of_app. right. by left.
  - intros k c Hk Hc. apply Hin. apply elem_of_app in Hk as [Hk| ->%list_elem_of_singleton]; [left; by eapply W4|by right].
Qed.
Lemma walk_size seen queue : walk seen queue → (length seen + length queue ≤ size ns)%nat.
Proof.
  intros [W1 W2 _ _]. rewrite <- length_app, <- (size_dom (D := gset Z)), <- (size_list_to_set (C := gset Z)) by done.
  apply subseteq_size. intros n Hn%elem_of_list_to_set. apply elem_of_dom. by apply W2.
Qed.
Lemma walk_ends fuel : ∀ seen queue, walk seen queue → (size ns < fuel + length seen)%nat →
  walk (seen ++ subtree_loop fuel ns queue) [].
Proof.
  induction fuel as [|fuel IH]; intros seen queue W Hf; [pose proof (walk_size _ _ W); lia|].
  destruct queue as [|n queue]; simpl; [by rewrite app_nil_r|].
  change (n :: subtree_loop fuel ns (queue ++ _)) with ([n] ++ subtree_loop fuel ns (queue ++ kids n)). rewrite app_assoc.
  apply IH; [by apply walk_step|]. rewrite length_app. simpl. lia.
Qed.
End Subtree.
(** [subtree] lists, once each, exactly the groups within [node]. *)
Lemma subtree_spec t node : tree_ok t → is_Some (nodes t !! node) →
  NoDup (subtree t node) ∧ ∀ n, n ∈ subtree t node ↔ is_Some (nodes t !! n) ∧ is_within t n node = true.
Proof.
  intros Ht Hn. pose proof (to_shape t Ht) as Hs. pose proof (shape_ordered _ _ Hs) as Ho.
  assert (walk (nodes t) node [] [node]) as W.
  { split; [apply NoDup_singleton| | |]; simpl.
    - intros k ->%list_elem_of_singleton. split; [done|apply cg_chain_self].
    - intros k ->%list_elem_of_singleton. by left.
    - intros k c Hk. by apply elem_of_nil in Hk. }
  apply (walk_ends _ _ _ Hs (S (size (nodes t)))) in W; [|simpl; lia]. simpl in W. fold (subtree t node) in W.
  destruct W as [W1 W2 W3 W4]. unfold is_within. setoid_rewrite bool_decide_eq_true. rewrite app_nil_r in *.
  split; [done|]. intros n. split; [by apply W2|]. intros [Hp Hc]. revert n Hp Hc.
  apply (cg_ordered_ind _ (λ n, is_Some (nodes t !! n) → node ∈ chain t n → n ∈ subtree t node) Ho). intros n IH _ Hc.
  unfold chain in Hc. rewrite cg_chain_eq in Hc by done. apply elem_of_cons in Hc as [<-|Hc].
  { unfold subtree. simpl. by left. }
  destruct (parent_in (nodes t) n) as [p|] eqn:Ep; [|by apply elem_of_nil in Hc].
  apply (W4 p); [|done]. apply IH; [done|by eapply Ho|done].
Qed.
(** [cgroup.kill] and [cgroup.freeze] reach exactly the tasks of the group and below. *)
Lemma kill_exact t node pids l p : tree_ok t → is_Some (nodes t !! node) → cgroup_kill t node (txt "1") pids = inr l →
  p ∈ l ↔ p ∈ pids ∧ is_within t (node_of t p) node = true.
Proof.
  intros Ht Hn. unfold cgroup_kill. rewrite bool_decide_true by done. intros [= <-]. rewrite list_elem_of_filter.
  rewrite (proj2 (subtree_spec t node Ht Hn)). assert (is_Some (nodes t !! node_of t p)) as Hp; [|tauto].
  unfold node_of. destruct (members t !! p) as [m|] eqn:Em; [by eapply to_homes|].
  destruct (sh_root _ _ (to_shape t Ht)) as (r & Hr & _). by exists r.
Qed.
