(* ===== verification/Ns.v ===== *)
(** Namespaces of a task ([src/kernel/ns.rs]), the kernel side of user namespaces
    ([src/kernel/userns.rs]) and [unshare] ([src/kernel/attrs.rs]): which namespaces a task is
    in, how [clone], [unshare] and [setns] change that, what privilege counts where, and writes
    to the control files of [/proc]. *)
From S2P Require Import Prelude Iface Abi NsChain Text Path Vfs Mount Fd PidNs UserNs.
From Stdlib Require Import String.
From stdpp Require Import base numbers gmap list sorting.
Local Open Scope Z_scope.

Definition CLONE_NEWTIME : Z := 0x80.
Definition CLONE_VM : Z := 0x100.
Definition CLONE_FS : Z := 0x200.
Definition CLONE_FILES : Z := 0x400.
Definition CLONE_SIGHAND : Z := 0x800.
Definition CLONE_THREAD : Z := 0x10000.
Definition CLONE_NEWNS : Z := 0x20000.
Definition CLONE_SYSVSEM : Z := 0x40000.
Definition CLONE_NEWCGROUP : Z := 0x2000000.
Definition CLONE_NEWUTS : Z := 0x4000000.
Definition CLONE_NEWIPC : Z := 0x8000000.
Definition CLONE_NEWUSER : Z := 0x10000000.
Definition CLONE_NEWPID : Z := 0x20000000.
Definition CLONE_NEWNET : Z := 0x40000000.

Definition has (flags f : Z) : bool := negb (Z.land flags f =? 0).
Definition lors (l : list Z) : Z := foldl Z.lor 0 l.

(** * Kinds and a task's namespaces *)

Definition ALL_KINDS : list NsKind :=
  [Cgroup; Ipc; Mnt; Net; Pid; PidForChildren; Time; TimeForChildren; User; Uts].
Global Instance NsKind_eq_dec : EqDecision NsKind.
Proof. solve_decision. Defined.

Definition file_name (k : NsKind) : list Z :=
  txt match k with
      | Cgroup => "cgroup" | Ipc => "ipc" | Mnt => "mnt" | Net => "net" | Pid => "pid"
      | PidForChildren => "pid_for_children" | Time => "time"
      | TimeForChildren => "time_for_children" | User => "user" | Uts => "uts"
      end.
Definition from_file_name (name : list Z) : option NsKind :=
  List.find (λ k, bool_decide (file_name k = name)) ALL_KINDS.
Definition link_name (k : NsKind) : list Z :=
  match k with PidForChildren => txt "pid" | TimeForChildren => txt "time" | _ => file_name k end.
Definition flag (k : NsKind) : Z :=
  match k with
  | Cgroup => CLONE_NEWCGROUP | Ipc => CLONE_NEWIPC | Mnt => CLONE_NEWNS | Net => CLONE_NEWNET
  | Pid | PidForChildren => CLONE_NEWPID | Time | TimeForChildren => CLONE_NEWTIME
  | User => CLONE_NEWUSER | Uts => CLONE_NEWUTS
  end.
Definition inode (k : NsKind) (id : Z) : Z :=
  match k with
  | Cgroup => 0xF0000000 | Ipc => 0xF1000000 | Mnt => 0xF2000000 | Net => 0xF3000000
  | Pid | PidForChildren => 0xF4000000 | Time | TimeForChildren => 0xF5000000
  | User => 0xF6000000 | Uts => 0xF7000000
  end + id.
Definition link (k : NsKind) (id : Z) : list Z :=
  link_name k ++ txt ":[" ++ show (inode k id) ++ txt "]".

Record NsProxy := mkProxy {
  n_cgroup : Z; n_ipc : Z; n_mnt : Z; n_net : Z; n_pid : Z; n_pid_for_children : Z; n_time : Z;
  n_time_for_children : Z; n_user : Z; n_uts : Z
}.
Definition proxy_get (n : NsProxy) (k : NsKind) : Z :=
  match k with
  | Cgroup => n_cgroup n | Ipc => n_ipc n | Mnt => n_mnt n | Net => n_net n | Pid => n_pid n
  | PidForChildren => n_pid_for_children n | Time => n_time n
  | TimeForChildren => n_time_for_children n | User => n_user n | Uts => n_uts n
  end.
(** An assignment to one field. *)
Definition proxy_set (n : NsProxy) (k : NsKind) (id : Z) : NsProxy :=
  let g := proxy_get n in
  let s k' := if decide (k' = k) then id else g k' in
  mkProxy (s Cgroup) (s Ipc) (s Mnt) (s Net) (s Pid) (s PidForChildren) (s Time) (s TimeForChildren)
    (s User) (s Uts).
Definition initial_proxy : NsProxy := mkProxy 0 0 0 0 0 0 0 0 0 0.

Record UtsNs := mkUts { hostname : list Z; domainname : list Z }.
Definition uts_default : UtsNs := mkUts (txt "nixvm") (txt "(none)").

Definition MAX_MOUNT_NAMESPACES : Z := Z.shiftl 1 16.
Definition MAX_UTS_NAMESPACES : Z := Z.shiftl 1 16.

(** * Tasks and the shared state *)

Record Creds := mkCreds {
  ruid : Z; euid : Z; suid : Z; fsuid : Z; rgid : Z; egid : Z; sgid : Z; fsgid : Z
}.
Definition map_creds (fu fg : Z → Z) (c : Creds) : Creds :=
  mkCreds (fu (ruid c)) (fu (euid c)) (fu (suid c)) (fu (fsuid c))
          (fg (rgid c)) (fg (egid c)) (fg (sgid c)) (fg (fsgid c)).

(** The fields of a task's [ProcInfo] this part reads or writes. [handlers] is the identity of
    its table of signal handlers; [map_paths] are the files of its shared mappings. *)
Record Info := mkInfo {
  pid : Z; tgid : Z; zombie : bool; ns : NsProxy; creds : Creds; caps : option (list Z);
  ns_caps : bool; task_root : list Z; cwd : list Z; fds : FdTable; files : Z; fs : Z;
  map_paths : list (list Z); handlers : Z
}.
Definition with_ns (i : Info) (n : NsProxy) : Info :=
  mkInfo (pid i) (tgid i) (zombie i) n (creds i) (caps i) (ns_caps i) (task_root i) (cwd i) (fds i)
    (files i) (fs i) (map_paths i) (handlers i).
Definition with_creds (i : Info) (c : Creds) : Info :=
  mkInfo (pid i) (tgid i) (zombie i) (ns i) c (caps i) (ns_caps i) (task_root i) (cwd i) (fds i)
    (files i) (fs i) (map_paths i) (handlers i).
(** [caps = None; ns_caps = true]. *)
Definition grant_caps (i : Info) : Info :=
  mkInfo (pid i) (tgid i) (zombie i) (ns i) (creds i) None true (task_root i) (cwd i) (fds i)
    (files i) (fs i) (map_paths i) (handlers i).
Definition with_paths (i : Info) (r c : list Z) (f : FdTable) (m : list (list Z)) : Info :=
  mkInfo (pid i) (tgid i) (zombie i) (ns i) (creds i) (caps i) (ns_caps i) r c f (files i) (fs i) m
    (handlers i).
Definition with_slots (i : Info) (fl f : Z) : Info :=
  mkInfo (pid i) (tgid i) (zombie i) (ns i) (creds i) (caps i) (ns_caps i) (task_root i) (cwd i)
    (fds i) fl f (map_paths i) (handlers i).

Definition privileged (i : Info) : bool := (euid (creds i) =? 0) || ns_caps i.
Definition host_capable (i : Info) : bool := privileged i && (n_user (ns i) =? 0).

Section Kernel.
Context {F N : Type}.

(** [bump_pipe] takes a reference on a pipe or socket, in the state [refs] of those. *)
Context (bump_pipe : Fd → N → N).

Record Shared := mkShared {
  procs : list (option Info);
  users : UserNamespaces;
  pids : gmap Z PidNs;
  next_ns_id : Z;
  uts_namespaces : gmap Z UtsNs;
  cgroup_of : gmap Z Z;
  cgroup_ns_roots : gmap Z Z;
  time_offsets : gmap Z TimeNs;
  vfs : @MountTable F;
  file_tables : list (option FdTable);
  cwd_tables : list (option (list Z));
  pidfd_target : Z → Z;
  refs : N
}.
Definition with_procs (s : Shared) (p : list (option Info)) : Shared :=
  mkShared p (users s) (pids s) (next_ns_id s) (uts_namespaces s) (cgroup_of s) (cgroup_ns_roots s)
    (time_offsets s) (vfs s) (file_tables s) (cwd_tables s) (pidfd_target s) (refs s).
Definition with_users (s : Shared) (u : UserNamespaces) : Shared :=
  mkShared (procs s) u (pids s) (next_ns_id s) (uts_namespaces s) (cgroup_of s) (cgroup_ns_roots s)
    (time_offsets s) (vfs s) (file_tables s) (cwd_tables s) (pidfd_target s) (refs s).
Definition with_pids (s : Shared) (p : gmap Z PidNs) : Shared :=
  mkShared (procs s) (users s) p (next_ns_id s) (uts_namespaces s) (cgroup_of s) (cgroup_ns_roots s)
    (time_offsets s) (vfs s) (file_tables s) (cwd_tables s) (pidfd_target s) (refs s).
Definition with_next (s : Shared) (n : Z) : Shared :=
  mkShared (procs s) (users s) (pids s) n (uts_namespaces s) (cgroup_of s) (cgroup_ns_roots s)
    (time_offsets s) (vfs s) (file_tables s) (cwd_tables s) (pidfd_target s) (refs s).
Definition with_uts (s : Shared) (u : gmap Z UtsNs) : Shared :=
  mkShared (procs s) (users s) (pids s) (next_ns_id s) u (cgroup_of s) (cgroup_ns_roots s)
    (time_offsets s) (vfs s) (file_tables s) (cwd_tables s) (pidfd_target s) (refs s).
Definition with_cgroup_roots (s : Shared) (r : gmap Z Z) : Shared :=
  mkShared (procs s) (users s) (pids s) (next_ns_id s) (uts_namespaces s) (cgroup_of s) r
    (time_offsets s) (vfs s) (file_tables s) (cwd_tables s) (pidfd_target s) (refs s).
Definition with_times (s : Shared) (t : gmap Z TimeNs) : Shared :=
  mkShared (procs s) (users s) (pids s) (next_ns_id s) (uts_namespaces s) (cgroup_of s)
    (cgroup_ns_roots s) t (vfs s) (file_tables s) (cwd_tables s) (pidfd_target s) (refs s).
Definition with_vfs (s : Shared) (v : MountTable) : Shared :=
  mkShared (procs s) (users s) (pids s) (next_ns_id s) (uts_namespaces s) (cgroup_of s)
    (cgroup_ns_roots s) (time_offsets s) v (file_tables s) (cwd_tables s) (pidfd_target s) (refs s).
Definition with_file_tables (s : Shared) (f : list (option FdTable)) (r : N) : Shared :=
  mkShared (procs s) (users s) (pids s) (next_ns_id s) (uts_namespaces s) (cgroup_of s)
    (cgroup_ns_roots s) (time_offsets s) (vfs s) f (cwd_tables s) (pidfd_target s) r.
Definition with_cwd_tables (s : Shared) (c : list (option (list Z))) : Shared :=
  mkShared (procs s) (users s) (pids s) (next_ns_id s) (uts_namespaces s) (cgroup_of s)
    (cgroup_ns_roots s) (time_offsets s) (vfs s) (file_tables s) c (pidfd_target s) (refs s).

Definition tasks (s : Shared) : list Info := omap id (procs s).

(** [fresh_ns_id]: [u32] addition, which a build with overflow checks refuses to wrap. *)
Definition fresh_ns_id (s : Shared) : Z * Shared :=
  let id := wrap U32 (next_ns_id s + 1) in (id, with_next s id).

(** [Shared::uts]: the entry, made if there is none. *)
Definition uts (s : Shared) (id : Z) : UtsNs := default uts_default (uts_namespaces s !! id).
Definition uts_ensure (s : Shared) (id : Z) : Shared := with_uts s (<[id := uts s id]> (uts_namespaces s)).

(** * New namespaces *)

(** One [if flags & F != 0 { ns.k = fresh }]. *)
Definition fresh_kind (flags f : Z) (k : NsKind) (r : NsProxy * Shared) : NsProxy * Shared :=
  let '(n, s) := r in
  if has flags f then let '(id, s) := fresh_ns_id s in (proxy_set n k id, s) else r.

Definition new_uts (cur : Info) (n : NsProxy) (s : Shared) : (Z + NsProxy) * Shared :=
  let in_use := ((λ t, n_uts (ns t)) <$> tasks s) ++ [n_uts (ns cur)] in
  let s := with_uts s (filter (λ x, x.1 = 0 ∨ x.1 ∈ in_use) (uts_namespaces s)) in
  if MAX_UTS_NAMESPACES <=? Z.of_nat (size (uts_namespaces s)) then (inl (err ENOSPC), s)
  else
    let s := uts_ensure s (n_uts n) in
    let copy := uts s (n_uts n) in
    let '(id, s) := fresh_ns_id s in
    (inr (proxy_set n Uts id), with_uts s (<[id := copy]> (uts_namespaces s))).

Definition new_cgroup (cur : Info) (n : NsProxy) (s : Shared) : NsProxy * Shared :=
  let '(id, s) := fresh_ns_id s in
  (proxy_set n Cgroup id,
   with_cgroup_roots s (<[id := default 0 (cgroup_of s !! pid cur)]> (cgroup_ns_roots s))).

Definition new_for_children (flags f : Z) (k_children k : NsKind) (moves_self : bool) (r : NsProxy * Shared)
    : NsProxy * Shared :=
  let '(n, s) := r in
  if has flags f then
    let '(id, s) := fresh_ns_id s in
    let n := proxy_set n k_children id in
    (if moves_self then proxy_set n k id else n, s)
  else r.

(** The loop that records who owns what was created. *)
Fixpoint own_new (kinds : list NsKind) (before n : NsProxy) (u : UserNamespaces) : option Z * UserNamespaces :=
  match kinds with
  | [] => (None, u)
  | k :: kinds =>
    if proxy_get n k =? proxy_get before k then own_new kinds before n u
    else match set_owner u (proxy_get n k) (n_user n) with
         | inl e => (Some (err e), u)
         | inr u => own_new kinds before n u
         end
  end.

Definition all_ids (ps : list NsProxy) : list Z := mjoin ((λ p, proxy_get p <$> ALL_KINDS) <$> ps).

(** The kinds after UTS, in the order of the source. *)
Definition new_kinds (cur : Info) (flags : Z) (moves_self : bool) (r : NsProxy * Shared) : NsProxy * Shared :=
  let r := fresh_kind flags CLONE_NEWIPC Ipc r in
  let r := fresh_kind flags CLONE_NEWNET Net r in
  let r := fresh_kind flags CLONE_NEWNS Mnt r in
  let r := if has flags CLONE_NEWCGROUP then new_cgroup cur r.1 r.2 else r in
  let r := new_for_children flags CLONE_NEWPID PidForChildren Pid moves_self r in
  new_for_children flags CLONE_NEWTIME TimeForChildren Time moves_self r.

(** The end of the function: collect when many are recorded, then record the new ones. *)
Definition record_owners (cur : Info) (before : NsProxy) (r : NsProxy * Shared) : (Z + NsProxy) * Shared :=
  let '(n, s) := r in
  let u :=
    if COLLECT_ABOVE <=? owned_count (users s)
    then UserNs.collect_garbage (users s) (all_ids ((ns <$> tasks s) ++ [ns cur; n])) else users s in
  match own_new [Cgroup; Ipc; Mnt; Net; PidForChildren; TimeForChildren; Uts] before n u with
  | (Some e, u) => (inl e, with_users s u)
  | (None, u) => (inr n, with_users s u)
  end.

Definition enter_new_namespaces (cur : Info) (n : NsProxy) (flags : Z) (moves_self : bool) (s : Shared)
    : (Z + NsProxy) * Shared :=
  let '(n, s) := fresh_kind flags CLONE_NEWUSER User (n, s) in
  match (if has flags CLONE_NEWUTS then new_uts cur n s else (inr n, s)) with
  | (inl e, s) => (inl e, s)
  | (inr n', s) => record_owners cur n (new_kinds cur flags moves_self (n', s))
  end.

Definition namespaces_for_clone (cur : Info) (flags : Z) (s : Shared) : (Z + NsProxy) * Shared :=
  let n := ns cur in
  let n := proxy_set n Pid (n_pid_for_children n) in
  let n := proxy_set n Time (n_time_for_children n) in
  enter_new_namespaces cur n flags true s.

Definition unshare_namespaces (cur : Info) (flags : Z) (s : Shared) : (Z + Info) * Shared :=
  match enter_new_namespaces cur (ns cur) flags false s with
  | (inl e, s) => (inl e, s)
  | (inr n, s) => (inr (with_ns cur n), s)
  end.

(** * Privilege *)

Definition may_administer (s : Shared) (cur : Info) (id : Z) : bool :=
  privileged cur
  && ((n_user (ns cur) =? 0) || UserNs.is_within (users s) (UserNs.owner (users s) id) (n_user (ns cur))).

Definition overflow_creds : Creds := map_creds (λ _, OVERFLOW_ID) (λ _, OVERFLOW_ID) (mkCreds 0 0 0 0 0 0 0 0).

Definition enter_user_namespace (s : Shared) (i : Info) (id parent : Z) : (Z + Info) * Shared :=
  match UserNs.create (users s) id parent (euid (creds i)) (egid (creds i)) with
  | inl e => (inl (err e), s)
  | inr u => (inr (grant_caps (with_creds i overflow_creds)), with_users s u)
  end.

(** * [unshare] *)

Definition NS_FLAGS : Z :=
  lors [CLONE_NEWTIME; CLONE_NEWNS; CLONE_NEWCGROUP; CLONE_NEWUTS; CLONE_NEWIPC; CLONE_NEWPID; CLONE_NEWNET].
Definition UNSHARE_VALID : Z :=
  lors [NS_FLAGS; CLONE_NEWUSER; CLONE_VM; CLONE_FS; CLONE_FILES; CLONE_SIGHAND; CLONE_THREAD; CLONE_SYSVSEM].

Definition others (s : Shared) (cur : Info) : list Info :=
  List.filter (λ t, negb (pid t =? pid cur) && negb (zombie t)) (tasks s).
Definition threaded (s : Shared) (cur : Info) : bool := existsb (λ t, tgid t =? tgid cur) (others s cur).

Definition pid_ids (i : Info) : list Z := [n_pid (ns i); n_pid_for_children (ns i)].
Definition make_pid_namespace (s : Shared) (cur : Info) (id parent : Z) : option Z * Shared :=
  match new_pid_namespace (pids s) (mjoin (pid_ids <$> tasks s ++ [cur])) id parent with
  | (p, inl e) => (Some e, with_pids s p)
  | (p, inr _) => (None, with_pids s p)
  end.

(** The copy of a mount namespace, [true] when there was room for it. *)
Definition copy_mounts (s : Shared) (old new user : Z) : bool * Shared :=
  let full v := MAX_MOUNT_NAMESPACES <=? Z.of_nat (namespace_count v) in
  let v := vfs s in
  let v := if full v then collect_namespaces v (((λ t, n_mnt (ns t)) <$> tasks s) ++ [old]) else v in
  if full v then (false, with_vfs s v)
  else (true, with_vfs s (copy_namespace v old new (negb (user =? UserNs.owner (users s) old)))).

(** A private descriptor table and a private working directory; the indexed slots exist. *)
Definition unshare_files (flags : Z) (cur : Info) (s : Shared) : Info * Shared :=
  if has flags CLONE_FILES && existsb (λ t, files t =? files cur) (tasks s) then
    (with_slots cur (Z.of_nat (length (file_tables s))) (fs cur),
     with_file_tables s (<[Z.to_nat (files cur) := Some (fds cur)]> (file_tables s) ++ [None])
       (foldl (λ r f, bump_pipe f r) (refs s) (fd_values (fds cur))))
  else (cur, s).
Definition unshare_fs (flags : Z) (cur : Info) (s : Shared) : Info * Shared :=
  if has flags CLONE_FS && existsb (λ t, fs t =? fs cur) (tasks s) then
    (with_slots cur (files cur) (Z.of_nat (length (cwd_tables s))),
     with_cwd_tables s (<[Z.to_nat (fs cur) := Some (cwd cur)]> (cwd_tables s) ++ [None]))
  else (cur, s).

(** The refusals at the start of [sys_unshare]. *)
Definition unshare_refused (cur : Info) (flags : Z) (s : Shared) : option Z :=
  if negb (Z.ldiff flags UNSHARE_VALID =? 0) then Some EINVAL
  else if has flags (lors [CLONE_THREAD; CLONE_SIGHAND; CLONE_VM]) && threaded s cur then Some EINVAL
  else if has flags CLONE_SIGHAND && existsb (λ t, handlers t =? handlers cur) (others s cur) then Some EINVAL
  else if has flags NS_FLAGS && negb (privileged cur) && negb (has flags CLONE_NEWUSER) then Some EPERM
  else if has flags CLONE_NEWUSER && negb (bool_decide (task_root cur = [SLASH])) then Some EPERM
  else if has flags (Z.lor CLONE_NEWUSER CLONE_NEWPID) && threaded s cur then Some EINVAL
  else None.

(** Its steps once the task is in its user namespace. *)
Definition unshare_rest (flags pid_parent old_mnt : Z) (cur : Info) (s : Shared) : Z * Info * Shared :=
  match (if has flags CLONE_NEWPID
         then make_pid_namespace s cur (n_pid_for_children (ns cur)) pid_parent else (None, s)) with
  | (Some e, s) => (e, with_ns cur (proxy_set (ns cur) PidForChildren pid_parent), s)
  | (None, s) =>
    match (if n_mnt (ns cur) =? old_mnt then (true, s)
           else copy_mounts s old_mnt (n_mnt (ns cur)) (n_user (ns cur))) with
    | (false, s) => (err ENOSPC, with_ns cur (proxy_set (ns cur) Mnt old_mnt), s)
    | (true, s) =>
      let '(cur, s) := unshare_files flags cur s in
      let '(cur, s) := unshare_fs flags cur s in
      (0, cur, s)
    end
  end.

Definition sys_unshare (cur : Info) (flags : Z) (s : Shared) : Z * Info * Shared :=
  match unshare_refused cur flags s with
  | Some e => (err e, cur, s)
  | None =>
    let rest := unshare_rest flags (n_pid_for_children (ns cur)) (n_mnt (ns cur)) in
    let old_user := n_user (ns cur) in
    match unshare_namespaces cur (Z.land flags (Z.lor NS_FLAGS CLONE_NEWUSER)) s with
    | (inl e, s) => (e, cur, s)
    | (inr cur, s) =>
      if n_user (ns cur) =? old_user then rest cur s
      else match enter_user_namespace s cur (n_user (ns cur)) old_user with
           | (inl e, s) => (e, with_ns cur (proxy_set (ns cur) User old_user), s)
           | (inr cur, s) => rest cur s
           end
    end
  end.

(** * [setns] *)

(** [parse_ns_path]. *)
Inductive NsTarget := Current | ByPid (p : Z).
(** What follows the last occurrence of [needle], and what precedes and follows a slash. *)
Fixpoint after_last (needle p : list Z) : option (list Z) :=
  match p with
  | [] => None
  | _ :: q => match after_last needle q with
              | Some r => Some r
              | None => str_strip needle p
              end
  end.
Fixpoint split_once (p : list Z) : option (list Z * list Z) :=
  match p with
  | [] => None
  | c :: p => if c =? SLASH then Some ([], p)
              else match split_once p with Some (a, b) => Some (c :: a, b) | None => None end
  end.
Definition parse_ns_path (path : list Z) : option (NsTarget * NsKind) :=
  rest ← after_last (txt "/proc/") path;
  '(who, rest) ← split_once rest;
  name ← str_strip (txt "ns/") rest;
  kind ← from_file_name name;
  if decide (who = txt "self" ∨ who = txt "thread-self") then Some (Current, kind)
  else p ← parse_i32 who; Some (ByPid p, kind).

Definition ns_of_target (s : Shared) (cur : Info) (t : NsTarget) (k : NsKind) : Z + Z :=
  match t with
  | Current => inr (proxy_get (ns cur) k)
  | ByPid l =>
    match global_pid (pids s) (n_pid (ns cur)) l with
    | None => inl (err ENOENT)
    | Some p =>
      if (p =? pid cur) || (p =? tgid cur) then inr (proxy_get (ns cur) k)
      else match List.find (λ t, (pid t =? p) && negb (zombie t)) (tasks s) with
           | Some t => inr (proxy_get (ns t) k)
           | None => inl (err ENOENT)
           end
    end
  end.

Definition join_namespace (n : NsProxy) (k : NsKind) (id : Z) : NsProxy :=
  match k with
  | Pid | PidForChildren => proxy_set n PidForChildren id
  | Time | TimeForChildren => proxy_set n TimeForChildren id
  | _ => proxy_set n k id
  end.
Definition reset_to_new_root (i : Info) : Info := with_paths i [SLASH] [SLASH] (fds i) (map_paths i).
Definition may_join_pid_namespace (s : Shared) (cur : Info) (id : Z) : bool :=
  PidNs.is_within (pids s) id (n_pid (ns cur)).

Definition join_user_namespace (s : Shared) (cur : Info) (id : Z) : Z * Info :=
  let current := n_user (ns cur) in
  let u := users s in
  if id =? current then (err EINVAL, cur)
  else if negb (UserNs.is_within u id current
                && (privileged cur || created_by u id current (euid (creds cur))))
  then (err EPERM, cur)
  else
    let view k v := seen_from_global u id k (default v (UserNs.to_global u current k v)) in
    let cur := with_creds cur (map_creds (view Uid) (view Gid) (creds cur)) in
    (0, grant_caps (with_ns cur (proxy_set (ns cur) User id))).

(** [carry_open_files]. *)
Definition fd_paths (t : FdTable) : list (list Z) :=
  omap (λ f, match f with File p _ _ _ | Dir p _ => Some p | _ => None end) (fd_values t).
Fixpoint dedup (l : list (list Z)) : list (list Z) :=
  match l with
  | a :: (b :: _) as r => if decide (a = b) then dedup r else a :: dedup r
  | _ => l
  end.
Definition collect_unused_hidden_mounts (s : Shared) (cur : Info) (v : @MountTable F) : @MountTable F :=
  collect_detached v
    (mjoin (fd_paths <$> omap id (file_tables s)) ++ fd_paths (fds cur) ++ omap id (cwd_tables s)
     ++ mjoin (map_paths <$> tasks s) ++ map_paths cur ++ [cwd cur]).
Definition carry_open_files (s : Shared) (cur : Info) (old : Z) : Info * Shared :=
  if old =? n_mnt (ns cur) then (cur, s)
  else
    let paths := dedup (merge_sort (λ a b, Is_true (str_leb a b)) (fd_paths (fds cur) ++ map_paths cur)) in
    let v := Mount.enter (vfs s) (n_mnt (ns cur)) (task_root cur) in
    let '(carried, v) := carry_from v old paths in
    let moved : gmap (list Z) (list Z) :=
      list_to_map (omap (λ x, (λ t, (x.1, t)) <$> x.2) (zip paths carried)) in
    let translate p := default p (moved !! p) in
    let cur := with_paths cur (task_root cur) (cwd cur) (rewrite_paths (fds cur) translate)
                 (translate <$> map_paths cur) in
    (cur, with_vfs s (collect_unused_hidden_mounts s cur v)).

Definition enter_mounts (s : Shared) (cur : Info) (old : Z) : Info * Shared :=
  carry_open_files s (reset_to_new_root cur) old.

Definition SETNS_ALL : Z := Z.lor NS_FLAGS CLONE_NEWUSER.
Definition SETNS_KINDS : list NsKind := [Cgroup; Ipc; Mnt; Net; Pid; Time; User; Uts].

(** [setns] on a namespace descriptor. *)
Definition setns_namespace (s : Shared) (cur : Info) (k : NsKind) (id nstype : Z) (refused : Z → bool)
    : Z * Info * Shared :=
  if negb (nstype =? 0) && negb (nstype =? flag k) then (err EINVAL, cur, s)
  else if refused (flag k) then (err EINVAL, cur, s)
  else if decide (k = User) then let '(r, cur) := join_user_namespace s cur id in (r, cur, s)
  else if negb (may_administer s cur id) then (err EPERM, cur, s)
  else if bool_decide (k = Pid ∨ k = PidForChildren) && negb (may_join_pid_namespace s cur id)
  then (err EINVAL, cur, s)
  else
    let old_mnt := n_mnt (ns cur) in
    let cur := with_ns cur (join_namespace (ns cur) k id) in
    let '(cur, s) := if decide (k = Mnt) then enter_mounts s cur old_mnt else (cur, s) in
    (0, cur, s).

(** [setns] on a pidfd. *)
Definition setns_pidfd (s : Shared) (cur : Info) (i nstype : Z) (refused : Z → bool) : Z * Info * Shared :=
  if (nstype =? 0) || refused nstype then (err EINVAL, cur, s)
  else
    let p := pidfd_target s i in
    match (if p =? pid cur then Some (ns cur)
           else match List.find (λ t, pid t =? p) (tasks s) with
                | Some t => if zombie t then None else Some (ns t)
                | None => None
                end) with
    | None => (err ESRCH, cur, s)
    | Some target =>
      if has nstype (flag Pid) && negb (may_join_pid_namespace s cur (n_pid target))
      then (err EINVAL, cur, s)
      else
        let old_mnt := n_mnt (ns cur) in
        let cur := with_ns cur
          (foldl (λ n k, if has nstype (flag k) then join_namespace n k (proxy_get target k) else n)
             (ns cur) SETNS_KINDS) in
        let '(cur, s) := if has nstype CLONE_NEWNS then enter_mounts s cur old_mnt else (cur, s) in
        (0, cur, s)
    end.

Definition sys_setns (s : Shared) (cur : Info) (fd nstype : Z) : Z * Info * Shared :=
  let f := fd_get (fds cur) (as_i32 fd) in
  let joins_user := match f with Some (Namespace User _) => true | _ => false end in
  if negb (Z.ldiff nstype SETNS_ALL =? 0) then (err EINVAL, cur, s)
  else if negb (privileged cur) && negb joins_user then (err EPERM, cur, s)
  else
    let refused flags := threaded s cur && has flags (Z.lor CLONE_NEWNS CLONE_NEWUSER) in
    match f with
    | Some (Namespace k id) => setns_namespace s cur k id nstype refused
    | Some (Pidfd i) => setns_pidfd s cur i nstype refused
    | Some _ => (err EINVAL, cur, s)
    | None => (err EBADF, cur, s)
    end.

(** * Control files *)

(** [write_id_map]: record the map, then give every task of the namespace the id it now has. *)
Definition apply_id (k : IdKind) (seen : Z) (i : Info) : Info :=
  with_creds i match k with
               | Uid => map_creds (λ _, seen) id (creds i)
               | Gid => map_creds id (λ _, seen) (creds i)
               end.
Definition write_id_map (s : Shared) (cur : Info) (n : Z) (k : IdKind) (text : list Z)
    : option Z * Info * Shared :=
  match table (users s) !! n with
  | None => (Some EPERM, cur, s)
  | Some e =>
    let privileged_in_parent := (n_user (ns cur) =? UserNs.parent e) && privileged cur in
    if negb privileged_in_parent && negb (n_user (ns cur) =? n) then (Some EPERM, cur, s)
    else match write_map (users s) n k text privileged_in_parent with
    | inl x => (Some x, cur, s)
    | inr u =>
      let seen := default OVERFLOW_ID (m ← id_map u n k; to_inside m (creator_of k e)) in
      let in_ns i := n_user (ns i) =? n in
      (None, if in_ns cur then apply_id k seen cur else cur,
       with_procs (with_users s u)
         (option_map (λ i, if in_ns i && negb (zombie i) then apply_id k seen i else i) <$> procs s))
    end
  end.

(** [write_time_offsets]; [true] when the guest's clock page must be switched off. *)
Definition write_time_offsets (s : Shared) (cur : Info) (text : list Z) : option Z * Shared * bool :=
  let n := n_time_for_children (ns cur) in
  if n =? n_time (ns cur) then (Some EACCES, s, false)
  else
    let e := default (mkTimeNs no_offsets false) (time_offsets s !! n) in
    let s := with_times s (<[n := e]> (time_offsets s)) in
    if entered e then (Some EACCES, s, false)
    else match parse_time_offsets text (offsets e) with
         | inl x => (Some x, s, false)
         | inr o => (None, with_times s (<[n := mkTimeNs o (entered e)]> (time_offsets s)),
                     negb ((monotonic o =? 0) && (boottime o =? 0)))
         end.
Definition time_offsets_for (s : Shared) (cur : Info) : TimeOffsets :=
  if n_time (ns cur) =? 0 then no_offsets
  else match time_offsets s !! n_time (ns cur) with Some t => offsets t | None => no_offsets end.

(** [strip_root], [as_seen_from_root]. *)
Definition strip_root (root path : list Z) : option (list Z) :=
  if decide (root = [SLASH]) then Some path
  else if decide (path = root) then Some [SLASH]
  else rest ← str_strip root path; if head_slash rest then Some rest else None.
Definition as_seen_from_root (cur : Info) (path : list Z) : list Z := default path (strip_root (task_root cur) path).

Context {M : Type} `{GuestMem M}.

(** The bytes before the first newline or NUL. *)
Fixpoint until_end (bs : list Z) : list Z :=
  match bs with [] => [] | b :: bs => if (b =? NL) || (b =? 0) then [] else b :: until_end bs end.
Definition write_uts_file (s : Shared) (cur : Info) (domain : bool) (buf count : Z) (mem : M) : Z * Shared :=
  if negb (n_user (ns cur) =? 0) || negb (euid (creds cur) =? 0) then (err EACCES, s)
  else match gm_read mem buf (Z.min count 4096) with
       | None => (err EFAULT, s)
       | Some bytes =>
         let name := from_utf8_lossy (take 64 (until_end bytes)) in
         let id := n_uts (ns cur) in
         let u := uts s id in
         (as_i64 count,
          with_uts s (<[id := if domain then mkUts (hostname u) name else mkUts name (domainname u)]>
                        (uts_namespaces s)))
       end.

(** [proc_control_write]: [None] when the descriptor is not one of these files. The last
    component says whether to switch the guest's clock page off. *)
Definition proc_control_write (s : Shared) (cur : Info) (fd buf count : Z) (mem : M)
    : option (Z * Info * Shared * bool) :=
  match fd_get (fds cur) (as_i32 fd) with
  | Some (File path _ _ _) =>
    rest ← after_last (txt "/proc/") (as_seen_from_root cur path);
    match str_strip (txt "sys/kernel/") rest with
    | Some name =>
      if decide (name = txt "hostname" ∨ name = txt "domainname") then
        let '(r, s) := write_uts_file s cur (bool_decide (name = txt "domainname")) buf count mem in
        Some (r, cur, s, false)
      else None
    | None =>
      '(who, file) ← split_once rest;
      if negb (bool_decide (file ∈ [txt "uid_map"; txt "gid_map"; txt "setgroups"; txt "timens_offsets"]))
      then None
      else Some
        match gm_read mem buf (Z.min count (32 * 1024)) with
        | None => (err EFAULT, cur, s, false)
        | Some bytes =>
          match from_utf8 bytes with
          | None => (err EINVAL, cur, s, false)
          | Some text =>
            let self := bool_decide (who = txt "self" ∨ who = txt "thread-self") in
            match (if self then Some (pid cur)
                   else l ← parse_i32 who; global_pid (pids s) (n_pid (ns cur)) l) with
            | None => (err ESRCH, cur, s, false)
            | Some g =>
              match (if self || (g =? pid cur) || (g =? tgid cur) then Some (ns cur)
                     else ns <$> List.find (λ t, pid t =? g) (tasks s)) with
              | None => (err ESRCH, cur, s, false)
              | Some n =>
                let '(e, cur, s, vdso) :=
                  if decide (file = txt "timens_offsets") then
                    let '(e, s, v) := write_time_offsets s cur text in (e, cur, s, v)
                  else if decide (file = txt "setgroups") then
                    match write_setgroups (users s) (n_user n) text with
                    | inl x => (Some x, cur, s, false)
                    | inr u => (None, cur, with_users s u, false)
                    end
                  else
                    let '(e, cur, s) :=
                      write_id_map s cur (n_user n) (if decide (file = txt "uid_map") then Uid else Gid) text in
                    (e, cur, s, false) in
                (match e with Some x => err x | None => as_i64 count end, cur, s, vdso)
              end
            end
          end
        end
    end
  | _ => None
  end.

(** [proc_identity_files]. *)
Definition IDENTITY : list Z := txt "         0          0 4294967295" ++ [NL].
Definition proc_identity_files (s : Shared) (cur : Info) : list Z * list Z * list Z :=
  let n := n_user (ns cur) in
  if n =? 0 then (IDENTITY, IDENTITY, ALLOW ++ [NL])
  else (default [] (UserNs.render (users s) n Uid), default [] (UserNs.render (users s) n Gid),
        setgroups_state (users s) n).

(** * Calls from inside a user namespace *)

Definition UNCHANGED : Z := U32 - 1.
Definition arg (args : list Z) (i : nat) : Z := nth i args 0.
Definition id_ok (u : UserNamespaces) (n : Z) (k : IdKind) (v : Z) : bool :=
  let id := wrap U32 v in (id =? UNCHANGED) || is_mapped u n k id.
Definition chown_arg (u : UserNamespaces) (n : Z) (ik : nat * IdKind) (r : option (list Z)) : option (list Z) :=
  a ← r;
  let id := wrap U32 (arg a ik.1) in
  if id =? UNCHANGED then Some a else g ← UserNs.to_global u n ik.2 id; Some (<[ik.1 := g]> a).

(** The arguments a call goes on with, or its refusal. *)
Definition user_ns_args (u : UserNamespaces) (n : Z) (sys : Sysno) (args : list Z) : Z + list Z :=
  let ok k ixs := forallb (λ i, id_ok u n k (arg args i)) ixs in
  let check (b : bool) := if b then inr args else inl (B:=list Z) (err EINVAL) in
  match sys with
  | Setuid | Setfsuid => check (ok Uid [0%nat])
  | Setgid | Setfsgid => check (ok Gid [0%nat])
  | Setreuid => check (ok Uid [0%nat; 1%nat])
  | Setresuid => check (ok Uid [0%nat; 1%nat; 2%nat])
  | Setregid => check (ok Gid [0%nat; 1%nat])
  | Setresgid => check (ok Gid [0%nat; 1%nat; 2%nat])
  | Setgroups => if setgroups_refused u n then inl (err EPERM) else inr args
  | Chown | Lchown | Fchown =>
    match chown_arg u n (2%nat, Gid) (chown_arg u n (1%nat, Uid) (Some args)) with
    | Some a => inr a | None => inl (err EINVAL) end
  | Fchownat =>
    match chown_arg u n (3%nat, Gid) (chown_arg u n (2%nat, Uid) (Some args)) with
    | Some a => inr a | None => inl (err EINVAL) end
  | _ => inr args
  end.

(** [show_owner_through_maps]: where a call put a file's owner, rewritten as the caller sees it. *)
Definition owner_fields (x86 : bool) (sys : Sysno) (args : list Z) : option (Z * Z * Z) :=
  let stat buf := Some (if x86 then (buf, 28, 32) else (buf, 24, 28)) in
  match sys with
  | Statx => Some (arg args 4, 20, 24)
  | Newfstatat => stat (arg args 2)
  | Fstat | Stat | Lstat => stat (arg args 1)
  | _ => None
  end.
Definition show_id (u : UserNamespaces) (n : Z) (k : IdKind) (addr : Z) (mem : M) : M :=
  match gm_read_u32 mem addr with
  | None => mem
  | Some g => default mem (gm_write mem addr (le_bytes 4 (seen_from_global u n k g)))
  end.
Definition show_owner_through_maps (u : UserNamespaces) (n : Z) (x86 : bool) (sys : Sysno) (args : list Z)
    (mem : M) : M :=
  match owner_fields x86 sys args with
  | None => mem
  | Some (buf, uid_at, gid_at) => show_id u n Gid (buf + gid_at) (show_id u n Uid (buf + uid_at) mem)
  end.

(** [dispatch_in_user_ns], over the rest of the dispatcher [call], which leaves the state [S] it
    shares with this part. *)
Definition dispatch_in_user_ns {S : Type} (users_of : S → UserNamespaces)
    (call : list Z → S * M → Z * (S * M)) (n : Z) (x86 : bool) (sys : Sysno) (args : list Z) (st : S * M)
    : Z * (S * M) :=
  match user_ns_args (users_of st.1) n sys args with
  | inl e => (e, st)
  | inr a =>
    let '(ret, (s, mem)) := call a st in
    (ret, (s, if ret =? 0 then show_owner_through_maps (users_of s) n x86 sys args mem else mem))
  end.
End Kernel.
