(* ===== verification/NsSpec.v ===== *)
(** What [unshare] and [setns] let a task gain: authority over namespaces it had authority over
    already, or created. *)
From S2P Require Import Prelude Abi NsChain Text Path Vfs Mount Fd PidNs UserNs UserNsSpec Ns.
From stdpp Require Import base numbers gmap list.
Local Open Scope Z_scope.

(** * Fields *)

Lemma proxy_set_user n k id : n_user (proxy_set n k id) = if decide (User = k) then id else n_user n.
Proof. done. Qed.

Lemma join_user n k id : k ≠ User → n_user (join_namespace n k id) = n_user n.
Proof. by destruct k. Qed.

Section Spec.
Context {F N : Type} (bump_pipe : Fd → N → N).
Implicit Types s : @Shared F N.

(** * What creating namespaces does to the table of user namespaces: nothing, or drops some *)

Definition thinned (u u' : UserNamespaces) : Prop :=
  table u' = table u ∨ ∃ in_use, table u' = table (UserNs.collect_garbage u in_use).

(** A step that leaves the user namespaces alone. *)
Definition quiet (r r' : NsProxy * @Shared F N) : Prop := users r'.2 = users r.2 ∧ n_user r'.1 = n_user r.1.

Lemma quiet_refl r : quiet r r.
Proof. done. Qed.
Lemma quiet_trans r1 r2 r3 : quiet r1 r2 → quiet r2 r3 → quiet r1 r3.
Proof. intros [] []. split; congruence. Qed.

Lemma fresh_kind_quiet flags f k r : k ≠ User → quiet r (fresh_kind flags f k r).
Proof. intros Hk. destruct r as [n s]. unfold fresh_kind. destruct (has flags f); [|done]. by destruct k. Qed.

Lemma new_cgroup_quiet cur n s : quiet (n, s) (new_cgroup cur n s).
Proof. done. Qed.

Lemma new_for_children_quiet flags f kc k mv r :
  kc ≠ User → k ≠ User → quiet r (new_for_children flags f kc k mv r).
Proof.
  intros H1 H2. destruct r as [n s]. unfold new_for_children. destruct (has flags f); [|done].
  by destruct kc, mv, k.
Qed.

Lemma new_uts_quiet cur n s r s' :
  new_uts cur n s = (r, s') → users s' = users s ∧ ∀ n', r = inr n' → n_user n' = n_user n.
Proof.
  unfold new_uts. case_match; intros [= <- <-]; (split; [done|]); [done|]. intros n' [= <-]. done.
Qed.

Lemma own_new_table kinds before n : ∀ u e u', own_new kinds before n u = (e, u') → table u' = table u.
Proof.
  induction kinds as [|k kinds IH]; intros u e u' H; simpl in H; [by injection H as <- <-|].
  case_match; [by eapply IH|]. destruct (set_owner _ _ _) as [x|u1] eqn:E; [by injection H as <- <-|].
  unfold set_owner in E. case_match; [done|]. injection E as <-. by apply IH in H.
Qed.

Lemma new_kinds_quiet cur flags mv r : quiet r (new_kinds cur flags mv r).
Proof.
  unfold new_kinds. eapply quiet_trans; [|by apply new_for_children_quiet].
  eapply quiet_trans; [|by apply new_for_children_quiet].
  assert (quiet r (fresh_kind flags CLONE_NEWNS Mnt
    (fresh_kind flags CLONE_NEWNET Net (fresh_kind flags CLONE_NEWIPC Ipc r)))) as Q.
  { eapply quiet_trans; [|by apply fresh_kind_quiet].
    eapply quiet_trans; [|by apply fresh_kind_quiet]. by apply fresh_kind_quiet. }
  cbv zeta. destruct (has flags CLONE_NEWCGROUP); [|done]. by eapply quiet_trans; [exact Q|].
Qed.

Lemma record_owners_spec cur before r x s' :
  record_owners cur before r = (x, s') →
  thinned (users r.2) (users s') ∧ ∀ n', x = inr n' → n_user n' = n_user r.1.
Proof.
  destruct r as [n s]. unfold record_owners. destruct (own_new _ _ _ _) as [[e|] u] eqn:E;
    apply own_new_table in E; intros [= <- <-]; (split; [|by intros ? [= <-]]);
    unfold thinned; cbn [users with_users fst snd]; rewrite E; case_match; eauto.
Qed.

Lemma enter_spec cur n flags mv s r s' :
  enter_new_namespaces cur n flags mv s = (r, s') →
  thinned (users s) (users s') ∧
  ∀ n', r = inr n' → n_user n' = if has flags CLONE_NEWUSER then wrap U32 (next_ns_id s + 1) else n_user n.
Proof.
  unfold enter_new_namespaces.
  destruct (fresh_kind flags CLONE_NEWUSER User (n, s)) as [n0 s0] eqn:E0.
  assert (users s0 = users s ∧
    n_user n0 = if has flags CLONE_NEWUSER then wrap U32 (next_ns_id s + 1) else n_user n) as [U0 N0].
  { unfold fresh_kind in E0. destruct (has flags CLONE_NEWUSER); simpl in E0; by simplify_eq. }
  destruct (if has flags CLONE_NEWUTS then _ else _) as [x s1] eqn:E1.
  assert (users s1 = users s0 ∧ ∀ n', x = inr n' → n_user n' = n_user n0) as [U1 N1].
  { destruct (has flags CLONE_NEWUTS); [by eapply new_uts_quiet|]. simplify_eq. by split; [|intros ? [= <-]]. }
  destruct x as [e|n1]; [intros [= <- <-]; split; [left; by rewrite U1, U0|done]|].
  intros H. apply record_owners_spec in H as [H1 H2].
  destruct (new_kinds_quiet cur flags mv (n1, s1)) as [Q1 Q2]. simpl in Q1, Q2.
  rewrite Q1, U1, U0 in H1. split; [done|]. intros n' Hn. rewrite (H2 _ Hn), Q2, <- N0. by apply N1.
Qed.

(** * Being within *)

Lemma within_trans u a b c :
  NsChain.ordered parent (table u) → UserNs.is_within u a b = true → UserNs.is_within u b c = true →
  UserNs.is_within u a c = true.
Proof.
  intros Ho H1 H2. unfold UserNs.is_within, UserNs.chain in *.
  destruct (Z.eqb_spec c 0); [done|]. destruct (Z.eqb_spec b c) as [->|Hbc].
  { destruct (Z.eqb_spec c 0); done. }
  simpl in H2. apply bool_decide_eq_true in H2. destruct (Z.eqb_spec b 0) as [->|Hb].
  { rewrite (chain_0 (par:=parent)) in H2 by done. by apply elem_of_nil in H2. }
  simpl in H1. destruct (Z.eqb_spec a b) as [->|]; simpl in H1.
  - apply orb_true_iff. right. by apply bool_decide_eq_true.
  - apply bool_decide_eq_true in H1. apply orb_true_iff. right. apply bool_decide_eq_true.
    by eapply (chain_trans (par:=parent)).
Qed.

Lemma thinned_within u u' a b :
  NsChain.ordered parent (table u) → NsChain.closed parent (table u) → thinned u u' →
  UserNs.is_within u' a b = true → UserNs.is_within u a b = true.
Proof.
  intros Ho Hc Ht. assert (b ∈ UserNs.chain u' a → b ∈ UserNs.chain u a) as Hch.
  { unfold UserNs.chain. destruct Ht as [->|[in_use ->]]; [done|].
    destruct (table (UserNs.collect_garbage u in_use) !! a) as [e|] eqn:E.
    - rewrite (chain_agree (par:=parent) (table u)); try done; [| | |by right; rewrite E].
      + intros i x Hx. apply gc_table in Hx as [Hx _]. by apply (Ho i).
      + intros i x Hx. apply gc_table in Hx as [Hx _]. destruct (Hc _ _ Hx) as [?|[y Hy]]; [by left|right].
        exists y. apply gc_table. split; [done|]. right. by exists i, x.
      + intros i x Hx. apply gc_table in Hx as [Hx _]. by rewrite Hx.
    - rewrite (chain_eq (par:=parent)), E; [by intros ?%elem_of_nil|].
      intros i x Hx. apply gc_table in Hx as [Hx _]. by apply (Ho i). }
  unfold UserNs.is_within. intros H. repeat (apply orb_true_iff in H as [H|H]).
  - by rewrite H.
  - by rewrite H, orb_true_r.
  - apply orb_true_iff. right. apply bool_decide_eq_true. by apply bool_decide_eq_true, Hch in H.
Qed.

(** * Authority *)

(** A task has authority over what a user namespace owns when it is privileged and that
    namespace is its own or nested in it; this is the test [may_administer] makes. *)
Definition authority (s : @Shared F N) (i : Info) (user : Z) : bool :=
  privileged i && UserNs.is_within (users s) user (n_user (ns i)).

Lemma may_administer_authority s i id :
  may_administer s i id = authority s i (UserNs.owner (users s) id).
Proof.
  unfold may_administer, authority, UserNs.is_within. destruct (Z.eqb_spec (n_user (ns i)) 0); done.
Qed.

(** The state the calls are made in: ids of user namespaces come from the counter, which has
    not run out. *)
Record ns_ok (s : @Shared F N) : Prop := mkNsOk {
  no_ordered : NsChain.ordered parent (table (users s));
  no_closed : NsChain.closed parent (table (users s));
  no_next : 0 ≤ next_ns_id s < U32 - 1;
  no_ids : ∀ id, is_Some (table (users s) !! id) → id ≤ next_ns_id s
}.

Lemma authority_host s i : ns_ok s → authority s i 0 = host_capable i.
Proof.
  intros [Ho _ _ _]. unfold authority, host_capable, UserNs.is_within, UserNs.chain.
  rewrite (chain_0 (par:=parent)) by done. f_equal.
  destruct (Z.eqb_spec (n_user (ns i)) 0) as [->|]; [done|]. simpl.
  by destruct (n_user (ns i)).
Qed.

(** The part of a task that authority depends on. *)
Definition same_power (i j : Info) : Prop :=
  creds j = creds i ∧ ns_caps j = ns_caps i ∧ n_user (ns j) = n_user (ns i).

Lemma same_power_refl i : same_power i i.
Proof. done. Qed.

Lemma same_power_authority s s' i j u :
  ns_ok s → thinned (users s) (users s') → same_power i j →
  authority s' j u = true → authority s i u = true.
Proof.
  intros [Ho Hc _ _] Ht (E1 & E2 & E3). unfold authority, privileged. rewrite E1, E2, E3.
  intros [-> H]%andb_true_iff. simpl. by eapply thinned_within.
Qed.

(** What follows the creation of the namespaces in [unshare] keeps the task's power. *)
Lemma unshare_files_power flags i s :
  same_power i (unshare_files bump_pipe flags i s).1 ∧ users (unshare_files bump_pipe flags i s).2 = users s.
Proof. unfold unshare_files. by case_match. Qed.
Lemma unshare_fs_power flags i s :
  same_power i (unshare_fs flags i s).1 ∧ users (unshare_fs flags i s).2 = users s.
Proof. unfold unshare_fs. by case_match. Qed.
Lemma make_pid_users s i a b : users (make_pid_namespace s i a b).2 = users s.
Proof. unfold make_pid_namespace. destruct (new_pid_namespace _ _ _ _) as [p [e|[]]]; done. Qed.
Lemma copy_mounts_users s a b c : users (copy_mounts s a b c).2 = users s.
Proof. unfold copy_mounts. by case_match. Qed.

Lemma unshare_rest_power flags p m i s r j s' :
  unshare_rest bump_pipe flags p m i s = (r, j, s') → same_power i j ∧ users s' = users s.
Proof.
  unfold unshare_rest.
  destruct (if has flags CLONE_NEWPID then _ else _) as [x s1] eqn:E1.
  assert (users s1 = users s) as U1.
  { destruct (has flags CLONE_NEWPID); [|by simplify_eq].
    pose proof (make_pid_users s i (n_pid_for_children (ns i)) p) as H. by rewrite E1 in H. }
  destruct x as [e|]; [by intros [= <- <- <-]|].
  destruct (if n_mnt (ns i) =? m then _ else _) as [b s2] eqn:E2.
  assert (users s2 = users s) as U2.
  { destruct (n_mnt (ns i) =? m); [by simplify_eq|].
    pose proof (copy_mounts_users s1 m (n_mnt (ns i)) (n_user (ns i))) as H. rewrite E2 in H. simpl in H. by rewrite H. }
  destruct b; [|by intros [= <- <- <-]].
  pose proof (unshare_files_power flags i s2) as [P3 U3]. destruct (unshare_files _ _ _ _) as [i3 s3].
  pose proof (unshare_fs_power flags i3 s3) as [P4 U4]. destruct (unshare_fs _ _ _) as [i4 s4].
  simpl in *. intros [= <- <- <-]. unfold same_power in *. destruct P3 as (?&?&?), P4 as (?&?&?).
  split_and!; congruence.
Qed.

(** [unshare] leaves the task's power as it was, or puts it in a user namespace that is new. *)
Lemma sys_unshare_power cur flags s r j s' :
  ns_ok s → NsChain.known (table (users s)) (n_user (ns cur)) →
  sys_unshare bump_pipe cur flags s = (r, j, s') →
  thinned (users s) (users s') ∧ same_power cur j ∨
  n_user (ns j) = next_ns_id s + 1 ∧ NsChain.ordered parent (table (users s')).
Proof.
  intros [Ho Hc Hn Hid] Hk. unfold sys_unshare. destruct (unshare_refused cur flags s) as [e|].
  { intros [= <- <- <-]. left. split; [by left|done]. }
  unfold unshare_namespaces. set (fl := Z.land flags _).
  destruct (enter_new_namespaces cur (ns cur) fl false s) as [[e|n] s1] eqn:E1;
    apply enter_spec in E1 as [T1 N1].
  { intros [= <- <- <-]. by left. }
  specialize (N1 n eq_refl). cbn [ns with_ns]. destruct (Z.eqb_spec (n_user n) (n_user (ns cur))) as [Eu|Eu].
  { intros H. apply unshare_rest_power in H as [P ->]. left. split; [done|].
    unfold same_power in *. simpl in P. by rewrite Eu in P. }
  assert (n_user n = next_ns_id s + 1) as En.
  { destruct (has fl CLONE_NEWUSER); [|done]. rewrite N1. unfold wrap. apply Z.mod_small. lia. }
  unfold enter_user_namespace. destruct (UserNs.create _ _ _ _ _) as [e|u] eqn:Ec.
  { intros [= <- <- <-]. left. split; [done|]. by split_and!. }
  intros H. apply unshare_rest_power in H as [(_ & _ & P) ->]. simpl in P. right.
  split; [by rewrite P|]. cbn [users with_users]. unfold UserNs.create in Ec. case_match; [done|]. injection Ec as <-.
  intros i x Hx. simpl in Hx. apply lookup_insert_Some in Hx as [[<- <-]|[_ Hx]].
  - simpl. destruct Hk as [->|[y Hy]]; [lia|]. pose proof (Hid _ (mk_is_Some _ _ Hy)). apply Ho in Hy. lia.
  - apply (Ho i). destruct T1 as [<-|[in_use T1]]; [done|]. rewrite T1 in Hx. by apply gc_table in Hx as [? _].
Qed.

(** * [setns] *)

Lemma enter_mounts_power s i old :
  same_power i (enter_mounts s i old).1 ∧ users (enter_mounts s i old).2 = users s.
Proof.
  unfold enter_mounts, carry_open_files. case_match; [done|]. by destruct (carry_from _ _ _).
Qed.

(** The user namespace is joined through its own rule only, pidfds apart. *)
Lemma setns_namespace_power s i k id ty rf r j s' :
  setns_namespace s i k id ty rf = (r, j, s') →
  users s' = users s ∧ (same_power i j ∨ (r, j) = join_user_namespace s i id).
Proof.
  unfold setns_namespace. do 2 (case_match; [intros [= <- <- <-]; split; [done|by left]|]).
  case_decide as Hk.
  - destruct (join_user_namespace s i id) as [x y]. intros [= <- <- <-]. split; [done|by right].
  - do 2 (case_match; [intros [= <- <- <-]; split; [done|by left]|]).
    set (i1 := with_ns i _). assert (same_power i i1) as P1 by (split_and!; try done; by apply join_user).
    pose proof (enter_mounts_power s i1 (n_mnt (ns i))) as [P2 U2].
    destruct (decide (k = Mnt)); [|intros [= <- <- <-]; split; [done|by left]].
    destruct (enter_mounts _ _ _) as [i2 s2]. simpl in *. intros [= <- <- <-]. split; [done|left].
    destruct P1 as (?&?&?), P2 as (?&?&?). split_and!; congruence.
Qed.

Lemma setns_pidfd_power s i n ty rf r j s' :
  has ty CLONE_NEWUSER = false → setns_pidfd s i n ty rf = (r, j, s') → same_power i j ∧ users s' = users s.
Proof.
  intros Hu. unfold setns_pidfd. pose proof (same_power_refl i) as Pi.
  destruct (_ || _); [intros [= <- <- <-]; exact (conj Pi eq_refl)|].
  destruct (if _ =? _ then _ else _) as [target|]; [|intros [= <- <- <-]; exact (conj Pi eq_refl)].
  destruct (_ && _); [intros [= <- <- <-]; exact (conj Pi eq_refl)|].
  set (i1 := with_ns i _).
  assert (same_power i i1) as P1.
  { split_and!; try done. unfold i1. cbn [ns with_ns]. unfold SETNS_KINDS. cbn [foldl].
    change (flag User) with CLONE_NEWUSER. rewrite Hu. repeat case_match; done. }
  pose proof (enter_mounts_power s i1 (n_mnt (ns i))) as [P2 U2].
  destruct (has ty CLONE_NEWNS); [|by intros [= <- <- <-]].
  destruct (enter_mounts _ _ _) as [i2 s2]. simpl in *. intros [= <- <- <-]. split; [|done].
  destruct P1 as (?&?&?), P2 as (?&?&?). split_and!; congruence.
Qed.

Lemma join_user_power s i id r j :
  join_user_namespace s i id = (r, j) →
  same_power i j ∨
  n_user (ns j) = id ∧ id ≠ n_user (ns i) ∧ UserNs.is_within (users s) id (n_user (ns i)) = true ∧
  (privileged i = true ∨ created_by (users s) id (n_user (ns i)) (euid (creds i)) = true).
Proof.
  unfold join_user_namespace. destruct (Z.eqb_spec id (n_user (ns i))); [intros [= <- <-]; by left|].
  destruct (UserNs.is_within _ _ _ && _) eqn:E; [|intros [= <- <-]; by left].
  intros [= <- <-]. right. split; [done|]. split; [done|]. apply andb_true_iff in E as [E1 E2]. split; [done|].
  by apply orb_true_iff in E2.
Qed.

(** No namespace that existed is within one made from the counter afterwards. *)
Lemma not_within_new s s' user :
  ns_ok s → NsChain.known (table (users s)) user → NsChain.ordered parent (table (users s')) →
  UserNs.is_within (users s') user (next_ns_id s + 1) = false.
Proof.
  intros Hs Hu Ho. apply not_true_is_false. intros Ha. unfold UserNs.is_within, UserNs.chain in Ha.
  pose proof (no_next _ Hs). assert (0 ≤ user ≤ next_ns_id s) as Hr.
  { destruct Hu as [->|Hu]; [lia|]. split; [|by apply (no_ids _ Hs)].
    destruct Hu as [x Hx]. destruct (no_ordered _ Hs _ _ Hx). lia. }
  repeat (apply orb_true_iff in Ha as [Ha|Ha]); [lia|lia|].
  apply bool_decide_eq_true, (chain_in_dom (par:=parent)) in Ha as [_ Ha]; [lia|done].
Qed.
Lemma unshare_confined s cur user flags r cur' s' :
  ns_ok s → NsChain.known (table (users s)) (n_user (ns cur)) → NsChain.known (table (users s)) user →
  sys_unshare bump_pipe cur flags s = (r, cur', s') →
  authority s' cur' user = true → authority s cur user = true.
Proof.
  intros Hs Hk Hu H Ha. apply sys_unshare_power in H as [[Ht Hp]|[Hn Ho]]; try done.
  { by eapply same_power_authority. }
  exfalso. unfold authority in Ha. rewrite Hn, (not_within_new s s' user) in Ha by done. by rewrite andb_false_r in Ha.
Qed.

(** What [setns] does to a task's power: nothing, or it joins a user namespace nested in its
    own, privileged or as its creator. *)
Lemma sys_setns_power s cur fd ty r cur' s' :
  (∀ i, fd_get (fds cur) (as_i32 fd) = Some (Pidfd i) → has ty CLONE_NEWUSER = false) →
  sys_setns s cur fd ty = (r, cur', s') →
  users s' = users s ∧
  (same_power cur cur' ∨ ∃ id,
     n_user (ns cur') = id ∧ id ≠ n_user (ns cur) ∧ UserNs.is_within (users s) id (n_user (ns cur)) = true ∧
     (privileged cur = true ∨ created_by (users s) id (n_user (ns cur)) (euid (creds cur)) = true)).
Proof.
  intros Hpf H. unfold sys_setns in H. pose proof (same_power_refl cur) as Pc.
  destruct (negb _) eqn:E1; [injection H as <- <- <-; eauto|].
  destruct (_ && _) eqn:E2; [injection H as <- <- <-; eauto|].
  destruct (fd_get (fds cur) (as_i32 fd)) as [f|] eqn:Ef; [|injection H as <- <- <-; eauto].
  destruct f as [| | | | | | | | | | | |i|k id| | | |]; try (injection H as <- <- <-; eauto).
  - apply setns_pidfd_power in H as [P U]; [eauto|by eapply Hpf].
  - apply setns_namespace_power in H as [U [P|J]]; [eauto|]. split; [done|]. symmetry in J.
    apply join_user_power in J as [P|J]; eauto.
Qed.

(** C14: No call that changes a task's namespaces, joining a user namespace by pidfd apart, gives
    it authority it did not have: over a user namespace that existed before, it has authority
    afterwards only if it had it, or if the namespace is one it created or is nested in one.
    In particular none makes it privileged over the whole machine. *)
Theorem namespace_calls_confined s cur user :
  ns_ok s → NsChain.known (table (users s)) (n_user (ns cur)) → NsChain.known (table (users s)) user →
  (∀ flags r cur' s', sys_unshare bump_pipe cur flags s = (r, cur', s') →
     authority s' cur' user = true → authority s cur user = true) ∧
  (∀ fd nstype r cur' s', sys_setns s cur fd nstype = (r, cur', s') →
     (∀ i, fd_get (fds cur) (as_i32 fd) = Some (Pidfd i) → has nstype CLONE_NEWUSER = false) →
     (authority s' cur' user = true → authority s cur user = true ∨
        ∃ c, created_by (users s) c (n_user (ns cur)) (euid (creds cur)) = true ∧
             UserNs.is_within (users s) user c = true) ∧
     (host_capable cur' = true → host_capable cur = true)).
Proof.
  intros Hs Hk Hu. split; [intros; by eapply unshare_confined|].
  intros fd ty r cur' s' H Hpf. apply sys_setns_power in H as [U [P|(id & En & Hne & Hw & Hor)]]; [| |done].
  - split; [intros Ha; left; eapply same_power_authority; [done|left; by rewrite U|done|done]|].
    unfold host_capable, privileged. by destruct P as (-> & -> & ->).
  - split.
    + unfold authority. rewrite En, U. intros [_ Ha]%andb_true_iff.
      destruct Hor as [Hp|Hc]; [left|right; by exists id]. rewrite Hp. simpl.
      eapply within_trans; [apply (no_ordered _ Hs)|exact Ha|exact Hw].
    + unfold host_capable. rewrite En. intros [_ ->%Z.eqb_eq]%andb_true_iff. exfalso.
      unfold UserNs.is_within, UserNs.chain in Hw. rewrite (chain_0 (par:=parent)) in Hw by apply (no_ordered _ Hs).
      repeat (apply orb_true_iff in Hw as [Hw|Hw]); [lia|lia|]. by apply bool_decide_eq_true, elem_of_nil in Hw.
Qed.

(** * Joining by pidfd *)

Lemma own_new_same kinds n u : own_new kinds n n u = (None, u).
Proof. induction kinds as [|k kinds IH]; simpl; [done|]. by rewrite Z.eqb_refl. Qed.
Lemma enter_user_only cur n s : ∃ u,
  enter_new_namespaces cur n CLONE_NEWUSER false s =
    (inr (proxy_set n User (wrap U32 (next_ns_id s + 1))), with_users (with_next s (wrap U32 (next_ns_id s + 1))) u).
Proof.
  unfold enter_new_namespaces, fresh_kind. change (has CLONE_NEWUSER CLONE_NEWUSER) with true.
  change (has CLONE_NEWUSER CLONE_NEWUTS) with false. cbn [fst snd fresh_ns_id].
  unfold new_kinds, new_for_children, fresh_kind. change (has CLONE_NEWUSER CLONE_NEWIPC) with false.
  change (has CLONE_NEWUSER CLONE_NEWNET) with false. change (has CLONE_NEWUSER CLONE_NEWNS) with false.
  change (has CLONE_NEWUSER CLONE_NEWCGROUP) with false. change (has CLONE_NEWUSER CLONE_NEWPID) with false.
  change (has CLONE_NEWUSER CLONE_NEWTIME) with false. cbv zeta iota. unfold record_owners. rewrite own_new_same. by eexists.
Qed.
(** A task [unshare] does not refuse has no other thread. *)
Lemma not_refused_alone cur s : unshare_refused cur CLONE_NEWUSER s = None → threaded s cur = false.
Proof.
  unfold unshare_refused. change (has CLONE_NEWUSER (Z.lor CLONE_NEWUSER CLONE_NEWPID)) with true.
  rewrite andb_true_l. destruct (threaded s cur); [|done]. by repeat case_match.
Qed.
(** What a successful [unshare] of a user namespace alone leaves. *)
Lemma unshare_user s cur cur1 s1 :
  ns_ok s → NsChain.known (table (users s)) (n_user (ns cur)) →
  sys_unshare bump_pipe cur CLONE_NEWUSER s = (0, cur1, s1) →
  n_user (ns cur1) = next_ns_id s + 1 ∧ NsChain.ordered parent (table (users s1)) ∧ privileged cur1 = true ∧
  fds cur1 = fds cur ∧ pid cur1 = pid cur ∧ threaded s1 cur1 = false ∧ tasks s1 = tasks s ∧
  pidfd_target s1 = pidfd_target s.
Proof.
  intros Hs Hk H. pose proof (sys_unshare_power _ _ _ _ _ _ Hs Hk H) as Hp. revert H. unfold sys_unshare.
  destruct (unshare_refused cur CLONE_NEWUSER s) as [e|] eqn:Er.
  { intros [= E _ _]. revert Er. unfold unshare_refused. repeat case_match; intros; by simplify_eq. }
  apply not_refused_alone in Er. change (Z.land CLONE_NEWUSER (Z.lor NS_FLAGS CLONE_NEWUSER)) with CLONE_NEWUSER.
  unfold unshare_namespaces. destruct (enter_user_only cur (ns cur) s) as [u ->]. pose proof (no_next _ Hs).
  assert (wrap U32 (next_ns_id s + 1) = next_ns_id s + 1) as Ew by (unfold wrap; apply Z.mod_small; lia).
  rewrite Ew. set (n1 := proxy_set _ _ _). assert (n_user n1 = next_ns_id s + 1) as En by done.
  cbn [ns with_ns]. destruct (Z.eqb_spec (n_user n1) (n_user (ns cur))) as [Eu|Eu].
  { exfalso. destruct Hk as [Hk|Hk]; [lia|]. pose proof (no_ids _ Hs _ Hk). lia. }
  unfold enter_user_namespace. destruct (UserNs.create _ _ _ _ _) as [e|u'] eqn:Ec.
  { intros [= E _ _]. revert Ec. unfold UserNs.create. case_match; intros; by simplify_eq. }
  unfold unshare_rest. change (has CLONE_NEWUSER CLONE_NEWPID) with false. cbv iota. cbn [ns with_ns with_creds grant_caps].
  change (n_mnt n1) with (n_mnt (ns cur)). rewrite Z.eqb_refl.
  unfold unshare_files, unshare_fs. change (has CLONE_NEWUSER CLONE_FILES) with false. change (has CLONE_NEWUSER CLONE_FS) with false.
  cbn [andb]. intros [= <- <-]. destruct Hp as [[_ (_ & _ & Hp)]|[Hp Ho]]; [by destruct Eu|].
  split_and!; try done.
Qed.

(** [setns] to the user namespace of a live task, by pidfd, as a privileged task without threads. *)
Lemma setns_pidfd_user s cur fd i t :
  privileged cur = true → threaded s cur = false → fd_get (fds cur) (as_i32 fd) = Some (Pidfd i) →
  pidfd_target s i ≠ pid cur → List.find (λ t, pid t =? pidfd_target s i) (tasks s) = Some t → zombie t = false →
  sys_setns s cur fd CLONE_NEWUSER = (0, with_ns cur (proxy_set (ns cur) User (n_user (ns t))), s).
Proof.
  intros Hp Ht Hf Hi Hfind Hz. unfold sys_setns. rewrite Hf, Hp, Ht.
  change (Z.ldiff CLONE_NEWUSER SETNS_ALL =? 0) with true. cbn [negb andb].
  unfold setns_pidfd. change (CLONE_NEWUSER =? 0) with false. cbn [orb andb].
  rewrite (proj2 (Z.eqb_neq _ _) Hi), Hfind, Hz. change (has CLONE_NEWUSER (flag Pid)) with false. cbn [andb].
  change (has CLONE_NEWUSER CLONE_NEWNS) with false. done.
Qed.

(** C15: [setns] by pidfd checks nothing of the user namespace it joins. Any task whose [unshare] of
    a user namespace succeeds - no privilege is asked for it - and which holds a pidfd of another
    live task, of any user namespace, gets into that namespace by [setns], still with the
    capabilities [unshare] gave it: it has authority over the namespace and all below it, over
    the whole machine when it is the initial one. By a descriptor of that same namespace, if it
    existed before, the call is refused. *)
Theorem pidfd_setns_escapes s cur cur1 s1 fd i t :
  ns_ok s → NsChain.known (table (users s)) (n_user (ns cur)) → NsChain.known (table (users s)) (n_user (ns t)) →
  sys_unshare bump_pipe cur CLONE_NEWUSER s = (0, cur1, s1) →
  fd_get (fds cur) (as_i32 fd) = Some (Pidfd i) → pidfd_target s i ≠ pid cur →
  List.find (λ t, pid t =? pidfd_target s i) (tasks s) = Some t → zombie t = false →
  ∃ cur2, sys_setns s1 cur1 fd CLONE_NEWUSER = (0, cur2, s1) ∧
    (∀ user, UserNs.is_within (users s1) user (n_user (ns t)) = true → authority s1 cur2 user = true) ∧
    (n_user (ns t) = 0 → host_capable cur2 = true) ∧
    ∀ fd', fd_get (fds cur) (as_i32 fd') = Some (Namespace User (n_user (ns t))) →
      sys_setns s1 cur1 fd' CLONE_NEWUSER = (err EPERM, cur1, s1).
Proof.
  intros Hs Hk Hkt H Hf Hi Hfind Hz.
  destruct (unshare_user _ _ _ _ Hs Hk H) as (En & Ho & Hp & Efd & Epid & Ht & Etasks & Etgt).
  eexists. split; [apply (setns_pidfd_user s1 cur1 fd i t); by rewrite ?Efd, ?Epid, ?Etgt, ?Etasks|].
  assert (∀ n, privileged (with_ns cur1 n) = true) as Hp' by (intros; exact Hp).
  split_and!.
  - intros user Hw. unfold authority. by rewrite Hp'.
  - intros E0. unfold host_capable. rewrite Hp'. simpl. by rewrite E0.
  - intros fd' Hf'. unfold sys_setns. rewrite Efd, Hf', Hp, Ht.
    change (Z.ldiff CLONE_NEWUSER SETNS_ALL =? 0) with true. cbn [negb andb]. unfold setns_namespace.
    change (CLONE_NEWUSER =? 0) with false. change (CLONE_NEWUSER =? flag User) with true. cbn [negb andb].
    rewrite decide_True by done. unfold join_user_namespace. rewrite En, (not_within_new s s1) by done.
    destruct (Z.eqb_spec (n_user (ns t)) (next_ns_id s + 1)) as [E|]; [exfalso|done].
    pose proof (no_next _ Hs). destruct Hkt as [Hkt|Hkt]; [lia|]. pose proof (no_ids _ Hs _ Hkt). lia.
Qed.
End Spec.

(** * Concrete tasks

    User 1000 makes itself a user namespace, in which it is privileged, and follows a pidfd of the
    first process into the initial one, where it is privileged over the whole machine. *)

Definition plain_creds (u : Z) : Creds := map_creds (λ _, u) (λ _, u) (mkCreds 0 0 0 0 0 0 0 0).
Definition first_task : Info :=
  mkInfo 1 1 false initial_proxy (plain_creds 0) None false [SLASH] [SLASH] with_standard_streams 0 0 [] 0.
Definition user_task : Info :=
  mkInfo 2 2 false initial_proxy (plain_creds 1000) None false [SLASH] [SLASH]
    (mkFdTable {[3 := Pidfd 0; 4 := Namespace User 0]} ∅ ∅) 1 1 [] 1.
Definition machine : @Shared unit unit :=
  mkShared [Some first_task; Some user_task] users_default ∅ 0 ∅ ∅ ∅ ∅ table_new [None; None] [None; None]
    (λ _, 1) tt.
Definition no_bump : Fd → unit → unit := λ _ u, u.

Definition after_unshare : Z * Info * @Shared unit unit := sys_unshare no_bump user_task CLONE_NEWUSER machine.
Lemma machine_ok : ns_ok machine.
Proof.
  assert (∀ id, table users_default !! id = None) as H0 by (intros; apply lookup_empty).
  split.
  - intros i e H. change (table (users machine)) with (table users_default) in H. by rewrite H0 in H.
  - intros i e H. change (table (users machine)) with (table users_default) in H. by rewrite H0 in H.
  - done.
  - intros i [e H]. change (table (users machine)) with (table users_default) in H. by rewrite H0 in H.
Qed.

Lemma namespace_calls_confined_witness :
  authority machine user_task 0 = false ∧ after_unshare.1.1 = 0 ∧
  authority after_unshare.2 after_unshare.1.2 0 = false.
Proof.
  split; [by vm_compute|]. split; [by vm_compute|].
  apply not_true_is_false. intros Ha.
  destruct (namespace_calls_confined no_bump machine user_task 0 machine_ok (or_introl eq_refl) (or_introl eq_refl))
    as [H _].
  assert (authority machine user_task 0 = true) as Hb
    by (apply (H CLONE_NEWUSER after_unshare.1.1 after_unshare.1.2 after_unshare.2); [reflexivity|exact Ha]).
  by vm_compute in Hb.
Defined.

Lemma pidfd_setns_escapes_witness :
  host_capable user_task = false ∧ after_unshare.1.1 = 0 ∧ host_capable after_unshare.1.2 = false ∧
  ∃ cur2, sys_setns after_unshare.2 after_unshare.1.2 3 CLONE_NEWUSER = (0, cur2, after_unshare.2) ∧
    host_capable cur2 = true ∧
    sys_setns after_unshare.2 after_unshare.1.2 4 CLONE_NEWUSER = (err EPERM, after_unshare.1.2, after_unshare.2).
Proof.
  do 3 (split; [by vm_compute|]).
  destruct (pidfd_setns_escapes no_bump machine user_task after_unshare.1.2 after_unshare.2 3 0 first_task machine_ok
    (or_introl eq_refl) (or_introl eq_refl)) as (cur2 & H1 & _ & H2 & H3);
    [reflexivity|reflexivity|vm_compute; discriminate|reflexivity|reflexivity|].
  exists cur2. split_and!; [exact H1|by apply H2|by apply H3].
Defined.

(** A refused [unshare] can leave the caller in other namespaces all the same: at the deepest
    level, asking for a user and a mount namespace fails, and the task is left in a mount
    namespace that was never made, with no file system in it. *)
Definition nested (n : nat) : UserNamespaces :=
  foldl (λ u i, result_of (UserNs.create u (Z.of_nat i + 1) (Z.of_nat i) 0 0)) users_default (seq 0 n).
Definition deep_task : Info := with_ns user_task (proxy_set initial_proxy User 31).
Definition deep_machine : @Shared unit unit := with_next (with_users machine (nested 31)) 31.
Lemma refused_unshare_moves :
  let '(r, i, s) := sys_unshare no_bump deep_task (Z.lor CLONE_NEWUSER CLONE_NEWNS) deep_machine in
  r = err ENOSPC ∧ n_mnt (ns i) = 33 ∧ n_mnt (ns deep_task) = 0 ∧ parked (vfs s) !! 33 = None.
Proof. vm_compute. repeat split. Qed.
