(* ===== verification/FileLocks.v ===== *)
(** File locks and seals ([src/kernel/fcntl.rs]): POSIX and open-file-description record
    locks, [flock] locks, memfd seals, and the handlers that change them. *)
From S2P Require Import Prelude Iface Abi PageLocks Fd.
From stdpp Require Import base numbers gmap relations list.
Local Open Scope Z_scope.

Definition F_RDLCK : Z := 0.
Definition F_WRLCK : Z := 1.
Definition F_UNLCK : Z := 2.
Definition U64_MAX : Z := U64 - 1.
Definition I64_MAX : Z := 2 ^ 63 - 1.
Definition I64_MIN : Z := - 2 ^ 63.

(** The range of [i64]. *)
Definition in_i64 (z : Z) : bool := (I64_MIN <=? z) && (z <=? I64_MAX).

(** A file's identity: its mount point and inode. *)
Definition FileKey : Type := list Z * Z.

Inductive Owner :=
  | Process (tgid : Z)
  | Ofd (id : Z).
#[export] Instance Owner_eq_dec : EqDecision Owner.
Proof. solve_decision. Defined.

Record RecLock := mkRec { rl_owner : Owner; rl_write : bool; rl_start : Z; rl_end : Z; rl_pid : Z }.
Record Flock := mkFlock { fl_ofd : Z; fl_exclusive : bool }.

Record FileLocks := mkLocks {
  records : gmap FileKey (list RecLock);
  flocks : gmap FileKey (list Flock);
  seals : gmap (list Z) Z
}.
Definition locks_default : FileLocks := mkLocks ∅ ∅ ∅.

(** [FileLocks::is_empty]: no lock of either kind (seals do not count). *)
Definition locks_is_empty (ls : FileLocks) : bool :=
  bool_decide (records ls = ∅) && bool_decide (flocks ls = ∅).

(** [conflict]. *)
Definition conflicts (owner : Owner) (write : bool) (start stop : Z) (l : RecLock) : bool :=
  negb (bool_decide (rl_owner l = owner)) && (rl_start l <? stop) && (start <? rl_end l)
  && (write || rl_write l).
Definition conflict (ls : FileLocks) (key : FileKey) (owner : Owner) (write : bool)
    (start stop : Z) : option RecLock :=
  v ← records ls !! key; head (filter (λ l, conflicts owner write start stop l = true) v).

(** [set]: the owner's locks are trimmed around the range, then the new one is pushed. *)
Definition trim (owner : Owner) (start stop : Z) (l : RecLock) : list RecLock :=
  if negb (bool_decide (rl_owner l = owner)) || (rl_end l <=? start) || (stop <=? rl_start l) then [l]
  else (if rl_start l <? start then [mkRec (rl_owner l) (rl_write l) (rl_start l) start (rl_pid l)] else [])
       ++ (if stop <? rl_end l then [mkRec (rl_owner l) (rl_write l) stop (rl_end l) (rl_pid l)] else []).
Definition set_list (owner : Owner) (typ start stop pid : Z) (v : list RecLock) : list RecLock :=
  (v ≫= trim owner start stop) ++
  (if typ =? F_UNLCK then [] else [mkRec owner (typ =? F_WRLCK) start stop pid]).
Definition put_records (ls : FileLocks) (key : FileKey) (out : list RecLock) : FileLocks :=
  mkLocks (match out with [] => delete key (records ls) | _ => <[key := out]> (records ls) end)
    (flocks ls) (seals ls).
Definition set_lock (ls : FileLocks) (key : FileKey) (owner : Owner) (typ start stop pid : Z) : FileLocks :=
  put_records ls key (set_list owner typ start stop pid (default [] (records ls !! key))).

(** [drop_where]: the maps after, and whether any lock went. *)
Definition key_matches (key : option FileKey) (k : FileKey) : bool :=
  match key with None => true | Some key => bool_decide (key = k) end.
Definition retain_map {A} (key : option FileKey) (p : A → bool) (m : gmap FileKey (list A))
    : gmap FileKey (list A) :=
  filter (λ x, x.2 ≠ []) (map_imap (λ k v,
    Some (if key_matches key k then filter (λ l, p l = false) v else v)) m).
Definition any_dropped {A} (key : option FileKey) (p : A → bool) (m : gmap FileKey (list A)) : bool :=
  existsb (λ x, key_matches key x.1 &&
    negb (Z.of_nat (length (filter (λ l, p l = false) x.2)) =? Z.of_nat (length x.2)))
    (map_to_list m).
Definition drop_where (ls : FileLocks) (key : option FileKey) (rec : RecLock → bool) (fl : Flock → bool)
    : bool * FileLocks :=
  (any_dropped key rec (records ls) || any_dropped key fl (flocks ls),
   mkLocks (retain_map key rec (records ls)) (retain_map key fl (flocks ls)) (seals ls)).

(** [+] on [i64]: a build with overflow checks panics, a release build wraps. *)
Definition i64_add (checks : bool) (a b : Z) : res Z :=
  if in_i64 (a + b) then Ok (a + b) else if checks then Panic else Ok (as_i64 (a + b)).

(** [read_flock]: type, first byte, end, pid; [inl] an error return. *)
Definition read_flock `{GuestMem M} (checks : bool) (mem : M) (arg pos size : Z)
    : res (Z + Z * Z * Z * Z) :=
  match gm_read mem arg 32 with
  | None => Ok (inl (err EFAULT))
  | Some raw =>
    let field i n := le_val (take n (drop i raw)) in
    let typ := as_i16 (field 0%nat 2%nat) in
    let whence := as_i16 (field 2%nat 2%nat) in
    let start := as_i64 (field 8%nat 8%nat) in
    let len := as_i64 (field 16%nat 8%nat) in
    let pid := as_i32 (field 24%nat 4%nat) in
    if negb ((typ =? F_RDLCK) || (typ =? F_WRLCK) || (typ =? F_UNLCK)) then Ok (inl (err EINVAL))
    else match (if whence =? 0 then Some 0 else if whence =? 1 then Some (as_i64 pos)
                else if whence =? 2 then Some (as_i64 size) else None) with
    | None => Ok (inl (err EINVAL))
    | Some base =>
      if negb (in_i64 (base + start)) then Ok (inl (err EOVERFLOW))
      else
        let s := base + start in
        let fin s e :=
          if s <? 0 then Ok (inl (err EINVAL))
          else Ok (inr (typ, s, if e =? I64_MAX then U64_MAX else e mod U64, pid)) in
        if len =? 0 then fin s I64_MAX
        else if 0 <? len then
          if in_i64 (s + len) then fin s (s + len) else Ok (inl (err EOVERFLOW))
        else s' ← i64_add checks s len; fin s' s
    end
  end.

(** What the handlers see of the mount table: a file's size, and its identity. *)
Record Vfs := mkVfs { vfs_size : list Z → option Z; vfs_key : list Z → option FileKey }.

(** [release_fd_locks_with], [release_process_locks]: the locks after, and whether the
    waiters are woken. [refs] counts the descriptors of the description. *)
Definition release_fd_locks (vfs : Vfs) (ls : FileLocks) (tgid refs : Z) (f : Fd) : bool * FileLocks :=
  match f with
  | File path offset _ _ =>
    if locks_is_empty ls then (false, ls)
    else
      let last := refs =? 1 in
      drop_where ls (vfs_key vfs path)
        (λ l, bool_decide (rl_owner l = Process tgid) || (last && bool_decide (rl_owner l = Ofd offset)))
        (λ l, last && (fl_ofd l =? offset))
  | _ => (false, ls)
  end.
Definition release_process_locks (ls : FileLocks) (tgid : Z) : bool * FileLocks :=
  if locks_is_empty ls then (false, ls)
  else drop_where ls None (λ l, bool_decide (rl_owner l = Process tgid)) (λ _, false).

(** * Seals *)
Definition F_SEAL_SEAL : Z := 1.
Definition F_SEAL_SHRINK : Z := 2.
Definition F_SEAL_GROW : Z := 4.
Definition F_SEAL_WRITE : Z := 8.
Definition F_SEAL_FUTURE_WRITE : Z := 16.
Definition F_SEAL_EXEC : Z := 32.
Definition F_SEAL_ALL : Z := 63.

Definition seals_of (ls : FileLocks) (path : list Z) : option Z := seals ls !! path.
Definition memfd_register (ls : FileLocks) (path : list Z) (allow_sealing : bool) : FileLocks :=
  mkLocks (records ls) (flocks ls) (<[path := if allow_sealing then 0 else F_SEAL_SEAL]> (seals ls)).
Definition has_seal (s bits : Z) : bool := negb (Z.land s bits =? 0).

(** [off + len] on [u64]. *)
Definition u64_add (checks : bool) (a b : Z) : res Z :=
  if a + b <? U64 then Ok (a + b) else if checks then Panic else Ok (wrap U64 (a + b)).
Definition seal_blocks_write (checks : bool) (vfs : Vfs) (ls : FileLocks) (path : list Z)
    (off len : Z) : res bool :=
  match seals_of ls path with
  | None => Ok false
  | Some s =>
    if has_seal s (Z.lor F_SEAL_WRITE F_SEAL_FUTURE_WRITE) then Ok true
    else if has_seal s F_SEAL_GROW then
      e ← u64_add checks off len; Ok (default 0 (vfs_size vfs path) <? e)
    else Ok false
  end.
Definition seal_blocks_truncate (vfs : Vfs) (ls : FileLocks) (path : list Z) (len : Z) : bool :=
  match seals_of ls path with
  | None => false
  | Some s =>
    let size := default 0 (vfs_size vfs path) in
    (has_seal s F_SEAL_SHRINK && (len <? size)) || (has_seal s F_SEAL_GROW && (size <? len))
  end.

(** [fcntl_seals]: [F_ADD_SEALS] ([add]) and [F_GET_SEALS]. *)
Definition fcntl_seals (ls : FileLocks) (f : Fd) (add : bool) (arg : Z) : Z * FileLocks :=
  match f with
  | File path _ _ writable =>
    match seals ls !! path with
    | None => (err EINVAL, ls)
    | Some cur =>
      if negb add then (cur, ls)
      else
        let new := arg mod U32 in
        if negb (Z.ldiff new F_SEAL_ALL =? 0) then (err EINVAL, ls)
        else if negb writable then (err EPERM, ls)
        else if has_seal cur F_SEAL_SEAL then (err EPERM, ls)
        else (0, mkLocks (records ls) (flocks ls) (<[path := Z.lor cur new]> (seals ls)))
    end
  | _ => (err EINVAL, ls)
  end.

(** * The lock handlers

    A handler's result: its return value, whether the caller blocks (the syscall is
    retried when it is woken), whether every parked task is woken, the locks and the
    memory after. *)
Record Out (M : Type) := mkOut {
  o_ret : Z; o_block : bool; o_unpark : bool; o_locks : FileLocks; o_mem : M
}.
Arguments mkOut {M}. Arguments o_ret {M}. Arguments o_block {M}. Arguments o_unpark {M}.
Arguments o_locks {M}. Arguments o_mem {M}.

Definition F_GETLK : Z := 5.
Definition F_SETLK : Z := 6.
Definition F_SETLKW : Z := 7.
Definition F_OFD_GETLK : Z := 36.
Definition F_OFD_SETLK : Z := 37.
Definition F_OFD_SETLKW : Z := 38.

(** The [struct flock] [F_GETLK] writes back ([b[..28]]). *)
Definition flock_bytes (c : option RecLock) : list Z :=
  match c with
  | None => le_bytes 2 F_UNLCK ++ replicate 26 0
  | Some l =>
    le_bytes 2 (if rl_write l then F_WRLCK else F_RDLCK) ++ replicate 6 0 ++ le_bytes 8 (rl_start l)
    ++ le_bytes 8 (if rl_end l =? U64_MAX then 0 else rl_end l - rl_start l) ++ le_bytes 4 (rl_pid l)
  end.

Definition fcntl_lock `{GuestMem M} (checks : bool) (vfs : Vfs) (ofds : Ofds) (ls : FileLocks)
    (tgid : Z) (f : Fd) (cmd arg : Z) (mem : M) : res (Out M) :=
  let ofd_cmd := 36 <=? cmd in
  let getlk := (cmd =? F_GETLK) || (cmd =? F_OFD_GETLK) in
  let ret r := Ok (mkOut r false false ls mem) in
  match f with
  | File path offset readable writable =>
    let size := default 0 (vfs_size vfs path) in
    match vfs_key vfs path with
    | None => ret (err EBADF)
    | Some key =>
      r ← read_flock checks mem arg (ofd_get ofds offset) size;
      match r with
      | inl e => ret e
      | inr (typ, start, stop, l_pid) =>
        if ofd_cmd && negb (l_pid =? 0) then ret (err EINVAL)
        else
          let owner := if ofd_cmd then Ofd offset else Process tgid in
          if getlk then
            if typ =? F_UNLCK then ret (err EINVAL)
            else match gm_write mem arg (flock_bytes (conflict ls key owner (typ =? F_WRLCK) start stop)) with
                 | Some mem' => Ok (mkOut 0 false false ls mem')
                 | None => ret (err EFAULT)
                 end
          else if ((typ =? F_RDLCK) && negb readable) || ((typ =? F_WRLCK) && negb writable)
          then ret (err EBADF)
          else if negb (typ =? F_UNLCK)
                  && bool_decide (is_Some (conflict ls key owner (typ =? F_WRLCK) start stop))
          then if (cmd =? F_SETLKW) || (cmd =? F_OFD_SETLKW) then Ok (mkOut 0 true false ls mem)
               else ret (err EAGAIN)
          else
            let pid := if ofd_cmd then -1 else tgid in
            Ok (mkOut 0 false (negb (typ =? F_WRLCK)) (set_lock ls key owner typ start stop pid) mem)
      end
    end
  | _ =>
    if getlk then
      match gm_write mem arg (le_bytes 2 F_UNLCK) with
      | Some mem' => Ok (mkOut 0 false false ls mem')
      | None => ret (err EFAULT)
      end
    else ret 0
  end.

(** [sys_flock]. *)
Definition LOCK_SH : Z := 1.
Definition LOCK_EX : Z := 2.
Definition LOCK_NB : Z := 4.
Definition LOCK_UN : Z := 8.
Definition put_flocks (ls : FileLocks) (key : FileKey) (out : list Flock) : FileLocks :=
  mkLocks (records ls) (match out with [] => delete key (flocks ls) | _ => <[key := out]> (flocks ls) end)
    (seals ls).
Definition sys_flock (vfs : Vfs) (ls : FileLocks) (t : FdTable) (fd op : Z) : Out unit :=
  let ret r := mkOut r false false ls tt in
  match fd_get t (as_i32 fd) with
  | None => ret (err EBADF)
  | Some f =>
    let kind := Z.ldiff op LOCK_NB in
    if negb ((kind =? LOCK_SH) || (kind =? LOCK_EX) || (kind =? LOCK_UN)) then ret (err EINVAL)
    else match f with
    | File path ofd _ _ =>
      match vfs_key vfs path with
      | None => ret (err EBADF)
      | Some key =>
        let list := default [] (flocks ls !! key) in
        let others := filter (λ l, fl_ofd l ≠ ofd) list in
        if kind =? LOCK_UN then mkOut 0 false true (put_flocks ls key others) tt
        else
          let exclusive := kind =? LOCK_EX in
          if existsb (λ l, negb (fl_ofd l =? ofd) && (exclusive || fl_exclusive l)) list then
            if negb (Z.land op LOCK_NB =? 0) then ret (err EAGAIN)
            else mkOut 0 true false ls tt
          else mkOut 0 false (negb exclusive) (put_flocks ls key (others ++ [mkFlock ofd exclusive])) tt
      end
    | _ => ret 0
    end
  end.

(** * Ranges *)

Lemma as_i64_range z : I64_MIN ≤ as_i64 z ≤ I64_MAX.
Proof.
  unfold as_i64, I64_MIN, I64_MAX, U64. pose proof (Z.mod_pos_bound z (2 ^ 64)).
  destruct (_ <? _) eqn:E; lia.
Qed.

(** Whatever the build, a lock that is accepted covers at least one byte. *)
Lemma read_flock_range `{GuestMem M} checks (mem : M) arg pos size typ s e pid :
  read_flock checks mem arg pos size = Ok (inr (typ, s, e, pid)) →
  0 ≤ s < e ∧ e ≤ U64_MAX ∧ (typ = F_RDLCK ∨ typ = F_WRLCK ∨ typ = F_UNLCK).
Proof.
  unfold read_flock. destruct (gm_read mem arg 32) as [raw|]; [|done].
  set (typ0 := as_i16 _). destruct (negb _) eqn:Et; [done|].
  assert (typ0 = F_RDLCK ∨ typ0 = F_WRLCK ∨ typ0 = F_UNLCK) as Ht by lia.
  match goal with |- match ?X with _ => _ end = _ → _ => destruct X as [base|] eqn:Eb; [|done] end.
  assert (I64_MIN ≤ base ≤ I64_MAX) as Hb.
  { revert Eb. repeat case_match; intros ?; simplify_eq; try apply as_i64_range. by compute. }
  set (start := as_i64 (le_val (take 8 (drop 8 raw)))).
  set (len := as_i64 (le_val (take 8 (drop 16 raw)))).
  pose proof (as_i64_range (le_val (take 8 (drop 16 raw)))) as Hlen. fold len in Hlen.
  destruct (negb (in_i64 (base + start))) eqn:Es; [done|].
  assert (I64_MIN ≤ base + start ≤ I64_MAX) as Hs by (unfold in_i64 in Es; lia).
  set (s0 := base + start) in *.
  assert (∀ s1 e1, I64_MIN ≤ s1 ≤ I64_MAX → I64_MIN ≤ e1 ≤ I64_MAX →
    (s1 < e1 ∨ e1 < 0 ∨ e1 = I64_MAX) →
    (if s1 <? 0 then Ok (inl (err EINVAL))
     else Ok (inr (typ0, s1, (if e1 =? I64_MAX then U64_MAX else e1 mod U64), as_i32 (le_val (take 4 (drop 24 raw))))))
      = Ok (inr (typ, s, e, pid)) →
    0 ≤ s < e ∧ e ≤ U64_MAX ∧ (typ = F_RDLCK ∨ typ = F_WRLCK ∨ typ = F_UNLCK)) as Hfin.
  { intros s1 e1 H1 H2 H3 E. destruct (s1 <? 0) eqn:E1; [done|]. injection E as <- <- <- <-.
    split; [|split; [|done]]; unfold U64_MAX, U64, I64_MIN, I64_MAX in *; destruct (e1 =? _) eqn:E2; divlia. }
  destruct (len =? 0) eqn:El; [apply Hfin; unfold I64_MIN, I64_MAX in *; lia|].
  destruct (0 <? len) eqn:El2.
  - destruct (in_i64 (s0 + len)) eqn:E2; [|done]. unfold in_i64 in E2. apply Hfin; lia.
  - unfold i64_add. destruct (in_i64 (s0 + len)) eqn:E2.
    + unfold in_i64 in E2. apply Hfin; lia.
    + destruct checks; [done|]. apply Hfin; [apply as_i64_range|done|]. right.
      unfold in_i64, I64_MIN, I64_MAX in *. lia.
Qed.

(** * The locks of one file *)

(** [holds v o w b]: owner [o] holds byte [b], for writing if [w]. *)
Definition covers (l : RecLock) (b : Z) : Prop := rl_start l ≤ b < rl_end l.
Definition holds (v : list RecLock) (o : Owner) (w : bool) (b : Z) : Prop :=
  ∃ l, l ∈ v ∧ rl_owner l = o ∧ rl_write l = w ∧ covers l b.

(** Two locks that may coexist. *)
Definition compat (l1 l2 : RecLock) : Prop :=
  (rl_end l1 ≤ rl_start l2 ∨ rl_end l2 ≤ rl_start l1) ∨
  (rl_owner l1 ≠ rl_owner l2 ∧ rl_write l1 = false ∧ rl_write l2 = false).

Fixpoint pairwise {A} (R : A → A → Prop) (v : list A) : Prop :=
  match v with [] => True | l :: v => Forall (R l) v ∧ pairwise R v end.

Lemma pairwise_app {A} (R : A → A → Prop) v1 v2 :
  pairwise R (v1 ++ v2) ↔ pairwise R v1 ∧ pairwise R v2 ∧ ∀ a b, a ∈ v1 → b ∈ v2 → R a b.
Proof.
  induction v1 as [|l v1 IH]; simpl.
  - split; [intros H; split_and!; [done|done|]|tauto]. intros a b Ha. by apply elem_of_nil in Ha.
  - rewrite IH, Forall_app, !Forall_forall. split.
    + intros [[H1 H2] (H3 & H4 & H5)]. split_and!; try done. intros a b [->|Ha]%elem_of_cons Hb; auto.
    + intros [[H1 H2] (H3 & H4)]. split_and!; try done; intros; apply H4; try done; apply elem_of_cons; tauto.
Qed.

Lemma pairwise_filter {A} (R : A → A → Prop) (P : A → Prop) `{∀ x, Decision (P x)} v :
  pairwise R v → pairwise R (filter P v).
Proof.
  induction v as [|l v IH]; [done|]. simpl. intros [H1 H2]. rewrite filter_cons. case_decide; [|auto].
  split; [|auto]. apply Forall_forall. intros x Hx. apply list_elem_of_filter in Hx as [_ Hx].
  rewrite Forall_forall in H1. auto.
Qed.

Definition nonempty (l : RecLock) : Prop := rl_start l < rl_end l.

(** The pieces [trim] leaves of a lock. *)
Lemma elem_of_trim o s e l p : p ∈ trim o s e l →
  rl_owner p = rl_owner l ∧ rl_write p = rl_write l ∧ rl_start l ≤ rl_start p ∧ rl_end p ≤ rl_end l ∧
  (nonempty l → nonempty p) ∧
  (rl_owner l = o → rl_end p ≤ s ∨ e ≤ rl_start p) ∧ (rl_owner l ≠ o → p = l).
Proof.
  unfold trim, nonempty. case_bool_decide as Ho; simpl.
  - destruct ((rl_end l <=? s) || (e <=? rl_start l)) eqn:E.
    + intros ->%list_elem_of_singleton. split_and!; lia || done.
    + intros [Hp|Hp]%elem_of_app; case_match; try (by apply elem_of_nil in Hp);
        apply list_elem_of_singleton in Hp as ->; simpl; split_and!; lia || done.
  - intros ->%list_elem_of_singleton. split_and!; lia || done.
Qed.

Lemma compat_trim o s e l1 l2 p1 p2 :
  compat l1 l2 → p1 ∈ trim o s e l1 → p2 ∈ trim o s e l2 → compat p1 p2.
Proof.
  intros H H1 H2. apply elem_of_trim in H1 as (E1 & F1 & ? & ? & _).
  apply elem_of_trim in H2 as (E2 & F2 & ? & ? & _). unfold compat in *.
  rewrite E1, E2, F1, F2. destruct H as [[?|?]|?]; [left; lia|left; lia|by right].
Qed.

Lemma pairwise_trim_one o s e l : s < e → pairwise compat (trim o s e l).
Proof.
  intros Hse. unfold trim. destruct (_ || _); [by repeat constructor|].
  do 2 case_match; simpl; repeat split; try done.
  apply Forall_singleton. left. simpl. lia.
Qed.

Lemma pairwise_trim o s e v : s < e → pairwise compat v → pairwise compat (v ≫= trim o s e).
Proof.
  intros Hse. induction v as [|l v IH]; [done|]. simpl. intros [H1 H2]. apply pairwise_app.
  split_and!; [by apply pairwise_trim_one|by apply IH|].
  intros p1 p2 Hp1 (l2 & Hp2 & Hl2)%list_elem_of_bind. rewrite Forall_forall in H1.
  eapply compat_trim; eauto.
Qed.

Lemma conflict_none ls key o w s e v l :
  conflict ls key o w s e = None → records ls !! key = Some v → l ∈ v →
  conflicts o w s e l = false.
Proof.
  unfold conflict. intros H Hv Hl. rewrite Hv in H. simpl in H.
  destruct (conflicts o w s e l) eqn:E; [|done].
  assert (l ∈ filter (λ l, conflicts o w s e l = true) v) as Hin by by apply list_elem_of_filter.
  destruct (filter _ v); [by apply elem_of_nil in Hin|done].
Qed.

Lemma pairwise_set ls key o typ s e pid :
  let v := default [] (records ls !! key) in
  s < e → typ = F_UNLCK ∨ conflict ls key o (typ =? F_WRLCK) s e = None →
  pairwise compat v → Forall nonempty v →
  pairwise compat (set_list o typ s e pid v) ∧ Forall nonempty (set_list o typ s e pid v).
Proof.
  intros v Hse Hc Hp Hn. unfold set_list. split.
  - apply pairwise_app. split_and!; [by apply pairwise_trim|by case_match; repeat constructor|].
    intros p n (l & Hpl & Hl)%list_elem_of_bind Hin. destruct (typ =? F_UNLCK) eqn:Et; [by apply elem_of_nil in Hin|].
    apply list_elem_of_singleton in Hin as ->. destruct Hc as [Hc|Hc]; [lia|].
    destruct (elem_of_trim o s e l p Hpl) as (Eo & Ew & ? & ? & _ & Hsame & Hdiff).
    destruct (decide (rl_owner l = o)) as [Hlo|Hlo]; [left; simpl; destruct (Hsame Hlo); lia|].
    destruct (records ls !! key) as [v0|] eqn:Ev; subst v; [|by apply elem_of_nil in Hl].
    simpl in *. pose proof (conflict_none _ _ _ _ _ _ _ l Hc Ev Hl) as Hcf.
    rewrite (Hdiff Hlo). unfold conflicts in Hcf. rewrite bool_decide_eq_false_2 in Hcf by done.
    simpl in Hcf. unfold compat. simpl.
    destruct (rl_start l <? e) eqn:E1; [|left; lia]. destruct (s <? rl_end l) eqn:E2; [|left; lia].
    simpl in Hcf. apply orb_false_iff in Hcf as [-> ->]. right. done.
  - apply Forall_app. split.
    + apply Forall_forall. intros p (l & Hpl & Hl)%list_elem_of_bind. rewrite Forall_forall in Hn.
      by apply elem_of_trim in Hpl as (_ & _ & _ & _ & H & _); auto.
    + case_match; repeat constructor. done.
Qed.

(** What [set] does to each byte: the owner's bytes in the range take the new type, every
    other byte and every other owner's bytes keep what they had. *)
Lemma holds_set_list o typ s e pid v o' w b :
  s < e →
  holds (set_list o typ s e pid v) o' w b ↔
  if decide (o' = o ∧ s ≤ b < e) then typ ≠ F_UNLCK ∧ w = (typ =? F_WRLCK) else holds v o' w b.
Proof.
  intros Hse. unfold holds, set_list, covers.
  assert (∀ l, (∃ p, p ∈ trim o s e l ∧ rl_owner p = o' ∧ rl_write p = w ∧ rl_start p ≤ b < rl_end p) ↔
    (rl_owner l = o' ∧ rl_write l = w ∧ rl_start l ≤ b < rl_end l ∧ ¬ (o' = o ∧ s ≤ b < e))) as Ht.
  { intros l. split.
    - intros (p & Hp & <- & <- & Hb). apply elem_of_trim in Hp as (-> & -> & ? & ? & _ & Hs & _).
      split_and!; try done; try lia. intros [Ho ?]. destruct (Hs Ho); lia.
    - intros (<- & <- & Hb & Hn). unfold trim. case_bool_decide as Ho; simpl.
      2: { exists l. by rewrite list_elem_of_singleton. }
      destruct ((rl_end l <=? s) || (e <=? rl_start l)) eqn:E.
      { exists l. by rewrite list_elem_of_singleton. }
      destruct (decide (b < s)).
      + exists (mkRec (rl_owner l) (rl_write l) (rl_start l) s (rl_pid l)). rewrite elem_of_app.
        assert ((rl_start l <? s) = true) as -> by lia. rewrite list_elem_of_singleton. simpl.
        split_and!; try done; try lia. by left.
      + assert (e ≤ b) by (destruct (decide (e ≤ b)); [done|exfalso; apply Hn; split; [done|lia]]).
        exists (mkRec (rl_owner l) (rl_write l) e (rl_end l) (rl_pid l)). rewrite elem_of_app.
        assert ((e <? rl_end l) = true) as -> by lia. rewrite list_elem_of_singleton. simpl.
        split_and!; try done; try lia. by right. }
  split.
  - intros (p & [(l & Hp & Hl)%list_elem_of_bind|Hp]%elem_of_app & Hpo & Hpw & Hb).
    + destruct (proj1 (Ht l)) as (? & ? & ? & Hn); [eauto|]. rewrite decide_False by done. eauto.
    + destruct (typ =? F_UNLCK) eqn:Et; [by apply elem_of_nil in Hp|].
      apply list_elem_of_singleton in Hp as ->. simpl in *. subst. rewrite decide_True by done.
      split; [lia|done].
  - case_decide as Hd.
    + intros [Hty ->]. destruct Hd as [-> Hb]. exists (mkRec o (typ =? F_WRLCK) s e pid).
      split; [|done]. apply elem_of_app. right. assert ((typ =? F_UNLCK) = false) as -> by lia.
      by apply list_elem_of_singleton.
    + intros (l & Hl & ? & ? & ?). destruct (proj2 (Ht l)) as (p & Hp & Hr); [done|].
      exists p. split; [|done]. apply elem_of_app. left. apply list_elem_of_bind. eauto.
Qed.

(** [conflict] finds a lock exactly when some byte of the range is held against it. *)
Lemma conflict_holds ls key o w s e :
  let v := default [] (records ls !! key) in
  s < e → Forall nonempty v →
  is_Some (conflict ls key o w s e) ↔
  ∃ o' w' b, o' ≠ o ∧ s ≤ b < e ∧ holds v o' w' b ∧ w || w' = true.
Proof.
  intros v Hse Hn. unfold conflict. subst v. destruct (records ls !! key) as [v|] eqn:Ev; simpl in *.
  2: { split; [by intros [??]|]. intros (? & ? & ? & _ & _ & (? & Hl & _) & _). by apply elem_of_nil in Hl. }
  split.
  - intros [l Hl]. apply head_Some_elem_of, list_elem_of_filter in Hl as [Hc Hl].
    unfold conflicts in Hc. case_bool_decide as Ho; [done|]. simpl in Hc.
    rewrite Forall_forall in Hn. specialize (Hn l Hl). unfold nonempty in Hn.
    exists (rl_owner l), (rl_write l), (Z.max s (rl_start l)). split_and!; try done; try lia.
    { exists l. unfold covers. split_and!; try done; lia. }
    destruct (w || rl_write l); [done|lia].
  - intros (o' & w' & b & Ho & Hb & (l & Hl & <- & <- & Hcov) & Hw). unfold covers in Hcov.
    assert (l ∈ filter (λ l, conflicts o w s e l = true) v) as Hin.
    { apply list_elem_of_filter. split; [|done]. unfold conflicts. rewrite bool_decide_eq_false_2 by done.
      rewrite Hw. lia. }
    destruct (filter _ v) as [|x r]; [by apply elem_of_nil in Hin|]. simpl. eauto.
Qed.

(** * Reachable lock tables *)

Definition fcompat (a b : Flock) : Prop :=
  fl_ofd a ≠ fl_ofd b ∧ fl_exclusive a = false ∧ fl_exclusive b = false.

Record locks_ok (ls : FileLocks) : Prop := mkLocksOk {
  lo_rec : ∀ k v, records ls !! k = Some v → pairwise compat v ∧ Forall nonempty v ∧ v ≠ [];
  lo_fl : ∀ k v, flocks ls !! k = Some v → pairwise fcompat v ∧ v ≠ []
}.

Lemma retain_lookup {A} key (p : A → bool) m k :
  retain_map key p m !! k =
  match m !! k with
  | None => None
  | Some v =>
    let v' := if key_matches key k then filter (λ l, p l = false) v else v in
    if decide (v' = []) then None else Some v'
  end.
Proof.
  unfold retain_map. destruct (m !! k) as [v|] eqn:Ev.
  - cbn zeta. set (v' := if key_matches key k then _ else v). case_decide as Hd.
    + apply map_lookup_filter_None. right. intros x. rewrite map_lookup_imap, Ev. simpl. fold v'.
      intros E. injection E as <-. simpl. auto.
    + apply map_lookup_filter_Some. rewrite map_lookup_imap, Ev. done.
  - apply map_lookup_filter_None. left. by rewrite map_lookup_imap, Ev.
Qed.

Lemma locks_ok_drop ls key rec fl : locks_ok ls → locks_ok (drop_where ls key rec fl).2.
Proof.
  intros [Hr Hf]. split; simpl; intros k v; rewrite retain_lookup.
  - destruct (records ls !! k) as [v0|] eqn:Ev; [|done]. destruct (Hr k v0 Ev) as (H1 & H2 & H3).
    cbn zeta. case_decide; [done|]. intros E. injection E as <-. split_and!; [| |done].
    + case_match; [by apply pairwise_filter|done].
    + case_match; [|done]. apply Forall_forall. intros x [_ Hx]%list_elem_of_filter.
      rewrite Forall_forall in H2. auto.
  - destruct (flocks ls !! k) as [v0|] eqn:Ev; [|done]. destruct (Hf k v0 Ev) as (H1 & H2).
    cbn zeta. case_decide; [done|]. intros E. injection E as <-. split; [|done].
    case_match; [by apply pairwise_filter|done].
Qed.

Lemma put_records_lookup ls key out k :
  records (put_records ls key out) !! k =
  if decide (k = key) then match out with [] => None | _ => Some out end else records ls !! k.
Proof.
  unfold put_records. simpl. case_decide as Hk.
  - subst. destruct out; [apply lookup_delete_eq|apply lookup_insert_eq].
  - destruct out; [by apply lookup_delete_ne|by apply lookup_insert_ne].
Qed.

Lemma put_flocks_lookup ls key out k :
  flocks (put_flocks ls key out) !! k =
  if decide (k = key) then match out with [] => None | _ => Some out end else flocks ls !! k.
Proof.
  unfold put_flocks. simpl. case_decide as Hk.
  - subst. destruct out; [apply lookup_delete_eq|apply lookup_insert_eq].
  - destruct out; [by apply lookup_delete_ne|by apply lookup_insert_ne].
Qed.

Lemma locks_ok_at ls key :
  locks_ok ls → pairwise compat (default [] (records ls !! key)) ∧
  Forall nonempty (default [] (records ls !! key)).
Proof.
  intros [Hr _]. destruct (records ls !! key) as [v|] eqn:Ev; simpl; [|by split; constructor].
  destruct (Hr key v Ev) as (? & ? & _). done.
Qed.

Lemma locks_ok_set ls key o typ s e pid :
  s < e → typ = F_UNLCK ∨ conflict ls key o (typ =? F_WRLCK) s e = None →
  locks_ok ls → locks_ok (set_lock ls key o typ s e pid).
Proof.
  intros Hse Hc Hok. destruct (locks_ok_at ls key Hok) as [Hp Hn].
  destruct (pairwise_set ls key o typ s e pid Hse Hc Hp Hn) as [Hp' Hn'].
  destruct Hok as [Hr Hf]. unfold set_lock. split; [|exact Hf].
  intros k v. rewrite put_records_lookup. case_decide; [|apply Hr].
  destruct (set_list _ _ _ _ _ _); [done|]. intros E. injection E as <-. done.
Qed.

Section System.
Context `{GuestMem M}.

(** What changes the table: [fcntl]'s lock commands, [flock], closing a descriptor, a
    process' end, sealing and creating a memfd; each with any arguments. *)
Inductive lstep : FileLocks → FileLocks → Prop :=
| l_fcntl checks vfs ofds ls tgid f cmd arg (mem : M) o :
    fcntl_lock checks vfs ofds ls tgid f cmd arg mem = Ok o → lstep ls (o_locks o)
| l_flock vfs ls t fd op : lstep ls (o_locks (sys_flock vfs ls t fd op))
| l_close vfs ls tgid refs f : lstep ls (release_fd_locks vfs ls tgid refs f).2
| l_exit ls tgid : lstep ls (release_process_locks ls tgid).2
| l_seal ls f add arg : lstep ls (fcntl_seals ls f add arg).2
| l_memfd ls path allow : lstep ls (memfd_register ls path allow).

Lemma fcntl_lock_locks checks vfs ofds ls tgid f cmd arg (mem : M) o :
  fcntl_lock checks vfs ofds ls tgid f cmd arg mem = Ok o →
  o_locks o = ls ∨
  ∃ key owner typ s e pid, s < e ∧
    (typ = F_UNLCK ∨ conflict ls key owner (typ =? F_WRLCK) s e = None) ∧
    o_locks o = set_lock ls key owner typ s e pid.
Proof.
  unfold fcntl_lock. destruct f; try (case_match; [case_match|]; intros E; injection E as <-; by left).
  destruct (vfs_key vfs path) as [key|]; [|intros E; injection E as <-; by left].
  destruct (read_flock _ _ _ _ _) as [[e|[[[typ s] e] pid]]|] eqn:Er; [| |done];
    cbn [mbind res_bind]; [intros E; injection E as <-; by left|].
  apply read_flock_range in Er as (Hse & _ & _).
  destruct (_ && negb (pid =? 0)); [intros E; injection E as <-; by left|].
  destruct (_ || (cmd =? F_OFD_GETLK)).
  { destruct (typ =? F_UNLCK); [intros E; injection E as <-; by left|].
    destruct (gm_write _ _ _); intros E; injection E as <-; by left. }
  destruct (_ || _); [intros E; injection E as <-; by left|].
  set (owner := if 36 <=? cmd then _ else _).
  destruct (negb (typ =? F_UNLCK)) eqn:Et; simpl.
  - case_bool_decide as Hc; [case_match; intros E; injection E as <-; by left|].
    intros E; injection E as <-. right. simpl. do 6 eexists. split; [|split; [|reflexivity]]; [lia|].
    right. by apply eq_None_not_Some.
  - intros E; injection E as <-. right. simpl. do 6 eexists. split; [|split; [|reflexivity]]; [lia|].
    left. lia.
Qed.

Lemma locks_ok_flock vfs ls t fd op : locks_ok ls → locks_ok (o_locks (sys_flock vfs ls t fd op)).
Proof.
  intros Hok. unfold sys_flock. destruct (fd_get t _) as [f|]; [|done].
  destruct (negb _); [done|]. destruct f as [| | | |path ofd rd wr| | | | | | | | | | | | |]; try done.
  destruct (vfs_key vfs path) as [key|]; [|done]. destruct Hok as [Hr Hf].
  set (list := default [] (flocks ls !! key)). set (others := filter (λ l, fl_ofd l ≠ ofd) list).
  assert (pairwise fcompat others) as Hp.
  { apply pairwise_filter. unfold list. destruct (flocks ls !! key) eqn:E; [by eapply Hf|done]. }
  assert (∀ out, pairwise fcompat out → locks_ok (put_flocks ls key out)) as Hput.
  { intros out Hout. split; [exact Hr|]. intros k v. rewrite put_flocks_lookup. case_decide; [|apply Hf].
    destruct out; [done|]. intros E. by injection E as <-. }
  destruct (_ =? LOCK_UN); [by apply Hput|].
  destruct (existsb _ list) eqn:Ex; [by destruct (negb _)|]. apply Hput, pairwise_app.
  split_and!; [done|by repeat constructor|]. intros a b Ha Hb. apply list_elem_of_singleton in Hb as ->.
  apply list_elem_of_filter in Ha as [Hne Ha].
  assert (negb (fl_ofd a =? ofd) && ((Z.ldiff op LOCK_NB =? LOCK_EX) || fl_exclusive a) = false) as E.
  { destruct (negb _ && _) eqn:E; [|done]. rewrite <- Ex. symmetry. apply existsb_exists.
    exists a. split; [by apply list_elem_of_In|done]. }
  assert ((fl_ofd a =? ofd) = false) as Eo by lia. rewrite Eo in E. simpl in E.
  apply orb_false_iff in E as [E1 E2]. unfold fcompat. simpl. rewrite E1. done.
Qed.

Lemma locks_ok_step ls ls' : lstep ls ls' → locks_ok ls → locks_ok ls'.
Proof.
  intros Hs Hok. destruct Hs as [? ? ? ? ? ? ? ? ? ? Ho| | | |? f|].
  - apply fcntl_lock_locks in Ho as [->|(? & ? & ? & ? & ? & ? & ? & ? & ->)]; [done|].
    by apply locks_ok_set.
  - by apply locks_ok_flock.
  - unfold release_fd_locks. destruct f; try done. case_match; [done|by apply locks_ok_drop].
  - unfold release_process_locks. case_match; [done|by apply locks_ok_drop].
  - unfold fcntl_seals. destruct f; try done. repeat case_match; try done. simpl. by destruct Hok.
  - by destruct Hok.
Qed.

Lemma locks_ok_reachable ls : rtc lstep locks_default ls → locks_ok ls.
Proof.
  intros Hr. assert (locks_ok locks_default) as H0.
  { split; intros k v Hk; simpl in Hk; by rewrite lookup_empty in Hk. }
  revert H0. induction Hr; eauto using locks_ok_step.
Qed.

End System.

Lemma pairwise_lookup {A} (R : A → A → Prop) v i j a b :
  (∀ x y, R x y → R y x) → pairwise R v → v !! i = Some a → v !! j = Some b → i ≠ j → R a b.
Proof.
  intros Hsym. revert i j. induction v as [|l v IH]; intros i j; [done|]. simpl.
  intros [H1 H2] Hi Hj Hne. rewrite Forall_forall in H1.
  destruct i as [|i], j as [|j]; simpl in *; simplify_eq.
  - apply H1. by eapply list_elem_of_lookup_2.
  - apply Hsym, H1. by eapply list_elem_of_lookup_2.
  - eapply (IH i j); eauto.
Qed.

Lemma compat_sym a b : compat a b → compat b a.
Proof. unfold compat. intros [[?|?]|(? & ? & ?)]; [left; lia|left; lia|right; auto]. Qed.

(** C3: locks exclude. In every lock table that any sequence of [fcntl] lock commands,
    [flock] calls, closes and exits reaches, in either build: if two owners hold the same
    byte of a file, both hold it for reading; one owner holds a byte in one mode only; and
    two [flock] locks of a file belong to different descriptions and are both shared. *)
Theorem locks_exclude `{GuestMem M} ls key v :
  rtc (lstep (M := M)) locks_default ls →
  (records ls !! key = Some v → ∀ o1 w1 o2 w2 b, holds v o1 w1 b → holds v o2 w2 b →
     (o1 ≠ o2 → w1 = false ∧ w2 = false) ∧ (o1 = o2 → w1 = w2)) ∧
  (∀ fv i j a b, flocks ls !! key = Some fv → fv !! i = Some a → fv !! j = Some b → i ≠ j →
     fl_ofd a ≠ fl_ofd b ∧ fl_exclusive a = false ∧ fl_exclusive b = false).
Proof.
  intros Hr. apply locks_ok_reachable in Hr as [Hrec Hfl]. split.
  - intros Hv o1 w1 o2 w2 b (l1 & Hl1 & <- & <- & H1) (l2 & Hl2 & <- & <- & H2).
    destruct (Hrec key v Hv) as (Hp & _ & _). unfold covers in *.
    apply list_elem_of_lookup in Hl1 as [i Hi]. apply list_elem_of_lookup in Hl2 as [j Hj].
    destruct (decide (i = j)) as [->|Hne]; [by simplify_eq|].
    destruct (pairwise_lookup compat v i j l1 l2 compat_sym Hp Hi Hj Hne) as [[?|?]|(Ho & ? & ?)];
      [lia|lia|]. done.
  - intros fv i j a b Hv Hi Hj Hne. destruct (Hfl key fv Hv) as (Hp & _).
    eapply (pairwise_lookup fcompat); eauto. unfold fcompat. intros x y (? & ? & ?). auto.
Qed.

(** * The table as a map of bytes *)

Definition holds_at (ls : FileLocks) (key : FileKey) : Owner → bool → Z → Prop :=
  holds (default [] (records ls !! key)).

Lemma holds_at_set ls key o typ s e pid key' o' w b :
  s < e →
  holds_at (set_lock ls key o typ s e pid) key' o' w b ↔
  if decide (key' = key ∧ o' = o ∧ s ≤ b < e) then typ ≠ F_UNLCK ∧ w = (typ =? F_WRLCK)
  else holds_at ls key' o' w b.
Proof.
  intros Hse. unfold holds_at, set_lock. rewrite put_records_lookup.
  pose proof (holds_set_list o typ s e pid (default [] (records ls !! key)) o' w b Hse) as Hh.
  destruct (decide (key' = key)) as [->|Hk].
  - transitivity (holds (set_list o typ s e pid (default [] (records ls !! key))) o' w b);
      [by destruct (set_list _ _ _ _ _ _)|].
    rewrite Hh. destruct (decide (o' = o ∧ s ≤ b < e)).
    + by rewrite decide_True by tauto.
    + by rewrite decide_False by tauto.
  - by rewrite decide_False by tauto.
Qed.

(** C26: the lock-setting commands implement a map from bytes to holders. For a regular
    file whose [struct flock] decodes to a range, the command is refused ([EAGAIN], or
    blocks for the waiting commands) with the table unchanged exactly when another owner
    holds a byte of the range in a conflicting mode; otherwise it returns 0 and the
    owner's bytes in the range, and no others, take the requested mode (none for
    [F_UNLCK]), whatever the pieces of its earlier locks were. *)
Theorem setlk_bytes `{GuestMem M} checks vfs ofds ls tgid path offset rd wr cmd arg (mem : M)
    key typ s e pid :
  rtc (lstep (M := M)) locks_default ls →
  cmd ∈ [F_SETLK; F_SETLKW; F_OFD_SETLK; F_OFD_SETLKW] →
  vfs_key vfs path = Some key →
  read_flock checks mem arg (ofd_get ofds offset) (default 0 (vfs_size vfs path))
    = Ok (inr (typ, s, e, pid)) →
  (36 ≤ cmd → pid = 0) → (typ = F_RDLCK → rd = true) → (typ = F_WRLCK → wr = true) →
  let owner := if 36 <=? cmd then Ofd offset else Process tgid in
  ∃ o, fcntl_lock checks vfs ofds ls tgid (File path offset rd wr) cmd arg mem = Ok o ∧
    ((typ ≠ F_UNLCK ∧
      (∃ o' w' b, o' ≠ owner ∧ s ≤ b < e ∧ holds_at ls key o' w' b ∧ (typ =? F_WRLCK) || w' = true) ∧
      o_locks o = ls ∧
      (if decide (cmd = F_SETLKW ∨ cmd = F_OFD_SETLKW) then o_block o = true
       else o_block o = false ∧ o_ret o = err EAGAIN)) ∨
     ((typ ≠ F_UNLCK → ~ ∃ o' w' b, o' ≠ owner ∧ s ≤ b < e ∧ holds_at ls key o' w' b ∧
                                     (typ =? F_WRLCK) || w' = true) ∧
      o_ret o = 0 ∧ o_block o = false ∧
      ∀ key' o' w b, holds_at (o_locks o) key' o' w b ↔
        if decide (key' = key ∧ o' = owner ∧ s ≤ b < e) then typ ≠ F_UNLCK ∧ w = (typ =? F_WRLCK)
        else holds_at ls key' o' w b)).
Proof.
  intros Hr Hcmd Hk Hrf Hpid Hrd Hwr owner. apply locks_ok_reachable in Hr.
  destruct (locks_ok_at ls key Hr) as [_ Hn]. pose proof (read_flock_range _ _ _ _ _ _ _ _ _ Hrf) as (Hse & _ & Ht).
  pose proof (conflict_holds ls key owner (typ =? F_WRLCK) s e ltac:(lia) Hn) as Hc.
  unfold fcntl_lock. rewrite Hk, Hrf. cbn [mbind res_bind].
  assert ((36 <=? cmd) && negb (pid =? 0) = false) as -> by lia.
  assert ((cmd =? F_GETLK) || (cmd =? F_OFD_GETLK) = false) as ->.
  { repeat (apply elem_of_cons in Hcmd as [->|Hcmd]; [done|]). by apply elem_of_nil in Hcmd. }
  assert ((typ =? F_RDLCK) && negb rd || (typ =? F_WRLCK) && negb wr = false) as ->.
  { unfold F_RDLCK, F_WRLCK, F_UNLCK in *. destruct rd, wr; simpl; lia. }
  fold owner. destruct (typ =? F_UNLCK) eqn:Et; simpl.
  - eexists. split; [reflexivity|]. right. split; [lia|]. split; [done|]. split; [done|].
    intros key' o' w b. simpl. apply holds_at_set. lia.
  - case_bool_decide as Hcf.
    + destruct ((cmd =? F_SETLKW) || (cmd =? F_OFD_SETLKW)) eqn:Ew; eexists; (split; [reflexivity|]); left;
        (split; [lia|]); (split; [by apply Hc|]); (split; [done|]); case_decide; try done; exfalso; lia.
    + eexists. split; [reflexivity|]. right. split; [intros _ Hx; by apply Hcf, Hc|]. split; [done|].
      split; [done|]. intros key' o' w b. simpl. apply holds_at_set. lia.
Qed.

Lemma holds_at_drop ls key rec fl k o w b :
  (∀ l l', rl_owner l = rl_owner l' → rec l = rec l') →
  holds_at (drop_where ls key rec fl).2 k o w b ↔
  holds_at ls k o w b ∧ ¬ (key_matches key k = true ∧ rec (mkRec o false 0 0 0) = true).
Proof.
  intros Hrec. unfold holds_at. simpl. rewrite retain_lookup.
  destruct (records ls !! k) as [v|]; cbn zeta; [|simpl; split; [|by intros [? _]];
    by intros (? & Hx & _); apply elem_of_nil in Hx].
  set (v' := if key_matches key k then _ else v).
  transitivity (holds v' o w b); [case_decide as Hd; [by rewrite Hd|done]|]. simpl. subst v'.
  destruct (key_matches key k); [|split; [intros ?; split; [done|by intros [? _]]|by intros [? _]]].
  unfold holds. split.
  - intros (l & [Hl1 Hl2]%list_elem_of_filter & <- & <- & Hc). split; [eauto|]. intros [_ Hx].
    rewrite (Hrec _ l) in Hx by done. congruence.
  - intros [(l & Hl & <- & <- & Hc) Hx]. exists l. split; [|done]. apply list_elem_of_filter.
    split; [|done]. destruct (rec l) eqn:E; [|done]. exfalso. apply Hx. split; [done|].
    by rewrite <- E; apply Hrec.
Qed.

(** What closing a descriptor of a regular file releases. When the file's identity is
    found, exactly the closing process' POSIX locks on that file, and, for the last
    descriptor of a description, that description's locks on it. When the path no longer
    resolves to a file, the same owners' locks on EVERY file are released: [key] is then
    [None], which [drop_where] takes as all files. *)
Theorem close_releases vfs ls tgid refs path offset rd wr k o w b :
  holds_at (release_fd_locks vfs ls tgid refs (File path offset rd wr)).2 k o w b ↔
  holds_at ls k o w b ∧
  ¬ ((vfs_key vfs path = None ∨ vfs_key vfs path = Some k) ∧
     (o = Process tgid ∨ refs = 1 ∧ o = Ofd offset)).
Proof.
  unfold release_fd_locks. destruct (locks_is_empty ls) eqn:Ee.
  - simpl. split; [|by intros [? _]]. intros Hh. exfalso. unfold locks_is_empty in Ee.
    apply andb_prop in Ee as [Ee _]. apply bool_decide_eq_true in Ee. unfold holds_at in Hh.
    rewrite Ee, lookup_empty in Hh. destruct Hh as (? & Hx & _). by apply elem_of_nil in Hx.
  - rewrite holds_at_drop by (intros l l' ->; done). simpl.
    assert (key_matches (vfs_key vfs path) k = true ↔ vfs_key vfs path = None ∨ vfs_key vfs path = Some k) as ->.
    { unfold key_matches. destruct (vfs_key vfs path) as [k'|]; [|tauto]. rewrite bool_decide_eq_true.
      split; [intros ->; by right|intros [?|?]; congruence]. }
    assert (bool_decide (o = Process tgid) || (refs =? 1) && bool_decide (o = Ofd offset) = true ↔
      o = Process tgid ∨ refs = 1 ∧ o = Ofd offset) as ->; [|done].
    rewrite orb_true_iff, andb_true_iff, !bool_decide_eq_true, Z.eqb_eq. done.
Qed.

(** * Examples *)

(** A [struct flock] at address 0; a mount table in which [[1]] is the file [([1], 1)]. *)
Definition demo_flock (typ start len : Z) : flat_mem :=
  {| fm_base := 0;
     fm_bytes := le_bytes 2 typ ++ le_bytes 2 0 ++ replicate 4 0 ++ le_bytes 8 start ++ le_bytes 8 len
                 ++ replicate 8 0 |}.
Definition demo_vfs : Vfs :=
  mkVfs (λ _, Some 100) (λ p, if bool_decide (p = [1]) then Some ([1], 1) else None).
Definition demo_key : FileKey := ([1], 1).
Definition demo_file : Fd := File [1] 50 true true.
Definition demo_lock (ls : FileLocks) (tgid typ start len : Z) : FileLocks :=
  match fcntl_lock true demo_vfs ∅ ls tgid demo_file F_SETLK 0 (demo_flock typ start len) with
  | Ok o => o_locks o
  | Panic => ls
  end.
(** Processes 7 and 8 read-lock [[0, 10)] and [[5, 15)]. *)
Definition demo_locks : FileLocks :=
  demo_lock (demo_lock locks_default 7 F_RDLCK 0 10) 8 F_RDLCK 5 10.

Lemma demo_locks_reachable : rtc (lstep (M := flat_mem)) locks_default demo_locks.
Proof.
  eapply rtc_l; [eapply (l_fcntl true demo_vfs ∅ _ 7 demo_file F_SETLK 0 (demo_flock F_RDLCK 0 10));
    vm_compute; reflexivity|].
  eapply rtc_l; [eapply (l_fcntl true demo_vfs ∅ _ 8 demo_file F_SETLK 0 (demo_flock F_RDLCK 5 10));
    vm_compute; reflexivity|].
  match goal with |- rtc _ ?a _ => replace a with demo_locks by (vm_compute; reflexivity) end.
  apply rtc_refl.
Qed.

Lemma demo_holds tgid b :
  (tgid = 7 ∧ 0 ≤ b < 10) ∨ (tgid = 8 ∧ 5 ≤ b < 15) → holds_at demo_locks demo_key (Process tgid) false b.
Proof.
  unfold holds_at. assert (records demo_locks !! demo_key =
    Some [mkRec (Process 7) false 0 10 7; mkRec (Process 8) false 5 15 8]) as -> by (vm_compute; reflexivity).
  intros [[-> Hb]|[-> Hb]]; simpl.
  - exists (mkRec (Process 7) false 0 10 7). split; [apply elem_of_cons; by left|done].
  - exists (mkRec (Process 8) false 5 15 8). split; [apply elem_of_cons; right; by apply list_elem_of_singleton|done].
Qed.

Lemma locks_exclude_witness :
  ∃ v, records demo_locks !! demo_key = Some v ∧ length v = 2%nat ∧
  ∀ w, holds v (Process 8) w 7 → w = false.
Proof.
  exists [mkRec (Process 7) false 0 10 7; mkRec (Process 8) false 5 15 8].
  assert (records demo_locks !! demo_key =
    Some [mkRec (Process 7) false 0 10 7; mkRec (Process 8) false 5 15 8]) as E by (vm_compute; reflexivity).
  split; [exact E|]. split; [done|]. intros w Hw.
  edestruct (locks_exclude demo_locks demo_key) as [H _]; [exact demo_locks_reachable|].
  assert (holds_at demo_locks demo_key (Process 7) false 7) as H7 by (apply demo_holds; left; split; [done|lia]). unfold holds_at in H7. rewrite E in H7.
  by apply (H E _ _ _ _ _ H7 Hw).
Defined.

Lemma setlk_bytes_witness :
  ∃ o, fcntl_lock true demo_vfs ∅ demo_locks 8 demo_file F_SETLK 0 (demo_flock F_WRLCK 9 3) = Ok o ∧
    o_ret o = err EAGAIN ∧ o_locks o = demo_locks.
Proof.
  destruct (setlk_bytes true demo_vfs ∅ demo_locks 8 [1] 50 true true F_SETLK 0 (demo_flock F_WRLCK 9 3)
    demo_key F_WRLCK 9 12 0 demo_locks_reachable) as (o & Ho & Hcase);
    [apply elem_of_cons; by left|vm_compute; reflexivity|vm_compute; reflexivity|done|done|done|].
  exists o. split; [exact Ho|]. destruct Hcase as [(_ & _ & Hl & Hd)|(Hno & _)].
  - case_decide as Hc; [destruct Hc; discriminate|]. split; [apply Hd|exact Hl].
  - exfalso. apply Hno; [discriminate|]. exists (Process 7), false, 9.
    split; [discriminate|]. split; [lia|]. split; [|reflexivity]. apply demo_holds. left. split; [done|lia].
Defined.

(** [read_flock] with [l_start = -1] and [l_len = i64::MIN]: the range before byte [-1] is
    negative, but [s += len] wraps to [i64::MAX] in a build without overflow checks and the
    call locks the end of the file instead of failing; with checks the kernel panics. *)
Example flock_len_wraps :
  read_flock false (demo_flock F_WRLCK (-1) I64_MIN) 0 0 0 = Ok (inr (F_WRLCK, I64_MAX, U64_MAX, 0)) ∧
  read_flock true (demo_flock F_WRLCK (-1) I64_MIN) 0 0 0 = Panic.
Proof. split; vm_compute; reflexivity. Qed.

(** Process 7 closes a descriptor of a file that is gone: its lock on another file goes. *)
Example close_of_gone_file_drops_others :
  records (release_fd_locks demo_vfs demo_locks 7 2 (File [9] 51 true true)).2 !! demo_key =
  Some [mkRec (Process 8) false 5 15 8].
Proof. vm_compute. reflexivity. Qed.
