(* ===== verification/PageCache.v ===== *)
(** The page cache of shared file mappings ([src/kernel/pagecache.rs]): which frame holds which
    page of which file, and how [read], [write] and [truncate] stay in step with it. *)
From S2P Require Import Prelude Phys PageTable GuestMem GuestView PageLocks Vfs Mount FileLocks Abi Seccomp.
From stdpp Require Import base numbers gmap list sorting.
Local Open Scope Z_scope.

(** A file's identity: the point of the mount that serves it and its inode number there. *)
Definition FileKey : Type := str * Z.
(** [has_phys]: the pool was captured, by the first mapping. *)
Record PageCache := mkCache { has_phys : bool; files : gmap FileKey (gmap Z Z) }.
Definition cache_new : PageCache := mkCache false ∅.

(** [a * b] on [u64]. *)
Definition u64_mul (checks : bool) (a b : Z) : res Z :=
  if a * b <? U64 then Ok (a * b) else if checks then Panic else Ok (wrap U64 (a * b)).

(** [BTreeMap::range(lo..=hi)], which panics when [hi < lo]. *)
Definition range_incl (pages : gmap Z Z) (lo hi : Z) : res (list (Z * Z)) :=
  if hi <? lo then Panic else Ok (bt_range pages lo (hi + 1)).

(** The part of page [idx] inside [[off, stop)]: where the page starts, and the part's ends. *)
Definition part (checks : bool) (off stop idx : Z) : res (Z * Z * Z) :=
  pstart ← u64_mul checks idx PAGE_SIZE;
  pend ← u64_mul checks (idx + 1) PAGE_SIZE;
  Ok (pstart, Z.max pstart off, Z.min pend stop).

(** [PageCache::overlay]. *)
Definition overlay1 (checks : bool) (p : PhysMem) (off stop : Z) (buf : list Z) (x : Z * Z) : res (list Z) :=
  '(pstart, lo, hi) ← part checks off stop x.1;
  if hi <=? lo then Ok buf
  else
    bs ← phys_read p (x.2 + (lo - pstart)) (Z.to_nat (hi - lo));
    Ok (list_inserts (Z.to_nat (lo - off)) bs buf).
Fixpoint overlays (checks : bool) (p : PhysMem) (off stop : Z) (xs : list (Z * Z)) (buf : list Z) : res (list Z) :=
  match xs with
  | [] => Ok buf
  | x :: xs => buf ← overlay1 checks p off stop buf x; overlays checks p off stop xs buf
  end.
Definition overlay (checks : bool) (pc : PageCache) (p : PhysMem) (pages : gmap Z Z) (off : Z) (buf : list Z)
    : res (list Z) :=
  if negb (has_phys pc) then Ok buf
  else
    stop ← u64_add checks off (Z.of_nat (length buf));
    xs ← range_incl pages (off / PAGE_SIZE) (sat_sub stop 1 / PAGE_SIZE);
    overlays checks p off stop xs buf.

(** [PageCache::write_through]. *)
Definition write1 (checks : bool) (off stop : Z) (data : list Z) (p : PhysMem) (x : Z * Z) : res PhysMem :=
  '(pstart, lo, hi) ← part checks off stop x.1;
  if hi <=? lo then Ok p
  else phys_write p (x.2 + (lo - pstart)) (take (Z.to_nat (hi - lo)) (drop (Z.to_nat (lo - off)) data)).
Fixpoint writes (checks : bool) (off stop : Z) (data : list Z) (xs : list (Z * Z)) (p : PhysMem) : res PhysMem :=
  match xs with
  | [] => Ok p
  | x :: xs => p ← write1 checks off stop data p x; writes checks off stop data xs p
  end.
Definition write_through (checks : bool) (pc : PageCache) (pages : gmap Z Z) (off : Z) (data : list Z) (p : PhysMem)
    : res PhysMem :=
  if negb (has_phys pc) then Ok p
  else
    stop ← u64_add checks off (Z.of_nat (length data));
    xs ← range_incl pages (off / PAGE_SIZE) (sat_sub stop 1 / PAGE_SIZE);
    writes checks off stop data xs p.

Section Cache.
Context {F : Type} (ops : MountFs F) (checks : bool).

(** [MountTable::mount_point_of]. *)
Definition mount_point_of (t : MountTable (F:=F)) (p : str) : option str :=
  i ← best_mount t (Mount.canonical ops t p); point <$> mounts t !! i.

(** [pc_key]. *)
Definition pc_key (t : MountTable (F:=F)) (path : str) : option FileKey :=
  a ← stat ops t path; m ← mount_point_of t path; Some (m, a_inode a).

(** What [fcntl.rs] asks of the file system. *)
Definition as_vfs (t : MountTable (F:=F)) : Vfs := mkVfs (λ p, a_size <$> stat ops t p) (pc_key t).

(** [pc_after_read], [pc_after_write], [pc_after_truncate]. *)
Definition pc_after_read (pc : PageCache) (t : MountTable) (path : str) (off : Z) (buf : list Z) (p : PhysMem)
    : res (list Z) :=
  if bool_decide (files pc = ∅) || bool_decide (buf = []) then Ok buf
  else
    match pc_key t path ≫= λ k, files pc !! k with
    | Some pages => overlay checks pc p pages off buf
    | None => Ok buf
    end.
Definition pc_after_write (pc : PageCache) (t : MountTable) (path : str) (off : Z) (data : list Z) (p : PhysMem)
    : res PhysMem :=
  if bool_decide (files pc = ∅) || bool_decide (data = []) then Ok p
  else
    match pc_key t path ≫= λ k, files pc !! k with
    | Some pages => write_through checks pc pages off data p
    | None => Ok p
    end.
Definition zero_tail (len : Z) (p : PhysMem) (x : Z * Z) : res PhysMem :=
  start ← u64_mul checks x.1 PAGE_SIZE;
  let from := Z.min (sat_sub len start) PAGE_SIZE in
  phys_write p (x.2 + from) (replicate (Z.to_nat (PAGE_SIZE - from)) 0).
Fixpoint zero_tails (len : Z) (xs : list (Z * Z)) (p : PhysMem) : res PhysMem :=
  match xs with [] => Ok p | x :: xs => p ← zero_tail len p x; zero_tails len xs p end.
Definition pc_after_truncate (pc : PageCache) (t : MountTable) (path : str) (len : Z) (p : PhysMem) : res PhysMem :=
  if bool_decide (files pc = ∅) then Ok p
  else
    match pc_key t path ≫= λ k, files pc !! k with
    | Some pages =>
      if has_phys pc then zero_tails len (filter (λ x, len / PAGE_SIZE ≤ x.1) (bt_list pages)) p else Ok p
    | None => Ok p
    end.

(** [vfs_read], [vfs_write], [vfs_truncate]. *)
Definition vfs_read (pc : PageCache) (t : MountTable) (path : str) (off n : Z) (p : PhysMem) : res (io (list Z)) :=
  match Mount.read_at ops t path off n with
  | Bad e => Ok (Bad e)
  | Good bs => bs ← pc_after_read pc t path off bs p; Ok (Good bs)
  end.
Definition vfs_write (now : Z) (pc : PageCache) (ls : FileLocks) (t : MountTable) (path : str) (off : Z)
    (data : list Z) (p : PhysMem) : res (io Z * MountTable * PhysMem) :=
  blocked ← seal_blocks_write checks (as_vfs t) ls path off (Z.of_nat (length data));
  if (blocked : bool) then Ok (Bad EPERM, t, p)
  else
    match Mount.write_at ops now t path off data with
    | (Bad e, t') => Ok (Bad e, t', p)
    | (Good n, t') =>
      p' ← pc_after_write pc t' path off (take (Z.to_nat n) data) p; Ok (Good n, t', p')
    end.
Definition vfs_truncate (now : Z) (pc : PageCache) (ls : FileLocks) (t : MountTable) (path : str) (len : Z)
    (p : PhysMem) : res (io unit * MountTable * PhysMem) :=
  if seal_blocks_truncate (as_vfs t) ls path len then Ok (Bad EPERM, t, p)
  else
    match Mount.truncate ops now t path len with
    | (Bad e, t') => Ok (Bad e, t', p)
    | (Good _, t') => p' ← pc_after_truncate pc t' path len p; Ok (Good tt, t', p')
    end.

(** * Mapping *)

(** The frames of pages [idxs], the missing ones allocated and entered in the cache; [None] is
    an allocation that failed, with what was entered before it. *)
Fixpoint find_frames (idxs : list Z) (pages : gmap Z Z) (frames : list Z) (fresh : list (Z * Z))
    : ST Pool (gmap Z Z * option (list Z * list (Z * Z))) :=
  match idxs with
  | [] => mret (pages, Some (frames, fresh))
  | idx :: idxs =>
    match pages !! idx with
    | Some f => find_frames idxs pages (frames ++ [f]) fresh
    | None =>
      o ← alloc_frames 1;
      match o with
      | Some (f :: _) => find_frames idxs (<[idx := f]> pages) (frames ++ [f]) (fresh ++ [(idx, f)])
      | Some [] => st_panic
      | None => mret (pages, None)
      end
    end
  end.

(** [while got < len { match read_at(..) }]: the bytes read; every turn reads one at least. *)
Fixpoint read_loop (fuel : nat) (t : MountTable) (path : str) (off want : Z) : list Z :=
  if want <=? 0 then []
  else match fuel with
       | O => []
       | S fuel =>
         match Mount.read_at ops t path off want with
         | Good (b :: bs) =>
           (b :: bs) ++ read_loop fuel t path (off + Z.of_nat (length (b :: bs)))
                          (want - Z.of_nat (length (b :: bs)))
         | _ => []
         end
       end.
(** One page of the file, zeros past its end. *)
Definition file_page (t : MountTable) (path : str) (off : Z) : list Z :=
  let bs := read_loop FRAME_SZ t path off PAGE_SIZE in bs ++ replicate (FRAME_SZ - length bs) 0.
Definition fill_page (t : MountTable) (path : str) (x : Z * Z) : ST Pool unit := λ s,
  start ← u64_mul checks x.1 PAGE_SIZE;
  on_phys (λ p, phys_write p x.2 (file_page t path start)) s.

(** [pc_map_shared]. [host_ok] is whether the host can allocate that many bytes at once:
    [Vec::with_capacity] does not return when it cannot. *)
Definition pc_map_shared (host_ok : Z → bool) (pc : PageCache) (t : MountTable) (path : str) (offset base len prot : Z)
    : M ((Z + unit) * PageCache) :=
  match pc_key t path with
  | None => mret (inl (err ENOENT), pc)
  | Some key =>
    let first := offset / PAGE_SIZE in
    _ ← (if host_ok (8 * (len / PAGE_SIZE)) then mret tt else st_panic);
    r ← pool (find_frames (seqZ first (len / PAGE_SIZE)) (default ∅ (files pc !! key)) [] []);
    let '(pages, got) := r in
    let pc := mkCache true (<[key := pages]> (files pc)) in
    match got with
    | None => mret (inl (err ENOMEM), pc)
    | Some (frames, fresh) =>
      _ ← pool (st_iter (fill_page t path) fresh);
      r ← map_frames base frames prot;
      mret (match r with inl _ => inl (err ENOMEM) | inr _ => inr tt end, pc)
    end
  end.
End Cache.

(** [pc_gc]: pages only the cache holds are dropped and their frames released, file by file in
    the order of the keys. *)
Definition key_leb (a b : FileKey) : bool := if bool_decide (a.1 = b.1) then a.2 <=? b.2 else str_leb a.1 b.1.
Definition by_key (a b : FileKey * gmap Z Z) : Prop := key_leb a.1 b.1 = true.
Global Instance by_key_dec : RelDecision by_key.
Proof. intros a b. apply bool_eq_dec. Defined.
Definition is_live (s : Pool) (f : Z) : bool := 1 <? fa_refcount (fa s) f.
Definition dead_pages (s : Pool) (m : gmap FileKey (gmap Z Z)) : list Z :=
  filter (λ f, is_live s f = false) (merge_sort by_key (map_to_list m) ≫= λ x, (bt_list x.2).*2).
Definition live_pages (s : Pool) (m : gmap FileKey (gmap Z Z)) : gmap FileKey (gmap Z Z) :=
  filter (λ x, x.2 ≠ ∅) ((λ pages : gmap Z Z, filter (λ x : Z * Z, is_live s x.2 = true) pages) <$> m).
Definition pc_gc (pc : PageCache) : ST Pool PageCache :=
  if bool_decide (files pc = ∅) then mret pc
  else
    s ← st_get;
    _ ← release_frames (dead_pages s (files pc));
    mret (mkCache (has_phys pc) (live_pages s (files pc))).
