(* ===== verification/PageCacheSpec.v ===== *)
(** Coherence of the page cache: what [read], [write] and [truncate] do to the pages processes
    have mapped, and what a mapping that fails half way leaves behind. *)
From S2P Require Import Prelude Phys PageTable PageTree GuestMem GuestView PageLocks Path Vfs Tmpfs Mount MountPath MountSpec FileLocks Abi Seccomp PageCache.
From stdpp Require Import base numbers gmap list.
Local Open Scope Z_scope.

(** * The bytes of cached pages *)

Definition page_of_file (pc : PageCache) (k : FileKey) (i : Z) : option Z := files pc !! k ≫= λ pages, pages !! i.
Definition cached_byte (p : PhysMem) (pc : PageCache) (k : FileKey) (i : Z) : option Z :=
  f ← page_of_file pc k (i / PAGE_SIZE); Some (byte p (f + i mod PAGE_SIZE)).

(** Every cached page has a live frame of its own. *)
Record cache_ok (s : Pool) (pc : PageCache) : Prop := mkCacheOk {
  co_pool : pool_wf s;
  co_phys k i f : page_of_file pc k i = Some f → has_phys pc = true;
  co_index k i f : page_of_file pc k i = Some f → 0 ≤ i < 2 ^ 52;
  co_live k i f : page_of_file pc k i = Some f → 1 ≤ rc s f;
  co_inj k i k' i' f : page_of_file pc k i = Some f → page_of_file pc k' i' = Some f → k' = k ∧ i' = i
}.

Lemma u64_mul_ok checks a b : a * b < U64 → u64_mul checks a b = Ok (a * b).
Proof. intros H. unfold u64_mul. destruct (Z.ltb_spec (a * b) U64); [done|lia]. Qed.
Lemma u64_add_ok checks a b : a + b < U64 → u64_add checks a b = Ok (a + b).
Proof. intros H. unfold u64_add. destruct (Z.ltb_spec (a + b) U64); [done|lia]. Qed.

Lemma part_ok checks off stop idx :
  idx * PAGE_SIZE < stop → stop ≤ U64 - PAGE_SIZE →
  part checks off stop idx = Ok (idx * PAGE_SIZE, Z.max (idx * PAGE_SIZE) off, Z.min ((idx + 1) * PAGE_SIZE) stop).
Proof.
  intros H1 H2. unfold part. rewrite !u64_mul_ok; [done|..]; unfold PAGE_SIZE in *; lia.
Qed.

Lemma page_div a idx o : 0 ≤ o < PAGE_SIZE → a = idx * PAGE_SIZE + o → a / PAGE_SIZE = idx ∧ a mod PAGE_SIZE = o.
Proof. unfold PAGE_SIZE. intros. divlia. Qed.
Lemma page_split a : a = a / PAGE_SIZE * PAGE_SIZE + a mod PAGE_SIZE ∧ 0 ≤ a mod PAGE_SIZE < PAGE_SIZE.
Proof. unfold PAGE_SIZE. divlia. Qed.

(** ** Reading *)

Lemma overlay1_ok checks p off buf idx f :
  phys_wf p → inside p f FRAME → 0 ≤ off → 0 ≤ idx → off + Z.of_nat (length buf) ≤ U64 - PAGE_SIZE →
  idx * PAGE_SIZE < off + Z.of_nat (length buf) →
  ∃ buf', overlay1 checks p off (off + Z.of_nat (length buf)) buf (idx, f) = Ok buf' ∧ length buf' = length buf ∧
    ∀ a, off ≤ a < off + Z.of_nat (length buf) →
      buf' !!! Z.to_nat (a - off) =
        if decide (a / PAGE_SIZE = idx) then byte p (f + a mod PAGE_SIZE) else buf !!! Z.to_nat (a - off).
Proof.
  intros Hp Hf Ho Hi Hu Hs. set (stop := off + Z.of_nat (length buf)) in *. unfold overlay1. cbn [fst snd].
  rewrite part_ok by done. cbn. set (lo := Z.max _ _). set (hi := Z.min _ _).
  destruct (Z.leb_spec hi lo) as [Hle|Hlt].
  { exists buf. split_and!; [done|done|]. intros a Ha. destruct (decide _) as [E|E]; [|done]. exfalso.
    destruct (page_split a) as [S1 S2]. rewrite E in S1. unfold lo, hi, stop, PAGE_SIZE in *. lia. }
  assert (inside p (f + (lo - idx * PAGE_SIZE)) (Z.of_nat (Z.to_nat (hi - lo)))) as Hin.
  { unfold inside in *. unfold lo, hi, stop, FRAME, PAGE_SIZE in *. lia. }
  rewrite phys_read_ok by done. cbn. eexists. split; [done|]. rewrite length_inserts. split; [done|].
  intros a Ha. set (bs := get_bytes _ _ _). assert (length bs = Z.to_nat (hi - lo)) as Hb by apply length_get_bytes.
  destruct (decide (lo ≤ a < hi)) as [Hin'|Hout].
  - assert (a / PAGE_SIZE = idx ∧ a mod PAGE_SIZE = a - idx * PAGE_SIZE) as [E1 E2].
    { apply (page_div a idx); [|lia]. unfold lo, hi, stop, PAGE_SIZE in *. lia. }
    rewrite decide_True by done. apply list_lookup_total_correct. rewrite list_lookup_inserts; [|unfold lo, hi, stop in *; lia|unfold lo,hi,stop in *; lia].
    unfold bs. rewrite lookup_get_bytes by (unfold lo, hi, stop in *; lia).
    unfold byte. do 2 f_equal. unfold lo, hi, stop in *. lia.
  - rewrite decide_False.
    + rewrite !list_lookup_total_alt. f_equal.
      destruct (decide (a < lo)) as [Hl|Hl].
      * apply list_lookup_inserts_lt. unfold lo, hi, stop in *. lia.
      * apply list_lookup_inserts_ge. unfold lo, hi, stop in *. lia.
    + intros E. destruct (page_split a) as [S1 S2]. rewrite E in S1. unfold lo, hi, stop, PAGE_SIZE in *. lia.
Qed.

Lemma overlays_ok checks p off n xs : ∀ buf,
  phys_wf p → Forall (λ x, inside p x.2 FRAME ∧ 0 ≤ x.1 ∧ x.1 * PAGE_SIZE < off + Z.of_nat n) xs → NoDup xs.*1 →
  0 ≤ off → off + Z.of_nat n ≤ U64 - PAGE_SIZE → length buf = n →
  ∃ buf', overlays checks p off (off + Z.of_nat n) xs buf = Ok buf' ∧ length buf' = n ∧
    ∀ a, off ≤ a < off + Z.of_nat n →
      buf' !!! Z.to_nat (a - off) =
        match (list_to_map xs : gmap Z Z) !! (a / PAGE_SIZE) with
        | Some f => byte p (f + a mod PAGE_SIZE)
        | None => buf !!! Z.to_nat (a - off)
        end.
Proof.
  induction xs as [|[idx f] xs IH]; intros buf Hp HF HN Ho Hu Hl.
  - exists buf. split_and!; [done|done|]. intros a _. simpl. by rewrite lookup_empty.
  - apply Forall_cons in HF as [(H1 & H2 & H3) HF]. cbn [fst snd] in *. rewrite fmap_cons in HN.
    apply NoDup_cons in HN as [Hnin HN].
    destruct (overlay1_ok checks p off buf idx f) as (b1 & E1 & L1 & V1); [done|done|done|done|by rewrite Hl|by rewrite Hl|].
    destruct (IH b1 Hp HF HN Ho Hu) as (b2 & E2 & L2 & V2); [by rewrite L1|]. rewrite Hl in E1.
    exists b2. split_and!; [by cbn; rewrite E1|done|]. intros a Ha. rewrite V2 by done.
    simpl. destruct (decide (a / PAGE_SIZE = idx)) as [E|E].
    + rewrite E, lookup_insert_eq. rewrite (not_elem_of_list_to_map_1 (M:=gmap Z) xs idx) by done.
      rewrite V1 by (rewrite Hl; done). by rewrite decide_True.
    + rewrite lookup_insert_ne by done. destruct (_ !! _); [done|]. rewrite V1 by (rewrite Hl; done).
      by rewrite decide_False.
Qed.

(** ** Writing *)

(** [step] rewrites the frame of each page it is given, byte by byte, and nothing else. *)
Definition rewrites (step : PhysMem → Z * Z → res PhysMem) (new : Z → Z → Z → Z) (p : PhysMem) (x : Z * Z) : Prop :=
  ∃ p', step p x = Ok p' ∧ phys_wf p' ∧ pm_size p' = pm_size p ∧
    (∀ o, 0 ≤ o < PAGE_SIZE → byte p' (x.2 + o) = new x.1 o (byte p (x.2 + o))) ∧
    (∀ j, ¬ x.2 ≤ j < x.2 + PAGE_SIZE → byte p' j = byte p j).

Fixpoint each (step : PhysMem → Z * Z → res PhysMem) (xs : list (Z * Z)) (p : PhysMem) : res PhysMem :=
  match xs with [] => Ok p | x :: xs => p ← step p x; each step xs p end.
Lemma writes_each checks off stop data xs : ∀ p,
  writes checks off stop data xs p = each (write1 checks off stop data) xs p.
Proof. induction xs as [|x xs IH]; intros p; simpl; [done|]. destruct (write1 _ _ _ _ _ _); [apply IH|done]. Qed.
Lemma zero_tails_each checks len xs : ∀ p, zero_tails checks len xs p = each (zero_tail checks len) xs p.
Proof. induction xs as [|x xs IH]; intros p; simpl; [done|]. destruct (zero_tail _ _ _ _); [apply IH|done]. Qed.

(** Frames of different pages of the list do not overlap. *)
Definition apart (xs : list (Z * Z)) : Prop :=
  NoDup xs ∧ ∀ x y, x ∈ xs → y ∈ xs → x ≠ y → ∀ i, x.2 ≤ i < x.2 + PAGE_SIZE → ¬ y.2 ≤ i < y.2 + PAGE_SIZE.

Lemma each_ok step new xs : ∀ p,
  (∀ q x, phys_wf q → pm_size q = pm_size p → x ∈ xs → rewrites step new q x) → phys_wf p → apart xs →
  ∃ p', each step xs p = Ok p' ∧ phys_wf p' ∧ pm_size p' = pm_size p ∧
    (∀ x o, x ∈ xs → 0 ≤ o < PAGE_SIZE → byte p' (x.2 + o) = new x.1 o (byte p (x.2 + o))) ∧
    (∀ j, (∀ x, x ∈ xs → ¬ x.2 ≤ j < x.2 + PAGE_SIZE) → byte p' j = byte p j).
Proof.
  induction xs as [|x xs IH]; intros p Hstep Hp [HN Hap].
  - exists p. split_and!; try done. intros x o Hx. by apply elem_of_nil in Hx.
  - destruct (Hstep p x Hp eq_refl ltac:(by left)) as (p1 & E1 & W1 & S1 & I1 & O1).
    apply NoDup_cons in HN as [Hx HN]. destruct (IH p1) as (p2 & E2 & W2 & S2 & I2 & O2).
    + intros q y Hq Hs Hy. apply Hstep; [done|congruence|by right].
    + done.
    + split; [done|]. intros y z Hy Hz. apply Hap; by right.
    + exists p2. split_and!; [by cbn; rewrite E1|done|congruence|..].
      * intros y o [->|Hy]%elem_of_cons Ho.
        -- rewrite O2; [by apply I1|]. intros y Hy. apply (Hap x y); [by left|by right| |lia]. by intros ->.
        -- rewrite I2 by done. f_equal. apply O1. apply (Hap y x); [by right|by left| |lia]. by intros ->.
      * intros j Hj. rewrite O2, O1; [done|apply Hj; by left|]. intros y Hy. apply Hj. by right.
Qed.

(** A write of part of a page. *)
Lemma rewrites_store step new p x pa buf :
  phys_wf p → inside p x.2 FRAME → Forall is_byte buf → step p x = phys_write p pa buf →
  x.2 ≤ pa → pa + Z.of_nat (length buf) ≤ x.2 + PAGE_SIZE →
  (∀ o, 0 ≤ o < PAGE_SIZE → new x.1 o (byte p (x.2 + o)) =
     if decide (pa ≤ x.2 + o < pa + Z.of_nat (length buf)) then buf !!! Z.to_nat (x.2 + o - pa) else byte p (x.2 + o)) →
  rewrites step new p x.
Proof.
  intros Hp Hin Hb Hs H1 H2 Hnew. destruct (phys_write_ok p pa buf) as (p' & E & St); [done| |].
  { unfold inside, FRAME in *. lia. }
  exists p'. split_and!; [by rewrite Hs|by eapply stored_wf|apply St|..].
  - intros o Ho. rewrite Hnew by done. destruct (decide _) as [Hd|Hd]; apply St; done.
  - intros j Hj. apply St. lia.
Qed.

Lemma write1_ok checks off data p x :
  phys_wf p → inside p x.2 FRAME → Forall is_byte data → 0 ≤ off → 0 ≤ x.1 →
  off + Z.of_nat (length data) ≤ U64 - PAGE_SIZE → x.1 * PAGE_SIZE < off + Z.of_nat (length data) →
  rewrites (write1 checks off (off + Z.of_nat (length data)) data)
    (λ k o old, let a := k * PAGE_SIZE + o in
       if decide (off ≤ a < off + Z.of_nat (length data)) then data !!! Z.to_nat (a - off) else old) p x.
Proof.
  intros Hp Hf Hb Ho Hi Hu Hs. destruct x as [idx f]. cbn [fst snd] in *. set (stop := off + Z.of_nat (length data)) in *.
  destruct (Z.leb_spec (Z.min ((idx + 1) * PAGE_SIZE) stop) (Z.max (idx * PAGE_SIZE) off)) as [Hle|Hlt].
  - exists p. unfold write1. cbn [fst snd]. rewrite part_ok by done. cbn.
    destruct (Z.leb_spec (Z.min ((idx + 1) * PAGE_SIZE) stop) (Z.max (idx * PAGE_SIZE) off)); [|lia].
    split_and!; try done. intros o Hoo. rewrite decide_False; [done|]. unfold stop, PAGE_SIZE in *. lia.
  - set (lo := Z.max (idx * PAGE_SIZE) off) in *. set (hi := Z.min ((idx + 1) * PAGE_SIZE) stop) in *.
    set (buf := take (Z.to_nat (hi - lo)) (drop (Z.to_nat (lo - off)) data)).
    assert (Z.of_nat (length buf) = hi - lo) as Hlen.
    { unfold buf. rewrite length_take, length_drop. unfold lo, hi, stop in *. lia. }
    eapply (rewrites_store _ _ p (idx, f) (f + (lo - idx * PAGE_SIZE)) buf); cbn [fst snd]; [done|done|..].
    + unfold buf. by apply Forall_take, Forall_drop.
    + unfold write1. cbn [fst snd]. rewrite part_ok by done. cbn. fold lo hi.
      destruct (Z.leb_spec hi lo); [lia|done].
    + unfold lo. lia.
    + rewrite Hlen. unfold lo, hi, stop, PAGE_SIZE in *. lia.
    + intros o Hoo. rewrite Hlen. destruct (decide (off ≤ idx * PAGE_SIZE + o < stop)) as [Hd|Hd].
      * rewrite decide_True by (unfold lo, hi, stop, PAGE_SIZE in *; lia).
        unfold buf. rewrite !list_lookup_total_alt. f_equal.
        rewrite lookup_take_lt by (unfold lo, hi, stop, PAGE_SIZE in *; lia). rewrite lookup_drop. f_equal.
        unfold lo, hi, stop, PAGE_SIZE in *. lia.
      * rewrite decide_False; [done|]. unfold lo, hi, stop, PAGE_SIZE in *. lia.
Qed.

Lemma zero_tail_ok checks len p x :
  phys_wf p → inside p x.2 FRAME → 0 ≤ len → 0 ≤ x.1 < 2 ^ 52 →
  rewrites (zero_tail checks len) (λ k o old, if decide (len ≤ k * PAGE_SIZE + o) then 0 else old) p x.
Proof.
  intros Hp Hf Hl Hi. destruct x as [idx f]. cbn [fst snd] in *.
  set (from := Z.min (sat_sub len (idx * PAGE_SIZE)) PAGE_SIZE).
  assert (0 ≤ from ≤ PAGE_SIZE) as Hfr by (unfold from, sat_sub, PAGE_SIZE; lia).
  eapply (rewrites_store _ _ p (idx, f) (f + from) (replicate (Z.to_nat (PAGE_SIZE - from)) 0)); cbn [fst snd]; [done|done|..].
  - apply Forall_replicate. unfold is_byte, U8. lia.
  - unfold zero_tail. cbn [fst snd]. rewrite u64_mul_ok by (unfold PAGE_SIZE, U64; lia). done.
  - lia.
  - rewrite length_replicate. lia.
  - intros o Ho. rewrite length_replicate. destruct (decide (len ≤ idx * PAGE_SIZE + o)).
    + rewrite decide_True by (unfold from, sat_sub, PAGE_SIZE in *; lia). symmetry. apply lookup_total_replicate_2. 
      unfold from, sat_sub, PAGE_SIZE in *. lia.
    + rewrite decide_False; [done|]. unfold from, sat_sub, PAGE_SIZE in *. lia.
Qed.

(** ** The cache *)

Section Coherence.
Context {F : Type} (ops : MountFs F) (checks : bool) (s : Pool) (pc : PageCache).
Hypothesis Hok : cache_ok s pc.

Lemma cached_frame k pages i f : files pc !! k = Some pages → pages !! i = Some f → page_of_file pc k i = Some f.
Proof. intros H1 H2. unfold page_of_file. by rewrite H1. Qed.
Lemma cached_inside k i f : page_of_file pc k i = Some f → aligned f ∧ Phys.inside (phys s) f FRAME.
Proof. intros H. apply (rc_inside s); [apply Hok|by eapply co_live]. Qed.

Lemma pages_apart k pages (P : Z * Z → Prop) `{!∀ x, Decision (P x)} :
  files pc !! k = Some pages → apart (filter P (bt_list pages)).
Proof.
  intros Hk. split.
  - apply NoDup_filter. eapply NoDup_fmap_1, NoDup_bt_list.
  - intros [i f] [j g] [_ Hx]%list_elem_of_filter [_ Hy]%list_elem_of_filter Hne. cbn [fst snd].
    apply elem_of_bt_list in Hx, Hy. pose proof (cached_frame _ _ _ _ Hk Hx) as Fx.
    pose proof (cached_frame _ _ _ _ Hk Hy) as Fy. intros a Ha. change PAGE_SIZE with FRAME in *.
    apply (frames_disjoint f g a); [by eapply cached_inside|by eapply cached_inside| |exact Ha].
    intros <-. destruct (co_inj _ _ Hok _ _ _ _ _ Fx Fy) as [_ ->]. done.
Qed.

Lemma read_overlay k t path off bs :
  pc_key ops t path = Some k → 0 ≤ off → off + Z.of_nat (length bs) ≤ U64 - PAGE_SIZE →
  ∃ bs', pc_after_read ops checks pc t path off bs (phys s) = Ok bs' ∧ length bs' = length bs ∧
    ∀ a, off ≤ a < off + Z.of_nat (length bs) →
      bs' !!! Z.to_nat (a - off) = default (bs !!! Z.to_nat (a - off)) (cached_byte (phys s) pc k a).
Proof.
  intros Hk Ho Hu. assert (∀ pages, files pc !! k = pages → (∀ p i f, pages = Some p → p !! i = Some f → False) →
    ∀ a, cached_byte (phys s) pc k a = None) as Hnone.
  { intros pages Hp Hn a. unfold cached_byte, page_of_file. rewrite Hp. destruct pages as [pg|]; [|done]. cbn.
    destruct (pg !! _) eqn:E; [|done]. exfalso. by eapply Hn. }
  unfold pc_after_read. destruct (bool_decide (files pc = ∅)) eqn:E0; [|destruct (bool_decide (bs = [])) eqn:E1]; cbn [orb].
  - apply bool_decide_eq_true in E0. exists bs. split_and!; [done|done|]. intros a Ha.
    rewrite (Hnone None) by (done || by rewrite E0, lookup_empty). done.
  - apply bool_decide_eq_true in E1 as ->. exists []. split_and!; [done|done|]. simpl. lia.
  - rewrite Hk. cbn. destruct (files pc !! k) as [pages|] eqn:Hf.
    2: { exists bs. split_and!; [done|done|]. intros a Ha. by rewrite (Hnone None). }
    unfold overlay. destruct (has_phys pc) eqn:Hph; cbn [negb].
    2: { exists bs. split_and!; [done|done|]. intros a Ha. rewrite (Hnone (Some pages)); [done|done|].
         intros p i f [= <-] Hi. pose proof (co_phys _ _ Hok _ _ _ (cached_frame _ _ _ _ Hf Hi)). congruence. }
    assert (0 < Z.of_nat (length bs)) as Hl.
    { apply bool_decide_eq_false in E1. destruct bs; [done|]. simpl. lia. }
    rewrite u64_add_ok by (unfold PAGE_SIZE in *; lia). cbn. unfold sat_sub, range_incl.
    set (stop := off + Z.of_nat (length bs)) in *. rewrite (Z.max_r 0) by lia.
    destruct (Z.ltb_spec ((stop - 1) / PAGE_SIZE) (off / PAGE_SIZE)) as [Hlt|_].
    { exfalso. unfold stop, PAGE_SIZE in *. divlia. }
    cbn. set (xs := bt_range pages _ _).
    destruct (overlays_ok checks (phys s) off (length bs) xs bs) as (b' & E & L & V); try done.
    + apply Hok.
    + apply Forall_forall. intros [i f] [Hr Hin]%elem_of_bt_range. cbn [fst snd].
      pose proof (cached_frame _ _ _ _ Hf Hin) as Hc. split_and!; [by eapply cached_inside|by eapply (co_index _ _ Hok)|].
      unfold stop, PAGE_SIZE in *. divlia.
    + apply NoDup_bt_range.
    + exists b'. split_and!; [done|done|]. intros a Ha. rewrite V by done. clear E V L.
      unfold cached_byte, page_of_file. rewrite Hf.
      assert ((list_to_map xs : gmap Z Z) !! (a / PAGE_SIZE) = pages !! (a / PAGE_SIZE)) as ->.
      { destruct (pages !! (a / PAGE_SIZE)) as [f|] eqn:Ef.
        - apply elem_of_list_to_map_1; [apply NoDup_bt_range|].
          apply elem_of_bt_range. split; [|done]. unfold stop, PAGE_SIZE in *. divlia.
        - apply not_elem_of_list_to_map_1. intros ([i f] & E & Hx)%list_elem_of_fmap.
          apply elem_of_bt_range in Hx as [_ Hx]. cbn [fst] in E. congruence. }
      cbn. by destruct (pages !! _).
Qed.

(** The frames of the file [k] are rewritten by [new], every other byte is kept. *)
Definition file_rewritten (k : FileKey) (new : Z → Z → Z) (p' : PhysMem) : Prop :=
  pool_wf (mkPool p' (fa s)) ∧
  (∀ k' a, cached_byte p' pc k' a =
     if decide (k' = k) then new a <$> cached_byte (phys s) pc k' a else cached_byte (phys s) pc k' a) ∧
  (∀ j, (∀ i f, page_of_file pc k i = Some f → ¬ f ≤ j < f + PAGE_SIZE) → byte p' j = byte (phys s) j).

Lemma file_kept k new : (∀ a b, cached_byte (phys s) pc k a = Some b → new a b = b) → file_rewritten k new (phys s).
Proof.
  intros H. split; [destruct s; apply Hok|]. split; [|done]. intros k' a. destruct (decide (k' = k)) as [->|]; [|done].
  destruct (cached_byte (phys s) pc k a) as [b|] eqn:E; [|done]. simpl. f_equal. symmetry. by apply H.
Qed.

Lemma each_rewrites k pages (P : Z * Z → Prop) `{!∀ x, Decision (P x)} step new :
  files pc !! k = Some pages →
  (∀ q i f, phys_wf q → pm_size q = pm_size (phys s) → pages !! i = Some f → P (i, f) →
     rewrites step (λ i o, new (i * PAGE_SIZE + o)) q (i, f)) →
  (∀ i f o b, pages !! i = Some f → ¬ P (i, f) → 0 ≤ o < PAGE_SIZE → new (i * PAGE_SIZE + o) b = b) →
  ∃ p', each step (filter P (bt_list pages)) (phys s) = Ok p' ∧ file_rewritten k new p'.
Proof.
  intros Hf Hstep Hnot. pose proof (co_pool _ _ Hok) as [W1 W2 W3].
  destruct (each_ok step (λ i o, new (i * PAGE_SIZE + o)) (filter P (bt_list pages)) (phys s)) as (p' & E & Wp & Sz & I & O).
  - intros q [i f] Hq Hs [HP Hx]%list_elem_of_filter. apply elem_of_bt_list in Hx. by apply Hstep.
  - done.
  - by eapply pages_apart.
  - exists p'. split; [done|]. assert (∀ k' i f o, page_of_file pc k' i = Some f → 0 ≤ o < PAGE_SIZE →
      byte p' (f + o) = if decide (k' = k) then new (i * PAGE_SIZE + o) (byte (phys s) (f + o)) else byte (phys s) (f + o)) as HB.
    { intros k' i f o Hc Ho. assert ((∀ x, x ∈ filter P (bt_list pages) → ¬ x.2 ≤ f + o < x.2 + PAGE_SIZE) ∨
        k' = k ∧ (i, f) ∈ filter P (bt_list pages)) as [Hn|[-> Hin]].
      { destruct (decide (k' = k ∧ P (i, f))) as [[-> HP]|Hn].
        - right. split; [done|]. apply list_elem_of_filter. split; [done|]. apply elem_of_bt_list.
          unfold page_of_file in Hc. by rewrite Hf in Hc.
        - left. intros [j g] [HP Hx]%list_elem_of_filter Hj. apply elem_of_bt_list in Hx. cbn [snd] in Hj.
          pose proof (cached_frame _ _ _ _ Hf Hx) as Hg. destruct (decide (g = f)) as [->|Hne].
          { destruct (co_inj _ _ Hok _ _ _ _ _ Hc Hg) as [-> ->]. by apply Hn. }
          change PAGE_SIZE with FRAME in *.
          apply (frames_disjoint f g (f + o)); [by eapply cached_inside|by eapply cached_inside|congruence|lia|exact Hj]. }
      - rewrite O by done. destruct (decide (k' = k)) as [->|]; [|done]. symmetry.
        destruct (decide (P (i, f))) as [HP|HP].
        + exfalso. unfold page_of_file in Hc. rewrite Hf in Hc. apply (Hn (i, f)); [|cbn [snd]; lia].
          apply list_elem_of_filter. split; [done|]. by apply elem_of_bt_list.
        + unfold page_of_file in Hc. rewrite Hf in Hc. by eapply Hnot.
      - rewrite decide_True by done. apply (I (i, f)); done. }
    split_and!.
    + split; simpl; [done|done|]. unfold phys_nframes. by rewrite Sz.
    + intros k' a. unfold cached_byte. destruct (page_of_file pc k' (a / PAGE_SIZE)) as [f|] eqn:Hc; cbn.
      2: { by destruct (decide _). }
      destruct (page_split a) as [S1 S2]. rewrite (HB _ _ _ _ Hc S2), <- S1. by destruct (decide (k' = k)).
    + intros j Hj. apply O. intros [i f] [_ Hx]%list_elem_of_filter. apply elem_of_bt_list in Hx. cbn [snd].
      apply (Hj i). by eapply cached_frame.
Qed.

Lemma write_rewrites k t path off data :
  pc_key ops t path = Some k → 0 ≤ off → off + Z.of_nat (length data) ≤ U64 - PAGE_SIZE → Forall is_byte data →
  ∃ p', pc_after_write ops checks pc t path off data (phys s) = Ok p' ∧
    file_rewritten k (λ a old, if decide (off ≤ a < off + Z.of_nat (length data)) then data !!! Z.to_nat (a - off) else old) p'.
Proof.
  intros Hk Ho Hu Hb. unfold pc_after_write.
  destruct (bool_decide (files pc = ∅)) eqn:E0; [|destruct (bool_decide (data = [])) eqn:E1]; cbn [orb].
  - apply bool_decide_eq_true in E0. exists (phys s). split; [done|]. apply file_kept. intros a b H.
    unfold cached_byte, page_of_file in H. by rewrite E0, lookup_empty in H.
  - apply bool_decide_eq_true in E1 as ->. exists (phys s). split; [done|]. apply file_kept. intros a b _.
    rewrite decide_False; [done|]. simpl. lia.
  - apply bool_decide_eq_false in E1. assert (0 < Z.of_nat (length data)) as Hl by (destruct data; [done|simpl; lia]).
    rewrite Hk. cbn. destruct (files pc !! k) as [pages|] eqn:Hf.
    2: { exists (phys s). split; [done|]. apply file_kept. intros a b H. unfold cached_byte, page_of_file in H.
         by rewrite Hf in H. }
    unfold write_through. destruct (has_phys pc) eqn:Hph; cbn [negb].
    2: { exists (phys s). split; [done|]. apply file_kept. intros a b H. unfold cached_byte in H.
         destruct (page_of_file pc k (a / PAGE_SIZE)) eqn:Hc; [|done]. apply (co_phys _ _ Hok) in Hc. congruence. }
    rewrite u64_add_ok by (unfold PAGE_SIZE in *; lia). cbn. unfold sat_sub, range_incl.
    set (stop := off + Z.of_nat (length data)) in *. rewrite (Z.max_r 0) by lia.
    destruct (Z.ltb_spec ((stop - 1) / PAGE_SIZE) (off / PAGE_SIZE)) as [Hlt|_].
    { exfalso. unfold stop, PAGE_SIZE in *. divlia. }
    cbn. rewrite writes_each. unfold bt_range. apply each_rewrites with (pages := pages); [done|..].
    + intros q i f Hq Hs Hi [H1 H2]. cbn [fst] in *. pose proof (cached_frame _ _ _ _ Hf Hi) as Hc.
      apply write1_ok; cbn [fst snd]; try done.
      * destruct (cached_inside _ _ _ Hc) as [_ Hin]. unfold Phys.inside in *. by rewrite Hs.
      * by eapply (co_index _ _ Hok).
      * fold stop. unfold stop, PAGE_SIZE in *. divlia.
    + intros i f o b Hi HP Hoo. cbn [fst] in HP. rewrite decide_False; [done|]. intros Hin. apply HP.
      destruct (page_div (i * PAGE_SIZE + o) i o Hoo eq_refl) as [E _].
      rewrite <- E. unfold stop, PAGE_SIZE in *. divlia.
Qed.

Lemma truncate_rewrites k t path len :
  pc_key ops t path = Some k → 0 ≤ len →
  ∃ p', pc_after_truncate ops checks pc t path len (phys s) = Ok p' ∧
    file_rewritten k (λ a old, if decide (len ≤ a) then 0 else old) p'.
Proof.
  intros Hk Hl. unfold pc_after_truncate. destruct (bool_decide (files pc = ∅)) eqn:E0.
  - apply bool_decide_eq_true in E0. exists (phys s). split; [done|]. apply file_kept. intros a b H.
    unfold cached_byte, page_of_file in H. by rewrite E0, lookup_empty in H.
  - rewrite Hk. cbn. destruct (files pc !! k) as [pages|] eqn:Hf.
    2: { exists (phys s). split; [done|]. apply file_kept. intros a b H. unfold cached_byte, page_of_file in H.
         by rewrite Hf in H. }
    destruct (has_phys pc) eqn:Hph.
    2: { exists (phys s). split; [done|]. apply file_kept. intros a b H. unfold cached_byte in H.
         destruct (page_of_file pc k (a / PAGE_SIZE)) eqn:Hc; [|done]. apply (co_phys _ _ Hok) in Hc. congruence. }
    rewrite zero_tails_each. apply each_rewrites with (pages := pages); [done|..].
    + intros q i f Hq Hs Hi _. pose proof (cached_frame _ _ _ _ Hf Hi) as Hc.
      apply zero_tail_ok; cbn [fst snd]; try done; [|by eapply (co_index _ _ Hok)].
      destruct (cached_inside _ _ _ Hc) as [_ Hin]. unfold Phys.inside in *. by rewrite Hs.
    + intros i f o b Hi HP Hoo. cbn [fst] in HP. rewrite decide_False; [done|]. intros Hin. apply HP.
      destruct (page_div (i * PAGE_SIZE + o) i o Hoo eq_refl) as [E _].
      rewrite <- E. unfold PAGE_SIZE in *. divlia.
Qed.
End Coherence.

(** A file's bytes as readers see them: a cached page's, else the back end's. *)
Definition read_view (p : PhysMem) (pc : PageCache) (k : FileKey) (a backend : Z) : Z :=
  default backend (cached_byte p pc k a).

(** C17: [read], [write] and [truncate] are coherent with the pages processes have mapped. A
    read returns, byte by byte, what a mapping of the page holds where the page is cached, and
    what the file system returned elsewhere. A write that the file system took [n] bytes of puts
    exactly those into the cached pages of that file, and a truncation exactly zeros past the
    new end; the pages of other files, and all other memory, keep their bytes. *)
Theorem page_cache_coherent {F} (ops : MountFs F) checks s pc t path k :
  cache_ok s pc → pc_key ops t path = Some k →
  (∀ off n bs, Mount.read_at ops t path off n = Good bs → 0 ≤ off → off + Z.of_nat (length bs) ≤ U64 - PAGE_SIZE →
     ∃ bs', vfs_read ops checks pc t path off n (phys s) = Ok (Good bs') ∧ length bs' = length bs ∧
       ∀ a, off ≤ a < off + Z.of_nat (length bs) →
         bs' !!! Z.to_nat (a - off) = read_view (phys s) pc k a (bs !!! Z.to_nat (a - off))) ∧
  (∀ now ls off data n t', seal_blocks_write checks (as_vfs ops t) ls path off (Z.of_nat (length data)) = Ok false →
     Mount.write_at ops now t path off data = (Good n, t') → pc_key ops t' path = Some k →
     0 ≤ n ≤ Z.of_nat (length data) → 0 ≤ off → off + n ≤ U64 - PAGE_SIZE → Forall is_byte data →
     ∃ p', vfs_write ops checks now pc ls t path off data (phys s) = Ok (Good n, t', p') ∧
       file_rewritten s pc k (λ a old, if decide (off ≤ a < off + n) then data !!! Z.to_nat (a - off) else old) p') ∧
  (∀ now ls len t', seal_blocks_truncate (as_vfs ops t) ls path len = false → 0 ≤ len →
     Mount.truncate ops now t path len = (Good tt, t') → pc_key ops t' path = Some k →
     ∃ p', vfs_truncate ops checks now pc ls t path len (phys s) = Ok (Good tt, t', p') ∧
       file_rewritten s pc k (λ a old, if decide (len ≤ a) then 0 else old) p').
Proof.
  intros Hok Hk. split_and!.
  - intros off n bs Hr Ho Hu. destruct (read_overlay ops checks s pc Hok k t path off bs Hk Ho Hu) as (b' & E & L & V).
    exists b'. unfold vfs_read. rewrite Hr, E. done.
  - intros now ls off data n t' Hs Hw Hk' Hn Ho Hu Hb.
    assert (Z.of_nat (length (take (Z.to_nat n) data)) = n) as Hl by (rewrite length_take; lia).
    destruct (write_rewrites ops checks s pc Hok k t' path off (take (Z.to_nat n) data)) as (p' & E & R);
      [done|done|by rewrite Hl|by apply Forall_take|].
    exists p'. unfold vfs_write. rewrite Hs. cbn. rewrite Hw, E. split; [done|].
    destruct R as (R1 & R2 & R3). split_and!; [done| |done]. intros k' a. rewrite R2.
    destruct (decide (k' = k)); [|done]. destruct (cached_byte _ _ _ _); [|done]. simpl. f_equal.
    rewrite Hl. destruct (decide (off ≤ a < off + n)); [|done].
    rewrite !list_lookup_total_alt. f_equal. apply lookup_take_lt. lia.
  - intros now ls len t' Hs Hl Hw Hk'. destruct (truncate_rewrites ops checks s pc Hok k t' path len Hk' Hl) as (p' & E & R).
    exists p'. unfold vfs_truncate. rewrite Hs, Hw, E. done.
Qed.

(** ** Bringing pages in *)

Definition with_pages (pc : PageCache) (k : FileKey) (pages : gmap Z Z) : PageCache := mkCache true (<[k := pages]> (files pc)).

Lemma page_with pc k pages k' i :
  page_of_file (with_pages pc k pages) k' i = if decide (k' = k) then pages !! i else page_of_file pc k' i.
Proof.
  unfold page_of_file, with_pages. simpl. destruct (decide (k' = k)) as [->|Hne]; [by rewrite lookup_insert_eq|].
  by rewrite lookup_insert_ne.
Qed.

(** A fresh frame joins the cache. *)
Lemma cache_ok_new s s1 pc k pages i f :
  cache_ok s (with_pages pc k pages) → pages !! i = None → 0 ≤ i < 2 ^ 52 → allocated_frame s s1 f →
  cache_ok s1 (with_pages pc k (<[i := f]> pages)) ∧
  ∀ k' a, a / PAGE_SIZE ≠ i ∨ k' ≠ k →
    cached_byte (phys s1) (with_pages pc k (<[i := f]> pages)) k' a = cached_byte (phys s) (with_pages pc k pages) k' a.
Proof.
  intros Hok Hi Hr A. assert (∀ k' j, page_of_file (with_pages pc k (<[i := f]> pages)) k' j =
    if decide (k' = k ∧ j = i) then Some f else page_of_file (with_pages pc k pages) k' j) as HP.
  { intros k' j. rewrite !page_with. destruct (decide (k' = k)) as [->|]; [|rewrite decide_False by tauto; done].
    destruct (decide (j = i)) as [->|]; [rewrite decide_True by done; by rewrite lookup_insert_eq|].
    rewrite decide_False by tauto. by rewrite lookup_insert_ne. }
  assert (∀ k' j g, page_of_file (with_pages pc k pages) k' j = Some g → g ≠ f) as Hne.
  { intros k' j g Hg ->. apply (co_live _ _ Hok) in Hg. pose proof (al_fresh _ _ _ A). lia. }
  split.
  - split; [apply A|done|..].
    + intros k' j g. rewrite HP. destruct (decide _) as [[-> ->]|]; [by intros [= <-]|]. apply (co_index _ _ Hok).
    + intros k' j g. rewrite HP, (al_rc _ _ _ A). destruct (decide (k' = k ∧ j = i)) as [[-> ->]|].
      * intros [= <-]. by rewrite decide_True.
      * intros Hg. rewrite decide_False by (by eapply Hne). by eapply (co_live _ _ Hok).
    + intros k1 j1 k2 j2 g. rewrite !HP.
      destruct (decide (k1 = k ∧ j1 = i)) as [[-> ->]|]; destruct (decide (k2 = k ∧ j2 = i)) as [[-> ->]|]; [done|..].
      * intros [= <-] Hg. by apply Hne in Hg.
      * intros Hg [= <-]. by apply Hne in Hg.
      * apply (co_inj _ _ Hok).
  - intros k' a Ha. unfold cached_byte. rewrite HP, decide_False by tauto.
    destruct (page_of_file _ k' (a / PAGE_SIZE)) as [g|] eqn:Hg; [|done]. cbn. f_equal.
    destruct (al_stored _ _ _ A) as [_ _ _ Hout]. apply Hout. rewrite length_replicate. change (Z.of_nat FRAME_SZ) with FRAME.
    destruct (page_split a) as [_ S2]. apply (frames_disjoint g f); [by eapply (cached_inside _ _ Hok)|apply A| |].
    + by eapply Hne.
    + change FRAME with PAGE_SIZE. lia.
Qed.

(** [find_frames] keeps the pages that were there, bytes included. *)
Lemma find_frames_ok pc k idxs : ∀ pages frames fresh s,
  cache_ok s (with_pages pc k pages) → Forall (λ i, 0 ≤ i < 2 ^ 52) idxs →
  ∃ pages' r s', find_frames idxs pages frames fresh s = Ok ((pages', r), s') ∧
    cache_ok s' (with_pages pc k pages') ∧ pages ⊆ pages' ∧
    (∀ k' a b, cached_byte (phys s) (with_pages pc k pages) k' a = Some b →
       cached_byte (phys s') (with_pages pc k pages') k' a = Some b).
Proof.
  induction idxs as [|i idxs IH]; intros pages frames fresh s Hok HF; simpl.
  - eexists _, _, _. split; [done|]. split_and!; done.
  - apply Forall_cons in HF as [Hi HF]. destruct (pages !! i) as [f|] eqn:Hp; [by apply IH|].
    unfold alloc_frames. simpl. unfold mbind, ST_bind.
    destruct (alloc_cases s (co_pool _ _ Hok)) as [->|(f & s1 & -> & A)].
    + simpl. eexists _, _, _. split; [done|]. split_and!; done.
    + cbn. destruct (cache_ok_new _ _ _ _ _ _ _ Hok Hp Hi A) as [Hok1 HB].
      destruct (IH (<[i := f]> pages) (frames ++ [f]) (fresh ++ [(i, f)]) s1 Hok1 HF) as (pages' & r & s' & E & C & S & B).
      exists pages', r, s'. split_and!; [exact E|exact C|etrans; [by apply insert_subseteq|done]|].
      intros k' a b Hb. apply B. rewrite HB; [done|]. destruct (decide (a / PAGE_SIZE = i ∧ k' = k)) as [[<- ->]|Hn].
      * unfold cached_byte in Hb. rewrite page_with, decide_True, Hp in Hb by done. done.
      * destruct (decide (a / PAGE_SIZE = i)); [right|left]; tauto.
Qed.

(** Writing into a frame keeps the cache in order. *)
Lemma cache_ok_store s p' pc pa buf :
  cache_ok s pc → Forall is_byte buf → stored (phys s) p' pa buf → cache_ok (mkPool p' (fa s)) pc.
Proof.
  intros [C1 C2 C3 C4 C5] Hb St. split; [by eapply pool_wf_stored|done|done|done|done].
Qed.

(** ** A file mapped in one page *)

Definition s_f : str := [102].
Definition demo_path : str := render [s_f].
Definition demo_files (content : list Z) : MountTable :=
  fs_run (mount table_new [SLASH] tmpfs_new)
    [λ t, (create demo_ops 1 t demo_path 0).2; λ t, (write_at demo_ops 1 t demo_path 0 content).2].
Definition demo_table : MountTable := demo_files [1; 2; 3].
Definition demo_key : FileKey := default ([], 0) (pc_key demo_ops demo_table demo_path).
Definition or_else {S A} (r : res (A * S)) (s : S) : S := match r with Ok (_, s') => s' | Panic => s end.
Definition demo_pages : gmap Z Z := {[0 := 0x6000]}.
Definition demo_fetched : Pool := or_else (find_frames [0] ∅ [] [] demo_mapped) demo_mapped.
Definition demo_filled : Pool :=
  or_else (fill_page demo_ops true demo_table demo_path (0, 0x6000) demo_fetched) demo_fetched.
Definition demo_cache : PageCache := with_pages cache_new demo_key demo_pages.

Lemma demo_cache_ok : cache_ok demo_filled demo_cache.
Proof.
  destruct demo_mapped_space as (t & HS & _).
  assert (cache_ok demo_mapped (with_pages cache_new demo_key ∅)) as H0.
  { split; [apply HS|..]; intros k i; rewrite ?page_with; destruct (decide _); try done; unfold page_of_file; simpl;
      rewrite ?lookup_empty; done. }
  destruct (find_frames_ok cache_new demo_key [0] ∅ [] [] demo_mapped H0) as (pages & r & s1 & E & C & _ & _);
    [by repeat constructor|].
  assert (demo_fetched = s1) as E1 by (unfold demo_fetched; by rewrite E).
  assert (pages = demo_pages) as ->.
  { assert (match find_frames [0] ∅ [] [] demo_mapped with Ok ((p, _), _) => bool_decide (p = demo_pages) | Panic => false end = true)
      as Hp by (vm_compute; reflexivity).
    rewrite E in Hp. by apply bool_decide_eq_true in Hp. }
  rewrite <- E1 in C. clear E E1 HS H0.
  set (buf := file_page demo_ops demo_table demo_path 0).
  destruct (phys_write_ok (phys demo_fetched) 0x6000 buf) as (p' & E & St); [apply C| |].
  { destruct (cached_inside _ _ C demo_key 0 0x6000) as [_ Hin]; [|exact Hin].
    rewrite page_with, decide_True by done. reflexivity. }
  assert (demo_filled = mkPool p' (fa demo_fetched)) as ->.
  { unfold demo_filled, or_else, fill_page. cbn [fst snd]. rewrite u64_mul_ok by done. change (0 * PAGE_SIZE) with 0.
    unfold mbind, res_bind, on_phys. fold buf. unfold mbind, res_bind. by rewrite E. }
  eapply cache_ok_store; [exact C| |exact St].
  eapply (Forall_impl (λ b, bool_decide (0 ≤ b < 256) = true)); [|intros b Hb; apply bool_decide_eq_true in Hb; exact Hb].
  apply Forall_forall. intros b Hb. assert (forallb (λ b, bool_decide (0 ≤ b < 256)) buf = true) as Ha by (vm_compute; reflexivity).
  rewrite forallb_forall in Ha. apply Ha. by apply list_elem_of_In.
Qed.

(** A process has stored 9 into the second byte of the mapped page; [read] of three bytes sees it. *)
Definition demo_stored : Pool :=
  or_else (on_phys (λ p, phys_write p 0x6001 [9]) demo_filled) demo_filled.
Lemma demo_stored_ok : cache_ok demo_stored demo_cache.
Proof.
  destruct (phys_write_ok (phys demo_filled) 0x6001 [9]) as (p' & E & St); [apply demo_cache_ok| |].
  { destruct (cached_inside _ _ demo_cache_ok demo_key 0 0x6000) as [_ [Hin1 Hin2]].
    - unfold demo_cache. rewrite page_with, decide_True by done. reflexivity.
    - split; [lia|]. change (Z.of_nat (length [9])) with 1. unfold FRAME, PAGE_SIZE in Hin2.
      revert Hin2. generalize (pm_size (phys demo_filled)). lia. }
  assert (demo_stored = mkPool p' (fa demo_filled)) as ->.
  { unfold demo_stored, or_else, on_phys, mbind, res_bind. by rewrite E. }
  refine (cache_ok_store demo_filled p' demo_cache 0x6001 [9] demo_cache_ok _ St).
  apply Forall_singleton. unfold is_byte, U8. lia.
Qed.

Lemma page_cache_coherent_witness :
  vfs_read demo_ops true demo_cache demo_table demo_path 0 3 (phys demo_stored) = Ok (Good [1; 9; 3]) ∧
  ∃ bs', vfs_read demo_ops true demo_cache demo_table demo_path 0 3 (phys demo_stored) = Ok (Good bs') ∧
    bs' !!! 1%nat = read_view (phys demo_stored) demo_cache demo_key 1 2.
Proof.
  split; [vm_compute; reflexivity|].
  destruct (page_cache_coherent demo_ops true demo_stored demo_cache demo_table demo_path demo_key demo_stored_ok)
    as (H & _ & _); [vm_compute; reflexivity|].
  destruct (H 0 3 [1; 2; 3]) as (bs' & E & _ & V); [vm_compute; reflexivity|lia|vm_compute; discriminate|].
  exists bs'. split; [exact E|]. apply (V 1). simpl. lia.
Defined.

(** * A mapping that fails *)

(** The pool with one free frame left. *)
Fixpoint use_up (n : nat) (s : Pool) : Pool := match n with O => s | S n => use_up n (or_else (fa_alloc s) s) end.
Definition demo_low : Pool := use_up 9 demo_mapped.
Definition demo_sevens : MountTable := demo_files (replicate (2 * FRAME_SZ) 7).
Definition demo_failed : res ((Z + unit) * PageCache * (Pool * GuestMemory)) :=
  pc_map_shared demo_ops true (λ _, true) cache_new demo_sevens demo_path 0 0x8000 8192 Prot_READ (demo_low, fresh_gm 0 65536 (mkSpace 4096) 0).

(** A shared mapping of a file that runs out of frames half way leaves the pages it had
    entered in the cache without their contents: the call fails, nothing was mapped, and [read]
    of the file now returns zeros where the file holds data. *)
Theorem failed_map_hides_file :
  vfs_read demo_ops true cache_new demo_sevens demo_path 0 4 (phys demo_low) = Ok (Good [7; 7; 7; 7]) ∧
  ∃ pc s g, demo_failed = Ok (inl (err ENOMEM), pc, (s, g)) ∧ mapped_count g = 0 ∧
    vfs_read demo_ops true pc demo_sevens demo_path 0 4 (phys s) = Ok (Good [0; 0; 0; 0]).
Proof.
  split; [vm_compute; reflexivity|].
  assert (match demo_failed with
    | Ok (inl e, pc, (s, g)) => Some (e, mapped_count g, vfs_read demo_ops true pc demo_sevens demo_path 0 4 (phys s))
    | _ => None end = Some (err ENOMEM, 0, Ok (Good [0; 0; 0; 0]))) as H by (vm_compute; reflexivity).
  destruct demo_failed as [[[[e|[]] pc] [s g]]|]; [|discriminate H|discriminate H].
  apply (inj Some) in H. apply (inj2 pair) in H as [H H3]. apply (inj2 pair) in H as [H1 H2].
  exists pc, s, g. rewrite H1. split; [reflexivity|]. split; [exact H2|exact H3].
Qed.
