(* ===== verification/MemCalls.v ===== *)
(** The memory system calls ([src/kernel/mod.rs], [src/kernel/mem_syscalls.rs], [mseal] of
    [src/kernel/attrs.rs]): [brk], [mmap], [munmap], [mprotect], [mremap], [madvise], [mincore],
    [msync], [mlock] and their relatives, over the address space ([GuestMem]), its arena
    ([Arena]), the page cache ([PageCache]) and the mount table ([Mount]). *)
From S2P Require Import Prelude Phys PageTable GuestMem PageLocks Arena Vfs Mount Fd FileLocks Abi Seccomp PageCache.
From stdpp Require Import base numbers gmap list.
Local Open Scope Z_scope.

(** [SharedMap]: a writable shared mapping of a file, to be written back. *)
Record SharedMap := mkShared { m_base : Z; m_len : Z; m_path : str; m_offset : Z }.
(** The part of [ShmSeg] that [munmap] touches. *)
Record ShmSeg := mkShm { sg_size : Z; sg_frames : list Z; sg_attaches : list (Z * Z); sg_removed : bool }.
(** The fields of [ProcInfo] these calls use; [soft] is [rlimits.soft], [capable] is
    [host_capable]. *)
Record Task := mkTask {
  mm : Z; brk : Z; heap_start : Z; heap_limit : Z; shared_maps : list SharedMap; fds : FdTable;
  soft : Z → Z; capable : bool; mdwe : Z
}.
Definition RLIMIT_DATA : Z := 2.
Definition RLIMIT_MEMLOCK : Z := 8.
Definition RLIMIT_AS : Z := 9.
Definition RLIM_INFINITY : Z := U64 - 1.
Definition MDWE_REFUSE_EXEC_GAIN : Z := 1.
Definition MAP_SHARED : Z := 1.
Definition MAP_SHARED_VALIDATE : Z := 3.
Definition MAP_TYPE : Z := 0xf.
Definition MAP_FIXED : Z := 0x10.
Definition MAP_ANONYMOUS : Z := 0x20.
Definition MAP_LOCKED : Z := 0x2000.
Definition MAP_SYNC : Z := 0x80000.
Definition MAP_FIXED_NOREPLACE : Z := 0x100000.
Definition MAP_KNOWN : Z :=
  foldr Z.lor 0 [0x10; 0x20; 0x40; 0x100; 0x800; 0x1000; 0x2000; 0x4000; 0x8000; 0x10000; 0x20000; 0x40000; 0x80000;
    0x100000; 0x4000000; Z.shiftl 0x3f 26].
Definition MREMAP_MAYMOVE : Z := 1.
Definition MREMAP_FIXED : Z := 2.
Definition MREMAP_DONTUNMAP : Z := 4.
Definition DEV_ZERO : str := [47; 100; 101; 118; 47; 122; 101; 114; 111].

(** [flags & bits != 0] and [flags & !mask != 0] on [u64]. *)
Definition has (flags bits : Z) : bool := negb (Z.land flags bits =? 0).
Definition beyond (flags mask : Z) : bool := has flags (U64 - 1 - mask).
Definition sat_add (a b : Z) : Z := Z.min (a + b) (U64 - 1).
Definition page_down (v : Z) : Z := v - v mod PAGE_SIZE.

(** The pages a loop [p = start; while p < stop; p += PAGE_SIZE] visits. The callers' [stop] is
    a multiple of the page size, or the loop leaves at the first page outside the extent, so
    [p] stays below 2^64. *)
Definition pages_from (start stop : Z) : list Z := (λ i, start + i * PAGE_SIZE) <$> seqZ 0 (div_ceil (stop - start) PAGE_SIZE).

Section Calls.
Context {F : Type} (ops : MountFs F) (checks : bool) (host_ok : Z → bool) (now : Z).

Record Kst := mkK {
  k_pool : Pool; k_mem : GuestMemory; k_arena : Arena; k_cache : PageCache; k_vfs : MountTable (F := F);
  k_shm : gmap Z ShmSeg; k_sealed : list (Z * Z * Z); k_cur : Task
}.
Definition K (A : Type) : Type := ST Kst A.
Definition with_mem (s : Pool) (g : GuestMemory) (k : Kst) : Kst :=
  mkK s g (k_arena k) (k_cache k) (k_vfs k) (k_shm k) (k_sealed k) (k_cur k).
Definition with_arena (a : Arena) (k : Kst) : Kst :=
  mkK (k_pool k) (k_mem k) a (k_cache k) (k_vfs k) (k_shm k) (k_sealed k) (k_cur k).
Definition with_cache (c : PageCache) (k : Kst) : Kst :=
  mkK (k_pool k) (k_mem k) (k_arena k) c (k_vfs k) (k_shm k) (k_sealed k) (k_cur k).
Definition with_vfs (t : MountTable) (k : Kst) : Kst :=
  mkK (k_pool k) (k_mem k) (k_arena k) (k_cache k) t (k_shm k) (k_sealed k) (k_cur k).
Definition with_shm (m : gmap Z ShmSeg) (k : Kst) : Kst :=
  mkK (k_pool k) (k_mem k) (k_arena k) (k_cache k) (k_vfs k) m (k_sealed k) (k_cur k).
Definition with_sealed (l : list (Z * Z * Z)) (k : Kst) : Kst :=
  mkK (k_pool k) (k_mem k) (k_arena k) (k_cache k) (k_vfs k) (k_shm k) l (k_cur k).
Definition with_cur (c : Task) (k : Kst) : Kst :=
  mkK (k_pool k) (k_mem k) (k_arena k) (k_cache k) (k_vfs k) (k_shm k) (k_sealed k) c.
Definition set_brk (b : Z) (c : Task) : Task :=
  mkTask (mm c) b (heap_start c) (heap_limit c) (shared_maps c) (fds c) (soft c) (capable c) (mdwe c).
Definition set_maps (l : list SharedMap) (c : Task) : Task :=
  mkTask (mm c) (brk c) (heap_start c) (heap_limit c) l (fds c) (soft c) (capable c) (mdwe c).

Definition mem {A} (m : M A) : K A := λ k,
  match m (k_pool k, k_mem k) with Ok (a, (s, g)) => Ok (a, with_mem s g k) | Panic => Panic end.
Definition peek {A} (f : Kst → A) : K A := λ k, Ok (f k, k).
Definition set (f : Kst → Kst) : K unit := λ k, Ok (tt, f k).
Definition of_res {A} (r : res A) : K A := λ k, match r with Ok a => Ok (a, k) | Panic => Panic end.

(** [a + b], [a - b] and [div_ceil(PAGE_SIZE) * PAGE_SIZE] on [u64]. *)
Definition add (a b : Z) : K Z := of_res (u64_add checks a b).
Definition sub (a b : Z) : K Z :=
  of_res (if b <=? a then Ok (a - b) else if checks then Panic else Ok (wrap U64 (a - b))).
Definition page_up (v : Z) : K Z := of_res (u64_mul checks (div_ceil v PAGE_SIZE) PAGE_SIZE).

(** [Arena] calls on the task's area. *)
Definition arena_claim (addr len : Z) : K unit := k ← peek id; set (with_arena (claim (k_arena k) addr len)).
Definition arena_free (addr len : Z) : K unit := k ← peek id; set (with_arena (free_range (k_arena k) addr len)).
Definition arena_alloc (len : Z) : K (option Z) :=
  k ← peek id; let '(r, a) := alloc (k_arena k) len in _ ← set (with_arena a); mret r.

(** [address_space_exceeded], [memlock_allows]. *)
Definition address_space_exceeded (len : Z) : K bool :=
  k ← peek id;
  let limit := soft (k_cur k) RLIMIT_AS in
  mret (negb (limit =? RLIM_INFINITY) && (limit <? sat_add (mapped_bytes (k_mem k)) len)).
Definition memlock_allows (total : Z) : K bool :=
  k ← peek id;
  let limit := soft (k_cur k) RLIMIT_MEMLOCK in
  mret (capable (k_cur k) || (limit =? RLIM_INFINITY) || (total <=? limit)).

Definition is_err {A B} (r : A + B) : bool := match r with inl _ => true | inr _ => false end.

(** [sys_brk]. *)
Definition sys_brk (addr : Z) : K Z :=
  k ← peek id;
  let c := k_cur k in
  let old := as_i64 (brk c) in
  let finish := _ ← set (λ k, with_cur (set_brk addr (k_cur k)) k); mret (as_i64 addr) in
  if (addr =? 0) || (addr <? heap_start c) then mret old
  else if brk c <? addr then
    from ← page_up (brk c);
    to ← page_up addr;
    if heap_limit c <? to then mret old
    else
      size ← sub to (heap_start c);
      if soft c RLIMIT_DATA <? size then mret old
      else
      over ← address_space_exceeded (sat_sub to from);
      if (over : bool) then mret old
      else
        failed ← (if from <? to then r ← mem (mem_map from (to - from) prot_rw); mret (is_err r) else mret false);
        if (failed : bool) then mret old else finish
  else if addr <? brk c then
    from ← page_up addr;
    to ← page_up (brk c);
    _ ← (if from <? to then r ← mem (mem_unmap from (to - from)); mret tt else mret tt);
    finish
  else finish.

(** The file a mapping is made from: an error, none, or its path. *)
Definition file_source (k : Kst) (flags fd : Z) : Z + option str :=
  if has flags MAP_ANONYMOUS then inr None
  else match fd_get (fds (k_cur k)) (as_i32 fd) with
       | Some (File path _ _ _) =>
         if bool_decide (path = DEV_ZERO) && has flags MAP_SHARED then inr None else inr (Some path)
       | Some _ => inl EACCES
       | None => inl EBADF
       end.

(** The checks of the arguments; [None] when they pass. *)
Definition mmap_refused (k : Kst) (len prot flags : Z) : option Z :=
  let ty := Z.land flags MAP_TYPE in
  if len =? 0 then Some EINVAL
  else if negb ((ty =? 1) || (ty =? 2) || (ty =? MAP_SHARED_VALIDATE)) then Some EINVAL
  else if (ty =? MAP_SHARED_VALIDATE) && (beyond flags (Z.lor MAP_TYPE MAP_KNOWN) || has flags MAP_SYNC) then Some EOPNOTSUPP
  else if beyond prot (foldr Z.lor 0 [0x3f; 0x1000000; 0x2000000]) then Some EINVAL
  else if has (mdwe (k_cur k)) MDWE_REFUSE_EXEC_GAIN && (Z.land prot 6 =? 6) then Some EACCES
  else None.

(** Where the mapping goes: an error, or its base. *)
Definition fixed_place (addr flags : Z) : bool :=
  (has flags MAP_FIXED || has flags MAP_FIXED_NOREPLACE) && negb (addr =? 0).
Definition mmap_place (addr len flags : Z) : K (Z + Z) :=
  if fixed_place addr flags then
    let base := page_down addr in
    taken ← (if has flags MAP_FIXED_NOREPLACE then
               stop ← add base len;
               st_try (λ p, r ← mem (page_prot p); mret (match r with Some _ => Some tt | None => None end))
                 (pages_from base stop)
             else mret None);
    match taken with
    | Some _ => mret (inl EEXIST)
    | None => _ ← arena_claim base len; mret (inr base)
    end
  else
    r ← arena_alloc len;
    mret (match r with None => inl ENOMEM | Some base => inr base end).

(** The private copy of the file's bytes; the tail past its end stays zero. *)
Definition mmap_fill (base len : Z) (path : str) (offset : Z) : K Z :=
  k ← peek id;
  let file_len := match stat ops (k_vfs k) path with Some a => sat_sub (a_size a) offset | None => 0 end in
  let n := Z.min len file_len in
  _ ← (if host_ok n then mret tt else st_panic);
  let got := read_loop ops (Z.to_nat n) (k_vfs k) path offset n in
  got ← of_res (pc_after_read ops checks (k_cache k) (k_vfs k) path offset got (phys (k_pool k)));
  r ← mem (write_init base (got ++ replicate (Z.to_nat n - length got) 0));
  mret (if is_err r then err ENOMEM else as_i64 base).

Definition mmap_shared (base len : Z) (path : str) (offset prot : Z) : K Z :=
  k ← peek id;
  r ← mem (pc_map_shared ops checks host_ok (k_cache k) (k_vfs k) path offset base len prot);
  let '(r, c) := r in
  _ ← set (with_cache c);
  match r with
  | inl e => mret e
  | inr _ =>
    _ ← (if prot_contains prot Prot_WRITE then
           set (λ k, with_cur (set_maps (shared_maps (k_cur k) ++ [mkShared base len path offset]) (k_cur k)) k)
         else mret tt);
    mret (as_i64 base)
  end.

(** [sys_mmap_unlocked] and [sys_mmap]. *)
Definition sys_mmap_unlocked (addr len prot flags fd offset : Z) : K Z :=
  over ← address_space_exceeded len;
  if (over : bool) then mret (err ENOMEM)
  else
    k ← peek id;
    match mmap_refused k len prot flags with
    | Some e => mret (err e)
    | None =>
      len ← page_up len;
      let prot := Z.land prot 7 in
      match file_source k flags fd with
      | inl e => mret (err e)
      | inr src =>
        if match src with Some _ => negb (is_multiple_of offset PAGE_SIZE) | None => false end then mret (err EINVAL)
        else
          place ← mmap_place addr len flags;
          match place, src with
          | inl e, _ => mret (err e)
          | inr base, Some path =>
            if has flags MAP_SHARED then mmap_shared base len path offset prot
            else
              r ← mem (mem_map base len prot);
              if is_err r then mret (err ENOMEM) else mmap_fill base len path offset
          | inr base, None =>
            r ← mem (if has flags MAP_SHARED && prot_contains prot Prot_WRITE then map_shared_anon base len prot
                     else mem_map base len prot);
            mret (if is_err r then err ENOMEM else as_i64 base)
          end
      end
    end.
Definition sys_mmap (addr len prot flags fd offset : Z) : K Z :=
  rounded ← page_up len;
  k ← peek id;
  let locking := has flags MAP_LOCKED || locks_future (k_mem k) in
  ok ← (if locking then memlock_allows (sat_add (locked_bytes (k_mem k)) rounded) else mret true);
  if negb ok then mret (err EAGAIN)
  else
    r ← sys_mmap_unlocked addr len prot flags fd offset;
    _ ← (if locking && (0 <=? r) then mem (set_locked r rounded true) else mret tt);
    mret r.

(** * Write-back and unmapping *)

(** [flush_shared_maps]. *)
Definition overlaps (lo hi : Z) (m : SharedMap) : K bool :=
  if m_base m <? hi then stop ← add (m_base m) (m_len m); mret (lo <? stop) else mret false.
Definition flush1 (hit_all : bool) (lo hi : Z) (m : SharedMap) : K unit :=
  hit ← (if hit_all then mret true else overlaps lo hi m);
  if negb hit then mret tt
  else
    k ← peek id;
    let size := match stat ops (k_vfs k) (m_path m) with Some a => a_size a | None => m_len m end in
    let writable := Z.min (sat_sub size (m_offset m)) (m_len m) in
    if writable =? 0 then mret tt
    else
      r ← mem (read_vec host_ok (m_base m) writable);
      match r with
      | inl _ => mret tt
      | inr bytes => set (with_vfs (Mount.write_at ops now (k_vfs k) (m_path m) (m_offset m) bytes).2)
      end.
Fixpoint kept_maps (lo hi : Z) (l : list SharedMap) : K (list SharedMap) :=
  match l with
  | [] => mret []
  | m :: l => hit ← overlaps lo hi m; r ← kept_maps lo hi l; mret (if (hit : bool) then r else m :: r)
  end.
Definition flush_shared_maps (addr len : Z) : K unit :=
  k ← peek id;
  let hit_all := len =? 0 in
  let hi := sat_add addr len in
  let maps := shared_maps (k_cur k) in
  _ ← st_iter (flush1 hit_all addr hi) maps;
  kept ← (if hit_all then mret [] else kept_maps addr hi maps);
  set (λ k, with_cur (set_maps kept (k_cur k)) k).

(** [Ipc::unmapped]: segments attached in the range are detached, and those marked for removal
    go with their last attachment. *)
Definition detach (mm addr stop : Z) (s : ShmSeg) : ShmSeg :=
  let size := next_multiple_of (sg_size s) PAGE_SIZE in
  mkShm (sg_size s) (sg_frames s)
    (filter (λ x, ¬ (x.1 = mm ∧ x.2 < stop ∧ addr < x.2 + size)) (sg_attaches s)) (sg_removed s).
Definition is_dead (s : ShmSeg) : bool := sg_removed s && bool_decide (sg_attaches s = []).
Definition shm_unmapped (addr len : Z) : K unit :=
  k ← peek id;
  let shm := detach (mm (k_cur k)) addr (sat_add addr len) <$> k_shm k in
  let dead := filter (λ x, is_dead x.2 = true) (bt_list shm) in
  _ ← set (with_shm (foldl (λ m x, delete x.1 m) shm dead));
  st_iter (λ x, mem (pool (release_frames (sg_frames x.2)))) dead.

Definition gc : K unit := k ← peek id; c ← mem (pool (pc_gc (k_cache k))); set (with_cache c).

(** [sys_munmap]. *)
Definition sys_munmap (addr len : Z) : K Z :=
  if len =? 0 then mret (err EINVAL)
  else
    len ← page_up len;
    let base := page_down addr in
    k ← peek id;
    _ ← (if bool_decide (shared_maps (k_cur k) = []) then mret tt else flush_shared_maps base len);
    _ ← mem (mem_unmap base len);
    _ ← shm_unmapped base len;
    _ ← gc;
    _ ← arena_free base len;
    mret 0.

(** [sys_msync]. *)
Definition sys_msync (addr len flags : Z) : K Z :=
  if beyond flags 7 || (has flags 4 && has flags 1) then mret (err EINVAL)
  else
    k ← peek id;
    let saved := shared_maps (k_cur k) in
    if bool_decide (saved = []) then mret 0
    else
      len ← page_up len;
      _ ← flush_shared_maps (page_down addr) (Z.max len PAGE_SIZE);
      _ ← set (λ k, with_cur (set_maps saved (k_cur k)) k);
      mret 0.

(** * Protection and sealing *)

(** [sys_mprotect]. *)
Definition sys_mprotect (addr len prot : Z) : K Z :=
  if len =? 0 then mret 0
  else
    len ← page_up len;
    r ← mem (mem_protect (page_down addr) len (Z.land prot 7));
    mret (if is_err r then err ENOMEM else 0).

(** [is_sealed], [sys_mseal]. *)
Definition is_sealed (k : Kst) (addr len : Z) : bool :=
  existsb (λ '(m, s, e), (m =? mm (k_cur k)) && (s <? sat_add addr len) && (addr <? e)) (k_sealed k).
Definition no_page (p : Z) : K (option unit) :=
  r ← mem (page_prot p); mret (match r with Some _ => None | None => Some tt end).
Definition sys_mseal (addr len flags : Z) : K Z :=
  if negb (flags =? 0) || negb (is_multiple_of addr PAGE_SIZE) then mret (err EINVAL)
  else
    len ← page_up len;
    match checked_add64 addr len with
    | None => mret (err EINVAL)
    | Some stop =>
      hole ← st_try no_page (pages_from addr stop);
      match hole with
      | Some _ => mret (err ENOMEM)
      | None =>
        _ ← (if 0 <? len then set (λ k, with_sealed (k_sealed k ++ [(mm (k_cur k), addr, stop)]) k) else mret tt);
        mret 0
      end
    end.

(** [sys_mprotect_sealed]. Its loop steps to the last page of the address space when the range
    ends there; adding to that overflows, which panics, or wraps and does not end: both are
    [Panic] here. *)
Definition gains_exec (p : Z) : K (option unit) :=
  r ← mem (page_prot p); mret (match r with Some q => if Z.land q 4 =? 0 then Some tt else None | None => None end).
Definition sys_mprotect_sealed (addr len prot : Z) : K Z :=
  k ← peek id;
  if is_sealed k addr len then mret (err EPERM)
  else if has (mdwe (k_cur k)) MDWE_REFUSE_EXEC_GAIN && has prot 4 then
    if has prot 2 then mret (err EACCES)
    else
      let stop := sat_add addr len in
      gain ← st_try gains_exec (pages_from (page_down addr) stop);
      match gain with
      | Some _ => mret (err EACCES)
      | None => if U64 - PAGE_SIZE <? stop then st_panic else sys_mprotect addr len prot
      end
  else sys_mprotect addr len prot.

(** * [mremap] *)

(** [range_is_mapped], [range_is_free]: what a read of one byte says. *)
Definition unmapped_at (p : Z) : K bool :=
  r ← mem (read_vec host_ok p 1); mret (match r with inl (Unmapped _) => true | _ => false end).
Definition range_is_mapped (start stop : Z) : K bool :=
  r ← st_try (λ p, u ← unmapped_at p; mret (if (u : bool) then Some tt else None)) (pages_from start stop);
  mret (match r with Some _ => false | None => true end).
Definition range_is_free (start stop : Z) : K bool :=
  r ← st_try (λ p, u ← unmapped_at p; mret (if (u : bool) then None else Some tt)) (pages_from start stop);
  mret (match r with Some _ => false | None => true end).

(** [mremap_move]. *)
Definition moved_map (old new new_size : Z) (m : SharedMap) : SharedMap :=
  if m_base m =? old then mkShared new (Z.min (m_len m) new_size) (m_path m) (m_offset m) else m.
Definition mremap_move (old old_size new new_size prot : Z) (dontunmap : bool) : K (Z + unit) :=
  let keep := Z.min old_size new_size in
  frames ← mem (shared_frames old keep);
  failed ← match frames with
           | Some frames =>
             r ← mem (map_frames new frames prot);
             if is_err r then mret true
             else if keep <? new_size then
               at_ ← add new keep; r ← mem (map_shared_anon at_ (new_size - keep) prot); mret (is_err r)
             else mret false
           | None =>
             r ← mem (mem_map new new_size prot);
             if is_err r then mret true
             else
               d ← mem (read_vec host_ok old keep);
               _ ← match d with inr data => r ← mem (write_init new data); mret tt | inl _ => mret tt end;
               mret false
           end;
  if (failed : bool) then mret (inl (err ENOMEM))
  else
    _ ← (if dontunmap then r ← mem (mem_map old old_size prot); mret tt
         else r ← mem (mem_unmap old old_size); mret tt);
    _ ← set (λ k, with_cur (set_maps (moved_map old new new_size <$> shared_maps (k_cur k)) (k_cur k)) k);
    mret (inr tt).

(** The move, and the old range given back. *)
Definition mremap_to (old old_size new new_size prot : Z) (dontunmap : bool) : K Z :=
  r ← mremap_move old old_size new new_size prot dontunmap;
  match r with
  | inl e => mret e
  | inr _ => _ ← (if dontunmap then mret tt else arena_free old old_size); mret (as_i64 new)
  end.

(** [sys_mremap]. *)
Definition mremap_grow (old old_size new_size flags prot : Z) (dontunmap : bool) : K Z :=
  extra ← add old old_size;
  extra_len ← sub new_size old_size;
  in_place ← (if dontunmap then mret false
              else
                k ← peek id;
                if negb (is_free (k_arena k) extra extra_len) then mret false
                else
                  stop ← add extra extra_len;
                  f ← range_is_free extra stop;
                  if negb f then mret false else r ← mem (mem_map extra extra_len prot); mret (negb (is_err r)));
  if (in_place : bool) then _ ← arena_claim extra extra_len; mret (as_i64 old)
  else if negb (has flags MREMAP_MAYMOVE) then mret (err ENOMEM)
  else
    size ← page_up new_size;
    base ← arena_alloc size;
    match base with
    | None => mret (err ENOMEM)
    | Some base => mremap_to old old_size base new_size prot dontunmap
    end.
Definition sys_mremap (old old_size new_size flags new_addr : Z) : K Z :=
  if (old_size =? 0) || (new_size =? 0) || negb (is_multiple_of old PAGE_SIZE) then mret (err EINVAL)
  else
    over ← address_space_exceeded (sat_sub new_size old_size);
    if (over : bool) then mret (err ENOMEM)
    else if beyond flags 7 || (has flags 6 && negb (has flags MREMAP_MAYMOVE)) then mret (err EINVAL)
    else
      old_size ← page_up old_size;
      new_size ← page_up new_size;
      let dontunmap := has flags MREMAP_DONTUNMAP in
      if dontunmap && negb (old_size =? new_size) then mret (err EINVAL)
      else
        stop ← add old old_size;
        whole ← range_is_mapped old stop;
        if negb whole then mret (err EFAULT)
        else
          pr ← mem (page_prot old);
          let prot := default prot_rw pr in
          if has flags MREMAP_FIXED then
            if negb (is_multiple_of new_addr PAGE_SIZE) then mret (err EINVAL)
            else
              clash ← (if new_addr <? stop then new_stop ← add new_addr new_size; mret (old <? new_stop) else mret false);
              if (clash : bool) then mret (err EINVAL)
              else _ ← arena_claim new_addr new_size; mremap_to old old_size new_addr new_size prot dontunmap
          else if (new_size <=? old_size) && negb dontunmap then
            tail ← add old new_size;
            let freed := old_size - new_size in
            _ ← mem (mem_unmap tail freed);
            _ ← arena_free tail freed;
            mret (as_i64 old)
          else mremap_grow old old_size new_size flags prot dontunmap.

(** * Advice, residency, locking *)

(** [sys_madvise]. *)
Definition MADV_DONTNEED : Z := 4.
Definition MADV_FREE : Z := 8.
Definition MADV_REMOVE : Z := 9.
Definition MADV_DONTFORK : Z := 10.
Definition MADV_DOFORK : Z := 11.
Definition MADV_WIPEONFORK : Z := 18.
Definition MADV_KEEPONFORK : Z := 19.
Definition advice_known (a : Z) : bool :=
  ((0 <=? a) && (a <=? 4)) || ((8 <=? a) && (a <=? 25)) || (a =? 100) || (a =? 101).
Definition zero_page (advice p : Z) : K unit :=
  sh ← mem (shared_phys p);
  fb ← mem (is_file_backed p);
  if negb fb && (bool_decide (sh = None) || (advice =? MADV_REMOVE)) then
    r ← mem (mem_write p (replicate FRAME_SZ 0)); mret tt
  else mret tt.
Definition sys_madvise (addr len advice : Z) : K Z :=
  if negb (advice_known advice) || negb (is_multiple_of addr PAGE_SIZE) then mret (err EINVAL)
  else if len =? 0 then mret 0
  else
    stop ← page_up (sat_add addr len);
    whole ← range_is_mapped addr stop;
    if negb whole then mret (err ENOMEM)
    else if one_of advice [MADV_DONTNEED; MADV_FREE; MADV_REMOVE] then
      _ ← st_iter (zero_page advice) (pages_from addr stop); mret 0
    else if one_of advice [MADV_DONTFORK; MADV_DOFORK; MADV_WIPEONFORK; MADV_KEEPONFORK] then
      let policy := if advice =? MADV_DONTFORK then FORK_DONT else if advice =? MADV_WIPEONFORK then FORK_WIPE else 0 in
      len ← sub stop addr;
      r ← mem (set_fork_policy addr len policy);
      mret (if is_err r then err ENOMEM else 0)
    else mret 0.

(** [sys_mincore]. *)
Fixpoint residency (ps : list Z) : K (option (list Z)) :=
  match ps with
  | [] => mret (Some [])
  | p :: ps =>
    r ← mem (page_prot p);
    match r with
    | None => mret None
    | Some _ => b ← mem (is_resident p); rest ← residency ps; mret (cons (Z.b2z b) <$> rest)
    end
  end.
Definition sys_mincore (addr len vec : Z) : K Z :=
  if len =? 0 then mret 0
  else if negb (is_multiple_of addr PAGE_SIZE) then mret (err EINVAL)
  else match checked_add64 addr len with
       | None => mret (err ENOMEM)
       | Some stop =>
         if 2 ^ 57 <=? stop then mret (err ENOMEM)
         else
           stop ← page_up stop;
           r ← residency (pages_from (page_down addr) stop);
           match r with
           | None => mret (err ENOMEM)
           | Some bs => w ← mem (mem_write vec bs); mret (if is_err w then err EFAULT else 0)
           end
       end.

(** [sys_mlock] ([lock]: not [munlock]; [flagged]: [mlock2]) and [sys_mlockall]. *)
Definition sys_mlock (lock flagged : bool) (addr len flags : Z) : K Z :=
  if flagged && beyond flags 1 then mret (err EINVAL)
  else match checked_add64 addr len with
       | None => mret (err EINVAL)
       | Some stop =>
         k ← peek id;
         if lock && (soft (k_cur k) RLIMIT_MEMLOCK =? 0) && negb (capable (k_cur k)) then mret (err EPERM)
         else
           hole ← st_try no_page (pages_from (page_down addr) stop);
           match hole with
           | Some _ => mret (err ENOMEM)
           | None =>
             ok ← (if lock then
                     n ← of_res (unlocked_bytes_in (k_mem k) addr len);
                     total ← add (locked_bytes (k_mem k)) n;
                     memlock_allows total
                   else mret true);
             if negb ok then mret (err ENOMEM) else _ ← mem (set_locked addr len lock); mret 0
           end
       end.
Definition sys_mlockall (flags : Z) : K Z :=
  if beyond flags 7 || negb (has flags 3) then mret (err EINVAL)
  else
    k ← peek id;
    if (soft (k_cur k) RLIMIT_MEMLOCK =? 0) && negb (capable (k_cur k)) then mret (err EPERM)
    else
      let current := has flags 1 in
      ok ← (if current then memlock_allows (mapped_bytes (k_mem k)) else mret true);
      if negb ok then mret (err ENOMEM) else _ ← mem (lock_all current (has flags 2)); mret 0.

(** * The calls as the dispatcher makes them *)

Inductive Call :=
| CBrk (addr : Z)
| CMmap (addr len prot flags fd offset : Z)
| CMunmap (addr len : Z)
| CMprotect (addr len prot : Z)
| CMremap (old old_size new_size flags new_addr : Z)
| CMadvise (addr len advice : Z)
| CMincore (addr len vec : Z)
| CMsync (addr len flags : Z)
| CMseal (addr len flags : Z)
| CMlock (addr len : Z)
| CMlock2 (addr len flags : Z)
| CMunlock (addr len : Z)
| CMlockall (flags : Z)
| CMunlockall.
Definition dispatch (c : Call) : K Z :=
  match c with
  | CBrk a => sys_brk a
  | CMmap a l p f fd o => sys_mmap a l p f fd o
  | CMunmap a l => k ← peek id; if is_sealed k a l then mret (err EPERM) else sys_munmap a l
  | CMprotect a l p => sys_mprotect_sealed a l p
  | CMremap o os ns f na => k ← peek id; if is_sealed k o os then mret (err EPERM) else sys_mremap o os ns f na
  | CMadvise a l v => sys_madvise a l v
  | CMincore a l v => sys_mincore a l v
  | CMsync a l f => sys_msync a l f
  | CMseal a l f => sys_mseal a l f
  | CMlock a l => sys_mlock true false a l 0
  | CMlock2 a l f => sys_mlock true true a l f
  | CMunlock a l => sys_mlock false false a l 0
  | CMlockall f => sys_mlockall f
  | CMunlockall => _ ← mem unlock_all; mret 0
  end.
End Calls.
Arguments Kst F : clear implicits.
