(* ===== verification/MemTrack.v ===== *)
(** Which pages a computation on an address space maps and unmaps: a relational logic over the
    operations of [GuestMem], used by the theorems on the memory calls. *)
From S2P Require Import Prelude Phys PageTable PageVec PageLocks GuestMem GuestSpec.
From stdpp Require Import base numbers gmap list.
Local Open Scope Z_scope.

(** * Which pages a computation maps

    [tracks R m]: every run of [m] that returns relates the pages mapped before to those mapped
    after by [R], over an extent of [sz] bytes at [b]. *)
Section Track.
Context (b sz : Z).

Definition here (g : GuestMemory) : Prop := base g = b ∧ msize g = sz ∧ pv_for g (mapped g).
Definition Track : Type := (Z → bool) → (Z → bool) → Prop.
Definition tracks {A} (R : Track) (m : M A) : Prop := ∀ s g a s' g',
  here g → m (s, g) = Ok (a, (s', g')) → here g' ∧ R (pv_val (mapped g)) (pv_val (mapped g')).

(** Only pages of [N] are newly mapped. *)
Definition only (N : Z → Prop) : Track := λ v v', ∀ q, 0 ≤ q → v' q = true → v q = true ∨ N q.
Definition none (q : Z) : Prop := False.

Lemma tracks_bind {A B} R1 R2 (R : Track) (m : M A) (k : A → M B) :
  tracks R1 m → (∀ a, tracks R2 (k a)) → (∀ u v w, R1 u v → R2 v w → R u w) → tracks R (m ≫= k).
Proof.
  intros Hm Hk HR s g a s' g' Hg E. unfold mbind, ST_bind in E. destruct (m (s, g)) as [[x [s1 g1]]|] eqn:E1; [|done].
  destruct (Hm _ _ _ _ _ Hg E1) as [H1 R1']. destruct (Hk _ _ _ _ _ _ H1 E) as [H2 R2']. split; [done|by eapply HR].
Qed.
Lemma tracks_weaken {A} (R R' : Track) (m : M A) : tracks R m → (∀ u v, R u v → R' u v) → tracks R' m.
Proof. intros H HR s g a s' g' Hg E. destruct (H _ _ _ _ _ Hg E). split; [done|by apply HR]. Qed.

Lemma only_trans N u v w : only N u v → only N v w → only N u w.
Proof. intros H1 H2 q Hq Hw. destruct (H2 q Hq Hw) as [Hv|Hn]; [by apply H1|by right]. Qed.
Lemma only_mono (N N' : Z → Prop) u v : (∀ q, N q → N' q) → only N u v → only N' u v.
Proof. intros HN H q Hq Hv. destruct (H q Hq Hv); [by left|right; by apply HN]. Qed.
Lemma only_refl N u : only N u u.
Proof. intros q _ H. by left. Qed.

(** The rules. *)
Definition grows {A} (N : Z → Prop) (m : M A) : Prop := tracks (only N) m.
Lemma grows_mono {A} (N N' : Z → Prop) (m : M A) : (∀ q, N q → N' q) → grows N m → grows N' m.
Proof. intros HN H. eapply tracks_weaken; [exact H|]. intros u v. by apply only_mono. Qed.
Lemma grows_ret {A} N (a : A) : grows N (mret a).
Proof. intros s g x s' g' Hg [= <- <- <-]. split; [done|apply only_refl]. Qed.
Lemma grows_bind {A B} N (m : M A) (k : A → M B) : grows N m → (∀ a, grows N (k a)) → grows N (m ≫= k).
Proof. intros H1 H2. eapply tracks_bind; [exact H1|exact H2|]. apply only_trans. Qed.
Lemma grows_bindE {A B} N (m : M (MemError + A)) (k : A → M (MemError + B)) :
  grows N m → (∀ a, grows N (k a)) → grows N (bindE m k).
Proof. intros H1 H2. apply grows_bind; [done|]. intros [e|a]; [apply grows_ret|apply H2]. Qed.
Lemma grows_self {A} N (k : GuestMemory → M A) : (∀ g, here g → grows N (k g)) → grows N (self ≫= k).
Proof. intros H s g a s' g' Hg E. exact (H g Hg s g a s' g' Hg E). Qed.
Lemma grows_get N : grows N self.
Proof. intros s g a s' g' Hg [= <- <- <-]. split; [done|apply only_refl]. Qed.
Lemma grows_pool {A} N (m : ST Pool A) : grows N (pool m).
Proof.
  intros s g a s' g' Hg E. unfold pool in E. destruct (m s) as [[x s1]|]; [|done]. simplify_eq.
  split; [done|apply only_refl].
Qed.
Lemma grows_lift {A} N (r : res A) : grows N (lift r).
Proof. intros s g a s' g' Hg E. unfold lift in E. destruct r; [|done]. simplify_eq. split; [done|apply only_refl]. Qed.
Lemma grows_panic {A} N : grows (A := A) N st_panic.
Proof. by intros s g a s' g' Hg E. Qed.
(** An update of another field. *)
Lemma grows_upd N f : (∀ g, base (f g) = base g ∧ msize (f g) = msize g ∧ mapped (f g) = mapped g) → grows N (upd f).
Proof.
  intros Hf s g a s' g' (H1 & H2 & H3) [= <- <- <-]. destruct (Hf g) as (E1 & E2 & E3). split.
  - split_and!; [congruence|congruence|]. unfold pv_for, npages in *. rewrite E2, E3. done.
  - rewrite E3. apply only_refl.
Qed.
Lemma grows_iter {A} N (f : A → M unit) l : (∀ x, x ∈ l → grows N (f x)) → grows N (st_iter f l).
Proof.
  induction l as [|x l IH]; intros H; simpl; [apply grows_ret|].
  apply grows_bind; [apply H; by left|]. intros _. apply IH. intros y Hy. apply H. by right.
Qed.
Lemma grows_try {A E} N (f : A → M (option E)) l : (∀ x, x ∈ l → grows N (f x)) → grows N (st_try f l).
Proof.
  induction l as [|x l IH]; intros H; simpl; [apply grows_ret|].
  apply grows_bind; [apply H; by left|]. intros [e|]; [apply grows_ret|]. apply IH. intros y Hy. apply H. by right.
Qed.

(** One page is marked. *)
Definition marks (p : Z) (x : bool) : Track := λ v v', ∀ q, 0 ≤ q → v' q = if decide (q = p) then x else v q.
Lemma here_marked g p x v n :
  here g → 0 ≤ p → pv_set (mapped g) p x = Ok v →
  here (with_mapped v n g) ∧ marks p x (pv_val (mapped g)) (pv_val (mapped (with_mapped v n g))).
Proof.
  intros (H1 & H2 & W & L) Hp E. assert (p < pv_len (mapped g)) as Hlt.
  { unfold pv_set in E. destruct (Z.ltb_spec p (pv_len (mapped g))); [done|discriminate]. }
  destruct (pv_set_spec (mapped g) p x W ltac:(lia)) as (v' & E' & W' & L' & _ & V). rewrite E in E'. simplify_eq.
  split; [|exact V]. split_and!; [done|done|]. split; [done|]. change (pv_len v' = npages g). congruence.
Qed.
Lemma note_mapped_tracks p : 0 ≤ p → tracks (marks p true) (note_mapped p).
Proof.
  intros Hp s g a s' g' Hg E. unfold note_mapped, get_mapped, lift, mbind, ST_bind, self, upd in E.
  destruct (pv_index (mapped g) p); [|done]. destruct (pv_set (mapped g) p true) as [v|] eqn:Ev; [|done].
  simplify_eq. by apply here_marked.
Qed.
Lemma note_unmapped_tracks p : 0 ≤ p → tracks (marks p false) (note_unmapped p).
Proof.
  intros Hp s g a s' g' Hg E. unfold note_unmapped, get_mapped, lift, mbind, ST_bind, self, upd in E.
  destruct (pv_index (mapped g) p); [|done]. destruct (pv_set (mapped g) p false) as [v|] eqn:Ev; [|done].
  destruct (usub _ _); [|done]. simplify_eq. by apply here_marked.
Qed.
Lemma marks_only p x (N : Z → Prop) u v : (x = true → N p) → marks p x u v → only N u v.
Proof.
  intros HN H q Hq Hv. rewrite (H q Hq) in Hv. destruct (decide (q = p)) as [->|]; [right; by apply HN|by left].
Qed.
Lemma grows_note_mapped (N : Z → Prop) p : 0 ≤ p → N p → grows N (note_mapped p).
Proof. intros Hp HN. eapply tracks_weaken; [by apply note_mapped_tracks|]. intros u v. by apply marks_only. Qed.
Lemma grows_note_unmapped N p : 0 ≤ p → grows N (note_unmapped p).
Proof. intros Hp. eapply tracks_weaken; [by apply note_unmapped_tracks|]. intros u v. by apply marks_only. Qed.
End Track.

(** Runs the rules over a computation, by its head. *)
Create HintDb grows.
Ltac grow :=
  repeat match goal with
  | |- grows _ _ _ (mret _) => apply grows_ret
  | |- grows _ _ _ (pool _) => apply grows_pool
  | |- grows _ _ _ (lift _) => apply grows_lift
  | |- grows _ _ _ st_panic => apply grows_panic
  | |- grows _ _ _ (upd _) => apply grows_upd; intros ?; done
  | |- grows _ _ _ (mbind _ self) => apply grows_self; intros ?g ?Hg
  | |- grows _ _ _ (bindE _ _) => apply grows_bindE; [|intros ?]
  | |- grows _ _ _ (mbind _ _) => apply grows_bind; [|intros ?]
  | |- grows _ _ _ (if ?b then _ else _) => destruct b eqn:?
  | |- grows _ _ _ (match ?x with _ => _ end) => destruct x eqn:?
  | |- grows _ _ _ _ => solve [eauto with grows]
  end.

Section Ops.
Context (b sz : Z).
Abbreviation here := (here b sz).
Abbreviation grows := (grows b sz).

Lemma grows_get_mapped N p : grows N (get_mapped p).
Proof. unfold get_mapped. grow. Qed.
Lemma grows_get_prot N p : grows N (get_prot p).
Proof. unfold get_prot. grow. Qed.
Lemma grows_get_shared N p : grows N (get_shared_anon p).
Proof. unfold get_shared_anon. grow. Qed.
Lemma grows_set_prot N p x : grows N (set_prot p x).
Proof. unfold set_prot. grow. Qed.
Lemma grows_set_file N p x : grows N (set_file_backed p x).
Proof. unfold set_file_backed. grow. Qed.
Lemma grows_set_shared N p x : grows N (set_shared_anon p x).
Proof. unfold set_shared_anon. grow. Qed.
Lemma grows_drop_policy N p : grows N (drop_fork_policy p).
Proof. unfold drop_fork_policy. grow. Qed.
Lemma grows_drop_locks N x y : grows N (drop_locks x y).
Proof. unfold drop_locks. grow. Qed.
End Ops.
#[export] Hint Resolve grows_get_mapped grows_get_prot grows_get_shared grows_set_prot grows_set_file grows_set_shared
  grows_drop_policy grows_drop_locks : grows.

Section Mapping.
Context (b sz : Z).
Abbreviation here := (here b sz).
Abbreviation grows := (grows b sz).

(** The pages [addr, len) spans, in an extent of [sz] bytes at [b]. *)
Definition spans (addr len q : Z) : Prop := b ≤ addr ∧ addr + len ≤ b + sz ∧ (addr - b) / PAGE_SIZE ≤ q ≤ (addr + len - 1 - b) / PAGE_SIZE.
Definition paged (x : Z) : Prop := x mod PAGE_SIZE = 0.

Lemma page_range_spans g addr len first last q :
  here g → 0 < len → page_range g addr len = inr (first, last) → 0 ≤ first ∧ (first ≤ q ≤ last → spans addr len q).
Proof.
  intros (Hb & Hs & _) Hl E. unfold spans. rewrite <- Hb, <- Hs.
  unfold page_range in E. destruct (Z.eqb_spec len 0); [lia|].
  destruct (checked_add64 addr (len - 1)) as [stop|] eqn:Ec; [|done].
  unfold checked_add64 in Ec. destruct (Z.ltb_spec (addr + (len - 1)) U64); [|done]. simplify_eq.
  unfold offset_ok in E. destruct ((addr <? base g) || _) eqn:E1; [done|].
  destruct ((addr + (len - 1) <? base g) || _) eqn:E2; [done|]. simplify_eq.
  split; [unfold PAGE_SIZE; apply Z.div_pos; lia|]. intros Hq. split_and!; [lia|lia|lia|].
  replace (addr + len - 1 - base g) with (addr + (len - 1) - base g) by lia. lia.
Qed.
(** On page boundaries a span is the range itself. *)
Lemma span_range_page g addr len :
  0 < len < U64 → paged addr → paged len → span_range g addr len = page_range g addr len.
Proof.
  intros Hl Pa Pl. unfold span_range. replace (addr - addr mod PAGE_SIZE) with addr by (unfold paged in Pa; lia).
  assert (round_up (wrap U64 (addr + len)) PAGE_SIZE = wrap U64 (addr + len)) as ->.
  { unfold round_up, wrap, div_ceil, paged, PAGE_SIZE, U64 in *. divlia. }
  f_equal. unfold wrap. rewrite Zminus_mod_idemp_l. replace (addr + len - addr) with len by lia. apply Z.mod_small. lia.
Qed.
Lemma span_range_spans g addr len first last q :
  here g → 0 ≤ addr → 0 < len < U64 → paged addr → paged len →
  span_range g addr len = inr (first, last) → 0 ≤ first ∧ (first ≤ q ≤ last → spans addr len q).
Proof.
  intros Hg Ha Hl Pa Pl E. rewrite span_range_page in E by done.
  apply (page_range_spans g addr len); [exact Hg|lia|exact E].
Qed.
Lemma elem_pages (first last q : Z) : q ∈ seqZ first (last + 1 - first) ↔ first ≤ q ≤ last.
Proof. rewrite elem_of_seqZ. lia. Qed.

Lemma grows_map_page (N : Z → Prop) prot p : 0 ≤ p → N p → grows N (map_page prot p).
Proof. intros Hp HN. unfold map_page. grow. all: try (by apply grows_note_mapped). Qed.
Lemma grows_map addr len prot :
  0 ≤ addr → 0 ≤ len < U64 → paged addr → paged len → grows (spans addr len) (mem_map addr len prot).
Proof.
  intros Ha Hl Pa Pl. unfold mem_map. destruct (Z.eqb_spec len 0); [grow|]. apply grows_self. intros g Hg.
  destruct (span_range g addr len) as [e|[first last]] eqn:E; [grow|]. grow. apply grows_iter. intros p Hp%elem_pages.
  destruct (span_range_spans g addr len first last p Hg Ha ltac:(lia) Pa Pl E) as [H1 H2].
  apply grows_map_page; [lia|by apply H2].
Qed.
(** A mapping that is refused changes nothing. *)
Lemma map_refused addr len prot s g e s' g' :
  mem_map addr len prot (s, g) = Ok (inl e, (s', g')) → s' = s ∧ g' = g.
Proof.
  unfold mem_map. destruct (len =? 0); [done|]. unfold mbind, ST_bind, self.
  destruct (span_range g addr len) as [e'|[first last]]; [by intros [= _ <- <-]|].
  destruct (st_iter _ _ _) as [[[] [s1 g1]]|]; [|done]. destruct (drop_locks _ _ _) as [[[] [s2 g2]]|]; done.
Qed.

(** Computations that map nothing. *)
Lemma grows_page_prot N p : grows N (page_prot p).
Proof. unfold page_prot. grow. Qed.
Lemma grows_shared_phys N p : grows N (shared_phys p).
Proof. unfold shared_phys. grow. Qed.
Lemma grows_shared_frames_loop N fuel : ∀ p stop out, grows N (shared_frames_loop fuel p stop out).
Proof.
  induction fuel as [|fuel IH]; intros p stop out; simpl; destruct (stop <=? p); [apply grows_ret|apply grows_ret|apply grows_ret|].
  apply grows_bind; [apply grows_shared_phys|]. intros [pa|]; [apply IH|apply grows_ret].
Qed.
Lemma grows_shared_frames N addr len : grows N (shared_frames addr len).
Proof. unfold shared_frames. destruct (checked_add64 _ _); [apply grows_shared_frames_loop|apply grows_ret]. Qed.
Lemma grows_is_file_backed N p : grows N (is_file_backed p).
Proof. unfold is_file_backed. grow. Qed.
Lemma grows_is_resident N p : grows N (is_resident p).
Proof. unfold is_resident. grow. Qed.
Lemma grows_check_page N g need p : grows N (check_page g need p).
Proof. unfold check_page. grow. Qed.
Lemma grows_check N addr len need : grows N (check addr len need).
Proof.
  unfold check. grow. apply grows_try. intros ? _. apply grows_check_page.
Qed.
Lemma grows_mem_read N addr len : grows N (mem_read addr len).
Proof. unfold mem_read. destruct (len =? 0); [grow|]. apply grows_bindE; [apply grows_check|]. intros _. grow. Qed.
Lemma grows_read_vec N host_ok addr len : grows N (read_vec host_ok addr len).
Proof.
  unfold read_vec. destruct (len =? 0); [grow|]. apply grows_bindE; [apply grows_check|]. intros _.
  destruct (host_ok len); [apply grows_mem_read|grow].
Qed.
Lemma grows_touch_page N p : grows N (touch_page p).
Proof. unfold touch_page. grow. Qed.
Lemma grows_touch_pages N ps : ∀ c, grows N (touch_pages ps c).
Proof.
  induction ps as [|p ps IH]; intros c; simpl; [grow|]. apply grows_bindE; [apply grows_touch_page|]. intros x. apply IH.
Qed.
Lemma grows_copy_in N addr buf : grows N (copy_in addr buf).
Proof.
  unfold copy_in. apply grows_self. intros g Hg. destruct (page_range _ _ _) as [e|[f l]]; [grow|].
  apply grows_bindE; [apply grows_touch_pages|]. intros _. grow.
Qed.
Lemma grows_mem_write N addr buf : grows N (mem_write addr buf).
Proof. unfold mem_write. destruct buf; [grow|]. apply grows_bindE; [apply grows_check|]. intros _. apply grows_copy_in. Qed.
Lemma grows_write_init N addr buf : grows N (write_init addr buf).
Proof.
  unfold write_init. apply grows_self. intros g Hg. destruct (page_range _ _ _) as [e|[f l]]; [grow|].
  apply grows_bind; [grow|]. intros [p|]; [grow|]. apply grows_bindE; [apply grows_touch_pages|]. intros _. grow.
Qed.
Lemma grows_set_fork_policy N addr len policy : grows N (set_fork_policy addr len policy).
Proof. unfold set_fork_policy. grow. Qed.
Lemma grows_set_locked N addr len x : grows N (set_locked addr len x).
Proof. unfold set_locked. grow. Qed.
Lemma grows_lock_all N x y : grows N (lock_all x y).
Proof. unfold lock_all. grow. Qed.
Lemma grows_unlock_all N : grows N unlock_all.
Proof. unfold unlock_all. grow. Qed.
Lemma grows_leaf_prot N p f : grows N (leaf_prot_of p f).
Proof. unfold leaf_prot_of. grow. Qed.
Lemma grows_protect_page N prot p : grows N (protect_page prot p).
Proof.
  unfold protect_page. apply grows_self. intros g Hg. apply grows_bind; [grow|]. intros m. destruct (negb m); [grow|].
  apply grows_bind; [grow|]. intros _. apply grows_bind; [grow|]. intros [t|]; [|grow].
  apply grows_bind; [apply grows_leaf_prot|]. intros lp. grow.
Qed.
Lemma grows_protect N addr len prot : grows N (mem_protect addr len prot).
Proof.
  unfold mem_protect. destruct (len =? 0); [grow|]. apply grows_self. intros g Hg.
  destruct (span_range _ _ _) as [e|[f l]]; [grow|]. apply grows_bind; [|intros r; grow].
  apply grows_try. intros p _. apply grows_protect_page.
Qed.

(** Shared mappings. *)
Lemma grows_share_page N p : grows N (share_page p).
Proof. unfold share_page. grow. Qed.
Lemma grows_map_shared_anon addr len prot :
  0 ≤ addr → 0 ≤ len < U64 → paged addr → paged len → grows (spans addr len) (map_shared_anon addr len prot).
Proof.
  intros Ha Hl Pa Pl. unfold map_shared_anon. apply grows_bindE; [by apply grows_map|]. intros _.
  apply grows_self. intros g Hg. destruct (span_range g addr len) as [e|[f l]]; [grow|].
  apply grows_bind; [|intros r; grow]. apply grows_try. intros p _. apply grows_share_page.
Qed.
Lemma grows_map_frame (N : Z → Prop) frames prot i p : 0 ≤ p → N p → grows N (map_frame frames prot (i, p)).
Proof. intros Hp HN. unfold map_frame. grow. all: by apply grows_note_mapped. Qed.
Lemma grows_map_frames addr frames prot :
  grows (spans addr (Z.of_nat (length frames) * PAGE_SIZE)) (map_frames addr frames prot).
Proof.
  unfold map_frames. destruct frames as [|f fs]; [grow|]. apply grows_self. intros g Hg. set (n := Z.of_nat _ * _).
  destruct (page_range g addr n) as [e|[first last]] eqn:E; [grow|]. apply grows_bind; [|intros r; grow].
  apply grows_try. intros [i p] (p' & [= -> ->] & Hp%elem_pages)%list_elem_of_fmap.
  destruct (page_range_spans g addr n first last p' Hg) as [H1 H2]; [unfold n, PAGE_SIZE; simpl; lia|done|].
  apply grows_map_frame; [lia|by apply H2].
Qed.
End Mapping.
#[export] Hint Resolve grows_page_prot grows_shared_phys grows_shared_frames grows_is_file_backed grows_is_resident
  grows_mem_read grows_read_vec grows_mem_write grows_write_init grows_set_fork_policy grows_set_locked grows_lock_all
  grows_unlock_all grows_protect : grows.

Section Unmapping.
Context (b sz : Z).
Abbreviation here := (here b sz).
Abbreviation grows := (grows b sz).

Definition drops (p : Z) : Track := λ v v', v' p = false ∧ only none v v'.
Lemma only_none_false u v q : only none u v → 0 ≤ q → u q = false → v q = false.
Proof. intros H Hq Hu. destruct (v q) eqn:E; [|done]. destruct (H q Hq E) as [?|[]]. congruence. Qed.

Lemma drops_after {A B} p (m : M A) (k : A → M B) :
  grows none m → (∀ a, tracks b sz (drops p) (k a)) → tracks b sz (drops p) (m ≫= k).
Proof.
  intros H1 H2. eapply tracks_bind; [exact H1|exact H2|]. intros u v w O [D O']. split; [done|by eapply only_trans].
Qed.
Lemma unmap_page_tracks p : 0 ≤ p → tracks b sz (drops p) (unmap_page p).
Proof.
  intros Hp. unfold unmap_page. apply drops_after; [apply grows_get|intros g].
  apply drops_after; [grow|intros was]. apply drops_after; [grow|intros _].
  eapply (tracks_bind b sz (marks p false) (only none)); [by apply note_unmapped_tracks|intros _|].
  { change (grows none (_ ← set_prot p Prot_NONE; _ ← set_file_backed p false; _ ← set_shared_anon p false; drop_fork_policy p)).
    grow. }
  intros u v w H1 H2. split.
  - eapply only_none_false; [exact H2|done|]. rewrite (H1 p Hp). by rewrite decide_True.
  - eapply only_trans; [|exact H2]. by eapply marks_only; [|exact H1].
Qed.

Lemma unmap_pages_tracks ps : Forall (λ p, 0 ≤ p) ps → ∀ s g a s' g',
  here g → st_iter unmap_page ps (s, g) = Ok (a, (s', g')) →
  here g' ∧ only none (pv_val (mapped g)) (pv_val (mapped g')) ∧ ∀ p, p ∈ ps → pv_val (mapped g') p = false.
Proof.
  induction 1 as [|p ps Hp _ IH]; intros s g a s' g' Hg E.
  - simpl in E. injection E as _ _ <-. split_and!; [done|apply only_refl|]. intros p Hp. by apply elem_of_nil in Hp.
  - cbn in E. unfold mbind, ST_bind in E. destruct (unmap_page p (s, g)) as [[[] [s1 g1]]|] eqn:E1; [|done].
    destruct (unmap_page_tracks p Hp _ _ _ _ _ Hg E1) as [H1 [D1 O1]].
    destruct (IH _ _ _ _ _ H1 E) as (H2 & O2 & D2). split_and!; [done|by eapply only_trans|].
    intros q [->|Hq]%elem_of_cons; [by eapply only_none_false|by apply D2].
Qed.

Lemma page_range_exact g addr len :
  here g → 0 < len → b ≤ addr → addr + len ≤ b + sz → b + sz ≤ U64 →
  page_range g addr len = inr ((addr - b) / PAGE_SIZE, (addr + len - 1 - b) / PAGE_SIZE).
Proof.
  intros (Hb & Hs & _) Hl H1 H2 H3. unfold page_range. destruct (Z.eqb_spec len 0); [lia|]. unfold checked_add64, offset_ok.
  rewrite Hb, Hs. destruct (Z.ltb_spec (addr + (len - 1)) U64); [|lia].
  destruct ((addr <? b) || (b + sz <=? addr)) eqn:E1; [lia|].
  destruct ((addr + (len - 1) <? b) || (b + sz <=? addr + (len - 1))) eqn:E2; [lia|]. do 3 f_equal. lia.
Qed.

Lemma unmap_clears addr len s g r s' g' :
  here g → b + sz ≤ U64 → 0 ≤ addr → 0 ≤ len < U64 → paged addr → paged len → 0 ≤ b →
  mem_unmap addr len (s, g) = Ok (r, (s', g')) →
  here g' ∧ only none (pv_val (mapped g)) (pv_val (mapped g')) ∧
  (b ≤ addr → addr + len ≤ b + sz → ∀ x, addr ≤ x < addr + len → pv_val (mapped g') ((x - b) / PAGE_SIZE) = false).
Proof.
  intros Hg Hu Ha Hl Pa Pl Hb E. unfold mem_unmap in E. destruct (Z.eqb_spec len 0) as [->|Hne].
  { injection E as _ _ <-. split_and!; [done|apply only_refl|lia]. }
  unfold mbind, ST_bind, self in E. destruct (span_range g addr len) as [e|[first last]] eqn:Es.
  - injection E as _ _ <-. split_and!; [done|apply only_refl|]. intros H1 H2. exfalso.
    rewrite (span_range_page g addr len) in Es by (done || lia).
    by rewrite (page_range_exact g addr len Hg ltac:(lia) H1 H2 Hu) in Es.
  - destruct (st_iter unmap_page _ (s, g)) as [[[] [s1 g1]]|] eqn:Ei; [|done].
    destruct (drop_locks first (last + 1) (s1, g1)) as [[[] [s2 g2]]|] eqn:Ed; [|done]. injection E as _ _ <-.
    destruct (span_range_spans b sz g addr len first last first Hg Ha ltac:(lia) Pa Pl Es) as [H0 _].
    destruct (unmap_pages_tracks (seqZ first (last + 1 - first))) with (s := s) (g := g) (a := tt) (s' := s1) (g' := g1)
      as (H1 & O1 & D1); [apply Forall_forall; intros p Hp%elem_pages; lia|done|done|].
    destruct (grows_drop_locks b sz none first (last + 1) _ _ _ _ _ H1 Ed) as [H2 O2].
    split_and!; [done|by eapply only_trans|]. intros G1 G2 x Hx.
    rewrite (span_range_page g addr len) in Es by (done || lia).
    rewrite (page_range_exact g addr len Hg ltac:(lia) G1 G2 Hu) in Es. injection Es as <- <-.
    assert (0 ≤ (x - b) / PAGE_SIZE) by (unfold PAGE_SIZE; apply Z.div_pos; lia).
    eapply only_none_false; [exact O2|done|]. apply D1, elem_pages. unfold PAGE_SIZE. split; apply Z.div_le_mono; lia.
Qed.
End Unmapping.
