(* ===== verification/MemSpec.v ===== *)
(** What the memory calls guarantee: space the arena may still hand out is never mapped, so an
    [mmap] that chooses its place never lands on memory in use; and where they fall short. *)
From S2P Require Import Prelude Phys PageTable PageVec GuestMem GuestSpec PageLocks Arena Vfs Mount Fd FileLocks Abi Seccomp PageCache MemCalls MemTrack.
From stdpp Require Import base numbers gmap list relations.
Local Open Scope Z_scope.

(** * The arena is made of pages *)

Record arena_paged (A : Arena) : Prop := mkPaged {
  ap_floor : paged (Arena.floor A);
  ap_cursor : paged (cursor A);
  ap_free : Forall (λ r, paged r.1 ∧ paged r.2) (free A)
}.

Lemma paged_add x y : paged x → paged y → paged (x + y).
Proof. unfold paged, PAGE_SIZE. intros. divlia. Qed.
Lemma paged_sub x y : paged x → paged y → paged (x - y).
Proof. unfold paged, PAGE_SIZE. intros. divlia. Qed.
Create HintDb paged.
#[export] Hint Resolve paged_add paged_sub : paged.

Lemma take_fit_paged len fr : paged len → Forall (λ r, paged r.1 ∧ paged r.2) fr →
  match take_fit len fr with
  | Some (b, fr') => paged b ∧ Forall (λ r, paged r.1 ∧ paged r.2) fr'
  | None => True
  end.
Proof.
  intros Hl. induction fr as [|[a l] fr IH]; intros H; simpl; [done|]. apply Forall_cons in H as [[H1 H2] H]. simpl in *.
  destruct (len <=? l).
  - split; [auto with paged|]. destruct (l =? len); [done|]. apply Forall_cons. simpl. auto with paged.
  - specialize (IH H). destruct (take_fit len fr) as [[b fr']|]; [|done]. destruct IH. split; [done|]. by apply Forall_cons.
Qed.
Lemma alloc_paged A len : arena_paged A → paged len →
  arena_paged (alloc A len).2 ∧ ∀ b, (alloc A len).1 = Some b → paged b.
Proof.
  intros [H1 H2 H3] Hl. unfold alloc. pose proof (take_fit_paged len _ Hl H3) as P.
  destruct (take_fit len (free A)) as [[b fr]|]; [destruct P; split; [by split|by intros ? [= <-]]|].
  destruct (cursor A <? len); [by repeat split|]. destruct (_ <? Arena.floor A); [by repeat split|].
  split; [split; simpl; auto with paged|]. intros b [= <-]. auto with paged.
Qed.
Lemma cut_paged addr stop r : paged addr → paged stop → paged r.1 → paged r.2 →
  Forall (λ r, paged r.1 ∧ paged r.2) (cut addr stop r).
Proof.
  intros Ha Hs H1 H2. destruct r as [a l]. simpl in *. destruct (_ || _); [by repeat constructor|].
  apply Forall_app. split; destruct (_ <? _); repeat constructor; simpl; auto with paged.
Qed.
Lemma insert_at_paged x fr : paged x.1 → paged x.2 → Forall (λ r, paged r.1 ∧ paged r.2) fr →
  Forall (λ r, paged r.1 ∧ paged r.2) (insert_at x fr).
Proof.
  intros H1 H2. induction fr as [|r fr IH]; intros H; simpl; [by repeat constructor|]. apply Forall_cons in H as [Hr H].
  destruct (r.1 <? x.1); repeat (apply Forall_cons; split); auto.
Qed.
Lemma claim_paged A addr len : arena_paged A → paged addr → paged len → arena_paged (claim A addr len).
Proof.
  intros [H1 H2 H3] Ha Hl. unfold claim. destruct (checked_add64 addr len) as [stop|] eqn:E; [|by split].
  assert (paged stop) as Hs.
  { unfold checked_add64 in E. destruct (_ <? _); [|done]. injection E as <-. auto with paged. }
  destruct (len =? 0); [by split|].
  assert (Forall (λ r, paged r.1 ∧ paged r.2) (free A ≫= cut addr stop)) as Hc.
  { clear E. induction H3 as [|r fr [P1 P2] _ IH]; [by constructor|]. rewrite bind_cons. apply Forall_app. split; [by apply cut_paged|done]. }
  destruct (_ && _); [|by split]. split; simpl; [done|by destruct (Z.max_spec addr (Arena.floor A)) as [[_ ->]|[_ ->]]|].
  destruct (_ <? _); [|done]. apply insert_at_paged; simpl; auto with paged.
Qed.
Lemma absorb_paged fuel : ∀ c fr, paged c → Forall (λ r, paged r.1 ∧ paged r.2) fr →
  paged (absorb fuel c fr).1 ∧ Forall (λ r, paged r.1 ∧ paged r.2) (absorb fuel c fr).2.
Proof.
  assert (∀ c fr, Forall (λ r, paged r.1 ∧ paged r.2) fr → match take_at c fr with
    Some (n, fr') => paged n ∧ Forall (λ r, paged r.1 ∧ paged r.2) fr' | None => True end) as HT.
  { intros c fr. induction fr as [|[a l] fr IH]; intros H; simpl; [done|]. apply Forall_cons in H as [[P1 P2] H]. simpl in P1, P2.
    destruct (a =? c); [done|]. specialize (IH H). destruct (take_at c fr) as [[n fr']|]; [|done]. destruct IH. split; [done|]. by apply Forall_cons. }
  induction fuel as [|fuel IH]; intros c fr Hc H; simpl; specialize (HT c fr H); destruct (take_at c fr) as [[n fr']|]; try done.
  destruct HT. apply IH; auto with paged.
Qed.
Lemma insert_join_paged x fr : paged x.1 → paged x.2 → Forall (λ r, paged r.1 ∧ paged r.2) fr →
  Forall (λ r, paged r.1 ∧ paged r.2) (insert_join x fr).
Proof.
  intros H1 H2. assert (∀ y fr, paged y.1 ∧ paged y.2 → Forall (λ r, paged r.1 ∧ paged r.2) fr →
    Forall (λ r, paged r.1 ∧ paged r.2) (join_next y fr)) as HN.
  { intros y l [Q1 Q2] H. unfold join_next. destruct l as [|[na nl] l]; [by repeat constructor|].
    apply Forall_cons in H as [[P1 P2] H]. simpl in P1, P2. destruct (_ =? _); repeat (apply Forall_cons; split); simpl; auto with paged. }
  assert (∀ y fr, paged y.1 ∧ paged y.2 → Forall (λ r, paged r.1 ∧ paged r.2) fr →
    Forall (λ r, paged r.1 ∧ paged r.2) (join_prev y fr)) as HP.
  { intros y l [Q1 Q2] H. unfold join_prev. destruct l as [|[na nl] l]; [by repeat constructor|].
    apply Forall_cons in H as [[P1 P2] H]. simpl in P1, P2. destruct (_ =? _); repeat (apply Forall_cons; split); simpl; auto with paged. }
  induction fr as [|r fr IH]; intros H; [by repeat constructor|]. cbn [insert_join]. pose proof H as H'.
  apply Forall_cons in H as [Hr H]. destruct (r.1 <? x.1); [|by apply HN].
  destruct fr as [|q fr]; [apply HP; [done|by repeat constructor]|].
  destruct (q.1 <? x.1); [apply Forall_cons; split; [done|by apply IH]|]. apply HP; [done|by apply HN].
Qed.
Lemma free_paged A addr len : arena_paged A → paged addr → paged len → arena_paged (free_range A addr len).
Proof.
  intros [H1 H2 H3] Ha Hl. unfold free_range. destruct (checked_add64 addr len) as [stop|] eqn:E; [|by split].
  assert (paged stop) as Hs.
  { unfold checked_add64 in E. destruct (_ <? _); [|done]. injection E as <-. auto with paged. }
  destruct (_ || _ || _); [by split|]. destruct (existsb _ _); [by split|]. destruct (addr =? cursor A).
  - pose proof (absorb_paged (length (free A)) stop (free A) Hs H3) as [P1 P2]. destruct (absorb _ _ _). by split.
  - split; simpl; [done|done|by apply insert_join_paged].
Qed.

(** * The invariant *)

Definition within (a l x : Z) : Prop := a ≤ x < a + l.
Definition nowhere (x : Z) : Prop := False.
Definition both (P Q : Z → Prop) (x : Z) : Prop := P x ∨ Q x.

Section Invariant.
Context {F : Type} (b sz : Z).
Hypothesis Hb : 0 ≤ b.
Hypothesis Pb : paged b.
Hypothesis Htop : b + sz ≤ 2 ^ 63.

(** The page of [x] is not mapped. *)
Definition blank (g : GuestMemory) (x : Z) : Prop := pv_val (mapped g) ((x - b) / PAGE_SIZE) = false.

(** The arena lies in the extent above the heap, and what it may hand out, outside [H], is not
    mapped. *)
Record mem_ok (H : Z → Prop) (k : Kst F) : Prop := mkMemOk {
  mo_here : here b sz (k_mem k);
  mo_arena : arena_ok (k_arena k);
  mo_paged : arena_paged (k_arena k);
  mo_bounds : b ≤ Arena.floor (k_arena k) ∧ Arena.top (k_arena k) ≤ b + sz;
  mo_heap : heap_limit (k_cur k) ≤ Arena.floor (k_arena k) ∧ 0 ≤ brk (k_cur k);
  mo_blank x : is_unused (k_arena k) x → ¬ H x → blank (k_mem k) x
}.

(** In the middle of a call: the arena will not hand out [S], and [C] is not mapped. *)
Record inv (S C : Z → Prop) (k : Kst F) : Prop := mkInv {
  iv_ok : mem_ok nowhere k;
  iv_taken x : S x → ¬ is_unused (k_arena k) x;
  iv_blank x : C x → b ≤ x → blank (k_mem k) x
}.

Definition triple {A} (P : Kst F → Prop) (m : K (F := F) A) (Q : A → Kst F → Prop) : Prop :=
  ∀ k a k', P k → m k = Ok (a, k') → Q a k'.

Lemma t_ret {A} (P : Kst F → Prop) (a : A) (Q : A → Kst F → Prop) : (∀ k, P k → Q a k) → triple P (mret a) Q.
Proof. intros H k x k' HP [= <- <-]. by apply H. Qed.
Lemma t_bind {A B} P (m : K A) (f : A → K B) R Q : triple P m R → (∀ a, triple (R a) (f a) Q) → triple P (m ≫= f) Q.
Proof.
  intros H1 H2 k a k' HP E. unfold mbind, ST_bind in E. destruct (m k) as [[x k1]|] eqn:E1; [|done]. eapply H2; [|exact E]. by eapply H1.
Qed.
Lemma t_post {A} P (m : K A) (Q Q' : A → Kst F → Prop) : triple P m Q → (∀ a k, Q a k → Q' a k) → triple P m Q'.
Proof. intros H HQ k a k' HP E. by eapply HQ, H. Qed.
Lemma t_pre {A} (P P' : Kst F → Prop) (m : K A) Q : triple P m Q → (∀ k, P' k → P k) → triple P' m Q.
Proof. intros H HP k a k' Hk E. eapply H; [by apply HP|exact E]. Qed.
Lemma t_fact {A} (P : Kst F → Prop) (p : Prop) (m : K A) Q : (p → triple P m Q) → triple (λ k, P k ∧ p) m Q.
Proof. intros H k a k' [HP Hp] E. by eapply H. Qed.
Lemma t_panic {A} P (Q : A → Kst F → Prop) : triple P st_panic Q.
Proof. by intros k a k' _ E. Qed.
Lemma t_peek {A} (P : Kst F → Prop) (f : Kst F → A) : triple P (peek f) (λ _, P).
Proof. intros k a k' HP E. unfold peek in E. by simplify_eq. Qed.
Lemma t_res {A} (P : Kst F → Prop) (r : res A) : triple P (of_res r) (λ a k, P k ∧ r = Ok a).
Proof. intros k a k' HP E. unfold of_res in E. destruct r; [|done]. by simplify_eq. Qed.
Lemma t_iter {A} (P : Kst F → Prop) (f : A → K unit) l : (∀ x, triple P (f x) (λ _, P)) → triple P (st_iter f l) (λ _, P).
Proof.
  intros H. induction l as [|x l IH]; simpl; [by apply t_ret|]. eapply t_bind; [apply H|]. intros u. exact IH.
Qed.
Lemma t_try {A E} (P : Kst F → Prop) (f : A → K (option E)) l :
  (∀ x, triple P (f x) (λ _, P)) → triple P (st_try f l) (λ _, P).
Proof.
  intros H. induction l as [|x l IH]; simpl; [by apply t_ret|]. eapply t_bind; [apply H|]. intros [e|]; [by apply t_ret|exact IH].
Qed.

(** ** Steps on the address space *)

Lemma page_of_within a l x q :
  spans b sz a l q → paged a → paged l → 0 < l → b ≤ x → (x - b) / PAGE_SIZE = q → within a l x.
Proof.
  intros (H1 & H2 & H3) Pa Pl Hl Hx <-. revert Pb. unfold paged, within, PAGE_SIZE in *. intros Pb'. divlia.
Qed.
Lemma spans_empty a q : paged a → ¬ spans b sz a 0 q.
Proof. revert Pb. unfold paged, spans, PAGE_SIZE. intros Pb' Pa (H1 & H2 & H3). divlia. Qed.
Lemma unused_extent H k x : mem_ok H k → is_unused (k_arena k) x → b ≤ x < b + sz.
Proof. intros HM Hx. apply unused_bounds in Hx; [|apply HM]. pose proof (mo_bounds _ _ HM). lia. Qed.
Lemma index_nonneg x : b ≤ x → 0 ≤ (x - b) / PAGE_SIZE.
Proof. intros H. unfold PAGE_SIZE. apply Z.div_pos; lia. Qed.

(** What may be mapped: nothing, or pages the arena does not own. *)
Lemma t_mem {A} S C (N : Z → Prop) (m : M A) :
  grows b sz N m → (∀ q x, N q → b ≤ x → (x - b) / PAGE_SIZE = q → S x) →
  triple (inv S C) (mem m) (λ _, inv S nowhere).
Proof.
  intros Hm HN k a k' [HM HT HC] E. unfold mem in E. destruct (m (k_pool k, k_mem k)) as [[y [s g]]|] eqn:Em; [|done].
  simplify_eq. destruct (Hm _ _ _ _ _ (mo_here _ _ HM) Em) as [Hg HO].
  split; [|done|done]. destruct HM as [H1 H2 H3 H4 H5 H6]. split; [done|done|done|done|done|]. simpl.
  intros x Hx _. unfold blank in *. destruct (pv_val (mapped g) ((x - b) / PAGE_SIZE)) eqn:Ex; [|done]. exfalso.
  assert (b ≤ x) as Hbx by (apply unused_bounds in Hx; [|done]; lia).
  destruct (HO _ (index_nonneg x Hbx) Ex) as [Hv|Hv].
  - specialize (H6 x Hx ltac:(by intros [])). congruence.
  - by apply (HT x); [eapply HN|].
Qed.
Lemma t_quiet {A} S C (m : M A) : grows b sz none m → triple (inv S C) (mem m) (λ _, inv S C).
Proof.
  intros Hm k a k' HI E. pose proof (t_mem S C none m Hm ltac:(by intros ? ? []) k a k' HI E) as [HM HT _].
  split; [done|done|]. intros x Hx Hbx. unfold mem in E. destruct (m (k_pool k, k_mem k)) as [[y [s g]]|] eqn:Em; [|done].
  simplify_eq. destruct (Hm _ _ _ _ _ (mo_here _ _ (iv_ok _ _ _ HI)) Em) as [Hg HO]. unfold blank. simpl.
  eapply only_none_false; [exact HO|by apply index_nonneg|]. by apply (iv_blank _ _ _ HI).
Qed.
Lemma t_map {A} S C a l (m : M A) :
  grows b sz (spans b sz a l) m → paged a → paged l → 0 ≤ l → (∀ x, a + l ≤ b + sz → within a l x → S x) →
  triple (inv S C) (mem m) (λ _, inv S nowhere).
Proof.
  intros Hm Pa Pl Hl HS. eapply t_mem; [exact Hm|]. intros q x Hq Hx Eq. destruct (decide (l = 0)) as [->|Hne].
  - by apply spans_empty in Hq.
  - apply HS; [apply Hq|]. eapply page_of_within; [exact Hq|done|done|lia|done|done].
Qed.
Lemma t_unmap S C a l : 0 ≤ a → 0 ≤ l < U64 → paged a → paged l →
  triple (inv S C) (mem (mem_unmap a l)) (λ _, inv S (λ x, b ≤ a ∧ a + l ≤ b + sz ∧ within a l x)).
Proof.
  intros Ha Hl Pa Pl k r k' HI E.
  assert (inv S C k') as [HM HT _].
  { eapply (t_quiet S C (mem_unmap a l)); [|exact HI|exact E]. intros s g x s' g' Hg Eg.
    edestruct (unmap_clears b sz a l) as (H1 & H2 & _); [exact Hg|unfold U64; lia|done|done|done|done|done|exact Eg|]. by split. }
  split; [done|done|]. intros x (H1 & H2 & Hx) Hbx. unfold mem in E.
  destruct (mem_unmap a l (k_pool k, k_mem k)) as [[y [s g]]|] eqn:Em; [|done]. simplify_eq. unfold blank. simpl.
  edestruct (unmap_clears b sz a l) as (_ & _ & H3); [apply HI|unfold U64; lia|done|done|done|done|done|exact Em|]. by apply H3.
Qed.

(** ** Steps on the arena and on the rest *)

Lemma inv_drop S C k : inv S C k → inv nowhere nowhere k.
Proof. intros [HM _ _]. by split. Qed.
Lemma inv_weaken (S S' C C' : Z → Prop) k : inv S C k → (∀ x, S' x → S x) → (∀ x, C' x → C x) → inv S' C' k.
Proof. intros [HM HT HC] H1 H2. split; [done|naive_solver|naive_solver]. Qed.

Lemma t_set S C f :
  (∀ k, k_mem (f k) = k_mem k ∧ k_arena (f k) = k_arena k ∧ heap_limit (k_cur (f k)) = heap_limit (k_cur k) ∧
     (0 ≤ brk (k_cur k) → 0 ≤ brk (k_cur (f k)))) →
  triple (inv S C) (set f) (λ _, inv S C).
Proof.
  intros Hf k a k' [[H1 H2 H3 H4 H5 H6] HT HC] E. unfold set in E. simplify_eq. destruct (Hf k) as (E1 & E2 & E3 & E4).
  split; [split|..]; rewrite ?E1, ?E2, ?E3; try done. destruct H5. split; [done|by apply E4].
Qed.

Lemma with_arena_ok H H' k A :
  mem_ok H k → arena_ok A → arena_paged A → Arena.floor A = Arena.floor (k_arena k) → Arena.top A = Arena.top (k_arena k) →
  (∀ x, is_unused A x → ¬ H' x → blank (k_mem k) x) → mem_ok H' (with_arena A k).
Proof. intros [H1 H2 H3 H4 H5 H6] HA HP Ef Et Hx. split; simpl; rewrite ?Ef, ?Et; done. Qed.

Lemma t_claim S C a l : 0 ≤ a → 0 ≤ l → paged a → paged l →
  triple (inv S C) (arena_claim a l) (λ _, inv (both S (λ x, a + l < U64 ∧ within a l x)) C).
Proof.
  intros Ha Hl Pa Pl k r k' [HM HT HC] E. unfold arena_claim, mbind, ST_bind, peek, set in E. cbn [id] in E. simplify_eq.
  destruct (apply_bounds (k_arena k) (Arena.OClaim a l)) as [Ef Et]. simpl in Ef, Et.
  destruct (decide (a + l < U64)) as [Hu|Hu].
  - destruct (claim_spec (k_arena k) a l (mo_arena _ _ HM) Ha Hl Hu) as [HA HU]. split.
    + eapply with_arena_ok; [exact HM|done|by apply claim_paged; [apply HM|..]|done|done|].
      intros x [Hx _]%HU. by apply HM.
    + simpl. intros x Hx [Hx' Hn]%HU. destruct Hx as [Hx|[_ Hx]]; [by apply (HT x)|]. by apply Hn.
    + done.
  - assert (claim (k_arena k) a l = k_arena k) as Ec.
    { unfold claim, checked_add64. destruct (Z.ltb_spec (a + l) U64); [lia|done]. }
    split; simpl; rewrite ?Ec; [|intros x [Hx|[? _]]; [by apply HT|lia]|done].
    eapply with_arena_ok; [exact HM|apply HM|apply HM|done|done|]. apply HM.
Qed.

Lemma alloc_zero A : arena_ok A → ∃ x, alloc A 0 = (Some x, A) ∧ 0 ≤ x < U64.
Proof.
  intros [H1 H2 H3]. unfold alloc. destruct A as [c f t fr]. simpl in *. destruct fr as [|[a l] fr]; simpl in *.
  - destruct (Z.ltb_spec c 0); [lia|]. destruct (Z.ltb_spec (c - 0) f); [lia|]. exists (c - 0). rewrite Z.sub_0_r. split; [done|lia].
  - destruct H3 as (? & ? & H3). apply ranges_le in H3. destruct (Z.leb_spec 0 l); [|lia]. destruct (Z.eqb_spec l 0); [lia|].
    rewrite !Z.sub_0_r. eexists. split; [done|lia].
Qed.
Lemma t_alloc S C l : 0 ≤ l → paged l →
  triple (inv S C) (arena_alloc l) (λ r k,
    match r with
    | None => inv S C k
    | Some a => inv (both S (within a l)) (both C (within a l)) k ∧ 0 ≤ a ∧ a + l < U64 ∧ paged a ∧ (∀ x, within a l x → b ≤ x < b + sz ∧ ¬ S x)
    end).
Proof.
  intros Hl Pl k r k' HI E. pose proof HI as [HM HT HC]. unfold arena_alloc, mbind, ST_bind, peek, set in E. cbn [id] in E.
  destruct (alloc_paged (k_arena k) l (mo_paged _ _ HM) Pl) as [HP HPb].
  destruct (apply_bounds (k_arena k) (Arena.OAlloc l)) as [Ef Et]. simpl in Ef, Et.
  destruct (decide (l = 0)) as [->|Hne].
  - destruct (alloc_zero _ (mo_arena _ _ HM)) as (x & E0 & Hx). rewrite E0 in E, HPb. injection E as <- <-.
    assert (∀ y z, ¬ within y 0 z) as Hw by (unfold within; intros; lia).
    split_and!; [|lia|lia|by apply HPb|intros y Hy; by apply Hw in Hy].
    split; [destruct HM; by split|..].
    + simpl. intros y [Hy|Hy]; [by apply HT|by apply Hw in Hy].
    + simpl. intros y [Hy|Hy]; [by apply HC|by apply Hw in Hy].
  - pose proof (arena_alloc_spec (k_arena k) l (mo_arena _ _ HM) ltac:(lia)) as P.
    destruct (alloc (k_arena k) l) as [[a|] A]; injection E as <- <-; simpl in Ef, Et, HP, HPb.
    + destruct P as (HA & Hin & HU). split_and!.
      * split.
        -- eapply with_arena_ok; [exact HM|done|done|done|done|]. intros x [Hx _]%HU. by apply HM.
        -- simpl. intros x [Hx|Hx] [Hx1 Hx2]%HU; [by apply (HT x)|]. by apply Hx2.
        -- simpl. intros x [Hx|Hx] Hbx; [by apply HC|]. apply HM; [by apply Hin|by intros []].
      * specialize (Hin a ltac:(lia)). apply (unused_extent _ _ _ HM) in Hin. lia.
      * specialize (Hin (a + l - 1) ltac:(lia)). apply (unused_extent _ _ _ HM) in Hin. unfold U64. lia.
      * by apply HPb.
      * intros x Hx. specialize (Hin x Hx). split; [exact (unused_extent _ _ _ HM Hin)|]. intros HS. by apply (HT x).
    + destruct P as (-> & _). destruct k. exact HI.
Qed.
Lemma t_free S C a l : 0 ≤ a → 0 ≤ l → paged a → paged l →
  (∀ x, within a l x → b ≤ a → a + l ≤ b + sz → C x) → triple (inv S C) (arena_free a l) (λ _, inv nowhere nowhere).
Proof.
  intros Ha Hl Pa Pl HCx k r k' [HM HT HC] E. unfold arena_free, mbind, ST_bind, peek, set in E. cbn [id] in E. simplify_eq.
  destruct (apply_bounds (k_arena k) (Arena.OFree a l)) as [Ef Et]. simpl in Ef, Et. split; [|done|done].
  destruct (free_range_spec (k_arena k) a l (mo_arena _ _ HM) Ha Hl) as [HA [[Htb HU]|[_ Eq]]].
  - eapply with_arena_ok; [exact HM|done|by apply free_paged; [apply HM|..]|done|done|].
    intros x [Hx|Hx]%HU _; [apply HM; [done|by intros []]|]. destruct Htb as (_ & Hc & Ht & _).
    pose proof (mo_bounds _ _ HM). pose proof (ao_floor _ (mo_arena _ _ HM)).
    apply HC; [apply HCx; [done|lia|lia]|lia].
  - rewrite Eq. eapply with_arena_ok; [exact HM|apply HM|apply HM|done|done|]. apply HM.
Qed.

(** ** Growing in place: the pages first, then the arena *)
Lemma t_map_first S C a l prot : 0 ≤ a → 0 ≤ l < U64 → paged a → paged l →
  triple (inv S C) (mem (mem_map a l prot)) (λ r k, if is_err r then inv S C k else mem_ok (within a l) k).
Proof.
  intros Ha Hl Pa Pl k r k' HI E. unfold mem in E.
  destruct (mem_map a l prot (k_pool k, k_mem k)) as [[y [s g]]|] eqn:Em; [|done]. simplify_eq.
  destruct r as [e|u]; simpl.
  - apply map_refused in Em as [-> ->]. by destruct k.
  - pose proof (iv_ok _ _ _ HI) as HM.
    destruct (grows_map b sz a l prot Ha Hl Pa Pl _ _ _ _ _ (mo_here _ _ HM) Em) as [Hg HO].
    destruct HM as [H1 H2 H3 H4 H5 H6]. split; [done|done|done|done|done|]. simpl. intros x Hx Hn. unfold blank.
    assert (b ≤ x) as Hbx by (apply unused_bounds in Hx; [|done]; lia).
    destruct (pv_val (mapped g) ((x - b) / PAGE_SIZE)) eqn:Ex; [|done]. exfalso.
    destruct (HO _ (index_nonneg x Hbx) Ex) as [Hv|Hv].
    + specialize (H6 x Hx ltac:(by intros [])). unfold blank in H6. congruence.
    + apply Hn. destruct (decide (l = 0)) as [->|Hne]; [by apply spans_empty in Hv|].
      eapply page_of_within; [exact Hv|done|done|lia|done|done].
Qed.
Lemma t_claim_mapped a l : 0 ≤ a → 0 ≤ l → a + l < U64 → paged a → paged l →
  triple (mem_ok (within a l)) (arena_claim a l) (λ _, inv nowhere nowhere).
Proof.
  intros Ha Hl Hu Pa Pl k r k' HM E. unfold arena_claim, mbind, ST_bind, peek, set in E. cbn [id] in E. simplify_eq.
  destruct (apply_bounds (k_arena k) (Arena.OClaim a l)) as [Ef Et]. simpl in Ef, Et.
  destruct (claim_spec (k_arena k) a l (mo_arena _ _ HM) Ha Hl Hu) as [HA HU]. split; [|done|done].
  eapply with_arena_ok; [exact HM|done|by apply claim_paged; [apply HM|..]|done|done|].
  intros x [Hx Hn]%HU _. by apply HM.
Qed.
End Invariant.

(** * The calls *)

Section Calls.
Context {F : Type} (ops : MountFs F) (checks : bool) (host_ok : Z → bool) (now : Z) (b sz : Z).
Hypothesis Hb : 0 ≤ b.
Hypothesis Pb : paged b.
Hypothesis Htop : b + sz ≤ 2 ^ 63.
Abbreviation inv := (inv (F := F) b sz).
Abbreviation mem_ok := (mem_ok (F := F) b sz).
Abbreviation mem := (mem (F := F)).

(** ** Calls that map nothing *)

Definition quiet {A} (m : K (F := F) A) : Prop := ∀ S C, triple (inv S C) m (λ _, inv S C).
Lemma quiet_ret {A} (a : A) : quiet (mret a).
Proof. intros S C. by apply t_ret. Qed.
Lemma quiet_bind {A B} (m : K A) (f : A → K B) : quiet m → (∀ a, quiet (f a)) → quiet (m ≫= f).
Proof. intros H1 H2 S C. eapply t_bind; [apply H1|]. intros a. apply H2. Qed.
Lemma quiet_peek {A} (f : Kst F → A) : quiet (peek f).
Proof. intros S C. apply t_peek. Qed.
Lemma quiet_res {A} (r : res A) : quiet (of_res r).
Proof. intros S C. eapply t_post; [apply t_res|]. by intros a k [? _]. Qed.
Lemma quiet_panic {A} : quiet (A := A) st_panic.
Proof. intros S C. apply t_panic. Qed.
Lemma quiet_mem {A} (m : M A) : grows b sz none m → quiet (mem m).
Proof. intros H S C. by apply t_quiet. Qed.
Lemma quiet_set f :
  (∀ k, k_mem (f k) = k_mem k ∧ k_arena (f k) = k_arena k ∧ heap_limit (k_cur (f k)) = heap_limit (k_cur k) ∧
     (0 ≤ brk (k_cur k) → 0 ≤ brk (k_cur (f k)))) → quiet (set f).
Proof. intros H S C. by apply t_set. Qed.
Lemma quiet_iter {A} (f : A → K unit) l : (∀ x, quiet (f x)) → quiet (st_iter f l).
Proof. intros H S C. apply t_iter. intros x. apply H. Qed.
Lemma quiet_try {A E} (f : A → K (option E)) l : (∀ x, quiet (f x)) → quiet (st_try f l).
Proof. intros H S C. apply t_try. intros x. apply H. Qed.
Lemma quiet_add x y : quiet (add checks x y).
Proof. apply quiet_res. Qed.
Lemma quiet_sub x y : quiet (sub checks x y).
Proof. apply quiet_res. Qed.
Lemma quiet_page_up x : quiet (page_up checks x).
Proof. apply quiet_res. Qed.

Ltac hush :=
  repeat match goal with
  | |- quiet (mret _) => apply quiet_ret
  | |- quiet (peek _) => apply quiet_peek
  | |- quiet (of_res _) => apply quiet_res
  | |- quiet st_panic => apply quiet_panic
  | |- quiet (add _ _ _) => apply quiet_add
  | |- quiet (sub _ _ _) => apply quiet_sub
  | |- quiet (page_up _ _) => apply quiet_page_up
  | |- quiet (set _) => apply quiet_set; intros ?; done
  | |- quiet (MemCalls.mem _) => apply quiet_mem; solve [grow]
  | |- quiet (mbind _ _) => apply quiet_bind; [|intros ?]
  | |- quiet (st_iter _ _) => apply quiet_iter; intros ?
  | |- quiet (st_try _ _) => apply quiet_try; intros ?
  | |- quiet (if ?c then _ else _) => destruct c
  | |- quiet (match ?x with _ => _ end) => destruct x
  | |- quiet _ => progress cbn beta iota zeta
  end.

Lemma quiet_exceeded len : quiet (address_space_exceeded len).
Proof. unfold address_space_exceeded. hush. Qed.
Lemma quiet_memlock total : quiet (memlock_allows total).
Proof. unfold memlock_allows. hush. Qed.
Lemma quiet_flush addr len : quiet (flush_shared_maps ops checks host_ok now addr len).
Proof.
  unfold flush_shared_maps, flush1, overlaps. hush.
  match goal with |- quiet (kept_maps _ _ _ ?ms) => induction ms as [|m l IH]; simpl end; unfold overlaps; hush. exact IH.
Qed.
Lemma quiet_shm_unmapped addr len : quiet (shm_unmapped addr len).
Proof. unfold shm_unmapped. hush. Qed.
Lemma quiet_gc : quiet gc.
Proof. unfold gc. hush. Qed.
Lemma quiet_msync addr len flags : quiet (sys_msync ops checks host_ok now addr len flags).
Proof. unfold sys_msync. hush. apply quiet_flush. Qed.
Lemma quiet_mprotect addr len prot : quiet (sys_mprotect checks addr len prot).
Proof. unfold sys_mprotect. hush. Qed.
Lemma quiet_mseal addr len flags : quiet (sys_mseal checks addr len flags).
Proof. unfold sys_mseal, no_page. hush. Qed.
Lemma quiet_mprotect_sealed addr len prot : quiet (sys_mprotect_sealed checks addr len prot).
Proof. unfold sys_mprotect_sealed, gains_exec. hush; apply quiet_mprotect. Qed.
Lemma quiet_range_is_mapped x y : quiet (range_is_mapped host_ok x y).
Proof. unfold range_is_mapped, unmapped_at. hush. Qed.
Lemma quiet_range_is_free x y : quiet (range_is_free host_ok x y).
Proof. unfold range_is_free, unmapped_at. hush. Qed.
Lemma quiet_madvise addr len advice : quiet (sys_madvise checks host_ok addr len advice).
Proof. unfold sys_madvise, zero_page. hush. apply quiet_range_is_mapped. Qed.
Lemma quiet_mincore addr len vec : quiet (sys_mincore checks addr len vec).
Proof.
  unfold sys_mincore. hush. match goal with |- quiet (residency ?l) => induction l; simpl end; hush. done.
Qed.
Lemma quiet_mlock l f addr len flags : quiet (sys_mlock checks l f addr len flags).
Proof. unfold sys_mlock, no_page. hush; apply quiet_memlock. Qed.
Lemma quiet_mlockall flags : quiet (sys_mlockall flags).
Proof. unfold sys_mlockall. hush. apply quiet_memlock. Qed.

(** ** [brk] and [munmap] *)

Definition safe {A} (m : K (F := F) A) : Prop := triple (inv nowhere nowhere) m (λ _, inv nowhere nowhere).
Lemma quiet_safe {A} (m : K A) : quiet m → safe m.
Proof. intros H. apply H. Qed.
Lemma safe_from {A} S C (m : K A) : safe m → triple (inv S C) m (λ _, inv nowhere nowhere).
Proof. intros H. eapply t_pre; [exact H|]. intros k Hk. by eapply inv_drop. Qed.
Lemma t_done {A} S C (a : A) : triple (inv S C) (mret a) (λ _, inv nowhere nowhere).
Proof. apply t_ret. intros k Hk. by eapply inv_drop. Qed.
Lemma t_then {A B} S C (m : K A) (f : A → K B) Q : quiet m → (∀ a, triple (inv S C) (f a) Q) → triple (inv S C) (m ≫= f) Q.
Proof. intros H1 H2. eapply t_bind; [apply H1|]. exact H2. Qed.

Lemma t_page_up P v : 0 ≤ v → triple P (page_up (F := F) checks v) (λ r k, P k ∧ (0 ≤ r < U64 ∧ paged r) ∧ r < v + PAGE_SIZE ∧ (paged v → v < U64 → r = v)).
Proof.
  intros Hv. unfold page_up. eapply t_post; [apply t_res|]. intros r k [HP E]. split; [done|]. unfold u64_mul in E.
  assert (0 ≤ div_ceil v PAGE_SIZE ∧ div_ceil v PAGE_SIZE * PAGE_SIZE < v + PAGE_SIZE ∧
    (paged v → div_ceil v PAGE_SIZE * PAGE_SIZE = v)) as (D1 & D2 & D3).
  { unfold div_ceil, paged, PAGE_SIZE. split_and!; [apply Z.div_pos; lia|divlia|intros; divlia]. }
  assert (∀ z, paged (z * PAGE_SIZE)) as PM by (intros z; by apply Z.mod_mul).
  set (d := div_ceil v PAGE_SIZE) in *. destruct (Z.ltb_spec (d * PAGE_SIZE) U64).
  - simplify_eq. split_and!; [unfold PAGE_SIZE in *; lia|done|apply PM|done|intros ? _; by apply D3].
  - destruct checks; [done|]. simplify_eq. unfold wrap. pose proof (Z.mod_pos_bound (d * PAGE_SIZE) U64 ltac:(done)).
    split_and!; [lia|lia|unfold paged, U64, PAGE_SIZE; divlia|unfold U64 in *; divlia|intros Pv Hu; specialize (D3 Pv); lia].
Qed.
Lemma t_add P x y : 0 ≤ x → 0 ≤ y →
  triple P (add (F := F) checks x y) (λ r k, P k ∧ 0 ≤ r < U64 ∧ (x + y < U64 → r = x + y) ∧ (paged x → paged y → paged r)).
Proof.
  intros Hx Hy. unfold add. eapply t_post; [apply t_res|]. intros r k [HP E]. split; [done|]. unfold u64_add in E.
  destruct (Z.ltb_spec (x + y) U64).
  - simplify_eq. split_and!; [lia|lia|done|]. apply paged_add.
  - destruct checks; [done|]. simplify_eq. unfold wrap. pose proof (Z.mod_pos_bound (x + y) U64 ltac:(done)).
    split_and!; [lia|lia|lia|]. unfold paged, U64, PAGE_SIZE. intros. divlia.
Qed.
Lemma t_sub P x y : 0 ≤ x < U64 → 0 ≤ y →
  triple P (sub (F := F) checks x y) (λ r k, P k ∧ 0 ≤ r < U64 ∧ (y ≤ x → r = x - y) ∧ (paged x → paged y → paged r)).
Proof.
  intros Hx Hy. unfold sub. eapply t_post; [apply t_res|]. intros r k [HP E]. split; [done|].
  destruct (Z.leb_spec y x).
  - simplify_eq. split_and!; [lia|lia|done|]. apply paged_sub.
  - destruct checks; [done|]. simplify_eq. unfold wrap. pose proof (Z.mod_pos_bound (x - y) U64 ltac:(done)).
    split_and!; [lia|lia|lia|]. unfold paged, U64, PAGE_SIZE. intros. divlia.
Qed.

(** Nothing below the limit of the heap is the arena's. *)
Lemma t_peek_heap :
  triple (inv nowhere nowhere) (peek id) (λ k0 k, inv (λ x, x < heap_limit (k_cur k0)) nowhere k ∧ 0 ≤ brk (k_cur k0)).
Proof.
  intros k a k' [HM _ _] E. unfold peek in E. cbn [id] in E. simplify_eq. pose proof (mo_heap _ _ _ _ HM). split; [|lia]. split; [done| |done].
  intros x Hx Hu. apply unused_bounds in Hu; [|apply HM]. lia.
Qed.

Lemma brk_safe addr : 0 ≤ addr → safe (sys_brk checks addr).
Proof.
  intros Hadd. unfold sys_brk. eapply t_bind; [apply t_peek_heap|]. intros k0. apply t_fact. intros Hbrk. set (c := k_cur k0) in *.
  assert (∀ S C, triple (inv S C) (_ ← set (λ k, with_cur (set_brk addr (k_cur k)) k); mret (as_i64 addr)) (λ _, inv nowhere nowhere)) as Hfin.
  { intros S C. apply t_then; [by apply quiet_set|]. intros u. apply t_done. }
  destruct (_ || _) eqn:E0; [apply t_done|]. destruct (Z.ltb_spec (brk c) addr) as [Hlt|Hge].
  - eapply t_bind; [apply t_page_up; lia|]. intros from. apply t_fact. intros [[Hf Pf] _].
    eapply t_bind; [apply t_page_up; lia|]. intros to. apply t_fact. intros [[Ht Pt] _].
    destruct (Z.ltb_spec (heap_limit c) to); [apply t_done|]. apply t_then; [apply quiet_sub|]. intros size.
    destruct (_ <? size); [apply t_done|]. apply t_then; [apply quiet_exceeded|]. intros [|]; [apply t_done|].
    destruct (Z.ltb_spec from to) as [Hft|_]; [|apply t_then; [apply quiet_ret|]; intros [|]; [apply t_done|apply Hfin]].
    eapply t_bind; [eapply t_bind; [|intros r; apply quiet_ret]|].
    + eapply (t_map b sz Pb _ _ from (to - from)); [apply grows_map; [lia|lia|done|by apply paged_sub]|done|by apply paged_sub|lia|].
      unfold within. intros x _ Hx. lia.
    + intros [|]; [apply t_done|apply Hfin].
  - destruct (addr <? brk c); [|apply Hfin].
    eapply t_bind; [apply t_page_up; lia|]. intros from. apply t_fact. intros [[Hf Pf] _].
    eapply t_bind; [apply t_page_up; lia|]. intros to. apply t_fact. intros [[Ht Pt] _].
    destruct (Z.ltb_spec from to) as [Hft|_]; [|apply t_then; [apply quiet_ret|]; intros u; apply Hfin].
    eapply t_bind; [eapply t_bind; [|intros r; apply quiet_ret]|intros u; apply Hfin].
    apply (t_unmap b sz Hb Htop); [lia|lia|done|by apply paged_sub].
Qed.

Lemma munmap_safe addr len : 0 ≤ addr → 0 ≤ len → safe (sys_munmap ops checks host_ok now addr len).
Proof.
  intros Ha Hl. unfold sys_munmap, safe. destruct (len =? 0); [apply t_done|].
  eapply t_bind; [by apply t_page_up|]. intros n. apply t_fact. intros [[Hn Pn] _].
  assert (0 ≤ page_down addr ∧ paged (page_down addr)) as [Hpd Ppd].
  { unfold page_down, paged, PAGE_SIZE. split; divlia. }
  apply t_then; [apply quiet_peek|]. intros k0. apply t_then; [destruct (bool_decide _); [apply quiet_ret|apply quiet_flush]|].
  intros u. eapply t_bind; [by apply (t_unmap b sz Hb Htop)|]. intros r.
  apply t_then; [apply quiet_shm_unmapped|]. intros u1. apply t_then; [apply quiet_gc|]. intros u2.
  eapply t_bind; [eapply (t_free b sz); [lia|lia|done|done|]|intros u3; apply t_done]. intros x Hx H1 H2. done.
Qed.

(** ** [mmap] *)

Lemma find_frames_length idxs : ∀ pages frames fresh s pages' fr fresh' s',
  find_frames idxs pages frames fresh s = Ok ((pages', Some (fr, fresh')), s') → length fr = (length frames + length idxs)%nat.
Proof.
  induction idxs as [|i idxs IH]; intros pages frames fresh s pages' fr fresh' s' E; simpl in E.
  - injection E as _ <- _ _. simpl. lia.
  - destruct (pages !! i) as [f|].
    + apply IH in E. rewrite length_app in E. simpl in *. lia.
    + unfold mbind, ST_bind in E. destruct (alloc_frames 1 s) as [[[[|f fs]|] s1]|]; try done.
      apply IH in E. rewrite length_app in E. simpl in *. lia.
Qed.
Lemma grows_pc_map_shared pc t path offset base len prot :
  0 ≤ len → paged len → grows b sz (spans b sz base len) (pc_map_shared ops checks host_ok pc t path offset base len prot).
Proof.
  intros Hl Pl. unfold pc_map_shared. destruct (pc_key ops t path) as [key|]; [|grow]. apply grows_bind; [grow|]. intros _.
  intros s g a s' g' Hg E. unfold mbind at 1, ST_bind at 1 in E. unfold pool at 1 in E.
  destruct (find_frames _ _ _ _ s) as [[[pages [[frames fresh]|]] s1]|] eqn:Ef; [| |done].
  - assert (Z.of_nat (length frames) * PAGE_SIZE = len) as Hlen.
    { apply find_frames_length in Ef. rewrite length_seqZ in Ef. simpl in Ef. unfold paged, PAGE_SIZE in *. divlia. }
    revert E. revert Hg. generalize s1 as s0. clear Ef. intros s0 Hg E. revert s0 g a s' g' Hg E.
    change (grows b sz (spans b sz base len) (_ ← pool (st_iter (fill_page ops checks t path) fresh);
      r ← map_frames base frames prot;
      mret (match r with inl _ => inl (err ENOMEM) | inr _ => inr tt end, mkCache true (<[key := pages]> (files pc))))).
    apply grows_bind; [grow|]. intros _. apply grows_bind; [rewrite <- Hlen; apply grows_map_frames|]. intros r. grow.
  - injection E as _ _ <-. split; [done|apply only_refl].
Qed.

(** The place chosen is not the arena's any more. *)
Definition taken (base len x : Z) : Prop := base + len < U64 ∧ within base len x.
Lemma t_place addr len flags : 0 ≤ addr → 0 ≤ len < U64 → paged len →
  triple (inv nowhere nowhere) (mmap_place checks addr len flags) (λ r k,
    match r with
    | inl _ => inv nowhere nowhere k
    | inr base => inv (taken base len) nowhere k ∧ 0 ≤ base ∧ paged base
    end).
Proof.
  intros Ha Hl Pl. unfold mmap_place. destruct (fixed_place addr flags).
  - assert (0 ≤ page_down addr ∧ paged (page_down addr)) as [Hpd Ppd].
    { unfold page_down, paged, PAGE_SIZE. split; divlia. }
    apply t_then.
    { destruct (has _ _); [|apply quiet_ret]. hush. }
    intros [u|]; [apply t_ret; by intros k Hk|]. eapply t_bind; [apply (t_claim b sz); [done|lia|done|done]|]. intros u.
    apply t_ret. intros k Hk. split; [|done]. eapply inv_weaken; [exact Hk|intros x Hx; by right|done].
  - eapply t_bind; [apply (t_alloc b sz Hb Htop); [lia|done]|]. intros [base|]; [|apply t_ret; by intros k Hk]. apply t_ret.
    intros k (Hk & H1 & _ & H2 & _). split; [|done]. eapply inv_weaken; [exact Hk|intros x [_ Hx]; by right|intros x []].
Qed.
Lemma t_map_taken {A} S C base n (m : M A) : paged base → paged n → 0 ≤ n → (∀ x, taken base n x → S x) →
  grows b sz (spans b sz base n) m → triple (inv S C) (mem m) (λ _, inv S nowhere).
Proof.
  intros Pbase Pn Hn HS Hm. eapply (t_map b sz Pb _ _ base n m Hm Pbase Pn Hn). intros x H1 H2. apply HS.
  split; [unfold U64; lia|done].
Qed.

Lemma quiet_fill base len path offset : quiet (mmap_fill ops checks host_ok base len path offset).
Proof. unfold mmap_fill. hush. Qed.

Lemma mmap_unlocked_safe addr len prot flags fd offset : 0 ≤ addr → 0 ≤ len →
  safe (sys_mmap_unlocked ops checks host_ok addr len prot flags fd offset).
Proof.
  intros Ha Hl. unfold sys_mmap_unlocked, safe. apply t_then; [apply quiet_exceeded|]. intros [|]; [apply t_done|].
  apply t_then; [apply quiet_peek|]. intros k0. destruct (mmap_refused _ _ _ _); [apply t_done|].
  eapply t_bind; [by apply t_page_up|]. intros n. apply t_fact. intros [[Hn Pn] _].
  destruct (file_source k0 flags fd) as [e|src]; [apply t_done|]. destruct (match src with Some _ => _ | None => _ end); [apply t_done|].
  eapply t_bind; [by apply t_place|]. intros [e|base]; [apply t_done|]. apply t_fact. intros [Hbase Pbase].
  assert (∀ A B (m : M A) (f : A → K B), grows b sz (spans b sz base n) m → (∀ a, quiet (f a)) →
    triple (inv (taken base n) nowhere) (mem m ≫= f) (λ _, inv nowhere nowhere)) as Hgo.
  { intros A B m f Hm Hf. eapply t_bind; [apply (t_map_taken _ _ base n); [done|done|lia|done|exact Hm]|].
    intros a. apply safe_from, quiet_safe, Hf. }
  destruct src as [path|].
  - destruct (has flags MAP_SHARED).
    + unfold mmap_shared. eapply t_bind; [apply t_peek|]. intros k1. apply Hgo.
      { apply grows_pc_map_shared; [lia|done]. }
      intros [r c]. hush.
    + apply Hgo; [by apply grows_map|]. intros r. destruct (is_err r); [apply quiet_ret|apply quiet_fill].
  - apply Hgo; [|intros r; apply quiet_ret]. destruct (_ && _); [by apply grows_map_shared_anon|by apply grows_map].
Qed.

Lemma mmap_safe addr len prot flags fd offset : 0 ≤ addr → 0 ≤ len →
  safe (sys_mmap ops checks host_ok addr len prot flags fd offset).
Proof.
  intros Ha Hl. unfold sys_mmap, safe. apply t_then; [apply quiet_page_up|]. intros n.
  apply t_then; [apply quiet_peek|]. intros k0.
  apply t_then; [destruct (_ || _); [apply quiet_memlock|apply quiet_ret]|]. intros [|]; [|apply t_done]. cbn [negb].
  eapply t_bind; [by apply mmap_unlocked_safe|]. intros r.
  apply t_then; [destruct (_ && _); [apply quiet_mem; grow|apply quiet_ret]|]. intros u. apply t_done.
Qed.

(** ** [mremap] *)

Hypothesis Psz : paged sz.

Lemma check_unmapped s g p : here b sz g → b ≤ p < b + sz → blank b g p →
  check p 1 Prot_READ (s, g) = Ok (inl (Unmapped (page_base g ((p - b) / PAGE_SIZE))), (s, g)).
Proof.
  intros Hg Hp Hbl. pose proof Hg as (E1 & E2 & W & L). unfold check. unfold mbind at 1, ST_bind at 1.
  change (self (s, g)) with (Ok (g, (s, g))). cbn beta iota. unfold checked_add64.
  destruct (Z.ltb_spec (p + 1) U64); [|unfold U64 in *; lia].
  destruct ((p <? base g) || (base g + msize g <? p + 1)) eqn:E; [lia|].
  rewrite (page_range_exact b sz g p 1) by (done || unfold U64; lia).
  replace (p + 1 - 1 - b) with (p - b) by lia. set (q := (p - b) / PAGE_SIZE).
  replace (q + 1 - q) with 1 by lia. change (seqZ q 1) with ([Z.of_nat 0 + q]). change (Z.of_nat 0 + q) with q.
  assert (pv_index (mapped g) q = Ok false) as Hq.
  { rewrite pv_index_val; [unfold q; unfold blank in Hbl; congruence|]. rewrite L. unfold npages. rewrite E2. unfold q, PAGE_SIZE.
    revert Psz. unfold paged, PAGE_SIZE. intros. divlia. }
  unfold mbind at 1, ST_bind at 1. cbn [st_try]. unfold check_page, get_mapped, mbind, ST_bind, self, lift. by rewrite Hq.
Qed.
Lemma read_unmapped s g p : here b sz g → b ≤ p < b + sz → blank b g p →
  ∃ a, read_vec host_ok p 1 (s, g) = Ok (inl (Unmapped a), (s, g)).
Proof.
  intros Hg Hp Hbl. unfold read_vec. cbn [Z.eqb]. unfold bindE. unfold mbind, ST_bind.
  rewrite check_unmapped by done. by eexists.
Qed.

Lemma quiet_unmapped_at p : quiet (unmapped_at host_ok p).
Proof. unfold unmapped_at. hush. Qed.
(** A page that reads is mapped, so it is not the arena's. *)
Lemma t_unmapped_at S C p : paged p →
  triple (inv S C) (unmapped_at host_ok p) (λ u, inv (if (u : bool) then S else both S (within p PAGE_SIZE)) C).
Proof.
  intros Pp k u k' HI E. pose proof (quiet_unmapped_at p S C k u k' HI E) as HI'.
  destruct u; [done|]. unfold unmapped_at in E. unfold mbind, ST_bind in E. unfold MemCalls.mem in E.
  destruct (read_vec host_ok p 1 (k_pool k, k_mem k)) as [[r [s g]]|] eqn:Er; [|done].
  injection E as Eu Ek. assert (k_arena k' = k_arena k) as Ea by by rewrite <- Ek.
  assert (∀ a, r ≠ inl (Unmapped a)) as Hr by (intros a ->; discriminate Eu).
  destruct HI' as [HM' HT' HC']. split; [done| |done]. intros x [Hx|Hx]; [by apply HT'|]. rewrite Ea. intros Hu.
  pose proof (iv_ok _ _ _ _ _ HI) as HM. pose proof (unused_extent b sz _ _ _ HM Hu) as Hex.
  assert (b ≤ p < b + sz ∧ (x - b) / PAGE_SIZE = (p - b) / PAGE_SIZE) as [Hp Eq].
  { revert Pb. unfold within, paged, PAGE_SIZE in *. intros. split; [split|]; divlia. }
  destruct (read_unmapped (k_pool k) (k_mem k) p) as [a Ea']; [apply HM|done| |].
  - unfold blank. rewrite <- Eq. apply HM; [done|by intros []].
  - rewrite Ea' in Er. injection Er as <- _ _. by apply (Hr a).
Qed.
Lemma t_range_mapped S C start stop : paged start →
  triple (inv S C) (range_is_mapped host_ok start stop)
    (λ r, inv (if (r : bool) then both S (λ x, start ≤ x < stop) else nowhere) C).
Proof.
  intros Ps. unfold range_is_mapped.
  assert (∀ ps S, Forall paged ps → triple (inv S C)
    (st_try (λ p, u ← unmapped_at host_ok p; mret (if (u : bool) then Some tt else None)) ps)
    (λ r, inv (match r with None => both S (λ x, ∃ p, p ∈ ps ∧ within p PAGE_SIZE x) | Some _ => nowhere end) C)) as HL.
  { clear S. induction ps as [|p ps IH]; intros S HF; simpl.
    - apply t_ret. intros k Hk. eapply inv_weaken; [exact Hk| |done]. intros x [Hx|(p & Hp & _)]; [done|by apply elem_of_nil in Hp].
    - apply Forall_cons in HF as [Hp HF]. eapply t_bind.
      { eapply t_bind; [by apply t_unmapped_at|]. intros u. apply (t_ret _ _ (λ o, inv (match o with Some _ => nowhere | None => both S (within p PAGE_SIZE) end) C)).
        intros k Hk. destruct u; [|done]. eapply inv_weaken; [exact Hk|by intros x []|done]. }
      intros [[]|]; [apply t_ret; by intros k Hk|]. eapply t_post; [apply IH, HF|]. intros [u|] k Hk; [done|].
      eapply inv_weaken; [exact Hk| |done]. intros x [Hx|(p' & [->|Hp']%elem_of_cons & Hw)].
      + left. by left.
      + left. by right.
      + right. by exists p'. }
  eapply t_bind; [apply HL|].
  - apply Forall_forall. intros p (i & -> & _)%list_elem_of_fmap. revert Ps. unfold paged, PAGE_SIZE. intros. divlia.
  - intros [u|]; apply t_ret; intros k Hk; [done|]. eapply inv_weaken; [exact Hk| |done].
    intros x [Hx|Hx]; [by left|]. right. exists (start + (x - start) / PAGE_SIZE * PAGE_SIZE). split.
    + unfold pages_from. apply list_elem_of_fmap. exists ((x - start) / PAGE_SIZE). split; [done|]. apply elem_of_seqZ.
      unfold div_ceil, PAGE_SIZE. divlia.
    + unfold within, PAGE_SIZE. divlia.
Qed.

Lemma shared_frames_length fuel : ∀ p stop out s g fr σ,
  shared_frames_loop fuel p stop out (s, g) = Ok (Some fr, σ) → (length fr ≤ length out + fuel)%nat.
Proof.
  induction fuel as [|fuel IH]; intros p stop out s g fr σ E; simpl in E; destruct (stop <=? p); try (injection E as <- _; lia).
  unfold mbind, ST_bind in E. destruct (shared_phys p (s, g)) as [[[pa|] [s1 g1]]|]; try done.
  apply IH in E. rewrite length_app in E. simpl in E. lia.
Qed.
Lemma t_shared_frames S C addr len : 0 ≤ len → paged len →
  triple (inv S C) (mem (shared_frames addr len)) (λ r k, inv S C k ∧
    match r with Some fr => Z.of_nat (length fr) * PAGE_SIZE ≤ len | None => True end).
Proof.
  intros Hl Pl k r k' HI E. split; [eapply (quiet_mem (shared_frames addr len)); [grow|exact HI|exact E]|].
  destruct r as [fr|]; [|done]. unfold MemCalls.mem in E.
  destruct (shared_frames addr len (k_pool k, k_mem k)) as [[r [s g]]|] eqn:Es; [|done]. injection E as -> _.
  unfold shared_frames in Es. destruct (checked_add64 addr len); [|done]. apply shared_frames_length in Es. simpl in Es.
  unfold div_ceil, paged, PAGE_SIZE in *. divlia.
Qed.

Lemma grows_sub {A} a l n (m : M A) : 0 ≤ l ≤ n → paged a → paged l →
  grows b sz (spans b sz a l) m → ∀ S C, (∀ x, within a n x → S x) → triple (inv S C) (mem m) (λ _, inv S nowhere).
Proof.
  intros Hl Pa Pl Hm S C HS. eapply (t_map b sz Pb _ _ a l m Hm Pa Pl ltac:(lia)). intros x _ Hx. apply HS.
  unfold within in *. lia.
Qed.

Definition freed (old size x : Z) : Prop := b ≤ old ∧ old + size ≤ b + sz ∧ within old size x.
Lemma t_move S C old old_size new new_size prot dontunmap :
  0 ≤ old → 0 ≤ old_size < U64 → paged old → paged old_size → 0 ≤ new → 0 ≤ new_size → new + new_size < U64 → paged new → paged new_size →
  (∀ x, within new new_size x → S x) → (∀ x, taken old old_size x → S x) →
  triple (inv S C) (mremap_move checks host_ok old old_size new new_size prot dontunmap)
    (λ r, inv S (if dontunmap then nowhere else match r with inr _ => freed old old_size | inl _ => nowhere end)).
Proof.
  intros Ho Hos Po Pos Hn Hns Hnn Pn Pns HS HSo. unfold mremap_move. set (keep := Z.min old_size new_size).
  assert (paged keep) as Pk by (unfold keep; destruct (Z.min_spec old_size new_size) as [[_ ->]|[_ ->]]; done).
  eapply t_bind; [apply t_shared_frames; [unfold keep; lia|done]|]. intros frames. apply t_fact. intros Hfr.
  eapply (t_bind _ _ _ (λ _, inv S nowhere)).
  - destruct frames as [fr|].
    + eapply t_bind.
      { eapply (grows_sub new (Z.of_nat (length fr) * PAGE_SIZE) new_size); [unfold keep, PAGE_SIZE in *; lia|done| |apply grows_map_frames|exact HS].
        by apply Z.mod_mul. }
      intros r. destruct (is_err r); [apply quiet_ret|]. destruct (Z.ltb_spec keep new_size) as [Hlt|_]; [|apply quiet_ret].
      eapply t_bind; [apply t_add; unfold keep; lia|]. intros at_. apply t_fact. intros (Hat & Eat & Pat).
      rewrite Eat by (unfold keep; lia). eapply t_bind; [|intros r'; apply quiet_ret].
      eapply (t_map b sz Pb _ _ (new + keep) (new_size - keep)); [apply grows_map_shared_anon|..]; try (unfold keep; lia); auto with paged.
      intros x _ Hx. apply HS. unfold within, keep in *. lia.
    + eapply t_bind; [eapply (grows_sub new new_size new_size); [lia|done|done|apply grows_map; [done|lia|done|done]|exact HS]|].
      intros r. destruct (is_err r); [apply quiet_ret|]. apply t_then; [apply quiet_mem; grow|]. intros d.
      apply t_then; [|intros u; apply quiet_ret]. destruct d; [apply quiet_ret|]. apply quiet_bind; [apply quiet_mem; grow|intros; apply quiet_ret].
  - intros [|].
    + apply t_ret. intros k Hk. by destruct dontunmap.
    + destruct dontunmap.
      * eapply t_bind; [eapply t_bind; [|intros r; apply quiet_ret]|].
        { eapply (t_map_taken _ _ old old_size); [done|done|lia|exact HSo|by apply grows_map]. }
        intros u. apply t_then; [apply quiet_set; intros ?; done|]. intros u1. apply t_ret. intros k Hk. exact Hk.
      * eapply t_bind; [eapply t_bind; [|intros r; apply quiet_ret]|].
        { by apply (t_unmap b sz Hb Htop). }
        intros u. apply t_then; [apply quiet_set; intros ?; done|]. intros u1. apply t_ret. intros k Hk. exact Hk.
Qed.

Lemma t_move_to S C old old_size new new_size prot dontunmap :
  0 ≤ old → 0 ≤ old_size < U64 → paged old → paged old_size → 0 ≤ new → 0 ≤ new_size → new + new_size < U64 → paged new → paged new_size →
  (∀ x, within new new_size x → S x) → (∀ x, taken old old_size x → S x) →
  triple (inv S C) (mremap_to checks host_ok old old_size new new_size prot dontunmap) (λ _, inv nowhere nowhere).
Proof.
  intros Ho Hos Po Pos Hn Hns Hnn Pn Pns HS HSo. unfold mremap_to. eapply t_bind; [by apply t_move|]. intros [e|u]; [apply t_done|].
  destruct dontunmap.
  - apply t_then; [apply quiet_ret|]. intros u1. apply t_done.
  - eapply t_bind; [eapply (t_free b sz); [done|lia|done|done|]|intros u1; apply t_done]. intros x Hx H1 H2. done.
Qed.

Lemma t_grow S C old old_size new_size flags prot dontunmap :
  0 ≤ old → 0 ≤ old_size < U64 → paged old → paged old_size → 0 ≤ new_size < U64 → paged new_size → old_size ≤ new_size →
  (∀ x, taken old old_size x → S x) →
  triple (inv S C) (mremap_grow checks host_ok old old_size new_size flags prot dontunmap) (λ _, inv nowhere nowhere).
Proof.
  intros Ho Hos Po Pos Hns Pns Hle HSo. unfold mremap_grow.
  eapply t_bind; [apply t_add; lia|]. intros extra. apply t_fact. intros (Hx & _ & Px). specialize (Px Po Pos).
  eapply t_bind; [apply t_sub; lia|]. intros extra_len. apply t_fact. intros (Hl & _ & Pl). specialize (Pl Pns Pos).
  eapply (t_bind _ _ _ (λ (ok : bool) k, if ok then mem_ok (within extra extra_len) k ∧ extra + extra_len < U64 else inv S C k)).
  - assert (triple (inv S C) (mret false) (λ (ok : bool) k, if ok then mem_ok (within extra extra_len) k ∧ extra + extra_len < U64 else inv S C k)) as Hno
      by (apply t_ret; intros k Hk; exact Hk).
    destruct dontunmap; [exact Hno|]. apply t_then; [apply quiet_peek|]. intros k0.
    destruct (is_free (k_arena k0) extra extra_len) eqn:Ef; cbn [negb]; [|exact Hno].
    assert (extra + extra_len < U64) as Hov.
    { unfold is_free, checked_add64 in Ef. destruct (Z.ltb_spec (extra + extra_len) U64); [done|discriminate]. }
    apply t_then; [apply quiet_add|]. intros stop. apply t_then; [apply quiet_range_is_free|]. intros [|]; cbn [negb]; [|exact Hno].
    eapply t_bind; [apply (t_map_first b sz Pb); [lia|done|done|done]|]. intros r. apply t_ret. intros k Hk.
    destruct (is_err r); [done|]. by split.
  - intros [|].
    + apply t_fact. intros Hov. eapply t_bind; [apply (t_claim_mapped b sz); [lia|lia|done|done|done]|]. intros u. apply t_done.
    + destruct (negb (has flags MREMAP_MAYMOVE)); [apply t_done|].
      eapply t_bind; [apply t_page_up; lia|]. intros size. apply t_fact. intros ([Hs Ps] & _ & Es). rewrite Es by (done || lia).
      eapply t_bind; [apply (t_alloc b sz Hb Htop); [lia|done]|]. intros [base|]; [|apply t_done].
      intros k a k' (HI & Hbase & Hov & Pbase & _) E.
      eapply (t_move_to (both S (within base new_size)) (both C (within base new_size)) old old_size base new_size); try done.
      * lia.
      * intros x Hxx. by right.
      * intros x Hxx. left. by apply HSo.
Qed.

Lemma mremap_safe old old_size new_size flags new_addr :
  0 ≤ old → 0 ≤ old_size → 0 ≤ new_size → 0 ≤ new_addr →
  (has flags MREMAP_FIXED = true → new_addr + new_size ≤ U64 - PAGE_SIZE) →
  safe (sys_mremap checks host_ok old old_size new_size flags new_addr).
Proof.
  intros Ho Hos Hns Hna Hov. unfold sys_mremap, safe. destruct (_ || _ || _) eqn:E0; [apply t_done|].
  assert (paged old) as Po.
  { apply orb_false_iff in E0 as [_ E0]. apply negb_false_iff in E0. unfold is_multiple_of in E0. by apply Z.eqb_eq in E0. }
  apply t_then; [apply quiet_exceeded|]. intros [|]; [apply t_done|]. clear E0. destruct (beyond flags 7 || _); [apply t_done|].
  eapply t_bind; [by apply t_page_up|]. intros os. apply t_fact. intros ([Hos' Pos] & _).
  eapply t_bind; [by apply t_page_up|]. intros ns. apply t_fact. intros ([Hns' Pns] & Hlt & _).
  destruct (has flags MREMAP_DONTUNMAP && negb (os =? ns)) eqn:Ed; [apply t_done|].
  eapply t_bind; [apply t_add; lia|]. intros stop. apply t_fact. intros (_ & Hstop & _).
  eapply t_bind; [by apply t_range_mapped|]. intros [|]; cbn [negb]; [|apply t_done].
  set (S := both nowhere (λ x, old ≤ x < stop)).
  assert (∀ x, taken old os x → S x) as HS by (intros x [H1 H2]; right; rewrite (Hstop H1); done).
  apply t_then; [apply quiet_mem; grow|]. intros pr. destruct (has flags MREMAP_FIXED).
  - specialize (Hov eq_refl). destruct (is_multiple_of new_addr PAGE_SIZE) eqn:En; cbn [negb]; [|apply t_done]. apply Z.eqb_eq in En.
    apply t_then; [destruct (_ <? _); hush|]. intros [|]; [apply t_done|].
    eapply t_bind; [apply (t_claim b sz); [done|lia|done|done]|]. intros u.
    apply t_move_to; try done; [lia|lia|..].
    + intros x Hx. right. split; [lia|done].
    + intros x Hx. left. by apply HS.
  - destruct ((ns <=? os) && negb (has flags MREMAP_DONTUNMAP)) eqn:Es.
    + eapply t_bind; [apply t_add; lia|]. intros tail. apply t_fact. intros (Ht & _ & Pt). specialize (Pt Po Pns).
      assert (paged (os - ns) ∧ 0 ≤ os - ns < U64) as [Pd Hd] by (split; [by apply paged_sub|lia]).
      eapply t_bind; [apply (t_unmap b sz Hb Htop); [lia|done|done|done]|]. intros r.
      eapply t_bind; [eapply (t_free b sz); [lia|lia|done|done|]|intros u; apply t_done]. intros x Hx H1 H2. done.
    + apply t_grow; try done. destruct (has flags MREMAP_DONTUNMAP); cbn [negb andb] in Ed, Es; lia.
Qed.

(** ** Every call *)

(** Arguments are 64-bit words; the range a [mremap] with [MREMAP_FIXED] moves to ends below the last
    page of the 64-bit space ([MemDemo.failed_mremap_stays_mapped] shows what one past it does). *)
Definition call_ok (c : Call) : Prop :=
  match c with
  | CBrk a => 0 ≤ a
  | CMmap a l _ _ _ _ => 0 ≤ a ∧ 0 ≤ l
  | CMunmap a l => 0 ≤ a ∧ 0 ≤ l
  | CMremap o os ns fl na =>
    0 ≤ o ∧ 0 ≤ os ∧ 0 ≤ ns ∧ 0 ≤ na ∧ (has fl MREMAP_FIXED = true → na + ns ≤ U64 - PAGE_SIZE)
  | _ => True
  end.
Abbreviation dispatch := (dispatch ops checks host_ok now).
Lemma dispatch_safe c : call_ok c → safe (dispatch c).
Proof.
  destruct c; simpl; intros Hc.
  - by apply brk_safe.
  - apply mmap_safe; tauto.
  - apply t_then; [apply quiet_peek|]. intros k0. destruct (is_sealed _ _ _); [apply t_done|apply munmap_safe; tauto].
  - apply quiet_safe, quiet_mprotect_sealed.
  - apply t_then; [apply quiet_peek|]. intros k0. destruct (is_sealed _ _ _); [apply t_done|]. apply mremap_safe; tauto.
  - apply quiet_safe, quiet_madvise.
  - apply quiet_safe, quiet_mincore.
  - apply quiet_safe, quiet_msync.
  - apply quiet_safe, quiet_mseal.
  - apply quiet_safe, quiet_mlock.
  - apply quiet_safe, quiet_mlock.
  - apply quiet_safe, quiet_mlock.
  - apply quiet_safe, quiet_mlockall.
  - apply quiet_safe. hush.
Qed.

(** What a process' memory goes through: memory calls; accesses, faults and calls that map
    nothing; and changes to anything else. *)
Inductive mem_step : Kst F → Kst F → Prop :=
| step_call k c r k' : call_ok c → dispatch c k = Ok (r, k') → mem_step k k'
| step_access k A (m : M A) a k' : grows b sz none m → mem m k = Ok (a, k') → mem_step k k'
| step_other k k' : k_mem k' = k_mem k → k_arena k' = k_arena k → heap_limit (k_cur k') = heap_limit (k_cur k) →
    brk (k_cur k') = brk (k_cur k) → mem_step k k'.

Lemma mem_step_ok k k' : mem_step k k' → mem_ok nowhere k → mem_ok nowhere k'.
Proof.
  assert (∀ k, mem_ok nowhere k ↔ inv nowhere nowhere k) as HI by (intros; split; [by split|by intros []]).
  intros [? c r k1 Hc E|? A m a k1 Hm E|? k1 E1 E2 E3 E4] HM.
  - apply HI in HM. apply HI. by eapply (dispatch_safe c Hc).
  - apply HI in HM. apply HI. by eapply (quiet_mem m Hm).
  - destruct HM as [H1 H2 H3 H4 H5 H6]. split; rewrite ?E1, ?E2, ?E3, ?E4; done.
Qed.
Lemma steps_ok k k' : rtc mem_step k k' → mem_ok nowhere k → mem_ok nowhere k'.
Proof. induction 1; eauto using mem_step_ok. Qed.

(** ** Where [mmap] lands *)

(** A call that fails, or that returns [a]. *)
Definition gives (a : Z) (r : Z) : Prop := r < 0 ∨ r = as_i64 a.
Definition anything (k : Kst F) : Prop := True.
Lemma t_any {A} P (m : K (F := F) A) : triple P m (λ _, anything).
Proof. by intros k a k' _ _. Qed.
Lemma t_after {A B} (m : K A) (f : A → K B) P Q : (∀ a, triple anything (f a) Q) → triple P (m ≫= f) Q.
Proof. intros H. eapply t_bind; [apply t_any|]. exact H. Qed.

Lemma refused_negative k len prot flags e : mmap_refused (F := F) k len prot flags = Some e → err e < 0.
Proof. unfold mmap_refused. repeat case_match; intros; simplify_eq; done. Qed.
Lemma source_negative k flags fd e : file_source (F := F) k flags fd = inl e → err e < 0.
Proof. unfold file_source. repeat case_match; intros; simplify_eq; done. Qed.
Lemma shared_negative pc t path offset base len prot σ e c σ' :
  pc_map_shared ops checks host_ok pc t path offset base len prot σ = Ok ((inl e, c), σ') → e < 0.
Proof.
  unfold pc_map_shared. destruct (pc_key ops t path) as [key|]; [|intros E; by injection E as <- _ _].
  unfold mbind, ST_bind. destruct (host_ok _); [|done]. unfold mret at 1, ST_ret at 1.
  destruct (pool _ σ) as [[[pages [[fr fresh]|]] σ1]|]; [| |done].
  - destruct (pool _ σ1) as [[[] σ2]|]; [|done]. destruct (map_frames base fr prot σ2) as [[[er|u] σ3]|]; intros E; try done.
    by injection E as <- _ _.
  - intros E. by injection E as <- _ _.
Qed.
Lemma value_shared base len path offset prot P :
  triple P (mmap_shared ops checks host_ok base len path offset prot) (λ r _, gives base r).
Proof.
  intros k r k' _ E. unfold mmap_shared in E. unfold mbind, ST_bind, peek in E. cbn [id] in E.
  unfold MemCalls.mem in E. destruct (pc_map_shared _ _ _ _ _ _ _ _ _ _ _) as [[[[e|u] c] [s g]]|] eqn:Ep; [..|done].
  - apply shared_negative in Ep. unfold set in E. injection E as <- _. by left.
  - destruct (prot_contains prot Prot_WRITE); injection E as <- _; by right.
Qed.
Lemma value_fill base len path offset P :
  triple P (mmap_fill ops checks host_ok base len path offset) (λ r _, gives base r).
Proof.
  unfold mmap_fill. do 3 (apply t_after; intros ?). apply t_after. intros r. apply t_ret. intros k _.
  destruct (is_err r); [by left|by right].
Qed.

(** Until the arena is asked nothing has changed, and what it gives is the result. *)
Lemma mmap_value k1 addr len prot flags fd offset :
  fixed_place addr flags = false → 0 ≤ len →
  triple (λ k, k = k1) (sys_mmap_unlocked ops checks host_ok addr len prot flags fd offset) (λ r _,
    r < 0 ∨ ∃ n a A, u64_mul checks (div_ceil len PAGE_SIZE) PAGE_SIZE = Ok n ∧ alloc (k_arena k1) n = (Some a, A) ∧ r = as_i64 a).
Proof.
  intros Hf Hl. unfold sys_mmap_unlocked. eapply (t_bind _ _ _ (λ _ k, k = k1)).
  { intros k r k' -> E. unfold address_space_exceeded, mbind, ST_bind, peek in E. cbn [id] in E. by injection E as _ <-. }
  intros [|]; [apply t_ret; by left|]. eapply t_bind; [apply t_peek|]. intros k0.
  destruct (mmap_refused k0 len prot flags) as [e|] eqn:Er; [apply t_ret; left; by eapply refused_negative|].
  unfold page_up. eapply t_bind; [apply t_res|]. intros n. apply t_fact. intros En.
  destruct (file_source k0 flags fd) as [e|src] eqn:Es; [apply t_ret; left; by eapply source_negative|].
  destruct (match src with Some _ => _ | None => _ end); [apply t_ret; by left|].
  unfold mmap_place. rewrite Hf. eapply t_bind.
  { eapply t_bind; [|intros r; apply (t_ret _ _ (λ p _, match p with inl e => err e < 0 | inr base => ∃ A, alloc (k_arena k1) n = (Some base, A) end))].
    - intros k r k' -> E. unfold arena_alloc, mbind, ST_bind, peek, set in E. cbn [id] in E.
      instantiate (1 := λ r _, match r with Some base => ∃ A, alloc (k_arena k1) n = (Some base, A) | None => True end).
      destruct (alloc (k_arena k1) n) as [[base|] A]; injection E as <- _; [by exists A|done].
    - intros k Hk. destruct r as [base|]; [done|done]. }
  intros [e|base]; [apply t_ret; by left|].
  assert (∀ (m : K Z), triple anything m (λ r _, gives base r) → triple (λ _ : Kst F, ∃ A, alloc (k_arena k1) n = (Some base, A)) m
    (λ r _, r < 0 ∨ ∃ n a A, u64_mul checks (div_ceil len PAGE_SIZE) PAGE_SIZE = Ok n ∧ alloc (k_arena k1) n = (Some a, A) ∧ r = as_i64 a)) as Hgo.
  { intros m Hm k r k' [A HA] E. destruct (Hm k r k' I E) as [Hr|Hr]; [by left|]. right. by exists n, base, A. }
  destruct src as [path|].
  - destruct (has flags MAP_SHARED); [apply Hgo, value_shared|]. apply Hgo, t_after. intros r.
    destruct (is_err r); [apply t_ret; by left|apply value_fill].
  - apply Hgo, t_after. intros r. apply t_ret. intros k _. destruct (is_err r); [by left|by right].
Qed.
End Calls.

(** C6: An [mmap] that lets the kernel choose the place never lands on memory in use. In every
    run of memory calls, successful or not, from an address space whose arena is unmapped, with
    accesses, faults and calls that map nothing in between, but without a [mremap] to a fixed range
    that ends past the last page below 2^64, an [mmap] without a fixed address and of at most
    2^64 - 4096 bytes returns an error or a range of the arena in which no page was mapped. *)
Theorem mmap_lands_free {F} (ops : MountFs F) checks host_ok now b sz k0 k addr len prot flags fd offset r k' :
  0 ≤ b → paged b → paged sz → b + sz ≤ 2 ^ 63 → mem_ok b sz nowhere k0 →
  rtc (mem_step ops checks host_ok now b sz) k0 k →
  fixed_place addr flags = false → 0 < len ≤ U64 - PAGE_SIZE →
  sys_mmap ops checks host_ok addr len prot flags fd offset k = Ok (r, k') →
  r < 0 ∨ (∀ x, r ≤ x < r + len →
    Arena.floor (k_arena k) ≤ x < Arena.top (k_arena k) ∧ pv_val (mapped (k_mem k)) ((x - b) / PAGE_SIZE) = false).
Proof.
  intros Hb Pb Psz Htop H0 Hrun Hf Hl E. pose proof (steps_ok ops checks host_ok now b sz Hb Pb Htop Psz _ _ Hrun H0) as HM.
  unfold sys_mmap, page_up in E. unfold mbind at 1, ST_bind at 1 in E. unfold of_res in E.
  destruct (u64_mul checks (div_ceil len PAGE_SIZE) PAGE_SIZE) as [n|] eqn:En; [|done].
  unfold mbind at 1, ST_bind at 1, peek in E. cbn [id] in E. unfold mbind at 1, ST_bind at 1 in E.
  match type of E with match ?m with _ => _ end = _ => destruct m as [[ok k1]|] eqn:Ek end; [|done].
  assert (k1 = k) as ->.
  { destruct (has flags MAP_LOCKED || locks_future (k_mem k)); [|by injection Ek as _ <-]. unfold memlock_allows, mbind, ST_bind, peek in Ek. cbn [id] in Ek. by injection Ek as _ <-. }
  destruct ok; cbn [negb] in E; [|injection E as <- _; by left]. unfold mbind at 1, ST_bind at 1 in E.
  destruct (sys_mmap_unlocked _ _ _ _ _ _ _ _ _ k) as [[r1 k2]|] eqn:Eu; [|done].
  assert (r1 = r) as ->.
  { unfold mbind, ST_bind in E. match type of E with match ?m with _ => _ end = _ => destruct m as [[[] k3]|] end; [by injection E as <- _|done]. }
  destruct (mmap_value ops checks host_ok k addr len prot flags fd offset Hf ltac:(lia) k r k2 eq_refl Eu)
    as [Hr|(n' & a & A & En' & Ea & ->)]; [by left|right].
  rewrite En in En'. injection En' as <-.
  assert (n = div_ceil len PAGE_SIZE * PAGE_SIZE ∧ len ≤ n) as [En2 Hn].
  { unfold u64_mul in En. assert (div_ceil len PAGE_SIZE * PAGE_SIZE < U64 ∧ len ≤ div_ceil len PAGE_SIZE * PAGE_SIZE) as [H1 H2].
    { unfold div_ceil, U64, PAGE_SIZE in *. divlia. }
    destruct (Z.ltb_spec (div_ceil len PAGE_SIZE * PAGE_SIZE) U64); [|lia]. by injection En as <-. }
  pose proof (arena_alloc_spec (k_arena k) n (mo_arena _ _ _ _ HM) ltac:(lia)) as P. rewrite Ea in P. destruct P as (_ & Hin & _).
  assert (∀ x, a ≤ x < a + n → b ≤ x < b + sz) as Hex by (intros x Hx; exact (unused_extent b sz _ _ _ HM (Hin x Hx))).
  assert (as_i64 a = a) as ->.
  { pose proof (Hex a ltac:(lia)). pose proof (Hex (a + n - 1) ltac:(lia)). unfold as_i64. rewrite Z.mod_small by (unfold U64; lia).
    destruct (Z.ltb_spec a (2 ^ 63)); [done|lia]. }
  intros x Hx. specialize (Hin x ltac:(lia)). split; [apply (unused_bounds _ _ (mo_arena _ _ _ _ HM) Hin)|].
  apply (mo_blank _ _ _ _ HM x Hin). by intros [].
Qed.
