(* ===== verification/MemDemo.v ===== *)
(** The memory calls on a small address space: the run behind [mmap_lands_free], and runs that
    show where the calls differ from what their comments or Linux say. *)
From S2P Require Import Prelude Phys PageTable PageVec PageTree GuestMem GuestSpec PageLocks Arena Path Vfs Tmpfs Mount MountPath MountSpec Fd FileLocks Abi Seccomp PageCache PageCacheSpec MemCalls MemTrack MemSpec.
From stdpp Require Import base numbers gmap list relations.
Local Open Scope Z_scope.

Definition demo_fds : FdTable := mkFdTable {[3 := File demo_path 0 true true]} ∅ ∅.
Definition demo_task : Task := mkTask 1 0x6000 0x6000 0x8000 [] demo_fds (λ _, RLIM_INFINITY) true 0.
(** Sixteen pages at 0 of which page 5 is mapped; the arena is [0x8000, 0x10000). *)
Definition demo_k : Kst TmpFs :=
  mkK demo_mapped demo_gm (arena_new 0x10000 0x8000) cache_new demo_table ∅ [] demo_task.

Inductive Act := Do (c : Call) | Put (addr : Z) (bytes : list Z).
Definition act (checks : bool) (host_ok : Z → bool) (a : Act) : K (F := TmpFs) Z :=
  match a with
  | Do c => dispatch demo_ops checks host_ok 1 c
  | Put addr bytes => r ← mem (mem_write addr bytes); mret (if is_err r then -1 else 0)
  end.
Fixpoint acts (checks : bool) (host_ok : Z → bool) (l : list Act) : K (F := TmpFs) (list Z) :=
  match l with
  | [] => mret []
  | a :: l => r ← act checks host_ok a; rs ← acts checks host_ok l; mret (r :: rs)
  end.
Definition run (checks : bool) (l : list Act) : res (list Z * Kst TmpFs) := acts checks (λ _, true) l demo_k.
Definition results (r : res (list Z * Kst TmpFs)) : option (list Z) := match r with Ok (l, _) => Some l | Panic => None end.
(** What [read] of the first eight bytes of the file would give, the page cache included. *)
Definition contents (r : res (list Z * Kst TmpFs)) : option (list Z) :=
  match r with
  | Ok (_, k) =>
    match vfs_read demo_ops true (k_cache k) (k_vfs k) demo_path 0 8 (phys (k_pool k)) with
    | Ok (Good bs) => Some bs
    | _ => None
    end
  | Panic => None
  end.
Definition page_mapped (r : res (list Z * Kst TmpFs)) (p : Z) : option bool :=
  match r with Ok (_, k) => Some (pv_val (mapped (k_mem k)) p) | Panic => None end.
Definition free_list (r : res (list Z * Kst TmpFs)) : option (list (Z * Z)) :=
  match r with Ok (_, k) => Some (Arena.free (k_arena k)) | Panic => None end.

Definition PRW : Z := 3.
Definition ANON : Z := Z.lor 2 MAP_ANONYMOUS.
Definition ANON_FIXED : Z := Z.lor ANON MAP_FIXED.
Definition SHARED_ANON : Z := Z.lor MAP_SHARED MAP_ANONYMOUS.

(** * Runs *)

Lemma demo_mem_ok : mem_ok 0 65536 nowhere demo_k.
Proof.
  destruct (set_page_ok 16 false 5 true ltac:(lia)) as (_ & _ & _ & B). split.
  - split; [reflexivity|]. split; [reflexivity|]. apply demo_gm_wf.
  - apply arena_new_ok; unfold U64; lia.
  - split; [reflexivity|reflexivity|constructor].
  - split; vm_compute; discriminate.
  - split; vm_compute; discriminate.
  - intros x [Hx|Hx] _; [|by apply listed_nil in Hx]. change (0x8000 ≤ x < 0x10000) in Hx.
    unfold blank. change (mapped (k_mem demo_k)) with (set_page (pv_new 16 false) 5 true).
    unfold PAGE_SIZE. rewrite B, decide_False; [reflexivity|divlia|divlia].
Qed.

(** The state a call leaves, and the call's equation from its result. *)
Definition left_by (m : K (F := TmpFs) Z) (k : Kst TmpFs) : Kst TmpFs :=
  match m k with Ok (_, k') => k' | Panic => k end.
Lemma returns (m : K Z) k r :
  match m k with Ok (x, _) => x =? r | Panic => false end = true → m k = Ok (r, left_by m k).
Proof. unfold left_by. destruct (m k) as [[x k']|]; [|discriminate]. by intros ->%Z.eqb_eq. Qed.

Definition demo_first : Kst TmpFs := left_by (act true (λ _, true) (Do (CMmap 0 4096 PRW ANON 0 0))) demo_k.
(** Two pages asked for after one was handed out and is in use. *)
Lemma mmap_lands_free_witness :
  ∃ k', sys_mmap demo_ops true (λ _, true) 0 8192 PRW ANON 0 0 demo_first = Ok (53248, k') ∧
  (53248 < 0 ∨ ∀ x, 53248 ≤ x < 53248 + 8192 →
    Arena.floor (k_arena demo_first) ≤ x < Arena.top (k_arena demo_first) ∧
    pv_val (mapped (k_mem demo_first)) ((x - 0) / PAGE_SIZE) = false).
Proof.
  assert (sys_mmap demo_ops true (λ _, true) 0 8192 PRW ANON 0 0 demo_first
    = Ok (53248, left_by (sys_mmap demo_ops true (λ _, true) 0 8192 PRW ANON 0 0) demo_first)) as E
    by (apply returns; vm_compute; reflexivity).
  eexists. split; [exact E|].
  refine (mmap_lands_free demo_ops true (λ _, true) 1 0 65536 demo_k demo_first 0 8192 PRW ANON 0 0 _ _
    ltac:(lia) _ _ ltac:(lia) demo_mem_ok _ _ _ E).
  - reflexivity.
  - reflexivity.
  - apply rtc_once. refine (step_call demo_ops true (λ _, true) 1 0 65536 demo_k (CMmap 0 4096 PRW ANON 0 0) 61440 _ _ _).
    + split; lia.
    + apply (returns (act true (λ _, true) (Do (CMmap 0 4096 PRW ANON 0 0)))). vm_compute. reflexivity.
  - reflexivity.
  - unfold U64, PAGE_SIZE. lia.
Defined.

(** * A fixed mapping over a shared one *)

(** A page of the file is mapped shared; private anonymous memory is mapped over it with
    [MAP_FIXED], written and unmapped. *)
Definition overwritten : list Act :=
  [Do (CMmap 0 4096 PRW MAP_SHARED 3 0); Do (CMmap 0xf000 4096 PRW ANON_FIXED 0 0); Put 0xf000 [7; 7; 7];
   Do (CMunmap 0xf000 4096)].
(** [mmap] with [MAP_FIXED] leaves the record of a writable shared mapping it replaces in
    place: the file held [1 2 3], a private anonymous mapping is put over its shared mapping, 7s
    are stored in the private memory, and the [munmap] of it writes the 7s into the file. *)
Theorem fixed_map_reaches_file :
  contents (run true []) = Some [1; 2; 3] ∧
  results (run true overwritten) = Some [0xf000; 0xf000; 0; 0] ∧ contents (run true overwritten) = Some [7; 7; 7].
Proof. vm_compute. done. Qed.

(** * Other differences *)

(** In a build without overflow checks a length or break near 2^64 rounds up to 0: the calls
    succeed and map nothing. With checks they panic. *)
Definition huge : list Act := [Do (CMmap 0 (U64 - 1) PRW ANON 0 0); Do (CBrk (U64 - 1))].
Lemma length_wraps :
  results (run false huge) = Some [0x10000; -1] ∧ results (run true huge) = None ∧
  page_mapped (run false huge) 15 = Some false.
Proof. vm_compute. done. Qed.

(** A sealed read-only mapping refuses [munmap] and [mprotect], and [mmap] with [MAP_FIXED]
    replaces it by a writable one. *)
Definition replaced : list Act :=
  [Do (CMmap 0 4096 1 ANON 0 0); Do (CMseal 0xf000 4096 0); Do (CMunmap 0xf000 4096);
   Do (CMprotect 0xf000 4096 PRW); Do (CMmap 0xf000 4096 PRW ANON_FIXED 0 0); Put 0xf000 [1]].
Lemma sealed_mapping_replaced : results (run true replaced) = Some [0xf000; 0; -1; -1; 0xf000; 0].
Proof. vm_compute. done. Qed.

(** Unmapping one page of a shared mapping of two forgets the whole mapping: what is stored
    through the other page afterwards is lost with it. *)
Definition two_pages (between : list Act) : list Act :=
  Do (CMmap 0 8192 PRW MAP_SHARED 3 0) :: between ++ [Put 0xe000 [9; 9]; Do (CMunmap 0xe000 4096)].
Lemma partial_munmap_loses_writes :
  contents (run true (two_pages [])) = Some [9; 9; 3] ∧
  results (run true (two_pages [Do (CMunmap 0xf000 4096)])) = Some [0xe000; 0; 0; 0] ∧
  contents (run true (two_pages [Do (CMunmap 0xf000 4096)])) = Some [1; 2; 3].
Proof. vm_compute. done. Qed.

(** A [mremap] to a range that ends past 2^64 fails with [ENOMEM] and leaves a page mapped that
    the arena still lists as free: the next [mmap] is given a page in use. *)
Definition wrapping : list Act :=
  [Do (CMmap 0 4096 PRW SHARED_ANON 0 0); Do (CMmap 0 4096 PRW SHARED_ANON 0 0); Put 0xe000 [5];
   Do (CMunmap 0xf000 4096); Do (CMremap 0xe000 4096 (U64 - 0xf000) 3 0xf000)].
Lemma failed_mremap_stays_mapped :
  results (run true wrapping) = Some [0xf000; 0xe000; 0; 0; -12] ∧
  page_mapped (run true wrapping) 15 = Some true ∧ free_list (run true wrapping) = Some [(0xf000, 4096)] ∧
  results (run true (wrapping ++ [Do (CMmap 0 4096 PRW SHARED_ANON 0 0)]))
    = Some [0xf000; 0xe000; 0; 0; -12; 0xf000].
Proof. vm_compute. done. Qed.

(** A shared mapping of 2^62 bytes at a fixed address aborts the host when it cannot allocate
    the list of frame numbers, which comes before any check of the range. *)
Lemma huge_shared_map_aborts :
  sys_mmap demo_ops true (λ n, n <? 2 ^ 40) 0x8000 (2 ^ 62) PRW (Z.lor MAP_SHARED MAP_FIXED) 3 0 demo_k = Panic.
Proof. vm_compute. reflexivity. Qed.
