(* ===== verification/Ipc.v ===== *)
(** System V IPC ([src/kernel/ipc.rs]): permissions, the keyed lookup the three [*get] calls
    share, message queues and semaphore sets. Sums of guest addresses wrap, as in a release
    build; [now] is the wall clock in seconds, [now_ns] the one deadlines use. *)
From S2P Require Import Prelude Iface Abi PageLocks Quota FileLocks.
From stdpp Require Import base numbers gmap relations list.
Local Open Scope Z_scope.

Definition IPC_PRIVATE : Z := 0.
Definition IPC_CREAT : Z := 0x200.
Definition IPC_EXCL : Z := 0x400.
Definition IPC_NOWAIT : Z := 0x800.
Definition MSG_NOERROR : Z := 0x1000.
Definition MSG_EXCEPT : Z := 0x2000.
Definition MSG_COPY : Z := 0x4000.
Definition SEM_UNDO : Z := 0x1000.
Definition MSGMAX : Z := 8192.
Definition MSGMNB : Z := 16384.
Definition MSGMNI : Z := 32000.
Definition SEMMSL : Z := 32000.
Definition SEMMNI : Z := 32000.
Definition SEMOPM : Z := 500.
Definition SEMVMX : Z := 32767.
Definition I32_MIN : Z := - 2 ^ 31.
Definition IMAX : Z := 2 ^ 31 - 1.
Definition has (flags bits : Z) : bool := negb (Z.land flags bits =? 0).

(** [Perm], and the caller it is checked against. *)
Record Perm := mkPerm {
  p_ns : Z; p_key : Z; p_uid : Z; p_gid : Z; p_cuid : Z; p_cgid : Z; p_mode : Z; p_seq : Z
}.
Record Caller := mkCaller { c_euid : Z; c_egid : Z; c_ipc : Z; c_tgid : Z; c_privileged : bool }.

Definition perm_new (key : Z) (c : Caller) (mode seq : Z) : Perm :=
  mkPerm (c_ipc c) key (c_euid c) (c_egid c) (c_euid c) (c_egid c) (Z.land mode 0x1ff) seq.
Definition allows (p : Perm) (c : Caller) (want : Z) : bool :=
  if c_euid c =? 0 then true
  else
    let bits :=
      if (c_euid c =? p_uid p) || (c_euid c =? p_cuid p) then Z.shiftr (p_mode p) 6
      else if (c_egid c =? p_gid p) || (c_egid c =? p_cgid p) then Z.shiftr (p_mode p) 3
      else p_mode p in
    Z.land bits want =? want.
Definition perm_owner (p : Perm) (c : Caller) : bool :=
  (c_euid c =? 0) || (c_euid c =? p_uid p) || (c_euid c =? p_cuid p).
(** [encode] writes the first 26 bytes of the 48 of [struct ipc64_perm]. *)
Definition perm_encode (p : Perm) : list Z :=
  le_bytes 4 (p_key p) ++ le_bytes 4 (p_uid p) ++ le_bytes 4 (p_gid p) ++ le_bytes 4 (p_cuid p)
  ++ le_bytes 4 (p_cgid p) ++ le_bytes 4 (p_mode p) ++ le_bytes 2 (p_seq p) ++ replicate 22 0.
Definition perm_set_from (p : Perm) (b : list Z) : Perm :=
  let mode := le_val (take 4 (drop 20 b)) in
  mkPerm (p_ns p) (p_key p) (le_val (take 4 (drop 4 b))) (le_val (take 4 (drop 8 b)))
    (p_cuid p) (p_cgid p) (Z.lor (Z.ldiff (p_mode p) 0x1ff) (Z.land mode 0x1ff)) (p_seq p).

Record MsgQueue := mkQ {
  q_perm : Perm; q_msgs : list (Z * list Z); q_qbytes : Z;
  q_stime : Z; q_rtime : Z; q_ctime : Z; q_lspid : Z; q_lrpid : Z
}.
Definition bytes_of (msgs : list (Z * list Z)) : Z :=
  foldr (λ m n, Z.of_nat (length m.2) + n) 0 msgs.
Definition cbytes (q : MsgQueue) : Z := bytes_of (q_msgs q).

Record SemSet := mkSem { sm_perm : Perm; vals : list Z; pids : list Z; otime : Z; sm_ctime : Z }.

(** [Ipc], without the shared-memory segments; [semadj] by thread group, set and number. *)
Record Ipc := mkIpc {
  msq : gmap Z MsgQueue;
  sem : gmap Z SemSet;
  ipc_next : Z;
  removed : gset Z;
  semadj : gmap (Z * Z * Z) Z
}.
Definition ipc_default : Ipc := mkIpc ∅ ∅ 0 ∅ ∅.

(** [alloc_id] on [u32]. *)
Definition alloc_id (i : Ipc) : Z * Z * Ipc :=
  let n := ipc_next i in
  let seq := n / 32768 mod U16 in
  (Z.land ((n mod 32768 + seq * 32768) mod U32) IMAX, seq,
   mkIpc (msq i) (sem i) (wrap U32 (n + 1)) (removed i) (semadj i)).

(** [ipc_get!]: an answer, or [None] to create the object. *)
Definition ipc_get {O} (perm_of : O → Perm) (m : gmap Z O) (c : Caller) (key flags max : Z)
    (fits : O → bool) : option Z :=
  let existing :=
    if key =? IPC_PRIVATE then None
    else head (filter (λ x, p_key (perm_of x.2) = key ∧ p_ns (perm_of x.2) = c_ipc c) (bt_list m)) in
  match existing with
  | Some (id, o) =>
    Some (if has flags IPC_CREAT && has flags IPC_EXCL then err EEXIST
          else if negb (allows (perm_of o) c (Z.land (Z.shiftr (Z.land flags 0x1ff) 6) 6)) then err EACCES
          else if negb (fits o) then err EINVAL
          else id)
  | None =>
    if negb (key =? IPC_PRIVATE) && negb (has flags IPC_CREAT) then Some (err ENOENT)
    else if max <=? Z.of_nat (size m) then Some (err ENOSPC)
    else None
  end.

(** [ipc_gone]. *)
Definition ipc_gone (i : Ipc) (id : Z) : Z :=
  if decide (id ∈ removed i) then err EIDRM else err EINVAL.

(** The outcome of a call that may block or wake: [Out] of [FileLocks] with the table. *)
Record Ret := mkRet { r_ret : Z; r_block : bool; r_unpark : bool }.
Definition ret (r : Z) : Ret := mkRet r false false.
Definition ipc_block : Ret := mkRet 0 true false.
Definition woke (r : Z) : Ret := mkRet r false true.

(** * Message queues *)

Definition put_msq (i : Ipc) (id : Z) (q : MsgQueue) : Ipc :=
  mkIpc (<[id := q]> (msq i)) (sem i) (ipc_next i) (removed i) (semadj i).

Definition sys_msgget (now : Z) (c : Caller) (i : Ipc) (key flags : Z) : Z * Ipc :=
  let key := as_i32 key in
  match ipc_get q_perm (msq i) c key flags MSGMNI (λ _, true) with
  | Some r => (r, i)
  | None =>
    let '(id, seq, i) := alloc_id i in
    (id, put_msq i id (mkQ (perm_new key c flags seq) [] MSGMNB 0 0 now 0 0))
  end.

Section Msg.
Context `{GuestMem M} (now : Z) (c : Caller).

Definition sys_msgsnd (i : Ipc) (quota : Quota) (a : list Z) (mem : M) : Ret * Ipc * Quota :=
  let id := as_i32 (nth 0 a 0) in
  let msgp := nth 1 a 0 in
  let sz := nth 2 a 0 in
  let flags := nth 3 a 0 in
  if (as_i64 sz <? 0) || (MSGMAX <? sz) || (id <? 0) then (ret (err EINVAL), i, quota)
  else match gm_read_u64 mem msgp with
  | None => (ret (err EFAULT), i, quota)
  | Some mtype =>
    if as_i64 mtype <? 1 then (ret (err EINVAL), i, quota)
    else match gm_read mem (wrap U64 (msgp + 8)) sz with
    | None => (ret (err EFAULT), i, quota)
    | Some text =>
      match msq i !! id with
      | None => (ret (ipc_gone i id), i, quota)
      | Some q =>
        if negb (allows (q_perm q) c 2) then (ret (err EACCES), i, quota)
        else if (q_qbytes q <? cbytes q + sz) || (q_qbytes q <=? Z.of_nat (length (q_msgs q))) then
          (if has flags IPC_NOWAIT then ret (err EAGAIN) else ipc_block, i, quota)
        else match try_charge quota (Z.of_nat (length text)) with
        | Some (Granted _, quota') =>
          (woke 0, put_msq i id (mkQ (q_perm q) (q_msgs q ++ [(as_i64 mtype, text)]) (q_qbytes q)
                                   now (q_rtime q) (q_ctime q) (c_tgid c) (q_lrpid q)), quota')
        | _ => (ret (err ENOMEM), i, quota)
        end
      end
    end
  end.

(** The message [msgrcv] selects. *)
Fixpoint find_pos (f : Z → bool) (n : nat) (msgs : list (Z * list Z)) : option nat :=
  match msgs with
  | [] => None
  | m :: msgs => if f m.1 then Some n else find_pos f (S n) msgs
  end.
(** [min_by_key] over the types at most [lim]: the first of the least. *)
Fixpoint min_type (lim : Z) (n : nat) (msgs : list (Z * list Z)) (best : option (nat * Z)) : option (nat * Z) :=
  match msgs with
  | [] => best
  | m :: msgs =>
    let best :=
      if m.1 <=? lim then
        match best with
        | Some (_, k) => if m.1 <? k then Some (n, m.1) else best
        | None => Some (n, m.1)
        end
      else best in
    min_type lim (S n) msgs best
  end.
Definition pick_msg (q : MsgQueue) (typ flags : Z) : option nat :=
  if has flags MSG_COPY then
    if (0 <=? typ) && (typ <? Z.of_nat (length (q_msgs q))) then Some (Z.to_nat typ) else None
  else if typ =? 0 then match q_msgs q with [] => None | _ => Some 0%nat end
  else if 0 <? typ then find_pos (λ t, negb (Bool.eqb (t =? typ) (has flags MSG_EXCEPT))) 0 (q_msgs q)
  else fst <$> min_type (as_i64 (- typ)) 0 (q_msgs q) None.

Definition sys_msgrcv (i : Ipc) (quota : Quota) (a : list Z) (mem : M) : Ret * Ipc * Quota * M :=
  let id := as_i32 (nth 0 a 0) in
  let msgp := nth 1 a 0 in
  let sz := nth 2 a 0 in
  let typ := as_i64 (nth 3 a 0) in
  let flags := nth 4 a 0 in
  if (as_i64 sz <? 0) || (id <? 0) then (ret (err EINVAL), i, quota, mem)
  else if has flags MSG_COPY && (negb (has flags IPC_NOWAIT) || has flags MSG_EXCEPT)
  then (ret (err EINVAL), i, quota, mem)
  else match msq i !! id with
  | None => (ret (ipc_gone i id), i, quota, mem)
  | Some q =>
    if negb (allows (q_perm q) c 4) then (ret (err EACCES), i, quota, mem)
    else match (n ← pick_msg q typ flags; m ← q_msgs q !! n; Some (n, m)) with
    | None => (if has flags IPC_NOWAIT then ret (err ENOMSG) else ipc_block, i, quota, mem)
    | Some (k, (mtype, text)) =>
      let len := Z.of_nat (length text) in
      if (sz <? len) && negb (has flags MSG_NOERROR) then (ret (err E2BIG), i, quota, mem)
      else
        let n := Z.min len sz in
        match gm_write mem msgp (le_bytes 8 mtype ++ take (Z.to_nat n) text) with
        | None => (ret (err EFAULT), i, quota, mem)
        | Some mem' =>
          if has flags MSG_COPY then (ret n, i, quota, mem')
          else
            let quota' := match release quota len with Some (_, q') => q' | None => quota end in
            (woke n, put_msq i id (mkQ (q_perm q) (delete k (q_msgs q)) (q_qbytes q) (q_stime q) now
                                     (q_ctime q) (q_lspid q) (c_tgid c)), quota', mem')
        end
    end
  end.

(** [sys_msgctl]. *)
Definition ids_in_ns {O} (perm_of : O → Perm) (m : gmap Z O) : list Z :=
  (filter (λ x, p_ns (perm_of x.2) = c_ipc c) (bt_list m)).*1.
Definition max_id (l : list Z) : Z := match last l with Some id => id | None => 0 end.
Definition msg_info (i : Ipc) (info : bool) : list Z :=
  let used := foldr (λ x n, Z.of_nat (length (q_msgs x.2)) + n) 0 (map_to_list (msq i)) in
  let bytes := foldr (λ x n, cbytes x.2 + n) 0 (map_to_list (msq i)) in
  (if info then [Z.of_nat (size (msq i)); used; MSGMAX; MSGMNB; MSGMNI; 16; bytes]
   else [MSGMNI * MSGMNB / 1024; MSGMNB / 16; MSGMAX; MSGMNB; MSGMNI; 16; MSGMNB]).
Definition msqid_ds (q : MsgQueue) : list Z :=
  perm_encode (q_perm q) ++ le_bytes 8 (q_stime q) ++ le_bytes 8 (q_rtime q) ++ le_bytes 8 (q_ctime q)
  ++ le_bytes 8 (cbytes q) ++ le_bytes 8 (Z.of_nat (length (q_msgs q))) ++ le_bytes 8 (q_qbytes q)
  ++ le_bytes 4 (q_lspid q) ++ le_bytes 4 (q_lrpid q) ++ replicate 16 0.
Definition sys_msgctl (i : Ipc) (quota : Quota) (id cmd buf : Z) (mem : M) : Ret * Ipc * Quota * M :=
  let cmd := Z.ldiff cmd 0x100 in
  let id32 := as_i32 id in
  if (cmd =? 3) || (cmd =? 12) then
    match gm_write mem buf ((msg_info i (cmd =? 12) ≫= le_bytes 4) ++ le_bytes 2 0xffff ++ [0; 0]) with
    | None => (ret (err EFAULT), i, quota, mem)
    | Some mem' => (ret (max_id (ids_in_ns q_perm (msq i))), i, quota, mem')
    end
  else if (cmd =? 2) || (cmd =? 11) || (cmd =? 13) then
    match (if cmd =? 2 then Some id32 else ids_in_ns q_perm (msq i) !! Z.to_nat id) with
    | None => (ret (err EINVAL), i, quota, mem)
    | Some id =>
      match msq i !! id with
      | None => (ret (err EINVAL), i, quota, mem)
      | Some q =>
        if negb (cmd =? 13) && negb (allows (q_perm q) c 4) then (ret (err EACCES), i, quota, mem)
        else match gm_write mem buf (msqid_ds q) with
        | None => (ret (err EFAULT), i, quota, mem)
        | Some mem' => (ret (if cmd =? 2 then 0 else id), i, quota, mem')
        end
      end
    end
  else if cmd =? 1 then
    match gm_read mem buf 120 with
    | None => (ret (err EFAULT), i, quota, mem)
    | Some raw =>
      match msq i !! id32 with
      | None => (ret (err EINVAL), i, quota, mem)
      | Some q =>
        let qbytes := le_val (take 8 (drop 88 raw)) in
        if negb (perm_owner (q_perm q) c) then (ret (err EPERM), i, quota, mem)
        else if (MSGMNB <? qbytes) && negb (c_privileged c) then (ret (err EPERM), i, quota, mem)
        else (woke 0, put_msq i id32 (mkQ (perm_set_from (q_perm q) raw) (q_msgs q)
                (Z.min qbytes (Z.shiftl 64 20)) (q_stime q) (q_rtime q) now (q_lspid q) (q_lrpid q)),
              quota, mem)
      end
    end
  else if cmd =? 0 then
    match msq i !! id32 with
    | None => (ret (err EINVAL), i, quota, mem)
    | Some q =>
      if negb (perm_owner (q_perm q) c) then (ret (err EPERM), i, quota, mem)
      else
        let quota' := match release quota (cbytes q) with Some (_, q') => q' | None => quota end in
        (woke 0, mkIpc (delete id32 (msq i)) (sem i) (ipc_next i) ({[id32]} ∪ removed i) (semadj i),
         quota', mem)
    end
  else (ret (err EINVAL), i, quota, mem).
End Msg.

(** * Semaphores *)

Definition put_sem (i : Ipc) (id : Z) (s : SemSet) (adj : gmap (Z * Z * Z) Z) : Ipc :=
  mkIpc (msq i) (<[id := s]> (sem i)) (ipc_next i) (removed i) adj.

Definition sem_total (i : Ipc) : Z :=
  foldr (λ x n, Z.of_nat (length (vals x.2)) + n) 0 (map_to_list (sem i)).
Definition sys_semget (now : Z) (c : Caller) (i : Ipc) (key nsems flags : Z) : Z * Ipc :=
  let key := as_i32 key in
  let nsems := as_i32 nsems in
  if (nsems <? 0) || (SEMMSL <? nsems) then (err EINVAL, i)
  else if Z.shiftl 1 20 <? sem_total i + nsems then (err ENOSPC, i)
  else match ipc_get sm_perm (sem i) c key flags SEMMNI (λ s, nsems <=? Z.of_nat (length (vals s))) with
  | Some r => (r, i)
  | None =>
    let '(id, seq, i) := alloc_id i in
    if nsems =? 0 then (err EINVAL, i)
    else (id, put_sem i id (mkSem (perm_new key c flags seq) (replicate (Z.to_nat nsems) 0)
                              (replicate (Z.to_nat nsems) 0) 0 now) (semadj i))
  end.

(** One [struct sembuf]: number, operation, flags. *)
Record SemOp := mkSemOp { so_num : Z; so_op : Z; so_flg : Z }.
Fixpoint read_ops (raw : list Z) (n : nat) : list SemOp :=
  match n with
  | O => []
  | S n => mkSemOp (le_val (take 2 raw)) (as_i16 (le_val (take 2 (drop 2 raw))))
             (as_i16 (le_val (take 2 (drop 4 raw)))) :: read_ops (drop 6 raw) n
  end.

(** The batch on a copy of the values. *)
Inductive Attempt := TooBig | Blocked (i : nat) (o : SemOp) | Done (vs : list Z).
Fixpoint attempt (i : nat) (ops : list SemOp) (vs : list Z) : Attempt :=
  match ops with
  | [] => Done vs
  | o :: ops' =>
    let n := Z.to_nat (so_num o) in
    let v := default 0 (vs !! n) in
    if 0 <? so_op o then
      if SEMVMX <? v + so_op o then TooBig else attempt (S i) ops' (<[n := v + so_op o]> vs)
    else if so_op o <? 0 then
      if - so_op o <=? v then attempt (S i) ops' (<[n := v + so_op o]> vs) else Blocked i o
    else if v =? 0 then attempt (S i) ops' vs
    else Blocked i o
  end.

(** [-=] and [+] on [i32], as the build checks overflow or not. *)
Definition i32_arith (checks : bool) (v : Z) : res Z :=
  if (I32_MIN <=? v) && (v <=? IMAX) then Ok v else if checks then Panic else Ok (as_i32 v).

(** The second loop: who touched each semaphore, and what exit must undo. *)
Fixpoint note_ops (checks : bool) (tgid id : Z) (ops : list SemOp) (ps : list Z) (adj : gmap (Z * Z * Z) Z)
    : res (list Z * gmap (Z * Z * Z) Z) :=
  match ops with
  | [] => Ok (ps, adj)
  | o :: ops =>
    let ps := <[Z.to_nat (so_num o) := tgid]> ps in
    if has (so_flg o) SEM_UNDO && negb (so_op o =? 0) then
      let k := (tgid, id, so_num o) in
      v ← i32_arith checks (default 0 (adj !! k) - so_op o);
      note_ops checks tgid id ops ps (<[k := v]> adj)
    else note_ops checks tgid id ops ps adj
  end.

(** The caller's wait, as [cx.cur] records it. *)
Record Wait := mkWait { w_deadline : option Z; w_sem : option (Z * Z * bool) }.

Section Sem.
Context `{GuestMem M} (checks : bool) (now now_ns : Z) (c : Caller).

(** The deadline of a finite timeout: seeded once, reused when the call is rerun. *)
Definition sem_deadline (w : Wait) (timeout : Z) (mem : M) : Z + option Z * Wait :=
  if timeout =? 0 then inr (None, w)
  else match w_deadline w with
  | Some d => inr (Some d, w)
  | None =>
    match gm_read_u64 mem timeout, gm_read_u64 mem (wrap U64 (timeout + 8)) with
    | Some s, Some n =>
      if (as_i64 s <? 0) || (1000000000 <=? n) then inl (err EINVAL)
      else let d := now_ns + s * 1000000000 + n in inr (Some d, mkWait (Some d) (w_sem w))
    | _, _ => inl (err EFAULT)
    end
  end.

Definition sys_semtimedop (i : Ipc) (w : Wait) (a : list Z) (timeout : Z) (mem : M) : res (Ret * Ipc * Wait) :=
  let id := as_i32 (nth 0 a 0) in
  let sops := nth 1 a 0 in
  let nsops := nth 2 a 0 in
  if (nsops =? 0) || (id <? 0) then Ok (ret (err EINVAL), i, w)
  else if SEMOPM <? nsops then Ok (ret (err E2BIG), i, w)
  else match gm_read mem sops (nsops * 6) with
  | None => Ok (ret (err EFAULT), i, w)
  | Some raw =>
    let ops := read_ops raw (Z.to_nat nsops) in
    match sem_deadline w timeout mem with
    | inl e => Ok (ret e, i, w)
    | inr (deadline, w) =>
      match sem i !! id with
      | None => Ok (ret (ipc_gone i id), i, w)
      | Some set =>
        let alters := existsb (λ o, negb (so_op o =? 0)) ops in
        if negb (allows (sm_perm set) c (if alters then 2 else 4)) then Ok (ret (err EACCES), i, w)
        else if existsb (λ o, Z.of_nat (length (vals set)) <=? so_num o) ops then Ok (ret (err EFBIG), i, w)
        else match attempt 0 ops (vals set) with
        | TooBig => Ok (ret (err ERANGE), i, w)
        | Blocked _ o =>
          if has (so_flg o) IPC_NOWAIT then Ok (ret (err EAGAIN), i, mkWait None (w_sem w))
          else if from_option (λ d, d <=? now_ns) false deadline
          then Ok (ret (err EAGAIN), i, mkWait None (w_sem w))
          else Ok (ipc_block, i, mkWait (w_deadline w) (Some (id, so_num o, so_op o =? 0)))
        | Done vs =>
          r ← note_ops checks (c_tgid c) id ops (pids set) (semadj i);
          Ok (mkRet 0 false alters,
              put_sem i id (mkSem (sm_perm set) vs r.1 now (sm_ctime set)) r.2, mkWait None None)
        end
      end
    end
  end.

(** [sys_semctl]; [waiters zero] counts the parked tasks whose recorded wait is on the
    semaphore named, for zero or for an increase. *)
Definition seminfo (i : Ipc) (info : bool) : list Z :=
  [SEMMNI; SEMMNI; SEMMNI * SEMMSL; SEMMNI; SEMMSL; SEMOPM; SEMOPM;
   (if info then Z.of_nat (size (sem i)) else 20); SEMVMX; (if info then sem_total i else 16384)].
Definition semid_ds (karch : Arch) (s : SemSet) : list Z :=
  let n := le_bytes 8 (Z.of_nat (length (vals s))) in
  match karch with
  | X86_64 => perm_encode (sm_perm s) ++ le_bytes 8 (otime s) ++ replicate 8 0 ++ le_bytes 8 (sm_ctime s)
              ++ replicate 8 0 ++ n ++ replicate 16 0
  | Aarch64 => perm_encode (sm_perm s) ++ le_bytes 8 (otime s) ++ le_bytes 8 (sm_ctime s) ++ n ++ replicate 16 0
  end.
Fixpoint read_u16s (raw : list Z) (n : nat) : list Z :=
  match n with O => [] | S n => le_val (take 2 raw) :: read_u16s (drop 2 raw) n end.

Definition sys_semctl (karch : Arch) (waiters : Z → Z → bool → Z) (i : Ipc) (a : list Z) (mem : M)
    : Ret * Ipc * M :=
  let id := as_i32 (nth 0 a 0) in
  let num := nth 1 a 0 in
  let cmd := Z.ldiff (nth 2 a 0) 0x100 in
  let arg := nth 3 a 0 in
  if (cmd =? 3) || (cmd =? 19) then
    match gm_write mem arg (seminfo i (cmd =? 19) ≫= le_bytes 4) with
    | None => (ret (err EFAULT), i, mem)
    | Some mem' => (ret (max_id (ids_in_ns c sm_perm (sem i))), i, mem')
    end
  else
    match (if (cmd =? 18) || (cmd =? 20) then ids_in_ns c sm_perm (sem i) !! Z.to_nat (id mod U64) else Some id) with
    | None => (ret (err EINVAL), i, mem)
    | Some real_id =>
      match sem i !! real_id with
      | None => (ret (ipc_gone i real_id), i, mem)
      | Some set =>
        let n := length (vals set) in
        if ((cmd =? 12) || (cmd =? 11) || (cmd =? 14) || (cmd =? 15) || (cmd =? 16))
           && (Z.of_nat n <=? num) then (ret (err EINVAL), i, mem)
        else if ((cmd =? 12) || (cmd =? 11) || (cmd =? 14) || (cmd =? 15) || (cmd =? 13) || (cmd =? 2) || (cmd =? 18))
                && negb (allows (sm_perm set) c 4) then (ret (err EACCES), i, mem)
        else if ((cmd =? 16) || (cmd =? 17)) && negb (allows (sm_perm set) c 2) then (ret (err EACCES), i, mem)
        else if cmd =? 12 then (ret (default 0 (vals set !! Z.to_nat num)), i, mem)
        else if cmd =? 11 then (ret (default 0 (pids set !! Z.to_nat num)), i, mem)
        else if cmd =? 14 then (ret (waiters id (num mod U16) false), i, mem)
        else if cmd =? 15 then (ret (waiters id (num mod U16) true), i, mem)
        else if cmd =? 13 then
          match gm_write mem arg (vals set ≫= le_bytes 2) with
          | None => (ret (err EFAULT), i, mem)
          | Some mem' => (ret 0, i, mem')
          end
        else if cmd =? 16 then
          let v := as_i32 arg in
          if negb ((0 <=? v) && (v <=? SEMVMX)) then (ret (err ERANGE), i, mem)
          else (woke 0, put_sem i id (mkSem (sm_perm set) (<[Z.to_nat num := v]> (vals set)) (pids set) (otime set) now)
                          (filter (λ x, ¬ (x.1.1.2 = id ∧ x.1.2 = num)) (semadj i)), mem)
        else if cmd =? 17 then
          match gm_read mem arg (Z.of_nat n * 2) with
          | None => (ret (err EFAULT), i, mem)
          | Some raw =>
            let vs := read_u16s raw n in
            if existsb (λ v, SEMVMX <? v) vs then (ret (err ERANGE), i, mem)
            else (woke 0, put_sem i id (mkSem (sm_perm set) vs (pids set) (otime set) now)
                            (filter (λ x, x.1.1.2 ≠ id) (semadj i)), mem)
          end
        else if (cmd =? 2) || (cmd =? 18) || (cmd =? 20) then
          match gm_write mem arg (semid_ds karch set) with
          | None => (ret (err EFAULT), i, mem)
          | Some mem' => (ret (if cmd =? 2 then 0 else real_id), i, mem')
          end
        else if cmd =? 1 then
          match gm_read mem arg 48 with
          | None => (ret (err EFAULT), i, mem)
          | Some raw =>
            if negb (perm_owner (sm_perm set) c) then (ret (err EPERM), i, mem)
            else (ret 0, put_sem i id (mkSem (perm_set_from (sm_perm set) raw) (vals set) (pids set) (otime set) now)
                           (semadj i), mem)
          end
        else if cmd =? 0 then
          if negb (perm_owner (sm_perm set) c) then (ret (err EPERM), i, mem)
          else (woke 0, mkIpc (msq i) (delete id (sem i)) (ipc_next i) ({[id]} ∪ removed i)
                          (filter (λ x, x.1.1.2 ≠ id) (semadj i)), mem)
        else (ret (err EINVAL), i, mem)
      end
    end.
End Sem.

(** [exit_group]: the adjustments of a thread group that is gone. *)
Fixpoint undo (checks : bool) (ks : list (Z * Z * Z * Z)) (m : gmap Z SemSet) : res (gmap Z SemSet) :=
  match ks with
  | [] => Ok m
  | (_, id, num, adj) :: ks =>
    match m !! id with
    | Some set =>
      match vals set !! Z.to_nat num with
      | Some v =>
        t ← i32_arith checks (v + adj);
        undo checks ks (<[id := mkSem (sm_perm set) (<[Z.to_nat num := Z.min (Z.max t 0) SEMVMX]> (vals set))
                                  (pids set) (otime set) (sm_ctime set)]> m)
      | None => undo checks ks m
      end
    | None => undo checks ks m
    end
  end.
Definition exit_group (checks : bool) (i : Ipc) (tgid : Z) : res (bool * Ipc) :=
  let ks := filter (λ x, x.1.1.1 = tgid) (map_to_list (semadj i)) in
  m ← undo checks ks (sem i);
  Ok (bool_decide (ks ≠ []), mkIpc (msq i) m (ipc_next i) (removed i) (filter (λ x, x.1.1.1 ≠ tgid) (semadj i))).

(** * What every call preserves *)

Definition sem_ok (s : SemSet) : Prop :=
  Forall (λ v, 0 ≤ v ≤ SEMVMX) (vals s) ∧ length (pids s) = length (vals s).
Definition all_bytes (i : Ipc) : Z := msumf (λ x, cbytes x.2) (msq i).

Lemma bytes_of_nonneg msgs : 0 ≤ bytes_of msgs.
Proof. induction msgs; simpl; lia. Qed.
Lemma bytes_of_app a b : bytes_of (a ++ b) = bytes_of a + bytes_of b.
Proof. induction a; simpl; lia. Qed.
Lemma bytes_of_delete msgs k m :
  msgs !! k = Some m → bytes_of (delete k msgs) = bytes_of msgs - Z.of_nat (length m.2).
Proof.
  revert k. induction msgs as [|x msgs IH]; intros [|k] Hk; simpl in *; simplify_eq; [lia|].
  rewrite (IH k Hk). lia.
Qed.

Lemma all_bytes_put i id q q' :
  msq i !! id = Some q → all_bytes (put_msq i id q') = all_bytes i - cbytes q + cbytes q'.
Proof.
  intros Hq. unfold all_bytes, put_msq. simpl. rewrite (msumf_delete _ (msq i) id q Hq).
  rewrite <- insert_delete_eq, msumf_insert by apply lookup_delete_eq. simpl. lia.
Qed.
Lemma all_bytes_new i id q : msq i !! id = None → all_bytes (put_msq i id q) = all_bytes i + cbytes q.
Proof. intros Hq. unfold all_bytes, put_msq. simpl. rewrite msumf_insert by done. simpl. lia. Qed.
Lemma cbytes_le i id q : msq i !! id = Some q → 0 ≤ cbytes q ≤ all_bytes i.
Proof.
  intros Hq. unfold all_bytes. rewrite (msumf_delete _ _ _ _ Hq). simpl.
  pose proof (bytes_of_nonneg (q_msgs q)).
  assert (0 ≤ msumf (λ x : Z * MsgQueue, cbytes x.2) (delete id (msq i))); [|unfold cbytes in *; lia].
  apply msumf_nonneg. intros k v _. apply bytes_of_nonneg.
Qed.

(** The batch keeps every value in range, and the length. *)
Lemma attempt_ok ops : ∀ i vs vs',
  Forall (λ v, 0 ≤ v ≤ SEMVMX) vs → attempt i ops vs = Done vs' →
  Forall (λ v, 0 ≤ v ≤ SEMVMX) vs' ∧ length vs' = length vs.
Proof.
  induction ops as [|o ops IH]; intros i vs vs' Hv E; simpl in E; [by simplify_eq|].
  assert (∀ n x, 0 ≤ x ≤ SEMVMX → Forall (λ v, 0 ≤ v ≤ SEMVMX) (<[n := x]> vs)) as Hins
    by (intros n x Hx; by apply Forall_insert).
  set (n := Z.to_nat (so_num o)) in *. set (v := default 0 (vs !! n)) in *.
  assert (0 ≤ v ≤ SEMVMX) as Hr.
  { subst v. destruct (vs !! n) eqn:E2; simpl; [|by compute]. rewrite Forall_lookup in Hv. eauto. }
  destruct (0 <? so_op o) eqn:E1.
  - destruct (SEMVMX <? v + so_op o) eqn:E2; [done|]. apply IH in E as [? ?]; [|apply Hins; lia].
    by rewrite length_insert in *.
  - destruct (so_op o <? 0) eqn:E2.
    + destruct (- so_op o <=? v) eqn:E3; [|done]. apply IH in E as [? ?]; [|apply Hins; lia].
      by rewrite length_insert in *.
    + destruct (v =? 0); [|done]. by apply IH in E.
Qed.

Lemma note_ops_length checks tgid id ops : ∀ ps adj ps' adj',
  note_ops checks tgid id ops ps adj = Ok (ps', adj') → length ps' = length ps.
Proof.
  induction ops as [|o ops IH]; intros ps adj ps' adj' E; simpl in E; [by simplify_eq|].
  case_match; [unfold mbind, res_bind in E; destruct (i32_arith _ _); [|done]|];
    apply IH in E; by rewrite length_insert in E.
Qed.

Lemma undo_ok checks ks : ∀ m m',
  (∀ id s, m !! id = Some s → sem_ok s) → undo checks ks m = Ok m' →
  ∀ id s, m' !! id = Some s → sem_ok s.
Proof.
  induction ks as [|[[[t id0] num] adj] ks IH]; intros m m' Hm E; simpl in E; [by simplify_eq|].
  destruct (m !! id0) as [set|] eqn:E1; [|by eapply IH].
  destruct (vals set !! Z.to_nat num) as [v|] eqn:E2; [|by eapply IH].
  destruct (i32_arith checks (v + adj)) as [x|]; [|done]. eapply IH; [|exact E].
  intros id s. rewrite lookup_insert_Some. intros [[<- <-]|[_ Hs]]; [|by eapply Hm].
  destruct (Hm id0 set E1) as [Hv Hl]. split; simpl; [|by rewrite length_insert].
  apply Forall_insert; [done|]. unfold SEMVMX. lia.
Qed.

Lemma Forall_replicate_0 n : Forall (λ v, 0 ≤ v ≤ SEMVMX) (replicate n 0).
Proof. apply Forall_replicate. by compute. Qed.

Lemma read_u16s_length raw n : length (read_u16s raw n) = n.
Proof. revert raw. induction n; intros raw; simpl; auto. Qed.
Lemma read_u16s_nonneg raw n : Forall is_byte raw → Forall (λ v, 0 ≤ v) (read_u16s raw n).
Proof.
  revert raw. induction n as [|n IH]; intros raw Hr; simpl; constructor.
  - apply (le_val_bound (take 2 raw)). by apply Forall_take.
  - apply IH. by apply Forall_drop.
Qed.

Section Steps.
Context `{GuestMem M}.

(** Ids are left: the counter the three kinds of object share repeats ids after 2^31 of them. *)
Definition ids_left (i : Ipc) : Prop := ipc_next i < 2 ^ 31.

(** Any call of any task; of the shared-memory calls only what they do here, which is to draw an
    id from the counter. *)
Inductive istep : Ipc * Quota → Ipc * Quota → Prop :=
| i_msgget now c i q key flags : ids_left i → istep (i, q) ((sys_msgget now c i key flags).2, q)
| i_msgsnd now c i q a (mem : M) r i' q' :
    sys_msgsnd now c i q a mem = (r, i', q') → istep (i, q) (i', q')
| i_msgrcv now c i q a (mem : M) r i' q' mem' :
    sys_msgrcv now c i q a mem = (r, i', q', mem') → istep (i, q) (i', q')
| i_msgctl now c i q id cmd buf (mem : M) r i' q' mem' :
    sys_msgctl now c i q id cmd buf mem = (r, i', q', mem') → istep (i, q) (i', q')
| i_semget now c i q key n flags : ids_left i → istep (i, q) ((sys_semget now c i key n flags).2, q)
| i_shmget i q : ids_left i → istep (i, q) ((alloc_id i).2, q)
| i_semop checks now now_ns c i q w a timeout (mem : M) r i' w' :
    sys_semtimedop checks now now_ns c i w a timeout mem = Ok (r, i', w') → istep (i, q) (i', q)
| i_semctl now c karch waiters i q a (mem : M) r i' mem' :
    sys_semctl now c karch waiters i a mem = (r, i', mem') → istep (i, q) (i', q)
| i_exit checks i q tgid b i' : exit_group checks i tgid = Ok (b, i') → istep (i, q) (i', q).

(** Ids in use are below the counter. *)
Definition ids_ok (i : Ipc) : Prop := 0 ≤ ipc_next i ∧ ∀ id, is_Some (msq i !! id) → id < ipc_next i.
Record ipc_ok (base : Z) (s : Ipc * Quota) : Prop := mkIpcOk {
  io_sem : ∀ id set, sem s.1 !! id = Some set → sem_ok set;
  io_used : used s.2 = base + all_bytes s.1;
  io_ids : ids_ok s.1
}.

(** With ids left, [alloc_id] gives the counter itself. *)
Lemma alloc_id_next i : 0 ≤ ipc_next i → ids_left i →
  alloc_id i = (ipc_next i, ipc_next i / 32768, mkIpc (msq i) (sem i) (ipc_next i + 1) (removed i) (semadj i)).
Proof.
  unfold ids_left, alloc_id. intros H0 H1. set (n := ipc_next i) in *.
  assert (0 ≤ n / 32768 < U16) as Hs by (unfold U16; divlia). rewrite (Z.mod_small (n / 32768)) by done.
  replace (n mod 32768 + n / 32768 * 32768) with n by divlia. rewrite (Z.mod_small n U32) by (unfold U32; lia).
  change IMAX with (Z.ones 31). rewrite Z.land_ones, (Z.mod_small n) by lia.
  unfold wrap. by rewrite Z.mod_small by (unfold U32; lia).
Qed.
Lemma ids_put i id x mq : ids_ok i → msq i !! id = Some x → ids_ok (put_msq i id mq).
Proof.
  intros [H0 H1] Hx. split; [done|]. intros k. simpl. rewrite lookup_insert_is_Some.
  intros [<-|[_ Hk]]; apply H1; eauto.
Qed.

Lemma put_sem_ok i id set adj :
  (∀ id s, sem i !! id = Some s → sem_ok s) → sem_ok set →
  ∀ id' s, sem (put_sem i id set adj) !! id' = Some s → sem_ok s.
Proof.
  intros Hi Hs id' s. simpl. rewrite lookup_insert_Some. intros [[<- <-]|[_ Hl]]; [done|by eapply Hi].
Qed.

Lemma ok_msgget base now c i q key flags :
  ids_left i → ipc_ok base (i, q) → ipc_ok base ((sys_msgget now c i key flags).2, q).
Proof.
  intros Hf [H1 H2 [H0 H3]]. unfold sys_msgget. destruct (ipc_get _ _ _ _ _ _ _); [by split|].
  cbn [fst snd] in *. rewrite alloc_id_next by done. cbn [snd fst]. assert (msq i !! ipc_next i = None) as Hn.
  { destruct (msq i !! ipc_next i) eqn:E; [|done]. pose proof (H3 _ (mk_is_Some _ _ E)). lia. }
  split; [done| |].
  - cbn [snd fst]. rewrite H2. unfold all_bytes. cbn [put_msq msq].
    rewrite msumf_insert by done. unfold cbytes. simpl. lia.
  - split; simpl; [lia|]. intros id. rewrite lookup_insert_is_Some. intros [<-|[_ Hk]]; [lia|]. pose proof (H3 id Hk). lia.
Qed.

Lemma ok_msgsnd base now c i q a (mem : M) r i' q' :
  sys_msgsnd now c i q a mem = (r, i', q') → ipc_ok base (i, q) → ipc_ok base (i', q').
Proof.
  intros E Hok. pose proof Hok as [H1 H2 H3]. simpl in *. revert E. unfold sys_msgsnd.
  repeat case_match; intros; simplify_eq; try done.
  match goal with Hc : try_charge q ?n = _ |- _ => pose proof (proj1 (quota_sequential q n)) as Hq; rewrite Hc in Hq end.
  case_decide; [|done]. simplify_eq. split; [done| |by eapply ids_put]. simpl.
  match goal with Hm : msq i !! _ = Some _ |- _ => rewrite (all_bytes_put i _ _ _ Hm) end.
  unfold cbytes. simpl. rewrite bytes_of_app. simpl. lia.
Qed.

Lemma ok_msgrcv base now c i q a (mem : M) r i' q' mem' :
  0 ≤ base → sys_msgrcv now c i q a mem = (r, i', q', mem') → ipc_ok base (i, q) → ipc_ok base (i', q').
Proof.
  intros Hb E Hok. pose proof Hok as [H1 H2 H3]. simpl in *. revert E. unfold sys_msgrcv.
  destruct (_ || _); [intros; by simplify_eq|]. destruct (_ && _); [intros; by simplify_eq|].
  destruct (msq i !! _) as [mq|] eqn:Em; [|intros; by simplify_eq].
  destruct (negb _); [intros; by simplify_eq|].
  match goal with |- context [match ?X with None => _ | Some _ => _ end] => destruct X as [[k [ty text]]|] eqn:Ep end;
    [|intros; by simplify_eq].
  destruct (_ && _); [intros; by simplify_eq|]. destruct (gm_write _ _ _); [|intros; by simplify_eq].
  destruct (has _ MSG_COPY); [intros; by simplify_eq|].
  rewrite (proj1 (proj2 (quota_sequential q _))). intros; simplify_eq. split; [done| |by eapply ids_put]. simpl.
  destruct (pick_msg mq _ _) as [k'|]; [|done]. cbn in Ep. destruct (q_msgs mq !! k') as [m|] eqn:Ek; [|done].
  cbn in Ep. simplify_eq. rewrite (all_bytes_put i _ _ _ Em). unfold cbytes at 2. simpl.
  rewrite (bytes_of_delete _ _ _ Ek). pose proof (cbytes_le i _ mq Em). unfold cbytes in *. simpl.
  pose proof (bytes_of_nonneg (delete k (q_msgs mq))) as Hn. rewrite (bytes_of_delete _ _ _ Ek) in Hn.
  simpl in Hn. lia.
Qed.

Lemma ok_msgctl base now c i q id cmd buf (mem : M) r i' q' mem' :
  0 ≤ base → sys_msgctl now c i q id cmd buf mem = (r, i', q', mem') →
  ipc_ok base (i, q) → ipc_ok base (i', q').
Proof.
  intros Hb E Hok. pose proof Hok as [H1 H2 H3]. simpl in *. revert E. unfold sys_msgctl.
  destruct (_ || _); [destruct (gm_write _ _ _); intros; by simplify_eq|].
  destruct (_ || _); [repeat case_match; intros; by simplify_eq|].
  destruct (_ =? 1).
  { destruct (gm_read _ _ _); [|intros; by simplify_eq]. destruct (msq i !! as_i32 id) as [mq|] eqn:Em;
      [|intros; by simplify_eq]. destruct (negb _); [intros; by simplify_eq|].
    destruct (_ && _); [intros; by simplify_eq|]. intros; simplify_eq. split; [done| |by eapply ids_put]. simpl.
    rewrite (all_bytes_put i _ _ _ Em). unfold cbytes. simpl. lia. }
  destruct (_ =? 0); [|intros; by simplify_eq].
  destruct (msq i !! as_i32 id) as [mq|] eqn:Em; [|intros; by simplify_eq].
  destruct (negb _); [intros; by simplify_eq|]. rewrite (proj1 (proj2 (quota_sequential q _))).
  intros; simplify_eq. pose proof (cbytes_le i _ mq Em). split; [done| |].
  - unfold all_bytes in *. simpl. rewrite (msumf_delete _ _ _ _ Em) in *. simpl in *. lia.
  - destruct H3 as [H3 H4]. split; [done|]. intros k. simpl. rewrite lookup_delete_is_Some. intros [_ Hk]. by apply H4.
Qed.

Lemma ok_semget base now c i q key n flags :
  ids_left i → ipc_ok base (i, q) → ipc_ok base ((sys_semget now c i key n flags).2, q).
Proof.
  intros Hf [H1 H2 H3]. pose proof H3 as [H0 H4]. simpl in *. unfold sys_semget. destruct (_ || _); [by split|].
  destruct (_ <? _); [by split|]. destruct (ipc_get _ _ _ _ _ _ _); [by split|].
  rewrite alloc_id_next by done. assert (ids_ok (mkIpc (msq i) (sem i) (ipc_next i + 1) (removed i) (semadj i))) as Hi.
  { split; simpl; [lia|]. intros k Hk. pose proof (H4 k Hk). lia. }
  destruct (_ =? 0); [by split|]. split; [|done|done]. simpl. apply (put_sem_ok i _ _ ∅); [done|]. split; simpl.
  - apply Forall_replicate_0.
  - by rewrite !length_replicate.
Qed.

Lemma ok_semop base checks now now_ns c i q w a timeout (mem : M) r i' w' :
  sys_semtimedop checks now now_ns c i w a timeout mem = Ok (r, i', w') →
  ipc_ok base (i, q) → ipc_ok base (i', q).
Proof.
  intros E Hok. pose proof Hok as [H1 H2 H3]. simpl in *. revert E. unfold sys_semtimedop.
  destruct (_ || _); [intros; by simplify_eq|]. destruct (_ <? _); [intros; by simplify_eq|].
  destruct (gm_read _ _ _); [|intros; by simplify_eq].
  destruct (sem_deadline _ _ _ _) as [?|[dl w1]]; [intros; by simplify_eq|].
  destruct (sem i !! _) as [set|] eqn:Es; [|intros; by simplify_eq].
  destruct (negb _); [intros; by simplify_eq|]. destruct (existsb _ _); [intros; by simplify_eq|].
  destruct (attempt _ _ _) as [|? ?|vs] eqn:Ea; [intros; by simplify_eq|repeat case_match; intros; by simplify_eq|].
  unfold mbind, res_bind. destruct (note_ops _ _ _ _ _ _) as [[ps adj]|] eqn:En; [|done].
  intros; simplify_eq. split; [|done|done]. simpl. destruct (H1 _ _ Es) as [Hv Hl].
  apply attempt_ok in Ea as [? Hlen]; [|done]. apply note_ops_length in En.
  apply (put_sem_ok i _ _ ∅); [done|]. split; simpl; [done|congruence].
Qed.

Lemma ok_semctl base now c karch waiters i q a (mem : M) r i' mem' :
  sys_semctl now c karch waiters i a mem = (r, i', mem') → ipc_ok base (i, q) → ipc_ok base (i', q).
Proof.
  intros E Hok. pose proof Hok as [H1 H2 H3]. simpl in *. revert E. unfold sys_semctl.
  set (id := as_i32 (nth 0 a 0)). set (cmd := Z.ldiff (nth 2 a 0) 256).
  destruct ((cmd =? 3) || _); [destruct (gm_write _ _ _); intros; by simplify_eq|].
  match goal with |- context [match ?X with None => _ | Some _ => _ end] => destruct X as [real_id|] eqn:Er end;
    [|intros; by simplify_eq].
  destruct (sem i !! real_id) as [set|] eqn:Es; [|intros; by simplify_eq].
  destruct (H1 _ _ Es) as [Hv Hl].
  do 3 (destruct (_ && _); [intros; by simplify_eq|]).
  destruct (cmd =? 12); [intros; by simplify_eq|]. destruct (cmd =? 11); [intros; by simplify_eq|].
  destruct (cmd =? 14); [intros; by simplify_eq|]. destruct (cmd =? 15); [intros; by simplify_eq|].
  destruct (cmd =? 13); [destruct (gm_write _ _ _); intros; by simplify_eq|].
  destruct (cmd =? 16).
  { destruct (negb _) eqn:Eb; [intros; by simplify_eq|]. intros; simplify_eq. split; [|done|done]. simpl.
    apply (put_sem_ok i _ _ ∅); [done|]. split; simpl; [|by rewrite length_insert]. apply Forall_insert; [done|lia]. }
  destruct (cmd =? 17).
  { destruct (gm_read _ _ _) as [raw|] eqn:Eg; [|intros; by simplify_eq].
    destruct (existsb _ _) eqn:Ee; [intros; by simplify_eq|]. intros; simplify_eq. split; [|done|done]. simpl.
    apply (put_sem_ok i _ _ ∅); [done|]. split; simpl; [|by rewrite read_u16s_length].
    apply Forall_forall. intros v Hin. pose proof (read_u16s_nonneg raw (length (vals set)) (gm_read_bytes _ _ _ _ Eg)) as Hnn.
    rewrite Forall_forall in Hnn. specialize (Hnn v Hin). split; [done|].
    destruct (decide (v ≤ SEMVMX)) as [|Hgt]; [done|]. exfalso. apply not_true_iff_false in Ee. apply Ee.
    apply existsb_exists. exists v. split; [by apply list_elem_of_In|lia]. }
  destruct ((cmd =? 2) || (cmd =? 18) || (cmd =? 20)); [destruct (gm_write _ _ _); intros; by simplify_eq|].
  destruct (cmd =? 1).
  { destruct (gm_read _ _ _); [|intros; by simplify_eq]. destruct (negb _); intros; simplify_eq; [done|].
    split; [|done|done]. simpl. by apply (put_sem_ok i _ _ ∅). }
  destruct (cmd =? 0); [|intros; by simplify_eq]. destruct (negb _); intros; simplify_eq; [done|].
  split; [|done|done]. simpl. intros id' s Hs. apply lookup_delete_Some in Hs as [_ Hs]. by eapply H1.
Qed.

Lemma ipc_ok_step base s s' : 0 ≤ base → istep s s' → ipc_ok base s → ipc_ok base s'.
Proof.
  intros Hb Hs. destruct Hs; eauto using ok_msgget, ok_msgsnd, ok_msgrcv, ok_msgctl, ok_semget, ok_semop, ok_semctl.
  - intros [H1 H2 [H3 H4]]. cbn [fst snd] in *. rewrite alloc_id_next by done. split; [done|done|]. split; simpl; [lia|].
    intros k Hk. pose proof (H4 k Hk). lia.
  - intros [H1 H2 H3]. simpl in *. unfold exit_group, mbind, res_bind in *.
    destruct (undo _ _ _) as [m|] eqn:Eu; [|done]. simplify_eq. split; [|done|done]. simpl. by eapply undo_ok.
Qed.
End Steps.

(** C38: what System V IPC never loses. After any sequence of message-queue and semaphore
    calls and exits, in either build, as long as fewer than 2^31 objects were made: every semaphore value lies between 0 and [SEMVMX] and
    every set has a last-operation pid per semaphore; and what the memory quota counts is
    exactly what it counted before plus the bytes of the messages now queued, so no
    message's charge is dropped or kept. *)
Theorem ipc_invariant `{GuestMem M} q0 i q :
  0 ≤ used q0 → rtc (istep (M := M)) (ipc_default, q0) (i, q) →
  (∀ id set, sem i !! id = Some set →
     Forall (λ v, 0 ≤ v ≤ SEMVMX) (vals set) ∧ length (pids set) = length (vals set)) ∧
  used q = used q0 + all_bytes i.
Proof.
  intros H0 Hr.
  assert (ipc_ok (used q0) (i, q)) as [H1 H2 _]; [|by split].
  assert (ipc_ok (used q0) (ipc_default, q0)) as Hi.
  { split; simpl; [intros id set Hs; by rewrite lookup_empty in Hs| |].
    - unfold all_bytes. simpl. change (msumf _ ∅) with 0. lia.
    - split; simpl; [done|]. intros id [x Hx]. by rewrite lookup_empty in Hx. }
  revert Hi. generalize (used q0) H0. clear H0. intros base H0.
  induction Hr as [s|s1 s2 s3 Hs _ IH]; [done|]. intros Hi. by eapply IH, ipc_ok_step.
Qed.

(** * [semop] is atomic, and undone by exit *)

Lemma read_ops_num raw n o : Forall is_byte raw → o ∈ read_ops raw n → 0 ≤ so_num o.
Proof.
  revert raw. induction n as [|n IH]; intros raw Hr Ho; simpl in Ho; [by apply elem_of_nil in Ho|].
  apply elem_of_cons in Ho as [->|Ho]; [|by eapply IH, Ho; apply Forall_drop].
  simpl. apply (le_val_bound (take 2 raw)). by apply Forall_take.
Qed.
Lemma existsb_none {A} (f : A → bool) l x : existsb f l = false → x ∈ l → f x = false.
Proof.
  intros E Hx. apply not_true_iff_false. intros Hf. apply not_true_iff_false in E.
  apply E, existsb_exists. exists x. split; [by apply list_elem_of_In|done].
Qed.

(** The sum of the operations of a batch on semaphore [n]. *)
Definition net (n : nat) (ops : list SemOp) : Z :=
  foldr (λ o acc, (if decide (Z.to_nat (so_num o) = n) then so_op o else 0) + acc) 0 ops.

Lemma attempt_net ops : ∀ i vs vs' n v,
  (∀ o, o ∈ ops → (Z.to_nat (so_num o) < length vs)%nat) →
  attempt i ops vs = Done vs' → vs !! n = Some v → vs' !! n = Some (v + net n ops).
Proof.
  induction ops as [|o ops IH]; intros i vs vs' n v Hb E Hv; simpl in E.
  { simplify_eq. simpl. rewrite Hv. f_equal. lia. }
  assert (Z.to_nat (so_num o) < length vs)%nat as Ho by (apply Hb, elem_of_cons; by left).
  assert (∀ o', o' ∈ ops → (Z.to_nat (so_num o') < length vs)%nat) as Hb'
    by (intros o' Ho'; apply Hb, elem_of_cons; by right).
  assert (∀ x, attempt (S i) ops (<[Z.to_nat (so_num o) := x]> vs) = Done vs' →
    x = default 0 (vs !! Z.to_nat (so_num o)) + so_op o → vs' !! n = Some (v + net n (o :: ops))) as Hset.
  { intros x E' ->. simpl. case_decide as Hn.
    - subst n. rewrite Hv in E'. simpl in E'. eapply (IH (S i) _ _ (Z.to_nat (so_num o))) in E'.
      + rewrite E'. f_equal. rewrite <- Z.add_assoc. reflexivity.
      + intros o' Ho'. rewrite length_insert. by apply Hb'.
      + by apply list_lookup_insert_eq.
    - eapply (IH (S i) _ _ n v) in E'.
      + rewrite E'. f_equal.
      + intros o' Ho'. rewrite length_insert. by apply Hb'.
      + by rewrite list_lookup_insert_ne. }
  destruct (0 <? so_op o) eqn:E1.
  - destruct (SEMVMX <? _); [done|]. by eapply Hset.
  - destruct (so_op o <? 0) eqn:E2.
    + destruct (_ <=? _); [|done]. by eapply Hset.
    + destruct (_ =? 0); [|done]. eapply IH in E; [|exact Hb'|exact Hv]. rewrite E. f_equal. simpl.
      case_decide; [|lia]. lia.
Qed.

(** Why a batch blocks: the operation reported finds a value that does not allow it, after
    the operations before it. *)
Lemma attempt_blocked ops : ∀ i vs k o,
  attempt i ops vs = Blocked k o →
  ∃ pre post vs', ops = pre ++ o :: post ∧ k = (i + length pre)%nat ∧ attempt i pre vs = Done vs' ∧
    let v := default 0 (vs' !! Z.to_nat (so_num o)) in
    (so_op o < 0 ∧ v + so_op o < 0) ∨ (so_op o = 0 ∧ v ≠ 0).
Proof.
  induction ops as [|o ops IH]; intros i vs k o' E; simpl in E; [done|].
  match goal with |- ?G => assert (∀ vs1, (∀ l, attempt i (o :: l) vs = attempt (S i) l vs1) →
    attempt (S i) ops vs1 = Blocked k o' → G) as Hstep end.
  { intros vs1 Hs E'. destruct (IH _ _ _ _ E') as (pre & post & vs' & -> & -> & Hd & Hc).
    exists (o :: pre), post, vs'. split_and!; [done|simpl; lia| |done]. by rewrite Hs. }
  destruct (0 <? so_op o) eqn:E1.
  - destruct (SEMVMX <? _) eqn:E2; [done|]. eapply Hstep; [|exact E].
    intros l. cbn [attempt]. by rewrite E1, E2.
  - destruct (so_op o <? 0) eqn:E2.
    + destruct (- so_op o <=? _) eqn:E3.
      * eapply Hstep; [|exact E]. intros l. cbn [attempt]. by rewrite E1, E2, E3.
      * simplify_eq. exists [], ops, vs. split_and!; [done|simpl; lia|done|]. left. lia.
    + destruct (_ =? 0) eqn:E3.
      * eapply Hstep; [|exact E]. intros l. cbn [attempt]. by rewrite E1, E2, E3.
      * simplify_eq. exists [], ops, vs. split_and!; [done|simpl; lia|done|]. right. lia.
Qed.

(** C32: [semop] is all or nothing. A call that is not refused outright either changes no
    semaphore, returning an error or blocking on the first operation of the batch that
    cannot proceed after the ones before it, or returns 0 having added to each semaphore of
    the set the sum of its operations, with every result in range; other sets, the queues
    and the ids are untouched. *)
Theorem semop_atomic `{GuestMem M} checks now now_ns c i w a timeout (mem : M) r i' w' set :
  (∀ id s, sem i !! id = Some s → sem_ok s) →
  sys_semtimedop checks now now_ns c i w a timeout mem = Ok (r, i', w') →
  sem i !! as_i32 (nth 0 a 0) = Some set →
  (i' = i ∧ (r_ret r < 0 ∨ r_block r = true ∧ ∃ pre o post vs,
     (∃ raw, gm_read mem (nth 1 a 0) (nth 2 a 0 * 6) = Some raw ∧
             read_ops raw (Z.to_nat (nth 2 a 0)) = pre ++ o :: post) ∧
     attempt 0 pre (vals set) = Done vs ∧
     let v := default 0 (vs !! Z.to_nat (so_num o)) in
     (so_op o < 0 ∧ v + so_op o < 0) ∨ (so_op o = 0 ∧ v ≠ 0))) ∨
  (r_ret r = 0 ∧ r_block r = false ∧ msq i' = msq i ∧ ipc_next i' = ipc_next i ∧
   ∃ raw set', gm_read mem (nth 1 a 0) (nth 2 a 0 * 6) = Some raw ∧
     let ops := read_ops raw (Z.to_nat (nth 2 a 0)) in
     sem i' = <[as_i32 (nth 0 a 0) := set']> (sem i) ∧ sem_ok set' ∧
     length (vals set') = length (vals set) ∧
     ∀ n v, vals set !! n = Some v → vals set' !! n = Some (v + net n ops)).
Proof.
  intros Hok E Hset.
  assert (∀ e, 0 < e → err e < 0) as He by (intros e; unfold err; lia).
  revert E. unfold sys_semtimedop. rewrite Hset.
  destruct (_ || _); [intros; simplify_eq; left; split; [done|left; by apply He]|].
  destruct (_ <? _); [intros; simplify_eq; left; split; [done|left; by apply He]|].
  destruct (gm_read mem _ _) as [raw|] eqn:Eg;
    [|intros; simplify_eq; left; split; [done|left; by apply He]].
  set (ops := read_ops raw _).
  destruct (sem_deadline _ _ _ _) as [e|[dl w1]] eqn:Ed.
  { intros; simplify_eq. left. split; [done|]. left. simpl. revert Ed. unfold sem_deadline.
    repeat case_match; intros; simplify_eq; by apply He. }
  destruct (negb _); [intros; simplify_eq; left; split; [done|left; by apply He]|].
  destruct (existsb (λ o, _ <=? so_num o) ops) eqn:Ex;
    [intros; simplify_eq; left; split; [done|left; by apply He]|].
  destruct (attempt 0 ops (vals set)) as [|k o|vs] eqn:Ea.
  - intros; simplify_eq. left. split; [done|left; by apply He].
  - destruct (attempt_blocked _ _ _ _ _ Ea) as (pre & post & vs & Hops & _ & Hd & Hc).
    case_match; [intros; simplify_eq; left; split; [done|left; by apply He]|].
    case_match; intros; simplify_eq; left; (split; [done|]); [left; by apply He|right].
    split; [done|]. exists pre, o, post, vs. split_and!; [|done|done]. exists raw. by rewrite <- Hops.
  - unfold mbind, res_bind. destruct (note_ops _ _ _ _ _ _) as [[ps adj]|] eqn:En; [|done].
    intros; simplify_eq. right. simpl. split_and!; try done. exists raw.
    eexists. split; [done|]. split; [reflexivity|]. simpl. destruct (Hok _ _ Hset) as [Hv Hl].
    destruct (attempt_ok _ _ _ _ Hv Ea) as [Hv' Hlen]. apply note_ops_length in En.
    split_and!; [split; simpl; [done|congruence]|done|].
    intros n v Hn. eapply attempt_net; [|exact Ea|exact Hn].
    intros o Ho. apply (existsb_none _ _ o) in Ex; [|done]. cbn beta in Ex. apply Z.leb_gt in Ex.
    pose proof (read_ops_num _ _ _ (gm_read_bytes _ _ _ _ Eg) Ho). lia.
Qed.

(** What [SEM_UNDO] records is what the batch added, negated, so no [i32] sum overflows. *)
Section Undo.
Context (checks : bool) (tgid id : Z) (V0 : list Z) (adj0 : gmap (Z * Z * Z) Z).

Record noted (vs : list Z) (adj : gmap (Z * Z * Z) Z) : Prop := mkNoted {
  nt_len : length vs = length V0;
  nt_other k : k.1 ≠ (tgid, id) → adj !! k = adj0 !! k;
  nt_key num x : adj !! (tgid, id, num) = Some x →
    ∃ n v, num = Z.of_nat n ∧ vs !! n = Some v ∧ V0 !! n = Some (v + x);
  nt_same n : adj !! (tgid, id, Z.of_nat n) = None → vs !! n = V0 !! n
}.

Lemma i32_arith_in v : I32_MIN ≤ v ≤ IMAX → i32_arith checks v = Ok v.
Proof. intros Hv. unfold i32_arith. by rewrite (proj2 (Z.leb_le I32_MIN v)), (proj2 (Z.leb_le v IMAX)) by lia. Qed.

Lemma noted_add vs adj n v d :
  noted vs adj → vs !! n = Some v →
  noted (<[n := v + d]> vs)
    (<[(tgid, id, Z.of_nat n) := default 0 (adj !! (tgid, id, Z.of_nat n)) - d]> adj).
Proof.
  intros [H1 H2 H3 H4] Hv. pose proof (lookup_lt_Some _ _ _ Hv) as Hn. split.
  - by rewrite length_insert.
  - intros k Hk. rewrite lookup_insert_ne; [by apply H2|]. intros <-. by apply Hk.
  - intros num x. rewrite lookup_insert_Some. intros [[Hk <-]|[Hk Hl]].
    + injection Hk as <-. exists n, (v + d). split_and!; [done|by apply list_lookup_insert_eq|].
      destruct (adj !! (tgid, id, Z.of_nat n)) as [x|] eqn:Ex; simpl.
      * destruct (H3 _ _ Ex) as (n' & v' & Heq & Hv' & HV). apply Nat2Z.inj in Heq as <-.
        rewrite Hv in Hv'. simplify_eq. rewrite HV. f_equal. lia.
      * rewrite <- (H4 n Ex), Hv. f_equal. lia.
    + destruct (H3 _ _ Hl) as (n' & v' & -> & Hv' & HV). exists n', v'. split_and!; [done| |done].
      rewrite list_lookup_insert_ne; [done|]. intros ->. by apply Hk.
  - intros n'. rewrite lookup_insert_None. intros [Hl Hk]. rewrite list_lookup_insert_ne; [by apply H4|].
    intros ->. by apply Hk.
Qed.

Lemma noted_default vs adj n v :
  noted vs adj → vs !! n = Some v → V0 !! n = Some (v + default 0 (adj !! (tgid, id, Z.of_nat n))).
Proof.
  intros Hn Hv. destruct (adj !! _) as [x|] eqn:Ex; simpl.
  - destruct (nt_key _ _ Hn _ _ Ex) as (n' & v' & Heq & Hv' & HV). apply Nat2Z.inj in Heq as <-. by simplify_eq.
  - rewrite <- (nt_same _ _ Hn n Ex), Hv. f_equal. lia.
Qed.

Lemma note_attempt ops : ∀ k vs vs' ps adj,
  Forall (λ v, 0 ≤ v ≤ SEMVMX) V0 → Forall (λ v, 0 ≤ v ≤ SEMVMX) vs →
  (∀ o, o ∈ ops → 0 ≤ so_num o < Z.of_nat (length vs) ∧ has (so_flg o) SEM_UNDO = true) →
  noted vs adj → attempt k ops vs = Done vs' →
  ∃ ps' adj', note_ops checks tgid id ops ps adj = Ok (ps', adj') ∧ noted vs' adj'.
Proof.
  induction ops as [|o ops IH]; intros k vs vs' ps adj H0 Hv Hops Hn E; simpl in E.
  { simplify_eq. by exists ps, adj. }
  destruct (Hops o) as [Ho Hf]; [apply elem_of_cons; by left|].
  assert (∀ o', o' ∈ ops → 0 ≤ so_num o' < Z.of_nat (length vs) ∧ has (so_flg o') SEM_UNDO = true) as Hops'
    by (intros o' Ho'; apply Hops, elem_of_cons; by right).
  destruct (lookup_lt_is_Some_2 vs (Z.to_nat (so_num o)) ltac:(lia)) as [v Hl].
  cbn [note_ops]. rewrite Hf, andb_true_l. rewrite Hl in E. simpl in E.
  assert (0 ≤ v ≤ SEMVMX) as Hvr by (rewrite Forall_lookup in Hv; eauto).
  destruct (so_op o =? 0) eqn:E0.
  { simpl. apply Z.eqb_eq in E0. rewrite E0 in E. simpl in E. destruct (v =? 0); [|done]. by eapply IH. }
  simpl. assert (attempt (S k) ops (<[Z.to_nat (so_num o) := v + so_op o]> vs) = Done vs' ∧
    0 ≤ v + so_op o ≤ SEMVMX) as [E' Hr].
  { destruct (0 <? so_op o) eqn:E1.
    - destruct (SEMVMX <? v + so_op o) eqn:E2; [done|]. split; [done|]. lia.
    - destruct (so_op o <? 0) eqn:E2; [|lia]. destruct (- so_op o <=? v) eqn:E3; [|done]. split; [done|]. lia. }
  pose proof (noted_add _ _ _ _ (so_op o) Hn Hl) as Hn'. rewrite Z2Nat.id in Hn' by lia.
  pose proof (noted_default _ _ _ _ Hn Hl) as Hd. rewrite Z2Nat.id in Hd by lia.
  assert (0 ≤ v + default 0 (adj !! (tgid, id, so_num o)) ≤ SEMVMX) as Hd'
    by (rewrite Forall_lookup in H0; by eapply H0).
  unfold mbind, res_bind. rewrite i32_arith_in by (unfold I32_MIN, IMAX, SEMVMX in *; lia).
  eapply (IH _ _ _ _ _ H0 (Forall_insert _ _ _ _ Hv Hr)); [|exact Hn'|exact E'].
  by rewrite length_insert.
Qed.

Lemma undo_restores ks : ∀ m set,
  m !! id = Some set → length (vals set) = length V0 →
  Forall (λ v, 0 ≤ v ≤ SEMVMX) V0 → Forall (λ v, 0 ≤ v ≤ SEMVMX) (vals set) → NoDup (ks.*1) →
  (∀ k x, (k, x) ∈ ks → k.1 = (tgid, id) ∧
     ∃ n v, k.2 = Z.of_nat n ∧ vals set !! n = Some v ∧ V0 !! n = Some (v + x)) →
  (∀ n, (tgid, id, Z.of_nat n) ∉ ks.*1 → vals set !! n = V0 !! n) →
  ∃ set', undo checks ks m = Ok (<[id := set']> m) ∧ vals set' = V0.
Proof.
  induction ks as [|[k x] ks IH]; intros m set Hm Hlen H0 Hv Hnd Hin Hout; simpl.
  { exists set. rewrite insert_id by done. split; [done|]. apply list_eq. intros n. apply Hout. set_solver. }
  apply NoDup_cons in Hnd as [Hk Hnd].
  destruct (Hin k x) as [Hkid (n & v & Hkn & Hl & HV)]; [by left|].
  destruct k as [[t i] num]. simpl in *. simplify_eq. rewrite Hm, Nat2Z.id, Hl.
  assert (0 ≤ v ≤ SEMVMX ∧ 0 ≤ v + x ≤ SEMVMX) as [Hv1 Hv2]
    by (rewrite !Forall_lookup in *; split; [by eapply Hv|by eapply H0]).
  unfold mbind, res_bind. rewrite i32_arith_in by (unfold I32_MIN, IMAX, SEMVMX in *; lia).
  replace (Z.min (Z.max (v + x) 0) SEMVMX) with (v + x) by lia.
  set (set1 := mkSem _ _ _ _ _).
  destruct (IH (<[id := set1]> m) set1) as (set' & Hu & Hs).
  - by rewrite lookup_insert_eq.
  - simpl. by rewrite length_insert.
  - done.
  - simpl. by apply Forall_insert.
  - done.
  - intros k' x' Hx'. destruct (Hin k' x') as [Hk1 (n' & v' & Hkn' & Hl' & HV')]; [by right|].
    split; [done|]. exists n', v'. split_and!; [done| |done]. simpl. rewrite list_lookup_insert_ne; [done|].
    intros <-. apply Hk. apply list_elem_of_fmap. exists (k', x'). split; [|done].
    destruct k' as [[??]?]. simpl in *. by simplify_eq.
  - intros n' Hn'. simpl. destruct (decide (n' = n)) as [->|Hne].
    + rewrite list_lookup_insert_eq by (by eapply lookup_lt_Some). done.
    + rewrite list_lookup_insert_ne by done. apply Hout. apply not_elem_of_cons. split; [|done].
      intros Heq. apply Hne. injection Heq as Heq. lia.
  - exists set'. split; [|done]. rewrite Hu. by rewrite insert_insert_eq.
Qed.
End Undo.

Lemma semop_done `{GuestMem M} checks now now_ns c i w a timeout (mem : M) r i' w' set :
  sys_semtimedop checks now now_ns c i w a timeout mem = Ok (r, i', w') →
  sem i !! as_i32 (nth 0 a 0) = Some set → r_ret r = 0 → r_block r = false →
  ∃ raw vs ps adj, gm_read mem (nth 1 a 0) (nth 2 a 0 * 6) = Some raw ∧
    let ops := read_ops raw (Z.to_nat (nth 2 a 0)) in
    attempt 0 ops (vals set) = Done vs ∧
    (∀ o, o ∈ ops → 0 ≤ so_num o < Z.of_nat (length (vals set))) ∧
    note_ops checks (c_tgid c) (as_i32 (nth 0 a 0)) ops (pids set) (semadj i) = Ok (ps, adj) ∧
    i' = put_sem i (as_i32 (nth 0 a 0)) (mkSem (sm_perm set) vs ps now (sm_ctime set)) adj.
Proof.
  intros E Hset Hr Hb. revert E. unfold sys_semtimedop. rewrite Hset.
  destruct (_ || _); [intros; by simplify_eq|]. destruct (_ <? _); [intros; by simplify_eq|].
  destruct (gm_read mem _ _) as [raw|] eqn:Eg; [|intros; by simplify_eq].
  destruct (sem_deadline _ _ _ _) as [e|[dl w1]] eqn:Ed.
  { intros; simplify_eq. exfalso. revert Ed Hr. unfold sem_deadline.
    repeat case_match; intros; by simplify_eq. }
  destruct (negb _); [intros; by simplify_eq|].
  destruct (existsb (λ o, _ <=? so_num o) _) eqn:Ex; [intros; by simplify_eq|].
  destruct (attempt 0 _ (vals set)) as [|k o|vs] eqn:Ea; [intros; by simplify_eq| |].
  { repeat case_match; intros; by simplify_eq. }
  unfold mbind, res_bind. destruct (note_ops _ _ _ _ _ _) as [[ps adj]|] eqn:En; [|done].
  intros; simplify_eq. exists raw, vs, ps, adj. split_and!; try done.
  intros o Ho. apply (existsb_none _ _ o) in Ex; [|done]. cbn beta in Ex. apply Z.leb_gt in Ex.
  split; [|done]. exact (read_ops_num _ _ _ (gm_read_bytes _ _ _ _ Eg) Ho).
Qed.

(** [SEM_UNDO] takes back exactly what was done. When a batch whose operations all ask to
    be undone succeeds for a thread group with nothing recorded yet, the group's exit, in
    either build, never overflows and gives every semaphore of every set the value it had
    before the batch; and nothing is left recorded for the group. *)
Theorem semop_undo_roundtrip `{GuestMem M} checks now now_ns c i w a timeout (mem : M) r i' w' set :
  (∀ id s, sem i !! id = Some s → sem_ok s) →
  (∀ k x, semadj i !! k = Some x → k.1.1 ≠ c_tgid c) →
  (∀ raw o, gm_read mem (nth 1 a 0) (nth 2 a 0 * 6) = Some raw →
            o ∈ read_ops raw (Z.to_nat (nth 2 a 0)) → has (so_flg o) SEM_UNDO = true) →
  sys_semtimedop checks now now_ns c i w a timeout mem = Ok (r, i', w') →
  sem i !! as_i32 (nth 0 a 0) = Some set → r_ret r = 0 → r_block r = false →
  ∃ b i'', exit_group checks i' (c_tgid c) = Ok (b, i'') ∧
    (∀ id, vals <$> sem i'' !! id = vals <$> sem i !! id) ∧ semadj i'' = semadj i.
Proof.
  intros Hok Hnone Hundo E Hset Hr Hb.
  destruct (semop_done _ _ _ _ _ _ _ _ _ _ _ _ _ E Hset Hr Hb) as (raw & vs & ps & adj & Hg & Ha & Hnum & Hn & ->).
  set (id := as_i32 (nth 0 a 0)) in *. set (t := c_tgid c) in *.
  destruct (Hok _ _ Hset) as [Hv _]. destruct (attempt_ok _ _ _ _ Hv Ha) as [Hv' Hlen].
  destruct (note_attempt checks t id (vals set) (semadj i) (read_ops raw (Z.to_nat (nth 2 a 0))) 0%nat (vals set) vs (pids set) (semadj i) Hv Hv)
    as (ps' & adj' & Hn' & Hnt); [|split; try done|exact Ha|].
  { intros o Ho. split; [by apply Hnum|by eapply Hundo]. }
  { intros num x Hx. by apply Hnone in Hx. }
  rewrite Hn in Hn'. simplify_eq. destruct Hnt as [N1 N2 N3 N4].
  unfold exit_group. cbn [put_sem semadj sem msq ipc_next removed].
  set (ks := filter _ (map_to_list adj')).
  assert (∀ k x, (k, x) ∈ ks ↔ k.1.1 = t ∧ adj' !! k = Some x) as Hks
    by (intros k x; unfold ks; by rewrite list_elem_of_filter, elem_of_map_to_list).
  assert (∀ k x, adj' !! k = Some x → k.1.1 = t → k.1 = (t, id)) as Hid.
  { intros k x Hx Ht. destruct (decide (k.1 = (t, id))) as [|Hne]; [done|].
    rewrite (N2 k Hne) in Hx. by apply Hnone in Hx. }
  destruct (undo_restores checks t id (vals set) ks (<[id := mkSem (sm_perm set) vs ps' now (sm_ctime set)]> (sem i))
    (mkSem (sm_perm set) vs ps' now (sm_ctime set))) as (set' & Hu & Hs); simpl; try done.
  - by rewrite lookup_insert_eq.
  - apply NoDup_fmap_fst; [|by apply NoDup_filter, NoDup_map_to_list].
    intros k x y [_ Hx]%Hks [_ Hy]%Hks. congruence.
  - intros k x Hx. apply Hks in Hx as [Ht Hx]. pose proof (Hid _ _ Hx Ht) as Hk. split; [done|].
    destruct k as [k0 num]. simpl in *. subst k0. eauto.
  - intros n Hnk. apply N4. destruct (adj' !! (t, id, Z.of_nat n)) as [x|] eqn:Ex; [|done].
    exfalso. apply Hnk, list_elem_of_fmap. exists (t, id, Z.of_nat n, x). split; [done|]. by apply Hks.
  - rewrite Hu. unfold mbind, res_bind. eexists _, _. split; [reflexivity|]. simpl. split.
    + intros id'. rewrite insert_insert_eq. destruct (decide (id' = id)) as [->|Hne].
      * rewrite lookup_insert_eq, Hset. simpl. by rewrite Hs.
      * by rewrite lookup_insert_ne.
    + apply map_eq. intros k. destruct (decide (k.1.1 = t)) as [Ht|Ht].
      * rewrite map_lookup_filter_None_2 by (right; intros x _; intros Hne; by apply Hne).
        destruct (semadj i !! k) as [x|] eqn:Ex; [|done]. by apply Hnone in Ex.
      * rewrite <- (N2 k) by (intros Hk; by rewrite Hk in Ht).
        destruct (adj' !! k) as [x|] eqn:Ex; [by apply map_lookup_filter_Some_2|].
        apply map_lookup_filter_None_2. by left.
Qed.

(** A set of two semaphores, and a batch that adds 3 to the first and takes 1 back. *)
Definition ex_caller : Caller := mkCaller 0 0 0 100 true.
Definition ex_set : Z * Ipc := sys_semget 7 ex_caller ipc_default IPC_PRIVATE 2 0x1b6.
Definition ex_mem : flat_mem := {| fm_base := 4096;
  fm_bytes := [0;0;3;0;0;16; 0;0;255;255;0;16; 5;0;0;0;0;0;0;0; 104;105] |}.
Definition ex_semop := sys_semtimedop true 7 0 ex_caller ex_set.2 (mkWait None None) [ex_set.1; 4096; 2] 0 ex_mem.

Example ex_semop_runs : ∃ r i' w', ex_semop = Ok (r, i', w') ∧ r_ret r = 0 ∧ vals <$> sem i' !! ex_set.1 = Some [2; 0].
Proof. vm_compute. eexists _, _, _. split_and!; reflexivity. Qed.

Lemma ex_sems_ok id s : sem ex_set.2 !! id = Some s → sem_ok s.
Proof.
  assert (sem ex_set.2 = {[ex_set.1 := mkSem (perm_new 0 ex_caller 0x1b6 0) [0; 0] [0; 0] 0 7]}) as -> by by vm_compute.
  rewrite lookup_singleton_Some. intros [_ <-]. split; [|done]. simpl. repeat constructor; by compute.
Qed.

Lemma semop_atomic_witness :
  ∃ r i' w' set, ex_semop = Ok (r, i', w') ∧ sem ex_set.2 !! ex_set.1 = Some set ∧ vals set = [0; 0] ∧
    (i' = ex_set.2 ∨ r_ret r = 0 ∧ ∃ set', sem i' = <[ex_set.1 := set']> (sem ex_set.2) ∧ sem_ok set').
Proof.
  destruct ex_semop as [[[r i'] w']|] eqn:E; [|exfalso; revert E; by vm_compute].
  destruct (sem ex_set.2 !! ex_set.1) as [set|] eqn:Es; [|exfalso; revert Es; by vm_compute].
  exists r, i', w', set. split_and!; [done|done|revert Es; vm_compute; by intros [= <-]|].
  destruct (semop_atomic true 7 0 ex_caller ex_set.2 (mkWait None None) [ex_set.1; 4096; 2] 0 ex_mem r i' w' set
    ex_sems_ok E Es) as [[-> _]|(Hr & _ & _ & _ & raw & set' & _ & Hs & Hok & _)]; [by left|right].
  split; [done|]. by exists set'.
Defined.

Lemma semop_undo_roundtrip_witness :
  ∃ r i' w', ex_semop = Ok (r, i', w') ∧ ∃ b i'', exit_group true i' 100 = Ok (b, i'') ∧
    (∀ id, vals <$> sem i'' !! id = vals <$> sem ex_set.2 !! id) ∧ semadj i'' = semadj ex_set.2.
Proof.
  destruct ex_semop as [[[r i'] w']|] eqn:E; [|exfalso; revert E; by vm_compute].
  destruct (sem ex_set.2 !! ex_set.1) as [set|] eqn:Es; [|exfalso; revert Es; by vm_compute].
  exists r, i', w'. split; [done|].
  apply (semop_undo_roundtrip true 7 0 ex_caller ex_set.2 (mkWait None None) [ex_set.1; 4096; 2] 0 ex_mem r i' w' set
    ex_sems_ok); [|  |exact E|exact Es| |].
  - intros k x. change (semadj ex_set.2) with (∅ : gmap (Z * Z * Z) Z). by rewrite lookup_empty.
  - intros raw o Hr Ho. assert (raw = take 12 (fm_bytes ex_mem)) as -> by (revert Hr; vm_compute; congruence).
    apply list_elem_of_In in Ho. destruct Ho as [<-|[<-|[]]]; reflexivity.
  - revert E. vm_compute. by intros [= <- _ _].
  - revert E. vm_compute. by intros [= <- _ _].
Defined.

(** A queue, and a message of two bytes on it. *)
Definition ex_q1 : Ipc := (sys_msgget 7 ex_caller ipc_default IPC_PRIVATE 0x1b6).2.
Definition ex_q2 : Ret * Ipc * Quota := sys_msgsnd 8 ex_caller ex_q1 unlimited [0; 4108; 2; 0] ex_mem.

Lemma ipc_invariant_witness : used ex_q2.2 = used unlimited + all_bytes ex_q2.1.2 ∧ used ex_q2.2 = 2.
Proof.
  split; [|by vm_compute].
  apply (ipc_invariant (M := flat_mem) unlimited ex_q2.1.2 ex_q2.2); [done|].
  eapply rtc_l; [apply (i_msgget 7 ex_caller ipc_default unlimited IPC_PRIVATE 0x1b6); by vm_compute|].
  eapply rtc_l; [|apply rtc_refl]. apply (i_msgsnd 8 ex_caller ex_q1 unlimited [0; 4108; 2; 0] ex_mem ex_q2.1.1).
  change (ex_q2 = (ex_q2.1.1, ex_q2.1.2, ex_q2.2)). by rewrite <- !surjective_pairing.
Defined.
