(* ===== verification/Mqueue.v ===== *)
(** POSIX message queues ([src/kernel/mqueue.rs]): named queues that descriptors keep alive,
    priority order, blocking sends and receives, notification and attributes. Sums of guest
    addresses wrap, as in a release build. *)
From S2P Require Import Prelude Iface Abi PageLocks Quota Fd.
From stdpp Require Import base numbers gmap relations list sorting.
Local Open Scope Z_scope.

(** * UTF-8 ([String::from_utf8_lossy]) *)

Definition cont (b : Z) : bool := (0x80 <=? b) && (b <=? 0xbf).
Definition between (lo hi b : Z) : bool := (lo <=? b) && (b <=? hi).
(** Whether the sequence that starts [b] is well formed, and how many bytes it, or the part of it
    that one replacement character stands for, takes. *)
Definition utf8_step (b : Z) (rest : list Z) : bool * nat :=
  let second ok := match rest with b1 :: _ => ok b1 | [] => false end in
  let third := match rest with _ :: b2 :: _ => cont b2 | _ => false end in
  let fourth := match rest with _ :: _ :: b3 :: _ => cont b3 | _ => false end in
  if b <? 0x80 then (true, 1%nat)
  else if between 0xc2 0xdf b then if second cont then (true, 2%nat) else (false, 1%nat)
  else if between 0xe0 0xef b then
    if second (λ b1, if b =? 0xe0 then between 0xa0 0xbf b1 else if b =? 0xed then between 0x80 0x9f b1 else cont b1)
    then if third then (true, 3%nat) else (false, 2%nat)
    else (false, 1%nat)
  else if between 0xf0 0xf4 b then
    if second (λ b1, if b =? 0xf0 then between 0x90 0xbf b1 else if b =? 0xf4 then between 0x80 0x8f b1 else cont b1)
    then if third then if fourth then (true, 4%nat) else (false, 3%nat) else (false, 2%nat)
    else (false, 1%nat)
  else (false, 1%nat).
Fixpoint utf8_lossy_loop (fuel : nat) (raw : list Z) : list Z :=
  match fuel, raw with
  | S fuel, b :: rest =>
    let '(ok, n) := utf8_step b rest in
    (if ok then take n raw else [0xef; 0xbf; 0xbd]) ++ utf8_lossy_loop fuel (drop n raw)
  | _, _ => []
  end.
Definition utf8_lossy (raw : list Z) : list Z := utf8_lossy_loop (length raw) raw.

(** * Queues *)

Definition O_ACCMODE : Z := 3.
Definition O_CREAT : Z := 0x40.
Definition O_EXCL : Z := 0x80.
Definition O_NONBLOCK : Z := 0x800.
Definition O_CLOEXEC : Z := 0x80000.
Definition MQ_PRIO_MAX : Z := 32768.
Definition DFL_MAXMSG : Z := 10.
Definition DFL_MSGSIZE : Z := 8192.
Definition HARD_MAXMSG : Z := 65536.
Definition HARD_MSGSIZE : Z := 16 * 1024 * 1024.
Definition SIGEV_SIGNAL : Z := 0.
Definition SIGEV_NONE : Z := 1.

(** [hold] is a weak reference: the token the queue's descriptors share, if there is one. *)
Record MqInst := mkMq {
  msgs : list (Z * list Z); maxmsg : Z; msgsize : Z; mq_mode : Z; mq_notify : option (Z * Z * Z);
  linked : bool; hold : option Z; mq_uid : Z; charge : Z; dead : bool
}.

(** The queues and their names; a name is a namespace and the bytes after [format!]'s slash. *)
Record MqTable := mkMqT { mqueues : list MqInst; mq_names : gmap (Z * list Z) nat }.
Definition mq_default : MqTable := mkMqT [] ∅.

Definition full (m : MqInst) : bool := maxmsg m <=? Z.of_nat (length (msgs m)).
Definition mq_bytes (maxmsg msgsize : Z) : Z :=
  Z.min (maxmsg * Z.min (msgsize + (48 + 40)) (U64 - 1)) (U64 - 1).

(** [strong_count() > 0]: some descriptor table holds a descriptor with the token. *)
Definition fd_holds (h : Z) (f : Fd) : bool := match f with Mqueue _ _ h' => h' =? h | _ => false end.
Definition referenced (tabs : list FdTable) (h : option Z) : bool :=
  match h with
  | None => false
  | Some h => existsb (λ t, existsb (λ x, fd_holds h x.2) (map_to_list (Fd.fmap t))) tabs
  end.
Definition fd_tokens (t : FdTable) : list Z :=
  omap (λ x, match x.2 with Mqueue _ _ h => Some h | _ => None end) (map_to_list (Fd.fmap t)).
Definition tokens (tabs : list FdTable) (t : MqTable) : gset Z :=
  list_to_set (tabs ≫= fd_tokens) ∪ list_to_set (omap hold (mqueues t)).

(** [MqInst::hold]: the token for a new descriptor, and the queue that remembers it. *)
Definition with_hold (m : MqInst) (h : option Z) : MqInst :=
  mkMq (msgs m) (maxmsg m) (msgsize m) (mq_mode m) (mq_notify m) (linked m) h (mq_uid m) (charge m) (dead m).
Definition mq_hold (tabs : list FdTable) (t : MqTable) (m : MqInst) : Z * MqInst :=
  match hold m with
  | Some h => if referenced tabs (Some h) then (h, m)
              else let h := fresh (tokens tabs t) in (h, with_hold m (Some h))
  | None => let h := fresh (tokens tabs t) in (h, with_hold m (Some h))
  end.

Definition msg_bytes (m : MqInst) : Z := foldr (λ x n, Z.of_nat (length x.2) + n) 0 (msgs m).
(** [mq_collect]: what it frees, and the table after it. *)
Definition collect1 (tabs : list FdTable) (m : MqInst) : MqInst :=
  if negb (dead m) && negb (linked m) && negb (referenced tabs (hold m))
  then mkMq [] (maxmsg m) (msgsize m) (mq_mode m) None (linked m) (hold m) (mq_uid m) (charge m) true
  else m.
Definition freed1 (tabs : list FdTable) (m : MqInst) : Z :=
  if negb (dead m) && negb (linked m) && negb (referenced tabs (hold m)) then msg_bytes m else 0.
Definition mq_collect (tabs : list FdTable) (t : MqTable) : Z * MqTable :=
  (foldr (λ m n, freed1 tabs m + n) 0 (mqueues t), mkMqT (collect1 tabs <$> mqueues t) (mq_names t)).

Definition mq_ready (t : MqTable) (q : nat) : Z :=
  match mqueues t !! q with
  | None => 0
  | Some m => Z.lor (match msgs m with [] => 0 | _ => 1 end) (if full m then 0 else 4)
  end.

(** [position(|e| e.0 < prio).unwrap_or(len)] and [insert] there. *)
Fixpoint enqueue (prio : Z) (data : list Z) (l : list (Z * list Z)) : list (Z * list Z) :=
  match l with
  | [] => [(prio, data)]
  | e :: l' => if e.1 <? prio then (prio, data) :: l else e :: enqueue prio data l'
  end.

(** * The calls *)

(** What a call uses of the caller ([privileged], [creds.ruid], [tgid], the IPC namespace, the soft
    [RLIMIT_MSGQUEUE]), the caller's table among all of them, and the deadline of a timed wait. *)
Record MqCaller := mkMqC {
  mc_ipc : Z; mc_privileged : bool; mc_ruid : Z; mc_tgid : Z; mc_rlimit : Z; mc_me : nat
}.
Record MqState := mkMqS {
  tabs : list FdTable; table : MqTable; mq_quota : Quota; wake_deadline : option Z
}.
(** A call's result: its value, whether it blocks, whether it wakes every parked task, and the
    notification ([post_signal]) it sends: process, signal and value. *)
Record MqRet := mkMqR { m_ret : Z; m_block : bool; m_unpark : bool; m_signal : option (Z * Z * Z) }.
Definition mqret (r : Z) : MqRet := mkMqR r false false None.

Definition quota_release (q : Quota) (n : Z) : Quota := match release q n with Some (_, q') => q' | None => q end.
Definition my_fds (c : MqCaller) (s : MqState) : FdTable := default fd_default (tabs s !! mc_me c).

Section Calls.
Context `{GuestMem M}.

(** [read_cstr]: a byte at a time, up to [max]. *)
Fixpoint gm_read_cstr (m : M) (addr : Z) (max : nat) : option (list Z) :=
  match max with
  | O => Some []
  | S max =>
    match gm_read m addr 1 with
    | None => None
    | Some [0] => Some []
    | Some b => rest ← gm_read_cstr m (wrap U64 (addr + 1)) max; Some (b ++ rest)
    end
  end.

Definition check_name (mem : M) (ptr : Z) : Z + list Z :=
  match gm_read_cstr mem ptr 4096 with
  | None => inl (err EFAULT)
  | Some raw =>
    if 255 <? Z.of_nat (length raw) then inl (err ENAMETOOLONG)
    else if bool_decide (raw = []) then inl (err ENOENT)
    else if existsb (Z.eqb 0x2f) raw then inl (err EACCES)
    else inr (utf8_lossy raw)
  end.

(** [mq_fd]: queue, readable, writable, non-blocking. *)
Definition mq_fd (t : FdTable) (fd : Z) : Z + (nat * bool * bool * bool) :=
  match fd_get t (as_i32 fd) with
  | Some (Mqueue q flags _) =>
    let acc := Z.land flags O_ACCMODE in
    inr (Z.to_nat q, negb (acc =? 1), negb (acc =? 0), negb (Z.land flags O_NONBLOCK =? 0))
  | _ => inl (err EBADF)
  end.

Definition deadline (wd : option Z) (ts : Z) (mem : M) : Z + (option Z * option Z) :=
  if ts =? 0 then inr (None, wd)
  else match wd with
  | Some dl => inr (Some dl, wd)
  | None =>
    match gm_read_u64 mem ts, gm_read_u64 mem (wrap U64 (ts + 8)) with
    | Some s, Some n =>
      if (as_i64 s <? 0) || (1000000000 <=? n) then inl (err EINVAL)
      else let dl := s * 1000000000 + n in inr (Some dl, Some dl)
    | _, _ => inl (err EFAULT)
    end
  end.

(** The size a new queue asks for. *)
Definition mq_attr (privileged : bool) (attr : Z) (mem : M) : Z + (Z * Z) :=
  if attr =? 0 then inr (DFL_MAXMSG, DFL_MSGSIZE)
  else match gm_read_u64 mem (wrap U64 (attr + 8)), gm_read_u64 mem (wrap U64 (attr + 16)) with
  | Some mx, Some sz =>
    let '(mx_lim, sz_lim) := if privileged then (HARD_MAXMSG, HARD_MSGSIZE) else (DFL_MAXMSG, DFL_MSGSIZE) in
    if (as_i64 mx <=? 0) || (as_i64 sz <=? 0) || (mx_lim <? mx) || (sz_lim <? sz) then inl (err EINVAL)
    else inr (mx, sz)
  | _, _ => inl (err EFAULT)
  end.

(** The queue an existing name gives, if the mode allows it; a new queue, in the first dead slot
    or at the end. *)
Definition open_existing (c : MqCaller) (t : MqTable) (q : nat) (oflag : Z) : res (Z + nat) :=
  if negb (Z.land oflag O_CREAT =? 0) && negb (Z.land oflag O_EXCL =? 0) then Ok (inl (err EEXIST))
  else match mqueues t !! q with
  | None => Panic
  | Some m =>
    let acc := Z.land oflag O_ACCMODE in
    let want := if acc =? 0 then 4 else if acc =? 1 then 2 else 6 in
    if negb (mc_privileged c) && negb (Z.land (Z.shiftr (mq_mode m) 6) want =? want) then Ok (inl (err EACCES))
    else Ok (inr q)
  end.
Definition held_by (uid : Z) (t : MqTable) : Z :=
  wrap U64 (foldr (λ m n, (if negb (dead m) && (mq_uid m =? uid) then charge m else 0) + n) 0 (mqueues t)).
Definition place (t : MqTable) (inst : MqInst) : nat * list MqInst :=
  match list_find (λ m, dead m = true) (mqueues t) with
  | Some (q, _) => (q, <[q := inst]> (mqueues t))
  | None => (length (mqueues t), mqueues t ++ [inst])
  end.
Definition open_new (c : MqCaller) (t : MqTable) (name : list Z) (mode attr : Z) (mem : M) : Z + (nat * MqTable) :=
  match mq_attr (mc_privileged c) attr mem with
  | inl e => inl e
  | inr (mx, sz) =>
    let ch := mq_bytes mx sz in
    if mc_rlimit c <? Z.min (held_by (mc_ruid c) t + ch) (U64 - 1) then inl (err EMFILE)
    else
      let inst := mkMq [] mx sz (Z.land mode 0x1ff) None true None (mc_ruid c) ch false in
      let '(q, l) := place t inst in
      inr (q, mkMqT l (<[(mc_ipc c, name) := q]> (mq_names t)))
  end.

Definition sys_mq_open (c : MqCaller) (s : MqState) (a : list Z) (mem : M) : res (MqRet * MqState) :=
  let oflag := nth 1 a 0 in
  match check_name mem (nth 0 a 0) with
  | inl e => Ok (mqret e, s)
  | inr name =>
    if Z.land oflag O_ACCMODE =? 3 then Ok (mqret (err EINVAL), s)
    else
      let '(freed, t) := mq_collect (tabs s) (table s) in
      let quota := quota_release (mq_quota s) freed in
      let fail e := Ok (mqret e, mkMqS (tabs s) t quota (wake_deadline s)) in
      r ← match mq_names t !! (mc_ipc c, name) with
          | Some q => match open_existing c t q oflag with
                      | Ok (inr q) => Ok (inr (q, t)) | Ok (inl e) => Ok (inl e) | Panic => Panic end
          | None => if Z.land oflag O_CREAT =? 0 then Ok (inl (err ENOENT))
                    else Ok (open_new c t name (nth 2 a 0) (nth 3 a 0) mem)
          end;
      match r with
      | inl e => fail e
      | inr (q, t) =>
        match mqueues t !! q with
        | None => Panic
        | Some m =>
          let '(h, m') := mq_hold (tabs s) t m in
          '(fd, fds) ← fd_alloc (my_fds c s) (Mqueue (Z.of_nat q) (Z.land oflag (Z.lor O_ACCMODE O_NONBLOCK)) h);
          let fds := set_cloexec fds fd (negb (Z.land oflag O_CLOEXEC =? 0)) in
          Ok (mqret fd, mkMqS (<[mc_me c := fds]> (tabs s)) (mkMqT (<[q := m']> (mqueues t)) (mq_names t)) quota (wake_deadline s))
        end
      end
  end.

Definition unlink1 (m : MqInst) : MqInst :=
  mkMq (msgs m) (maxmsg m) (msgsize m) (mq_mode m) (mq_notify m) false (hold m) (mq_uid m) (charge m) (dead m).
Definition sys_mq_unlink (c : MqCaller) (s : MqState) (name : Z) (mem : M) : res (MqRet * MqState) :=
  match check_name mem name with
  | inl e => Ok (mqret e, s)
  | inr name =>
    match mq_names (table s) !! (mc_ipc c, name) with
    | None => Ok (mqret (err ENOENT), s)
    | Some q =>
      match mqueues (table s) !! q with
      | None => Panic
      | Some m =>
        let t := mkMqT (<[q := unlink1 m]> (mqueues (table s))) (delete (mc_ipc c, name) (mq_names (table s))) in
        let '(freed, t) := mq_collect (tabs s) t in
        Ok (mqret 0, mkMqS (tabs s) t (quota_release (mq_quota s) freed) (wake_deadline s))
      end
    end
  end.

Definition with_msgs (m : MqInst) (l : list (Z * list Z)) (n : option (Z * Z * Z)) : MqInst :=
  mkMq l (maxmsg m) (msgsize m) (mq_mode m) n (linked m) (hold m) (mq_uid m) (charge m) (dead m).
Definition put_queue (s : MqState) (q : nat) (m : MqInst) (quota : Quota) (wd : option Z) : MqState :=
  mkMqS (tabs s) (mkMqT (<[q := m]> (mqueues (table s))) (mq_names (table s))) quota wd.
Definition with_deadline (s : MqState) (wd : option Z) : MqState := mkMqS (tabs s) (table s) (mq_quota s) wd.

(** What a full (or empty) queue does to the caller. *)
Definition mq_wait (now : Z) (s : MqState) (nonblock : bool) (dl wd : option Z) : MqRet * MqState :=
  if nonblock then (mqret (err EAGAIN), with_deadline s wd)
  else if match dl with Some d => d <=? now | None => false end
       then (mqret (err ETIMEDOUT), with_deadline s None)
       else (mkMqR 0 true false None, with_deadline s wd).

Definition sys_mq_timedsend (now : Z) (c : MqCaller) (s : MqState) (a : list Z) (mem : M) : res (MqRet * MqState) :=
  let ptr := nth 1 a 0 in
  let len := nth 2 a 0 in
  let prio := nth 3 a 0 in
  match mq_fd (my_fds c s) (nth 0 a 0) with
  | inl e => Ok (mqret e, s)
  | inr (q, _, writable, nonblock) =>
    if negb writable then Ok (mqret (err EBADF), s)
    else if MQ_PRIO_MAX <=? prio then Ok (mqret (err EINVAL), s)
    else match deadline (wake_deadline s) (nth 4 a 0) mem with
    | inl e => Ok (mqret e, s)
    | inr (dl, wd) =>
      match mqueues (table s) !! q with
      | None => Panic
      | Some m =>
        if msgsize m <? len then Ok (mqret (err EMSGSIZE), with_deadline s wd)
        else if full m then Ok (mq_wait now s nonblock dl wd)
        else match gm_read mem ptr len with
        | None => Ok (mqret (err EFAULT), with_deadline s wd)
        | Some data =>
          match try_charge (mq_quota s) (Z.of_nat (length data)) with
          | Some (Granted _, quota) =>
            let was_empty := bool_decide (msgs m = []) in
            let note := if was_empty then mq_notify m else None in
            let m' := with_msgs m (enqueue prio data (msgs m)) (if was_empty then None else mq_notify m) in
            let signal := match note with Some (pid, sig, v) => if sig =? 0 then None else note | None => None end in
            Ok (mkMqR 0 false true signal, put_queue s q m' quota None)
          | _ => Ok (mqret (err ENOMEM), with_deadline s wd)
          end
        end
      end
    end
  end.

Definition sys_mq_timedreceive (now : Z) (c : MqCaller) (s : MqState) (a : list Z) (mem : M) :
    res (MqRet * MqState * M) :=
  let ptr := nth 1 a 0 in
  let len := nth 2 a 0 in
  let prio_ptr := nth 3 a 0 in
  match mq_fd (my_fds c s) (nth 0 a 0) with
  | inl e => Ok (mqret e, s, mem)
  | inr (q, readable, _, nonblock) =>
    if negb readable then Ok (mqret (err EBADF), s, mem)
    else match deadline (wake_deadline s) (nth 4 a 0) mem with
    | inl e => Ok (mqret e, s, mem)
    | inr (dl, wd) =>
      match mqueues (table s) !! q with
      | None => Panic
      | Some m =>
        if len <? msgsize m then Ok (mqret (err EMSGSIZE), with_deadline s wd, mem)
        else match msgs m with
        | [] => Ok (mq_wait now s nonblock dl wd, mem)
        | (prio, data) :: rest =>
          match gm_write mem ptr data with
          | None => Ok (mqret (err EFAULT), with_deadline s None, mem)
          | Some mem1 =>
            match (if prio_ptr =? 0 then Some mem1 else gm_write mem1 prio_ptr (le_bytes 4 prio)) with
            | None => Ok (mqret (err EFAULT), with_deadline s None, mem1)
            | Some mem2 =>
              let n := Z.of_nat (length data) in
              Ok (mkMqR n false true None,
                  put_queue s q (with_msgs m rest (mq_notify m)) (quota_release (mq_quota s) n) None, mem2)
            end
          end
        end
      end
    end
  end.

Definition sys_mq_notify (c : MqCaller) (s : MqState) (fd sevp : Z) (mem : M) : res (MqRet * MqState) :=
  match mq_fd (my_fds c s) fd with
  | inl e => Ok (mqret e, s)
  | inr (q, _, _, _) =>
    match mqueues (table s) !! q with
    | None => Panic
    | Some m =>
      let set n := put_queue s q (with_msgs m (msgs m) n) (mq_quota s) (wake_deadline s) in
      if sevp =? 0 then
        Ok (mqret 0, match mq_notify m with
                     | Some (pid, _, _) => if pid =? mc_tgid c then set None else s
                     | None => s
                     end)
      else match gm_read mem sevp 16 with
      | None => Ok (mqret (err EFAULT), s)
      | Some raw =>
        let value := le_val (take 8 raw) in
        let signo := le_val (take 4 (drop 8 raw)) in
        let notify := as_i32 (le_val (take 4 (drop 12 raw))) in
        match (if notify =? SIGEV_NONE then Some 0
               else if (notify =? SIGEV_SIGNAL) && (1 <=? signo) && (signo <=? 64) then Some signo
               else None) with
        | None => Ok (mqret (err EINVAL), s)
        | Some sig =>
          match mq_notify m with
          | Some _ => Ok (mqret (err EBUSY), s)
          | None => Ok (mqret 0, set (Some (mc_tgid c, sig, value)))
          end
        end
      end
    end
  end.

Definition mq_attr_bytes (m : MqInst) (nonblock : bool) : list Z :=
  le_bytes 8 (if nonblock then O_NONBLOCK else 0) ++ le_bytes 8 (maxmsg m) ++ le_bytes 8 (msgsize m)
  ++ le_bytes 8 (Z.of_nat (length (msgs m))) ++ replicate 32 0.
Definition set_flags (t : FdTable) (fd nf : Z) : FdTable :=
  match fd_get t fd with
  | Some (Mqueue q flags h) =>
    mkFdTable (<[fd := Mqueue q (Z.lor (Z.ldiff flags O_NONBLOCK) nf) h]> (Fd.fmap t)) (cloexec t) (fmeta t)
  | _ => t
  end.
Definition sys_mq_getsetattr (c : MqCaller) (s : MqState) (fd new old : Z) (mem : M) : res (MqRet * MqState * M) :=
  match mq_fd (my_fds c s) fd with
  | inl e => Ok (mqret e, s, mem)
  | inr (q, _, _, nonblock) =>
    match (if new =? 0 then inr None
           else match gm_read_u64 mem new with
                | Some f => if Z.ldiff f O_NONBLOCK =? 0 then inr (Some f) else inl (err EINVAL)
                | None => inl (err EFAULT)
                end) with
    | inl e => Ok (mqret e, s, mem)
    | inr new_flags =>
      r ← (if old =? 0 then Ok (Some mem)
           else match mqueues (table s) !! q with
                | None => Panic
                | Some m => Ok (gm_write mem old (mq_attr_bytes m nonblock))
                end);
      match r with
      | None => Ok (mqret (err EFAULT), s, mem)
      | Some mem' =>
        Ok (mqret 0, match new_flags with
                     | Some nf => mkMqS (<[mc_me c := set_flags (my_fds c s) (as_i32 fd) nf]> (tabs s))
                                        (table s) (mq_quota s) (wake_deadline s)
                     | None => s
                     end, mem')
      end
    end
  end.
End Calls.

(** * Priority order *)

(** [l] holds the messages of [arr], which is in order of arrival, highest priority first and in
    order of arrival within a priority. *)
Definition ordered_as (arr l : list (Z * list Z)) : Prop :=
  StronglySorted (λ x y, y.1 ≤ x.1) l ∧ ∀ p, filter (λ x, x.1 = p) l = filter (λ x, x.1 = p) arr.

Lemma filter_none p (l : list (Z * list Z)) : Forall (λ x, x.1 ≠ p) l → filter (λ x, x.1 = p) l = [].
Proof.
  induction 1 as [|x l Hx _ IH]; [done|]. by rewrite filter_cons_False.
Qed.

Lemma enqueue_elem p d l x : x ∈ enqueue p d l ↔ x = (p, d) ∨ x ∈ l.
Proof.
  induction l as [|e l IH]; simpl; [set_solver|]. case_match; [set_solver|].
  rewrite !elem_of_cons, IH. tauto.
Qed.
Lemma enqueue_length p d l : length (enqueue p d l) = S (length l).
Proof. induction l as [|e l IH]; simpl; [done|]. case_match; simpl; congruence. Qed.
Lemma enqueue_sorted p d l :
  StronglySorted (λ x y, y.1 ≤ x.1) l → StronglySorted (λ x y, y.1 ≤ x.1) (enqueue p d l).
Proof.
  induction 1 as [|e l Hs IH Hf]; simpl; [repeat constructor|]. case_match.
  - constructor; [by constructor|]. constructor; [simpl; lia|].
    eapply Forall_impl; [exact Hf|]. simpl. intros. lia.
  - constructor; [done|]. apply Forall_forall. intros x [->|Hx]%enqueue_elem; [simpl; lia|].
    by apply (proj1 (Forall_forall _ _) Hf).
Qed.
Lemma enqueue_filter p d l p' :
  StronglySorted (λ x y, y.1 ≤ x.1) l →
  filter (λ x, x.1 = p') (enqueue p d l) = filter (λ x, x.1 = p') l ++ filter (λ x, x.1 = p') [(p, d)].
Proof.
  induction 1 as [|e l Hs IH Hf]; [done|]. cbn [enqueue]. case_match eqn:E.
  - destruct (decide (p = p')) as [->|Hp].
    + assert (filter (λ x, x.1 = p') (e :: l) = []) as Hn.
      { apply filter_none. constructor; [lia|]. eapply Forall_impl; [exact Hf|]. simpl. intros. lia. }
      rewrite (filter_cons_True _ (p', d) (e :: l)), Hn by done. by rewrite filter_cons_True by done.
    + rewrite (filter_cons_False _ (p, d)), (filter_cons_False _ (p, d)) by done. by rewrite app_nil_r.
  - rewrite !(filter_cons _ e). case_decide; simpl; by rewrite IH.
Qed.

Lemma enqueue_ordered arr l p d : ordered_as arr l → ordered_as (arr ++ [(p, d)]) (enqueue p d l).
Proof.
  intros [Hs Hf]. split; [by apply enqueue_sorted|]. intros p'. by rewrite enqueue_filter, filter_app, Hf.
Qed.

(** The head of the list is the oldest message of the highest priority. *)
Lemma dequeue_ordered arr m l :
  ordered_as arr (m :: l) → ∃ l1 l2,
    arr = l1 ++ m :: l2 ∧ Forall (λ x, x.1 < m.1) l1 ∧ Forall (λ x, x.1 ≤ m.1) l2 ∧ ordered_as (l1 ++ l2) l.
Proof.
  intros [Hs Hf]. apply StronglySorted_inv in Hs as [Hs Hle].
  assert (∀ x, x ∈ arr → x.1 ≤ m.1) as Hmax.
  { intros x Hx. assert (x ∈ filter (λ y, y.1 = x.1) arr) as H by (by apply list_elem_of_filter).
    rewrite <-Hf in H. apply list_elem_of_filter in H as [_ [->|H]%elem_of_cons]; [done|].
    by apply (proj1 (Forall_forall _ _) Hle). }
  assert (∀ arr0, filter (λ x, x.1 = m.1) arr0 = m :: filter (λ x, x.1 = m.1) l → ∃ l1 l2,
    arr0 = l1 ++ m :: l2 ∧ Forall (λ x, x.1 ≠ m.1) l1 ∧ filter (λ x, x.1 = m.1) l2 = filter (λ x, x.1 = m.1) l) as Hsplit.
  { induction arr0 as [|y arr0 IH]; [done|]. rewrite filter_cons. case_decide as Hy; intros E.
    - injection E as -> E. by exists [], arr0.
    - destruct (IH E) as (l1 & l2 & -> & H1 & H2). exists (y :: l1), l2. split_and!; [done|by constructor|done]. }
  specialize (Hf m.1) as Hm. rewrite filter_cons_True in Hm by done.
  destruct (Hsplit arr (eq_sym Hm)) as (l1 & l2 & -> & H1 & H2). exists l1, l2. split_and!; [done| | |split; [done|]].
  - apply Forall_forall. intros x Hx. assert (x.1 ≤ m.1) by (apply Hmax; set_solver).
    assert (x.1 ≠ m.1) by (by apply (proj1 (Forall_forall _ _) H1)). lia.
  - apply Forall_forall. intros x Hx. apply Hmax. set_solver.
  - intros p. rewrite filter_app. destruct (decide (m.1 = p)) as [<-|Hp].
    + by rewrite (filter_none _ l1 H1), H2.
    + specialize (Hf p). rewrite filter_cons_False, filter_app, filter_cons_False in Hf by done. exact Hf.
Qed.

Lemma charge_granted q n b q' : try_charge q n = Some (Granted b, q') → b = n ∧ q' = mkQuota (limit q) (used q + n).
Proof. rewrite (proj1 (quota_sequential q n)). case_decide; intros; by simplify_eq. Qed.
Lemma quota_release_eq q n : quota_release q n = mkQuota (limit q) (Z.max 0 (used q - n)).
Proof. unfold quota_release. by rewrite (proj1 (proj2 (quota_sequential q n))). Qed.

(** A call that fails, or blocks, and leaves the queues, descriptors and quota alone. *)
Definition mq_idle (s : MqState) (r : MqRet) (s' : MqState) : Prop :=
  table s' = table s ∧ tabs s' = tabs s ∧ mq_quota s' = mq_quota s ∧ (m_ret r < 0 ∨ m_block r = true).
Ltac mq_idle := simplify_eq/=; left; split_and!; [reflexivity..|by left].

Lemma mq_wait_idle now s nb dl wd r s' : mq_wait now s nb dl wd = (r, s') → mq_idle s r s'.
Proof. unfold mq_wait, mq_idle. intros E. repeat case_match; simplify_eq/=; split_and!; done || (by left) || by right. Qed.

Section Order.
Context `{GuestMem M}.

Lemma mq_fd_err t fd e : mq_fd t fd = inl e → e < 0.
Proof. unfold mq_fd. intros E. by repeat case_match; simplify_eq. Qed.
Lemma deadline_err wd ts (mem : M) e : deadline wd ts mem = inl e → e < 0.
Proof. unfold deadline. intros E. by repeat case_match; simplify_eq. Qed.

(** A send by its outcome. *)
Lemma timedsend_inv now c s a (mem : M) r s' :
  sys_mq_timedsend now c s a mem = Ok (r, s') →
  mq_idle s r s' ∨
  ∃ q rd nb m data,
    mq_fd (my_fds c s) (nth 0 a 0) = inr (q, rd, true, nb) ∧ mqueues (table s) !! q = Some m ∧ full m = false ∧
    nth 2 a 0 ≤ msgsize m ∧ gm_read mem (nth 1 a 0) (nth 2 a 0) = Some data ∧ m_ret r = 0 ∧ m_block r = false ∧
    s' = put_queue s q (with_msgs m (enqueue (nth 3 a 0) data (msgs m)) (if bool_decide (msgs m = []) then None else mq_notify m))
           (mkQuota (limit (mq_quota s)) (used (mq_quota s) + Z.of_nat (length data))) None.
Proof.
  unfold sys_mq_timedsend. intros E.
  destruct (mq_fd _ _) as [e|[[[q rd] w] nb]] eqn:Ef; [apply mq_fd_err in Ef; mq_idle|].
  destruct w; simpl in E; [|mq_idle]. destruct (_ <=? _); [mq_idle|].
  destruct (deadline _ _ _) as [e|[dl wd]] eqn:Ed; [apply deadline_err in Ed; mq_idle|].
  destruct (mqueues (table s) !! q) as [m|] eqn:Em; [|done].
  destruct (msgsize m <? _) eqn:Es; [mq_idle|].
  destruct (full m) eqn:Efull; [injection E as E; left; by eapply mq_wait_idle|].
  destruct (gm_read _ _ _) as [data|] eqn:Er; [|mq_idle].
  destruct (try_charge _ _) as [[[b|b|b] quota]|] eqn:Ec; [|mq_idle..].
  apply charge_granted in Ec as [-> ->]. simplify_eq. right. exists q, rd, nb, m, data. split_and!; done || lia.
Qed.

(** A receive by its outcome. *)
Lemma timedreceive_inv now c s a (mem : M) r s' mem' :
  sys_mq_timedreceive now c s a mem = Ok (r, s', mem') →
  mq_idle s r s' ∨
  ∃ q wr nb m prio data rest mem1,
    mq_fd (my_fds c s) (nth 0 a 0) = inr (q, true, wr, nb) ∧ mqueues (table s) !! q = Some m ∧
    msgs m = (prio, data) :: rest ∧ gm_write mem (nth 1 a 0) data = Some mem1 ∧
    (if nth 3 a 0 =? 0 then Some mem1 else gm_write mem1 (nth 3 a 0) (le_bytes 4 prio)) = Some mem' ∧
    m_ret r = Z.of_nat (length data) ∧ m_block r = false ∧
    s' = put_queue s q (with_msgs m rest (mq_notify m)) (quota_release (mq_quota s) (Z.of_nat (length data))) None.
Proof.
  unfold sys_mq_timedreceive. intros E.
  destruct (mq_fd _ _) as [e|[[[q rd] w] nb]] eqn:Ef; [apply mq_fd_err in Ef; mq_idle|].
  destruct rd; simpl in E; [|mq_idle].
  destruct (deadline _ _ _) as [e|[dl wd]] eqn:Ed; [apply deadline_err in Ed; mq_idle|].
  destruct (mqueues (table s) !! q) as [m|] eqn:Em; [|done].
  destruct (_ <? msgsize m) eqn:Es; [mq_idle|].
  destruct (msgs m) as [|[prio data] rest] eqn:El.
  { destruct (mq_wait _ _ _ _ _) as [r0 s0] eqn:Ew. simplify_eq. left. by eapply mq_wait_idle. }
  destruct (gm_write _ _ _) as [mem1|] eqn:Ew; [|mq_idle].
  destruct (if _ =? 0 then _ else _) as [mem2|] eqn:Ew2; [|mq_idle].
  simplify_eq. right. exists q, w, nb, m, prio, data, rest, mem1. by split_and!.
Qed.

(** Messages come out by priority, and in order of arrival within one. Let [arr] be the
    messages of a queue in order of arrival. A send that succeeds appends the bytes it read from
    the guest with its priority, and one that fails or blocks changes no queue. A receive that
    succeeds hands the guest exactly the oldest message of the highest priority, its length and
    its priority, and takes that message alone; one that fails or blocks takes nothing. Other
    queues are untouched. *)
Theorem mq_priority_fifo now c s a (mem : M) r s' mem' q rd wr nb m arr :
  mq_fd (my_fds c s) (nth 0 a 0) = inr (q, rd, wr, nb) → mqueues (table s) !! q = Some m → ordered_as arr (msgs m) →
  (sys_mq_timedsend now c s a mem = Ok (r, s') →
     (m_ret r < 0 ∨ m_block r = true) ∧ mqueues (table s') = mqueues (table s) ∨
     m_ret r = 0 ∧ ∃ data m', gm_read mem (nth 1 a 0) (nth 2 a 0) = Some data ∧
       mqueues (table s') = <[q := m']> (mqueues (table s)) ∧ ordered_as (arr ++ [(nth 3 a 0, data)]) (msgs m')) ∧
  (sys_mq_timedreceive now c s a mem = Ok (r, s', mem') →
     (m_ret r < 0 ∨ m_block r = true) ∧ mqueues (table s') = mqueues (table s) ∨
     ∃ l1 prio data l2 mem1 m', arr = l1 ++ (prio, data) :: l2 ∧
       Forall (λ x, x.1 < prio) l1 ∧ Forall (λ x, x.1 ≤ prio) l2 ∧ m_ret r = Z.of_nat (length data) ∧
       gm_write mem (nth 1 a 0) data = Some mem1 ∧
       (if nth 3 a 0 =? 0 then Some mem1 else gm_write mem1 (nth 3 a 0) (le_bytes 4 prio)) = Some mem' ∧
       mqueues (table s') = <[q := m']> (mqueues (table s)) ∧ ordered_as (l1 ++ l2) (msgs m')).
Proof.
  intros Hfd Hm Ho. split; intros E.
  - destruct (timedsend_inv _ _ _ _ _ _ _ E) as [(-> & _ & _ & Hr)|(q' & rd' & nb' & m0 & data & Ef & Em & _ & _ & Er & Hr & _ & ->)];
      [by left|right]. rewrite Ef in Hfd. simplify_eq. split; [done|]. eexists data, _. split_and!; [done|done|].
    by apply enqueue_ordered.
  - destruct (timedreceive_inv _ _ _ _ _ _ _ _ E) as [(-> & _ & _ & Hr)|(q' & wr' & nb' & m0 & prio & data & rest & mem1 & Ef & Em & El & Ew & Ew2 & Hr & _ & ->)];
      [by left|right]. rewrite Ef in Hfd. simplify_eq. rewrite El in Ho.
    destruct (dequeue_ordered _ _ _ Ho) as (l1 & l2 & -> & H1 & H2 & H3).
    eexists l1, prio, data, l2, mem1, _. split_and!; done.
Qed.
End Order.

(** * Lifetime of queues *)

Definition all_bytes (t : MqTable) : Z := foldr (λ m n, msg_bytes m + n) 0 (mqueues t).

(** A descriptor's queue is live and remembers the descriptor's token. *)
Definition fd_live (t : MqTable) (f : Fd) : Prop :=
  match f with
  | Mqueue q _ h => ∃ m, mqueues t !! Z.to_nat q = Some m ∧ dead m = false ∧ hold m = Some h
  | _ => True
  end.
Record mq_inv (base : Z) (s : MqState) : Prop := {
  i_names : ∀ k q, mq_names (table s) !! k = Some q → ∃ m, mqueues (table s) !! q = Some m ∧ linked m = true ∧ dead m = false;
  i_inj : ∀ k k' q, mq_names (table s) !! k = Some q → mq_names (table s) !! k' = Some q → k = k';
  i_fds : ∀ tab n f, tab ∈ tabs s → Fd.fmap tab !! n = Some f → fd_live (table s) f;
  i_bound : Forall (λ m, Z.of_nat (length (msgs m)) ≤ Z.max 0 (maxmsg m) ∧ Forall (λ x, Z.of_nat (length x.2) ≤ msgsize m) (msgs m)
                     ∧ (dead m = true → msgs m = [])) (mqueues (table s));
  i_quota : used (mq_quota s) = base + all_bytes (table s)
}.

Lemma bytes_nonneg m : 0 ≤ msg_bytes m.
Proof. unfold msg_bytes. induction (msgs m); simpl; lia. Qed.
Lemma all_bytes_nonneg t : 0 ≤ all_bytes t.
Proof.
  unfold all_bytes. induction (mqueues t) as [|m l IH]; simpl; [lia|]. pose proof (bytes_nonneg m). lia.
Qed.
Lemma all_bytes_insert l names q m m' :
  l !! q = Some m → all_bytes (mkMqT (<[q := m']> l) names) = all_bytes (mkMqT l names) + msg_bytes m' - msg_bytes m.
Proof.
  unfold all_bytes. simpl. revert q. induction l as [|x l IH]; intros [|q] Hq; simplify_eq/=; [lia|].
  rewrite (IH _ Hq). lia.
Qed.
Lemma referenced_spec ts h :
  referenced ts (Some h) = true ↔ ∃ tab n q fl, tab ∈ ts ∧ Fd.fmap tab !! n = Some (Mqueue q fl h).
Proof.
  unfold referenced. rewrite existsb_exists. split.
  - intros (tab & Hin & (x & Hx & Hh)%existsb_exists). apply list_elem_of_In in Hin. apply list_elem_of_In in Hx.
    destruct x as [n f]. apply elem_of_map_to_list in Hx. destruct f; simpl in Hh; try done. apply Z.eqb_eq in Hh as ->. eauto 10.
  - intros (tab & n & q & fl & Hin & Hl). exists tab. split; [by apply list_elem_of_In|]. apply existsb_exists.
    exists (n, Mqueue q fl h). split; [apply list_elem_of_In; by apply elem_of_map_to_list|]. simpl. apply Z.eqb_refl.
Qed.

(** Collecting frees only queues nothing refers to. *)
Lemma inv_collect base s freed t :
  mq_collect (tabs s) (table s) = (freed, t) → 0 ≤ base → mq_inv base s →
  mq_inv base (mkMqS (tabs s) t (quota_release (mq_quota s) freed) (wake_deadline s)).
Proof.
  unfold mq_collect. intros E Hb [I1 I2 I3 I4 I5]. simplify_eq.
  assert (∀ q m, mqueues (table s) !! q = Some m → linked m = true ∨ (∃ h, hold m = Some h ∧ referenced (tabs s) (Some h) = true) →
    collect1 (tabs s) m = m) as Hkeep.
  { intros q m _ [Hl|(h & Hh & Hr)]; unfold collect1; [rewrite Hl|rewrite Hh, Hr]; by rewrite ?andb_false_r. }
  split; simpl.
  - intros k q Hk. destruct (I1 k q Hk) as (m & Hm & Hl & Hd). exists m. rewrite list_lookup_fmap, Hm. simpl.
    rewrite (Hkeep q m Hm) by (by left). done.
  - done.
  - intros tab n f Hin Hf. specialize (I3 tab n f Hin Hf). destruct f; try done. destruct I3 as (m & Hm & Hd & Hh).
    exists m. simpl. rewrite list_lookup_fmap, Hm. simpl. rewrite (Hkeep _ m Hm); [done|]. right. exists hold0.
    split; [done|]. apply referenced_spec. eauto 10.
  - apply Forall_fmap. eapply Forall_impl; [exact I4|]. intros m (H1 & H2 & H3). unfold compose, collect1.
    case_match; simpl; [|done]. split_and!; [lia|constructor|done].
  - rewrite quota_release_eq. simpl. rewrite I5. unfold all_bytes. simpl.
    assert (∀ l, foldr (λ m n, freed1 (tabs s) m + n) 0 l + foldr (λ m n, msg_bytes m + n) 0 (collect1 (tabs s) <$> l)
      = foldr (λ m n, msg_bytes m + n) 0 l ∧ 0 ≤ foldr (λ m n, msg_bytes m + n) 0 (collect1 (tabs s) <$> l)) as Hsum.
    { induction l as [|m l [IH IH2]]; [done|]. rewrite fmap_cons. cbn [foldr]. pose proof (bytes_nonneg (collect1 (tabs s) m)).
      assert (freed1 (tabs s) m + msg_bytes (collect1 (tabs s) m) = msg_bytes m); [|lia].
      unfold freed1, collect1. case_match; [|lia]. unfold msg_bytes at 2. simpl. lia. }
    destruct (Hsum (mqueues (table s))). lia.
Qed.

(** A queue whose messages change. *)
Lemma inv_put base s q m l n quota wd :
  mqueues (table s) !! q = Some m → mq_inv base s →
  Z.of_nat (length l) ≤ Z.max 0 (maxmsg m) → Forall (λ x, Z.of_nat (length x.2) ≤ msgsize m) l →
  (dead m = true → l = []) →
  used quota = used (mq_quota s) + (msg_bytes (with_msgs m l n) - msg_bytes m) →
  mq_inv base (put_queue s q (with_msgs m l n) quota wd).
Proof.
  intros Hm [I1 I2 I3 I4 I5] H1 H2 H3 H4.
  assert (∀ q0 m0, mqueues (table s) !! q0 = Some m0 → ∃ m1, <[q := with_msgs m l n]> (mqueues (table s)) !! q0 = Some m1 ∧
    linked m1 = linked m0 ∧ dead m1 = dead m0 ∧ hold m1 = hold m0) as Hsame.
  { intros q0 m0 H0. destruct (decide (q0 = q)) as [->|Hne].
    - simplify_eq. eexists. rewrite list_lookup_insert_eq by (by eapply lookup_lt_Some). done.
    - exists m0. by rewrite list_lookup_insert_ne. }
  split; simpl.
  - intros k q0 Hk. destruct (I1 k q0 Hk) as (m0 & H0 & Hl & Hd). destruct (Hsame q0 m0 H0) as (m1 & ? & ? & ? & ?). exists m1. naive_solver congruence.
  - done.
  - intros tab k f Hin Hf. specialize (I3 tab k f Hin Hf). destruct f; try done. destruct I3 as (m0 & H0 & Hd & Hh).
    destruct (Hsame _ m0 H0) as (m1 & ? & ? & ? & ?). exists m1. naive_solver congruence.
  - apply Forall_insert; [done|]. simpl. done.
  - rewrite (all_bytes_insert (mqueues (table s)) _ q m) by done. rewrite H4, I5.
    replace (mkMqT (mqueues (table s)) (mq_names (table s))) with (table s) by (by destruct (table s)). lia.
Qed.

(** New descriptors for a live queue. *)
Lemma live_set_cloexec t fds n on : (∀ k f, Fd.fmap fds !! k = Some f → fd_live t f) →
  ∀ k f, Fd.fmap (set_cloexec fds n on) !! k = Some f → fd_live t f.
Proof. intros Hl k f. unfold set_cloexec. case_match; [|by apply Hl]. simpl. apply Hl. Qed.

Lemma fd_alloc_map t f n t' : fd_alloc t f = Ok (n, t') → Fd.fmap t' = <[n := f]> (Fd.fmap t).
Proof.
  unfold fd_alloc, alloc_from. intros E. destruct (lowest_free _ _ _) as [k|] eqn:Ek; [|done]. cbn in E. by simplify_eq.
Qed.

(** Taking the token for a new descriptor keeps every descriptor's queue. *)
Lemma mq_hold_live tabs0 t q m h m' :
  mqueues t !! q = Some m → dead m = false → mq_hold tabs0 t m = (h, m') →
  (∀ tab n f, tab ∈ tabs0 → Fd.fmap tab !! n = Some f → fd_live t f) →
  hold m' = Some h ∧ dead m' = false ∧ linked m' = linked m ∧ msgs m' = msgs m ∧ maxmsg m' = maxmsg m ∧ msgsize m' = msgsize m ∧
  (∀ tab n f, tab ∈ tabs0 → Fd.fmap tab !! n = Some f → fd_live (mkMqT (<[q := m']> (mqueues t)) (mq_names t)) f).
Proof.
  intros Hm Hd E Hlive. pose proof (lookup_lt_Some _ _ _ Hm) as Hlt.
  assert (hold m' = Some h ∧ dead m' = false ∧ linked m' = linked m ∧ msgs m' = msgs m ∧ maxmsg m' = maxmsg m ∧ msgsize m' = msgsize m
    ∧ (∀ h0, hold m = Some h0 → referenced tabs0 (Some h0) = true → h0 = h)) as (H1 & H2 & H3 & H4 & H5 & H6 & H7).
  { unfold mq_hold in E. destruct (hold m) as [h0|] eqn:Eh; [destruct (referenced tabs0 (Some h0)) eqn:Er|];
      simplify_eq; simpl; split_and!; try done; naive_solver congruence. }
  split_and!; try done. intros tab n f Hin Hf. specialize (Hlive tab n f Hin Hf) as Hl. destruct f; try done.
  destruct Hl as (m0 & H0 & Hd0 & Hh0). simpl. destruct (decide (Z.to_nat q0 = q)) as [Eq|Hne].
  - rewrite Eq in *. rewrite Hm in H0. simplify_eq. exists m'. rewrite list_lookup_insert_eq by done. split_and!; try done.
    rewrite H1. f_equal. symmetry. apply H7; [done|]. apply referenced_spec. eauto 10.
  - exists m0. by rewrite list_lookup_insert_ne by done.
Qed.

Lemma inv_new base c s t name inst q l quota wd :
  table s = t → mq_inv base s → dead inst = false → linked inst = true → msgs inst = [] → 0 ≤ maxmsg inst →
  mq_names t !! (mc_ipc c, name) = None → place t inst = (q, l) → quota = mq_quota s →
  let s' := mkMqS (tabs s) (mkMqT l (<[(mc_ipc c, name) := q]> (mq_names t))) quota wd in
  mq_inv base s' ∧ l !! q = Some inst.
Proof.
  intros <- [I1 I2 I3 I4 I5] Hd Hl Hm Hmax Hnone E -> s'.
  assert (l !! q = Some inst ∧ (∀ q0 m0, mqueues (table s) !! q0 = Some m0 → dead m0 = false → q0 ≠ q ∧ l !! q0 = Some m0) ∧
    all_bytes (mkMqT l (mq_names (table s))) = all_bytes (table s) ∧
    Forall (λ m, Z.of_nat (length (msgs m)) ≤ Z.max 0 (maxmsg m) ∧ Forall (λ x, Z.of_nat (length x.2) ≤ msgsize m) (msgs m)
                     ∧ (dead m = true → msgs m = [])) l) as (H1 & H2 & H3 & H4).
  { assert (msg_bytes inst = 0) as Hb by (unfold msg_bytes; by rewrite Hm).
    unfold place in E. destruct (list_find _ _) as [[q' m0]|] eqn:Ef.
    - apply list_find_Some in Ef as (Hq & Hdead & _). simplify_eq. pose proof (lookup_lt_Some _ _ _ Hq) as Hlt.
      split_and!; [by apply list_lookup_insert_eq| | |].
      + intros q0 m1 H0 Hd1. assert (q0 ≠ q) by (intros ->; congruence). split; [done|]. by rewrite list_lookup_insert_ne.
      + rewrite (all_bytes_insert _ _ _ _ _ Hq), Hb. replace (mkMqT (mqueues (table s)) (mq_names (table s))) with (table s) by (by destruct (table s)).
        assert (msg_bytes m0 = 0); [|lia]. unfold msg_bytes. by rewrite (proj2 (proj2 (proj1 (Forall_lookup _ _) I4 _ _ Hq)) Hdead).
      + apply Forall_insert; [done|]. rewrite Hm. split_and!; [simpl; lia|constructor|done].
    - simplify_eq. split_and!; [by apply list_lookup_middle| | |].
      + intros q0 m1 H0 Hd1. pose proof (lookup_lt_Some _ _ _ H0). split; [lia|]. by rewrite lookup_app_l.
      + unfold all_bytes. simpl. rewrite foldr_app. simpl. rewrite Hb. done.
      + apply Forall_app. split; [done|]. constructor; [|done]. rewrite Hm. split_and!; [simpl; lia|constructor|done]. }
  split; [|done]. split; simpl.
  - intros k q0 [[<- <-]|[Hne Hk]]%lookup_insert_Some; [by exists inst|].
    destruct (I1 k q0 Hk) as (m0 & H0 & Hl0 & Hd0). exists m0. split_and!; [by apply H2|done..].
  - intros k k' q0 [[<- <-]|[Hne Hk]]%lookup_insert_Some [[<- Hq]|[Hne' Hk']]%lookup_insert_Some; [done| | |by eapply I2].
    + destruct (I1 k' q Hk') as (m0 & H0 & _ & Hd0). by destruct (H2 _ _ H0 Hd0).
    + subst q0. destruct (I1 k q Hk) as (m0 & H0 & _ & Hd0). by destruct (H2 _ _ H0 Hd0).
  - intros tab n f Hin Hf. specialize (I3 tab n f Hin Hf). destruct f; try done. destruct I3 as (m0 & H0 & Hd0 & Hh0).
    exists m0. split_and!; [by apply H2|done..].
  - done.
  - rewrite I5, <-H3. done.
Qed.

Lemma mq_attr_pos `{GuestMem M} privileged attr (mem : M) mx sz : mq_attr privileged attr mem = inr (mx, sz) → 0 ≤ mx.
Proof.
  unfold mq_attr. intros E. destruct (attr =? 0); [by simplify_eq|].
  destruct (gm_read_u64 mem (wrap U64 (attr + 8))) as [v|] eqn:Ev; [|done].
  assert (0 ≤ v) as Hv.
  { unfold gm_read_u64 in Ev. destruct (gm_read _ _ _) as [bs|] eqn:Er; [|done]. simplify_eq/=.
    apply le_val_bound. by eapply gm_read_bytes. }
  by repeat case_match; simplify_eq.
Qed.

(** Giving the caller a descriptor for a live queue. *)
Lemma inv_grant base c s t q m h m' fd fds fl on quota wd :
  mq_inv base (mkMqS (tabs s) t quota wd) → mqueues t !! q = Some m → dead m = false →
  mq_hold (tabs s) t m = (h, m') → fd_alloc (my_fds c s) (Mqueue (Z.of_nat q) fl h) = Ok (fd, fds) →
  mq_inv base (mkMqS (<[mc_me c := set_cloexec fds fd on]> (tabs s)) (mkMqT (<[q := m']> (mqueues t)) (mq_names t)) quota wd).
Proof.
  intros [I1 I2 I3 I4 I5] Hm Hd Eh Ea. simpl in *. pose proof (lookup_lt_Some _ _ _ Hm) as Hlt.
  destruct (mq_hold_live _ _ _ _ _ _ Hm Hd Eh I3) as (H1 & H2 & H3 & H4 & H5 & H6 & H7).
  split; simpl; [| |intros tab n f Hin Hf|..].
  - intros k q0 Hk. destruct (I1 k q0 Hk) as (m0 & H0 & Hl & Hd0). destruct (decide (q0 = q)) as [->|Hne].
    + simplify_eq. exists m'. rewrite list_lookup_insert_eq by done. rewrite H3. done.
    + exists m0. by rewrite list_lookup_insert_ne.
  - done.
  - apply list_elem_of_lookup in Hin as [i Hi]. destruct (decide (i = mc_me c)) as [->|Hne].
    + destruct (decide (mc_me c < length (tabs s))%nat) as [Hme|Hme].
      * rewrite list_lookup_insert_eq in Hi by done. simplify_eq. revert n f Hf. apply live_set_cloexec.
        rewrite (fd_alloc_map _ _ _ _ Ea). intros k f [[<- <-]|[_ Hf]]%lookup_insert_Some.
        -- exists m'. simpl. rewrite Nat2Z.id, list_lookup_insert_eq by done. done.
        -- destruct (lookup_lt_is_Some_2 (tabs s) (mc_me c) Hme) as [my Hmy]. unfold my_fds in Hf. rewrite Hmy in Hf. simpl in Hf.
           eapply H7; [|exact Hf]. by eapply list_elem_of_lookup_2.
      * rewrite list_insert_ge in Hi by lia. apply lookup_lt_Some in Hi. lia.
    + rewrite list_lookup_insert_ne in Hi by done. eapply H7; [|exact Hf]. by eapply list_elem_of_lookup_2.
  - apply Forall_insert; [done|]. rewrite H4, H5, H6. split_and!; [| |congruence];
      apply (proj1 (Forall_lookup _ _) I4 _ _ Hm).
  - rewrite (all_bytes_insert _ _ _ _ _ Hm). replace (mkMqT (mqueues t) (mq_names t)) with t by (by destruct t).
    assert (msg_bytes m' = msg_bytes m) by (unfold msg_bytes; by rewrite H4). lia.
Qed.

Section Inv.
Context `{GuestMem M}.

Lemma inv_open base c s a (mem : M) r s' :
  0 ≤ base → mq_inv base s → sys_mq_open c s a mem = Ok (r, s') → mq_inv base s'.
Proof.
  intros Hb Hi. unfold sys_mq_open. cbv zeta. intros E. destruct (check_name _ _) as [e|name]; [by simplify_eq|].
  destruct (_ =? 3); [by simplify_eq|]. destruct (mq_collect (tabs s) (table s)) as [freed t] eqn:Ec.
  pose proof (inv_collect base s freed t Ec Hb Hi) as Hi1. set (quota := quota_release _ _) in *.
  destruct (mq_names t !! (mc_ipc c, name)) as [q|] eqn:En.
  - destruct (i_names _ _ Hi1 _ _ En) as (m & Hm & Hl & Hd). simpl in Hm. unfold open_existing in E.
    rewrite Hm in E. destruct (_ && _); [injection E as <- <-; exact Hi1|].
    destruct (_ && _); [injection E as <- <-; exact Hi1|]. cbn in E. rewrite Hm in E.
    destruct (mq_hold _ _ _) as [h m'] eqn:Eh. destruct (fd_alloc _ _) as [[fd fds]|] eqn:Ea; cbn in E; [|done].
    simplify_eq. by eapply inv_grant.
  - destruct (Z.land (nth 1 a 0) O_CREAT =? 0); [injection E as <- <-; exact Hi1|]. unfold open_new in E.
    destruct (mq_attr _ _ _) as [e|[mx sz]] eqn:Ea; [injection E as <- <-; exact Hi1|].
    destruct (_ <? _); [injection E as <- <-; exact Hi1|]. cbn in E.
    set (inst := mkMq _ _ _ _ _ _ _ _ _ _) in *. destruct (place t inst) as [q l] eqn:Ep. cbn in E.
    destruct (inv_new base c (mkMqS (tabs s) t quota (wake_deadline s)) t name inst q l quota (wake_deadline s) eq_refl Hi1 eq_refl eq_refl eq_refl
      (mq_attr_pos _ _ _ _ _ Ea) En Ep eq_refl) as [Hi2 Hq]. simpl in Hi2. cbn in E. rewrite Hq in E.
    destruct (mq_hold _ _ _) as [h m'] eqn:Eh. destruct (fd_alloc _ _) as [[fd fds]|] eqn:Ef; cbn in E; [|done].
    simplify_eq. eapply (inv_grant base c s (mkMqT l _)); [exact Hi2|exact Hq|done|exact Eh|exact Ef].
Qed.

Lemma inv_unlink base c s name (mem : M) r s' :
  0 ≤ base → mq_inv base s → sys_mq_unlink c s name mem = Ok (r, s') → mq_inv base s'.
Proof.
  intros Hb Hi. unfold sys_mq_unlink. intros E. destruct (check_name _ _) as [e|nm]; [by simplify_eq|].
  destruct (mq_names (table s) !! _) as [q|] eqn:En; [|by simplify_eq].
  destruct Hi as [I1 I2 I3 I4 I5]. destruct (I1 _ _ En) as (m & Hm & Hl & Hd). rewrite Hm in E.
  destruct (mq_collect _ _) as [freed t] eqn:Ec. simplify_eq.
  pose proof (lookup_lt_Some _ _ _ Hm) as Hlt. set (t0 := mkMqT _ _) in *.
  eapply (inv_collect base (mkMqS (tabs s) t0 (mq_quota s) (wake_deadline s))); [exact Ec|done|].
  assert (∀ q0 m0, q0 ≠ q → mqueues (table s) !! q0 = Some m0 → mqueues t0 !! q0 = Some m0) as Hother
    by (intros; simpl; by rewrite list_lookup_insert_ne).
  split; simpl.
  - intros k q0 [Hne Hk]%lookup_delete_Some. destruct (I1 k q0 Hk) as (m0 & H0 & Hl0 & Hd0). exists m0.
    split_and!; try done. apply Hother; [|done]. intros ->. by destruct Hne; eapply I2.
  - intros k k' q0 [_ Hk]%lookup_delete_Some [_ Hk']%lookup_delete_Some. by eapply I2.
  - intros tab n f Hin Hf. specialize (I3 tab n f Hin Hf). destruct f; try done. destruct I3 as (m0 & H0 & Hd0 & Hh0).
    simpl. destruct (decide (Z.to_nat q0 = q)) as [<-|Hne].
    + simplify_eq. exists (unlink1 m0). by rewrite list_lookup_insert_eq.
    + exists m0. by rewrite list_lookup_insert_ne.
  - apply Forall_insert; [done|]. apply (proj1 (Forall_lookup _ _) I4 _ _ Hm).
  - subst t0. rewrite (all_bytes_insert _ _ _ _ _ Hm). unfold all_bytes in *. simpl. unfold unlink1, msg_bytes at 2. simpl.
    fold (msg_bytes m). lia.
Qed.

Lemma msg_bytes_with m l n : msg_bytes (with_msgs m l n) = foldr (λ x k, Z.of_nat (length x.2) + k) 0 l.
Proof. done. Qed.
Lemma enqueue_bytes p d l :
  foldr (λ x k, Z.of_nat (length x.2) + k) 0 (enqueue p d l) = Z.of_nat (length d) + foldr (λ x k, Z.of_nat (length x.2) + k) 0 l.
Proof. induction l as [|e l IH]; simpl; [done|]. case_match; simpl; lia. Qed.

Lemma inv_idle base s r s' : mq_idle s r s' → mq_inv base s → mq_inv base s'.
Proof. intros (E1 & E2 & E3 & _) [I1 I2 I3 I4 I5]. split; rewrite ?E1, ?E2, ?E3; done. Qed.

Lemma inv_send base now c s a (mem : M) r s' :
  mq_inv base s → 0 ≤ nth 2 a 0 → sys_mq_timedsend now c s a mem = Ok (r, s') → mq_inv base s'.
Proof.
  intros Hi Hlen E. destruct (timedsend_inv _ _ _ _ _ _ _ E) as [Hid|(q & rd & nb & m & data & Ef & Em & Hfull & Hsz & Er & _ & _ & ->)];
    [by eapply inv_idle|]. destruct (proj1 (Forall_lookup _ _) (i_bound _ _ Hi) _ _ Em) as (B1 & B2 & B3).
  unfold full in Hfull. apply inv_put; [done|done| | | |].
  - rewrite enqueue_length. lia.
  - apply Forall_forall. intros x [->|Hx]%enqueue_elem; [|by apply (proj1 (Forall_forall _ _) B2)].
    simpl. by rewrite (gm_read_length mem _ _ _ Hlen Er).
  - intros Hdead. unfold mq_fd, my_fds in Ef. exfalso.
    destruct (tabs s !! mc_me c) as [tab|] eqn:Et; [|by simpl in Ef]. simpl in Ef.
    destruct (fd_get tab _) as [f|] eqn:Eg; [|done]. destruct f; try done. simplify_eq.
    destruct (i_fds _ _ Hi tab _ _ (list_elem_of_lookup_2 _ _ _ Et) Eg) as (m0 & H0 & Hd0 & _). congruence.
  - rewrite msg_bytes_with, enqueue_bytes. unfold msg_bytes. simpl. lia.
Qed.

Lemma inv_receive base now c s a (mem : M) r s' mem' :
  0 ≤ base → mq_inv base s → sys_mq_timedreceive now c s a mem = Ok (r, s', mem') → mq_inv base s'.
Proof.
  intros Hb Hi E. destruct (timedreceive_inv _ _ _ _ _ _ _ _ E)
    as [Hid|(q & wr & nb & m & prio & data & rest & mem1 & Ef & Em & El & _ & _ & _ & _ & ->)]; [by eapply inv_idle|].
  destruct (proj1 (Forall_lookup _ _) (i_bound _ _ Hi) _ _ Em) as (B1 & B2 & B3). rewrite El in B1, B2, B3. simpl in B1.
  apply inv_put; [done|done|lia|by inversion B2| |].
  - intros Hd. by specialize (B3 Hd).
  - rewrite quota_release_eq, msg_bytes_with. unfold msg_bytes. rewrite El. simpl.
    pose proof (i_quota _ _ Hi) as Hq. assert (msg_bytes m ≤ all_bytes (table s)) as Hle.
    { clear -Em. revert q Em. unfold all_bytes. induction (mqueues (table s)) as [|x l IH]; intros [|q] Em; simplify_eq/=.
      - assert (0 ≤ foldr (λ m0 n, msg_bytes m0 + n) 0 l); [|lia]. clear. induction l as [|y l IH]; simpl; [lia|]. pose proof (bytes_nonneg y). lia.
      - specialize (IH _ Em). pose proof (bytes_nonneg x). lia. }
    unfold msg_bytes in Hle. rewrite El in Hle. simpl in Hle.
    pose proof (bytes_nonneg (with_msgs m rest None)) as Hr. rewrite msg_bytes_with in Hr. lia.
Qed.

Lemma inv_notify base c s fd sevp (mem : M) r s' :
  mq_inv base s → sys_mq_notify c s fd sevp mem = Ok (r, s') → mq_inv base s'.
Proof.
  intros Hi. unfold sys_mq_notify. destruct (mq_fd _ _) as [e|[[[q rd] wr] nb]]; [intros; by simplify_eq|].
  destruct (mqueues (table s) !! q) as [m|] eqn:Em; [|done].
  assert (∀ n, mq_inv base (put_queue s q (with_msgs m (msgs m) n) (mq_quota s) (wake_deadline s))) as Hp.
  { intros n. destruct (proj1 (Forall_lookup _ _) (i_bound _ _ Hi) _ _ Em) as (B1 & B2 & B3). apply inv_put; try done.
    change (msg_bytes (with_msgs m (msgs m) n)) with (msg_bytes m). lia. }
  intros E. repeat case_match; simplify_eq; done.
Qed.

Lemma inv_getsetattr base c s fd new old (mem : M) r s' mem' :
  mq_inv base s → sys_mq_getsetattr c s fd new old mem = Ok (r, s', mem') → mq_inv base s'.
Proof.
  intros Hi. unfold sys_mq_getsetattr. destruct (mq_fd _ _) as [e|[[[q rd] wr] nb]]; [intros; by simplify_eq|].
  match goal with |- context [match ?X with inl _ => _ | inr _ => _ end] => destruct X as [e|nf] end; [intros; by simplify_eq|].
  match goal with |- context [mbind _ ?X] => destruct X as [[mem2|]|] end; cbn; intros; simplify_eq; [|done].
  destruct nf as [nf|]; [|done]. destruct Hi as [I1 I2 I3 I4 I5]. split; simpl; [done..| |done|done].
  intros tab n f Hin Hf. apply list_elem_of_lookup in Hin as [i Hl]. destruct (decide (i = mc_me c)) as [->|Hne].
  2: { rewrite list_lookup_insert_ne in Hl by done. eapply I3; [|exact Hf]. by eapply list_elem_of_lookup_2. }
  destruct (decide (mc_me c < length (tabs s))%nat) as [Hme|Hme].
  2: { rewrite list_insert_ge in Hl by lia. apply lookup_lt_Some in Hl. lia. }
  rewrite list_lookup_insert_eq in Hl by done. simplify_eq.
  destruct (lookup_lt_is_Some_2 (tabs s) (mc_me c) Hme) as [my Hmy]. unfold my_fds, set_flags, fd_get in Hf. rewrite Hmy in Hf. simpl in Hf.
  assert (∀ k f, Fd.fmap my !! k = Some f → fd_live (table s) f) as Hlive
    by (intros; eapply I3; [by eapply list_elem_of_lookup_2|done]).
  destruct (Fd.fmap my !! as_i32 fd) as [f0|] eqn:E0; [|by eapply Hlive].
  destruct f0; try by eapply Hlive. simpl in Hf. apply lookup_insert_Some in Hf as [[<- <-]|[_ Hf]]; [|by eapply Hlive].
  by apply (Hlive _ _ E0).
Qed.
End Inv.

(** * Runs *)

(** Descriptors come and go ([close], [dup], [fork], [execve], exit): whatever the tables become,
    a message-queue descriptor in them is a copy of one that was there, up to its flags. *)
Definition fds_move (ts ts' : list FdTable) : Prop :=
  ∀ tab' n q fl h, tab' ∈ ts' → Fd.fmap tab' !! n = Some (Mqueue q fl h) →
    ∃ tab n0 fl0, tab ∈ ts ∧ Fd.fmap tab !! n0 = Some (Mqueue q fl0 h).

(** One event of the system, by some caller. *)
Inductive mq_step `{GuestMem M} : MqState → MqState → Prop :=
| st_open c s a (mem : M) r s' : sys_mq_open c s a mem = Ok (r, s') → mq_step s s'
| st_unlink c s name (mem : M) r s' : sys_mq_unlink c s name mem = Ok (r, s') → mq_step s s'
| st_send now c s a (mem : M) r s' : 0 ≤ nth 2 a 0 → sys_mq_timedsend now c s a mem = Ok (r, s') → mq_step s s'
| st_receive now c s a (mem mem' : M) r s' : sys_mq_timedreceive now c s a mem = Ok (r, s', mem') → mq_step s s'
| st_notify c s fd sevp (mem : M) r s' : sys_mq_notify c s fd sevp mem = Ok (r, s') → mq_step s s'
| st_attr c s fd new old (mem mem' : M) r s' : sys_mq_getsetattr c s fd new old mem = Ok (r, s', mem') → mq_step s s'
| st_fds s ts wd : fds_move (tabs s) ts → mq_step s (mkMqS ts (table s) (mq_quota s) wd).

Section Runs.
Context `{GuestMem M}.

Lemma step_keeps base s s' : 0 ≤ base → mq_step (M := M) s s' → mq_inv base s → mq_inv base s'.
Proof.
  intros Hb Hs Hi. destruct Hs as [| | | | | |s ts wd Hm];
    [by eapply inv_open|by eapply inv_unlink|by eapply inv_send|by eapply inv_receive|by eapply inv_notify|by eapply inv_getsetattr|].
  destruct Hi as [I1 I2 I3 I4 I5]. split; simpl; [done..| |done|done].
  intros tab n f Hin Hf. destruct f; try done. destruct (Hm _ _ _ _ _ Hin Hf) as (tab0 & n0 & fl0 & Hin0 & Hf0).
  exact (I3 _ _ _ Hin0 Hf0).
Qed.

Lemma mq_fd_live base c s fd q rd wr nb :
  mq_inv base s → mq_fd (my_fds c s) fd = inr (q, rd, wr, nb) → ∃ m, mqueues (table s) !! q = Some m ∧ dead m = false.
Proof.
  intros Hi E. unfold mq_fd, my_fds, fd_get in E. destruct (tabs s !! mc_me c) as [tab|] eqn:Et; [|by simpl in E]. simpl in E.
  destruct (Fd.fmap tab !! as_i32 fd) as [f|] eqn:Ef; [|done]. destruct f; try done. simplify_eq.
  destruct (i_fds _ _ Hi tab _ _ (list_elem_of_lookup_2 _ _ _ Et) Ef) as (m & Hm & Hd & _). eauto.
Qed.

(** C22: a queue lives as long as something refers to it. After any sequence of message-queue
    calls, interleaved with any closing, duplication and inheritance of descriptors: every name
    and every open descriptor refers to a queue that is live - a slot is reused only once
    nothing refers to it -, no two names share a queue, a queue holds no more and no longer
    messages than its attributes promise, and the memory quota counts exactly the bytes queued.
    In such a state a send, receive, notification or attribute call on a descriptor never
    indexes outside the table. *)
Theorem mq_lifetime limit0 s :
  rtc (mq_step (M := M)) (mkMqS [] mq_default (quota_new limit0) None) s →
  (∀ k q, mq_names (table s) !! k = Some q → ∃ m, mqueues (table s) !! q = Some m ∧ linked m = true ∧ dead m = false) ∧
  (∀ k k' q, mq_names (table s) !! k = Some q → mq_names (table s) !! k' = Some q → k = k') ∧
  (∀ tab n q fl h, tab ∈ tabs s → Fd.fmap tab !! n = Some (Mqueue q fl h) →
     ∃ m, mqueues (table s) !! Z.to_nat q = Some m ∧ dead m = false ∧ hold m = Some h) ∧
  Forall (λ m, Z.of_nat (length (msgs m)) ≤ Z.max 0 (maxmsg m) ∧ Forall (λ x, Z.of_nat (length x.2) ≤ msgsize m) (msgs m)) (mqueues (table s)) ∧
  used (mq_quota s) = all_bytes (table s) ∧
  (∀ now c a (mem : M), sys_mq_timedsend now c s a mem ≠ Panic ∧ sys_mq_timedreceive now c s a mem ≠ Panic ∧
     sys_mq_notify c s (nth 0 a 0) (nth 1 a 0) mem ≠ Panic ∧
     sys_mq_getsetattr c s (nth 0 a 0) (nth 1 a 0) (nth 2 a 0) mem ≠ Panic).
Proof.
  intros Hr. assert (mq_inv 0 s) as Hi.
  { eapply (rtc_ind_l (λ x, mq_inv 0 x → mq_inv 0 s)); [done| |exact Hr|].
    - intros x y Hxy _ IH Hx. apply IH. by eapply step_keeps.
    - split; simpl; [set_solver..| |constructor|done]. intros tab n f Hin. set_solver. }
  pose proof Hi as [I1 I2 I3 I4 I5]. split_and!; [done..| | |by rewrite I5|].
  - intros tab n q fl h Hin Hf. exact (I3 _ _ _ Hin Hf).
  - eapply Forall_impl; [exact I4|]. intros m (H1 & H2 & _). done.
  - intros now c a mem. split_and!;
      [unfold sys_mq_timedsend|unfold sys_mq_timedreceive|unfold sys_mq_notify|unfold sys_mq_getsetattr];
      destruct (mq_fd _ _) as [e|[[[q rd] wr] nb]] eqn:Ef; try done;
      destruct (mq_fd_live _ _ _ _ _ _ _ _ Hi Ef) as (m & Hm & _); rewrite Hm;
      repeat (case_match || cbn [mbind res_bind]); done.
Qed.
End Runs.

(** A caller, a memory with a name and a message, and a queue opened by it. *)
Definition demo_caller : MqCaller := mkMqC 0 true 0 7 1000000 0.
Definition demo_mem : flat_mem := {| fm_base := 0x1000; fm_bytes := [0x71; 0; 0x68; 0x69] ++ [0; 0; 0; 0] |}.
Definition demo_start : MqState := mkMqS [fd_default] mq_default (quota_new 1000000) None.
Definition demo_opened : MqState :=
  match sys_mq_open demo_caller demo_start [0x1000; 0x42; 0x1a4; 0] demo_mem with Ok (_, s) => s | Panic => demo_start end.
Definition demo_sent : MqState :=
  match sys_mq_timedsend 0 demo_caller demo_opened [0; 0x1002; 2; 5; 0] demo_mem with Ok (_, s) => s | Panic => demo_start end.

Definition demo_queue : MqInst := mkMq [] DFL_MAXMSG DFL_MSGSIZE 0x1a4 None true (Some 0) 0 82800 false.

Lemma mq_lifetime_witness : used (mq_quota demo_sent) = all_bytes (table demo_sent).
Proof.
  apply (mq_lifetime (M := flat_mem) 1000000 demo_sent).
  eapply rtc_l; [apply (st_fds _ [fd_default] None)|].
  { intros tab n q fl h Hin Hf. apply list_elem_of_singleton in Hin as ->. done. }
  eapply rtc_l; [apply (st_open demo_caller _ [0x1000; 0x42; 0x1a4; 0] demo_mem (mqret 0) demo_opened); vm_compute; reflexivity|].
  eapply rtc_l; [|reflexivity].
  apply (st_send 0 demo_caller demo_opened [0; 0x1002; 2; 5; 0] demo_mem (mkMqR 0 false true None)); [vm_compute; discriminate|].
  vm_compute. reflexivity.
Defined.

Lemma mq_priority_fifo_witness :
  ∃ m, mqueues (table demo_opened) !! 0%nat = Some m ∧ ordered_as [] (msgs m) ∧
    (sys_mq_timedsend 0 demo_caller demo_opened [0; 0x1002; 2; 5; 0] demo_mem = Ok (mkMqR 0 false true None, demo_sent) →
     (m_ret (mkMqR 0 false true None) < 0 ∨ m_block (mkMqR 0 false true None) = true) ∧ mqueues (table demo_sent) = mqueues (table demo_opened) ∨
     m_ret (mkMqR 0 false true None) = 0 ∧ ∃ data m', gm_read demo_mem 0x1002 2 = Some data ∧
       mqueues (table demo_sent) = <[0%nat := m']> (mqueues (table demo_opened)) ∧ ordered_as [(5, data)] (msgs m')).
Proof.
  exists demo_queue. split; [vm_compute; reflexivity|]. split; [split; [constructor|done]|].
  apply (mq_priority_fifo 0 demo_caller demo_opened [0; 0x1002; 2; 5; 0] demo_mem (mkMqR 0 false true None) demo_sent demo_mem 0%nat true true false
    demo_queue []); [vm_compute; reflexivity|vm_compute; reflexivity|split; [constructor|done]].
Defined.
