(* ===== verification/Futex.v ===== *)
(** Futexes ([src/kernel/futex.rs]): wait, wake, requeue, wake-op, the PI lock operations,
    [futex_waitv] and the futex2 calls, with the interruption of a blocked wait by a signal
    ([src/kernel/mod.rs]). Sums of guest addresses wrap, as in a release build. *)
From S2P Require Import Prelude Iface Abi PageLocks PidNs FileLocks.
From stdpp Require Import base numbers gmap list.
Local Open Scope Z_scope.

Inductive FutexKey :=
  | Private (mm addr : Z)
  | SharedAt (pa : Z).
#[export] Instance FutexKey_eq_dec : EqDecision FutexKey.
Proof. solve_decision. Defined.

Inductive Timeout :=
  | Relative (p : Z)
  | Absolute (p : Z) (realtime : bool).

Definition BITSET_ALL : Z := U32 - 1.
Definition FUTEX_TID_MASK : Z := 0x3fffffff.
Definition FUTEX_WAITERS : Z := 0x80000000.
Definition FUTEX_OWNER_DIED : Z := 0x40000000.
Definition FUTEX_PRIVATE_FLAG : Z := 128.
Definition FUTEX_CLOCK_REALTIME : Z := 256.
Definition WAITV_MAX : Z := 128.
Definition NSEC : Z := 1000000000.

(** A task, as far as futexes see it: [ProcInfo]'s fields of the same names. *)
Record Task := mkTask {
  t_pid : Z; t_mm : Z; t_ns : Z; t_zombie : bool; t_parked : bool;
  t_wait : option FutexKey; t_bitset : Z;
  t_waitv : list FutexKey; t_waitv_idx : Z;
  t_pi : bool; t_woken : bool; t_deadline : option Z
}.

(** The state a handler works on: the other tasks' slots ([sh.procs]; the caller's is out
    of the table while it runs), the caller, [cx.block], and the caller's memory. *)
Record St (M : Type) := mkSt { procs : list (option Task); cur : Task; block : bool; mem : M }.
Arguments mkSt {M}. Arguments procs {M}. Arguments cur {M}. Arguments block {M}. Arguments mem {M}.

(** [GuestMemory::shared_phys]: the physical address of a word on a shared page. *)
Class SharedWords (M : Type) := shared_phys : M → Z → option Z.

Definition set_procs {M} (s : St M) ps := mkSt ps (cur s) (block s) (mem s).
Definition set_cur {M} (s : St M) t := mkSt (procs s) t (block s) (mem s).
Definition set_mem {M} (s : St M) (m : M) := mkSt (procs s) (cur s) (block s) m.
Definition set_block {M} (s : St M) := mkSt (procs s) (cur s) true (mem s).

(** Field updates. *)
Definition with_deadline (d : option Z) (t : Task) : Task :=
  mkTask (t_pid t) (t_mm t) (t_ns t) (t_zombie t) (t_parked t) (t_wait t) (t_bitset t) (t_waitv t)
    (t_waitv_idx t) (t_pi t) (t_woken t) d.
Definition with_wait (k : option FutexKey) (t : Task) : Task :=
  mkTask (t_pid t) (t_mm t) (t_ns t) (t_zombie t) (t_parked t) k (t_bitset t) (t_waitv t)
    (t_waitv_idx t) (t_pi t) (t_woken t) (t_deadline t).
Definition with_bitset (b : Z) (t : Task) : Task :=
  mkTask (t_pid t) (t_mm t) (t_ns t) (t_zombie t) (t_parked t) (t_wait t) b (t_waitv t)
    (t_waitv_idx t) (t_pi t) (t_woken t) (t_deadline t).
Definition with_waitv (v : list FutexKey) (t : Task) : Task :=
  mkTask (t_pid t) (t_mm t) (t_ns t) (t_zombie t) (t_parked t) (t_wait t) (t_bitset t) v
    (t_waitv_idx t) (t_pi t) (t_woken t) (t_deadline t).
Definition with_pi (b : bool) (t : Task) : Task :=
  mkTask (t_pid t) (t_mm t) (t_ns t) (t_zombie t) (t_parked t) (t_wait t) (t_bitset t) (t_waitv t)
    (t_waitv_idx t) b (t_woken t) (t_deadline t).
(** [futex_woken = true; parked = false], recording the index of the word that woke it. *)
Definition woken_at (idx : Z) (t : Task) : Task :=
  mkTask (t_pid t) (t_mm t) (t_ns t) (t_zombie t) false (t_wait t) (t_bitset t) (t_waitv t)
    idx (t_pi t) true (t_deadline t).

(** [futex_done]. *)
Definition futex_done_task (t : Task) : Task :=
  mkTask (t_pid t) (t_mm t) (t_ns t) (t_zombie t) (t_parked t) None (t_bitset t) []
    (t_waitv_idx t) false false (t_deadline t).
Definition futex_done {M} (s : St M) : St M := set_cur s (futex_done_task (cur s)).

(** [futex_key]. *)
Definition futex_key `{SharedWords M} (s : St M) (uaddr : Z) (private : bool) : FutexKey :=
  match private, shared_phys (mem s) uaddr with
  | false, Some pa => SharedAt pa
  | _, _ => Private (t_mm (cur s)) uaddr
  end.

(** [futex_could_wake], [has_cowaiter]. *)
Definition futex_could_wake (ps : list (option Task)) (key : FutexKey) : bool :=
  existsb (λ p, match p with
    | None => false
    | Some t => negb (t_zombie t) && match key with Private mm _ => t_mm t =? mm | SharedAt _ => true end
    end) ps.
Definition has_cowaiter (ps : list (option Task)) (mm : Z) : bool := futex_could_wake ps (Private mm 0).

Section Deadline.
Context `{GuestMem M}.

(** [futex_deadline]; [now] is [poll::now_ns()], [mono] the monotonic clock. *)
Definition futex_deadline (now mono : Z) (s : St M) (t : Timeout) : (Z + option Z) * St M :=
  let go ptr abs realtime :=
    match t_deadline (cur s) with
    | Some dl => (inr (Some dl), s)
    | None =>
      match gm_read_u64 (mem s) ptr, gm_read_u64 (mem s) (wrap U64 (ptr + 8)) with
      | Some sec, Some n =>
        if (as_i64 sec <? 0) || (NSEC <=? n) then (inl (err EINVAL), s)
        else
          let want := sec * NSEC + n in
          let dl := if negb abs then now + want
                    else if (realtime : bool) then want else now + sat_sub want mono in
          (inr (Some dl), set_cur s (with_deadline (Some dl) (cur s)))
      | _, _ => (inl (err EFAULT), s)
      end
    end in
  match t with
  | Relative p => if p =? 0 then (inr None, s) else go p false false
  | Absolute p rt => if p =? 0 then (inr None, s) else go p true rt
  end.

Definition expired (now : Z) (d : option Z) : bool := from_option (λ d, d <=? now) false d.

(** [futex_wait]. *)
Definition futex_wait (now mono : Z) (s : St M) (key : FutexKey) (uaddr val bitset : Z) (timeout : Timeout)
    : Z * St M :=
  if t_woken (cur s) then (0, futex_done s)
  else match futex_deadline now mono s timeout with
  | (inl e, s) => (e, s)
  | (inr deadline, s) =>
    if expired now deadline then (err ETIMEDOUT, futex_done s)
    else if bool_decide (is_Some (t_wait (cur s)) ∧ t_wait (cur s) ≠ Some key) then (0, set_block s)
    else match gm_read_u32 (mem s) uaddr with
    | None => (err EFAULT, futex_done s)
    | Some w =>
      if negb (w =? val) then (err EAGAIN, futex_done s)
      else if bool_decide (deadline = None) && negb (futex_could_wake (procs s) key)
      then (0, futex_done s)
      else (0, set_block (set_cur s (with_bitset bitset (with_wait (Some key) (cur s)))))
    end
  end.
End Deadline.

(** [futex_wake_key]: one task, then the loop over the slots. *)
Fixpoint position (k : FutexKey) (l : list FutexKey) : option Z :=
  match l with
  | [] => None
  | x :: l => if bool_decide (x = k) then Some 0 else Z.succ <$> position k l
  end.
Definition wake_one (key : FutexKey) (bitset : Z) (t : Task) : option Task :=
  if t_woken t || t_pi t then None
  else if bool_decide (t_wait t = Some key) && negb (Z.land (t_bitset t) bitset =? 0)
  then Some (woken_at (t_waitv_idx t) t)
  else match position key (t_waitv t) with
       | Some idx => Some (woken_at idx t)
       | None => None
       end.
Fixpoint wake_loop (key : FutexKey) (n bitset woken : Z) (ps : list (option Task))
    : Z * list (option Task) :=
  match ps with
  | [] => (woken, [])
  | None :: ps => let '(w, ps') := wake_loop key n bitset woken ps in (w, None :: ps')
  | Some t :: ps' =>
    if n <=? woken then (woken, ps)
    else match wake_one key bitset t with
    | None => let '(w, ps') := wake_loop key n bitset woken ps' in (w, Some t :: ps')
    | Some t' => let '(w, ps') := wake_loop key n bitset (woken + 1) ps' in (w, Some t' :: ps')
    end
  end.
Definition futex_wake_key (ps : list (option Task)) (key : FutexKey) (n bitset : Z)
    : Z * list (option Task) := wake_loop key n bitset 0 ps.

(** [futex_requeue_keys]. *)
Fixpoint requeue_loop (from to : FutexKey) (nr_wake nr_requeue woken requeued : Z) (ps : list (option Task))
    : Z * list (option Task) :=
  match ps with
  | [] => (woken, [])
  | None :: ps =>
    let '(w, ps') := requeue_loop from to nr_wake nr_requeue woken requeued ps in (w, None :: ps')
  | Some t :: ps' =>
    if negb (bool_decide (t_wait t = Some from)) || t_woken t then
      let '(w, ps') := requeue_loop from to nr_wake nr_requeue woken requeued ps' in (w, Some t :: ps')
    else if woken <? nr_wake then
      let '(w, ps') := requeue_loop from to nr_wake nr_requeue (woken + 1) requeued ps' in
      (w, Some (woken_at (t_waitv_idx t) t) :: ps')
    else if requeued <? nr_requeue then
      let '(w, ps') := requeue_loop from to nr_wake nr_requeue woken (requeued + 1) ps' in
      (w, Some (with_wait (Some to) t) :: ps')
    else (woken, ps)
  end.
Definition futex_requeue_keys (ps : list (option Task)) (from to : FutexKey) (nr_wake nr_requeue : Z)
    : Z * list (option Task) := requeue_loop from to nr_wake nr_requeue 0 0 ps.

Section Calls.
Context `{GuestMem M} `{SharedWords M}.
(** The PID namespaces, and the clocks. *)
Context (pids : gmap Z PidNs) (now mono : Z).

(** [futex_wake_op]: the encoded operation and comparison, then the wakes. *)
Definition wake_op_new (op old oparg : Z) : option Z :=
  if op =? 0 then Some oparg
  else if op =? 1 then Some (as_i32 (old + oparg))
  else if op =? 2 then Some (Z.lor old oparg)
  else if op =? 3 then Some (Z.land old (Z.lnot oparg))
  else if op =? 4 then Some (Z.lxor old oparg)
  else None.
Definition wake_op_pass (cmp old cmparg : Z) : option bool :=
  if cmp =? 0 then Some (old =? cmparg)
  else if cmp =? 1 then Some (negb (old =? cmparg))
  else if cmp =? 2 then Some (old <? cmparg)
  else if cmp =? 3 then Some (old <=? cmparg)
  else if cmp =? 4 then Some (cmparg <? old)
  else if cmp =? 5 then Some (cmparg <=? old)
  else None.
Definition futex_wake_op (s : St M) (a : list Z) (key : FutexKey) : Z * St M :=
  let val := as_i32 (nth 2 a 0) in
  let val2 := as_i32 (nth 3 a 0) in
  let uaddr2 := nth 4 a 0 in
  let enc := nth 5 a 0 mod U32 in
  let private := negb (Z.land (nth 1 a 0) FUTEX_PRIVATE_FLAG =? 0) in
  let op := Z.land (Z.shiftr enc 28) 15 in
  let cmp := Z.land (Z.shiftr enc 24) 15 in
  let oparg := Z.shiftr (as_i32 (Z.shiftl enc 8)) 20 in
  let cmparg := Z.shiftr (as_i32 (Z.shiftl enc 20)) 20 in
  let shifted := negb (Z.land op 8 =? 0) in
  if shifted && negb ((0 <=? oparg) && (oparg <? 32)) then (err EINVAL, s)
  else
    let oparg := if shifted then as_i32 (Z.shiftl 1 oparg) else oparg in
    let op := if shifted then Z.land op 7 else op in
    match gm_read_u32 (mem s) uaddr2 with
    | None => (err EFAULT, s)
    | Some old =>
      match wake_op_new op (as_i32 old) oparg, wake_op_pass cmp (as_i32 old) cmparg with
      | Some new, Some pass =>
        match gm_write (mem s) uaddr2 (le_bytes 4 new) with
        | None => (err EFAULT, s)
        | Some m =>
          let s := set_mem s m in
          let '(n, ps) := futex_wake_key (procs s) key val BITSET_ALL in
          if (pass : bool) then
            let key2 := futex_key s uaddr2 private in
            let '(n2, ps) := futex_wake_key ps key2 val2 BITSET_ALL in (n + n2, set_procs s ps)
          else (n, set_procs s ps)
        end
      | _, _ => (err ENOSYS, s)
      end
    end.

(** [tid_alive]. *)
Definition tid_alive (s : St M) (tid : Z) : bool :=
  (t_pid (cur s) =? tid) ||
  existsb (λ p, match p with Some t => (t_pid t =? tid) && negb (t_zombie t) | None => false end) (procs s).

(** A task waiting for the PI lock [key]. *)
Definition pi_waiter (key : FutexKey) (t : Task) : bool :=
  t_pi t && bool_decide (t_wait t = Some key) && negb (t_woken t).
Definition pi_waiting (key : FutexKey) (p : option Task) : bool := from_option (pi_waiter key) false p.

(** The caller's tid as the guest knows it. *)
Definition my_tid (s : St M) : Z := visible_pid pids (t_ns (cur s)) (t_pid (cur s)) mod U32.

(** [futex_lock_pi]; [timeout] is [None] for a trylock. *)
Definition futex_lock_pi (s : St M) (key : FutexKey) (uaddr : Z) (timeout : option Timeout) : Z * St M :=
  let tid := my_tid s in
  if t_woken (cur s) then (0, futex_done s)
  else match gm_read_u32 (mem s) uaddr with
  | None => (err EFAULT, futex_done s)
  | Some word =>
    let owner := Z.land word FUTEX_TID_MASK in
    let waiters_left := existsb (pi_waiting key) (procs s) in
    let take extra := Z.lor (Z.lor tid extra) (if waiters_left then FUTEX_WAITERS else 0) in
    let acquire w :=
      let s := futex_done s in
      match gm_write (mem s) uaddr (le_bytes 4 w) with
      | Some m => (0, set_mem s m)
      | None => (err EFAULT, s)
      end in
    if owner =? 0 then acquire (take 0)
    else if owner =? tid then (err EDEADLK, futex_done s)
    else if negb (from_option (tid_alive s) false (global_pid pids (t_ns (cur s)) (as_i32 owner)))
    then acquire (take FUTEX_OWNER_DIED)
    else match timeout with
    | None => (err EAGAIN, s)
    | Some timeout =>
      match futex_deadline now mono s timeout with
      | (inl e, s) => (e, s)
      | (inr deadline, s) =>
        if expired now deadline then (err ETIMEDOUT, futex_done s)
        else
          let park s := (0, set_block (set_cur s (with_pi true (with_wait (Some key) (cur s))))) in
          if Z.land word FUTEX_WAITERS =? 0 then
            match gm_write (mem s) uaddr (le_bytes 4 (Z.lor word FUTEX_WAITERS)) with
            | None => (err EFAULT, s)
            | Some m => park (set_mem s m)
            end
          else park s
      end
    end
  end.

(** [futex_unlock_pi]: [waiting] is the list of slots, in order. *)
Fixpoint waiting_from (i : nat) (key : FutexKey) (ps : list (option Task)) : list nat :=
  match ps with
  | [] => []
  | p :: ps => if pi_waiting key p then i :: waiting_from (S i) key ps else waiting_from (S i) key ps
  end.
Definition futex_unlock_pi (s : St M) (key : FutexKey) (uaddr : Z) : Z * St M :=
  match gm_read_u32 (mem s) uaddr with
  | None => (err EFAULT, s)
  | Some word =>
    if negb (Z.land word FUTEX_TID_MASK =? my_tid s) then (err EPERM, s)
    else
      let waiting := waiting_from 0 key (procs s) in
      let '(new, s) :=
        match waiting with
        | i :: rest =>
          match procs s !! i with
          | Some (Some t) =>
            (Z.lor (visible_pid pids (t_ns (cur s)) (t_pid t) mod U32)
               (match rest with [] => 0 | _ => FUTEX_WAITERS end),
             set_procs s (<[i := Some (woken_at (t_waitv_idx t) t)]> (procs s)))
          | _ => (0, s)
          end
        | [] => (0, s)
        end in
      match gm_write (mem s) uaddr (le_bytes 4 new) with
      | None => (err EFAULT, s)
      | Some m => (0, set_mem s m)
      end
  end.

(** [sys_futex]. *)
Definition sys_futex (s : St M) (a : list Z) : Z * St M :=
  let uaddr := nth 0 a 0 in
  let op := nth 1 a 0 in
  let val := nth 2 a 0 mod U32 in
  let cmd := Z.land op 0x7f in
  let private := negb (Z.land op FUTEX_PRIVATE_FLAG =? 0) in
  let realtime := negb (Z.land op FUTEX_CLOCK_REALTIME =? 0) in
  let bitset := nth 5 a 0 mod U32 in
  if realtime && negb ((cmd =? 9) || (cmd =? 11) || (cmd =? 13)) then (err ENOSYS, s)
  else if negb (is_multiple_of uaddr 4) then (err EINVAL, s)
  else
    let key := futex_key s uaddr private in
    let wake n bitset := let '(w, ps) := futex_wake_key (procs s) key n bitset in (w, set_procs s ps) in
    let requeue _ :=
      let to := futex_key s (nth 4 a 0) private in
      let '(w, ps) := futex_requeue_keys (procs s) key to (as_i32 val) (as_i64 (nth 3 a 0)) in
      (w, set_procs s ps) in
    if cmd =? 0 then futex_wait now mono s key uaddr val BITSET_ALL (Relative (nth 3 a 0))
    else if cmd =? 9 then
      if bitset =? 0 then (err EINVAL, s)
      else futex_wait now mono s key uaddr val bitset (Absolute (nth 3 a 0) realtime)
    else if cmd =? 1 then wake (as_i32 val) BITSET_ALL
    else if cmd =? 10 then if bitset =? 0 then (err EINVAL, s) else wake (as_i32 val) bitset
    else if cmd =? 3 then requeue tt
    else if cmd =? 4 then
      match gm_read_u32 (mem s) uaddr with
      | None => (err EFAULT, s)
      | Some w => if negb (w =? nth 5 a 0 mod U32) then (err EAGAIN, s) else requeue tt
      end
    else if cmd =? 5 then futex_wake_op s a key
    else if (cmd =? 6) || (cmd =? 13) || (cmd =? 8) then
      futex_lock_pi s key uaddr
        (if cmd =? 8 then None else Some (Absolute (nth 3 a 0) ((cmd =? 6) || realtime)))
    else if cmd =? 7 then futex_unlock_pi s key uaddr
    else (err ENOSYS, s).

(** [futex2_word]: value, address, private. *)
Definition futex2_word (val uaddr flags : Z) : Z + Z * Z * bool :=
  if negb (Z.ldiff flags (Z.lor 3 128) =? 0) || negb (Z.land flags 3 =? 2)
     || negb (is_multiple_of uaddr 4) || (U32 - 1 <? val)
  then inl (err EINVAL)
  else inr (val, uaddr, negb (Z.land flags 128 =? 0)).

(** The [struct futex_waitv]s of an array of [n]; [strict] refuses reserved bits. *)
Definition waitv_field (raw : list Z) (i o n : nat) : Z := le_val (take n (drop (24 * i + o) raw)).
Fixpoint read_words (strict : bool) (raw : list Z) (i n : nat) : Z + list (Z * Z * bool) :=
  match n with
  | O => inr []
  | S n =>
    if strict && negb (waitv_field raw i 20 4 =? 0) then inl (err EINVAL)
    else match futex2_word (waitv_field raw i 0 8) (waitv_field raw i 8 8) (waitv_field raw i 16 4) with
    | inl e => inl e
    | inr w => match read_words strict raw (S i) n with inl e => inl e | inr ws => inr (w :: ws) end
    end
  end.

(** The second loop of [sys_futex_waitv]: every word must hold its value. *)
Fixpoint match_words (s : St M) (ws : list (Z * Z * bool)) : Z + list FutexKey :=
  match ws with
  | [] => inr []
  | (val, uaddr, private) :: ws =>
    match gm_read_u32 (mem s) uaddr with
    | None => inl (err EFAULT)
    | Some w =>
      if negb (w =? val) then inl (err EAGAIN)
      else match match_words s ws with
           | inl e => inl e
           | inr ks => inr (futex_key s uaddr private :: ks)
           end
    end
  end.
Definition sys_futex_waitv (s : St M) (a : list Z) : Z * St M :=
  let waiters := nth 0 a 0 in
  let nr := nth 1 a 0 in
  let flags := nth 2 a 0 in
  let timeout := nth 3 a 0 in
  let clock := nth 4 a 0 in
  if negb (flags =? 0) || (nr =? 0) || (WAITV_MAX <? nr) then (err EINVAL, s)
  else if negb (timeout =? 0) && (1 <? clock) then (err EINVAL, s)
  else if t_woken (cur s) then (t_waitv_idx (cur s), futex_done s)
  else match gm_read (mem s) waiters (nr * 24) with
  | None => (err EFAULT, s)
  | Some raw =>
    match read_words true raw 0 (Z.to_nat nr) with
    | inl e => (e, s)
    | inr words =>
      match futex_deadline now mono s (Absolute timeout (clock =? 0)) with
      | (inl e, s) => (e, s)
      | (inr deadline, s) =>
        if expired now deadline then (err ETIMEDOUT, futex_done s)
        else match match_words s words with
        | inl e => (e, futex_done s)
        | inr keys =>
          if bool_decide (deadline = None) && negb (existsb (futex_could_wake (procs s)) keys)
          then (0, futex_done s)
          else (0, set_block (set_cur s (with_waitv keys (cur s))))
        end
      end
    end
  end.

(** [sys_futex2_wake], [sys_futex2_wait], [sys_futex2_requeue]. *)
Definition sys_futex2_wake (s : St M) (a : list Z) : Z * St M :=
  let mask := nth 1 a 0 mod U32 in
  let nr := as_i64 (nth 2 a 0) in
  match futex2_word 0 (nth 0 a 0) (nth 3 a 0) with
  | inl e => (e, s)
  | inr (_, uaddr, private) =>
    if (mask =? 0) || (nr <? 0) then (err EINVAL, s)
    else
      let '(w, ps) := futex_wake_key (procs s) (futex_key s uaddr private) (Z.min nr PID_MAX) mask in
      (w, set_procs s ps)
  end.
Definition sys_futex2_wait (s : St M) (a : list Z) : Z * St M :=
  let mask := nth 2 a 0 mod U32 in
  let timeout := nth 4 a 0 in
  let clock := nth 5 a 0 in
  match futex2_word (nth 1 a 0) (nth 0 a 0) (nth 3 a 0) with
  | inl e => (e, s)
  | inr (val, uaddr, private) =>
    if (mask =? 0) || (negb (timeout =? 0) && (1 <? clock)) then (err EINVAL, s)
    else futex_wait now mono s (futex_key s uaddr private) uaddr val mask (Absolute timeout (clock =? 0))
  end.
Definition sys_futex2_requeue (s : St M) (a : list Z) : Z * St M :=
  let nr_wake := as_i64 (nth 2 a 0) in
  let nr_requeue := as_i64 (nth 3 a 0) in
  if negb (nth 1 a 0 =? 0) || (nr_wake <? 0) || (nr_requeue <? 0) then (err EINVAL, s)
  else match gm_read (mem s) (nth 0 a 0) 48 with
  | None => (err EFAULT, s)
  | Some raw =>
    match read_words false raw 0 2 with
    | inl e => (e, s)
    | inr [(v0, u0, p0); (_, u1, p1)] =>
      match gm_read_u32 (mem s) u0 with
      | None => (err EFAULT, s)
      | Some w =>
        if negb (w =? v0) then (err EAGAIN, s)
        else
          let '(n, ps) := futex_requeue_keys (procs s) (futex_key s u0 p0) (futex_key s u1 p1)
                            nr_wake nr_requeue in
          (n, set_procs s ps)
      end
    | inr _ => (err EFAULT, s)
    end
  end.

(** The end of the syscall path when a handled signal is pending: a call that wants to
    block does not; with [SA_RESTART] it is rerun after the handler and its bookkeeping is
    kept, otherwise it ends ([EINTR]) and the bookkeeping is dropped. Either way it no
    longer blocks, so its deadline is forgotten. *)
Definition interrupt (restart : bool) (s : St M) : St M :=
  let t := cur s in
  let t :=
    if block s && negb restart
    then mkTask (t_pid t) (t_mm t) (t_ns t) (t_zombie t) (t_parked t) None (t_bitset t) []
           (t_waitv_idx t) false false (t_deadline t)
    else t in
  mkSt (procs s) (with_deadline None t) false (mem s).

End Calls.

(** * Waking and requeueing, slot by slot *)

(** How many slots satisfy [f]. *)
Definition count (f : Task → bool) (ps : list (option Task)) : Z :=
  Z.of_nat (length (filter (λ p, from_option f false p = true) ps)).

Lemma count_cons f p ps : count f (p :: ps) = (if from_option f false p then 1 else 0) + count f ps.
Proof.
  unfold count. rewrite filter_cons. destruct (from_option f false p); [|done].
  rewrite decide_True by done. simpl. lia.
Qed.
Lemma count_nonneg f ps : 0 ≤ count f ps.
Proof. unfold count. lia. Qed.
Lemma count_nil f : count f [] = 0.
Proof. done. Qed.

(** A task a wake of [key] with [bitset] can wake. *)
Definition wakeable (key : FutexKey) (bitset : Z) (t : Task) : bool :=
  bool_decide (is_Some (wake_one key bitset t)).

Lemma wake_loop_spec key n bitset ps : ∀ w w' ps',
  wake_loop key n bitset w ps = (w', ps') →
  w' = w + Z.min (Z.max 0 (n - w)) (count (wakeable key bitset) ps) ∧
  ∀ i, ps' !! i =
    p ← ps !! i;
    Some (t ← p; if wakeable key bitset t && (w + count (wakeable key bitset) (take i ps) <? n)
                 then wake_one key bitset t else Some t).
Proof.
  induction ps as [|p ps IH]; intros w w' ps' E; simpl in E.
  { injection E as <- <-. rewrite count_nil. split; [lia|done]. }
  rewrite count_cons. destruct p as [t|]; simpl.
  - destruct (n <=? w) eqn:En.
    { injection E as <- <-. pose proof (count_nonneg (wakeable key bitset) ps).
      split; [destruct (wakeable key bitset t); lia|]. intros i.
      destruct ((Some t :: ps) !! i) as [[t'|]|]; [|done|done]. cbn [mbind option_bind].
      pose proof (count_nonneg (wakeable key bitset) (take i (Some t :: ps))).
      assert ((w + count (wakeable key bitset) (take i (Some t :: ps)) <? n) = false) as -> by lia.
      by rewrite andb_false_r. }
    destruct (wake_one key bitset t) as [t'|] eqn:Ew.
    + assert (wakeable key bitset t = true) as Hw
        by (unfold wakeable; rewrite Ew; by apply bool_decide_eq_true_2).
      destruct (wake_loop key n bitset (w + 1) ps) as [w2 ps2] eqn:El. injection E as <- <-.
      destruct (IH _ _ _ El) as [-> Hl]. rewrite Hw. split; [lia|]. intros [|i]; cbn [lookup list_lookup].
      * cbn [mbind option_bind]. rewrite Hw, Ew. simpl. rewrite count_nil.
        by assert ((w + 0 <? n) = true) as -> by lia.
      * rewrite Hl. destruct (ps !! i) as [p|]; [|done]. cbn [mbind option_bind take].
        rewrite count_cons. cbn [from_option]. rewrite Hw.
        by replace (w + (1 + count (wakeable key bitset) (take i ps)))
          with (w + 1 + count (wakeable key bitset) (take i ps)) by lia.
    + assert (wakeable key bitset t = false) as Hw
        by (unfold wakeable; rewrite Ew; apply bool_decide_eq_false_2; by intros [? ?]).
      destruct (wake_loop key n bitset w ps) as [w2 ps2] eqn:El. injection E as <- <-.
      destruct (IH _ _ _ El) as [-> Hl]. rewrite Hw. split; [lia|]. intros [|i]; cbn [lookup list_lookup].
      * cbn [mbind option_bind]. by rewrite Hw.
      * rewrite Hl. destruct (ps !! i) as [p|]; [|done]. cbn [mbind option_bind take].
        rewrite count_cons. cbn [from_option]. by rewrite Hw.
  - destruct (wake_loop key n bitset w ps) as [w2 ps2] eqn:El. injection E as <- <-.
    destruct (IH _ _ _ El) as [-> Hl]. split; [lia|]. intros [|i]; cbn [lookup list_lookup]; [done|].
    rewrite Hl. destruct (ps !! i) as [p|]; [|done]. cbn [mbind option_bind take]. by rewrite count_cons.
Qed.

Lemma position_elem key l : is_Some (position key l) ↔ key ∈ l.
Proof.
  induction l as [|x l IH]; simpl.
  - split; [by intros [? ?]|intros Hx; by apply elem_of_nil in Hx].
  - rewrite elem_of_cons. case_bool_decide as Hx; [split; [by left|eauto]|].
    rewrite fmap_is_Some, IH. split; [by right|]. intros [?|?]; congruence.
Qed.
Lemma position_wake key t :
  is_Some (match position key (t_waitv t) with Some idx => Some (woken_at idx t) | None => None end)
  ↔ key ∈ t_waitv t.
Proof.
  rewrite <- position_elem. destruct (position key (t_waitv t)); [split; eauto|].
  split; by intros [? ?].
Qed.

(** A wake wakes exactly the first [n] waiters. [futex_wake_key] returns the smaller of
    [n] (0 if negative) and the number of wakeable slots; a slot is changed exactly when it
    is wakeable and fewer than [n] wakeable slots precede it, and a changed task is marked
    woken and made runnable, with the rest of its state kept; PI waiters and tasks already
    woken are never counted. *)
Theorem futex_wake_exact ps key n bitset w ps' :
  futex_wake_key ps key n bitset = (w, ps') →
  w = Z.min (Z.max 0 n) (count (wakeable key bitset) ps) ∧
  (∀ i, ps' !! i =
    p ← ps !! i;
    Some (t ← p; if wakeable key bitset t && (count (wakeable key bitset) (take i ps) <? n)
                 then wake_one key bitset t else Some t)) ∧
  (∀ t, wakeable key bitset t = true ↔
     t_woken t = false ∧ t_pi t = false ∧
     (t_wait t = Some key ∧ Z.land (t_bitset t) bitset ≠ 0 ∨ key ∈ t_waitv t)) ∧
  (∀ t t', wake_one key bitset t = Some t' → ∃ idx, t' = woken_at idx t).
Proof.
  unfold futex_wake_key. intros E. apply wake_loop_spec in E as [-> Hl]. split; [|split; [exact Hl|split]].
  - lia.
  - intros t. unfold wakeable. rewrite bool_decide_eq_true. unfold wake_one.
    destruct (t_woken t), (t_pi t); simpl; try (split; [by intros [? ?]|intros (? & ? & _); congruence]).
    case_bool_decide as Hk; simpl.
    + destruct (Z.land (t_bitset t) bitset =? 0) eqn:Eb; simpl.
      * rewrite position_wake. split; [intros Hp; auto|]. intros (_ & _ & [[_ ?]|?]); [lia|done].
      * split; [intros _|eauto]. split_and!; try done. left. split; [done|lia].
    + rewrite position_wake. split; [auto|]. by intros (_ & _ & [[? _]|?]).
  - intros t t'. unfold wake_one. repeat case_match; intros ?; simplify_eq; eauto.
Qed.

(** A task [requeue] considers. *)
Definition waits_on (from : FutexKey) (t : Task) : bool :=
  bool_decide (t_wait t = Some from) && negb (t_woken t).

Definition requeue_slot (from to : FutexKey) (a b c : Z) (t : Task) : Task :=
  if negb (waits_on from t) then t
  else if c <? a then woken_at (t_waitv_idx t) t
  else if c <? a + b then with_wait (Some to) t
  else t.

Lemma requeue_loop_spec from to nw nr ps : ∀ w r w' ps',
  requeue_loop from to nw nr w r ps = (w', ps') →
  let a := Z.max 0 (nw - w) in let b := Z.max 0 (nr - r) in
  w' = w + Z.min a (count (waits_on from) ps) ∧
  ∀ i, ps' !! i = p ← ps !! i; Some (requeue_slot from to a b (count (waits_on from) (take i ps)) <$> p).
Proof.
  induction ps as [|p ps IH]; intros w r w' ps' E; simpl in E; cbn zeta.
  { injection E as <- <-. rewrite count_nil. split; [lia|done]. }
  rewrite count_cons. destruct p as [t|]; cbn [from_option].
  - destruct (negb (bool_decide (t_wait t = Some from)) || t_woken t) eqn:Ew.
    + assert (waits_on from t = false) as Hw
        by (unfold waits_on; destruct (bool_decide _), (t_woken t); done).
      destruct (requeue_loop _ _ _ _ w r ps) as [w2 ps2] eqn:El. injection E as <- <-.
      destruct (IH _ _ _ _ El) as [-> Hl]. rewrite Hw. split; [lia|]. intros [|i]; cbn [lookup list_lookup].
      * simpl. unfold requeue_slot. by rewrite Hw.
      * rewrite Hl. destruct (ps !! i) as [p|]; [|done]. cbn [mbind option_bind take].
        rewrite count_cons. cbn [from_option]. by rewrite Hw.
    + assert (waits_on from t = true) as Hw
        by (unfold waits_on; destruct (bool_decide _), (t_woken t); done).
      rewrite Hw. destruct (w <? nw) eqn:E1; [|destruct (r <? nr) eqn:E2].
      * destruct (requeue_loop _ _ _ _ (w + 1) r ps) as [w2 ps2] eqn:El. injection E as <- <-.
        destruct (IH _ _ _ _ El) as [-> Hl]. split; [lia|]. intros [|i]; cbn [lookup list_lookup].
        -- cbn [mbind option_bind take fmap option_map option_fmap]. unfold requeue_slot.
           rewrite Hw, count_nil. cbn [negb].
           by assert ((0 <? Z.max 0 (nw - w)) = true) as -> by lia.
        -- rewrite Hl. destruct (ps !! i) as [p|]; [|done]. cbn [mbind option_bind take]. f_equal.
           rewrite count_cons. cbn [from_option]. rewrite Hw. destruct p as [x|]; [|done].
           cbn [fmap option_map option_fmap]. f_equal. unfold requeue_slot. destruct (negb _); [done|].
           repeat case_match; done || lia.
      * destruct (requeue_loop _ _ _ _ w (r + 1) ps) as [w2 ps2] eqn:El. injection E as <- <-.
        destruct (IH _ _ _ _ El) as [-> Hl]. split; [pose proof (count_nonneg (waits_on from) ps); lia|]. intros [|i]; cbn [lookup list_lookup].
        -- cbn [mbind option_bind take fmap option_map option_fmap]. unfold requeue_slot.
           rewrite Hw, count_nil. cbn [negb].
           assert ((0 <? Z.max 0 (nw - w)) = false) as -> by lia.
           by assert ((0 <? Z.max 0 (nw - w) + Z.max 0 (nr - r)) = true) as -> by lia.
        -- rewrite Hl. destruct (ps !! i) as [p|]; [|done]. cbn [mbind option_bind take]. f_equal.
           rewrite count_cons. cbn [from_option]. rewrite Hw. destruct p as [x|]; [|done].
           cbn [fmap option_map option_fmap]. f_equal. unfold requeue_slot. destruct (negb _); [done|].
           pose proof (count_nonneg (waits_on from) (take i ps)); repeat case_match; done || lia.
      * injection E as <- <-. pose proof (count_nonneg (waits_on from) ps). split; [lia|]. intros i.
        destruct ((Some t :: ps) !! i) as [[x|]|]; [|done|done]. cbn [mbind option_bind fmap option_map option_fmap].
        do 2 f_equal. pose proof (count_nonneg (waits_on from) (take i (Some t :: ps))). unfold requeue_slot.
        destruct (negb _); [done|]. repeat case_match; done || lia.
  - destruct (requeue_loop _ _ _ _ w r ps) as [w2 ps2] eqn:El. injection E as <- <-.
    destruct (IH _ _ _ _ El) as [-> Hl]. split; [lia|]. intros [|i]; cbn [lookup list_lookup]; [done|].
    rewrite Hl. destruct (ps !! i) as [p|]; [|done]. cbn [mbind option_bind take]. by rewrite count_cons.
Qed.

(** Requeueing conserves waiters. Of the tasks waiting on [from], in slot order, the
    first [nr_wake] are woken, the next [nr_requeue] wait on [to] instead, the rest and
    every other task are left as they are; the result counts the woken ones. *)
Theorem futex_requeue_exact ps from to nr_wake nr_requeue w ps' :
  futex_requeue_keys ps from to nr_wake nr_requeue = (w, ps') →
  w = Z.min (Z.max 0 nr_wake) (count (waits_on from) ps) ∧
  ∀ i, ps' !! i =
    p ← ps !! i;
    Some (requeue_slot from to (Z.max 0 nr_wake) (Z.max 0 nr_requeue)
            (count (waits_on from) (take i ps)) <$> p).
Proof.
  unfold futex_requeue_keys. intros E. apply requeue_loop_spec in E as [-> Hl].
  rewrite !Z.sub_0_r in *. split; [lia|exact Hl].
Qed.

(** * Waiting *)

Section Waiting.
Context `{GuestMem M}.
Implicit Types s : St M.

(** The task was requeued: it waits on another word than the one its call names. *)
Definition requeued (t : Task) (key : FutexKey) : Prop := is_Some (t_wait t) ∧ t_wait t ≠ Some key.

(** [futex_deadline] touches the caller's deadline only. *)
Lemma futex_deadline_frame now mono s t r s1 :
  futex_deadline now mono s t = (r, s1) →
  procs s1 = procs s ∧ mem s1 = mem s ∧ block s1 = block s ∧
  (∃ d, cur s1 = with_deadline d (cur s)) ∧ (∀ e, r = inl e → s1 = s).
Proof.
  assert (∃ d, cur s = with_deadline d (cur s)) as Hid by (exists (t_deadline (cur s)); by destruct (cur s)).
  unfold futex_deadline. destruct s as [ps c b m]; simpl in *.
  destruct t; repeat case_match; intros E; simplify_eq; simpl; split_and!; eauto; done.
Qed.

(** When a wait sleeps. A call of [futex_wait] parks the caller exactly when it has not
    been woken, its timeout is readable and not past, and either it has been requeued to
    another word, or the word still holds the expected value and the wait is timed or
    another task could end it; it never touches memory or other tasks; when it parks it
    returns 0 with the wait recorded, and when it returns, its bookkeeping is gone (a
    timeout it cannot read is refused before there is any). *)
Theorem futex_wait_outcome now mono s key uaddr val bitset timeout r s' :
  block s = false →
  futex_wait now mono s key uaddr val bitset timeout = (r, s') →
  procs s' = procs s ∧ mem s' = mem s ∧
  (block s' = true ↔
     t_woken (cur s) = false ∧
     ∃ d s1, futex_deadline now mono s timeout = (inr d, s1) ∧ expired now d = false ∧
       (requeued (cur s) key ∨
        gm_read_u32 (mem s) uaddr = Some val ∧
        (d ≠ None ∨ futex_could_wake (procs s) key = true))) ∧
  (block s' = true → r = 0 ∧ t_woken (cur s') = false ∧
     (t_wait (cur s') = Some key ∧ t_bitset (cur s') = bitset ∨
      requeued (cur s) key ∧ t_wait (cur s') = t_wait (cur s))) ∧
  (block s' = false →
     t_wait (cur s') = None ∧ t_waitv (cur s') = [] ∧ t_woken (cur s') = false ∧ t_pi (cur s') = false ∨
     s' = s ∧ futex_deadline now mono s timeout = (inl r, s)).
Proof.
  intros Hb. unfold futex_wait. destruct (t_woken (cur s)) eqn:Ew.
  { intros E. injection E as <- <-. simpl. rewrite Hb. split_and!; try done; [|by left].
    split; [done|by intros [? _]]. }
  destruct (futex_deadline now mono s timeout) as [[e|d] s1] eqn:Ed;
    pose proof (futex_deadline_frame _ _ _ _ _ _ Ed) as (Hp & Hm & Hbl & (dl & Hc) & He).
  { intros E. injection E as <- <-. rewrite Hp, Hm, Hbl, Hb. rewrite (He e eq_refl) in *.
    split_and!; try done; [|by right]. split; [done|]. by intros (_ & d & s2 & ? & _). }
  assert (∀ P : Prop, (∃ d0 s2, (inr (A := Z) d, s1) = (inr d0, s2) ∧ expired now d0 = false ∧ (P ∨
     gm_read_u32 (mem s) uaddr = Some val ∧ (d0 ≠ None ∨ futex_could_wake (procs s) key = true))) ↔
     expired now d = false ∧ (P ∨ gm_read_u32 (mem s) uaddr = Some val ∧
       (d ≠ None ∨ futex_could_wake (procs s) key = true))) as Hd.
  { intros P. split; [by intros (d0 & s2 & E & ?); simplify_eq|intros [? ?]; by exists d, s1]. }
  rewrite Hd, Hm. clear Hd.
  destruct (expired now d) eqn:Ex.
  { intros E. injection E as <- <-. simpl. rewrite Hbl, Hb. split_and!; try done; [|by left].
    split; [done|]. by intros (_ & ? & _). }
  assert (t_wait (cur s1) = t_wait (cur s)) as Hw by by rewrite Hc.
  rewrite Hw. case_bool_decide as Hq.
  { intros E. injection E as <- <-. simpl. split_and!; try done.
    - split; [intros _; split_and!; try done; by left|done].
    - intros _. split_and!; [done|by rewrite Hc|right; done]. }
  assert (¬ requeued (cur s) key) as Hnq by exact Hq.
  destruct (gm_read_u32 (mem s) uaddr) as [v|] eqn:Er.
  2: { intros E. injection E as <- <-. simpl. rewrite Hbl, Hb. split_and!; try done; [|by left].
       split; [done|]. intros (_ & _ & [?|[? _]]); done. }
  destruct (v =? val) eqn:Ev; simpl.
  2: { intros E. injection E as <- <-. simpl. rewrite Hbl, Hb. split_and!; try done; [|by left].
       split; [done|]. intros (_ & _ & [?|[E _]]); [done|]. injection E as ->. lia. }
  assert (v = val) as -> by lia. rewrite Hp.
  destruct (bool_decide (d = None) && negb (futex_could_wake (procs s) key)) eqn:Ec.
  - apply andb_prop in Ec as [E1 E2]. apply bool_decide_eq_true in E1. subst d.
    intros E. injection E as <- <-. simpl. rewrite Hbl, Hb. split_and!; try done; [|by left].
    split; [done|]. intros (_ & _ & [?|[_ [?|E3]]]); [done|done|]. by rewrite E3 in E2.
  - intros E. injection E as <- <-. simpl. split_and!; try done.
    + split; [intros _; split_and!; try done|done]. right. split; [done|].
      destruct (futex_could_wake (procs s) key); [by right|left]. intros ->. by simpl in Ec.
    + intros _. split_and!; [done|by rewrite Hc|]. by left.
Qed.

(** The scheduler parks a task that blocked. *)
Definition park (t : Task) : Task :=
  mkTask (t_pid t) (t_mm t) (t_ns t) (t_zombie t) true (t_wait t) (t_bitset t) (t_waitv t)
    (t_waitv_idx t) (t_pi t) (t_woken t) (t_deadline t).

Lemma woken_wait_returns now mono s key uaddr val bitset timeout :
  t_woken (cur s) = true → futex_wait now mono s key uaddr val bitset timeout = (0, futex_done s).
Proof. unfold futex_wait. by intros ->. Qed.

Lemma blocked_state now mono s key uaddr val bitset timeout r s' :
  block s = false → futex_wait now mono s key uaddr val bitset timeout = (r, s') → block s' = true →
  t_woken (cur s') = false ∧ t_pi (cur s') = t_pi (cur s).
Proof.
  intros Hb Hw Hbl. revert Hw. unfold futex_wait. destruct (t_woken (cur s)) eqn:Ew.
  { intros E. injection E as _ <-. simpl in Hbl. congruence. }
  destruct (futex_deadline now mono s timeout) as [[e|d] s1] eqn:Ed;
    pose proof (futex_deadline_frame _ _ _ _ _ _ Ed) as (_ & _ & Hbk & (dl & Hc) & _).
  { intros E. injection E as _ <-. congruence. }
  assert (t_woken (cur s1) = false ∧ t_pi (cur s1) = t_pi (cur s)) as [H1 H2] by by rewrite Hc.
  repeat case_match; intros E; injection E as _ <-; simpl in *; done || congruence.
Qed.

(** What parking in [futex_wait] leaves behind can be woken. *)
Lemma parked_wakeable now mono s key uaddr val bitset timeout r s' k bs :
  block s = false → t_pi (cur s) = false →
  futex_wait now mono s key uaddr val bitset timeout = (r, s') → block s' = true →
  t_wait (cur s') = Some k → Z.land (t_bitset (cur s')) bs ≠ 0 →
  wake_one k bs (park (cur s')) = Some (woken_at (t_waitv_idx (cur s')) (park (cur s'))).
Proof.
  intros Hb Hpi Hw Hbl Hk Hbs.
  destruct (blocked_state _ _ _ _ _ _ _ _ _ _ Hb Hw Hbl) as [Hwk Hp]. rewrite Hpi in Hp.
  unfold wake_one. simpl. rewrite Hwk, Hp. simpl. rewrite bool_decide_eq_true_2 by done.
  assert ((Z.land (t_bitset (cur s')) bs =? 0) = false) as -> by lia. done.
Qed.

(** C7: a wake that reaches a sleeper is not lost. Take a task that called [futex_wait] and
    parked, on its word or on the one it was requeued to, and sits in slot [i]; a wake of
    that word that admits its bitset and has not been used up by the waiters in earlier
    slots makes it runnable, and its rerun of the call returns 0 at once, whatever memory
    or the clock hold by then, with its bookkeeping gone. *)
Theorem futex_no_lost_wake now mono s key uaddr val bitset timeout r s' k ps i n bs w ps' :
  block s = false → t_pi (cur s) = false →
  futex_wait now mono s key uaddr val bitset timeout = (r, s') → block s' = true →
  t_wait (cur s') = Some k → Z.land (t_bitset (cur s')) bs ≠ 0 →
  ps !! i = Some (Some (park (cur s'))) →
  futex_wake_key ps k n bs = (w, ps') →
  count (wakeable k bs) (take i ps) < n →
  0 < w ∧ ∃ t, ps' !! i = Some (Some t) ∧ t_parked t = false ∧
    ∀ now2 mono2 s2, cur s2 = t →
      futex_wait now2 mono2 s2 key uaddr val bitset timeout = (0, futex_done s2).
Proof.
  intros Hb Hpi Hw Hbl Hk Hbs Hi Hwake Hn.
  pose proof (parked_wakeable _ _ _ _ _ _ _ _ _ _ k bs Hb Hpi Hw Hbl Hk Hbs) as Hone.
  apply wake_loop_spec in Hwake as [-> Hl].
  assert (wakeable k bs (park (cur s')) = true) as Hwk
    by (unfold wakeable; rewrite Hone; by apply bool_decide_eq_true_2).
  split.
  - assert (0 < count (wakeable k bs) ps) as Hc.
    { unfold count. enough (length (filter (λ p, from_option (wakeable k bs) false p = true) ps) ≠ 0%nat) by lia.
      intros E. apply nil_length_inv in E. apply list_elem_of_lookup_2 in Hi.
      assert (Some (park (cur s')) ∈ filter (λ p, from_option (wakeable k bs) false p = true) ps) as Hin
        by by apply list_elem_of_filter.
      rewrite E in Hin. by apply elem_of_nil in Hin. }
    pose proof (count_nonneg (wakeable k bs) (take i ps)). lia.
  - exists (woken_at (t_waitv_idx (cur s')) (park (cur s'))). split; [|split; [done|]].
    + rewrite Hl, Hi. cbn [mbind option_bind]. rewrite Hwk. cbn [andb].
      assert ((0 + count (wakeable k bs) (take i ps) <? n) = true) as -> by lia. by rewrite Hone.
    + intros now2 mono2 s2 Hc. apply woken_wait_returns. by rewrite Hc.
Qed.

End Waiting.

(** * Priority-inheritance locks *)

Section Pi.
Context `{GuestMem M} `{SharedWords M} (pids : gmap Z PidNs).
Implicit Types s : St M.

Lemma waiting_from_spec key ps : ∀ i j,
  j ∈ waiting_from i key ps ↔ ∃ k p, j = (i + k)%nat ∧ ps !! k = Some p ∧ pi_waiting key p = true.
Proof.
  induction ps as [|p ps IH]; intros i j; simpl.
  - split; [intros Hj; by apply elem_of_nil in Hj|]. by intros (? & ? & _ & ? & _).
  - assert (j ∈ waiting_from (S i) key ps ↔
      ∃ k p0, j = (i + S k)%nat ∧ ps !! k = Some p0 ∧ pi_waiting key p0 = true) as IH'.
    { rewrite IH. split; intros (k & p0 & ? & ? & ?); exists k, p0; split_and!; try done; lia. }
    destruct (pi_waiting key p) eqn:Ep; rewrite ?elem_of_cons, IH'; split.
    + intros [->|(k & p0 & ? & ? & ?)]; [exists 0%nat, p; split_and!; done || lia|by exists (S k), p0].
    + intros ([|k] & p0 & -> & Hp & Hw); [left; lia|right]. simpl in Hp. eauto.
    + intros (k & p0 & ? & ? & ?). by exists (S k), p0.
    + intros ([|k] & p0 & -> & Hp & Hw); simpl in Hp; [congruence|]. eauto.
Qed.

(** The first waiter is first: no earlier slot waits. *)
Lemma waiting_from_head key ps : ∀ i j r,
  waiting_from i key ps = j :: r →
  ∃ k t, j = (i + k)%nat ∧ ps !! k = Some (Some t) ∧ pi_waiter key t = true ∧
    ∀ k' p, (k' < k)%nat → ps !! k' = Some p → pi_waiting key p = false.
Proof.
  induction ps as [|p ps IH]; intros i j r E; simpl in E; [done|].
  destruct (pi_waiting key p) eqn:Ep.
  - injection E as <- <-. destruct p as [t|]; [|done]. exists 0%nat, t. split_and!; try done; lia.
  - destruct (IH _ _ _ E) as (k & t & -> & Hk & Ht & Hb). exists (S k), t. split_and!; try done; [lia|].
    intros [|k'] q Hlt Hq; simpl in Hq; [congruence|]. apply (Hb k'); [lia|done].
Qed.

(** Whether more than one task waits. *)
Lemma waiting_from_more key ps k rest :
  waiting_from 0 key ps = k :: rest →
  rest ≠ [] ↔ ∃ j t, j ≠ k ∧ ps !! j = Some (Some t) ∧ pi_waiter key t = true.
Proof.
  intros E. pose proof (waiting_from_spec key ps 0) as Hs.
  assert (∀ i l, NoDup (waiting_from i key l)) as Hnd.
  { intros i l. revert i. induction l as [|p l IH]; intros i; simpl; [apply NoDup_nil_2|].
    destruct (pi_waiting key p); [|apply IH]. apply NoDup_cons. split; [|apply IH].
    rewrite waiting_from_spec. intros (k' & ? & ? & _). lia. }
  specialize (Hnd 0%nat ps). rewrite E in *. apply NoDup_cons in Hnd as [Hk _]. split.
  - destruct rest as [|j rest]; [done|]. intros _.
    destruct (proj1 (Hs j)) as (j' & p & -> & Hp & Hw); [apply elem_of_cons; right; apply elem_of_cons; by left|].
    destruct p as [t|]; [|done]. exists j', t. split_and!; try done. intros ->. apply Hk, elem_of_cons. by left.
  - intros (j & t & Hne & Hj & Hw) ->. assert (j ∈ [k]) as Hin by (apply Hs; by exists j, (Some t)).
    by apply list_elem_of_singleton in Hin.
Qed.

Lemma woken_lock_returns now mono s key uaddr timeout :
  t_woken (cur s) = true → futex_lock_pi pids now mono s key uaddr timeout = (0, futex_done s).
Proof. unfold futex_lock_pi. by intros ->. Qed.

(** A PI unlock hands the lock over. Called by the owner the word names, with the word
    writable, [futex_unlock_pi] either stores 0 because nobody waits, or stores the tid of
    the waiter in the lowest slot, with [FUTEX_WAITERS] exactly when more wait, and changes
    that slot only; that waiter's call then returns 0 without touching the word. A caller
    the word does not name gets [EPERM] and changes nothing. *)
Theorem pi_unlock_hands_over s key uaddr word :
  gm_read_u32 (mem s) uaddr = Some word →
  (∀ bs, length bs = 4%nat → is_Some (gm_write (mem s) uaddr bs)) →
  let me := my_tid pids s in
  (Z.land word FUTEX_TID_MASK ≠ me → futex_unlock_pi pids s key uaddr = (err EPERM, s)) ∧
  (Z.land word FUTEX_TID_MASK = me →
   ∃ m s', futex_unlock_pi pids s key uaddr = (0, s') ∧ mem s' = m ∧
     ((∀ i t, procs s !! i = Some (Some t) → pi_waiter key t = false) ∧
      procs s' = procs s ∧ gm_write (mem s) uaddr (le_bytes 4 0) = Some m
      ∨
      ∃ i t more, procs s !! i = Some (Some t) ∧ pi_waiter key t = true ∧
        (∀ j p, (j < i)%nat → procs s !! j = Some p → pi_waiting key p = false) ∧
        (more = true ↔ ∃ j t', j ≠ i ∧ procs s !! j = Some (Some t') ∧ pi_waiter key t' = true) ∧
        gm_write (mem s) uaddr (le_bytes 4 (Z.lor (visible_pid pids (t_ns (cur s)) (t_pid t) mod U32)
                                              (if more then FUTEX_WAITERS else 0))) = Some m ∧
        procs s' = <[i := Some (woken_at (t_waitv_idx t) t)]> (procs s) ∧
        ∀ now mono s2 timeout, cur s2 = woken_at (t_waitv_idx t) t →
          futex_lock_pi pids now mono s2 key uaddr timeout = (0, futex_done s2))).
Proof.
  intros Hr Hwr me. unfold futex_unlock_pi. rewrite Hr. fold me. split.
  { intros Hne. by assert ((Z.land word FUTEX_TID_MASK =? me) = false) as -> by lia. }
  intros Heq. assert ((Z.land word FUTEX_TID_MASK =? me) = true) as -> by lia. cbn [negb].
  destruct (waiting_from 0 key (procs s)) as [|i rest] eqn:Ewf.
  - destruct (Hwr (le_bytes 4 0) (length_le_bytes 4 0)) as [m Hm]. rewrite Hm.
    exists m. eexists. split; [reflexivity|]. split; [done|]. left. split; [|done].
    intros i t Hi. destruct (pi_waiter key t) eqn:Et; [|done]. exfalso.
    assert (i ∈ waiting_from 0 key (procs s)) as Hin by (apply waiting_from_spec; by exists i, (Some t)).
    rewrite Ewf in Hin. by apply elem_of_nil in Hin.
  - destruct (waiting_from_head _ _ _ _ _ Ewf) as (k & t & -> & Hk & Ht & Hfirst).
    change (0 + k)%nat with k in *. rewrite Hk.
    set (new := Z.lor _ (match rest with [] => 0 | _ => FUTEX_WAITERS end)).
    destruct (Hwr (le_bytes 4 new) (length_le_bytes 4 new)) as [m Hm].
    cbn [mem set_procs]. rewrite Hm. exists m. eexists. split; [reflexivity|]. split; [done|].
    right. exists k, t, (match rest with [] => false | _ => true end). split_and!; try done.
    + rewrite <- (waiting_from_more key (procs s) k rest Ewf). by destruct rest.
    + by destruct rest.
    + intros now mono s2 timeout Hc. apply woken_lock_returns. by rewrite Hc.
Qed.
(** A plain requeue lets a PI waiter in. [futex_wake_key] never wakes a task waiting
    for a PI lock, but [futex_requeue_keys] does not look at [futex_pi]: a
    [FUTEX_REQUEUE] on the lock's word with a large enough wake count wakes it, and its
    [FUTEX_LOCK_PI] then returns 0, as if the lock had been handed over, without reading or
    writing the word, which still names the owner. *)
Theorem requeue_enters_pi_lock ps i t key to :
  ps !! i = Some (Some t) → pi_waiter key t = true →
  (∀ bs, wakeable key bs t = false) ∧
  ∃ n w ps', futex_requeue_keys ps key to n 0 = (w, ps') ∧
    ps' !! i = Some (Some (woken_at (t_waitv_idx t) t)) ∧
    ∀ now mono s uaddr timeout, cur s = woken_at (t_waitv_idx t) t →
      futex_lock_pi pids now mono s key uaddr timeout = (0, futex_done s) ∧
      mem (futex_done s) = mem s.
Proof.
  intros Hi Hw. unfold pi_waiter in Hw. apply andb_prop in Hw as [Hw Hwk].
  apply andb_prop in Hw as [Hpi Hk]. apply bool_decide_eq_true in Hk. split.
  - intros bs. unfold wakeable, wake_one. rewrite Hpi, orb_true_r.
    apply bool_decide_eq_false_2. by intros [? ?].
  - pose proof (count_nonneg (waits_on key) (take i ps)) as Hc.
    destruct (futex_requeue_keys ps key to (count (waits_on key) (take i ps) + 1) 0) as [w ps'] eqn:E.
    exists (count (waits_on key) (take i ps) + 1), w, ps'. split; [done|].
    apply requeue_loop_spec in E as [_ Hl]. split.
    + rewrite Hl, Hi. cbn [mbind option_bind fmap option_map option_fmap]. unfold requeue_slot, waits_on.
      rewrite bool_decide_eq_true_2 by done. rewrite Hwk. cbn [negb andb].
      match goal with |- context [?a <? ?b] => assert ((a <? b) = true) as -> by lia end. done.
    + intros now mono s uaddr timeout Hs. split; [|done]. apply woken_lock_returns. by rewrite Hs.
Qed.

(** A wait made in a signal handler can sleep on the wrong word. A [FUTEX_WAIT] on [key]
    parks, a handler with [SA_RESTART] interrupts it, and the handler waits, untimed, on
    another word: [futex_wait] finds the interrupted wait's bookkeeping, takes the caller
    for requeued, and parks it on [key] without looking at the word the handler named, even
    when that word no longer holds the value it expects. *)
Theorem handler_wait_misparked now mono s key uaddr val bitset timeout r s1 :
  block s = false →
  futex_wait now mono s key uaddr val bitset timeout = (r, s1) → block s1 = true →
  t_wait (cur s1) = Some key →
  ∀ now2 mono2 key2 uaddr2 val2 bitset2 m, key2 ≠ key →
    let s2 := set_mem (interrupt true s1) m in
    futex_wait now2 mono2 s2 key2 uaddr2 val2 bitset2 (Relative 0) = (0, set_block s2) ∧
    t_wait (cur s2) = Some key.
Proof.
  intros Hb Hw Hbl Hk now2 mono2 key2 uaddr2 val2 bitset2 m Hne s2.
  destruct (blocked_state _ _ _ _ _ _ _ _ _ _ Hb Hw Hbl) as [Hwk _].
  assert (t_wait (cur s2) = Some key) as Hk2 by (unfold s2, interrupt; simpl; by rewrite andb_false_r).
  assert (t_woken (cur s2) = false) as Hw2 by (unfold s2, interrupt; simpl; by rewrite andb_false_r).
  split; [|done]. unfold futex_wait. rewrite Hw2. simpl. rewrite bool_decide_eq_true_2; [done|].
  rewrite andb_false_r. simpl. rewrite Hk. split; [eauto|congruence].
Qed.

End Pi.

(** * Examples: a word at address 8 holding 5, tasks of one address space. *)
#[export] Instance flat_SharedWords : SharedWords flat_mem := λ _ _, None.

Definition demo_mem (word : Z) : flat_mem := {| fm_base := 8; fm_bytes := le_bytes 4 word |}.
Definition demo_task (pid : Z) : Task :=
  mkTask pid 0 0 false false None 0 [] 0 false false None.
Definition demo_word : FutexKey := Private 0 8.
(** Task 1 runs; task 2 is the only other one. *)
Definition demo_st : St flat_mem := mkSt [Some (demo_task 2)] (demo_task 1) false (demo_mem 5).
Definition demo_parked : St flat_mem := (futex_wait 0 0 demo_st demo_word 8 5 BITSET_ALL (Relative 0)).2.
Definition demo_sleeper : Task := park (cur demo_parked).
(** A task waiting for the PI lock in the same word. *)
Definition demo_pi_task : Task :=
  mkTask 3 0 0 false true (Some demo_word) 0 [] 0 true false None.

Lemma futex_wait_outcome_witness : block demo_parked = true ∧ mem demo_parked = mem demo_st.
Proof.
  destruct (futex_wait_outcome 0 0 demo_st demo_word 8 5 BITSET_ALL (Relative 0) 0 demo_parked)
    as (_ & Hm & Hiff & _); [reflexivity|vm_compute; reflexivity|].
  split; [|exact Hm]. apply Hiff. split; [reflexivity|]. exists None, demo_st.
  split; [reflexivity|]. split; [reflexivity|]. right. split; [vm_compute; reflexivity|].
  right. vm_compute. reflexivity.
Defined.

Lemma futex_wake_exact_witness :
  (futex_wake_key [Some demo_sleeper; None; Some demo_pi_task] demo_word 5 BITSET_ALL).1 = 1 ∧
  count (wakeable demo_word BITSET_ALL) [Some demo_sleeper; None; Some demo_pi_task] = 1.
Proof.
  destruct (futex_wake_key [Some demo_sleeper; None; Some demo_pi_task] demo_word 5 BITSET_ALL)
    as [w ps'] eqn:E.
  destruct (futex_wake_exact _ _ _ _ _ _ E) as [Hw _]. simpl. rewrite Hw.
  split; vm_compute; reflexivity.
Defined.

Lemma futex_requeue_exact_witness :
  let ps := [Some demo_sleeper; Some demo_sleeper; Some demo_sleeper] in
  let '(w, ps') := futex_requeue_keys ps demo_word (Private 0 16) 1 1 in
  w = 1 ∧ ps' !! 1%nat = Some (Some (with_wait (Some (Private 0 16)) demo_sleeper)).
Proof.
  cbn zeta. destruct (futex_requeue_keys _ demo_word (Private 0 16) 1 1) as [w ps'] eqn:E.
  destruct (futex_requeue_exact _ _ _ _ _ _ _ E) as [Hw Hl]. split.
  - rewrite Hw. vm_compute. reflexivity.
  - rewrite Hl. vm_compute. reflexivity.
Defined.

Lemma futex_no_lost_wake_witness :
  ∃ t, (futex_wake_key [None; Some demo_sleeper] demo_word 1 BITSET_ALL).2 !! 1%nat = Some (Some t) ∧
    futex_wait 9 9 (mkSt [] t false (demo_mem 7)) demo_word 8 5 BITSET_ALL (Relative 0)
    = (0, futex_done (mkSt [] t false (demo_mem 7))).
Proof.
  destruct (futex_wake_key [None; Some demo_sleeper] demo_word 1 BITSET_ALL) as [w ps'] eqn:E.
  destruct (futex_no_lost_wake 0 0 demo_st demo_word 8 5 BITSET_ALL (Relative 0) 0 demo_parked demo_word
    [None; Some demo_sleeper] 1 1 BITSET_ALL w ps') as (_ & t & Ht & _ & Hr);
    [reflexivity|reflexivity|vm_compute; reflexivity|vm_compute; reflexivity|vm_compute; reflexivity
    |vm_compute; discriminate|reflexivity|exact E|vm_compute; reflexivity|].
  exists t. split; [exact Ht|]. by apply Hr.
Defined.

(** Task 1 owns the lock (the word is 1), task 3 waits for it. *)
Definition demo_pi_st : St flat_mem :=
  mkSt [Some (demo_task 2); Some demo_pi_task] (demo_task 1) false (demo_mem (1 + FUTEX_WAITERS)).

Lemma pi_unlock_hands_over_witness :
  ∃ s', futex_unlock_pi ∅ demo_pi_st demo_word 8 = (0, s') ∧ gm_read_u32 (mem s') 8 = Some 3.
Proof.
  destruct (pi_unlock_hands_over ∅ demo_pi_st demo_word 8 (1 + FUTEX_WAITERS)) as [_ H].
  - vm_compute. reflexivity.
  - intros bs Hbs. unfold gm_write. simpl. unfold fm_write. simpl. rewrite Hbs. vm_compute. eauto.
  - destruct H as (m & s' & Hs & <- & [(Hno & _)|(i & t & more & Hi & Hw & _ & Hmore & Hm & _)]).
    + vm_compute. reflexivity.
    + exfalso. specialize (Hno 1%nat demo_pi_task eq_refl). vm_compute in Hno. discriminate.
    + exists s'. split; [exact Hs|]. revert Hs. vm_compute. intros Hs. by injection Hs as <-.
Defined.

Lemma requeue_enters_pi_lock_witness :
  pi_waiter demo_word demo_pi_task = true ∧
  ∃ n w ps', futex_requeue_keys (procs demo_pi_st) demo_word (Private 0 16) n 0 = (w, ps') ∧
    ps' !! 1%nat = Some (Some (woken_at 0 demo_pi_task)).
Proof.
  split; [vm_compute; reflexivity|].
  destruct (requeue_enters_pi_lock (M := flat_mem) ∅ (procs demo_pi_st) 1 demo_pi_task demo_word (Private 0 16))
    as (_ & n & w & ps' & E & Hl & _); [reflexivity|vm_compute; reflexivity|]. eauto.
Defined.

Lemma handler_wait_misparked_witness :
  futex_wait 0 0 (set_mem (interrupt true demo_parked) (demo_mem 7)) (Private 0 16) 16 1 BITSET_ALL (Relative 0)
  = (0, set_block (set_mem (interrupt true demo_parked) (demo_mem 7))).
Proof.
  apply (handler_wait_misparked 0 0 demo_st demo_word 8 5 BITSET_ALL (Relative 0) 0 demo_parked);
    [reflexivity|vm_compute; reflexivity|vm_compute; reflexivity|vm_compute; reflexivity|discriminate].
Defined.
