(* ===== verification/A64.v ===== *)
(** The AArch64 software interpreter's state: the vcpu record, its registers, flags and
    condition codes ([src/vcpu/interp.rs]), and the functions on words of
    [src/vcpu/interp/alu.rs] and [crypto.rs]. A [u64] is a [Z] below [U64]; shifts and sums
    that drop high bits are written with their modulus. *)
From S2P Require Import Prelude.
From stdpp Require Import base numbers list.
Local Open Scope Z_scope.

(** * Words *)

Definition not64 (v : Z) : Z := Z.lxor v (U64 - 1).
Definition shl64 (v n : Z) : Z := Z.shiftl v n mod U64.
(** [rotate_right], [reverse_bits], [swap_bytes] and [leading_zeros] of the standard library. *)
Definition rotate_right (w v r : Z) : Z :=
  Z.lor (Z.shiftr v (r mod w)) (Z.shiftl v (w - r mod w)) mod 2 ^ w.
Definition reverse_bits (w : Z) (v : Z) : Z :=
  foldr (λ i acc, Z.b2z (Z.testbit v i) * 2 ^ (w - 1 - i) + acc) 0 (seqZ 0 w).
Definition swap_bytes (n : nat) (v : Z) : Z := le_val (reverse (le_bytes n v)).
Definition leading_zeros (w v : Z) : Z := if v =? 0 then w else w - 1 - Z.log2 v.

(** Bits [sh..] of an instruction word, masked. *)
Definition fld (instr sh m : Z) : Z := Z.land (Z.shiftr instr sh) m.
Definition fbit (instr sh : Z) : bool := fld instr sh 1 =? 1.
Definition reg_field (instr lsb : Z) : Z := fld instr lsb 0x1f.
Definition tst (v m : Z) : bool := negb (Z.land v m =? 0).

Definition mask_sf (v : Z) (sf : bool) : Z := if sf then v else Z.land v 0xffffffff.
Definition sign_extend (v bits : Z) : Z := Z.shiftr (as_i64 (Z.shiftl v (64 - bits))) (64 - bits).
Definition ones (n : Z) : Z := if 64 <=? n then U64 - 1 else Z.shiftl 1 n - 1.

Definition shift_reg (v shift_type amount : Z) (sf : bool) : Z :=
  if sf then
    if shift_type =? 0 then shl64 v amount
    else if shift_type =? 1 then Z.shiftr v amount
    else if shift_type =? 2 then Z.shiftr (as_i64 v) amount mod U64
    else rotate_right 64 v amount
  else
    let v := v mod U32 in
    if shift_type =? 0 then Z.shiftl v amount mod U32
    else if shift_type =? 1 then Z.shiftr v amount
    else if shift_type =? 2 then Z.shiftr (as_i32 v) amount mod U32
    else rotate_right 32 v amount.

Definition rbit (v width : Z) : Z := if width =? 64 then reverse_bits 64 v else reverse_bits 32 (v mod U32).
Definition rev16 (v width : Z) : Z :=
  let r := Z.lor (shl64 (Z.land v 0x00ff00ff00ff00ff) 8) (Z.land (Z.shiftr v 8) 0x00ff00ff00ff00ff) in
  if width =? 64 then r else Z.land r 0xffffffff.
Definition rev32 (v : Z) : Z :=
  Z.lor (swap_bytes 4 (v mod U32)) (shl64 (swap_bytes 4 (Z.shiftr v 32 mod U32)) 32).
Definition cls (v width : Z) : Z :=
  let x := if width =? 64 then v else Z.lor (shl64 v 32) 0xffffffff in
  let y := Z.lxor x (shl64 x 1) in
  let y := if width =? 64 then y else Z.lor y 1 in
  Z.min (leading_zeros 64 y) (width - 1).

Definition udiv (a b : Z) (sf : bool) : Z :=
  if sf then if b =? 0 then 0 else a / b
  else let '(a, b) := (a mod U32, b mod U32) in if b =? 0 then 0 else a / b.
(** [wrapping_div] rounds towards zero. *)
Definition sdiv (a b : Z) (sf : bool) : Z :=
  if sf then let '(a, b) := (as_i64 a, as_i64 b) in if b =? 0 then 0 else Z.quot a b mod U64
  else let '(a, b) := (as_i32 a, as_i32 b) in if b =? 0 then 0 else Z.quot a b mod U32.

Definition extend_reg (val option shift : Z) : Z :=
  let extended :=
    if option =? 0 then Z.land val 0xff
    else if option =? 1 then Z.land val 0xffff
    else if option =? 2 then Z.land val 0xffffffff
    else if option =? 4 then sign_extend val 8 mod U64
    else if option =? 5 then sign_extend val 16 mod U64
    else if option =? 6 then sign_extend val 32 mod U64
    else val in
  shl64 extended shift.

Definition ror_val (v r size : Z) : Z :=
  let v := Z.land v (ones size) in
  let r := r mod size in
  if r =? 0 then v else Z.land (Z.lor (Z.shiftr v r) (shl64 v (size - r))) (ones size).

(** [replicate]: the loop runs [width / esize] times, at most 64. *)
Fixpoint rep_loop (fuel : nat) (pat esize width i result : Z) : Z :=
  match fuel with
  | O => result
  | S fuel =>
    if i <? width then rep_loop fuel pat esize width (i + esize) (Z.lor result (shl64 pat i)) else result
  end.
Definition replicate_bits (pattern esize width : Z) : Z :=
  rep_loop 64 (Z.land pattern (ones esize)) esize width 0 0.

Definition decode_bit_masks (n imms immr width : Z) (immediate : bool) : option (Z * Z) :=
  let x := Z.lor (Z.shiftl n 6) (Z.land (Z.lxor imms (U32 - 1)) 0x3f) in
  if x =? 0 then None
  else
    let len := Z.log2 x in
    if len <? 1 then None
    else
      let levels := Z.shiftl 1 len - 1 in
      if immediate && (Z.land imms levels =? levels) then None
      else
        let s := Z.land imms levels in
        let r := Z.land immr levels in
        let diff := Z.land ((s - r) mod U32) levels in
        let esize := Z.shiftl 1 len in
        Some (replicate_bits (ror_val (ones (s + 1)) r esize) esize width,
              replicate_bits (ones (diff + 1)) esize width).

(** [crypto::crc32]. *)
Fixpoint crc_bits (n : nat) (crc poly : Z) : Z :=
  match n with
  | O => crc
  | S n => crc_bits n (if tst crc 1 then Z.lxor (Z.shiftr crc 1) poly else Z.shiftr crc 1) poly
  end.
Definition crc32 (crc val nbytes poly : Z) : Z :=
  foldl (λ crc i, crc_bits 8 (Z.lxor crc (Z.shiftr val (8 * i) mod U8)) poly) crc (seqZ 0 nbytes).

(** * The vcpu *)

Inductive Step :=
  | Next | Branched | Syscall | Illegal
  | Breakpoint (imm : Z)
  | Misaligned (addr : Z) (write : bool)
  | Fault (addr : Z) (write : bool).

Record Flags := mkFlags { fN : bool; fZ : bool; fC : bool; fV : bool }.
Definition from_nzcv (nzcv : Z) : Flags := mkFlags (tst nzcv 8) (tst nzcv 4) (tst nzcv 2) (tst nzcv 1).
Definition nzcv (f : Flags) : Z :=
  Z.lor (Z.lor (Z.lor (Z.shiftl (Z.b2z (fN f)) 3) (Z.shiftl (Z.b2z (fZ f)) 2))
    (Z.shiftl (Z.b2z (fC f)) 1)) (Z.b2z (fV f)).
Definition no_flags : Flags := mkFlags false false false false.

(** [FetchCache]: [tags] and [pages] of the 16 ways. *)
Record FetchCache := mkFetch { tags : list Z; pages : list (list Z) }.

(** [Aarch64Interp]; [watch], a debug print, is left out. *)
Record Cpu := mkCpu {
  x : list Z; sp : Z; pc : Z; tpidr : Z; cntvct : Z; fpcr : Z; fpsr : Z; flags : Flags;
  v : list Z; excl_monitor : bool; excl_addr : Z; dit : bool; fetch : FetchCache
}.
Definition with_x c x := mkCpu x (sp c) (pc c) (tpidr c) (cntvct c) (fpcr c) (fpsr c) (flags c) (v c) (excl_monitor c) (excl_addr c) (dit c) (fetch c).
Definition with_xsp c sp := mkCpu (x c) sp (pc c) (tpidr c) (cntvct c) (fpcr c) (fpsr c) (flags c) (v c) (excl_monitor c) (excl_addr c) (dit c) (fetch c).
Definition with_pc c pc := mkCpu (x c) (sp c) pc (tpidr c) (cntvct c) (fpcr c) (fpsr c) (flags c) (v c) (excl_monitor c) (excl_addr c) (dit c) (fetch c).
Definition with_tpidr c t := mkCpu (x c) (sp c) (pc c) t (cntvct c) (fpcr c) (fpsr c) (flags c) (v c) (excl_monitor c) (excl_addr c) (dit c) (fetch c).
Definition with_cntvct c t := mkCpu (x c) (sp c) (pc c) (tpidr c) t (fpcr c) (fpsr c) (flags c) (v c) (excl_monitor c) (excl_addr c) (dit c) (fetch c).
Definition with_fpcr c t := mkCpu (x c) (sp c) (pc c) (tpidr c) (cntvct c) t (fpsr c) (flags c) (v c) (excl_monitor c) (excl_addr c) (dit c) (fetch c).
Definition with_fpsr c t := mkCpu (x c) (sp c) (pc c) (tpidr c) (cntvct c) (fpcr c) t (flags c) (v c) (excl_monitor c) (excl_addr c) (dit c) (fetch c).
Definition with_flags c f := mkCpu (x c) (sp c) (pc c) (tpidr c) (cntvct c) (fpcr c) (fpsr c) f (v c) (excl_monitor c) (excl_addr c) (dit c) (fetch c).
Definition with_v c v := mkCpu (x c) (sp c) (pc c) (tpidr c) (cntvct c) (fpcr c) (fpsr c) (flags c) v (excl_monitor c) (excl_addr c) (dit c) (fetch c).
Definition with_excl c m a := mkCpu (x c) (sp c) (pc c) (tpidr c) (cntvct c) (fpcr c) (fpsr c) (flags c) (v c) m a (dit c) (fetch c).
Definition with_dit c d := mkCpu (x c) (sp c) (pc c) (tpidr c) (cntvct c) (fpcr c) (fpsr c) (flags c) (v c) (excl_monitor c) (excl_addr c) d (fetch c).
Definition with_fetch c f := mkCpu (x c) (sp c) (pc c) (tpidr c) (cntvct c) (fpcr c) (fpsr c) (flags c) (v c) (excl_monitor c) (excl_addr c) (dit c) f.

(** Register 31 is the zero register, or the stack pointer. A field is below 32, so the
    array is never indexed past its end. *)
Definition read_x (c : Cpu) (i : Z) : Z := if i =? 31 then 0 else default 0 (x c !! Z.to_nat i).
Definition write_x (c : Cpu) (i val : Z) : Cpu :=
  if i =? 31 then c else with_x c (<[Z.to_nat i := val]> (x c)).
Definition read_sp (c : Cpu) (i : Z) : Z := if i =? 31 then sp c else default 0 (x c !! Z.to_nat i).
Definition write_sp (c : Cpu) (i val : Z) : Cpu :=
  if i =? 31 then with_xsp c val else with_x c (<[Z.to_nat i := val]> (x c)).
(** [self.v[i]]. *)
Definition read_v (c : Cpu) (i : Z) : Z := default 0 (v c !! Z.to_nat i).
Definition write_v (c : Cpu) (i val : Z) : Cpu := with_v c (<[Z.to_nat i := val]> (v c)).

Definition branch (c : Cpu) (offset : Z) : Step * Cpu := (Branched, with_pc c ((pc c + offset) mod U64)).

Definition cond_holds (f : Flags) (cond : Z) : bool :=
  let k := Z.shiftr cond 1 in
  let r :=
    if k =? 0 then fZ f
    else if k =? 1 then fC f
    else if k =? 2 then fN f
    else if k =? 3 then fV f
    else if k =? 4 then fC f && negb (fZ f)
    else if k =? 5 then Bool.eqb (fN f) (fV f)
    else if k =? 6 then Bool.eqb (fN f) (fV f) && negb (fZ f)
    else true in
  if (Z.land cond 1 =? 1) && negb (cond =? 15) then negb r else r.
