(* ===== verification/A64Alu.v ===== *)
(** A64 integer data processing ([src/vcpu/interp/alu.rs]): the immediate and register
    encoding groups. *)
From S2P Require Import Prelude A64.
From stdpp Require Import base numbers list.
Local Open Scope Z_scope.

(** [add_with_carry_flags]: the sum at the operation's width, and NZCV. *)
Definition add_with_carry_flags (c : Cpu) (a b : Z) (carry sf : bool) : Z * Cpu :=
  if sf then
    let sum := a + b + Z.b2z carry in
    let r := sum mod U64 in
    (r, with_flags c (mkFlags (Z.land (Z.shiftr r 63) 1 =? 1) (r =? 0) (negb (Z.shiftr sum 64 =? 0))
          (Z.shiftr (Z.land (Z.lxor a r) (Z.lxor b r)) 63 =? 1)))
  else
    let '(a, b) := (a mod U32, b mod U32) in
    let sum := a + b + Z.b2z carry in
    let r := sum mod U32 in
    (r, with_flags c (mkFlags (Z.land (Z.shiftr r 31) 1 =? 1) (r =? 0) (negb (Z.shiftr sum 32 =? 0))
          (Z.shiftr (Z.land (Z.lxor a r) (Z.lxor b r)) 31 =? 1))).
Definition addsub_flags (c : Cpu) (a b : Z) (sub sf : bool) : Z * Cpu :=
  if sub then add_with_carry_flags c a (not64 b) true sf else add_with_carry_flags c a b false sf.
Definition set_nz (c : Cpu) (r : Z) (sf : bool) : Cpu :=
  let top := if sf then 63 else 31 in
  with_flags c (mkFlags (Z.land (Z.shiftr r top) 1 =? 1) (r =? 0) false false).

(** One class of [exec_dp_imm] each. *)
Definition dp_adr (c : Cpu) (instr : Z) (sf : bool) (rd : Z) : Step * Cpu :=
  let immlo := fld instr 29 3 in
  let immhi := fld instr 5 0x7ffff in
  let imm := sign_extend (Z.lor (Z.shiftl immhi 2) immlo) 21 in
  let r := if sf then (Z.ldiff (pc c) 0xfff + Z.shiftl imm 12) mod U64 else (pc c + imm) mod U64 in
  (Next, write_x c rd r).
Definition dp_addsub_imm (c : Cpu) (instr : Z) (sf : bool) (rd rn : Z) : Step * Cpu :=
  let sub := fbit instr 30 in
  let imm12 := fld instr 10 0xfff in
  let imm := if fbit instr 22 then Z.shiftl imm12 12 else imm12 in
  let a := read_sp c rn in
  if fbit instr 29 then let '(r, c) := addsub_flags c a imm sub sf in (Next, write_x c rd r)
  else
    let r := if sub then (a - imm) mod U64 else (a + imm) mod U64 in
    (Next, write_sp c rd (mask_sf r sf)).
Definition dp_logic_imm (c : Cpu) (instr : Z) (sf : bool) (rd rn : Z) : Step * Cpu :=
  let n := fld instr 22 1 in
  if negb sf && (n =? 1) then (Illegal, c)
  else
    let immr := fld instr 16 0x3f in
    let imms := fld instr 10 0x3f in
    let width := if sf then 64 else 32 in
    match decode_bit_masks n imms immr width true with
    | None => (Illegal, c)
    | Some (imm, _) =>
      let a := read_x c rn in
      let opc := fld instr 29 3 in
      let r := mask_sf (if (opc =? 0) || (opc =? 3) then Z.land a imm
                        else if opc =? 1 then Z.lor a imm else Z.lxor a imm) sf in
      if opc =? 3 then (Next, write_x (set_nz c r sf) rd r) else (Next, write_sp c rd r)
    end.
Definition dp_mov_wide (c : Cpu) (instr : Z) (sf : bool) (rd : Z) : Step * Cpu :=
  let opc := fld instr 29 3 in
  let hw := fld instr 21 3 in
  if (opc =? 1) || (negb sf && (1 <? hw)) then (Illegal, c)
  else
    let shift := hw * 16 in
    let val := shl64 (fld instr 5 0xffff) shift in
    let r := if opc =? 0 then not64 val
             else if opc =? 2 then val
             else Z.lor (Z.land (read_x c rd) (not64 (shl64 0xffff shift))) val in
    (Next, write_x c rd (mask_sf r sf)).
(** What [SBFM] (0), [BFM] (1) and [UBFM] compute from the masks. *)
Definition bitfield (opc src dst imms immr width wmask tmask : Z) : Z :=
  let bot := Z.land (ror_val src immr width) wmask in
  if opc =? 0 then
    let top := if Z.land (Z.shiftr src imms) 1 =? 1 then ones width else 0 in
    Z.lor (Z.land top (not64 tmask)) (Z.land bot tmask)
  else if opc =? 1 then
    Z.lor (Z.land dst (not64 tmask)) (Z.land (Z.lor (Z.land dst (not64 wmask)) bot) tmask)
  else Z.land bot tmask.
Definition dp_bitfield (c : Cpu) (instr : Z) (sf : bool) (rd rn : Z) : Step * Cpu :=
  let opc := fld instr 29 3 in
  let n := fld instr 22 1 in
  let immr := fld instr 16 0x3f in
  let imms := fld instr 10 0x3f in
  if (opc =? 3) || negb (Bool.eqb (n =? 1) sf) || (negb sf && tst (Z.lor immr imms) 0x20) then (Illegal, c)
  else
    let width := if sf then 64 else 32 in
    match decode_bit_masks n imms immr width false with
    | None => (Illegal, c)
    | Some (wmask, tmask) =>
      (Next, write_x c rd (mask_sf (bitfield opc (read_x c rn) (read_x c rd) imms immr width wmask tmask) sf))
    end.
Definition dp_extr (c : Cpu) (instr : Z) (sf : bool) (rd rn : Z) : Step * Cpu :=
  let n := fld instr 22 1 in
  let op21 := fld instr 29 3 in
  let o0 := fld instr 21 1 in
  let imms := fld instr 10 0x3f in
  if negb (op21 =? 0) || negb (o0 =? 0) || negb (Bool.eqb (n =? 1) sf) || (negb sf && (32 <=? imms))
  then (Illegal, c)
  else
    let rm := reg_field instr 16 in
    let hi := read_x c rn in
    let lo := read_x c rm in
    let r := if sf then if imms =? 0 then lo else Z.lor (Z.shiftr lo imms) (shl64 hi (64 - imms))
             else
               let w := Z.lor (shl64 (Z.land hi 0xffffffff) 32) (Z.land lo 0xffffffff) in
               Z.land (Z.shiftr w imms) 0xffffffff in
    (Next, write_x c rd r).

Definition exec_dp_imm (c : Cpu) (instr : Z) : Step * Cpu :=
  let rd := reg_field instr 0 in
  let rn := reg_field instr 5 in
  let sf := Z.shiftr instr 31 =? 1 in
  let cl := fld instr 23 7 in
  if (cl =? 0) || (cl =? 1) then dp_adr c instr sf rd
  else if cl =? 2 then dp_addsub_imm c instr sf rd rn
  else if cl =? 4 then dp_logic_imm c instr sf rd rn
  else if cl =? 5 then dp_mov_wide c instr sf rd
  else if cl =? 6 then dp_bitfield c instr sf rd rn
  else if cl =? 3 then (Illegal, c)
  else dp_extr c instr sf rd rn.

(** [RMIF], [SETF8] and [SETF16]. *)
Definition exec_flagm (c : Cpu) (instr : Z) : Step * Cpu :=
  let rn := reg_field instr 5 in
  if Z.land instr 0xFFE07C10 =? 0xBA000400 then
    let w := rotate_right 64 (read_x c rn) (fld instr 15 0x3f) in
    let mask := Z.land instr 0xf in
    let cur := nzcv (flags c) in
    (Next, with_flags c (from_nzcv (Z.lor (Z.ldiff cur mask) (Z.land w mask))))
  else if Z.land instr 0xFFFFBC1F =? 0x3A00080D then
    let bits := if fbit instr 14 then 16 else 8 in
    let w := read_x c rn in
    let top := Z.land (Z.shiftr w (bits - 1)) 1 =? 1 in
    (Next, with_flags c (mkFlags top (Z.land w (ones bits) =? 0) (fC (flags c))
             (negb (Bool.eqb (Z.land (Z.shiftr w bits) 1 =? 1) top))))
  else (Illegal, c).

(** One class of [exec_dp_reg] each. *)
Definition dp_logic_reg (c : Cpu) (instr : Z) (sf : bool) (rd rn rm : Z) : Step * Cpu :=
  let imm6 := fld instr 10 0x3f in
  if negb sf && (32 <=? imm6) then (Illegal, c)
  else
    let b := shift_reg (read_x c rm) (fld instr 22 3) imm6 sf in
    let b := if fbit instr 21 then mask_sf (not64 b) sf else b in
    let a := read_x c rn in
    let opc := fld instr 29 3 in
    let r := mask_sf (if (opc =? 0) || (opc =? 3) then Z.land a b
                      else if opc =? 1 then Z.lor a b else Z.lxor a b) sf in
    (Next, write_x (if opc =? 3 then set_nz c r sf else c) rd r).
Definition dp_addsub_reg (c : Cpu) (instr : Z) (sf : bool) (rd rn rm : Z) : Step * Cpu :=
  let sub := fbit instr 30 in
  let s := fbit instr 29 in
  if fld instr 21 1 =? 0 then
    let shift := fld instr 22 3 in
    let imm6 := fld instr 10 0x3f in
    if (shift =? 3) || (negb sf && (32 <=? imm6)) then (Illegal, c)
    else
      let a := read_x c rn in
      let b := shift_reg (read_x c rm) shift imm6 sf in
      let '(r, c) := if s then addsub_flags c a b sub sf
                     else if sub then (mask_sf ((a - b) mod U64) sf, c)
                     else (mask_sf ((a + b) mod U64) sf, c) in
      (Next, write_x c rd r)
  else
    let imm3 := fld instr 10 7 in
    if negb (fld instr 22 3 =? 0) || (4 <? imm3) then (Illegal, c)
    else
      let a := read_sp c rn in
      let b := extend_reg (read_x c rm) (fld instr 13 7) imm3 in
      if s then let '(r, c) := addsub_flags c a b sub sf in (Next, write_x c rd r)
      else
        let r := if sub then (a - b) mod U64 else (a + b) mod U64 in
        (Next, write_sp c rd (mask_sf r sf)).
Definition dp_adc (c : Cpu) (instr : Z) (sf : bool) (rd rn rm : Z) : Step * Cpu :=
  if negb (fld instr 10 0x3f =? 0) then exec_flagm c instr
  else
    let a := read_x c rn in
    let b := if fbit instr 30 then not64 (read_x c rm) else read_x c rm in
    let '(r, c) := if fbit instr 29 then add_with_carry_flags c a b (fC (flags c)) sf
                   else (mask_sf ((a + b + Z.b2z (fC (flags c))) mod U64) sf, c) in
    (Next, write_x c rd r).
Definition dp_ccmp (c : Cpu) (instr : Z) (sf : bool) (rn rm : Z) : Step * Cpu :=
  if (fld instr 29 1 =? 0) || negb (fld instr 10 1 =? 0) || negb (fld instr 4 1 =? 0) then (Illegal, c)
  else
    let operand := if fbit instr 11 then fld instr 16 0x1f else read_x c rm in
    if cond_holds (flags c) (fld instr 12 0xf) then
      (Next, (addsub_flags c (read_x c rn) operand (fbit instr 30) sf).2)
    else (Next, with_flags c (from_nzcv (Z.land instr 0xf))).
Definition dp_csel (c : Cpu) (instr : Z) (sf : bool) (rd rn rm : Z) : Step * Cpu :=
  if negb (fld instr 29 1 =? 0) || negb (fld instr 11 1 =? 0) then (Illegal, c)
  else
    let r :=
      if cond_holds (flags c) (fld instr 12 0xf) then read_x c rn
      else
        let m := read_x c rm in
        if fld instr 30 1 =? 0 then if fld instr 10 1 =? 0 then m else (m + 1) mod U64
        else if fld instr 10 1 =? 0 then not64 m else (- m) mod U64 in
    (Next, write_x c rd (mask_sf r sf)).
Definition dp_1src (c : Cpu) (sf : bool) (rd rn rm opcode : Z) : Step * Cpu :=
  if negb (rm =? 0) then (Illegal, c)
  else
    let width := if sf then 64 else 32 in
    let x := mask_sf (read_x c rn) sf in
    let done r := (Next, write_x c rd r) in
    if opcode =? 0 then done (rbit x width)
    else if opcode =? 1 then done (rev16 x width)
    else if opcode =? 2 then done (if sf then rev32 x else swap_bytes 4 (x mod U32))
    else if (opcode =? 3) && sf then done (swap_bytes 8 x)
    else if opcode =? 4 then done (leading_zeros 64 x - (64 - width))
    else if opcode =? 5 then done (cls x width)
    else (Illegal, c).
Definition dp_2src (c : Cpu) (sf : bool) (rd rn rm opcode : Z) : Step * Cpu :=
  let a := read_x c rn in
  let b := read_x c rm in
  let width := if sf then 64 else 32 in
  let done r := (Next, write_x c rd (mask_sf r sf)) in
  if opcode =? 2 then done (udiv a b sf)
  else if opcode =? 3 then done (sdiv a b sf)
  else if (8 <=? opcode) && (opcode <=? 11) then done (shift_reg a (Z.land opcode 3) (b mod width) sf)
  else if (16 <=? opcode) && (opcode <=? 23) then
    let sz := Z.land opcode 3 in
    if negb (Bool.eqb (sz =? 3) sf) then (Illegal, c)
    else
      let poly := if tst opcode 4 then 0x82F63B78 else 0xEDB88320 in
      done (crc32 (a mod U32) b (Z.shiftl 1 sz) poly)
  else (Illegal, c).
Definition dp_3src (c : Cpu) (instr : Z) (sf : bool) (rd rn rm : Z) : Step * Cpu :=
  if negb (fld instr 29 3 =? 0) then (Illegal, c)
  else
    let o0 := fbit instr 15 in
    let n := read_x c rn in
    let m := read_x c rm in
    let a := read_x c (reg_field instr 10) in
    let acc prod := if o0 then (a - prod) mod U64 else (a + prod) mod U64 in
    let op := fld instr 21 7 in
    let done r := (Next, write_x c rd r) in
    if op =? 0 then done (mask_sf (acc (n * m mod U64)) sf)
    else if (op =? 1) && sf then done (acc (as_i32 n * as_i32 m mod U64))
    else if (op =? 5) && sf then done (acc (n mod U32 * (m mod U32)))
    else if (op =? 2) && sf && negb o0 then done (Z.shiftr (as_i64 n * as_i64 m) 64 mod U64)
    else if (op =? 6) && sf && negb o0 then done (Z.shiftr (n * m) 64 mod U64)
    else (Illegal, c).

Definition exec_dp_reg (c : Cpu) (instr : Z) : Step * Cpu :=
  let sf := Z.shiftr instr 31 =? 1 in
  let rd := reg_field instr 0 in
  let rn := reg_field instr 5 in
  let rm := reg_field instr 16 in
  if fld instr 28 1 =? 0 then
    if fld instr 24 1 =? 0 then dp_logic_reg c instr sf rd rn rm else dp_addsub_reg c instr sf rd rn rm
  else
    let k := fld instr 21 0xf in
    if k =? 0 then dp_adc c instr sf rd rn rm
    else if k =? 2 then dp_ccmp c instr sf rn rm
    else if k =? 4 then dp_csel c instr sf rd rn rm
    else if k =? 6 then
      if negb (fld instr 29 1 =? 0) then (Illegal, c)
      else if fbit instr 30 then dp_1src c sf rd rn rm (fld instr 10 0x3f)
      else dp_2src c sf rd rn rm (fld instr 10 0x3f)
    else if 8 <=? k then dp_3src c instr sf rd rn rm
    else (Illegal, c).
