(* ===== verification/A64Mem.v ===== *)
(** The guest memory a vcpu sees, the instruction-fetch cache of [src/vcpu/interp.rs], and the
    A64 branches and system instructions ([src/vcpu/interp/branch.rs]). *)
From S2P Require Import Prelude Iface A64 A64Alu.
From stdpp Require Import base numbers list.
Local Open Scope Z_scope.

(** What a vcpu asks of guest memory: [GuestMemory::read], and [write_trap], which answers the
    address of the fault (or none) and the memory it leaves. *)
Class CpuMem (M : Type) := {
  cm_read : M → Z → Z → option (list Z);
  cm_write : M → Z → list Z → option Z * M;
  cm_read_length m addr len bs : 0 ≤ len → cm_read m addr len = Some bs → Z.of_nat (length bs) = len;
  cm_read_bytes m addr len bs : cm_read m addr len = Some bs → Forall is_byte bs
}.

(** The flat memory of [Iface]: a store outside it, or past the top of the address space, faults
    at its address. *)
Definition fm_store (m : flat_mem) (addr : Z) (bs : list Z) : option Z * flat_mem :=
  if (addr <? 0) || (U64 <? addr + Z.of_nat (length bs)) then (Some addr, m)
  else match fm_write m addr bs with Some m' => (None, m') | None => (Some addr, m) end.
#[export] Instance flat_CpuMem : CpuMem flat_mem := {|
  cm_read := fm_read; cm_write := fm_store;
  cm_read_length := fm_read_length; cm_read_bytes := fm_read_bytes |}.

(** * The fetch cache *)

Definition FETCH_WAYS : Z := 16.
Definition NO_PAGE : Z := 1.
Definition fetch_new : FetchCache := mkFetch (replicate 16 NO_PAGE) (replicate 16 (replicate 4096 0)).
Definition way (page : Z) : Z := Z.shiftr page 12 mod FETCH_WAYS.
Definition fetch_clear (f : FetchCache) : FetchCache := mkFetch (replicate 16 NO_PAGE) (pages f).
Definition page_of (a : Z) : Z := Z.ldiff a 0xfff.
Definition drop_page (f : FetchCache) (p : Z) : FetchCache :=
  let w := Z.to_nat (way p) in
  if default 0 (tags f !! w) =? p then mkFetch (<[w := NO_PAGE]> (tags f)) (pages f) else f.
Definition invalidate (f : FetchCache) (addr nbytes : Z) : FetchCache :=
  let first := page_of addr in
  let last := page_of ((addr + (nbytes - 1)) mod U64) in
  drop_page (drop_page f first) last.
Definition word_at (page : list Z) (off : Z) : Z := le_val (take 4 (drop (Z.to_nat off) page)).
(** [fetch]: the word at [pc], and the cache after it. A page is read whole or not at all. *)
Definition fetch_word `{CpuMem M} (f : FetchCache) (pc : Z) (mem : M) : option Z * FetchCache :=
  let page := page_of pc in
  let w := Z.to_nat (way page) in
  let hit f := (Some (word_at (default [] (pages f !! w)) (Z.land pc 0xfff)), f) in
  if negb (default 0 (tags f !! w) =? page) then
    match cm_read mem page 4096 with
    | None => (le_val <$> cm_read mem pc 4, f)
    | Some bs => hit (mkFetch (<[w := page]> (tags f)) (<[w := bs]> (pages f)))
    end
  else hit f.

(** [note_store] and [invalidate_fetch]. *)
Definition note_store (c : Cpu) (addr nbytes : Z) : Cpu :=
  with_fetch (with_excl c false (excl_addr c)) (invalidate (fetch c) addr nbytes).
Definition invalidate_fetch (c : Cpu) : Cpu := with_fetch c (fetch_clear (fetch c)).

(** * System registers *)

Definition sysreg (op0 op1 crn crm op2 : Z) : Z :=
  Z.lor (Z.lor (Z.lor (Z.lor (Z.shiftl op0 14) (Z.shiftl op1 11)) (Z.shiftl crn 7)) (Z.shiftl crm 3)) op2.
Definition NZCV : Z := Eval vm_compute in sysreg 3 3 4 2 0.
Definition DIT : Z := Eval vm_compute in sysreg 3 3 4 2 5.
Definition FPCR : Z := Eval vm_compute in sysreg 3 3 4 4 0.
Definition FPSR : Z := Eval vm_compute in sysreg 3 3 4 4 1.
Definition TPIDR_EL0 : Z := Eval vm_compute in sysreg 3 3 13 0 2.
Definition TPIDRRO_EL0 : Z := Eval vm_compute in sysreg 3 3 13 0 3.
Definition CTR_EL0 : Z := Eval vm_compute in sysreg 3 3 0 0 1.
Definition DCZID_EL0 : Z := Eval vm_compute in sysreg 3 3 0 0 7.
Definition CNTFRQ_EL0 : Z := Eval vm_compute in sysreg 3 3 14 0 0.
Definition CNTVCT_EL0 : Z := Eval vm_compute in sysreg 3 3 14 0 2.
Definition MIDR_EL1 : Z := Eval vm_compute in sysreg 3 0 0 0 0.
Definition MPIDR_EL1 : Z := Eval vm_compute in sysreg 3 0 0 0 5.
Definition REVIDR_EL1 : Z := Eval vm_compute in sysreg 3 0 0 0 6.
Definition ID_AA64PFR0_EL1 : Z := Eval vm_compute in sysreg 3 0 0 4 0.
Definition ID_AA64DFR0_EL1 : Z := Eval vm_compute in sysreg 3 0 0 5 0.
Definition ID_AA64ISAR0_EL1 : Z := Eval vm_compute in sysreg 3 0 0 6 0.
Definition ID_AA64MMFR0_EL1 : Z := Eval vm_compute in sysreg 3 0 0 7 0.
Definition ID_AA64ISAR1_EL1 : Z := Eval vm_compute in sysreg 3 0 0 6 1.
Definition ID_AA64MMFR2_EL1 : Z := Eval vm_compute in sysreg 3 0 0 7 2.
Definition FPCR_WRITABLE : Z := 0x07C80000.
Definition FPSR_WRITABLE : Z := 0x0800009F.
Definition DC_ZVA_BLOCK_BYTES : Z := 64.

(** The constant registers of [read_sysreg]. *)
Definition const_regs : list (Z * Z) :=
  [(TPIDRRO_EL0, 0); (CTR_EL0, 0x8444C004); (DCZID_EL0, 4); (CNTFRQ_EL0, 1000000000);
   (MIDR_EL1, 0x410FD0C0); (MPIDR_EL1, Z.shiftl 1 31); (REVIDR_EL1, 0);
   (ID_AA64PFR0_EL1, 0x0001000000110011); (ID_AA64ISAR0_EL1, 0x0021100110212120);
   (ID_AA64DFR0_EL1, 6); (ID_AA64MMFR0_EL1, 0xFF000000); (ID_AA64ISAR1_EL1, 0x0010101100211002);
   (ID_AA64MMFR2_EL1, Z.shiftl 1 32)].
Fixpoint const_reg (k : Z) (l : list (Z * Z)) : option Z :=
  match l with [] => None | (k', r) :: l => if k =? k' then Some r else const_reg k l end.
Definition read_sysreg (c : Cpu) (key : Z) : option Z * Cpu :=
  if key =? NZCV then (Some (Z.shiftl (nzcv (flags c)) 28), c)
  else if key =? DIT then (Some (Z.shiftl (Z.b2z (dit c)) 24), c)
  else if key =? FPCR then (Some (fpcr c), c)
  else if key =? FPSR then (Some (fpsr c), c)
  else if key =? TPIDR_EL0 then (Some (tpidr c), c)
  else if key =? CNTVCT_EL0 then
    let n := (cntvct c + 1) mod U64 in (Some n, with_cntvct c n)
  else match const_reg key const_regs with
  | Some r => (Some r, c)
  | None =>
    let m := fld key 3 0xf in
    if (Z.land key 0xff80 =? 0xc000) && (1 <=? m) && (m <=? 7) then (Some 0, c) else (None, c)
  end.
Definition write_sysreg (c : Cpu) (key value : Z) : bool * Cpu :=
  if key =? NZCV then (true, with_flags c (from_nzcv (Z.shiftr value 28)))
  else if key =? DIT then (true, with_dit c (fbit value 24))
  else if key =? FPCR then (true, with_fpcr c (Z.land value FPCR_WRITABLE))
  else if key =? FPSR then (true, with_fpsr c (Z.land value FPSR_WRITABLE))
  else if key =? TPIDR_EL0 then (true, with_tpidr c value)
  else (false, c).

Definition exec_msr_imm (c : Cpu) (op1 crm op2 : Z) : Step * Cpu :=
  let f := flags c in
  if (op1 =? 0) && (op2 =? 0) && (crm =? 0) then (Next, with_flags c (mkFlags (fN f) (fZ f) (negb (fC f)) (fV f)))
  else if (op1 =? 0) && (op2 =? 1) && (crm =? 0) then
    (Next, with_flags c (mkFlags (negb (fC f) && negb (fZ f)) (fZ f && fC f) (fC f || fZ f) (negb (fC f) && fZ f)))
  else if (op1 =? 0) && (op2 =? 2) && (crm =? 0) then
    (Next, with_flags c (mkFlags false (fZ f || fV f) (fC f && negb (fV f)) false))
  else if (op1 =? 3) && (op2 =? 2) then (Next, with_dit c (Z.land crm 1 =? 1))
  else (Illegal, c).

(** * Branches and system instructions *)

Section Mem.
Context `{CpuMem M}.

(** [SYS]: [SYS_DC_ZVA] and the others are [op1:CRn:CRm:op2]. *)
Definition sys_op (op1 crn crm op2 : Z) : Z :=
  Z.lor (Z.lor (Z.lor (Z.shiftl op1 11) (Z.shiftl crn 7)) (Z.shiftl crm 3)) op2.
Definition exec_sys (c : Cpu) (instr : Z) (mem : M) : Step * Cpu * M :=
  let rt := reg_field instr 0 in
  let k := fld instr 5 0x3fff in
  if k =? sys_op 3 7 4 1 then
    let addr := Z.ldiff (read_x c rt) (DC_ZVA_BLOCK_BYTES - 1) in
    let c := note_store c addr DC_ZVA_BLOCK_BYTES in
    match cm_write mem addr (replicate 64 0) with
    | (Some _, mem) => (Fault addr true, c, mem)
    | (None, mem) => (Next, c, mem)
    end
  else if k =? sys_op 3 7 5 1 then (Next, invalidate_fetch c, mem)
  else if existsb (Z.eqb k) [sys_op 3 7 10 1; sys_op 3 7 11 1; sys_op 3 7 14 1; sys_op 3 7 12 1; sys_op 3 7 13 1]
  then (Next, c, mem)
  else (Illegal, c, mem).

Definition exec_barrier (c : Cpu) (op2 crm : Z) : Step * Cpu :=
  if op2 =? 2 then (Next, with_excl c false (excl_addr c))
  else if (op2 =? 4) || (op2 =? 5) then (Next, c)
  else if op2 =? 6 then (Next, invalidate_fetch c)
  else if (op2 =? 7) && (crm =? 0) then (Next, c)
  else (Illegal, c).

Definition exec_system (c : Cpu) (instr : Z) (mem : M) : Step * Cpu * M :=
  if negb (fld instr 22 3 =? 0) then (Illegal, c, mem)
  else
    let l := fld instr 21 1 in
    let op0 := fld instr 19 3 in
    let rt := reg_field instr 0 in
    if op0 =? 0 then
      let op1 := fld instr 16 7 in
      let crn := fld instr 12 0xf in
      let crm := fld instr 8 0xf in
      let op2 := fld instr 5 7 in
      if negb (l =? 0) || negb (rt =? 31) then (Illegal, c, mem)
      else if crn =? 4 then (exec_msr_imm c op1 crm op2, mem)
      else if negb (op1 =? 3) then (Illegal, c, mem)
      else if crn =? 2 then (Next, c, mem)
      else if crn =? 3 then (exec_barrier c op2 crm, mem)
      else (Illegal, c, mem)
    else if op0 =? 1 then if negb (l =? 0) then (Illegal, c, mem) else exec_sys c instr mem
    else
      let key := fld instr 5 0xffff in
      if l =? 1 then
        match read_sysreg c key with
        | (None, c) => (Illegal, c, mem)
        | (Some r, c) => (Next, write_x c rt r, mem)
        end
      else match write_sysreg c key (read_x c rt) with
           | (false, c) => (Illegal, c, mem)
           | (true, c) => (Next, c, mem)
           end.

Definition exec_branch_reg (c : Cpu) (instr : Z) : Step * Cpu :=
  if negb (Z.land instr 0xFE1FFC1F =? 0xD61F0000) then (Illegal, c)
  else
    let target := read_x c (reg_field instr 5) in
    let k := fld instr 21 0xf in
    if (k =? 0) || (k =? 2) then (Branched, with_pc c target)
    else if k =? 1 then (Branched, with_pc (with_x c (<[30%nat := (pc c + 4) mod U64]> (x c))) target)
    else (Illegal, c).

Definition exec_branch_sys (c : Cpu) (instr : Z) (mem : M) : Step * Cpu * M :=
  let k := Z.shiftr instr 29 in
  if (k =? 0) || (k =? 4) then
    let c := if Z.shiftr instr 31 =? 1 then with_x c (<[30%nat := (pc c + 4) mod U64]> (x c)) else c in
    (branch c (Z.shiftl (sign_extend (Z.land instr 0x03ffffff) 26) 2), mem)
  else if (k =? 1) || (k =? 5) then
    let rt := reg_field instr 0 in
    let nonzero := fbit instr 24 in
    let taken :=
      if fld instr 25 1 =? 0 then
        let w := read_x c rt in
        let w := if Z.shiftr instr 31 =? 1 then w else Z.land w 0xffffffff in
        Bool.eqb (negb (w =? 0)) nonzero
      else
        let bit := Z.lor (Z.shiftl (Z.shiftr instr 31) 5) (fld instr 19 0x1f) in
        Bool.eqb (fbit (read_x c rt) bit) nonzero in
    if taken then
      let off := if fld instr 25 1 =? 0 then Z.shiftl (sign_extend (fld instr 5 0x7ffff) 19) 2
                 else Z.shiftl (sign_extend (fld instr 5 0x3fff) 14) 2 in
      (branch c off, mem)
    else (Next, c, mem)
  else if k =? 2 then
    if negb (fld instr 24 3 =? 0) || negb (fld instr 4 1 =? 0) then (Illegal, c, mem)
    else if cond_holds (flags c) (Z.land instr 0xf) then
      (branch c (Z.shiftl (sign_extend (fld instr 5 0x7ffff) 19) 2), mem)
    else (Next, c, mem)
  else if k =? 6 then
    let g := fld instr 24 3 in
    if g =? 0 then
      if Z.land instr 0xFFE0001F =? 0xD4000001 then (Syscall, c, mem)
      else if Z.land instr 0xFFE0001F =? 0xD4200000 then (Breakpoint (fld instr 5 0xffff), c, mem)
      else (Illegal, c, mem)
    else if g =? 1 then exec_system c instr mem
    else (exec_branch_reg c instr, mem)
  else (Illegal, c, mem).
End Mem.
