(* ===== verification/A64Ldst.v ===== *)
(** A64 loads and stores ([src/vcpu/interp/ldst.rs]), the dispatcher and the run loop
    ([src/vcpu/interp.rs]). *)
From S2P Require Import Prelude A64 A64Alu A64Mem.
From stdpp Require Import base numbers list.
Local Open Scope Z_scope.

Inductive GprOp := Store | Load | LoadSx64 | LoadSx32 | Prefetch.
Definition gpr_op (size opc : Z) (prefetch_ok : bool) : option GprOp :=
  if opc =? 0 then Some Store
  else if opc =? 1 then Some Load
  else if (size =? 3) && (opc =? 2) && prefetch_ok then Some Prefetch
  else if (size <=? 2) && (opc =? 2) then Some LoadSx64
  else if (size <=? 1) && (opc =? 3) then Some LoadSx32
  else None.
Definition fp_op (size opc : Z) : option (Z * bool) :=
  if Z.land opc 2 =? 0 then Some (size, Z.land opc 1 =? 1)
  else if size =? 0 then Some (4, Z.land opc 1 =? 1)
  else None.

Inductive Addr :=
  | Unsigned (imm : Z) | Unscaled (imm : Z) | Unprivileged (imm : Z)
  | Pre (imm : Z) | Post (imm : Z) | Register.
Definition crosses_granule (addr bytes : Z) : bool := 16 <? Z.land addr 15 + bytes.

(** The low [n] bytes of a register. *)
Definition low_bytes (n val : Z) : list Z := le_bytes (Z.to_nat n) val.

Section Ldst.
Context `{CpuMem M}.

(** A zero-extended read, and a write through [note_store] that answers the fault address. *)
Definition mem_read_sized (mem : M) (addr nbytes : Z) : option Z := le_val <$> cm_read mem addr nbytes.
Definition store_bytes (c : Cpu) (mem : M) (addr : Z) (bs : list Z) : option Z * Cpu * M :=
  let c := note_store c addr (Z.of_nat (length bs)) in
  let '(e, mem) := cm_write mem addr bs in (e, c, mem).

Definition load_x (c : Cpu) (addr scale rt sx : Z) (mem : M) : Step * Cpu * M :=
  match cm_read mem addr (Z.shiftl 1 scale) with
  | None => (Fault addr false, c, mem)
  | Some bs =>
    let raw := le_val bs in
    let val := if sx =? 0 then raw
               else if sx =? 64 then sign_extend raw (Z.shiftl 8 scale) mod U64
               else Z.land (sign_extend raw (Z.shiftl 8 scale) mod U64) 0xffffffff in
    (Next, write_x c rt val, mem)
  end.
Definition store_x (c : Cpu) (addr scale rt : Z) (mem : M) : Step * Cpu * M :=
  match store_bytes c mem addr (low_bytes (Z.shiftl 1 scale) (read_x c rt)) with
  | (Some a, c, mem) => (Fault a true, c, mem)
  | (None, c, mem) => (Next, c, mem)
  end.
Definition ldst_vec (c : Cpu) (addr scale : Z) (is_load : bool) (rt : Z) (mem : M) : Step * Cpu * M :=
  let nbytes := Z.shiftl 1 scale in
  if is_load then
    match cm_read mem addr nbytes with
    | None => (Fault addr false, c, mem)
    | Some bs => (Next, write_v c rt (le_val bs), mem)
    end
  else match store_bytes c mem addr (low_bytes nbytes (read_v c rt)) with
       | (Some a, c, mem) => (Fault a true, c, mem)
       | (None, c, mem) => (Next, c, mem)
       end.

(** [exec_single]: the decoded access, the address and the writeback. *)
Definition single_op (instr : Z) (mode : Addr) : option (Z * GprOp) :=
  let size := Z.shiftr instr 30 in
  let opc := fld instr 22 3 in
  if fbit instr 26 then
    match mode with
    | Unprivileged _ => None
    | _ => match fp_op size opc with
           | None => None
           | Some (scale, load) => Some (scale, if load then Load else Store)
           end
    end
  else
    let prefetch_ok := match mode with Unsigned _ | Unscaled _ | Register => true | _ => false end in
    match gpr_op size opc prefetch_ok with None => None | Some op => Some (size, op) end.
Definition single_addr (c : Cpu) (instr scale base : Z) (mode : Addr) : option (Z * option Z) :=
  match mode with
  | Unsigned imm => Some ((base + shl64 imm scale) mod U64, None)
  | Unscaled imm | Unprivileged imm => Some ((base + imm) mod U64, None)
  | Pre imm => let a := (base + imm) mod U64 in Some (a, Some a)
  | Post imm => Some (base, Some ((base + imm) mod U64))
  | Register =>
    let option := fld instr 13 7 in
    if Z.land option 2 =? 0 then None
    else
      let shift := if fbit instr 12 then scale else 0 in
      let off := extend_reg (read_x c (reg_field instr 16)) option shift in
      Some ((base + off) mod U64, None)
  end.
Definition exec_single (c : Cpu) (instr : Z) (mem : M) (mode : Addr) : Step * Cpu * M :=
  let rt := reg_field instr 0 in
  let rn := reg_field instr 5 in
  match single_op instr mode with
  | None => (Illegal, c, mem)
  | Some (scale, op) =>
    match single_addr c instr scale (read_sp c rn) mode with
    | None => (Illegal, c, mem)
    | Some (addr, wback) =>
      let '(step, c, mem) :=
        if fbit instr 26 then ldst_vec c addr scale (match op with Load => true | _ => false end) rt mem
        else match op with
             | Prefetch => (Next, c, mem)
             | Store => store_x c addr scale rt mem
             | Load => load_x c addr scale rt 0 mem
             | LoadSx64 => load_x c addr scale rt 64 mem
             | LoadSx32 => load_x c addr scale rt 32 mem
             end in
      match step, wback with
      | Next, Some a => (Next, write_sp c rn a, mem)
      | _, _ => (step, c, mem)
      end
    end
  end.

Definition exec_literal (c : Cpu) (instr : Z) (mem : M) : Step * Cpu * M :=
  let opc := Z.shiftr instr 30 in
  let rt := reg_field instr 0 in
  let addr := (pc c + Z.shiftl (sign_extend (fld instr 5 0x7ffff) 19) 2) mod U64 in
  if fbit instr 26 then
    if opc =? 3 then (Illegal, c, mem) else ldst_vec c addr (opc + 2) true rt mem
  else if opc =? 0 then load_x c addr 2 rt 0 mem
  else if opc =? 1 then load_x c addr 3 rt 0 mem
  else if opc =? 2 then load_x c addr 2 rt 64 mem
  else (Next, c, mem).

Definition pair_scale (opc mode : Z) (vector load : bool) : option (Z * bool) :=
  if vector then if opc =? 3 then None else Some (opc + 2, false)
  else if opc =? 0 then Some (2, false)
  else if (opc =? 1) && load && negb (mode =? 0) then Some (2, true)
  else if opc =? 2 then Some (3, false)
  else None.
Definition exec_pair (c : Cpu) (instr : Z) (mem : M) : Step * Cpu * M :=
  let opc := Z.shiftr instr 30 in
  let vector := fbit instr 26 in
  let mode := fld instr 23 3 in
  let load := fbit instr 22 in
  let rt := reg_field instr 0 in
  let rt2 := reg_field instr 10 in
  let rn := reg_field instr 5 in
  match pair_scale opc mode vector load with
  | None => (Illegal, c, mem)
  | Some (scale, sx) =>
    let off := Z.shiftl (sign_extend (fld instr 15 0x7f) 7) scale mod U64 in
    let base := read_sp c rn in
    let addr := if mode =? 1 then base else (base + off) mod U64 in
    let nbytes := Z.shiftl 1 scale in
    let finish c :=
      if mode =? 1 then write_sp c rn ((base + off) mod U64)
      else if mode =? 3 then write_sp c rn addr else c in
    if load then
      match cm_read mem addr (2 * nbytes) with
      | None => (Fault addr false, c, mem)
      | Some buf =>
        let a := le_val (take (Z.to_nat nbytes) buf) in
        let b := le_val (drop (Z.to_nat nbytes) buf) in
        let c :=
          if vector then write_v (write_v c rt a) rt2 b
          else if sx then write_x (write_x c rt (sign_extend a 32 mod U64)) rt2 (sign_extend b 32 mod U64)
          else write_x (write_x c rt a) rt2 b in
        (Next, finish c, mem)
      end
    else
      let '(a, b) := if vector then (read_v c rt, read_v c rt2) else (read_x c rt, read_x c rt2) in
      match store_bytes c mem addr (low_bytes nbytes a ++ low_bytes nbytes b) with
      | (Some e, c, mem) => (Fault e true, c, mem)
      | (None, c, mem) => (Next, finish c, mem)
      end
  end.

Definition open_monitor (c : Cpu) (addr : Z) : Cpu := with_excl c true addr.
Definition excl_check (c : Cpu) (addr : Z) : bool * Cpu :=
  (excl_monitor c && (excl_addr c =? addr), with_excl c false (excl_addr c)).

Definition cas_single (c : Cpu) (addr nbytes rs rt : Z) (mem : M) : Step * Cpu * M :=
  match mem_read_sized mem addr nbytes with
  | None => (Fault addr false, c, mem)
  | Some old =>
    if old =? Z.land (read_x c rs) (ones (nbytes * 8)) then
      match store_bytes c mem addr (low_bytes nbytes (read_x c rt)) with
      | (Some _, c, mem) => (Fault addr true, c, mem)
      | (None, c, mem) => (Next, write_x c rs old, mem)
      end
    else (Next, write_x c rs old, mem)
  end.
Definition cas_pair (c : Cpu) (addr nbytes rs rt : Z) (mem : M) : Step * Cpu * M :=
  match mem_read_sized mem addr nbytes with
  | None => (Fault addr false, c, mem)
  | Some old0 =>
    let addr2 := (addr + nbytes) mod U64 in
    match mem_read_sized mem addr2 nbytes with
    | None => (Fault addr2 false, c, mem)
    | Some old1 =>
      let mask := ones (nbytes * 8) in
      let finish c := write_x (write_x c rs old0) (rs + 1) old1 in
      if (old0 =? Z.land (read_x c rs) mask) && (old1 =? Z.land (read_x c (rs + 1)) mask) then
        match store_bytes c mem addr (low_bytes nbytes (read_x c rt) ++ low_bytes nbytes (read_x c (rt + 1))) with
        | (Some e, c, mem) => (Fault e true, c, mem)
        | (None, c, mem) => (Next, finish c, mem)
        end
      else (Next, finish c, mem)
    end
  end.
Definition swp (c : Cpu) (addr nbytes rs rt : Z) (mem : M) : Step * Cpu * M :=
  match mem_read_sized mem addr nbytes with
  | None => (Fault addr false, c, mem)
  | Some old =>
    match store_bytes c mem addr (low_bytes nbytes (read_x c rs)) with
    | (Some _, c, mem) => (Fault addr true, c, mem)
    | (None, c, mem) => (Next, write_x c rt old, mem)
    end
  end.
(** The eight operations of [ld_op] at [bits] wide operands. *)
Definition atomic_op (op old s bits : Z) : Z :=
  if op =? 0 then Z.land ((old + s) mod U64) (ones bits)
  else if op =? 1 then Z.land old (not64 s)
  else if op =? 2 then Z.lxor old s
  else if op =? 3 then Z.lor old s
  else if op =? 4 then if sign_extend s bits <=? sign_extend old bits then old else s
  else if op =? 5 then if sign_extend old bits <=? sign_extend s bits then old else s
  else if op =? 6 then Z.max old s
  else Z.min old s.
Definition ld_op (c : Cpu) (addr nbytes rs rt op : Z) (mem : M) : Step * Cpu * M :=
  match mem_read_sized mem addr nbytes with
  | None => (Fault addr false, c, mem)
  | Some old =>
    let bits := nbytes * 8 in
    let s := Z.land (read_x c rs) (ones bits) in
    match store_bytes c mem addr (low_bytes nbytes (atomic_op op old s bits)) with
    | (Some _, c, mem) => (Fault addr true, c, mem)
    | (None, c, mem) => (Next, write_x c rt old, mem)
    end
  end.

(** [exec_exclusive]: its two exclusive forms, then the dispatch. *)
Definition excl_single (c : Cpu) (addr size rs rt : Z) (load : bool) (mem : M) : Step * Cpu * M :=
  let nbytes := Z.shiftl 1 size in
  if load then
    match mem_read_sized mem addr nbytes with
    | None => (Fault addr false, c, mem)
    | Some val => (Next, open_monitor (write_x c rt val) addr, mem)
    end
  else
    let '(ok, c) := excl_check c addr in
    if ok then
      match store_bytes c mem addr (low_bytes nbytes (read_x c rt)) with
      | (Some _, c, mem) => (Fault addr true, c, mem)
      | (None, c, mem) => (Next, write_x c rs 0, mem)
      end
    else (Next, write_x c rs 1, mem).
Definition excl_pair (c : Cpu) (addr size rs rt rt2 : Z) (load : bool) (mem : M) : Step * Cpu * M :=
  let nbytes := Z.shiftl 1 size in
  if load then
    match mem_read_sized mem addr nbytes with
    | None => (Fault addr false, c, mem)
    | Some a =>
      let addr2 := (addr + nbytes) mod U64 in
      match mem_read_sized mem addr2 nbytes with
      | None => (Fault addr2 false, c, mem)
      | Some b => (Next, open_monitor (write_x (write_x c rt a) rt2 b) addr, mem)
      end
    end
  else
    let '(ok, c) := excl_check c addr in
    if ok then
      match store_bytes c mem addr (low_bytes nbytes (read_x c rt) ++ low_bytes nbytes (read_x c rt2)) with
      | (Some e, c, mem) => (Fault e true, c, mem)
      | (None, c, mem) => (Next, write_x c rs 0, mem)
      end
    else (Next, write_x c rs 1, mem).
Definition excl_unallocated (o2 o1 o0 size rs rt rt2 : Z) : bool :=
  if (o2 =? 1) && (o1 =? 0) then o0 =? 0
  else if (o2 =? 1) && (o1 =? 1) then negb (rt2 =? 31)
  else if (o2 =? 0) && (o1 =? 1) && (size <? 2) then
    negb (Z.land rs 1 =? 0) || negb (Z.land rt 1 =? 0) || negb (rt2 =? 31)
  else false.
Definition excl_bytes (o2 o1 size : Z) : Z :=
  if (o1 =? 1) && ((o2 =? 1) || (size <? 2)) then
    if o2 =? 1 then Z.shiftl 1 size else Z.shiftl 8 (Z.land size 1)
  else if o1 =? 1 then Z.shiftl 2 size
  else Z.shiftl 1 size.
Definition exec_exclusive (c : Cpu) (instr : Z) (mem : M) : Step * Cpu * M :=
  let size := Z.shiftr instr 30 in
  let o2 := fld instr 23 1 in
  let load := fbit instr 22 in
  let o1 := fld instr 21 1 in
  let o0 := fld instr 15 1 in
  let rs := reg_field instr 16 in
  let rt2 := reg_field instr 10 in
  let rn := reg_field instr 5 in
  let rt := reg_field instr 0 in
  let addr := read_sp c rn in
  if excl_unallocated o2 o1 o0 size rs rt rt2 then (Illegal, c, mem)
  else if crosses_granule addr (excl_bytes o2 o1 size) then (Misaligned addr (negb load), c, mem)
  else if o2 =? 0 then
    if o1 =? 0 then excl_single c addr size rs rt load mem
    else if 2 <=? size then excl_pair c addr size rs rt rt2 load mem
    else cas_pair c addr (if Z.land size 1 =? 1 then 8 else 4) rs rt mem
  else if o1 =? 0 then
    if load then load_x c addr size rt 0 mem else store_x c addr size rt mem
  else cas_single c addr (Z.shiftl 1 size) rs rt mem.

Definition exec_rcpc2 (c : Cpu) (instr : Z) (mem : M) : Step * Cpu * M :=
  let size := Z.shiftr instr 30 in
  let opc := fld instr 22 3 in
  let rt := reg_field instr 0 in
  let imm9 := sign_extend (fld instr 12 0x1ff) 9 in
  let addr := (read_sp c (reg_field instr 5) + imm9) mod U64 in
  if (2 <=? opc) && ((size =? 3) || ((size =? 2) && (opc =? 3))) then (Illegal, c, mem)
  else if crosses_granule addr (Z.shiftl 1 size) then (Misaligned addr (opc =? 0), c, mem)
  else if opc =? 0 then store_x c addr size rt mem
  else if opc =? 1 then load_x c addr size rt 0 mem
  else if opc =? 2 then load_x c addr size rt 64 mem
  else load_x c addr size rt 32 mem.

Definition exec_atomic (c : Cpu) (instr : Z) (mem : M) : Step * Cpu * M :=
  let size := Z.shiftr instr 30 in
  let nbytes := Z.shiftl 1 size in
  let rs := reg_field instr 16 in
  let rn := reg_field instr 5 in
  let rt := reg_field instr 0 in
  let o3 := fld instr 15 1 in
  let opc := fld instr 12 7 in
  let ldapr := (o3 =? 1) && (opc =? 4) && (fld instr 22 3 =? 2) && (rs =? 31) in
  if (o3 =? 1) && negb (opc =? 0) && negb ldapr then (Illegal, c, mem)
  else
    let addr := read_sp c rn in
    if crosses_granule addr nbytes then (Misaligned addr (negb ldapr), c, mem)
    else if o3 =? 0 then ld_op c addr nbytes rs rt opc mem
    else if opc =? 0 then swp c addr nbytes rs rt mem
    else load_x c addr size rt 0 mem.

(** [exec_simd_struct], single structure: the element's log size, whether it is replicated, and
    its lane. *)
Definition lane_of (opcode size : Z) (q load : bool) : option (Z * bool * Z) :=
  let opc3 := Z.shiftr opcode 1 in
  let s := Z.land opcode 1 in
  let scale := Z.shiftr opc3 1 in
  let q := Z.b2z q in
  if scale =? 3 then if negb load || negb (s =? 0) then None else Some (size, true, 0)
  else if scale =? 0 then Some (0, false, Z.lor (Z.lor (Z.shiftl q 3) (Z.shiftl s 2)) size)
  else if scale =? 1 then
    if negb (Z.land size 1 =? 0) then None
    else Some (1, false, Z.lor (Z.lor (Z.shiftl q 2) (Z.shiftl s 1)) (Z.shiftr size 1))
  else if negb (Z.land size 2 =? 0) then None
  else if Z.land size 1 =? 0 then Some (2, false, Z.lor (Z.shiftl q 1) s)
  else if negb (s =? 0) then None
  else Some (3, false, q).
Definition not128 (w : Z) : Z := Z.lxor w (2 ^ 128 - 1).
Definition chunk (n k : nat) (buf : list Z) : list Z := take n (drop (k * n) buf).
(** The loop over the elements of one structure, loading. *)
Definition set_lane (c : Cpu) (t elem esize index : Z) (q rep : bool) : Cpu :=
  if rep then
    let lanes := if q then 128 / esize else 64 / esize in
    write_v c t (foldl (λ w i, Z.lor w (Z.shiftl elem (i * esize) mod 2 ^ 128)) 0 (seqZ 0 lanes))
  else
    let sh := index * esize in
    write_v c t (Z.lor (Z.land (read_v c t) (not128 (Z.shiftl (ones esize) sh mod 2 ^ 128)))
                   (Z.shiftl elem sh mod 2 ^ 128)).
Definition struct_post (c : Cpu) (post : bool) (rn rm addr total : Z) : Cpu :=
  if post then write_sp c rn ((addr + (if rm =? 31 then total else read_x c rm)) mod U64) else c.

Definition simd_single (c : Cpu) (instr opcode size rn rm rt addr : Z) (q load post : bool) (mem : M)
    : Step * Cpu * M :=
  let selem := Z.lor (Z.shiftl (Z.land (Z.shiftr opcode 1) 1) 1) (fld instr 21 1) + 1 in
  match lane_of opcode size q load with
  | None => (Illegal, c, mem)
  | Some (scale, rep, index) =>
    let ebytes := Z.shiftl 1 scale in
    let total := ebytes * selem in
    let esize := 8 * ebytes in
    if load then
      match cm_read mem addr total with
      | None => (Fault addr false, c, mem)
      | Some buf =>
        let c := foldl (λ c s, set_lane c ((rt + s) mod 32)
                           (le_val (chunk (Z.to_nat ebytes) (Z.to_nat s) buf)) esize index q rep)
                   c (seqZ 0 selem) in
        (Next, struct_post c post rn rm addr total, mem)
      end
    else
      let buf := seqZ 0 selem ≫= λ s,
        low_bytes ebytes (Z.land (Z.shiftr (read_v c ((rt + s) mod 32)) (index * esize)) (ones esize)) in
      match store_bytes c mem addr buf with
      | (Some e, c, mem) => (Fault e true, c, mem)
      | (None, c, mem) => (Next, struct_post c post rn rm addr total, mem)
      end
  end.

(** Multiple structures: the loops over repeats, elements and structure members. *)
Definition struct_shape (opcode : Z) : option (nat * nat) :=
  if opcode =? 0 then Some (1, 4)%nat else if opcode =? 2 then Some (4, 1)%nat
  else if opcode =? 4 then Some (1, 3)%nat else if opcode =? 6 then Some (3, 1)%nat
  else if opcode =? 7 then Some (1, 1)%nat else if opcode =? 8 then Some (1, 2)%nat
  else if opcode =? 10 then Some (2, 1)%nat else None.
Definition struct_order (rpt elements selem : nat) : list (nat * nat * nat) :=
  seq 0 rpt ≫= λ r, seq 0 elements ≫= λ e, (λ s, (r, e, s)) <$> seq 0 selem.
Fixpoint deinterleave (ebytes : nat) (buf : list Z) (order : list (nat * nat * nat)) (regs : list (list Z))
    : list (list Z) :=
  match order with
  | [] => regs
  | (r, e, s) :: order =>
    deinterleave ebytes (drop ebytes buf) order
      (alter (list_inserts (e * ebytes) (take ebytes buf)) (r + s)%nat regs)
  end.
Definition simd_multiple (c : Cpu) (opcode size rn rm rt addr : Z) (q load post : bool) (mem : M)
    : Step * Cpu * M :=
  match struct_shape opcode with
  | None => (Illegal, c, mem)
  | Some (rpt, selem) =>
    if (size =? 3) && negb q && negb (selem =? 1)%nat then (Illegal, c, mem)
    else
      let ebytes := Z.to_nat (Z.shiftl 1 size) in
      let regbytes := if q then 16%nat else 8%nat in
      let elements := (regbytes / ebytes)%nat in
      let total := Z.of_nat (rpt * selem * regbytes) in
      let order := struct_order rpt elements selem in
      if load then
        match cm_read mem addr total with
        | None => (Fault addr false, c, mem)
        | Some buf =>
          let regs := deinterleave ebytes buf order (replicate 4 (replicate 16 0)) in
          let c := foldl (λ c i, write_v c ((rt + Z.of_nat i) mod 32) (le_val (default [] (regs !! i))))
                     c (seq 0 (rpt `max` selem)) in
          (Next, struct_post c post rn rm addr total, mem)
        end
      else
        let buf := order ≫= λ '(r, e, s),
          chunk ebytes e (low_bytes 16 (read_v c ((rt + Z.of_nat r + Z.of_nat s) mod 32))) in
        match store_bytes c mem addr buf with
        | (Some e, c, mem) => (Fault e true, c, mem)
        | (None, c, mem) => (Next, struct_post c post rn rm addr total, mem)
        end
  end.
Definition exec_simd_struct (c : Cpu) (instr : Z) (mem : M) : Step * Cpu * M :=
  if negb (Z.shiftr instr 31 =? 0) then (Illegal, c, mem)
  else
    let q := fbit instr 30 in
    let post := fbit instr 23 in
    let single := fbit instr 24 in
    let load := fbit instr 22 in
    let rm := reg_field instr 16 in
    let opcode := fld instr 12 0xf in
    let size := fld instr 10 3 in
    let rn := reg_field instr 5 in
    let rt := reg_field instr 0 in
    if (negb post && negb (rm =? 0)) || (negb single && negb (fld instr 21 1 =? 0)) then (Illegal, c, mem)
    else
      let addr := read_sp c rn in
      if single then simd_single c instr opcode size rn rm rt addr q load post mem
      else simd_multiple c opcode size rn rm rt addr q load post mem.

Definition exec_ldst (c : Cpu) (instr : Z) (mem : M) : Step * Cpu * M :=
  let vector := fbit instr 26 in
  let g := fld instr 28 3 in
  if (fld instr 5 0x1f =? 31) && negb (Z.land (sp c) 15 =? 0)
     && negb ((g =? 1) && (fld instr 24 1 =? 0))
     && negb (Z.land instr 0xFFC00000 =? 0xF9800000)
     && negb (Z.land instr 0xFFC00000 =? 0xF8800000)
  then (Misaligned (sp c) false, c, mem)
  else if g =? 0 then
    if vector then exec_simd_struct c instr mem
    else if fld instr 24 1 =? 0 then exec_exclusive c instr mem
    else (Illegal, c, mem)
  else if g =? 1 then
    if fld instr 24 1 =? 0 then exec_literal c instr mem
    else if negb vector && (fld instr 21 1 =? 0) && (fld instr 10 3 =? 0) then exec_rcpc2 c instr mem
    else (Illegal, c, mem)
  else if g =? 2 then exec_pair c instr mem
  else if fbit instr 24 then exec_single c instr mem (Unsigned (fld instr 10 0xfff))
  else
    let k := fld instr 10 3 in
    if fld instr 21 1 =? 0 then
      let imm9 := sign_extend (fld instr 12 0x1ff) 9 in
      exec_single c instr mem
        (if k =? 0 then Unscaled imm9 else if k =? 1 then Post imm9
         else if k =? 2 then Unprivileged imm9 else Pre imm9)
    else if (k =? 0) && negb vector then exec_atomic c instr mem
    else if k =? 2 then exec_single c instr mem Register
    else (Illegal, c, mem).
End Ldst.

(** * The dispatcher and the run loop *)

Section Run.
Context `{CpuMem M}.
(** [exec_simd_fp] (scalar floating point and Advanced SIMD arithmetic), which is not
    translated, and the clock the run loop polls ([yield_due], the quantum). *)
Context (simd_fp : Cpu → Z → Step * Cpu) (due : nat → bool).

Definition exec (c : Cpu) (instr : Z) (mem : M) : Step * Cpu * M :=
  let op0 := fld instr 25 0xf in
  if (op0 =? 8) || (op0 =? 9) then (exec_dp_imm c instr, mem)
  else if (op0 =? 4) || (op0 =? 6) || (op0 =? 12) || (op0 =? 14) then exec_ldst c instr mem
  else if (op0 =? 5) || (op0 =? 13) then (exec_dp_reg c instr, mem)
  else if (op0 =? 10) || (op0 =? 11) then exec_branch_sys c instr mem
  else if (op0 =? 7) || (op0 =? 15) then (simd_fp c instr, mem)
  else (Illegal, c, mem).

Inductive Exit :=
  | Interrupted | ExitSyscall | IllegalInstruction (pc : Z)
  | MemFault (addr : Z) (write : bool) | ExitBreakpoint (pc code : Z) | ExitMisaligned (addr : Z) (write : bool).

Definition MAX_STEPS : Z := 50000000.
(** One iteration: [inl] returns. *)
Definition run_step (c : Cpu) (mem : M) : (Exit * Cpu * M) + (Cpu * M) :=
  if negb (Z.land (pc c) 3 =? 0) then inl (ExitMisaligned (pc c) false, c, mem)
  else
    let '(w, f) := fetch_word (fetch c) (pc c) mem in
    let c := with_fetch c f in
    match w with
    | None => inl (MemFault (pc c) false, c, mem)
    | Some instr =>
      let '(step, c, mem) := exec c instr mem in
      match step with
      | Next => inr (with_pc c ((pc c + 4) mod U64), mem)
      | Branched => inr (c, mem)
      | Syscall => inl (ExitSyscall, c, mem)
      | Illegal => inl (IllegalInstruction (pc c), c, mem)
      | Fault a w => inl (MemFault a w, c, mem)
      | Breakpoint imm => inl (ExitBreakpoint (pc c) imm, c, mem)
      | Misaligned a w => inl (ExitMisaligned a w, c, mem)
      end
    end.
(** [for i in 0..MAX_STEPS]; [fuel] iterations remain, and [i] is the iteration's number. *)
Fixpoint vcpu_run_loop (fuel i : nat) (c : Cpu) (mem : M) : Exit * Cpu * M :=
  match fuel with
  | O => (Interrupted, c, mem)
  | S fuel =>
    if (Z.land (Z.of_nat i) 4095 =? 4095) && due i then (Interrupted, c, mem)
    else match run_step c mem with
         | inl r => r
         | inr (c, mem) => vcpu_run_loop fuel (S i) c mem
         end
  end.
Definition vcpu_run (c : Cpu) (mem : M) : Exit * Cpu * M :=
  let c := with_excl c false (excl_addr c) in
  vcpu_run_loop (Z.to_nat MAX_STEPS) 0 (with_fetch c (fetch_clear (fetch c))) mem.
End Run.

(** * The [Vcpu] interface *)

Definition cpu_new (entry stack : Z) : Cpu :=
  mkCpu (replicate 31 0) stack entry 0 0 0 0 no_flags (replicate 32 0) false 0 false fetch_new.
Definition syscall_nr (c : Cpu) : Z := default 0 (x c !! 8%nat).
Definition syscall_args (c : Cpu) : list Z := take 6 (x c).
Definition set_syscall_ret (c : Cpu) (value : Z) : Cpu :=
  with_pc (with_x c (<[0%nat := value]> (x c))) ((pc c + 4) mod U64).
Definition reg (c : Cpu) (idx : Z) : Z := if idx <? 31 then default 0 (x c !! Z.to_nat idx) else sp c.
Definition set_reg (c : Cpu) (idx value : Z) : Cpu :=
  if idx <? 31 then with_x c (<[Z.to_nat idx := value]> (x c)) else with_xsp c value.
Definition rflags (c : Cpu) : Z := Z.lor (Z.shiftl (nzcv (flags c)) 28) (Z.shiftl (Z.b2z (dit c)) 24).
Definition set_rflags (c : Cpu) (value : Z) : Cpu :=
  with_dit (with_flags c (from_nzcv (Z.shiftr value 28 mod U32))) (fbit value 24).
Definition simd_state (c : Cpu) : list Z :=
  le_bytes 4 (fpsr c mod U32) ++ le_bytes 4 (fpcr c mod U32) ++ (v c ≫= le_bytes 16).
Fixpoint read_vregs (n : nat) (bytes : list Z) : list Z :=
  match n with O => [] | S n => le_val (take 16 bytes) :: read_vregs n (drop 16 bytes) end.
Definition set_simd_state (c : Cpu) (bytes : list Z) : Cpu :=
  if Z.of_nat (length bytes) <? 8 + 32 * 16 then c
  else
    let word i := le_val (take 4 (drop i bytes)) in
    with_v (with_fpcr (with_fpsr c (Z.land (word 0%nat) 0x0800009F)) (Z.land (word 4%nat) 0x07C80000))
      (read_vregs 32 (drop 8 bytes)).
(** [reset] leaves [cntvct], [excl_addr] and the fetch cache. *)
Definition cpu_reset (c : Cpu) (entry stack : Z) : Cpu :=
  mkCpu (replicate 31 0) stack entry 0 (cntvct c) 0 0 no_flags (replicate 32 0) false (excl_addr c) false (fetch c).
