(* ===== verification/A64Flags.v ===== *)
(** What the A64 flags and conditions mean: the comparisons of [src/vcpu/interp/alu.rs] against
    their arithmetic reading. *)
From S2P Require Import Prelude A64 A64Alu A64Ldst.
From stdpp Require Import base numbers list.
Local Open Scope Z_scope.

(** The width of an operation, and a [w]-bit value read as signed. *)
Definition wid (sf : bool) : Z := if sf then 64 else 32.
Definition signed (w z : Z) : Z := if z <? 2 ^ (w - 1) then z else z - 2 ^ w.

(** What the condition codes say of the operands of a comparison. *)
Definition cond_spec (w k a b : Z) : bool :=
  let d := signed w a - signed w b in
  let r :=
    match Z.shiftr k 1 with
    | 0 => a =? b
    | 1 => b <=? a
    | 2 => signed w ((a - b) mod 2 ^ w) <? 0
    | 3 => negb ((- 2 ^ (w - 1) <=? d) && (d <? 2 ^ (w - 1)))
    | 4 => b <? a
    | 5 => signed w b <=? signed w a
    | 6 => signed w b <? signed w a
    | _ => true
    end in
  if (Z.land k 1 =? 1) && negb (k =? 15) then negb r else r.

Lemma top_bit h y : 0 < h → 0 ≤ y < 2 * 2 ^ h → Z.testbit y h = (2 ^ h <=? y).
Proof.
  intros Hh Hy. rewrite Z.testbit_eqb by lia.
  pose proof (Z.div_mod y (2 ^ h)). pose proof (Z.mod_pos_bound y (2 ^ h)).
  assert (0 < 2 ^ h) by (apply Z.pow_pos_nonneg; lia).
  destruct (Z.leb_spec (2 ^ h) y).
  - assert (y / 2 ^ h = 1) as -> by nia. done.
  - rewrite Z.div_small by lia. done.
Qed.
Lemma shiftr_top h y : 0 ≤ h → 0 ≤ y < 2 * 2 ^ h → (Z.shiftr y h =? 1) = Z.testbit y h.
Proof.
  intros Hh Hy. rewrite Z.testbit_eqb, Z.shiftr_div_pow2 by lia.
  assert (0 < 2 ^ h) by (apply Z.pow_pos_nonneg; lia).
  assert (0 ≤ y / 2 ^ h < 2) by (split; [apply Z.div_pos; lia|apply Z.div_lt_upper_bound; lia]).
  rewrite Z.mod_small by lia. done.
Qed.
Lemma land1_testbit y n : 0 ≤ n → (Z.land (Z.shiftr y n) 1 =? 1) = Z.testbit y n.
Proof.
  intros Hn. change 1 with (Z.ones 1) at 1. rewrite Z.land_ones, Z.shiftr_div_pow2 by lia.
  by rewrite Z.testbit_eqb.
Qed.
Lemma lxor_range n a b : 0 ≤ n → 0 ≤ a < 2 ^ n → 0 ≤ b < 2 ^ n → 0 ≤ Z.lxor a b < 2 ^ n.
Proof.
  intros Hn Ha Hb. assert (0 ≤ Z.lxor a b) by (apply Z.lxor_nonneg; lia). split; [done|].
  destruct (decide (Z.lxor a b = 0)) as [->|]; [lia|]. apply Z.log2_lt_pow2; [lia|].
  pose proof (Z.log2_lxor a b ltac:(lia) ltac:(lia)).
  destruct (decide (n = 0)) as [->|]; [change (2 ^ 0) with 1 in *; assert (a = 0) by lia; assert (b = 0) by lia; subst; done|].
  assert (∀ y, 0 ≤ y < 2 ^ n → Z.log2 y < n) as Hl.
  { intros y Hy. destruct (decide (y = 0)) as [->|]; [simpl; lia|]. apply Z.log2_lt_pow2; lia. }
  pose proof (Hl a Ha). pose proof (Hl b Hb). lia.
Qed.
Lemma land_range n a b : 0 ≤ n → 0 ≤ a < 2 ^ n → 0 ≤ b → 0 ≤ Z.land a b < 2 ^ n.
Proof.
  intros Hn Ha Hb. split; [apply Z.land_nonneg; lia|].
  destruct (decide (a = 0)) as [->|]; [rewrite Z.land_0_l; lia|].
  pose proof (Z.land_nonneg a b). destruct (decide (Z.land a b = 0)) as [->|]; [lia|].
  apply Z.log2_lt_pow2; [lia|]. pose proof (Z.log2_land a b ltac:(lia) Hb).
  assert (Z.log2 a < n) by (apply Z.log2_lt_pow2; lia). lia.
Qed.

(** The overflow test of the adder is that both operands differ in sign from the sum. *)
Lemma overflow_test h a b r :
  0 < h → 0 ≤ a < 2 * 2 ^ h → 0 ≤ b < 2 * 2 ^ h → 0 ≤ r < 2 * 2 ^ h →
  (Z.shiftr (Z.land (Z.lxor a r) (Z.lxor b r)) h =? 1)
  = xorb (2 ^ h <=? a) (2 ^ h <=? r) && xorb (2 ^ h <=? b) (2 ^ h <=? r).
Proof.
  intros Hh Ha Hb Hr. assert (2 * 2 ^ h = 2 ^ (h + 1)) as E by (rewrite Z.pow_add_r by lia; lia).
  rewrite shiftr_top; [|lia|]. 2: { rewrite E in *. apply land_range; [lia| |].
    - apply lxor_range; lia. - apply (lxor_range (h + 1)); lia. }
  rewrite Z.land_spec, !Z.lxor_spec, !top_bit by done. done.
Qed.

Lemma not64_spec b : 0 ≤ b < U64 → not64 b = U64 - 1 - b.
Proof.
  intros Hb. unfold not64. change (U64 - 1) with (Z.ones 64). change U64 with (2 ^ 64) in *.
  rewrite <- Z.ldiff_ones_l_low; [|lia|]. 2: { destruct (decide (b = 0)) as [->|]; [simpl; lia|]. apply Z.log2_lt_pow2; lia. }
  rewrite Z.sub_nocarry_ldiff; [done|]. apply Z.bits_inj'. intros i Hi. rewrite Z.ldiff_spec, Z.bits_0.
  destruct (decide (i < 64)).
  - rewrite Z.ones_spec_low by lia. by rewrite andb_false_r.
  - rewrite (testbit_high b 64) by lia. done.
Qed.

(** The adder at [h + 1] bits: NZCV of [a + b + cin]. *)
Definition adder_flags (h a b : Z) (cin : bool) : Flags :=
  let s := a + b + Z.b2z cin in
  let r := s mod (2 * 2 ^ h) in
  mkFlags (2 ^ h <=? r) (r =? 0) (2 * 2 ^ h <=? s)
    (xorb (2 ^ h <=? a) (2 ^ h <=? r) && xorb (2 ^ h <=? b) (2 ^ h <=? r)).
Lemma adder_spec h a b cin :
  0 < h → 0 ≤ a < 2 * 2 ^ h → 0 ≤ b < 2 * 2 ^ h →
  let s := a + b + Z.b2z cin in
  let r := s mod (2 * 2 ^ h) in
  mkFlags (Z.land (Z.shiftr r h) 1 =? 1) (r =? 0) (negb (Z.shiftr s (h + 1) =? 0))
    (Z.shiftr (Z.land (Z.lxor a r) (Z.lxor b r)) h =? 1) = adder_flags h a b cin.
Proof.
  intros Hh Ha Hb s r. unfold adder_flags. fold s. fold r.
  assert (0 < 2 ^ h) by (apply Z.pow_pos_nonneg; lia).
  assert (0 ≤ r < 2 * 2 ^ h) as Hr by (apply Z.mod_pos_bound; lia).
  rewrite land1_testbit, top_bit, overflow_test by lia. f_equal.
  rewrite Z.shiftr_div_pow2, Z.pow_add_r, (Z.mul_comm _ (2 ^ 1)) by lia. change (2 ^ 1) with 2.
  assert (0 ≤ s) by (unfold s; destruct cin; simpl; lia).
  destruct (Z.leb_spec (2 * 2 ^ h) s) as [Hs|Hs].
  - assert (1 ≤ s / (2 * 2 ^ h)) by (apply Z.div_le_lower_bound; lia).
    destruct (Z.eqb_spec (s / (2 * 2 ^ h)) 0); [lia|done].
  - by rewrite Z.div_small by lia.
Qed.

Lemma add_with_carry_spec c a b cin sf :
  0 ≤ a < U64 → 0 ≤ b < U64 →
  add_with_carry_flags c a b cin sf =
    ((a mod 2 ^ wid sf + b mod 2 ^ wid sf + Z.b2z cin) mod 2 ^ wid sf,
     with_flags c (adder_flags (wid sf - 1) (a mod 2 ^ wid sf) (b mod 2 ^ wid sf) cin)).
Proof.
  intros Ha Hb. unfold add_with_carry_flags, wid. destruct sf.
  - rewrite (Z.mod_small a), (Z.mod_small b) by done. change (64 - 1) with 63. f_equal.
    rewrite <- (adder_spec 63 a b cin) by (unfold U64 in *; lia). done.
  - change (32 - 1) with 31. f_equal. change (2 ^ 32) with U32. rewrite <- (adder_spec 31 (a mod U32) (b mod U32) cin); [done|lia|..];
      apply Z.mod_pos_bound; done.
Qed.

Lemma not64_mod b sf : 0 ≤ b < U64 → not64 b mod 2 ^ wid sf = 2 ^ wid sf - 1 - b mod 2 ^ wid sf.
Proof.
  intros Hb. rewrite not64_spec by done. unfold wid, U64 in *. destruct sf; [rewrite !Z.mod_small; lia|].
  pose proof (Z.div_mod b (2 ^ 32)). pose proof (Z.mod_pos_bound b (2 ^ 32)).
  symmetry. apply Z.mod_unique_pos with (q := 2 ^ 32 - 1 - b / 2 ^ 32); lia.
Qed.

(** The flags of a sum and of a difference, on the values themselves. *)
Definition addsub_spec_flags (w a b : Z) (sub : bool) : Flags :=
  let r := (if sub then a - b else a + b) mod 2 ^ w in
  let d := if sub then signed w a - signed w b else signed w a + signed w b in
  mkFlags (signed w r <? 0) (r =? 0) (if sub then b <=? a else 2 ^ w <=? a + b)
    (negb ((- 2 ^ (w - 1) <=? d) && (d <? 2 ^ (w - 1)))).

Lemma mod_once m s : 0 < m → 0 ≤ s < 2 * m → s mod m = if m <=? s then s - m else s.
Proof.
  intros Hm Hs. destruct (Z.leb_spec m s); [|by apply Z.mod_small; lia].
  symmetry. apply Z.mod_unique_pos with (q := 1); lia.
Qed.
Lemma mod_neg m s : 0 < m → - m ≤ s < m → s mod m = if 0 <=? s then s else s + m.
Proof.
  intros Hm Hs. destruct (Z.leb_spec 0 s); [by apply Z.mod_small; lia|].
  symmetry. apply Z.mod_unique_pos with (q := -1); lia.
Qed.

(** Case analysis on the comparisons of a goal, innermost first. *)
Ltac no_if t := lazymatch t with context [if _ then _ else _] => fail | _ => idtac end.
Ltac bool_lia := repeat match goal with
  | |- context [?a <=? ?b] => no_if a; no_if b; destruct (Z.leb_spec a b)
  | |- context [?a <? ?b] => no_if a; no_if b; destruct (Z.ltb_spec a b)
  | |- context [?a =? ?b] => no_if a; no_if b; destruct (Z.eqb_spec a b)
  end; simpl; try reflexivity; try lia.

Lemma adder_add h a b :
  0 < h → 0 ≤ a < 2 * 2 ^ h → 0 ≤ b < 2 * 2 ^ h →
  adder_flags h a b false = addsub_spec_flags (h + 1) a b false.
Proof.
  intros Hh Ha Hb. unfold adder_flags, addsub_spec_flags, signed.
  replace (h + 1 - 1) with h by lia. replace (2 ^ (h + 1)) with (2 * 2 ^ h) by (rewrite Z.pow_add_r by lia; lia).
  assert (0 < 2 ^ h) by (apply Z.pow_pos_nonneg; lia). set (H' := 2 ^ h) in *. clearbody H'.
  simpl Z.b2z. rewrite Z.add_0_r, mod_once by lia. f_equal; bool_lia.
Qed.
Lemma adder_sub h a b :
  0 < h → 0 ≤ a < 2 * 2 ^ h → 0 ≤ b < 2 * 2 ^ h →
  adder_flags h a (2 * 2 ^ h - 1 - b) true = addsub_spec_flags (h + 1) a b true.
Proof.
  intros Hh Ha Hb. unfold adder_flags, addsub_spec_flags, signed.
  replace (h + 1 - 1) with h by lia. replace (2 ^ (h + 1)) with (2 * 2 ^ h) by (rewrite Z.pow_add_r by lia; lia).
  assert (0 < 2 ^ h) by (apply Z.pow_pos_nonneg; lia). set (H' := 2 ^ h) in *. clearbody H'.
  simpl Z.b2z. rewrite mod_once by lia. rewrite (mod_neg (2 * H') (a - b)) by lia. f_equal; bool_lia.
Qed.

Lemma addsub_flags_spec c a b sub sf :
  0 ≤ a < U64 → 0 ≤ b < U64 →
  let w := wid sf in
  addsub_flags c a b sub sf =
    ((if sub then a mod 2 ^ w - b mod 2 ^ w else a mod 2 ^ w + b mod 2 ^ w) mod 2 ^ w,
     with_flags c (addsub_spec_flags w (a mod 2 ^ w) (b mod 2 ^ w) sub)).
Proof.
  intros Ha Hb w. unfold addsub_flags.
  assert (2 * 2 ^ (w - 1) = 2 ^ w ∧ 0 < w - 1) as [E Hw] by (unfold w, wid; by destruct sf).
  assert (∀ y, 0 ≤ y mod 2 ^ w < 2 * 2 ^ (w - 1)) as Hr
    by (intros y; rewrite E; apply Z.mod_pos_bound, Z.pow_pos_nonneg; lia).
  destruct sub.
  - rewrite add_with_carry_spec; [|done|rewrite not64_spec by done; unfold U64 in *; lia].
    rewrite not64_mod by done. fold w. f_equal.
    + simpl. replace (a mod 2 ^ w + (2 ^ w - 1 - b mod 2 ^ w) + 1) with (a mod 2 ^ w - b mod 2 ^ w + 1 * 2 ^ w) by lia.
      by rewrite Z_mod_plus_full.
    + replace (2 ^ w - 1 - b mod 2 ^ w) with (2 * 2 ^ (w - 1) - 1 - b mod 2 ^ w) by (rewrite E; done).
      rewrite adder_sub by auto. replace (w - 1 + 1) with w by lia. done.
  - rewrite add_with_carry_spec by done. fold w. f_equal.
    + simpl. by rewrite Z.add_0_r.
    + rewrite adder_add by auto. replace (w - 1 + 1) with w by lia. done.
Qed.

Lemma cond_of_cmp h a b k :
  0 < h → 0 ≤ a < 2 * 2 ^ h → 0 ≤ b < 2 * 2 ^ h → 0 ≤ k < 16 →
  cond_holds (addsub_spec_flags (h + 1) a b true) k = cond_spec (h + 1) k a b.
Proof.
  intros Hh Ha Hb Hk. unfold cond_holds, cond_spec. cbv zeta.
  match goal with |- (if _ then _ else ?X) = (if _ then _ else ?Y) => assert (X = Y) as ->; [|done] end.
  unfold addsub_spec_flags, signed; cbn [fN fZ fC fV]. replace (h + 1 - 1) with h by lia.
  replace (2 ^ (h + 1)) with (2 * 2 ^ h) by (rewrite Z.pow_add_r by lia; lia).
  assert (0 < 2 ^ h) by (apply Z.pow_pos_nonneg; lia). set (H' := 2 ^ h) in *. clearbody H'.
  rewrite (mod_neg (2 * H') (a - b)) by lia.
  assert (0 ≤ Z.shiftr k 1 < 8) as Hj by (rewrite Z.shiftr_div_pow2 by lia; change (2 ^ 1) with 2; divlia).
  generalize dependent (Z.shiftr k 1); intros j Hj.
  assert (j = 0 ∨ j = 1 ∨ j = 2 ∨ j = 3 ∨ j = 4 ∨ j = 5 ∨ j = 6 ∨ j = 7)
    as [-> | [-> | [-> | [-> | [-> | [-> | [-> | ->]]]]]]] by lia; simpl.
  all: unfold Bool.eqb; bool_lia.
Qed.

(** The A64 adder and the condition codes. At either width, [ADDS] and [SUBS] return the
    sum or difference modulo the width, and set N to the sign of the result, Z when it is zero,
    C on unsigned carry (for a subtraction: no borrow) and V exactly when the signed result does
    not fit. And after a comparison every condition code holds exactly when the relation it is
    named after does: [EQ] equal, [HS] unsigned at least, [HI] above, [GE] signed at least, [GT]
    greater, [MI] and [VS] the sign and overflow of the difference, their odd inverses, and
    [AL]/[NV] always. *)
Theorem cmp_conditions c a b sf :
  0 ≤ a < U64 → 0 ≤ b < U64 →
  let w := wid sf in
  let A := a mod 2 ^ w in
  let B := b mod 2 ^ w in
  (∀ sub, addsub_flags c a b sub sf =
     ((if sub then A - B else A + B) mod 2 ^ w, with_flags c (addsub_spec_flags w A B sub))) ∧
  ∀ k, 0 ≤ k < 16 → cond_holds (flags (addsub_flags c a b true sf).2) k = cond_spec w k A B.
Proof.
  intros Ha Hb w A B. split; [intros sub; by apply addsub_flags_spec|]. intros k Hk.
  rewrite addsub_flags_spec by done. cbn [snd flags with_flags].
  assert (w = w - 1 + 1 ∧ 0 < w - 1 ∧ 2 * 2 ^ (w - 1) = 2 ^ w) as (E & Hw & E2) by (unfold w, wid; by destruct sf).
  fold w. rewrite E at 1 4. apply cond_of_cmp; [done| | |done].
  all: rewrite E2; apply Z.mod_pos_bound, Z.pow_pos_nonneg; lia.
Qed.
Lemma cmp_conditions_witness :
  let c := cpu_new 0 0 in
  addsub_flags c (U64 - 1) 1 true true = (U64 - 2, with_flags c (mkFlags true false true false)) ∧
  cond_holds (flags (addsub_flags c (U64 - 1) 1 true true).2) 11 = true.
Proof.
  destruct (cmp_conditions (cpu_new 0 0) (U64 - 1) 1 true ltac:(done) ltac:(done)) as [H1 H2].
  split; [rewrite H1; by vm_compute|rewrite H2 by done; by vm_compute].
Defined.
