(* ===== verification/A64Bits.v ===== *)
(** Bit masks of the A64 interpreter: what [decode_bit_masks] encodes, and what the bitfield
    moves do, bit by bit ([src/vcpu/interp/alu.rs]). *)
From S2P Require Import Prelude A64 A64Alu A64Flags A64Ldst.
From stdpp Require Import base numbers list.
Local Open Scope Z_scope.

(** * Words, bit by bit *)

Lemma ones_Zones n : 0 ≤ n ≤ 64 → ones n = Z.ones n.
Proof.
  intros Hn. unfold ones. destruct (Z.leb_spec 64 n); [by replace n with 64 by lia|].
  rewrite Z.shiftl_1_l, Z.ones_equiv. lia.
Qed.
Lemma ones_bit n i : 0 ≤ n ≤ 64 → 0 ≤ i → Z.testbit (ones n) i = (i <? n).
Proof. intros Hn Hi. rewrite ones_Zones, Z.testbit_ones by lia. by rewrite (proj2 (Z.leb_le 0 i)) by lia. Qed.
Lemma shl64_bit y n i : 0 ≤ n → 0 ≤ i → Z.testbit (shl64 y n) i = (i <? 64) && Z.testbit y (i - n).
Proof.
  intros Hn Hi. unfold shl64. change U64 with (2 ^ 64). rewrite <- Z.land_ones, Z.land_spec, Z.testbit_ones, Z.shiftl_spec by lia.
  rewrite (proj2 (Z.leb_le 0 i)) by lia. simpl. by rewrite andb_comm.
Qed.
Lemma not64_bit y i : 0 ≤ i → Z.testbit (not64 y) i = xorb (Z.testbit y i) (i <? 64).
Proof.
  intros Hi. unfold not64. change (U64 - 1) with (Z.ones 64). rewrite Z.lxor_spec, Z.testbit_ones by lia.
  by rewrite (proj2 (Z.leb_le 0 i)) by lia.
Qed.
Lemma ror_bit y r w i :
  0 ≤ r < w → w ≤ 64 → 0 ≤ i → Z.testbit (ror_val y r w) i = (i <? w) && Z.testbit y ((i + r) mod w).
Proof.
  intros Hr Hw Hi. unfold ror_val. rewrite (Z.mod_small r) by lia.
  destruct (Z.eqb_spec r 0) as [->|Hr0].
  - rewrite Z.land_spec, ones_bit, Z.add_0_r by lia. destruct (Z.ltb_spec i w); [|by rewrite andb_false_r].
    by rewrite Z.mod_small, andb_true_r by lia.
  - rewrite Z.land_spec, Z.lor_spec, Z.shiftr_spec, shl64_bit, !Z.land_spec by lia.
    rewrite (ones_bit w i), (ones_bit w (i + r)) by lia.
    rewrite andb_comm. destruct (Z.ltb_spec i w); simpl; [|done].
    destruct (Z.ltb_spec (i + r) w); simpl.
    + rewrite (Z.testbit_neg_r y (i - (w - r))), (Z.mod_small (i + r)) by lia.
      rewrite andb_true_r. by rewrite andb_false_l, andb_false_r, orb_false_r.
    + rewrite andb_false_r, (ones_bit w (i - (w - r))) by lia. simpl.
      rewrite (proj2 (Z.ltb_lt i 64)), (proj2 (Z.ltb_lt (i - (w - r)) w)), andb_true_r by lia. simpl.
      f_equal. apply Z.mod_unique_pos with (q := 1); lia.
Qed.

(** * Exhaustive checks over the fields of an encoding *)

Definition all_below (n : Z) (f : Z → bool) : bool := forallb f (seqZ 0 n).
Lemma all_below_spec n f i : all_below n f = true → 0 ≤ i < n → f i = true.
Proof.
  unfold all_below. rewrite forallb_forall. intros Hf Hi. apply Hf, list_elem_of_In, elem_of_seqZ. lia.
Qed.
(** The architecture's reading of [N:imms]: the log size of the repeated element. *)
Definition elem_log (n imms : Z) : option Z :=
  if n =? 1 then Some 6 else if imms <? 32 then Some 5 else if imms <? 48 then Some 4
  else if imms <? 56 then Some 3 else if imms <? 60 then Some 2 else if imms <? 62 then Some 1 else None.
Definition mask_index (n imms : Z) : Z := Z.lor (Z.shiftl n 6) (Z.land (Z.lxor imms (U32 - 1)) 0x3f).
Lemma elem_log_ok n imms :
  0 ≤ n < 2 → 0 ≤ imms < 64 →
  match elem_log n imms with
  | Some l => mask_index n imms ≠ 0 ∧ Z.log2 (mask_index n imms) = l ∧ 1 ≤ l ≤ 5 + n
  | None => mask_index n imms < 2
  end.
Proof.
  intros Hn Hs.
  assert (all_below 2 (λ n, all_below 64 (λ s,
    match elem_log n s with
    | Some l => negb (mask_index n s =? 0) && (Z.log2 (mask_index n s) =? l) && (1 <=? l) && (l <=? 5 + n)
    | None => mask_index n s <? 2
    end)) = true) as Hall by by vm_compute.
  pose proof (all_below_spec _ _ _ (all_below_spec _ _ n Hall Hn) Hs) as Hi. simpl in Hi.
  destruct (elem_log n imms); [|lia]. rewrite !andb_true_iff, negb_true_iff in Hi.
  destruct Hi as [[[H1%Z.eqb_neq H2%Z.eqb_eq] H3%Z.leb_le] H4%Z.leb_le]. done.
Qed.

(** [replicate] repeats its pattern. *)
Lemma rep_loop_bits pat e w m : ∀ fuel i k res,
  1 ≤ e → w = m * e → w ≤ 64 → (∀ j, e ≤ j → Z.testbit pat j = false) →
  i = k * e → 0 ≤ k ≤ m → w - i ≤ Z.of_nat fuel * e →
  (∀ j, 0 ≤ j → Z.testbit res j = (j <? i) && Z.testbit pat (j mod e)) →
  ∀ j, 0 ≤ j → Z.testbit (rep_loop fuel pat e w i res) j = (j <? w) && Z.testbit pat (j mod e).
Proof.
  induction fuel as [|fuel IH]; intros i k res He Hw H64 Hp Hi Hk Hf Hres j Hj; simpl.
  { assert (i = w) as -> by nia. by apply Hres. }
  destruct (Z.ltb_spec i w) as [Hlt|Hge]; [|assert (i = w) as -> by nia; by apply Hres].
  assert (k < m) by nia. assert (i + e ≤ w) by nia.
  eapply (IH _ (k + 1)); try done; [nia|nia|nia|]. clear j Hj. intros j Hj.
  rewrite Z.lor_spec, Hres, shl64_bit by lia.
  destruct (Z.ltb_spec j i), (Z.ltb_spec j (i + e)); simpl; try lia.
  - rewrite (Z.testbit_neg_r pat (j - i)) by lia. by rewrite andb_false_r, orb_false_r.
  - rewrite (proj2 (Z.ltb_lt j 64)) by lia. simpl. f_equal. apply Z.mod_unique_pos with (q := k); lia.
  - rewrite (Hp (j - i)) by lia. by rewrite andb_false_r.
Qed.
Lemma replicate_bit pat e w m j :
  1 ≤ e ≤ 64 → w = m * e → 0 ≤ m → w ≤ 64 → 0 ≤ j →
  Z.testbit (replicate_bits pat e w) j = (j <? w) && Z.testbit pat (j mod e).
Proof.
  intros He Hw Hm H64 Hj. unfold replicate_bits.
  assert (∀ i, 0 ≤ i → Z.testbit (Z.land pat (ones e)) i = Z.testbit pat i && (i <? e)) as Hl
    by (intros i Hi; rewrite Z.land_spec, ones_bit by lia; done).
  rewrite (rep_loop_bits _ e w m 64 0 0 0); try done; try lia.
  - pose proof (Z.mod_pos_bound j e ltac:(lia)). rewrite Hl by lia.
    by rewrite (proj2 (Z.ltb_lt (j mod e) e)), andb_true_r by lia.
  - intros i Hi. rewrite Hl by lia. rewrite (proj2 (Z.ltb_ge i e)) by lia. by rewrite andb_false_r.
  - intros i Hi. rewrite Z.bits_0. by rewrite (proj2 (Z.ltb_ge i 0)) by lia.
Qed.

Lemma decode_masks n imms immr w immediate :
  0 ≤ n < 2 → 0 ≤ imms < 64 →
  decode_bit_masks n imms immr w immediate =
    match elem_log n imms with
    | None => None
    | Some l =>
      let e := 2 ^ l in
      if immediate && (imms mod e =? e - 1) then None
      else Some (replicate_bits (ror_val (ones (imms mod e + 1)) (immr mod e) e) e w,
                 replicate_bits (ones ((imms - immr) mod e + 1)) e w)
    end.
Proof.
  intros Hn Hs. pose proof (elem_log_ok n imms Hn Hs) as Hl. unfold decode_bit_masks. fold (mask_index n imms).
  destruct (elem_log n imms) as [l|].
  - destruct Hl as (H0 & -> & Hl). rewrite (proj2 (Z.eqb_neq _ _) H0), (proj2 (Z.ltb_ge l 1)) by lia.
    rewrite Z.shiftl_1_l. cbv zeta. replace (2 ^ l - 1) with (Z.ones l) by (rewrite Z.ones_equiv; lia).
    rewrite !Z.land_ones by lia.
    assert (((imms mod 2 ^ l - immr mod 2 ^ l) mod U32) mod 2 ^ l = (imms - immr) mod 2 ^ l) as ->.
    { change U32 with (2 ^ 32). rewrite Z.mod_mod_divide; [symmetry; apply Zminus_mod|].
      exists (2 ^ (32 - l)). rewrite <- Z.pow_add_r by lia. f_equal. lia. }
    done.
  - destruct (Z.eqb_spec (mask_index n imms) 0); [done|].
    assert (0 ≤ mask_index n imms) by (unfold mask_index; apply Z.lor_nonneg; split;
      [apply Z.shiftl_nonneg; lia|apply Z.land_nonneg; lia]).
    by replace (mask_index n imms) with 1 by lia.
Qed.
Lemma replicate_once pat w : 1 ≤ w ≤ 64 → 0 ≤ pat < 2 ^ w → replicate_bits pat w w = pat.
Proof.
  intros Hw Hp. apply Z.bits_inj'. intros i Hi. rewrite (replicate_bit pat w w 1) by lia.
  destruct (Z.ltb_spec i w); [by rewrite Z.mod_small by lia|]. symmetry. by apply (testbit_high pat w).
Qed.
Lemma ror_range y r w : 0 ≤ r < w → w ≤ 64 → 0 ≤ ror_val y r w < 2 ^ w.
Proof.
  intros Hr Hw. unfold ror_val. rewrite ones_Zones, (Z.mod_small r) by lia.
  assert (0 < 2 ^ w) by (apply Z.pow_pos_nonneg; lia).
  destruct (r =? 0); rewrite Z.land_ones by lia; by apply Z.mod_pos_bound.
Qed.
Lemma bitfield_masks sf s r :
  0 ≤ s < wid sf → 0 ≤ r < wid sf →
  decode_bit_masks (Z.b2z sf) s r (wid sf) false = Some (ror_val (ones (s + 1)) r (wid sf), ones ((s - r) mod wid sf + 1)).
Proof.
  intros Hs Hr. rewrite decode_masks by (unfold wid in *; destruct sf; simpl; lia).
  assert (elem_log (Z.b2z sf) s = Some (if sf then 6 else 5)) as ->
    by (unfold wid in *; destruct sf; [done|]; unfold elem_log; simpl; by rewrite (proj2 (Z.ltb_lt s 32)) by lia).
  simpl. assert (2 ^ (if sf then 6 else 5) = wid sf) as -> by by destruct sf.
  assert (1 ≤ wid sf ≤ 64) as Hw by (unfold wid; destruct sf; lia).
  rewrite (Z.mod_small s), (Z.mod_small r) by lia.
  pose proof (Z.mod_pos_bound (s - r) (wid sf) ltac:(lia)).
  rewrite !replicate_once; [done|lia| |lia|apply ror_range; lia].
  rewrite ones_Zones, Z.ones_equiv by lia. pose proof (Z.pow_le_mono_r 2 ((s - r) mod wid sf + 1) (wid sf)).
  pose proof (Z.pow_pos_nonneg 2 ((s - r) mod wid sf + 1)). lia.
Qed.

(** * Bitfield moves *)

(** Bit [i] of what [SBFM] (0), [BFM] (1) and [UBFM] (2) write: the source's bits from [from] on
    land at [to] and above, [len] of them. *)
Definition bf_bit (opc src dst imms immr w i : Z) : bool :=
  let '(from, len, to) := if immr <=? imms then (immr, imms - immr + 1, 0) else (0, imms + 1, w - immr) in
  if (to <=? i) && (i <? to + len) then Z.testbit src (i - to + from)
  else if opc =? 1 then Z.testbit dst i
  else if (opc =? 0) && (to + len <=? i) then Z.testbit src imms
  else false.

Lemma bitfield_bits opc src dst s r w i :
  0 ≤ s < w → 0 ≤ r < w → w ≤ 64 → 0 ≤ opc < 3 → 0 ≤ i < w →
  Z.testbit (bitfield opc src dst s r w (ror_val (ones (s + 1)) r w) (ones ((s - r) mod w + 1))) i
  = bf_bit opc src dst s r w i.
Proof.
  intros Hs Hr Hw Hopc Hi. unfold bitfield, bf_bit.
  assert (0 ≤ (s - r) mod w < w) as Hd by (apply Z.mod_pos_bound; lia).
  rewrite land1_testbit by lia.
  set (wm := ror_val (ones (s + 1)) r w). set (tm := ones ((s - r) mod w + 1)).
  assert (Z.testbit tm i = (i <? (s - r) mod w + 1)) as Et by (apply ones_bit; lia).
  assert (Z.testbit wm i = ((i + r) mod w <? s + 1)) as Ew.
  { unfold wm. rewrite ror_bit by lia. rewrite (proj2 (Z.ltb_lt i w)) by lia. apply ones_bit; [lia|].
    apply Z.mod_pos_bound; lia. }
  assert (Z.testbit (ror_val src r w) i = Z.testbit src ((i + r) mod w)) as Eb
    by (rewrite ror_bit by lia; by rewrite (proj2 (Z.ltb_lt i w)) by lia).
  assert (∀ b : bool, Z.testbit (if b then ones w else 0) i = b) as Etop
    by (intros []; [rewrite ones_bit by lia; apply Z.ltb_lt; lia|by rewrite Z.bits_0]).
  rewrite (mod_once w (i + r)) in Ew, Eb by lia. rewrite (mod_neg w (s - r)) in Et, Hd by lia.
  destruct (Z.eqb_spec opc 0) as [->|]; [|destruct (Z.eqb_spec opc 1) as [->|]].
  all: rewrite ?Z.lor_spec, ?Z.land_spec, ?Z.lor_spec, ?Z.land_spec, ?not64_bit, ?Et, ?Ew, ?Eb, ?Etop by lia.
  all: rewrite ?(proj2 (Z.ltb_lt i 64)) by lia.
  all: replace (0 =? 1) with false by done; destruct (Z.leb_spec r s); destruct (Z.leb_spec w (i + r)); destruct (Z.leb_spec 0 (s - r));
    try lia; bool_lia; rewrite ?andb_false_r, ?andb_true_r, ?orb_false_r, ?orb_true_r; try done.
  all: rewrite ?orb_false_l; try (f_equal; lia).
Qed.

Lemma reg_value_range c i : Forall (λ y, 0 ≤ y < U64) (x c) → 0 ≤ read_x c i < U64.
Proof.
  intros Hx. unfold read_x. destruct (i =? 31); [done|]. destruct (x c !! Z.to_nat i) eqn:E; [|done].
  rewrite Forall_lookup in Hx. simpl. eauto.
Qed.
Lemma mask_sf_bit y sf i : 0 ≤ i → Z.testbit (mask_sf y sf) i = (sf || (i <? 32)) && Z.testbit y i.
Proof.
  intros Hi. unfold mask_sf. destruct sf; [done|]. change 0xffffffff with (Z.ones 32).
  rewrite Z.land_spec, Z.testbit_ones by lia. rewrite (proj2 (Z.leb_le 0 i)) by lia. simpl. apply andb_comm.
Qed.
Lemma bitfield_high opc src dst s r wm tm i :
  0 ≤ opc < 3 → 64 ≤ i → 0 ≤ tm < U64 → Z.testbit (bitfield opc src dst s r 64 wm tm) i = false.
Proof.
  intros Hopc Hi Ht. unfold bitfield.
  assert (Z.testbit tm i = false) as Et by (apply (testbit_high tm 64); [done|lia]).
  assert (Z.testbit (ones 64) i = false) as Eo by (rewrite ones_bit by lia; by apply Z.ltb_ge).
  destruct (opc =? 0); [|destruct (opc =? 1)].
  all: rewrite ?Z.lor_spec, ?Z.land_spec, ?Z.lor_spec, ?Z.land_spec, ?not64_bit, ?Et by lia.
  all: rewrite ?(proj2 (Z.ltb_ge i 64)) by lia; simpl; rewrite ?andb_false_r; done.
Qed.
Lemma tmask_range n : 0 ≤ n ≤ 64 → 0 ≤ ones n < U64.
Proof.
  intros Hn. rewrite ones_Zones, Z.ones_equiv by done.
  pose proof (Z.pow_le_mono_r 2 n 64). pose proof (Z.pow_pos_nonneg 2 n). unfold U64. lia.
Qed.

Lemma fld_range instr sh k : 0 ≤ k → 0 ≤ fld instr sh (Z.ones k) < 2 ^ k.
Proof. intros Hk. unfold fld. rewrite Z.land_ones by done. apply Z.mod_pos_bound, Z.pow_pos_nonneg; lia. Qed.
Lemma tst_pow2 y n : 0 ≤ n → tst y (2 ^ n) = Z.testbit y n.
Proof.
  intros Hn. unfold tst. destruct (Z.testbit y n) eqn:E.
  - apply negb_true_iff, Z.eqb_neq. intros E0. apply (f_equal (λ z, Z.testbit z n)) in E0.
    by rewrite Z.land_spec, Z.pow2_bits_true, E, Z.bits_0 in E0 by done.
  - apply negb_false_iff, Z.eqb_eq, Z.bits_inj'. intros i Hi.
    rewrite Z.land_spec, Z.pow2_bits_eqb, Z.bits_0 by done.
    destruct (Z.eqb_spec n i) as [<-|]; [by rewrite E|by rewrite andb_false_r].
Qed.
Lemma tst_bit5 a b : 0 ≤ a < 64 → 0 ≤ b < 64 → tst (Z.lor a b) 0x20 = (32 <=? a) || (32 <=? b).
Proof.
  intros Ha Hb. change 0x20 with (2 ^ 5). rewrite tst_pow2, Z.lor_spec by done.
  rewrite (top_bit 5 a), (top_bit 5 b) by lia. done.
Qed.
Lemma bitfield_guard sf opc n immr imms :
  0 ≤ n < 2 → 0 ≤ immr < 64 → 0 ≤ imms < 64 →
  (opc =? 3) || negb (Bool.eqb (n =? 1) sf) || (negb sf && ((32 <=? immr) || (32 <=? imms)))
  = bool_decide (opc = 3 ∨ n ≠ Z.b2z sf ∨ wid sf ≤ immr ∨ wid sf ≤ imms).
Proof.
  intros Hn Hr Hs. destruct (bool_decide _) eqn:E; [apply bool_decide_eq_true in E|apply bool_decide_eq_false in E].
  all: destruct (Z.eqb_spec opc 3), (Z.eqb_spec n 1), (Z.leb_spec 32 immr), (Z.leb_spec 32 imms), sf.
  all: simpl in *; unfold wid in E; try reflexivity; exfalso; lia.
Qed.
Lemma bounded_bits y w (f : Z → bool) :
  0 ≤ w → (∀ i, 0 ≤ i → Z.testbit y i = (i <? w) && f i) → 0 ≤ y ∧ ∀ i, 0 ≤ i → Z.testbit y i = (i <? w) && f i.
Proof.
  intros Hw Hy. split; [|done]. apply Z.bits_iff_nonneg_ex. exists w. intros i Hi.
  rewrite Hy by lia. by rewrite (proj2 (Z.ltb_ge i w)) by lia.
Qed.
Lemma masked_bitfield_bit sf opc src dst s r i :
  0 ≤ opc < 3 → 0 ≤ s < wid sf → 0 ≤ r < wid sf → 0 ≤ i →
  Z.testbit (mask_sf (bitfield opc src dst s r (wid sf) (ror_val (ones (s + 1)) r (wid sf))
                        (ones ((s - r) mod wid sf + 1))) sf) i
  = (i <? wid sf) && bf_bit opc src dst s r (wid sf) i.
Proof.
  intros Ho Hs Hr Hi. rewrite mask_sf_bit by done. destruct (Z.ltb_spec i (wid sf)) as [Hlt|Hge]; simpl.
  - rewrite bitfield_bits; [|lia|lia|by destruct sf|lia|lia].
    assert (sf || (i <? 32) = true) as -> by (unfold wid in *; destruct sf; simpl; [done|apply Z.ltb_lt; lia]). done.
  - destruct sf; simpl in *; [|by rewrite (proj2 (Z.ltb_ge i 32))].
    apply bitfield_high; [lia|done|]. apply tmask_range.
    pose proof (Z.mod_pos_bound (s - r) 64). lia.
Qed.

(** C25: the A64 bitfield moves. [SBFM], [BFM] and [UBFM] are refused exactly for a reserved
    opcode, a mask bit that disagrees with the width or a position past it. Otherwise they write
    a value of the operation's width whose every bit is the one the architecture names: the
    source bits from [immr] to [imms] moved down to bit 0 (an extract), or the low [imms + 1]
    source bits moved up to [w - immr] (an insert or shift); outside the field [UBFM] has zeros,
    [BFM] keeps the destination, and [SBFM] repeats the field's top bit above it. *)
Theorem bitfield_moves c instr sf rd rn :
  let w := wid sf in
  let opc := fld instr 29 3 in
  let immr := fld instr 16 0x3f in
  let imms := fld instr 10 0x3f in
  if decide (opc = 3 ∨ fld instr 22 1 ≠ Z.b2z sf ∨ w ≤ immr ∨ w ≤ imms)
  then dp_bitfield c instr sf rd rn = (Illegal, c)
  else ∃ r, dp_bitfield c instr sf rd rn = (Next, write_x c rd r) ∧ 0 ≤ r ∧
         ∀ i, 0 ≤ i → Z.testbit r i = (i <? w) && bf_bit opc (read_x c rn) (read_x c rd) imms immr w i.
Proof.
  intros w opc immr imms.
  assert (0 ≤ immr < 64) as Hr by (by apply (fld_range instr 16 6)).
  assert (0 ≤ imms < 64) as Hs by (by apply (fld_range instr 10 6)).
  assert (0 ≤ opc < 4) as Ho by (by apply (fld_range instr 29 2)).
  assert (0 ≤ fld instr 22 1 < 2) as Hn by (by apply (fld_range instr 22 1)).
  unfold dp_bitfield. fold opc immr imms. rewrite tst_bit5, (bitfield_guard sf opc (fld instr 22 1)) by lia. fold w.
  case_decide as Hd; [by rewrite bool_decide_eq_true_2|]. rewrite bool_decide_eq_false_2 by done.
  apply Decidable.not_or in Hd as [H1 [H2%dec_stable [H3 H4]%Decidable.not_or]%Decidable.not_or]. rewrite H2.
  change (if sf then 64 else 32) with w. unfold w in *. rewrite (bitfield_masks sf imms immr) by lia.
  eexists. split; [reflexivity|]. apply bounded_bits; [unfold wid; by destruct sf|].
  intros i Hi0. apply masked_bitfield_bit; lia.
Qed.

(** * Logical immediates *)

(** Bit [i] of the immediate: a run of ones, rotated in its element of [e] bits, repeated. *)
Definition imm_bit (e imms immr i : Z) : bool := (i + immr) mod e <=? imms mod e.

Lemma bits_between y w (f : Z → bool) i j :
  0 ≤ w → (∀ i, 0 ≤ i → Z.testbit y i = (i <? w) && f i) →
  0 ≤ i < w → f i = true → 0 ≤ j < w → f j = false → 0 < y < 2 ^ w - 1.
Proof.
  intros Hw Hy Hi Hfi Hj Hfj. destruct (bounded_bits y w f Hw Hy) as [H0 _].
  assert (y mod 2 ^ w = y) as E.
  { apply Z.bits_inj'. intros k Hk. rewrite <- Z.land_ones, Z.land_spec, Z.testbit_ones, Hy by lia.
    rewrite (proj2 (Z.leb_le 0 k)) by lia. by destruct (k <? w), (f k). }
  pose proof (Z.mod_pos_bound y (2 ^ w) ltac:(by apply Z.pow_pos_nonneg)).
  assert (y ≠ 0). { intros ->. specialize (Hy i ltac:(lia)). rewrite Z.bits_0, Hfi in Hy. lia. }
  assert (y ≠ 2 ^ w - 1); [|lia]. intros E1. specialize (Hy j ltac:(lia)).
  replace (2 ^ w - 1) with (Z.ones w) in E1 by (rewrite Z.ones_equiv; lia).
  rewrite E1, Z.ones_spec_low, Hfj in Hy by lia. by rewrite andb_false_r in Hy.
Qed.
Lemma elem_divides sf n l :
  0 ≤ n ≤ Z.b2z sf → 1 ≤ l ≤ 5 + n → ∃ m, wid sf = m * 2 ^ l ∧ 1 ≤ m ∧ 2 ≤ 2 ^ l ≤ 64.
Proof.
  intros Hn Hl. assert (l ≤ (if sf then 6 else 5)) as Hle by (destruct sf; simpl in *; lia).
  exists (2 ^ ((if sf then 6 else 5) - l)). rewrite <- Z.pow_add_r by lia. split_and!.
  - replace ((if sf then 6 else 5) - l + l) with (if sf then 6 else 5) by lia. by destruct sf.
  - change 1 with (2 ^ 0). apply Z.pow_le_mono_r; lia.
  - change 2 with (2 ^ 1) at 1. apply Z.pow_le_mono_r; lia.
  - change 64 with (2 ^ 6). apply Z.pow_le_mono_r; [lia|]. destruct sf; lia.
Qed.

(** The A64 logical immediates. [N:imms:immr] encodes an immediate exactly when [N:imms]
    names an element size (2 to 64 bits, no more than the operation's width) and the run of ones
    does not fill its element. The immediate then has the bits the architecture names - a run of
    [imms + 1] ones rotated right by [immr] within the element, repeated to the width - and is
    never zero nor all ones. *)
Theorem logical_immediates sf n imms immr :
  0 ≤ n ≤ Z.b2z sf → 0 ≤ imms < 64 →
  match elem_log n imms, decode_bit_masks n imms immr (wid sf) true with
  | Some l, Some (imm, _) =>
    let e := 2 ^ l in
    imms mod e < e - 1 ∧ 0 < imm < 2 ^ wid sf - 1 ∧
    ∀ i, 0 ≤ i → Z.testbit imm i = (i <? wid sf) && imm_bit e imms immr i
  | Some l, None => imms mod 2 ^ l = 2 ^ l - 1
  | None, r => r = None
  end.
Proof.
  intros Hn Hs. rewrite decode_masks by (destruct sf; simpl in *; lia).
  pose proof (elem_log_ok n imms ltac:(destruct sf; simpl in *; lia) Hs) as Hl.
  destruct (elem_log n imms) as [l|]; [|done]. destruct Hl as (_ & _ & Hl). cbv zeta. simpl andb.
  destruct (Z.eqb_spec (imms mod 2 ^ l) (2 ^ l - 1)) as [->|Hfull]; [done|].
  destruct (elem_divides sf n l Hn Hl) as (m & Hm & Hm1 & He).
  assert (wid sf ≤ 64) as H64 by (unfold wid; destruct sf; lia).
  set (e := 2 ^ l) in *. clearbody e. pose proof (Z.mod_pos_bound imms e ltac:(lia)).
  assert (∀ i, 0 ≤ i → Z.testbit (replicate_bits (ror_val (ones (imms mod e + 1)) (immr mod e) e) e (wid sf)) i
    = (i <? wid sf) && imm_bit e imms immr i) as Hbits.
  { intros i Hi. rewrite (replicate_bit _ e _ m) by lia. f_equal.
    pose proof (Z.mod_pos_bound i e ltac:(lia)). pose proof (Z.mod_pos_bound immr e ltac:(lia)).
    rewrite ror_bit by lia. rewrite (proj2 (Z.ltb_lt (i mod e) e)) by lia. rewrite andb_true_l.
    rewrite <- Zplus_mod. pose proof (Z.mod_pos_bound (i + immr) e ltac:(lia)).
    rewrite ones_bit by lia. unfold imm_bit. bool_lia. }
  split; [lia|]. split; [|exact Hbits].
  pose proof (Z.mod_pos_bound (- immr) e ltac:(lia)). pose proof (Z.mod_pos_bound (- immr - 1) e ltac:(lia)).
  apply (bits_between _ _ (imm_bit e imms immr) ((- immr) mod e) ((- immr - 1) mod e)); try done; try nia.
  - unfold imm_bit. rewrite Zplus_mod_idemp_l. replace (- immr + immr) with 0 by lia. rewrite Z.mod_0_l by lia. lia.
  - unfold imm_bit. rewrite Zplus_mod_idemp_l. replace (- immr - 1 + immr) with (-1) by lia.
    rewrite (mod_neg e (-1)) by lia. simpl. lia.
Qed.
Lemma logical_immediates_witness :
  ∃ imm t, decode_bit_masks 0 0x3c 1 64 true = Some (imm, t) ∧ 0 < imm < 2 ^ 64 - 1 ∧ imm = 0xaaaaaaaaaaaaaaaa.
Proof.
  pose proof (logical_immediates true 0 0x3c 1 ltac:(done) ltac:(done)) as H. simpl elem_log in H.
  destruct (decode_bit_masks 0 0x3c 1 (wid true) true) as [[imm t]|] eqn:E; [|by vm_compute in E].
  destruct H as (_ & Hr & _). exists imm, t. split_and!; [exact E|apply Hr|apply Hr|]. vm_compute in E. congruence.
Defined.
