(* ===== verification/A64Safe.v ===== *)
(** The widths of a vcpu's registers: words of [n] bits and [cpu_ok], what the types of the fields
    of [Aarch64Interp] ([src/vcpu/interp.rs]) say. *)
From S2P Require Import Prelude Iface A64 A64Alu A64Mem A64Ldst A64Flags A64Bits.
From stdpp Require Import base numbers list.
Local Open Scope Z_scope.

(** * Words in range *)

Definition uN (n z : Z) : Prop := 0 ≤ z < 2 ^ n.
Abbreviation u64 := (uN 64).

Lemma uN_bits n z : 0 ≤ n → 0 ≤ z → (∀ i, n ≤ i → Z.testbit z i = false) → uN n z.
Proof.
  intros Hn Hz Hb. split; [done|]. destruct (decide (z = 0)) as [->|]; [by apply Z.pow_pos_nonneg|].
  apply Z.log2_lt_pow2; [lia|]. destruct (Z.lt_ge_cases (Z.log2 z) n) as [|Hge]; [done|].
  specialize (Hb (Z.log2 z) Hge). by rewrite Z.bit_log2 in Hb by lia.
Qed.
Lemma uN_le n m z : uN n z → 0 ≤ n ≤ m → uN m z.
Proof. intros [H1 H2] Hnm. split; [done|]. pose proof (Z.pow_le_mono_r 2 n m). lia. Qed.
Lemma uN_land n a b : 0 ≤ n → uN n a → 0 ≤ b → uN n (Z.land a b).
Proof. intros Hn Ha Hb. by apply land_range. Qed.
Lemma uN_lor n a b : 0 ≤ n → uN n a → uN n b → uN n (Z.lor a b).
Proof.
  intros Hn Ha Hb. apply uN_bits; [done|apply Z.lor_nonneg; split; [apply Ha|apply Hb]|]. intros i Hi.
  by rewrite Z.lor_spec, (testbit_high a n), (testbit_high b n) by done.
Qed.
Lemma le_val_uN n bs : Forall is_byte bs → Z.of_nat (length bs) * 8 ≤ n → uN n (le_val bs).
Proof.
  intros Hb Hl. apply le_val_bound in Hb. destruct Hb as [H1 H2]. split; [done|].
  change U8 with (2 ^ 8) in H2. rewrite <- Z.pow_mul_r in H2 by lia.
  pose proof (Z.pow_le_mono_r 2 (8 * Z.of_nat (length bs)) n). lia.
Qed.

(** * The vcpu's registers are machine words *)

Record cpu_ok (c : Cpu) : Prop := mkCpuOk {
  ok_xlen : length (x c) = 31%nat; ok_x : Forall u64 (x c);
  ok_sp : u64 (sp c); ok_pc : u64 (pc c); ok_tpidr : u64 (tpidr c); ok_cntvct : u64 (cntvct c);
  ok_fpcr : Z.land (fpcr c) FPCR_WRITABLE = fpcr c; ok_fpsr : Z.land (fpsr c) FPSR_WRITABLE = fpsr c;
  ok_vlen : length (v c) = 32%nat; ok_v : Forall (uN 128) (v c);
  ok_excl : u64 (excl_addr c);
  ok_tags : length (tags (fetch c)) = 16%nat; ok_pages : length (pages (fetch c)) = 16%nat;
  ok_bytes : Forall (Forall is_byte) (pages (fetch c))
}.

Lemma ok_with_flags c f : cpu_ok c → cpu_ok (with_flags c f).
Proof. intros H. destruct H. by split. Qed.
Lemma ok_drop_page f p : length (tags f) = 16%nat → length (tags (drop_page f p)) = 16%nat ∧ pages (drop_page f p) = pages f.
Proof. intros Hf. unfold drop_page. case_match; simpl; [by rewrite length_insert|done]. Qed.
