(* ===== verification/A64Eff.v ===== *)
(** What one A64 instruction may do to memory, to the exclusive monitor and to the fetch cache,
    from which [A64Run] derives what holds over whole runs. *)
From S2P Require Import Prelude Iface A64 A64Alu A64Mem A64Ldst A64Flags A64Bits A64Safe.
From stdpp Require Import base numbers relations list.
Local Open Scope Z_scope.

(** The part of the vcpu that is not registers. *)
Definition core (c : Cpu) : FetchCache * bool * Z := (fetch c, excl_monitor c, excl_addr c).

Lemma core_write_x c i a : core (write_x c i a) = core c.
Proof. unfold write_x. by destruct (i =? 31). Qed.
Lemma core_write_sp c i a : core (write_sp c i a) = core c.
Proof. unfold write_sp. by destruct (i =? 31). Qed.
Lemma core_write_v c i a : core (write_v c i a) = core c.
Proof. done. Qed.
Lemma core_with_x c l : core (with_x c l) = core c.
Proof. done. Qed.
Lemma core_with_pc c a : core (with_pc c a) = core c.
Proof. done. Qed.
Lemma core_with_flags c f : core (with_flags c f) = core c.
Proof. done. Qed.
Lemma core_set_nz c r sf : core (set_nz c r sf) = core c.
Proof. done. Qed.
Lemma core_awc c a b d sf : core (add_with_carry_flags c a b d sf).2 = core c.
Proof. unfold add_with_carry_flags. by destruct sf. Qed.
Lemma core_addsub c a b sub sf : core (addsub_flags c a b sub sf).2 = core c.
Proof. unfold addsub_flags. destruct sub; apply core_awc. Qed.
Create Rewrite HintDb vcore.
#[export] Hint Rewrite core_write_x core_write_sp core_write_v core_with_x core_with_pc core_with_flags
  core_set_nz core_awc core_addsub : vcore.

(** Case analysis on the tests of a handler, then the rewriting above. *)
Ltac core_cases := repeat match goal with
  | |- core (snd (if ?b then _ else _)) = _ => destruct b
  | |- core (snd (match ?o with Some _ => _ | None => _ end)) = _ => destruct o as [[? ?]|]
  | |- core (snd (let '(r, c) := ?p in _)) = _ => rewrite (surjective_pairing p)
  | |- core (if ?b then _ else _) = _ => destruct b
  end; cbn [fst snd]; autorewrite with vcore; try reflexivity.

Lemma core_dp_imm c instr : core (exec_dp_imm c instr).2 = core c.
Proof.
  unfold exec_dp_imm, dp_adr, dp_addsub_imm, dp_logic_imm, dp_mov_wide, dp_bitfield, dp_extr. cbv zeta. core_cases.
Qed.
Lemma core_flagm c instr : core (exec_flagm c instr).2 = core c.
Proof. unfold exec_flagm. cbv zeta. core_cases. Qed.
Lemma core_dp_reg c instr : core (exec_dp_reg c instr).2 = core c.
Proof.
  unfold exec_dp_reg, dp_logic_reg, dp_addsub_reg, dp_adc, dp_ccmp, dp_csel, dp_1src, dp_2src, dp_3src. cbv zeta.
  core_cases; try apply core_flagm; repeat match goal with
    | |- context [if ?b then add_with_carry_flags _ _ _ _ _ else _] => destruct b
    | |- context [if ?b then addsub_flags _ _ _ _ _ else _] => destruct b
    | |- context [if ?b then _ else _] => destruct b
    end; cbn [fst snd]; autorewrite with vcore; done.
Qed.

(** * Effects *)

(** The encodings of [LDXR], [LDAXR], [LDXP] and [LDAXP]. *)
Definition load_excl (instr : Z) : bool :=
  (fld instr 28 3 =? 0) && negb (fbit instr 26) && (fld instr 24 1 =? 0) && (fld instr 23 1 =? 0)
  && fbit instr 22 && ((fld instr 21 1 =? 0) || (2 <=? Z.shiftr instr 30)).

(** Where such an instruction loads from - its base register - and how many bytes (the first half,
    for a pair). *)
Definition excl_target (c : Cpu) (instr : Z) : option (Z * Z) :=
  if load_excl instr then Some (read_sp c (reg_field instr 5), Z.shiftl 1 (Z.shiftr instr 30)) else None.

Section Eff.
Context `{CpuMem M} (tgt : option (Z * Z)).

(** What an instruction does, [tgt] being its [excl_target]. Nothing but registers; a dropped
    monitor; a flushed cache; a load-exclusive, which opens the monitor where it loads from; a
    store, which goes through [note_store]. *)
Inductive eff (c : Cpu) (mem : M) : Cpu → M → Prop :=
| eff_pure c' : core c' = core c → eff c mem c' mem
| eff_clear c' : core c' = (fetch c, false, excl_addr c) → eff c mem c' mem
| eff_flush c' : core c' = (fetch_clear (fetch c), excl_monitor c, excl_addr c) → eff c mem c' mem
| eff_open c' a n bs : tgt = Some (a, n) → cm_read mem a n = Some bs → core c' = (fetch c, true, a) → eff c mem c' mem
| eff_store c' a bs e mem' :
    (1 ≤ length bs ≤ 64)%nat → Forall is_byte bs → cm_write mem a bs = (e, mem') →
    core c' = (invalidate (fetch c) a (Z.of_nat (length bs)), false, excl_addr c) → eff c mem c' mem'.
(** The effect of a handler's result. *)
Definition effect (c : Cpu) (mem : M) (r : Step * Cpu * M) : Prop := eff c mem r.1.2 r.2.

Lemma effect_pure c mem s c' : core c' = core c → effect c mem (s, c', mem).
Proof. intros E. by apply eff_pure. Qed.

(** A store, and whatever registers the handler writes afterwards. *)
Lemma effect_store c c1 mem a bs r :
  fetch c1 = fetch c → excl_addr c1 = excl_addr c → (1 ≤ length bs ≤ 64)%nat → Forall is_byte bs →
  (∀ e c' mem', store_bytes c1 mem a bs = (e, c', mem') → ∃ s c2, r = (s, c2, mem') ∧ core c2 = core c') →
  effect c mem r.
Proof.
  intros Hf Ha Hl Hb Hr. destruct (store_bytes c1 mem a bs) as [[e c'] mem'] eqn:E.
  destruct (Hr _ _ _ eq_refl) as (s & c2 & -> & Hc). unfold store_bytes in E.
  destruct (cm_write mem a bs) as [e' m'] eqn:Ew. injection E as <- <- <-.
  eapply eff_store; [done|done|done|]. rewrite <- Hf, <- Ha. exact Hc.
Qed.
Lemma length_low n a : length (low_bytes n a) = Z.to_nat n.
Proof. apply length_le_bytes. Qed.

Ltac by_store := match goal with |- effect ?c ?mem ?r =>
    match r with context [store_bytes ?c1 mem ?a ?bs] => apply (effect_store c c1 mem a bs) end
  end; [done|done|rewrite ?length_app, ?length_low; lia|rewrite ?Forall_app; split_and?; apply le_bytes_is_byte|];
  intros err0 c' mem' Est; rewrite Est; destruct err0; eexists _, _; (split; [reflexivity|]);
  autorewrite with vcore; try reflexivity.

Lemma pow_size n k : 0 ≤ n ≤ k → k ≤ 4 → 1 ≤ Z.shiftl 1 n ≤ 16.
Proof.
  intros Hn Hk. rewrite Z.shiftl_1_l. split; [apply (Z.pow_le_mono_r 2 0); lia|apply (Z.pow_le_mono_r 2 n 4); lia].
Qed.
Lemma eff_load_x c addr scale rt sx mem : effect c mem (load_x c addr scale rt sx mem).
Proof. unfold load_x. destruct (cm_read _ _ _); apply effect_pure; by autorewrite with vcore. Qed.
Lemma eff_store_x c addr scale rt mem : 0 ≤ scale ≤ 4 → effect c mem (store_x c addr scale rt mem).
Proof. intros Hs. pose proof (pow_size scale 4 Hs). unfold store_x. by_store. Qed.
Lemma eff_ldst_vec c addr scale l rt mem : 0 ≤ scale ≤ 4 → effect c mem (ldst_vec c addr scale l rt mem).
Proof.
  intros Hs. pose proof (pow_size scale 4 Hs). unfold ldst_vec. destruct l; [|by_store].
  destruct (cm_read _ _ _); by apply effect_pure.
Qed.

(** Writing registers after an effect keeps it. *)
Lemma effect_regs c mem s c1 s' c2 m : effect c mem (s, c1, m) → core c2 = core c1 → effect c mem (s', c2, m).
Proof.
  intros He E. unfold effect in *. simpl in *. inversion He; subst.
  - apply eff_pure. congruence. - apply eff_clear. congruence. - apply eff_flush. congruence.
  - eapply eff_open; [done|done|]. congruence. - eapply eff_store; [done|done|done|]. congruence.
Qed.

Lemma single_scale instr mode scale op : 0 ≤ instr < U32 → single_op instr mode = Some (scale, op) → 0 ≤ scale ≤ 4.
Proof.
  intros Hi E. assert (0 ≤ Z.shiftr instr 30 < 4) as Hs by (rewrite Z.shiftr_div_pow2 by done; unfold U32 in *; divlia).
  unfold single_op, fp_op in E. repeat case_match; simplify_eq; lia.
Qed.
Lemma eff_single c instr mem mode : 0 ≤ instr < U32 → effect c mem (exec_single c instr mem mode).
Proof.
  intros Hi. unfold exec_single. destruct (single_op instr mode) as [[scale op]|] eqn:E; [|by apply effect_pure].
  apply single_scale in E; [|done]. destruct (single_addr _ _ _ _ _) as [[addr wb]|]; [|by apply effect_pure].
  set (r := if fbit instr 26 then _ else _). assert (effect c mem r) as He; [|destruct r as [[s c1] m1]].
  { destruct (fbit instr 26); [by apply eff_ldst_vec|]. destruct op; [by apply eff_store_x|apply eff_load_x..|by apply effect_pure]. }
  destruct s, wb; try done. by eapply effect_regs; [|apply core_write_sp].
Qed.
Lemma eff_literal c instr mem : 0 ≤ instr < U32 → effect c mem (exec_literal c instr mem).
Proof.
  intros Hi. assert (0 ≤ Z.shiftr instr 30 < 4) as Hs by (rewrite Z.shiftr_div_pow2 by done; unfold U32 in *; divlia).
  unfold exec_literal. destruct (fbit instr 26).
  - destruct (Z.eqb_spec (Z.shiftr instr 30) 3); [by apply effect_pure|]. apply eff_ldst_vec. lia.
  - repeat (destruct (_ =? _); [apply eff_load_x|]). by apply effect_pure.
Qed.
Lemma pair_scale_range opc mode ve ld scale sx : 0 ≤ opc < 4 → pair_scale opc mode ve ld = Some (scale, sx) → 2 ≤ scale ≤ 4.
Proof. intros Ho E. unfold pair_scale in E. repeat case_match; simplify_eq; lia. Qed.
Lemma eff_pair c instr mem : 0 ≤ instr < U32 → effect c mem (exec_pair c instr mem).
Proof.
  intros Hi. assert (0 ≤ Z.shiftr instr 30 < 4) as Hs by (rewrite Z.shiftr_div_pow2 by done; unfold U32 in *; divlia).
  unfold exec_pair. destruct (pair_scale _ _ _ _) as [[scale sx]|] eqn:E; [|by apply effect_pure].
  apply pair_scale_range in E; [|done]. pose proof (pow_size scale 4 ltac:(lia)).
  destruct (fbit instr 22).
  - destruct (cm_read _ _ _); apply effect_pure; [|done].
    repeat match goal with |- context [if ?b then _ else _] => destruct b end; by autorewrite with vcore.
  - destruct (if fbit instr 26 then _ else _) as [a b]. by_store.
    repeat match goal with |- context [if ?b then _ else _] => destruct b end; by autorewrite with vcore.
Qed.

(** The exclusive and atomic accesses. *)
Lemma eff_cas_single c a n rs rt mem : 1 ≤ n ≤ 16 → effect c mem (cas_single c a n rs rt mem).
Proof.
  intros Hn. unfold cas_single. destruct (mem_read_sized _ _ _); [|by apply effect_pure].
  destruct (_ =? _); [by_store|apply effect_pure; by autorewrite with vcore].
Qed.
Lemma eff_cas_pair c a n rs rt mem : 1 ≤ n ≤ 16 → effect c mem (cas_pair c a n rs rt mem).
Proof.
  intros Hn. unfold cas_pair. destruct (mem_read_sized mem a _); [|by apply effect_pure].
  destruct (mem_read_sized _ _ _); [|by apply effect_pure].
  destruct (_ && _); [by_store|apply effect_pure; by autorewrite with vcore].
Qed.
Lemma eff_swp c a n rs rt mem : 1 ≤ n ≤ 16 → effect c mem (swp c a n rs rt mem).
Proof. intros Hn. unfold swp. destruct (mem_read_sized _ _ _); [by_store|by apply effect_pure]. Qed.
Lemma eff_ld_op c a n rs rt op mem : 1 ≤ n ≤ 16 → effect c mem (ld_op c a n rs rt op mem).
Proof. intros Hn. unfold ld_op. destruct (mem_read_sized _ _ _); [by_store|by apply effect_pure]. Qed.

Lemma eff_excl_single c a size rs rt ld mem : (ld = true → tgt = Some (a, Z.shiftl 1 size)) → 0 ≤ size ≤ 3 → effect c mem (excl_single c a size rs rt ld mem).
Proof.
  intros Hlx Hs. pose proof (pow_size size 4 ltac:(lia)). unfold excl_single, excl_check. destruct ld.
  - unfold mem_read_sized. destruct (cm_read mem a _) as [bs|] eqn:E; simpl; [|by apply effect_pure].
    eapply eff_open; [by apply Hlx|exact E|]. unfold open_monitor. simpl. unfold write_x. by destruct (rt =? 31).
  - destruct (_ && _); [by_store|]. apply eff_clear. cbn [fst snd]. by rewrite core_write_x.
Qed.
Lemma eff_excl_pair c a size rs rt rt2 ld mem : (ld = true → tgt = Some (a, Z.shiftl 1 size)) → 0 ≤ size ≤ 3 → effect c mem (excl_pair c a size rs rt rt2 ld mem).
Proof.
  intros Hlx Hs. pose proof (pow_size size 4 ltac:(lia)). unfold excl_pair, excl_check. destruct ld.
  - unfold mem_read_sized. destruct (cm_read mem a _) as [bs|] eqn:E; simpl; [|by apply effect_pure].
    destruct (cm_read mem ((a + _) mod _) _); simpl; [|by apply effect_pure].
    eapply eff_open; [by apply Hlx|exact E|]. unfold open_monitor. simpl. unfold write_x. by destruct (rt =? 31), (rt2 =? 31).
  - destruct (_ && _); [by_store|]. apply eff_clear. cbn [fst snd]. by rewrite core_write_x.
Qed.
Lemma eff_exclusive c instr mem :
  (fld instr 23 1 = 0 → fbit instr 22 = true → fld instr 21 1 = 0 ∨ 2 ≤ Z.shiftr instr 30 →
    tgt = Some (read_sp c (reg_field instr 5), Z.shiftl 1 (Z.shiftr instr 30))) →
  0 ≤ instr < U32 → effect c mem (exec_exclusive c instr mem).
Proof.
  intros Hlx Hi. assert (0 ≤ Z.shiftr instr 30 ≤ 3) as Hs by (rewrite Z.shiftr_div_pow2 by done; unfold U32 in *; divlia).
  pose proof (pow_size (Z.shiftr instr 30) 4 ltac:(lia)). unfold exec_exclusive.
  destruct (excl_unallocated _ _ _ _ _ _ _); [by apply effect_pure|].
  destruct (crosses_granule _ _); [by apply effect_pure|].
  destruct (Z.eqb_spec (fld instr 23 1) 0); [destruct (Z.eqb_spec (fld instr 21 1) 0)|destruct (fld instr 21 1 =? 0)].
  - apply eff_excl_single; [|done]. auto.
  - destruct (Z.leb_spec 2 (Z.shiftr instr 30)); [apply eff_excl_pair; [|done]; auto|]. apply eff_cas_pair. case_match; lia.
  - destruct (fbit instr 22); [apply eff_load_x|apply eff_store_x; lia]. - apply eff_cas_single; lia.
Qed.
Lemma eff_rcpc2 c instr mem : 0 ≤ instr < U32 → effect c mem (exec_rcpc2 c instr mem).
Proof.
  intros Hi. assert (0 ≤ Z.shiftr instr 30 ≤ 3) as Hs by (rewrite Z.shiftr_div_pow2 by done; unfold U32 in *; divlia).
  unfold exec_rcpc2. destruct (_ && _); [by apply effect_pure|]. destruct (crosses_granule _ _); [by apply effect_pure|].
  destruct (_ =? 0); [apply eff_store_x; lia|]. repeat (destruct (_ =? _); [apply eff_load_x|]). apply eff_load_x.
Qed.
Lemma eff_atomic c instr mem : 0 ≤ instr < U32 → effect c mem (exec_atomic c instr mem).
Proof.
  intros Hi. assert (0 ≤ Z.shiftr instr 30 ≤ 3) as Hs by (rewrite Z.shiftr_div_pow2 by done; unfold U32 in *; divlia).
  pose proof (pow_size (Z.shiftr instr 30) 4 ltac:(lia)).
  unfold exec_atomic. destruct (_ && _); [by apply effect_pure|]. destruct (crosses_granule _ _); [by apply effect_pure|].
  destruct (_ =? 0); [apply eff_ld_op; lia|]. destruct (_ =? 0); [apply eff_swp; lia|apply eff_load_x].
Qed.

(** Structure loads and stores. *)
Lemma core_foldl {A} (f : Cpu → A → Cpu) l : ∀ c, (∀ c a, core (f c a) = core c) → core (foldl f c l) = core c.
Proof. induction l as [|a l IH]; intros c Hf; simpl; [done|]. by rewrite IH, Hf. Qed.
Lemma core_struct_post c post rn rm addr total : core (struct_post c post rn rm addr total) = core c.
Proof. unfold struct_post. destruct post; by autorewrite with vcore. Qed.
Lemma core_set_lane c t e es ix q rep : core (set_lane c t e es ix q rep) = core c.
Proof. unfold set_lane. by destruct rep. Qed.
Lemma lane_scale opcode size q ld sc rep ix : 0 ≤ size ≤ 3 → lane_of opcode size q ld = Some (sc, rep, ix) → 0 ≤ sc ≤ 3.
Proof. intros Hs E. unfold lane_of in E. repeat case_match; simplify_eq; lia. Qed.
Lemma Forall_bind_all {A B} (P : B → Prop) (f : A → list B) l : (∀ a, Forall P (f a)) → Forall P (l ≫= f).
Proof. intros Hf. apply Forall_bind, Forall_true. done. Qed.
Lemma length_bind_const {A B} (f : A → list B) n l : (∀ a, length (f a) = n) → length (l ≫= f) = (length l * n)%nat.
Proof. intros Hf. induction l as [|a l IH]; [done|]. rewrite bind_cons, length_app, IH, Hf. done. Qed.

Lemma eff_simd_single c instr opcode size rn rm rt addr q ld post mem :
  0 ≤ size ≤ 3 → effect c mem (simd_single c instr opcode size rn rm rt addr q ld post mem).
Proof.
  intros Hs. unfold simd_single. destruct (lane_of _ _ _ _) as [[[sc rep] ix]|] eqn:E; [|by apply effect_pure].
  apply lane_scale in E; [|done]. assert (1 ≤ Z.shiftl 1 sc ≤ 8) as Hb.
  { rewrite Z.shiftl_1_l. split; [apply (Z.pow_le_mono_r 2 0); lia|apply (Z.pow_le_mono_r 2 sc 3); lia]. }
  assert (0 ≤ Z.lor (Z.shiftl (Z.land (Z.shiftr opcode 1) 1) 1) (fld instr 21 1) < 2 ^ 2) as Hse.
  { apply (uN_lor 2); [done| |apply (uN_le 1); [by apply (fld_range instr 21 1)|done]].
    pose proof (fld_range opcode 1 1 ltac:(done)) as Hf. change (Z.ones 1) with 1 in Hf. unfold fld in Hf.
    rewrite Z.shiftl_mul_pow2 by done. split; lia. }
  set (se := Z.lor _ _) in *. destruct ld.
  - destruct (cm_read _ _ _); apply effect_pure; [|done].
    rewrite core_struct_post. apply core_foldl. intros. apply core_set_lane.
  - match goal with |- effect _ _ ?r => match r with context [store_bytes c mem ?a ?bs] => apply (effect_store c c mem a bs) end end;
      [done|done| | |].
    + rewrite (length_bind_const _ (Z.to_nat (Z.shiftl 1 sc))) by (intros; apply length_low). rewrite length_seqZ. nia.
    + apply Forall_bind_all. intros. apply le_bytes_is_byte.
    + intros e c' mem' E'. rewrite E'. destruct e; eexists _, _; (split; [reflexivity|]); [done|apply core_struct_post].
Qed.
Lemma shape_small opcode rpt se : struct_shape opcode = Some (rpt, se) →
  (rpt, se) ∈ [(1, 4); (4, 1); (1, 3); (3, 1); (1, 1); (1, 2); (2, 1)]%nat.
Proof. unfold struct_shape. repeat case_match; intros; simplify_eq; set_solver. Qed.
Lemma length_order rpt el se : length (struct_order rpt el se) = (rpt * (el * se))%nat.
Proof.
  unfold struct_order. rewrite (length_bind_const _ (el * se)%nat); [by rewrite length_seq|]. intros r.
  rewrite (length_bind_const _ se); [by rewrite length_seq|]. intros e. by rewrite length_fmap, length_seq.
Qed.
Lemma chunk_length n k l : ((k + 1) * n ≤ length l)%nat → length (chunk n k l) = n.
Proof. intros Hk. unfold chunk. rewrite length_take, length_drop. nia. Qed.
Lemma order_elem rpt el se r e s : (r, e, s) ∈ struct_order rpt el se → (e < el)%nat.
Proof.
  unfold struct_order. rewrite list_elem_of_bind. intros (r' & Hr & _). rewrite list_elem_of_bind in Hr.
  destruct Hr as (e' & He & Hin). rewrite list_elem_of_fmap in He. destruct He as (s' & [= -> -> ->] & _).
  apply elem_of_seq in Hin. lia.
Qed.
Lemma length_bind_in {A B} (f : A → list B) n l : (∀ a, a ∈ l → length (f a) = n) → length (l ≫= f) = (length l * n)%nat.
Proof.
  induction l as [|a l IH]; intros Hf; [done|]. rewrite bind_cons, length_app, IH, Hf; [done|by left|].
  intros a' Ha. apply Hf. by right.
Qed.
Lemma struct_store_length c rpt se size (q : bool) rt opcode :
  0 ≤ size ≤ 3 → struct_shape opcode = Some (rpt, se) →
  let eb := Z.to_nat (Z.shiftl 1 size) in
  let rb := if q then 16%nat else 8%nat in
  (1 ≤ length (struct_order rpt (rb / eb) se ≫= λ '(r, e, s),
     chunk eb e (low_bytes 16 (read_v c ((rt + Z.of_nat r + Z.of_nat s) mod 32)))) ≤ 64)%nat.
Proof.
  intros Hs Hsh eb rb.
  assert (eb = 1 ∨ eb = 2 ∨ eb = 4 ∨ eb = 8)%nat as Heb.
  { unfold eb. assert (size = 0 ∨ size = 1 ∨ size = 2 ∨ size = 3) as [-> | [-> | [-> | ->]]] by lia; compute; auto. }
  assert ((rb / eb) * eb = rb)%nat as Hdiv by (unfold rb; destruct q, Heb as [-> | [-> | [-> | ->]]]; done).
  rewrite (length_bind_in _ eb).
  - rewrite length_order. apply shape_small in Hsh. rewrite !elem_of_cons, elem_of_nil in Hsh.
    assert (rb = 16 ∨ rb = 8)%nat by (unfold rb; destruct q; auto). set (el := (rb / eb)%nat) in *. clearbody el eb rb.
    destruct Hsh as [[= -> ->]|[[= -> ->]|[[= -> ->]|[[= -> ->]|[[= -> ->]|[[= -> ->]|[[= -> ->]|[]]]]]]]]; nia.
  - intros [[r e] s'] He. apply order_elem in He. apply chunk_length. rewrite length_low.
    assert (rb ≤ 16)%nat by (unfold rb; destruct q; lia). change (Z.to_nat 16) with 16%nat. nia.
Qed.
Lemma eff_simd_multiple c opcode size rn rm rt addr q ld post mem :
  0 ≤ size ≤ 3 → effect c mem (simd_multiple c opcode size rn rm rt addr q ld post mem).
Proof.
  intros Hs. unfold simd_multiple. destruct (struct_shape opcode) as [[rpt se]|] eqn:E; [|by apply effect_pure].
  destruct (_ && _); [by apply effect_pure|]. destruct ld.
  - destruct (cm_read _ _ _); apply effect_pure; [|done].
    rewrite core_struct_post. apply core_foldl. intros. apply core_write_v.
  - match goal with |- effect _ _ ?r => match r with context [store_bytes c mem ?a ?bs] => apply (effect_store c c mem a bs) end end;
      [done|done|by eapply struct_store_length| |].
    { apply Forall_bind_all. intros [[r e] s]. by apply Forall_take, Forall_drop, le_bytes_is_byte. }
    intros e c' mem' E'. rewrite E'. destruct e; eexists _, _; (split; [reflexivity|]); [done|apply core_struct_post].
Qed.
Lemma eff_simd_struct c instr mem : effect c mem (exec_simd_struct c instr mem).
Proof.
  unfold exec_simd_struct. destruct (negb _); [by apply effect_pure|]. destruct (_ || _); [by apply effect_pure|].
  pose proof (fld_range instr 10 2 ltac:(done)) as Hs. change (Z.ones 2) with 3 in Hs.
  destruct (fbit instr 24); [apply eff_simd_single|apply eff_simd_multiple]; lia.
Qed.
Lemma eff_ldst c instr mem : tgt = excl_target c instr → 0 ≤ instr < U32 → effect c mem (exec_ldst c instr mem).
Proof.
  intros Hlx Hi. unfold exec_ldst. destruct (_ && _); [by apply effect_pure|].
  destruct (fld instr 28 3 =? 0) eqn:E1.
  { destruct (fbit instr 26) eqn:E2; [apply eff_simd_struct|]. destruct (fld instr 24 1 =? 0) eqn:E3; [|by apply effect_pure].
    apply eff_exclusive; [|done]. intros E4 E5 E6. rewrite Hlx. unfold excl_target.
    assert (load_excl instr = true) as ->; [|reflexivity]. unfold load_excl. rewrite E1, E2, E3, E4, E5. cbn [andb negb].
    destruct E6 as [-> | E6%Z.leb_le]; [reflexivity|]. rewrite E6. apply orb_true_r. }
  clear Hlx. repeat match goal with |- effect _ _ (if ?b then _ else _) => destruct b end;
    eauto using eff_literal, eff_rcpc2, eff_pair, eff_single, eff_atomic, effect_pure.
Qed.

(** System instructions. *)
Lemma core_sysreg c key : core (read_sysreg c key).2 = core c ∧ ∀ a, core (write_sysreg c key a).2 = core c.
Proof.
  split; [unfold read_sysreg|intros a; unfold write_sysreg];
    repeat match goal with |- context [if ?b then _ else _] => destruct b | |- context [const_reg _ _] => destruct (const_reg _ _) end; done.
Qed.
Lemma eff_system c instr mem : effect c mem (exec_system c instr mem).
Proof.
  unfold exec_system. destruct (negb _); [by apply effect_pure|]. destruct (_ =? 0).
  - destruct (_ || _); [by apply effect_pure|]. destruct (_ =? 4).
    { apply eff_pure. unfold exec_msr_imm. cbn [fst]. repeat destruct (_ && _); done. }
    destruct (negb _); [by apply effect_pure|]. destruct (_ =? 2); [by apply effect_pure|].
    destruct (_ =? 3); [|by apply effect_pure]. unfold exec_barrier.
    destruct (_ =? 2); [by apply eff_clear|]. destruct (_ || _); [by apply effect_pure|].
    destruct (_ =? 6); [by apply eff_flush|]. destruct (_ && _); by apply effect_pure.
  - destruct (_ =? 1).
    + destruct (negb _); [by apply effect_pure|]. unfold exec_sys. destruct (_ =? _).
      { destruct (cm_write mem _ _) as [[e|] m'] eqn:E; (eapply eff_store; [| |exact E|]); rewrite ?length_replicate;
          [lia|by apply (Forall_replicate _ 64)|done|lia|by apply (Forall_replicate _ 64)|done]. }
      destruct (_ =? _); [by apply eff_flush|]. destruct (existsb _ _); by apply effect_pure.
    + destruct (_ =? 1); match goal with |- context [?f c ?k] => destruct (core_sysreg c k) as [H1 H2] end.
      * match goal with |- context [read_sysreg c ?k] => destruct (read_sysreg c k) as [[r|] c'] end; apply effect_pure; [|done].
        by autorewrite with vcore.
      * match goal with |- context [write_sysreg c ?k ?a] => specialize (H2 a); destruct (write_sysreg c k a) as [[] c'] end; by apply effect_pure.
Qed.
Lemma eff_branch_sys c instr mem : effect c mem (exec_branch_sys c instr mem).
Proof.
  unfold exec_branch_sys, branch. destruct (_ || _). { apply eff_pure. by destruct (_ =? 1). }
  destruct (_ || _). { case_match; by apply effect_pure. }
  destruct (_ =? 2). { destruct (_ || _); [by apply effect_pure|]. case_match; by apply effect_pure. }
  destruct (_ =? 6); [|by apply effect_pure]. destruct (_ =? 0); [repeat destruct (_ =? _); by apply effect_pure|].
  destruct (_ =? 1); [apply eff_system|]. apply eff_pure. unfold exec_branch_reg. cbn [fst].
  destruct (negb _); [done|]. destruct (_ || _); [done|]. by destruct (_ =? 1).
Qed.

Context (simd_fp : Cpu → Z → Step * Cpu).
(** The floating-point and SIMD arithmetic ([exec_simd_fp], not modelled) gets no memory, and its
    source names neither the monitor nor the cache. *)
Definition simd_pure : Prop := ∀ c instr, core (simd_fp c instr).2 = core c.

Lemma eff_exec c instr mem : simd_pure → tgt = excl_target c instr → 0 ≤ instr < U32 → effect c mem (exec simd_fp c instr mem).
Proof.
  intros Hsp Hlx Hi. unfold exec.
  destruct (_ || _); [apply eff_pure, core_dp_imm|]. destruct (_ || _); [by apply eff_ldst|].
  destruct (_ || _); [apply eff_pure, core_dp_reg|]. destruct (_ || _); [apply eff_branch_sys|].
  destruct (_ || _); [apply eff_pure, Hsp|by apply effect_pure].
Qed.
End Eff.
