(* ===== verification/A64Run.v ===== *)
(** Whole runs of the A64 interpreter ([Aarch64Interp::run]): the fetch cache is invisible,
    exclusive accesses are atomic, and the state a signal frame saves is the state it restores. *)
From S2P Require Import Prelude Iface A64 A64Alu A64Mem A64Ldst A64Flags A64Bits A64Safe A64Eff.
From stdpp Require Import base numbers relations list.
Local Open Scope Z_scope.

(** * Memory without aliases

    [fetch_plain m p]: nothing else in memory [m] is mapped to the page at [p]. Of such a page, a
    read is the concatenation of its parts, a store to other addresses changes nothing - nor does
    one that leaves the address space - and the page stays such. A page another address maps too
    (two mappings of one shared frame) is not plain: there the guest must issue [IC IVAU] or [ISB]
    after a store, as on hardware. *)
Class FetchMem (M : Type) `{CpuMem M} := {
  fetch_plain : M → Z → Prop;
  fetch_sub m p bs o k : fetch_plain m p → cm_read m p 4096 = Some bs → 0 ≤ o → 0 ≤ k → o + k ≤ 4096 →
    cm_read m (p + o) k = Some (take (Z.to_nat k) (drop (Z.to_nat o) bs));
  fetch_far m a bs e m' p : fetch_plain m p → Forall is_byte bs → cm_write m a bs = (e, m') →
    p + 4096 ≤ a ∨ a + Z.of_nat (length bs) ≤ p ∨ a < 0 ∨ U64 < a + Z.of_nat (length bs) →
    cm_read m' p 4096 = cm_read m p 4096;
  fetch_kept m a bs e m' p : fetch_plain m p → Forall is_byte bs → cm_write m a bs = (e, m') → fetch_plain m' p
}.

Lemma fm_sub m p n bs o k : fm_read m p n = Some bs → 0 ≤ o → 0 ≤ k → o + k ≤ n →
  fm_read m (p + o) k = Some (take (Z.to_nat k) (drop (Z.to_nat o) bs)).
Proof.
  unfold fm_read. intros Hr Ho Hk Hle. case_match eqn:E; [|done]. simplify_eq. rewrite !andb_true_iff, !Z.leb_le in E.
  rewrite (proj2 (Z.leb_le 0 k)), (proj2 (Z.leb_le 0 (p + o - fm_base m))),
    (proj2 (Z.leb_le (p + o - fm_base m + k) _)) by lia. simpl. f_equal.
  rewrite <- fmap_drop, <- fmap_take. f_equal. apply list_eq. intros i.
  destruct (decide (i < Z.to_nat k)%nat); [|by rewrite !lookup_take_ge by lia].
  rewrite !lookup_take_lt, !lookup_drop, lookup_take_lt, lookup_drop by lia. f_equal. lia.
Qed.
Lemma fm_far m a bs e m' p n : fm_store m a bs = (e, m') → p + n ≤ a ∨ a + Z.of_nat (length bs) ≤ p →
  fm_read m' p n = fm_read m p n.
Proof.
  unfold fm_store, fm_write. intros Hw Hd. destruct (_ || _); [by simplify_eq|].
  destruct ((0 <=? a - fm_base m) && _) eqn:E; [|by simplify_eq]. simplify_eq. rewrite andb_true_iff, !Z.leb_le in E.
  set (off := Z.to_nat (a - fm_base m)). assert (off + length bs ≤ length (fm_bytes m))%nat by lia.
  unfold fm_read. simpl. rewrite !length_app, length_take, length_drop.
  replace (off `min` length (fm_bytes m) + (length bs + (length (fm_bytes m) - (off + length bs))))%nat
    with (length (fm_bytes m)) by lia.
  case_match eqn:E2; [|done]. rewrite !andb_true_iff, !Z.leb_le in E2. f_equal. f_equal. apply list_eq. intros i.
  destruct (decide (i < Z.to_nat n)%nat); [|by rewrite !lookup_take_ge by lia].
  rewrite !lookup_take_lt, !lookup_drop by lia. set (j := (Z.to_nat (p - fm_base m) + i)%nat).
  destruct (decide (j < off)%nat).
  - rewrite lookup_app_l, lookup_take_lt by (rewrite ?length_take; lia). done.
  - rewrite lookup_app_r, length_take, lookup_app_r, lookup_drop by (rewrite ?length_take; lia). f_equal. lia.
Qed.
Lemma fm_wrap m a bs e m' p n : fm_store m a bs = (e, m') → a < 0 ∨ U64 < a + Z.of_nat (length bs) →
  fm_read m' p n = fm_read m p n.
Proof.
  unfold fm_store. intros Hw Ha.
  assert ((a <? 0) || (U64 <? a + Z.of_nat (length bs)) = true) as E
    by (apply orb_true_iff; destruct Ha; [left|right]; by apply Z.ltb_lt).
  rewrite E in Hw. by simplify_eq.
Qed.
(** A flat memory maps every page once. *)
Lemma fm_far_wrap m a bs e m' p : fm_store m a bs = (e, m') →
  p + 4096 ≤ a ∨ a + Z.of_nat (length bs) ≤ p ∨ a < 0 ∨ U64 < a + Z.of_nat (length bs) →
  fm_read m' p 4096 = fm_read m p 4096.
Proof. intros Hw [Hd|[Hd|Hd]]; [eapply fm_far; eauto..|by eapply fm_wrap]. Qed.
#[export, refine] Instance flat_FetchMem : FetchMem flat_mem := {| fetch_plain _ _ := True |}.
Proof. - intros. by eapply fm_sub. - intros. by eapply fm_far_wrap. - done. Defined.

(** * The fetch cache *)

Lemma page_of_spec a : page_of a = a / 4096 * 4096.
Proof.
  unfold page_of. change 0xfff with (Z.ones 12). rewrite Z.ldiff_ones_r, Z.shiftl_mul_pow2, Z.shiftr_div_pow2 by done. done.
Qed.
Lemma off_spec a : Z.land a 0xfff = a mod 4096.
Proof. change 0xfff with (Z.ones 12). by rewrite Z.land_ones. Qed.
Lemma page_of_page a : page_of (page_of a) = page_of a.
Proof. rewrite !page_of_spec. rewrite Z.div_mul by done. done. Qed.
Lemma page_not_none a : page_of a ≠ NO_PAGE.
Proof. rewrite page_of_spec. unfold NO_PAGE. lia. Qed.
Lemma way_range p : (Z.to_nat (way p) < 16)%nat.
Proof. unfold way, FETCH_WAYS. pose proof (Z.mod_pos_bound (Z.shiftr p 12) 16). lia. Qed.

Section Run.
Context `{FetchMem M}.

(** The arrays have their lengths and hold bytes; and every page cached is an unaliased page, as it
    is in memory. *)
Record fetch_ok (f : FetchCache) : Prop := mkFetchOk {
  fo_tags : length (tags f) = 16%nat; fo_pages : length (pages f) = 16%nat;
  fo_bytes : Forall (Forall is_byte) (pages f)
}.
Definition coherent (f : FetchCache) (mem : M) : Prop :=
  ∀ w tag, tags f !! w = Some tag → tag ≠ NO_PAGE →
    w = Z.to_nat (way tag) ∧ page_of tag = tag ∧ fetch_plain mem tag ∧ cm_read mem tag 4096 = pages f !! w.

Lemma fetch_word_spec f pc mem :
  fetch_ok f → coherent f mem → fetch_plain mem (page_of pc) → pc mod 4 = 0 →
  (fetch_word f pc mem).1 = le_val <$> cm_read mem pc 4 ∧ coherent (fetch_word f pc mem).2 mem.
Proof.
  intros [Ht Hp Hb] Hc Hpl Hpc. unfold fetch_word. set (page := page_of pc). set (w := Z.to_nat (way page)).
  assert (∀ bs, cm_read mem page 4096 = Some bs → Some (word_at bs (Z.land pc 4095)) = le_val <$> cm_read mem pc 4) as Hw.
  { intros bs Hr. rewrite off_spec. pose proof (Z.mod_pos_bound pc 4096 ltac:(done)).
    assert (pc mod 4096 + 4 ≤ 4096) by (Z.to_euclidean_division_equations; lia).
    replace pc with (page + pc mod 4096) at 2 by (unfold page; rewrite page_of_spec; pose proof (Z.div_mod pc 4096); lia).
    by rewrite (fetch_sub mem page bs (pc mod 4096) 4 Hpl Hr) by lia. }
  destruct (lookup_lt_is_Some_2 (tags f) w) as [tag Htag]; [rewrite Ht; apply way_range|].
  rewrite Htag. simpl. destruct (Z.eqb_spec tag page) as [->|Hne]; simpl.
  - destruct (Hc w page Htag (page_not_none pc)) as (_ & _ & _ & Hr).
    destruct (lookup_lt_is_Some_2 (pages f) w) as [bs Hbs]; [rewrite Hp; apply way_range|].
    rewrite Hbs in *. split; [by apply Hw|done].
  - destruct (cm_read mem page 4096) as [bs|] eqn:Hr; [|done]. simpl.
    rewrite list_lookup_insert_eq by (rewrite Hp; apply way_range). split; [by apply Hw|].
    intros w' tag' Hl Hn. simpl in *. destruct (decide (w' = w)) as [->|Hw'].
    + rewrite list_lookup_insert_eq in Hl by (rewrite Ht; apply way_range). simplify_eq.
        rewrite list_lookup_insert_eq by (rewrite Hp; apply way_range). split_and!; [done|apply page_of_page|done|done].
    + rewrite list_lookup_insert_ne in Hl by done. rewrite list_lookup_insert_ne by done. by apply Hc.
Qed.
Lemma fetch_word_range f pc mem w : fetch_ok f → (fetch_word f pc mem).1 = Some w → 0 ≤ w < U32.
Proof.
  intros [Ht Hp Hb]. unfold fetch_word.
  assert (∀ l off, Forall is_byte l → 0 ≤ word_at l off < U32) as Hw.
  { intros l off Hl. apply (le_val_uN 32); [by apply Forall_take, Forall_drop|]. rewrite length_take. lia. }
  assert (∀ ps : list (list Z), Forall (Forall is_byte) ps → ∀ n, Forall is_byte (default [] (ps !! n))) as Hd.
  { intros ps Hf n. destruct (ps !! n) eqn:E; simpl; [|constructor]. rewrite Forall_lookup in Hf. eauto. }
  destruct (negb _).
  - destruct (cm_read mem (page_of pc) 4096) as [bs|] eqn:Hr; simpl.
    + intros [= <-]. apply Hw, Hd. apply Forall_insert; [done|]. by eapply cm_read_bytes.
    + destruct (cm_read mem pc 4) as [l|] eqn:E; [|done]. intros [= <-].
      assert (Z.of_nat (length l) = 4) by (eapply cm_read_length; [|exact E]; lia). apply (le_val_uN 32); [by eapply cm_read_bytes|lia].
  - intros [= <-]. by apply Hw, Hd.
Qed.

Lemma drop_page_tag f p w tag :
  tags (drop_page f p) !! w = Some tag → tag ≠ NO_PAGE →
  tags f !! w = Some tag ∧ (w = Z.to_nat (way tag) → tag ≠ p) ∧ pages (drop_page f p) = pages f.
Proof.
  unfold drop_page. destruct (Z.eqb_spec (default 0 (tags f !! Z.to_nat (way p))) p) as [Hp|Hp]; simpl; intros Hl Hn.
  - apply list_lookup_insert_Some in Hl as [(_ & E & _)|[Hne Hl]]; [done|].
    split_and!; [done| |done]. intros -> ->. by apply Hne.
  - split_and!; [done| |done]. intros -> ->. rewrite Hl in Hp. by apply Hp.
Qed.
Lemma store_disjoint a n p :
  0 ≤ a → 1 ≤ n ≤ 64 → a + n ≤ U64 → page_of p = p → p ≠ page_of a → p ≠ page_of ((a + (n - 1)) mod U64) →
  p + 4096 ≤ a ∨ a + n ≤ p.
Proof.
  intros Ha Hn Hu. rewrite (Z.mod_small (a + (n - 1))) by lia. rewrite !page_of_spec. intros Hp H1 H2.
  Z.to_euclidean_division_equations. lia.
Qed.

Lemma fetch_word_ok f pc mem : fetch_ok f → fetch_ok (fetch_word f pc mem).2.
Proof.
  intros [Ht Hp Hb]. unfold fetch_word. destruct (negb _); [|done].
  destruct (cm_read mem (page_of pc) 4096) eqn:Hr; [|done]. split; simpl; rewrite ?length_insert; try done.
  apply Forall_insert; [done|]. by eapply cm_read_bytes.
Qed.
Lemma eff_fetch_ok tgt c mem c' mem' : eff tgt c mem c' mem' → fetch_ok (fetch c) → fetch_ok (fetch c').
Proof.
  intros He [H1 H2 H3].
  inversion He as [d E|d E|d E|d a n bs Hlx Hr E|d a bs e m' Hl Hb Hw E]; subst; injection E as Ef _ _; rewrite Ef; try done.
  unfold invalidate. destruct (ok_drop_page (fetch c) (page_of a) H1) as [L1 P1].
  destruct (ok_drop_page _ (page_of ((a + (Z.of_nat (length bs) - 1)) mod U64)) L1) as [L2 P2].
  split; [done|by rewrite P2, P1|by rewrite P2, P1].
Qed.

(** An instruction keeps the cache right. *)
Lemma eff_coherent tgt c mem c' mem' :
  eff tgt c mem c' mem' → coherent (fetch c) mem → coherent (fetch c') mem'.
Proof.
  intros He Hc. inversion He as [d E|d E|d E|d a n bs Hlx Hr E|d a bs e m' Hl Hb Hw E]; subst; injection E as Ef _ _;
    rewrite Ef; try done; intros w tag Ht Hn.
  - apply (lookup_replicate 16 NO_PAGE tag w) in Ht as [-> _]. by exfalso; apply Hn.
  - unfold invalidate in *. destruct (drop_page_tag _ _ _ _ Ht Hn) as (Ht1 & Hlast & P2).
    destruct (drop_page_tag _ _ _ _ Ht1 Hn) as (Ht2 & Hfirst & P1).
    rewrite P2, P1. destruct (Hc w tag Ht2 Hn) as (Hway & Hpage & Hpl & Hread).
    split_and!; [done|done|by eapply fetch_kept|]. rewrite <- Hread.
    apply (fetch_far mem a bs e mem' tag Hpl Hb Hw).
    destruct (decide (a < 0 ∨ U64 < a + Z.of_nat (length bs))) as [Hout|Hin]; [tauto|].
    destruct (store_disjoint a (Z.of_nat (length bs)) tag); [lia|lia|lia|done|by apply Hfirst|by apply Hlast|tauto|tauto].
Qed.

(** * Steps of a run *)

Context (simd_fp : Cpu → Z → Step * Cpu).
Definition cstep (s s' : Cpu * M) : Prop := run_step simd_fp s.1 s.2 = inr s'.
(** One that executes code from an unaliased page. *)
Definition plain_step (s s' : Cpu * M) : Prop := fetch_plain s.2 (page_of (pc s.1)) ∧ cstep s s'.

(** An iteration is a fetch, an effect and a new program counter. *)
Lemma cstep_inv c mem c' mem' :
  simd_pure simd_fp → fetch_ok (fetch c) → cstep (c, mem) (c', mem') →
  pc c mod 4 = 0 ∧ ∃ instr d, (fetch_word (fetch c) (pc c) mem).1 = Some instr ∧
    eff (excl_target c instr) (with_fetch c (fetch_word (fetch c) (pc c) mem).2) mem d mem' ∧ core c' = core d.
Proof.
  intros Hsp Hok. unfold cstep, run_step. cbn [fst snd]. change 3 with (Z.ones 2). rewrite Z.land_ones by done. change (2 ^ 2) with 4.
  destruct (Z.eqb_spec (pc c mod 4) 0) as [Hpc|]; cbn [negb]; [|done].
  destruct (fetch_word (fetch c) (pc c) mem) as [[instr|] f] eqn:Ef; cbn [fst snd]; [|done].
  pose proof (fetch_word_range (fetch c) (pc c) mem instr Hok) as Hr. rewrite Ef in Hr. specialize (Hr eq_refl).
  pose proof (eff_exec (excl_target c instr) simd_fp (with_fetch c f) instr mem Hsp eq_refl Hr) as He.
  destruct (exec simd_fp (with_fetch c f) instr mem) as [[s d] m]. unfold effect in He. cbn [fst snd] in He.
  destruct s; try done; intros E; injection E as <- <-; split; try done; exists instr, d; done.
Qed.
End Run.

(** * The invariants of a run *)

(** How [run] starts: monitor closed, cache empty. *)
Definition entry (c : Cpu) : Cpu :=
  with_fetch (with_excl c false (excl_addr c)) (fetch_clear (fetch c)).
Lemma entry_ok c : length (pages (fetch c)) = 16%nat → Forall (Forall is_byte) (pages (fetch c)) → fetch_ok (fetch (entry c)).
Proof. intros H1 H2. split; simpl; by rewrite ?length_replicate. Qed.
Lemma entry_coherent `{FetchMem M} c (mem : M) : coherent (fetch (entry c)) mem.
Proof. intros w tag Ht Hn. apply (lookup_replicate 16 NO_PAGE tag w) in Ht as [-> _]. by exfalso; apply Hn. Qed.

Lemma cstep_ok `{CpuMem M} simd_fp (s s' : Cpu * M) :
  simd_pure simd_fp → rtc (cstep simd_fp) s s' → fetch_ok (fetch s.1) → fetch_ok (fetch s'.1).
Proof.
  intros Hsp. induction 1 as [s|[c1 m1] [c2 m2] s3 Hs _ IH]; intros Hok; [done|]. apply IH.
  destruct (cstep_inv _ _ _ _ _ Hsp Hok Hs) as (_ & instr & d & _ & He & Hd).
  cbn [fst snd]. injection Hd as -> _ _. eapply eff_fetch_ok; [exact He|]. by apply fetch_word_ok.
Qed.
Lemma plain_steps `{FetchMem M} simd_fp (s s' : Cpu * M) : rtc (plain_step simd_fp) s s' → rtc (cstep simd_fp) s s'.
Proof. apply rtc_subrel. by intros ?? [_ ?]. Qed.
Lemma cstep_coherent `{FetchMem M} simd_fp (s s' : Cpu * M) :
  simd_pure simd_fp → rtc (plain_step simd_fp) s s' → fetch_ok (fetch s.1) → coherent (fetch s.1) s.2 → coherent (fetch s'.1) s'.2.
Proof.
  intros Hsp. induction 1 as [s|[c1 m1] [c2 m2] s3 [Hpl Hs] _ IH]; intros Hok Hc; [done|].
  apply IH; [by eapply (cstep_ok simd_fp (c1, m1) (c2, m2) Hsp); [apply rtc_once|]|].
  destruct (cstep_inv _ _ _ _ _ Hsp Hok Hs) as (Hpc & instr & d & _ & He & Hd).
  cbn [fst snd]. injection Hd as -> _ _. eapply eff_coherent; [exact He|]. by apply fetch_word_spec.
Qed.

(** C8: the instruction cache is invisible. A run starts with an empty cache and fills it page by
    page; as long as it executes from pages no other address maps, then - whatever it executes,
    stores over its own code included - every instruction it fetches is the word memory holds at
    the program counter then, and the fetch faults exactly when that word cannot be read. The
    floating-point and SIMD unit is any that leaves the cache and the monitor alone. *)
Theorem fetch_exact `{FetchMem M} simd_fp c0 (mem0 : M) c mem :
  simd_pure simd_fp →
  length (pages (fetch c0)) = 16%nat → Forall (Forall is_byte) (pages (fetch c0)) →
  rtc (plain_step simd_fp) (entry c0, mem0) (c, mem) → fetch_plain mem (page_of (pc c)) → pc c mod 4 = 0 →
  (fetch_word (fetch c) (pc c) mem).1 = le_val <$> cm_read mem (pc c) 4.
Proof.
  intros Hsp H1 H2 Hr Hpl Hpc. pose proof (entry_ok c0 H1 H2) as Hok.
  pose proof (cstep_ok simd_fp _ _ Hsp (plain_steps _ _ _ Hr) Hok).
  pose proof (cstep_coherent simd_fp _ _ Hsp Hr Hok (entry_coherent c0 mem0)). by apply fetch_word_spec.
Qed.

(** A step that neither writes memory nor touches the monitor, open at [a]. *)
Definition held_step `{CpuMem M} simd_fp (a : Z) (s s' : Cpu * M) : Prop :=
  cstep simd_fp s s' ∧ s'.2 = s.2 ∧ excl_monitor s.1 = true ∧ excl_addr s.1 = a.
(** The load-exclusive of [a] behind state [s]: some state reached before, whose instruction is one
    with [a] in its base register and reads memory there; from the step after it to [s] no step
    writes memory or closes the monitor. *)
Definition loaded_at `{CpuMem M} simd_fp (s0 s : Cpu * M) (a : Z) : Prop :=
  ∃ c1 c2 instr bs,
    rtc (cstep simd_fp) s0 (c1, s.2) ∧ cstep simd_fp (c1, s.2) (c2, s.2) ∧ rtc (held_step simd_fp a) (c2, s.2) s ∧
    (fetch_word (fetch c1) (pc c1) s.2).1 = Some instr ∧ load_excl instr = true ∧
    a = read_sp c1 (reg_field instr 5) ∧ cm_read s.2 a (Z.shiftl 1 (Z.shiftr instr 30)) = Some bs.

Lemma open_loaded `{CpuMem M} simd_fp (s0 s : Cpu * M) :
  simd_pure simd_fp → fetch_ok (fetch s0.1) → excl_monitor s0.1 = false → rtc (cstep simd_fp) s0 s →
  excl_monitor s.1 = true → loaded_at simd_fp s0 s (excl_addr s.1).
Proof.
  intros Hsp Hok Hcl. revert s. match goal with |- ∀ s, rtc _ _ s → @?P s => apply (rtc_ind_r P) end; [congruence|].
  intros [c1 m1] [c mem] Hr Hs IH. simpl in IH |- *. intros Hm. pose proof (cstep_ok simd_fp _ _ Hsp Hr Hok) as Hok1.
  destruct (cstep_inv _ _ _ _ _ Hsp Hok1 Hs) as (_ & instr & d & Hf & He & Hd). simpl in Hf.
  assert (excl_monitor c1 = true → excl_addr c1 = excl_addr c → mem = m1 → loaded_at simd_fp s0 (c, mem) (excl_addr c)) as Hkeep.
  { intros Hm1 Ha ->. destruct (IH Hm1) as (b1 & b2 & i & bs & R1 & R2 & R3 & R4). simpl in *. rewrite Ha in *.
    exists b1, b2, i, bs. split_and!; try done; try apply R4. eapply rtc_r; [exact R3|]. by split_and!. }
  injection Hd as _ Hmd Had. inversion He as [e E|e E|e E|e a n bs Hlx Hrd E|e a bs er m' Hl Hb Hw E]; subst; injection E as _ E1 E2.
  - apply Hkeep; [congruence|congruence|done]. - congruence. - apply Hkeep; [congruence|congruence|done].
  - unfold excl_target in Hlx. destruct (load_excl instr) eqn:El; [|done]. injection Hlx as <- <-.
    exists c1, c, instr, bs. rewrite Had, E2. split_and!; try done.
  - congruence.
Qed.

(** C23: exclusive accesses are atomic. Whenever, in a run, the monitor would let a
    store-exclusive to an address through, an earlier instruction of the same run was a
    load-exclusive of that very address - the one in its base register - that could read it, and
    from then on no step wrote memory or closed the monitor: memory is at every step in between,
    and now, what that instruction read. *)
Theorem exclusive_atomic `{CpuMem M} simd_fp c0 (mem0 : M) c mem a :
  simd_pure simd_fp →
  length (pages (fetch c0)) = 16%nat → Forall (Forall is_byte) (pages (fetch c0)) →
  rtc (cstep simd_fp) (entry c0, mem0) (c, mem) → (excl_check c a).1 = true →
  loaded_at simd_fp (entry c0, mem0) (c, mem) a.
Proof.
  intros Hsp H1 H2 Hr Hx. apply andb_true_iff in Hx as [Hm <-%Z.eqb_eq].
  by apply (open_loaded simd_fp (entry c0, mem0) (c, mem) Hsp (entry_ok c0 H1 H2)).
Qed.

(** * What a signal frame saves *)

Lemma nzcv_roundtrip f : from_nzcv (nzcv f) = f.
Proof. by destruct f as [[] [] [] []]. Qed.
Lemma rflags_bits c : Z.shiftr (rflags c) 28 mod U32 = nzcv (flags c) ∧ fbit (rflags c) 24 = dit c.
Proof. unfold rflags. destruct (flags c) as [[] [] [] []], (dit c); done. Qed.
Lemma read_vregs_bytes l tl : Forall (uN 128) l → read_vregs (length l) ((l ≫= le_bytes 16) ++ tl) = l.
Proof.
  induction 1 as [|z l Hz _ IH]; [done|]. rewrite bind_cons. cbn [length read_vregs].
  rewrite <- app_assoc, take_app_length', drop_app_length' by (by rewrite length_le_bytes).
  f_equal; [|apply IH]. by apply le_val_bytes_id.
Qed.
Lemma masked_low32 z m : uN 32 m → Z.land z m = z → le_val (le_bytes 4 (z mod U32)) = z.
Proof.
  intros Hm <-. rewrite le_val_bytes. change (U8 ^ Z.of_nat 4) with U32. rewrite Z.mod_mod by done.
  apply Z.mod_small. rewrite Z.land_comm. destruct (decide (0 ≤ z)); [by apply (uN_land 32); [|exact Hm|]|].
  apply (uN_bits 32); [done|apply Z.land_nonneg; left; apply Hm|]. intros i Hi.
  by rewrite Z.land_spec, (testbit_high m 32).
Qed.

(** What a signal frame saves is what it restores. For any vcpu of a run, the flags, the
    data-independent-timing bit, the floating-point control and status registers and all 32
    vector registers come back unchanged when the words and bytes saved from it ([rflags],
    [simd_state]) are written to any other vcpu, and each general register and the stack pointer
    when its saved value is. *)
Theorem signal_state_roundtrip c c' :
  cpu_ok c → length (x c') = 31%nat →
  let d := set_simd_state (set_rflags c' (rflags c)) (simd_state c) in
  flags d = flags c ∧ dit d = dit c ∧ fpcr d = fpcr c ∧ fpsr d = fpsr c ∧ v d = v c ∧
  ∀ i, 0 ≤ i < 32 → reg (set_reg c' i (reg c i)) i = reg c i.
Proof.
  intros Hc Hl d. destruct (rflags_bits c) as [Hn Hd].
  assert (length (simd_state c) = 520%nat) as Hlen.
  { unfold simd_state. rewrite !length_app, !length_le_bytes, (length_bind_const _ 16) by (intros; apply length_le_bytes).
    by rewrite (ok_vlen c Hc). }
  pose proof (masked_low32 (fpsr c) FPSR_WRITABLE ltac:(done) (ok_fpsr c Hc)) as Hs.
  pose proof (masked_low32 (fpcr c) FPCR_WRITABLE ltac:(done) (ok_fpcr c Hc)) as Hf.
  unfold d, set_simd_state. rewrite Hlen. cbn [Z.ltb]. change (Z.of_nat 520 <? 8 + 32 * 16) with false. cbv iota.
  unfold set_rflags. rewrite Hn, nzcv_roundtrip, Hd. cbn [flags dit fpcr fpsr v with_v with_fpcr with_fpsr with_dit with_flags].
  unfold simd_state. rewrite drop_0, take_app_length' by (by rewrite length_le_bytes). rewrite Hs.
  rewrite (drop_app_length' (le_bytes 4 _)), take_app_length' by (by rewrite length_le_bytes). rewrite Hf.
  rewrite app_assoc, (drop_app_length' (le_bytes 4 _ ++ le_bytes 4 _)) by (by rewrite length_app, !length_le_bytes).
  split_and!; [done|done|apply Hc|apply Hc| |].
  - rewrite <- (ok_vlen c Hc), <- (app_nil_r (v c ≫= le_bytes 16)). apply read_vregs_bytes, Hc.
  - intros i Hi. unfold reg, set_reg. destruct (Z.ltb_spec i 31); [|done]. cbn [x with_x].
    by rewrite list_lookup_insert_eq by lia.
Qed.

(** * Concrete runs *)

(** No floating-point unit: every such instruction is refused. *)
Definition no_fp (c : Cpu) (instr : Z) : Step * Cpu := (Illegal, c).
Lemma no_fp_pure : simd_pure no_fp.
Proof. done. Qed.
Lemma fresh_ok entry stack : u64 entry → u64 stack → cpu_ok (cpu_new entry stack).
Proof.
  intros He Hs. split; try done; try apply length_replicate.
  - apply (Forall_replicate _ 31). done. - apply (Forall_replicate _ 32). done.
  - apply (Forall_replicate _ 16), (Forall_replicate _ 4096). done.
Qed.

(** The state after one instruction. *)
Definition after (c : Cpu) (m : flat_mem) : Cpu * flat_mem :=
  match run_step no_fp c m with inr s => s | inl _ => (c, m) end.
Lemma after_step c m : pc (after c m).1 ≠ pc c → cstep no_fp (c, m) (after c m).
Proof. unfold after, cstep. simpl. by destruct (run_step no_fp c m) as [[[??]?]|s]. Qed.

(** [str w1, [x2]] writes [svc #0] over the next instruction. *)
Definition ex_code : flat_mem := {| fm_base := 0x10000; fm_bytes := le_bytes 4 0xB9000041 ++ replicate 4092 0 |}.
Definition ex_cpu : Cpu := write_x (write_x (cpu_new 0x10000 0x10800) 1 0xD4000001) 2 0x10004.

Lemma fetch_exact_witness :
  let s := after (entry ex_cpu) ex_code in
  (fetch_word (fetch s.1) (pc s.1) s.2).1 = le_val <$> cm_read s.2 (pc s.1) 4 ∧
  le_val <$> cm_read s.2 (pc s.1) 4 = Some 0xD4000001.
Proof.
  intros s. split; [|by vm_compute].
  apply (fetch_exact no_fp ex_cpu ex_code s.1 s.2 no_fp_pure); [apply length_replicate| | |done|by vm_compute].
  - apply (Forall_replicate _ 16), (Forall_replicate _ 4096). done.
  - rewrite <- surjective_pairing. apply rtc_once. split; [done|]. apply after_step. by vm_compute.
Defined.

(** [ldxr x0, [x1]] opens the monitor. *)
Definition ex_ldxr : flat_mem := {| fm_base := 0x10000; fm_bytes := le_bytes 4 0xC85F7C20 ++ replicate 28 7 |}.
Definition ex_cpu2 : Cpu := write_x (cpu_new 0x10000 0x10800) 1 0x10008.
Lemma exclusive_atomic_witness :
  let s := after (entry ex_cpu2) ex_ldxr in
  (excl_check s.1 0x10008).1 = true ∧ loaded_at no_fp (entry ex_cpu2, ex_ldxr) s 0x10008.
Proof.
  intros s. split; [by vm_compute|].
  apply (exclusive_atomic no_fp ex_cpu2 ex_ldxr s.1 s.2 0x10008 no_fp_pure).
  - apply length_replicate.
  - apply (Forall_replicate _ 16), (Forall_replicate _ 4096). done.
  - rewrite <- surjective_pairing. apply rtc_once, after_step. by vm_compute.
  - by vm_compute.
Defined.

Lemma signal_state_roundtrip_witness :
  let c := with_flags (cpu_new 0x10000 0x10800) (mkFlags true false true false) in
  let d := set_simd_state (set_rflags (cpu_new 0 0) (rflags c)) (simd_state c) in
  flags d = mkFlags true false true false ∧ v d = replicate 32 0.
Proof.
  intros c d. destruct (signal_state_roundtrip c (cpu_new 0 0)) as (H1 & _ & _ & _ & H2 & _);
    [by apply ok_with_flags, fresh_ok|apply length_replicate|]. split; [exact H1|exact H2].
Defined.
