(* ===== verification/MemIface.v ===== *)
(** The guest memory of [GuestMem] implements the interfaces the syscall handlers
    and the interpreter are proved against: [Iface.GuestMem] (reads and writes of guest
    memory), [Futex.SharedWords] (the physical identity of a shared word) and
    [A64Mem.CpuMem] (what a vcpu sees). So the theorems on seccomp, file locks, IPC, futexes
    and exclusive accesses hold over the real page tables. It implements [A64Run.FetchMem] too,
    the interface of the theorem on the fetch cache, where nothing is mapped twice: for code in the
    extent of a space without shared pages. *)
From S2P Require Import Prelude Iface Phys PageTable PageTree PageFork GuestMem GuestView GuestSpec Futex A64Mem A64Run.
From stdpp Require Import base numbers gmap gmultiset list.
Local Open Scope Z_scope.

(** A process' memory: the shared pool and its own address space. *)
Record ProcMem := mkProcMem { pm_state : Pool * GuestMemory; host_ok : Z → bool }.

(** [read_vec]; the bytes of a region are [u8]. *)
Definition proc_read (m : ProcMem) (addr len : Z) : option (list Z) :=
  match read_vec (host_ok m) addr len (pm_state m) with
  | Ok (inr bs, _) => Some ((λ b, b mod U8) <$> bs)
  | _ => None
  end.
(** [write]; a refused write leaves the bytes as they were ([GuestSpec.write_isolated]). *)
Definition proc_write (m : ProcMem) (addr : Z) (bs : list Z) : option ProcMem :=
  match mem_write addr bs (pm_state m) with
  | Ok (inr _, s) => Some (mkProcMem s (host_ok m))
  | _ => None
  end.
Definition proc_shared_phys (m : ProcMem) (addr : Z) : option Z :=
  match GuestMem.shared_phys addr (pm_state m) with
  | Ok (r, _) => r
  | Panic => None
  end.

Lemma phys_read_length p pa n bs : phys_read p pa n = Ok bs → length bs = n.
Proof.
  unfold phys_read, region_read. repeat case_match; intros E; simplify_eq.
  unfold get_bytes. rewrite length_fmap, length_seqZ. lia.
Qed.

Lemma copy_out_length fuel sp : ∀ cur len s bs s',
  len ≤ Z.of_nat fuel → copy_out_loop fuel sp cur len s = Ok (bs, s') → Z.of_nat (length bs) = Z.max 0 len.
Proof.
  induction fuel as [|fuel IH]; intros cur len s bs s' Hf E; cbn [copy_out_loop] in E.
  all: unfold mret, ST_ret, res_ret in E.
  - destruct (len <=? 0) eqn:El; [|lia]. cbn in E. simplify_eq. cbn [length]. lia.
  - destruct (len <=? 0) eqn:El; [cbn in E; simplify_eq; cbn [length]; lia|].
    unfold mbind, ST_bind in E. destruct (translate sp cur s) as [[t s1]|]; [|done].
    set (n := Z.min len (PAGE_SIZE - cur mod PAGE_SIZE)) in *.
    assert (1 ≤ n ≤ len) as Hn.
    { pose proof (Z.mod_pos_bound cur PAGE_SIZE ltac:(done)). unfold PAGE_SIZE in *. lia. }
    match type of E with match ?X with _ => _ end = _ => destruct X as [[b s2]|] eqn:Eb; [|done] end.
    assert (length b = Z.to_nat n) as Hb.
    { destruct t as [t|].
      - cbn in Eb. destruct (phys_read _ _ _) as [b'|] eqn:Ep; [|done]. cbn in Eb. simplify_eq.
        by eapply phys_read_length.
      - cbn in Eb. simplify_eq. apply length_replicate. }
    destruct (copy_out_loop fuel sp (cur + n) (len - n) s2) as [[rest s3]|] eqn:Er; [|done].
    cbn in E. simplify_eq. apply IH in Er; [|lia]. rewrite length_app. lia.
Qed.

Lemma mem_read_length addr len s bs s' : 0 ≤ len → mem_read addr len s = Ok (inr bs, s') → Z.of_nat (length bs) = len.
Proof.
  intros Hl. unfold mem_read.
  destruct (len =? 0) eqn:E0; [unfold mret, ST_ret; intros; simplify_eq; cbn [length]; lia|].
  unfold bindE, mbind, ST_bind, mret, ST_ret. destruct (check addr len _ _) as [[[e|u] [s1 g1]]|]; try done.
  cbn. destruct (copy_out _ addr len s1) as [[b' s3]|] eqn:Ec; [|done].
  cbn. intros; simplify_eq. unfold copy_out in Ec. apply copy_out_length in Ec; lia.
Qed.
Lemma proc_read_length m addr len bs :
  0 ≤ len → proc_read m addr len = Some bs → Z.of_nat (length bs) = len.
Proof.
  intros Hl. unfold proc_read. destruct (read_vec _ _ _ _) as [[[e|b] s]|] eqn:E; try done.
  intros Eb. simplify_eq. rewrite length_fmap. revert E. unfold read_vec.
  destruct (len =? 0) eqn:E0; [unfold mret, ST_ret; intros; simplify_eq; cbn [length]; lia|].
  unfold bindE, mbind, ST_bind, mret, ST_ret. destruct (check addr len _ _) as [[[e|u] s1]|]; try done.
  destruct (host_ok m len); [|done]. by apply mem_read_length.
Qed.

Lemma proc_read_bytes m addr len bs : proc_read m addr len = Some bs → Forall is_byte bs.
Proof.
  unfold proc_read. repeat case_match; intros E; simplify_eq.
  apply Forall_fmap, Forall_true. intros b. by apply Z.mod_pos_bound.
Qed.

#[export] Instance proc_GuestMem : GuestMem ProcMem := {|
  gm_read := proc_read; gm_write := proc_write;
  gm_read_length := proc_read_length; gm_read_bytes := proc_read_bytes |}.

#[export] Instance proc_SharedWords : SharedWords ProcMem := proc_shared_phys.

(** [read] and [write_trap], as the interpreter uses them: the bytes; the fault's address and the
    memory it leaves. The panics of [GuestMem.mem_write] do not occur in a well-formed space
    ([GuestSpec]). *)
Definition proc_load (m : ProcMem) (addr len : Z) : option (list Z) :=
  match mem_read addr len (pm_state m) with
  | Ok (inr bs, _) => Some ((λ b, b mod U8) <$> bs)
  | _ => None
  end.
Definition proc_store (m : ProcMem) (addr : Z) (bs : list Z) : option Z * ProcMem :=
  match mem_write addr bs (pm_state m) with
  | Ok (inr _, s) => (None, mkProcMem s (host_ok m))
  | Ok (inl e, s) => (Some (fault_addr e), mkProcMem s (host_ok m))
  | Panic => (Some addr, m)
  end.
Lemma proc_load_length m addr len bs : 0 ≤ len → proc_load m addr len = Some bs → Z.of_nat (length bs) = len.
Proof.
  intros Hl. unfold proc_load. destruct (mem_read _ _ _) as [[[e|b] s]|] eqn:E; try done.
  intros [= <-]. rewrite length_fmap. by eapply mem_read_length.
Qed.
Lemma proc_load_bytes m addr len bs : proc_load m addr len = Some bs → Forall is_byte bs.
Proof.
  unfold proc_load. repeat case_match; intros E; simplify_eq.
  apply Forall_fmap, Forall_true. intros b. by apply Z.mod_pos_bound.
Qed.
#[export] Instance proc_CpuMem : CpuMem ProcMem := {|
  cm_read := proc_load; cm_write := proc_store;
  cm_read_length := proc_load_length; cm_read_bytes := proc_load_bytes |}.

(** * Unaliased pages *)

(** The space is well formed, has no shared page, and the page at [p] lies in its extent. Above the
    extent there are aliases: see [noncanonical_alias]. *)
Definition proc_plain (m : ProcMem) (p : Z) : Prop :=
  let '(s, g) := pm_state m in
  (∃ t R, gm_ok s g t R) ∧ (∀ q, private g q) ∧ base g ≤ p ∧ p + 4096 ≤ base g + msize g.

(** A read inside the extent is the view, or fails for a page that cannot be read. *)
Lemma proc_load_view s g h t R addr len :
  gm_ok s g t R → base g ≤ addr → 0 ≤ len → addr + len ≤ base g + msize g →
  proc_load (mkProcMem (s, g) h) addr len =
    if decide (Forall (allowed g Prot_READ) (seqZ addr len)) then Some ((λ a, view s t a mod U8) <$> seqZ addr len) else None.
Proof.
  intros Hok H1 H2 H3. unfold proc_load. cbn [pm_state].
  destruct (mem_read_ok s g t R addr len Hok H1 H2 H3) as (r & -> & [[-> Ha]|[[e ->] (a & Hr & Hn)]]).
  - rewrite decide_True. { f_equal. by rewrite <- list_fmap_compose. }
    apply Forall_forall. intros a Hin%elem_of_seqZ. apply Ha. lia.
  - rewrite decide_False; [done|]. rewrite Forall_forall. intros Hall. apply Hn, Hall, elem_of_seqZ. lia.
Qed.

(** A store outside the extent is refused and leaves everything as it was. *)
Lemma mem_write_outside s g t R addr buf :
  gm_ok s g t R → buf ≠ [] → ¬ (base g ≤ addr ∧ addr + Z.of_nat (length buf) ≤ base g + msize g) →
  ∃ e, mem_write addr buf (s, g) = Ok (inl e, (s, g)).
Proof.
  intros [Hwf HS Hcl] Hne Hout. assert (0 < Z.of_nat (length buf)) as Hlen by (destruct buf; [done|simpl; lia]).
  unfold mem_write. destruct buf as [|b buf]; [done|]. set (l := b :: buf) in *. unfold bindE, check.
  unfold mbind at 1 2, ST_bind at 1 2. cbn [self]. destruct (checked_add64 _ _) as [stop|] eqn:E; [|by eexists].
  assert (stop = addr + Z.of_nat (length l)) as -> by (unfold checked_add64 in E; destruct (_ <? U64); congruence). clear E.
  destruct ((addr <? base g) || (base g + msize g <? addr + Z.of_nat (length l))) eqn:E; [|lia].
  unfold check_paged, pool. destruct (space g) as [root] eqn:Esp. simpl in HS.
  edestruct (check_paged_ok s root t R addr) as [r Er]; [done|]. rewrite Er. destruct r as [e|[]]; [by eexists|].
  unfold copy_in. unfold mbind at 1, ST_bind at 1. cbn [self].
  destruct (page_range_out g addr _ Hlen Hout) as [e ->]. by eexists.
Qed.

(** What a store of bytes leaves of an unaliased space. *)
Lemma proc_store_view s g h t R a bs e m' :
  gm_ok s g t R → (∀ q, private g q) → Forall is_byte bs → proc_store (mkProcMem (s, g) h) a bs = (e, m') →
  ∃ s' d t', m' = mkProcMem (s', with_tlb_dirty d g) h ∧ gm_ok s' (with_tlb_dirty d g) t' R ∧
    ∀ b, canonical b → ¬ (0 ≤ a ∧ a + Z.of_nat (length bs) ≤ U64 ∧ in_range a bs b) → view s' t' b = view s t b.
Proof.
  intros Hok Hp Hb Hw. pose proof Hok as [Hwf _ _]. pose proof (gw_top _ Hwf). pose proof ctrl_gpa_canonical.
  destruct (gw_base _ Hwf). unfold proc_store in Hw. cbn [pm_state host_ok] in Hw.
  destruct (decide (bs = [])) as [->|Hne].
  { injection Hw as <- <-. exists s, (tlb_dirty g), t. rewrite with_tlb_dirty_id. done. }
  destruct (decide (base g ≤ a ∧ a + Z.of_nat (length bs) ≤ base g + msize g)) as [[Hi1 Hi2]|Hout].
  2: { destruct (mem_write_outside s g t R a bs Hok Hne Hout) as [er Er]. rewrite Er in Hw. injection Hw as <- <-.
       exists s, (tlb_dirty g), t. by rewrite with_tlb_dirty_id. }
  destruct (mem_write_ok s g t R a bs Hok Hb) as (r & s' & g' & t' & Er & W & _ & V);
    [lia|unfold U64; lia|intros; apply Hp|].
  destruct (wv_meta _ _ _ _ _ _ _ W) as [d ->]. rewrite Er in Hw. exists s', d, t'. split_and!; [|apply W|].
  - by destruct r; injection Hw as <- <-.
  - intros b Hc Hn. rewrite V by done. rewrite decide_False; [done|]. intros [_ Hr]. apply Hn. unfold U64. split_and!; [lia|lia|done].
Qed.

Lemma seqZ_part p o k n : 0 ≤ o → 0 ≤ k → o + k ≤ n → seqZ (p + o) k = take (Z.to_nat k) (drop (Z.to_nat o) (seqZ p n)).
Proof.
  intros Ho Hk Hn. apply list_eq. intros i. destruct (decide (i < Z.to_nat k)%nat).
  - rewrite lookup_take_lt, lookup_drop, !lookup_seqZ_lt by lia. f_equal. lia.
  - by rewrite lookup_take_ge, lookup_seqZ_ge by lia.
Qed.
Lemma proc_fetch_sub m p n bs o k : proc_plain m p → n = 4096 → proc_load m p n = Some bs → 0 ≤ o → 0 ≤ k → o + k ≤ n →
  proc_load m (p + o) k = Some (take (Z.to_nat k) (drop (Z.to_nat o) bs)).
Proof.
  intros Hpl Hn. destruct m as [[s g] h], Hpl as ((t & R & Hok) & _ & H1 & H2).
  rewrite <- Hn in H2. clear Hn. intros Hr Ho Hk Hle.
  rewrite (proc_load_view s g h t R) in * by (done || lia). destruct (decide (Forall _ (seqZ p n))) as [Hall|]; [|done].
  injection Hr as <-. rewrite (seqZ_part p o k n) by done.
  rewrite decide_True by (by apply Forall_take, Forall_drop). by rewrite fmap_take, fmap_drop.
Qed.
Lemma proc_fetch_far m a bs e m' p n : proc_plain m p → n = 4096 → Forall is_byte bs → proc_store m a bs = (e, m') →
  p + n ≤ a ∨ a + Z.of_nat (length bs) ≤ p ∨ a < 0 ∨ U64 < a + Z.of_nat (length bs) → proc_load m' p n = proc_load m p n.
Proof.
  intros Hpl Hn. destruct m as [[s g] h], Hpl as ((t & R & Hok) & Hp & H1 & H2).
  rewrite <- Hn in H2. assert (0 ≤ n) as Hn0 by lia. clear Hn. intros Hb Hw Hd.
  destruct (proc_store_view s g h t R a bs e m' Hok Hp Hb Hw) as (s' & d & t' & -> & Hok' & V).
  pose proof (gw_top _ (go_wf _ _ _ _ Hok)). pose proof ctrl_gpa_canonical. destruct (gw_base _ (go_wf _ _ _ _ Hok)).
  rewrite (proc_load_view s g h t R), (proc_load_view s' (with_tlb_dirty d g) h t' R) by (done || lia).
  change (allowed (with_tlb_dirty d g)) with (allowed g). destruct (decide _); [|done]. f_equal.
  apply list_fmap_ext. intros i b Hi. apply lookup_seqZ in Hi as [-> Hi]. rewrite V; [done|unfold canonical; lia|].
  unfold in_range. lia.
Qed.
Lemma proc_fetch_kept m a bs e m' p : proc_plain m p → Forall is_byte bs → proc_store m a bs = (e, m') → proc_plain m' p.
Proof.
  destruct m as [[s g] h]. intros ((t & R & Hok) & Hp & H1 & H2) Hb Hw.
  destruct (proc_store_view s g h t R a bs e m' Hok Hp Hb Hw) as (s' & d & t' & -> & Hok' & V).
  split_and!; [by exists t', R|exact Hp|done|done].
Qed.
#[export] Instance proc_FetchMem : FetchMem ProcMem := {|
  fetch_plain := proc_plain;
  fetch_sub m p bs o k Hp := proc_fetch_sub m p 4096 bs o k Hp eq_refl;
  fetch_far m a bs e m' p Hp := proc_fetch_far m a bs e m' p 4096 Hp eq_refl;
  fetch_kept := proc_fetch_kept |}.

(** Above the extent an access is checked against the page tables alone, and they look at the low
    48 bits of an address only: an address past [2^48] reads the page its low bits name, though
    no such address is mapped (and hardware refuses it). *)
Lemma noncanonical_alias s g t R a k len e :
  gm_ok s g t R → 0 ≤ a → 1 ≤ k → 1 ≤ len → a mod PAGE_SIZE + len ≤ PAGE_SIZE → a + k * 2 ^ 48 + len < U64 →
  lv t !! vpn a = Some e → supervisor (trans_of a e) = false → prot_contains (prot (trans_of a e)) Prot_READ = true →
  mem_read (a + k * 2 ^ 48) len (s, g) = Ok (inr (view s t <$> seqZ a len), (s, g)).
Proof.
  intros [Hwf HS Hcl] Ha Hk Hl Hpg Hu He Hs Hr. pose proof (gw_top _ Hwf). pose proof ctrl_gpa_canonical.
  assert (∀ b, vpn (b + k * 2 ^ 48) = vpn b ∧ (b + k * 2 ^ 48) mod PAGE_SIZE = b mod PAGE_SIZE) as Hal.
  { intros b. replace (k * 2 ^ 48) with (k * 2 ^ 36 * PAGE_SIZE) by (unfold PAGE_SIZE; lia). unfold vpn.
    rewrite Z.div_add, !Z.mod_add by done. done. }
  set (a' := a + k * 2 ^ 48) in *. destruct (Hal a) as [Hv Hm]. fold a' in Hv, Hm.
  assert (PAGE_SIZE = 4096) as HP by done. pose proof (Z.mod_pos_bound a PAGE_SIZE ltac:(done)).
  unfold mem_read. destruct (Z.eqb_spec len 0); [lia|]. unfold bindE, check, mbind, ST_bind. cbn [self].
  unfold checked_add64. destruct (Z.ltb_spec (a' + len) U64); [|lia].
  destruct (Z.ltb_spec (base g + msize g) (a' + len)); [|unfold a' in *; lia]. rewrite orb_true_r.
  unfold pool, check_paged. destruct (space g) as [root] eqn:Esp. simpl in HS.
  replace (Z.min (a' + Z.max len 1) (U64 - 1)) with (a' + len) by lia.
  set (cur := a' - a' mod PAGE_SIZE).
  assert (Z.to_nat (div_ceil (a' + len - cur) PAGE_SIZE) = 1%nat) as ->.
  { unfold div_ceil, cur. rewrite HP in *. divlia. }
  assert (vpn cur = vpn a) as Hvc by (rewrite <- Hv; apply vpn_same_page; unfold cur; rewrite HP in *; divlia).
  cbn [check_paged_loop]. destruct (Z.leb_spec (a' + len) cur); [unfold cur in *; lia|].
  unfold mbind, ST_bind. rewrite (translate_spec _ _ _ _ _ HS), Hvc, He. cbn [fmap option_fmap option_map].
  change (supervisor (trans_of cur e)) with (supervisor (trans_of a e)).
  change (prot (trans_of cur e)) with (prot (trans_of a e)). rewrite Hs, Hr. cbn [negb andb].
  destruct (Z.leb_spec (a' + len) (cur + PAGE_SIZE)); [|unfold cur in *; lia]. cbn.
  rewrite Esp. unfold copy_out. rewrite (copy_out_ok s root t R HS) by lia. unfold mret, ST_ret. do 3 f_equal.
  apply list_eq. intros i. rewrite !list_lookup_fmap. destruct (decide (Z.of_nat i < len)).
  - rewrite !lookup_seqZ_lt by lia. cbn. f_equal. unfold view. replace (a' + Z.of_nat i) with (a + Z.of_nat i + k * 2 ^ 48) by lia.
    by destruct (Hal (a + Z.of_nat i)) as [-> ->].
  - by rewrite !lookup_seqZ_ge by lia.
Qed.
(** Page 5 of the concrete space, read at its own address and at one past [2^48]. *)
Lemma noncanonical_alias_demo :
  mem_read (0x5010 + 1 * 2 ^ 48) 2 (demo_mapped, demo_gm) = mem_read 0x5010 2 (demo_mapped, demo_gm)
  ∧ proc_plain (mkProcMem (demo_mapped, demo_gm) (λ _, true)) 0x5000.
Proof.
  destruct demo_mapped_space as (t & HS & Hlv). pose proof (demo_gm_ok _ _ _ _ HS Hlv) as Hok.
  assert (lv t !! vpn 0x5010 = Some demo_leaf) as He by (rewrite Hlv; by vm_compute). split.
  - rewrite (noncanonical_alias demo_mapped demo_gm t ∅ 0x5010 1 2 demo_leaf Hok) by (done || by vm_compute).
    destruct (mem_read_ok demo_mapped demo_gm t ∅ 0x5010 2 Hok) as (r & -> & [[-> _]|[_ (a & Hr & Hn)]]); [done..|].
    exfalso. apply Hn, demo_readable. lia.
  - split_and!; [by exists t, ∅|apply demo_private|done|done].
Qed.
