(* ===== verification/Sched.v ===== *)
(** The run queue ([src/kernel/mod.rs], [impl Shared] and [charge_vruntime]): which task
    runs next, what it is charged, parked tasks and deadlines. *)
From S2P Require Import Prelude PageLocks.
From stdpp Require Import base numbers gmap sets relations list.
Local Open Scope Z_scope.

Definition U128_MAX : Z := 2 ^ 128 - 1.

Inductive RunState :=
  | Running
  | Stopped (sig : Z)
  | Zombie (code : Z).
#[export] Instance RunState_eq_dec : EqDecision RunState.
Proof. solve_decision. Defined.

(** A [Process] slot, as far as scheduling sees it: [s_vcpu] says its vcpu is in the slot,
    [s_ptimers] are the deadlines of its POSIX timers. *)
Record STask := mkSTask {
  s_run : RunState; s_parked : bool; s_frozen : bool; s_pending : Z; s_vcpu : bool;
  s_nice : Z; s_vruntime : Z; s_wake_deadline : option Z; s_alarm : option Z; s_ptimers : list (option Z)
}.

(** The slots, the scheduling floor, and the empty slots of tasks that have gone, the last one
    emptied first. *)
Record Queue := mkQueue { q_procs : list (option STask); min_vruntime : Z; free_proc_slots : list nat }.

(** [held], [timer_deadline]. *)
Definition held (t : STask) : bool := s_frozen t && (Z.land (s_pending t) (Z.shiftl 1 8) =? 0).
Definition omin (a b : option Z) : option Z :=
  match a, b with
  | Some a, Some b => Some (Z.min a b)
  | Some a, None => Some a
  | None, b => b
  end.
Definition timer_deadline (t : STask) : option Z := foldr omin None (s_ptimers t ++ [s_alarm t]).

Definition is_running (t : STask) : bool := bool_decide (s_run t = Running).

(** [has_runnable], [any_running]. *)
Definition any_task (f : STask → bool) (ps : list (option STask)) : bool :=
  existsb (from_option f false) ps.
Definition has_runnable (ps : list (option STask)) : bool :=
  any_task (λ t, is_running t && negb (s_parked t) && negb (held t)) ps.
Definition any_running (ps : list (option STask)) : bool := any_task is_running ps.

(** [everything_parked], with the loop's early return. *)
Fixpoint all_parked (any_live : bool) (ps : list (option STask)) : bool :=
  match ps with
  | [] => any_live
  | None :: ps => all_parked any_live ps
  | Some t :: ps =>
    if is_running t then
      if negb (s_parked t) && negb (held t) then false else all_parked true ps
    else all_parked any_live ps
  end.
Definition everything_parked (ps : list (option STask)) : bool := all_parked false ps.

(** [unpark_all]. *)
Definition map_tasks (f : STask → STask) (ps : list (option STask)) : list (option STask) :=
  (λ p : option STask, f <$> p) <$> ps.
Definition set_parked (b : bool) (t : STask) : STask :=
  mkSTask (s_run t) b (s_frozen t) (s_pending t) (s_vcpu t) (s_nice t) (s_vruntime t)
    (s_wake_deadline t) (s_alarm t) (s_ptimers t).
Definition unpark_all (ps : list (option STask)) : bool * list (option STask) :=
  (any_task s_parked ps, map_tasks (λ t, if s_parked t then set_parked false t else t) ps).

(** [earliest_deadline], and [wait_for_timer]: how long it sleeps, [None] for [false]. *)
Definition earliest_deadline (ps : list (option STask)) : option Z :=
  foldr omin None
    (ps ≫= λ p, match p with
      | Some t => if is_running t && negb (held t) then [s_wake_deadline t; timer_deadline t] else []
      | None => []
      end).
Definition wait_for_timer (now : Z) (ps : list (option STask)) : option Z :=
  (λ dl, if now <? dl then Z.min (dl - now) 250000000 else 0) <$> earliest_deadline ps.

(** [admit_fair]; an empty slot is the [unwrap] panic. *)
Definition set_vruntime (v : Z) (t : STask) : STask :=
  mkSTask (s_run t) (s_parked t) (s_frozen t) (s_pending t) (s_vcpu t) (s_nice t) v
    (s_wake_deadline t) (s_alarm t) (s_ptimers t).
Definition admit_fair (q : Queue) (i : nat) : res (nat * Queue) :=
  match q_procs q !! i with
  | Some (Some t) =>
    let eff := Z.max (s_vruntime t) (min_vruntime q) in
    Ok (i, mkQueue (<[i := Some (set_vruntime eff t)]> (q_procs q)) eff (free_proc_slots q))
  | _ => Panic
  end.

(** [min_by_key] over the slots that pass [f]: the first of the least. *)
Fixpoint argmin (f : nat → STask → bool) (key : STask → Z) (i : nat) (ps : list (option STask))
    (best : option (nat * Z)) : option (nat * Z) :=
  match ps with
  | [] => best
  | p :: ps =>
    let best :=
      match p with
      | Some t =>
        if f i t then
          match best with
          | Some (_, k) => if key t <? k then Some (i, key t) else best
          | None => Some (i, key t)
          end
        else best
      | None => best
      end in
    argmin f key (S i) ps best
  end.
Definition pick (f : nat → STask → bool) (q : Queue) : res (option nat * Queue) :=
  match argmin f (λ t, Z.max (s_vruntime t) (min_vruntime q)) 0 (q_procs q) None with
  | None => Ok (None, q)
  | Some (i, _) => r ← admit_fair q i; Ok (Some r.1, r.2)
  end.

(** [pick_serial_runnable]: the sleepers whose time has come are unparked first. *)
Definition due (now : Z) (d : option Z) : bool := from_option (λ d, d <=? now) false d.
Definition expire (now : Z) (t : STask) : STask :=
  if s_parked t && (due now (s_wake_deadline t) || due now (timer_deadline t))
  then set_parked false t else t.
Definition expire_all (now : Z) (q : Queue) : Queue :=
  mkQueue (map_tasks (expire now) (q_procs q)) (min_vruntime q) (free_proc_slots q).
Definition serial_ready (t : STask) : bool :=
  is_running t && negb (s_parked t) && negb (held t) && s_vcpu t.
Definition pick_serial_runnable (now : Z) (q : Queue) : res (option nat * Queue) :=
  pick (λ _ t, serial_ready t) (expire_all now q).

(** [pick_smp_runnable]. *)
Definition smp_ready (blocked_at : gmap nat Z) (epoch : Z) (i : nat) (t : STask) : bool :=
  is_running t && negb (held t) && s_vcpu t && negb (bool_decide (blocked_at !! i = Some epoch)).
Definition pick_smp_runnable (blocked_at : gmap nat Z) (epoch : Z) (q : Queue) : res (option nat * Queue) :=
  pick (smp_ready blocked_at epoch) q.

(** [nice_weight]: [(1024 / 1.25^nice).round().max(1)], for [nice] clamped to [-20, 19].
    The exact value of [1024 * (4/5)^nice] is never within 1/100 of a half
    ([nice_weight_far]), so the floating-point rounding gives the same integer. *)
Definition NICE0_WEIGHT : Z := 1024.
Definition weight_num (n : Z) : Z := 1024 * 4 ^ (Z.max 0 n) * 5 ^ (Z.max 0 (- n)).
Definition weight_den (n : Z) : Z := 5 ^ (Z.max 0 n) * 4 ^ (Z.max 0 (- n)).
Definition clamp_nice (n : Z) : Z := Z.min 19 (Z.max (-20) n).
Definition nice_weight (nice : Z) : Z :=
  let n := clamp_nice nice in
  Z.max 1 ((2 * weight_num n + weight_den n) / (2 * weight_den n)).

(** [charge_vruntime]. *)
Definition charge (nice delta : Z) : Z := Z.min U128_MAX (delta * NICE0_WEIGHT) / nice_weight nice.
Definition charge_vruntime (t : STask) (delta : Z) : STask :=
  set_vruntime (Z.min U128_MAX (s_vruntime t + charge (s_nice t) delta)) t.

(** The check-out and check-in of a slice of [serial_sweep]: the slot is empty meanwhile. *)
Definition with_procs (q : Queue) (ps : list (option STask)) : Queue :=
  mkQueue ps (min_vruntime q) (free_proc_slots q).
Definition check_out (q : Queue) (i : nat) : Queue := with_procs q (<[i := None]> (q_procs q)).
Definition check_in (q : Queue) (i : nat) (t : STask) (blocked : bool) : Queue :=
  with_procs q (<[i := Some (set_parked (blocked && is_running t) t)]> (q_procs q)).

(** [free_task_slot], as far as the run queue sees it. *)
Definition free_task_slot (q : Queue) (j : nat) : Queue :=
  match q_procs q !! j with
  | Some (Some _) => mkQueue (<[j := None]> (q_procs q)) (min_vruntime q) (j :: free_proc_slots q)
  | _ => q
  end.
(** The end of [sys_clone]: where the child goes, and the queue with it. *)
Definition add_child (q : Queue) (child : STask) : nat * Queue :=
  match free_proc_slots q with
  | s :: free => (s, mkQueue (<[s := Some child]> (q_procs q)) (min_vruntime q) free)
  | [] => (length (q_procs q), with_procs q (q_procs q ++ [Some child]))
  end.

Example nice_weights :
  nice_weight <$> [-25; -20; -5; 0; 1; 5; 19; 40] = [88818; 88818; 3125; 1024; 819; 336; 15; 15].
Proof. vm_compute. reflexivity. Qed.

(** For every nice value, the distance of [2 * weight] from an odd integer. *)
Example nice_weight_far :
  Forall (λ n, let r := (2 * weight_num n) mod (2 * weight_den n) in
    2 * weight_den n ≤ 100 * Z.abs (r - weight_den n))
    ((λ k, Z.of_nat k - 20) <$> seq 0 40).
Proof. apply (bool_decide_unpack _). vm_compute. exact I. Qed.

(** * Picking *)

(** Slot [j] holds a task that passes [f]. *)
Definition ready_at (f : nat → STask → bool) (ps : list (option STask)) (j : nat) (t : STask) : Prop :=
  ps !! j = Some (Some t) ∧ f j t = true.

Lemma argmin_spec f key ps : ∀ i best,
  match argmin f key i ps best with
  | None => best = None ∧ ∀ j t, ps !! j = Some (Some t) → f (i + j)%nat t = false
  | Some (k, v) =>
    (∀ b bv, best = Some (b, bv) → v ≤ bv) ∧
    (∀ j t, ps !! j = Some (Some t) → f (i + j)%nat t = true → v ≤ key t) ∧
    (best = Some (k, v) ∨
     ∃ j t, k = (i + j)%nat ∧ ps !! j = Some (Some t) ∧ f k t = true ∧ v = key t ∧
       (∀ b bv, best = Some (b, bv) → v < bv) ∧
       ∀ j' t', (j' < j)%nat → ps !! j' = Some (Some t') → f (i + j')%nat t' = true → v < key t')
  end.
Proof.
  induction ps as [|p ps IH]; intros i best; cbn [argmin].
  { destruct best as [[k v]|]; [|done]. split_and!; [by intros ? ? [= -> ->]|done|by left]. }
  set (best' := match p with Some t => _ | None => best end). specialize (IH (S i) best').
  assert (∀ j t, (p :: ps) !! j = Some (Some t) →
    (j = 0%nat ∧ p = Some t) ∨ ∃ j', j = S j' ∧ ps !! j' = Some (Some t)) as Hj.
  { intros [|j] t Hl; simpl in Hl; [left; by simplify_eq|right; eauto]. }
  (* what the step does to the best so far *)
  assert ((best' = best ∧ ∀ t, p = Some t → f i t = true → ∃ b bv, best = Some (b, bv) ∧ bv ≤ key t) ∨
    ∃ t, p = Some t ∧ f i t = true ∧ best' = Some (i, key t) ∧ ∀ b bv, best = Some (b, bv) → key t < bv) as Hb.
  { subst best'. destruct p as [t|]; [|left; split; [done|by intros]].
    destruct (f i t) eqn:Ef; [|left; split; [done|]; intros ? [= <-]; congruence].
    destruct best as [[b bv]|]; [|right; exists t; split_and!; [done|done|done|by intros]].
    destruct (key t <? bv) eqn:Ek.
    - right. exists t. split_and!; [done|done|done|]. intros ? ? [= <- <-]. lia.
    - left. split; [done|]. intros ? [= <-] _. exists b, bv. split; [done|lia]. }
  destruct (argmin f key (S i) ps best') as [[k v]|].
  - destruct IH as (H1 & H2 & H3). destruct Hb as [[Eb Hp]|(t0 & -> & Hf & Eb & Hlt)]; rewrite Eb in *.
    + split_and!; [done| |].
      * intros j t Hl Hf. apply Hj in Hl as [[-> ->]|(j' & -> & Hl)].
        -- rewrite Nat.add_0_r in Hf. destruct (Hp t eq_refl Hf) as (b & bv & -> & ?).
           specialize (H1 b bv eq_refl). lia.
        -- apply (H2 j' t Hl). by rewrite Nat.add_succ_r in Hf.
      * destruct H3 as [->|(j & t & -> & Hl & Hf & -> & Hlt & Hmin)]; [by left|right].
        exists (S j), t. split_and!; [lia|done|done|done|done|]. intros j' t' Hj' Hl' Hf'.
        apply Hj in Hl' as [[-> ->]|(j2 & -> & Hl')].
        -- rewrite Nat.add_0_r in Hf'. destruct (Hp t' eq_refl Hf') as (b & bv & Hbest & ?).
           specialize (Hlt b bv Hbest). lia.
        -- apply (Hmin j2 t'); [lia|done|]. by rewrite Nat.add_succ_r in Hf'.
    + specialize (H1 i (key t0) eq_refl) as Hv. split_and!.
      * intros b bv Hbest. specialize (Hlt b bv Hbest). lia.
      * intros j t Hl Hf'. apply Hj in Hl as [[-> E]|(j' & -> & Hl)]; [by injection E as <-|].
        apply (H2 j' t Hl). by rewrite Nat.add_succ_r in Hf'.
      * right. destruct H3 as [E|(j & t & -> & Hl & Hf' & -> & Hlt2 & Hmin)].
        -- injection E as <- <-. exists 0%nat, t0. split_and!; try done; lia.
        -- exists (S j), t. specialize (Hlt2 i (key t0) eq_refl). split_and!; [lia|done|done|done| |].
           ++ intros b bv Hbest. specialize (Hlt b bv Hbest). lia.
           ++ intros j' t' Hj' Hl' Hf2. apply Hj in Hl' as [[-> E]|(j2 & -> & Hl')]; [by injection E as <-|].
              apply (Hmin j2 t'); [lia|done|]. by rewrite Nat.add_succ_r in Hf2.
  - destruct IH as [IH1 IH2]. destruct Hb as [[Eb Hp]|(t0 & _ & _ & Eb & _)]; [|congruence].
    rewrite Eb in IH1. split; [done|]. intros j t Hl. apply Hj in Hl as [[-> ->]|(j' & -> & Hl)].
    + rewrite Nat.add_0_r. destruct (f i t) eqn:Ef; [|done].
      destruct (Hp t eq_refl Ef) as (b & bv & E & _). congruence.
    + rewrite Nat.add_succ_r. by apply (IH2 j').
Qed.

(** The effective virtual runtime: clamped up to the floor. *)
Definition eff (q : Queue) (t : STask) : Z := Z.max (s_vruntime t) (min_vruntime q).

Lemma pick_spec f q :
  (pick f q = Ok (None, q) ∧ ∀ j t, ¬ ready_at f (q_procs q) j t) ∨
  ∃ i t, ready_at f (q_procs q) i t ∧
    (∀ j t', ready_at f (q_procs q) j t' → eff q t ≤ eff q t' ∧ ((j < i)%nat → eff q t < eff q t')) ∧
    pick f q = Ok (Some i, mkQueue (<[i := Some (set_vruntime (eff q t) t)]> (q_procs q)) (eff q t) (free_proc_slots q)).
Proof.
  unfold pick. pose proof (argmin_spec f (eff q) (q_procs q) 0 None) as H. unfold eff in H.
  destruct (argmin _ _ _ _ _) as [[k v]|]; [right|left].
  - destruct H as (_ & Hle & [E|(j & t & -> & Hl & Hf & -> & _ & Hmin)]); [done|]. simpl in *.
    exists j, t. split_and!; [done| |].
    + intros j' t' [Hl' Hf']. split; [by eapply Hle|]. intros Hlt. by eapply Hmin.
    + unfold admit_fair. by rewrite Hl.
  - destruct H as [_ H]. split; [done|]. intros j t [Hl Hf]. specialize (H j t Hl). simpl in H. congruence.
Qed.

Lemma map_tasks_lookup f ps i : map_tasks f ps !! i = (λ p : option STask, f <$> p) <$> ps !! i.
Proof. unfold map_tasks. apply list_lookup_fmap. Qed.

Lemma map_tasks_Some f ps i t :
  map_tasks f ps !! i = Some (Some t) ↔ ∃ t0, ps !! i = Some (Some t0) ∧ t = f t0.
Proof.
  rewrite map_tasks_lookup. destruct (ps !! i) as [[t0|]|]; simpl; split.
  - intros [= <-]. eauto.
  - by intros (? & [= <-] & ->).
  - done.
  - by intros (? & ? & _).
  - done.
  - by intros (? & ? & _).
Qed.

Lemma expire_vruntime now t : s_vruntime (expire now t) = s_vruntime t.
Proof. unfold expire. by case_match. Qed.

(** A task the serial scheduler may run at time [now]. *)
Definition can_run (now : Z) (q : Queue) (j : nat) (t : STask) : Prop :=
  q_procs q !! j = Some (Some t) ∧ serial_ready (expire now t) = true.

Lemma can_run_ready now q j t :
  can_run now q j t ↔ ∃ t', ready_at (λ _ t, serial_ready t) (q_procs (expire_all now q)) j t' ∧
    t' = expire now t ∧ q_procs q !! j = Some (Some t).
Proof.
  unfold can_run, ready_at. simpl. split.
  - intros [Hl Hr]. exists (expire now t). split_and!; try done. apply map_tasks_Some. eauto.
  - by intros (t' & [Hl Hr] & -> & Hq).
Qed.

Lemma serial_pick now q :
  (pick_serial_runnable now q = Ok (None, expire_all now q) ∧ ∀ j t, ¬ can_run now q j t) ∨
  ∃ i t, can_run now q i t ∧
    (∀ j t', can_run now q j t' → eff q t ≤ eff q t' ∧ ((j < i)%nat → eff q t < eff q t')) ∧
    pick_serial_runnable now q =
      Ok (Some i, mkQueue (<[i := Some (set_vruntime (eff q t) (expire now t))]>
                             (map_tasks (expire now) (q_procs q))) (eff q t) (free_proc_slots q)).
Proof.
  unfold pick_serial_runnable.
  assert (∀ t, eff (expire_all now q) (expire now t) = eff q t) as Heff
    by (intros t; unfold eff; by rewrite expire_vruntime).
  destruct (pick_spec (λ _ t, serial_ready t) (expire_all now q)) as [[-> Hno]|(i & t' & Hr & Hmin & ->)].
  - left. split; [done|]. intros j t (t' & Hr & _)%can_run_ready. by eapply Hno.
  - right. pose proof Hr as [Hl _]. apply map_tasks_Some in Hl as (t & Ht & ->).
    exists i, t. rewrite Heff in *. split_and!; [apply can_run_ready; eauto| |done].
    intros j t2 (t3 & Hr2 & -> & _)%can_run_ready. specialize (Hmin j _ Hr2). by rewrite Heff in Hmin.
Qed.

(** The serial scheduler runs the least-served task. [pick_serial_runnable] never
    panics; it answers [None] exactly when no task is running, unparked (or due: its
    timeout or a timer has passed), unfrozen and holding its vcpu; otherwise it picks one
    with the least virtual runtime (clamped up to the floor), the lowest slot among equals,
    clamps that task up and moves the floor to it, never back; no other task is charged. *)
Theorem serial_pick_fair now q :
  ∃ r q', pick_serial_runnable now q = Ok (r, q') ∧ min_vruntime q ≤ min_vruntime q' ∧
  (r = None ↔ ∀ j t, ¬ can_run now q j t) ∧
  ∀ i, r = Some i → ∃ t, can_run now q i t ∧ min_vruntime q' = eff q t ∧
    (∀ j t', can_run now q j t' → eff q t ≤ eff q t' ∧ ((j < i)%nat → eff q t < eff q t')) ∧
    ∀ j, q_procs q' !! j =
      (if decide (j = i) then Some (Some (set_vruntime (eff q t) (expire now t)))
       else (λ p : option STask, expire now <$> p) <$> q_procs q !! j).
Proof.
  destruct (serial_pick now q) as [[-> Hno]|(i & t & Hc & Hmin & ->)].
  - exists None, (expire_all now q). split_and!; try done.
  - eexists (Some i), _. split; [reflexivity|]. simpl. split_and!.
    + unfold eff. lia.
    + split; [done|]. intros H. by destruct (H i t).
    + intros ? [= <-]. exists t. split_and!; try done. intros j. case_decide as Hj.
      * subst j. apply list_lookup_insert_eq. destruct Hc as [Hl _].
        unfold map_tasks. rewrite length_fmap. by eapply lookup_lt_Some.
      * rewrite list_lookup_insert_ne by done. apply map_tasks_lookup.
Qed.

(** * Slices

    One iteration of [serial_sweep]: a task is picked and checked out, runs step by step
    ([run_slice]) and is checked in. Each step services an exit of the guest and is then charged to
    the task. Servicing may change any task without touching its virtual runtime, create a child,
    which is a copy of the task and so starts at its virtual runtime of that moment
    ([sys_clone]), and empty the slot of a task that is gone. *)
Definition same_credit (p p' : option STask) : Prop := s_vruntime <$> p' = s_vruntime <$> p.

Inductive event := Born (j : nat) | Reaped (j : nat).

Inductive service : STask → Queue → list event → STask → Queue → Prop :=
| sv_work t q t' ps :
    s_vruntime t' = s_vruntime t → Forall2 same_credit (q_procs q) ps → service t q [] t' (with_procs q ps)
| sv_clone t q child :
    s_vruntime child = s_vruntime t → service t q [Born (add_child q child).1] t (add_child q child).2
| sv_reap t q j : service t q [Reaped j] t (free_task_slot q j)
| sv_charge t q delta : 0 ≤ delta → service t q [] (charge_vruntime t delta) q.
Inductive services : STask → Queue → list event → STask → Queue → Prop :=
| svs_nil t q : services t q [] t q
| svs_cons t q e t1 q1 es t2 q2 :
    service t q e t1 q1 → services t1 q1 es t2 q2 → services t q (e ++ es) t2 q2.

(** A slice of the task of slot [i], in which it is charged [c]. *)
Inductive slice (now : Z) (q : Queue) (i : nat) (c : Z) (es : list event) (q' : Queue) : Prop :=
| slice_intro q1 t t' q2 blocked :
    pick_serial_runnable now q = Ok (Some i, q1) →
    q_procs q1 !! i = Some (Some t) →
    services t (check_out q1 i) es t' q2 →
    c = s_vruntime t' - s_vruntime t →
    q' = check_in q2 i t' blocked →
    slice now q i c es q'.

(** A run of slices, and of anything else that leaves virtual runtimes alone in between, in which
    the tasks of the slots [J] stay and can run whenever one is picked; [P] holds of each charge. *)
Inductive run (J : list nat) (P : Z → Prop) : Queue → list (nat * Z * list event) → Queue → Prop :=
| run_nil q : run J P q [] q
| run_idle q ps l q' :
    Forall2 same_credit (q_procs q) ps → run J P (with_procs q ps) l q' → run J P q l q'
| run_cons now q i c es q' l q'' :
    (∀ j, j ∈ J → (∃ t, can_run now q j t) ∧ Reaped j ∉ es) → slice now q i c es q' → P c →
    run J P q' l q'' → run J P q ((i, c, es) :: l) q''.

(** The virtual runtime of the task in slot [j]. *)
Definition vrs (ps : list (option STask)) (j : nat) : option Z := p ← ps !! j; s_vruntime <$> p.
Definition vr (q : Queue) (j : nat) : option Z := vrs (q_procs q) j.

Lemma vrs_insert ps i p j :
  (i < length ps)%nat → vrs (<[i := p]> ps) j = if decide (j = i) then s_vruntime <$> p else vrs ps j.
Proof.
  intros Hi. unfold vrs. case_decide as D; [subst j; by rewrite list_lookup_insert_eq|by rewrite list_lookup_insert_ne].
Qed.
Lemma vrs_same ps ps' j : Forall2 same_credit ps ps' → vrs ps' j = vrs ps j.
Proof. rewrite Forall2_lookup. intros H. specialize (H j). unfold vrs. destruct H as [p p' H|]; [exact H|done]. Qed.
Lemma none_same ps ps' j : Forall2 same_credit ps ps' → ps !! j = Some None → ps' !! j = Some None.
Proof.
  rewrite Forall2_lookup. intros H E. specialize (H j). rewrite E in H. inversion H as [? p' Hp E1 E2|]; subst.
  by destruct p'.
Qed.
Lemma vrs_none ps j : ps !! j = Some None → vrs ps j = None.
Proof. intros E. unfold vrs. by rewrite E. Qed.
Lemma vrs_map now ps j : vrs (map_tasks (expire now) ps) j = vrs ps j.
Proof.
  unfold vrs. rewrite map_tasks_lookup. destruct (ps !! j) as [[x|]|]; [|done|done]. simpl. by rewrite expire_vruntime.
Qed.

(** ** Charges *)

Lemma nice_weight_pos n : 1 ≤ nice_weight n.
Proof. unfold nice_weight. lia. Qed.
Lemma charge_range t delta :
  0 ≤ delta → s_vruntime t ≤ U128_MAX → s_vruntime t ≤ s_vruntime (charge_vruntime t delta) ≤ U128_MAX.
Proof.
  intros Hd Ht. unfold charge_vruntime. cbn [s_vruntime set_vruntime].
  assert (0 ≤ charge (s_nice t) delta); [|lia]. unfold charge. pose proof (nice_weight_pos (s_nice t)).
  apply Z.div_pos; [|lia]. unfold U128_MAX, NICE0_WEIGHT. lia.
Qed.

(** How much virtual time the tasks can still be given before all are past [B]. *)
Definition behind (B : Z) (p : option STask) : Z :=
  match p with Some t => Z.max 0 (B + 1 - s_vruntime t) | None => 0 end.
Definition budget (B : Z) (ps : list (option STask)) : Z := foldr (λ p acc, behind B p + acc) 0 ps.

Lemma behind_nonneg B p : 0 ≤ behind B p.
Proof. destruct p; simpl; lia. Qed.
Lemma budget_nonneg B ps : 0 ≤ budget B ps.
Proof. induction ps as [|p ps IH]; simpl; [lia|]. pose proof (behind_nonneg B p). lia. Qed.
Lemma behind_same B p p' : same_credit p p' → behind B p' = behind B p.
Proof. destruct p as [t|], p' as [t'|]; intros E; try done. injection E as E. simpl. by rewrite E. Qed.
Lemma budget_same B ps ps' : Forall2 same_credit ps ps' → budget B ps' = budget B ps.
Proof. induction 1 as [|p p' ps ps' Hp _ IH]; simpl; [done|]. by rewrite IH, (behind_same B p p'). Qed.
Lemma budget_map now B ps : budget B (map_tasks (expire now) ps) = budget B ps.
Proof.
  apply budget_same. unfold map_tasks. apply Forall2_fmap_r, Forall_Forall2_diag, Forall_true.
  intros [t|]; unfold same_credit; simpl; [by rewrite expire_vruntime|done].
Qed.
Lemma budget_insert B ps i p p' :
  ps !! i = Some p → budget B (<[i := p']> ps) = budget B ps - behind B p + behind B p'.
Proof.
  revert i. induction ps as [|x ps IH]; intros [|i] E; try done; simpl in *; [injection E as ->; lia|].
  rewrite (IH i E). lia.
Qed.
Lemma budget_snoc B ps p : budget B (ps ++ [p]) = budget B ps + behind B p.
Proof. induction ps as [|x ps IH]; simpl; lia. Qed.

Definition is_born (e : event) : bool := match e with Born _ => true | Reaped _ => false end.
Definition births (es : list event) : Z := foldr (λ e n, Z.b2z (is_born e) + n) 0 es.
Lemma births_app es es' : births (es ++ es') = births es + births es'.
Proof. induction es as [|e es IH]; simpl; lia. Qed.
Lemma births_nonneg es : 0 ≤ births es.
Proof. induction es as [|[]]; simpl; lia. Qed.

(** ** Steps of a slice *)

(** The empty slots of the free list are empty, and none is listed twice; times fit. *)
Record queue_ok (q : Queue) : Prop := mkQueueOk {
  qo_empty : ∀ s, s ∈ free_proc_slots q → q_procs q !! s = Some None;
  qo_once : NoDup (free_proc_slots q);
  qo_range : ∀ j v, vr q j = Some v → v ≤ U128_MAX;
  qo_floor : min_vruntime q ≤ U128_MAX
}.
(** During the slice of [i], whose task is [t]. *)
Record running (i : nat) (t : STask) (q : Queue) : Prop := mkRunning {
  ru_ok : queue_ok q;
  ru_slot : q_procs q !! i = Some None;
  ru_free : i ∉ free_proc_slots q;
  ru_time : s_vruntime t ≤ U128_MAX
}.
(** What servicing keeps of the queue [q] it starts from. *)
Record serviced (t : STask) (q : Queue) (es : list event) (t' : STask) (q' : Queue) : Prop := mkServiced {
  se_time : s_vruntime t ≤ s_vruntime t';
  se_floor : min_vruntime q' = min_vruntime q;
  se_kept : ∀ j v, vr q j = Some v → Reaped j ∉ es → vr q' j = Some v;
  se_new : ∀ j v, vr q' j = Some v → vr q j = Some v ∨ s_vruntime t ≤ v ≤ s_vruntime t';
  se_budget : ∀ B, budget B (q_procs q') ≤ budget B (q_procs q) + births es * Z.max 0 (B + 1 - s_vruntime t)
}.

Lemma serviced_refl t q : serviced t q [] t q.
Proof. split; [lia|done|done|by left|]. intros B. simpl. lia. Qed.
Lemma serviced_trans t q es t1 q1 es1 t2 q2 :
  serviced t q es t1 q1 → serviced t1 q1 es1 t2 q2 → serviced t q (es ++ es1) t2 q2.
Proof.
  intros [T1 F1 K1 N1 B1] [T2 F2 K2 N2 B2]. split; [lia|congruence| | |].
  - intros j v Hv Hn. rewrite elem_of_app in Hn. apply K2; [apply K1|]; naive_solver.
  - intros j v Hv. destruct (N2 j v Hv) as [Hv1|?]; [|right; lia]. destruct (N1 j v Hv1) as [?|?]; [by left|right; lia].
  - intros B. specialize (B1 B). specialize (B2 B). rewrite births_app. pose proof (births_nonneg es1).
    assert (Z.max 0 (B + 1 - s_vruntime t1) ≤ Z.max 0 (B + 1 - s_vruntime t)) by lia. nia.
Qed.

Lemma work_ok i t q t' ps :
  running i t q → s_vruntime t' = s_vruntime t → Forall2 same_credit (q_procs q) ps →
  running i t' (with_procs q ps) ∧ serviced t q [] t' (with_procs q ps).
Proof.
  intros [[He Ho Hr Hf] Hs Hi Ht] E Hps. assert (∀ j, vr (with_procs q ps) j = vr q j) as Hv by (intros; by apply vrs_same).
  split; [split; [split|..]|split]; simpl; try done.
  - intros s Hin. by eapply none_same, He.
  - intros j v. rewrite Hv. apply Hr.
  - by eapply none_same.
  - by rewrite E.
  - by rewrite E.
  - intros j v Hjv _. by rewrite Hv.
  - intros j v. rewrite Hv. by left.
  - intros B. rewrite (budget_same _ _ _ Hps). lia.
Qed.
Lemma charge_ok i t q delta :
  running i t q → 0 ≤ delta → running i (charge_vruntime t delta) q ∧ serviced t q [] (charge_vruntime t delta) q.
Proof.
  intros [Hq Hs Hi Ht] Hd. destruct (charge_range t delta Hd Ht). split; [done|]. split; [lia|done|done|by left|].
  intros B. simpl. lia.
Qed.
Lemma reap_ok i t q j :
  running i t q → running i t (free_task_slot q j) ∧ serviced t q [Reaped j] t (free_task_slot q j).
Proof.
  intros Hrun. pose proof Hrun as [[He Ho Hr Hf] Hs Hi Ht]. unfold free_task_slot.
  destruct (q_procs q !! j) as [[x|]|] eqn:Ej.
  2, 3: split; [done|]; split; [lia|done|done|by left|]; intros B; simpl; lia.
  pose proof (lookup_lt_Some _ _ _ Ej) as Hlt. assert (j ≠ i) as Hne by congruence.
  assert (j ∉ free_proc_slots q) as Hnf by (intros Hin; specialize (He j Hin); congruence).
  assert (∀ k, vr (mkQueue (<[j := None]> (q_procs q)) (min_vruntime q) (j :: free_proc_slots q)) k =
    if decide (k = j) then None else vr q k) as Hv by (intros k; unfold vr; simpl; by rewrite vrs_insert).
  split; [split; [split|..]|split]; simpl; try done.
  - intros s [->|Hin]%elem_of_cons; [by rewrite list_lookup_insert_eq|].
    rewrite list_lookup_insert_ne by congruence. by apply He.
  - by apply NoDup_cons.
  - intros k v. rewrite Hv. case_decide; [done|apply Hr].
  - by rewrite list_lookup_insert_ne.
  - intros [->|?]%elem_of_cons; congruence.
  - intros k v Hk Hn. rewrite Hv. rewrite decide_False; [done|]. intros ->. by apply Hn, list_elem_of_singleton.
  - intros k v. rewrite Hv. case_decide; [done|by left].
  - intros B. rewrite (budget_insert B _ _ _ _ Ej). pose proof (behind_nonneg B (Some x)). simpl in *. lia.
Qed.
Lemma child_ok i t q child :
  running i t q → s_vruntime child = s_vruntime t →
  running i t (add_child q child).2 ∧ serviced t q [Born (add_child q child).1] t (add_child q child).2.
Proof.
  intros [[He Ho Hr Hf] Hs Hi Ht] Ec. unfold add_child. destruct (free_proc_slots q) as [|s free] eqn:Ef; simpl.
  - assert (∀ k, vr (with_procs q (q_procs q ++ [Some child])) k =
      if decide (k = length (q_procs q)) then Some (s_vruntime t) else vr q k) as Hv.
    { intros k. unfold vr, vrs. simpl. case_decide as D; [subst k; rewrite lookup_app_r, Nat.sub_diag by done; simpl; by rewrite Ec|].
      destruct (decide (k < length (q_procs q))%nat); [by rewrite lookup_app_l|].
      rewrite !lookup_ge_None_2; [done|lia|]. rewrite length_app. simpl. lia. }
    assert (∀ k x, q_procs q !! k = Some x → (q_procs q ++ [Some child]) !! k = Some x) as Hl
      by (intros k x Hk; rewrite lookup_app_l; [done|by eapply lookup_lt_Some]).
    split; [split; [split|..]|split]; simpl; rewrite ?Ef; try done.
    + by intros s Hs'%elem_of_nil.
    + intros k v. rewrite Hv. case_decide; [by intros [= <-]|apply Hr].
    + by apply Hl.
    + intros k v Hk _. rewrite Hv. case_decide as D; [|done]. subst k. unfold vr, vrs in Hk. by rewrite lookup_ge_None_2 in Hk.
    + intros k v. rewrite Hv. case_decide; [intros [= <-]; right; lia|by left].
    + intros B. rewrite budget_snoc. simpl. rewrite Ec. lia.
  - assert (q_procs q !! s = Some None) as Es by (apply He; rewrite ?Ef; by left).
    pose proof (lookup_lt_Some _ _ _ Es) as Hlt. apply NoDup_cons in Ho as [Hsf Ho]. apply not_elem_of_cons in Hi as [His Hi].
    assert (∀ k, vr (mkQueue (<[s := Some child]> (q_procs q)) (min_vruntime q) free) k =
      if decide (k = s) then Some (s_vruntime t) else vr q k) as Hv
      by (intros k; unfold vr; simpl; rewrite vrs_insert by done; simpl; by rewrite Ec).
    split; [split; [split|..]|split]; simpl; try done.
    + intros k Hk. rewrite list_lookup_insert_ne by congruence. apply He. rewrite ?Ef. by right.
    + intros k v. rewrite Hv. case_decide; [by intros [= <-]|apply Hr].
    + by rewrite list_lookup_insert_ne.
    + intros k v Hk _. rewrite Hv. case_decide as D; [|done]. subst k. unfold vr in Hk. by rewrite vrs_none in Hk.
    + intros k v. rewrite Hv. case_decide; [intros [= <-]; right; lia|by left].
    + intros B. rewrite (budget_insert B _ _ _ _ Es). simpl. rewrite Ec. lia.
Qed.
Lemma services_ok i t q es t' q' :
  services t q es t' q' → running i t q → running i t' q' ∧ serviced t q es t' q'.
Proof.
  induction 1 as [t q|t q e t1 q1 es t2 q2 Hs _ IH]; intros Hr; [split; [done|apply serviced_refl]|].
  assert (running i t1 q1 ∧ serviced t q e t1 q1) as [H1 H2]
    by (destruct Hs; eauto using work_ok, child_ok, reap_ok, charge_ok).
  destruct (IH H1) as [H3 H4]. split; [done|]. by eapply serviced_trans.
Qed.

(** ** What a slice does *)

Lemma can_run_vr now q j t : can_run now q j t → vr q j = Some (s_vruntime t).
Proof. intros [Hl _]. unfold vr, vrs. by rewrite Hl. Qed.

Record sliced (q : Queue) (i : nat) (c : Z) (es : list event) (q' : Queue) (t : STask) : Prop := mkSliced {
  sl_ok : queue_ok q';
  sl_charge : 0 ≤ c;
  sl_floor : min_vruntime q' = eff q t;
  sl_self : vr q' i = Some (eff q t + c);
  sl_kept : ∀ j v, j ≠ i → Reaped j ∉ es → vr q j = Some v → vr q' j = Some v;
  sl_new : ∀ j v, j ≠ i → vr q' j = Some v → vr q j = Some v ∨ eff q t ≤ v ≤ eff q t + c;
  sl_budget : ∀ B, budget B (q_procs q') ≤ budget B (q_procs q) - behind B (Some t)
    + Z.max 0 (B + 1 - (eff q t + c)) + births es * Z.max 0 (B + 1 - eff q t)
}.

Lemma slice_spec now q i c es q' :
  queue_ok q → slice now q i c es q' →
  ∃ t, can_run now q i t ∧ (∀ j t', can_run now q j t' → eff q t ≤ eff q t') ∧ sliced q i c es q' t.
Proof.
  intros [He Ho Hr Hf] [q1 t1 t' q2 blocked Hp Hl Hs -> ->].
  destruct (serial_pick now q) as [[E _]|(i' & t & Hcan & Hmin & E)]; rewrite Hp in E; [done|].
  injection E as -> ->. exists t. split; [done|]. split; [intros j t2 Hj; by apply (Hmin j)|].
  pose proof Hcan as [Hq _]. pose proof (lookup_lt_Some _ _ _ Hq) as Hlt. pose proof (can_run_vr _ _ _ _ Hcan) as Hvi.
  set (q1 := mkQueue _ _ _) in *. assert (i' < length (map_tasks (expire now) (q_procs q)))%nat as Hlen
    by (unfold map_tasks; by rewrite length_fmap).
  simpl in Hl. rewrite list_lookup_insert_eq in Hl by done. injection Hl as <-. cbn [s_vruntime set_vruntime] in *.
  assert (check_out q1 i' = mkQueue (<[i' := None]> (map_tasks (expire now) (q_procs q))) (eff q t) (free_proc_slots q)) as Eo
    by (unfold check_out, with_procs; simpl; by rewrite list_insert_insert_eq).
  assert (∀ j, vr (check_out q1 i') j = if decide (j = i') then None else vr q j) as Hv.
  { intros j. rewrite Eo. unfold vr. simpl. rewrite vrs_insert by done. case_decide; [done|apply vrs_map]. }
  assert (i' ∉ free_proc_slots q) as Hnf by (intros Hin; specialize (He i' Hin); congruence).
  assert (running i' (set_vruntime (eff q t) (expire now t)) (check_out q1 i')) as Hrun.
  { split; [split|..]; rewrite ?Eo; simpl; try done.
    - intros s Hin. rewrite list_lookup_insert_ne by congruence. rewrite map_tasks_lookup, He by done. done.
    - intros j v. rewrite <- Eo, Hv. case_decide; [done|apply Hr].
    - unfold eff. specialize (Hr i' _ Hvi). lia.
    - by rewrite list_lookup_insert_eq.
    - unfold eff. specialize (Hr i' _ Hvi). lia. }
  destruct (services_ok _ _ _ _ _ _ Hs Hrun) as [[[He2 Ho2 Hr2 Hf2] Hs2 Hi2 Ht2] [T F K N Bu]].
  cbn [s_vruntime set_vruntime] in *. pose proof (lookup_lt_Some _ _ _ Hs2) as Hlt2.
  assert (∀ j, vr (check_in q2 i' t' blocked) j = if decide (j = i') then Some (s_vruntime t') else vr q2 j) as Hv2.
  { intros j. unfold vr, check_in. simpl. rewrite vrs_insert by done. done. }
  split; [split|..]; simpl.
  - intros s Hin. rewrite list_lookup_insert_ne by congruence. by apply He2.
  - done.
  - intros j v. rewrite Hv2. case_decide; [intros [= <-]; done|apply Hr2].
  - done.
  - lia.
  - rewrite F, Eo. done.
  - rewrite Hv2, decide_True by done. f_equal. lia.
  - intros j v Hj Hn Hjv. rewrite Hv2, decide_False by done. apply K; [|done]. by rewrite Hv, decide_False.
  - intros j v Hj. rewrite Hv2, decide_False by done. intros [Hjv|?]%N; [|right; lia]. rewrite Hv, decide_False in Hjv by done. by left.
  - intros B. rewrite (budget_insert B _ _ _ _ Hs2). specialize (Bu B). rewrite Eo in Bu. simpl in Bu.
    assert (map_tasks (expire now) (q_procs q) !! i' = Some (Some (expire now t))) as Em by (by rewrite map_tasks_lookup, Hq).
    rewrite (budget_insert B _ _ _ _ Em), budget_map in Bu. simpl in *. rewrite expire_vruntime in Bu.
    replace (eff q t + (s_vruntime t' - eff q t)) with (s_vruntime t') by lia. lia.
Qed.

(** * Fair shares *)

(** The virtual runtime the scheduler compares tasks by. *)
Definition credit (q : Queue) (j : nat) : option Z := Z.max (min_vruntime q) <$> vr q j.
(** Nobody is more than [hi] ahead of the floor. *)
Definition ahead (hi : Z) (q : Queue) : Prop := ∀ j v, vr q j = Some v → v ≤ min_vruntime q + hi.

Lemma same_queue q ps :
  Forall2 same_credit (q_procs q) ps → queue_ok q →
  queue_ok (with_procs q ps) ∧ ∀ j, vr (with_procs q ps) j = vr q j.
Proof.
  intros H [He Ho Hr Hf]. assert (∀ j, vr (with_procs q ps) j = vr q j) as Hv by (intros; by apply vrs_same).
  split; [|done]. split; simpl; [|done| |done]; [intros s Hs; by eapply none_same, He|intros j v; rewrite Hv; apply Hr].
Qed.

Lemma slice_credit hi now q i c es q' :
  queue_ok q → slice now q i c es q' → 0 ≤ c ≤ hi → ahead hi q →
  ahead hi q' ∧ ∀ j e t, can_run now q j t → Reaped j ∉ es → credit q j = Some e →
    credit q' j = Some (e + if decide (j = i) then c else 0).
Proof.
  intros Hok Hs Hc Ha. destruct (slice_spec _ _ _ _ _ _ Hok Hs) as (t & Hcan & Hmin & [_ _ Hf Hself Hkept Hnew _]).
  assert (min_vruntime q ≤ eff q t) as Hfl by (unfold eff; lia). split.
  - intros j v Hv. rewrite Hf. destruct (decide (j = i)) as [->|Hne]; [rewrite Hself in Hv; injection Hv as <-; lia|].
    destruct (Hnew j v Hne Hv) as [Hv0|?]; [|lia]. specialize (Ha j v Hv0). lia.
  - intros j e tj Hj Hr. unfold credit. rewrite (can_run_vr _ _ _ _ Hj). simpl. intros [= <-]. rewrite Hf. case_decide as D.
    + subst j. rewrite Hself. simpl. f_equal. pose proof (can_run_vr _ _ _ _ Hj) as E1. rewrite (can_run_vr _ _ _ _ Hcan) in E1.
      injection E1 as E1. unfold eff. lia.
    + rewrite (Hkept j (s_vruntime tj)); [|done|done|by eapply can_run_vr]. simpl. f_equal. specialize (Hmin j tj Hj). unfold eff in *. lia.
Qed.

(** The virtual time charged to slot [i] in a run. *)
Definition charged (i : nat) (l : list (nat * Z * list event)) : Z :=
  foldr (λ x acc, (if decide (x.1.1 = i) then x.1.2 else 0) + acc) 0 l.

Lemma run_credit J hi q l q' :
  run J (λ c, 0 ≤ c ≤ hi) q l q' → queue_ok q → ahead hi q →
  queue_ok q' ∧ ahead hi q' ∧ ∀ j e, j ∈ J → credit q j = Some e → credit q' j = Some (e + charged j l).
Proof.
  induction 1 as [q|q ps l q' Hps _ IH|now q i c es q1 l q2 Hj Hs Hc _ IH]; intros Hok Ha.
  - split; [done|]. split; [done|]. intros j e _ ->. f_equal. simpl. lia.
  - destruct (same_queue q ps Hps Hok) as [Hok1 Hv]. destruct IH as (H1 & H2 & H3); [done|intros j v; rewrite Hv; apply Ha|].
    split; [done|]. split; [done|]. intros j e Hj He. apply H3; [done|]. unfold credit in *. by rewrite Hv.
  - destruct (slice_spec _ _ _ _ _ _ Hok Hs) as (t & _ & _ & Hsl). destruct (slice_credit hi _ _ _ _ _ _ Hok Hs Hc Ha) as [Ha1 Hcr].
    destruct (IH (sl_ok _ _ _ _ _ _ Hsl) Ha1) as (Hok2 & Ha2 & Hcr2). split; [done|]. split; [done|].
    intros j e Hjj He. destruct (Hj j Hjj) as [[tj Htj] Hr]. specialize (Hcr j e tj Htj Hr He). rewrite (Hcr2 j _ Hjj Hcr). f_equal. simpl.
    destruct (decide (j = i)), (decide (i = j)); subst; try done; lia.
Qed.

(** The queue at boot: the first process, which nothing has been charged to. *)
Definition boot_queue (t : STask) : Queue := mkQueue [Some t] 0 [].
Lemma boot_ok t hi : s_vruntime t = 0 → 0 ≤ hi → queue_ok (boot_queue t) ∧ ahead hi (boot_queue t).
Proof.
  intros E Hhi. assert (∀ j v, vr (boot_queue t) j = Some v → v = 0) as H.
  { intros [|j] v; unfold vr, vrs; simpl; [by intros [= <-]|done]. }
  split; [split; simpl; try done; [by intros s Hs%elem_of_nil|apply NoDup_nil_2|]|].
  - intros j v ->%H. done.
  - intros j v ->%H. simpl. lia.
Qed.

(** C24: nice-weighted shares are fair. Take any run of the serial scheduler from boot in which no
    slice is charged more than [hi] of virtual time, tasks being cloned, reaped, put to sleep and
    woken on the way, and any later part [l] of it. Two tasks that exist and can run throughout that
    part are then within [hi] of each other in effective virtual runtime, and the virtual time
    charged to them over that part, however long, differs by at most [2 * hi]. *)
Theorem fair_share t0 hi l0 q J l q' i j ei ej :
  s_vruntime t0 = 0 → 0 ≤ hi →
  run [] (λ c, 0 ≤ c ≤ hi) (boot_queue t0) l0 q →
  run J (λ c, 0 ≤ c ≤ hi) q l q' → i ∈ J → j ∈ J →
  credit q i = Some ei → credit q j = Some ej →
  ∃ fi fj, credit q' i = Some fi ∧ credit q' j = Some fj ∧ Z.abs (fi - fj) ≤ hi ∧
    Z.abs (charged i l - charged j l) ≤ 2 * hi.
Proof.
  intros Ht Hhi H0 Hr Hi Hj Ei Ej. destruct (boot_ok t0 hi Ht Hhi) as [Hok0 Ha0].
  destruct (run_credit [] hi _ _ _ H0 Hok0 Ha0) as (Hok & Ha & _).
  destruct (run_credit J hi _ _ _ Hr Hok Ha) as (_ & Ha' & Hcr).
  pose proof (Hcr i ei Hi Ei) as Ei'. pose proof (Hcr j ej Hj Ej) as Ej'.
  assert (∀ q k e, ahead hi q → credit q k = Some e → min_vruntime q ≤ e ≤ min_vruntime q + hi) as Hb.
  { intros q2 k e H2. unfold credit. destruct (vr q2 k) as [v|] eqn:Ev; [|done]. intros [= <-]. specialize (H2 k v Ev). lia. }
  pose proof (Hb _ _ _ Ha Ei). pose proof (Hb _ _ _ Ha Ej). pose proof (Hb _ _ _ Ha' Ei'). pose proof (Hb _ _ _ Ha' Ej').
  exists (ei + charged i l), (ej + charged j l). split_and!; [done|done|lia|lia].
Qed.

(** * No starvation *)

(** While [j] can run and is passed over, its place in the queue does not move, and what the others
    can still be given shrinks, but for what children bring with them. *)
Lemma starve_slice now q i c es q' j t :
  queue_ok q → slice now q i c es q' → 0 < c → can_run now q j t → Reaped j ∉ es → i ≠ j →
  queue_ok q' ∧ min_vruntime q ≤ min_vruntime q' ∧
  vr q' j = Some (s_vruntime t) ∧ Z.max (s_vruntime t) (min_vruntime q') = eff q t ∧
  budget (eff q t) (q_procs q') + 1 ≤ budget (eff q t) (q_procs q) + births es * (eff q t + 1 - min_vruntime q).
Proof.
  intros Hok Hs Hc Hj Hr Hne. destruct (slice_spec _ _ _ _ _ _ Hok Hs) as (ti & Hcan & Hmin & [Hok' _ Hf Hself Hkept Hnew Hb]).
  specialize (Hmin j t Hj). assert (min_vruntime q ≤ eff q ti) as Hfl by (unfold eff; lia). split_and!; [done|lia| | |].
  - apply Hkept; [done|done|]. by eapply can_run_vr.
  - rewrite Hf. unfold eff in *. lia.
  - specialize (Hb (eff q t)). pose proof (births_nonneg es). simpl in Hb.
    assert (births es * Z.max 0 (eff q t + 1 - eff q ti) ≤ births es * (eff q t + 1 - min_vruntime q)) by (apply Z.mul_le_mono_nonneg_l; lia).
    assert (s_vruntime ti ≤ eff q ti) by (unfold eff; lia). lia.
Qed.

Definition all_births (l : list (nat * Z * list event)) : Z := foldr (λ x n, births x.2 + n) 0 l.

Lemma run_starve j q l q' B v f :
  run [j] (λ c, 0 < c) q l q' → queue_ok q → vr q j = Some v → Z.max v (min_vruntime q) = B → f ≤ min_vruntime q →
  (∀ x, x ∈ l → x.1.1 ≠ j) → Z.of_nat (length l) ≤ budget B (q_procs q) + all_births l * (B + 1 - f).
Proof.
  intros Hr. revert v. induction Hr as [q|q ps l q' Hps _ IH|now q i c es q1 l q2 Hj Hs Hc _ IH]; intros v Hok Hv HB Hf Hl.
  - pose proof (budget_nonneg B (q_procs q)). simpl. lia.
  - destruct (same_queue q ps Hps Hok) as [Hok1 Hv1]. rewrite <- (budget_same B _ _ Hps).
    apply (IH v); [done|by rewrite Hv1|done|done|done].
  - destruct (Hj j) as [[t Ht] Hre]; [apply elem_of_cons; by left|].
    pose proof (can_run_vr _ _ _ _ Ht) as E. rewrite E in Hv. injection Hv as <-.
    assert (i ≠ j) as Hne by (apply (Hl (i, c, es)), elem_of_cons; by left).
    destruct (starve_slice _ _ _ _ _ _ _ _ Hok Hs Hc Ht Hre Hne) as (Hok1 & Hfl & Hv1 & HB1 & Hb).
    assert (B = eff q t) as HBe by (unfold eff; lia). rewrite <- HBe in *.
    assert (Z.of_nat (length l) ≤ budget B (q_procs q1) + all_births l * (B + 1 - f)) as IH'.
    { apply (IH (s_vruntime t)); [done|done|done|lia|]. intros x Hx. apply Hl, elem_of_cons. by right. }
    simpl length. simpl all_births. pose proof (births_nonneg es).
    assert (births es * (B + 1 - min_vruntime q) ≤ births es * (B + 1 - f)) by (apply Z.mul_le_mono_nonneg_l; lia). lia.
Qed.

(** C31: no starvation without endless cloning. From a queue reached from boot, a task that stays
    and can run is picked within a bounded number of slices, if every slice is charged something: the bound is [budget], how far
    the tasks' virtual runtimes are below the waiting task's, plus, for every task cloned
    meanwhile, how far the floor is below it. *)
Theorem no_starvation t0 hi l0 j q l q' v :
  s_vruntime t0 = 0 → 0 ≤ hi → run [] (λ c, 0 ≤ c ≤ hi) (boot_queue t0) l0 q →
  run [j] (λ c, 0 < c) q l q' → vr q j = Some v →
  let B := Z.max v (min_vruntime q) in
  budget B (q_procs q) + all_births l * (B + 1 - min_vruntime q) < Z.of_nat (length l) →
  ∃ x, x ∈ l ∧ x.1.1 = j.
Proof.
  intros Ht Hhi H0 Hr Hv B Hb. destruct (boot_ok t0 hi Ht Hhi) as [Hok0 Ha0].
  destruct (run_credit [] hi _ _ _ H0 Hok0 Ha0) as (Hok & _ & _).
  destruct (decide (Exists (λ x, x.1.1 = j) l)) as [He|Hn]; [by apply Exists_exists in He|].
  exfalso. pose proof (run_starve j q l q' B v (min_vruntime q) Hr Hok Hv eq_refl ltac:(lia)) as Hlen.
  assert (∀ x, x ∈ l → x.1.1 ≠ j) as Hall; [|specialize (Hlen Hall); lia].
  intros x Hx Hxj. apply Hn, Exists_exists. eauto.
Qed.

(** The deadlock test is exact: it holds when some task is live and none can be run. *)
Lemma everything_parked_iff ps : everything_parked ps = any_running ps && negb (has_runnable ps).
Proof.
  unfold everything_parked, any_running, has_runnable, any_task.
  assert (∀ b, all_parked b ps = (b || existsb (from_option is_running false) ps) &&
    negb (existsb (from_option (λ t, is_running t && negb (s_parked t) && negb (held t)) false) ps)) as H;
    [|apply (H false)].
  induction ps as [|[t|] ps IH]; intros b; simpl.
  - by rewrite orb_false_r, andb_true_r.
  - destruct (is_running t) eqn:Er; simpl; [|apply IH].
    destruct (negb (s_parked t) && negb (held t)); simpl; [by rewrite andb_false_r|].
    rewrite IH. simpl. by rewrite orb_true_r.
  - apply IH.
Qed.

(** * Examples *)

(** A slice of one step, which changes nothing but is charged. *)
Definition charged_slice (q1 : Queue) (i : nat) (t : STask) (delta : Z) : Queue :=
  check_in (check_out q1 i) i (charge_vruntime t delta) false.
Lemma slice_exec now q i q1 t delta :
  0 ≤ delta → pick_serial_runnable now q = Ok (Some i, q1) → q_procs q1 !! i = Some (Some t) →
  slice now q i (s_vruntime (charge_vruntime t delta) - s_vruntime t) [] (charged_slice q1 i t delta).
Proof.
  intros Hd Hp Hl. econstructor; [exact Hp|exact Hl| |reflexivity|reflexivity].
  eapply (svs_cons _ _ [] _ _ []); [by apply (sv_charge _ _ delta)|apply svs_nil].
Qed.
Lemma clone_at t q child j q1 :
  s_vruntime child = s_vruntime t → add_child q child = (j, q1) → service t q [Born j] t q1.
Proof. intros Hc E. pose proof (sv_clone t q child Hc) as H. by rewrite E in H. Qed.
Lemma keep_all (ps : list (option STask)) : Forall2 same_credit ps ps.
Proof. apply Forall_Forall2_diag, Forall_true. intros x. reflexivity. Qed.

Definition demo_stask (nice v : Z) : STask := mkSTask Running false false 0 true nice v None None [].
Definition demo_boot : Queue := boot_queue (demo_stask 0 0).
(** The first process clones a child of nice 5 and is charged 1. *)
Definition demo_forked : Queue := mkQueue [Some (demo_stask 0 1); Some (demo_stask 5 0)] 0 [].
Lemma demo_fork : run [] (λ c, 0 ≤ c ≤ 3) demo_boot [(0%nat, 1, [Born 1])] demo_forked.
Proof.
  eapply (run_cons _ _ 0 _ _ _ _ demo_forked); [by intros j Hj%elem_of_nil| |lia|apply run_nil].
  eapply (slice_intro _ _ _ _ _ _ _ (demo_stask 0 0) (charge_vruntime (demo_stask 0 0) 1) _ false);
    [vm_compute; reflexivity|reflexivity| |vm_compute; reflexivity|].
  - eapply (svs_cons _ _ [Born 1] _ _ []); [apply (clone_at _ _ (demo_stask 5 0)); vm_compute; reflexivity|].
    eapply (svs_cons _ _ [] _ _ []); [by apply (sv_charge _ _ 1)|apply svs_nil].
  - vm_compute. reflexivity.
Qed.

(** Four slices of one nanosecond: the child, then three times the parent. *)
Definition demo1 : Queue := mkQueue [Some (demo_stask 0 1); Some (demo_stask 5 3)] 0 [].
Definition demo2 : Queue := mkQueue [Some (demo_stask 0 2); Some (demo_stask 5 3)] 1 [].
Definition demo3 : Queue := mkQueue [Some (demo_stask 0 3); Some (demo_stask 5 3)] 2 [].
Definition demo4 : Queue := mkQueue [Some (demo_stask 0 4); Some (demo_stask 5 3)] 3 [].
Definition demo_trace : list (nat * Z * list event) := [(1%nat, 3, []); (0%nat, 1, []); (0%nat, 1, []); (0%nat, 1, [])].
Lemma demo_run (P : Z → Prop) J :
  P 1 → P 3 → (∀ j, j ∈ J → j = 0%nat ∨ j = 1%nat) → run J P demo_forked demo_trace demo4.
Proof.
  intros H1 H3 HJ.
  assert (∀ a b f j, j ∈ J → (∃ t, can_run 0 (mkQueue [Some (demo_stask 0 a); Some (demo_stask 5 b)] f []) j t) ∧ Reaped j ∉ []) as Hc.
  { intros a b f j Hj. destruct (HJ j Hj) as [-> | ->]; (split; [eexists; split; reflexivity|apply not_elem_of_nil]). }
  eapply (run_cons _ _ 0 _ _ _ _ demo1); [apply Hc|apply (slice_exec 0 demo_forked 1 demo_forked (demo_stask 5 0) 1); done|done|].
  eapply (run_cons _ _ 0 _ _ _ _ demo2); [apply Hc| |done|].
  { apply (slice_exec 0 demo1 0 (mkQueue (q_procs demo1) 1 []) (demo_stask 0 1) 1); done. }
  eapply (run_cons _ _ 0 _ _ _ _ demo3); [apply Hc| |done|].
  { apply (slice_exec 0 demo2 0 (mkQueue (q_procs demo2) 2 []) (demo_stask 0 2) 1); done. }
  eapply (run_cons _ _ 0 _ _ _ _ demo4); [apply Hc| |done|apply run_nil].
  apply (slice_exec 0 demo3 0 (mkQueue (q_procs demo3) 3 []) (demo_stask 0 3) 1); done.
Qed.

Lemma fair_share_witness :
  ∃ fi fj, credit demo4 0 = Some fi ∧ credit demo4 1 = Some fj ∧ Z.abs (fi - fj) ≤ 3.
Proof.
  destruct (fair_share (demo_stask 0 0) 3 [(0%nat, 1, [Born 1])] demo_forked [0%nat; 1%nat] demo_trace demo4 0 1 1 0)
    as (fi & fj & H1 & H2 & H3 & _).
  - reflexivity.
  - lia.
  - exact demo_fork.
  - apply demo_run; [lia|lia|]. intros j [Hj|Hj%list_elem_of_singleton]%elem_of_cons; [by left|by right].
  - apply elem_of_cons. by left.
  - apply elem_of_cons. right. by apply list_elem_of_singleton.
  - vm_compute. reflexivity.
  - vm_compute. reflexivity.
  - exists fi, fj. split; [exact H1|]. split; [exact H2|exact H3].
Defined.

Lemma no_starvation_witness :
  budget 1 (q_procs demo_forked) = 3 ∧ ∃ x, x ∈ demo_trace ∧ x.1.1 = 0%nat.
Proof.
  split; [reflexivity|].
  apply (no_starvation (demo_stask 0 0) 3 [(0%nat, 1, [Born 1])] 0 demo_forked demo_trace demo4 1).
  - reflexivity.
  - lia.
  - exact demo_fork.
  - apply demo_run; [lia|lia|]. intros j ->%list_elem_of_singleton. by left.
  - reflexivity.
  - vm_compute. reflexivity.
Defined.

(** A chain of tasks that clone and exit starves a task for good. A child starts at the virtual
    runtime its parent had before the step that cloned it was charged, so the newest of the
    chain is always at the floor: task 2, one nanosecond above it, waits however long, though it
    can run, and every slice is charged. *)
Definition gone (v : Z) : STask := mkSTask (Zombie 0) false false 0 true 0 v None None [].
Definition chain_at (b : bool) : Queue :=
  mkQueue (if b then [Some (gone 1); Some (demo_stask 0 0); Some (demo_stask 0 1)]
           else [Some (demo_stask 0 0); Some (gone 1); Some (demo_stask 0 1)]) 0 [].
Lemma chain_boot : run [] (λ c, 0 ≤ c ≤ 1) demo_boot [(0%nat, 1, [Born 1; Born 2])] (chain_at true).
Proof.
  eapply (run_cons _ _ 0 _ _ _ _ (chain_at true)); [by intros j Hj%elem_of_nil| |lia|apply run_nil].
  eapply (slice_intro _ _ _ _ _ _ _ (demo_stask 0 0) (gone 1) _ false); [vm_compute; reflexivity|reflexivity| |vm_compute; reflexivity|].
  - eapply (svs_cons _ _ [Born 1] _ _ [Born 2]); [apply (clone_at _ _ (demo_stask 0 0)); vm_compute; reflexivity|].
    eapply (svs_cons _ _ [] (charge_vruntime (demo_stask 0 0) 1) _ [Born 2]); [by apply (sv_charge _ _ 1)|].
    eapply (svs_cons _ _ [Born 2] _ _ []); [apply (clone_at _ _ (demo_stask 0 1)); vm_compute; reflexivity|].
    eapply (svs_cons _ _ [] (gone 1) _ []); [apply sv_work; [vm_compute; reflexivity|apply keep_all]|apply svs_nil].
  - vm_compute. reflexivity.
Qed.
Lemma chain_slice b :
  slice 0 (chain_at b) (Nat.b2n b) 1 [Reaped (Nat.b2n (negb b)); Born (Nat.b2n (negb b))] (chain_at (negb b)).
Proof.
  set (o := Nat.b2n (negb b)).
  set (Q := mkQueue (<[o := Some (demo_stask 0 0)]> (<[Nat.b2n b := None]> (q_procs (chain_at b)))) 0 []).
  apply (slice_intro _ _ _ _ _ _ (chain_at b) (demo_stask 0 0) (gone 1) Q false);
    [by destruct b|by destruct b| |by vm_compute|by destruct b].
  eapply (svs_cons _ _ [Reaped o] _ _ [Born o]); [apply sv_reap|].
  eapply (svs_cons _ _ [Born o] _ Q []); [apply (clone_at _ _ (demo_stask 0 0)); [done|by destruct b]|].
  eapply (svs_cons _ _ [] (charge_vruntime (demo_stask 0 0) 1) Q []); [by apply (sv_charge _ _ 1)|].
  eapply (svs_cons _ _ [] (gone 1) Q []); [exact (sv_work (charge_vruntime (demo_stask 0 0) 1) Q (gone 1) (q_procs Q) eq_refl (keep_all _))|apply svs_nil].
Qed.
Lemma clone_chain_starves n :
  ∃ l q', run [2%nat] (λ c, 0 < c) (chain_at true) l q' ∧ length l = n ∧ ∀ x, x ∈ l → x.1.1 ≠ 2%nat.
Proof.
  generalize true. induction n as [|n IH]; intros b.
  - exists [], (chain_at b). split_and!; [apply run_nil|done|]. by intros x Hx%elem_of_nil.
  - destruct (IH (negb b)) as (l & q' & Hr & Hlen & Hl).
    exists ((Nat.b2n b, 1, [Reaped (Nat.b2n (negb b)); Born (Nat.b2n (negb b))]) :: l), q'. split_and!.
    + eapply run_cons; [|apply chain_slice|lia|exact Hr]. intros j ->%list_elem_of_singleton.
      split; [destruct b; eexists; split; reflexivity|]. destruct b; set_solver.
    + simpl. by rewrite Hlen.
    + intros x [E|Hx]%elem_of_cons; [rewrite E; by destruct b|by apply Hl].
Qed.
