(* ===== verification/Softfloat.v ===== *)
(** The software floating-point core ([src/vcpu/softfloat.rs]): unpacked values, packing and
    unpacking of the four formats, the one rounding point, the arithmetic cores and the SSE
    helpers built on them.

    A [u128] is a [Z] below [U128]; its shifts, sums and products wrap, as in a release build
    (a shift distance is taken modulo 128). Exponents are [Z]: the formats keep them far
    inside an [i32]. *)
From S2P Require Import Prelude.
From stdpp Require Import base numbers.
Local Open Scope Z_scope.

Definition U128 : Z := 2 ^ 128.
Definition shl128 (x n : Z) : Z := Z.shiftl x (n mod 128) mod U128.
Definition shr128 (x n : Z) : Z := Z.shiftr x (n mod 128).

(** * Modes, flags and formats *)

Inductive Round : Type := Nearest | Down | Up | ToZero.
#[export] Instance Round_eq_dec : EqDecision Round.
Proof. solve_decision. Defined.

Definition from_x86 (rc : Z) : Round :=
  match Z.land rc 3 with 1 => Down | 2 => Up | 3 => ToZero | _ => Nearest end.

Definition INVALID : Z := 0x01.
Definition DENORMAL : Z := 0x02.
Definition DIVZERO : Z := 0x04.
Definition OVERFLOW : Z := 0x08.
Definition UNDERFLOW : Z := 0x10.
Definition INEXACT : Z := 0x20.

Record Fmt : Type := mkFmt { prec : Z; emax : Z; emin : Z }.
Definition FMT16 : Fmt := mkFmt 11 15 (-14).
Definition FMT32 : Fmt := mkFmt 24 127 (-126).
Definition FMT64 : Fmt := mkFmt 53 1023 (-1022).
Definition FMT80 : Fmt := mkFmt 64 16383 (-16382).

Definition x87_fmt (pc : Z) : Fmt :=
  mkFmt (match Z.land pc 3 with 0 => 24 | 2 => 53 | _ => 64 end) (emax FMT80) (emin FMT80).

(** * Unpacked values *)

Inductive Class : Type := Zero | Finite | Inf | Nan.
#[export] Instance Class_eq_dec : EqDecision Class.
Proof. solve_decision. Defined.

Definition QUIET : Z := 2 ^ 62.

Record Fp : Type := mkFp { sign : bool; class : Class; sig : Z; exp : Z }.
#[export] Instance Fp_eq_dec : EqDecision Fp.
Proof. solve_decision. Defined.

Definition INDEFINITE : Fp := mkFp true Nan QUIET 0.
Definition fp_zero (s : bool) : Fp := mkFp s Zero 0 0.
Definition fp_inf (s : bool) : Fp := mkFp s Inf 0 0.
Definition fp_finite (s : bool) (m e : Z) : Fp :=
  if m =? 0 then fp_zero s else mkFp s Finite m e.
Definition is_nan (v : Fp) : bool := bool_decide (class v = Nan).
Definition is_snan (v : Fp) : bool := bool_decide (class v = Nan) && (Z.land (sig v) QUIET =? 0).
Definition quieted (v : Fp) : Fp := mkFp (sign v) (class v) (Z.lor (sig v) QUIET) (exp v).
(** [ilog2]; every caller passes a nonzero significand. *)
Definition msb (m : Z) : Z := Z.log2 m.
Definition lead_exp (v : Fp) : Z := exp v + msb (sig v).
Definition is_denormal (v : Fp) (fmt : Fmt) : bool :=
  bool_decide (class v = Finite) && (lead_exp v <? emin fmt).
Definition fp_neg (v : Fp) : Fp := mkFp (negb (sign v)) (class v) (sig v) (exp v).

(** * Unpacking *)

Definition unpack_f16 (bits : Z) : Fp :=
  let s := negb (Z.shiftr bits 15 =? 0) in
  let e := Z.land (Z.shiftr bits 10) 0x1f in
  let mant := Z.land bits 0x3ff in
  if e =? 0x1f then if mant =? 0 then fp_inf s else mkFp s Nan (shl128 mant 53) 0
  else if e =? 0 then fp_finite s mant (-24)
  else fp_finite s (Z.lor mant (2 ^ 10)) (e - 25).

Definition unpack_f32 (bits : Z) : Fp :=
  let s := negb (Z.shiftr bits 31 =? 0) in
  let e := Z.land (Z.shiftr bits 23) 0xff in
  let mant := Z.land bits 0x7fffff in
  if e =? 0xff then if mant =? 0 then fp_inf s else mkFp s Nan (shl128 mant 40) 0
  else if e =? 0 then fp_finite s mant (-149)
  else fp_finite s (Z.lor mant (2 ^ 23)) (e - 150).

Definition unpack_f64 (bits : Z) : Fp :=
  let s := negb (Z.shiftr bits 63 =? 0) in
  let e := Z.land (Z.shiftr bits 52) 0x7ff in
  let mant := Z.land bits 0xfffffffffffff in
  if e =? 0x7ff then if mant =? 0 then fp_inf s else mkFp s Nan (shl128 mant 11) 0
  else if e =? 0 then fp_finite s mant (-1074)
  else fp_finite s (Z.lor mant (2 ^ 52)) (e - 1075).

Definition unpack_f80 (bits : Z) : Fp :=
  let s := negb (Z.land (Z.shiftr bits 79) 1 =? 0) in
  let e := Z.land (Z.shiftr bits 64) 0x7fff in
  let m := Z.land bits 0xffffffffffffffff in
  if e =? 0x7fff then
    if Z.land m 0x7fffffffffffffff =? 0 then fp_inf s
    else mkFp s Nan (Z.land m 0x7fffffffffffffff) 0
  else if e =? 0 then fp_finite s m (-16445)
  else fp_finite s m (e - 16446).

Definition f80_unsupported (bits : Z) : bool :=
  negb (Z.land (Z.shiftr bits 64) 0x7fff =? 0) && (Z.land (Z.shiftr bits 63) 1 =? 0).

(** * Packing *)

Definition justify (v : Fp) (prec : Z) : Z * Z :=
  let m := msb (sig v) in
  let e := exp v + m in
  (if m <? prec then shl128 (sig v) (prec - 1 - m) else shr128 (sig v) (m - (prec - 1)), e).

Definition pack_f16 (v : Fp) : Z :=
  let s := Z.shiftl (Z.b2z (sign v)) 15 in
  match class v with
  | Zero => s
  | Inf => Z.lor s 0x7c00
  | Nan => Z.lor (Z.lor s 0x7c00) (Z.land (shr128 (sig v) 53 mod U16) 0x3ff)
  | Finite =>
    let '(m, e) := justify v 11 in
    if e <? emin FMT16 then Z.lor s (Z.land (shl128 (sig v) (exp v + 24) mod U16) 0x3ff)
    else Z.lor (Z.lor s (Z.shiftl ((e + 15) mod U16) 10 mod U16)) (Z.land (m mod U16) 0x3ff)
  end.

Definition pack_f32 (v : Fp) : Z :=
  let s := Z.shiftl (Z.b2z (sign v)) 31 in
  match class v with
  | Zero => s
  | Inf => Z.lor s 0x7f800000
  | Nan => Z.lor (Z.lor s 0x7f800000) (Z.land (shr128 (sig v) 40 mod U32) 0x7fffff)
  | Finite =>
    let '(m, e) := justify v 24 in
    if e <? emin FMT32 then Z.lor s (Z.land (shl128 (sig v) (exp v + 149) mod U32) 0x7fffff)
    else Z.lor (Z.lor s (Z.shiftl ((e + 127) mod U32) 23 mod U32)) (Z.land (m mod U32) 0x7fffff)
  end.

Definition pack_f64 (v : Fp) : Z :=
  let s := Z.shiftl (Z.b2z (sign v)) 63 in
  match class v with
  | Zero => s
  | Inf => Z.lor s 0x7ff0000000000000
  | Nan => Z.lor (Z.lor s 0x7ff0000000000000) (Z.land (shr128 (sig v) 11 mod U64) 0xfffffffffffff)
  | Finite =>
    let '(m, e) := justify v 53 in
    if e <? emin FMT64 then Z.lor s (Z.land (shl128 (sig v) (exp v + 1074) mod U64) 0xfffffffffffff)
    else Z.lor (Z.lor s (Z.shiftl ((e + 1023) mod U64) 52 mod U64))
               (Z.land (m mod U64) 0xfffffffffffff)
  end.

Definition pack_f80 (v : Fp) : Z :=
  let s := Z.shiftl (Z.b2z (sign v)) 79 in
  match class v with
  | Zero => s
  | Inf => Z.lor (Z.lor s (Z.shiftl 0x7fff 64)) (2 ^ 63)
  | Nan => Z.lor (Z.lor (Z.lor s (Z.shiftl 0x7fff 64)) (2 ^ 63)) (Z.land (sig v) 0x7fffffffffffffff)
  | Finite =>
    let '(m, e) := justify v 64 in
    if e <? emin FMT80 then Z.lor s (Z.land (shl128 (sig v) (exp v + 16445)) 0xffffffffffffffff)
    else Z.lor (Z.lor s (shl128 ((e + 16383) mod U128) 64)) m
  end.

(** * The one rounding point *)

Record Rounded : Type := mkRounded { rv : Fp; flags : Z; up : bool; tiny : bool }.
Definition rexact (v : Fp) : Rounded := mkRounded v 0 false false.
Definition rinvalid : Rounded := mkRounded INDEFINITE INVALID false false.

Definition round_decision (lsb round_bit sticky s : bool) (mode : Round) : bool :=
  match mode with
  | Nearest => round_bit && (sticky || lsb)
  | ToZero => false
  | Up => (round_bit || sticky) && negb s
  | Down => (round_bit || sticky) && s
  end.

Definition split (m sh : Z) : Z * bool * bool :=
  if sh <=? 0 then (shl128 m (- sh), false, false)
  else if 129 <=? sh then (0, false, negb (m =? 0))
  else if sh =? 128 then (0, negb (Z.shiftr m 127 =? 0), negb (Z.land m (Z.shiftr (U128 - 1) 1) =? 0))
  else (Z.shiftr m sh, negb (Z.land (Z.shiftr m (sh - 1)) 1 =? 0),
        negb (Z.land m (Z.shiftl 1 (sh - 1) - 1) =? 0)).

(** The tininess test of [round]: the result of rounding to [prec] bits with an unbounded
    exponent is below the normal range. *)
Definition is_tiny (s : bool) (m ex : Z) (sticky : bool) (fmt : Fmt) (mode : Round) (e : Z) : bool :=
  let p := prec fmt in
  match e ?= emin fmt - 1 with
  | Lt => true
  | Eq =>
    let '(q, r, st) := split m (e - (p - 1) - ex) in
    negb (round_decision (negb (Z.land q 1 =? 0)) r (st || sticky) s mode && (q + 1 =? shl128 1 p))
  | Gt => false
  end.

Definition to_inf (s : bool) (mode : Round) : bool :=
  match mode with Nearest => true | ToZero => false | Up => negb s | Down => s end.

Definition round (s : bool) (m ex : Z) (sticky : bool) (fmt : Fmt) (mode : Round) : Rounded :=
  if m =? 0 then
    if negb sticky then rexact (fp_zero s)
    else
      let up := round_decision false false true s mode in
      let ulp := emin fmt - (prec fmt - 1) in
      mkRounded (if up then fp_finite s 1 ulp else fp_zero s) (Z.lor INEXACT UNDERFLOW) up true
  else
    let p := prec fmt in
    let e := ex + msb m in
    let tiny := is_tiny s m ex sticky fmt mode e in
    let ulp := Z.max e (emin fmt) - (p - 1) in
    let '(q, r, st) := split m (ulp - ex) in
    let st := st || sticky in
    let inexact := r || st in
    let up := round_decision (negb (Z.land q 1 =? 0)) r st s mode in
    let '(q, ulp_exp) :=
      if up then
        let q := (q + 1) mod U128 in
        if q =? shl128 1 p then (Z.shiftr q 1, ulp + 1) else (q, ulp)
      else (q, ulp) in
    let fl := if inexact then INEXACT else 0 in
    if negb (q =? 0) && (emax fmt <? ulp_exp + msb q) then
      let inf := to_inf s mode in
      mkRounded (if inf then fp_inf s else fp_finite s (shl128 1 p - 1) (emax fmt - (p - 1)))
                (Z.lor fl (Z.lor OVERFLOW INEXACT)) inf false
    else
      mkRounded (fp_finite s q ulp_exp) (if tiny && inexact then Z.lor fl UNDERFLOW else fl)
                (up && inexact) tiny.

Definition round_fp (v : Fp) (fmt : Fmt) (mode : Round) : Rounded :=
  match class v with
  | Finite => round (sign v) (sig v) (exp v) false fmt mode
  | _ => rexact v
  end.

(** * Arithmetic cores *)

Definition norm63 (m ex : Z) : Z * Z := let n := msb m in (shl128 m (63 - n), ex + n).

Definition shr_sticky (x n : Z) : Z * bool :=
  if n =? 0 then (x, false)
  else if 128 <=? n then (0, negb (x =? 0))
  else (Z.shiftr x n, negb (Z.land x (Z.shiftl 1 n - 1) =? 0)).

(** What [add_finite] and [add_wide] do once both significands are justified to bit 126:
    [big], of sign [hsign] and leading exponent [he], dominates [ls], [d] exponents lower. *)
Definition add_aligned (big he : Z) (hsign : bool) (ls d : Z) (lsign : bool) (fmt : Fmt)
    (mode : Round) : Rounded :=
  let '(small, sticky) := shr_sticky ls d in
  if bool_decide (hsign = lsign) then round hsign ((big + small) mod U128) (he - 126) sticky fmt mode
  else if d =? 0 then
    match big ?= small with
    | Eq => rexact (fp_zero (bool_decide (mode = Down)))
    | Gt => round hsign (big - small) (he - 126) false fmt mode
    | Lt => round lsign (small - big) (he - 126) false fmt mode
    end
  else
    let diff := (shl128 (big - small) 1 - Z.b2z sticky) mod U128 in
    round hsign diff (he - 127) sticky fmt mode.

Definition add_finite (a b : Fp) (fmt : Fmt) (mode : Round) : Rounded :=
  let '(sa, ea) := norm63 (sig a) (exp a) in
  let '(sb, eb) := norm63 (sig b) (exp b) in
  let '(hs, he, hsign, ls, le, lsign) :=
    if eb <=? ea then (sa, ea, sign a, sb, eb, sign b) else (sb, eb, sign b, sa, ea, sign a) in
  add_aligned (shl128 hs 63) he hsign (shl128 ls 63) ((he - le) mod U32) lsign fmt mode.

Definition add (a b : Fp) (fmt : Fmt) (mode : Round) : Rounded :=
  match class a, class b with
  | Inf, Inf => if bool_decide (sign a = sign b) then rexact a else rinvalid
  | Inf, _ => rexact a
  | _, Inf => rexact b
  | Zero, Zero =>
    rexact (fp_zero (if bool_decide (sign a = sign b) then sign a else bool_decide (mode = Down)))
  | Zero, _ => round_fp b fmt mode
  | _, Zero => round_fp a fmt mode
  | Finite, Finite => add_finite a b fmt mode
  | _, _ => rinvalid
  end.

Definition add_wide (asign : bool) (asig aexp : Z) (bsign : bool) (bsig bexp : Z) (fmt : Fmt)
    (mode : Round) : Rounded :=
  let ma := msb asig in
  let mb := msb bsig in
  let sa := shl128 asig (126 - ma) in
  let ea := aexp + ma in
  let sb := shl128 bsig (126 - mb) in
  let eb := bexp + mb in
  let '(big, he, hsign, ls, le, lsign) :=
    if eb <=? ea then (sa, ea, asign, sb, eb, bsign) else (sb, eb, bsign, sa, ea, asign) in
  add_aligned big he hsign ls ((he - le) mod U32) lsign fmt mode.

Definition fma (a b c : Fp) (fmt : Fmt) (mode : Round) : Rounded :=
  let psign := xorb (sign a) (sign b) in
  match class a, class b with
  | Inf, Zero | Zero, Inf => rinvalid
  | Inf, _ | _, Inf =>
    if bool_decide (class c = Inf) && negb (bool_decide (sign c = psign)) then rinvalid
    else rexact (fp_inf psign)
  | Zero, _ | _, Zero => add (fp_zero psign) c fmt mode
  | Finite, Finite =>
    let ps := (sig a * sig b) mod U128 in
    let pe := exp a + exp b in
    match class c with
    | Inf => rexact c
    | Zero => round psign ps pe false fmt mode
    | Finite => add_wide psign ps pe (sign c) (sig c) (exp c) fmt mode
    | Nan => rinvalid
    end
  | _, _ => rinvalid
  end.

Definition mul (a b : Fp) (fmt : Fmt) (mode : Round) : Rounded :=
  let s := xorb (sign a) (sign b) in
  match class a, class b with
  | Inf, Zero | Zero, Inf => rinvalid
  | Inf, _ | _, Inf => rexact (fp_inf s)
  | Zero, _ | _, Zero => rexact (fp_zero s)
  | Finite, Finite => round s ((sig a * sig b) mod U128) (exp a + exp b) false fmt mode
  | _, _ => rinvalid
  end.

(** [for _ in 0..nbits] of [div]. *)
Fixpoint div_loop (n : nat) (db rem q : Z) : Z * Z :=
  match n with
  | O => (rem, q)
  | S n =>
    let q := shl128 q 1 in
    let '(rem, q) := if db <=? rem then (rem - db, Z.lor q 1) else (rem, q) in
    div_loop n db (shl128 rem 1) q
  end.

Definition div (a b : Fp) (fmt : Fmt) (mode : Round) : Rounded :=
  let s := xorb (sign a) (sign b) in
  match class a, class b with
  | Inf, Inf | Zero, Zero => rinvalid
  | Inf, _ => rexact (fp_inf s)
  | _, Inf | Zero, _ => rexact (fp_zero s)
  | _, Zero => mkRounded (fp_inf s) DIVZERO false false
  | Finite, Finite =>
    let na := msb (sig a) in
    let nb := msb (sig b) in
    let da := shl128 (sig a) (126 - na) in
    let db := shl128 (sig b) (126 - nb) in
    let a_exp := exp a + na - 126 in
    let b_exp := exp b + nb - 126 in
    let nbits := prec fmt + 3 in
    let '(rem, q) := div_loop (Z.to_nat nbits) db da 0 in
    round s q (a_exp - b_exp - (nbits - 1)) (negb (rem =? 0)) fmt mode
  | _, _ => rinvalid
  end.

(** The three loops of [isqrt128]; [None] when [fuel] iterations were not enough. *)
Fixpoint newton (fuel : nat) (n x : Z) : option Z :=
  match fuel with
  | O => None
  | S fuel => let nx := (x + n / x) / 2 in if x <=? nx then Some x else newton fuel n nx
  end.
Fixpoint step_down (fuel : nat) (n x : Z) : option Z :=
  if (0 <? x) && (n / x <? x) then
    match fuel with O => None | S fuel => step_down fuel n (x - 1) end
  else Some x.
Fixpoint step_up (fuel : nat) (n x : Z) : option Z :=
  if x + 1 <=? n / (x + 1) then
    match fuel with O => None | S fuel => step_up fuel n (x + 1) end
  else Some x.
Definition isqrt128 (fuel : nat) (n : Z) : option Z :=
  if n =? 0 then Some 0
  else
    x ← newton fuel n (shl128 1 (msb n / 2 + 1));
    x ← step_down fuel n x;
    step_up fuel n x.

(** How many iterations [isqrt128] is given: its error halves at each one. *)
Definition isqrt_fuel : nat := 68.

Definition sqrt (a : Fp) (fmt : Fmt) (mode : Round) : option Rounded :=
  match class a with
  | Zero => Some (rexact a)
  | Inf => if sign a then Some rinvalid else Some (rexact a)
  | Finite =>
    if sign a then Some rinvalid
    else
      let '(m, e) :=
        if negb (Z.land (exp a) 1 =? 0) then (shl128 (sig a) 1, exp a - 1) else (sig a, exp a) in
      let k := 126 - msb m in
      let k := if negb (Z.land k 1 =? 0) then k + 1 else k in
      let '(m, e) := (shl128 m k, e - k) in
      q ← isqrt128 isqrt_fuel m;
      let r := m - q * q in
      Some (round false (Z.lor (shl128 q 1) (Z.b2z (q <? r))) (Z.quot e 2 - 1) (negb (r =? 0)) fmt mode)
  | Nan => Some rinvalid
  end.

(** * Integers and comparisons *)

Definition round_to_int (a : Fp) (mode : Round) : Rounded :=
  if negb (bool_decide (class a = Finite)) || (0 <=? exp a) then rexact a
  else
    let '(q, r, s) := split (sig a) (- exp a) in
    let up := round_decision (negb (Z.land q 1 =? 0)) r s (sign a) mode in
    let mag := (q + Z.b2z up) mod U128 in
    mkRounded (fp_finite (sign a) mag 0) (if r || s then INEXACT else 0) (up && (r || s)) false.

Definition to_int (a : Fp) (bits : Z) (mode : Round) : option (Z * Z * bool) :=
  match class a with
  | Zero => Some (0, 0, false)
  | Finite =>
    if 64 <? lead_exp a then None
    else
      let r := round_to_int a mode in
      let mag := if bool_decide (class (rv r) = Zero) then 0
                 else shl128 (sig (rv r)) (Z.max (exp (rv r)) 0) in
      let lim := shl128 1 (bits - 1) in
      if (sign a && (lim <? mag)) || (negb (sign a) && (lim <=? mag)) then None
      else
        let v := if sign a then as_i64 (- as_i64 mag) else as_i64 mag in
        Some (v, flags r, up r)
  | _ => None
  end.

Definition from_int (v : Z) : Fp := fp_finite (v <? 0) (Z.abs v) 0.

Definition magnitude_cmp (a b : Fp) : comparison :=
  let rank v := match class v with Zero => 0 | Finite => 1 | Inf | Nan => 2 end in
  match rank a ?= rank b with
  | Eq =>
    if bool_decide (class a = Finite) then
      match lead_exp a ?= lead_exp b with
      | Eq =>
        let na := msb (sig a) in
        let nb := msb (sig b) in
        let '(sa, sb) := if nb <=? na then (sig a, shl128 (sig b) (na - nb))
                         else (shl128 (sig a) (nb - na), sig b) in
        sa ?= sb
      | o => o
      end
    else Eq
  | o => o
  end.

Definition compare (a b : Fp) : comparison :=
  let neg v := negb (bool_decide (class v = Zero)) && sign v in
  if bool_decide (class a = Zero) && bool_decide (class b = Zero) then Eq
  else
    let na := neg a in
    let nb := neg b in
    if negb (Bool.eqb na nb) then if na then Lt else Gt
    else let mag := magnitude_cmp a b in if na then CompOpp mag else mag.

(** * The x87 value type *)

Definition F80_ZERO : Z := 0.
Definition F80_ONE : Z := 0x3fff8000000000000000.
Definition F80_INDEFINITE : Z := 0xffffc000000000000000.
Definition f80_sign (x : Z) : bool := negb (Z.land (Z.shiftr x 79) 1 =? 0).
Definition f80_exp_field (x : Z) : Z := Z.land (Z.shiftr x 64) 0x7fff.
Definition f80_mant (x : Z) : Z := x mod U64.
Definition f80_neg (x : Z) : Z := Z.lxor x (2 ^ 79).
Definition f80_abs (x : Z) : Z := Z.land x (U128 - 1 - 2 ^ 79).

(** * SSE helpers *)

Record Mx : Type := mkMx { mx_mode : Round; daz : bool; ftz : bool }.
Definition from_mxcsr (mxcsr : Z) : Mx :=
  mkMx (from_x86 (Z.shiftr mxcsr 13)) (negb (Z.land mxcsr (2 ^ 6) =? 0))
       (negb (Z.land mxcsr (2 ^ 15) =? 0) && negb (Z.land mxcsr (2 ^ 11) =? 0)).

Definition mx_input (mx : Mx) (v : Fp) (fmt : Fmt) : Fp * Z :=
  if is_denormal v fmt then if daz mx then (fp_zero (sign v), 0) else (v, DENORMAL) else (v, 0).

Definition mx_output (mx : Mx) (r : Rounded) : Fp * Z :=
  if ftz mx && tiny r && bool_decide (class (rv r) = Finite)
  then (fp_zero (sign (rv r)), Z.lor (flags r) (Z.lor UNDERFLOW INEXACT))
  else (rv r, flags r).

Inductive Op : Type := Add | Sub | Mul | Div.

Definition sse_nan2 (a b : Fp) : option (Fp * Z) :=
  if negb (is_nan a) && negb (is_nan b) then None
  else
    let fl := if is_snan a || is_snan b then INVALID else 0 in
    Some (quieted (if is_nan a then a else b), fl).

Definition sse_arith (op : Op) (a b : Fp) (fmt : Fmt) (mx : Mx) : Fp * Z :=
  match sse_nan2 a b with
  | Some r => r
  | None =>
    let '(a, da) := mx_input mx a fmt in
    let '(b, db) := mx_input mx b fmt in
    let r := match op with
             | Add => add a b fmt (mx_mode mx)
             | Sub => add a (fp_neg b) fmt (mx_mode mx)
             | Mul => mul a b fmt (mx_mode mx)
             | Div => div a b fmt (mx_mode mx)
             end in
    let '(v, f) := mx_output mx r in
    (v, Z.lor (Z.lor f da) db)
  end.

Definition sse_sqrt (a : Fp) (fmt : Fmt) (mx : Mx) : option (Fp * Z) :=
  if is_nan a then Some (quieted a, if is_snan a then INVALID else 0)
  else
    let '(a, da) := mx_input mx a fmt in
    r ← sqrt a fmt (mx_mode mx);
    let '(v, f) := mx_output mx r in
    Some (v, Z.lor f da).

(** [f64_op] and [f32_op], the test entry points on bit patterns. *)
Definition f64_op (a b : Z) (op : Op) (mx : Mx) : Z * Z :=
  let '(v, f) := sse_arith op (unpack_f64 a) (unpack_f64 b) FMT64 mx in (pack_f64 v, f).
Definition f32_op (a b : Z) (op : Op) (mx : Mx) : Z * Z :=
  let '(v, f) := sse_arith op (unpack_f32 a) (unpack_f32 b) FMT32 mx in (pack_f32 v, f).
