(* ===== verification/SoftReal.v ===== *)
(** What correct rounding means, over the real numbers: the values a format holds, the IEEE
    rounding of a real in each mode, and when it is inexact, overflows or is tiny; then the one
    rounding point of [Softfloat] against it. *)
From Stdlib Require Import Reals Lra.
From stdpp Require Import base numbers.
From S2P Require Import Prelude Softfloat.
Local Open Scope Z_scope.

(** * Powers of two *)

Definition B (e : Z) : R := powerRZ 2 e.
Create HintDb fp.

Lemma B_pos e : (0 < B e)%R.
Proof. apply powerRZ_lt. lra. Qed.
Lemma B_add a b : B (a + b) = (B a * B b)%R.
Proof. apply powerRZ_add. lra. Qed.
Lemma B_nat n : 0 ≤ n → B n = IZR (2 ^ n).
Proof.
  intros Hn. unfold B. rewrite <-(Z2Nat.id n) at 1 by done. rewrite <-pow_powerRZ.
  rewrite <-(Z2Nat.id n) at 2 by done. by rewrite pow_IZR.
Qed.
Lemma B_0 : B 0 = 1%R.
Proof. done. Qed.
Lemma B_S e : B (e + 1) = (2 * B e)%R.
Proof. rewrite B_add. unfold B at 2. simpl. lra. Qed.
Lemma B_sub a b : a ≤ b → B b = (IZR (2 ^ (b - a)) * B a)%R.
Proof. intros. rewrite <-B_nat, <-B_add by lia. f_equal. lia. Qed.
Lemma B_lt a b : a < b → (B a < B b)%R.
Proof.
  intros H. rewrite (B_sub a b) by lia. pose proof (B_pos a).
  assert (2 ^ 1 ≤ 2 ^ (b - a)) as H2 by (apply Z.pow_le_mono_r; lia). apply IZR_le in H2. simpl in H2. nra.
Qed.
Lemma B_le a b : a ≤ b → (B a <= B b)%R.
Proof. intros H. apply Z.le_lteq in H as [H| ->]; [left; by apply B_lt|right; done]. Qed.
Lemma B_lt_inv a b : (B a < B b)%R → a < b.
Proof. intros. destruct (decide (a < b)); [done|]. assert (B b <= B a)%R by (apply B_le; lia). lra. Qed.
#[export] Hint Resolve B_pos B_lt B_le : fp.

(** * Formats and correct rounding *)

(** The real a finite value stands for. *)
Definition val (v : Fp) : R :=
  match class v with
  | Finite => ((if sign v then -1 else 1) * IZR (sig v) * B (exp v))%R
  | _ => 0%R
  end.

(** The reals a format holds: [prec] significand bits, exponents from the smallest subnormal's
    to the largest normal's. *)
Definition in_fmt (f : Fmt) (y : R) : Prop :=
  ∃ m e, y = (IZR m * B e)%R ∧ Z.abs m < 2 ^ prec f ∧ emin f - (prec f - 1) ≤ e ≤ emax f - (prec f - 1).
(** The same, with an even significand. *)
Definition even_in_fmt (f : Fmt) (y : R) : Prop :=
  ∃ m e, y = (IZR m * B e)%R ∧ Z.Even m ∧ Z.abs m < 2 ^ prec f
         ∧ emin f - (prec f - 1) ≤ e ≤ emax f - (prec f - 1).

Definition max_finite (f : Fmt) : R := (IZR (2 ^ prec f - 1) * B (emax f - (prec f - 1)))%R.
(** Half a unit above the largest finite value. *)
Definition over_half (f : Fmt) : R := (IZR (2 ^ (prec f + 1) - 1) * B (emax f - prec f))%R.

(** The greatest value at or below [x] (minus infinity if there is none), and dually. *)
Definition lower (f : Fmt) (x : R) (v : Fp) : Prop :=
  match class v with
  | Inf => sign v = true ∧ ∀ y, in_fmt f y → (x < y)%R
  | Nan => False
  | _ => in_fmt f (val v) ∧ (val v <= x)%R ∧ ∀ y, in_fmt f y → (y <= x)%R → (y <= val v)%R
  end.
Definition upper (f : Fmt) (x : R) (v : Fp) : Prop :=
  match class v with
  | Inf => sign v = false ∧ ∀ y, in_fmt f y → (y < x)%R
  | Nan => False
  | _ => in_fmt f (val v) ∧ (x <= val v)%R ∧ ∀ y, in_fmt f y → (x <= y)%R → (val v <= y)%R
  end.
(** The closest value, the one with an even significand when two are equally close; infinity
    from half a unit above the largest value on. *)
Definition nearest (f : Fmt) (x : R) (v : Fp) : Prop :=
  match class v with
  | Inf => (over_half f <= Rabs x)%R ∧ (sign v = true ↔ (x < 0)%R)
  | Nan => False
  | _ => (Rabs x < over_half f)%R ∧ in_fmt f (val v) ∧
         ∀ y, in_fmt f y → (Rabs (x - val v) <= Rabs (x - y))%R ∧
                           (y ≠ val v → Rabs (x - val v) = Rabs (x - y) → even_in_fmt f (val v))
  end.
Definition rounds (f : Fmt) (mode : Round) (x : R) (v : Fp) : Prop :=
  match mode with
  | Nearest => nearest f x v
  | Down => lower f x v
  | Up => upper f x v
  | ToZero => ((0 <= x)%R → lower f x v) ∧ ((x <= 0)%R → upper f x v)
  end.

(** Rounding away from zero, for a value of sign [s]. *)
Definition away (mode : Round) (s : bool) : bool :=
  match mode with Up => negb s | Down => s | _ => false end.

Definition negative (x : R) : bool := if Rlt_dec x 0 then true else false.

(** Rounded with an unbounded exponent, the result would exceed the largest finite value. *)
Definition overflows (f : Fmt) (mode : Round) (x : R) : Prop :=
  match mode with
  | Nearest => (over_half f <= Rabs x)%R
  | _ => if away mode (negative x) then (max_finite f < Rabs x)%R else (B (emax f + 1) <= Rabs x)%R
  end.
(** Rounded with an unbounded exponent, the result would be below the smallest normal value. *)
Definition is_tiny_real (f : Fmt) (mode : Round) (x : R) : Prop :=
  match mode with
  | Nearest => (Rabs x < IZR (2 ^ (prec f + 1) - 1) * B (emin f - (prec f + 1)))%R
  | _ => if away mode (negative x) then (Rabs x <= IZR (2 ^ prec f - 1) * B (emin f - prec f))%R
         else (Rabs x < B (emin f))%R
  end.

Definition has (fl bit : Z) : Prop := Z.land fl bit ≠ 0.

(** A finite value as the encoders expect it: the format's bits, on the format's grid. *)
Definition shaped (f : Fmt) (v : Fp) : Prop :=
  class v = Finite → 0 < sig v < 2 ^ prec f ∧ emin f - (prec f - 1) ≤ exp v ∧ lead_exp v ≤ emax f.

(** What an operation whose exact result is the nonzero real [x] must return: the correctly
    rounded value with the sign of [x], and the flags of masked IEEE exceptions. *)
Record correct (f : Fmt) (mode : Round) (x : R) (r : Rounded) : Prop := {
  c_value : rounds f mode x (rv r);
  c_sign : sign (rv r) = negative x;
  c_inexact : has (flags r) INEXACT ↔ class (rv r) = Inf ∨ val (rv r) ≠ x;
  c_overflow : has (flags r) OVERFLOW ↔ overflows f mode x;
  c_underflow : has (flags r) UNDERFLOW ↔ is_tiny_real f mode x ∧ val (rv r) ≠ x;
  c_invalid : Z.land (flags r) (Z.lor INVALID (Z.lor DENORMAL DIVZERO)) = 0;
  c_up : up r = true ↔ class (rv r) = Inf ∨ (Rabs x < Rabs (val (rv r)))%R;
  c_tiny : tiny r = true ↔ is_tiny_real f mode x;
  c_shape : shaped f (rv r) }.

Record fmt_ok (f : Fmt) : Prop := {
  f_prec : 2 ≤ prec f ≤ 64;
  f_range : emin f ≤ emax f }.
