(* ===== verification/SoftRound.v ===== *)
(** The one rounding point ([round] in [src/vcpu/softfloat.rs]) is correct: from any
    significand with a sticky bit that locates the exact result, it returns the correctly
    rounded value and the flags of [SoftReal.correct]. *)
From Stdlib Require Import Reals Lra.
From stdpp Require Import base numbers.
From S2P Require Import Prelude Softfloat SoftReal.
Local Open Scope Z_scope.

(** * Bits *)

Lemma shl128_small x n : 0 ≤ x → 0 ≤ n < 128 → x * 2 ^ n < U128 → shl128 x n = x * 2 ^ n.
Proof.
  intros Hx Hn H. unfold shl128. rewrite (Z.mod_small n), Z.shiftl_mul_pow2 by lia.
  apply Z.mod_small. split; [|done]. apply Z.mul_nonneg_nonneg; lia.
Qed.
Lemma land1_odd n : negb (Z.land n 1 =? 0) = Z.odd n.
Proof.
  change 1 with (Z.ones 1) at 1. rewrite Z.land_ones, Zmod_odd by lia. by destruct (Z.odd n).
Qed.
Lemma land_low m k : 0 ≤ k → Z.land m (Z.shiftl 1 k - 1) = m mod 2 ^ k.
Proof.
  intros Hk. rewrite Z.shiftl_mul_pow2, Z.mul_1_l by done. replace (2 ^ k - 1) with (Z.ones k).
  - by apply Z.land_ones. - rewrite Z.ones_equiv. lia.
Qed.

Lemma split_pos m sh :
  1 ≤ sh → 0 ≤ m < U128 →
  split m sh = (m / 2 ^ sh, Z.odd (m / 2 ^ (sh - 1)), negb (m mod 2 ^ (sh - 1) =? 0)).
Proof.
  intros Hs Hm. unfold split. unfold U128 in *.
  destruct (sh <=? 0) eqn:E0; [lia|]. destruct (129 <=? sh) eqn:E1.
  - assert (2 ^ 128 ≤ 2 ^ (sh - 1)) by (apply Z.pow_le_mono_r; lia).
    assert (2 ^ (sh - 1) ≤ 2 ^ sh) by (apply Z.pow_le_mono_r; lia).
    rewrite (Z.mod_small m), !Z.div_small by lia. done.
  - destruct (sh =? 128) eqn:E2.
    + assert (sh = 128) as -> by lia. change (128 - 1) with 127. rewrite (Z.div_small m) by lia.
      change (Z.shiftr (2 ^ 128 - 1) 1) with (Z.ones 127). rewrite Z.land_ones by lia.
      rewrite Z.shiftr_div_pow2 by lia. f_equal. f_equal.
      assert (0 ≤ m / 2 ^ 127 < 2) as H
        by (split; [apply Z.div_pos; lia|apply Z.div_lt_upper_bound; [lia|exact (proj2 Hm)]]).
      assert (m / 2 ^ 127 = 0 ∨ m / 2 ^ 127 = 1) as [-> | ->] by lia; done.
    + rewrite land_low by lia. by rewrite !Z.shiftr_div_pow2, land1_odd by lia.
Qed.

(** * Where the exact result lies *)

(** [X], the exact result in units of the significand [m]'s last bit, lies in the cell of width
    [2^k] that [m] names, at its lower end exactly when no bit below is set and nothing sticks. *)
Definition cell (m : Z) (st : bool) (X : R) (k : Z) : Prop :=
  (IZR (m / 2 ^ k) * IZR (2 ^ k) <= X < (IZR (m / 2 ^ k) + 1) * IZR (2 ^ k))%R ∧
  (X = (IZR (m / 2 ^ k) * IZR (2 ^ k))%R ↔ m mod 2 ^ k = 0 ∧ st = false).

Lemma pow2_R k : 0 ≤ k → (1 <= IZR (2 ^ k))%R.
Proof. intros. apply (IZR_le 1). assert (0 < 2 ^ k) by (apply Z.pow_pos_nonneg; lia). lia. Qed.

Lemma mod_pow_split m k d :
  0 ≤ k → 0 ≤ d → m mod 2 ^ (k + d) = 0 ↔ m mod 2 ^ k = 0 ∧ (m / 2 ^ k) mod 2 ^ d = 0.
Proof.
  intros Hk Hd. assert (0 < 2 ^ k) by (apply Z.pow_pos_nonneg; lia).
  assert (0 < 2 ^ d) by (apply Z.pow_pos_nonneg; lia).
  rewrite Z.pow_add_r, Z.rem_mul_r by lia.
  pose proof (Z.mod_pos_bound m (2 ^ k)). pose proof (Z.mod_pos_bound (m / 2 ^ k) (2 ^ d)). nia.
Qed.

Lemma cell_mono m st X k k' : 0 ≤ k ≤ k' → cell m st X k → cell m st X k'.
Proof.
  intros Hk [HX He]. set (d := k' - k) in *. replace k' with (k + d) by lia.
  assert (0 ≤ d) by lia. unfold cell. rewrite mod_pow_split by lia.
  rewrite Z.pow_add_r, <-Z.div_div by (try apply Z.pow_nonzero; try apply Z.pow_pos_nonneg; lia).
  set (N := m / 2 ^ k) in *. rewrite mult_IZR.
  pose proof (pow2_R k ltac:(lia)) as HK. pose proof (pow2_R d ltac:(lia)) as HD.
  assert (0 < 2 ^ d) as Hd2 by (apply Z.pow_pos_nonneg; lia).
  pose proof (Z.div_mod N (2 ^ d) ltac:(lia)) as HN. pose proof (Z.mod_pos_bound N (2 ^ d) ltac:(lia)) as Hr.
  set (N' := N / 2 ^ d) in *. set (r := N mod 2 ^ d) in *.
  assert (IZR N = IZR (2 ^ d) * IZR N' + IZR r)%R as HNR by (rewrite HN, plus_IZR, mult_IZR; done).
  destruct Hr as [Hr0 Hr1]. apply IZR_le in Hr0. assert (r + 1 ≤ 2 ^ d) as Hr2 by lia.
  apply IZR_le in Hr2. rewrite plus_IZR in Hr2.
  set (K := IZR (2 ^ k)) in *. set (D := IZR (2 ^ d)) in *. rewrite HNR in *.
  split; [split; nra|]. split.
  - intros E. assert (IZR r = 0)%R as Er.
    { destruct HX as [HX _]. rewrite E in HX. nra. }
    apply eq_IZR in Er. rewrite Er in *. destruct He as [He _]. assert (m mod 2 ^ k = 0 ∧ st = false) as [??]; [|auto].
    apply He. lra.
  - intros [[Em Er] Es]. destruct He as [_ He]. specialize (He (conj Em Es)). rewrite Er in *. lra.
Qed.

(** The kept integer [q], round bit and sticky bit place [Y]. *)
Definition placed (q : Z) (r s : bool) (Y : R) : Prop :=
  match r, s with
  | false, false => Y = IZR q
  | false, true => (IZR q < Y < IZR q + 1 / 2)%R
  | true, false => (Y = IZR q + 1 / 2)%R
  | true, true => (IZR q + 1 / 2 < Y < IZR q + 1)%R
  end.

Lemma split_placed m st X k sh :
  0 ≤ k < sh → 0 ≤ m < U128 → cell m st X k →
  placed (m / 2 ^ sh) (Z.odd (m / 2 ^ (sh - 1))) (negb (m mod 2 ^ (sh - 1) =? 0) || st)
         (X / IZR (2 ^ sh)).
Proof.
  intros Hk Hm Hc. apply (cell_mono _ _ _ _ (sh - 1)) in Hc as [HX He]; [|lia].
  assert (0 < 2 ^ (sh - 1)) by (apply Z.pow_pos_nonneg; lia).
  assert (2 ^ sh = 2 ^ (sh - 1) * 2) as Hp
    by (replace sh with (sh - 1 + 1) at 1 by lia; rewrite Z.pow_add_r by lia; done).
  rewrite Hp, <-Z.div_div, mult_IZR by lia. set (N := m / 2 ^ (sh - 1)) in *.
  pose proof (pow2_R (sh - 1) ltac:(lia)) as HK. set (K := IZR (2 ^ (sh - 1))) in *.
  assert (N = 2 * (N / 2) + Z.b2z (Z.odd N)) as HN
    by (rewrite <-Z.div2_div; apply Z.div2_odd).
  apply (f_equal IZR) in HN. rewrite plus_IZR, mult_IZR in HN. set (q := N / 2) in *.
  assert (X / (K * 2) * (K * 2) = X)%R as HY by (field; lra). set (Y := (X / (K * 2))%R) in *.
  unfold placed. destruct (m mod 2 ^ (sh - 1) =? 0) eqn:Em, st; simpl;
    [|assert (X = IZR N * K)%R by (apply He; split; [lia|done])| |];
    try (assert (X ≠ IZR N * K)%R by (rewrite He; intros [??]; first [done|lia]);
         assert (IZR N * K < X)%R by (destruct HX as [[|] _]; [done|congruence]));
    destruct (Z.odd N); simpl in HN; rewrite HN in *; (split || idtac); nra.
Qed.

(** * The grid of representable values around the exact result *)

(** [a] lies between [q] and [q + 1] units of [2^ulp], the grid the format has there. *)
Record located (f : Fmt) (a : R) (ulp q : Z) : Prop := {
  l_min : emin f - (prec f - 1) ≤ ulp;
  l_q : 0 ≤ q < 2 ^ prec f;
  l_normal : emin f - (prec f - 1) < ulp → 2 ^ (prec f - 1) ≤ q;
  l_a : (IZR q * B ulp <= a < (IZR q + 1) * B ulp)%R }.

Lemma pow_S p : 1 ≤ p → 2 ^ p = 2 * 2 ^ (p - 1).
Proof. intros. replace p with (1 + (p - 1)) at 1 by lia. rewrite Z.pow_add_r by lia. done. Qed.

Section grid.
Context (f : Fmt) (Hf : fmt_ok f).
Let p := prec f.

Lemma p_pos : 2 ≤ 2 ^ (p - 1).
Proof. pose proof (f_prec f Hf). change 2 with (2 ^ 1) at 1. apply Z.pow_le_mono_r; unfold p; lia. Qed.

Lemma in_fmt_0 : in_fmt f 0.
Proof.
  exists 0, (emin f - (prec f - 1)). pose proof (f_prec f Hf). pose proof (f_range f Hf).
  split_and!; [lra| |lia|lia]. apply Z.pow_pos_nonneg; lia.
Qed.

(** Nothing representable lies strictly between two neighbours of the grid. *)
Lemma grid_gap a ulp q y :
  located f a ulp q → in_fmt f y → (y <= IZR q * B ulp)%R ∨ ((IZR q + 1) * B ulp <= y)%R.
Proof.
  intros [Hm Hq Hn _] (m & e & -> & Hm1 & He). destruct (decide (ulp ≤ e)) as [Hu|Hu].
  - rewrite (B_sub ulp e) by done. pose proof (B_pos ulp).
    destruct (decide (m * 2 ^ (e - ulp) ≤ q)) as [Hle|Hgt].
    + left. apply IZR_le in Hle. rewrite mult_IZR in Hle. nra.
    + right. assert (q + 1 ≤ m * 2 ^ (e - ulp)) as Hge by lia.
      apply IZR_le in Hge. rewrite plus_IZR, mult_IZR in Hge. nra.
  - left. specialize (Hn ltac:(lia)). assert (m ≤ 2 * q) as Hmq.
    { rewrite (pow_S (prec f)) in Hm1 by (pose proof (f_prec f Hf); lia). lia. }
    assert (B e <= B (ulp - 1))%R as Hb by (apply B_le; lia).
    assert (B ulp = 2 * B (ulp - 1))%R as -> by (rewrite <-B_S; f_equal; lia).
    apply IZR_le in Hmq. rewrite mult_IZR in Hmq. pose proof (B_pos e).
    destruct (decide (m ≤ 0)) as [H0%IZR_le|H0].
    + assert (0 <= IZR q)%R by (apply (IZR_le 0); lia). nra.
    + assert (0 <= IZR m)%R by (apply (IZR_le 0); lia). nra.
Qed.

Lemma in_fmt_max y : in_fmt f y → (Rabs y <= max_finite f)%R.
Proof.
  intros (m & e & -> & Hm & He). unfold max_finite. rewrite Rabs_mult, <-abs_IZR, (Rabs_pos_eq (B e))
    by (left; apply B_pos).
  assert (B e <= B (emax f - (prec f - 1)))%R by (apply B_le; lia). pose proof (B_pos e).
  assert (Z.abs m ≤ 2 ^ prec f - 1) as Hm2%IZR_le by lia.
  assert (0 <= IZR (Z.abs m))%R by (apply (IZR_le 0); lia). nra.
Qed.

Lemma max_finite_lt : (max_finite f < B (emax f + 1))%R.
Proof.
  unfold max_finite. pose proof (f_prec f Hf). rewrite minus_IZR.
  rewrite (B_sub (emax f - (prec f - 1)) (emax f + 1)) by lia.
  replace (emax f + 1 - (emax f - (prec f - 1))) with (prec f) by lia.
  pose proof (B_pos (emax f - (prec f - 1))). lra.
Qed.
End grid.

(** The integer a mode rounds [Y] to, for positive values. *)
Definition rounds_int (mode : Round) (Y : R) (Q : Z) : Prop :=
  match mode with
  | Nearest => (- (1 / 2) <= Y - IZR Q <= 1 / 2)%R ∧ ((Y - IZR Q = 1 / 2 ∨ Y - IZR Q = - (1 / 2))%R → Z.Even Q)
  | Up => (IZR Q - 1 < Y <= IZR Q)%R
  | _ => (IZR Q <= Y < IZR Q + 1)%R
  end.

Lemma decision_rounds mode q r s Y :
  placed q r s Y →
  let up := round_decision (Z.odd q) r s false mode in
  rounds_int mode Y (q + Z.b2z up) ∧ (up = true ↔ (Y < IZR (q + Z.b2z up))%R)
  ∧ (r || s = true ↔ Y ≠ IZR (q + Z.b2z up)).
Proof.
  intros HY up. assert (IZR (q + Z.b2z up) = IZR q + IZR (Z.b2z up))%R as E by apply plus_IZR.
  assert (Z.odd q = false → Z.Even q) as H1 by (intros Ho; apply Z.even_spec; rewrite <-Z.negb_odd, Ho; done).
  assert (Z.odd q = true → Z.Even (q + 1)) as H2
    by (intros Ho; apply Z.even_spec; rewrite Z.even_add, <-Z.negb_odd, Ho; done).
  unfold rounds_int. rewrite !E. clear E. subst up.
  destruct mode, r, s, (Z.odd q); simpl in *; rewrite ?Z.add_0_r in *;
    (split; [try split; try lra; intros [?|?]; first [exfalso; lra|by auto]|]);
    (split; split; intros; first [done|lra|exfalso; lra]).
Qed.

Lemma val_finite Q ue : 0 ≤ Q →
  val (fp_finite false Q ue) = (IZR Q * B ue)%R ∧ sign (fp_finite false Q ue) = false ∧
  (class (fp_finite false Q ue) = Zero ∨ class (fp_finite false Q ue) = Finite).
Proof.
  intros. unfold fp_finite, fp_zero. destruct (Q =? 0) eqn:E; simpl.
  - assert (Q = 0) as -> by lia. split_and!; [unfold val; simpl; lra|done|by left].
  - split_and!; [unfold val; simpl; lra|done|by right].
Qed.

(** Flag bits of a result that is in range, and of one that overflows. *)
Lemma flags_in_range (inx tny : bool) :
  let fl := if inx then INEXACT else 0 in let r := if tny && inx then Z.lor fl UNDERFLOW else fl in
  (has r INEXACT ↔ inx = true) ∧ ¬ has r OVERFLOW ∧ (has r UNDERFLOW ↔ tny = true ∧ inx = true) ∧
  Z.land r (Z.lor INVALID (Z.lor DENORMAL DIVZERO)) = 0.
Proof. unfold has. destruct inx, tny; vm_compute; intuition congruence. Qed.
Lemma flags_overflow (inx : bool) :
  let r := Z.lor (if inx then INEXACT else 0) (Z.lor OVERFLOW INEXACT) in
  has r INEXACT ∧ has r OVERFLOW ∧ ¬ has r UNDERFLOW ∧ Z.land r (Z.lor INVALID (Z.lor DENORMAL DIVZERO)) = 0.
Proof. unfold has. destruct inx; vm_compute; intuition congruence. Qed.

Lemma lead_cmp f Q ue : 0 < Q → emax f < ue + msb Q ↔ (B (emax f + 1) <= IZR Q * B ue)%R.
Proof.
  intros HQ. pose proof (Z.log2_spec Q HQ) as [H1%IZR_le H2%IZR_lt]. unfold msb.
  pose proof (Z.log2_nonneg Q). rewrite <-B_nat in H1, H2 by lia. pose proof (B_pos ue).
  assert (B (ue + Z.log2 Q) <= IZR Q * B ue < B (ue + (Z.log2 Q + 1)))%R as [Hlo Hhi]
    by (rewrite !(B_add ue); unfold Z.succ in *; nra).
  split; intros Hh.
  - apply (Rle_trans _ (B (ue + Z.log2 Q))); [apply B_le; lia|done].
  - assert (emax f + 1 < ue + (Z.log2 Q + 1)) by (apply B_lt_inv; lra). lia.
Qed.

Section rounded.
Context (f : Fmt) (Hf : fmt_ok f) (mode : Round) (a : R) (ulp q Q : Z).
Hypothesis Hl : located f a ulp q.
Hypothesis Hpos : (0 < a)%R.
Hypothesis HQ : Q = q ∨ Q = q + 1.
Hypothesis Hr : rounds_int mode (a / B ulp) Q.
Abbreviation V := (IZR Q * B ulp)%R.

Lemma a_units : (a / B ulp * B ulp = a)%R.
Proof. field. pose proof (B_pos ulp). lra. Qed.
Lemma Q_bounds : 0 ≤ Q ≤ 2 ^ prec f.
Proof. destruct Hl as [_ Hq _ _]. lia. Qed.

(** Where the grid's unit is when the rounded value is in range, or is not. *)
Lemma in_range_ulp : (V < B (emax f + 1))%R → ulp + (prec f - 1) ≤ emax f.
Proof.
  intros HV. destruct Hl as [Hm Hq Hn _]. pose proof (f_range f Hf). pose proof (f_prec f Hf).
  destruct (decide (ulp + (prec f - 1) ≤ emax f)) as [|Hgt]; [done|].
  assert (2 ^ (prec f - 1) ≤ Q) as HQ2%IZR_le by lia.
  assert (B (emax f + 1) <= B (ulp + (prec f - 1)))%R by (apply B_le; lia).
  rewrite (B_add ulp), (B_nat (prec f - 1)) in * by lia. pose proof (B_pos ulp). nra.
Qed.

Lemma V_in_fmt : (V < B (emax f + 1))%R →
  in_fmt f V ∧ (Z.Even Q → even_in_fmt f V).
Proof.
  clear Hr. intros HV. pose proof (in_range_ulp HV) as Hu. destruct Hl as [Hm Hq _ _]. pose proof (f_prec f Hf).
  pose proof (p_pos f Hf). destruct (decide (Q = 2 ^ prec f)) as [->|HQp].
  - assert (IZR (2 ^ prec f) * B ulp = IZR (2 ^ (prec f - 1)) * B (ulp + 1))%R as E.
    { rewrite B_S, (pow_S (prec f)), mult_IZR by lia. lra. }
    rewrite E in *. assert (ulp + 1 ≤ emax f - (prec f - 1)).
    { rewrite <-B_nat, <-B_add in HV by lia. apply B_lt_inv in HV. lia. }
    assert (Z.abs (2 ^ (prec f - 1)) < 2 ^ prec f) by (rewrite (pow_S (prec f)) by lia; lia).
    split; [|intros _]; exists (2 ^ (prec f - 1)), (ulp + 1); split_and!; try done; try lia.
    exists (2 ^ (prec f - 2)). rewrite (pow_S (prec f - 1)) by lia. do 2 f_equal. lia.
  - assert (Z.abs Q < 2 ^ prec f) by lia.
    split; [|intros He]; exists Q, ulp; split_and!; try done; lia.
Qed.

Lemma overflow_half : mode = Nearest → (over_half f <= a)%R ↔ (B (emax f + 1) <= V)%R.
Proof.
  intros Em. pose proof (f_prec f Hf). pose proof (f_range f Hf). pose proof a_units as Ha.
  pose proof (B_pos ulp) as HB. rewrite Em in Hr. destruct Hr as [Hn He]. set (Y := (a / B ulp)%R) in *.
  assert (over_half f = B (emax f + 1) - B (emax f - prec f))%R as Eo.
  { unfold over_half. rewrite (B_sub (emax f - prec f) (emax f + 1)) by lia.
    replace (emax f + 1 - (emax f - prec f)) with (prec f + 1) by lia. rewrite minus_IZR. lra. }
  destruct (Rlt_or_le V (B (emax f + 1))) as [HV|HV].
  2: { split; [done|]. intros _. destruct (decide (ulp + (prec f - 1) ≤ emax f)) as [Hu|Hu].
    - assert (B ulp <= B (emax f - prec f + 1))%R as Hb by (apply B_le; lia). rewrite B_S in Hb. nra.
    - destruct Hl as [_ _ Hq2 [Hlo _]]. specialize (Hq2 ltac:(lia)). apply IZR_le in Hq2.
      assert (B (emax f + 1) <= B (ulp + (prec f - 1)))%R by (apply B_le; lia).
      rewrite (B_add ulp), (B_nat (prec f - 1)) in * by lia. pose proof (B_pos (emax f - prec f)). nra. }
  split; [|lra]. intros Ho. exfalso. pose proof (in_range_ulp HV) as Hu. pose proof Q_bounds as HQb.
  destruct (decide (ulp + (prec f - 1) = emax f)) as [Hu1|Hu1].
  - assert (B (emax f + 1) = IZR (2 ^ prec f) * B ulp)%R as E1
      by (rewrite (B_sub ulp (emax f + 1)) by lia; do 2 f_equal; f_equal; lia).
    assert (B ulp = 2 * B (emax f - prec f))%R as E2 by (rewrite <-B_S; f_equal; lia).
    assert (Q < 2 ^ prec f) as HQl by (apply lt_IZR; rewrite E1 in HV; nra).
    assert (Q ≤ 2 ^ prec f - 1) as HQ1 by lia. apply IZR_le in HQ1. rewrite minus_IZR in HQ1.
    assert (IZR (2 ^ prec f) - 1 / 2 <= Y)%R as HY.
    { apply (Rmult_le_reg_r (B ulp)); [done|]. rewrite Ha. rewrite Eo, E1 in Ho. nra. }
    assert (Y - IZR Q = 1 / 2)%R as Et by lra. assert (IZR Q = IZR (2 ^ prec f) - 1)%R as EQ by lra.
    specialize (He (or_introl Et)). rewrite <-minus_IZR in EQ. apply eq_IZR in EQ. rewrite EQ in He.
    rewrite (pow_S (prec f)) in He by lia. destruct He as [w ?]. lia.
  - assert (B (ulp + prec f) <= B (emax f))%R by (apply B_le; lia).
    assert (B ulp <= B (emax f - prec f))%R by (apply B_le; lia).
    assert (B (emax f - prec f + 2) <= B (emax f))%R by (apply B_le; lia).
    replace (emax f - prec f + 2) with (emax f - prec f + 1 + 1) in * by lia. rewrite !B_S in *.
    rewrite (B_add ulp), (B_nat (prec f)) in * by lia.
    destruct HQb as [_ HQb%IZR_le]. nra.
Qed.

Lemma max_in_fmt : in_fmt f (max_finite f).
Proof.
  pose proof (f_prec f Hf). pose proof (f_range f Hf). pose proof (p_pos f Hf).
  exists (2 ^ prec f - 1), (emax f - (prec f - 1)). rewrite (pow_S (prec f)) by lia. split_and!; [|lia..].
  unfold max_finite. by rewrite (pow_S (prec f)) by lia.
Qed.

Lemma nonneg_abs x : (0 <= x)%R → Rabs x = x ∧ negative x = false.
Proof. intros Hx. split; [by apply Rabs_pos_eq|]. unfold negative. destruct (Rlt_dec x 0); [lra|done]. Qed.

(** Directed rounding, in the grid's own terms. *)
Lemma down_units : mode = Down ∨ mode = ToZero → (V <= a < V + B ulp)%R.
Proof. intros Hm. pose proof a_units. pose proof (B_pos ulp). destruct Hm as [-> | ->]; simpl in Hr; split; nra. Qed.
Lemma up_units : mode = Up → (V - B ulp < a <= V)%R.
Proof. intros Hm. pose proof a_units. pose proof (B_pos ulp). rewrite Hm in Hr; simpl in Hr; split; nra. Qed.
Lemma up_least y : mode = Up → in_fmt f y → (a <= y)%R → (V <= y)%R.
Proof.
  intros Hm Hy Hay. pose proof (up_units Hm) as [Hv _]. pose proof (B_pos ulp). pose proof (l_a _ _ _ _ Hl).
  destruct (grid_gap f Hf _ _ _ _ Hl Hy) as [Hle|Hge]; destruct HQ as [-> | ->]; rewrite ?plus_IZR in *; lra.
Qed.
Lemma nearest_on_grid y :
  mode = Nearest → in_fmt f y → (Rabs (a - V) <= Rabs (a - y))%R ∧
  (y ≠ V → Rabs (a - V) = Rabs (a - y) → Z.Even Q).
Proof.
  intros Em Hy. rewrite Em in Hr. destruct Hr as [Hn He]. pose proof a_units as Ha. pose proof (B_pos ulp) as HB.
  pose proof (l_a _ _ _ _ Hl) as Hla. pose proof (grid_gap f Hf _ _ _ _ Hl Hy) as Hg.
  set (Y := (a / B ulp)%R) in *. rewrite <-Ha in *. clear Ha.
  assert (∀ c : R, (c * B ulp - IZR Q * B ulp = (c - IZR Q) * B ulp)%R) as Ed by (intros; lra).
  assert (Rabs (Y * B ulp - IZR Q * B ulp) = Rabs (Y - IZR Q) * B ulp)%R as EV
    by (rewrite Ed, Rabs_mult, (Rabs_pos_eq (B ulp)) by lra; done).
  assert (Rabs (Y - IZR Q) <= 1 / 2)%R as Hh by (apply Rabs_le; lra).
  assert (IZR q <= Y < IZR q + 1)%R as HY by (split; nra).
  assert (∀ z, (0 <= z)%R → z = Rabs z) as Hp by (intros; by rewrite Rabs_pos_eq).
  rewrite EV. destruct Hg as [Hg|Hg].
  - assert (Rabs (Y * B ulp - y) = Y * B ulp - y)%R as -> by (rewrite Rabs_pos_eq; nra).
    destruct HQ as [EQ|EQ]; rewrite EQ in *; rewrite ?plus_IZR in *.
    + rewrite (Rabs_pos_eq (Y - IZR q)) in * by lra. split; [nra|]. intros Hne E. exfalso. apply Hne. lra.
    + rewrite (Rabs_left1 (Y - (IZR q + 1))) in * by lra. split; [nra|]. intros Hne E. apply He. right. nra.
  - assert (Rabs (Y * B ulp - y) = y - Y * B ulp)%R as -> by (rewrite Rabs_left1; nra).
    destruct HQ as [EQ|EQ]; rewrite EQ in *; rewrite ?plus_IZR in *.
    + rewrite (Rabs_pos_eq (Y - IZR q)) in * by lra. split; [nra|]. intros Hne E. apply He. left. nra.
    + rewrite (Rabs_left1 (Y - (IZR q + 1))) in * by lra. split; [nra|]. intros Hne E. exfalso. apply Hne. lra.
Qed.

Lemma overflow_iff : overflows f mode a ↔ (B (emax f + 1) <= V)%R.
Proof.
  destruct (nonneg_abs a (Rlt_le _ _ Hpos)) as [Eabs Eneg]. unfold overflows. rewrite Eabs, Eneg.
  assert (mode = Down ∨ mode = ToZero → (B (emax f + 1) <= a)%R ↔ (B (emax f + 1) <= V)%R) as Hdown.
  { intros Hm. pose proof (down_units Hm) as [H1 H2]. split; [|lra]. intros Ha.
    destruct (Rlt_or_le V (B (emax f + 1))) as [HV|]; [|done]. exfalso.
    pose proof (in_range_ulp HV). pose proof (f_prec f Hf). pose proof (B_pos ulp).
    rewrite (B_sub ulp (emax f + 1)) in * by lia.
    assert (Q < 2 ^ (emax f + 1 - ulp)) as Hq by (apply lt_IZR; nra).
    assert (Q + 1 ≤ 2 ^ (emax f + 1 - ulp)) as Hq1%IZR_le by lia. rewrite plus_IZR in Hq1. nra. }
  pose proof overflow_half as HN. pose proof up_units as HU. pose proof up_least as HL. pose proof V_in_fmt as HF.
  clear Hr. destruct mode; [by apply HN|by apply Hdown; left| |by apply Hdown; right]. simpl.
  pose proof (max_finite_lt f Hf). split.
  - intros Ha. destruct (Rlt_or_le V (B (emax f + 1))) as [HV|]; [|done]. exfalso.
    destruct (HF HV) as [Hv _]. apply in_fmt_max in Hv.
    destruct (HU eq_refl) as [_ Hu]. pose proof (Rle_abs V). lra.
  - intros HV. destruct (Rlt_or_le (max_finite f) a) as [|Ha]; [done|]. exfalso.
    pose proof (HL _ eq_refl max_in_fmt Ha). lra.
Qed.

Lemma rounds_in_range v :
  (V < B (emax f + 1))%R → class v = Zero ∨ class v = Finite → val v = V → rounds f mode a v.
Proof.
  intros HV Hc Ev. destruct (V_in_fmt HV) as [Hin Heven]. 
  destruct (nonneg_abs a (Rlt_le _ _ Hpos)) as [Eabs _]. pose proof (B_pos ulp) as HB. pose proof Q_bounds as [HQ0%IZR_le _].
  assert (mode = Down ∨ mode = ToZero → lower f a v) as Hlow.
  { intros Hm. pose proof (down_units Hm) as [H1 H2]. unfold lower.
    assert (in_fmt f (val v) ∧ (val v <= a)%R ∧ ∀ y, in_fmt f y → (y <= a)%R → (y <= val v)%R) as H;
      [|destruct Hc as [-> | ->]; exact H].
    rewrite Ev. split_and!; [done..|]. intros y Hy Hya.
    destruct (grid_gap f Hf _ _ _ _ Hl Hy) as [Hle|Hge]; destruct HQ as [-> | ->];
      rewrite ?plus_IZR in *; destruct Hl as [_ _ _ [? ?]]; lra. }
  pose proof overflow_half as HN. pose proof up_units as HU. pose proof up_least as HL.
  pose proof nearest_on_grid as HG. clear Hr. destruct mode; simpl; [|by apply Hlow; left| |].
  - unfold nearest.
    assert ((Rabs a < over_half f)%R ∧ in_fmt f (val v) ∧
      ∀ y, in_fmt f y → (Rabs (a - val v) <= Rabs (a - y))%R ∧
        (y ≠ val v → Rabs (a - val v) = Rabs (a - y) → even_in_fmt f (val v))) as H;
      [|destruct Hc as [-> | ->]; exact H].
    rewrite Ev, Eabs. split_and!; [|done|].
    { destruct (Rlt_or_le a (over_half f)) as [|Ho]; [done|]. apply HN in Ho; [lra|done]. }
    intros y Hy. destruct (HG y eq_refl Hy) as [H1 H2]. split; [done|]. intros. by apply Heven, H2.
  - unfold upper. destruct (HU eq_refl) as [H1 H2].
    assert (in_fmt f (val v) ∧ (a <= val v)%R ∧ ∀ y, in_fmt f y → (a <= y)%R → (val v <= y)%R) as H;
      [|destruct Hc as [-> | ->]; exact H].
    rewrite Ev. split_and!; [done..|]. intros y. by apply HL.
  - split; [intros _; apply Hlow; by right|]. intros ?. lra.
Qed.

Lemma rounds_overflow :
  (B (emax f + 1) <= V)%R →
  rounds f mode a (if to_inf false mode then fp_inf false
                   else fp_finite false (2 ^ prec f - 1) (emax f - (prec f - 1))).
Proof.
  intros HV. pose proof overflow_iff as Ho. pose proof (max_finite_lt f Hf) as Hmax. apply Ho in HV as Hov.
  unfold overflows in Hov. destruct (nonneg_abs a (Rlt_le _ _ Hpos)) as [Eabs Eneg].
  rewrite Eabs, Eneg in Hov. pose proof (p_pos f Hf). pose proof (f_prec f Hf).
  assert ((B (emax f + 1) <= a)%R → lower f a (fp_finite false (2 ^ prec f - 1) (emax f - (prec f - 1)))) as Hlow.
  { intros Ha. unfold fp_finite. destruct (2 ^ prec f - 1 =? 0) eqn:E0.
    { rewrite (pow_S (prec f)) in E0 by lia. lia. }
    assert (val (mkFp false Finite (2 ^ prec f - 1) (emax f - (prec f - 1))) = max_finite f) as Ev
      by (unfold val, max_finite; simpl; lra).
    unfold lower. simpl class. cbv iota. rewrite Ev. split_and!; [apply max_in_fmt|lra|].
    intros y Hy _. apply in_fmt_max in Hy. pose proof (Rle_abs y). lra. }
  clear Ho Hr. destruct mode; simpl in *.
  - unfold nearest; simpl. rewrite Eabs. split; [done|]. split; [done|lra].
  - by apply Hlow.
  - unfold upper; simpl. split; [done|]. intros y Hy. apply in_fmt_max in Hy. pose proof (Rle_abs y). lra.
  - split; [by intros _; apply Hlow|]. intros. lra.
Qed.

Lemma correct_overflow inx :
  (B (emax f + 1) <= V)%R → ¬ is_tiny_real f mode a →
  correct f mode a (mkRounded (if to_inf false mode then fp_inf false
                               else fp_finite false (2 ^ prec f - 1) (emax f - (prec f - 1)))
    (Z.lor (if inx : bool then INEXACT else 0) (Z.lor OVERFLOW INEXACT)) (to_inf false mode) false).
Proof.
  intros HV Hnt. pose proof (rounds_overflow HV) as Hrd. apply overflow_iff in HV as Ho.
  destruct (nonneg_abs a (Rlt_le _ _ Hpos)) as [Eabs Eneg].
  destruct (flags_overflow inx) as (F1 & F2 & F3 & F4). pose proof (max_finite_lt f Hf) as Hmx.
  pose proof (p_pos f Hf). pose proof (f_prec f Hf).
  assert (0 ≤ 2 ^ prec f - 1) as Hm0 by (rewrite (pow_S (prec f)) by lia; lia).
  destruct (val_finite (2 ^ prec f - 1) (emax f - (prec f - 1)) Hm0) as (Ev & Esg & Ecl).
  fold (max_finite f) in Ev. set (v := fp_finite _ _ _) in *.
  assert (to_inf false mode = true ∨ to_inf false mode = false ∧ class v ≠ Inf ∧ (max_finite f < a)%R) as Hd.
  { unfold overflows in Ho. rewrite Eabs, Eneg in Ho. clear Hr Hrd.
    destruct mode; simpl in *; [by left|right|by left|right]; (split_and!; [done| |lra]);
      destruct Ecl as [E1|E1]; by rewrite E1. }
  split; simpl; [done| | |tauto|tauto|done| |by split|].
  - rewrite Eneg. by destruct (to_inf false mode).
  - split; [intros _|done]. destruct Hd as [->|(-> & _ & Hlt)]; [by left|right]. rewrite Ev. lra.
  - destruct Hd as [->|(-> & Hd & Hlt)]; [simpl; tauto|]. split; [done|].
    intros [?|Hx]; [done|]. rewrite Ev, Eabs, Rabs_pos_eq in Hx; [lra|].
    unfold max_finite. apply IZR_le in Hm0. pose proof (B_pos (emax f - (prec f - 1))). nra.
  - destruct (to_inf false mode); [done|]. intros _. unfold v, fp_finite.
    destruct (2 ^ prec f - 1 =? 0) eqn:E0; [rewrite (pow_S (prec f)) in E0 by lia; lia|]. simpl.
    unfold lead_exp, msb; simpl. pose proof (f_range f Hf). split; [rewrite (pow_S (prec f)) in * by lia; lia|].
    assert (Z.log2 (2 ^ prec f - 1) < prec f) by (apply Z.log2_lt_pow2; rewrite (pow_S (prec f)) in * by lia; lia). lia.
Qed.

Lemma correct_in_range Q' ue (inx u tny : bool) :
  (V < B (emax f + 1))%R → 0 ≤ Q' < 2 ^ prec f → ulp ≤ ue → (IZR Q' * B ue = V)%R →
  (inx = true ↔ (a / B ulp ≠ IZR Q)%R) → (u = true ↔ (a / B ulp < IZR Q)%R) →
  (tny = true ↔ is_tiny_real f mode a) →
  let fl := if inx then INEXACT else 0 in
  correct f mode a (mkRounded (fp_finite false Q' ue) (if tny && inx then Z.lor fl UNDERFLOW else fl) (u && inx) tny).
Proof.
  intros HV HQ0 Hue EV Hinx Hu Htiny fl. subst fl. pose proof a_units as HY. pose proof (B_pos ulp) as HB.
  destruct (nonneg_abs a (Rlt_le _ _ Hpos)) as [Eabs Eneg]. pose proof overflow_iff as Hov.
  destruct (val_finite Q' ue (proj1 HQ0)) as (Ev & Esg & Ecl). rewrite EV in Ev.
  assert (val (fp_finite false Q' ue) ≠ a ↔ inx = true) as Hne.
  { rewrite Hinx, Ev. split; intros Hn E; apply Hn; [by rewrite <-E|].
    apply (Rmult_eq_reg_r (B ulp)); lra. }
  destruct (flags_in_range inx tny) as (F1 & F2 & F3 & F4).
  split; simpl; [|by rewrite Esg| | |by rewrite F3, Htiny, Hne|done| |done|].
  - by apply rounds_in_range.
  - rewrite F1, Hne. destruct Ecl as [-> | ->]; intuition congruence.
  - split; [done|]. intros Ho. apply Hov in Ho. lra.
  - pose proof Q_bounds as [HQ1%IZR_le _]. rewrite Ev, Eabs, Rabs_pos_eq, andb_true_iff, Hu, Hinx by nra. split.
    + intros [Hlt _]. right. nra.
    + intros [Hx|Hlt]; [destruct Ecl as [E|E]; rewrite E in Hx; done|].
      assert (a / B ulp < IZR Q)%R by (apply (Rmult_lt_reg_r (B ulp)); lra). split; lra.
  - unfold shaped, fp_finite, lead_exp. destruct (Q' =? 0) eqn:E0; [done|]. simpl. intros _.
    destruct Hl as [Hmin _ _ _]. split_and!; [lia..|]. destruct (decide (emax f < ue + msb Q')) as [Hlt|]; [|lia].
    apply lead_cmp in Hlt; [|lia]. lra.
Qed.
End rounded.

(** Tininess is overflow past the largest value below the normal range. *)
Definition below_normal (f : Fmt) : Fmt := mkFmt (prec f) (emin f - 1) (emin f - 1).

Lemma tiny_overflows f mode x : is_tiny_real f mode x ↔ ¬ overflows (below_normal f) mode x.
Proof.
  unfold is_tiny_real, overflows, over_half, max_finite, below_normal; simpl.
  replace (emin f - 1 - prec f) with (emin f - (prec f + 1)) by lia.
  replace (emin f - 1 - (prec f - 1)) with (emin f - prec f) by lia.
  replace (emin f - 1 + 1) with (emin f) by lia.
  destruct mode; simpl; try destruct (negative x); simpl; lra.
Qed.

(** * Rounding a significand *)

Section round.
Context (f : Fmt) (Hf : fmt_ok f) (mode : Round) (a : R) (m ex k0 : Z) (st : bool).
Hypothesis Hm : 0 < m < U128.
Hypothesis Hk : 0 ≤ k0.
Hypothesis Hc : cell m st (a / B ex) k0.
Hypothesis Hb : k0 = 0 ∧ st = false ∨ prec f + k0 ≤ msb m.
Abbreviation e := (ex + msb m).

Lemma lead_bounds : (B e <= a < B (e + 1))%R.
Proof.
  assert (k0 ≤ msb m) as Hkm by (pose proof (f_prec f Hf); pose proof (Z.log2_nonneg m); unfold msb in *; lia).
  apply (cell_mono _ _ _ _ (msb m)) in Hc as [Hx _]; [|lia].
  pose proof (Z.log2_spec m ltac:(lia)) as Hl. unfold msb in *. set (n := Z.log2 m) in *.
  assert (0 ≤ n) by apply Z.log2_nonneg.
  assert (m / 2 ^ n = 1) as E.
  { symmetry. apply (Z.div_unique _ _ _ (m - 2 ^ n)); [|lia]. left. rewrite Z.pow_succ_r in Hl by done. lia. }
  rewrite E in Hx. rewrite B_S, B_add, (B_nat n) by lia. pose proof (B_pos ex).
  assert (a / B ex * B ex = a)%R by (field; lra). set (X := (a / B ex)%R) in *. split; nra.
Qed.

(** What [split] finds at a grid no finer than the significand's own. *)
Lemma split_located ulp :
  e - (prec f - 1) ≤ ulp → ∃ q r s,
    split m (ulp - ex) = (q, r, s) ∧ placed q r (s || st) (a / B ulp) ∧
    (IZR q * B ulp <= a < (IZR q + 1) * B ulp)%R ∧ 0 ≤ q < 2 ^ prec f ∧
    (e - (prec f - 1) = ulp → 2 ^ (prec f - 1) ≤ q).
Proof.
  intros Hu. pose proof lead_bounds as Ha. pose proof (f_prec f Hf) as Hp. pose proof (B_pos ex).
  assert (∃ q r s, split m (ulp - ex) = (q, r, s) ∧ placed q r (s || st) (a / B ulp) ∧ 0 ≤ q)
    as (q & r & s & E & Hpl & Hq0).
  { unfold msb in *. pose proof (Z.log2_nonneg m). destruct (decide (1 ≤ ulp - ex)) as [H1|H1].
    - rewrite split_pos by lia. eexists _, _, _. split; [done|].
      split; [|apply Z.div_pos; [lia|apply Z.pow_pos_nonneg; lia]].
      replace (a / B ulp)%R with (a / B ex / IZR (2 ^ (ulp - ex)))%R; [apply (split_placed _ _ _ k0); [|lia|done]; destruct Hb as [[? _]|?]; lia|].
      rewrite (B_sub ex ulp) by lia. field. split; [lra|]. pose proof (pow2_R (ulp - ex) ltac:(lia)). lra.
    - destruct Hb as [[-> Est]|]; [|lia]. destruct Hc as [_ [_ Hx]]. rewrite Z.mod_1_r, Z.div_1_r in Hx.
      specialize (Hx (conj eq_refl Est)). rewrite Z.pow_0_r in Hx.
      assert (a = IZR m * B ex)%R as Ea by (rewrite <-(Rmult_1_r (IZR m)), <-Hx; field; lra).
      assert (m * 2 ^ (ex - ulp) < 2 ^ prec f) as Hm2.
      { apply lt_IZR. rewrite mult_IZR, <-(B_nat (prec f)) by lia. apply (Rmult_lt_reg_r (B ulp)); [apply B_pos|].
        rewrite Rmult_assoc, <-B_sub, <-B_add by lia. rewrite <-Ea.
        apply (Rlt_le_trans _ _ _ (proj2 Ha)). apply B_le. lia. }
      assert (2 ^ prec f ≤ 2 ^ 64) by (apply Z.pow_le_mono_r; lia).
      exists (m * 2 ^ (ex - ulp)), false, false. rewrite Est. split; [|split].
      + unfold split. destruct (ulp - ex <=? 0) eqn:E0; [|lia]. rewrite shl128_small; [do 2 f_equal; do 2 f_equal; lia| | |].
        all: replace (- (ulp - ex)) with (ex - ulp) by lia; unfold U128; lia.
      + simpl. rewrite Ea, mult_IZR, (B_sub ulp ex) by lia. field. pose proof (B_pos ulp). lra.
      + apply Z.mul_nonneg_nonneg; lia. }
  assert (a / B ulp * B ulp = a)%R as HY by (field; pose proof (B_pos ulp); lra).
  pose proof (B_pos ulp) as HB.
  assert (IZR q <= a / B ulp < IZR q + 1)%R as Hqy by (destruct r, s, st; simpl in Hpl; lra).
  set (Y := (a / B ulp)%R) in *. rewrite <-HY in *. exists q, r, s. split_and!; [done..|nra|nra|done| |].
  - apply lt_IZR. rewrite <-B_nat by lia. assert (B (e + 1) <= B (ulp + prec f))%R by (apply B_le; lia).
    rewrite (B_add ulp) in *. apply (Rmult_lt_reg_r (B ulp)); [done|]. nra.
  - intros Hu1. assert (2 ^ (prec f - 1) < q + 1); [|lia]. apply lt_IZR. rewrite <-B_nat, plus_IZR by lia.
    assert (B e = B (ulp + (prec f - 1))) as E2 by (f_equal; lia). rewrite E2, (B_add ulp) in Ha.
    apply (Rmult_lt_reg_r (B ulp)); [done|]. nra.
Qed.

Lemma below_ok : fmt_ok (below_normal f).
Proof. pose proof (f_prec f Hf). split; simpl; lia. Qed.

Lemma Ha : (0 < a)%R.
Proof. pose proof lead_bounds. pose proof (B_pos e). lra. Qed.

Lemma pow_prec_128 : shl128 1 (prec f) = 2 ^ prec f.
Proof.
  pose proof (f_prec f Hf). assert (2 ^ prec f ≤ 2 ^ 64) by (apply Z.pow_le_mono_r; lia).
  rewrite shl128_small; unfold U128; lia.
Qed.

Lemma tiny_spec : is_tiny false m ex st f mode e = true ↔ is_tiny_real f mode a.
Proof.
  pose proof lead_bounds as Hab. pose proof Ha as Hpos. pose proof (f_prec f Hf) as Hp.
  destruct (nonneg_abs a (Rlt_le _ _ Hpos)) as [Eabs Eneg]. rewrite tiny_overflows. unfold is_tiny.
  destruct (e ?= emin f - 1) eqn:Ecmp.
  - apply Z.compare_eq in Ecmp. remember (e - (prec f - 1)) as ulp eqn:Eulp.
    destruct (split_located ulp ltac:(lia)) as (q & r & s & Es & Hpl & Hla & Hq & Hqn).
    rewrite Es, land1_odd, pow_prec_128. destruct (decision_rounds mode _ _ _ _ Hpl) as (Hr & _).
    set (u := round_decision _ _ _ _ _) in *.
    assert (located (below_normal f) a ulp q) as Hl by (split; simpl; [lia|done|lia|done]).
    assert (q + Z.b2z u = q ∨ q + Z.b2z u = q + 1) as HQ by (destruct u; simpl; lia).
    rewrite (overflow_iff (below_normal f) below_ok mode a ulp q (q + Z.b2z u) Hl Hpos HQ Hr).
    simpl. rewrite (B_sub ulp (emin f - 1 + 1)) by lia. replace (emin f - 1 + 1 - ulp) with (prec f) by lia.
    pose proof (B_pos ulp). split.
    + intros Hn HV. assert (2 ^ prec f ≤ q + Z.b2z u) by (apply le_IZR; nra).
      destruct u; simpl in *; lia.
    + intros Hn. apply negb_true_iff, andb_false_iff. destruct u; [right|by left].
      apply Z.eqb_neq. intros E. apply Hn. simpl. rewrite E. lra.
  - split; [|done]. intros _. assert (e + 1 ≤ emin f - 1) as He by (change (e < emin f - 1) in Ecmp; lia).
    apply (B_le) in He. rewrite <-tiny_overflows. unfold is_tiny_real. rewrite Eabs, Eneg.
    assert (B (emin f) = 2 * B (emin f - 1))%R as E1 by (rewrite <-B_S; f_equal; lia).
    assert (∀ n, 1 ≤ n → B (emin f - 1) <= IZR (2 ^ n - 1) * B (emin f - n))%R as Hn.
    { intros n Hn. rewrite minus_IZR, <-(B_nat n), Rmult_minus_distr_r, <-B_add by lia.
      replace (n + (emin f - n)) with (emin f) by lia.
      assert (B (emin f - n) <= B (emin f - 1))%R by (apply B_le; lia). lra. }
    pose proof (Hn (prec f + 1) ltac:(lia)). pose proof (Hn (prec f) ltac:(lia)). pose proof (B_pos (emin f - 1)).
    destruct mode; simpl; lra.
  - split; [done|]. intros []. assert (emin f ≤ e) as He by (apply Z.compare_gt_iff in Ecmp; lia).
    apply B_le in He. unfold overflows. rewrite Eabs, Eneg. pose proof (max_finite_lt _ below_ok) as Hmx.
    assert (over_half (below_normal f) <= B (emin f))%R as Ho.
    { unfold over_half. simpl. rewrite minus_IZR, <-B_nat, Rmult_minus_distr_r, <-B_add by lia.
      replace (prec f + 1 + (emin f - 1 - prec f)) with (emin f) by lia.
      pose proof (B_pos (emin f - 1 - prec f)). lra. }
    replace (emax (below_normal f) + 1) with (emin f) in * by (simpl; lia).
    destruct mode; simpl; lra.
Qed.

(** The carry of the round-up renormalizes without changing the value. *)
Lemma carry q ulp (u : bool) :
  0 ≤ q < 2 ^ prec f → ∃ Q ue,
    (if u then if (q + 1) mod U128 =? shl128 1 (prec f) then (Z.shiftr ((q + 1) mod U128) 1, ulp + 1)
               else ((q + 1) mod U128, ulp) else (q, ulp)) = (Q, ue) ∧
    0 ≤ Q < 2 ^ prec f ∧ ulp ≤ ue ∧ (IZR Q * B ue = IZR (q + Z.b2z u) * B ulp)%R.
Proof.
  intros Hq. pose proof (f_prec f Hf). rewrite pow_prec_128.
  assert (2 ^ prec f ≤ 2 ^ 64) by (apply Z.pow_le_mono_r; lia).
  destruct u; [|exists q, ulp; rewrite Z.add_0_r; split_and!; [done|lia..|done]]. simpl.
  rewrite Z.mod_small by (unfold U128; lia). destruct (q + 1 =? 2 ^ prec f) eqn:E.
  - eexists _, _. split; [done|]. assert (q + 1 = 2 ^ prec f) as -> by lia.
    rewrite Z.shiftr_div_pow2, Z.pow_1_r, (pow_S (prec f)), Z.mul_comm, Z.div_mul by lia.
    assert (0 < 2 ^ (prec f - 1)) by (apply Z.pow_pos_nonneg; lia).
    split; [lia|]. split; [lia|]. rewrite B_S, mult_IZR. lra.
  - eexists _, _. split_and!; [done|lia..|done].
Qed.

(** Below the normal range, rounding does not overflow. *)
Lemma overflow_not_tiny ulp q (u : bool) :
  ulp = Z.max e (emin f) - (prec f - 1) → (IZR q * B ulp <= a)%R →
  (B (emax f + 1) <= IZR (q + Z.b2z u) * B ulp)%R → ¬ is_tiny_real f mode a.
Proof.
  intros Eulp Hq HV. rewrite <-tiny_spec. unfold is_tiny. pose proof lead_bounds as Hab.
  pose proof (f_prec f Hf). pose proof (f_range f Hf). pose proof (B_pos ulp).
  destruct (e ?= emin f - 1) eqn:Ec; [apply Z.compare_eq in Ec|change (e < emin f - 1) in Ec|done]; exfalso.
  all: assert (B (e + 1) <= B (emin f))%R by (apply B_le; lia).
  all: assert (q < 2 ^ (prec f - 1)) as Hq1
    by (apply lt_IZR; rewrite <-B_nat by lia; apply (Rmult_lt_reg_r (B ulp)); [done|];
        rewrite <-B_add; replace (prec f - 1 + ulp) with (emin f) by lia; lra).
  all: assert (q + Z.b2z u ≤ 2 ^ (prec f - 1)) as Hq2%IZR_le by (destruct u; simpl; lia).
  all: rewrite <-(B_nat (prec f - 1)) in Hq2 by lia.
  all: assert (IZR (q + Z.b2z u) * B ulp <= B (emin f))%R
    by (replace (emin f) with (prec f - 1 + ulp) by lia; rewrite B_add; nra).
  all: assert (B (emin f) < B (emax f + 1))%R by (apply B_lt; lia); lra.
Qed.

(** Rounding is correct for positive results. *)
Lemma round_pos : correct f mode a (round false m ex st f mode).
Proof.
  pose proof Ha as Hpos. pose proof tiny_spec as Htiny. pose proof (f_prec f Hf).
  unfold round. cbv zeta. destruct (m =? 0) eqn:E0; [lia|]. clear E0.
  set (tny := is_tiny _ _ _ _ _ _ _) in *. remember (Z.max e (emin f) - (prec f - 1)) as ulp eqn:Eulp.
  destruct (split_located ulp ltac:(lia)) as (q & r & s & Es & Hpl & Hla & Hq & Hqn). rewrite Es, land1_odd.
  destruct (decision_rounds mode _ _ _ _ Hpl) as (Hr & Hup & Hinx). set (u := round_decision _ _ _ _ _) in *.
  assert (located f a ulp q) as Hl by (split; [lia|done|intros; apply Hqn; lia|done]).
  assert (q + Z.b2z u = q ∨ q + Z.b2z u = q + 1) as HQ by (destruct u; simpl; lia).
  destruct (carry q ulp u Hq) as (Q & ue & -> & HQ0 & Hue & HV).
  assert (negb (Q =? 0) && (emax f <? ue + msb Q) = true ↔ (B (emax f + 1) <= IZR Q * B ue)%R) as Hc1.
  { destruct (decide (Q = 0)) as [->|HQn].
    - simpl. pose proof (B_pos (emax f + 1)). split; [done|lra].
    - rewrite <-lead_cmp by lia. destruct (Q =? 0) eqn:E1; [lia|]. simpl. by rewrite Z.ltb_lt. }
  rewrite HV in Hc1. destruct (negb (Q =? 0) && (emax f <? ue + msb Q)) eqn:Eov.
  - assert (B (emax f + 1) <= IZR (q + Z.b2z u) * B ulp)%R as HVo by by apply Hc1.
    rewrite pow_prec_128. apply (correct_overflow f Hf mode a ulp q _ Hl Hpos HQ Hr); [done|].
    eapply overflow_not_tiny; [exact Eulp|apply Hla|exact HVo].
  - apply (correct_in_range f Hf mode a ulp q _ Hl Hpos HQ Hr); [|done..].
    destruct (Rlt_or_le (IZR (q + Z.b2z u) * B ulp) (B (emax f + 1))) as [|Hge]; [done|].
    apply Hc1 in Hge. done.
Qed.
End round.
