(* ===== verification/SoftArith.v ===== *)
(** The arithmetic cores of [src/vcpu/softfloat.rs] are correctly rounded: [add], [mul],
    [div], [sqrt] and [fma] return what [SoftReal.correct] asks of the exact real result. *)
From Stdlib Require Import Reals Lra.
From stdpp Require Import base numbers.
From S2P Require Import Prelude Softfloat SoftReal SoftRound.
Local Open Scope Z_scope.

(** * Signs *)

Definition flip (mode : Round) : Round := match mode with Up => Down | Down => Up | _ => mode end.
Definition neg_rounded (r : Rounded) : Rounded := mkRounded (fp_neg (rv r)) (flags r) (up r) (tiny r).

Lemma fp_finite_neg m e : fp_finite true m e = fp_neg (fp_finite false m e).
Proof. unfold fp_finite. by destruct (m =? 0). Qed.
Lemma decision_neg l r s mode : round_decision l r s true mode = round_decision l r s false (flip mode).
Proof. by destruct mode. Qed.

Lemma round_neg m ex st f mode : round true m ex st f mode = neg_rounded (round false m ex st f (flip mode)).
Proof.
  unfold round. cbv zeta. destruct (m =? 0); [destruct st; simpl; rewrite ?fp_finite_neg, ?decision_neg; try done|].
  { unfold neg_rounded. simpl. by destruct (round_decision _ _ _ _ _). }
  assert (∀ e, is_tiny true m ex st f mode e = is_tiny false m ex st f (flip mode) e) as Et.
  { intros e. unfold is_tiny. destruct (_ ?= _); try done. destruct (split _ _) as [[q r] s]. by rewrite decision_neg. }
  rewrite Et. destruct (split _ _) as [[q r] s]. rewrite decision_neg.
  destruct (if round_decision _ _ _ _ _ then _ else _) as [Q ue]. destruct (_ && (_ <? _)).
  - unfold neg_rounded; simpl. f_equal; [|by destruct mode]. rewrite fp_finite_neg. by destruct mode.
  - unfold neg_rounded; simpl. by rewrite fp_finite_neg.
Qed.

Lemma val_neg v : val (fp_neg v) = (- val v)%R.
Proof. unfold val, fp_neg. simpl. destruct (class v), (sign v); simpl; lra. Qed.
Lemma in_fmt_neg f y : in_fmt f y → in_fmt f (- y).
Proof. intros (m & e & -> & Hm & He). exists (- m), e. rewrite opp_IZR, Z.abs_opp. split_and!; [lra|lia..]. Qed.
Lemma even_in_fmt_neg f y : even_in_fmt f y → even_in_fmt f (- y).
Proof.
  intros (m & e & -> & [w ->] & Hm & He). exists (- (2 * w)), e. rewrite opp_IZR, Z.abs_opp.
  split_and!; [lra|exists (- w); lia|lia..].
Qed.
Lemma in_fmt_opp f y : in_fmt f (- y) → in_fmt f y.
Proof. intros H%in_fmt_neg. by rewrite Ropp_involutive in H. Qed.

Lemma lower_neg f x v : upper f x v → lower f (- x) (fp_neg v).
Proof.
  unfold upper, lower. simpl. rewrite val_neg. destruct (class v); try done.
  1,2: intros (H1 & H2 & H3); split_and!; [by apply in_fmt_neg|lra|];
    intros y Hy Hyx; apply in_fmt_neg in Hy; specialize (H3 _ Hy); lra.
  intros (-> & H). split; [done|]. intros y Hy%in_fmt_neg%H. lra.
Qed.
Lemma upper_neg f x v : lower f x v → upper f (- x) (fp_neg v).
Proof.
  unfold upper, lower. simpl. rewrite val_neg. destruct (class v); try done.
  1,2: intros (H1 & H2 & H3); split_and!; [by apply in_fmt_neg|lra|];
    intros y Hy Hyx; apply in_fmt_neg in Hy; specialize (H3 _ Hy); lra.
  intros (-> & H). split; [done|]. intros y Hy%in_fmt_neg%H. lra.
Qed.
Lemma nearest_neg f x v : (0 < x)%R → nearest f x v → nearest f (- x) (fp_neg v).
Proof.
  intros Hx. unfold nearest. simpl. rewrite val_neg, Rabs_Ropp. destruct (class v); try done.
  1,2: intros (H1 & H2 & H3); split_and!; [done|by apply in_fmt_neg|]; intros y Hy%in_fmt_neg%H3;
    replace (- x - - val v)%R with (- (x - val v))%R by lra; replace (- x - y)%R with (- (x - - y))%R by lra;
    rewrite !Rabs_Ropp; destruct Hy as [Hy1 Hy2]; split; [done|];
    intros Hne He; apply even_in_fmt_neg, Hy2; [|done]; intros E; apply Hne; lra.
  intros (H1 & H2). split; [done|]. destruct (sign v); simpl; [|split; [intros; lra|done]].
  assert (x < 0)%R by (by apply H2). lra.
Qed.

Lemma correct_neg f mode x r : (0 < x)%R → correct f (flip mode) x r → correct f mode (- x) (neg_rounded r).
Proof.
  intros Hx [C1 C2 C3 C4 C5 C6 C7 C8 C9]. destruct (nonneg_abs x (Rlt_le _ _ Hx)) as [Ea En].
  assert (negative (- x) = true) as En' by (unfold negative; destruct (Rlt_dec (- x) 0); [done|lra]).
  assert (overflows f mode (- x) ↔ overflows f (flip mode) x) as Eo
    by (unfold overflows; rewrite Rabs_Ropp, En, En'; by destruct mode).
  assert (is_tiny_real f mode (- x) ↔ is_tiny_real f (flip mode) x) as Et
    by (unfold is_tiny_real; rewrite Rabs_Ropp, En, En'; by destruct mode).
  assert (val (fp_neg (rv r)) ≠ (- x)%R ↔ val (rv r) ≠ x) as Ev by (rewrite val_neg; lra).
  split; simpl; rewrite ?Ev, ?Eo, ?Et; [|by rewrite C2, En, En'|done..| |done|done].
  - destruct mode; simpl in *; [by apply nearest_neg|by apply lower_neg|by apply upper_neg|].
    destruct C1 as [C1 _]. split; [lra|]. intros _. apply upper_neg, C1. lra.
  - by rewrite val_neg, !Rabs_Ropp.
Qed.

Definition sgn (s : bool) (x : R) : R := if s then (- x)%R else x.

(** The rounding point is correct on a value of either sign. *)
Lemma round_correct f mode s a m ex k0 st :
  fmt_ok f → 0 < m < U128 → 0 ≤ k0 → cell m st (a / B ex) k0 →
  k0 = 0 ∧ st = false ∨ prec f + k0 ≤ msb m →
  correct f mode (sgn s a) (round s m ex st f mode).
Proof.
  intros Hf Hm Hk Hc Hb. destruct s; simpl; [|by eapply round_pos].
  rewrite round_neg. apply correct_neg; [by eapply Ha|by eapply round_pos].
Qed.

Lemma cell_0 m st X : (IZR m <= X < IZR m + 1)%R → (X = IZR m ↔ st = false) → cell m st X 0.
Proof.
  intros Hx He. unfold cell. rewrite Z.pow_0_r, Z.div_1_r, Z.mod_1_r. rewrite !Rmult_1_r.
  split; [done|]. rewrite He. intuition.
Qed.

Lemma round_exact f mode s m ex :
  fmt_ok f → 0 < m < U128 → correct f mode (sgn s (IZR m * B ex)) (round s m ex false f mode).
Proof.
  intros Hf Hm. eapply (round_correct _ _ _ _ _ _ 0); [done..| |by left].
  replace (IZR m * B ex / B ex)%R with (IZR m) by (field; pose proof (B_pos ex); lra).
  apply cell_0; [lra|done].
Qed.

(** * Alignment *)

Lemma shl_top m t :
  0 < m → msb m ≤ t ≤ 127 →
  shl128 m (t - msb m) = m * 2 ^ (t - msb m) ∧ 2 ^ t ≤ m * 2 ^ (t - msb m) < 2 ^ (t + 1).
Proof.
  intros Hm Ht. unfold msb in *. pose proof (Z.log2_spec m Hm) as [H1 H2]. pose proof (Z.log2_nonneg m).
  assert (0 < 2 ^ (t - Z.log2 m)) by (apply Z.pow_pos_nonneg; lia).
  assert (2 ^ t = 2 ^ Z.log2 m * 2 ^ (t - Z.log2 m)) as E1 by (rewrite <-Z.pow_add_r by lia; f_equal; lia).
  assert (2 ^ (t + 1) = 2 ^ Z.succ (Z.log2 m) * 2 ^ (t - Z.log2 m)) as E2
    by (rewrite <-Z.pow_add_r by lia; f_equal; lia).
  assert (2 ^ (t + 1) ≤ 2 ^ 128) by (apply Z.pow_le_mono_r; lia).
  assert (2 ^ t ≤ m * 2 ^ (t - Z.log2 m) < 2 ^ (t + 1)) as Hb by (rewrite E1, E2; nia).
  split; [apply shl128_small; unfold U128; lia|done].
Qed.

Lemma msb_ge m n : 0 ≤ n → 2 ^ n ≤ m → n ≤ msb m.
Proof. intros Hn Hm. unfold msb. apply Z.log2_le_pow2; [pose proof (Z.pow_pos_nonneg 2 n); lia|done]. Qed.

(** What [shr_sticky] keeps and what it drops. *)
Lemma shr_sticky_spec x d :
  0 ≤ x < U128 → 0 ≤ d → ∃ small st,
    shr_sticky x d = (small, st) ∧ 0 ≤ small ≤ x ∧
    (IZR small <= IZR x / IZR (2 ^ d) < IZR small + 1)%R ∧ ((IZR x / IZR (2 ^ d) = IZR small)%R ↔ st = false) ∧
    (st = true → d = 0 → False) ∧ (st = true → Z.Even x → d ≠ 1) ∧ (2 ≤ d → 4 * small ≤ x) ∧
    (d = 0 → small = x).
Proof.
  intros Hx Hd. unfold U128 in Hx.
  assert (shr_sticky x d = (x / 2 ^ d, negb (x mod 2 ^ d =? 0))) as E.
  { unfold shr_sticky. destruct (d =? 0) eqn:E0; [assert (d = 0) as -> by lia; rewrite Z.div_1_r, Z.mod_1_r; done|].
    destruct (128 <=? d) eqn:E1.
    - assert (2 ^ 128 ≤ 2 ^ d) by (apply Z.pow_le_mono_r; lia). by rewrite Z.div_small, Z.mod_small by lia.
    - by rewrite Z.shiftr_div_pow2, land_low by lia. }
  assert (0 < 2 ^ d) as Hp by (apply Z.pow_pos_nonneg; lia).
  pose proof (Z.div_mod x (2 ^ d) ltac:(lia)) as Hdm. pose proof (Z.mod_pos_bound x (2 ^ d) Hp) as Hmod.
  eexists _, _. split; [exact E|]. set (q := x / 2 ^ d) in *. set (r := x mod 2 ^ d) in *.
  assert (0 ≤ q) by (apply Z.div_pos; lia).
  apply IZR_lt in Hp as HpR. assert (IZR x = IZR (2 ^ d) * IZR q + IZR r)%R as HxR by (rewrite Hdm, plus_IZR, mult_IZR; done).
  assert (IZR x / IZR (2 ^ d) * IZR (2 ^ d) = IZR x)%R as HD by (field; lra). set (Y := (IZR x / IZR (2 ^ d))%R) in *.
  pose proof Hmod as [Hr0%IZR_le Hr1%IZR_lt].
  split_and!; [lia|nia|apply (Rmult_le_reg_r (IZR (2 ^ d))); [done|]; lra
    |apply (Rmult_lt_reg_r (IZR (2 ^ d))); [done|]; lra| | | | |].
  - destruct (r =? 0) eqn:Er; simpl; [assert (r = 0) as Er0 by lia; rewrite Er0 in *|]; split; try done; intros EY.
    + nra.
    + exfalso. assert (IZR r = 0)%R as Er0%eq_IZR by (rewrite EY in HD; nra). lia.
  - intros Hs ->. assert (r = 0) as E0 by (unfold r; rewrite Z.pow_0_r, Z.mod_1_r; done). rewrite E0 in Hs. done.
  - intros Hs [w Hw] ->. assert (r = 0) as E0; [|rewrite E0 in Hs; done].
    unfold r. rewrite Hw, Z.pow_1_r, Z.mul_comm. apply Z.mod_mul. lia.
  - intros Hd2. assert (2 ^ 2 ≤ 2 ^ d) by (apply Z.pow_le_mono_r; lia). nia.
  - intros ->. subst q. by rewrite Z.pow_0_r, Z.div_1_r.
Qed.

(** * Addition *)

(** What an operation returns when its exact result is the real [x]: a correctly rounded value,
    or the zero whose sign the mode gives when [x] is zero. *)
Definition correct_sum (f : Fmt) (mode : Round) (x : R) (r : Rounded) : Prop :=
  (x ≠ 0%R → correct f mode x r) ∧ (x = 0%R → r = rexact (fp_zero (bool_decide (mode = Down)))).

(** A dominating operand minus a smaller one: the borrow stays below the rounding position. *)
Lemma sub_correct f mode hs big small Y he st :
  fmt_ok f → 2 ^ 126 ≤ big < 2 ^ 127 → 0 ≤ small < 2 ^ 126 → (st = true → small < 2 ^ 125) →
  (IZR small <= Y < IZR small + 1)%R → (Y = IZR small ↔ st = false) →
  correct f mode (sgn hs ((IZR big - Y) * B (he - 126)))
          (round hs ((shl128 (big - small) 1 - Z.b2z st) mod U128) (he - 127) st f mode).
Proof.
  intros Hf Hbig Hsm Hsm2 HY Hst. pose proof (f_prec f Hf). pose proof (B_pos (he - 127)) as HB.
  assert (B (he - 126) = 2 * B (he - 127))%R as EB by (rewrite <-B_S; f_equal; lia). rewrite EB.
  rewrite shl128_small, Z.pow_1_r by (unfold U128; lia). destruct st; simpl.
  - specialize (Hsm2 eq_refl). rewrite Z.mod_small by (unfold U128; lia).
    apply (round_correct _ _ _ _ _ _ 1); [done|unfold U128; lia|done| |right].
    + replace ((IZR big - Y) * (2 * B (he - 127)) / B (he - 127))%R with (2 * (IZR big - Y))%R by (field; lra).
      unfold cell. rewrite Z.pow_1_r. replace ((big - small) * 2 - 1) with (1 + (big - small - 1) * 2) by lia.
      rewrite Z.div_add, Z.mod_add by lia. change (1 / 2) with 0. change (1 mod 2) with 1.
      rewrite Z.add_0_l, !minus_IZR. assert (Y ≠ IZR small) by (rewrite Hst; done).
      split; [split; lra|]. split; [intros; lra|intros [? _]; done].
    + pose proof (msb_ge ((big - small) * 2 - 1) 125 ltac:(lia) ltac:(lia)). lia.
  - assert (Y = IZR small) as -> by (by apply Hst). rewrite Z.sub_0_r, Z.mod_small by (unfold U128; lia).
    replace ((IZR big - IZR small) * (2 * B (he - 127)))%R with (IZR ((big - small) * 2) * B (he - 127))%R
      by (rewrite mult_IZR, minus_IZR; lra).
    apply round_exact; [done|unfold U128; lia].
Qed.

Lemma add_aligned_correct f mode big he hs ls d lsign :
  fmt_ok f → 2 ^ 126 ≤ big < 2 ^ 127 → 2 ^ 126 ≤ ls < 2 ^ 127 → Z.Even ls → 0 ≤ d →
  correct_sum f mode (sgn hs (IZR big * B (he - 126)) + sgn lsign (IZR ls * B (he - d - 126)))
              (add_aligned big he hs ls d lsign f mode).
Proof.
  intros Hf Hbig Hls Hev Hd. pose proof (f_prec f Hf).
  destruct (shr_sticky_spec ls d ltac:(unfold U128; lia) Hd)
    as (small & st & E & Hsm & Hfl & Hst & Hd0 & Hd1 & Hd2 & Hd3).
  pose proof (B_pos (he - 126)) as HB. set (u := B (he - 126)) in *.
  assert (IZR ls * B (he - d - 126) = IZR ls / IZR (2 ^ d) * u)%R as ->.
  { unfold u. rewrite (B_sub (he - d - 126) (he - 126)) by lia. replace (he - 126 - (he - d - 126)) with d by lia.
    field. pose proof (pow2_R d Hd). lra. }
  set (Y := (IZR ls / IZR (2 ^ d))%R) in *. destruct Hsm as [Hs0 Hs1].
  apply IZR_le in Hs0 as Hs0R. assert (0 < big) as Hb0%IZR_lt by lia.
  unfold add_aligned. rewrite E. destruct (decide (hs = lsign)) as [<-|Hne].
  - rewrite bool_decide_eq_true_2 by done. rewrite Z.mod_small by (unfold U128; lia).
    replace (sgn hs (IZR big * u) + sgn hs (Y * u))%R with (sgn hs ((IZR big + Y) * u)) by (destruct hs; simpl; lra).
    split; [intros _|intros Hx; exfalso; destruct hs; simpl in Hx; nra].
    apply (round_correct _ _ _ _ _ _ 0); [done|unfold U128; lia|done| |right].
    + replace ((IZR big + Y) * u / B (he - 126))%R with (IZR big + Y)%R by (fold u; field; lra).
      apply cell_0; rewrite plus_IZR; [lra|]. rewrite <-Hst. split; lra.
    + pose proof (msb_ge (big + small) 126 ltac:(lia) ltac:(lia)). lia.
  - rewrite bool_decide_eq_false_2 by done.
    replace (sgn hs (IZR big * u) + sgn lsign (Y * u))%R with (sgn hs ((IZR big - Y) * u))
      by (destruct hs, lsign; simpl; first [done|lra]).
    destruct (d =? 0) eqn:Ed.
    + assert (d = 0) as Ed0 by lia. specialize (Hd3 Ed0). subst small.
      assert (Y = IZR ls) as -> by (unfold Y; rewrite Ed0, Z.pow_0_r; field).
      destruct (big ?= ls) eqn:Ec.
      * apply Z.compare_eq in Ec as ->. split; [|done]. intros []. destruct hs; simpl; lra.
      * change (big < ls) in Ec. apply IZR_lt in Ec as EcR. split; [intros _|intros Hx; exfalso; destruct hs; simpl in Hx; nra].
        replace (sgn hs ((IZR big - IZR ls) * u)) with (sgn lsign (IZR (ls - big) * u))
          by (rewrite minus_IZR; destruct hs, lsign; simpl; first [done|lra]).
        apply round_exact; [done|unfold U128; lia].
      * apply Z.compare_gt_iff in Ec. apply IZR_lt in Ec as EcR. split; [intros _|intros Hx; exfalso; destruct hs; simpl in Hx; nra].
        rewrite <-minus_IZR. apply round_exact; [done|unfold U128; lia].
    + assert (small < 2 ^ 126 ∧ (st = true → small < 2 ^ 125)) as [Hsb Hsb2].
      { destruct (decide (2 ≤ d)) as [H2|H2]; [specialize (Hd2 H2); lia|]. assert (d = 1) as E1 by lia.
        assert (st = false) as -> by (destruct st; [exfalso; by apply (Hd1 eq_refl Hev)|done]).
        split; [|done]. apply proj2 in Hst. specialize (Hst eq_refl). unfold Y in Hst. rewrite E1, Z.pow_1_r in Hst.
        apply lt_IZR. destruct Hls as [_ Hls%IZR_lt]. rewrite (pow_S 127), mult_IZR in Hls by lia. change (127 - 1) with 126 in Hls. lra. }
      split; [intros _|intros Hx; exfalso; assert (IZR small + 1 <= IZR big)%R by (rewrite <-plus_IZR; apply IZR_le; lia);
        destruct hs; simpl in Hx; nra].
      apply (sub_correct f mode hs big small Y he st); [done|lia|lia|tauto|done|done].
Qed.

(** * The operations *)

(** A finite nonzero operand: a significand of at most [n] bits, and an exponent far inside an
    [i32] (the formats' exponents are below 2^15). *)
Record finite_op (n : Z) (v : Fp) : Prop := {
  o_class : class v = Finite;
  o_sig : 0 < sig v < 2 ^ n;
  o_exp : Z.abs (exp v) ≤ 2 ^ 20 }.
(** A zero or such an operand. *)
Definition numeric (n : Z) (v : Fp) : Prop := class v = Zero ∨ finite_op n v.

Lemma val_sgn n v : finite_op n v → val v = sgn (sign v) (IZR (sig v) * B (exp v)).
Proof. intros [Hc _ _]. unfold val. rewrite Hc. destruct (sign v); simpl; lra. Qed.
Lemma val_zero v : class v = Zero → val v = 0%R.
Proof. intros Hc. unfold val. by rewrite Hc. Qed.
Lemma msb_op n v : 0 ≤ n → finite_op n v → 0 ≤ msb (sig v) < n.
Proof. intros Hn [_ Hs _]. unfold msb. split; [apply Z.log2_nonneg|]. apply Z.log2_lt_pow2; lia. Qed.
Lemma val_neq_0 n v : finite_op n v → val v ≠ 0%R.
Proof.
  intros Hv. rewrite (val_sgn n v Hv). destruct Hv as [_ [H0%IZR_lt _] _]. pose proof (B_pos (exp v)).
  destruct (sign v); simpl; nra.
Qed.
Lemma round_fp_correct f mode n v :
  fmt_ok f → n ≤ 128 → finite_op n v → correct f mode (val v) (round_fp v f mode).
Proof.
  intros Hf Hn Hv. unfold round_fp. rewrite (o_class _ _ Hv), (val_sgn n v Hv). apply round_exact; [done|].
  destruct Hv as [_ Hs _]. assert (2 ^ n ≤ 2 ^ 128) by (apply Z.pow_le_mono_r; lia). unfold U128; lia.
Qed.

(** A significand moved up so that its leading bit is bit 126 stands for the same value. *)
Lemma top_value m ex :
  0 < m → msb m ≤ 125 → 
  let s := shl128 m (126 - msb m) in
  2 ^ 126 ≤ s < 2 ^ 127 ∧ Z.Even s ∧ (IZR s * B (ex + msb m - 126) = IZR m * B ex)%R.
Proof.
  intros Hm Hn. assert (0 ≤ msb m) by apply Z.log2_nonneg.
  destruct (shl_top m 126 Hm ltac:(lia)) as [E Hb]. simpl. rewrite E. split_and!; [lia|lia| |].
  - exists (m * 2 ^ (125 - msb m)). rewrite (pow_S (126 - msb m)) by lia.
    replace (126 - msb m - 1) with (125 - msb m) by lia. lia.
  - rewrite mult_IZR, Rmult_assoc. f_equal. rewrite (B_sub (ex + msb m - 126) ex) by lia. do 3 f_equal. lia.
Qed.

Lemma norm63_value m ex :
  0 < m < 2 ^ 64 → ∃ s, norm63 m ex = (s, ex + msb m) ∧ 
  shl128 s 63 = shl128 m (126 - msb m).
Proof.
  intros Hm. assert (msb m < 64) by (apply Z.log2_lt_pow2; lia). assert (0 ≤ msb m) by apply Z.log2_nonneg.
  destruct (shl_top m 63 ltac:(lia) ltac:(lia)) as [E1 Hb1]. destruct (shl_top m 126 ltac:(lia) ltac:(lia)) as [E2 Hb2].
  eexists. split; [done|]. rewrite E1, E2, shl128_small by (unfold U128; lia).
  rewrite <-Z.mul_assoc, <-Z.pow_add_r by lia. do 2 f_equal. lia.
Qed.

Lemma add_finite_wide a b f mode :
  0 < sig a < 2 ^ 64 → 0 < sig b < 2 ^ 64 →
  add_finite a b f mode = add_wide (sign a) (sig a) (exp a) (sign b) (sig b) (exp b) f mode.
Proof.
  intros Ha Hb. unfold add_finite, add_wide. destruct (norm63_value (sig a) (exp a) Ha) as (sa & -> & Ea).
  destruct (norm63_value (sig b) (exp b) Hb) as (sb & -> & Eb).
  destruct (_ <=? _); by rewrite Ea, Eb.
Qed.

Lemma add_wide_correct f mode sa ma ea sb mb eb :
  fmt_ok f → 0 < ma < 2 ^ 126 → 0 < mb < 2 ^ 126 → Z.abs ea ≤ 2 ^ 21 → Z.abs eb ≤ 2 ^ 21 →
  correct_sum f mode (sgn sa (IZR ma * B ea) + sgn sb (IZR mb * B eb)) (add_wide sa ma ea sb mb eb f mode).
Proof.
  intros Hf Ha Hb Hea Heb.
  assert (0 ≤ msb ma ≤ 125) by (split; [apply Z.log2_nonneg|]; apply Z.lt_succ_r, Z.log2_lt_pow2; lia).
  assert (0 ≤ msb mb ≤ 125) by (split; [apply Z.log2_nonneg|]; apply Z.lt_succ_r, Z.log2_lt_pow2; lia).
  destruct (top_value ma ea ltac:(lia) ltac:(lia)) as (Ha1 & Ha2 & <-).
  destruct (top_value mb eb ltac:(lia) ltac:(lia)) as (Hb1 & Hb2 & <-).
  unfold add_wide. destruct (eb + msb mb <=? ea + msb ma) eqn:E.
  - rewrite (Z.mod_small (_ - _)) by (unfold U32; lia).
    replace (eb + msb mb - 126) with (ea + msb ma - (ea + msb ma - (eb + msb mb)) - 126) by lia.
    apply add_aligned_correct; [done..|lia].
  - rewrite (Z.mod_small (_ - _)) by (unfold U32; lia). rewrite Rplus_comm.
    replace (ea + msb ma - 126) with (eb + msb mb - (eb + msb mb - (ea + msb ma)) - 126) by lia.
    apply add_aligned_correct; [done..|lia].
Qed.

Lemma add_correct f mode a b :
  fmt_ok f → numeric 64 a → numeric 64 b → class a = Finite ∨ class b = Finite →
  correct_sum f mode (val a + val b) (add a b f mode).
Proof.
  intros Hf Hna Hnb Hc. unfold add. destruct Hna as [Ha|Ha], Hnb as [Hb|Hb].
  - rewrite Ha, Hb in Hc. by destruct Hc.
  - rewrite Ha, (o_class _ _ Hb), (val_zero a Ha), Rplus_0_l.
    split; [intros _; by apply (round_fp_correct _ _ 64)|intros E; by destruct (val_neq_0 64 b Hb)].
  - rewrite Hb, (o_class _ _ Ha), (val_zero b Hb), Rplus_0_r.
    split; [intros _; by apply (round_fp_correct _ _ 64)|intros E; by destruct (val_neq_0 64 a Ha)].
  - rewrite (o_class _ _ Ha), (o_class _ _ Hb), (val_sgn 64 a Ha), (val_sgn 64 b Hb).
    destruct Ha as [_ Ha Hea], Hb as [_ Hb Heb]. rewrite add_finite_wide by done. apply add_wide_correct; lia || done.
Qed.

Lemma sgn_mul s s' x y : (sgn s x * sgn s' y)%R = sgn (xorb s s') (x * y).
Proof. destruct s, s'; simpl; lra. Qed.

Lemma mul_correct f mode a b :
  fmt_ok f → finite_op 64 a → finite_op 64 b → correct f mode (val a * val b) (mul a b f mode).
Proof.
  intros Hf Ha Hb. unfold mul. rewrite (o_class _ _ Ha), (o_class _ _ Hb), (val_sgn 64 a Ha), (val_sgn 64 b Hb), sgn_mul.
  destruct Ha as [_ Ha _], Hb as [_ Hb _]. rewrite Z.mod_small by (unfold U128; nia).
  replace (IZR (sig a) * B (exp a) * (IZR (sig b) * B (exp b)))%R with (IZR (sig a * sig b) * B (exp a + exp b))%R
    by (rewrite mult_IZR, B_add; lra).
  apply round_exact; [done|unfold U128; nia].
Qed.

Lemma fma_correct f mode a b c :
  fmt_ok f → finite_op 53 a → finite_op 53 b → numeric 53 c →
  correct_sum f mode (val a * val b + val c) (fma a b c f mode).
Proof.
  intros Hf Ha Hb Hc. unfold fma. rewrite (o_class _ _ Ha), (o_class _ _ Hb).
  pose proof (val_neq_0 _ _ Ha) as Na. pose proof (val_neq_0 _ _ Hb) as Nb.
  rewrite (val_sgn 53 a Ha), (val_sgn 53 b Hb), sgn_mul in *.
  destruct Ha as [_ Ha Hea], Hb as [_ Hb Heb]. rewrite Z.mod_small by (unfold U128; nia).
  assert (IZR (sig a) * B (exp a) * (IZR (sig b) * B (exp b)) = IZR (sig a * sig b) * B (exp a + exp b))%R as ->
    by (rewrite mult_IZR, B_add; lra).
  destruct Hc as [Hc|Hc].
  - rewrite Hc, (val_zero c Hc), Rplus_0_r. split; [intros _; apply round_exact; [done|unfold U128; nia]|].
    intros E. exfalso. assert (0 < sig a * sig b) as H0%IZR_lt by nia. pose proof (B_pos (exp a + exp b)).
    destruct (xorb _ _); simpl in E; nra.
  - rewrite (o_class _ _ Hc), (val_sgn 53 c Hc). destruct Hc as [_ Hc Hec]. apply add_wide_correct; nia || done.
Qed.

(** * Division *)

Lemma div_loop_spec n : ∀ db rem q,
  2 ^ 126 ≤ db < 2 ^ 127 → 0 ≤ rem < 2 * db → 0 ≤ q → (q + 1) * 2 ^ Z.of_nat n ≤ U128 →
  ∃ rem' q', div_loop n db rem q = (rem', q') ∧ 0 ≤ rem' < 2 * db ∧ 0 ≤ q' < U128 ∧
    2 * db * q' + rem' = 2 ^ Z.of_nat n * (2 * db * q + rem).
Proof.
  induction n as [|n IH]; intros db rem q Hdb Hrem Hq Hb; simpl.
  - exists rem, q. split_and!; try done; simpl in Hb; lia.
  - rewrite Nat2Z.inj_succ, Z.pow_succ_r in * by lia.
    assert (1 ≤ 2 ^ Z.of_nat n) by (assert (0 < 2 ^ Z.of_nat n) by (apply Z.pow_pos_nonneg; lia); lia).
    assert (2 * (q + 1) ≤ U128) by nia. unfold U128 in *. rewrite (shl128_small q 1), Z.pow_1_r by (unfold U128; lia).
    assert (Z.lor (q * 2) 1 = q * 2 + 1) as El by (apply (lor_add_aligned _ _ 1); [lia|by apply Z.mod_mul|lia]).
    destruct (db <=? rem) eqn:E.
    + rewrite El, (shl128_small (rem - db) 1), Z.pow_1_r by (unfold U128; lia).
      destruct (IH db ((rem - db) * 2) (q * 2 + 1)) as (rem' & q' & -> & Hr & Hq' & Heq); [lia..|nia|].
      exists rem', q'. split_and!; try done; [lia..|]. rewrite Heq. lia.
    + rewrite (shl128_small rem 1), Z.pow_1_r by (unfold U128; lia).
      destruct (IH db (rem * 2) (q * 2)) as (rem' & q' & -> & Hr & Hq' & Heq); [lia..|nia|].
      exists rem', q'. split_and!; try done; [lia..|]. rewrite Heq. lia.
Qed.

Lemma div_correct f mode a b :
  fmt_ok f → finite_op 64 a → finite_op 64 b → correct f mode (val a / val b) (div a b f mode).
Proof.
  intros Hf Ha Hb. unfold div. rewrite (o_class _ _ Ha), (o_class _ _ Hb), (val_sgn 64 a Ha), (val_sgn 64 b Hb).
  pose proof (msb_op 64 a ltac:(lia) Ha) as Ma. pose proof (msb_op 64 b ltac:(lia) Hb) as Mb.
  destruct Ha as [_ Ha _], Hb as [_ Hb _]. pose proof (f_prec f Hf) as Hp.
  destruct (top_value (sig a) (exp a) ltac:(lia) ltac:(lia)) as (Ha1 & _ & <-).
  destruct (top_value (sig b) (exp b) ltac:(lia) ltac:(lia)) as (Hb1 & _ & <-).
  set (da := shl128 (sig a) (126 - msb (sig a))) in *. set (db := shl128 (sig b) (126 - msb (sig b))) in *.
  set (ea := exp a + msb (sig a) - 126). set (eb := exp b + msb (sig b) - 126). set (n := prec f + 3).
  assert (Z.of_nat (Z.to_nat n) = n) as En by lia.
  destruct (div_loop_spec (Z.to_nat n) db da 0) as (rem & q & -> & Hrem & Hq & Heq); [lia..| |].
  { rewrite En. unfold U128. assert (2 ^ n ≤ 2 ^ 128) by (apply Z.pow_le_mono_r; lia). lia. }
  rewrite En, Z.mul_0_r, Z.add_0_l in Heq. rewrite (pow_S n) in Heq by lia.
  apply (f_equal IZR) in Heq as HeqR. rewrite plus_IZR, !mult_IZR in HeqR.
  assert (0 < db) as Hdb%IZR_lt by lia. assert (0 < da) as Hda%IZR_lt by lia.
  pose proof Hrem as [Hr0%IZR_le Hr1%IZR_lt]. rewrite mult_IZR in Hr1.
  pose proof (B_pos eb). pose proof (B_pos ea). pose proof (B_pos (ea - eb - (n - 1))) as HB.
  assert (B ea = IZR (2 ^ (n - 1)) * B (ea - eb - (n - 1)) * B eb)%R as EB.
  { rewrite <-B_nat, <-!B_add by lia. f_equal. lia. }
  replace (sgn (sign a) (IZR da * B ea) / sgn (sign b) (IZR db * B eb))%R
    with (sgn (xorb (sign a) (sign b)) (IZR da * IZR (2 ^ (n - 1)) / IZR db * B (ea - eb - (n - 1))))%R
    by (rewrite EB; destruct (sign a), (sign b); simpl; field; lra).
  set (X := (IZR da * IZR (2 ^ (n - 1)) / IZR db)%R).
  assert (X * IZR db = IZR da * IZR (2 ^ (n - 1)))%R as HX by (unfold X; field; lra).
  assert (2 ^ (n - 2) ≤ q) as Hqlo.
  { rewrite (pow_S (n - 1)) in Heq by lia. replace (n - 1 - 1) with (n - 2) in Heq by lia.
    assert (0 < 2 ^ (n - 2)) by (apply Z.pow_pos_nonneg; lia).
    destruct (decide (2 ^ (n - 2) ≤ q)) as [|Hlt]; [done|]. exfalso.
    assert (2 * db * (q + 1) ≤ 2 * db * 2 ^ (n - 2)) by (apply Z.mul_le_mono_nonneg_l; lia).
    assert (2 ^ (n - 2) * db < 2 ^ (n - 2) * (2 * da)) by (apply Z.mul_lt_mono_pos_l; lia). lia. }
  assert (0 < 2 ^ (n - 2)) by (apply Z.pow_pos_nonneg; lia).
  apply (round_correct _ _ _ _ _ _ 0); [done|lia|done| |right].
  - replace (X * B (ea - eb - (n - 1)) / B (ea - eb - (n - 1)))%R with X by (field; lra).
    apply cell_0.
    + split; [apply (Rmult_le_reg_r (IZR db))|apply (Rmult_lt_reg_r (IZR db))]; lra.
    + rewrite negb_false_iff, Z.eqb_eq. split; intros E0.
      * apply eq_IZR. rewrite E0 in HX. lra.
      * rewrite E0 in HeqR. apply (Rmult_eq_reg_r (IZR db)); lra.
  - pose proof (msb_ge q (n - 2) ltac:(lia) Hqlo). lia.
Qed.

(** * Square roots *)

Section isqrt.
Context (n : Z) (Hn : 0 < n).
Abbreviation s := (Z.sqrt n).

Lemma sqrt_bounds : 0 < s ∧ s * s ≤ n < (s + 1) * (s + 1).
Proof. pose proof (Z.sqrt_spec n ltac:(lia)). pose proof (Z.sqrt_pos n). unfold Z.succ in *. split; [by apply Z.sqrt_pos|lia]. Qed.

Lemma newton_step x :
  0 < x → let nx := (x + n / x) / 2 in
  s ≤ nx ∧ (s < x → nx < x ∧ 2 * (nx - s) ≤ x - s) ∧ (x = s → x ≤ nx).
Proof.
  intros Hx nx. pose proof sqrt_bounds as (Hs & H1 & H2).
  pose proof (Z.div_mod n x ltac:(lia)) as Hd. pose proof (Z.mod_pos_bound n x Hx) as Hm. set (y := n / x) in *.
  assert (2 * nx ≤ x + y < 2 * nx + 2) as Hnx by (subst nx; divlia).
  split_and!.
  - destruct (decide (s ≤ nx)) as [|Hlt]; [done|]. exfalso. assert (x + y + 1 ≤ 2 * s) by lia. 
    assert (0 ≤ y) by (apply Z.div_pos; lia). assert (n < x * (y + 1)) by lia.
    pose proof (Z.square_nonneg (x - (y + 1))).
    assert ((x + y + 1) * (x + y + 1) ≤ 2 * s * (2 * s)) by (apply Z.mul_le_mono_nonneg; lia). lia.
  - intros Hsx. assert (y < s + 1) by (apply Z.div_lt_upper_bound; nia). lia.
  - intros ->. assert (s ≤ y) by (apply Z.div_le_lower_bound; lia). lia.
Qed.

Lemma newton_spec fuel : ∀ x, 0 < x → s ≤ x → x - s < 2 ^ Z.of_nat fuel → newton (S fuel) n x = Some s.
Proof.
  induction fuel as [|fuel IH]; intros x Hx Hsx Hf; cbn [newton]; destruct (newton_step x Hx) as (N1 & N2 & N3);
    set (nx := (x + n / x) / 2) in *.
  - assert (x = s) as -> by (simpl in Hf; lia). destruct (s <=? nx) eqn:E; [done|]. specialize (N3 eq_refl). lia.
  - destruct (x <=? nx) eqn:E.
    + f_equal. destruct (decide (s < x)) as [Hlt|]; [|lia]. destruct (N2 Hlt). lia.
    + apply IH; [pose proof sqrt_bounds; lia|done|]. rewrite Nat2Z.inj_succ, Z.pow_succ_r in Hf by lia.
      destruct (decide (s < x)) as [Hlt|]; [destruct (N2 Hlt); lia|]. assert (x = s) by lia. specialize (N3 ltac:(done)). lia.
Qed.

Lemma steps_idle fuel : step_down fuel n s = Some s ∧ step_up fuel n s = Some s.
Proof.
  pose proof sqrt_bounds as (Hs & H1 & H2).
  assert (s ≤ n / s) by (apply Z.div_le_lower_bound; lia).
  assert (n / (s + 1) < s + 1) by (apply Z.div_lt_upper_bound; lia).
  split; [destruct fuel; simpl; destruct ((0 <? s) && (n / s <? s)) eqn:E; lia || done|].
  destruct fuel; simpl; destruct (s + 1 <=? n / (s + 1)) eqn:E; lia || done.
Qed.
End isqrt.

Lemma isqrt128_spec n fuel : 0 ≤ n < U128 → (isqrt_fuel ≤ fuel)%nat → isqrt128 fuel n = Some (Z.sqrt n).
Proof.
  intros Hn Hfuel. unfold isqrt128. destruct (n =? 0) eqn:E0; [assert (n = 0) as -> by lia; done|].
  pose proof (sqrt_bounds n ltac:(lia)) as (Hs & H1 & H2). pose proof (Z.log2_spec n ltac:(lia)) as [L1 L2].
  assert (0 ≤ Z.log2 n < 128) as HL by (split; [apply Z.log2_nonneg|apply Z.log2_lt_pow2; unfold U128 in *; lia]).
  set (k := Z.log2 n / 2 + 1). assert (1 ≤ k ≤ 64) as Hk by (subst k; divlia).
  assert (2 ^ k ≤ 2 ^ 64) as Hk64 by (apply Z.pow_le_mono_r; lia).
  assert (0 < 2 ^ k) as Hkp by (apply Z.pow_pos_nonneg; lia).
  assert (Z.sqrt n ≤ 2 ^ k) as Hsk.
  { destruct (decide (Z.sqrt n ≤ 2 ^ k)) as [|Hgt]; [done|]. exfalso.
    assert (2 ^ k * 2 ^ k ≤ n) by nia. rewrite <-Z.pow_add_r in * by lia.
    assert (2 ^ Z.succ (Z.log2 n) ≤ 2 ^ (k + k)) by (apply Z.pow_le_mono_r; subst k; divlia). lia. }
  unfold msb. fold k. rewrite shl128_small, Z.mul_1_l by (unfold U128; lia). unfold isqrt_fuel in Hfuel.
  destruct fuel as [|fuel]; [lia|]. rewrite newton_spec; [|lia..|].
  - cbn [mbind option_bind]. destruct (steps_idle n ltac:(lia) (S fuel)) as [-> Hu]. cbn [mbind option_bind]. exact Hu.
  - assert (2 ^ 64 ≤ 2 ^ Z.of_nat fuel) by (apply Z.pow_le_mono_r; lia). lia.
Qed.

(** The radicand [sqrt] takes the integer root of, and its exponent. *)
Lemma sqrt_radicand m e :
  0 < m < 2 ^ 64 →
  let '(m1, e1) := if negb (Z.land e 1 =? 0) then (shl128 m 1, e - 1) else (m, e) in
  let k := 126 - msb m1 in
  let k := if negb (Z.land k 1 =? 0) then k + 1 else k in
  2 ^ 126 ≤ shl128 m1 k < U128 ∧ (∃ h, e1 - k = 2 * h) ∧ (IZR (shl128 m1 k) * B (e1 - k) = IZR m * B e)%R.
Proof.
  intros Hm. rewrite !land1_odd.
  assert (∃ m1 e1, (if Z.odd e then (shl128 m 1, e - 1) else (m, e)) = (m1, e1) ∧ 0 < m1 < 2 ^ 65 ∧
    (∃ g, e1 = 2 * g) ∧ (IZR m1 * B e1 = IZR m * B e)%R) as (m1 & e1 & -> & Hm1 & [g Hg] & HV).
  { destruct (Z.odd e) eqn:Eo.
    - rewrite shl128_small, Z.pow_1_r by (unfold U128; lia). eexists _, _. split; [done|]. split; [lia|]. split.
      + apply Z.odd_spec in Eo as [w ->]. exists w. lia.
      + replace e with (e - 1 + 1) at 2 by lia. rewrite B_S, mult_IZR. lra.
    - eexists _, _. split; [done|]. split; [lia|]. split; [|done]. exists (e / 2).
      pose proof (Z.div2_odd e) as Hd. rewrite Eo in Hd. rewrite Z.div2_div in Hd. simpl in Hd. lia. }
  assert (0 ≤ msb m1 < 65) as HL by (split; [apply Z.log2_nonneg|apply Z.log2_lt_pow2; lia]).
  cbv zeta. rewrite land1_odd. set (k := 126 - msb m1).
  assert (∃ k', (if Z.odd k then k + 1 else k) = k' ∧ k ≤ k' ≤ k + 1 ∧ ∃ g', k' = 2 * g') as (k' & -> & Hk & [g' Hg']).
  { destruct (Z.odd k) eqn:Eo.
    - apply Z.odd_spec in Eo as [w Ew]. exists (k + 1). split; [done|]. split; [lia|]. exists (w + 1). lia.
    - exists k. split; [done|]. split; [lia|]. exists (k / 2).
      pose proof (Z.div2_odd k) as Hd. rewrite Eo in Hd. rewrite Z.div2_div in Hd. simpl in Hd. lia. }
  assert (2 ^ 126 ≤ m1 * 2 ^ k' < 2 ^ 128) as Hb.
  { destruct (shl_top m1 126 ltac:(lia) ltac:(lia)) as [_ H126]. fold k in H126.
    assert (k' = k ∨ k' = k + 1) as [-> | ->] by lia; [lia|]. rewrite Z.pow_add_r by lia. lia. }
  assert (k' < 128) by (subst k; lia).
  rewrite shl128_small by (unfold U128; lia). split; [exact Hb|]. split; [exists (g - g'); lia|].
  rewrite <-HV, mult_IZR, Rmult_assoc. f_equal. rewrite (B_sub (e1 - k') e1) by lia. do 3 f_equal. lia.
Qed.

(** Twice the root, to the unit: the integer root and whether the remainder passes the middle. *)
Lemma root_cell m q X :
  0 < q → q * q ≤ m < (q + 1) * (q + 1) → (0 <= X)%R → (X * X = IZR m)%R →
  cell (q * 2 + Z.b2z (q <? m - q * q)) (negb (m - q * q =? 0)) (2 * X) 0.
Proof.
  intros Hq [H1 H2] HX0 HX. apply IZR_lt in Hq as HqR. apply IZR_le in H1 as H1R. apply IZR_lt in H2 as H2R.
  rewrite !mult_IZR, ?plus_IZR in *. apply cell_0; rewrite plus_IZR, mult_IZR; destruct (q <? m - q * q) eqn:E; simpl.
  - assert (q * q + q + 1 ≤ m) as H3%IZR_le by lia. rewrite !plus_IZR, mult_IZR in H3. split; nra.
  - assert (m ≤ q * q + q) as H3%IZR_le by lia. rewrite !plus_IZR, mult_IZR in H3. split; nra.
  - assert (q * q + q + 1 ≤ m) as H3%IZR_le by lia. rewrite !plus_IZR, mult_IZR in H3.
    split; [intros; exfalso; nra|]. intros Hn. exfalso. rewrite negb_false_iff in Hn. lia.
  - rewrite negb_false_iff, Z.eqb_eq. split; intros E0.
    + assert (IZR m = IZR (q * q)) as E1%eq_IZR by (rewrite mult_IZR; nra). lia.
    + assert (m = q * q) as E1 by lia. rewrite E1, mult_IZR in HX. nra.
Qed.

Lemma sqrt_correct f mode a :
  fmt_ok f → finite_op 64 a → sign a = false →
  ∃ r, sqrt a f mode = Some r ∧ correct f mode (R_sqrt.sqrt (val a)) r.
Proof.
  intros Hf Ha Hs. pose proof (f_prec f Hf). unfold sqrt. rewrite (o_class _ _ Ha), Hs, (val_sgn 64 a Ha), Hs.
  pose proof (sqrt_radicand (sig a) (exp a) (o_sig _ _ Ha)) as HR.
  destruct (if negb (Z.land (exp a) 1 =? 0) then _ else _) as [m1 e1]. cbv zeta in HR |- *.
  set (k := if negb (Z.land (126 - msb m1) 1 =? 0) then _ else _) in *.
  destruct HR as (Hm & [h Hh] & HV). set (m := shl128 m1 k) in *. simpl sgn. rewrite <-HV, Hh.
  rewrite isqrt128_spec by (unfold isqrt_fuel; lia). simpl. eexists. split; [done|].
  pose proof (sqrt_bounds m ltac:(lia)) as (Hq0 & Hq1 & Hq2). set (q := Z.sqrt m) in *.
  assert (2 ^ 63 ≤ q < 2 ^ 64) as Hq.
  { unfold U128 in Hm. change (2 ^ 126) with (2 ^ 63 * 2 ^ 63) in Hm. change (2 ^ 128) with (2 ^ 64 * 2 ^ 64) in Hm. nia. }
  replace (2 * h) with (h * 2) by lia. rewrite Z.quot_mul by lia.
  rewrite shl128_small, Z.pow_1_r, (lor_add_aligned _ _ 1) by
    (unfold U128; try apply Z.mod_mul; try destruct (q <? _); simpl; lia).
  set (rb := Z.b2z (q <? m - q * q)).
  assert (0 <= IZR m)%R as Hm0 by (apply (IZR_le 0); lia).
  assert (R_sqrt.sqrt (IZR m * B (h * 2)) = 2 * R_sqrt.sqrt (IZR m) * B (h - 1))%R as ->.
  { replace (h * 2) with (h + h) by lia. rewrite B_add, <-Rmult_assoc, Rmult_assoc, sqrt_mult, sqrt_square;
      [|apply Rlt_le, B_pos|done|apply Rlt_le, Rmult_lt_0_compat; apply B_pos].
    replace h with (h - 1 + 1) at 1 by lia. rewrite B_S. lra. }
  apply (round_correct f mode false _ _ _ 0); [done| |done| |right].
  - subst rb. destruct (q <? _); simpl; unfold U128; lia.
  - pose proof (B_pos (h - 1)).
    replace (2 * R_sqrt.sqrt (IZR m) * B (h - 1) / B (h - 1))%R with (2 * R_sqrt.sqrt (IZR m))%R by (field; lra).
    pose proof (sqrt_sqrt (IZR m) Hm0) as HX. pose proof (sqrt_pos (IZR m)) as HX0. set (X := R_sqrt.sqrt (IZR m)) in *.
    subst rb. by apply root_cell.
  - pose proof (msb_ge (q * 2 + rb) 64 ltac:(lia)). subst rb. destruct (q <? _); simpl in *; lia.
Qed.
