(* ===== verification/SoftInt.v ===== *)
(** Conversions to integers and comparisons of [src/vcpu/softfloat.rs], against the reals. *)
From Stdlib Require Import Reals Lra.
From stdpp Require Import base numbers.
From S2P Require Import Prelude Softfloat SoftReal SoftRound SoftArith.
Local Open Scope Z_scope.

(** * Comparison *)

Definition ordered (c : comparison) (x y : R) : Prop :=
  match c with Lt => (x < y)%R | Eq => x = y | Gt => (y < x)%R end.

Lemma ordered_scale c x y u : (0 < u)%R → ordered c x y → ordered c (x * u) (y * u).
Proof. destruct c; simpl; intros; [by subst|nra..]. Qed.
Lemma ordered_IZR a b : ordered (a ?= b) (IZR a) (IZR b).
Proof.
  destruct (a ?= b) eqn:E; simpl; [by apply Z.compare_eq in E as ->|by apply IZR_lt|].
  apply IZR_lt. by apply Z.compare_gt_iff.
Qed.
Lemma ordered_opp c x y : ordered c x y → ordered (CompOpp c) (- x) (- y).
Proof. destruct c; simpl; intros; [by subst|lra..]. Qed.

Lemma lead_value n v : 0 ≤ n → finite_op n v →
  (B (lead_exp v) <= IZR (sig v) * B (exp v) < B (lead_exp v + 1))%R.
Proof.
  intros Hn Hv. destruct Hv as [_ [H0 _] _]. unfold lead_exp, msb. pose proof (Z.log2_nonneg (sig v)).
  pose proof (Z.log2_spec _ H0) as [L1%IZR_le L2%IZR_lt]. rewrite <-B_nat in L1, L2 by lia. pose proof (B_pos (exp v)).
  rewrite <-Z.add_assoc, !(B_add (exp v)). unfold Z.succ in *. nra.
Qed.

Lemma magnitude_cmp_spec a b :
  finite_op 64 a → finite_op 64 b →
  ordered (magnitude_cmp a b) (IZR (sig a) * B (exp a)) (IZR (sig b) * B (exp b)).
Proof.
  intros Ha Hb. unfold magnitude_cmp. rewrite (o_class _ _ Ha), (o_class _ _ Hb). simpl.
  pose proof (lead_value 64 a ltac:(lia) Ha). pose proof (lead_value 64 b ltac:(lia) Hb).
  destruct (lead_exp a ?= lead_exp b) eqn:E.
  - apply Z.compare_eq in E. pose proof (msb_op 64 a ltac:(lia) Ha) as Ma. pose proof (msb_op 64 b ltac:(lia) Hb) as Mb.
    destruct Ha as [_ Ha _], Hb as [_ Hb _]. unfold lead_exp in E. destruct (msb (sig b) <=? msb (sig a)) eqn:Em.
    + destruct (shl_top (sig b) (msb (sig a)) ltac:(lia) ltac:(lia)) as [-> _].
      rewrite (B_sub (exp a) (exp b)) by lia. replace (exp b - exp a) with (msb (sig a) - msb (sig b)) by lia.
      rewrite <-Rmult_assoc, <-mult_IZR. apply ordered_scale; [apply B_pos|apply ordered_IZR].
    + destruct (shl_top (sig a) (msb (sig b)) ltac:(lia) ltac:(lia)) as [-> _].
      rewrite (B_sub (exp b) (exp a)) by lia. replace (exp a - exp b) with (msb (sig b) - msb (sig a)) by lia.
      rewrite <-Rmult_assoc, <-mult_IZR. apply ordered_scale; [apply B_pos|apply ordered_IZR].
  - change (lead_exp a < lead_exp b) in E. simpl. assert (B (lead_exp a + 1) <= B (lead_exp b))%R by (apply B_le; lia). lra.
  - apply Z.compare_gt_iff in E. simpl. assert (B (lead_exp b + 1) <= B (lead_exp a))%R by (apply B_le; lia). lra.
Qed.

(** * Integers *)

(** [z] is [x] rounded to an integer in the given mode. *)
Definition rounds_Z (mode : Round) (x : R) (z : Z) : Prop :=
  match mode with
  | Nearest => (- (1 / 2) <= x - IZR z <= 1 / 2)%R ∧ ((x - IZR z = 1 / 2 ∨ x - IZR z = - (1 / 2))%R → Z.Even z)
  | Down => (IZR z <= x < IZR z + 1)%R
  | Up => (IZR z - 1 < x <= IZR z)%R
  | ToZero => ((0 <= x)%R → (IZR z <= x < IZR z + 1)%R) ∧ ((x <= 0)%R → (IZR z - 1 < x <= IZR z)%R)
  end.

Definition signed (s : bool) (z : Z) : Z := if s then - z else z.

Lemma rounds_Z_exact mode z : rounds_Z mode (IZR z) z.
Proof. destruct mode; simpl; repeat split; intros; try lra; destruct H; lra. Qed.

Lemma rounds_Z_signed mode (s : bool) Y Q :
  (0 < Y)%R → rounds_int (if s then flip mode else mode) Y Q → rounds_Z mode (sgn s Y) (signed s Q).
Proof.
  intros HY. unfold rounds_int, rounds_Z, sgn, signed. destruct s; rewrite ?opp_IZR; [|by destruct mode; simpl; [|lra..]].
  destruct mode; simpl; [|lra..]. intros [H1 H2]. split; [lra|]. intros Hd.
  destruct H2 as [w ->]; [destruct Hd; [right|left]; lra|]. exists (- w). lia.
Qed.

(** What [round_to_int] computes below the integers. *)
Lemma round_frac_spec a mode :
  finite_op 64 a → exp a < 0 → ∃ q r s,
    split (sig a) (- exp a) = (q, r, s) ∧ 0 ≤ q < 2 ^ 64 ∧
    let up := round_decision (Z.odd q) r s (sign a) mode in
    rounds_Z mode (val a) (signed (sign a) (q + Z.b2z up)) ∧
    (r || s = true ↔ val a ≠ IZR (signed (sign a) (q + Z.b2z up))).
Proof.
  intros Ha He. rewrite (val_sgn 64 a Ha). destruct Ha as [_ Ha _]. rewrite split_pos by (unfold U128; lia).
  eexists _, _, _. split; [done|]. assert (0 < 2 ^ (- exp a)) as Hp by (apply Z.pow_pos_nonneg; lia).
  split; [split; [apply Z.div_pos; lia|apply Z.div_lt_upper_bound; nia]|].
  assert (placed (sig a / 2 ^ (- exp a)) (Z.odd (sig a / 2 ^ (- exp a - 1)))
            (negb (sig a mod 2 ^ (- exp a - 1) =? 0) || false) (IZR (sig a) / IZR (2 ^ (- exp a)))) as Hpl.
  { apply (split_placed _ _ _ 0); [lia|unfold U128; lia|]. apply cell_0; [lra|done]. }
  rewrite orb_false_r in Hpl.
  assert (IZR (sig a) * B (exp a) = IZR (sig a) / IZR (2 ^ (- exp a)))%R as ->.
  { rewrite <-B_nat by lia. assert (B (exp a) * B (- exp a) = 1)%R by (rewrite <-B_add, Z.add_opp_diag_r; done).
    pose proof (B_pos (- exp a)). apply (Rmult_eq_reg_r (B (- exp a))); [|lra].
    rewrite Rmult_assoc, H. field. lra. }
  assert (0 < IZR (sig a) / IZR (2 ^ (- exp a)))%R as HY.
  { apply Rdiv_lt_0_compat; apply IZR_lt; lia. }
  set (Y := (IZR (sig a) / IZR (2 ^ (- exp a)))%R) in *. simpl.
  destruct (decision_rounds (if sign a then flip mode else mode) _ _ _ _ Hpl) as (D1 & _ & D3).
  assert (∀ l r s, round_decision l r s (sign a) mode = round_decision l r s false (if sign a then flip mode else mode)) as Ed
    by (intros; destruct (sign a); [apply decision_neg|done]).
  rewrite Ed. split; [by apply rounds_Z_signed|]. rewrite D3.
  destruct (sign a); simpl; rewrite ?opp_IZR; lra.
Qed.

(** Negating through an [i64]. *)
Lemma as_i64_signed s mag :
  0 ≤ mag → (s = true → mag ≤ 2 ^ 63) → (s = false → mag < 2 ^ 63) →
  (if s then as_i64 (- as_i64 mag) else as_i64 mag) = signed s mag.
Proof.
  intros H0 H1 H2. unfold as_i64, U64, signed. destruct s.
  - specialize (H1 eq_refl). rewrite (Z.mod_small mag) by lia. destruct (mag <? 2 ^ 63) eqn:E.
    + destruct (decide (mag = 0)) as [->|]; [done|]. replace (- mag) with (2 ^ 64 - mag + (-1) * 2 ^ 64) by lia.
      rewrite Z.mod_add, Z.mod_small by lia. destruct (2 ^ 64 - mag <? 2 ^ 63) eqn:E2; lia.
    + assert (mag = 2 ^ 63) as -> by lia. done.
  - specialize (H2 eq_refl). rewrite Z.mod_small by lia. destruct (mag <? 2 ^ 63) eqn:E; lia.
Qed.

(** The end of [to_int], once the magnitude is known. *)
Lemma to_int_range s mag bits (fl : Z) (u : bool) :
  1 ≤ bits ≤ 64 → 0 ≤ mag < 2 ^ 66 →
  (if (s && (shl128 1 (bits - 1) <? mag)) || (negb s && (shl128 1 (bits - 1) <=? mag)) then None
   else Some (if s then as_i64 (- as_i64 mag) else as_i64 mag, fl, u))
  = if bool_decide (- 2 ^ (bits - 1) ≤ signed s mag < 2 ^ (bits - 1)) then Some (signed s mag, fl, u) else None.
Proof.
  intros Hb Hm. assert (2 ^ (bits - 1) ≤ 2 ^ 63) by (apply Z.pow_le_mono_r; lia).
  assert (0 < 2 ^ (bits - 1)) by (apply Z.pow_pos_nonneg; lia).
  rewrite shl128_small, Z.mul_1_l by (unfold U128; lia). unfold signed at 1 2.
  destruct s; simpl; rewrite ?orb_false_r.
  - destruct (2 ^ (bits - 1) <? mag) eqn:E; [rewrite bool_decide_eq_false_2 by lia; done|].
    rewrite bool_decide_eq_true_2 by lia. rewrite (as_i64_signed true mag); [done|lia..].
  - destruct (2 ^ (bits - 1) <=? mag) eqn:E; [rewrite bool_decide_eq_false_2 by lia; done|].
    rewrite bool_decide_eq_true_2 by lia. rewrite (as_i64_signed false mag); [done|lia..].
Qed.

Lemma mag_of s M :
  0 ≤ M < U128 → (if bool_decide (class (fp_finite s M 0) = Zero) then 0
                  else shl128 (sig (fp_finite s M 0)) (Z.max (exp (fp_finite s M 0)) 0)) = M.
Proof.
  intros HM. unfold fp_finite. destruct (M =? 0) eqn:E; simpl; [lia|].
  rewrite shl128_small, Z.pow_0_r; rewrite ?Z.pow_0_r; lia.
Qed.

(** C37: a conversion to an integer rounds once, in the given mode, and refuses exactly what does
    not fit. For every numeric operand there is the integer its real value rounds to; [to_int]
    returns it when it lies in the signed range of the width asked for, with the inexact flag
    exactly when rounding changed the value, and [None] exactly when it does not fit. *)
Theorem to_int_correct a bits mode :
  numeric 64 a → 1 ≤ bits ≤ 64 →
  ∃ z, rounds_Z mode (val a) z ∧
    match to_int a bits mode with
    | Some (v, fl, _) =>
        v = z ∧ - 2 ^ (bits - 1) ≤ z < 2 ^ (bits - 1) ∧ (has fl INEXACT ↔ val a ≠ IZR z)
    | None => ¬ (- 2 ^ (bits - 1) ≤ z < 2 ^ (bits - 1))
    end.
Proof.
  intros [Hz|Ha] Hb.
  { exists 0. unfold to_int. rewrite Hz, (val_zero a Hz). split; [apply rounds_Z_exact|].
    assert (0 < 2 ^ (bits - 1)) by (apply Z.pow_pos_nonneg; lia).
    split; [done|]. split; [lia|]. split; [|lra]. intros []. done. }
  enough (∃ z fl u, rounds_Z mode (val a) z ∧ (has fl INEXACT ↔ val a ≠ IZR z) ∧
    to_int a bits mode = if bool_decide (- 2 ^ (bits - 1) ≤ z < 2 ^ (bits - 1)) then Some (z, fl, u) else None)
    as (z & fl & u & Hz & Hf & ->).
  { exists z. split; [done|]. by case_bool_decide. }
  pose proof (msb_op 64 a ltac:(lia) Ha) as Hm. unfold to_int. rewrite (o_class _ _ Ha).
  destruct (decide (exp a < 0)) as [He|He].
  - destruct (round_frac_spec a mode Ha He) as (q & r & s & Es & Hq & Hr & Hi).
    set (u := round_decision _ _ _ _ _) in *. exists (signed (sign a) (q + Z.b2z u)), (if r || s then INEXACT else 0), (u && (r || s)).
    split; [done|]. split; [rewrite <-Hi; destruct (r || s); unfold has; vm_compute; intuition congruence|].
    destruct (64 <? lead_exp a) eqn:El; [unfold lead_exp in El; lia|].
    unfold round_to_int. rewrite (o_class _ _ Ha), Es, land1_odd. fold u.
    rewrite (bool_decide_eq_true_2 (Finite = Finite)) by done. destruct (0 <=? exp a) eqn:E0; [lia|]. simpl orb. cbv iota.
    assert (0 ≤ q + Z.b2z u ≤ 2 ^ 64) as Hqu by (destruct u; simpl; lia).
    rewrite Z.mod_small by (unfold U128; lia). cbn [rv flags up].
    rewrite mag_of by (unfold U128; lia). by rewrite to_int_range by lia.
  - assert (0 ≤ exp a) as He0 by lia. exists (signed (sign a) (sig a * 2 ^ exp a)), 0, false.
    assert (val a = IZR (signed (sign a) (sig a * 2 ^ exp a))) as Ev.
    { rewrite (val_sgn 64 a Ha), B_nat by done. destruct (sign a); simpl; rewrite ?opp_IZR, mult_IZR; lra. }
    rewrite Ev. split; [apply rounds_Z_exact|]. split; [split; [intros []; done|lra]|].
    unfold round_to_int. rewrite (o_class _ _ Ha). destruct (0 <=? exp a) eqn:E0; [|lia]. rewrite orb_true_r.
    cbn [rv flags up rexact]. rewrite (o_class _ _ Ha). rewrite bool_decide_eq_false_2 by done.
    rewrite Z.max_l by lia. destruct Ha as [_ Ha Hea]. unfold lead_exp.
    assert (2 ^ (msb (sig a) + exp a) ≤ sig a * 2 ^ exp a < 2 ^ (msb (sig a) + exp a + 1)) as Hsb.
    { pose proof (Z.log2_spec (sig a) ltac:(lia)) as [L1 L2]. unfold msb, Z.succ in *.
      replace (Z.log2 (sig a) + exp a + 1) with (Z.log2 (sig a) + 1 + exp a) by lia.
      rewrite !(Z.pow_add_r 2 _ (exp a)) by lia. assert (0 < 2 ^ exp a) by (apply Z.pow_pos_nonneg; lia). nia. }
    destruct (64 <? exp a + msb (sig a)) eqn:El.
    + assert (2 ^ 64 ≤ 2 ^ (msb (sig a) + exp a)) by (apply Z.pow_le_mono_r; lia).
      assert (2 ^ (bits - 1) ≤ 2 ^ 63) by (apply Z.pow_le_mono_r; lia).
      rewrite bool_decide_eq_false_2; [done|]. unfold signed. destruct (sign a); lia.
    + assert (2 ^ (msb (sig a) + exp a + 1) ≤ 2 ^ 65) by (apply Z.pow_le_mono_r; lia).
      rewrite (shl128_small (sig a)) by (unfold U128; lia). rewrite to_int_range by lia. done.
Qed.

(** Comparison is the order of the reals. For every two numeric operands, zeros of either
    sign included, [compare] answers less, equal or greater as their real values are. *)
Theorem compare_correct a b :
  numeric 64 a → numeric 64 b → ordered (compare a b) (val a) (val b).
Proof.
  intros Ha Hb. unfold compare.
  assert (∀ v, finite_op 64 v → (0 < IZR (sig v) * B (exp v))%R) as Hp.
  { intros v [_ [H0%IZR_lt _] _]. pose proof (B_pos (exp v)). nra. }
  destruct Ha as [Ha|Ha], Hb as [Hb|Hb].
  - rewrite Ha, Hb, !val_zero by done. done.
  - rewrite Ha, (o_class _ _ Hb), (val_zero a Ha), (val_sgn 64 b Hb). specialize (Hp b Hb). unfold magnitude_cmp.
    rewrite Ha, (o_class _ _ Hb). destruct (sign b); simpl; lra.
  - rewrite Hb, (o_class _ _ Ha), (val_zero b Hb), (val_sgn 64 a Ha). specialize (Hp a Ha). unfold magnitude_cmp.
    rewrite Hb, (o_class _ _ Ha). destruct (sign a); simpl; lra.
  - pose proof (magnitude_cmp_spec a b Ha Hb) as Hm. pose proof (Hp a Ha). pose proof (Hp b Hb).
    rewrite (o_class _ _ Ha), (o_class _ _ Hb), (val_sgn 64 a Ha), (val_sgn 64 b Hb). simpl.
    destruct (sign a), (sign b); simpl; [by apply ordered_opp|lra..|done].
Qed.

Lemma compare_correct_witness : numeric 64 (unpack_f64 0x3ff0000000000000) ∧
  ordered (compare (unpack_f64 0x3ff0000000000000) (unpack_f64 0x8000000000000000))
    (val (unpack_f64 0x3ff0000000000000)) (val (unpack_f64 0x8000000000000000)).
Proof.
  assert (numeric 64 (unpack_f64 0x3ff0000000000000)) as H1 by (right; split; [done|vm_compute; done..]).
  split; [exact H1|]. apply (compare_correct (unpack_f64 0x3ff0000000000000)); [exact H1|by left].
Defined.

Lemma to_int_correct_witness :
  ∃ z, rounds_Z Nearest (val (unpack_f64 0x4004000000000000)) z ∧
    match to_int (unpack_f64 0x4004000000000000) 32 Nearest with
    | Some (v, fl, _) => v = z ∧ - 2 ^ (32 - 1) ≤ z < 2 ^ (32 - 1) ∧ (has fl INEXACT ↔ val (unpack_f64 0x4004000000000000) ≠ IZR z)
    | None => ¬ (- 2 ^ (32 - 1) ≤ z < 2 ^ (32 - 1))
    end.
Proof. apply (to_int_correct (unpack_f64 0x4004000000000000) 32 Nearest); [right; split; [done|vm_compute; done..]|lia]. Defined.
