(* ===== verification/SoftPack.v ===== *)
(** Packing and unpacking ([src/vcpu/softfloat.rs]) invert each other, in the three interchange
    formats and in the x87 format, and the SSE operations are correctly rounded on bit patterns. *)
From Stdlib Require Import Reals Lra.
From stdpp Require Import base numbers.
From S2P Require Import Prelude Softfloat SoftReal SoftRound SoftArith.
Local Open Scope Z_scope.

(** * Interchange formats, by their field widths

    [pack_f16], [pack_f32] and [pack_f64] (and the unpackers) are one function of the widths of
    the fraction and exponent fields. *)

Definition bias (eb : Z) : Z := 2 ^ (eb - 1) - 1.
Definition fmt_of (mb eb : Z) : Fmt := mkFmt (mb + 1) (bias eb) (1 - bias eb).

Definition unpack_with (mb eb bits : Z) : Fp :=
  let s := negb (Z.shiftr bits (mb + eb) =? 0) in
  let e := Z.land (Z.shiftr bits mb) (2 ^ eb - 1) in
  let mant := Z.land bits (2 ^ mb - 1) in
  if e =? 2 ^ eb - 1 then if mant =? 0 then fp_inf s else mkFp s Nan (shl128 mant (63 - mb)) 0
  else if e =? 0 then fp_finite s mant (1 - bias eb - mb)
  else fp_finite s (Z.lor mant (2 ^ mb)) (e - (bias eb + mb)).

Definition pack_with (mb eb : Z) (v : Fp) : Z :=
  let W := 2 ^ (mb + eb + 1) in
  let s := Z.shiftl (Z.b2z (sign v)) (mb + eb) in
  match class v with
  | Zero => s
  | Inf => Z.lor s ((2 ^ eb - 1) * 2 ^ mb)
  | Nan => Z.lor (Z.lor s ((2 ^ eb - 1) * 2 ^ mb)) (Z.land (shr128 (sig v) (63 - mb) mod W) (2 ^ mb - 1))
  | Finite =>
    let '(m, e) := justify v (mb + 1) in
    if e <? 1 - bias eb then Z.lor s (Z.land (shl128 (sig v) (exp v + (bias eb + mb - 1)) mod W) (2 ^ mb - 1))
    else Z.lor (Z.lor s (Z.shiftl ((e + bias eb) mod W) mb mod W)) (Z.land (m mod W) (2 ^ mb - 1))
  end.

Lemma unpack_f16_with bits : unpack_f16 bits = unpack_with 10 5 bits.
Proof. reflexivity. Qed.
Lemma unpack_f32_with bits : unpack_f32 bits = unpack_with 23 8 bits.
Proof. reflexivity. Qed.
Lemma unpack_f64_with bits : unpack_f64 bits = unpack_with 52 11 bits.
Proof. reflexivity. Qed.
Lemma pack_f16_with v : pack_f16 v = pack_with 10 5 v.
Proof. reflexivity. Qed.
Lemma pack_f32_with v : pack_f32 v = pack_with 23 8 v.
Proof. reflexivity. Qed.
Lemma pack_f64_with v : pack_f64 v = pack_with 52 11 v.
Proof. reflexivity. Qed.

Section widths.
Context (mb eb : Z).
Hypothesis Hw : 1 ≤ mb ≤ 52 ∧ 2 ≤ eb ≤ 11.

Definition fields (s : bool) (e mant : Z) : Z := Z.b2z s * 2 ^ (mb + eb) + e * 2 ^ mb + mant.

Lemma pows : 0 < 2 ^ mb ∧ 0 < 2 ^ eb ∧ 2 ^ (mb + eb) = 2 ^ eb * 2 ^ mb ∧ 2 ^ (mb + eb + 1) = 2 * (2 ^ eb * 2 ^ mb)
  ∧ 2 ^ eb = 2 * (bias eb + 1) ∧ 1 ≤ bias eb ∧ 2 ^ (mb + eb + 1) ≤ 2 ^ 64.
Proof.
  assert (0 < 2 ^ mb) by (apply Z.pow_pos_nonneg; lia). assert (0 < 2 ^ eb) by (apply Z.pow_pos_nonneg; lia).
  assert (2 ^ 1 ≤ 2 ^ (eb - 1)) by (apply Z.pow_le_mono_r; lia). unfold bias.
  rewrite (Z.pow_add_r 2 (mb + eb) 1), Z.pow_add_r by lia. rewrite (pow_S eb) at 6 by lia.
  split_and!; try lia. rewrite <-(Z.pow_add_r 2 mb eb), <-(Z.pow_add_r 2 (mb + eb) 1) by lia.
  apply Z.pow_le_mono_r; lia.
Qed.

Lemma fields_lor s e mant :
  0 ≤ e < 2 ^ eb → 0 ≤ mant < 2 ^ mb →
  Z.lor (Z.lor (Z.shiftl (Z.b2z s) (mb + eb)) (e * 2 ^ mb)) mant = fields s e mant.
Proof.
  intros He Hm. pose proof pows as (P1 & P2 & P3 & _). unfold fields. rewrite Z.shiftl_mul_pow2 by lia.
  rewrite (lor_add_aligned (_ * _) (e * _) (mb + eb)); [|lia|apply Z.mod_mul; lia|nia].
  apply (lor_add_aligned _ _ mb); [lia| |done]. rewrite P3.
  replace (Z.b2z s * (2 ^ eb * 2 ^ mb) + e * 2 ^ mb) with ((Z.b2z s * 2 ^ eb + e) * 2 ^ mb) by lia.
  apply Z.mod_mul. lia.
Qed.

(** Every bit pattern is its fields. *)
Lemma fields_surj bits :
  0 ≤ bits < 2 ^ (mb + eb + 1) → ∃ s e mant, bits = fields s e mant ∧ 0 ≤ e < 2 ^ eb ∧ 0 ≤ mant < 2 ^ mb.
Proof.
  intros Hb. pose proof pows as (P1 & P2 & P3 & P4 & _).
  pose proof (Z.div_mod bits (2 ^ mb) ltac:(lia)) as D1. pose proof (Z.mod_pos_bound bits (2 ^ mb) ltac:(lia)) as M1.
  pose proof (Z.div_mod (bits / 2 ^ mb) (2 ^ eb) ltac:(lia)) as D2. pose proof (Z.mod_pos_bound (bits / 2 ^ mb) (2 ^ eb) ltac:(lia)) as M2.
  set (h := bits / 2 ^ mb) in *. set (t := h / 2 ^ eb) in *.
  assert (t = 0 ∨ t = 1) as Ht by nia.
  exists (t =? 1), (h mod 2 ^ eb), (bits mod 2 ^ mb). split_and!; try lia.
  unfold fields. rewrite P3. assert (Z.b2z (t =? 1) = t) as -> by (destruct Ht as [-> | ->]; done). nia.
Qed.

Lemma unpack_fields s e mant :
  0 ≤ e < 2 ^ eb → 0 ≤ mant < 2 ^ mb →
  unpack_with mb eb (fields s e mant) =
    if e =? 2 ^ eb - 1 then if mant =? 0 then fp_inf s else mkFp s Nan (mant * 2 ^ (63 - mb)) 0
    else if e =? 0 then fp_finite s mant (1 - bias eb - mb)
    else fp_finite s (2 ^ mb + mant) (e - (bias eb + mb)).
Proof.
  intros He Hm. pose proof pows as (P1 & P2 & P3 & P4 & P5 & P6 & P7). unfold unpack_with, fields.
  assert (∀ x n, 0 ≤ n → Z.land x (2 ^ n - 1) = x mod 2 ^ n) as Hl
    by (intros x n Hn; rewrite <-Z.land_ones by done; f_equal; rewrite Z.ones_equiv; lia).
  rewrite !Hl, !Z.shiftr_div_pow2 by lia. rewrite !P3.
  replace (Z.b2z s * (2 ^ eb * 2 ^ mb) + e * 2 ^ mb + mant) with (mant + (Z.b2z s * 2 ^ eb + e) * 2 ^ mb) by lia.
  rewrite Z.mod_add, (Z.mod_small mant) by lia. rewrite (Z.mul_comm (2 ^ eb)), <-Z.div_div by lia.
  rewrite Z.div_add, (Z.div_small mant), Z.add_0_l by lia.
  rewrite Z.add_comm, Z.div_add, (Z.div_small e), Z.mod_add, (Z.mod_small e), Z.add_0_l by lia.
  assert (negb (Z.b2z s =? 0) = s) as -> by (by destruct s).
  rewrite shl128_small; [|lia|lia|].
  - rewrite Z.lor_comm, (lor_add_aligned _ _ mb); [done|lia|apply Z.mod_same; lia|done].
  - assert (2 ^ 63 = 2 ^ mb * 2 ^ (63 - mb)) as E by (rewrite <-Z.pow_add_r by lia; f_equal; lia).
    assert (0 < 2 ^ (63 - mb)) by (apply Z.pow_pos_nonneg; lia). unfold U128. nia.
Qed.

(** Packing a finite value, by its leading exponent. *)
Lemma pack_subnormal v :
  class v = Finite → 0 < sig v → lead_exp v < 1 - bias eb → 1 - bias eb - mb ≤ exp v →
  ∃ mant, pack_with mb eb v = fields (sign v) 0 mant ∧ 0 < mant < 2 ^ mb ∧
    mant = sig v * 2 ^ (exp v - (1 - bias eb - mb)).
Proof.
  intros Hc Hs Hle Hex. pose proof pows as (P1 & P2 & P3 & P4 & P5 & P6 & P7). unfold lead_exp, msb in Hle.
  pose proof (Z.log2_spec (sig v) Hs) as [_ HL]. pose proof (Z.log2_nonneg (sig v)).
  set (d := exp v - (1 - bias eb - mb)). assert (0 ≤ d) by lia.
  assert (sig v * 2 ^ d < 2 ^ mb) as Hlt.
  { apply (Z.lt_le_trans _ (2 ^ Z.succ (Z.log2 (sig v)) * 2 ^ d)).
    - apply Z.mul_lt_mono_pos_r; [apply Z.pow_pos_nonneg; lia|done].
    - rewrite <-Z.pow_add_r by lia. apply Z.pow_le_mono_r; lia. }
  assert (0 < 2 ^ d) by (apply Z.pow_pos_nonneg; lia). assert (0 < sig v * 2 ^ d) by lia.
  exists (sig v * 2 ^ d). split; [|done]. unfold pack_with, justify. rewrite Hc. unfold msb.
  destruct (_ <? 1 - bias eb) eqn:E; [|lia].
  assert (2 ^ mb ≤ 2 ^ 52) by (apply Z.pow_le_mono_r; lia).
  replace (exp v + (bias eb + mb - 1)) with d by lia. rewrite shl128_small; [|lia| |unfold U128; lia].
  2: { split; [done|]. apply (Z.pow_lt_mono_r_iff 2); [lia..|]. assert (2 ^ d ≤ sig v * 2 ^ d) by nia. lia. }
  rewrite (Z.mod_small (sig v * 2 ^ d)) by nia.
  replace (2 ^ mb - 1) with (Z.ones mb) by (rewrite Z.ones_equiv; lia). rewrite Z.land_ones, Z.mod_small by lia.
  pose proof (fields_lor (sign v) 0 (sig v * 2 ^ d) ltac:(lia) ltac:(lia)) as Hf.
  rewrite Z.mul_0_l, Z.lor_0_r in Hf. exact Hf.
Qed.

Lemma pack_normal v :
  class v = Finite → 0 < sig v < 2 ^ (mb + 1) → 1 - bias eb ≤ lead_exp v ≤ bias eb →
  ∃ mant, pack_with mb eb v = fields (sign v) (lead_exp v + bias eb) mant ∧ 0 ≤ mant < 2 ^ mb ∧
    2 ^ mb + mant = sig v * 2 ^ (mb - msb (sig v)).
Proof.
  intros Hc Hs Hle. pose proof pows as (P1 & P2 & P3 & P4 & P5 & P6 & P7). unfold lead_exp in *.
  assert (0 ≤ msb (sig v) < mb + 1) as HL by (split; [apply Z.log2_nonneg|apply Z.log2_lt_pow2; lia]).
  destruct (shl_top (sig v) mb ltac:(lia) ltac:(lia)) as [E1 Hb]. set (M := sig v * 2 ^ (mb - msb (sig v))) in *.
  rewrite Z.pow_add_r in Hb by lia.
  exists (M - 2 ^ mb). split; [|lia]. unfold pack_with, justify. rewrite Hc.
  replace (mb + 1 - 1 - msb (sig v)) with (mb - msb (sig v)) by lia. rewrite E1.
  destruct (msb (sig v) <? mb + 1) eqn:E; [|lia]. destruct (_ <? 1 - bias eb) eqn:E2; [lia|].
  set (ee := exp v + msb (sig v) + bias eb) in *. rewrite (Z.mod_small ee), (Z.shiftl_mul_pow2 ee) by nia.
  rewrite (Z.mod_small (ee * 2 ^ mb)) by nia. rewrite (Z.mod_small M) by nia.
  replace (2 ^ mb - 1) with (Z.ones mb) by (rewrite Z.ones_equiv; lia). rewrite Z.land_ones by lia.
  replace (M mod 2 ^ mb) with (M - 2 ^ mb) by (replace M with (M - 2 ^ mb + 1 * 2 ^ mb) at 2 by lia;
    rewrite Z.mod_add, Z.mod_small by lia; done).
  apply fields_lor; lia.
Qed.

Lemma pack_unpack_with bits :
  0 ≤ bits < 2 ^ (mb + eb + 1) → pack_with mb eb (unpack_with mb eb bits) = bits.
Proof.
  intros Hb. destruct (fields_surj bits Hb) as (s & e & mant & -> & He & Hm). rewrite unpack_fields by done.
  pose proof pows as (P1 & P2 & P3 & P4 & P5 & P6 & P7).
  assert (∀ s e, 0 ≤ e < 2 ^ eb → Z.lor (Z.shiftl (Z.b2z s) (mb + eb)) (e * 2 ^ mb) = fields s e 0) as Hf0
    by (intros; rewrite <-fields_lor, Z.lor_0_r by lia; done).
  destruct (e =? 2 ^ eb - 1) eqn:E1.
  - assert (e = 2 ^ eb - 1) as -> by lia. destruct (mant =? 0) eqn:E2.
    + assert (mant = 0) as -> by lia. apply Hf0. lia.
    + unfold pack_with; simpl. unfold shr128. rewrite (Z.mod_small (63 - mb)), Z.shiftr_div_pow2, Z.div_mul
        by (try apply Z.pow_nonzero; lia).
      rewrite (Z.mod_small mant) by nia. replace (2 ^ mb - 1) with (Z.ones mb) by (rewrite Z.ones_equiv; lia).
      rewrite Z.land_ones, Z.mod_small by lia. by apply fields_lor.
  - destruct (e =? 0) eqn:E2.
    + assert (e = 0) as -> by lia. unfold fp_finite. destruct (mant =? 0) eqn:E3.
      * assert (mant = 0) as -> by lia. unfold pack_with; simpl. rewrite <-(Hf0 s 0), Z.mul_0_l, Z.lor_0_r by lia. done.
      * destruct (pack_subnormal (mkFp s Finite mant (1 - bias eb - mb))) as (m' & -> & _ & E);
          [done|simpl; lia| |simpl; lia|].
        { unfold lead_exp, msb; simpl. assert (Z.log2 mant < mb) by (apply Z.log2_lt_pow2; lia). lia. }
        simpl in *. replace (1 - bias eb - mb - (1 - bias eb - mb)) with 0 in E by lia. f_equal. lia.
    + unfold fp_finite. destruct (2 ^ mb + mant =? 0) eqn:E3; [lia|].
      assert (Z.log2 (2 ^ mb + mant) = mb) as EL by (apply Z.log2_unique; [lia|rewrite Z.pow_succ_r by lia; lia]).
      destruct (pack_normal (mkFp s Finite (2 ^ mb + mant) (e - (bias eb + mb)))) as (m' & -> & _ & E);
        [done|simpl; rewrite Z.pow_add_r by lia; lia|unfold lead_exp, msb; simpl; lia|].
      unfold lead_exp, msb in *; simpl in *. rewrite EL in *. replace (mb - mb) with 0 in E by lia. f_equal; lia.
Qed.

(** A value a rounding returned survives the encoding. *)
Lemma unpack_pack_value v :
  class v = Finite → 0 < sig v < 2 ^ (mb + 1) → 1 - bias eb - mb ≤ exp v → lead_exp v ≤ bias eb →
  val (unpack_with mb eb (pack_with mb eb v)) = val v ∧ sign (unpack_with mb eb (pack_with mb eb v)) = sign v ∧
  class (unpack_with mb eb (pack_with mb eb v)) = Finite.
Proof.
  intros Hc Hs Hex Hle. pose proof pows as (P1 & P2 & P3 & P4 & P5 & P6 & P7).
  destruct (decide (lead_exp v < 1 - bias eb)) as [Hlt|Hge].
  - destruct (pack_subnormal v) as (mant & -> & Hm & Em); [done|lia|done..|]. rewrite unpack_fields by lia.
    destruct (0 =? 2 ^ eb - 1) eqn:E1; [lia|]. rewrite Z.eqb_refl. unfold fp_finite. destruct (mant =? 0) eqn:E2; [lia|].
    split; [|done]. unfold val; simpl. rewrite Hc, Em, mult_IZR.
    rewrite (B_sub (1 - bias eb - mb) (exp v)) by lia. lra.
  - destruct (pack_normal v) as (mant & -> & Hm & Em); [done..|lia|]. rewrite unpack_fields by lia.
    destruct (_ =? 2 ^ eb - 1) eqn:E1; [lia|]. destruct (_ =? 0) eqn:E2; [lia|].
    unfold fp_finite. destruct (2 ^ mb + mant =? 0) eqn:E3; [lia|]. split; [|done].
    assert (0 ≤ msb (sig v) < mb + 1) as HL by (split; [apply Z.log2_nonneg|apply Z.log2_lt_pow2; lia]).
    unfold val; simpl. rewrite Hc, Em, mult_IZR. unfold lead_exp in *.
    replace (exp v + msb (sig v) + bias eb - (bias eb + mb)) with (exp v + msb (sig v) - mb) by lia.
    rewrite (B_sub (exp v + msb (sig v) - mb) (exp v)) by lia.
    replace (exp v - (exp v + msb (sig v) - mb)) with (mb - msb (sig v)) by lia. lra.
Qed.

Lemma unpack_op bits :
  0 ≤ bits < 2 ^ (mb + eb + 1) → class (unpack_with mb eb bits) = Finite → finite_op 64 (unpack_with mb eb bits).
Proof.
  intros Hb. destruct (fields_surj bits Hb) as (s & e & mant & -> & He & Hm). rewrite unpack_fields by done.
  pose proof pows as (P1 & P2 & P3 & P4 & P5 & P6 & P7).
  assert (2 ^ mb ≤ 2 ^ 52) by (apply Z.pow_le_mono_r; lia). assert (2 ^ eb ≤ 2 ^ 11) by (apply Z.pow_le_mono_r; lia).
  destruct (e =? 2 ^ eb - 1); [destruct (mant =? 0); done|].
  destruct (e =? 0); unfold fp_finite; [destruct (mant =? 0) eqn:E|destruct (2 ^ mb + mant =? 0) eqn:E]; try done;
    intros _; split; simpl; [done|lia..|done|lia|lia].
Qed.

Lemma unpack_pack v :
  class v ≠ Nan → shaped (fmt_of mb eb) v →
  let w := unpack_with mb eb (pack_with mb eb v) in class w = class v ∧ sign w = sign v ∧ val w = val v.
Proof.
  intros Hn Hs. pose proof pows as (P1 & P2 & P3 & P4 & P5 & P6 & P7).
  assert (∀ s e, 0 ≤ e < 2 ^ eb → Z.lor (Z.shiftl (Z.b2z s) (mb + eb)) (e * 2 ^ mb) = fields s e 0) as Hf0
    by (intros; rewrite <-fields_lor, Z.lor_0_r by lia; done).
  destruct (class v) eqn:Hc; [| | |done]; intros w.
  - assert (pack_with mb eb v = fields (sign v) 0 0) as E.
    { unfold pack_with. rewrite Hc. rewrite <-(Hf0 (sign v) 0), Z.mul_0_l, Z.lor_0_r by lia. done. }
    subst w. rewrite E, unpack_fields by lia. destruct (0 =? 2 ^ eb - 1) eqn:E1; [lia|]. simpl.
    split_and!; [done..|]. unfold val; simpl. by rewrite Hc.
  - destruct (Hs Hc) as (H1 & H2 & H3). simpl in *. destruct (unpack_pack_value v) as (V1 & V2 & V3); [done|done|lia|done|].
    subst w. by rewrite V1, V2, V3.
  - assert (pack_with mb eb v = fields (sign v) (2 ^ eb - 1) 0) as E.
    { unfold pack_with. rewrite Hc. apply Hf0. lia. }
    subst w. rewrite E, unpack_fields, Z.eqb_refl by lia. simpl. split_and!; [done..|]. unfold val; simpl. by rewrite Hc.
Qed.
End widths.

(** * SSE arithmetic on bit patterns *)

Definition real_op (op : Op) (x y : R) : R :=
  match op with Add => (x + y)%R | Sub => (x - y)%R | Mul => (x * y)%R | Div => (x / y)%R end.

Definition arith (op : Op) (a b : Fp) (f : Fmt) (mode : Round) : Rounded :=
  match op with
  | Add => add a b f mode
  | Sub => add a (fp_neg b) f mode
  | Mul => mul a b f mode
  | Div => div a b f mode
  end.

Lemma arith_correct op a b f mode :
  fmt_ok f → finite_op 64 a → finite_op 64 b → correct_sum f mode (real_op op (val a) (val b)) (arith op a b f mode).
Proof.
  intros Hf Ha Hb. pose proof (val_neq_0 _ _ Ha). pose proof (val_neq_0 _ _ Hb). destruct op; simpl.
  - apply add_correct; [done|by right..|by left; apply (o_class _ _ Ha)].
  - unfold Rminus. rewrite <-val_neg. apply add_correct; [done|by right| |by left; apply (o_class _ _ Ha)].
    right. by destruct Hb; split.
  - split; [intros _; by apply mul_correct|]. intros E. apply Rmult_integral in E. tauto.
  - split; [intros _; by apply div_correct|]. intros E. apply Rmult_integral in E as [?|E]; [tauto|].
    by apply Rinv_neq_0_compat in E.
Qed.

Lemma rounds_same f mode x v w :
  class w = class v → sign w = sign v → val w = val v → rounds f mode x v → rounds f mode x w.
Proof.
  intros E1 E2 E3. unfold rounds, nearest, lower, upper. rewrite E1, E2, E3. done.
Qed.

(** Or-ing in the denormal-operand flag leaves the other flags as they are. *)
Lemma has_lor fl d bit : Z.land d bit = 0 → has (Z.lor fl d) bit ↔ has fl bit.
Proof. intros E. unfold has. by rewrite Z.land_lor_distr_l, E, Z.lor_0_r. Qed.

Lemma rounds_not_nan f mode x v : rounds f mode x v → class v ≠ Nan.
Proof.
  intros H E. unfold rounds, nearest, lower, upper in H. rewrite E in H. destruct mode; try done.
  destruct H as [H1 H2], (Rle_or_lt 0 x); [by apply H1|apply H2; lra].
Qed.

(** What an SSE operation on the bit patterns [a] and [b] of two finite nonzero numbers, with
    denormals honoured, must return: the pattern of the correctly rounded result, and the flags. *)
Definition sse_correct (f : Fmt) (unpack : Z → Fp) (pack : Fp → Z) (op : Op) (mx : Mx) (a b : Z) : Prop :=
  let x := real_op op (val (unpack a)) (val (unpack b)) in
  let '(v, fl) := sse_arith op (unpack a) (unpack b) f mx in
  let r := unpack (pack v) in
  (x ≠ 0%R →
     rounds f (mx_mode mx) x r ∧ sign r = negative x ∧
     (has fl INEXACT ↔ class r = Inf ∨ val r ≠ x) ∧ (has fl OVERFLOW ↔ overflows f (mx_mode mx) x) ∧
     (has fl UNDERFLOW ↔ is_tiny_real f (mx_mode mx) x ∧ val r ≠ x)) ∧
  (x = 0%R → class r = Zero ∧ sign r = bool_decide (mx_mode mx = Down) ∧
     ¬ has fl (Z.lor INEXACT (Z.lor OVERFLOW UNDERFLOW))) ∧
  (has fl DENORMAL ↔ is_denormal (unpack a) f = true ∨ is_denormal (unpack b) f = true) ∧
  ¬ has fl (Z.lor INVALID DIVZERO).

Lemma mx_input_id mx v f : daz mx = false → mx_input mx v f = (v, if is_denormal v f then DENORMAL else 0).
Proof. intros E. unfold mx_input. rewrite E. by destruct (is_denormal v f). Qed.
Lemma mx_output_id mx r : ftz mx = false → mx_output mx r = (rv r, flags r).
Proof. intros E. unfold mx_output. by rewrite E. Qed.

Lemma denormal_flags fl (da db : bool) :
  Z.land fl (Z.lor INVALID (Z.lor DENORMAL DIVZERO)) = 0 →
  let r := Z.lor (Z.lor fl (if da then DENORMAL else 0)) (if db then DENORMAL else 0) in
  (∀ bit, Z.land DENORMAL bit = 0 → has r bit ↔ has fl bit) ∧ (has r DENORMAL ↔ da = true ∨ db = true) ∧
  ¬ has r (Z.lor INVALID DIVZERO).
Proof.
  intros Hz r.
  assert (∀ bit, Z.land DENORMAL bit = 0 → has r bit ↔ has fl bit) as H1.
  { intros bit Hb. unfold r. rewrite !has_lor; [done|destruct da; [exact Hb|apply Z.land_0_l]|destruct db; [exact Hb|apply Z.land_0_l]]. }
  assert (∀ b, Z.land b (Z.lor INVALID (Z.lor DENORMAL DIVZERO)) = b → Z.land fl b = 0) as Hsub.
  { intros b Hb. rewrite <-Hb, (Z.land_comm b), Z.land_assoc, Hz. done. }
  split_and!; [done| |rewrite H1 by done; intros Hh; apply Hh, Hsub; done].
  unfold has, r. rewrite !Z.land_lor_distr_l, (Hsub DENORMAL) by done.
  destruct da, db; vm_compute; intuition congruence.
Qed.

Lemma sse_correct_with mb eb op mx a b :
  1 ≤ mb ≤ 52 ∧ 2 ≤ eb ≤ 11 → daz mx = false → ftz mx = false →
  0 ≤ a < 2 ^ (mb + eb + 1) → 0 ≤ b < 2 ^ (mb + eb + 1) →
  class (unpack_with mb eb a) = Finite → class (unpack_with mb eb b) = Finite →
  sse_correct (fmt_of mb eb) (unpack_with mb eb) (pack_with mb eb) op mx a b.
Proof.
  intros Hw Hd Hz Ha Hb Ca Cb. unfold sse_correct, sse_arith.
  assert (fmt_ok (fmt_of mb eb)) as Hf by (pose proof (pows mb eb Hw); split; simpl; lia).
  pose proof (unpack_op mb eb Hw a Ha Ca) as Oa. pose proof (unpack_op mb eb Hw b Hb Cb) as Ob.
  set (va := unpack_with mb eb a) in *. set (vb := unpack_with mb eb b) in *.
  unfold sse_nan2, is_nan. rewrite Ca, Cb. simpl. rewrite !mx_input_id by done.
  destruct (arith_correct op va vb (fmt_of mb eb) (mx_mode mx) Hf Oa Ob) as [Hc1 Hc0]. fold (arith op va vb (fmt_of mb eb) (mx_mode mx)).
  set (R := arith _ _ _ _ _) in *. set (x := real_op _ _ _) in *. rewrite mx_output_id by done.
  set (da := is_denormal va _). set (db := is_denormal vb _).
  assert (Z.land (flags R) (Z.lor INVALID (Z.lor DENORMAL DIVZERO)) = 0 ∧ (x = 0%R → flags R = 0)) as [Hfl Hfl0].
  { destruct (Req_dec x 0) as [E|E]; [rewrite (Hc0 E); done|]. split; [apply (c_invalid _ _ _ _ (Hc1 E))|done]. }
  destruct (denormal_flags _ da db Hfl) as (F1 & F2 & F3). split_and!; [| |done|done].
  - intros Hx. specialize (Hc1 Hx). destruct Hc1 as [C1 C2 C3 C4 C5 _ _ _ C9].
    destruct (unpack_pack mb eb Hw (rv R)) as (U1 & U2 & U3); [by eapply rounds_not_nan|done|].
    rewrite !F1, U1, U2, U3 by done. split_and!; [|done..]. by eapply rounds_same.
  - intros Hx. rewrite F1 by done. rewrite (Hfl0 Hx), (Hc0 Hx). simpl rv.
    destruct (unpack_pack mb eb Hw (fp_zero (bool_decide (mx_mode mx = Down)))) as (U1 & U2 & _); [done|done|].
    rewrite U1, U2. split_and!; [done..|]. unfold has. by intros [].
Qed.

(** C9: SSE arithmetic is bit exact. For any two finite nonzero single- or double-precision
    patterns, in any rounding mode, the pattern the operation returns is that of the IEEE
    correctly rounded exact sum, difference, product or quotient (overflow to infinity or to the
    largest value and gradual underflow included), with its sign; an exactly zero result has the
    sign the mode gives; and the inexact, overflow, underflow and denormal-operand flags are
    raised exactly when IEEE says, underflow on tininess after rounding. *)
Theorem sse_arith_correct op mx a b :
  daz mx = false → ftz mx = false →
  (0 ≤ a < U64 → 0 ≤ b < U64 → class (unpack_f64 a) = Finite → class (unpack_f64 b) = Finite →
   sse_correct FMT64 unpack_f64 pack_f64 op mx a b) ∧
  (0 ≤ a < U32 → 0 ≤ b < U32 → class (unpack_f32 a) = Finite → class (unpack_f32 b) = Finite →
   sse_correct FMT32 unpack_f32 pack_f32 op mx a b).
Proof.
  intros Hd Hz. split; intros; [apply (sse_correct_with 52 11)|apply (sse_correct_with 23 8)]; done || lia.
Qed.

Definition mx_default : Mx := from_mxcsr 0x1f80.

Lemma sse_arith_correct_witness :
  class (unpack_f64 0x3fb999999999999a) = Finite ∧
  sse_correct FMT64 unpack_f64 pack_f64 Softfloat.Add mx_default 0x3fb999999999999a 0x3fc999999999999a.
Proof.
  split; [reflexivity|].
  destruct (sse_arith_correct Softfloat.Add mx_default 0x3fb999999999999a 0x3fc999999999999a eq_refl eq_refl) as [H _].
  apply H; [unfold U64; lia..|reflexivity|reflexivity].
Defined.

(** * The x87 format *)

Definition f80_fields (s : bool) (e m : Z) : Z := Z.b2z s * 2 ^ 79 + e * 2 ^ 64 + m.

Lemma f80_lor s e m : 0 ≤ e < 2 ^ 15 → 0 ≤ m < 2 ^ 64 →
  Z.lor (Z.lor (Z.shiftl (Z.b2z s) 79) (e * 2 ^ 64)) m = f80_fields s e m.
Proof.
  intros He Hm. unfold f80_fields. rewrite Z.shiftl_mul_pow2 by lia.
  rewrite (lor_add_aligned (_ * _) (e * _) 79); [|lia|apply Z.mod_mul; lia|lia].
  apply (lor_add_aligned _ _ 64); [lia| |done].
  replace (Z.b2z s * 2 ^ 79 + e * 2 ^ 64) with ((Z.b2z s * 2 ^ 15 + e) * 2 ^ 64) by lia. apply Z.mod_mul. lia.
Qed.

Lemma f80_surj bits : 0 ≤ bits < 2 ^ 80 →
  ∃ s e m, bits = f80_fields s e m ∧ 0 ≤ e < 2 ^ 15 ∧ 0 ≤ m < 2 ^ 64 ∧
    (Z.shiftr bits 79 = Z.b2z s) ∧ Z.land (Z.shiftr bits 64) 0x7fff = e ∧ Z.land bits 0xffffffffffffffff = m.
Proof.
  intros Hb. exists (bits / 2 ^ 79 =? 1), (bits / 2 ^ 64 mod 2 ^ 15), (bits mod 2 ^ 64).
  change 0x7fff with (Z.ones 15). change 0xffffffffffffffff with (Z.ones 64). rewrite !Z.land_ones, !Z.shiftr_div_pow2 by lia.
  pose proof (Z.div_mod bits (2 ^ 64) ltac:(lia)) as D1. pose proof (Z.mod_pos_bound bits (2 ^ 64) ltac:(lia)) as M1.
  pose proof (Z.div_mod (bits / 2 ^ 64) (2 ^ 15) ltac:(lia)) as D2. pose proof (Z.mod_pos_bound (bits / 2 ^ 64) (2 ^ 15) ltac:(lia)) as M2.
  rewrite Z.div_div in D2 by lia. change (2 ^ 64 * 2 ^ 15) with (2 ^ 79) in D2.
  assert (bits / 2 ^ 79 = 0 ∨ bits / 2 ^ 79 = 1) as Ht by lia.
  assert (Z.b2z (bits / 2 ^ 79 =? 1) = bits / 2 ^ 79) as Et by (destruct Ht as [-> | ->]; done).
  unfold f80_fields. rewrite Et. split_and!; lia.
Qed.

(** The explicit integer bit. *)
Lemma f80_int_bit bits m : Z.land bits 0xffffffffffffffff = m → Z.testbit bits 63 = (2 ^ 63 <=? m).
Proof.
  intros E3. change 0xffffffffffffffff with (Z.ones 64) in *. rewrite Z.land_ones in E3 by lia.
  pose proof (Z.mod_pos_bound bits (2 ^ 64) ltac:(lia)). rewrite <-(Z.mod_pow2_bits_low bits 64), E3 by lia.
  destruct (2 ^ 63 <=? m) eqn:E.
  - apply Z.testbit_true; [lia|]. replace m with (m - 2 ^ 63 + 1 * 2 ^ 63) by lia. by rewrite Z.div_add, Z.div_small by lia.
  - apply Z.testbit_false; [lia|]. by rewrite Z.div_small by lia.
Qed.

Lemma pack_f80_special s x : 0 ≤ x < 2 ^ 63 →
  pack_f80 (if x =? 0 then fp_inf s else mkFp s Nan x 0) = f80_fields s 0x7fff (2 ^ 63 + x).
Proof.
  intros Hx.
  assert (Z.lor (Z.lor (Z.lor (Z.shiftl (Z.b2z s) 79) (Z.shiftl 0x7fff 64)) (2 ^ 63)) x = f80_fields s 0x7fff (2 ^ 63 + x)) as Hl.
  { change (Z.shiftl 0x7fff 64) with (0x7fff * 2 ^ 64).
    rewrite <-Z.lor_assoc, (lor_add_aligned (2 ^ 63) x 63); [apply f80_lor; lia|lia|done|done]. }
  unfold pack_f80. destruct (x =? 0) eqn:E; cbn [class sign sig fp_inf].
  - assert (x = 0) as -> by lia. by rewrite Z.lor_0_r in Hl.
  - change 0x7fffffffffffffff with (Z.ones 63). by rewrite Z.land_ones, Z.mod_small, Hl by lia.
Qed.

Lemma pack_f80_denormal s m : 0 ≤ m < 2 ^ 63 → pack_f80 (fp_finite s m (-16445)) = f80_fields s 0 m.
Proof.
  intros Hm. rewrite <-f80_lor, Z.mul_0_l, Z.lor_0_r by lia. unfold fp_finite. destruct (m =? 0) eqn:Em.
  { assert (m = 0) as -> by lia. by rewrite Z.lor_0_r. }
  unfold pack_f80, justify, msb. cbn [class sign sig exp].
  assert (Z.log2 m < 63) by (apply Z.log2_lt_pow2; lia).
  destruct (_ <? emin FMT80) eqn:E; [|simpl in E; lia].
  rewrite shl128_small, Z.pow_0_r, Z.mul_1_r by (rewrite ?Z.pow_0_r; unfold U128; lia).
  change 0xffffffffffffffff with (Z.ones 64). by rewrite Z.land_ones, Z.mod_small by lia.
Qed.

Lemma pack_f80_normal s e m : 0 < e < 0x7fff → 2 ^ 63 ≤ m < 2 ^ 64 → pack_f80 (fp_finite s m (e - 16446)) = f80_fields s e m.
Proof.
  intros He Hm. unfold fp_finite. destruct (m =? 0) eqn:Em; [lia|].
  unfold pack_f80, justify, msb. cbn [class sign sig exp].
  assert (Z.log2 m = 63) as -> by (apply Z.log2_unique; [lia|change (2 ^ Z.succ 63) with (2 ^ 64); lia]).
  destruct (_ <? emin FMT80) eqn:E; [simpl in E; lia|]. change (63 <? 64) with true. cbv iota.
  rewrite (shl128_small m), Z.pow_0_r, Z.mul_1_r by (rewrite ?Z.pow_0_r; unfold U128; lia).
  rewrite (Z.mod_small (_ + _)) by (unfold U128; lia). rewrite shl128_small by (unfold U128; lia).
  rewrite f80_lor by lia. f_equal. lia.
Qed.

Lemma pack_unpack_f80 bits :
  0 ≤ bits < 2 ^ 80 →
  (Z.testbit bits 63 = true ↔ Z.land (Z.shiftr bits 64) 0x7fff ≠ 0) → pack_f80 (unpack_f80 bits) = bits.
Proof.
  intros Hb Hint. destruct (f80_surj bits Hb) as (s & e & m & Eb & He & Hm & E1 & E2 & E3).
  rewrite E2, (f80_int_bit _ _ E3), Z.leb_le in Hint. unfold unpack_f80. rewrite E1, E2, E3.
  assert (negb (Z.land (Z.b2z s) 1 =? 0) = s) as -> by (by destruct s).
  change 0x7fffffffffffffff with (Z.ones 63). rewrite Z.land_ones by lia. rewrite Eb.
  destruct (e =? 0x7fff) eqn:Ee; [|destruct (e =? 0) eqn:E0].
  - assert (e = 0x7fff) as -> by lia. assert (2 ^ 63 ≤ m) as H63 by (apply Hint; lia).
    replace (m mod 2 ^ 63) with (m - 2 ^ 63).
    + rewrite pack_f80_special by lia. f_equal. lia.
    + replace m with (m - 2 ^ 63 + 1 * 2 ^ 63) at 2 by lia. by rewrite Z.mod_add, Z.mod_small by lia.
  - assert (e = 0) as -> by lia. apply pack_f80_denormal. lia.
  - apply pack_f80_normal; [lia|]. split; [apply Hint; lia|lia].
Qed.

(** Encoding inverts decoding. Every half-, single- and double-precision bit pattern, NaNs
    with their payloads, infinities, zeros and subnormals included, packs back to itself after
    unpacking; so does every x87 pattern whose integer bit agrees with its exponent field (all
    but the unsupported encodings and pseudo-denormals). *)
Theorem pack_unpack_roundtrip bits :
  (0 ≤ bits < U16 → pack_f16 (unpack_f16 bits) = bits) ∧
  (0 ≤ bits < U32 → pack_f32 (unpack_f32 bits) = bits) ∧
  (0 ≤ bits < U64 → pack_f64 (unpack_f64 bits) = bits) ∧
  (0 ≤ bits < 2 ^ 80 → (Z.testbit bits 63 = true ↔ Z.land (Z.shiftr bits 64) 0x7fff ≠ 0) →
   pack_f80 (unpack_f80 bits) = bits).
Proof.
  split_and!; [intros; apply (pack_unpack_with 10 5)|intros; apply (pack_unpack_with 23 8)
    |intros; apply (pack_unpack_with 52 11)|apply pack_unpack_f80]; done || lia.
Qed.

(** * Square roots and fused multiply-add *)

(** The square root is correctly rounded, and computing it terminates. For every finite
    positive operand the integer root's loops finish within the iterations they are given, and
    the result is the correctly rounded real square root in every format and mode, with exact
    flags; a negative operand is invalid. *)
Theorem sse_sqrt_correct f mx a :
  fmt_ok f → daz mx = false → ftz mx = false → finite_op 64 a →
  ∃ v fl, sse_sqrt a f mx = Some (v, fl) ∧
    (sign a = true → v = INDEFINITE ∧ has fl INVALID) ∧
    (sign a = false →
       rounds f (mx_mode mx) (R_sqrt.sqrt (val a)) v ∧ sign v = false ∧
       (has fl INEXACT ↔ class v = Inf ∨ val v ≠ R_sqrt.sqrt (val a)) ∧ ¬ has fl INVALID).
Proof.
  intros Hf Hd Hz Ha. unfold sse_sqrt, is_nan. rewrite (o_class _ _ Ha). simpl. rewrite mx_input_id by done.
  destruct (sign a) eqn:Es.
  - unfold sqrt. rewrite (o_class _ _ Ha), Es. cbn [mbind option_bind]. rewrite mx_output_id by done.
    eexists _, _. split; [done|]. split; [|done]. intros _. split; [done|]. by destruct (is_denormal a f).
  - destruct (sqrt_correct f (mx_mode mx) a Hf Ha Es) as (r & -> & Hc). cbn [mbind option_bind].
    rewrite mx_output_id by done. eexists _, _. split; [done|]. split; [done|]. intros _.
    destruct (denormal_flags _ (is_denormal a f) false (c_invalid _ _ _ _ Hc)) as (F1 & _ & _).
    rewrite Z.lor_0_r in F1. rewrite !F1 by done. destruct Hc as [C1 C2 C3 _ _ C6 _ _ _]. split_and!; [done| |done|].
    + rewrite C2. apply nonneg_abs. apply sqrt_pos.
    + unfold has. intros Hn. apply Hn. change INVALID with (Z.land (Z.lor INVALID (Z.lor DENORMAL DIVZERO)) INVALID).
      by rewrite Z.land_assoc, C6.
Qed.

(** C36: the fused multiply-add rounds once. For finite nonzero factors and any numeric addend of
    at most 53 significand bits, the result is the correctly rounded exact [a * b + c], however
    far the product and the addend cancel, with exact flags; an exactly zero sum has the sign
    the mode gives. *)
Theorem fma_rounds_once f mode a b c :
  fmt_ok f → finite_op 53 a → finite_op 53 b → numeric 53 c →
  let x := (val a * val b + val c)%R in
  (x ≠ 0%R → correct f mode x (fma a b c f mode)) ∧
  (x = 0%R → fma a b c f mode = rexact (fp_zero (bool_decide (mode = Down)))).
Proof. intros Hf Ha Hb Hc. apply (fma_correct f mode a b c Hf Ha Hb Hc). Qed.

(** The integer square root terminates on every 128-bit input: 68 iterations of each of its
    loops are enough, more change nothing, and the value is the floor of the root. *)
Theorem isqrt128_terminates n fuel :
  0 ≤ n < U128 → (isqrt_fuel ≤ fuel)%nat →
  ∃ q, isqrt128 fuel n = Some q ∧ q * q ≤ n < (q + 1) * (q + 1).
Proof.
  intros Hn Hf. exists (Z.sqrt n). split; [by apply isqrt128_spec|].
  pose proof (Z.sqrt_spec n ltac:(lia)). unfold Z.succ in *. lia.
Qed.

Lemma pack_unpack_roundtrip_witness : pack_f80 (unpack_f80 0x3fff8000000000000001) = 0x3fff8000000000000001.
Proof. apply (pack_unpack_roundtrip 0x3fff8000000000000001); [lia|split; [intros _; discriminate|reflexivity]]. Defined.

Lemma fmt64_ok : fmt_ok FMT64.
Proof. split; simpl; lia. Qed.

Lemma sse_sqrt_correct_witness :
  ∃ v fl, sse_sqrt (unpack_f64 0x4000000000000000) FMT64 mx_default = Some (v, fl) ∧
    rounds FMT64 Nearest (R_sqrt.sqrt (val (unpack_f64 0x4000000000000000))) v.
Proof.
  destruct (sse_sqrt_correct FMT64 mx_default (unpack_f64 0x4000000000000000)) as (v & fl & E & _ & H).
  - exact fmt64_ok.
  - reflexivity.
  - reflexivity.
  - split; [reflexivity|vm_compute; split; reflexivity|vm_compute; discriminate].
  - exists v, fl. split; [exact E|]. apply H. reflexivity.
Defined.

(** [1.0], for the witness below. *)
Definition one64 : Fp := unpack_f64 0x3ff0000000000000.
Lemma one64_op : finite_op 53 one64.
Proof. split; [reflexivity|vm_compute; split; reflexivity|vm_compute; discriminate]. Qed.

Lemma fma_rounds_once_witness :
  let x := (val one64 * val one64 + val (fp_neg one64))%R in
  (x ≠ 0%R → correct FMT64 Down x (fma one64 one64 (fp_neg one64) FMT64 Down)) ∧
  (x = 0%R → fma one64 one64 (fp_neg one64) FMT64 Down = rexact (fp_zero true)).
Proof.
  apply (fma_rounds_once FMT64 Down one64 one64 (fp_neg one64) fmt64_ok one64_op one64_op).
  right. split; [reflexivity|vm_compute; split; reflexivity|vm_compute; discriminate].
Defined.

Lemma isqrt128_terminates_witness : ∃ q, isqrt128 isqrt_fuel 10 = Some q ∧ q * q ≤ 10 < (q + 1) * (q + 1).
Proof. apply (isqrt128_terminates 10 isqrt_fuel); [unfold U128; lia|lia]. Defined.
